(* ===== verification/_CoqProject ===== *)
-Q . S2P
Prelude.v
Ops.v
Paths.v
GoStrings.v
Sha256.v
SandboxID.v
Netip.v
Models.v
SandboxFields.v
Records.v
Restart.v
Supervisor.v
Wire.v
Store.v
Secret.v
Repository.v
Network.v
Pool.v
HostNetwork.v
Replacer.v
Http.v
Routes.v
Headers.v
Tokens.v
PreAuth.v
Front.v
Page.v
Size.v
EgressPolicy.v
EgressDecide.v
EgressCompile.v
Ruleset.v
Broker.v
EgressLog.v
EgressFollow.v
EgressTail.v
Proxy.v
ProxyGuard.v
ProxyConns.v
LogRate.v
Netstack.v
Daemon.v
Dns.v
Rootfs.v
Tarball.v
Users.v
Forwarder.v
ExecTable.v
Locks.v
ExecBuffer.v
Host.v
Registry.v
Merge.v
Images.v
ImageTree.v
Snapshots.v
Moves.v
Lab.v
Lifecycle.v
Settle.v
Reconcile.v
Processes.v
ProcessTable.v
Checkpoint.v
Ports.v
Creation.v
Rights.v
Env.v
Grants.v
Stores.v
Holders.v
Verbs.v
Removal.v
Service.v
Birth.v
PortClaims.v
Typed.v
Outcomes.v
Liveness.v
Machine.v
