(* ===== verification/Prelude.v ===== *)
(** * A verification library for shard

    shard runs sandboxes for agents on a host: a daemon keeps one record per sandbox, gives each an address and
    a place on the host's network, holds it to an egress policy at the host, puts secrets into its requests at a
    proxy so that the guest never holds one, and runs its named processes through an init inside the guest. Operators
    reach the daemon over a socket, or from afar over TCP with a token; sandboxes are made from images and snapshots. This
    library models the parts that decide those things, translated from the Go sources under [src/], and proves
    what each promises. A Go function that answers [(T, error)] is a function into [result]; a loop is a
    structural [Fixpoint] over what the loop ranges over, or over fuel shown to be enough; a method that changes
    state takes and answers the state; a system call that can fail takes its outcome as an argument, so a
    statement over all arguments covers every failure.

    ** The parts and their files

    - [Prelude] (this file): results, booleans, lists, machine integers, the tactics of the library.
    - [Ops]: a state-and-error monad whose operations also answer the states on the way, and its triples: what
      holds at every state holds for a crash or a lock-free reader anywhere. Used by the repositories, the image tree,
      [HostNetwork] and the verbs.
    - [GoStrings], [Netip], [Sha256], [Http], [Replacer]: what the sources use of Go's standard library: [strings],
      [strconv], [net/netip] (IPv4 and IPv6 addresses, prefixes, parsing and printing), [crypto/sha256],
      [encoding/base64] and canonical headers, [strings.NewReplacer].
    - [Models] ([models/]): the sandbox record, its lifecycle states, policies, processes, restart policies.
    - [Restart] ([cmd/shard-init/restart.go], [services/sandbox/{restart,process,oom}.go]): when a process or a
      sandbox starts again, and how a guest's table of processes is folded into the record.
    - [Supervisor] ([cmd/shard-init/{process,main}.go]): the guest's process table as a step relation: runs, deaths,
      timers, stops, the out-of-memory cut.
    - [Wire] ([services/supervisor/wire.go]): the frames and lines between the host and the guest's init.
    - [Store] ([pkg/store/atomic.go]): crash-safe file writes, one system call at a time.
    - [Secret] ([services/secret/secret.go]): the secret store, placeholders and destinations.
    - [SandboxID], [Repository] ([services/sandboxstate/]): ids and names, the records with their name index and
      the generation a reader caches by; [Records] is the class of what the repository promises a reader,
      [Repository] has its instance and [Broker] is proved against the class.
    - [Network] ([services/network/{egress,local,judge}.go]): compiled rules, the private floor, the host's own
      addresses, the judge of the user-space stack. [Pool] ([pool.go]): one address per sandbox, leases as files.
      [Forwarder] ([services/portforward/portforward.go]): the listeners of the host ports and the connections through them.
      [HostNetwork] ([network.go], [addresses.go], [firewall.go]): the layout of the subnet and the calls that
      build and undo a sandbox's side of the host network.
    - [EgressPolicy] ([services/egress/policy.go], [FormatRule]): the rule language and the policy store.
      [EgressDecide] ([decide.go], [Effective]): what a connection or a name is decided to. [EgressCompile]
      ([compile.go]): policies to chains of prefixes, the held compile and its cache. [Ruleset] ([services/network/egress.go]):
      the text of the whole nft ruleset, read back into chains of rules with what they do to a packet.
    - [Broker] ([services/broker/broker.go]): who is asking, the verdict and its log record, the rewrite of a
      request's placeholders. [Dns] ([pkg/dns/server.go]): the resolver on the gateway, whose director the broker is.
      [Proxy] ([pkg/proxy/{server,conns}.go]): the requests of the fronted sandboxes, in flight at once, from what names one to the
      dial of its upstream, over any director; [ProxyGuard] proves it against what a director promises, the class [Promise], of
      which the broker is an instance; [ProxyConns] has the connections and their h2 shares; [LogRate] ([pkg/lograte]) the lines a
      guest may cause in the log of the daemon.
    - [Netstack] ([pkg/netstack/{policy,forward,netstack}.go]): the stack in user space that ends the frames of a VM, and the flows
      it forwards once the judge of [Network] allowed them.
    - [Daemon] ([services/daemon/{select,reserve,daemon,supervise,taskstate}.go]): the choice of the substrate, the disk space it
      holds back, the locks of a run and the tasks it keeps running.
    - The log of the decisions of a sandbox: [EgressLog] ([services/egress/log.go], [LogReader.Read]) appends, rotates and reads
      it; [EgressFollow] ([follow.go]) is a follow of it, beside appends and other follows; [EgressTail] ([read.go], [tail.go])
      takes the drops of the host chains out of the kernel's ring and writes each into the log of its sandbox.
    - The API: [Routes] ([services/api/{api,huma}.go], [services/serve/scopes.go], [models/scope.go]): the table of routes,
      the scope each asks for, and [http.ServeMux] as it picks one. [Page] ([services/api/page.go]): lists handed out in
      pages. [Rights] ([services/api/api.go]): the scopes that the body of a create, or the source of a fork, asks for. [Size]
      ([pkg/size]): the sizes of flags. The TCP front ([services/serve/]): [Headers] is the head of a request, as the
      front reads it and as the daemon does; [Tokens] the tokens and the ledger of minted ones ([jwt.go], [ledger.go]);
      [PreAuth] the slots of the connections that have shown none ([preauth.go]); [Front] one connection from
      its first byte to what reaches the daemon ([serve.go], [guard.go]).
    - What comes from a guest or a registry: [Rootfs] is a directory under [os.Root]; [Tarball] ([pkg/tarball]) unpacks a tar
      of the guest's under it; [Users] ([services/bundle/{user,workdir}.go]) looks up a user and walks a path as the guest
      would.
    - Images: [Registry] ([pkg/registry]) is the layout on disk, [Images] ([services/image/{image,remove}.go]) what a digest
      unpacks into and its removal, [ImageTree] the invariant of both; [Merge] ([services/image/disk.go]) makes one disk of
      the layers. [Snapshots] ([services/sandboxstate/snapshots.go]) is the snapshot repository.
    - The sandbox service ([services/sandbox/]), which drives all of the above and the substrate:
      - [Host]: the calls its verbs make of the layers below (the interfaces of [Config] and [models.Provider]), the
        errors they tell apart, and the class of a host, any state that performs the calls; a service is the
        repository, a host and the table of execs. [Lab] is a small host to run the verbs on, in one make
        with a substrate that refuses a create.
      - [Lifecycle] ([service.go], [teardown.go]): start, stop, rm and what they share. [Creation] ([Prepare], [Complete],
        [validate], [snapshots.go], [services/runspec], the trust and disk bounds of [services/bundle]). [Checkpoint]
        ([checkpoint.go], [capabilities.go]): pause, resume, fork. [Reconcile] ([reconcile.go], [liveness.go], and [reconciler.Reconcile]
        of [services/daemon/api.go]): records against the substrate, on the tick and at the start of a daemon. [Processes] ([process.go], [launchable.go], [autostart.go], [oom.go]): named processes and
        the starts that bring them back. [Ports] ([ports.go]), [Grants] ([policies.go], [secrets.go]), [Stores]
        ([stores.go]: policies, secrets and images against the records that hold them; [Holders] has the creates, the
        snapshots and the removals of images at once).
      - [ExecTable], [ExecBuffer] ([exec.go]): the table of execs with its admission and caps; the output buffer, its
        writers and its client as steps in any order. [Locks] ([service.go]): the locks of the sandboxes, run by any
        number of goroutines.
    - [Paths]: the logic the verbs are checked in: what relates two states an operation goes through one after the other,
      and what holds where it ends. [Moves] is the relation of the lifecycle, with the invariants it keeps and the class
      [Holdings] of what the network and the substrate promise; [Verbs], [Removal], [Service], [Birth] check every verb
      against it. [SandboxFields] has the setters of the record.
    - [Machine], [Outcomes], [Settle], [Liveness], [PortClaims], [Typed], [ProcessTable], [Env]: the theorems.

    ** What the theorems show

    - Lifecycle: whatever the layers below answer and wherever a verb is cut, the records move along the machine of
      [models/state.go], but for the moves of a removal by force and of the start of a daemon that it does not list, which are
      named ([verbs_refine_machine]), and the host holds nothing that no record names ([nothing_orphaned]); a
      removal frees all or says exactly what is left ([Remove_frees]); a refused create gives back what it claimed
      ([create_gives_back]); a verb that succeeds leaves the state it is named for ([verbs_land]); a stop returns
      ([awaitStopped_returns]); a sandbox out of memory comes back ([oom_restart_lands]); which corrections of a new
      daemon leave the machine ([reconciled_moves]).
    - What a record holds: a create begins well typed ([Prepare_typed]); one host port, one sandbox ([ports_stay_apart]);
      room for a process ([admitted_room]); the environment ([MergeEnv_spec]).
    - Images and snapshots: a removal that is not forced never takes what a sandbox or a snapshot was handed, whatever the
      order of creates, pulls, snapshots and removals ([handed_stays], [held_image_stays]); the disk of a VM holds what
      stacking the layers gives ([disk_is_overlay]); a snapshot is created whole or not at all and a sweep clears what a
      crash left ([snapshot_created], [sweep_clears]).
    - The API from afar: what reaches the daemon carries a live token's scopes and no other ([front_passes]); a revoked
      token stops a connection that is open ([revoked_stops]); the front and the daemon agree on the scope of every request
      ([scope_agrees]); the slots before a token are bounded and given back ([slots_counted]); a token gives a new sandbox no
      secret, policy or port it has no scope for ([create_rights], [fork_rights]).
    - Untrusted input: a tar of a guest writes under its directory alone and within its cap ([unpack_keeps]), and leaves no
      link that points out ([links_checked]); a path is walked as the guest's kernel would ([guestPath_agrees]); no name
      is asked upstream before it is judged ([upstream_judged]), by a bounded number of askers ([resolver_bounded]).
    - Ports: a forward carries connections to its own sandbox, and none is carried once it is closed ([forwards_apart]).
    - Concurrency: the locks exclude, and are freed when unused ([locks_exclusive]); a client that stays gets all the
      output its exec wrote before it was closed ([stream_delivers]) out of a bounded buffer ([buffer_account]); the slots of execs are counted
      right ([exec_slots]) and the ended ones capped ([capExitedExecs_spec]).
    - Egress: no policy opens the private floor or the host's own addresses ([Decide_floor]); the proxy's decision
      and the packet judge agree ([Judge_agrees_Decide]); no sandbox that needs a chain is left without one or on
      an older policy's ([Chains_guard]); the ruleset, as its text reads, accepts of the packets of a guarded sandbox exactly
      what the judge does and nothing may dial in ([ruleset_enforces], [nothing_dials_in]); name patterns, name resolution and final denials mean what they say
      ([MatchHost_spec], [Resolves_spec], [Unresolved_final], [Decide_name_resolves]); rules parse, print and store
      without change ([ParseRule_FormatBody], [ParseRule_valid], [parsePorts_spec], [Policy_Set_Get],
      [Policy_Get_valid]).
    - The log of decisions: it keeps the newest, whatever appends failed ([log_keeps_newest]); a follow gives each record once
      and in order, or says it fell behind ([follow_delivers]); a drop of the host goes to the sandbox that sent it or nowhere
      ([attribute_right]), what the chains log reads back ([hostDrop_logged]), and a new run of the tailer goes on where the last
      one stopped ([restart_resumes]).
    - The proxy: whatever it dials was allowed for the sandbox that asked, as the records, the resolver and the interfaces of the
      host answered it, and its log says so, at the address that was judged, for the host that was judged ([proxy_judged]); what a source is charged is what its requests hold, within its budget
      ([proxy_accounts]), its connections are within their shares ([conns_bounded]), and every line it caused is written or counted
      ([lines_accounted]).
    - The user-space stack: only frames of the link's own guest are taken ([taken_frames]), and only flows the judge allowed are
      dialed, within their shares and gone with their link ([flows_ruled]).
    - The daemon: a root stays with the substrate that made it ([root_keeps_provider]); a run works under its locks and gives all
      of it back ([run_guarded]); a task that fails waits within its bounds ([supervise_bounded]).
    - Secrets: a value reaches only the hosts it is granted to, over TLS ([Rewrite_confined], [Rewrite_untouched]);
      the rewrite is the replacer's answer, paid for first ([rewrite_spec], [longest_placeholder]); the store keeps
      placeholders apart and gives back what was set ([Set_preserves_store_ok], [Set_then_Get]).
    - Records: writes are atomic ([WriteFile_atomic]), a create is all or nothing ([Create_all_or_nothing]), a name
      leads to its own sandbox through every crash, unless the sync of its own link failed ([Resolve_names]; [Create_leaks_name]
      runs that case), the generation never misses a change
      ([Generation_never_misses]), so the broker never names a sandbox from a stale map ([sandbox_fresh]); ids are
      valid and no name is spelled like one ([formatID_spec]).
    - Host network: leases are unique, stable and given back ([allocate_lease], [allocate_full], [release_lease]);
      the layout is sound ([New_layout], [conflict_spec], [hostInterface_unique]); a port is pinned and isolated
      before it is up ([ports_guarded]).
    - Processes: the supervisor's table is consistent in every reachable state ([supervisor_safe]), timers start
      only what waits ([wake_starts_waiting]), nothing starts after a stop ([off_starts_nothing]); waits and
      retries are bounded ([wait_spec], [oomBackoff_spec], [restartOf_accepted]); the record holds the guest's
      latest word ([merged_latest]); what one end of the wire writes the other reads ([wire_roundtrip]).

    ** Bounds and fuel

    [Pool.allocate_go] runs on one turn more than the subnet has addresses, which [allocate_full] shows is enough;
    [EgressDecide.fresh_go] on one turn more than the longest label a rule spells; [Netip.ipv6_groups] on the eight
    turns of the source's loop; [Repository.claim_go] on the ten attempts of the source and [removeTrash] on its
    three; the loops of [Wire] on one turn more than the bytes they consume, each turn taking one at least;
    [Lifecycle.await_go] on the polls its settle allows, which [awaitStopped_returns] shows is enough on a clock that
    goes forward; [Dns.serve_go] on the bytes of the connection, each message taking two at least; [Merge.dropUnder] on the
    depth of the index; the walks of [Rootfs] and [Users] on the number of links the source follows before it gives up, and
    the pieces of the path; [Ruleset.run] on the sixteen nested jumps the kernel allows, of which the ruleset takes two.
    Durations are 64-bit nanosecond counts and the theorems say where they cannot overflow. A host
    interface's offset wraps at 32 bits, as in the source.

    ** What is not modelled

    Sockets, processes and namespaces themselves, the proxy's TLS and its copying of bytes, the decoding of a request's body
    in the handlers of the API, the CLI and the client, the setup of a host, and the substrates (gVisor, Firecracker, the
    macOS VM), which are calls into a kernel or a hypervisor. A resolver, a public-suffix list, Unicode case tables, the
    netns manager, the readers of DNS messages and of image references, the contents of a blob, what a registry answers,
    the json coding of a log record, the layout of a frame, the token bucket of a log and the signature of a token are parameters, with what the code relies on as hypotheses. A rewrite of one request reserves all its
    bytes in one step of the proxy. The [List] of the repository is
    taken at one instant though the source walks the directory; operations of one component run one after the
    other, with lock-free readers and crashes at every state between. Of the sandbox service: the texts
    of errors and reports (an error is its kind, a wrapped error the error itself), the budgets of contexts (a bound
    that passed is an answer of the host), the wait for a lock inside a verb ([Locks] has the locks themselves), the
    launch of an exec with its terminal and stdin, guest files and logs. Of the start of a
    daemon, the sweeps of exec scratch and of snapshots only answer whether they work ([Snapshots] has the second), and what
    [reserve.retry] finds is an answer too ([Daemon] has it). *)

From stdpp Require Export base gmap strings list sorting pretty.
From Stdlib Require Export Ascii ZArith Lia.

(** ** Results

    A Go function that answers [(T, error)] is a function into [result E T]: the
    error type [E] of each component is an inductive type with one constructor per
    refusal the source can answer. *)

Inductive result (E A : Type) : Type :=
| Ok (a : A)
| Err (e : E).
Arguments Ok {E A} a.
Arguments Err {E A} e.

Declare Scope result_scope.
Delimit Scope result_scope with result.

#[export] Instance result_ret E : MRet (result E) := λ A a, Ok a.
#[export] Instance result_bind E : MBind (result E) :=
  λ A B f m, match m with Ok a => f a | Err e => Err e end.
#[export] Instance result_fmap E : FMap (result E) :=
  λ A B f m, match m with Ok a => Ok (f a) | Err e => Err e end.

Definition is_ok {E A} (r : result E A) : bool :=
  match r with Ok _ => true | Err _ => false end.

Definition map_err {E F A} (f : E → F) (r : result E A) : result F A :=
  match r with Ok a => Ok a | Err e => Err (f e) end.

#[export] Instance result_eq_dec `{EqDecision E, EqDecision A} : EqDecision (result E A).
Proof. solve_decision. Defined.

Lemma bind_Ok {E A B} (f : A → result E B) (m : result E A) b :
  m ≫= f = Ok b ↔ ∃ a, m = Ok a ∧ f a = Ok b.
Proof. destruct m; simpl; naive_solver. Qed.

Lemma bind_Err {E A B} (f : A → result E B) (m : result E A) e :
  m ≫= f = Err e ↔ m = Err e ∨ ∃ a, m = Ok a ∧ f a = Err e.
Proof. destruct m; simpl; naive_solver. Qed.

(** [first_err f l] is the Go loop [for _, x := range l { if err := f(x); err != nil { return err } }]. *)
Fixpoint first_err {E A} (f : A → result E unit) (l : list A) : result E unit :=
  match l with
  | [] => Ok tt
  | x :: l => match f x with Err e => Err e | Ok _ => first_err f l end
  end.

Lemma first_err_Ok {E A} (f : A → result E unit) l :
  first_err f l = Ok tt ↔ Forall (λ x, f x = Ok tt) l.
Proof.
  induction l as [|x l IH]; simpl; [naive_solver|].
  rewrite Forall_cons, <- IH. destruct (f x) as [[]|]; naive_solver.
Qed.

(** [map_result f l] collects the answers of [f], or the first refusal. *)
Fixpoint map_result {E A B} (f : A → result E B) (l : list A) : result E (list B) :=
  match l with
  | [] => Ok []
  | x :: l => match f x with
              | Err e => Err e
              | Ok y => match map_result f l with Err e => Err e | Ok ys => Ok (y :: ys) end
              end
  end.

Lemma map_result_Ok {E A B} (f : A → result E B) l ys :
  map_result f l = Ok ys ↔ Forall2 (λ x y, f x = Ok y) l ys.
Proof.
  revert ys. induction l as [|x l IH]; intros ys; simpl.
  - split; [intros [= <-]; constructor | intros H; inversion H; done].
  - destruct (f x) as [y|e] eqn:Hx.
    + destruct (map_result f l) as [ys'|e] eqn:Hl.
      * split.
        -- intros [= <-]. constructor; [done|]. by apply IH.
        -- intros H. inversion H as [|? ? ? ? Hy Hr]; subst. apply IH in Hr. congruence.
      * split; [done|]. intros H. inversion H as [|? ? ? ? Hy Hr]; subst. apply IH in Hr. congruence.
    + split; [done|]. intros H. inversion H as [|? ? ? ? Hy Hr]; subst. congruence.
Qed.

(** ** Machine integers

    A Go [int] is 64 bits on every host shard supports. *)
Definition min_int64 : Z := -(2 ^ 63).
Definition max_int64 : Z := 2 ^ 63 - 1.
Definition in_int64 (z : Z) : Prop := (min_int64 ≤ z ≤ max_int64)%Z.
Definition wrap_u (w : Z) (z : Z) : Z := (z mod 2 ^ w)%Z.

(** ** Booleans

    Every guard of the source is a [bool]; the hint database [shard] and the tactic
    [breflect] turn the booleans into the propositions they decide. *)
Create HintDb shard.

Lemma bool_decide_and `{Decision P, Decision Q} :
  bool_decide P && bool_decide Q = bool_decide (P ∧ Q).
Proof. repeat case_bool_decide; naive_solver. Qed.

Ltac breflect_step :=
  match goal with
  | H : _ && _ = true |- _ => apply andb_true_iff in H; destruct H
  | H : _ || _ = false |- _ => apply orb_false_iff in H; destruct H
  | H : negb _ = true |- _ => apply negb_true_iff in H
  | H : negb _ = false |- _ => apply negb_false_iff in H
  | H : bool_decide _ = true |- _ => apply bool_decide_eq_true in H
  | H : bool_decide _ = false |- _ => apply bool_decide_eq_false in H
  | H : (_ <? _)%Z = true |- _ => apply Z.ltb_lt in H
  | H : (_ <? _)%Z = false |- _ => apply Z.ltb_ge in H
  | H : (_ <=? _)%Z = true |- _ => apply Z.leb_le in H
  | H : (_ <=? _)%Z = false |- _ => apply Z.leb_gt in H
  | H : (_ =? _)%Z = true |- _ => apply Z.eqb_eq in H
  | H : (_ =? _)%Z = false |- _ => apply Z.eqb_neq in H
  | H : (_ <? _)%nat = true |- _ => apply Nat.ltb_lt in H
  | H : (_ <? _)%nat = false |- _ => apply Nat.ltb_ge in H
  | H : (_ <=? _)%nat = true |- _ => apply Nat.leb_le in H
  | H : (_ <=? _)%nat = false |- _ => apply Nat.leb_gt in H
  end.
Ltac breflect := repeat breflect_step.

(** [case_guards H] splits every [if] and [match] of [H] and drops the impossible branches. *)
Ltac case_guards H :=
  repeat (match type of H with
          | context [if ?b then _ else _] => destruct b eqn:?
          | context [match ?x with _ => _ end] => destruct x eqn:?
          end; try discriminate H).

(** ** Lists *)

Definition lastn {A} (n : nat) (l : list A) : list A := drop (length l - n) l.

Lemma existsb_elem_of {A} (f : A → bool) (l : list A) :
  existsb f l = true ↔ ∃ x, x ∈ l ∧ f x = true.
Proof. rewrite existsb_exists. by setoid_rewrite list_elem_of_In. Qed.

Lemma existsb_false {A} (f : A → bool) (l : list A) :
  existsb f l = false ↔ ∀ x, x ∈ l → f x = false.
Proof.
  rewrite <- not_true_iff_false, existsb_elem_of. split.
  - intros H x Hx. apply not_true_iff_false. naive_solver.
  - intros H [x [Hx Hf]]. rewrite (H x Hx) in Hf. done.
Qed.

(** [slices.Contains] *)
Definition contains {A} `{EqDecision A} (l : list A) (x : A) : bool := bool_decide (x ∈ l).

Lemma contains_elem_of {A} `{EqDecision A} (l : list A) x : contains l x = true ↔ x ∈ l.
Proof. unfold contains. by rewrite bool_decide_eq_true. Qed.

(** The first element a predicate takes: the shape of every first-match-wins loop of shard. *)
Fixpoint first_match {A} (f : A → bool) (l : list A) : option A :=
  match l with
  | [] => None
  | x :: l => if f x then Some x else first_match f l
  end.

Lemma first_match_Some {A} (f : A → bool) l x :
  first_match f l = Some x ↔
  ∃ before after, l = before ++ x :: after ∧ f x = true ∧ Forall (λ y, f y = false) before.
Proof.
  induction l as [|y l IH]; simpl.
  - split; [done|]. intros ([|] & ? & ? & _); done.
  - destruct (f y) eqn:Hy.
    + split.
      * intros [= ->]. exists [], l. done.
      * intros ([|z bs] & after & Heq & Hx & Hb); simplify_eq/=; [done|].
        apply Forall_cons in Hb as [Hb _]. congruence.
    + rewrite IH. split.
      * intros (bs & after & -> & Hx & Hb). exists (y :: bs), after. auto.
      * intros ([|z bs] & after & Heq & Hx & Hb); simplify_eq/=; [congruence|].
        apply Forall_cons in Hb as [_ Hb]. exists bs, after. auto.
Qed.

Lemma first_match_None {A} (f : A → bool) l :
  first_match f l = None ↔ Forall (λ y, f y = false) l.
Proof.
  induction l as [|y l IH]; simpl; [done|].
  rewrite Forall_cons. destruct (f y); naive_solver.
Qed.

Lemma filter_Forall {A} (P : A → Prop) `{∀ x, Decision (P x)} (l : list A) : Forall P l → filter P l = l.
Proof. induction 1 as [|x l Hx Hl IH]; [done|]. by rewrite filter_cons_True, IH. Qed.

Lemma fmap_id_Forall {A} (f : A → A) (l : list A) : Forall (λ x, f x = x) l → f <$> l = l.
Proof. induction 1 as [|x l Hx Hl IH]; [done|]. by rewrite fmap_cons, Hx, IH. Qed.

(** ** Sums over a map *)

Definition map_sum `{Countable K} {A} (w : A → Z) (m : gmap K A) : Z := map_fold (λ _ x acc, w x + acc)%Z 0%Z m.

Section Sums.
Context `{Countable K} {A : Type} (w : A → Z).
Implicit Types m : gmap K A.
Local Open Scope Z_scope.

Lemma map_sum_insert id x m : m !! id = None → map_sum w (<[id := x]> m) = w x + map_sum w m.
Proof. intros Hm. unfold map_sum. rewrite map_fold_insert_L; [done| |done]. intros. lia. Qed.

Lemma map_sum_delete id x m : m !! id = Some x → map_sum w m = w x + map_sum w (delete id m).
Proof. intros Hm. unfold map_sum. rewrite (map_fold_delete_L _ _ id x m); [done| |done]. intros. lia. Qed.

Lemma map_sum_move id x y m : m !! id = Some x → map_sum w (<[id := y]> m) = map_sum w m + (w y - w x).
Proof.
  intros Hm. rewrite <- insert_delete_eq, map_sum_insert by apply lookup_delete_eq. rewrite (map_sum_delete id x m Hm). lia.
Qed.

Lemma map_sum_nonneg m : (∀ id x, m !! id = Some x → 0 ≤ w x) → 0 ≤ map_sum w m.
Proof.
  induction m as [|id x m Hm IH] using map_ind; intros Hw; [done|].
  rewrite map_sum_insert by done. assert (0 ≤ w x) by (apply (Hw id); by simplify_map_eq).
  assert (0 ≤ map_sum w m); [|lia]. apply IH. intros j y Hj. apply (Hw j). rewrite lookup_insert_ne; [done|]. congruence.
Qed.

Lemma map_sum_none m : (∀ id x, m !! id = Some x → w x = 0) → map_sum w m = 0.
Proof.
  induction m as [|id x m Hm IH] using map_ind; intros Hw; [done|].
  rewrite map_sum_insert, IH by (done || (intros j y Hj; apply (Hw j); rewrite lookup_insert_ne; [done|congruence])).
  rewrite (Hw id); [done|by simplify_map_eq].
Qed.

End Sums.
