(* ===== verification/Ops.v ===== *)
(** * Operations followed change by change

    A small monad for code that changes a shared state and can be refused half way: an operation answers the
    states it went through, the state it ends in and a result. A crash, or a reader that takes no lock, finds
    one of the states on the way. *)

From S2P Require Import Prelude.

Definition op (S E A : Type) : Type := S → list S * S * result E A.

Section Ops.
Context {S E : Type}.

Definition ret {A} (a : A) : op S E A := λ r, ([], r, Ok a).
Definition fail {A} (e : E) : op S E A := λ r, ([], r, Err e).
Definition touch (f : S → S) : op S E unit := λ r, ([f r], f r, Ok tt).
Definition ask {A} (f : S → result E A) : op S E A := λ r, ([], r, f r).

Definition bind {A B} (m : op S E A) (k : A → op S E B) : op S E B := λ r,
  match m r with
  | (t, r1, Err e) => (t, r1, Err e)
  | (t, r1, Ok a) => let '(t2, r2, b) := k a r1 in (t ++ t2, r2, b)
  end.

(** A deferred call: it runs on every exit of [m], and answers nothing. *)
Definition deferred {A} (f : S → S) (m : op S E A) : op S E A := λ r,
  let '(t, r1, a) := m r in (t ++ [f r1], f r1, a).

(** [errors.Join(e, cleanup)] after a refusal: the cleanup runs, the refusal is answered. *)
Definition refused {A} (e : E) (cleanup : op S E unit) : op S E A := λ r,
  let '(t, r1, _) := cleanup r in (t, r1, Err e).

(** A step whose refusal is cleaned up after: [errors.Join(err, cleanup())]. *)
Definition or_undo {A} (m : op S E A) (cleanup : op S E unit) : op S E A := λ r,
  match m r with
  | (t, r1, Err e) => let '(t2, r2, _) := cleanup r1 in (t ++ t2, r2, Err e)
  | answer => answer
  end.

Definition check (e : E) (b : bool) : op S E unit := if b then ret tt else fail e.

End Ops.

Declare Scope op_scope.
Delimit Scope op_scope with op.
Notation "x '<~' m ';;' k" := (bind m (λ x, k)) (at level 100, m at next level, right associativity) : op_scope.
Notation "m ';;;' k" := (bind m (λ _, k)) (at level 100, right associativity) : op_scope.

(** * Reasoning about operations

    [triple I P m Q]: started in a state of [I] and [P], [m] keeps [I] at every state on the way and ends in
    one of [I] that [Q] relates to the answer. *)

Definition triple {S E A} (I : S → Prop) (P : S → Prop) (m : op S E A) (Q : result E A → S → Prop) : Prop :=
  ∀ r, I r → P r → let '(t, r', a) := m r in Forall I t ∧ I r' ∧ Q a r'.

Section Rules.
Context {S E : Type} (I : S → Prop).

Lemma triple_ret {A} (P : S → Prop) (a : A) (Q : result E A → S → Prop) :
  (∀ r, I r → P r → Q (Ok a) r) → triple I P (ret a) Q.
Proof. intros H r Hi Hp. simpl. split; [constructor|auto]. Qed.

Lemma triple_fail {A} (P : S → Prop) e (Q : result E A → S → Prop) :
  (∀ r, I r → P r → Q (Err e) r) → triple I P (fail e) Q.
Proof. intros H r Hi Hp. simpl. split; [constructor|auto]. Qed.

Lemma triple_ask {A} (P : S → Prop) f (Q : result E A → S → Prop) :
  (∀ r, I r → P r → Q (f r) r) → triple I P (ask f) Q.
Proof. intros H r Hi Hp. simpl. split; [constructor|auto]. Qed.

Lemma triple_touch (P : S → Prop) f (Q : result E unit → S → Prop) :
  (∀ r, I r → P r → I (f r) ∧ Q (Ok tt) (f r)) → triple I P (touch f) Q.
Proof. intros H r Hi Hp. simpl. destruct (H r Hi Hp). split; [by repeat constructor|done]. Qed.

Lemma triple_bind {A B} (P : S → Prop) (m : op S E A) (k : A → op S E B) M Q :
  triple I P m (λ a r, match a with Ok a => M a r | Err e => Q (Err e) r end) →
  (∀ a, triple I (M a) (k a) Q) → triple I P (bind m k) Q.
Proof.
  intros Hm Hk r Hi Hp. specialize (Hm r Hi Hp). unfold bind. destruct (m r) as [[t r1] [a|e]]; [|done].
  destruct Hm as (Ht & Hi1 & Hm). specialize (Hk a r1 Hi1 Hm). destruct (k a r1) as [[t2 r2] b].
  destruct Hk as (Ht2 & Hi2 & Hq). split; [by apply Forall_app|done].
Qed.

Lemma triple_check (P : S → Prop) e (b : bool) (Q : result E unit → S → Prop) :
  (∀ r, I r → P r → if b then Q (Ok tt) r else Q (Err e) r) → triple I P (check e b) Q.
Proof. unfold check. destruct b; intros H; [by apply triple_ret|by apply triple_fail]. Qed.

Lemma triple_deferred {A} (P : S → Prop) f (m : op S E A) (Q Q' : result E A → S → Prop) :
  triple I P m Q' → (∀ a r, I r → Q' a r → I (f r) ∧ Q a (f r)) → triple I P (deferred f m) Q.
Proof.
  intros Hm Hf r Hi Hp. specialize (Hm r Hi Hp). unfold deferred. destruct (m r) as [[t r1] a].
  destruct Hm as (Ht & Hi1 & Hq). destruct (Hf a r1 Hi1 Hq). split; [|done].
  apply Forall_app. split; [done|by repeat constructor].
Qed.

Lemma triple_weaken {A} (P P' : S → Prop) (m : op S E A) (Q Q' : result E A → S → Prop) :
  triple I P' m Q' → (∀ r, I r → P r → P' r) → (∀ a r, I r → Q' a r → Q a r) → triple I P m Q.
Proof.
  intros Hm Hp Hq r Hi HP. specialize (Hm r Hi (Hp r Hi HP)). destruct (m r) as [[t r1] a].
  destruct Hm as (? & ? & ?). split_and!; auto.
Qed.

End Rules.

Lemma triple_or_undo {S E A} (I P : S → Prop) (m : op S E A) cleanup Q M :
  triple I P m (λ a r, match a with Ok a => Q (Ok a) r | Err e => M e r end) →
  (∀ e, triple I (M e) cleanup (λ _ r, Q (Err e) r)) → triple I P (or_undo m cleanup) Q.
Proof.
  intros Hm Hc r Hi Hp. specialize (Hm r Hi Hp). unfold or_undo. destruct (m r) as [[t r1] [a|e]]; [done|].
  destruct Hm as (Ht & Hi1 & HM). specialize (Hc e r1 Hi1 HM). destruct (cleanup r1) as [[t2 r2] x].
  destruct Hc as (Ht2 & Hi2 & HQ). split_and!; [by apply Forall_app|done..].
Qed.

(** The states an operation goes through, the first one included. *)
Definition states {S E A} (m : op S E A) (r : S) : list S := r :: (m r).1.1.

Lemma triple_states {S E A} (I P : S → Prop) (m : op S E A) Q r :
  triple I P m Q → I r → P r → Forall I (states m r) ∧ Q (m r).2 (m r).1.2.
Proof.
  intros H Hi Hp. specialize (H r Hi Hp). unfold states. destruct (m r) as [[t r1] a]; simpl.
  destruct H as (? & ? & ?). split; [by constructor|done].
Qed.

Lemma triple_eta {A B C} (x : A * B * C) : x = (x.1.1, x.1.2, x.2).
Proof. by destruct x as [[]]. Qed.
