(* ===== verification/Paths.v ===== *)
(** * Operations followed from state to state

    [path R P m Q]: from a state of [P], every two states [m] goes through one after the other are related by [R],
    and the last of them is one [Q] relates to the answer. A statement about a path covers a crash, and a reader
    that takes no lock, at every point of an operation; [R] says what one visible change may do. *)

From S2P Require Import Prelude Ops.

Fixpoint chain {S} (R : S → S → Prop) (r : S) (t : list S) (r' : S) : Prop :=
  match t with
  | [] => r = r'
  | x :: t => R r x ∧ chain R x t r'
  end.

Lemma chain_app {S} (R : S → S → Prop) r t1 r1 t2 r2 :
  chain R r t1 r1 → chain R r1 t2 r2 → chain R r (t1 ++ t2) r2.
Proof. revert r. induction t1 as [|x t1 IH]; simpl; [by intros r ->|]. intros r [? ?] ?. eauto. Qed.

Lemma chain_mono {S} (R R' : S → S → Prop) r t r' : (∀ a b, R a b → R' a b) → chain R r t r' → chain R' r t r'.
Proof. intros H. revert r. induction t as [|x t IH]; simpl; [done|]. intros r [? ?]. eauto. Qed.

(** What a relation keeps holds at every state of a chain. *)
Lemma chain_keeps {S} (R : S → S → Prop) (I : S → Prop) r t r' :
  (∀ a b, R a b → I a → I b) → chain R r t r' → I r → Forall I t ∧ I r'.
Proof.
  intros H. revert r. induction t as [|x t IH]; simpl; [by intros r ->|].
  intros r [Hr Ht] Hi. destruct (IH x Ht (H _ _ Hr Hi)). split; [|done]. constructor; eauto.
Qed.

Lemma chain_rtc {S} (R : S → S → Prop) r t r' : chain R r t r' → rtc R r r'.
Proof. revert r. induction t as [|x t IH]; simpl; [by intros r ->|]. intros r [? ?]. eapply rtc_l; eauto. Qed.

Lemma chain_map {S T} (f : S → T) (R : T → T → Prop) r t r' :
  chain (λ a b, R (f a) (f b)) r t r' → chain R (f r) (f <$> t) (f r').
Proof. revert r. induction t as [|x t IH]; simpl; [by intros r ->|]. intros r [? ?]. auto. Qed.

Definition path {S E A} (R : S → S → Prop) (P : S → Prop) (m : op S E A) (Q : result E A → S → Prop) : Prop :=
  ∀ r, P r → let '(t, r', a) := m r in chain R r t r' ∧ Q a r'.

Section Rules.
Context {S E : Type} (R : S → S → Prop).

Lemma path_ret {A} (P : S → Prop) (a : A) (Q : result E A → S → Prop) :
  (∀ r, P r → Q (Ok a) r) → path R P (ret a) Q.
Proof. intros H r Hp. simpl. auto. Qed.

Lemma path_fail {A} (P : S → Prop) e (Q : result E A → S → Prop) :
  (∀ r, P r → Q (Err e) r) → path R P (fail e) Q.
Proof. intros H r Hp. simpl. auto. Qed.

Lemma path_ask {A} (P : S → Prop) f (Q : result E A → S → Prop) :
  (∀ r, P r → Q (f r) r) → path R P (ask f) Q.
Proof. intros H r Hp. simpl. auto. Qed.

Lemma path_touch (P : S → Prop) f (Q : result E unit → S → Prop) :
  (∀ r, P r → R r (f r) ∧ Q (Ok tt) (f r)) → path R P (touch f) Q.
Proof. intros H r Hp. simpl. destruct (H r Hp). auto. Qed.

Lemma path_bind {A B} (P : S → Prop) (m : op S E A) (k : A → op S E B) M Q :
  path R P m (λ a r, match a with Ok a => M a r | Err e => Q (Err e) r end) →
  (∀ a, path R (M a) (k a) Q) → path R P (bind m k) Q.
Proof.
  intros Hm Hk r Hp. specialize (Hm r Hp). unfold bind. destruct (m r) as [[t r1] [a|e]]; [|done].
  destruct Hm as (Ht & Hm). specialize (Hk a r1 Hm). destruct (k a r1) as [[t2 r2] b].
  destruct Hk as (Ht2 & Hq). split; [by eapply chain_app|done].
Qed.

Lemma path_check (P : S → Prop) e (b : bool) (Q : result E unit → S → Prop) :
  (∀ r, P r → if b then Q (Ok tt) r else Q (Err e) r) → path R P (check e b) Q.
Proof. unfold check. destruct b; intros H; [by apply path_ret|by apply path_fail]. Qed.

Lemma path_deferred {A} (P : S → Prop) f (m : op S E A) (Q Q' : result E A → S → Prop) :
  path R P m Q' → (∀ a r, Q' a r → R r (f r) ∧ Q a (f r)) → path R P (deferred f m) Q.
Proof.
  intros Hm Hf r Hp. specialize (Hm r Hp). unfold deferred. destruct (m r) as [[t r1] a].
  destruct Hm as (Ht & Hq). destruct (Hf a r1 Hq). split; [|done]. eapply chain_app; [done|]. simpl. auto.
Qed.

Lemma path_weaken {A} (P P' : S → Prop) (m : op S E A) (Q Q' : result E A → S → Prop) :
  path R P' m Q' → (∀ r, P r → P' r) → (∀ a r, Q' a r → Q a r) → path R P m Q.
Proof.
  intros Hm Hp Hq r HP. specialize (Hm r (Hp r HP)). destruct (m r) as [[t r1] a]. destruct Hm. split; auto.
Qed.

Lemma path_post {A} (P : S → Prop) (m : op S E A) (Q Q' : result E A → S → Prop) :
  path R P m Q' → (∀ a r, Q' a r → Q a r) → path R P m Q.
Proof. intros Hm Hq. by eapply path_weaken. Qed.

Lemma path_pre {A} (P P' : S → Prop) (m : op S E A) Q : path R P' m Q → (∀ r, P r → P' r) → path R P m Q.
Proof. intros Hm Hp. by eapply path_weaken. Qed.

(** A pure fact of the first state may be used to choose the rest of the proof. *)
Lemma path_pure {A} (P : S → Prop) (F : Prop) (m : op S E A) Q :
  (∀ r, P r → F) → (F → path R P m Q) → path R P m Q.
Proof. intros Hf H r Hp. by apply (H (Hf r Hp)). Qed.

Lemma path_exists {A X} (P : X → S → Prop) (m : op S E A) Q :
  (∀ x, path R (P x) m Q) → path R (λ r, ∃ x, P x r) m Q.
Proof. intros H r [x Hx]. by apply (H x). Qed.

End Rules.

Lemma path_mono {S E A} (R R' : S → S → Prop) P (m : op S E A) Q :
  (∀ a b, R a b → R' a b) → path R P m Q → path R' P m Q.
Proof.
  intros HR Hm r Hp. specialize (Hm r Hp). destruct (m r) as [[t r1] a]. destruct Hm. split; [|done].
  by eapply chain_mono.
Qed.

(** A refusal with a cleanup after it: [errors.Join(err, cleanup())]. *)
Lemma path_or_undo {S E A} (R : S → S → Prop) (P : S → Prop) (m : op S E A) cleanup Q M :
  path R P m (λ a r, match a with Ok a => Q (Ok a) r | Err e => M e r end) →
  (∀ e, path R (M e) cleanup (λ _ r, Q (Err e) r)) → path R P (or_undo m cleanup) Q.
Proof.
  intros Hm Hc r Hp. specialize (Hm r Hp). unfold or_undo. destruct (m r) as [[t r1] [a|e]]; [done|].
  destruct Hm as (Ht & HM). specialize (Hc e r1 HM). destruct (cleanup r1) as [[t2 r2] x].
  destruct Hc as (Ht2 & HQ). split; [by eapply chain_app|done].
Qed.

Lemma chain_last {S} (R : S → S → Prop) r t r' : chain R r t r' → r' ∈ r :: t.
Proof.
  revert r. induction t as [|x t IH]; intros r; simpl; [intros ->; set_solver|]. intros [_ H]. apply IH in H. set_solver.
Qed.

(** The states of an operation, from its path. *)
Lemma path_states {S E A} (R : S → S → Prop) (I P : S → Prop) (m : op S E A) Q r :
  path R P m Q → (∀ a b, R a b → I a → I b) → P r → I r → Forall I (states m r) ∧ I (m r).1.2 ∧ Q (m r).2 (m r).1.2.
Proof.
  intros H HR Hp Hi. specialize (H r Hp). unfold states. destruct (m r) as [[t r1] a]; simpl. destruct H as [Ht Hq].
  destruct (chain_keeps R I r t r1 HR Ht Hi). split_and!; [by constructor|done|done].
Qed.

(** ** Only the outcome

    [ends P m Q] is the part of a path that says nothing of the states on the way. *)

Definition ends {S E A} (P : S → Prop) (m : op S E A) (Q : result E A → S → Prop) : Prop := ∀ r, P r → Q (m r).2 (m r).1.2.

Lemma path_ends {S E A} (R : S → S → Prop) P (m : op S E A) Q : path R P m Q → ends P m Q.
Proof. intros H r Hp. specialize (H r Hp). destruct (m r) as [[t r1] a]. apply H. Qed.

(** What is said of an answer that is no error only. *)
Definition on_ok {S E A} (F : A → S → Prop) (a : result E A) (r : S) : Prop := ∀ x, a = Ok x → F x r.

Section Ends.
Context {S E : Type}.

Lemma ends_bind {A B} (P : S → Prop) (m : op S E A) (k : A → op S E B) M Q :
  ends P m (on_ok M) → (∀ e r, Q (Err e) r) → (∀ a, ends (M a) (k a) Q) → ends P (bind m k) Q.
Proof.
  intros Hm He Hk r Hp. specialize (Hm r Hp). unfold bind. destruct (m r) as [[t r1] [a|e]]; [|apply He].
  specialize (Hk a r1 (Hm a eq_refl)). destruct (k a r1) as [[t2 r2] b]. exact Hk.
Qed.

(** What came before does not matter. *)
Lemma ends_after {A B} (P : S → Prop) (m : op S E A) (k : A → op S E B) F :
  (∀ a, ends (λ _, True) (k a) (on_ok F)) → ends P (bind m k) (on_ok F).
Proof. intros Hk. eapply ends_bind with (M := λ _ _, True); [done|done|exact Hk]. Qed.

Lemma ends_weaken {A} (P P' : S → Prop) (m : op S E A) (Q Q' : result E A → S → Prop) :
  ends P' m Q' → (∀ r, P r → P' r) → (∀ a r, Q' a r → Q a r) → ends P m Q.
Proof. intros H HP HQ r Hr. apply HQ, H, HP, Hr. Qed.

Lemma ends_ret {A} (P : S → Prop) (a : A) (F : A → S → Prop) : (∀ r, P r → F a r) → ends P (ret a : op S E A) (on_ok F).
Proof. intros H r Hp x [= <-]. by apply H. Qed.

Lemma ends_fail {A} (P : S → Prop) e (F : A → S → Prop) : ends P (fail e : op S E A) (on_ok F).
Proof. by intros r Hp x [=]. Qed.

End Ends.
