(* ===== verification/GoStrings.v ===== *)
(** * Go strings

    The part of Go's [strings], [strconv], [slices] and [unicode] packages that shard's
    own code calls. A Go string is a sequence of bytes, here Rocq's [string] of 8-bit
    [ascii]. Each function keeps the name the source calls it by. *)

From S2P Require Import Prelude.
Local Open Scope Z_scope.

(** ** Bytes *)

Definition code (c : ascii) : Z := Z.of_N (N_of_ascii c).
Definition in_range (lo hi : Z) (c : ascii) : bool := (lo <=? code c) && (code c <=? hi).
Definition is_digit : ascii → bool := in_range 48 57.
Definition is_upper : ascii → bool := in_range 65 90.
Definition is_lower : ascii → bool := in_range 97 122.
Definition is_ascii (c : ascii) : bool := code c <? 128.

Fixpoint all_chars (p : ascii → bool) (s : string) : bool :=
  match s with
  | EmptyString => true
  | String c s => p c && all_chars p s
  end.

Fixpoint map_chars (f : ascii → ascii) (s : string) : string :=
  match s with
  | EmptyString => EmptyString
  | String c s => String (f c) (map_chars f s)
  end.

Definition lower_char (c : ascii) : ascii :=
  if is_upper c then ascii_of_N (N_of_ascii c + 32) else c.

(** [strings.ToLower] folds an ASCII string byte by byte, and asks the Unicode tables for
    any other; the tables are the one part of it that is not spelled out here. They map letters
    to letters, so folding a text never makes a [*] in it. *)
Class Unicode := {
  unicode_lower : string → string;
  unicode_lower_star s :
    all_chars (λ c, negb (Ascii.eqb "*" c)) s = true →
    all_chars (λ c, negb (Ascii.eqb "*" c)) (unicode_lower s) = true
}.

Definition ToLower `{Unicode} (s : string) : string :=
  if all_chars is_ascii s then map_chars lower_char s else unicode_lower s.

(** ** Searching *)

Definition HasPrefix (s p : string) : bool := String.prefix p s.

Fixpoint HasSuffix (s suffix : string) : bool :=
  String.eqb s suffix ||
  match s with
  | EmptyString => false
  | String _ s => HasSuffix s suffix
  end.

Fixpoint Contains (s sub : string) : bool :=
  String.prefix sub s ||
  match s with
  | EmptyString => false
  | String _ s => Contains s sub
  end.

Definition contains_char (c : ascii) (s : string) : bool := negb (all_chars (λ d, negb (Ascii.eqb c d)) s).
Definition ContainsAny (s cs : string) : bool := negb (all_chars (λ c, negb (contains_char c cs)) s).

Fixpoint take_s (n : nat) (s : string) : string :=
  match n, s with
  | S n, String c s => String c (take_s n s)
  | _, _ => EmptyString
  end.

Fixpoint drop_s (n : nat) (s : string) : string :=
  match n, s with
  | O, _ => s
  | S n, String _ s => drop_s n s
  | S _, EmptyString => EmptyString
  end.

Definition TrimSuffix (s suffix : string) : string :=
  if HasSuffix s suffix then take_s (String.length s - String.length suffix) s else s.

Definition CutSuffix (s suffix : string) : string * bool :=
  if HasSuffix s suffix then (take_s (String.length s - String.length suffix) s, true) else (s, false).

Definition CutPrefix (s p : string) : option string :=
  if HasPrefix s p then Some (drop_s (String.length p) s) else None.

(** [strings.Cut]: what is before and after the first [sep], and whether it was there. *)
Fixpoint Cut (s sep : string) : string * string * bool :=
  if String.prefix sep s then (EmptyString, drop_s (String.length sep) s, true)
  else match s with
       | EmptyString => (EmptyString, EmptyString, false)
       | String c s' =>
           let '(before, after, found) := Cut s' sep in
           if found then (String c before, after, true) else (s, EmptyString, false)
       end.

(** ** Splitting and joining *)

Fixpoint Split (sep : ascii) (s : string) : list string :=
  match s with
  | EmptyString => [EmptyString]
  | String c s =>
      if Ascii.eqb c sep then EmptyString :: Split sep s
      else match Split sep s with
           | [] => [String c EmptyString]
           | w :: ws => String c w :: ws
           end
  end.

Fixpoint Join (sep : string) (ws : list string) : string :=
  match ws with
  | [] => EmptyString
  | [w] => w
  | w :: ws => w +:+ sep +:+ Join sep ws
  end.

(** [strings.ReplaceAll] for an [old] that is not empty. *)
Fixpoint replace_go (old new : string) (skip : nat) (s : string) : string :=
  match s with
  | EmptyString => EmptyString
  | String c s' =>
      match skip with
      | S k => replace_go old new k s'
      | O => if String.prefix old s then new +:+ replace_go old new (String.length old - 1) s'
             else String c (replace_go old new 0 s')
      end
  end.
Definition ReplaceAll (s old new : string) : string := replace_go old new 0 s.

(** The bytes of the white-space rune [s] begins with, 0 when it begins with none: the ASCII
    spaces, then the UTF-8 spelling of U+0085, U+00A0, U+1680, U+2000-200A, U+2028, U+2029,
    U+202F, U+205F and U+3000. Each of these begins with a byte no other rune holds inside it. *)
Definition is_ascii_space (c : ascii) : bool := in_range 9 13 c || (code c =? 32).

Definition space_len (s : string) : nat :=
  match s with
  | EmptyString => 0%nat
  | String c s1 =>
      if is_ascii_space c then 1%nat
      else match s1 with
           | EmptyString => 0%nat
           | String d s2 =>
               if (code c =? 194) && ((code d =? 133) || (code d =? 160)) then 2%nat
               else match s2 with
                    | EmptyString => 0%nat
                    | String e _ =>
                        if ((code c =? 225) && (code d =? 154) && (code e =? 128))
                           || ((code c =? 226) && (code d =? 128)
                               && (in_range 128 138 e || (code e =? 168) || (code e =? 169) || (code e =? 175)))
                           || ((code c =? 226) && (code d =? 129) && (code e =? 159))
                           || ((code c =? 227) && (code d =? 128) && (code e =? 128))
                        then 3%nat else 0%nat
                    end
           end
  end.

Definition flush (p : string * list string) : list string :=
  match p.1 with EmptyString => p.2 | w => w :: p.2 end.

Fixpoint fields_go (skip : nat) (s : string) : string * list string :=
  match s with
  | EmptyString => (EmptyString, [])
  | String c s' =>
      match skip with
      | S k => fields_go k s'
      | O => match space_len s with
             | O => let '(w, ws) := fields_go 0 s' in (String c w, ws)
             | S n => (EmptyString, flush (fields_go n s'))
             end
      end
  end.
Definition Fields (s : string) : list string := flush (fields_go 0 s).

(** ** Numbers *)

Fixpoint digits_acc (acc : Z) (s : string) : option Z :=
  match s with
  | EmptyString => Some acc
  | String c s => if is_digit c then digits_acc (10 * acc + (code c - 48)) s else None
  end.

Definition parse_digits (s : string) : option Z :=
  match s with EmptyString => None | _ => digits_acc 0 s end.

(** [strconv.Atoi], and [strconv.ParseInt] in base 10 at 64 bits: one sign, then digits, in range. *)
Definition Atoi (s : string) : option Z :=
  n ← match s with
      | String "+" d => parse_digits d
      | String "-" d => n ← parse_digits d; Some (- n)
      | _ => parse_digits s
      end;
  if (min_int64 <=? n) && (n <=? max_int64) then Some n else None.

Definition Itoa (n : Z) : string := pretty n.

(** ** Slices *)

(** [slices.Sort] on a [\[\]int]. *)
Definition SortZ (l : list Z) : list Z := merge_sort Z.le l.

(** [slices.Compact] *)
Fixpoint Compact {A} `{EqDecision A} (l : list A) : list A :=
  match l with
  | x :: ((y :: _) as l') => if decide (x = y) then Compact l' else x :: Compact l'
  | _ => l
  end.

(** * Lemmas *)

(** ** Append *)

Lemma app_cons c s t : String c s +:+ t = String c (s +:+ t).
Proof. done. Qed.

Lemma app_nil_l s : "" +:+ s = s.
Proof. done. Qed.

Lemma app_nil_r s : s +:+ "" = s.
Proof. induction s as [|c s IH]; [done|]. rewrite app_cons. by f_equal. Qed.

Lemma app_assoc_s s t u : s +:+ (t +:+ u) = (s +:+ t) +:+ u.
Proof. induction s as [|c s IH]; [done|]. rewrite !app_cons. by f_equal. Qed.

Lemma length_app_s s t : String.length (s +:+ t) = (String.length s + String.length t)%nat.
Proof. induction s as [|c s IH]; [done|]. rewrite app_cons. simpl. by rewrite IH. Qed.

Lemma app_inj_r s t u : s +:+ u = t +:+ u → s = t.
Proof.
  revert t. induction s as [|c s IH]; intros [|d t] H; [done|..].
  - apply (f_equal String.length) in H. rewrite !length_app_s in H. simpl in H. lia.
  - apply (f_equal String.length) in H. rewrite !length_app_s in H. simpl in H. lia.
  - rewrite !app_cons in H. injection H as -> H. f_equal. by apply IH.
Qed.

Lemma take_s_app s t : take_s (String.length s) (s +:+ t) = s.
Proof. induction s as [|c s IH]; [by destruct t|]. rewrite app_cons. simpl. by rewrite IH. Qed.

Lemma drop_s_app s t : drop_s (String.length s) (s +:+ t) = t.
Proof. induction s as [|c s IH]; [done|]. rewrite app_cons. simpl. apply IH. Qed.

Lemma take_drop_s n s : take_s n s +:+ drop_s n s = s.
Proof. revert n. induction s as [|c s IH]; intros [|n]; try done. cbn [take_s drop_s]. rewrite app_cons. f_equal. apply IH. Qed.

Lemma all_chars_app p s t : all_chars p (s +:+ t) = all_chars p s && all_chars p t.
Proof. induction s as [|c s IH]; [done|]. rewrite app_cons. simpl. rewrite IH. by rewrite andb_assoc. Qed.

Lemma all_chars_impl (p q : ascii → bool) s :
  (∀ c, p c = true → q c = true) → all_chars p s = true → all_chars q s = true.
Proof. intros H. induction s; simpl; [done|]. intros Hs. breflect. apply andb_true_intro. auto. Qed.

(** ** Prefixes, suffixes and substrings *)

Lemma prefix_spec p s : String.prefix p s = true ↔ ∃ t, s = p +:+ t.
Proof.
  revert s. induction p as [|c p IH]; intros s.
  - split; [|by destruct s]. intros _. by exists s.
  - destruct s as [|d s]; simpl.
    + split; [done|]. intros [t H]. done.
    + destruct (ascii_dec c d) as [->|Hne].
      * rewrite IH. split; intros [t H]; exists t; [by rewrite H|].
        rewrite app_cons in H. by injection H.
      * split; [done|]. intros [t H]. rewrite app_cons in H. congruence.
Qed.

Lemma HasSuffix_spec s t : HasSuffix s t = true ↔ ∃ p, s = p +:+ t.
Proof.
  induction s as [|c s IH]; cbn [HasSuffix].
  - rewrite orb_false_r, String.eqb_eq. split.
    + intros <-. by exists "".
    + intros [[|d p] H]; [done|]. by rewrite app_cons in H.
  - rewrite orb_true_iff, String.eqb_eq, IH. split.
    + intros [<-|[p ->]]; [by exists ""|]. by exists (String c p).
    + intros [[|d p] H]; [left; done|]. rewrite app_cons in H. injection H as -> ->. right. by exists p.
Qed.

Lemma TrimSuffix_app s t : TrimSuffix (s +:+ t) t = s.
Proof.
  unfold TrimSuffix. rewrite (proj2 (HasSuffix_spec _ _)) by by exists s.
  rewrite length_app_s. replace (_ + _ - _)%nat with (String.length s) by lia. apply take_s_app.
Qed.

Lemma TrimSuffix_none s t : HasSuffix s t = false → TrimSuffix s t = s.
Proof. unfold TrimSuffix. by intros ->. Qed.

Lemma Contains_spec s t : Contains s t = true ↔ ∃ p q, s = p +:+ t +:+ q.
Proof.
  induction s as [|c s IH]; cbn [Contains].
  - rewrite orb_false_r, prefix_spec. split.
    + intros [q Hq]. by exists "", q.
    + intros ([|d p] & q & H); [by exists q|]. by rewrite app_cons in H.
  - rewrite orb_true_iff, prefix_spec, IH. split.
    + intros [[q Hq]|(p & q & ->)]; [by exists "", q|]. by exists (String c p), q.
    + intros ([|d p] & q & H); [left; by exists q|].
      rewrite app_cons in H. injection H as -> ->. right. by exists p, q.
Qed.

(** A one-byte substring is a byte of the string. *)
Lemma Contains_char s c : Contains s (String c "") = contains_char c s.
Proof.
  induction s as [|d s IH]; [done|]. cbn [Contains]. rewrite IH. unfold contains_char. simpl.
  destruct (ascii_dec c d) as [->|Hne].
  - rewrite Ascii.eqb_refl. simpl. by destruct s.
  - rewrite (proj2 (Ascii.eqb_neq c d)) by done. done.
Qed.

Lemma contains_char_false c s : contains_char c s = false ↔ all_chars (λ d, negb (Ascii.eqb c d)) s = true.
Proof. unfold contains_char. by rewrite negb_false_iff. Qed.

Lemma contains_char_app c s t : contains_char c (s +:+ t) = contains_char c s || contains_char c t.
Proof. unfold contains_char. by rewrite all_chars_app, negb_andb. Qed.

Lemma contains_char_cons c d s : contains_char c (String d s) = Ascii.eqb c d || contains_char c s.
Proof. unfold contains_char. simpl. by rewrite negb_andb, negb_involutive. Qed.

(** ** Split and Join *)

Lemma Split_cons sep s : ∃ w ws, Split sep s = w :: ws.
Proof.
  induction s as [|c s (w & ws & IH)]; simpl; [eauto|].
  rewrite IH. case_match; eauto.
Qed.

Lemma Split_not_nil sep s : Split sep s ≠ [].
Proof. destruct (Split_cons sep s) as (w & ws & ->). done. Qed.

Lemma Split_no_sep sep s : contains_char sep s = false → Split sep s = [s].
Proof.
  induction s as [|c s IH]; [done|]. rewrite contains_char_cons. intros H.
  apply orb_false_iff in H as [H1 H2]. simpl.
  rewrite (IH H2), Ascii.eqb_sym, H1. done.
Qed.

Lemma Split_app_sep sep s t :
  contains_char sep s = false → Split sep (s +:+ String sep t) = s :: Split sep t.
Proof.
  induction s as [|c s IH].
  - intros _. rewrite app_nil_l. simpl. by rewrite Ascii.eqb_refl.
  - rewrite contains_char_cons. intros H. apply orb_false_iff in H as [H1 H2].
    rewrite app_cons. simpl. rewrite (IH H2), Ascii.eqb_sym, H1. done.
Qed.

Lemma Split_app sep s t : Split sep (s +:+ String sep t) = Split sep s ++ Split sep t.
Proof.
  induction s as [|c s IH].
  - rewrite app_nil_l. simpl. by rewrite Ascii.eqb_refl.
  - rewrite app_cons. simpl. rewrite IH. destruct (Ascii.eqb c sep); [done|].
    by destruct (Split_cons sep s) as (w & ws & ->).
Qed.

Lemma Join_cons sep w w' ws : Join sep (w :: w' :: ws) = w +:+ sep +:+ Join sep (w' :: ws).
Proof. done. Qed.

Lemma Join_Split sep s : Join (String sep "") (Split sep s) = s.
Proof.
  induction s as [|c s IH]; [done|]. simpl.
  destruct (Split_cons sep s) as (w & ws & E). rewrite E in *.
  destruct (Ascii.eqb_spec c sep) as [->|Hne].
  - rewrite Join_cons, IH. done.
  - destruct ws as [|w' ws].
    + simpl in *. by rewrite IH.
    + rewrite Join_cons in *. by rewrite app_cons, IH.
Qed.

Lemma Split_Join sep ws :
  ws ≠ [] → Forall (λ w, contains_char sep w = false) ws → Split sep (Join (String sep "") ws) = ws.
Proof.
  induction ws as [|w ws IH]; [done|]. intros _ H. apply Forall_cons in H as [Hw Hws].
  destruct ws as [|w' ws].
  - by apply Split_no_sep.
  - rewrite Join_cons, app_cons, app_nil_l, (Split_app_sep _ _ _ Hw). f_equal. by apply IH.
Qed.

Lemma Split_inj sep s t : Split sep s = Split sep t → s = t.
Proof. intros H. rewrite <- (Join_Split sep s), <- (Join_Split sep t). by rewrite H. Qed.

Lemma Split_words sep s : Forall (λ w, contains_char sep w = false) (Split sep s).
Proof.
  induction s as [|c s IH]; simpl; [by constructor|].
  destruct (Split_cons sep s) as (w & ws & E). rewrite E in *.
  destruct (Ascii.eqb_spec c sep) as [->|Hne].
  - by constructor.
  - apply Forall_cons in IH as [Hw Hws]. constructor; [|done].
    rewrite contains_char_cons, Hw, orb_false_r. apply Ascii.eqb_neq. congruence.
Qed.

Lemma Join_app sep ws1 ws2 :
  ws1 ≠ [] → ws2 ≠ [] → Join sep (ws1 ++ ws2) = Join sep ws1 +:+ sep +:+ Join sep ws2.
Proof.
  induction ws1 as [|w ws1 IH]; [done|]. intros _ H2. destruct ws1 as [|w' ws1].
  - destruct ws2; [done|]. done.
  - rewrite <- app_comm_cons, <- app_comm_cons, !Join_cons, app_comm_cons, IH by done.
    by rewrite !app_assoc_s.
Qed.

(** A suffix that begins with the separator is a proper suffix of the list of labels. *)
Lemma HasSuffix_Split sep s t :
  HasSuffix s (String sep t) = true ↔ ∃ ws, ws ≠ [] ∧ Split sep s = ws ++ Split sep t.
Proof.
  rewrite HasSuffix_spec. split.
  - intros [p ->]. exists (Split sep p). split; [apply Split_not_nil|]. apply Split_app.
  - intros (ws & Hws & H). exists (Join (String sep "") ws).
    rewrite <- (Join_Split sep s), H, Join_app by (done || apply Split_not_nil).
    by rewrite Join_Split.
Qed.

Lemma ToLower_star `{Unicode} s : contains_char "*" s = false → contains_char "*" (ToLower s) = false.
Proof.
  unfold ToLower. rewrite !contains_char_false. destruct (all_chars is_ascii s); [|apply unicode_lower_star].
  induction s as [|c s IH]; [done|]. cbn [all_chars map_chars]. intros Hs. breflect.
  rewrite IH by done. rewrite andb_true_r. by destruct c as [[] [] [] [] [] [] [] []].
Qed.

Lemma take_s_no_char c n s : contains_char c s = false → contains_char c (take_s n s) = false.
Proof.
  rewrite !contains_char_false. revert n.
  induction s as [|d s IH]; intros [|n]; try done. cbn [all_chars take_s].
  intros [H1 H2]%andb_true_iff. by rewrite H1, IH.
Qed.

Lemma TrimSuffix_no_char c s t : contains_char c s = false → contains_char c (TrimSuffix s t) = false.
Proof. unfold TrimSuffix. destruct (HasSuffix s t); [apply take_s_no_char|done]. Qed.

(** ** Cut *)

Lemma Cut_no_sep c s : contains_char c s = false → Cut s (String c "") = (s, "", false).
Proof.
  induction s as [|d s IH]; [done|]. rewrite contains_char_cons. intros Hs.
  apply orb_false_iff in Hs as [H1 H2]. cbn [Cut]. rewrite IH by done.
  apply Ascii.eqb_neq in H1. simpl. by destruct (ascii_dec c d).
Qed.

Lemma Cut_at c s t : contains_char c s = false → Cut (s +:+ String c t) (String c "") = (s, t, true).
Proof.
  induction s as [|d s IH]; intros Hs.
  - rewrite app_nil_l. cbn [Cut]. simpl. destruct (ascii_dec c c) as [_|]; [|done]. by destruct t.
  - rewrite contains_char_cons in Hs. apply orb_false_iff in Hs as [H1 H2]. rewrite app_cons.
    cbn [Cut]. rewrite IH by done. apply Ascii.eqb_neq in H1. simpl. by destruct (ascii_dec c d).
Qed.

Lemma CutPrefix_app p s : CutPrefix (p +:+ s) p = Some s.
Proof.
  unfold CutPrefix, HasPrefix. rewrite (proj2 (prefix_spec _ _)) by by exists s.
  by rewrite drop_s_app.
Qed.

(** ** Fields *)

(** An ASCII byte that is not a space begins no white-space rune. *)
Definition plain_char (c : ascii) : bool := is_ascii c && negb (is_ascii_space c).

Lemma plain_space_len c s : plain_char c = true → space_len (String c s) = 0%nat.
Proof.
  intros H. assert (is_ascii_space c = false ∧ (code c =? 194) = false ∧ (code c =? 225) = false
    ∧ (code c =? 226) = false ∧ (code c =? 227) = false) as (H1 & H2 & H3 & H4 & H5)
    by (by destruct c as [[] [] [] [] [] [] [] []]).
  cbn [space_len]. rewrite H1. destruct s as [|d s]; [done|]. rewrite H2. simpl.
  destruct s as [|e s]; [done|]. by rewrite H3, H4, H5.
Qed.

Lemma fields_go_plain w : all_chars plain_char w = true → fields_go 0 w = (w, []).
Proof.
  induction w as [|c w IH]; [done|]. cbn [all_chars]. intros H. breflect.
  cbn [fields_go]. rewrite plain_space_len by done. by rewrite IH.
Qed.

Lemma fields_go_space w s :
  all_chars plain_char w = true → fields_go 0 (w +:+ " " +:+ s) = (w, flush (fields_go 0 s)).
Proof.
  induction w as [|c w IH]; [done|]. cbn [all_chars]. intros H. breflect.
  rewrite app_cons. cbn [fields_go]. rewrite plain_space_len by done. by rewrite IH.
Qed.

Lemma Fields_one w : all_chars plain_char w = true → w ≠ "" → Fields w = [w].
Proof. intros H Hne. unfold Fields. rewrite fields_go_plain by done. by destruct w. Qed.

Lemma Fields_two w v :
  all_chars plain_char w = true → w ≠ "" → all_chars plain_char v = true → v ≠ "" →
  Fields (w +:+ " " +:+ v) = [w; v].
Proof.
  intros Hw Hwn Hv Hvn. unfold Fields. rewrite fields_go_space, fields_go_plain by done.
  destruct w; [done|]. by destruct v.
Qed.

(** ** Numbers *)

Lemma digit_char (n : N) : (n < 10)%N → is_digit (pretty_N_char n) = true ∧ code (pretty_N_char n) - 48 = Z.of_N n.
Proof.
  intros H. assert (n = 0 ∨ n = 1 ∨ n = 2 ∨ n = 3 ∨ n = 4 ∨ n = 5 ∨ n = 6 ∨ n = 7 ∨ n = 8 ∨ n = 9)%N
    as [->|[->|[->|[->|[->|[->|[->|[->|[->| ->]]]]]]]]] by lia; done.
Qed.

Lemma digits_acc_pretty_go (x : N) s : digits_acc 0 (pretty_N_go x s) = digits_acc (Z.of_N x) s.
Proof.
  revert s. induction (N.lt_wf_0 x) as [x _ IH]; intros s.
  destruct (decide (x = 0)%N) as [->|Hx]; [done|].
  rewrite pretty_N_go_step by lia. rewrite IH by (apply N.div_lt; lia). simpl.
  destruct (digit_char (x mod 10)) as [-> Hc]; [by apply N.mod_lt|].
  rewrite Hc. f_equal. pose proof (N.div_mod x 10 ltac:(done)). lia.
Qed.

Lemma pretty_N_digits (x : N) s :
  all_chars is_digit s = true → all_chars is_digit (pretty_N_go x s) = true.
Proof.
  revert s. induction (N.lt_wf_0 x) as [x _ IH]; intros s Hs.
  destruct (decide (x = 0)%N) as [->|Hx]; [done|].
  rewrite pretty_N_go_step by lia. apply IH; [apply N.div_lt; lia|]. simpl.
  destruct (digit_char (x mod 10)) as [-> _]; [by apply N.mod_lt|]. done.
Qed.

(** A number that is not negative prints as digits, and at least one. *)
Lemma Itoa_digits n : 0 ≤ n → all_chars is_digit (Itoa n) = true ∧ Itoa n ≠ "".
Proof.
  intros Hn. unfold Itoa. destruct n as [|p|p]; [done| |lia].
  unfold pretty, pretty_Z, pretty, pretty_positive, pretty, pretty_N. split.
  - rewrite decide_False by done. by apply pretty_N_digits.
  - rewrite decide_False by done. intros E.
    pose proof (digits_acc_pretty_go (N.pos p) "") as H. rewrite E in H. done.
Qed.

Lemma parse_digits_Itoa n : 0 ≤ n → parse_digits (Itoa n) = Some n.
Proof.
  intros Hn. destruct (Itoa_digits n Hn) as [_ Hne]. unfold parse_digits.
  transitivity (digits_acc 0 (Itoa n)); [by destruct (Itoa n)|].
  unfold Itoa. destruct n as [|p|p]; [done| |lia].
  unfold pretty, pretty_Z, pretty, pretty_positive, pretty, pretty_N.
  rewrite decide_False by done. by rewrite digits_acc_pretty_go.
Qed.

Lemma pretty_N_go_length (k : nat) : ∀ (x : N) s, (x < 10 ^ N.of_nat k)%N → (String.length (pretty_N_go x s) ≤ k + String.length s)%nat.
Proof.
  induction k as [|k IH]; intros x s Hx.
  - replace x with 0%N by (simpl in Hx; lia). rewrite pretty_N_go_0. lia.
  - destruct (decide (x = 0%N)) as [->|]; [rewrite pretty_N_go_0; lia|].
    rewrite pretty_N_go_step by lia. specialize (IH (x `div` 10)%N (String (pretty_N_char (x `mod` 10)) s)).
    simpl in IH. assert (x `div` 10 < 10 ^ N.of_nat k)%N; [|lia].
    apply N.Div0.div_lt_upper_bound. rewrite <- N.pow_succ_r'. by rewrite <- Nat2N.inj_succ.
Qed.

Lemma Itoa_length (k : nat) n : (1 ≤ k)%nat → 0 ≤ n < 10 ^ Z.of_nat k → (String.length (Itoa n) ≤ k)%nat.
Proof.
  intros Hk Hn. unfold Itoa. destruct n as [|p|p]; [simpl; lia| |lia].
  change (pretty (Z.pos p)) with (pretty_N_go (N.pos p) "").
  pose proof (pretty_N_go_length k (N.pos p) "") as H. simpl in H. rewrite Nat.add_0_r in H. apply H.
  apply N2Z.inj_lt. rewrite N2Z.inj_pow, nat_N_Z. simpl. lia.
Qed.

Lemma Itoa_inj m n : 0 ≤ m → 0 ≤ n → Itoa m = Itoa n → m = n.
Proof. intros Hm Hn E. apply (f_equal parse_digits) in E. rewrite !parse_digits_Itoa in E by done. by injection E. Qed.

Lemma digits_no_sign s : all_chars is_digit s = true → s ≠ "" →
  Atoi s = (n ← parse_digits s; if (min_int64 <=? n) && (n <=? max_int64) then Some n else None).
Proof.
  intros Hs Hne. destruct s as [|c s]; [done|]. simpl in Hs. apply andb_true_iff in Hs as [Hc _].
  unfold Atoi. repeat (case_match; try done).
Qed.

Lemma Atoi_Itoa n : 0 ≤ n ≤ max_int64 → Atoi (Itoa n) = Some n.
Proof.
  intros Hn. destruct (Itoa_digits n) as [Hd Hne]; [lia|].
  rewrite (digits_no_sign _ Hd Hne), parse_digits_Itoa by lia. simpl.
  rewrite (proj2 (Z.leb_le _ _)), (proj2 (Z.leb_le _ _)); [done|lia|]. unfold min_int64; lia.
Qed.

(** ** Sorting *)

Lemma SortZ_Permutation l : SortZ l ≡ₚ l.
Proof. apply merge_sort_Permutation. Qed.

Lemma SortZ_Sorted l : Sorted Z.le (SortZ l).
Proof. apply Sorted_merge_sort. intros x y. lia. Qed.

Lemma SortZ_id l : Sorted Z.le l → SortZ l = l.
Proof.
  intros H. apply (Sorted_unique Z.le); [apply SortZ_Sorted|done|apply SortZ_Permutation].
Qed.

Lemma Compact_cons2 {A} `{EqDecision A} (x y : A) l :
  Compact (x :: y :: l) = if decide (x = y) then Compact (y :: l) else x :: Compact (y :: l).
Proof. done. Qed.

Lemma Compact_elem_of {A} `{EqDecision A} (l : list A) x : x ∈ Compact l ↔ x ∈ l.
Proof.
  induction l as [|y l IH]; [done|]. destruct l as [|z l]; [done|]. rewrite Compact_cons2.
  case_decide as E; [subst|]; set_solver.
Qed.

Lemma Compact_length {A} `{EqDecision A} (l : list A) : (length (Compact l) ≤ length l)%nat.
Proof.
  induction l as [|y l IH]; [done|]. destruct l as [|z l]; [done|]. rewrite Compact_cons2.
  case_decide; simpl in *; lia.
Qed.

Lemma Compact_StronglySorted l : Sorted Z.le l → StronglySorted Z.lt (Compact l).
Proof.
  intros H. apply Sorted_StronglySorted in H; [|apply _].
  induction H as [|x l Hl IH Hx]; [constructor|]. destruct l as [|y l]; [by repeat constructor|].
  rewrite Compact_cons2. case_decide as E; [done|]. constructor; [done|].
  rewrite Forall_forall in Hx |- *. intros z Hz. rewrite Compact_elem_of in Hz.
  specialize (Hx z Hz) as Hxz. assert (x ≠ z); [|lia]. intros ->.
  pose proof (Hx y ltac:(set_solver)). inversion Hl as [|? ? ? Hyl]; subst.
  rewrite Forall_forall in Hyl. apply elem_of_cons in Hz as [->|Hz]; [done|].
  specialize (Hyl z Hz). lia.
Qed.

Lemma Compact_id l : StronglySorted Z.lt l → Compact l = l.
Proof.
  induction 1 as [|x l Hl IH Hx]; [done|]. destruct l as [|y l]; [done|]. rewrite Compact_cons2.
  apply Forall_cons in Hx as [Hxy _]. rewrite decide_False by lia. by f_equal.
Qed.

Lemma StronglySorted_lt_le l : StronglySorted Z.lt l → Sorted Z.le l.
Proof.
  intros H. apply StronglySorted_Sorted. induction H as [|x l Hl IH Hx]; constructor; [done|].
  eapply Forall_impl; [done|]. simpl. lia.
Qed.
