(* ===== verification/Sha256.v ===== *)
(** * SHA-256

    [crypto/sha256] and [encoding/hex], which name a rule by the sum of its text: 32-bit words with
    their wrap-around written out, one 64-byte block at a time. *)

From S2P Require Import Prelude GoStrings.
Local Open Scope Z_scope.

Definition add32 (x y : Z) : Z := (x + y) mod 2 ^ 32.
Definition rotr32 (n x : Z) : Z := Z.lor (Z.shiftr x n) (Z.shiftl x (32 - n) mod 2 ^ 32).
Definition not32 (x : Z) : Z := 2 ^ 32 - 1 - x.

Definition Ch (x y z : Z) : Z := Z.lxor (Z.land x y) (Z.land (not32 x) z).
Definition Maj (x y z : Z) : Z := Z.lxor (Z.lxor (Z.land x y) (Z.land x z)) (Z.land y z).
Definition Sigma0 (x : Z) : Z := Z.lxor (Z.lxor (rotr32 2 x) (rotr32 13 x)) (rotr32 22 x).
Definition Sigma1 (x : Z) : Z := Z.lxor (Z.lxor (rotr32 6 x) (rotr32 11 x)) (rotr32 25 x).
Definition sigma0 (x : Z) : Z := Z.lxor (Z.lxor (rotr32 7 x) (rotr32 18 x)) (Z.shiftr x 3).
Definition sigma1 (x : Z) : Z := Z.lxor (Z.lxor (rotr32 17 x) (rotr32 19 x)) (Z.shiftr x 10).

(** The constants of the standard are the first 32 bits of the fractional parts of the cube roots of the
    first sixty-four primes and of the square roots of the first eight, so they are computed, not copied. *)
Definition primes : list Z :=
  filter (λ p, forallb (λ d, negb (p mod d =? 0)) (seqZ 2 (p - 2)) = true) (seqZ 2 310).

(** The integer cube root, one bit at a time from bit [n] down. *)
Fixpoint cube_root (n : nat) (x acc : Z) : Z :=
  let acc' := acc + 2 ^ Z.of_nat n in
  let acc := if acc' ^ 3 <=? x then acc' else acc in
  match n with O => acc | S n => cube_root n x acc end.

Definition round_keys : list Z :=
  Eval vm_compute in (λ p, cube_root 36 (p * 2 ^ 96) 0 mod 2 ^ 32) <$> primes.

Definition initial : list Z :=
  Eval vm_compute in (λ p, Z.sqrt (p * 2 ^ 64) mod 2 ^ 32) <$> take 8 primes.

(** The sixteen words last computed, the latest first: each turn makes the next word of the schedule. *)
Definition next_word (ws : list Z) : Z :=
  let w i := default 0 (ws !! i) in
  add32 (add32 (sigma1 (w 1%nat)) (w 6%nat)) (add32 (sigma0 (w 14%nat)) (w 15%nat)).

Definition round (st : list Z) (k w : Z) : list Z :=
  match st with
  | [a; b; c; d; e; f; g; h] =>
      let t1 := add32 (add32 (add32 h (Sigma1 e)) (Ch e f g)) (add32 k w) in
      let t2 := add32 (Sigma0 a) (Maj a b c) in
      [add32 t1 t2; a; b; c; add32 d t1; e; f; g]
  | _ => st
  end.

Fixpoint rounds (ks : list Z) (pending ws st : list Z) : list Z :=
  match ks with
  | [] => st
  | k :: ks =>
      match pending with
      | w :: pending => rounds ks pending (w :: ws) (round st k w)
      | [] => let w := next_word ws in rounds ks [] (w :: take 15 ws) (round st k w)
      end
  end.

Definition be32 (bs : list Z) : Z := foldl (λ acc b, acc * 256 + b) 0 bs.

Fixpoint words (n : nat) (bs : list Z) : list Z :=
  match n with O => [] | S n => be32 (take 4 bs) :: words n (drop 4 bs) end.

Definition block (st bs : list Z) : list Z := zip_with add32 st (rounds round_keys (words 16 bs) [] st).

Fixpoint blocks (n : nat) (bs st : list Z) : list Z :=
  match n with O => st | S n => blocks n (drop 64 bs) (block st (take 64 bs)) end.

Definition be_bytes (n : nat) (v : Z) : list Z := (λ i, Z.shiftr v (8 * (Z.of_nat (n - 1) - Z.of_nat i)) mod 256) <$> seq 0 n.

Definition pad (bs : list Z) : list Z :=
  let len := Z.of_nat (length bs) in
  bs ++ [0x80] ++ replicate (Z.to_nat ((55 - len) mod 64)) 0 ++ be_bytes 8 (8 * len).

Definition Sum256 (bs : list Z) : list Z :=
  let padded := pad bs in
  blocks (length padded / 64) padded initial ≫= be_bytes 4.

Fixpoint bytes_of (s : string) : list Z :=
  match s with EmptyString => [] | String c s => code c :: bytes_of s end.

Definition hex_digit (n : Z) : ascii :=
  ascii_of_nat (Z.to_nat (if n <? 10 then 48 + n else 87 + n)).

Fixpoint EncodeToString (bs : list Z) : string :=
  match bs with
  | [] => ""
  | b :: bs => String (hex_digit (b / 16)) (String (hex_digit (b mod 16)) (EncodeToString bs))
  end.

Example sum_abc :
  EncodeToString (Sum256 (bytes_of "abc")) = "ba7816bf8f01cfea414140de5dae2223b00361a396177a9cb410ff61f20015ad".
Proof. vm_compute. reflexivity. Qed.

Example sum_empty :
  EncodeToString (Sum256 []) = "e3b0c44298fc1c149afbf4c8996fb92427ae41e4649b934ca495991b7852b855".
Proof. vm_compute. reflexivity. Qed.
