(* ===== verification/SandboxID.v ===== *)
(** * Ids and names of sandboxes

    [services/sandboxstate/id.go] and the spelling rules of [sandboxstate.go]: an id is two words and four hex
    digits, made from four random bytes; a name is a plain path component that no id could be spelled as. *)

From S2P Require Import Prelude GoStrings Sha256.
Local Open Scope Z_scope.

Definition wordsPerList : Z := 64.

Definition adjectives : list string :=
  ["amber"; "ancient"; "autumn"; "bitter"; "blue"; "bold"; "brave"; "bright";
   "broken"; "calm"; "cold"; "cool"; "crimson"; "curly"; "damp"; "dark";
   "dawn"; "delicate"; "divine"; "dry"; "empty"; "falling"; "fancy"; "flat";
   "floral"; "fragrant"; "frosty"; "gentle"; "green"; "hidden"; "holy"; "icy";
   "jolly"; "late"; "lively"; "long"; "lucky"; "misty"; "morning"; "muddy";
   "nameless"; "noisy"; "odd"; "old"; "orange"; "patient"; "plain"; "polished";
   "proud"; "purple"; "quiet"; "rapid"; "red"; "restless"; "rough"; "royal";
   "shy"; "silent"; "small"; "snowy"; "solitary"; "sparkling"; "spring"; "steep"].

Definition nouns : list string :=
  ["anchor"; "badger"; "beaver"; "bird"; "brook"; "butterfly"; "cherry"; "cloud";
   "comet"; "crater"; "creek"; "dawn"; "dew"; "dream"; "dust"; "ember";
   "falcon"; "feather"; "fern"; "field"; "fire"; "firefly"; "flower"; "fog";
   "forest"; "fox"; "frog"; "frost"; "glade"; "glitter"; "grass"; "hare";
   "haze"; "heron"; "hill"; "lake"; "leaf"; "lion"; "meadow"; "moon";
   "morning"; "mountain"; "night"; "otter"; "owl"; "paper"; "pebble"; "pine";
   "pond"; "rain"; "resonance"; "river"; "salad"; "shadow"; "shape"; "silence";
   "sky"; "smoke"; "snow"; "sound"; "star"; "sun"; "surf"; "thunder"].

Definition word (words : list string) (b : Z) : string := default "" (words !! Z.to_nat (b mod wordsPerList)).

(** [formatID], on the four bytes; [%02x] is what [EncodeToString] prints a byte as. *)
Definition formatID (b0 b1 b2 b3 : Z) : string :=
  word adjectives b0 +:+ "-" +:+ word nouns b1 +:+ "-" +:+ EncodeToString [b2; b3].

Definition longest (words : list string) : nat := foldl (λ n w, Nat.max n (String.length w)) 0%nat words.

Definition maxIDLength : nat := (longest adjectives + 1 + longest nouns + 1 + 4)%nat.

(** ** Spelling *)

Definition maxChars : nat := 64.

Inductive spelling_error : Type :=
| SpellEmpty
| SpellLong
| SpellUpper (c : ascii)
| SpellChar (c : ascii)
| SpellLikeID.

(** The loop over the characters of [plainComponent]: the first one refused decides. A character past ASCII
    is refused at its first byte. *)
Fixpoint plain_chars (s : string) : result spelling_error unit :=
  match s with
  | EmptyString => Ok tt
  | String c s =>
      if is_upper c then Err (SpellUpper c)
      else if negb (is_lower c || is_digit c) && negb (Ascii.eqb c "-") && negb (Ascii.eqb c "_") then Err (SpellChar c)
      else plain_chars s
  end.

Definition plainComponent (s : string) : result spelling_error unit :=
  if String.eqb s "" then Err SpellEmpty
  else if (maxChars <? String.length s)%nat then Err SpellLong
  else plain_chars s.

Definition ValidID (id : string) : result spelling_error unit := plainComponent id.

Definition is_hex (c : ascii) : bool := is_digit c || in_range 97 102 c.

(** The pattern [^[a-z]+-[a-z]+-[0-9a-f]{4}$]: three parts between dashes. *)
Definition generatedIDShape (s : string) : bool :=
  match Split "-" s with
  | [a; n; h] =>
      negb (String.eqb a "") && all_chars is_lower a && negb (String.eqb n "") && all_chars is_lower n
      && (String.length h =? 4)%nat && all_chars is_hex h
  | _ => false
  end.

Definition ValidName (name : string) : result spelling_error unit :=
  match plainComponent name with
  | Err e => Err e
  | Ok _ => if generatedIDShape name then Err SpellLikeID else Ok tt
  end.

(** * Properties *)

Definition is_byte (b : Z) : Prop := 0 ≤ b < 256.

Definition word_ok (w : string) : bool := negb (String.eqb w "") && all_chars is_lower w.

Lemma words_ok : forallb word_ok adjectives = true ∧ forallb word_ok nouns = true.
Proof. split; vm_compute; reflexivity. Qed.

Lemma word_In words b : length words = 64%nat → is_byte b → word words b ∈ words.
Proof.
  intros Hl Hb. unfold word, wordsPerList. destruct (words !! Z.to_nat (b mod 64)) as [w|] eqn:E.
  - by eapply list_elem_of_lookup_2.
  - apply lookup_ge_None in E. pose proof (Z.mod_pos_bound b 64). lia.
Qed.

Lemma word_word_ok words b :
  forallb word_ok words = true → length words = 64%nat → is_byte b → word_ok (word words b) = true.
Proof.
  intros Hok Hl Hb. pose proof (word_In words b Hl Hb) as Hin.
  rewrite forallb_forall in Hok. apply Hok. by apply list_elem_of_In.
Qed.

(** No word is listed twice, so a word tells its place. *)
Lemma word_inj words b c :
  (length words = 64%nat ∧ bool_decide (NoDup words) = true) → is_byte b → is_byte c → word words b = word words c →
  b mod wordsPerList = c mod wordsPerList.
Proof.
  intros [Hl Hn] Hb Hc. apply bool_decide_eq_true in Hn. unfold word, wordsPerList.
  pose proof (Z.mod_pos_bound b 64 ltac:(lia)). pose proof (Z.mod_pos_bound c 64 ltac:(lia)).
  destruct (words !! Z.to_nat (b mod 64)) as [v|] eqn:Eb; [|apply lookup_ge_None in Eb; lia].
  destruct (words !! Z.to_nat (c mod 64)) as [w|] eqn:Ec; [|apply lookup_ge_None in Ec; lia].
  simpl. intros E. unfold id in E. subst w. pose proof (NoDup_lookup _ _ _ _ Hn Eb Ec). lia.
Qed.

Lemma hex_digit_ok n : 0 ≤ n < 16 → is_hex (hex_digit n) = true.
Proof.
  intros Hn. assert (H : forallb (λ n, is_hex (hex_digit n)) (seqZ 0 16) = true) by (vm_compute; reflexivity).
  rewrite forallb_forall in H. apply H, list_elem_of_In, elem_of_seqZ. lia.
Qed.

Lemma hex_digit_inj m n : 0 ≤ m < 16 → 0 ≤ n < 16 → hex_digit m = hex_digit n → m = n.
Proof.
  intros Hm Hn.
  assert (H : forallb (λ m, forallb (λ n, negb (Ascii.eqb (hex_digit m) (hex_digit n)) || (m =? n)) (seqZ 0 16)) (seqZ 0 16)
    = true) by (vm_compute; reflexivity).
  rewrite forallb_forall in H. specialize (H m ltac:(apply list_elem_of_In, elem_of_seqZ; lia)). cbv beta in H.
  rewrite forallb_forall in H. specialize (H n ltac:(apply list_elem_of_In, elem_of_seqZ; lia)). cbv beta in H.
  intros E. rewrite E, Ascii.eqb_refl in H. by apply Z.eqb_eq.
Qed.

Lemma EncodeToString_length bs : String.length (EncodeToString bs) = (2 * length bs)%nat.
Proof. induction bs as [|b bs IH]; [done|]. cbn [EncodeToString String.length length]. rewrite IH. lia. Qed.

Lemma EncodeToString_hex bs : Forall is_byte bs → all_chars is_hex (EncodeToString bs) = true.
Proof.
  induction 1 as [|b bs Hb Hbs IH]; [done|]. cbn [EncodeToString all_chars]. rewrite IH. unfold is_byte in Hb.
  assert (0 ≤ b / 16 < 16) by (split; [apply Z.div_pos; lia|apply Z.div_lt_upper_bound; lia]).
  pose proof (Z.mod_pos_bound b 16). rewrite !hex_digit_ok by lia. done.
Qed.

Lemma EncodeToString_inj bs cs :
  Forall is_byte bs → Forall is_byte cs → EncodeToString bs = EncodeToString cs → bs = cs.
Proof.
  intros Hb. revert cs. induction Hb as [|b bs Hb Hbs IH]; intros cs Hc.
  - by destruct Hc.
  - destruct Hc as [|c cs Hc Hcs]; [done|]. cbn [EncodeToString]. intros [= E1 E2 E3].
    unfold is_byte in *.
    assert (0 ≤ b / 16 < 16 ∧ 0 ≤ c / 16 < 16) as [? ?]
      by (repeat split; first [apply Z.div_pos; lia|apply Z.div_lt_upper_bound; lia]).
    pose proof (Z.mod_pos_bound b 16). pose proof (Z.mod_pos_bound c 16).
    apply hex_digit_inj in E1; [|lia..]. apply hex_digit_inj in E2; [|lia..].
    rewrite (IH cs) by done. f_equal. rewrite (Z.div_mod b 16), (Z.div_mod c 16) by lia. congruence.
Qed.

Lemma two_bytes b c : is_byte b → is_byte c → Forall is_byte [b; c].
Proof. intros. rewrite !Forall_cons. done. Qed.

Lemma is_lower_no_dash w : all_chars is_lower w = true → contains_char "-" w = false.
Proof.
  intros H. apply contains_char_false. eapply all_chars_impl; [|done]. intros c Hc. apply negb_true_iff.
  destruct (Ascii.eqb_spec "-" c) as [<-|]; done.
Qed.

Lemma is_hex_no_dash w : all_chars is_hex w = true → contains_char "-" w = false.
Proof.
  intros H. apply contains_char_false. eapply all_chars_impl; [|done]. intros c Hc. apply negb_true_iff.
  destruct (Ascii.eqb_spec "-" c) as [<-|]; done.
Qed.

(** The three parts of an id, as [Split] takes them apart again. *)
Lemma formatID_parts b0 b1 b2 b3 :
  is_byte b0 → is_byte b1 → is_byte b2 → is_byte b3 →
  word_ok (word adjectives b0) = true ∧ word_ok (word nouns b1) = true ∧
  Split "-" (formatID b0 b1 b2 b3) = [word adjectives b0; word nouns b1; EncodeToString [b2; b3]].
Proof.
  intros H0 H1 H2 H3. destruct words_ok as [Wa Wn].
  pose proof (word_word_ok adjectives b0 Wa eq_refl H0) as A. pose proof (word_word_ok nouns b1 Wn eq_refl H1) as N.
  split_and!; [done..|]. unfold word_ok in A, N. apply andb_true_iff in A as [_ A], N as [_ N].
  assert (Hx : all_chars is_hex (EncodeToString [b2; b3]) = true) by (by apply EncodeToString_hex, two_bytes).
  unfold formatID. rewrite !app_cons, !app_nil_l.
  rewrite Split_app, (Split_no_sep _ (word adjectives b0)) by (by apply is_lower_no_dash).
  rewrite Split_app, (Split_no_sep _ (word nouns b1)) by (by apply is_lower_no_dash).
  by rewrite Split_no_sep by (by apply is_hex_no_dash).
Qed.

Definition plain_char (c : ascii) : bool := is_lower c || is_digit c || Ascii.eqb c "-" || Ascii.eqb c "_".

Lemma plain_not_upper c : plain_char c = true → is_upper c = false.
Proof. destruct c as [[] [] [] [] [] [] [] []]; vm_compute; congruence. Qed.

Lemma plain_chars_spec s : plain_chars s = Ok tt ↔ all_chars plain_char s = true.
Proof.
  induction s as [|c s IH]; [done|]. cbn [plain_chars all_chars]. rewrite andb_true_iff, <- IH.
  destruct (plain_char c) eqn:P.
  - rewrite (plain_not_upper c P). unfold plain_char in P.
    destruct (is_lower c || is_digit c), (Ascii.eqb c "-"), (Ascii.eqb c "_"); simpl in *; naive_solver.
  - unfold plain_char in P. apply orb_false_iff in P as [P ->]. apply orb_false_iff in P as [-> ->].
    destruct (is_upper c); simpl; naive_solver.
Qed.

Lemma plainComponent_spec s :
  plainComponent s = Ok tt ↔ s ≠ "" ∧ (String.length s ≤ 64)%nat ∧ all_chars plain_char s = true.
Proof.
  unfold plainComponent, maxChars. rewrite <- plain_chars_spec.
  destruct (String.eqb_spec s "") as [->|]; [naive_solver|].
  destruct (Nat.ltb_spec 64 (String.length s)); [|naive_solver]. split; [done|]. intros (_ & ? & _). lia.
Qed.

Lemma longest_ge words w : w ∈ words → (String.length w ≤ longest words)%nat.
Proof.
  unfold longest. assert (H : ∀ l n, (n ≤ foldl (λ n w, Nat.max n (String.length w)) n l)%nat ∧
    ∀ w, w ∈ l → (String.length w ≤ foldl (λ n w, Nat.max n (String.length w)) n l)%nat).
  { induction l as [|x l IH]; intros n; simpl; [split; [lia|by intros ? ?%not_elem_of_nil]|].
    destruct (IH (Nat.max n (String.length x))) as [H1 H2]. split; [lia|].
    intros v [->|Hv]%elem_of_cons; [lia|by apply H2]. }
  apply H.
Qed.

Lemma formatID_valid b0 b1 b2 b3 :
  is_byte b0 → is_byte b1 → is_byte b2 → is_byte b3 →
  ValidID (formatID b0 b1 b2 b3) = Ok tt ∧ (String.length (formatID b0 b1 b2 b3) ≤ maxIDLength)%nat.
Proof.
  intros H0 H1 H2 H3. destruct (formatID_parts b0 b1 b2 b3) as (A & N & E); try done.
  assert (Hx : all_chars is_hex (EncodeToString [b2; b3]) = true) by (by apply EncodeToString_hex, two_bytes).
  assert (Hl : (String.length (formatID b0 b1 b2 b3) ≤ maxIDLength)%nat).
  { unfold formatID, maxIDLength. rewrite !length_app_s, EncodeToString_length. cbn [String.length length].
    pose proof (longest_ge adjectives (word adjectives b0) (word_In adjectives b0 eq_refl H0)).
    pose proof (longest_ge nouns (word nouns b1) (word_In nouns b1 eq_refl H1)). lia. }
  pose proof A as A'. pose proof N as N'. unfold word_ok in A', N'.
  apply andb_true_iff in A' as [A1 A2]. apply andb_true_iff in N' as [N1 N2].
  assert (Hv : ValidID (formatID b0 b1 b2 b3) = Ok tt).
  { apply plainComponent_spec. split; [|split].
    - intros F. rewrite F in E. discriminate E.
    - assert (maxIDLength ≤ 64)%nat by (vm_compute; lia). lia.
    - unfold formatID. rewrite !all_chars_app.
      rewrite (all_chars_impl is_lower _ (word adjectives b0)), (all_chars_impl is_lower _ (word nouns b1)),
        (all_chars_impl is_hex _ (EncodeToString _)); try done.
      + intros c. unfold is_hex, plain_char, is_lower, in_range. intros [->| Hc]%orb_true_iff; [by rewrite orb_true_r|].
        breflect. rewrite (proj2 (Z.leb_le 97 _)), (proj2 (Z.leb_le _ 122)) by lia. done.
      + intros c Hc. unfold plain_char. by rewrite Hc.
      + intros c Hc. unfold plain_char. by rewrite Hc. }
  done.
Qed.

(** Every id the repository makes is a path component it accepts, no longer than the length it checks paths
    against, and no name a user may give is spelled like one, so a name never shadows an id. Two ids are equal
    only when they came from the same words and the same two bytes. *)
Theorem formatID_spec b0 b1 b2 b3 :
  is_byte b0 → is_byte b1 → is_byte b2 → is_byte b3 →
  ValidID (formatID b0 b1 b2 b3) = Ok tt ∧ (String.length (formatID b0 b1 b2 b3) ≤ maxIDLength)%nat ∧
  (∀ name, ValidName name = Ok tt → name ≠ formatID b0 b1 b2 b3) ∧
  (∀ c0 c1 c2 c3, is_byte c0 → is_byte c1 → is_byte c2 → is_byte c3 →
    formatID b0 b1 b2 b3 = formatID c0 c1 c2 c3 →
    b0 mod wordsPerList = c0 mod wordsPerList ∧ b1 mod wordsPerList = c1 mod wordsPerList ∧ b2 = c2 ∧ b3 = c3).
Proof.
  intros H0 H1 H2 H3. destruct (formatID_valid b0 b1 b2 b3) as [Hv Hl]; try done.
  destruct (formatID_parts b0 b1 b2 b3) as (A & N & E); try done.
  assert (Hx : all_chars is_hex (EncodeToString [b2; b3]) = true) by (by apply EncodeToString_hex, two_bytes).
  unfold word_ok in A, N. apply andb_true_iff in A as [A1 A2], N as [N1 N2].
  split_and!; [done|done| |].
  - intros name Hn ->. unfold ValidName in Hn. unfold ValidID in Hv. rewrite Hv in Hn.
    unfold generatedIDShape in Hn. rewrite E, A1, A2, N1, N2, Hx in Hn.
    rewrite EncodeToString_length in Hn. discriminate Hn.
  - intros c0 c1 c2 c3 C0 C1 C2 C3 F. destruct (formatID_parts c0 c1 c2 c3) as (_ & _ & E'); try done.
    rewrite F, E' in E. injection E as Ea En Eh1 Eh2 Eh3 Eh4.
    assert (Eb : [c2; c3] = [b2; b3]).
    { apply EncodeToString_inj; [by apply two_bytes..|]. cbn [EncodeToString]. congruence. }
    injection Eb as -> ->. split_and!; [| |done..].
    + eapply (word_inj adjectives); [split; vm_compute; reflexivity|done..].
    + eapply (word_inj nouns); [split; vm_compute; reflexivity|done..].
Qed.

Lemma formatID_spec_witness : formatID 64 1 255 10 = "amber-badger-ff0a" ∧ ValidID (formatID 64 1 255 10) = Ok tt.
Proof.
  split; [vm_compute; reflexivity|].
  exact (proj1 (formatID_spec 64 1 255 10 ltac:(split; lia) ltac:(split; lia) ltac:(split; lia) ltac:(split; lia))).
Defined.
