(* ===== verification/Netip.v ===== *)
(** * Addresses and prefixes

    Go's [net/netip], as far as shard calls it: an address is invalid, an IPv4 address (a
    32-bit integer) or an IPv6 address (a 128-bit integer and a zone); a prefix is an address
    and a bit count, -1 for the invalid prefix. Parsing is spelled out, since which text is an
    address decides what kind of rule a policy line becomes. *)

From S2P Require Import Prelude GoStrings.
Local Open Scope Z_scope.

Inductive Addr : Type :=
| AddrInvalid
| Addr4 (v : Z)
| Addr6 (v : Z) (zone : string).

#[export] Instance Addr_eq_dec : EqDecision Addr.
Proof. solve_decision. Defined.

#[export] Instance Addr_countable : Countable Addr.
Proof.
  refine (inj_countable'
    (λ a, match a with AddrInvalid => inl () | Addr4 v => inr (inl v) | Addr6 v z => inr (inr (v, z)) end)
    (λ x, match x with inl _ => AddrInvalid | inr (inl v) => Addr4 v | inr (inr (v, z)) => Addr6 v z end) _).
  by intros [].
Defined.

Record Prefix : Type := MkPrefix { paddr : Addr; pbits : Z }.

#[export] Instance Prefix_eq_dec : EqDecision Prefix.
Proof. solve_decision. Defined.

Definition PrefixZero : Prefix := MkPrefix AddrInvalid (-1).

(** ** Observers *)

Definition Addr_IsValid (a : Addr) : bool := match a with AddrInvalid => false | _ => true end.
Definition Is4 (a : Addr) : bool := match a with Addr4 _ => true | _ => false end.
Definition Is6 (a : Addr) : bool := match a with Addr6 _ _ => true | _ => false end.
Definition BitLen (a : Addr) : Z := match a with AddrInvalid => 0 | Addr4 _ => 32 | Addr6 _ _ => 128 end.
Definition withoutZone (a : Addr) : Addr := match a with Addr6 v _ => Addr6 v "" | _ => a end.
Definition hasZone (a : Addr) : bool := match a with Addr6 _ z => negb (String.eqb z "") | _ => false end.

(** [Unmap]: an IPv4-mapped IPv6 address is the IPv4 address it carries. *)
Definition Unmap (a : Addr) : Addr :=
  match a with
  | Addr6 v _ => if Z.shiftr v 32 =? 65535 then Addr4 (v mod 2 ^ 32) else a
  | _ => a
  end.

Definition IsUnspecified (a : Addr) : bool :=
  match a with AddrInvalid => false | Addr4 v => v =? 0 | Addr6 v z => (v =? 0) && String.eqb z "" end.

Definition IsMulticast (a : Addr) : bool :=
  match a with AddrInvalid => false | Addr4 v => Z.shiftr v 28 =? 14 | Addr6 v _ => Z.shiftr v 120 =? 255 end.

(** [Next] is the invalid address past the last one of its family. *)
Definition Next (a : Addr) : Addr :=
  match a with
  | AddrInvalid => AddrInvalid
  | Addr4 v => if v =? 2 ^ 32 - 1 then AddrInvalid else Addr4 (v + 1)
  | Addr6 v z => if v =? 2 ^ 128 - 1 then AddrInvalid else Addr6 (v + 1) z
  end.

Definition Prefix_IsValid (p : Prefix) : bool := 0 <=? pbits p.

Definition PrefixFrom (a : Addr) (bits : Z) : Prefix :=
  MkPrefix (withoutZone a)
    (if Addr_IsValid a && (0 <=? bits) && (bits <=? BitLen a) then bits else -1).

Definition mask_low (width bits v : Z) : Z := Z.shiftl (Z.shiftr v (width - bits)) (width - bits).

Definition Masked (p : Prefix) : Prefix :=
  if Prefix_IsValid p then
    match paddr p with
    | AddrInvalid => PrefixZero
    | Addr4 v => MkPrefix (Addr4 (mask_low 32 (pbits p) v)) (pbits p)
    | Addr6 v _ => MkPrefix (Addr6 (mask_low 128 (pbits p) v) "") (pbits p)
    end
  else PrefixZero.

Definition Prefix_Contains (p : Prefix) (a : Addr) : bool :=
  if negb (Prefix_IsValid p) || hasZone a then false
  else match paddr p, a with
       | Addr4 pv, Addr4 v => Z.shiftr (Z.lxor v pv) (32 - pbits p) =? 0
       | Addr6 pv _, Addr6 v _ => Z.shiftr (Z.lxor v pv) (128 - pbits p) =? 0
       | _, _ => false
       end.

(** [Addr.Compare] orders by family, then value, then zone. *)
Definition Addr_Compare (a b : Addr) : comparison :=
  match a, b with
  | AddrInvalid, AddrInvalid => Eq
  | Addr4 v, Addr4 w => Z.compare v w
  | Addr6 v z, Addr6 w y => match Z.compare v w with Eq => String.compare z y | c => c end
  | _, _ => Z.compare (BitLen a) (BitLen b)
  end.

(** ** Parsing *)

(** [parseIPv4Fields]: four decimal octets with no leading zero; [fields] holds the finished ones, last first. *)
Fixpoint ipv4_fields (after_dot : bool) (val digLen : Z) (fields : list Z) (s : string) : option (list Z) :=
  match s with
  | EmptyString => if (length fields <? 3)%nat then None else Some (rev (val :: fields))
  | String c s' =>
      if is_digit c then
        if (digLen =? 1) && (val =? 0) then None
        else let val := val * 10 + (code c - 48) in
             if 255 <? val then None else ipv4_fields false val (digLen + 1) fields s'
      else if Ascii.eqb c "." then
        if after_dot || String.eqb s' "" then None
        else if (length fields =? 3)%nat then None
        else ipv4_fields true 0 0 (val :: fields) s'
      else None
  end.

Definition octets (fs : list Z) : option Z :=
  match fs with
  | [a; b; c; d] => Some (((a * 256 + b) * 256 + c) * 256 + d)
  | _ => None
  end.

Definition parseIPv4 (s : string) : option Addr :=
  fs ← ipv4_fields true 0 0 [] s; v ← octets fs; Some (Addr4 v).

Definition hex_val (c : ascii) : option Z :=
  if is_digit c then Some (code c - 48)
  else if in_range 97 102 c then Some (code c - 87)
  else if in_range 65 70 c then Some (code c - 55)
  else None.

(** One group of hex digits: how many, their value and what follows; [None] for a fifth digit. *)
Fixpoint hex_group (off : nat) (acc : Z) (s : string) : option (nat * Z * string) :=
  match s with
  | EmptyString => Some (off, acc, EmptyString)
  | String c s' =>
      match hex_val c with
      | None => Some (off, acc, s)
      | Some d =>
          let acc := acc * 16 + d in
          if (3 <? off)%nat then None else if 65535 <? acc then None else hex_group (S off) acc s'
      end
  end.

(** The loop of [parseIPv6]: each turn saves one 16-bit group, so eight turns fill an address. *)
Fixpoint ipv6_groups (fuel : nat) (groups : list Z) (ellipsis : option nat) (s : string)
  : option (list Z * option nat * string) :=
  match fuel with
  | O => Some (groups, ellipsis, s)
  | S fuel =>
      '(off, acc, rest) ← hex_group 0 0 s;
      if (off =? 0)%nat then None
      else match rest with
           | EmptyString => Some (groups ++ [acc], ellipsis, EmptyString)
           | String c rest' =>
               if Ascii.eqb c "." then
                 if bool_decide (ellipsis = None) && negb (length groups =? 6)%nat then None
                 else if (6 <? length groups)%nat then None
                 else fs ← ipv4_fields true 0 0 [] s;
                      match fs with
                      | [a; b; c; d] => Some (groups ++ [a * 256 + b; c * 256 + d], ellipsis, EmptyString)
                      | _ => None
                      end
               else if negb (Ascii.eqb c ":") then None
               else match rest' with
                    | EmptyString => None
                    | String d rest'' =>
                        let groups := groups ++ [acc] in
                        if Ascii.eqb d ":" then
                          if bool_decide (ellipsis ≠ None) then None
                          else if String.eqb rest'' "" then Some (groups, Some (length groups), EmptyString)
                          else ipv6_groups fuel groups (Some (length groups)) rest''
                        else ipv6_groups fuel groups ellipsis rest'
                    end
           end
  end.

Definition groups_value (gs : list Z) : Z := foldl (λ acc g, acc * 65536 + g) 0 gs.

Definition parseIPv6 (s : string) : option Addr :=
  let '(body, zone, zoned) := Cut s "%" in
  if zoned && String.eqb zone "" then None
  else
    let '(leading, body) :=
      if HasPrefix body "::" then (Some 0%nat, drop_s 2 body) else (None, body) in
    if bool_decide (leading ≠ None) && String.eqb body "" then Some (Addr6 0 zone)
    else
      '(groups, ellipsis, rest) ← ipv6_groups 8 [] leading body;
      if negb (String.eqb rest "") then None
      else if (length groups <? 8)%nat then
        e ← ellipsis;
        Some (Addr6 (groups_value (take e groups ++ replicate (8 - length groups) 0 ++ drop e groups)) zone)
      else if bool_decide (ellipsis ≠ None) then None
      else Some (Addr6 (groups_value groups) zone).

(** [ParseAddr] picks the family by the first of [.], [:] and [%] it meets. *)
Fixpoint addr_family (s : string) : option ascii :=
  match s with
  | EmptyString => None
  | String c s => if Ascii.eqb c "." || Ascii.eqb c ":" || Ascii.eqb c "%" then Some c else addr_family s
  end.

Definition ParseAddr (s : string) : option Addr :=
  match addr_family s with
  | Some "." => parseIPv4 s
  | Some ":" => parseIPv6 s
  | _ => None
  end%char.

(** What is before and after the last [sep]. *)
Fixpoint cut_last (sep : ascii) (s : string) : option (string * string) :=
  match s with
  | EmptyString => None
  | String c s' =>
      match cut_last sep s' with
      | Some (before, after) => Some (String c before, after)
      | None => if Ascii.eqb c sep then Some (EmptyString, s') else None
      end
  end.

Definition ParsePrefix (s : string) : option Prefix :=
  '(addr, bitsStr) ← cut_last "/" s;
  ip ← ParseAddr addr;
  if Is6 ip && hasZone ip then None
  else if (1 <? String.length bitsStr)%nat
          && match bitsStr with String c _ => negb (in_range 49 57 c) | _ => false end then None
  else bits ← Atoi bitsStr;
       if (bits <? 0) || (BitLen ip <? bits) then None else Some (PrefixFrom ip bits).

(** ** Printing *)

Definition String4 (v : Z) : string :=
  Itoa (Z.shiftr v 24 mod 256) +:+ "." +:+ Itoa (Z.shiftr v 16 mod 256) +:+ "."
  +:+ Itoa (Z.shiftr v 8 mod 256) +:+ "." +:+ Itoa (v mod 256).

Example parse_addr_1 : ParseAddr "10.87.0.1" = Some (Addr4 173473793).
Proof. vm_compute. reflexivity. Qed.
Example parse_addr_2 : ParseAddr "::ffff:1.2.3.4" = Some (Addr6 281470698652420 "").
Proof. vm_compute. reflexivity. Qed.
Example parse_addr_3 : ParseAddr "01.2.3.4" = None.
Proof. vm_compute. reflexivity. Qed.
Example parse_addr_4 : ParseAddr "fe80::1%eth0" = Some (Addr6 (65152 * 2 ^ 112 + 1) "eth0").
Proof. vm_compute. reflexivity. Qed.
Example parse_prefix_1 : ParsePrefix "10.0.0.0/8" = Some (MkPrefix (Addr4 167772160) 8).
Proof. vm_compute. reflexivity. Qed.
Example parse_prefix_2 : ParsePrefix "10.0.0.0/08" = None.
Proof. vm_compute. reflexivity. Qed.

(** * Lemmas *)

Definition addr4_ok (v : Z) : Prop := 0 ≤ v < 2 ^ 32.

(** A prefix holds exactly the addresses that share its leading bits. *)
Lemma Contains4_spec pv bits v :
  0 ≤ bits ≤ 32 →
  Prefix_Contains (MkPrefix (Addr4 pv) bits) (Addr4 v) = true ↔
  v / 2 ^ (32 - bits) = pv / 2 ^ (32 - bits).
Proof.
  intros Hb. unfold Prefix_Contains, Prefix_IsValid. simpl.
  rewrite (proj2 (Z.leb_le 0 bits)) by lia. simpl.
  rewrite Z.eqb_eq, Z.shiftr_lxor, Z.lxor_eq_0_iff, !Z.shiftr_div_pow2 by lia. done.
Qed.

Lemma mask_low_spec bits v :
  0 ≤ bits ≤ 32 → mask_low 32 bits v = v / 2 ^ (32 - bits) * 2 ^ (32 - bits).
Proof. intros Hb. unfold mask_low. by rewrite Z.shiftl_mul_pow2, Z.shiftr_div_pow2 by lia. Qed.

Lemma mask_low_div bits v :
  0 ≤ bits ≤ 32 → mask_low 32 bits v / 2 ^ (32 - bits) = v / 2 ^ (32 - bits).
Proof. intros Hb. rewrite mask_low_spec by done. apply Z.div_mul. lia. Qed.

Lemma mask_low_ok bits v : 0 ≤ bits ≤ 32 → addr4_ok v → addr4_ok (mask_low 32 bits v).
Proof.
  unfold addr4_ok. intros Hb Hv. rewrite mask_low_spec by done.
  pose proof (Z.mul_div_le v (2 ^ (32 - bits)) ltac:(lia)).
  pose proof (Z.div_pos v (2 ^ (32 - bits)) ltac:(lia) ltac:(lia)). nia.
Qed.

(** Masking a prefix changes no verdict of [Contains]. *)
Lemma Masked_Contains pv bits a :
  0 ≤ bits ≤ 32 →
  Prefix_Contains (Masked (MkPrefix (Addr4 pv) bits)) a = Prefix_Contains (MkPrefix (Addr4 pv) bits) a.
Proof.
  intros Hb. unfold Masked, Prefix_IsValid. simpl. rewrite (proj2 (Z.leb_le 0 bits)) by lia.
  destruct a as [|v|]; [done| |done]. apply eq_true_iff_eq.
  rewrite !Contains4_spec by done. by rewrite mask_low_div.
Qed.

(** ** Dotted decimals *)

Lemma ipv4_fields_octet a b fs c r :
  0 ≤ a < 256 → (length fs < 3)%nat →
  ipv4_fields b 0 0 fs (Itoa a +:+ "." +:+ String c r) = ipv4_fields true 0 0 (a :: fs) (String c r).
Proof.
  intros Ha Hfs. cut (Forall (λ a, ipv4_fields b 0 0 fs (Itoa a +:+ "." +:+ String c r)
                    = ipv4_fields true 0 0 (a :: fs) (String c r)) (seqZ 0 256)).
  - rewrite Forall_forall. intros H. apply H, elem_of_seqZ. lia.
  - clear Ha. let l := eval vm_compute in (seqZ 0 256) in change (seqZ 0 256) with l.
    destruct fs as [|? [|? [|? fs]]]; [..|simpl in Hfs; lia];
      repeat (apply Forall_cons; split; [reflexivity|]); constructor.
Qed.

Lemma ipv4_fields_last a b fs :
  0 ≤ a < 256 → (length fs = 3)%nat → ipv4_fields b 0 0 fs (Itoa a) = Some (rev (a :: fs)).
Proof.
  intros Ha Hfs.
  cut (Forall (λ a, ipv4_fields b 0 0 fs (Itoa a) = Some (rev (a :: fs))) (seqZ 0 256)).
  - rewrite Forall_forall. intros H. apply H, elem_of_seqZ. lia.
  - clear Ha. let l := eval vm_compute in (seqZ 0 256) in change (seqZ 0 256) with l.
    destruct fs as [|? [|? [|? [|]]]]; try done.
    repeat (apply Forall_cons; split; [reflexivity|]); constructor.
Qed.

Lemma octets_split v :
  addr4_ok v →
  ((Z.shiftr v 24 mod 256 * 256 + Z.shiftr v 16 mod 256) * 256 + Z.shiftr v 8 mod 256) * 256 + v mod 256 = v.
Proof.
  unfold addr4_ok. intros Hv. rewrite !Z.shiftr_div_pow2 by lia.
  rewrite (Z.mod_small (v / 2 ^ 24)) by (split; [apply Z.div_pos; lia|apply Z.div_lt_upper_bound; lia]).
  replace (2 ^ 24) with (256 * 256 * 256) by done. replace (2 ^ 16) with (256 * 256) by done.
  replace (2 ^ 8) with 256 by done. rewrite <- !Z.div_div by lia.
  pose proof (Z.div_mod v 256 ltac:(lia)).
  pose proof (Z.div_mod (v / 256) 256 ltac:(lia)).
  pose proof (Z.div_mod (v / 256 / 256) 256 ltac:(lia)). lia.
Qed.

Lemma Itoa_cons n : 0 ≤ n → ∃ c r, Itoa n = String c r ∧ is_digit c = true.
Proof.
  intros Hn. destruct (Itoa_digits n Hn) as [Hd Hne]. destruct (Itoa n) as [|c r]; [done|].
  simpl in Hd. breflect. eauto.
Qed.

Lemma digit_not c d : is_digit c = true → is_digit d = false → Ascii.eqb c d = false.
Proof. intros Hc Hd. apply Ascii.eqb_neq. intros ->. congruence. Qed.

Lemma addr_family_digits s t : all_chars is_digit s = true → addr_family (s +:+ "." +:+ t) = Some "."%char.
Proof.
  induction s as [|c s IH]; [done|]. cbn [all_chars]. intros H. breflect.
  rewrite app_cons. cbn [addr_family]. by rewrite !(digit_not c) by done; auto.
Qed.

(** An IPv4 address reads back from its text. *)
Lemma ParseAddr_String4 v : addr4_ok v → ParseAddr (String4 v) = Some (Addr4 v).
Proof.
  intros Hv. unfold ParseAddr, String4.
  set (a := Z.shiftr v 24 mod 256). set (b := Z.shiftr v 16 mod 256). set (c := Z.shiftr v 8 mod 256).
  assert (Ha : 0 ≤ a < 256) by (apply Z.mod_pos_bound; lia).
  assert (Hb : 0 ≤ b < 256) by (apply Z.mod_pos_bound; lia).
  assert (Hc : 0 ≤ c < 256) by (apply Z.mod_pos_bound; lia).
  assert (Hd : 0 ≤ v mod 256 < 256) by (apply Z.mod_pos_bound; lia).
  rewrite addr_family_digits by (apply Itoa_digits; lia). unfold parseIPv4.
  destruct (Itoa_cons b) as (cb & rb & Eb & _); [lia|].
  destruct (Itoa_cons c) as (cc & rc & Ec & _); [lia|].
  destruct (Itoa_cons (v mod 256)) as (cd & rd & Ed & _); [lia|].
  rewrite Eb, (app_cons cb rb), ipv4_fields_octet by (simpl; lia). rewrite <- (app_cons cb rb), <- Eb.
  rewrite Ec, (app_cons cc rc), ipv4_fields_octet by (simpl; lia). rewrite <- (app_cons cc rc), <- Ec.
  rewrite Ed, ipv4_fields_octet by (simpl; lia). rewrite <- Ed, ipv4_fields_last by (simpl; lia || done).
  simpl. do 2 f_equal. by apply octets_split.
Qed.

Lemma String4_inj v w : addr4_ok v → addr4_ok w → String4 v = String4 w → v = w.
Proof.
  intros Hv Hw H. apply (f_equal ParseAddr) in H.
  rewrite !ParseAddr_String4 in H by done. by injection H.
Qed.

(** ** What parses *)

Definition addr_ok (a : Addr) : Prop :=
  match a with AddrInvalid => True | Addr4 v => addr4_ok v | Addr6 v _ => 0 ≤ v < 2 ^ 128 end.

Lemma ipv4_fields_range b val dl fs s gs :
  0 ≤ val ≤ 255 → Forall (λ x, 0 ≤ x ≤ 255) fs → ipv4_fields b val dl fs s = Some gs →
  Forall (λ x, 0 ≤ x ≤ 255) gs.
Proof.
  revert b val dl fs. induction s as [|c s IH]; intros b val dl fs Hval Hfs H; simpl in H.
  - case_guards H. injection H as <-. apply Forall_app. split; [by apply Forall_rev|by constructor].
  - case_guards H; breflect.
    + eapply IH; [|done|exact H]. unfold is_digit, in_range in *. breflect. lia.
    + eapply IH; [..|exact H]; [lia|by constructor].
Qed.

Lemma parseIPv4_ok s a : parseIPv4 s = Some a → ∃ v, a = Addr4 v ∧ addr4_ok v.
Proof.
  unfold parseIPv4. destruct (ipv4_fields _ _ _ _ s) as [gs|] eqn:E; simpl; [|done].
  intros H. apply ipv4_fields_range in E; [|lia|constructor].
  destruct gs as [|g1 [|g2 [|g3 [|g4 [|]]]]]; try done. simpl in H. injection H as <-.
  repeat (apply Forall_cons in E as [? E]). eexists; split; [done|]. unfold addr4_ok. lia.
Qed.

(** A parsed IPv4 text holds digits and dots alone. *)
Definition v4_char (c : ascii) : bool := is_digit c || Ascii.eqb c ".".

Lemma ipv4_fields_chars b val dl fs s gs : ipv4_fields b val dl fs s = Some gs → all_chars v4_char s = true.
Proof.
  revert b val dl fs. induction s as [|c s IH]; intros b val dl fs H; [done|]. simpl in H |- *.
  unfold v4_char at 1. case_guards H; simpl; eauto.
Qed.

Lemma parseIPv6_Is6 s a : parseIPv6 s = Some a → Is6 a = true.
Proof.
  unfold parseIPv6. destruct (Cut s "%") as [[body zone] zoned].
  destruct (zoned && _); [done|].
  destruct (HasPrefix body "::"); cbn [mbind option_bind];
    (case_match; [by intros [= <-]|]);
    match goal with |- context [ipv6_groups ?a ?b ?c ?d] => destruct (ipv6_groups a b c d) as [[[gs el] rest]|] end;
    simpl; [|done| |done];
    (destruct (negb _); [done|]); (case_match; [destruct el; simpl; [by intros [= <-]|done]|]);
    (case_match; [done|by intros [= <-]]).
Qed.

Lemma ParseAddr_Is4 s v :
  ParseAddr s = Some (Addr4 v) → addr4_ok v ∧ all_chars v4_char s = true.
Proof.
  unfold ParseAddr. intros H. destruct (addr_family s) as [c|]; [|done].
  destruct (decide (c = "."%char)) as [->|].
  - pose proof H as H'. apply parseIPv4_ok in H' as (w & [= <-] & Hw). split; [done|].
    unfold parseIPv4 in H. destruct (ipv4_fields _ _ _ _ s) eqn:E; [|done]. by eapply ipv4_fields_chars.
  - assert (parseIPv6 s = Some (Addr4 v)) as H6 by (repeat (case_match; try done)).
    by apply parseIPv6_Is6 in H6.
Qed.

(** ** The text of an IPv4 address is the only one *)

Definition digit_text (val : Z) (c : ascii) : string := Itoa (val * 10 + (code c - 48)).

Lemma digit_text_zero c : is_digit c = true → digit_text 0 c = String c "".
Proof.
  intros Hc. unfold digit_text. by destruct c as [[] [] [] [] [] [] [] []]; try discriminate Hc.
Qed.

Lemma digit_text_snoc val c :
  1 ≤ val ≤ 25 → is_digit c = true → digit_text val c = Itoa val +:+ String c "".
Proof.
  intros Hv Hc.
  cut (Forall (λ v, digit_text v c = Itoa v +:+ String c "") (seqZ 1 25)).
  { rewrite Forall_forall. intros H1. apply H1, elem_of_seqZ. lia. }
  clear Hv. let l := eval vm_compute in (seqZ 1 25) in change (seqZ 1 25) with l.
  destruct c as [[] [] [] [] [] [] [] []]; try discriminate Hc;
    repeat (apply Forall_cons; split; [vm_compute; reflexivity|]); constructor.
Qed.

(** The digits of the octet being read, so far. *)
Definition current (dl val : Z) : string := if dl =? 0 then "" else Itoa val.

Lemma ipv4_fields_text b val dl fs s gs :
  ipv4_fields b val dl fs s = Some gs →
  0 ≤ dl → 0 ≤ val ≤ 255 → (dl = 0 → val = 0) → (val = 0 → dl ≤ 1) → (b = true ↔ dl = 0) →
  (dl = 0 → s = "" → (length fs < 3)%nat) →
  ∃ os, os ≠ [] ∧ gs = rev fs ++ os ∧ current dl val +:+ s = Join "." (Itoa <$> os).
Proof.
  revert b val dl fs. induction s as [|c s IH]; intros b val dl fs H Hdl Hval H0 H1 Hb He; cbn [ipv4_fields] in H.
  - destruct (length fs <? 3)%nat eqn:El; [done|]. breflect. injection H as <-. exists [val].
    split_and!; [done|done|]. unfold current. destruct (Z.eqb_spec dl 0); [exfalso; specialize (He e eq_refl); lia|].
    rewrite app_nil_r. done.
  - destruct (is_digit c) eqn:Hc.
    + destruct ((dl =? 1) && (val =? 0)) eqn:Hz; [done|]. destruct (255 <? _) eqn:Hm; [done|]. breflect.
      pose proof Hc as Hc'. unfold is_digit, in_range in Hc'. breflect.
      assert (Hv0 : val = 0 → dl = 0). { intros E. apply andb_false_iff in Hz as [Hz|Hz]; breflect; [specialize (H1 E)|]; lia. }
      apply IH in H as (os & Hne & Hgs & Hj); try (lia || (split; [done|lia])).
      exists os. split_and!; [done|done|]. rewrite <- Hj. unfold current.
      rewrite (proj2 (Z.eqb_neq (dl + 1) 0)) by lia. fold (digit_text val c).
      destruct (Z.eqb_spec dl 0) as [E|E].
      * rewrite (H0 E), digit_text_zero by done. done.
      * rewrite digit_text_snoc by (done || lia). rewrite <- app_assoc_s. done.
    + destruct (Ascii.eqb_spec c ".") as [->|]; [|done].
      destruct (b || String.eqb s "") eqn:Hd; [done|]. destruct (length fs =? 3)%nat eqn:El; [done|].
      apply orb_false_iff in Hd as [Hb' Hs]. apply String.eqb_neq in Hs.
      apply IH in H as (os & Hne & Hgs & Hj); try (lia || done).
      exists (val :: os). split_and!; [done|simpl in Hgs; by rewrite Hgs, <- app_assoc|].
      unfold current in *. rewrite (proj2 (Z.eqb_neq dl 0)) by (intros E; apply Hb in E; congruence).
      destruct os as [|o os]; [done|]. rewrite !fmap_cons, Join_cons, <- fmap_cons, <- Hj. done.
Qed.

(** A text that parses as an IPv4 address is the one the address prints as. *)
Lemma ParseAddr_canonical s v : ParseAddr s = Some (Addr4 v) → s = String4 v.
Proof.
  unfold ParseAddr. intros H. destruct (addr_family s) as [c|] eqn:Ef; [|done].
  destruct (decide (c = "."%char)) as [->|].
  2: { assert (parseIPv6 s = Some (Addr4 v)) as H6 by (repeat (case_match; try done)). by apply parseIPv6_Is6 in H6. }
  unfold parseIPv4 in H. destruct (ipv4_fields true 0 0 [] s) as [gs|] eqn:E; [|done]. simpl in H.
  pose proof E as Hr. apply ipv4_fields_range in Hr; [|lia|constructor].
  apply ipv4_fields_text in E as (os & _ & Hgs & Hj); [|lia|lia|done|lia|done|simpl; lia].
  simpl in Hgs. subst gs. change (current 0 0 +:+ s) with s in Hj. subst s.
  destruct os as [|g1 [|g2 [|g3 [|g4 [|]]]]]; try done. simpl in H. injection H as <-.
  repeat (apply Forall_cons in Hr as [? Hr]). simpl in *. unfold String4. rewrite !Z.shiftr_div_pow2 by lia.
  replace ((((g1 * 256 + g2) * 256 + g3) * 256 + g4) / 2 ^ 24 mod 256) with g1.
  2: { rewrite <- (Z.div_unique _ (2 ^ 24) g1 ((g2 * 256 + g3) * 256 + g4)) by lia. symmetry. apply Z.mod_small. lia. }
  replace ((((g1 * 256 + g2) * 256 + g3) * 256 + g4) / 2 ^ 16 mod 256) with g2.
  2: { rewrite <- (Z.div_unique _ (2 ^ 16) (g1 * 256 + g2) (g3 * 256 + g4)) by lia.
       apply Z.mod_unique with g1; lia. }
  replace ((((g1 * 256 + g2) * 256 + g3) * 256 + g4) / 2 ^ 8 mod 256) with g3.
  2: { rewrite <- (Z.div_unique _ (2 ^ 8) ((g1 * 256 + g2) * 256 + g3) g4) by lia.
       apply Z.mod_unique with (g1 * 256 + g2); lia. }
  replace ((((g1 * 256 + g2) * 256 + g3) * 256 + g4) mod 256) with g4; [done|].
  apply Z.mod_unique with ((g1 * 256 + g2) * 256 + g3); lia.
Qed.
