(* ===== verification/Models.v ===== *)
(** * The domain types

    [models/]: the sandbox record and its lifecycle states, the policy a sandbox is held to,
    the named processes it runs and their restart policies. A Go string type with a fixed set
    of constants is an inductive type with one constructor per constant, and one more for any
    other text, which a file edited by hand can hold. Times are Unix nanoseconds, 0 for the
    zero time. *)

From S2P Require Import Prelude GoStrings Netip.
Local Open Scope Z_scope.

(** ** Lifecycle: models/state.go *)

Inductive State : Type :=
| StatePending
| StateCreated
| StateRunning
| StatePaused
| StateUnresponsive
| StateStopped
| StateFailed
| StateOther (s : string).

#[export] Instance State_eq_dec : EqDecision State.
Proof. solve_decision. Defined.

Definition legalTransitions (s : State) : option (list State) :=
  match s with
  | StatePending => Some [StateRunning; StateFailed]
  | StateCreated => Some [StateRunning; StateStopped; StateFailed]
  | StateRunning => Some [StatePaused; StateStopped; StateUnresponsive; StateFailed]
  | StatePaused => Some [StateRunning; StateStopped]
  | StateUnresponsive => Some [StateRunning; StatePaused; StateStopped]
  | StateStopped => Some [StateRunning]
  | StateFailed => Some []
  | StateOther _ => None
  end.

Definition State_Valid (s : State) : bool := bool_decide (is_Some (legalTransitions s)).

Definition CanTransitionTo (s next : State) : bool :=
  contains (default [] (legalTransitions s)) next.

Definition Live (s : State) : bool :=
  bool_decide (s = StateRunning) || bool_decide (s = StateUnresponsive).

(** ** Egress: models/egress.go *)

Inductive Action : Type := ActionAllow | ActionDeny | ActionOther (s : string).

Inductive DestinationKind : Type :=
| DestinationCIDR
| DestinationDomain
| DestinationDomainSuffix
| DestinationGroup
| DestinationOther (s : string).

#[export] Instance Action_eq_dec : EqDecision Action.
Proof. solve_decision. Defined.
#[export] Instance DestinationKind_eq_dec : EqDecision DestinationKind.
Proof. solve_decision. Defined.

Record Destination : Type := MkDestination { DKind : DestinationKind; DValue : string }.

Record Rule : Type := MkRule {
  RAction : Action;
  RDestination : Destination;
  RProtocol : string;
  RPorts : list Z
}.

Record Policy : Type := MkPolicy { PName : string; PRules : list Rule }.

#[export] Instance Destination_eq_dec : EqDecision Destination.
Proof. solve_decision. Defined.
#[export] Instance Rule_eq_dec : EqDecision Rule.
Proof. solve_decision. Defined.
#[export] Instance Policy_eq_dec : EqDecision Policy.
Proof. solve_decision. Defined.

(** ** Processes: models/process.go, models/restart.go *)

Inductive RestartPolicy : Type :=
| RestartNo
| RestartOnFailure
| RestartAlways
| RestartUnlessStopped
| RestartOther (s : string).

#[export] Instance RestartPolicy_eq_dec : EqDecision RestartPolicy.
Proof. solve_decision. Defined.

(** The longest wait before a start again, in seconds. *)
Definition RestartBackoffCap : Z := 60.

Record RestartSpec : Type := MkRestartSpec { SPolicy : RestartPolicy; SRetries : Z; SBackoff : Z }.

Definition RestartSpec_Set (r : RestartSpec) : bool :=
  negb (bool_decide (SPolicy r = RestartOther "")) && negb (bool_decide (SPolicy r = RestartNo)).

Record ExitStatus : Type := MkExitStatus { ECode : Z; ESignal : Z }.

Inductive ProcessState : Type :=
| ProcessRunning
| ProcessRestarting
| ProcessExited
| ProcessKilled
| ProcessGaveUp
| ProcessStopped
| ProcessStateOther (s : string).

#[export] Instance ProcessState_eq_dec : EqDecision ProcessState.
Proof. solve_decision. Defined.
#[export] Instance ExitStatus_eq_dec : EqDecision ExitStatus.
Proof. solve_decision. Defined.
#[export] Instance RestartSpec_eq_dec : EqDecision RestartSpec.
Proof. solve_decision. Defined.

Definition Ended (s : ProcessState) : bool :=
  bool_decide (s = ProcessExited) || bool_decide (s = ProcessKilled)
  || bool_decide (s = ProcessGaveUp) || bool_decide (s = ProcessStopped).

Record ProcessStatus : Type := MkProcessStatus {
  PSState : ProcessState;
  PSRestarts : Z;
  PSExit : option ExitStatus;
  PSStartedAt : Z
}.

#[export] Instance ProcessStatus_eq_dec : EqDecision ProcessStatus.
Proof. solve_decision. Defined.

Record Process : Type := MkProcess {
  PrName : string;
  PrCommand : list string;
  PrEnv : list string;
  PrWorkDir : string;
  PrUser : string;
  PrRestart : RestartSpec;
  PrKilled : bool;
  PrStatus : ProcessStatus
}.

#[export] Instance Process_eq_dec : EqDecision Process.
Proof. solve_decision. Defined.

(** [processName], the pattern of a process name: a letter or digit, then up to 31 of [a-z0-9_.-]. *)
Definition name_head (c : ascii) : bool := is_lower c || is_digit c.
Definition process_tail (c : ascii) : bool :=
  name_head c || Ascii.eqb c "_" || Ascii.eqb c "." || Ascii.eqb c "-".

Definition ValidProcessName (name : string) : bool :=
  match name with
  | EmptyString => false
  | String c rest => name_head c && all_chars process_tail rest && (String.length rest <=? 31)%nat
  end.

Record PortForward : Type := MkPortForward { HostPort : Z; GuestPort : Z; Public : bool }.

#[export] Instance PortForward_eq_dec : EqDecision PortForward.
Proof. solve_decision. Defined.

Record OOM : Type := MkOOM { Kills : Z; InARow : Z; KilledAt : Z; RestartAt : Z }.

#[export] Instance OOM_eq_dec : EqDecision OOM.
Proof. solve_decision. Defined.

(** [RestartDue], on a record that may be nil. *)
Definition RestartDue (o : option OOM) : bool :=
  match o with None => false | Some o => negb (RestartAt o =? 0) end.

Record Resources : Type := MkResources { MemoryMiB : Z; VCPUs : Z; DiskMiB : Z; SwapMiB : Z }.

#[export] Instance Resources_eq_dec : EqDecision Resources.
Proof. solve_decision. Defined.

(** ** The record: models/sandbox.go *)

Record Sandbox : Type := MkSandbox {
  ID : string;
  Name : string;
  Image : string;
  Digest : string;
  Snapshot : string;
  ForkedFrom : string;
  Provider : string;
  Kernel : string;
  SState : State;
  ExitChannel : string;
  StoppedReason : string;
  FailedReason : string;
  FailedPublic : string;
  UnresponsiveReason : string;
  SOOM : option OOM;
  Checkpoint : string;
  Pausing : bool;
  PID : Z;
  NetnsPath : string;
  Address : Prefix;
  HostInterface : string;
  SResources : Resources;
  Processes : list Process;
  StoppedByOperator : bool;
  LogStarts : list (string * Z);
  Secrets : list string;
  SPolicyName : string;
  Ports : list PortForward;
  StartedAt : Z;
  RunStartedAt : Z;
  CreatedAt : Z
}.

#[export] Instance Sandbox_eq_dec : EqDecision Sandbox.
Proof. solve_decision. Defined.

(** The zero record, which a Go composite literal fills from. *)
Definition sandbox_zero : Sandbox := {|
  ID := ""; Name := ""; Image := ""; Digest := ""; Snapshot := ""; ForkedFrom := ""; Provider := "";
  Kernel := ""; SState := StateOther ""; ExitChannel := ""; StoppedReason := ""; FailedReason := "";
  FailedPublic := ""; UnresponsiveReason := ""; SOOM := None; Checkpoint := ""; Pausing := false;
  PID := 0; NetnsPath := ""; Address := PrefixZero; HostInterface := "";
  SResources := MkResources 0 0 0 0; Processes := []; StoppedByOperator := false; LogStarts := [];
  Secrets := []; SPolicyName := ""; Ports := []; StartedAt := 0; RunStartedAt := 0; CreatedAt := 0 |}.

Definition set_ID (i : string) (s : Sandbox) : Sandbox :=
  let '(MkSandbox _ a2 a3 a4 a5 a6 a7 a8 a9 a10 a11 a12 a13 a14 a15 a16 a17 a18 a19 a20 a21 a22 a23 a24 a25 a26 a27 a28 a29 a30 a31) := s in
  MkSandbox i a2 a3 a4 a5 a6 a7 a8 a9 a10 a11 a12 a13 a14 a15 a16 a17 a18 a19 a20 a21 a22 a23 a24 a25 a26 a27 a28 a29 a30 a31.

Definition set_SState (x : State) (s : Sandbox) : Sandbox :=
  let '(MkSandbox a1 a2 a3 a4 a5 a6 a7 a8 _ a10 a11 a12 a13 a14 a15 a16 a17 a18 a19 a20 a21 a22 a23 a24 a25 a26 a27 a28 a29 a30 a31) := s in
  MkSandbox a1 a2 a3 a4 a5 a6 a7 a8 x a10 a11 a12 a13 a14 a15 a16 a17 a18 a19 a20 a21 a22 a23 a24 a25 a26 a27 a28 a29 a30 a31.

Definition set_Processes (x : list Process) (s : Sandbox) : Sandbox :=
  let '(MkSandbox a1 a2 a3 a4 a5 a6 a7 a8 a9 a10 a11 a12 a13 a14 a15 a16 a17 a18 a19 a20 a21 a22 _ a24 a25 a26 a27 a28 a29 a30 a31) := s in
  MkSandbox a1 a2 a3 a4 a5 a6 a7 a8 a9 a10 a11 a12 a13 a14 a15 a16 a17 a18 a19 a20 a21 a22 x a24 a25 a26 a27 a28 a29 a30 a31.

Lemma set_ID_other i s :
  Name (set_ID i s) = Name s ∧ SState (set_ID i s) = SState s ∧ Address (set_ID i s) = Address s
  ∧ SPolicyName (set_ID i s) = SPolicyName s ∧ Secrets (set_ID i s) = Secrets s ∧ ID (set_ID i s) = i.
Proof. by destruct s. Qed.

(** * The lifecycle machine

    One move of the machine, and what it can and cannot reach. *)

Inductive move : State → State → Prop :=
| move_legal s t : CanTransitionTo s t = true → move s t.

Lemma move_inv s t : move s t → t ∈ default [] (legalTransitions s).
Proof. intros [? ? H]. by apply contains_elem_of. Qed.

Lemma move_valid s t : move s t → State_Valid s = true ∧ State_Valid t = true.
Proof. intros H%move_inv. destruct s; simpl in H; set_solver. Qed.

Ltac lifecycle := repeat first [done | apply rtc_refl | eapply rtc_l; [by constructor|]].
