(* ===== verification/Records.v ===== *)
(** * What the sandbox records promise a reader

    The broker keeps a map of the records and asks only for their generation while it stays the same. This is
    the promise of [services/sandboxstate] it relies on, over instants of time: [generation] and [listing] are
    what [Generation] and [List] answer at an instant, and an instant is settled when no write is between its
    change of the disk and its move of the generation. *)

From S2P Require Import Prelude Models.
Local Open Scope Z_scope.

Class RecordsHistory : Type := {
  generation : nat → Z;
  listing : nat → option (list Sandbox);
  settled : nat → Prop;
  generation_mono : ∀ i j, (i ≤ j)%nat → generation i ≤ generation j;
  listing_same : ∀ i j, (i ≤ j)%nat → generation i = generation j → settled j → listing i = listing j
}.
