(* ===== verification/Restart.v ===== *)
(** * Restart policies

    [cmd/shard-init/restart.go], when the supervisor in the guest starts a process again;
    [services/sandbox/restart.go], what a request may ask for and what the daemon copies onto the record;
    and [services/sandbox/oom.go], the backoff of a sandbox that ran out of memory. Durations are
    nanoseconds, as Go keeps them in 64 bits. *)

From S2P Require Import Prelude GoStrings Netip Models.
Local Open Scope Z_scope.

Definition second : Z := 1000000000.
Definition minute : Z := 60 * second.

(** ** In the guest: restart.go *)

Definition defaultBackoff : Z := second.
Definition defaultReset : Z := 10 * second.
Definition backoffCap : Z := RestartBackoffCap * second.

Record restartPolicy : Type := MkRestartPolicy { policy : RestartPolicy; retries : Z; backoff : Z; reset : Z }.

#[export] Instance restartPolicy_eq_dec : EqDecision restartPolicy.
Proof. solve_decision. Defined.

Inductive restart_error : Type :=
| EUnknownPolicy (p : RestartPolicy)
| ENegativeRetries
| EBackoffNotPositive
| EBackoffPastCap
| ERetriesNotForPolicy
| EBackoffWithoutPolicy.

Definition parseRestart (p : RestartPolicy) (retries backoff reset : Z) : result restart_error restartPolicy :=
  let parsed := MkRestartPolicy p retries backoff reset in
  match p with
  | RestartNo => Ok parsed
  | RestartOther _ => Err (EUnknownPolicy p)
  | _ =>
      if retries <? 0 then Err ENegativeRetries
      else if backoff <=? 0 then Err EBackoffNotPositive
      else Ok parsed
  end.

Definition limited (r : restartPolicy) : bool := bool_decide (policy r = RestartOnFailure) && (0 <? retries r).

Definition applies (r : restartPolicy) (exit : ExitStatus) : bool :=
  match policy r with
  | RestartAlways | RestartUnlessStopped => true
  | RestartOnFailure => negb (ECode exit =? 0) || negb (ESignal exit =? 0)
  | _ => false
  end.

(** The loop of [wait]: [for range started]. *)
Fixpoint wait_go (started : nat) (w : Z) : Z :=
  match started with
  | O => w
  | S started => if backoffCap <=? w then w else wait_go started (w * 2)
  end.

Definition wait (r : restartPolicy) (started : Z) : Z := Z.min (wait_go (Z.to_nat started) (backoff r)) backoffCap.

Definition next (r : restartPolicy) (exit : ExitStatus) (started : Z) : Z * ProcessState :=
  if negb (applies r exit) then (0, ProcessExited)
  else if limited r && (retries r <=? started) then (0, ProcessGaveUp)
  else (wait r started, ProcessRestarting).

(** ** What a request may ask: services/sandbox/restart.go *)

Definition DefaultRestartBackoff : Z := 1.

Definition known_policy (p : RestartPolicy) : bool := match p with RestartOther _ => false | _ => true end.

Definition validRestart (r : RestartSpec) : result restart_error unit :=
  if negb (known_policy (SPolicy r)) then Err (EUnknownPolicy (SPolicy r))
  else if SRetries r <? 0 then Err ENegativeRetries
  else if SBackoff r <? 0 then Err EBackoffNotPositive
  else if RestartBackoffCap <? SBackoff r then Err EBackoffPastCap
  else if negb (SRetries r =? 0) && negb (bool_decide (SPolicy r = RestartOnFailure)) then Err ERetriesNotForPolicy
  else if negb (RestartSpec_Set r) && negb (SBackoff r =? 0) then Err EBackoffWithoutPolicy
  else Ok tt.

Definition restartOf (r : option RestartSpec) : result restart_error RestartSpec :=
  match r with
  | None => Ok (MkRestartSpec RestartUnlessStopped 0 DefaultRestartBackoff)
  | Some r =>
      match validRestart r with
      | Err e => Err e
      | Ok _ =>
          Ok (if RestartSpec_Set r && (SBackoff r =? 0)
              then MkRestartSpec (SPolicy r) (SRetries r) DefaultRestartBackoff else r)
      end
  end.

(** ** What the daemon copies from the guest's table *)

Definition Supervised (sb : Sandbox) : bool :=
  bool_decide (SState sb = StateRunning) && (0 <? length (Processes sb))%nat.

Record ProcessReport : Type := MkProcessReport { RName : string; RStatus : ProcessStatus; RSeq : Z }.

(** [latestReports]: the guest's last word on each name, the later of two with one number. *)
Definition latestReports (reports : list ProcessReport) : gmap string ProcessReport :=
  foldl (λ m r, match m !! RName r with
                | Some prev => if RSeq r <? RSeq prev then m else <[RName r := r]> m
                | None => <[RName r := r]> m
                end) ∅ reports.

Definition set_PrStatus (p : Process) (s : ProcessStatus) : Process :=
  MkProcess (PrName p) (PrCommand p) (PrEnv p) (PrWorkDir p) (PrUser p) (PrRestart p) (PrKilled p) s.

Definition merged (procs : list Process) (reports : list ProcessReport) : list Process :=
  let latest := latestReports reports in
  (λ p, match latest !! PrName p with Some r => set_PrStatus p (RStatus r) | None => p end) <$> procs.

Definition set_PState (s : ProcessStatus) (st : ProcessState) : ProcessStatus :=
  MkProcessStatus st (PSRestarts s) (PSExit s) (PSStartedAt s).

Definition endProcesses (procs : list Process) : list Process :=
  (λ p, if Ended (PSState (PrStatus p)) then p else set_PrStatus p (set_PState (PrStatus p) ProcessStopped)) <$> procs.

Definition sameStatus (a b : Process) : bool :=
  let x := PrStatus a in let y := PrStatus b in
  bool_decide (PSState x = PSState y) && (PSRestarts x =? PSRestarts y) && (PSStartedAt x =? PSStartedAt y)
  && bool_decide (PSExit x = PSExit y).

(** ** Out of memory: oom.go *)

Definition OOMHealthyRun : Z := 10 * minute.
Definition OOMRestartBackoff : Z := 10 * second.
Definition OOMRestartBackoffCap : Z := 5 * minute.

Fixpoint oom_go (n : nat) (w : Z) : Z :=
  match n with O => w | S n => oom_go n (Z.min (w * 2) OOMRestartBackoffCap) end.

Definition oomBackoff (inARow : Z) : Z :=
  if inARow <=? 1 then 0 else oom_go (Z.to_nat (inARow - 2)) OOMRestartBackoff.

Definition nextOOM (sb : Sandbox) (now : Z) : OOM :=
  let oom := default (MkOOM 0 0 0 0) (SOOM sb) in
  let inARow := if (RunStartedAt sb =? 0) || (OOMHealthyRun <=? now - RunStartedAt sb) then 0 else InARow oom in
  MkOOM (Kills oom + 1) (inARow + 1) now (now + oomBackoff (inARow + 1)).

(** The update [retryOOMStart] makes: only the start that was due is put off. *)
Definition retryOOM (state : State) (oom : option OOM) (due now : Z) : option OOM :=
  match oom with
  | Some o =>
      if negb (bool_decide (state = StateStopped)) || negb (RestartDue (Some o)) || negb (RestartAt o =? due) then Some o
      else Some (MkOOM (Kills o) (InARow o + 1) (KilledAt o) (now + oomBackoff (InARow o + 1)))
  | None => None
  end.

Definition callOffOOMRestart (oom : option OOM) : option OOM :=
  match oom with Some o => Some (MkOOM (Kills o) (InARow o) (KilledAt o) 0) | None => None end.

(** * Waits *)

Lemma wait_go_spec n w :
  0 < w → Z.min (wait_go n w) backoffCap = Z.min (w * 2 ^ Z.of_nat n) backoffCap ∧ wait_go n w ≤ Z.max w (2 * backoffCap).
Proof.
  revert w. induction n as [|n IH]; intros w Hw; cbn [wait_go]; [rewrite Z.mul_1_r; lia|].
  destruct (backoffCap <=? w) eqn:E; breflect.
  - split; [|lia]. assert (1 ≤ 2 ^ Z.of_nat (S n)) by (apply (Z.pow_le_mono_r 2 0); lia). nia.
  - destruct (IH (w * 2)) as [H1 H2]; [lia|]. rewrite Nat2Z.inj_succ, Z.pow_succ_r, Z.mul_assoc by lia. split; [done|lia].
Qed.

(** The wait before a start again is the backoff doubled once per start, never past a minute, and the
    doubling never leaves the 64 bits a duration has. *)
Theorem wait_spec r started :
  0 < backoff r → backoff r ≤ max_int64 → 0 ≤ started →
  wait r started = Z.min (backoff r * 2 ^ started) backoffCap ∧ 0 < wait r started ≤ backoffCap ∧
  in_int64 (wait_go (Z.to_nat started) (backoff r)).
Proof.
  intros Hb Hm Hs. unfold wait. destruct (wait_go_spec (Z.to_nat started) (backoff r) Hb) as [H1 H2].
  rewrite H1, Z2Nat.id by done. assert (0 < 2 ^ started) by (apply Z.pow_pos_nonneg; lia).
  split_and!; [done|unfold backoffCap, RestartBackoffCap, second; nia|lia|]. split.
  - unfold min_int64. assert (Hpos : ∀ n w, 0 < w → 0 < wait_go n w).
    { clear. intros n. induction n as [|n IH]; intros w Hw; cbn [wait_go]; [done|]. destruct (_ <=? w); [done|apply IH; lia]. }
    specialize (Hpos (Z.to_nat started) (backoff r) Hb). lia.
  - unfold backoffCap, RestartBackoffCap, second, max_int64 in *. lia.
Qed.

Lemma wait_spec_witness : wait (MkRestartPolicy RestartAlways 0 second 0) 5 = 32 * second.
Proof.
  destruct (wait_spec (MkRestartPolicy RestartAlways 0 second 0) 5) as [H _].
  - unfold backoff, second. lia.
  - unfold backoff, second, max_int64. lia.
  - lia.
  - rewrite H. vm_compute. reflexivity.
Defined.

Lemma oom_go_spec n w : 0 < w ≤ OOMRestartBackoffCap → oom_go n w = Z.min (w * 2 ^ Z.of_nat n) OOMRestartBackoffCap.
Proof.
  revert w. induction n as [|n IH]; intros w Hw; cbn [oom_go]; [rewrite Z.mul_1_r; lia|].
  rewrite IH by (unfold OOMRestartBackoffCap, minute, second in *; lia).
  rewrite Nat2Z.inj_succ, Z.pow_succ_r by lia.
  assert (1 ≤ 2 ^ Z.of_nat n) by (apply (Z.pow_le_mono_r 2 0); lia).
  destruct (Z.min_spec (w * 2) OOMRestartBackoffCap) as [[H1 ->]|[H1 ->]]; nia.
Qed.

(** The start again after an out-of-memory kill comes at once the first time, then after ten seconds
    doubled per kill in a row, never more than five minutes; and never less than the wait before it. *)
Theorem oomBackoff_spec n :
  oomBackoff n = (if n <=? 1 then 0 else Z.min (OOMRestartBackoff * 2 ^ (n - 2)) OOMRestartBackoffCap) ∧
  oomBackoff n ≤ oomBackoff (n + 1) ≤ OOMRestartBackoffCap.
Proof.
  assert (Hspec : ∀ k, oomBackoff k = (if k <=? 1 then 0 else Z.min (OOMRestartBackoff * 2 ^ (k - 2)) OOMRestartBackoffCap)).
  { intros k. unfold oomBackoff. destruct (k <=? 1) eqn:E; [done|]. breflect.
    rewrite oom_go_spec by (unfold OOMRestartBackoff, OOMRestartBackoffCap, minute, second; lia). by rewrite Z2Nat.id by lia. }
  split; [done|]. rewrite !Hspec. assert (0 < OOMRestartBackoff) by (unfold OOMRestartBackoff, second; lia).
  assert (0 < OOMRestartBackoffCap) by (unfold OOMRestartBackoffCap, minute, second; lia).
  destruct (n <=? 1) eqn:E1, (n + 1 <=? 1) eqn:E2; breflect; [lia| |lia|].
  - assert (0 < 2 ^ (n + 1 - 2)) by (apply Z.pow_pos_nonneg; lia). nia.
  - assert (2 ^ (n - 2) ≤ 2 ^ (n + 1 - 2)) by (apply Z.pow_le_mono_r; lia). nia.
Qed.

(** What a request's restart policy is filled to is one the supervisor takes: the host never records a
    policy the guest would refuse, retries are kept only for the policy that gives up, and the backoff in
    seconds fits its duration. *)
Theorem restartOf_accepted r spec reset :
  restartOf r = Ok spec →
  parseRestart (SPolicy spec) (SRetries spec) (if SBackoff spec =? 0 then defaultBackoff else SBackoff spec * second) reset
  = Ok (MkRestartPolicy (SPolicy spec) (SRetries spec) (if SBackoff spec =? 0 then defaultBackoff else SBackoff spec * second) reset) ∧
  (SRetries spec ≠ 0 → SPolicy spec = RestartOnFailure) ∧ 0 ≤ SBackoff spec ≤ RestartBackoffCap ∧
  (RestartSpec_Set spec = true → 1 ≤ SBackoff spec).
Proof.
  unfold restartOf. destruct r as [r|].
  - unfold validRestart. destruct (known_policy (SPolicy r)) eqn:Hk; [|done]. simpl.
    destruct (SRetries r <? 0) eqn:H1; [done|]. destruct (SBackoff r <? 0) eqn:H2; [done|].
    destruct (RestartBackoffCap <? SBackoff r) eqn:H3; [done|].
    destruct (negb (SRetries r =? 0) && _) eqn:H4; [done|]. destruct (negb (RestartSpec_Set r) && _) eqn:H5; [done|].
    breflect. intros [= <-].
    assert (Hp : ∀ b, 0 < b → parseRestart (SPolicy r) (SRetries r) b reset = Ok (MkRestartPolicy (SPolicy r) (SRetries r) b reset)).
    { intros b Hb. unfold parseRestart. rewrite (proj2 (Z.ltb_ge _ 0)), (proj2 (Z.leb_gt b 0)) by lia.
      by destruct (SPolicy r). }
    assert (Hpos : ∀ n, 0 ≤ n → 0 < (if n =? 0 then defaultBackoff else n * second)).
    { intros n Hn. unfold defaultBackoff, second. destruct (Z.eqb_spec n 0); lia. }
    assert (Hr : SRetries r ≠ 0 → SPolicy r = RestartOnFailure).
    { intros Hn. apply andb_false_iff in H4 as [H4|H4]; breflect; [lia|done]. }
    destruct (RestartSpec_Set r && (SBackoff r =? 0)) eqn:Hf; cbn [SPolicy SRetries SBackoff].
    + split_and!; [apply Hp; by apply Hpos|done|unfold DefaultRestartBackoff; lia|unfold DefaultRestartBackoff, RestartBackoffCap; lia|unfold DefaultRestartBackoff; lia].
    + split_and!; [apply Hp; by apply Hpos|done|lia|lia|]. intros Hset. rewrite Hset in Hf. simpl in Hf. breflect. lia.
  - intros [= <-]. split_and!; [done|done|done|done|]. done.
Qed.

Lemma restartOf_accepted_witness :
  ∃ b, parseRestart RestartOnFailure 3 b defaultReset = Ok (MkRestartPolicy RestartOnFailure 3 b defaultReset).
Proof.
  eexists. exact (proj1 (restartOf_accepted (Some (MkRestartSpec RestartOnFailure 3 0)) _ defaultReset ltac:(vm_compute; reflexivity))).
Defined.

(** * The guest's last word *)

Lemma latestReports_spec reports name :
  match latestReports reports !! name with
  | Some r => r ∈ reports ∧ RName r = name ∧ ∀ r', r' ∈ reports → RName r' = name → RSeq r' ≤ RSeq r
  | None => ∀ r', r' ∈ reports → RName r' ≠ name
  end.
Proof.
  unfold latestReports. induction reports as [|x reports IH] using rev_ind; [simpl; set_solver|].
  rewrite foldl_app. simpl. set (m := foldl _ ∅ reports) in *.
  assert (Hin : ∀ r', r' ∈ reports ++ [x] ↔ r' ∈ reports ∨ r' = x) by (intros r'; set_solver).
  destruct (decide (RName x = name)) as [Hx|Hx].
  - subst name. destruct (m !! RName x) as [prev|] eqn:Hm.
    + destruct IH as (H1 & H2 & H3). destruct (RSeq x <? RSeq prev) eqn:E; breflect.
      * rewrite Hm. split_and!; [apply Hin; auto|done|]. intros r' Hr' Hn. apply Hin in Hr' as [Hr'| ->]; [auto|lia].
      * rewrite lookup_insert_eq. split_and!; [apply Hin; auto|done|]. intros r' Hr' Hn.
        apply Hin in Hr' as [Hr'| ->]; [|lia]. specialize (H3 r' Hr' Hn). lia.
    + rewrite lookup_insert_eq. split_and!; [apply Hin; auto|done|]. intros r' Hr' Hn.
      apply Hin in Hr' as [Hr'| ->]; [|lia]. by apply IH in Hr'.
  - assert (Hsame : (match m !! RName x with
                     | Some prev => if RSeq x <? RSeq prev then m else <[RName x := x]> m
                     | None => <[RName x := x]> m end) !! name = m !! name).
    { destruct (m !! RName x); [destruct (_ <? _); [done|]|]; by rewrite lookup_insert_ne. }
    rewrite Hsame. destruct (m !! name) as [r|].
    + destruct IH as (H1 & H2 & H3). split_and!; [apply Hin; auto|done|]. intros r' Hr' Hn.
      apply Hin in Hr' as [Hr'| ->]; [auto|done].
    + intros r' Hr'. apply Hin in Hr' as [Hr'| ->]; [auto|done].
Qed.

(** What the daemon copies onto a record is the guest's latest word on each process, by its number,
    however the table orders its reports; a process with no report keeps its status, and nothing else of
    the record's processes moves. *)
Theorem merged_latest procs reports i p :
  procs !! i = Some p →
  ∃ p', merged procs reports !! i = Some p' ∧ PrName p' = PrName p ∧ set_PrStatus p' (PrStatus p) = p ∧
    ((PrStatus p' = PrStatus p ∧ ∀ r, r ∈ reports → RName r ≠ PrName p) ∨
     ∃ r, r ∈ reports ∧ RName r = PrName p ∧ PrStatus p' = RStatus r ∧
          ∀ r', r' ∈ reports → RName r' = PrName p → RSeq r' ≤ RSeq r).
Proof.
  intros Hi. unfold merged. rewrite list_lookup_fmap, Hi. simpl. eexists. split; [done|].
  pose proof (latestReports_spec reports (PrName p)) as H.
  destruct (latestReports reports !! PrName p) as [r|].
  - destruct H as (H1 & H2 & H3). split_and!; [done|by destruct p|]. right. exists r. done.
  - split_and!; [done|by destruct p|]. left. done.
Qed.

Lemma merged_latest_witness :
  let p := MkProcess "web" [] [] "" "" (MkRestartSpec RestartNo 0 0) false (MkProcessStatus ProcessRunning 0 None 1) in
  let old := MkProcessReport "web" (MkProcessStatus ProcessRestarting 1 None 1) 3 in
  let new := MkProcessReport "web" (MkProcessStatus ProcessExited 1 None 1) 4 in
  ∃ p', merged [p] [new; old] !! 0%nat = Some p' ∧ PrName p' = "web".
Proof.
  intros p old new. destruct (merged_latest [p] [new; old] 0 p eq_refl) as (p' & H1 & H2 & _). exists p'. exact (conj H1 H2).
Defined.
