(* ===== verification/Supervisor.v ===== *)
(** * The supervisor in the guest

    [cmd/shard-init/process.go] and the loop of [cmd/shard-init/main.go]: the named processes of one
    sandbox, their timers and their ends. One goroutine owns the state, so each operation is one step. What
    the kernel answers (a pid, a refused start, an exit) is an argument of the step. A timer is a message in
    flight from the moment it is armed; [Stop] on a timer may come too late, so a cancelled one stays in
    flight here and is told apart by its generation alone, as in the code. *)

From S2P Require Import Prelude GoStrings Netip Models Restart.
Local Open Scope Z_scope.

Definition MaxProcesses : nat := 16.

Record timerDue : Type := MkDue { dname : string; dgen : Z; dkill : bool }.

#[export] Instance timerDue_eq_dec : EqDecision timerDue.
Proof. solve_decision. Defined.

Record proc : Type := MkProc {
  pname : string;
  prestart : restartPolicy;
  ppid : Z;
  prunStartedAt : Z;
  pcount : Z;
  pstatus : ProcessStatus;
  pseq : Z;
  pgen : Z;
  pstopping : bool;
  preaped : nat
}.

Record guest : Type := MkGuest {
  gprocs : list proc;
  gseq : Z;
  ggens : Z;
  gstopping : bool;
  goom : bool;
  gfrozen : bool;
  gwaiters : gset Z;
  gdue : list timerDue
}.

Definition newGuest : guest := MkGuest [] 0 0 false false false ∅ [].

Inductive run_error : Type :=
| EStopping
| EOutOfMemory
| ErrTaken
| ETooMany
| EOutput
| EStart.

Definition pstate (p : proc) : ProcessState := PSState (pstatus p).

Definition named (g : guest) (name : string) : option proc := first_match (λ p, String.eqb (pname p) name) (gprocs g).
Definition byPID (g : guest) (pid : Z) : option proc := first_match (λ p, ppid p =? pid) (gprocs g).
Definition oldestEnded (g : guest) : option proc := first_match (λ p, Ended (pstate p)) (gprocs g).
Definition running (g : guest) : bool := existsb (λ p, negb (ppid p =? 0)) (gprocs g).

(** The entry of a name is replaced in place; [drop] takes it out. *)
Definition put (p : proc) (procs : list proc) : list proc :=
  (λ q, if String.eqb (pname q) (pname p) then p else q) <$> procs.
Arguments put : simpl never.
Definition drop (p : proc) (procs : list proc) : list proc := filter (λ q, pname q ≠ pname p) procs.

Definition set_pid (p : proc) (pid : Z) : proc :=
  MkProc (pname p) (prestart p) pid (prunStartedAt p) (pcount p) (pstatus p) (pseq p) (pgen p) (pstopping p) (preaped p).
Definition set_gen (p : proc) (gen : Z) : proc :=
  MkProc (pname p) (prestart p) (ppid p) (prunStartedAt p) (pcount p) (pstatus p) (pseq p) gen (pstopping p) (preaped p).
Definition set_status (p : proc) (s : ProcessStatus) : proc :=
  MkProc (pname p) (prestart p) (ppid p) (prunStartedAt p) (pcount p) s (pseq p) (pgen p) (pstopping p) (preaped p).
Definition set_state (p : proc) (s : ProcessState) : proc := set_status p (set_PState (pstatus p) s).
Definition set_seq (p : proc) (seq : Z) : proc :=
  MkProc (pname p) (prestart p) (ppid p) (prunStartedAt p) (pcount p) (pstatus p) seq (pgen p) (pstopping p) (preaped p).
Definition set_count (p : proc) (count : Z) : proc :=
  MkProc (pname p) (prestart p) (ppid p) (prunStartedAt p) count (pstatus p) (pseq p) (pgen p) (pstopping p) (preaped p).
Definition set_stopping (p : proc) (b : bool) (reaped : nat) : proc :=
  MkProc (pname p) (prestart p) (ppid p) (prunStartedAt p) (pcount p) (pstatus p) (pseq p) (pgen p) b reaped.

(** [release] closes the channels of the stops that wait; [changed] numbers the new status. *)
Definition release (p : proc) : proc := set_stopping p (pstopping p) 0.

Definition with_procs (g : guest) (procs : list proc) : guest :=
  MkGuest procs (gseq g) (ggens g) (gstopping g) (goom g) (gfrozen g) (gwaiters g) (gdue g).

Definition changed (g : guest) (p : proc) : guest :=
  MkGuest (put (set_seq p (gseq g + 1)) (gprocs g)) (gseq g + 1) (ggens g) (gstopping g) (goom g) (gfrozen g) (gwaiters g) (gdue g).

Definition nextGen (g : guest) : guest :=
  MkGuest (gprocs g) (gseq g) (ggens g + 1) (gstopping g) (goom g) (gfrozen g) (gwaiters g) (gdue g).

(** [stopTimer]: the process takes a fresh generation, so what is in flight for it is stale. *)
Definition stopTimer (g : guest) (p : proc) : guest * proc := (nextGen g, set_gen p (ggens g + 1)).

Definition arm (g : guest) (p : proc) (kill : bool) : guest :=
  MkGuest (gprocs g) (gseq g) (ggens g) (gstopping g) (goom g) (gfrozen g) (gwaiters g) (MkDue (pname p) (pgen p) kill :: gdue g).

(** What the start of a command answers: no output file, a refusal, or the pid. *)
Inductive start_result : Type := OutputFails | StartFails | Started (pid : Z).

Definition runProcess (g : guest) (name : string) (restart : restartPolicy) (now : Z) (started : start_result)
  : guest * result run_error unit :=
  if gstopping g then (g, Err EStopping)
  else if goom g then (g, Err EOutOfMemory)
  else
    let old := named g name in
    if match old with Some p => negb (Ended (pstate p)) | None => false end then (g, Err ErrTaken)
    else
      let full := (MaxProcesses <=? length (gprocs g))%nat in
      if bool_decide (old = None) && full && bool_decide (oldestEnded g = None) then (g, Err ETooMany)
      else match started with
           | OutputFails => (g, Err EOutput)
           | StartFails => (g, Err EStart)
           | Started pid =>
               let old := if bool_decide (old = None) && full then oldestEnded g else old in
               let procs := match old with Some o => drop o (gprocs g) | None => gprocs g end in
               let p := MkProc name restart pid now 0 (MkProcessStatus ProcessRunning 0 None now) (gseq g + 1) (ggens g + 1) false 0 in
               (MkGuest (procs ++ [p]) (gseq g + 1) (ggens g + 1) (gstopping g) (goom g) (gfrozen g) (gwaiters g) (gdue g), Ok tt)
           end.

Definition set_exit (s : ProcessStatus) (exit : ExitStatus) : ProcessStatus :=
  MkProcessStatus (PSState s) (PSRestarts s) (Some exit) (PSStartedAt s).

(** [exited], for a process whose pid the reap has cleared. *)
Definition exited (g : guest) (p : proc) (exit : ExitStatus) (now : Z) : guest :=
  let '(g, p) := stopTimer g p in
  let p := release (set_status p (set_exit (pstatus p) exit)) in
  if gstopping g then changed g (set_state p ProcessStopped)
  else if pstopping p then changed g (set_state (set_stopping p false 0) ProcessKilled)
  else
    let p := if reset (prestart p) <=? now - prunStartedAt p then set_count p 0 else p in
    let '(_, state) := next (prestart p) exit (pcount p) in
    let p := set_state p state in
    changed (if bool_decide (state = ProcessRestarting) then arm g p false else g) p.

(** One dead child: its pid, its exit, and what the OOM probe answers if it is asked. *)
Record death : Type := MkDeath { dpid : Z; dexit : ExitStatus; dhit : bool }.

Definition SIGKILL : Z := 9.

Definition set_waiters (g : guest) (w : gset Z) : guest :=
  MkGuest (gprocs g) (gseq g) (ggens g) (gstopping g) (goom g) (gfrozen g) w (gdue g).

Definition collect_one (now : Z) (st : guest * bool * bool) (d : death) : guest * bool * bool :=
  let '(g, oom, reaped) := st in
  let oom := oom || ((ESignal (dexit d) =? SIGKILL) && dhit d) in
  if bool_decide (dpid d ∈ gwaiters g) then (set_waiters g (gwaiters g ∖ {[dpid d]}), oom, reaped)
  else match byPID g (dpid d) with
       | None => (g, oom, reaped)
       | Some p =>
           let p := set_pid p 0 in
           let g := with_procs g (put p (gprocs g)) in
           if oom then (with_procs g (put (release p) (gprocs g)), oom, true)
           else (exited g p (dexit d) now, oom, true)
       end.

(** Every process takes a generation of its own, in order. *)
Fixpoint stop_timers (gens : Z) (procs : list proc) : Z * list proc :=
  match procs with
  | [] => (gens, [])
  | p :: procs => let '(gens', rest) := stop_timers (gens + 1) procs in (gens', set_gen p (gens + 1) :: rest)
  end.

Definition stopTimers (g : guest) : guest :=
  let '(gens, procs) := stop_timers (ggens g) (gprocs g) in
  MkGuest procs (gseq g) gens (gstopping g) (goom g) (gfrozen g) (gwaiters g) (gdue g).

Definition set_oom (g : guest) : guest :=
  MkGuest (gprocs g) (gseq g) (ggens g) (gstopping g) true (gfrozen g) (gwaiters g) (gdue g).

(** [collect]; the second part says the supervisor is done. *)
Definition collect (g : guest) (now : Z) (deaths : list death) : guest * bool :=
  let '(g, oom, reaped) := foldl (collect_one now) (g, false, false) deaths in
  if negb oom then (g, reaped && gstopping g && negb (running g))
  else (set_oom (stopTimers g), false).

(** What a start again answers: the work directory or the command refused, or the pid. *)
Inductive again_result : Type := AgainFails | AgainStarted (pid : Z).

Definition take_due (g : guest) (due : timerDue) : guest :=
  MkGuest (gprocs g) (gseq g) (ggens g) (gstopping g) (goom g) (gfrozen g) (gwaiters g) (filter (λ d, d ≠ due) (gdue g)).

Definition wake (g : guest) (due : timerDue) (now : Z) (again : again_result) : guest :=
  match named g (dname due) with
  | None => g
  | Some p =>
      if negb (pgen p =? dgen due) || gstopping g || goom g then g
      else if dkill due then g
      else if gfrozen g then arm g p false
      else
        let p := MkProc (pname p) (prestart p) (ppid p) now (pcount p) (pstatus p) (pseq p) (pgen p) (pstopping p) (preaped p) in
        match again with
        | AgainFails => changed g (set_state p ProcessGaveUp)
        | AgainStarted pid =>
            let s := pstatus p in
            changed g (set_status (set_count (set_pid p pid) (pcount p + 1))
                         (MkProcessStatus ProcessRunning (PSRestarts s + 1) (PSExit s) now))
        end
  end.

(** [stopProcess]; the second part says the answer's channel is closed at once. *)
Definition stopProcess (g : guest) (name : string) (grace : Z) : guest * bool :=
  match named g name with
  | None => (g, true)
  | Some p =>
      if Ended (pstate p) then (g, true)
      else
        let '(g, p) := stopTimer g p in
        if ppid p =? 0 then (changed g (set_state p ProcessKilled), true)
        else
          let p := set_stopping p true (S (preaped p)) in
          let g := with_procs g (put p (gprocs g)) in
          (if 0 <? grace then arm g p true else g, false)
  end.

(** [stop], for a signal the supervisor can forward; the second part says nothing is left to wait for. *)
Definition stop (g : guest) : guest * bool :=
  let g := MkGuest (gprocs g) (gseq g) (ggens g) true (goom g) (gfrozen g) (gwaiters g) (gdue g) in
  let g := stopTimers g in (g, negb (running g)).

Definition set_frozen (g : guest) (b : bool) : guest :=
  MkGuest (gprocs g) (gseq g) (ggens g) (gstopping g) (goom g) b (gwaiters g) (gdue g).

(** A pid the kernel hands out is no live child's. *)
Definition fresh_pid (g : guest) (pid : Z) : Prop := 0 < pid ∧ pid ∉ gwaiters g ∧ ∀ p, p ∈ gprocs g → ppid p ≠ pid.

Inductive step : guest → guest → Prop :=
| step_run g name restart now started :
    match started with Started pid => fresh_pid g pid | _ => True end →
    step g (runProcess g name restart now started).1
| step_collect g now deaths : Forall (λ d, 0 < dpid d) deaths → step g (collect g now deaths).1
| step_wake g due now again :
    due ∈ gdue g → match again with AgainStarted pid => fresh_pid g pid | _ => True end →
    step g (wake (take_due g due) due now again)
| step_stop_process g name grace : step g (stopProcess g name grace).1
| step_stop g : step g (stop g).1
| step_freeze g b : step g (set_frozen g b)
| step_spawn g pid : fresh_pid g pid → step g (set_waiters g ({[pid]} ∪ gwaiters g)).

Definition reachable (g : guest) : Prop := rtc step newGuest g.

(** * The invariant *)

(** One process: it is running exactly while it has a pid, its retries are not overspent, and only a process
    that waits to start again has a live timer of that kind, which it never lacks. [dead] is set once the
    memory bound took every process: then a status may still say running. *)
Definition proc_ok (dead : bool) (g : guest) (p : proc) : Prop :=
  0 ≤ ppid p ∧ (ppid p ≠ 0 → pstate p = ProcessRunning) ∧
  (dead = false → pstate p = ProcessRunning → ppid p ≠ 0) ∧
  pgen p ≤ ggens g ∧ 0 ≤ pcount p ∧
  (limited (prestart p) = true →
     pcount p ≤ retries (prestart p) ∧ (pstate p = ProcessRestarting → pcount p < retries (prestart p))) ∧
  (∀ d, d ∈ gdue g → dname d = pname p → dgen d = pgen p → dkill d = false → pstate p = ProcessRestarting) ∧
  (dead = false → gstopping g = false → pstate p = ProcessRestarting → MkDue (pname p) (pgen p) false ∈ gdue g).

Record inv (dead : bool) (g : guest) : Prop := {
  inv_names : NoDup (pname <$> gprocs g);
  inv_bound : (length (gprocs g) ≤ MaxProcesses)%nat;
  inv_pids : ∀ p q, p ∈ gprocs g → q ∈ gprocs g → ppid p ≠ 0 → ppid p = ppid q → p = q;
  inv_waiters : ∀ p, p ∈ gprocs g → ppid p ≠ 0 → ppid p ∉ gwaiters g;
  inv_procs : ∀ p, p ∈ gprocs g → proc_ok dead g p;
  inv_dues : NoDup (dgen <$> gdue g);
  inv_gens : ∀ d, d ∈ gdue g → dgen d ≤ ggens g
}.

Lemma named_Some g name p : named g name = Some p → p ∈ gprocs g ∧ pname p = name.
Proof.
  intros H. apply first_match_Some in H as (a & b & E & H & _). apply String.eqb_eq in H. rewrite E. set_solver.
Qed.

Lemma named_None g name p : named g name = None → p ∈ gprocs g → pname p ≠ name.
Proof.
  intros H Hin. apply first_match_None in H. pose proof (proj1 (Forall_forall _ _) H p Hin) as E. simpl in E.
  by apply String.eqb_neq.
Qed.

Lemma names_unique procs p q :
  NoDup (pname <$> procs) → p ∈ procs → q ∈ procs → pname p = pname q → p = q.
Proof.
  intros Hnd Hp Hq E. apply list_elem_of_lookup in Hp as [i Hi]. apply list_elem_of_lookup in Hq as [j Hj].
  assert (i = j) as ->; [|congruence]. eapply NoDup_lookup; [exact Hnd|..]; rewrite list_lookup_fmap.
  - by rewrite Hi.
  - by rewrite Hj, E.
Qed.

Lemma put_elem p procs q :
  q ∈ put p procs ↔ (q = p ∧ pname p ∈ pname <$> procs) ∨ (q ∈ procs ∧ pname q ≠ pname p).
Proof.
  unfold put. rewrite !list_elem_of_fmap. split.
  - intros (r & -> & Hr). destruct (String.eqb_spec (pname r) (pname p)) as [E|E]; [|by right].
    left. split; [done|]. exists r. auto.
  - intros [[-> (r & E & Hr)]|[Hq Hne]].
    + exists r. split; [|done]. by rewrite E, String.eqb_refl.
    + exists q. split; [|done]. by rewrite (proj2 (String.eqb_neq _ _)).
Qed.

Lemma put_names p procs : pname <$> put p procs = pname <$> procs.
Proof.
  unfold put. rewrite <- list_fmap_compose. apply list_fmap_ext. intros i q _. simpl.
  by destruct (String.eqb_spec (pname q) (pname p)) as [->|].
Qed.

(** A change to one process of the table: what is asked of the new entry and of the timers. *)
Lemma inv_put dead dead' g g' p0 p :
  inv dead g → p0 ∈ gprocs g → pname p = pname p0 → gprocs g' = put p (gprocs g) →
  (dead = true → dead' = true) → (gstopping g = true → gstopping g' = true) → gwaiters g' ⊆ gwaiters g → ggens g ≤ ggens g' →
  (∀ d, dname d ≠ pname p → d ∈ gdue g' ↔ d ∈ gdue g) → NoDup (dgen <$> gdue g') →
  (∀ d, d ∈ gdue g' → dgen d ≤ ggens g') →
  proc_ok dead' g' p → (ppid p = 0 ∨ ppid p = ppid p0 ∨ fresh_pid g (ppid p)) → inv dead' g'.
Proof.
  intros Hi Hp0 Hname Hprocs Hdead Hstop Hw Hgens Hdue Hnd Hle Hok Hpid.
  assert (Hmem : ∀ q, q ∈ gprocs g' → q = p ∨ (q ∈ gprocs g ∧ pname q ≠ pname p)).
  { intros q. rewrite Hprocs, put_elem. tauto. }
  assert (Hother : ∀ q, q ∈ gprocs g → pname q ≠ pname p → ppid q ≠ 0 → ppid p ≠ ppid q).
  { intros q Hq Hne Hz E. destruct Hpid as [?|[E'|(_ & _ & Hf)]]; [congruence| |by apply (Hf q Hq)].
    apply Hne. rewrite Hname. f_equal. apply (inv_pids dead g Hi); [done|done|done|congruence]. }
  split.
  - rewrite Hprocs, put_names. apply Hi.
  - rewrite Hprocs. unfold put. rewrite length_fmap. apply Hi.
  - intros q r Hq Hr Hz E. apply Hmem in Hq as [->|[Hq Hqn]], Hr as [->|[Hr Hrn]]; [done|..].
    + exfalso. apply (Hother r Hr Hrn); congruence.
    + exfalso. apply (Hother q Hq Hqn); congruence.
    + by apply (inv_pids dead g Hi).
  - intros q Hq Hz Hin. apply Hw in Hin. apply Hmem in Hq as [->|[Hq _]].
    + destruct Hpid as [?|[E|(_ & Hf & _)]]; [done| |done]. apply (inv_waiters dead g Hi p0 Hp0); congruence.
    + by apply (inv_waiters dead g Hi q Hq).
  - intros q Hq. apply Hmem in Hq as [->|[Hq Hqn]]; [done|].
    destruct (inv_procs dead g Hi q Hq) as (H1 & H2 & H3 & H4 & H5 & H6 & H7 & H8).
    split_and!; [done|done| |lia|done|done| |].
    + intros E. apply H3. destruct dead; [by rewrite Hdead in E|done].
    + intros d Hd Hdn. apply (H7 d); [|done]. apply Hdue; [congruence|done].
    + intros E Es. intros Hst. apply Hdue; [done|]. apply H8; [by destruct dead; [rewrite Hdead in E|]| |done].
      destruct (gstopping g); [by rewrite Hstop in Es|done].
  - done.
  - done.
Qed.

Lemma put_put p q procs : pname p = pname q → put p (put q procs) = put p procs.
Proof.
  intros E. unfold put. rewrite <- list_fmap_compose. apply list_fmap_ext. intros i r _. simpl.
  destruct (String.eqb_spec (pname r) (pname q)) as [E1|E1].
  - by rewrite E1, E, !String.eqb_refl.
  - done.
Qed.

Lemma stale_due g d p gen :
  (∀ d, d ∈ gdue g → dgen d ≤ ggens g) → d ∈ gdue g → dgen d = gen → gen = ggens g + 1 → pgen p = gen → False.
Proof. intros H Hd E1 E2 _. specialize (H d Hd). lia. Qed.

(** A fresh generation: nothing in flight is live for it. *)
Lemma fresh_gen g d : (∀ d, d ∈ gdue g → dgen d ≤ ggens g) → d ∈ gdue g → dgen d ≠ ggens g + 1.
Proof. intros H Hd. specialize (H d Hd). lia. Qed.

Lemma fresh_gen_NoDup g name kill :
  NoDup (dgen <$> gdue g) → (∀ d, d ∈ gdue g → dgen d ≤ ggens g) →
  NoDup (dgen <$> (MkDue name (ggens g + 1) kill :: gdue g)).
Proof.
  intros Hnd H. rewrite fmap_cons. constructor; [|done]. intros Hin. apply list_elem_of_fmap in Hin as (d & E & Hd).
  by apply (fresh_gen g d H Hd).
Qed.

(** A process that ended, or was stopped for good: no timer of its generation is in flight. *)
Lemma ended_ok dead g p :
  (∀ d, d ∈ gdue g → dgen d ≠ pgen p) → pgen p ≤ ggens g → 0 ≤ ppid p → 0 ≤ pcount p →
  (ppid p ≠ 0 → pstate p = ProcessRunning) → (dead = false → pstate p = ProcessRunning → ppid p ≠ 0) →
  pstate p ≠ ProcessRestarting →
  (limited (prestart p) = true → pcount p ≤ retries (prestart p)) → proc_ok dead g p.
Proof.
  intros Hd Hg Hpid Hc Hrun Hrun' Hst Hlim. split_and!; try done.
  - intros Hl. split; [by apply Hlim|done].
  - intros d Hin _ E. by destruct (Hd d Hin).
Qed.

(** The count an exit decides by: cleared by a healthy run. *)
Lemma exit_count p0 now :
  ∃ c, (λ p : proc, if reset (prestart p) <=? now - prunStartedAt p then set_count p 0 else p) p0 = set_count p0 c ∧
       (c = 0 ∨ c = pcount p0).
Proof. cbn. destruct (_ <=? _); [exists 0; auto|]. exists (pcount p0). split; [by destruct p0|auto]. Qed.

(** A process that came to an end, under a fresh generation. *)
Lemma end_inv dead g g1 p0 p :
  inv dead g → p0 ∈ gprocs g → gprocs g1 = gprocs g ∨ gprocs g1 = put (set_pid p0 0) (gprocs g) →
  gseq g1 = gseq g → ggens g1 = ggens g + 1 → gstopping g1 = gstopping g → gwaiters g1 = gwaiters g → gdue g1 = gdue g →
  pname p = pname p0 → ppid p = 0 → pgen p = ggens g + 1 → prestart p = prestart p0 → (pcount p = 0 ∨ pcount p = pcount p0) →
  pstate p ≠ ProcessRunning → pstate p ≠ ProcessRestarting → inv dead (changed g1 p).
Proof.
  intros Hi Hp0 Hprocs Hseq Hgens Hstop Hw Hdue Hname Hpid Hgen Hrs Hcnt Hrun Hrest.
  destruct (inv_procs _ _ Hi p0 Hp0) as (H1 & H2 & H3 & H4 & H5 & H6 & _ & _).
  pose proof (inv_gens _ _ Hi) as Hg.
  apply (inv_put dead dead g _ p0 (set_seq p (gseq g1 + 1))); cbn; rewrite ?Hdue, ?Hgens, ?Hstop, ?Hw; try done.
  - destruct Hprocs as [->| ->]; [done|]. by rewrite put_put.
  - lia.
  - apply Hi.
  - intros d Hd. specialize (Hg d Hd). lia.
  - apply ended_ok; cbn; rewrite ?Hdue, ?Hgens, ?Hgen, ?Hpid; try done; try lia.
    + intros d Hd. by apply fresh_gen.
    + rewrite Hrs. intros Hl. specialize (H6 Hl). lia.
  - by left.
Qed.

Lemma exited_inv dead g p0 exit now :
  inv dead g → p0 ∈ gprocs g →
  inv dead (exited (with_procs g (put (set_pid p0 0) (gprocs g))) (set_pid p0 0) exit now).
Proof.
  intros Hi Hp0. destruct (inv_procs _ _ Hi p0 Hp0) as (H1 & H2 & H3 & H4 & H5 & H6 & _ & _).
  pose proof (inv_gens _ _ Hi) as Hg. pose proof (inv_dues _ _ Hi) as Hnd.
  unfold exited, stopTimer. set (g1 := nextGen _). set (p1 := release _).
  assert (Hp1 : pname p1 = pname p0 ∧ ppid p1 = 0 ∧ pgen p1 = ggens g + 1 ∧ prestart p1 = prestart p0 ∧ pcount p1 = pcount p0) by done.
  destruct Hp1 as (Hname & Hpid & Hgen & Hrs & Hcnt). clearbody p1.
  assert (Hend : ∀ p, pname p = pname p0 → ppid p = 0 → pgen p = ggens g + 1 → prestart p = prestart p0 →
    (pcount p = 0 ∨ pcount p = pcount p0) → pstate p ≠ ProcessRunning → pstate p ≠ ProcessRestarting → inv dead (changed g1 p)).
  { intros p. apply (end_inv dead g g1 p0 p); cbn; auto. }
  change (gstopping g1) with (gstopping g). destruct (gstopping g) eqn:Hst; [apply Hend; cbn; auto|].
  destruct (pstopping p1); [apply Hend; cbn; auto|].
  destruct (exit_count p1 now) as (c & Hq & Hc). cbv beta in Hq. rewrite Hq, Hcnt in *. rewrite Hrs in *.
  unfold next. change (prestart (set_count p1 c)) with (prestart p1). change (pcount (set_count p1 c)) with c. rewrite Hrs.
  destruct (applies (prestart p0) exit); cbn [negb]; [|apply Hend; cbn; auto].
  destruct (limited (prestart p0) && (retries (prestart p0) <=? c)) eqn:El; [apply Hend; cbn; auto|].
  rewrite bool_decide_eq_true_2 by done. set (p2 := set_state _ _).
  assert (Hp2 : pname p2 = pname p0 ∧ ppid p2 = 0 ∧ pgen p2 = ggens g + 1 ∧ prestart p2 = prestart p0 ∧ pcount p2 = c ∧ pstate p2 = ProcessRestarting) by done.
  destruct Hp2 as (Hn2 & Hpid2 & Hg2 & Hrs2 & Hc2 & Hs2). clearbody p2.
  apply (inv_put dead dead g _ p0 (set_seq p2 (gseq g + 1))); cbn; rewrite ?Hn2, ?Hg2; try done.
  - by rewrite put_put.
  - lia.
  - intros d Hd. rewrite elem_of_cons. split; [intros [->|?]; done|auto].
  - exact (fresh_gen_NoDup g (pname p0) false Hnd Hg).
  - intros d [->|Hd]%elem_of_cons; cbn; [lia|]. specialize (Hg d Hd). lia.
  - unfold proc_ok. change (pstate (set_seq p2 (gseq g + 1))) with (pstate p2). cbn. rewrite Hpid2, Hg2, Hc2, Hs2, Hrs2, Hn2.
    split_and!; try done; try lia.
    + intros Hl. rewrite Hl in El. cbn in El. breflect. specialize (H6 Hl). split; [lia|]. intros _. lia.
    + intros _ _ _. by left.
  - by left.
Qed.

Lemma proc_ok_same dead dead' g g' p :
  (dead = true → dead' = true) → ggens g ≤ ggens g' → (gstopping g = true → gstopping g' = true) →
  (∀ d, dname d = pname p → d ∈ gdue g' → d ∈ gdue g) →
  (dead' = false → gstopping g' = false → MkDue (pname p) (pgen p) false ∈ gdue g → MkDue (pname p) (pgen p) false ∈ gdue g') →
  proc_ok dead g p → proc_ok dead' g' p.
Proof.
  intros Hd Hg Hs Hdue Hlive (H1 & H2 & H3 & H4 & H5 & H6 & H7 & H8).
  assert (Hdf : dead' = false → dead = false) by (intros E; destruct dead; [by rewrite Hd in E|done]).
  assert (Hsf : gstopping g' = false → gstopping g = false) by (intros E; destruct (gstopping g); [by rewrite Hs in E|done]).
  split_and!; auto; [lia|].
  intros d Hin Hn. by apply H7; [apply Hdue|].
Qed.

(** A change to everything but the table. *)
Lemma inv_same dead dead' g g' :
  inv dead g → gprocs g' = gprocs g → (dead = true → dead' = true) → ggens g' = ggens g →
  (gstopping g = true → gstopping g' = true) →
  (∀ p, p ∈ gprocs g → ppid p ≠ 0 → ppid p ∉ gwaiters g → ppid p ∉ gwaiters g') →
  (∀ d, d ∈ gdue g' → d ∈ gdue g) → NoDup (dgen <$> gdue g') →
  (∀ p, p ∈ gprocs g → dead' = false → gstopping g' = false → 
     MkDue (pname p) (pgen p) false ∈ gdue g → MkDue (pname p) (pgen p) false ∈ gdue g') → inv dead' g'.
Proof.
  intros Hi Hp Hd Hg Hs Hw Hdue Hnd Hlive. split; rewrite ?Hp.
  - apply Hi.
  - apply Hi.
  - apply Hi.
  - intros p Hin Hz. apply Hw; [done|done|]. by apply (inv_waiters _ _ Hi).
  - intros p Hin. apply (proc_ok_same dead dead' g g'); [done|lia|done|auto|auto|by apply Hi].
  - done.
  - intros d Hin. rewrite Hg. by apply (inv_gens _ _ Hi), Hdue.
Qed.

Lemma due_unique (l : list timerDue) d d' : NoDup (dgen <$> l) → d ∈ l → d' ∈ l → dgen d = dgen d' → d = d'.
Proof.
  intros Hnd Hd Hd' E. apply list_elem_of_lookup in Hd as [i Hi]. apply list_elem_of_lookup in Hd' as [j Hj].
  assert (i = j) as ->; [|congruence]. eapply NoDup_lookup; [exact Hnd|..]; rewrite list_lookup_fmap.
  - by rewrite Hi.
  - by rewrite Hj, E.
Qed.

Lemma filter_NoDup_gens (l : list timerDue) (P : timerDue → Prop) `{∀ d, Decision (P d)} :
  NoDup (dgen <$> l) → NoDup (dgen <$> filter P l).
Proof.
  induction l as [|d l IH]; [done|]. rewrite fmap_cons. intros Hnd. apply NoDup_cons in Hnd as [Hni Hnd].
  rewrite filter_cons. destruct (decide (P d)); [|by apply IH]. rewrite fmap_cons. constructor; [|by apply IH].
  intros Hin. apply Hni. apply list_elem_of_fmap in Hin as (e & -> & He). apply list_elem_of_filter in He as [_ He].
  by apply list_elem_of_fmap_2.
Qed.

Lemma byPID_Some g pid p : byPID g pid = Some p → p ∈ gprocs g ∧ ppid p = pid.
Proof. intros H. apply first_match_Some in H as (a & b & E & H & _). apply Z.eqb_eq in H. rewrite E. set_solver. Qed.

Lemma exited_spec g p exit now : goom (exited g p exit now) = goom g ∧ gstopping (exited g p exit now) = gstopping g.
Proof.
  unfold exited, stopTimer. change (gstopping (nextGen g)) with (gstopping g). destruct (gstopping g) eqn:E; [done|].
  destruct (pstopping _); [done|]. destruct (next _ _ _) as [w st]. by destruct (bool_decide (st = ProcessRestarting)).
Qed.

Lemma collect_one_inv now g oom reaped d g' oom' reaped' :
  inv (goom g || oom) g → collect_one now (g, oom, reaped) d = (g', oom', reaped') →
  inv (goom g' || oom') g' ∧ goom g' = goom g ∧ gstopping g' = gstopping g.
Proof.
  intros Hi. unfold collect_one. set (oom2 := oom || _).
  assert (Hmono : goom g || oom = true → goom g || oom2 = true) by (unfold oom2; destruct (goom g), oom; done).
  destruct (bool_decide _).
  { intros [= <- <- <-]. split; [|done]. eapply (inv_same _ _ g); cbn; try done; [|apply Hi]. intros p _ _. set_solver. }
  destruct (byPID g (dpid d)) as [p0|] eqn:Hb.
  2: { intros [= <- <- <-]. split; [|done]. eapply (inv_same _ _ g); try done. apply Hi. }
  apply byPID_Some in Hb as [Hp0 _].
  destruct oom2; intros [= <- <- <-].
  - split; [|done]. cbn [goom with_procs gprocs]. rewrite orb_true_r in *.
    destruct (inv_procs _ _ Hi p0 Hp0) as (H1 & H2 & H3 & H4 & H5 & H6 & H7 & H8).
    apply (inv_put (goom g || oom) true g _ p0 (release (set_pid p0 0))); cbn; try done; [by rewrite put_put|apply Hi|by apply (inv_gens _ _ Hi)|by left].
  - destruct (exited_spec (with_procs g (put (set_pid p0 0) (gprocs g))) (set_pid p0 0) (dexit d) now) as [E1 E2].
    rewrite E1, E2. split; [|done]. change (goom (with_procs g _)) with (goom g).
    apply exited_inv; [|done]. eapply (inv_same _ _ g); try done. apply Hi.
Qed.

Lemma collect_go_inv now deaths g oom reaped g' oom' reaped' :
  inv (goom g || oom) g → foldl (collect_one now) (g, oom, reaped) deaths = (g', oom', reaped') →
  inv (goom g' || oom') g' ∧ goom g' = goom g.
Proof.
  revert g oom reaped. induction deaths as [|d deaths IH]; intros g oom reaped Hi H; cbn [foldl] in H.
  - injection H as <- <- <-. done.
  - destruct (collect_one now (g, oom, reaped) d) as [[g1 o1] r1] eqn:E.
    destruct (collect_one_inv _ _ _ _ _ _ _ _ Hi E) as (H1 & H2 & _).
    destruct (IH _ _ _ H1 H) as [H3 H4]. split; [done|congruence].
Qed.

(** ** Cancelling every timer *)

Lemma stop_timers_spec gens procs gens' procs' :
  stop_timers gens procs = (gens', procs') →
  gens ≤ gens' ∧ Forall2 (λ p p', ∃ k, p' = set_gen p k ∧ gens < k ≤ gens') procs procs'.
Proof.
  revert gens gens' procs'. induction procs as [|p procs IH]; intros gens gens' procs' H; cbn [stop_timers] in H.
  - injection H as <- <-. split; [lia|constructor].
  - destruct (stop_timers (gens + 1) procs) as [g2 rest] eqn:E. injection H as <- <-.
    apply IH in E as [Hle HF]. split; [lia|]. constructor; [exists (gens + 1); split; [done|lia]|].
    eapply Forall2_impl; [exact HF|]. intros q q' (k & -> & Hk). exists k. split; [done|lia].
Qed.

Lemma stopTimers_inv dead dead' g :
  inv dead g → (dead = true → dead' = true) → (dead' = true ∨ gstopping g = true) → inv dead' (stopTimers g).
Proof.
  intros Hi Hd Hoff. unfold stopTimers. destruct (stop_timers (ggens g) (gprocs g)) as [gens procs] eqn:E.
  apply stop_timers_spec in E as [Hle HF].
  assert (Hmem : ∀ p', p' ∈ procs → ∃ p k, p ∈ gprocs g ∧ p' = set_gen p k ∧ ggens g < k ≤ gens).
  { intros p' Hp'. apply list_elem_of_lookup in Hp' as [i Hp'].
    destruct (Forall2_lookup_r _ _ _ _ _ HF Hp') as (p & Hp & k & -> & Hk). exists p, k. split; [|done].
    by apply list_elem_of_lookup_2 with i. }
  assert (Hnames : pname <$> procs = pname <$> gprocs g).
  { clear -HF. induction HF as [|p p' l l' (k & -> & _) _ IH]; [done|]. by rewrite !fmap_cons, IH. }
  split; cbn.
  - rewrite Hnames. apply Hi.
  - rewrite <- (Forall2_length _ _ _ HF). apply Hi.
  - intros p' q' Hp' Hq' Hz Heq. destruct (Hmem p' Hp') as (p & k & Hp & E1 & _), (Hmem q' Hq') as (q & m & Hq & E2 & _).
    apply (names_unique procs); [rewrite Hnames; apply Hi|done|done|]. rewrite E1, E2 in *. cbn in *.
    f_equal. by apply (inv_pids _ _ Hi).
  - intros p' Hp'. destruct (Hmem p' Hp') as (p & k & Hp & -> & _). exact (inv_waiters _ _ Hi p Hp).
  - intros p' Hp'. destruct (Hmem p' Hp') as (p & k & Hp & -> & Hk).
    destruct (inv_procs _ _ Hi p Hp) as (H1 & H2 & H3 & H4 & H5 & H6 & _ & _). split_and!; cbn; try done.
    + intros E. apply H3. destruct dead; [by rewrite Hd in E|done].
    + lia.
    + intros d Hin _ E. pose proof (inv_gens _ _ Hi d Hin). lia.
    + intros E1 E2. destruct Hoff; congruence.
  - apply Hi.
  - intros d Hin. pose proof (inv_gens _ _ Hi d Hin). lia.
Qed.

Lemma collect_inv g now deaths : inv (goom g) g → inv (goom (collect g now deaths).1) (collect g now deaths).1.
Proof.
  intros Hi. unfold collect. destruct (foldl _ _ _) as [[g1 oom] reaped] eqn:E.
  apply collect_go_inv in E as [H1 H2]; [|by rewrite orb_false_r].
  destruct oom; cbn [negb fst].
  - rewrite orb_true_r in H1. eapply (inv_same true true (stopTimers g1)); cbn; try done.
    + apply (stopTimers_inv true true g1); auto.
    + unfold stopTimers. destruct (stop_timers _ _). apply H1.
  - by rewrite orb_false_r in H1.
Qed.

Lemma stop_inv g : inv (goom g) g → inv (goom (stop g).1) (stop g).1.
Proof.
  intros Hi. unfold stop. cbn [fst]. set (g1 := MkGuest _ _ _ _ _ _ _ _).
  assert (goom (stopTimers g1) = goom g) as -> by (unfold stopTimers; by destruct (stop_timers _ _)).
  apply (stopTimers_inv (goom g) (goom g)); [|done|by right]. eapply (inv_same _ _ g); try done. apply Hi.
Qed.

Lemma stopProcess_inv g name grace : inv (goom g) g → inv (goom (stopProcess g name grace).1) (stopProcess g name grace).1.
Proof.
  intros Hi. unfold stopProcess. destruct (named g name) as [p0|] eqn:Hn; [|done].
  destruct (Ended (pstate p0)) eqn:He; [done|]. apply named_Some in Hn as [Hp0 _].
  destruct (inv_procs _ _ Hi p0 Hp0) as (H1 & H2 & H3 & H4 & H5 & H6 & H7 & H8). pose proof (inv_gens _ _ Hi) as Hg.
  unfold stopTimer. cbn [ppid set_gen]. destruct (Z.eqb_spec (ppid p0) 0) as [Hz|Hz]; cbn [fst].
  - apply (end_inv (goom g) g (nextGen g) p0); cbn; auto.
  - set (p := set_stopping _ _ _).
    assert (Hok : ∀ g', ggens g' = ggens g + 1 → gdue g' = MkDue (pname p0) (ggens g + 1) true :: gdue g ∨ gdue g' = gdue g →
      proc_ok (goom g) g' p).
    { intros g' Hg' Hdue. unfold proc_ok. change (pstate p) with (pstate p0). cbn. rewrite (H2 Hz). split_and!; try done; try lia.
      - intros Hl. destruct (H6 Hl). done.
      - intros d Hin Hdn Hdg Hdk. exfalso. destruct Hdue as [E|E]; rewrite E in Hin.
        + apply elem_of_cons in Hin as [->|Hin]; [done|]. by apply (fresh_gen g d Hg Hin).
        + by apply (fresh_gen g d Hg Hin). }
    destruct (0 <? grace); cbn [fst].
    + apply (inv_put (goom g) (goom g) g _ p0 p); cbn; try done; [lia| | | |by apply Hok; cbn; auto|by right; left].
      * intros d Hd. rewrite elem_of_cons. split; [intros [->|?]; done|auto].
      * exact (fresh_gen_NoDup g (pname p0) true (inv_dues _ _ Hi) Hg).
      * intros d [->|Hd]%elem_of_cons; cbn; [lia|]. specialize (Hg d Hd). lia.
    + apply (inv_put (goom g) (goom g) g _ p0 p); cbn; try done; [lia|apply Hi| |by apply Hok; cbn; auto|by right; left].
      intros d Hd. specialize (Hg d Hd). lia.
Qed.

(** A timer message that is taken off the queue without effect was stale, or a kill. *)
Lemma take_due_inv dead g due :
  inv dead g → dead = true ∨ gstopping g = true ∨ dkill due = true ∨
    (∀ p, p ∈ gprocs g → pname p = dname due → pgen p ≠ dgen due) → inv dead (take_due g due).
Proof.
  intros Hi Hoff. eapply (inv_same dead dead g); cbn; try done.
  - intros d Hd. exact (proj2 (proj1 (list_elem_of_filter _ _ _) Hd)).
  - apply filter_NoDup_gens, Hi.
  - intros p Hp E1 E2 Hin. apply list_elem_of_filter. split; [|done]. intros E.
    destruct Hoff as [?|[?|[Hk|Hs]]]; [congruence|congruence|by rewrite <- E in Hk|].
    apply (Hs p Hp); by rewrite <- E.
Qed.

(** What the start of a process again finds: it was waiting, and had not spent its retries. *)
Lemma live_due_waits dead g due p :
  inv dead g → due ∈ gdue g → p ∈ gprocs g → pname p = dname due → pgen p = dgen due → dkill due = false →
  pstate p = ProcessRestarting ∧ ppid p = 0 ∧
  (limited (prestart p) = true → pcount p < retries (prestart p)) ∧
  ∀ d, d ∈ gdue (take_due g due) → dgen d ≠ pgen p.
Proof.
  intros Hi Hd Hp Hn Hg Hk. destruct (inv_procs _ _ Hi p Hp) as (H1 & H2 & H3 & H4 & H5 & H6 & H7 & H8).
  assert (Hst : pstate p = ProcessRestarting) by (by apply (H7 due)).
  split_and!; [done| |intros Hl; by apply H6|].
  - destruct (decide (ppid p = 0)) as [|Hz]; [done|]. specialize (H2 Hz). congruence.
  - intros d Hin E. apply list_elem_of_filter in Hin as [Hne Hin]. apply Hne.
    apply (due_unique (gdue g)); [apply Hi|done|done|congruence].
Qed.

Lemma wake_inv g due now again :
  inv (goom g) g → due ∈ gdue g → match again with AgainStarted pid => fresh_pid g pid | AgainFails => True end →
  inv (goom (wake (take_due g due) due now again)) (wake (take_due g due) due now again).
Proof.
  intros Hi Hd Hfresh. unfold wake. change (named (take_due g due) (dname due)) with (named g (dname due)).
  change (gstopping (take_due g due)) with (gstopping g). change (goom (take_due g due)) with (goom g).
  change (gfrozen (take_due g due)) with (gfrozen g).
  destruct (named g (dname due)) as [p|] eqn:Hn.
  2: { apply take_due_inv; [done|]. right; right; right. intros p Hp E. by destruct (named_None g _ p Hn Hp). }
  apply named_Some in Hn as [Hp Hname].
  destruct (negb (pgen p =? dgen due) || gstopping g || goom g) eqn:Hstale.
  { apply take_due_inv; [done|]. apply orb_true_iff in Hstale as [Hstale|Hstale]; [|by left].
    apply orb_true_iff in Hstale as [Hstale|Hstale]; [|by right; left]. right; right; right.
    intros q Hq Hqn. apply negb_true_iff, Z.eqb_neq in Hstale.
    by rewrite (names_unique (gprocs g) q p (inv_names _ _ Hi) Hq Hp) by congruence. }
  apply orb_false_iff in Hstale as [Hstale Hoom]. apply orb_false_iff in Hstale as [Hgen Hstop].
  apply negb_false_iff, Z.eqb_eq in Hgen.
  destruct (dkill due) eqn:Hk; [apply take_due_inv; auto|].
  destruct (live_due_waits _ _ _ _ Hi Hd Hp Hname Hgen Hk) as (Hst & Hpid & Hlim & Hnone).
  destruct (inv_procs _ _ Hi p Hp) as (_ & _ & _ & H4 & H5 & H6 & _ & _). pose proof (inv_gens _ _ Hi) as Hg.
  destruct (gfrozen g).
  { assert (Hdue : MkDue (pname p) (pgen p) false = due) by (destruct due; cbn in *; congruence).
    cbn [goom arm take_due]. eapply (inv_same _ _ g); cbn; try done.
    - intros d [->|Hin]%elem_of_cons; [by rewrite Hdue|]. exact (proj2 (proj1 (list_elem_of_filter _ _ _) Hin)).
    - constructor; [|apply filter_NoDup_gens, Hi]. intros Hin. apply list_elem_of_fmap in Hin as (d & E & Hin).
      by apply (Hnone d Hin).
    - intros q Hq _ _ Hin. rewrite Hdue. apply elem_of_cons. destruct (decide (MkDue (pname q) (pgen q) false = due)); [by left|].
      right. by apply list_elem_of_filter. }
  assert (Hdn : ∀ d, dname d ≠ pname p → d ∈ gdue (take_due g due) ↔ d ∈ gdue g).
  { intros d Hne. cbn. rewrite list_elem_of_filter. split; [by intros [_ ?]|]. intros Hin. split; [|done]. intros ->. congruence. }
  assert (Hle : ∀ d, d ∈ gdue (take_due g due) → dgen d ≤ ggens g) by (intros d Hin; apply list_elem_of_filter in Hin as [_ Hin]; auto).
  destruct again as [|pid].
  - apply (inv_put (goom g) (goom g) g _ p (set_seq (set_state (MkProc (pname p) (prestart p) (ppid p) now (pcount p) (pstatus p) (pseq p) (pgen p) (pstopping p) (preaped p)) ProcessGaveUp) (gseq g + 1))); try done.
    + apply filter_NoDup_gens, Hi.
    + apply ended_ok; cbn; try done; [by rewrite Hpid|intros Hl; by apply H6].
    + right; left. done.
  - apply (inv_put (goom g) (goom g) g _ p (set_seq (set_status (set_count (set_pid (MkProc (pname p) (prestart p) (ppid p) now (pcount p) (pstatus p) (pseq p) (pgen p) (pstopping p) (preaped p)) pid) (pcount p + 1))
        (MkProcessStatus ProcessRunning (PSRestarts (pstatus p) + 1) (PSExit (pstatus p)) now)) (gseq g + 1))); try done.
    + apply filter_NoDup_gens, Hi.
    + destruct Hfresh as (Hpos & _ & _). apply ended_ok; cbn; try done; try lia. intros Hl. specialize (Hlim Hl). lia.
    + by right; right.
Qed.

Lemma drop_elem p procs q : q ∈ drop p procs ↔ q ∈ procs ∧ pname q ≠ pname p.
Proof. unfold drop. rewrite list_elem_of_filter. naive_solver. Qed.

Lemma drop_names p procs : NoDup (pname <$> procs) → NoDup (pname <$> drop p procs).
Proof.
  induction procs as [|q procs IH]; [done|]. rewrite fmap_cons. intros Hnd. apply NoDup_cons in Hnd as [Hni Hnd].
  unfold drop. rewrite filter_cons. destruct (decide _); [|by apply IH]. rewrite fmap_cons. constructor; [|by apply IH].
  intros Hin. apply Hni. apply list_elem_of_fmap in Hin as (r & -> & Hr). apply list_elem_of_filter in Hr as [_ Hr].
  by apply list_elem_of_fmap_2.
Qed.

Lemma drop_length p procs : p ∈ procs → (length (drop p procs) < length procs)%nat.
Proof.
  induction procs as [|q procs IH]; [set_solver|]. intros Hin. unfold drop. rewrite filter_cons.
  assert (Hle : (length (filter (λ q, pname q ≠ pname p) procs) ≤ length procs)%nat) by apply length_filter.
  destruct (decide (pname q ≠ pname p)) as [Hne|Hne]; cbn [length]; [|lia].
  apply elem_of_cons in Hin as [->|Hin]; [done|]. specialize (IH Hin). unfold drop in IH. lia.
Qed.

(** What a run keeps of the table: all of it, or all but one process that had ended; and there is room. *)
Definition kept_of (g : guest) (old : option proc) : list proc :=
  match old with Some o => drop o (gprocs g) | None => gprocs g end.

Lemma append_inv dead g g' procs p :
  inv dead g → (∀ q, q ∈ procs → q ∈ gprocs g) → NoDup (pname <$> procs) → (length procs < MaxProcesses)%nat →
  (∀ q, q ∈ procs → pname q ≠ pname p) → fresh_pid g (ppid p) →
  gprocs g' = procs ++ [p] → ggens g' = ggens g + 1 → pgen p = ggens g + 1 → pcount p = 0 → pstate p = ProcessRunning →
  gstopping g' = gstopping g → gwaiters g' = gwaiters g → gdue g' = gdue g → inv dead g'.
Proof.
  intros Hi Hsub Hnd Hlen Hnew (Hpos & Hw & Hpids) Hprocs Hgens Hpg Hpc Hps Hst Hwt Hdue.
  assert (Hmem : ∀ q, q ∈ gprocs g' → q = p ∨ q ∈ procs) by (intros q; rewrite Hprocs; set_solver).
  pose proof (inv_gens _ _ Hi) as Hg.
  split; rewrite ?Hdue, ?Hwt, ?Hgens.
  - rewrite Hprocs, fmap_app. apply NoDup_app. split_and!; [done| |apply NoDup_singleton].
    intros n Hn Hn'. apply list_elem_of_fmap in Hn as (q & -> & Hq). apply list_elem_of_singleton in Hn'. by apply (Hnew q).
  - rewrite Hprocs, length_app. simpl. lia.
  - intros q r Hq Hr Hz E. apply Hmem in Hq as [->|Hq], Hr as [->|Hr]; [done|..].
    + exfalso. apply (Hpids r (Hsub r Hr)). congruence.
    + exfalso. apply (Hpids q (Hsub q Hq)). congruence.
    + apply (inv_pids _ _ Hi); auto.
  - intros q Hq Hz. apply Hmem in Hq as [->|Hq]; [done|]. apply (inv_waiters _ _ Hi); auto.
  - intros q Hq. apply Hmem in Hq as [->|Hq].
    + apply ended_ok; rewrite ?Hdue, ?Hgens, ?Hpg, ?Hps; try done; try lia.
      * intros d Hd. by apply fresh_gen.
      * intros Hl. rewrite Hpc. unfold limited in Hl. breflect. lia.
    + apply (proc_ok_same dead dead g g'); rewrite ?Hdue; try done; [lia|by rewrite Hst|]. by apply (inv_procs _ _ Hi), Hsub.
  - apply Hi.
  - intros d Hd. specialize (Hg d Hd). lia.
Qed.

Lemma oldestEnded_Some g o : oldestEnded g = Some o → o ∈ gprocs g ∧ Ended (pstate o) = true.
Proof. intros H. apply first_match_Some in H as (a & b & E & H & _). rewrite E. split; [set_solver|done]. Qed.

Lemma runProcess_inv g name restart now started :
  inv (goom g) g → match started with Started pid => fresh_pid g pid | _ => True end →
  inv (goom (runProcess g name restart now started).1) (runProcess g name restart now started).1.
Proof.
  intros Hi Hf. unfold runProcess. destruct (gstopping g) eqn:Hst; [done|]. destruct (goom g) eqn:Hoom; [by rewrite <- Hoom in Hi|].
  assert (Hsame : inv (goom g) g) by (by rewrite Hoom).
  destruct (match named g name with Some p => _ | None => _ end) eqn:Htaken; [done|].
  destruct (bool_decide (named g name = None) && _ && _) eqn:Hroom; [done|].
  destruct started as [| |pid]; [done|done|]. cbn [fst goom].
  set (old := if _ && _ then oldestEnded g else named g name).
  set (p := MkProc name restart pid now 0 _ _ _ false 0).
  assert (Hprocs : (∀ q, q ∈ kept_of g old → q ∈ gprocs g) ∧ NoDup (pname <$> kept_of g old) ∧
    (length (kept_of g old) < MaxProcesses)%nat ∧ ∀ q, q ∈ kept_of g old → pname q ≠ name).
  { assert (Hdrop : ∀ o, o ∈ gprocs g → (pname o = name ∨ named g name = None) →
      (∀ q, q ∈ drop o (gprocs g) → q ∈ gprocs g) ∧ NoDup (pname <$> drop o (gprocs g)) ∧
      (length (drop o (gprocs g)) < MaxProcesses)%nat ∧ ∀ q, q ∈ drop o (gprocs g) → pname q ≠ name).
    { intros o Ho Hname. pose proof (drop_length o (gprocs g) Ho). pose proof (inv_bound _ _ Hi).
      split_and!; [intros q Hq; by apply drop_elem in Hq as [? _]|apply drop_names, Hi|lia|].
      intros q Hq. apply drop_elem in Hq as [Hq Hne]. destruct Hname as [<-|Hname]; [done|by apply (named_None g name q)]. }
    unfold old. destruct (named g name) as [o|] eqn:Hn.
    - cbn [andb]. rewrite bool_decide_eq_false_2 by done. cbn [andb kept_of]. apply named_Some in Hn as [Ho Hname]. apply Hdrop; auto.
    - rewrite bool_decide_eq_true_2 in Hroom |- * by done. cbn [andb] in *.
      destruct (MaxProcesses <=? length (gprocs g))%nat eqn:Hfull; breflect.
      + cbn [andb] in Hroom. breflect. destruct (oldestEnded g) as [o|] eqn:Ho; [|done]. cbn [kept_of].
        apply oldestEnded_Some in Ho as [Ho _]. apply Hdrop; auto.
      + cbn [kept_of]. split_and!; [done|apply Hi|lia|]. intros q Hq. by apply (named_None g name q). }
  destruct Hprocs as (H1 & H2 & H3 & H4).
  apply (append_inv false g _ (kept_of g old) p); try done.
Qed.

(** The invariant holds in every state the supervisor reaches. *)
Lemma reachable_inv g : reachable g → inv (goom g) g.
Proof.
  unfold reachable. intros H. revert g H. apply (rtc_ind_r (λ g, inv (goom g) g) newGuest).
  - split; cbn; try apply NoDup_nil_2; try lia; set_solver.
  - intros x y _ Hs Hx. destruct Hs as [g name r now st Hf|g now ds _|g due now again Hd Hf|g name grace|g|g b|g pid Hf].
    + by apply runProcess_inv.
    + by apply collect_inv.
    + by apply wake_inv.
    + by apply stopProcess_inv.
    + by apply stop_inv.
    + eapply (inv_same _ _ g); cbn; try done. apply Hx.
    + eapply (inv_same _ _ g); cbn; try done; [|apply Hx]. destruct Hf as (_ & _ & Hf). intros p Hp Hz Hn Hin.
      apply elem_of_union in Hin as [Hin|Hin]; [|done]. apply elem_of_singleton in Hin. by apply (Hf p).
Qed.

(** C23: In every state the supervisor reaches there is at most one entry per name and at most sixteen, no pid
    belongs to two of them or to an exec, a process is running exactly while it has a pid (until the memory
    bound takes all), and a policy that limits retries never counts past its limit. *)
Theorem supervisor_safe g :
  reachable g →
  NoDup (pname <$> gprocs g) ∧ (length (gprocs g) ≤ MaxProcesses)%nat ∧
  (∀ p q, p ∈ gprocs g → q ∈ gprocs g → ppid p ≠ 0 → ppid p = ppid q → p = q) ∧
  ∀ p, p ∈ gprocs g →
    (ppid p ≠ 0 → pstate p = ProcessRunning ∧ ppid p ∉ gwaiters g) ∧
    (goom g = false → pstate p = ProcessRunning → ppid p ≠ 0) ∧
    (limited (prestart p) = true → 0 ≤ pcount p ≤ retries (prestart p)).
Proof.
  intros H. apply reachable_inv in H as Hi. split_and!; [apply Hi|apply Hi|apply Hi|].
  intros p Hp. destruct (inv_procs _ _ Hi p Hp) as (H1 & H2 & H3 & H4 & H5 & H6 & H7 & H8).
  split_and!; [|done|].
  - intros Hz. split; [by apply H2|]. by apply (inv_waiters _ _ Hi).
  - intros Hl. destruct (H6 Hl) as [H9 _]. lia.
Qed.

(** A start again never doubles a process: a timer that comes due starts one only when the process of that
    name is down and waiting, with retries left; a timer that a stop, a later run or a kill made stale
    starts nothing. And a process that waits to start again always has its timer in flight, so it is never
    forgotten. *)
Theorem wake_starts_waiting g due now pid :
  reachable g → due ∈ gdue g →
  (∀ p, named g (dname due) = Some p → gprocs (wake (take_due g due) due now (AgainStarted pid)) ≠ gprocs g →
     gstopping g = false ∧ goom g = false ∧ pgen p = dgen due ∧ pstate p = ProcessRestarting ∧ ppid p = 0 ∧
     (limited (prestart p) = true → pcount p < retries (prestart p))) ∧
  (∀ p, p ∈ gprocs g → goom g = false → gstopping g = false → pstate p = ProcessRestarting →
     MkDue (pname p) (pgen p) false ∈ gdue g).
Proof.
  intros H Hd. apply reachable_inv in H as Hi. split.
  - intros p Hn. unfold wake. change (named (take_due g due) (dname due)) with (named g (dname due)). rewrite Hn.
    change (gstopping (take_due g due)) with (gstopping g). change (goom (take_due g due)) with (goom g).
    apply named_Some in Hn as [Hp Hname].
    destruct (pgen p =? dgen due) eqn:Hgen, (gstopping g) eqn:Hst, (goom g) eqn:Hoom; cbn [negb orb]; try done.
    destruct (dkill due) eqn:Hk; [done|]. destruct (gfrozen (take_due g due)); [done|]. intros _. breflect.
    destruct (live_due_waits _ _ _ _ Hi Hd Hp Hname Hgen Hk) as (H1 & H2 & H3 & _). done.
  - intros p Hp Hoom Hst Hs. destruct (inv_procs _ _ Hi p Hp) as (_ & _ & _ & _ & _ & _ & _ & H8).
    rewrite Hoom in H8. by apply H8.
Qed.

(** * After a stop *)

(** Every live process of [g'] was live in [g], under the same name and pid. *)
Definition keeps (g g' : guest) : Prop :=
  ∀ p', p' ∈ gprocs g' → ppid p' ≠ 0 → ∃ p, p ∈ gprocs g ∧ pname p = pname p' ∧ ppid p = ppid p'.

Lemma keeps_same g g' : gprocs g' = gprocs g → keeps g g'.
Proof. intros E p Hp Hz. rewrite E in Hp. eauto. Qed.

Lemma keeps_trans g1 g2 g3 : keeps g1 g2 → keeps g2 g3 → keeps g1 g3.
Proof.
  intros H1 H2 p Hp Hz. destruct (H2 p Hp Hz) as (q & Hq & En & Ep).
  destruct (H1 q Hq) as (r & Hr & En' & Ep'); [congruence|]. exists r. split_and!; congruence.
Qed.

Lemma keeps_put g g' p0 p :
  p0 ∈ gprocs g → gprocs g' = put p (gprocs g) → pname p = pname p0 → (ppid p = 0 ∨ ppid p = ppid p0) → keeps g g'.
Proof.
  intros Hp0 E Hn Hpid q Hq Hz. rewrite E in Hq. apply put_elem in Hq as [[-> _]|[Hq _]]; [|eauto].
  destruct Hpid as [?|Hpid]; [done|]. exists p0. auto.
Qed.

Lemma exited_keeps g p0 exit now :
  p0 ∈ gprocs g → keeps g (exited (with_procs g (put (set_pid p0 0) (gprocs g))) (set_pid p0 0) exit now).
Proof.
  intros Hp0. unfold exited, stopTimer. set (g1 := nextGen _). set (p1 := release _).
  assert (Hch : ∀ g2 p, gprocs g2 = put (set_pid p0 0) (gprocs g) → pname p = pname p0 → ppid p = 0 → keeps g (changed g2 p)).
  { intros g2 p E Hn Hpid. apply (keeps_put g _ p0 (set_seq p (gseq g2 + 1))); [done| |done|by left].
    cbn. rewrite E. by rewrite put_put. }
  change (gstopping g1) with (gstopping g). destruct (gstopping g); [by apply Hch|].
  destruct (pstopping p1); [by apply Hch|]. destruct (reset (prestart p1) <=? _); destruct (next _ _ _) as [w st];
    destruct (bool_decide (st = ProcessRestarting)); by apply Hch.
Qed.

Lemma collect_one_keeps now g oom reaped d : keeps g (collect_one now (g, oom, reaped) d).1.1.
Proof.
  unfold collect_one. destruct (bool_decide _); [by apply keeps_same|].
  destruct (byPID g (dpid d)) as [p0|] eqn:Hb; [|by apply keeps_same]. apply byPID_Some in Hb as [Hp0 _].
  destruct (_ || _); cbn [fst]; [|by apply exited_keeps].
  apply (keeps_put g _ p0 (release (set_pid p0 0))); [done| |done|by left]. cbn. by rewrite put_put.
Qed.

Lemma collect_go_keeps now deaths g oom reaped : keeps g (foldl (collect_one now) (g, oom, reaped) deaths).1.1.
Proof.
  revert g oom reaped. induction deaths as [|d deaths IH]; intros g oom reaped; cbn [foldl]; [by apply keeps_same|].
  pose proof (collect_one_keeps now g oom reaped d) as H.
  destruct (collect_one now (g, oom, reaped) d) as [[g1 o1] r1]. eapply keeps_trans; [exact H|apply IH].
Qed.

Lemma stopTimers_keeps g : keeps g (stopTimers g).
Proof.
  unfold stopTimers. destruct (stop_timers (ggens g) (gprocs g)) as [gens procs] eqn:E.
  apply stop_timers_spec in E as [_ HF]. intros p' Hp' Hz. cbn in Hp'. apply list_elem_of_lookup in Hp' as [i Hp'].
  destruct (Forall2_lookup_r _ _ _ _ _ HF Hp') as (p & Hp & k & -> & _). exists p. split_and!; [|done|done].
  by apply list_elem_of_lookup_2 with i.
Qed.

Definition off (g : guest) : Prop := gstopping g = true ∨ goom g = true.

Lemma collect_flags now deaths g oom reaped :
  let g' := (foldl (collect_one now) (g, oom, reaped) deaths).1.1 in gstopping g' = gstopping g ∧ goom g' = goom g.
Proof.
  revert g oom reaped. induction deaths as [|d deaths IH]; intros g oom reaped; [done|]. cbn [foldl].
  assert (H : let g1 := (collect_one now (g, oom, reaped) d).1.1 in gstopping g1 = gstopping g ∧ goom g1 = goom g).
  { unfold collect_one. destruct (bool_decide _); [done|]. destruct (byPID _ _); [|done]. destruct (_ || _); [done|].
    cbn [fst]. destruct (exited_spec (with_procs g (put (set_pid p 0) (gprocs g))) (set_pid p 0) (dexit d) now) as [-> ->]. done. }
  destruct (collect_one now (g, oom, reaped) d) as [[g1 o1] r1]. destruct (IH g1 o1 r1) as [-> ->]. exact H.
Qed.

Lemma stopTimers_flags g : gstopping (stopTimers g) = gstopping g ∧ goom (stopTimers g) = goom g.
Proof. unfold stopTimers. by destruct (stop_timers _ _). Qed.

Lemma step_off g g' : step g g' → off g → off g' ∧ keeps g g'.
Proof.
  intros Hs Hoff. destruct Hs as [g name r now st Hf|g now ds _|g due now again Hd Hf|g name grace|g|g b|g pid Hf].
  - unfold runProcess. destruct (gstopping g) eqn:E; [split; [done|by apply keeps_same]|].
    destruct (goom g) eqn:E2; [split; [done|by apply keeps_same]|]. destruct Hoff; congruence.
  - unfold collect. pose proof (collect_go_keeps now ds g false false) as Hk.
    pose proof (collect_flags now ds g false false) as [E1 E2].
    destruct (foldl _ _ _) as [[g1 oom] reaped]. cbn [fst] in *. destruct oom; cbn [negb fst].
    + split; [by right|]. eapply keeps_trans; [exact Hk|]. intros p Hp. by apply stopTimers_keeps.
    + split; [|done]. unfold off. by rewrite E1, E2.
  - assert (Hw : wake (take_due g due) due now again = take_due g due); [|rewrite Hw; split; [done|by apply keeps_same]].
    unfold wake. destruct (named _ _); [|done]. cbn [gstopping goom take_due].
    destruct Hoff as [E|E]; rewrite E; [by rewrite orb_true_r|by rewrite orb_true_r].
  - unfold stopProcess. destruct (named g name) as [p0|] eqn:Hn; [|split; [done|by apply keeps_same]].
    apply named_Some in Hn as [Hp0 _]. destruct (Ended _); [split; [done|by apply keeps_same]|]. unfold stopTimer.
    cbn [ppid set_gen]. destruct (Z.eqb_spec (ppid p0) 0); cbn [fst].
    + split; [done|]. by apply (keeps_put g _ p0 (set_seq (set_state (set_gen p0 (ggens g + 1)) ProcessKilled) (gseq g + 1))); auto.
    + assert (Hk : ∀ g', gprocs g' = put (set_stopping (set_gen p0 (ggens g + 1)) true (S (preaped p0))) (gprocs g) → keeps g g').
      { intros g' E. by apply (keeps_put g g' p0 (set_stopping (set_gen p0 (ggens g + 1)) true (S (preaped p0)))); auto. }
      destruct (0 <? grace); (split; [done|by apply Hk]).
  - unfold stop. cbn [fst]. destruct (stopTimers_flags (MkGuest (gprocs g) (gseq g) (ggens g) true (goom g) (gfrozen g) (gwaiters g) (gdue g))) as [E1 E2].
    split; [left; by rewrite E1|]. intros p Hp. by apply stopTimers_keeps in Hp.
  - split; [done|by apply keeps_same].
  - split; [done|by apply keeps_same].
Qed.

(** Nothing starts once the sandbox stops or its memory bound took it: from then on, whatever timers come
    due and whatever is asked, every live process is one that was live already, and the state is never
    left. *)
Theorem off_starts_nothing g g' :
  rtc step g g' → gstopping g = true ∨ goom g = true →
  (gstopping g' = true ∨ goom g' = true) ∧
  ∀ p', p' ∈ gprocs g' → ppid p' ≠ 0 → ∃ p, p ∈ gprocs g ∧ pname p = pname p' ∧ ppid p = ppid p'.
Proof.
  intros H. induction H as [g|g1 g2 g3 Hs Hr IH]; intros Hoff.
  - split; [done|]. by apply keeps_same.
  - destruct (step_off _ _ Hs Hoff) as [Hoff' Hk]. destruct (IH Hoff') as [H1 H2]. split; [done|].
    by apply (keeps_trans g1 g2 g3).
Qed.

(** * Witnesses *)

Definition web_policy_restart : restartPolicy := MkRestartPolicy RestartOnFailure 3 second defaultReset.
Definition guest_run : guest := (runProcess newGuest "web" web_policy_restart 100 (Started 7)).1.
Definition guest_waiting : guest := (collect guest_run 200 [MkDeath 7 (MkExitStatus 1 0) false]).1.
Definition guest_stopped : guest := (stop guest_waiting).1.

Lemma guest_run_reachable : reachable guest_run.
Proof. apply rtc_once. apply (step_run newGuest "web" web_policy_restart 100 (Started 7)). split_and!; [lia|set_solver|set_solver]. Qed.

Lemma guest_waiting_reachable : reachable guest_waiting.
Proof.
  eapply rtc_r; [exact guest_run_reachable|].
  apply (step_collect guest_run 200 [MkDeath 7 (MkExitStatus 1 0) false]). repeat constructor.
Qed.

Lemma supervisor_safe_witness : (length (gprocs guest_waiting) ≤ MaxProcesses)%nat ∧ NoDup (pname <$> gprocs guest_waiting).
Proof.
  destruct (supervisor_safe guest_waiting guest_waiting_reachable) as (H1 & H2 & _). exact (conj H2 H1).
Defined.

Lemma wake_starts_waiting_witness : MkDue "web" 2 false ∈ gdue guest_waiting.
Proof.
  destruct (gprocs guest_waiting) as [|p ps] eqn:E; [discriminate E|].
  assert (Hp : pname p = "web" ∧ pgen p = 2 ∧ pstate p = ProcessRestarting).
  { change (gprocs guest_waiting) with [hd p (gprocs guest_waiting)] in E. injection E as <- _. vm_compute. done. }
  destruct Hp as (Hn & Hg & Hs). rewrite <- Hn, <- Hg.
  refine (proj2 (wake_starts_waiting guest_waiting (MkDue "web" 2 false) 300 9 guest_waiting_reachable _) p _ _ _ Hs).
  - change (gdue guest_waiting) with [MkDue "web" 2 false]. by left.
  - rewrite E. by left.
  - reflexivity.
  - reflexivity.
Defined.

Lemma off_starts_nothing_witness : gstopping guest_stopped = true ∨ goom guest_stopped = true.
Proof.
  refine (proj1 (off_starts_nothing guest_stopped guest_stopped (rtc_refl _ _) _)). left. reflexivity.
Defined.
