(* ===== verification/Wire.v ===== *)
(** * The wire between the host and the guest's init

    [services/supervisor/wire.go]: exec frames, a stream byte and a length before each payload, and control
    messages, one JSON line each. A connection is the list of the bytes still to be read. The JSON of a message
    is its text: [encoding/json] never puts a newline in it. *)

From S2P Require Import Prelude.
Local Open Scope Z_scope.

Definition MaxPayload : Z := 2 ^ 20.
Definition frameHeader : nat := 8.
Definition newline : Z := 10.

Inductive wire_error : Type :=
| WireEOF
| WireShortHeader
| WireClaims (stream length : Z)
| WireShortPayload (stream length : Z)
| ErrMessageTooLong
| WireCut
| WireHeaderCut
| WireHeaderLong.

Definition size (bs : list Z) : Z := Z.of_nat (length bs).

(** [binary.BigEndian.PutUint32] and [Uint32]. *)
Definition PutUint32 (v : Z) : list Z :=
  [Z.shiftr v 24 mod 256; Z.shiftr v 16 mod 256; Z.shiftr v 8 mod 256; v mod 256].
Definition Uint32 (bs : list Z) : Z :=
  match bs with
  | [a; b; c; d] => Z.lor (Z.lor (Z.shiftl a 24) (Z.shiftl b 16)) (Z.lor (Z.shiftl c 8) d)
  | _ => 0
  end.

(** The bytes of one frame: the stream, three zeros, the length of the payload as a [uint32]. *)
Definition frame (stream : Z) (piece : list Z) : list Z :=
  stream :: 0 :: 0 :: 0 :: PutUint32 (wrap_u 32 (size piece)) ++ piece.

(** [WriteFrame]: what reaches the connection, piece by piece; each turn takes a byte at least but the last. *)
Fixpoint write_go (fuel : nat) (stream : Z) (payload : list Z) : list Z :=
  match fuel with
  | O => []
  | S fuel =>
      let piece := if MaxPayload <? size payload then take (Z.to_nat MaxPayload) payload else payload in
      let rest := drop (length piece) payload in
      frame stream piece ++ match rest with [] => [] | _ => write_go fuel stream rest end
  end.

Definition WriteFrame (stream : Z) (payload : list Z) : list Z := write_go (S (length payload)) stream payload.

(** [ReadFrame]: the stream, the payload and what is left of the connection. [io.ReadFull] of nothing is EOF. *)
Definition ReadFrame (conn : list Z) : result wire_error (Z * list Z * list Z) :=
  match conn with
  | [] => Err WireEOF
  | _ =>
      if (length conn <? frameHeader)%nat then Err WireShortHeader
      else
        let header := take frameHeader conn in
        let stream := default 0 (head header) in
        let length_ := Uint32 (drop 4 header) in
        if MaxPayload <? length_ then Err (WireClaims stream length_)
        else
          let body := drop frameHeader conn in
          if size body <? length_ then Err (WireShortPayload stream length_)
          else Ok (stream, take (Z.to_nat length_) body, drop (Z.to_nat length_) body)
  end.

(** Reading frames one after the other. *)
Fixpoint read_frames (n : nat) (conn : list Z) : result wire_error (list (Z * list Z) * list Z) :=
  match n with
  | O => Ok ([], conn)
  | S n =>
      match ReadFrame conn with
      | Err e => Err e
      | Ok (stream, payload, conn) =>
          match read_frames n conn with
          | Err e => Err e
          | Ok (frames, conn) => Ok ((stream, payload) :: frames, conn)
          end
      end
  end.

(** ** Messages *)

(** [WriteMessage] of an encoded value. *)
Definition WriteMessage (encoded : list Z) : result wire_error (list Z) :=
  if MaxPayload <? size encoded then Err ErrMessageTooLong else Ok (encoded ++ [newline]).

(** The bytes up to and with the first newline, when there is one. *)
Fixpoint cut_line (bs : list Z) : option (list Z * list Z) :=
  match bs with
  | [] => None
  | b :: bs =>
      if b =? newline then Some ([b], bs)
      else match cut_line bs with Some (line, rest) => Some (b :: line, rest) | None => None end
  end.

Inductive slice_end : Type := SliceLine | SliceFull | SliceEOF.

(** [bufio.Reader.ReadSlice] over a buffer of [buf] bytes: a line that fits, a full buffer, or the end. *)
Definition ReadSlice (buf : nat) (conn : list Z) : list Z * list Z * slice_end :=
  match cut_line (take buf conn) with
  | Some (line, _) => (line, drop (length line) conn, SliceLine)
  | None => if (buf <=? length conn)%nat then (take buf conn, drop buf conn, SliceFull) else (conn, [], SliceEOF)
  end.

Fixpoint read_go (fuel : nat) (buf : nat) (line conn : list Z) : result wire_error (list Z * list Z) :=
  match fuel with
  | O => Err WireCut
  | S fuel =>
      let '(chunk, conn, e) := ReadSlice buf conn in
      if MaxPayload + 1 <? size line + size chunk then Err ErrMessageTooLong
      else
        let line := line ++ chunk in
        match e with
        | SliceFull => read_go fuel buf line conn
        | SliceEOF => Err (match line with [] => WireEOF | _ => WireCut end)
        | SliceLine => Ok (line, conn)
        end
  end.

(** [readMessage] up to its decoding: the line and what is left of the connection. *)
Definition readMessage (buf : nat) (conn : list Z) : result wire_error (list Z * list Z) :=
  read_go (S (length conn)) buf [] conn.

(** [ReadHeader], a byte at a time. *)
Fixpoint header_go (line conn : list Z) : result wire_error (list Z * list Z) :=
  match conn with
  | [] => Err WireHeaderCut
  | b :: conn =>
      let line := line ++ [b] in
      if b =? newline then Ok (line, conn)
      else if MaxPayload <? size line then Err WireHeaderLong
      else header_go line conn
  end.
Definition ReadHeader (conn : list Z) : result wire_error (list Z * list Z) := header_go [] conn.

(** * Frames *)

Lemma lor_add a b n : 0 ≤ n → 0 ≤ b < 2 ^ n → Z.lor (Z.shiftl a n) b = a * 2 ^ n + b.
Proof.
  intros Hn Hb. rewrite <- Z.shiftl_mul_pow2 by done.
  assert (L : Z.land (Z.shiftl a n) b = 0).
  { apply Z.bits_inj'. intros i Hi. rewrite Z.land_spec, Z.bits_0. destruct (decide (i < n)).
    - rewrite Z.shiftl_spec_low by done. done.
    - rewrite <- (Z.mod_small b (2 ^ n)), Z.mod_pow2_bits_high by lia. by rewrite andb_false_r. }
  rewrite <- Z.lxor_lor by done. symmetry. by apply Z.add_nocarry_lxor.
Qed.

Lemma Uint32_PutUint32 v : 0 ≤ v < 2 ^ 32 → Uint32 (PutUint32 v) = v.
Proof.
  intros Hv. unfold Uint32, PutUint32.
  assert (Hb : ∀ x, 0 ≤ x mod 256 < 2 ^ 8) by (intros x; pose proof (Z.mod_pos_bound x 256); lia).
  replace 24 with (8 + 16) at 2 by lia. rewrite <- (Z.shiftl_shiftl _ 8 16) by lia. rewrite <- Z.shiftl_lor.
  rewrite !(lor_add _ _ 8) by (lia || apply Hb).
  rewrite lor_add; [|lia|pose proof (Hb (Z.shiftr v 8)); pose proof (Hb v); lia].
  rewrite !Z.shiftr_div_pow2 by lia.
  change (2 ^ 24) with (256 * (256 * 256)). change (2 ^ 16) with (256 * 256). change (2 ^ 8) with 256.
  rewrite <- !Z.div_div by lia.
  pose proof (Z.div_mod v 256 ltac:(lia)). pose proof (Z.div_mod (v / 256) 256 ltac:(lia)).
  pose proof (Z.div_mod (v / 256 / 256) 256 ltac:(lia)). pose proof (Z.div_mod (v / 256 / 256 / 256) 256 ltac:(lia)).
  assert (v / 256 / 256 / 256 / 256 = 0).
  { rewrite !Z.div_div by lia. apply Z.div_small. lia. }
  lia.
Qed.

Lemma ReadFrame_frame stream piece rest :
  size piece ≤ MaxPayload → ReadFrame (frame stream piece ++ rest) = Ok (stream, piece, rest).
Proof.
  intros Hp. assert (H0 : 0 ≤ size piece) by (unfold size; lia).
  assert (E : Uint32 (PutUint32 (wrap_u 32 (size piece))) = size piece).
  { unfold MaxPayload in Hp. rewrite Uint32_PutUint32; unfold wrap_u; rewrite ?Z.mod_small by lia; lia. }
  unfold frame. destruct (PutUint32 (wrap_u 32 (size piece))) as [|a [|b [|c [|d [|? ?]]]]] eqn:Eb; try discriminate Eb.
  unfold ReadFrame. cbn [app].
  assert (L : (length (stream :: 0%Z :: 0%Z :: 0%Z :: a :: b :: c :: d :: piece ++ rest) <? frameHeader)%nat = false).
  { apply Nat.ltb_ge. cbn [length]. unfold frameHeader. lia. }
  rewrite L. unfold frameHeader. cbn [take drop head]. rewrite !firstn_O, E, !drop_0.
  rewrite (proj2 (Z.ltb_ge MaxPayload (size piece))) by done.
  rewrite (proj2 (Z.ltb_ge (size (piece ++ rest)) (size piece))) by (unfold size; rewrite length_app; lia).
  unfold size. rewrite Nat2Z.id, take_app_length, drop_app_length. done.
Qed.

(** The pieces a payload is sent in: every one but the last is full. *)
Fixpoint pieces_go (fuel : nat) (payload : list Z) : list (list Z) :=
  match fuel with
  | O => []
  | S fuel =>
      let piece := if MaxPayload <? size payload then take (Z.to_nat MaxPayload) payload else payload in
      let rest := drop (length piece) payload in
      piece :: match rest with [] => [] | _ => pieces_go fuel rest end
  end.
Definition pieces (payload : list Z) : list (list Z) := pieces_go (S (length payload)) payload.

Lemma write_pieces fuel stream payload : write_go fuel stream payload = concat (frame stream <$> pieces_go fuel payload).
Proof.
  revert payload. induction fuel as [|fuel IH]; intros payload; [done|]. cbn [write_go pieces_go fmap list_fmap concat].
  f_equal. destruct (drop _ _) as [|b bs]; [done|]. apply IH.
Qed.

Lemma pieces_spec fuel payload :
  (length payload < fuel)%nat →
  concat (pieces_go fuel payload) = payload ∧ Forall (λ p, size p ≤ MaxPayload) (pieces_go fuel payload).
Proof.
  revert payload. induction fuel as [|fuel IH]; intros payload Hf; [lia|]. cbn [pieces_go].
  set (piece := if MaxPayload <? size payload then _ else _). assert (Hp : size piece ≤ MaxPayload ∧ piece ++ drop (length piece) payload = payload ∧
    (drop (length piece) payload ≠ [] → (0 < length piece)%nat)).
  { unfold piece. destruct (Z.ltb_spec MaxPayload (size payload)) as [Hlt|Hge].
    - assert (L : length (take (Z.to_nat MaxPayload) payload) = Z.to_nat MaxPayload).
      { rewrite length_take. unfold size in Hlt. lia. }
      split_and!; [unfold size, MaxPayload in *; rewrite L; lia|rewrite L; apply take_drop|intros _; rewrite L; unfold MaxPayload; lia].
    - rewrite drop_all. split_and!; [done|by rewrite (right_id_L [] (++))|done]. }
  clearbody piece. destruct Hp as (Hs & Hc & Hne). destruct (drop (length piece) payload) as [|b bs] eqn:E.
  - cbn [concat]. split; [done|]. by apply Forall_singleton.
  - assert (L : length payload = (length piece + length (b :: bs))%nat) by (rewrite <- Hc at 1; apply length_app).
    destruct (IH (b :: bs)) as [IH1 IH2]; [specialize (Hne ltac:(done)); lia|].
    cbn [concat]. split; [by rewrite IH1|by constructor].
Qed.

Lemma read_concat stream ps rest :
  Forall (λ p, size p ≤ MaxPayload) ps →
  read_frames (length ps) (concat (frame stream <$> ps) ++ rest) = Ok (pair stream <$> ps, rest).
Proof.
  induction 1 as [|p ps Hp Hps IH]; [done|]. cbn [fmap list_fmap concat length read_frames].
  rewrite <- (assoc_L (++)), ReadFrame_frame by done. by rewrite IH.
Qed.

(** * Lines *)

Definition no_newline (bs : list Z) : Prop := newline ∉ bs.

Lemma cut_line_None bs : no_newline bs → cut_line bs = None.
Proof.
  induction bs as [|b bs IH]; [done|]. intros [Hb Hbs]%not_elem_of_cons. cbn [cut_line].
  rewrite (proj2 (Z.eqb_neq b newline)) by done. by rewrite IH.
Qed.

Lemma cut_line_at bs rest : no_newline bs → cut_line (bs ++ newline :: rest) = Some (bs ++ [newline], rest).
Proof.
  induction bs as [|b bs IH]; [done|]. intros [Hb Hbs]%not_elem_of_cons. cbn [cut_line app].
  rewrite (proj2 (Z.eqb_neq b newline)) by done. by rewrite IH.
Qed.

Lemma read_go_line fuel buf line bs rest :
  (0 < buf)%nat → (length bs < fuel)%nat → no_newline bs → size line + size bs ≤ MaxPayload →
  read_go fuel buf line (bs ++ newline :: rest) = Ok (line ++ bs ++ [newline], rest).
Proof.
  intros Hb. revert line bs. induction fuel as [|fuel IH]; intros line bs Hf Hn Hs; [lia|]. cbn [read_go]. unfold ReadSlice.
  destruct (le_lt_dec buf (length bs)) as [Hle|Hlt].
  - assert (Hnt : no_newline (take buf bs)).
    { intros Hin. apply Hn. rewrite <- (take_drop buf bs). apply elem_of_app. by left. }
    assert (Hnd : no_newline (drop buf bs)).
    { intros Hin. apply Hn. rewrite <- (take_drop buf bs). apply elem_of_app. by right. }
    rewrite take_app_le, cut_line_None by done. rewrite (proj2 (Nat.leb_le _ _)) by (rewrite length_app; lia).
    rewrite drop_app_le by done. unfold size in *. rewrite length_take, Nat.min_l by done.
    rewrite (proj2 (Z.ltb_ge _ _)) by lia.
    rewrite IH; [|rewrite length_drop; lia|done|unfold size; rewrite length_app, length_take, length_drop; lia].
    rewrite <- (assoc_L (++) line), (assoc_L (++) (take buf bs)), take_drop. done.
  - assert (Hcut : take buf (bs ++ newline :: rest) = bs ++ newline :: take (buf - length bs - 1) rest).
    { rewrite take_app_ge by lia. f_equal. by destruct (buf - length bs)%nat as [|k] eqn:Ek; [lia|]; cbn [take]; rewrite Nat.sub_1_r. }
    rewrite Hcut, cut_line_at by done. unfold size in *. rewrite !length_app. cbn [length].
    rewrite (proj2 (Z.ltb_ge _ _)) by lia.
    replace (bs ++ newline :: rest) with ((bs ++ [newline]) ++ rest) by (by rewrite <- (assoc_L (++))).
    replace (length bs + 1)%nat with (length (bs ++ [newline])) by (by rewrite length_app). by rewrite drop_app_length.
Qed.

Lemma header_go_line line bs rest :
  no_newline bs → size line + size bs ≤ MaxPayload → header_go line (bs ++ newline :: rest) = Ok (line ++ bs ++ [newline], rest).
Proof.
  revert line. induction bs as [|b bs IH]; intros line; [by intros|]. intros [Hb Hbs]%not_elem_of_cons Hs. cbn [header_go app].
  rewrite (proj2 (Z.eqb_neq b newline)) by done. unfold size in *. cbn [length] in Hs.
  rewrite (proj2 (Z.ltb_ge _ _)) by (rewrite length_app; cbn [length]; lia).
  rewrite IH by (done || (unfold size; rewrite length_app; cbn [length]; lia)). by rewrite <- (assoc_L (++)).
Qed.

(** C37: What one end of the wire writes, the other reads, and nothing more. A payload of any length comes back
    whole, in frames of its stream none of which is over the bound, and a message the writer takes comes back as
    its one line, whatever the size of the reader's buffer and whether it is read as a message or as a header; in
    each case what follows on the connection is left for the next read. *)
Theorem wire_roundtrip stream payload encoded sent buf rest :
  no_newline encoded → WriteMessage encoded = Ok sent → (0 < buf)%nat →
  (∃ n frames, read_frames n (WriteFrame stream payload ++ rest) = Ok (frames, rest) ∧
     concat (snd <$> frames) = payload ∧ Forall (λ f, f.1 = stream ∧ size f.2 ≤ MaxPayload) frames) ∧
  readMessage buf (sent ++ rest) = Ok (sent, rest) ∧ ReadHeader (sent ++ rest) = Ok (sent, rest) ∧ sent = encoded ++ [newline].
Proof.
  intros Hn Hw Hb. unfold WriteMessage in Hw. destruct (Z.ltb_spec MaxPayload (size encoded)) as [|Hle]; [done|].
  injection Hw as <-. split_and!; [| | |done].
  - destruct (pieces_spec (S (length payload)) payload ltac:(lia)) as [Hc Hs].
    exists (length (pieces payload)), (pair stream <$> pieces payload). unfold WriteFrame. rewrite write_pieces. split_and!.
    + by apply read_concat.
    + rewrite <- list_fmap_compose. rewrite <- Hc at 2. f_equal. apply list_fmap_id.
    + apply Forall_fmap. eapply Forall_impl; [exact Hs|]. done.
  - unfold readMessage. rewrite <- (assoc_L (++)). cbn [app]. rewrite read_go_line; [done|done| |done|unfold size in *; simpl; lia].
    rewrite length_app. lia.
  - unfold ReadHeader. rewrite <- (assoc_L (++)). cbn [app]. rewrite header_go_line; [done|done|unfold size in *; simpl; lia].
Qed.

Lemma wire_roundtrip_witness :
  WriteMessage [123; 125] = Ok [123; 125; 10] ∧ readMessage 2 ([123; 125; 10] ++ [7]) = Ok ([123; 125; 10], [7]).
Proof.
  split; [vm_compute; reflexivity|].
  refine (proj1 (proj2 (wire_roundtrip 1 [104; 105] [123; 125] [123; 125; 10] 2 [7] _ _ _))).
  - unfold no_newline. intros H. repeat (apply elem_of_cons in H as [H|H]; [discriminate H|]). by apply not_elem_of_nil in H.
  - vm_compute. reflexivity.
  - lia.
Defined.
