(* ===== verification/Store.v ===== *)
(** * Crash-safe file writes

    [pkg/store/atomic.go]. A directory is a map from names to files. [WriteFile] is followed one
    system call at a time: [faults] says which call fails, and the trace lists the directory after
    every call, so a statement about the whole trace covers a crash or a reader at any point. *)

From S2P Require Import Prelude GoStrings.
Local Open Scope Z_scope.

Record file : Type := MkFile { fdata : string; fperm : Z }.

Inductive store_error : Type :=
| ECreateTemp
| EWrite
| EChmod
| ESync
| EClose
| ERename
| ESyncDir.

(** Which call fails. A failed write has landed [fault_write] bytes. *)
Record faults : Type := MkFaults {
  fault_create : bool;
  fault_write : option nat;
  fault_chmod : bool;
  fault_sync : bool;
  fault_close : bool;
  fault_rename : bool;
  fault_remove : bool;
  fault_syncdir : bool
}.

Definition no_faults : faults := MkFaults false None false false false false false false.

(** [writeAndSync]: the states of the temp file, and the refusal when a call fails. *)
Definition writeAndSync (f : faults) (data : string) (perm : Z) : list file * result store_error unit :=
  match fault_write f with
  | Some n => ([MkFile (take_s n data) 384], Err EWrite)
  | None =>
      if fault_chmod f then ([MkFile data 384], Err EChmod)
      else if fault_sync f then ([MkFile data 384; MkFile data perm], Err ESync)
      else ([MkFile data 384; MkFile data perm], Ok tt)
  end.

Definition temp_name (base rand : string) : string := "." +:+ base +:+ ".tmp-" +:+ rand.

(** The deferred [os.Remove] of the temp file, whose own failure nothing reads. *)
Definition cleanup (f : faults) (tmp : string) (d : gmap string file) : gmap string file :=
  if fault_remove f then d else delete tmp d.

Definition WriteFile (f : faults) (rand path data : string) (perm : Z) (d : gmap string file)
  : list (gmap string file) * result store_error unit :=
  let tmp := temp_name path rand in
  if fault_create f then ([d], Err ECreateTemp)
  else
    let d1 := <[tmp := MkFile "" 384]> d in
    let '(files, written) := writeAndSync f data perm in
    let states := d :: d1 :: ((λ x, <[tmp := x]> d) <$> files) in
    let dn := default d1 (last states) in
    match written with
    | Err e => (states ++ [cleanup f tmp dn], Err e)
    | Ok _ =>
        if fault_close f then (states ++ [cleanup f tmp dn], Err EClose)
        else if fault_rename f then (states ++ [cleanup f tmp dn], Err ERename)
        else
          let landed := <[path := MkFile data perm]> (delete tmp d) in
          (states ++ [landed; cleanup f tmp landed], if fault_syncdir f then Err ESyncDir else Ok tt)
    end.

(** [WriteFileIfChanged]: [holds] compares the bytes and the mode first. *)
Definition holds (path data : string) (perm : Z) (d : gmap string file) : bool :=
  match d !! path with
  | Some x => (fperm x =? perm) && String.eqb (fdata x) data
  | None => false
  end.

Definition WriteFileIfChanged (f : faults) (rand path data : string) (perm : Z) (d : gmap string file)
  : list (gmap string file) * result store_error unit :=
  if holds path data perm d then ([d], Ok tt) else WriteFile f rand path data perm d.

(** What a caller of [WriteFile] can be left with: the new file, the old one, or the new one
    with an error, since the rename can land before the directory sync fails. *)
Inductive WriteOutcome : Type := Landed | NotLanded | LandedUnsynced.

Definition wrote (w : WriteOutcome) : bool := match w with NotLanded => false | _ => true end.
Definition write_ok (w : WriteOutcome) : bool := match w with Landed => true | _ => false end.

Definition outcome (f : faults) : WriteOutcome :=
  if fault_create f || bool_decide (fault_write f ≠ None) || fault_chmod f || fault_sync f || fault_close f
     || fault_rename f then NotLanded
  else if fault_syncdir f then LandedUnsynced else Landed.

(** ** Theorems *)

Lemma temp_name_ne path rand : temp_name path rand ≠ path.
Proof.
  intros H. apply (f_equal String.length) in H. unfold temp_name in H.
  rewrite !length_app_s in H. simpl in H. lia.
Qed.

Ltac peel :=
  repeat first [rewrite lookup_insert_eq | rewrite lookup_delete_ne by done | rewrite lookup_insert_ne by done].

(** Every state but the landed ones differs from the start at the temp name alone. *)
Lemma WriteFile_states f rand path data perm d s :
  s ∈ (WriteFile f rand path data perm d).1 →
  (∀ n, n ≠ temp_name path rand → s !! n = d !! n) ∨
  (∀ n, n ≠ temp_name path rand → s !! n = (<[path := MkFile data perm]> d) !! n).
Proof.
  unfold WriteFile, writeAndSync, cleanup. pose proof (temp_name_ne path rand) as Hne.
  remember (temp_name path rand) as tmp eqn:Htmp. clear Htmp.
  repeat case_match; simplify_eq/=; rewrite ?elem_of_cons; intros Hin; destruct_or?; subst;
    try (by apply elem_of_nil in Hin);
    try (left; intros m Hm; by peel);
    right; intros m Hm; destruct (decide (m = path)) as [->|]; by peel.
Qed.

Definition final_state (r : list (gmap string file) * result store_error unit) (d : gmap string file)
  : gmap string file := default d (last r.1).

(** How a write ends: the directory holds the new file exactly when the rename ran, the caller is
    told so exactly when the directory sync ran too, and the temp file is gone. *)
Lemma WriteFile_final f rand path data perm d :
  d !! temp_name path rand = None → fault_remove f = false →
  final_state (WriteFile f rand path data perm d) d
    = (if wrote (outcome f) then <[path := MkFile data perm]> d else d)
  ∧ is_ok (WriteFile f rand path data perm d).2 = write_ok (outcome f).
Proof.
  intros Hfresh Hrm. unfold final_state, WriteFile, writeAndSync, cleanup, outcome. rewrite Hrm.
  pose proof (temp_name_ne path rand) as Hne.
  assert (delete (temp_name path rand) d = d) as Hd by by apply delete_id.
  destruct f as [[] [n|] [] [] [] [] [] []]; simpl in *; try done;
    rewrite ?delete_insert_eq, ?delete_insert_ne, ?Hd by done; split; try done;
    rewrite ?Hd; done.
Qed.

(** C30: [WriteFile] lands the data at the path or leaves what was there: at every point of the write,
    whatever call fails and so wherever a crash cuts it, a reader of the path finds the whole old file
    or the whole new one, every name but the path and the temp file holds what it held, the write
    ends with the new file exactly when the rename ran, and the caller hears success exactly when the
    new file is also synced. *)
Theorem WriteFile_atomic f rand path data perm d :
  d !! temp_name path rand = None →
  let r := WriteFile f rand path data perm d in
  Forall (λ s : gmap string file,
    (s !! path = d !! path ∨ s !! path = Some (MkFile data perm))
    ∧ ∀ n, n ≠ path → n ≠ temp_name path rand → s !! n = d !! n) r.1
  ∧ (fault_remove f = false →
     final_state r d = (if wrote (outcome f) then <[path := MkFile data perm]> d else d)
     ∧ is_ok r.2 = write_ok (outcome f)).
Proof.
  intros Hfresh r. pose proof (temp_name_ne path rand) as Hne. split.
  - apply Forall_forall. intros s [H|H]%WriteFile_states; split.
    + left. by apply H.
    + intros n _ Hn. by apply H.
    + right. rewrite (H path) by done. apply lookup_insert_eq.
    + intros n Hp Hn. rewrite (H n) by done. by apply lookup_insert_ne.
  - by apply WriteFile_final.
Qed.

(** A write over a directory with another file in it, with the directory sync failing. *)
Lemma WriteFile_atomic_witness :
  let d := {[ "a.json" := MkFile "old" 416 ]} in
  let f := MkFaults false None false false false false false true in
  let r := WriteFile f "1" "a.json" "new" 416 d in
  final_state r d !! "a.json" = Some (MkFile "new" 416) ∧ is_ok r.2 = false.
Proof.
  intros d f r.
  destruct (WriteFile_atomic f "1" "a.json" "new" 416 d eq_refl) as [_ H].
  destruct (H eq_refl) as [H1 H2]. fold r in H1, H2. rewrite H1, H2. split; reflexivity.
Defined.
