(* ===== verification/Secret.v ===== *)
(** * The secret store

    [services/secret/secret.go]: names, destinations and placeholders, and the directory of one
    file per secret. A file holds a decoded record, or bytes that are not JSON, or cannot be read;
    [encoding/json] replaces each byte that is not UTF-8, so what a write stores is [json_string] of
    each text. The public suffix list ([golang.org/x/net/publicsuffix]) and the sandboxes that hold a
    grant are parameters. *)

From S2P Require Import Prelude GoStrings Netip Models Store.
Local Open Scope Z_scope.

(** ** JSON text *)

Definition is_cont : ascii → bool := in_range 128 191.

(** The bytes of the valid UTF-8 rune [s] begins with, 0 when it begins with none. *)
Definition rune_len (s : string) : nat :=
  match s with
  | EmptyString => 0%nat
  | String a s1 =>
      if code a <? 128 then 1%nat
      else if in_range 194 223 a then
        match s1 with String b _ => if is_cont b then 2%nat else 0%nat | _ => 0%nat end
      else if in_range 224 239 a then
        match s1 with
        | String b (String c _) =>
            let lo := if code a =? 224 then 160 else 128 in
            let hi := if code a =? 237 then 159 else 191 in
            if in_range lo hi b && is_cont c then 3%nat else 0%nat
        | _ => 0%nat
        end
      else if in_range 240 244 a then
        match s1 with
        | String b (String c (String d _)) =>
            let lo := if code a =? 240 then 144 else 128 in
            let hi := if code a =? 244 then 143 else 191 in
            if in_range lo hi b && is_cont c && is_cont d then 4%nat else 0%nat
        | _ => 0%nat
        end
      else 0%nat
  end.

Definition replacement : string := String "239" (String "191" (String "189" "")).

Fixpoint json_go (skip : nat) (s : string) : string :=
  match s with
  | EmptyString => EmptyString
  | String c s' =>
      match skip with
      | S k => String c (json_go k s')
      | O => match rune_len s with
             | O => replacement +:+ json_go 0 s'
             | S n => String c (json_go n s')
             end
      end
  end.

(** A text after [json.Marshal] and [json.Unmarshal]. *)
Definition json_string (s : string) : string := json_go 0 s.

(** ** Records *)

Record Secret : Type := MkSecret {
  SecName : string;
  SecDestinations : list string;
  SecPlaceholder : string;
  SecUpdatedAt : Z
}.

Record record : Type := MkRecord {
  RecValue : string;
  RecDestinations : list string;
  RecPlaceholder : string;
  RecUpdatedAt : Z
}.

Definition record_zero : record := MkRecord "" [] "" 0.

Definition public (r : record) (name : string) : Secret :=
  MkSecret name (RecDestinations r) (RecPlaceholder r) (RecUpdatedAt r).

Inductive entry : Type :=
| EntryDir
| EntryUnreadable
| EntryNotJSON
| EntryRecord (r : record).

Inductive destination_error : Type :=
| EDestEmpty
| EDestNotHost
| EDestAddress
| EDestLong
| EDestNoDot
| EDestInnerStar
| EDestLabel
| EDestStarPastFirst
| EDestPublicSuffix.

Inductive name_error : Type := ENameEmpty | ENameLong | ENameShape.

Inductive error : Type :=
| ErrNotFound (name : string)
| EBadName (e : name_error)
| EEmptyValue
| ENulValue
| EPlaceholderInValue
| EValueInPlaceholder
| EPlaceholderShort
| EPlaceholderCharset
| EPlaceholderTaken (other : string)
| ECannotTellPlaceholders
| ECannotTellHolders
| EHoldersUnreadable
| EHeld (holders : list string) (removed : bool)
| ENoDestination
| EBadDestination (position : nat) (e : destination_error)
| EReadSecret
| EDecodeSecret
| EWriteSecret
| ERemoveSecret.

Definition maxChars : nat := 128.
Definition minPlaceholder : nat := 8.

(** ** Names *)

Definition DefaultPlaceholder (name : string) : string := "mock-" +:+ name.

Definition env_head (c : ascii) : bool := is_upper c || Ascii.eqb c "_".
Definition env_tail (c : ascii) : bool := env_head c || is_digit c.
Definition nameShape (s : string) : bool :=
  match s with EmptyString => false | String c rest => env_head c && all_chars env_tail rest end.

Definition ValidName (name : string) : result name_error unit :=
  if String.eqb name "" then Err ENameEmpty
  else if (maxChars <? String.length name)%nat then Err ENameLong
  else if negb (nameShape name) then Err ENameShape
  else Ok tt.

(** ** Destinations *)

Definition label_char (c : ascii) : bool := is_lower c || is_digit c.
Definition label_mid (c : ascii) : bool := label_char c || Ascii.eqb c "-".

(** The last byte of a string that is not empty. *)
Fixpoint last_char (c : ascii) (s : string) : ascii :=
  match s with EmptyString => c | String d s => last_char d s end.

(** [labelShape]: a letter or digit at both ends, and dashes inside. *)
Definition labelShape (s : string) : bool :=
  match s with
  | EmptyString => false
  | String c rest => label_char c && all_chars label_mid rest && label_char (last_char c rest)
  end.

Section Destinations.
Context `{U : Unicode}.

Definition CanonicalHost (host : string) : string := ToLower (TrimSuffix host ".").

Definition check_label (label : string) : result destination_error unit :=
  if String.eqb label "*" then Ok tt
  else if Contains label "*" then Err EDestInnerStar
  else if negb (labelShape label) then Err EDestLabel
  else Ok tt.

Definition validDestination (dest : string) : result destination_error string :=
  let canonical := CanonicalHost dest in
  if String.eqb canonical "" then Err EDestEmpty
  else if ContainsAny canonical "/:" then Err EDestNotHost
  else if bool_decide (is_Some (ParseAddr canonical)) then Err EDestAddress
  else if (253 <? String.length canonical)%nat then Err EDestLong
  else
    let labels := Split "." canonical in
    if (length labels <? 2)%nat then Err EDestNoDot
    else match first_err check_label labels with
         | Err e => Err e
         | Ok _ => Ok canonical
         end.

Definition ValidDestination (dest : string) : result destination_error string := validDestination dest.

(** [publicsuffix.EffectiveTLDPlusOne]: the registrable domain of a name, or nothing for a public suffix. *)
Context (EffectiveTLDPlusOne : string → option string).

Definition validSecretDestination (dest : string) : result destination_error string :=
  match validDestination dest with
  | Err e => Err e
  | Ok canonical =>
      let labels := Split "." canonical in
      if contains (drop 1 labels) "*" then Err EDestStarPastFirst
      else if negb (bool_decide (head labels = Some "*")) then Ok canonical
      else match EffectiveTLDPlusOne (Join "." (drop 1 labels)) with
           | None => Err EDestPublicSuffix
           | Some _ => Ok canonical
           end
  end.

(** ** The directory *)

Definition read (dir : gmap string entry) (name : string) : result error record :=
  match ValidName name with
  | Err e => Err (EBadName e)
  | Ok _ =>
      match dir !! name with
      | None => Err (ErrNotFound name)
      | Some EntryDir | Some EntryUnreadable => Err EReadSecret
      | Some EntryNotJSON => Err EDecodeSecret
      | Some (EntryRecord rec) =>
          Ok (MkRecord (RecValue rec)
                (filter (λ d, is_ok (validSecretDestination d) = true) (RecDestinations rec))
                (RecPlaceholder rec) (RecUpdatedAt rec))
      end
  end.

Definition Get (dir : gmap string entry) (name : string) : result error Secret :=
  rec ← read dir name; Ok (public rec name).

Definition Value (dir : gmap string entry) (name : string) : result error string :=
  rec ← read dir name; Ok (RecValue rec).

(** [List] walks the directory in name order; the second part names the files it could not read. *)
Definition sorted_names {A} (dir : gmap string A) : list string := merge_sort String.le (elements (dom dir)).

Definition is_secret_entry (dir : gmap string entry) (name : string) : bool :=
  match dir !! name with
  | Some EntryDir => false
  | Some _ => is_ok (ValidName name)
  | None => false
  end.

Fixpoint list_go (dir : gmap string entry) (names : list string) : list Secret * list string :=
  match names with
  | [] => ([], [])
  | name :: names =>
      let '(secrets, errs) := list_go dir names in
      if negb (is_secret_entry dir name) then (secrets, errs)
      else match read dir name with
           | Err _ => (secrets, name :: errs)
           | Ok rec => (public rec name :: secrets, errs)
           end
  end.

Definition List (dir : gmap string entry) : list Secret * list string := list_go dir (sorted_names dir).

(** ** Placeholders *)

Definition placeholder_char (c : ascii) : bool :=
  is_upper c || is_lower c || is_digit c || Ascii.eqb c "_" || Ascii.eqb c "." || Ascii.eqb c "-".

Definition shapedPlaceholder (chosen : string) : result error unit :=
  if (String.length chosen <? minPlaceholder)%nat then Err EPlaceholderShort
  else if String.eqb chosen "" || negb (all_chars placeholder_char chosen) then Err EPlaceholderCharset
  else Ok tt.

Fixpoint taken_by (name chosen : string) (stored : list Secret) : option string :=
  match stored with
  | [] => None
  | other :: stored =>
      if String.eqb (SecName other) name then taken_by name chosen stored
      else if String.eqb chosen (SecPlaceholder other) || String.eqb chosen (DefaultPlaceholder (SecName other))
      then Some (SecName other)
      else taken_by name chosen stored
  end.

Definition freePlaceholder (dir : gmap string entry) (name chosen : string) : result error unit :=
  let '(stored, errs) := List dir in
  match errs with
  | _ :: _ => Err ECannotTellPlaceholders
  | [] => match taken_by name chosen stored with
          | Some other => Err (EPlaceholderTaken other)
          | None => Ok tt
          end
  end.

(** Who holds a grant on a secret; [None] is a list that could not be read. *)
Abbreviation Holders := (string → option (list string)).

Definition placeholderMoved (holders : option Holders) (name : string) (removed : bool) : result error unit :=
  match holders with
  | None => Err ECannotTellHolders
  | Some h => match h name with
              | None => Err EHoldersUnreadable
              | Some [] => Ok tt
              | Some hs => Err (EHeld hs removed)
              end
  end.

Definition chosen_placeholder (name chosen : string) (existing : record) : string :=
  let chosen := if String.eqb chosen "" then RecPlaceholder existing else chosen in
  if String.eqb chosen "" then DefaultPlaceholder name else chosen.

Definition placeholder (holders : option Holders) (dir : gmap string entry)
    (name value named : string) (existing : record) : result error string :=
  let chosen := chosen_placeholder name named existing in
  if Contains value chosen then Err EPlaceholderInValue
  else if Contains chosen value then Err EValueInPlaceholder
  else match (if negb (String.eqb named "") && negb (String.eqb named (DefaultPlaceholder name))
              then shapedPlaceholder named else Ok tt) with
       | Err e => Err e
       | Ok _ =>
           match freePlaceholder dir name chosen with
           | Err e => Err e
           | Ok _ =>
               let moved := negb (String.eqb (RecPlaceholder existing) "")
                            && negb (String.eqb chosen (RecPlaceholder existing)) in
               let removed := String.eqb (RecPlaceholder existing) "" && bool_decide (holders ≠ None) in
               if moved || removed then
                 match placeholderMoved holders name removed with
                 | Err e => Err e
                 | Ok _ => Ok chosen
                 end
               else Ok chosen
           end
       end.

(** The loop over the destinations of a set: each canonical, and each once. *)
Fixpoint bind_destinations (i : nat) (bound dests : list string) : result error (list string) :=
  match dests with
  | [] => Ok bound
  | dest :: dests =>
      match validSecretDestination dest with
      | Err e => Err (EBadDestination i e)
      | Ok canonical => bind_destinations (S i) (if contains bound canonical then bound else bound ++ [canonical]) dests
      end
  end.

Definition store_record (rec : record) : record :=
  MkRecord (json_string (RecValue rec)) (json_string <$> RecDestinations rec)
    (json_string (RecPlaceholder rec)) (RecUpdatedAt rec).

Definition Set_ (holders : option Holders) (now : Z) (w : WriteOutcome) (dir : gmap string entry)
    (name value : string) (destinations : list string) (named : string)
  : gmap string entry * result error Secret :=
  match ValidName name with
  | Err e => (dir, Err (EBadName e))
  | Ok _ =>
      if String.eqb value "" then (dir, Err EEmptyValue)
      else if contains_char "000" value then (dir, Err ENulValue)
      else
        match (match read dir name with Err (ErrNotFound _) => Ok record_zero | r => r end) with
        | Err e => (dir, Err e)
        | Ok existing =>
            match placeholder holders dir name value named existing with
            | Err e => (dir, Err e)
            | Ok chosen =>
                let destinations := match destinations with [] => RecDestinations existing | _ => destinations end in
                match destinations with
                | [] => (dir, Err ENoDestination)
                | _ =>
                    match bind_destinations 1 [] destinations with
                    | Err e => (dir, Err e)
                    | Ok bound =>
                        let rec := MkRecord value bound chosen now in
                        let dir' := if wrote w then <[name := EntryRecord (store_record rec)]> dir else dir in
                        (dir', if write_ok w then Ok (public rec name) else Err EWriteSecret)
                    end
                end
            end
        end
  end.

(** [Remove]: a name the store does not hold is already removed; [removed] and [synced] say whether the
    unlink and the directory sync went through. *)
Definition Remove (removed synced : bool) (dir : gmap string entry) (name : string)
  : gmap string entry * result error unit :=
  match ValidName name with
  | Err e => (dir, Err (EBadName e))
  | Ok _ =>
      if bool_decide (is_Some (dir !! name)) && negb removed then (dir, Err ERemoveSecret)
      else (delete name dir, if synced then Ok tt else Err ERemoveSecret)
  end.

End Destinations.

(** * Lemmas *)

(** ** Canonical hosts *)

(** The bytes a canonical destination is made of. *)
Definition host_char (c : ascii) : bool := label_mid c || Ascii.eqb c "*" || Ascii.eqb c ".".

Lemma host_char_lower c : host_char c = true → is_ascii c = true ∧ lower_char c = c.
Proof. by destruct c as [[] [] [] [] [] [] [] []]. Qed.

Lemma label_mid_host c : label_mid c = true → host_char c = true.
Proof. unfold host_char. by intros ->. Qed.

Lemma label_char_mid c : label_char c = true → label_mid c = true.
Proof. unfold label_mid. by intros ->. Qed.

Lemma labelShape_chars s : labelShape s = true → all_chars label_mid s = true ∧ s ≠ "".
Proof.
  destruct s as [|c s]; [done|]. simpl. intros H. breflect.
  rewrite label_char_mid by done. done.
Qed.

Lemma check_label_host l : check_label l = Ok tt → all_chars host_char l = true ∧ l ≠ "".
Proof.
  unfold check_label. intros H. case_guards H.
  - apply String.eqb_eq in Heqb as ->. done.
  - breflect. apply labelShape_chars in Heqb1 as [Hc Hne]. split; [|done].
    eapply all_chars_impl; [apply label_mid_host|done].
Qed.

Lemma all_chars_Join p sep ws :
  all_chars p sep = true → Forall (λ w, all_chars p w = true) ws → all_chars p (Join sep ws) = true.
Proof.
  intros Hsep. induction 1 as [|w ws Hw Hws IH]; [done|]. destruct ws as [|w' ws]; [done|].
  rewrite Join_cons, !all_chars_app, Hw, Hsep, IH. done.
Qed.

Lemma map_chars_id f s : all_chars (λ c, Ascii.eqb (f c) c) s = true → map_chars f s = s.
Proof. induction s as [|c s IH]; simpl; [done|]. intros H. breflect. apply Ascii.eqb_eq in H. by rewrite H, IH. Qed.

Section Canonical.
Context `{U : Unicode}.

(** A name made of canonical labels is its own canonical spelling. *)
Lemma CanonicalHost_id s :
  Forall (λ l, check_label l = Ok tt) (Split "." s) → CanonicalHost s = s ∧ all_chars host_char s = true.
Proof.
  intros Hl.
  assert (Hc : all_chars host_char s = true).
  { rewrite <- (Join_Split "." s). apply all_chars_Join; [done|].
    eapply Forall_impl; [exact Hl|]. intros l H. by apply check_label_host. }
  assert (Hs : HasSuffix s "." = false).
  { apply not_true_iff_false. intros H. apply (HasSuffix_Split "." s "") in H as (ws & _ & H).
    rewrite H in Hl. apply Forall_app in Hl as [_ Hl]. apply Forall_cons in Hl as [Hl _].
    by apply check_label_host in Hl as [_ []]. }
  split; [|done]. unfold CanonicalHost. rewrite (TrimSuffix_none _ _ Hs). unfold ToLower.
  rewrite (all_chars_impl host_char is_ascii) by (done || apply host_char_lower).
  apply map_chars_id. eapply all_chars_impl; [|exact Hc]. intros c H.
  apply host_char_lower in H as [_ ->]. apply Ascii.eqb_refl.
Qed.

Lemma validDestination_labels dest c :
  validDestination dest = Ok c →
  c = CanonicalHost dest ∧ Forall (λ l, check_label l = Ok tt) (Split "." c) ∧
  (2 ≤ length (Split "." c))%nat ∧ (String.length c ≤ 253)%nat ∧ ParseAddr c = None ∧ ContainsAny c "/:" = false.
Proof.
  unfold validDestination. set (c' := CanonicalHost dest).
  destruct (String.eqb c' "") eqn:E1; [done|]. destruct (ContainsAny c' "/:") eqn:E2; [done|].
  destruct (bool_decide _) eqn:E3; [done|]. destruct (253 <? _)%nat eqn:E4; [done|].
  destruct (length _ <? 2)%nat eqn:E5; [done|]. destruct (first_err _ _) as [[]|] eqn:E6; [|done].
  intros [= <-]. breflect. split_and!; try done.
  - by apply first_err_Ok.
  - by apply eq_None_not_Some.
Qed.

(** A canonical destination is accepted as it is. *)
Lemma validDestination_idempotent dest c : validDestination dest = Ok c → validDestination c = Ok c.
Proof.
  intros H. pose proof H as H'. apply validDestination_labels in H' as (Hc & Hl & _).
  destruct (CanonicalHost_id c Hl) as [Hid _].
  unfold validDestination in *. rewrite Hid. by rewrite <- Hc in H.
Qed.

End Canonical.

(** ** JSON text *)

Lemma json_string_ascii s : all_chars is_ascii s = true → json_string s = s.
Proof.
  unfold json_string. induction s as [|c s IH]; [done|]. cbn [all_chars]. intros H. breflect.
  cbn [json_go]. assert (rune_len (String c s) = 1%nat) as ->.
  { simpl. unfold is_ascii in H. by rewrite H. }
  by rewrite IH.
Qed.

Lemma env_tail_ascii c : env_tail c = true → is_ascii c = true.
Proof. by destruct c as [[] [] [] [] [] [] [] []]. Qed.
Lemma env_head_ascii c : env_head c = true → is_ascii c = true.
Proof. intros H. apply env_tail_ascii. unfold env_tail. by rewrite H. Qed.
Lemma placeholder_char_ascii c : placeholder_char c = true → is_ascii c = true.
Proof. by destruct c as [[] [] [] [] [] [] [] []]. Qed.

Lemma ValidName_ascii name : ValidName name = Ok tt → all_chars is_ascii name = true.
Proof.
  unfold ValidName, nameShape. intros H. case_guards H. breflect. destruct name as [|c r]; [done|]. breflect.
  cbn [all_chars]. rewrite env_head_ascii by done.
  eapply all_chars_impl; [apply env_tail_ascii|done].
Qed.

Lemma DefaultPlaceholder_ascii name : ValidName name = Ok tt → all_chars is_ascii (DefaultPlaceholder name) = true.
Proof. intros H. unfold DefaultPlaceholder. rewrite all_chars_app, (ValidName_ascii name) by done. done. Qed.

Section StoreFacts.
Context `{U : Unicode} (EffectiveTLDPlusOne : string → option string).
Abbreviation read := (read EffectiveTLDPlusOne).
Abbreviation List := (List EffectiveTLDPlusOne).
Abbreviation Set_ := (Set_ EffectiveTLDPlusOne).

Lemma sorted_names_spec {A} (dir : gmap string A) name : name ∈ sorted_names dir ↔ is_Some (dir !! name).
Proof.
  unfold sorted_names. rewrite merge_sort_Permutation, elem_of_elements. apply elem_of_dom.
Qed.

Lemma read_Ok dir name rec :
  read dir name = Ok rec ↔
  ValidName name = Ok tt ∧
  ∃ raw, dir !! name = Some (EntryRecord raw) ∧
    rec = MkRecord (RecValue raw)
            (filter (λ d, is_ok (validSecretDestination EffectiveTLDPlusOne d) = true) (RecDestinations raw))
            (RecPlaceholder raw) (RecUpdatedAt raw).
Proof.
  unfold Secret.read. destruct (ValidName name) as [[]|e]; [|naive_solver].
  destruct (dir !! name) as [[]|]; naive_solver.
Qed.

Lemma list_go_elem dir names s :
  s ∈ (list_go EffectiveTLDPlusOne dir names).1 ↔
  ∃ name rec, name ∈ names ∧ read dir name = Ok rec ∧ s = public rec name.
Proof.
  induction names as [|n names IH].
  - simpl. split; [set_solver|]. intros (? & ? & ? & _). set_solver.
  - assert (s ∈ (list_go EffectiveTLDPlusOne dir (n :: names)).1 ↔
            (∃ rec, read dir n = Ok rec ∧ s = public rec n) ∨ s ∈ (list_go EffectiveTLDPlusOne dir names).1) as ->.
    { cbn [list_go]. destruct (list_go _ dir names) as [secrets errs]. cbn [fst].
      destruct (is_secret_entry dir n) eqn:Hn; cbn [negb].
      - destruct (read dir n) as [rec|e]; cbn [fst]; rewrite ?elem_of_cons; naive_solver.
      - split; [auto|]. intros [(rec & (Hv & raw & Hd & _)%read_Ok & _)|]; [|done].
        unfold is_secret_entry in Hn. by rewrite Hd, Hv in Hn. }
    rewrite IH. setoid_rewrite elem_of_cons. naive_solver.
Qed.

Lemma List_elem dir s : s ∈ (List dir).1 ↔ ∃ name rec, read dir name = Ok rec ∧ s = public rec name.
Proof.
  unfold Secret.List. rewrite list_go_elem. split; [naive_solver|].
  intros (name & rec & Hr & ->). exists name, rec. split_and!; try done.
  apply sorted_names_spec. apply read_Ok in Hr as (_ & raw & Hd & _). eauto.
Qed.

Lemma taken_by_None name chosen stored s :
  taken_by name chosen stored = None → s ∈ stored → SecName s ≠ name →
  chosen ≠ SecPlaceholder s ∧ chosen ≠ DefaultPlaceholder (SecName s).
Proof.
  induction stored as [|o stored IH]; [set_solver|]. cbn [taken_by]. intros H Hs Hne.
  apply elem_of_cons in Hs as [->|Hs].
  - rewrite (proj2 (String.eqb_neq _ _)) in H by done. case_guards H. breflect.
    split; by apply String.eqb_neq.
  - case_guards H; auto.
Qed.

(** A free placeholder is neither the placeholder nor the default of any other secret. *)
Lemma freePlaceholder_Ok dir name chosen other rec :
  freePlaceholder EffectiveTLDPlusOne dir name chosen = Ok tt →
  read dir other = Ok rec → other ≠ name →
  chosen ≠ RecPlaceholder rec ∧ chosen ≠ DefaultPlaceholder other.
Proof.
  unfold freePlaceholder. intros H Hr Hne.
  pose proof (proj2 (List_elem dir (public rec other))) as Hin.
  destruct (List dir) as [stored [|]]; simpl in *; [|done].
  destruct (taken_by name chosen stored) eqn:Ht; [done|].
  apply (taken_by_None _ _ _ _ Ht) in Hin; [done|by eauto|done].
Qed.

Lemma placeholder_Ok holders dir name value named existing chosen :
  placeholder EffectiveTLDPlusOne holders dir name value named existing = Ok chosen →
  chosen = chosen_placeholder name named existing ∧ Contains value chosen = false ∧
  Contains chosen value = false ∧ freePlaceholder EffectiveTLDPlusOne dir name chosen = Ok tt ∧
  (named = "" ∨ named = DefaultPlaceholder name ∨ all_chars placeholder_char named = true).
Proof.
  unfold placeholder. set (ch := chosen_placeholder name named existing).
  destruct (Contains value ch) eqn:E1; [done|]. destruct (Contains ch value) eqn:E2; [done|].
  destruct (if _ && _ then _ else _) as [[]|] eqn:E3; [|done].
  destruct (freePlaceholder _ dir name ch) as [[]|] eqn:E4; [|done].
  intros H. assert (chosen = ch) as ->.
  { case_guards H; congruence. }
  split_and!; try done. clear H.
  destruct (String.eqb_spec named "") as [|H1]; [auto|].
  destruct (String.eqb_spec named (DefaultPlaceholder name)) as [|H2]; [auto|]. simpl in E3.
  right; right. unfold shapedPlaceholder in E3. case_guards E3. breflect. done.
Qed.

(** What a set that went through wrote. *)
Lemma Set_landed holders now w dir name value dests named dir' r :
  Set_ holders now w dir name value dests named = (dir', r) →
  (dir' = dir ∧ is_ok r = false) ∨
  ∃ existing chosen bound,
    ValidName name = Ok tt ∧ value ≠ "" ∧ contains_char "000" value = false ∧
    (read dir name = Ok existing ∨ (dir !! name = None ∧ existing = record_zero)) ∧
    placeholder EffectiveTLDPlusOne holders dir name value named existing = Ok chosen ∧
    bind_destinations EffectiveTLDPlusOne 1 []
      match dests with [] => RecDestinations existing | _ => dests end = Ok bound ∧
    bound ≠ [] ∧ wrote w = true ∧
    dir' = <[name := EntryRecord (store_record (MkRecord value bound chosen now))]> dir ∧
    r = if write_ok w then Ok (public (MkRecord value bound chosen now) name) else Err EWriteSecret.
Proof.
  unfold Secret.Set_. destruct (ValidName name) as [[]|] eqn:Hn; [|intros [= <- <-]; auto].
  destruct (String.eqb_spec value "") as [|Hv]; [intros [= <- <-]; auto|].
  destruct (contains_char "000" value) eqn:Hz; [intros [= <- <-]; auto|].
  destruct (match read dir name with Err (ErrNotFound _) => Ok record_zero | r0 => r0 end)
    as [existing|] eqn:He; [|intros [= <- <-]; auto].
  destruct (placeholder _ holders dir name value named existing) as [chosen|] eqn:Hp; [|intros [= <- <-]; auto].
  remember (match dests with [] => RecDestinations existing | _ => dests end) as ds eqn:Hds.
  destruct (bind_destinations _ 1 [] ds) as [bound|] eqn:Hb; [|destruct ds; intros [= <- <-]; auto].
  destruct ds as [|d0 ds']; [intros [= <- <-]; auto|].
  destruct (wrote w) eqn:Hw; [|intros [= <- <-]; left; by destruct w].
  intros [= <- <-]. right. exists existing, chosen, bound. split_and!; try done.
  - destruct (read dir name) as [r0|e0] eqn:Hr; [left; congruence|right].
    unfold Secret.read in Hr. rewrite Hn in Hr.
    destruct (dir !! name) as [[]|]; simplify_eq; done.
  - by rewrite <- Hds.
  - intros ->. simpl in Hb. destruct (validSecretDestination _ d0) as [c|]; [|done].
    enough (Hin : ∀ i b l, b ≠ [] → bind_destinations EffectiveTLDPlusOne i b l ≠ Ok []) by (by apply Hin in Hb).
    clear. intros i b l. revert i b. induction l as [|d l IH]; intros i b Hb; simpl; [congruence|].
    destruct (validSecretDestination _ d); [|done]. apply IH. destruct (contains b a); [done|by destruct b].
Qed.

(** Each bound destination is one the proxy may send the value to. *)
Lemma bind_destinations_valid i b l bound :
  bind_destinations EffectiveTLDPlusOne i b l = Ok bound →
  Forall (λ d, ∃ d0, validSecretDestination EffectiveTLDPlusOne d0 = Ok d) b →
  Forall (λ d, ∃ d0, validSecretDestination EffectiveTLDPlusOne d0 = Ok d) bound.
Proof.
  revert i b. induction l as [|d l IH]; intros i b H Hb; simpl in H; [congruence|].
  destruct (validSecretDestination _ d) as [c|] eqn:Hc; [|done].
  eapply IH; [exact H|]. case_match; [done|]. apply Forall_app. split; [done|]. by repeat constructor; eauto.
Qed.

Lemma validSecretDestination_canonical d0 d :
  validSecretDestination EffectiveTLDPlusOne d0 = Ok d →
  validSecretDestination EffectiveTLDPlusOne d = Ok d ∧ all_chars is_ascii d = true.
Proof.
  unfold validSecretDestination. destruct (validDestination d0) as [c|] eqn:Hd; [|done]. intros H.
  assert (c = d) as -> by (case_guards H; congruence).
  rewrite (validDestination_idempotent _ _ Hd). split; [done|].
  apply validDestination_labels in Hd as (_ & Hl & _). apply CanonicalHost_id in Hl as [_ Hc].
  eapply all_chars_impl; [|exact Hc]. intros x Hx. by apply host_char_lower.
Qed.

(** What a set stored is what a read answers. *)
Lemma read_stored value bound chosen now :
  Forall (λ d, ∃ d0, validSecretDestination EffectiveTLDPlusOne d0 = Ok d) bound →
  filter (λ d, is_ok (validSecretDestination EffectiveTLDPlusOne d) = true)
    (RecDestinations (store_record (MkRecord value bound chosen now))) = bound.
Proof.
  intros H. simpl. rewrite fmap_id_Forall.
  - apply filter_Forall. eapply Forall_impl; [exact H|]. intros d [d0 Hd].
    apply validSecretDestination_canonical in Hd as [-> _]. done.
  - eapply Forall_impl; [exact H|]. intros d [d0 Hd].
    apply json_string_ascii. by apply validSecretDestination_canonical in Hd as [_ ->].
Qed.

(** ** The invariant of the store

    A placeholder stands in for one secret: no two secrets share one, and none is spelled with
    bytes an encoder rewrites. *)
Record store_ok (dir : gmap string entry) : Prop := {
  ok_ascii name raw : dir !! name = Some (EntryRecord raw) → all_chars is_ascii (RecPlaceholder raw) = true;
  ok_distinct n1 n2 r1 r2 :
    n1 ≠ n2 → read dir n1 = Ok r1 → read dir n2 = Ok r2 → RecPlaceholder r1 ≠ RecPlaceholder r2
}.

Lemma chosen_ascii dir name value named existing holders chosen :
  store_ok dir → ValidName name = Ok tt →
  (read dir name = Ok existing ∨ (dir !! name = None ∧ existing = record_zero)) →
  placeholder EffectiveTLDPlusOne holders dir name value named existing = Ok chosen →
  all_chars is_ascii chosen = true.
Proof.
  intros Hok Hn Hex (-> & _ & _ & _ & Hnamed)%placeholder_Ok.
  assert (Hdef := DefaultPlaceholder_ascii name Hn). unfold chosen_placeholder. cbv zeta.
  destruct (String.eqb_spec named "") as [->|Hne].
  - cbv iota. destruct (String.eqb_spec (RecPlaceholder existing) "") as [_|_]; [done|].
    destruct Hex as [(_ & raw & Hd & ->)%read_Ok|[_ ->]]; [|done]. simpl. by eapply (ok_ascii _ Hok).
  - rewrite (proj2 (String.eqb_neq _ _)) by done. destruct Hnamed as [->|[->|Hc]]; try done.
    eapply all_chars_impl; [apply placeholder_char_ascii|done].
Qed.

Lemma read_insert dir name other raw :
  read (<[name := EntryRecord raw]> dir) other =
  if decide (other = name) then
    match ValidName name with
    | Err e => Err (EBadName e)
    | Ok _ => Ok (MkRecord (RecValue raw)
                   (filter (λ d, is_ok (validSecretDestination EffectiveTLDPlusOne d) = true) (RecDestinations raw))
                   (RecPlaceholder raw) (RecUpdatedAt raw))
    end
  else read dir other.
Proof.
  case_decide as E; unfold Secret.read.
  - subst. by rewrite lookup_insert_eq.
  - by rewrite lookup_insert_ne by done.
Qed.

(** Setting a secret keeps the store's invariant: whatever is set, rotated or refused, no two
    secrets share a placeholder and every stored placeholder is plain ASCII, so the proxy never has to
    choose between two values for one placeholder. *)
Theorem Set_preserves_store_ok holders now w dir name value dests named dir' r :
  store_ok dir → Set_ holders now w dir name value dests named = (dir', r) → store_ok dir'.
Proof.
  intros Hok [[-> _]|(existing & chosen & bound & Hn & _ & _ & Hex & Hp & _ & _ & _ & -> & _)]%Set_landed; [done|].
  assert (Hc := chosen_ascii _ _ _ _ _ _ _ Hok Hn Hex Hp).
  apply placeholder_Ok in Hp as (_ & _ & _ & Hfree & _).
  split.
  - intros n raw. destruct (decide (n = name)) as [->|].
    + rewrite lookup_insert_eq. intros [= <-]. simpl. by rewrite json_string_ascii.
    + rewrite lookup_insert_ne by done. apply (ok_ascii _ Hok).
  - intros n1 n2 r1 r2 Hne. rewrite !read_insert, Hn.
    repeat case_decide; subst; try done; intros H1 H2; simplify_eq/=; rewrite ?json_string_ascii by done.
    + by eapply freePlaceholder_Ok.
    + apply not_eq_sym. by eapply freePlaceholder_Ok.
    + exact (ok_distinct _ Hok _ _ _ _ Hne H1 H2).
Qed.

(** A set that answers success stored the secret: a read answers its name, its placeholder and
    exactly the canonical destinations the set bound, at least one of them; the value reads back as
    JSON keeps it, which is the value itself when it is ASCII; the placeholder and the value never
    contain each other, so a guest that sees one has not seen the other; and every other name reads as
    it did before. *)
Theorem Set_then_Get holders now w dir name value dests named dir' sec :
  store_ok dir → Set_ holders now w dir name value dests named = (dir', Ok sec) →
  Get EffectiveTLDPlusOne dir' name = Ok sec
  ∧ Value EffectiveTLDPlusOne dir' name = Ok (json_string value)
  ∧ (all_chars is_ascii value = true → Value EffectiveTLDPlusOne dir' name = Ok value)
  ∧ SecDestinations sec ≠ []
  ∧ Contains value (SecPlaceholder sec) = false ∧ Contains (SecPlaceholder sec) value = false
  ∧ ∀ other, other ≠ name → read dir' other = read dir other.
Proof.
  intros Hok [[_ H]|(existing & chosen & bound & Hn & _ & _ & Hex & Hp & Hb & Hne & _ & -> & Hr)]%Set_landed; [done|].
  assert (Hc := chosen_ascii _ _ _ _ _ _ _ Hok Hn Hex Hp).
  apply placeholder_Ok in Hp as (_ & Hv1 & Hv2 & _ & _).
  apply bind_destinations_valid in Hb; [|constructor].
  destruct (write_ok w); [|done]. injection Hr as ->.
  assert (Hread : read (<[name:=EntryRecord (store_record (MkRecord value bound chosen now))]> dir) name
                  = Ok (MkRecord (json_string value) bound chosen now)).
  { rewrite read_insert, decide_True, Hn by done. rewrite read_stored by done. simpl.
    by rewrite (json_string_ascii chosen). }
  unfold Get, Value. rewrite Hread. split_and!; try done.
  - intros Ha. simpl. by rewrite json_string_ascii.
  - intros other Hother. by rewrite read_insert, decide_False by done.
Qed.
End StoreFacts.

(** ** A concrete store *)

#[local] Instance ascii_only : Unicode := { unicode_lower := λ s, s; unicode_lower_star := λ s H, H }.
Definition no_suffixes : string → option string := Some.

Lemma empty_store_ok : store_ok no_suffixes ∅.
Proof.
  split; [intros ? ?; by rewrite lookup_empty|].
  intros n1 n2 r1 r2 _ (_ & raw & H & _)%read_Ok. by rewrite lookup_empty in H.
Qed.

(** The value of [GITHUB_TOKEN] granted to [api.github.com]: the README's example. *)
Definition sample_set := Set_ no_suffixes None 7 Landed ∅ "GITHUB_TOKEN" "ghp_abc" ["API.github.com."] "".

Lemma Set_preserves_store_ok_witness : store_ok no_suffixes sample_set.1.
Proof.
  apply (Set_preserves_store_ok no_suffixes None 7 Landed ∅ "GITHUB_TOKEN" "ghp_abc" ["API.github.com."] ""
           sample_set.1 sample_set.2 empty_store_ok).
  reflexivity.
Defined.

Lemma Set_then_Get_witness :
  Get no_suffixes sample_set.1 "GITHUB_TOKEN"
    = Ok (MkSecret "GITHUB_TOKEN" ["api.github.com"] "mock-GITHUB_TOKEN" 7).
Proof.
  apply (Set_then_Get no_suffixes None 7 Landed ∅ "GITHUB_TOKEN" "ghp_abc" ["API.github.com."] ""
           sample_set.1 _ empty_store_ok).
  vm_compute. reflexivity.
Defined.
