(* ===== verification/Repository.v ===== *)
(** * The sandbox repository

    [services/sandboxstate/sandboxstate.go] and [names.go]: one directory per sandbox with its record in it, a
    directory of name links, a directory of checkpoints, and in memory the generation a reader caches by. An
    operation is followed one visible change at a time: it answers the states it went through, so a statement
    about all of them covers a crash and a lock-free reader at any point. Which system call fails is an
    argument of each operation. *)

From S2P Require Import Prelude Ops GoStrings Netip Models Records Store Secret SandboxID.
Local Open Scope Z_scope.

(** ** The disk *)

Inductive record_file : Type :=
| RecordUnreadable
| RecordGarbled
| RecordOf (sb : Sandbox).

(** An entry of the sandboxes directory: a file, or a directory that may hold a record. *)
Inductive entry : Type :=
| EntryFile
| EntryDir (record : option record_file).

Inductive link : Type :=
| Link (target : string)
| NotLink
| LinkUnreadable.

Record repo : Type := MkRepo {
  dirs : gmap string entry;
  links : gmap string link;
  checkpoints : gset string;
  gen : Z
}.

Definition set_dirs (f : gmap string entry → gmap string entry) (r : repo) : repo :=
  MkRepo (f (dirs r)) (links r) (checkpoints r) (gen r).
Definition set_links (f : gmap string link → gmap string link) (r : repo) : repo :=
  MkRepo (dirs r) (f (links r)) (checkpoints r) (gen r).
Definition set_checkpoints (f : gset string → gset string) (r : repo) : repo :=
  MkRepo (dirs r) (links r) (f (checkpoints r)) (gen r).
Definition bump (r : repo) : repo := MkRepo (dirs r) (links r) (checkpoints r) (gen r + 1).

Inductive repo_error : Type :=
| ENotFound
| ESpelling (e : spelling_error)
| ERead
| EDecode
| ECarriesID
| EUnknownState
| ERandom
| EMkdir
| ENoFreeID
| EAdmit
| EWriteRecord
| ENameTaken (holder : string)
| ELink
| EMutate
| EChangedID
| EChangedName
| ERemove
| EMoveAside
| ESyncFails
| EBrokenLink.

Abbreviation rop := (op repo repo_error).
Local Open Scope op_scope.

(** ** Records *)

(** What a record reads back as: [encoding/json] keeps each string as UTF-8. *)
Definition json_state (s : State) : State := match s with StateOther s => StateOther (json_string s) | s => s end.
Definition json_restart (r : RestartSpec) : RestartSpec :=
  MkRestartSpec (match SPolicy r with RestartOther s => RestartOther (json_string s) | p => p end) (SRetries r) (SBackoff r).
Definition json_status (s : ProcessStatus) : ProcessStatus :=
  MkProcessStatus (match PSState s with ProcessStateOther s => ProcessStateOther (json_string s) | p => p end)
    (PSRestarts s) (PSExit s) (PSStartedAt s).
Definition json_process (p : Process) : Process :=
  MkProcess (json_string (PrName p)) (json_string <$> PrCommand p) (json_string <$> PrEnv p) (json_string (PrWorkDir p))
    (json_string (PrUser p)) (json_restart (PrRestart p)) (PrKilled p) (json_status (PrStatus p)).

Definition json_sandbox (sb : Sandbox) : Sandbox := {|
  ID := json_string (ID sb); Name := json_string (Name sb); Image := json_string (Image sb);
  Digest := json_string (Digest sb); Snapshot := json_string (Snapshot sb);
  ForkedFrom := json_string (ForkedFrom sb); Provider := json_string (Provider sb);
  Kernel := json_string (Kernel sb); SState := json_state (SState sb);
  ExitChannel := json_string (ExitChannel sb); StoppedReason := json_string (StoppedReason sb);
  FailedReason := json_string (FailedReason sb); FailedPublic := json_string (FailedPublic sb);
  UnresponsiveReason := json_string (UnresponsiveReason sb); SOOM := SOOM sb;
  Checkpoint := json_string (Checkpoint sb); Pausing := Pausing sb; PID := PID sb;
  NetnsPath := json_string (NetnsPath sb); Address := Address sb;
  HostInterface := json_string (HostInterface sb); SResources := SResources sb;
  Processes := json_process <$> Processes sb; StoppedByOperator := StoppedByOperator sb;
  LogStarts := prod_map json_string id <$> LogStarts sb; Secrets := json_string <$> Secrets sb;
  SPolicyName := json_string (SPolicyName sb); Ports := Ports sb; StartedAt := StartedAt sb;
  RunStartedAt := RunStartedAt sb; CreatedAt := CreatedAt sb |}.

(** [Get]. *)
Definition Get (r : repo) (id : string) : result repo_error Sandbox :=
  match ValidID id with
  | Err e => Err (ESpelling e)
  | Ok _ =>
      match dirs r !! id with
      | None | Some (EntryDir None) => Err ENotFound
      | Some EntryFile | Some (EntryDir (Some RecordUnreadable)) => Err ERead
      | Some (EntryDir (Some RecordGarbled)) => Err EDecode
      | Some (EntryDir (Some (RecordOf sb))) => Ok sb
      end
  end.

(** [write]: the record lands or not, and the generation moves either way. A record can only land in a
    directory that is there. *)
Definition write (w : WriteOutcome) (sb : Sandbox) : rop unit :=
  deferred bump
    (has <~ ask (λ r, Ok match dirs r !! ID sb with Some (EntryDir _) => true | _ => false end) ;;
     if has && wrote w then
       touch (set_dirs <[ID sb := EntryDir (Some (RecordOf (json_sandbox sb)))]>) ;;;
       check EWriteRecord (write_ok w)
     else fail EWriteRecord).

(** ** The name index: names.go

    The model's filesystem compares names byte by byte. *)

(** [filepath.Base]: the last element, trailing slashes dropped; [.] for an empty path, [/] for slashes alone. *)
Definition slash_only (s : string) : bool := all_chars (Ascii.eqb "/") s.
Fixpoint drop_slashes (s : string) : string :=
  match s with
  | EmptyString => EmptyString
  | String c s' => if Ascii.eqb c "/" && slash_only s' then EmptyString else String c (drop_slashes s')
  end.
Definition Base (p : string) : string :=
  if String.eqb p "" then "."
  else if slash_only p then "/"
  else default "" (last (Split "/" (drop_slashes p))).

Definition link_target (id : string) : string := "../sandboxes/" +:+ id.

(** Which of its system calls fails: the symlink itself, or the sync of the directory after it. *)
Inductive link_fault : Type := LinkFine | LinkFails | LinkSyncFails.

Definition holder (r : repo) (name : string) : string :=
  match links r !! name with Some (Link target) => Base target | _ => "another sandbox" end.

Definition claim (f : link_fault) (name id : string) : rop unit :=
  if String.eqb name "" then ret tt
  else
    _ <~ ask (λ _, map_err ESpelling (ValidName name)) ;;
    taken <~ ask (λ r, Ok (if links r !! name then Some (holder r name) else None)) ;;
    match taken, f with
    | Some h, _ => fail (ENameTaken h)
    | None, LinkFails => fail ELink
    | None, LinkFine => touch (set_links <[name := Link (link_target id)]>)
    | None, LinkSyncFails => touch (set_links <[name := Link (link_target id)]>) ;;; fail ESyncFails
    end.

Definition drop_name (removed : bool) (name id : string) : rop unit :=
  if String.eqb name "" then ret tt
  else
    found <~ ask (λ r, Ok (links r !! name)) ;;
    match found with
    | None => ret tt
    | Some NotLink | Some LinkUnreadable => fail ELink
    | Some (Link target) =>
        if negb (String.eqb (Base target) id) then ret tt
        else if removed then touch (set_links (delete name)) else fail ELink
    end.

Definition name_exists (r : repo) (ref : string) : bool := bool_decide (ref ∈ elements (dom (links r))).

Definition Resolve (r : repo) (ref : string) : result repo_error string :=
  match plainComponent ref with
  | Err e => Err (ESpelling e)
  | Ok _ =>
      match links r !! ref with
      | None | Some NotLink => Ok ref
      | Some LinkUnreadable => Err ELink
      | Some (Link target) =>
          if negb (name_exists r ref) then Ok ref
          else match plainComponent (Base target) with
               | Err _ => Err EBrokenLink
               | Ok _ => Ok (Base target)
               end
      end
  end.

(** ** Create *)

Definition idAttempts : nat := 10.

(** What the random source answers, whether the mkdir and the sync of its parent work. *)
Record claim_calls : Type := MkClaimCalls { new_ids : list (option string); mkdir_ok : bool; parent_sync : bool }.

Fixpoint claim_go (c : claim_calls) (attempts : nat) (ids : list (option string)) : rop string :=
  match attempts, ids with
  | O, _ => fail ENoFreeID
  | S _, [] | S _, None :: _ => fail ERandom
  | S attempts, Some id :: ids =>
      exists_ <~ ask (λ r, Ok (bool_decide (is_Some (dirs r !! id)))) ;;
      if exists_ then claim_go c attempts ids
      else check EMkdir (mkdir_ok c) ;;;
           touch (set_dirs <[id := EntryDir None]>) ;;;
           check ESyncFails (parent_sync c) ;;;
           ret id
  end.

Definition claimIn (c : claim_calls) : rop string := claim_go c idAttempts (new_ids c).

(** [os.RemoveAll] of a sandbox directory: all of it, or a failure that leaves it with or without its record. *)
Inductive removal : Type := Removed | RemoveFails (record_kept : bool).

Definition RemoveAll (f : removal) (id : string) : rop unit :=
  match f with
  | Removed => touch (set_dirs (delete id))
  | RemoveFails true => fail ERemove
  | RemoveFails false => touch (set_dirs (alter (λ _, EntryDir None) id)) ;;; fail ERemove
  end.

Record create_calls : Type := MkCreateCalls {
  cc_claim : claim_calls;
  (** what each admit check answers *)
  cc_admit : list bool;
  cc_write : WriteOutcome;
  cc_link : link_fault;
  cc_remove : removal
}.

(** A refusal after the record's write: the directory goes, and the generation moves again. *)
Definition give_back {A} (c : create_calls) (id : string) (m : rop A) : rop A := λ r,
  match m r with
  | (t, r1, Err e) => let '(t2, r2, _) := RemoveAll (cc_remove c) id r1 in (t ++ t2 ++ [bump r2], bump r2, Err e)
  | answer => answer
  end.

Definition Create (c : create_calls) (sb : Sandbox) : rop Sandbox :=
  check ECarriesID (String.eqb (ID sb) "") ;;;
  check EUnknownState (State_Valid (SState sb)) ;;;
  id <~ claimIn (cc_claim c) ;;
  if negb (forallb (λ b, b) (cc_admit c)) then refused EAdmit (RemoveAll (cc_remove c) id)
  else
    let sb := set_ID id sb in
    give_back c id (write (cc_write c) sb) ;;;
    give_back c id (claim (cc_link c) (Name sb) id) ;;;
    ret sb.

(** ** Update *)

Definition Update (w : WriteOutcome) (id : string) (mutate : Sandbox → option Sandbox) : rop unit :=
  sb <~ ask (λ r, Get r id) ;;
  match mutate sb with
  | None => fail EMutate
  | Some sb' =>
      check EChangedID (String.eqb (ID sb') id) ;;;
      check EChangedName (String.eqb (Name sb') (Name sb)) ;;;
      check EUnknownState (State_Valid (SState sb')) ;;;
      write w sb'
  end.

(** ** Delete *)

(** [os.RemoveAll(trash)]: done, "directory not empty", or another failure. *)
Inductive trash_call : Type := TrashGone | TrashNotEmpty | TrashFails.

Fixpoint removeTrash (attempts : nat) (calls : nat → trash_call) (trash : string) : rop unit :=
  match attempts with
  | O => fail ERemove
  | S attempts =>
      match calls attempts with
      | TrashGone => touch (set_dirs (delete trash))
      | TrashFails => fail ERemove
      | TrashNotEmpty => removeTrash attempts calls trash
      end
  end.

Record delete_calls : Type := MkDeleteCalls {
  dc_drop : bool;
  dc_checkpoint : bool;
  dc_checkpoint_tmp : bool;
  dc_rename : bool;
  dc_trash_name : string;
  dc_trash : nat → trash_call;
  dc_sync : bool
}.

Definition trash_of (c : delete_calls) (id : string) : string := "." +:+ id +:+ "." +:+ dc_trash_name c.

Definition remove_checkpoint (ok : bool) (name : string) : rop unit :=
  if ok then touch (set_checkpoints (λ cs, cs ∖ {[name]})) else fail ERemove.

(** [os.Rename] of the sandbox's directory to the trash name. *)
Definition move_aside (id trash : string) (ds : gmap string entry) : gmap string entry :=
  match ds !! id with Some e => <[trash := e]> (delete id ds) | None => ds end.

Definition Delete (c : delete_calls) (id : string) : rop unit :=
  sb <~ ask (λ r, Get r id) ;;
  deferred bump
    (drop_name (dc_drop c) (Name sb) id ;;;
     remove_checkpoint (dc_checkpoint c) id ;;;
     remove_checkpoint (dc_checkpoint_tmp c) (id +:+ ".tmp") ;;;
     check EMoveAside (dc_rename c) ;;;
     touch (set_dirs (move_aside id (trash_of c id))) ;;;
     removeTrash 3 (dc_trash c) (trash_of c id) ;;;
     check ESyncFails (dc_sync c)).

(** ** Reads over all records *)

(** One entry of the directory as [List] takes it: a directory whose name could be an id, with a record. *)
Definition walk_entry (r : repo) (name : string) : option (string * result repo_error Sandbox) :=
  match dirs r !! name with
  | Some (EntryDir _) =>
      match ValidID name with
      | Ok _ => match Get r name with Err ENotFound => None | answer => Some (name, answer) end
      | Err _ => None
      end
  | _ => None
  end.

Definition walk (r : repo) : list (string * result repo_error Sandbox) := omap (walk_entry r) (sorted_names (dirs r)).

Definition readable (w : list (string * result repo_error Sandbox)) : list Sandbox :=
  omap (λ p, match p.2 with Ok sb => Some sb | Err _ => None end) w.
Definition unreadable (w : list (string * result repo_error Sandbox)) : list string :=
  omap (λ p, match p.2 with Ok _ => None | Err _ => Some p.1 end) w.

Definition id_le (a b : Sandbox) : Prop := String.le (ID a) (ID b).
#[export] Instance id_le_dec : RelDecision id_le.
Proof. intros a b. unfold id_le. apply _. Defined.

(** [List], on a directory that can be read: the readable records in order of id, and the ids of the others. *)
Definition List (r : repo) : list Sandbox * list string :=
  (merge_sort id_le (readable (walk r)), unreadable (walk r)).

(** [ListReadable] leaves the unreadable records out; no other error can come from a walk. *)
Definition ListReadable (r : repo) : list Sandbox := (List r).1.

Definition RecordedProvider (r : repo) : string * list string :=
  (default "" (first_match (λ p, negb (String.eqb p "")) (Provider <$> readable (walk r))), unreadable (walk r)).

(** [recordedTmp]: a staging directory is kept while a record names it, or may. *)
Definition recordedTmp (r : repo) (id : string) : bool :=
  match ValidID id with
  | Err _ => false
  | Ok _ => match Get r id with Ok _ => true | Err ENotFound => false | Err _ => true end
  end.

(** [SweepCheckpointTmp], its removals taken one by one until one fails. *)
Fixpoint sweep_go (removes : string → bool) (names : list string) : rop unit :=
  match names with
  | [] => ret tt
  | name :: names =>
      if negb (HasSuffix name ".tmp") then sweep_go removes names
      else
        keep <~ ask (λ r, Ok (recordedTmp r (TrimSuffix name ".tmp"))) ;;
        if keep then sweep_go removes names
        else remove_checkpoint (removes name) name ;;; sweep_go removes names
  end.

Definition SweepCheckpointTmp (removes : string → bool) (synced : bool) : rop unit :=
  before <~ ask (λ r, Ok (checkpoints r)) ;;
  sweep_go removes (merge_sort String.le (elements before)) ;;;
  after <~ ask (λ r, Ok (checkpoints r)) ;;
  if bool_decide (after = before) then ret tt else check ESyncFails synced.

(** * Names *)

(** The record of an id, when it can be read. *)
Definition record (r : repo) (id : string) : option Sandbox :=
  match dirs r !! id with Some (EntryDir (Some (RecordOf sb))) => Some sb | _ => None end.

(** An id the random source can make. *)
Definition generated (id : string) : Prop :=
  ∃ b0 b1 b2 b3, is_byte b0 ∧ is_byte b1 ∧ is_byte b2 ∧ is_byte b3 ∧ id = formatID b0 b1 b2 b3.

Lemma generated_ValidID id : generated id → ValidID id = Ok tt.
Proof. intros (b0 & b1 & b2 & b3 & ? & ? & ? & ? & ->). by apply formatID_valid. Qed.

Definition ids_ok (c : claim_calls) : Prop := ∀ id, Some id ∈ new_ids c → generated id.

(** ** Histories

    Requests to the repository, one after the other, each cut anywhere: a crash leaves the disk as it was at
    one of the states on the way, and a new process counts its generations from 0. *)

Inductive request : Type :=
| ReqCreate (c : create_calls) (sb : Sandbox)
| ReqUpdate (w : WriteOutcome) (id : string) (mutate : Sandbox → option Sandbox)
| ReqDelete (c : delete_calls) (id : string)
| ReqSweep (removes : string → bool) (synced : bool).

Definition run (q : request) : rop unit :=
  match q with
  | ReqCreate c sb => Create c sb ;;; ret tt
  | ReqUpdate w id mutate => Update w id mutate
  | ReqDelete c id => Delete c id
  | ReqSweep removes synced => SweepCheckpointTmp removes synced
  end.

(** The ids come from [generateID]. *)
Definition request_ok (q : request) : Prop := match q with ReqCreate c _ => ids_ok (cc_claim c) | _ => True end.

(** The name whose link a request leaves unsynced: the sync of the index after its symlink is to fail. *)
Definition unsynced (q : request) : option string :=
  match q with ReqCreate c sb => match cc_link c with LinkSyncFails => Some (Name sb) | _ => None end | _ => None end.

(** One more request, cut anywhere, or a restart, with the names left unsynced so far. *)
Inductive cut_after : repo * gset string → repo * gset string → Prop :=
| cut_request q r r' us : request_ok q → r' ∈ states (run q) r →
    cut_after (r, us) (r', us ∪ match unsynced q with Some n => {[n]} | None => ∅ end)
| cut_restart r us : cut_after (r, us) (MkRepo (dirs r) (links r) (checkpoints r) 0, us).

Definition new_repo : repo := MkRepo ∅ ∅ ∅ 0.

Section Tagged.
(** The name followed through the index. *)
Context (tag : string).

(** The link of the name, if there, is to the sandbox of that name, and every record under an id is that id's. *)
Record repo_ok (r : repo) : Prop := {
  ok_link : ∀ k, links r !! tag = Some k →
    ∃ id sb, k = Link (link_target id) ∧ ValidID id = Ok tt ∧ ValidName tag = Ok tt ∧ record r id = Some sb ∧ Name sb = tag;
  ok_records : ∀ id sb, ValidID id = Ok tt → record r id = Some sb → ID sb = id ∧ State_Valid (SState sb) = true
}.

Lemma plain_ascii s : all_chars plain_char s = true → all_chars is_ascii s = true.
Proof. apply all_chars_impl. intros c. destruct c as [[] [] [] [] [] [] [] []]; vm_compute; congruence. Qed.

Lemma ValidID_json id : ValidID id = Ok tt → json_string id = id.
Proof. intros (_ & _ & H)%plainComponent_spec. by apply json_string_ascii, plain_ascii. Qed.

Lemma ValidName_plain n : ValidName n = Ok tt → plainComponent n = Ok tt.
Proof. unfold ValidName. by destruct (plainComponent n) as [[]|]. Qed.

Lemma ValidName_json n : ValidName n = Ok tt → json_string n = n.
Proof. intros H%ValidName_plain. by apply ValidID_json. Qed.

Lemma plain_no_slash id : all_chars plain_char id = true → contains_char "/" id = false.
Proof.
  intros H. apply contains_char_false. eapply all_chars_impl; [|done]. intros c.
  destruct c as [[] [] [] [] [] [] [] []]; vm_compute; congruence.
Qed.

Lemma drop_slashes_id s : contains_char "/" s = false → drop_slashes s = s.
Proof.
  induction s as [|c s IH]; [done|]. rewrite contains_char_cons. intros [H1 H2]%orb_false_iff.
  cbn [drop_slashes]. rewrite Ascii.eqb_sym, H1. simpl. by rewrite IH.
Qed.

Lemma slash_only_plain id : id ≠ "" → contains_char "/" id = false → slash_only id = false.
Proof.
  destruct id as [|c id]; [done|]. rewrite contains_char_cons. intros _ [H _]%orb_false_iff.
  unfold slash_only. cbn [all_chars]. by rewrite H.
Qed.

Lemma drop_slashes_app s id : slash_only id = false → drop_slashes (s +:+ id) = s +:+ drop_slashes id.
Proof.
  intros H. induction s as [|c s IH]; [done|]. rewrite !app_cons. cbn [drop_slashes]. rewrite IH.
  unfold slash_only in *. by rewrite all_chars_app, H, !andb_false_r.
Qed.

Lemma Base_path dir id : ValidID id = Ok tt → Base (dir +:+ "/" +:+ id) = id.
Proof.
  intros (Hne & _ & Hp)%plainComponent_spec. pose proof (plain_no_slash id Hp) as Hs.
  pose proof (slash_only_plain id Hne Hs) as Ho. unfold Base.
  rewrite app_assoc_s, drop_slashes_app, drop_slashes_id by done. unfold slash_only in *. rewrite all_chars_app, Ho, andb_false_r.
  rewrite <- app_assoc_s, (app_cons "/"), app_nil_l, Split_app, (Split_no_sep "/" id) by done.
  rewrite last_snoc. by destruct dir.
Qed.

Lemma Base_link_target id : ValidID id = Ok tt → Base (link_target id) = id.
Proof. apply (Base_path "../sandboxes"). Qed.

(** ** What each change does to the records and the links *)

Lemma link_target_inj a b : link_target a = link_target b → a = b.
Proof. intros H. apply (f_equal (drop_s 13)) in H. done. Qed.

Lemma record_insert r id e id' :
  record (set_dirs <[id := e]> r) id' =
  if decide (id = id') then match e with EntryDir (Some (RecordOf sb)) => Some sb | _ => None end else record r id'.
Proof. unfold record, set_dirs. cbn [dirs]. rewrite lookup_insert. by case_decide. Qed.

Lemma record_delete r id id' :
  record (set_dirs (delete id) r) id' = if decide (id = id') then None else record r id'.
Proof. unfold record, set_dirs. cbn [dirs]. rewrite lookup_delete. by case_decide. Qed.

(** The name does not lead to the id. *)
Definition unlinked (id : string) (r : repo) : Prop := links r !! tag ≠ Some (Link (link_target id)).

(** A change of one directory keeps the index when the name does not lead to it. *)
Lemma repo_ok_dirs r r' id :
  repo_ok r → links r' = links r → (∀ id', id' ≠ id → ValidID id' = Ok tt → record r' id' = record r id') → unlinked id r →
  (∀ sb, ValidID id = Ok tt → record r' id = Some sb → ID sb = id ∧ State_Valid (SState sb) = true) →
  repo_ok r' ∧ unlinked id r'.
Proof.
  intros [Hl Hr] El Er Hu Hn. split; [split|].
  - intros k. rewrite El. intros Hk. destruct (Hl k Hk) as (i & sb & -> & Hv & Hvn & Hrec & Hname).
    exists i, sb. split_and!; try done. rewrite Er; [done| |done]. intros ->. by apply Hu.
  - intros id' sb Hv. destruct (decide (id' = id)) as [->|Hne]; [by apply Hn|]. rewrite Er by done. by apply Hr.
  - unfold unlinked. rewrite El. apply Hu.
Qed.

Lemma repo_ok_bump r : repo_ok r → repo_ok (bump r).
Proof. intros [Hl Hr]. by split. Qed.

(** The name leads to no id without a record. *)
Lemma no_record_unlinked r id : repo_ok r → record r id = None → unlinked id r.
Proof.
  intros [Hl _] Hn H. destruct (Hl _ H) as (i & sb & E & _ & _ & Hrec & _).
  apply (f_equal (λ k, match k with Link t => t | _ => "" end)) in E. simpl in E. apply link_target_inj in E as ->.
  congruence.
Qed.

(** A record that lands where the old one, if any, had the same name keeps the index. *)
Lemma repo_ok_land r sb :
  repo_ok r → ValidID (ID sb) = Ok tt → State_Valid (SState sb) = true →
  (∀ old, record r (ID sb) = Some old → Name old = Name sb) →
  repo_ok (set_dirs <[ID sb := EntryDir (Some (RecordOf (json_sandbox sb)))]> r).
Proof.
  intros [Hl Hr] Hv Hs Hold. split.
  - intros k Hk. destruct (Hl k Hk) as (i & sb' & -> & Hvi & Hvn & Hrec & Hname).
    setoid_rewrite record_insert.
    destruct (decide (ID sb = i)) as [<-|Hne].
    + exists (ID sb), (json_sandbox sb). rewrite decide_True by done. split_and!; try done. cbn [Name json_sandbox].
      rewrite <- (Hold sb' Hrec), Hname. by apply ValidName_json.
    + exists i, sb'. rewrite decide_False by done. done.
  - intros i s Hvi. rewrite record_insert. case_decide as E; [|by apply Hr]. intros [= <-]. cbn [ID SState json_sandbox].
    rewrite ValidID_json by done. split; [done|]. by destruct (SState sb).
Qed.

(** ** The operations keep the index *)

Lemma write_triple w sb (P : repo → Prop) L :
  ValidID (ID sb) = Ok tt → State_Valid (SState sb) = true →
  (∀ r, repo_ok r → P r → ∀ old, record r (ID sb) = Some old → Name old = Name sb) →
  triple repo_ok (λ r, P r ∧ links r = L) (write w sb)
    (λ a r, links r = L ∧ (a = Ok tt → record r (ID sb) = Some (json_sandbox sb))).
Proof.
  intros Hv Hs Hold. eapply triple_deferred with (Q' := λ a r, links r = L ∧
    (a = Ok tt → record r (ID sb) = Some (json_sandbox sb))).
  - eapply triple_bind with (M := λ _ r, P r ∧ links r = L); [by apply triple_ask|].
    intros has. destruct (has && wrote w).
    + eapply triple_bind with (M := λ _ r, links r = L ∧ record r (ID sb) = Some (json_sandbox sb)).
      * apply triple_touch. intros r Hi [Hp Hu]. split; [by apply repo_ok_land; [..|eauto]|]. split; [done|].
        rewrite record_insert. by rewrite decide_True.
      * intros _. apply triple_check. intros r Hi [? ?]. by destruct (write_ok w).
    + apply triple_fail. intros r Hi [? ?]. done.
  - intros a r Hi [Hu Ha]. split; [by apply repo_ok_bump|]. done.
Qed.

Lemma RemoveAll_triple f id :
  triple repo_ok (unlinked id) (RemoveAll f id) (λ _ r, unlinked id r).
Proof.
  destruct f as [|[]]; cbn [RemoveAll].
  - apply triple_touch. intros r Hi Hu. eapply (repo_ok_dirs r _ id); try done.
    + intros id' Hne _. rewrite record_delete. by rewrite decide_False.
    + intros sb _. rewrite record_delete. by rewrite decide_True.
  - by apply triple_fail.
  - eapply triple_bind with (M := λ _ r, unlinked id r); [|by intros; apply triple_fail].
    apply triple_touch. intros r Hi Hu. eapply (repo_ok_dirs r _ id); try done.
    + intros id' Hne _. unfold record, set_dirs. cbn [dirs]. by rewrite lookup_alter_ne.
    + intros sb _. unfold record, set_dirs. cbn [dirs]. rewrite lookup_alter_eq. by destruct (dirs r !! id).
Qed.

Lemma give_back_triple {A} c id (m : rop A) P Q :
  triple repo_ok P m (λ a r, match a with Ok _ => Q a r | Err _ => unlinked id r end) →
  triple repo_ok P (give_back c id m) (λ a r, match a with Ok _ => Q a r | Err _ => unlinked id r end).
Proof.
  intros Hm r Hi Hp. specialize (Hm r Hi Hp). unfold give_back. destruct (m r) as [[t r1] [a|e]]; [done|].
  destruct Hm as (Ht & Hi1 & Hu). pose proof (RemoveAll_triple (cc_remove c) id r1 Hi1 Hu) as Hr.
  destruct (RemoveAll (cc_remove c) id r1) as [[t2 r2] x]. destruct Hr as (Ht2 & Hi2 & Hu2).
  split_and!; [|by apply repo_ok_bump|done]. rewrite !Forall_app. split_and!; [done|done|].
  apply Forall_singleton. by apply repo_ok_bump.
Qed.

Lemma claim_triple f name id sb :
  (name = tag → f ≠ LinkSyncFails) → ValidID id = Ok tt → Name sb = name →
  triple repo_ok (λ r, unlinked id r ∧ record r id = Some (json_sandbox sb)) (claim f name id)
    (λ a r, match a with Ok _ => True | Err _ => unlinked id r end).
Proof.
  intros Hf Hv <-. unfold claim. destruct (String.eqb_spec (Name sb) "") as [|Hne]; [apply triple_ret; auto|].
  eapply triple_bind with (M := λ _ r, ValidName (Name sb) = Ok tt ∧ unlinked id r ∧ record r id = Some (json_sandbox sb)).
  { apply triple_ask. intros r Hi [Hu Hr]. by destruct (ValidName (Name sb)) as [[]|]. }
  intros _. eapply triple_bind with (M := λ taken r,
    ValidName (Name sb) = Ok tt ∧ unlinked id r ∧ record r id = Some (json_sandbox sb) ∧ (taken = None → links r !! Name sb = None)).
  { apply triple_ask. intros r Hi (Hvn & Hu & Hr). by destruct (links r !! Name sb). }
  intros [h|]; [apply triple_fail; intros r Hi H; apply H|].
  destruct f; [|by apply triple_fail; intros r Hi H; apply H|].
  - apply triple_touch. intros r [Hl Hr] (Hvn & Hu & Hrec & Hfree). split; [|done]. split; [|done].
    intros k. unfold set_links. cbn [links]. rewrite lookup_insert. case_decide as E; [|by intros H; apply Hl].
    intros [= <-]. exists id, (json_sandbox sb). split_and!; try done; [by rewrite <- E|]. cbn [Name json_sandbox].
    rewrite ValidName_json by done. done.
  - assert (Hn : Name sb ≠ tag) by (intros E; by apply (Hf E)).
    eapply triple_bind with (M := λ _ r, unlinked id r); [|by intros _; apply triple_fail].
    apply triple_touch. intros r [Hl Hr] (_ & Hu & _ & _). split; [split|]; [|done|];
      unfold unlinked, set_links; cbn [links]; by rewrite lookup_insert_ne.
Qed.

Lemma claimIn_triple c :
  ids_ok c →
  triple repo_ok (λ _, True) (claimIn c)
    (λ a r, match a with Ok id => ValidID id = Ok tt ∧ record r id = None | Err _ => True end).
Proof.
  unfold ids_ok, claimIn. generalize idAttempts. generalize (new_ids c) at 1 2. intros ids n Hids.
  revert n. induction ids as [|[id|] ids IH]; intros [|n]; cbn [claim_go]; try by apply triple_fail.
  eapply triple_bind with (M := λ b r, b = false → record r id = None).
  { apply triple_ask. intros r _ _ Hb. apply bool_decide_eq_false, eq_None_not_Some in Hb. unfold record. by rewrite Hb. }
  intros [].
  - eapply triple_weaken; [apply IH; intros; apply Hids; by right|done|done].
  - eapply triple_bind with (M := λ _ r, record r id = None).
    { apply triple_check. intros r _ H. destruct (mkdir_ok c); auto. }
    intros _. eapply triple_bind with (M := λ _ r, record r id = None).
    { apply triple_touch. intros r Hi Hn. specialize (Hn). split.
      - eapply (repo_ok_dirs r _ id); try done; [..|by apply no_record_unlinked|].
        + intros id' Hne _. rewrite record_insert. by rewrite decide_False.
        + intros sb _. rewrite record_insert. by rewrite decide_True.
      - rewrite record_insert. by rewrite decide_True. }
    intros _. eapply triple_bind with (M := λ _ r, record r id = None).
    { apply triple_check. intros r _ H. by destruct (parent_sync c). }
    intros _. apply triple_ret. intros r _ H. split; [|done]. apply generated_ValidID, Hids. by left.
Qed.

Lemma Create_triple c sb :
  ids_ok (cc_claim c) → (Name sb = tag → cc_link c ≠ LinkSyncFails) → triple repo_ok (λ _, True) (Create c sb) (λ _ _, True).
Proof.
  intros Hids Hf. unfold Create.
  eapply triple_bind with (M := λ _ _, True); [apply triple_check; intros; by destruct (String.eqb (ID sb) "")|intros _].
  eapply triple_bind with (M := λ _ _, State_Valid (SState sb) = true);
    [apply triple_check; intros; by destruct (State_Valid (SState sb))|intros _].
  eapply triple_bind with (M := λ id r, State_Valid (SState sb) = true ∧ ValidID id = Ok tt ∧ record r id = None).
  { intros r Hi Hs. pose proof (claimIn_triple _ Hids r Hi I) as H. destruct (claimIn (cc_claim c) r) as [[t r1] [a|e]]; naive_solver. }
  intros id. destruct (negb (forallb (λ b, b) (cc_admit c))).
  - intros r Hi (_ & _ & Hn). unfold refused.
    pose proof (RemoveAll_triple (cc_remove c) id r Hi (no_record_unlinked r id Hi Hn)) as H.
    destruct (RemoveAll (cc_remove c) id r) as [[t r1] x]. naive_solver.
  - intros r Hi (Hs & Hv & Hn). revert r Hi Hn. change (triple repo_ok (λ r, record r id = None)
      (give_back c id (write (cc_write c) (set_ID id sb)) ;;;
       give_back c id (claim (cc_link c) (Name (set_ID id sb)) id) ;;; ret (set_ID id sb)) (λ _ _, True)).
    destruct (set_ID_other id sb) as (_ & Es & _ & _ & _ & Ei).
    eapply triple_bind with (M := λ _ r, unlinked id r ∧ record r id = Some (json_sandbox (set_ID id sb))).
    + eapply triple_weaken; [eapply (give_back_triple c id _ (λ r, record r id = None)
        (λ _ r, unlinked id r ∧ record r id = Some (json_sandbox (set_ID id sb))))|done|intros [[]|e]; naive_solver].
      intros r Hi Hn. pose proof (no_record_unlinked r id Hi Hn) as Hu.
      assert (T := write_triple (cc_write c) (set_ID id sb) (λ r, record r id = None) (links r)).
      rewrite Ei, Es in T. specialize (T Hv Hs ltac:(intros ? _ Hn' old; rewrite Hn'; done) r Hi (conj Hn eq_refl)).
      destruct (write (cc_write c) (set_ID id sb) r) as [[t r1] [[]|e]]; destruct T as (Ht & Hi1 & El & Hr).
      * split_and!; [done..|unfold unlinked; rewrite El; apply Hu|by apply Hr].
      * split_and!; [done..|unfold unlinked; rewrite El; apply Hu].
    + intros _. eapply triple_bind with (M := λ _ _, True); [|intros _; by apply triple_ret].
      eapply triple_weaken; [eapply (give_back_triple c id _ _ (λ _ _, True)), claim_triple; [by destruct sb|done..]|done|by intros [[]|e]].
Qed.

Lemma Update_triple w id mutate : triple repo_ok (λ _, True) (Update w id mutate) (λ _ _, True).
Proof.
  unfold Update. eapply triple_bind with (M := λ sb r, ValidID id = Ok tt ∧ record r id = Some sb).
  { apply triple_ask. intros r _ _. unfold Get, record. destruct (ValidID id) as [[]|]; [|done].
    by destruct (dirs r !! id) as [[|[[]|]]|]. }
  intros sb. destruct (mutate sb) as [sb'|]; [|by apply triple_fail].
  destruct (String.eqb_spec (ID sb') id) as [<-|]; [|by apply triple_fail].
  destruct (String.eqb_spec (Name sb') (Name sb)) as [En|]; [|by apply triple_fail].
  destruct (State_Valid (SState sb')) eqn:Hs; [|by apply triple_fail].
  do 3 (eapply triple_bind with (M := λ _ r, ValidID (ID sb') = Ok tt ∧ record r (ID sb') = Some sb); [by apply triple_check|intros _]).
  intros r Hi [Hv Hr]. eapply (write_triple w sb' (λ r, record r (ID sb') = Some sb) (links r)) in Hi as H; try done.
  - destruct (write w sb' r) as [[t r1] a]. naive_solver.
  - intros r' _ Hr' old. rewrite Hr', En. by intros [= ->].
Qed.

Lemma drop_triple removed sb id :
  ValidID id = Ok tt →
  triple repo_ok (λ r, record r id = Some sb) (drop_name removed (Name sb) id)
    (λ a r, match a with Ok _ => unlinked id r | Err _ => True end).
Proof.
  intros Hv. unfold drop_name.
  assert (Honly : ∀ r, repo_ok r → record r id = Some sb → links r !! tag = Some (Link (link_target id)) →
    tag = Name sb ∧ tag ≠ "").
  { intros r [Hl _] Hr Hn. destruct (Hl _ Hn) as (i & s & E & _ & Hvn & Hrec & Hname).
    apply (f_equal (λ k, match k with Link t => t | _ => "" end)) in E. simpl in E. apply link_target_inj in E as <-.
    split; [congruence|]. intros ->. done. }
  destruct (String.eqb_spec (Name sb) "") as [E|Hne].
  { apply triple_ret. intros r Hi Hr Hn. destruct (Honly r Hi Hr Hn). congruence. }
  eapply triple_bind with (M := λ found r, record r id = Some sb ∧ links r !! Name sb = found); [by apply triple_ask|].
  intros [[target| |]|]; try by apply triple_fail.
  - destruct (String.eqb_spec (Base target) id) as [<-|Hb]; cbn [negb].
    + destruct removed; [|by apply triple_fail]. apply triple_touch. intros r Hi [Hr Hk].
      assert (Hu : unlinked (Base target) (set_links (delete (Name sb)) r)).
      { unfold unlinked, set_links. cbn [links]. rewrite lookup_delete. case_decide as E; [done|]. intros Hn.
        destruct (Honly r Hi Hr Hn). congruence. }
      split; [|done]. destruct Hi as [Hl Hrs]. split; [|done]. intros k. unfold set_links. cbn [links].
      rewrite lookup_delete. case_decide; [done|]. apply Hl.
    + apply triple_ret. intros r Hi [Hr Hk] Hn. destruct (Honly r Hi Hr Hn) as [Et _].
      rewrite Et, Hk in Hn. injection Hn as ->. by rewrite Base_link_target in Hb.
  - apply triple_ret. intros r Hi [Hr Hk] Hn. destruct (Honly r Hi Hr Hn) as [Et _]. congruence.
Qed.

Lemma trash_not_id c id : ValidID (trash_of c id) ≠ Ok tt.
Proof. unfold trash_of. rewrite app_cons. intros (_ & _ & H)%plainComponent_spec. done. Qed.

Lemma removeTrash_triple n calls c id :
  triple repo_ok (λ _, True) (removeTrash n calls (trash_of c id)) (λ _ _, True).
Proof.
  induction n as [|n IH]; cbn [removeTrash]; [by apply triple_fail|].
  destruct (calls n); [|done|by apply triple_fail]. apply triple_touch. intros r [Hl Hr] _. split; [|done].
  assert (Hsame : ∀ i, ValidID i = Ok tt → record (set_dirs (delete (trash_of c id)) r) i = record r i).
  { intros i Hi. rewrite record_delete. case_decide as E; [|done]. by destruct (trash_not_id c id); rewrite E. }
  split; [|intros i sb Hi; rewrite Hsame by done; by apply Hr].
  intros k Hk. destruct (Hl k Hk) as (i & sb & -> & Hvi & Hvn & Hrec & Hname). exists i, sb. by rewrite Hsame.
Qed.

Lemma Delete_triple c id : triple repo_ok (λ _, True) (Delete c id) (λ _ _, True).
Proof.
  unfold Delete. eapply triple_bind with (M := λ sb r, ValidID id = Ok tt ∧ record r id = Some sb).
  { apply triple_ask. intros r _ _. unfold Get, record. destruct (ValidID id) as [[]|]; [|done].
    by destruct (dirs r !! id) as [[|[[]|]]|]. }
  intros sb r Hi [Hv Hr]. revert r Hi Hr.
  change (triple repo_ok (λ r, record r id = Some sb) (deferred bump
    (drop_name (dc_drop c) (Name sb) id ;;;
     remove_checkpoint (dc_checkpoint c) id ;;;
     remove_checkpoint (dc_checkpoint_tmp c) (id +:+ ".tmp") ;;;
     check EMoveAside (dc_rename c) ;;;
     touch (set_dirs (move_aside id (trash_of c id))) ;;;
     removeTrash 3 (dc_trash c) (trash_of c id) ;;;
     check ESyncFails (dc_sync c))) (λ _ _, True)).
  eapply triple_deferred with (Q' := λ _ _, True); [|intros; split; [by apply repo_ok_bump|done]].
  eapply triple_bind with (M := λ _ r, unlinked id r).
  { eapply triple_weaken; [by apply drop_triple|done|by intros [[]|]]. }
  intros _. assert (Hc : ∀ b name, triple repo_ok (unlinked id) (remove_checkpoint b name)
    (λ a r, match a with Ok _ => unlinked id r | Err _ => True end)).
  { intros [] name; [|by apply triple_fail]. apply triple_touch. intros r [Hl Hr] Hu. split; [by split|done]. }
  eapply triple_bind with (M := λ _ r, unlinked id r); [eapply triple_weaken; [by apply Hc|done|by intros [[]|]]|intros _].
  eapply triple_bind with (M := λ _ r, unlinked id r); [eapply triple_weaken; [by apply Hc|done|by intros [[]|]]|intros _].
  eapply triple_bind with (M := λ _ r, unlinked id r);
    [apply triple_check; intros; by destruct (dc_rename c)|intros _].
  eapply triple_bind with (M := λ _ _, True).
  { apply triple_touch. intros r Hi Hu. split; [|done]. unfold move_aside.
    destruct (dirs r !! id) as [e|] eqn:Ee; [|unfold set_dirs; rewrite Ee; by destruct r, Hi].
    eapply (repo_ok_dirs r _ id); try done.
    - intros id' Hne Hv'. unfold record, set_dirs. cbn [dirs]. rewrite Ee. rewrite lookup_insert, lookup_delete.
      rewrite (decide_False (P := id = id')) by done. case_decide as E; [|done]. by destruct (trash_not_id c id); rewrite E.
    - intros s Hvi. unfold record, set_dirs. cbn [dirs]. rewrite Ee. rewrite lookup_insert, lookup_delete.
      rewrite (decide_True (P := id = id)) by done. case_decide as E; [|done]. by destruct (trash_not_id c id); rewrite E. }
  intros _. eapply triple_bind with (M := λ _ _, True).
  { eapply triple_weaken; [apply removeTrash_triple|done|by intros [[]|]]. }
  intros _. apply triple_check. intros. by destruct (dc_sync c).
Qed.

Lemma sweep_go_triple removes names : triple repo_ok (λ _, True) (sweep_go removes names) (λ _ _, True).
Proof.
  induction names as [|name names IH]; cbn [sweep_go]; [by apply triple_ret|].
  destruct (HasSuffix name ".tmp"); [|done]. simpl.
  eapply triple_bind with (M := λ _ _, True); [by apply triple_ask|]. intros []; [done|].
  eapply triple_bind with (M := λ _ _, True); [|done]. unfold remove_checkpoint.
  destruct (removes name); [|by apply triple_fail]. apply triple_touch. intros r [Hl Hr] _. by split; [split|].
Qed.

Lemma run_triple q : request_ok q → unsynced q ≠ Some tag → triple repo_ok (λ _, True) (run q) (λ _ _, True).
Proof.
  destruct q as [c sb|w id mutate|c id|removes synced]; cbn [run request_ok unsynced].
  - intros ? Hu. eapply triple_bind with (M := λ _ _, True); [|by intros; apply triple_ret].
    eapply triple_weaken; [apply Create_triple; [done|intros <- E; by rewrite E in Hu]|done|by intros [|]].
  - intros _ _. apply Update_triple.
  - intros _ _. apply Delete_triple.
  - intros _ _. unfold SweepCheckpointTmp. eapply triple_bind with (M := λ _ _, True); [by apply triple_ask|]. intros before.
    eapply triple_bind with (M := λ _ _, True); [eapply triple_weaken; [apply sweep_go_triple|done|by intros [|]]|]. intros _.
    eapply triple_bind with (M := λ _ _, True); [by apply triple_ask|]. intros after.
    case_bool_decide; [by apply triple_ret|]. apply triple_check. intros. by destruct synced.
Qed.

Lemma reachable_ok x : rtc cut_after (new_repo, ∅) x → tag ∉ x.2 → repo_ok x.1.
Proof.
  intros H. apply rtc_ind_r with (P := λ x, tag ∉ x.2 → repo_ok x.1) in H; [done| |].
  - intros _. split; unfold record; cbn [dirs links new_repo fst]; intros; by rewrite lookup_empty in *.
  - intros s s' _ [q y y' us Hq Hin|y us] Hs; cbn [fst snd] in *; intros Ht.
    + assert (Hy : repo_ok y) by (apply Hs; set_solver).
      assert (Hu : unsynced q ≠ Some tag) by (intros E; rewrite E in Ht; set_solver).
      destruct (triple_states _ _ _ _ y (run_triple q Hq Hu) Hy I) as [Hall _]. rewrite Forall_forall in Hall. by apply Hall.
    + destruct (Hs Ht) as [Hl Hr]. by split.
Qed.
End Tagged.

(** C32: A name leads to the sandbox of that name. Whatever creates, updates, deletes and sweeps ran, whichever of
    their system calls failed and wherever a crash cut them, a name that resolves to something else than itself
    resolves to an id whose record can be read, carries that id and that name, and is in a known state; or a
    create of that very name was among them whose sync of the name index failed after its symlink. Of the other
    names whose sync failed nothing is asked. *)
Theorem Resolve_names r us name id :
  rtc cut_after (new_repo, ∅) (r, us) → Resolve r name = Ok id → id ≠ name →
  name ∈ us ∨ ∃ sb, Get r id = Ok sb ∧ ID sb = id ∧ Name sb = name ∧ State_Valid (SState sb) = true.
Proof.
  intros Hreach Hres Hne. destruct (decide (name ∈ us)) as [|Hus]; [by left|right].
  destruct (reachable_ok name _ Hreach Hus) as [Hl Hr]. cbn [fst] in *.
  unfold Resolve in Hres. destruct (plainComponent name) as [[]|]; [|done].
  destruct (links r !! name) as [k|] eqn:Hk; [|congruence].
  destruct (Hl k eq_refl) as (i & sb & -> & Hv & Hvn & Hrec & Hname). rewrite Base_link_target in Hres by done.
  destruct (negb (name_exists r name)); [congruence|]. unfold ValidID in Hv. rewrite Hv in Hres. injection Hres as ->.
  exists sb. destruct (Hr id sb Hv Hrec) as [Hid Hst]. split_and!; try done.
  unfold Get, ValidID, record in *. rewrite Hv. by destruct (dirs r !! id) as [[|[[]|]]|]; simplify_eq.
Qed.

(** ** Create, as one step *)

Lemma claimIn_run c r t r1 a :
  claimIn c r = (t, r1, a) →
  match a with
  | Ok id => Some id ∈ new_ids c ∧ dirs r !! id = None ∧ r1 = set_dirs <[id := EntryDir None]> r
  | Err _ => r1 = r ∨ ∃ id, dirs r !! id = None ∧ r1 = set_dirs <[id := EntryDir None]> r
  end.
Proof.
  unfold claimIn. generalize idAttempts. generalize (new_ids c). intros ids n. revert n t r1 a.
  induction ids as [|[id|] ids IH]; intros [|n] t r1 a; cbn [claim_go]; unfold fail; intros E; simplify_eq; auto.
  unfold bind, ask in E. case_bool_decide as Hd.
  - destruct (claim_go c n ids r) as [[t2 r2] b] eqn:Eg. simplify_eq/=. specialize (IH _ _ _ _ Eg).
    destruct a as [i|]; [|done]. destruct IH as (? & ? & ?). split_and!; [by right|done..].
  - apply eq_None_not_Some in Hd. unfold check in E. destruct (mkdir_ok c); [|simplify_eq/=; auto].
    unfold touch, ret, fail in E. simpl in E. destruct (parent_sync c); simpl in E; simplify_eq; [|right; eauto].
    split_and!; [by left|done..].
Qed.

Lemma write_run w sb r x :
  dirs r !! ID sb = Some (EntryDir x) →
  (write w sb r).1.2 = bump (if wrote w then set_dirs <[ID sb := EntryDir (Some (RecordOf (json_sandbox sb)))]> r else r) ∧
  (write w sb r).2 = (if write_ok w then Ok tt else Err EWriteRecord).
Proof. intros E. unfold write, deferred, bind, ask. rewrite E. by destruct w. Qed.

Lemma claim_run f name id r :
  match claim f name id r with
  | (_, r', Ok _) => (name = "" ∧ r' = r) ∨
      (ValidName name = Ok tt ∧ links r !! name = None ∧ r' = set_links <[name := Link (link_target id)]> r)
  | (_, r', Err _) => f ≠ LinkSyncFails → r' = r
  end.
Proof.
  unfold claim. destruct (String.eqb_spec name "") as [->|Hne]; [by left|]. unfold bind, ask.
  destruct (ValidName name) as [[]|]; [|done]. cbn [map_err]. destruct (links r !! name) eqn:E; [done|].
  destruct f; simpl; naive_solver.
Qed.

Lemma Resolve_claimed r name id :
  ValidName name = Ok tt → ValidID id = Ok tt → links r !! name = Some (Link (link_target id)) → Resolve r name = Ok id.
Proof.
  intros Hn Hv Hl. unfold Resolve. rewrite (ValidName_plain name Hn), Hl.
  unfold name_exists. rewrite bool_decide_eq_true_2 by (rewrite elem_of_elements, elem_of_dom; eauto). simpl.
  rewrite Base_link_target by done. unfold ValidID in Hv. by rewrite Hv.
Qed.

(** A create is all or nothing. One that succeeds made an id nobody held, whose record reads back as it was
    asked for, moved the generation, claimed the name if there was one and it was free, so that it resolves to
    the new id, and touched no other sandbox. One that fails and can clean up leaves every record and every name
    as it was. *)
Theorem Create_all_or_nothing c sb r t r' a :
  ids_ok (cc_claim c) → Create c sb r = (t, r', a) →
  match a with
  | Ok sb' =>
      sb' = set_ID (ID sb') sb ∧ dirs r !! ID sb' = None ∧ Get r' (ID sb') = Ok (json_sandbox sb') ∧ gen r < gen r' ∧
      (∀ id, id ≠ ID sb' → dirs r' !! id = dirs r !! id) ∧
      (Name sb = "" ∧ links r' = links r ∨
       links r !! Name sb = None ∧ Resolve r' (Name sb) = Ok (ID sb') ∧ links r' = <[Name sb := Link (link_target (ID sb'))]> (links r))
  | Err _ => cc_link c ≠ LinkSyncFails → cc_remove c = Removed → links r' = links r ∧ ∀ id, record r' id = record r id
  end.
Proof.
  intros Hids. unfold Create. unfold bind at 1. unfold check. destruct (String.eqb (ID sb) ""); [|by intros [= <- <- <-]].
  cbn [ret]. unfold bind at 1. destruct (State_Valid (SState sb)) eqn:Hs; [|by intros [= <- <- <-]]. cbn [ret].
  unfold bind at 1. destruct (claimIn (cc_claim c) r) as [[t1 r1] [id|e]] eqn:Ec; apply claimIn_run in Ec.
  2: { intros [= <- <- <-] _ _. destruct Ec as [->|(i & Hi & ->)]; [done|]. split; [done|]. intros j.
       rewrite record_insert. case_decide as E; [|done]. subst. unfold record. by rewrite Hi. }
  destruct Ec as (Hin & Hfree & ->). pose proof (generated_ValidID id (Hids id Hin)) as Hv.
  assert (Hsame : ∀ r2, links r2 = links r → dirs r2 = delete id (<[id := EntryDir None]> (dirs r)) →
    links r2 = links r ∧ ∀ j, record r2 j = record r j).
  { intros r2 El Ed. split; [done|]. intros j. unfold record. rewrite Ed, delete_insert_eq, delete_id by done. done. }
  destruct (negb (forallb (λ b, b) (cc_admit c))).
  { unfold refused. destruct (RemoveAll (cc_remove c) id _) as [[t2 r2] y] eqn:Er. intros [= <- <- <-] _ Hc.
    rewrite Hc in Er. cbn [RemoveAll] in Er. unfold touch in Er. injection Er as <- <- <-. by apply Hsame. }
  destruct (set_ID_other id sb) as (En & _ & _ & _ & _ & Ei). set (r1 := set_dirs <[id := EntryDir None]> r) in *.
  unfold bind at 1, give_back at 1.
  destruct (write_run (cc_write c) (set_ID id sb) r1 None) as [Ew Ea]; [rewrite Ei; apply lookup_insert_eq|].
  destruct (write (cc_write c) (set_ID id sb) r1) as [[t2 r2] x]. cbn [fst snd] in Ew, Ea. subst x. rewrite Ei in Ew.
  assert (Hrm : ∀ r3, links r3 = links r → dirs r3 = delete id (dirs r2) → links r3 = links r ∧ ∀ j, record r3 j = record r j).
  { intros r3 El Ed. apply Hsame; [done|]. rewrite Ed, Ew. destruct (wrote (cc_write c)); [|done].
    unfold r1. cbn [dirs bump set_dirs]. by rewrite !delete_insert_eq. }
  destruct (write_ok (cc_write c)) eqn:Ewo.
  2: { destruct (RemoveAll (cc_remove c) id r2) as [[t3 r3] y] eqn:Er. intros [= <- <- <-] _ Hc. rewrite Hc in Er.
       cbn [RemoveAll] in Er. unfold touch in Er. injection Er as <- <- <-. apply Hrm; [|done]. rewrite Ew.
       by destruct (wrote (cc_write c)). }
  assert (Hw : wrote (cc_write c) = true) by (by destruct (cc_write c)). rewrite Hw in Ew.
  unfold bind, give_back. pose proof (claim_run (cc_link c) (Name (set_ID id sb)) id r2) as Hcl. rewrite En in *.
  destruct (claim (cc_link c) (Name sb) id r2) as [[t3 r3] [[]|e]].
  - intros [= <- <- <-]. rewrite Ei. unfold r1, bump, set_dirs in Ew. cbn [dirs links checkpoints gen] in Ew.
    assert (Ed : dirs r3 = <[id := EntryDir (Some (RecordOf (json_sandbox (set_ID id sb))))]> (dirs r)).
    { destruct Hcl as [[_ ->]|(_ & _ & ->)]; rewrite Ew; cbn [dirs set_links]; by rewrite insert_insert_eq. }
    assert (Eg : gen r3 = gen r + 1) by (destruct Hcl as [[_ ->]|(_ & _ & ->)]; by rewrite Ew).
    split_and!; [done|done| |lia| |].
    + unfold Get. rewrite Hv, Ed. by rewrite lookup_insert_eq.
    + intros j Hj. rewrite Ed. by rewrite lookup_insert_ne.
    + destruct Hcl as [[-> ->]|(Hvn & Hl & ->)]; [left; by rewrite Ew|]. right. rewrite Ew in Hl |- *.
      cbn [links set_links] in *. split_and!; [done| |done]. apply Resolve_claimed; [done..|apply lookup_insert_eq].
  - destruct (RemoveAll (cc_remove c) id r3) as [[t4 r4] y] eqn:Er. intros [= <- <- <-] Hf Hc. rewrite Hc in Er.
    cbn [RemoveAll] in Er. unfold touch in Er. injection Er as <- <- <-. rewrite (Hcl Hf). apply Hrm; [|done]. by rewrite Ew.
Qed.

(** * The generation

    A reader sees the repository between any two changes. A change of what [ListReadable] answers is always
    followed, in the same operation, by a move of the generation, and the generation moves in steps of one
    that change nothing else. *)

(** The records a list can show. *)
Definition visible (r : repo) (name : string) : option Sandbox :=
  match ValidID name with Ok _ => record r name | Err _ => None end.

Lemma omap_filter_Some {A B} (f : A → option B) (l : list A) : omap f l = omap f (filter (λ x, is_Some (f x)) l).
Proof.
  induction l as [|x l IH]; [done|]. rewrite filter_cons. case_decide as H.
  - destruct H as [y Hy]. simpl. rewrite Hy. f_equal. exact IH.
  - apply eq_None_not_Some in H. simpl. rewrite H. exact IH.
Qed.

Lemma omap_omap {A B C} (f : A → option B) (g : B → option C) (l : list A) :
  omap g (omap f l) = omap (λ x, f x ≫= g) l.
Proof.
  induction l as [|x l IH]; [done|]. simpl. destruct (f x) as [y|]; simpl; [|exact IH].
  destruct (g y); [f_equal|]; exact IH.
Qed.

Lemma omap_ext {A B} (f g : A → option B) (l : list A) : (∀ x, f x = g x) → omap f l = omap g l.
Proof. intros H. induction l as [|x l IH]; [done|]. simpl. rewrite H. destruct (g x); [f_equal|]; exact IH. Qed.

Lemma readable_visible r : readable (walk r) = omap (visible r) (sorted_names (dirs r)).
Proof.
  unfold readable, walk. rewrite omap_omap. apply omap_ext. intros n. unfold walk_entry, visible, record, Get.
  destruct (ValidID n) as [[]|]; by destruct (dirs r !! n) as [[|[[]|]]|].
Qed.

Lemma sorted_names_StronglySorted {A} (m : gmap string A) : StronglySorted String.le (sorted_names m).
Proof. apply Sorted_StronglySorted; [apply _|]. unfold sorted_names. apply Sorted_merge_sort, _. Qed.

Lemma sorted_names_NoDup {A} (m : gmap string A) : NoDup (sorted_names m).
Proof. unfold sorted_names. rewrite merge_sort_Permutation. apply NoDup_elements. Qed.

Lemma StronglySorted_filter_le (P : string → Prop) `{∀ x, Decision (P x)} (l : list string) :
  StronglySorted String.le l → StronglySorted String.le (filter P l).
Proof.
  induction 1 as [|x l Hs IH Hx]; [constructor|]. rewrite filter_cons. case_decide; [|done].
  constructor; [done|]. apply Forall_forall. intros y [_ Hy]%list_elem_of_filter. rewrite Forall_forall in Hx. auto.
Qed.

(** What a list answers depends on the visible records alone. *)
Lemma ListReadable_visible r r' : (∀ n, visible r n = visible r' n) → ListReadable r = ListReadable r'.
Proof.
  intros H. unfold ListReadable, List. cbn [fst]. f_equal. rewrite !readable_visible, omap_filter_Some, (omap_filter_Some (visible r')).
  assert (E : filter (λ x, is_Some (visible r x)) (sorted_names (dirs r))
            = filter (λ x, is_Some (visible r' x)) (sorted_names (dirs r'))).
  { apply (Sorted_unique String.le).
    - apply StronglySorted_Sorted, StronglySorted_filter_le, sorted_names_StronglySorted.
    - apply StronglySorted_Sorted, StronglySorted_filter_le, sorted_names_StronglySorted.
    - apply NoDup_Permutation; [apply NoDup_filter, sorted_names_NoDup..|]. intros n. rewrite !list_elem_of_filter, !sorted_names_spec, H.
      split; intros [Hs _]; (split; [done|]).
      + unfold visible, record in Hs. destruct (ValidID n); [|by destruct Hs]. by destruct (dirs r' !! n); [|destruct Hs].
      + rewrite <- H in Hs. unfold visible, record in Hs. destruct (ValidID n); [|by destruct Hs].
        by destruct (dirs r !! n); [|destruct Hs]. }
  rewrite E. by apply omap_ext.
Qed.

(** One change: the generation stays, or it moves by one and the records stay. *)
Definition step_ok (a b : repo) : Prop := gen b = gen a ∨ (gen b = gen a + 1 ∧ ∀ n, visible b n = visible a n).

Definition moves (a b : repo) : Prop := gen b = gen a + 1.
Definition shows (a b : repo) : Prop := ∃ n, visible b n ≠ visible a n.

Fixpoint moves_in (r : repo) (t : list repo) : Prop :=
  match t with [] => False | s :: t => moves r s ∨ moves_in s t end.

(** [announced r t]: along the states [t] from [r], each step is one of these, and a step that shows is
    followed by one that moves the generation. *)
Fixpoint announced (r : repo) (t : list repo) : Prop :=
  match t with
  | [] => True
  | s :: t => step_ok r s ∧ ((∀ n, visible s n = visible r n) ∨ moves_in s t) ∧ announced s t
  end.

Lemma last_app_default {A} (x : A) (t1 t2 : list A) : default x (last (t1 ++ t2)) = default (default x (last t1)) (last t2).
Proof. destruct t2 as [|y t2 _] using rev_ind; [by rewrite (right_id_L [] (++))|]. by rewrite (assoc_L (++)), !last_snoc. Qed.

Lemma moves_in_app r t1 t2 : moves_in r t1 ∨ moves_in (default r (last t1)) t2 → moves_in r (t1 ++ t2).
Proof.
  revert r. induction t1 as [|s t1 IH]; intros r; [naive_solver|]. rewrite last_cons. intros [[?|?]|?]; [by left|right; auto..].
  apply IH. right. by destruct (last t1).
Qed.

Lemma announced_app r t1 t2 : announced r t1 → announced (default r (last t1)) t2 → announced r (t1 ++ t2).
Proof.
  revert r. induction t1 as [|s t1 IH]; intros r; [done|]. rewrite last_cons. intros (Hs & Hm & Ha) H2.
  split_and!; [done| |apply IH; [done|by destruct (last t1)]]. destruct Hm; [by left|]. right. apply moves_in_app. by left.
Qed.

Lemma announced_bumped r t : Forall (λ s, gen s = gen r) t → announced r (t ++ [bump (default r (last t))]).
Proof.
  revert r. induction t as [|s t IH]; intros r; [simpl; intros _; split_and!; [by right|by left|done]|].
  intros [Hs Ht]%Forall_cons. rewrite last_cons. rewrite <- app_comm_cons.
  assert (E2 : bump (default r match last t with Some x => Some x | None => Some s end) = bump (default s (last t)))
    by (by destruct (last t)).
  rewrite E2. split_and!; [by left| |apply IH; by rewrite Hs].
  right. apply moves_in_app. right. by left.
Qed.

(** Operations that leave the generation alone, and operations that announce what they show. *)
Definition keeps_gen {A} (m : rop A) : Prop :=
  ∀ r, let '(t, r', _) := m r in Forall (λ s, gen s = gen r) t ∧ r' = default r (last t).

Definition announces {A} (P : repo → Prop) (m : rop A) (Q : A → repo → Prop) : Prop :=
  ∀ r, P r → let '(t, r', a) := m r in
    announced r t ∧ r' = default r (last t) ∧ match a with Ok a => Q a r' | Err _ => True end.

Lemma gen_bind {A B} (m : rop A) (k : A → rop B) : keeps_gen m → (∀ a, keeps_gen (k a)) → keeps_gen (bind m k).
Proof.
  intros Hm Hk r. specialize (Hm r). unfold bind. destruct (m r) as [[t r1] [a|e]]; [|done]. destruct Hm as [Ht ->].
  specialize (Hk a (default r (last t))). destruct (k a _) as [[t2 r2] b]. destruct Hk as [Ht2 ->].
  split; [|by rewrite last_app_default]. apply Forall_app. split; [done|]. eapply Forall_impl; [done|]. intros s ->.
  destruct (last t) as [y|] eqn:E; [|done]. rewrite Forall_forall in Ht. apply Ht. by apply last_Some_elem_of.
Qed.

Lemma keeps_touch f : (∀ r, gen (f r) = gen r) → keeps_gen (touch f).
Proof. intros H r. simpl. by rewrite Forall_singleton. Qed.

Lemma keeps_pure {A} f : keeps_gen (ask (A := A) f).
Proof. intros r. simpl. split; [constructor|done]. Qed.

Lemma gen_fail {A} e : keeps_gen (fail (A := A) e).
Proof. intros r. simpl. split; [constructor|done]. Qed.

Lemma gen_check e b : keeps_gen (check e b).
Proof. destruct b; intros r; (split; [constructor|done]). Qed.

#[local] Hint Resolve gen_bind keeps_touch keeps_pure gen_fail gen_check : core.

Lemma announces_deferred {A} (P : repo → Prop) (m : rop A) : keeps_gen m → announces P (deferred bump m) (λ _ _, True).
Proof.
  intros Hm r _. specialize (Hm r). unfold deferred. destruct (m r) as [[t r1] a]. destruct Hm as [Ht ->].
  split_and!; [by apply announced_bumped|by rewrite last_snoc|by destruct a].
Qed.

Lemma announces_bind {A B} (P : repo → Prop) (m : rop A) (k : A → rop B) M Q :
  announces P m M → (∀ a, announces (M a) (k a) Q) → announces P (bind m k) Q.
Proof.
  intros Hm Hk r Hp. specialize (Hm r Hp). unfold bind. destruct (m r) as [[t r1] [a|e]]; [|done]. destruct Hm as (Ht & -> & Hq).
  specialize (Hk a _ Hq). destruct (k a _) as [[t2 r2] b]. destruct Hk as (Ht2 & -> & Hb).
  split_and!; [by apply announced_app|by rewrite last_app_default|done].
Qed.

Lemma announces_ask {A} (P : repo → Prop) f (Q : A → repo → Prop) :
  (∀ r a, P r → f r = Ok a → Q a r) → announces P (ask f) Q.
Proof. intros H r Hp. simpl. split_and!; [done..|]. destruct (f r) eqn:E; eauto. Qed.

Lemma announces_fail {A} (P : repo → Prop) e (Q : A → repo → Prop) : announces P (fail e) Q.
Proof. intros r _. done. Qed.

Lemma announces_ret {A} (P : repo → Prop) a (Q : A → repo → Prop) : (∀ r, P r → Q a r) → announces P (ret a) Q.
Proof. intros H r Hp. simpl. auto. Qed.

Lemma announces_check (P : repo → Prop) e (b : bool) (Q : unit → repo → Prop) :
  (b = true → ∀ r, P r → Q tt r) → announces P (check e b) Q.
Proof. intros H r Hp. destruct b; simpl; auto. Qed.

Lemma announces_touch (P : repo → Prop) f (Q : unit → repo → Prop) :
  (∀ r, P r → gen (f r) = gen r ∧ (∀ n, visible (f r) n = visible r n) ∧ Q tt (f r)) → announces P (touch f) Q.
Proof. intros H r Hp. destruct (H r Hp) as (Hg & Hv & Hq). simpl. split_and!; [by left|by left|done..]. Qed.

Lemma announces_weaken {A} (P P' : repo → Prop) (m : rop A) (Q Q' : A → repo → Prop) :
  announces P' m Q' → (∀ r, P r → P' r) → (∀ a r, Q' a r → Q a r) → announces P m Q.
Proof.
  intros Hm Hp Hq r H. specialize (Hm r (Hp r H)). destruct (m r) as [[t r1] a]. destruct Hm as (? & ? & ?).
  split_and!; [done..|]. destruct a; auto.
Qed.

Lemma keeps_RemoveAll f id : keeps_gen (RemoveAll f id).
Proof. destruct f as [|[]]; cbn [RemoveAll]; auto. Qed.

Lemma keeps_removeTrash n calls trash : keeps_gen (removeTrash n calls trash).
Proof. induction n as [|n IH]; cbn [removeTrash]; auto. destruct (calls n); auto. Qed.

Lemma announces_give_back {A} c id (m : rop A) P Q : announces P m Q → announces P (give_back c id m) Q.
Proof.
  intros Hm r Hp. specialize (Hm r Hp). unfold give_back. destruct (m r) as [[t r1] [a|e]]; [done|].
  destruct Hm as (Ht & -> & _). pose proof (keeps_RemoveAll (cc_remove c) id (default r (last t))) as Hr.
  destruct (RemoveAll (cc_remove c) id _) as [[t2 r2] x]. destruct Hr as [Hg ->].
  split_and!; [|by rewrite !last_app_default|done].
  apply announced_app; [done|]. by apply announced_bumped.
Qed.

Lemma announces_write P w sb : announces P (write w sb) (λ _ _, True).
Proof. apply announces_deferred. apply gen_bind; auto. intros has. destruct (has && wrote w); auto. Qed.

Lemma visible_insert r id e n :
  (∀ sb, e ≠ EntryDir (Some (RecordOf sb))) → record r id = None → visible (set_dirs <[id := e]> r) n = visible r n.
Proof.
  intros He Hr. unfold visible. destruct (ValidID n); [|done]. rewrite record_insert. case_decide as E; [|done]. subst.
  rewrite Hr. destruct e as [|[[]|]]; try done. by destruct (He sb).
Qed.

Lemma announces_claimIn c P : announces P (claimIn c) (λ id r, record r id = None).
Proof.
  unfold claimIn. generalize idAttempts. generalize (new_ids c). intros ids n. revert P n.
  induction ids as [|[id|] ids IH]; intros P [|n]; cbn [claim_go]; try apply announces_fail.
  eapply announces_bind with (M := λ b r, b = false → record r id = None).
  { apply announces_ask. intros r b _ [= <-] Hb. apply bool_decide_eq_false, eq_None_not_Some in Hb. unfold record. by rewrite Hb. }
  intros []; [apply IH|].
  eapply announces_bind with (M := λ _ r, record r id = None); [apply announces_check; auto|intros _].
  eapply announces_bind with (M := λ _ r, record r id = None).
  { apply announces_touch. intros r Hr. split_and!; [done| |rewrite record_insert; by rewrite decide_True].
    intros m. by apply visible_insert. }
  intros _. eapply announces_bind with (M := λ _ r, record r id = None); [by apply announces_check|intros _].
  by apply announces_ret.
Qed.

Lemma announces_RemoveAll f id Q :
  (∀ r, Q r) → announces (λ r, record r id = None) (RemoveAll f id) (λ _ r, Q r).
Proof.
  intros HQ. destruct f as [|[]]; cbn [RemoveAll]; [|apply announces_fail|].
  - apply announces_touch. intros r Hr. split_and!; [done| |done]. intros n. unfold visible. destruct (ValidID n); [|done].
    rewrite record_delete. case_decide; [|done]. by subst.
  - eapply announces_bind with (M := λ _ _, True); [|intros; apply announces_fail].
    apply announces_touch. intros r Hr. split_and!; [done| |done]. intros n. unfold visible. destruct (ValidID n); [|done].
    unfold record, set_dirs in *. cbn [dirs]. rewrite lookup_alter. case_decide; [subst|done]. rewrite Hr. by destruct (dirs r !! n).
Qed.

Lemma announces_claim f name id P : announces P (claim f name id) (λ _ _, True).
Proof.
  unfold claim. destruct (String.eqb name ""); [by apply announces_ret|].
  eapply announces_bind with (M := λ _ _, True); [by apply announces_ask|]. intros _.
  eapply announces_bind with (M := λ _ _, True); [by apply announces_ask|]. intros [h|]; [apply announces_fail|].
  destruct f; [by apply announces_touch|apply announces_fail|].
  eapply announces_bind with (M := λ _ _, True); [by apply announces_touch|intros _; apply announces_fail].
Qed.

Lemma announces_run q P : announces P (run q) (λ _ _, True).
Proof.
  destruct q as [c sb|w id mutate|c id|removes synced]; cbn [run].
  - eapply announces_bind with (M := λ _ _, True); [|by intros; apply announces_ret]. unfold Create.
    eapply announces_bind with (M := λ _ _, True); [by apply announces_check|intros _].
    eapply announces_bind with (M := λ _ _, True); [by apply announces_check|intros _].
    eapply announces_bind with (M := λ id r, record r id = None); [apply announces_claimIn|intros id].
    destruct (negb (forallb (λ b, b) (cc_admit c))).
    + intros r Hr. unfold refused. pose proof (announces_RemoveAll (cc_remove c) id (λ _, True) (λ _, I) r Hr) as H.
      destruct (RemoveAll (cc_remove c) id r) as [[t r1] x]. naive_solver.
    + eapply announces_bind with (M := λ _ _, True); [apply announces_give_back, announces_write|intros _].
      eapply announces_bind with (M := λ _ _, True); [apply announces_give_back, announces_claim|by intros _; apply announces_ret].
  - unfold Update. eapply announces_bind with (M := λ _ _, True); [by apply announces_ask|intros sb].
    destruct (mutate sb); [|apply announces_fail].
    do 3 (eapply announces_bind with (M := λ _ _, True); [by apply announces_check|intros _]). apply announces_write.
  - unfold Delete. eapply announces_bind with (M := λ _ _, True); [by apply announces_ask|intros sb].
    apply announces_deferred. unfold drop_name, remove_checkpoint. repeat (apply gen_bind; [|intros]); auto using keeps_removeTrash.
    + destruct (String.eqb (Name sb) ""); [apply (keeps_pure (λ _, Ok tt))|]. apply gen_bind; [auto|]. intros [[]|]; auto.
      * destruct (negb _); [apply (keeps_pure (λ _, Ok tt))|]. destruct (dc_drop c); auto.
      * apply (keeps_pure (λ _, Ok tt)).
    + destruct (dc_checkpoint c); auto.
    + destruct (dc_checkpoint_tmp c); auto.
  - unfold SweepCheckpointTmp. eapply announces_bind with (M := λ _ _, True); [by apply announces_ask|intros before].
    eapply announces_bind with (M := λ _ _, True).
    { generalize (merge_sort String.le (elements before)). intros names. clear P. induction names as [|x names IH]; cbn [sweep_go].
      - by apply announces_ret.
      - destruct (negb _); [apply IH|]. eapply announces_bind with (M := λ _ _, True); [by apply announces_ask|]. intros []; [apply IH|].
        eapply announces_bind with (M := λ _ _, True); [|intros _; apply IH]. unfold remove_checkpoint.
        destruct (removes x); [by apply announces_touch|apply announces_fail]. }
    intros _. eapply announces_bind with (M := λ _ _, True); [by apply announces_ask|intros after].
    case_bool_decide; [by apply announces_ret|by apply announces_check].
Qed.

(** ** Requests one after the other, seen at every instant *)

Fixpoint timeline (r : repo) (qs : list request) : list repo :=
  match qs with
  | [] => []
  | q :: qs => (run q r).1.1 ++ timeline (run q r).1.2 qs
  end.

(** The repository after [k] changes, and for good after the last one. *)
Definition instant (r : repo) (t : list repo) (k : nat) : repo := default r (last (take k t)).

Lemma timeline_announced r qs : announced r (timeline r qs).
Proof.
  revert r. induction qs as [|q qs IH]; intros r; cbn [timeline]; [done|].
  pose proof (announces_run q (λ _, True) r I) as H. destruct (run q r) as [[t r1] a]. destruct H as (Ht & -> & _).
  by apply announced_app.
Qed.

Lemma timeline_app r qs1 qs2 : ∃ t, timeline r (qs1 ++ qs2) = timeline r qs1 ++ t.
Proof.
  revert r. induction qs1 as [|q qs1 IH]; intros r; cbn [timeline app]; [by eexists|].
  destruct (IH (run q r).1.2) as [t ->]. exists t. by rewrite (assoc_L (++)).
Qed.

Lemma instant_S r s t k : instant r (s :: t) (S k) = instant s t k.
Proof. unfold instant. cbn [take]. rewrite last_cons. by destruct (last (take k t)). Qed.

Lemma instant_all r t : instant r t (length t) = default r (last t).
Proof. unfold instant. by rewrite firstn_all. Qed.

Lemma announced_mono r t i j : announced r t → (i ≤ j)%nat → gen (instant r t i) ≤ gen (instant r t j).
Proof.
  revert r i j. induction t as [|s t IH]; intros r i j Ha Hij; [unfold instant; rewrite !take_nil; lia|].
  destruct Ha as (Hs & _ & Ha). destruct j as [|j]; [by replace i with 0%nat by lia|]. rewrite instant_S.
  destruct i as [|i]; [|rewrite instant_S; apply IH; [done|lia]].
  specialize (IH s 0%nat j Ha ltac:(lia)). change (instant s t 0) with s in IH. change (instant r (s :: t) 0) with r.
  destruct Hs as [?|[? _]]; lia.
Qed.

Lemma moves_in_gen r t : announced r t → moves_in r t → gen r < gen (default r (last t)).
Proof.
  revert r. induction t as [|s t IH]; intros r; [done|]. intros (Hs & Hm & Ha) Hin. rewrite last_cons.
  assert (E : default r match last t with Some x => Some x | None => Some s end = default s (last t)) by (by destruct (last t)).
  rewrite E. destruct Hin as [Hmv|Hin].
  - pose proof (announced_mono s t 0 (length t) Ha ltac:(lia)) as H. rewrite instant_all in H.
    change (instant s t 0) with s in H. unfold moves in Hmv. lia.
  - specialize (IH s Ha Hin). destruct Hs as [?|[? _]]; lia.
Qed.

Lemma same_generation r t i :
  announced r t → gen (instant r t i) = gen (default r (last t)) →
  ∀ n, visible (instant r t i) n = visible (default r (last t)) n.
Proof.
  revert r i. induction t as [|s t IH]; intros r i Ha Hg n; [unfold instant; by rewrite take_nil|].
  destruct Ha as (Hs & Hm & Ha). rewrite last_cons in *.
  assert (E : default r match last t with Some x => Some x | None => Some s end = default s (last t)) by (by destruct (last t)).
  rewrite E in *. destruct i as [|i]; [|rewrite instant_S in *; by apply IH].
  change (instant r (s :: t) 0) with r in *.
  pose proof (announced_mono s t 0 (length t) Ha ltac:(lia)) as Hmono. rewrite instant_all in Hmono.
  change (instant s t 0) with s in Hmono.
  destruct Hm as [Hv|Hm]; [|apply moves_in_gen in Hm; [|done]; destruct Hs as [?|[? _]]; lia].
  rewrite <- Hv. apply (IH s 0%nat); [done|]. change (instant s t 0) with s.
  destruct Hs as [?|[? _]]; lia.
Qed.

(** An instant at which the first requests are done and none has begun. *)
Definition quiescent (r : repo) (qs : list request) (k : nat) : Prop :=
  ∃ done_ rest, qs = done_ ++ rest ∧ k = length (timeline r done_).

Lemma same_list r qs i j :
  (i ≤ j)%nat → quiescent r qs j → gen (instant r (timeline r qs) i) = gen (instant r (timeline r qs) j) →
  ListReadable (instant r (timeline r qs) i) = ListReadable (instant r (timeline r qs) j).
Proof.
  intros Hij (qs1 & qs2 & -> & ->). destruct (timeline_app r qs1 qs2) as [t ->].
  assert (Ej : instant r (timeline r qs1 ++ t) (length (timeline r qs1)) = default r (last (timeline r qs1))).
  { unfold instant. by rewrite take_app_length. }
  assert (Ei : instant r (timeline r qs1 ++ t) i = instant r (timeline r qs1) i).
  { unfold instant. by rewrite take_app_le. }
  rewrite Ej, Ei. intros Hg. apply ListReadable_visible. apply same_generation; [apply timeline_announced|done].
Qed.

(** The repository keeps the promise the broker's cache relies on. *)
#[export] Instance repository_history (r : repo) (qs : list request) : RecordsHistory.
Proof.
  refine {|
    generation k := gen (instant r (timeline r qs) k);
    listing k := Some (ListReadable (instant r (timeline r qs) k));
    settled := quiescent r qs |}.
  - intros i j H. by apply announced_mono; [apply timeline_announced|].
  - intros i j Hij Hg Hq. f_equal. by apply same_list.
Defined.

(** C33: The generation never misses a change. Between any instant, in the middle of a write too, and a later one
    at which the requests begun are done, whatever failed in them: the generation never goes back, and if it is
    the same, the readable records are the same. *)
Theorem Generation_never_misses r qs i j :
  (i ≤ j)%nat →
  gen (instant r (timeline r qs) i) ≤ gen (instant r (timeline r qs) j) ∧
  (quiescent r qs j → gen (instant r (timeline r qs) i) = gen (instant r (timeline r qs) j) →
   ListReadable (instant r (timeline r qs) i) = ListReadable (instant r (timeline r qs) j)).
Proof. intros H. split; [apply announced_mono; [apply timeline_announced|done]|intros; by apply same_list]. Qed.

(** * Witnesses *)

Definition one_id : claim_calls := MkClaimCalls [Some "amber-badger-ff0a"] true true.
Definition fine_create : create_calls := MkCreateCalls one_id [true] Landed LinkFine Removed.
Definition web : Sandbox :=
  MkSandbox "" "web" "alpine" "" "" "" "gvisor" "" StatePending "" "" "" "" "" None "" false 0 "" PrefixZero "" (MkResources 0 0 0 0) []
    false [] [] "" [] 0 0 0.
Definition web_repo : repo := (Create fine_create web new_repo).1.2.

Lemma one_id_ok : ids_ok one_id.
Proof.
  intros id Hin. apply list_elem_of_singleton in Hin as [= ->]. exists 0, 1, 255, 10. by split_and!.
Qed.

(** The create of [web] after one of [db] whose sync of the name index fails. *)
Definition anchor_id : claim_calls := MkClaimCalls [Some "ancient-anchor-0000"] true true.
Definition db_fails : request :=
  ReqCreate (MkCreateCalls anchor_id [true] Landed LinkSyncFails Removed)
    (MkSandbox "" "db" "alpine" "" "" "" "gvisor" "" StatePending "" "" "" "" "" None "" false 0 "" PrefixZero "" (MkResources 0 0 0 0) []
       false [] [] "" [] 0 0 0).
Definition leaked_repo : repo := (run db_fails new_repo).1.2.
Definition web_after : repo := (run (ReqCreate fine_create web) leaked_repo).1.2.

Lemma anchor_id_ok : ids_ok anchor_id.
Proof.
  intros id Hin. apply list_elem_of_singleton in Hin as [= ->]. exists 1, 0, 0, 0. by split_and!.
Qed.

Lemma Resolve_names_witness :
  (run db_fails new_repo).2 = Err ESyncFails ∧
  Resolve web_after "db" = Ok "ancient-anchor-0000" ∧ Get web_after "ancient-anchor-0000" = Err ENotFound ∧
  Resolve web_after "web" = Ok "amber-badger-ff0a" ∧ ∃ sb, Get web_after "amber-badger-ff0a" = Ok sb ∧ Name sb = "web".
Proof.
  assert (H : Resolve web_after "web" = Ok "amber-badger-ff0a") by (vm_compute; reflexivity).
  split; [vm_compute; reflexivity|]. split; [vm_compute; reflexivity|]. split; [vm_compute; reflexivity|]. split; [exact H|].
  destruct (Resolve_names web_after (∅ ∪ {["db"]} ∪ ∅) "web" "amber-badger-ff0a") as [Hin|(sb & Hg & _ & Hn & _)];
    [|exact H|discriminate|clear -Hin; exfalso; set_solver|exists sb; exact (conj Hg Hn)].
  eapply rtc_l; [apply (cut_request db_fails new_repo leaked_repo)|apply rtc_once, (cut_request (ReqCreate fine_create web))].
  - apply anchor_id_ok.
  - apply (list_elem_of_lookup_2 _ 6). vm_compute. reflexivity.
  - apply one_id_ok.
  - apply (list_elem_of_lookup_2 _ 4). vm_compute. reflexivity.
Defined.

Lemma Create_all_or_nothing_witness :
  (Create fine_create web new_repo).2 = Ok (set_ID "amber-badger-ff0a" web) ∧ gen new_repo < gen web_repo.
Proof.
  assert (Ea : (Create fine_create web new_repo).2 = Ok (set_ID "amber-badger-ff0a" web)) by (vm_compute; reflexivity).
  split; [exact Ea|].
  pose proof (Create_all_or_nothing fine_create web new_repo _ _ _ one_id_ok (triple_eta _)) as H. rewrite Ea in H.
  exact (proj1 (proj2 (proj2 (proj2 H)))).
Defined.

Lemma Generation_never_misses_witness :
  gen (instant new_repo (timeline new_repo [ReqCreate fine_create web]) 1)
  ≤ gen (instant new_repo (timeline new_repo [ReqCreate fine_create web]) 4).
Proof. exact (proj1 (Generation_never_misses new_repo [ReqCreate fine_create web] 1 4 ltac:(lia))). Defined.

(** A sync of the name index that fails after the symlink leaks the name: the create answers an error and its
    record goes, but the link stays, so the name is taken by a sandbox that is not there. *)
Lemma Create_leaks_name :
  ∃ r, (Create (MkCreateCalls one_id [true] Landed LinkSyncFails Removed) web new_repo).2 = Err ESyncFails ∧
    r = (Create (MkCreateCalls one_id [true] Landed LinkSyncFails Removed) web new_repo).1.2 ∧
    Resolve r "web" = Ok "amber-badger-ff0a" ∧ Get r "amber-badger-ff0a" = Err ENotFound ∧
    (Create (MkCreateCalls (MkClaimCalls [Some "bold-fox-0000"] true true) [true] Landed LinkFine Removed) web r).2
      = Err (ENameTaken "amber-badger-ff0a").
Proof. eexists. split; [vm_compute; reflexivity|]. split; [reflexivity|]. split_and!; vm_compute; reflexivity. Qed.
