(* ===== verification/Network.v ===== *)
(** * The host network

    [services/network/]: the chains a policy compiles to and the floor under every policy
    ([egress.go]), the host's own addresses ([local.go]), the judge a VM's user-space stack asks
    ([judge.go]), and the layout of the subnet ([network.go]). *)

From S2P Require Import Prelude GoStrings Netip Models.
Local Open Scope Z_scope.

(** ** Chains: egress.go *)

Record Compiled : Type := MkCompiled {
  CID : string;
  CSum : string;
  CAction : Action;
  CProtocol : string;
  CPorts : list Z;
  CPrefixes : list Prefix
}.

Record Chain : Type := MkChain { ChAddress : Addr; ChPolicy : bool; ChRules : list Compiled }.

#[export] Instance Compiled_eq_dec : EqDecision Compiled.
Proof. solve_decision. Defined.
#[export] Instance Chain_eq_dec : EqDecision Chain.
Proof. solve_decision. Defined.

Definition privateRanges : list string :=
  ["10.0.0.0/8"; "172.16.0.0/12"; "192.168.0.0/16"; "169.254.0.0/16"; "127.0.0.0/8"; "100.64.0.0/10"].

(** [mustPrefixes]: a literal that does not parse panics at start, so it is [None] here. *)
Definition mustPrefixes (cidrs : list string) : option (list Prefix) := mapM ParsePrefix cidrs.

Definition Private : list Prefix := default [] (mustPrefixes privateRanges).

Definition Groups (name : string) : option (list Prefix) :=
  if String.eqb name "any" then Some (default [] (mustPrefixes ["0.0.0.0/0"]))
  else if String.eqb name "dns" then Some []
  else None.

(** A read of a Go map answers the zero value for a key it does not hold. *)
Definition group_prefixes (name : string) : list Prefix := default [] (Groups name).

Definition contains_addr (prefixes : list Prefix) (addr : Addr) : bool :=
  existsb (λ p, Prefix_Contains p addr) prefixes.

Lemma mustPrefixes_Private : mustPrefixes privateRanges = Some Private.
Proof. vm_compute. reflexivity. Qed.

Lemma group_prefixes_any : group_prefixes "any" = [MkPrefix (Addr4 0) 0].
Proof. vm_compute. reflexivity. Qed.

Lemma group_prefixes_dns : group_prefixes "dns" = [].
Proof. vm_compute. reflexivity. Qed.

Lemma group_prefixes_other v : v ≠ "any" → group_prefixes v = [].
Proof.
  intros H. unfold group_prefixes, Groups. rewrite (proj2 (String.eqb_neq _ _)) by done.
  by destruct (String.eqb v "dns").
Qed.


(** The rule ids a decision carries when no rule of the policy decided it. *)
Definition RulePrivate := "private".
Definition RuleDefault := "default".
Definition RuleLocal := "local".
Definition RuleNone := "none".
Definition RuleMissing := "missing".
Definition RuleResolve := "resolve".
Definition RuleUnapplied := "unapplied".

(** *** Rendering one rule for nft *)

Definition LogPrefix := "shard-egress".

Definition dquote : string := String (ascii_of_nat 34) "".

(** [fmt] prints the text in Go quotes; every prefix shard logs is plain ASCII with no quote in it. *)
Definition logLine (fields : string) : string :=
  "limit rate 2/second burst 10 packets log prefix " +:+ dquote +:+ LogPrefix +:+ " " +:+ fields +:+ " " +:+ dquote.

Definition logStatement (id : string) : string := logLine ("rule=" +:+ id).

Definition Prefix_String (p : Prefix) : string :=
  match paddr p with Addr4 v => String4 v +:+ "/" +:+ Itoa (pbits p) | _ => "invalid Prefix" end.

Definition render (rule : Compiled) : list string :=
  match CPrefixes rule with
  | [] => ["# no address"]
  | _ =>
      let parts :=
        ["ip daddr { " +:+ Join ", " (Prefix_String <$> CPrefixes rule) +:+ " }"]
        ++ (if negb (String.eqb (CProtocol rule) "") then ["meta l4proto " +:+ CProtocol rule] else [])
        ++ (match CPorts rule with
            | [] => []
            | _ => [CProtocol rule +:+ " dport { " +:+ Join ", " (Itoa <$> CPorts rule) +:+ " }"]
            end) in
      let rmatch := Join " " parts in
      if bool_decide (CAction rule = ActionAllow) then [rmatch +:+ " accept"]
      else [rmatch +:+ " " +:+ logLine ("rule=" +:+ CID rule +:+ " sum=" +:+ CSum rule); rmatch +:+ " drop"]
  end.

(** ** Held chains *)

(** What a compile answers beside its chains: nothing, the sandboxes it held, or a failure. *)
Inductive compile_error (E : Type) : Type :=
| HeldChains (errs : gmap string E)
| CompileFailed (e : E).
Arguments HeldChains {E} errs.
Arguments CompileFailed {E} e.

Section Held.
Context {E : Type}.

Definition splitHeld (chains : list Chain) (err : option (compile_error E))
  : result E (list Chain * option (gmap string E)) :=
  match err with
  | Some (HeldChains errs) => Ok (chains, Some errs)
  | Some (CompileFailed e) => Err e
  | None => Ok (chains, None)
  end.

(** [heldFor]: a held compile fails only the sandbox it held. *)
Definition heldFor (err : option (compile_error E)) (id : string) : option E :=
  match err with
  | Some (HeldChains errs) => errs !! id
  | Some (CompileFailed e) => Some e
  | None => None
  end.

(** [heldReported]: with a reporter, a held compile is reported and succeeds. *)
Definition heldReported (err : option (compile_error E)) (reports : bool) : option (compile_error E) :=
  match err with
  | Some (HeldChains _) => if reports then None else err
  | _ => err
  end.
End Held.

(** ** The host's own addresses: local.go *)

(** [hostRefresh], one second, in nanoseconds. *)
Definition hostRefresh : Z := 1000000000.

Definition broadcast : Addr := Addr4 (2 ^ 32 - 1).
Definition thisNetwork : Prefix := MkPrefix (Addr4 0) 8.

(** The cached answer of the last interface read, and when it was; [lread] is 0 before the first. *)
Record Local : Type := MkLocal { lowned : option (gset Addr); lread : Z }.

Definition hostOwned (addresses : option (list Addr)) (now : Z) (l : Local) : Local * option (gset Addr) :=
  if negb (lread l =? 0) && (now - lread l <? hostRefresh) then (l, lowned l)
  else
    let owned := match addresses with None => None | Some addrs => Some (list_to_set addrs) end in
    (MkLocal owned now, owned).

Definition Local_Contains (addresses : option (list Addr)) (now : Z) (l : Local) (addr : Addr) : Local * bool :=
  if IsUnspecified addr || Prefix_Contains thisNetwork addr || IsMulticast addr || bool_decide (addr = broadcast)
  then (l, true)
  else
    let '(l, owned) := hostOwned addresses now l in
    (l, match owned with None => true | Some owned => bool_decide (addr ∈ owned) end).

(** ** The judge: judge.go *)

Record Flow : Type := MkFlow { FGuest : Addr; FProtocol : string; FAddr : Addr; FPort : Z }.
Record Verdict : Type := MkVerdict { VAllow : bool; VRule : string }.

Record Judge : Type := MkJudge { applied : bool; chains : gmap Addr Chain }.

Definition judge_zero : Judge := MkJudge false ∅.

(** [Apply] replaces every chain at once; two chains of one address keep the later. *)
Definition Apply (cs : list Chain) (_ : Judge) : Judge :=
  MkJudge true (foldl (λ m c, <[ChAddress c := c]> m) ∅ cs).

Definition matches (rule : Compiled) (f : Flow) : bool :=
  if negb (contains_addr (CPrefixes rule) (FAddr f)) then false
  else if negb (String.eqb (CProtocol rule) "") && negb (String.eqb (CProtocol rule) (FProtocol f)) then false
  else bool_decide (CPorts rule = []) || contains (CPorts rule) (FPort f).

(** [local] is the verdict of [Local_Contains] for the destination at the time of the flow. *)
Definition Judge_Judge (local : bool) (j : Judge) (f : Flow) : Verdict :=
  if local then MkVerdict false RuleLocal
  else if contains_addr Private (FAddr f) then MkVerdict false RulePrivate
  else if negb (applied j) then MkVerdict false RuleUnapplied
  else match chains j !! FGuest f with
       | None => MkVerdict true RuleNone
       | Some chain =>
           if negb (ChPolicy chain) then MkVerdict true RuleNone
           else match first_match (λ r, matches r f) (ChRules chain) with
                | Some rule => MkVerdict (bool_decide (CAction rule = ActionAllow)) (CID rule)
                | None => MkVerdict false RuleDefault
                end
       end.

Definition Judge_Fronted (j : Judge) (guest : Addr) : bool := bool_decide (is_Some (chains j !! guest)).
