(* ===== verification/Pool.v ===== *)
(** * The address pool

    [services/network/pool.go]: one address per sandbox, a lease being a file named after the address that
    holds the sandbox's id. The file is created with O_EXCL, so a claim is one atomic step of the
    directory; which of its later system calls fails is an argument. *)

From S2P Require Import Prelude GoStrings Netip Store Secret.
Local Open Scope Z_scope.

Inductive lease : Type :=
| LeaseUnreadable
| Lease (data : string).

Inductive pool_error : Type :=
| ErrNoFreeAddress
| EReadLeases
| EReadLease (path : string)
| EClaim (path : string)
| EWriteLease (path : string)
| ESyncLeases
| ERemoveLease (path : string).

Record pool : Type := MkPool { subnet : Prefix; first : Addr }.

Abbreviation leases := (gmap string lease).

(** [path] below the lease directory; every address of an IPv4 subnet is printed in dotted decimal. *)
Definition path (address : Addr) : string := match address with Addr4 v => String4 v | _ => "" end.

(** [strings.TrimRight(s, cutset)]. *)
Fixpoint TrimRight (s cutset : string) : string :=
  match s with
  | EmptyString => EmptyString
  | String c s =>
      match TrimRight s cutset with
      | EmptyString => if contains_char c cutset then EmptyString else String c EmptyString
      | t => String c t
      end
  end.

Definition newline : string := String (ascii_of_nat 10) "".
Definition crlf : string := String (ascii_of_nat 13) newline.

Definition holder (dir : leases) (address : Addr) : result pool_error string :=
  match dir !! path address with
  | None => Ok ""
  | Some LeaseUnreadable => Err (EReadLease (path address))
  | Some (Lease data) => Ok (TrimRight data crlf)
  end.

(** The leases of this pool among the entries of the directory: a name that is an address of the subnet. *)
Definition lease_address (p : pool) (name : string) : option Addr :=
  address ← ParseAddr name; if Prefix_Contains (subnet p) address then Some address else None.

Fixpoint find_go (p : pool) (dir : leases) (id : string) (names : list string) : result pool_error (option Addr) :=
  match names with
  | [] => Ok None
  | name :: names =>
      match lease_address p name with
      | None => find_go p dir id names
      | Some address =>
          match holder dir address with
          | Err e => Err e
          | Ok h => if String.eqb h id then Ok (Some address) else find_go p dir id names
          end
      end
  end.

Definition find (p : pool) (dir : leases) (id : string) : result pool_error (option Addr) :=
  find_go p dir id (sorted_names dir).

Definition addr_le (a b : Addr) : Prop := Addr_Compare a b ≠ Gt.
#[export] Instance addr_le_dec : RelDecision addr_le.
Proof. intros a b. unfold addr_le. apply _. Defined.

Definition held (p : pool) (dir : leases) : list Addr :=
  merge_sort addr_le (omap (lease_address p) (sorted_names dir)).

(** How the system calls of one claim go, once the name is free. A failed write leaves the part it landed,
    and its [os.Remove] may fail too. *)
Inductive claim_fault : Type :=
| ClaimFine
| ClaimOpenFails
| ClaimWriteFails (landed : string) (removed : bool)
| ClaimSyncDirFails.

Definition claim (fault : claim_fault) (dir : leases) (address : Addr) (id : string) : leases * result pool_error bool :=
  match dir !! path address with
  | Some _ => (dir, Ok false)
  | None =>
      match fault with
      | ClaimOpenFails => (dir, Err (EClaim (path address)))
      | ClaimWriteFails landed removed =>
          (if removed then dir else <[path address := Lease landed]> dir, Err (EWriteLease (path address)))
      | ClaimSyncDirFails => (<[path address := Lease (id +:+ newline)]> dir, Err ESyncLeases)
      | ClaimFine => (<[path address := Lease (id +:+ newline)]> dir, Ok true)
      end
  end.

(** The candidates of the loop: from the first address up, without the last of the subnet. *)
Fixpoint allocate_go (fuel : nat) (fault : claim_fault) (p : pool) (dir : leases) (id : string) (candidate : Addr)
  : leases * result pool_error Addr :=
  match fuel with
  | O => (dir, Err ErrNoFreeAddress)
  | S fuel =>
      if negb (Prefix_Contains (subnet p) candidate) then (dir, Err ErrNoFreeAddress)
      else if negb (Prefix_Contains (subnet p) (Next candidate)) then (dir, Err ErrNoFreeAddress)
      else match claim fault dir candidate id with
           | (dir, Err e) => (dir, Err e)
           | (dir, Ok true) => (dir, Ok candidate)
           | (dir, Ok false) => allocate_go fuel fault p dir id (Next candidate)
           end
  end.

(** A subnet of n bits has 2^(32-n) addresses, so that many turns end the loop. *)
Definition pool_size (p : pool) : nat := Z.to_nat (2 ^ (32 - pbits (subnet p))).

Definition allocate (fault : claim_fault) (p : pool) (dir : leases) (id : string)
  : leases * result pool_error (Addr * bool) :=
  match find p dir id with
  | Err e => (dir, Err e)
  | Ok (Some address) => (dir, Ok (address, true))
  | Ok None =>
      match allocate_go (S (pool_size p)) fault p dir id (first p) with
      | (dir, Err e) => (dir, Err e)
      | (dir, Ok address) => (dir, Ok (address, false))
      end
  end.

Definition release (removed synced : bool) (p : pool) (dir : leases) (id : string) : leases * result pool_error unit :=
  match find p dir id with
  | Err e => (dir, Err e)
  | Ok None => (dir, Ok tt)
  | Ok (Some address) =>
      if bool_decide (is_Some (dir !! path address)) && negb removed then (dir, Err (ERemoveLease (path address)))
      else (delete (path address) dir, if synced then Ok tt else Err ESyncLeases)
  end.

(** * Leases *)

(** A pool [normalise] lays out: an IPv4 subnet with no host bits set, and a first address inside it. *)
Definition pool_ok (p : pool) : Prop :=
  ∃ base bits off, subnet p = MkPrefix (Addr4 base) bits ∧ first p = Addr4 (base + off) ∧
    0 ≤ bits ≤ 30 ∧ addr4_ok base ∧ base mod 2 ^ (32 - bits) = 0 ∧ 0 ≤ off < 2 ^ (32 - bits).

Definition crlf_free (id : string) : Prop := all_chars (λ c, negb (contains_char c crlf)) id = true.

Lemma TrimRight_newline id : crlf_free id → TrimRight (id +:+ newline) crlf = id.
Proof.
  unfold crlf_free. induction id as [|c id IH]; [done|]. cbn [all_chars]. intros H. breflect.
  rewrite app_cons. cbn [TrimRight]. rewrite IH by done. destruct id; [by rewrite H|done].
Qed.

Lemma path_inj v w : addr4_ok v → addr4_ok w → path (Addr4 v) = path (Addr4 w) → v = w.
Proof. apply String4_inj. Qed.

Lemma subnet_range base bits v :
  0 ≤ bits ≤ 32 → base mod 2 ^ (32 - bits) = 0 →
  Prefix_Contains (MkPrefix (Addr4 base) bits) (Addr4 v) = true ↔ base ≤ v < base + 2 ^ (32 - bits).
Proof.
  intros Hb Hm. rewrite Contains4_spec by done. set (k := 2 ^ (32 - bits)) in *.
  assert (0 < k) by (apply Z.pow_pos_nonneg; lia).
  pose proof (Z.div_mod base k ltac:(lia)). pose proof (Z.div_mod v k ltac:(lia)).
  pose proof (Z.mod_pos_bound v k ltac:(lia)). split; [intros E; rewrite E in *; lia|].
  intros Hr. symmetry. apply Z.div_unique with (v - base); lia.
Qed.

Lemma Contains_invalid pr : Prefix_Contains pr AddrInvalid = false.
Proof. unfold Prefix_Contains. destruct (_ || _); [done|]. by destruct (paddr pr). Qed.

Section Leases.
Context (p : pool) (base bits off : Z).
Context (Hsub : subnet p = MkPrefix (Addr4 base) bits) (Hfirst : first p = Addr4 (base + off)).
Context (Hbits : 0 ≤ bits ≤ 30) (Hbase : addr4_ok base) (Hmask : base mod 2 ^ (32 - bits) = 0).
Context (Hoff : 0 ≤ off < 2 ^ (32 - bits)).

(** The last address of the subnet. *)
Definition top : Z := base + 2 ^ (32 - bits) - 1.

Lemma top_ok : addr4_ok top ∧ base ≤ top.
Proof.
  unfold top, addr4_ok in *. set (k := 2 ^ (32 - bits)) in *.
  assert (0 < k) by (apply Z.pow_pos_nonneg; lia).
  assert (2 ^ 32 = 2 ^ bits * k) as Hp by (unfold k; rewrite <- Z.pow_add_r by lia; f_equal; lia).
  pose proof (Z.div_mod base k ltac:(lia)).
  assert (base / k < 2 ^ bits) by (apply Z.div_lt_upper_bound; lia). nia.
Qed.

Lemma in_subnet v : Prefix_Contains (subnet p) (Addr4 v) = true ↔ base ≤ v ≤ top.
Proof. rewrite Hsub, subnet_range by (done || lia). unfold top. lia. Qed.

Lemma in_subnet_ok v : base ≤ v ≤ top → addr4_ok v.
Proof. pose proof top_ok. unfold addr4_ok in *. lia. Qed.

Lemma in_subnet_Next v : base ≤ v ≤ top → Prefix_Contains (subnet p) (Next (Addr4 v)) = true ↔ v < top.
Proof.
  intros Hv. pose proof top_ok as [Ht _]. unfold addr4_ok in Ht. cbn [Next]. destruct (Z.eqb_spec v (2 ^ 32 - 1)).
  - rewrite Contains_invalid. split; [done|]. lia.
  - rewrite in_subnet. lia.
Qed.

(** The leases of the pool are the files its addresses print as. *)
Lemma lease_address_spec name a :
  lease_address p name = Some a ↔ ∃ v, a = Addr4 v ∧ name = String4 v ∧ base ≤ v ≤ top.
Proof.
  unfold lease_address. split.
  - intros H. apply bind_Some in H as (b & Hb & H). destruct (Prefix_Contains _ b) eqn:Hc; [|done].
    injection H as ->. destruct a as [|v|]; rewrite ?Hsub in Hc; [by unfold Prefix_Contains in Hc; case_match| |by unfold Prefix_Contains in Hc; case_match].
    exists v. split_and!; [done|by apply ParseAddr_canonical|..]; rewrite <- Hsub in Hc; apply in_subnet in Hc; lia.
  - intros (v & -> & -> & Hv). rewrite ParseAddr_String4 by by apply in_subnet_ok. simpl.
    by rewrite (proj2 (in_subnet v)).
Qed.

Definition leased (dir : leases) (v : Z) : Prop := is_Some (dir !! String4 v).

Lemma find_go_Some dir id names a :
  find_go p dir id names = Ok (Some a) →
  ∃ v, a = Addr4 v ∧ base ≤ v ≤ top ∧ String4 v ∈ names ∧ holder dir (Addr4 v) = Ok id.
Proof.
  induction names as [|name names IH]; [done|]. cbn [find_go].
  destruct (lease_address p name) as [b|] eqn:Hl; [|intros H; apply IH in H as (v & H); set_solver].
  apply lease_address_spec in Hl as (v & -> & -> & Hv).
  destruct (holder dir (Addr4 v)) as [h|] eqn:Hh; [|done]. destruct (String.eqb_spec h id) as [->|].
  - intros [= <-]. exists v. split_and!; [done|lia|lia|by left|done].
  - intros H. apply IH in H as (w & H). set_solver.
Qed.

Lemma find_go_None dir id names v :
  find_go p dir id names = Ok None → base ≤ v ≤ top → String4 v ∈ names →
  ∃ h, holder dir (Addr4 v) = Ok h ∧ h ≠ id.
Proof.
  induction names as [|name names IH]; [set_solver|]. cbn [find_go]. intros H Hv Hin.
  destruct (decide (name = String4 v)) as [->|Hne].
  - rewrite (proj2 (lease_address_spec (String4 v) (Addr4 v))) in H by eauto.
    destruct (holder dir (Addr4 v)) as [h|]; [|done]. destruct (String.eqb_spec h id); [done|eauto].
  - assert (String4 v ∈ names) as Hin' by set_solver.
    destruct (lease_address p name) as [b|]; [|by apply IH].
    destruct (holder dir b) as [h|]; [|done]. destruct (String.eqb h id); [done|by apply IH].
Qed.

(** When only one lease can be the sandbox's, [find] finds it. *)
Lemma find_go_intro dir id v names :
  (∀ u, base ≤ u ≤ top → String4 u ∈ names → ∃ h, holder dir (Addr4 u) = Ok h ∧ (h = id → u = v)) →
  base ≤ v ≤ top → String4 v ∈ names → holder dir (Addr4 v) = Ok id → find_go p dir id names = Ok (Some (Addr4 v)).
Proof.
  intros Hall Hv. induction names as [|name names IH]; [set_solver|]. intros Hin Hh. cbn [find_go].
  destruct (lease_address p name) as [b|] eqn:Hl.
  - apply lease_address_spec in Hl as (u & -> & -> & Hu).
    destruct (Hall u Hu) as (h & Hhu & Hid); [by left|]. rewrite Hhu. destruct (String.eqb_spec h id) as [E|E].
    + by rewrite (Hid E).
    + apply elem_of_cons in Hin as [E'|Hin].
      * apply String4_inj in E' as <-; [congruence|by apply in_subnet_ok..].
      * apply IH; [|done|done]. intros w Hw Hwin. apply Hall; [done|by right].
  - apply elem_of_cons in Hin as [<-|Hin].
    + by rewrite (proj2 (lease_address_spec (String4 v) (Addr4 v))) in Hl by eauto.
    + apply IH; [|done|done]. intros w Hw Hwin. apply Hall; [done|by right].
Qed.

(** Where the loop stops: the lowest address that is not leased, or past the last usable one. *)
Lemma allocate_go_spec fuel fault dir id c dir' r :
  allocate_go fuel fault p dir id (Addr4 c) = (dir', r) → base ≤ c ≤ top → top - c < Z.of_nat fuel →
  (∃ v, c ≤ v < top ∧ ~ leased dir v ∧ (∀ u, c ≤ u < v → leased dir u) ∧
        match claim fault dir (Addr4 v) id with
        | (d, Ok _) => d = dir' ∧ r = Ok (Addr4 v)
        | (d, Err e) => d = dir' ∧ r = Err e
        end) ∨
  (dir' = dir ∧ r = Err ErrNoFreeAddress ∧ ∀ u, c ≤ u < top → leased dir u).
Proof.
  revert c. induction fuel as [|fuel IH]; intros c H Hc Hf; [lia|]. cbn [allocate_go] in H.
  rewrite (proj2 (in_subnet c)) in H by done. cbn [negb] in H.
  destruct (decide (c < top)) as [Hlt|Hge].
  - rewrite (proj2 (in_subnet_Next c Hc)) in H by done. cbn [negb] in H.
    destruct (dir !! String4 c) as [l|] eqn:Hl.
    + unfold claim in H. cbn [path] in H. rewrite Hl in H.
      assert (Hn : Next (Addr4 c) = Addr4 (c + 1)).
      { pose proof top_ok as [Ht _]. unfold addr4_ok in Ht. cbn [Next]. by rewrite (proj2 (Z.eqb_neq _ _)) by lia. }
      rewrite Hn in H. apply IH in H as [(v & Hv & Hfree & Hbelow & Hcl)|(-> & -> & Hall)]; [| |lia|lia].
      * left. exists v. split_and!; [lia|lia|done| |done]. intros u Hu.
        destruct (decide (u = c)) as [->|]; [by exists l|apply Hbelow; lia].
      * right. split_and!; [done|done|]. intros u Hu.
        destruct (decide (u = c)) as [->|]; [by exists l|apply Hall; lia].
    + left. exists c. split_and!; [lia|lia| |lia|].
      * unfold leased. rewrite Hl. by intros [? ?].
      * unfold claim in *. cbn [path] in *. rewrite Hl in *. destruct fault; apply pair_equal_spec in H as [<- <-]; split; reflexivity.
  - right. destruct (Prefix_Contains (subnet p) (Next (Addr4 c))) eqn:E.
    { apply (in_subnet_Next c Hc) in E. lia. }
    injection H as <- <-. split_and!; [done|done|]. intros u Hu. lia.
Qed.

End Leases.

(** No sandbox holds two addresses of the pool. *)
Definition leases_unique (p : pool) (dir : leases) : Prop :=
  ∀ v w id, Prefix_Contains (subnet p) (Addr4 v) = true → Prefix_Contains (subnet p) (Addr4 w) = true →
  leased dir v → leased dir w → holder dir (Addr4 v) = Ok id → holder dir (Addr4 w) = Ok id → v = w.

Lemma holder_insert_ne dir v w l :
  addr4_ok v → addr4_ok w → v ≠ w → holder (<[path (Addr4 v) := l]> dir) (Addr4 w) = holder dir (Addr4 w).
Proof. intros Hv Hw Hne. unfold holder. rewrite lookup_insert_ne; [done|]. intros E. by apply path_inj in E. Qed.

Lemma holder_insert_eq dir v id :
  crlf_free id → holder (<[path (Addr4 v) := Lease (id +:+ newline)]> dir) (Addr4 v) = Ok id.
Proof. intros Hid. unfold holder. rewrite lookup_insert_eq. by rewrite TrimRight_newline. Qed.

Lemma pool_range p v : pool_ok p → Prefix_Contains (subnet p) (Addr4 v) = true → addr4_ok v.
Proof.
  intros (base & bits & off & Hs & Hf & Hb & Hbase & Hm & Ho) H.
  eapply in_subnet_ok; [done..|]. by eapply in_subnet.
Qed.

(** A lease that [find] missed is another sandbox's. *)
Lemma find_None p dir id v :
  pool_ok p → find p dir id = Ok None → Prefix_Contains (subnet p) (Addr4 v) = true → leased dir v →
  ∃ h, holder dir (Addr4 v) = Ok h ∧ h ≠ id.
Proof.
  intros (base & bits & off & Hs & Hf & Hb & Hbase & Hm & Ho) H Hc Hl.
  eapply find_go_None; [done..|exact H|by eapply in_subnet|by apply sorted_names_spec].
Qed.

Lemma find_Some p dir id a :
  pool_ok p → find p dir id = Ok (Some a) →
  ∃ v, a = Addr4 v ∧ Prefix_Contains (subnet p) (Addr4 v) = true ∧ leased dir v ∧ holder dir (Addr4 v) = Ok id.
Proof.
  intros (base & bits & off & Hs & Hf & Hb & Hbase & Hm & Ho) H.
  eapply find_go_Some in H as (v & -> & Hv & Hin & Hh); [|done..].
  exists v. split_and!; [done|by eapply in_subnet|by apply sorted_names_spec|done].
Qed.

Section Claimed.
Context (p : pool) (dir : leases) (id : string) (v : Z).
Context (Hp : pool_ok p) (Hid : crlf_free id) (Hv : Prefix_Contains (subnet p) (Addr4 v) = true).
Context (Hnone : find p dir id = Ok None).

Abbreviation dir' := (<[path (Addr4 v) := Lease (id +:+ newline)]> dir).

Lemma leased_insert u : leased dir' u → addr4_ok u → u = v ∨ leased dir u.
Proof.
  intros Hl Hu. destruct (decide (u = v)) as [->|Hne]; [by left|]. right. revert Hl. unfold leased.
  rewrite lookup_insert_ne; [done|]. intros E. apply path_inj in E; [done|by apply pool_range with p|done].
Qed.

(** A claimed address is found again, and breaks no uniqueness. *)
Lemma claim_found : find p dir' id = Ok (Some (Addr4 v)).
Proof.
  destruct Hp as (base & bits & off & Hs & Hf & Hb & Hbase & Hm & Ho).
  eapply find_go_intro; [exact Hs|done..| | | |].
  - intros u Hu Hin. apply sorted_names_spec in Hin.
    assert (Hok : addr4_ok u) by (eapply in_subnet_ok; done).
    destruct (decide (u = v)) as [->|Hne]; [rewrite holder_insert_eq; eauto|].
    rewrite holder_insert_ne; [|by apply pool_range with p|done|done].
    destruct (leased_insert u Hin Hok) as [|Hl]; [done|].
    destruct (find_None p dir id u Hp Hnone) as (h & Hh & Hne'); [by eapply in_subnet|done|].
    exists h. split; [done|]. congruence.
  - by eapply in_subnet.
  - apply sorted_names_spec. rewrite lookup_insert_eq. done.
  - by apply holder_insert_eq.
Qed.

Lemma claim_unique : leases_unique p dir → leases_unique p dir'.
Proof.
  intros Hu u w i Hcu Hcw Hlu Hlw Hhu Hhw.
  pose proof (pool_range _ _ Hp Hcu) as Hou. pose proof (pool_range _ _ Hp Hcw) as How.
  pose proof (pool_range _ _ Hp Hv) as Hov.
  assert (Hother : ∀ x y, addr4_ok x → Prefix_Contains (subnet p) (Addr4 x) = true → leased dir' x → x ≠ v →
    holder dir' (Addr4 x) = Ok y → leased dir x ∧ holder dir (Addr4 x) = Ok y ∧ y ≠ id).
  { intros x y Hox Hcx Hlx Hne Hhx. destruct (leased_insert x Hlx Hox) as [|Hl]; [done|].
    rewrite holder_insert_ne in Hhx by done. split_and!; [done|done|].
    destruct (find_None p dir id x Hp Hnone Hcx Hl) as (h & Hh & Hne'). congruence. }
  destruct (decide (u = v)) as [->|Hnu], (decide (w = v)) as [->|Hnw]; [done|..].
  - rewrite holder_insert_eq in Hhu by done. destruct (Hother w i) as (_ & _ & Hx); try done. congruence.
  - rewrite holder_insert_eq in Hhw by done. destruct (Hother u i) as (_ & _ & Hx); try done. congruence.
  - destruct (Hother u i) as (? & ? & _); try done. destruct (Hother w i) as (? & ? & _); try done. by apply (Hu u w i).
Qed.

End Claimed.

(** The loop from the first address, for a pool as [normalise] lays it out. *)
Lemma allocate_first fault p dir id dir' r :
  pool_ok p → allocate_go (S (pool_size p)) fault p dir id (first p) = (dir', r) →
  (∃ v, Prefix_Contains (subnet p) (Addr4 v) = true ∧ Prefix_Contains (subnet p) (Next (Addr4 v)) = true ∧
        dir !! path (Addr4 v) = None ∧ (∀ f u, first p = Addr4 f → f ≤ u < v → leased dir u) ∧
        match claim fault dir (Addr4 v) id with
        | (d, Ok _) => d = dir' ∧ r = Ok (Addr4 v)
        | (d, Err e) => d = dir' ∧ r = Err e
        end) ∨
  (dir' = dir ∧ r = Err ErrNoFreeAddress ∧
   ∀ f u, first p = Addr4 f → f ≤ u → Prefix_Contains (subnet p) (Next (Addr4 u)) = true → leased dir u).
Proof.
  intros (base & bits & off & Hs & Hfi & Hb & Hbase & Hm & Ho) Hgo.
  rewrite Hfi in Hgo. eapply allocate_go_spec in Hgo; [|done..| |].
  2: { unfold top. lia. }
  2: { unfold top, pool_size. rewrite Hs. cbn [pbits]. lia. }
  destruct Hgo as [(v & Hv & Hfree & Hbelow & Hcl)|(-> & -> & Hall)].
  - left. exists v. assert (Hrange : base ≤ v ≤ top base bits) by lia.
    split_and!; [by eapply in_subnet|eapply in_subnet_Next; [done..|lia]|by apply eq_None_not_Some| |done].
    intros f u E Hu. rewrite Hfi in E. injection E as <-. by apply Hbelow.
  - right. split_and!; [done|done|]. intros f u E Hu Hn. rewrite Hfi in E. injection E as <-. apply Hall. split; [done|].
    cbn [Next] in Hn. destruct (Z.eqb_spec u (2 ^ 32 - 1)) as [Eu|Eu].
    { by rewrite Contains_invalid in Hn. }
    eapply in_subnet in Hn; [|done..]. lia.
Qed.

Lemma find_not_full p dir id : find p dir id ≠ Err ErrNoFreeAddress.
Proof.
  unfold find. induction (sorted_names dir) as [|name names IH]; [done|]. cbn [find_go].
  destruct (lease_address p name) as [b|]; [|done]. unfold holder.
  destruct (dir !! path b) as [[|d]|]; [done| |]; by destruct (String.eqb _ _).
Qed.

(** A sandbox gets one address and keeps it. An allocation that answers an address answers one of the
    subnet; a later one finds the same lease; no sandbox holds two. A new lease is the lowest address not
    leased, was nobody's, and is never the last address of the subnet, its broadcast address. *)
Theorem allocate_lease p dir id dir' a was_held :
  pool_ok p → crlf_free id → leases_unique p dir →
  allocate ClaimFine p dir id = (dir', Ok (a, was_held)) →
  Prefix_Contains (subnet p) a = true ∧ leases_unique p dir' ∧
  allocate ClaimFine p dir' id = (dir', Ok (a, true)) ∧
  (if was_held then dir' = dir
   else Prefix_Contains (subnet p) (Next a) = true ∧ dir !! path a = None ∧
        dir' = <[path a := Lease (id +:+ newline)]> dir ∧
        ∀ f u v, first p = Addr4 f → a = Addr4 v → f ≤ u < v → leased dir u).
Proof.
  intros Hp Hid Hu. unfold allocate. destruct (find p dir id) as [[b|]|] eqn:Hf; [| |done].
  - intros E. apply pair_equal_spec in E as [<- E]. injection E as <- <-.
    destruct (find_Some p dir id b Hp Hf) as (v & -> & Hc & _). by rewrite Hf.
  - destruct (allocate_go _ _ _ _ _ _) as [d r] eqn:Hgo.
    destruct (allocate_first ClaimFine p dir id d r Hp Hgo) as [(v & Hc & Hn & Hfree & Hbelow & Hcl)|(-> & -> & _)]; [|done].
    unfold claim in Hcl. rewrite Hfree in Hcl.
    destruct Hcl as [<- ->]. intros E. apply pair_equal_spec in E as [<- E]. injection E as <- <-.
    split; [done|]. split; [by apply claim_unique|]. split; [|split; [done|split; [done|split; [done|]]]].
    + by rewrite (claim_found p dir id v Hp Hid Hc Hf).
    + intros f u w Hfi [= <-] Hu'. by apply (Hbelow f).
Qed.

(** [allocate] says the pool is full only when it is: with [ErrNoFreeAddress] every address from the
    first to the last but one of the subnet is leased, and nothing was written. *)
Theorem allocate_full fault p dir id dir' :
  pool_ok p → allocate fault p dir id = (dir', Err ErrNoFreeAddress) →
  dir' = dir ∧ ∀ f u, first p = Addr4 f → f ≤ u → Prefix_Contains (subnet p) (Next (Addr4 u)) = true → leased dir u.
Proof.
  intros Hp. unfold allocate. destruct (find p dir id) as [[b|]|e] eqn:Hf; [done| |].
  - destruct (allocate_go _ _ _ _ _ _) as [d r] eqn:Hgo.
    destruct (allocate_first fault p dir id d r Hp Hgo) as [(v & Hc & Hn & Hfree & Hbelow & Hcl)|(-> & -> & Hall)].
    + unfold claim in Hcl. rewrite Hfree in Hcl. destruct fault; by destruct Hcl as [_ ->].
    + intros E. by apply pair_equal_spec in E as [<- _].
  - intros E. apply pair_equal_spec in E as [<- E]. injection E as ->. by apply find_not_full in Hf.
Qed.

(** A release gives the address back and touches no other lease: afterwards the sandbox holds no
    address of the pool, its file is gone, every other file is as it was, and leases stay unique. *)
Theorem release_lease p dir id dir' a :
  pool_ok p → leases_unique p dir → find p dir id = Ok (Some a) → release true true p dir id = (dir', Ok tt) →
  (∀ b, find p dir' id ≠ Ok (Some b)) ∧ dir' = delete (path a) dir ∧ leases_unique p dir'.
Proof.
  intros Hp Hu Hf. unfold release. rewrite Hf. cbn [negb]. rewrite andb_false_r. intros E.
  apply pair_equal_spec in E as [<- _]. destruct (find_Some p dir id a Hp Hf) as (v & -> & Hc & Hl & Hh).
  assert (Hold : ∀ w i, Prefix_Contains (subnet p) (Addr4 w) = true → leased (delete (path (Addr4 v)) dir) w →
    holder (delete (path (Addr4 v)) dir) (Addr4 w) = Ok i → w ≠ v ∧ leased dir w ∧ holder dir (Addr4 w) = Ok i).
  { intros w i Hcw Hlw Hhw. unfold leased, holder in *. cbn [path] in *.
    destruct (decide (w = v)) as [->|Hne]; [rewrite lookup_delete_eq in Hlw; by destruct Hlw|].
    assert (String4 v ≠ String4 w).
    { intros E. apply String4_inj in E; [done|by eapply pool_range..]. }
    rewrite lookup_delete_ne in Hlw, Hhw by done. done. }
  split_and!; [|done|].
  - intros b Hb. destruct (find_Some p _ id b Hp Hb) as (w & -> & Hcw & Hlw & Hhw).
    destruct (Hold w id) as (Hne & Hlw' & Hhw'); try done. apply Hne. by apply (Hu w v id).
  - intros u w i Hcu Hcw Hlu Hlw Hhu Hhw.
    destruct (Hold u i) as (_ & ? & ?); try done. destruct (Hold w i) as (_ & ? & ?); try done. by apply (Hu u w i).
Qed.

(** * Witnesses *)

(** 10.87.0.0/29, whose gateway is .1 and whose first sandbox address is .2. *)
Definition small_pool : pool := MkPool (MkPrefix (Addr4 173473792) 29) (Addr4 173473794).
Definition small_leases : leases := {[ "10.87.0.2" := Lease ("sb-a" +:+ newline) ]}.

Lemma small_pool_ok : pool_ok small_pool.
Proof. exists 173473792, 29, 2. split_and!; try done; unfold addr4_ok; lia. Qed.

Lemma small_leases_unique : leases_unique small_pool small_leases.
Proof.
  assert (H : ∀ v, Prefix_Contains (subnet small_pool) (Addr4 v) = true → leased small_leases v → v = 173473794).
  { intros v Hc Hl. apply String4_inj; [by apply (pool_range small_pool), Hc; apply small_pool_ok|unfold addr4_ok; lia|].
    unfold leased, small_leases in Hl. apply lookup_singleton_is_Some in Hl. rewrite <- Hl. vm_compute. reflexivity. }
  intros v w i Hv Hw Hlv Hlw _ _. by rewrite (H v), (H w).
Qed.

Definition both_leases : leases := <["10.87.0.3" := Lease ("sb-b" +:+ newline)]> small_leases.

Lemma allocate_lease_witness :
  allocate ClaimFine small_pool both_leases "sb-b" = (both_leases, Ok (Addr4 173473795, true)).
Proof.
  exact (proj1 (proj2 (proj2 (allocate_lease small_pool small_leases "sb-b" both_leases (Addr4 173473795) false
    small_pool_ok eq_refl small_leases_unique ltac:(vm_compute; reflexivity))))).
Defined.

Definition tiny_pool : pool := MkPool (MkPrefix (Addr4 173473792) 30) (Addr4 173473794).

Lemma allocate_full_witness : leased small_leases 173473794.
Proof.
  refine (proj2 (allocate_full ClaimFine tiny_pool small_leases "sb-b" small_leases _ _) 173473794 173473794 _ _ _).
  - exists 173473792, 30, 2. split_and!; try done; unfold addr4_ok; lia.
  - vm_compute. reflexivity.
  - reflexivity.
  - lia.
  - vm_compute. reflexivity.
Defined.

Lemma release_lease_witness :
  release true true small_pool small_leases "sb-a" = (∅, Ok tt) ∧ (∀ b, find small_pool ∅ "sb-a" ≠ Ok (Some b)).
Proof.
  assert (H : release true true small_pool small_leases "sb-a" = (∅, Ok tt)) by (vm_compute; reflexivity).
  split; [exact H|].
  exact (proj1 (release_lease small_pool small_leases "sb-a" ∅ (Addr4 173473794) small_pool_ok small_leases_unique
    ltac:(vm_compute; reflexivity) H)).
Defined.
