(* ===== verification/HostNetwork.v ===== *)
(** * The host network service

    [services/network/network.go] and [addresses.go]: the layout of the sandbox subnet, the host side a sandbox
    is given (a lease, a namespace, a port of the bridge) and its teardown. The host's [ip] and [nft] are run
    through [netns.Manager]: the model keeps the calls that succeeded, in order, and which call fails is up to
    [manager], a function of the calls so far. *)

From S2P Require Import Prelude Ops GoStrings Netip Models Store Secret Network Pool.
Local Open Scope Z_scope.
Local Open Scope op_scope.

Definition DefaultBridge : string := "shard0".
Definition DefaultSubnet : string := "10.87.0.0/16".
Definition DefaultNameservers : list Addr := omap ParseAddr ["1.1.1.1"; "8.8.8.8"].
Definition guestInterface : string := "eth0".
Definition tapBridge : string := "br0".
Definition hostInterfacePrefix : string := "shardv".

(** The [Egress], [Userns], [Report] and [Firewall] of the source are functions or nil: here, whether they are set. *)
Record Config : Type := MkConfig {
  Root : string;
  Bridge : string;
  Subnet : Prefix;
  Nameservers : list Addr;
  HasEgress : bool;
  HasUserns : bool;
  Tap : bool;
  HasReport : bool;
  HasFirewall : bool
}.

Definition set_layout (c : Config) (bridge : string) (subnet : Prefix) (ns : list Addr) : Config :=
  MkConfig (Root c) bridge subnet ns (HasEgress c) (HasUserns c) (Tap c) (HasReport c) (HasFirewall c).

(** The calls of the netns manager, with their arguments. *)
Inductive command : Type :=
| EnsureBridge (bridge : string) (gateway : Prefix)
| EnableForwarding
| EnsureZone
| EnsureRules
| ApplyRuleset (chains : list Chain) (leases : list Addr)
| AddNamespace (id : string)
| AddOwnedNamespace (id : string) (hostID size : Z)
| DeleteNamespace (id : string)
| DeleteLink (link : string)
| AddVeth (host peer namespace : string)
| AttachBridge (link bridge : string)
| IsolatePort (link : string)
| SetUp (link : string)
| AddTapIn (namespace tap : string)
| AddBridgeIn (namespace bridge : string)
| AttachBridgeIn (namespace link bridge : string)
| SetUpIn (namespace link : string)
| AddAddressIn (namespace link : string) (address : Prefix)
| AddDefaultRouteIn (namespace link : string) (gateway : Addr).

Inductive net_error : Type :=
| ERootNotAbs
| ENotIPv4
| EHostBits
| ETooSmall
| EBadName
| EPool (e : pool_error)
| ERoutes
| EConflict (route : Prefix)
| ECall (c : command)
| ECompile
| EListLeases
| EOutside (a : Addr)
| EStat
| EOwner.

(** ** The layout: normalise *)

Definition IsAbs (path : string) : bool := HasPrefix path "/".

Definition normalise (cfg : Config) : result net_error (Config * Addr) :=
  if negb (IsAbs (Root cfg)) then Err ERootNotAbs
  else
    let bridge := if String.eqb (Bridge cfg) "" then DefaultBridge else Bridge cfg in
    let subnet := if negb (Prefix_IsValid (Subnet cfg)) then default PrefixZero (ParsePrefix DefaultSubnet) else Subnet cfg in
    let ns := match Nameservers cfg with [] => DefaultNameservers | ns => ns end in
    if negb (Is4 (paddr subnet)) then Err ENotIPv4
    else if negb (bool_decide (Masked subnet = subnet)) then Err EHostBits
    else if 30 <? pbits subnet then Err ETooSmall
    else Ok (set_layout cfg bridge subnet ns, Next (paddr subnet)).

Record Service : Type := MkService { cfg : Config; spool : pool; gateway : Addr }.

(** [New], past the directory it makes for the leases. *)
Definition New (c : Config) : result net_error Service :=
  match normalise c with
  | Err e => Err e
  | Ok (c, gateway) => Ok (MkService c (MkPool (Subnet c) (Next gateway)) gateway)
  end.

(** [Gateway], for a caller with no service. *)
Definition Gateway (c : Config) : result net_error Addr :=
  match normalise c with Err e => Err e | Ok (_, gateway) => Ok gateway end.

(** ** Names *)

Definition name_char (c : ascii) : bool := is_lower c || is_upper c || is_digit c || Ascii.eqb c "-" || Ascii.eqb c "_".

Definition validName (id : string) : bool :=
  negb (String.eqb id "") && (String.length id <=? 64)%nat && all_chars name_char id.

Definition toUint32 (address : Addr) : Z := match address with Addr4 v => v | _ => 0 end.

(** The offset wraps as a [uint32] does; [%d] prints it in decimal. *)
Definition hostInterface (s : Service) (address : Addr) : string :=
  hostInterfacePrefix +:+ Itoa (wrap_u 32 (toUint32 address - toUint32 (paddr (Subnet (cfg s))))).

(** ** Routes *)

(** [netip.Prefix.Overlaps]. *)
Definition Overlaps (p o : Prefix) : bool :=
  if negb (Prefix_IsValid p) || negb (Prefix_IsValid o) then false
  else if bool_decide (p = o) then true
  else if negb (Bool.eqb (Is4 (paddr p)) (Is4 (paddr o))) then false
  else
    let bits := Z.min (pbits p) (pbits o) in
    if bits =? 0 then true
    else bool_decide (paddr (Masked (MkPrefix (paddr p) bits)) = paddr (Masked (MkPrefix (paddr o) bits))).

Definition conflict (subnet : Prefix) (routes : list Prefix) : option Prefix :=
  first_match (λ route, negb (bool_decide (route = subnet)) && Overlaps route subnet) routes.

(** ** The host *)

Record host : Type := MkHost { hleases : leases; hcalls : list command; hzoned : bool }.

Abbreviation nop := (op host net_error).

(** What the host answers during one operation: the route table, the compiled chains, whether the leases can be listed,
    the namespace lookup, the id mapping, and how the lease's own file calls go. *)
Record env : Type := MkEnv {
  routes : option (list Prefix);
  compiled : list Chain * option (compile_error net_error);
  leases_listed : bool;
  claim_calls : claim_fault;
  remove_calls : bool * bool;
  ns_exists : option bool;
  owner : option (Z * Z)
}.

Record NetworkSpec : Type := MkNetworkSpec {
  SpecAddress : Prefix;
  SpecGateway : Addr;
  SpecHostInterface : string;
  SpecNameservers : list Addr;
  SpecNetnsPath : string;
  SpecUserns : option (string * Z * Z)
}.

Section Host.
(** Whether a call succeeds, after the calls so far, the last one first. *)
Context (manager : list command → command → bool).

Definition call (c : command) : nop unit := λ h,
  if manager (hcalls h) c then touch (λ h, MkHost (hleases h) (c :: hcalls h) (hzoned h)) h else fail (ECall c) h.

Definition lift {A} (m : nop A) : op host (compile_error net_error) A := λ h,
  let '(t, h', a) := m h in (t, h', map_err CompileFailed a).

(** [heldFor(m(), id)]. *)
Definition held_for (m : op host (compile_error net_error) unit) (id : string) : nop unit := λ h,
  let '(t, h', a) := m h in
  (t, h', match a with
          | Ok _ => Ok tt
          | Err e => match heldFor (Some e) id with Some e => Err e | None => Ok tt end
          end).

Definition set_zoned (h : host) : host := MkHost (hleases h) (hcalls h) true.

Definition OpenFirewall (s : Service) : nop unit :=
  if negb (HasFirewall (cfg s)) then ret tt
  else
    zoned <~ ask (λ h, Ok (hzoned h)) ;;
    (if zoned : bool then ret tt else call EnsureZone ;;; touch set_zoned) ;;;
    call EnsureRules.

(** [Service.chains]: what the sandboxes' policies compile to, all inside the subnet. *)
Definition service_chains (s : Service) (e : env) : result net_error (list Chain * option (gmap string net_error)) :=
  if negb (HasEgress (cfg s)) then Ok ([], None)
  else match splitHeld (compiled e).1 (compiled e).2 with
       | Err x => Err x
       | Ok (chains, held) =>
           match first_match (λ c, negb (Prefix_Contains (Subnet (cfg s)) (ChAddress c))) chains with
           | Some c => Err (EOutside (ChAddress c))
           | None => Ok (chains, held)
           end
       end.

Definition Ensure (s : Service) (e : env) : op host (compile_error net_error) unit :=
  rs <~ lift (ask (λ _, match routes e with Some rs => Ok rs | None => Err ERoutes end)) ;;
  lift (ask (λ _, match conflict (Subnet (cfg s)) rs with Some route => Err (EConflict route) | None => Ok tt end)) ;;;
  lift (call (EnsureBridge (Bridge (cfg s)) (PrefixFrom (gateway s) (pbits (Subnet (cfg s)))))) ;;;
  lift (call EnableForwarding) ;;;
  lift (OpenFirewall s) ;;;
  ch <~ lift (ask (λ _, service_chains s e)) ;;
  addresses <~ lift (ask (λ h, if leases_listed e then Ok (held (spool s) (hleases h)) else Err EListLeases)) ;;
  lift (call (ApplyRuleset ch.1 addresses)) ;;;
  match ch.2 with Some errs => fail (HeldChains errs) | None => ret tt end.

(** ** Building and undoing one sandbox's side *)

Definition pool_allocate (s : Service) (e : env) (id : string) : nop (Addr * bool) := λ h,
  let '(dir, r) := allocate (claim_calls e) (spool s) (hleases h) id in
  let h' := MkHost dir (hcalls h) (hzoned h) in
  ([h'], h', map_err EPool r).

Definition pool_release (s : Service) (e : env) (id : string) : nop unit := λ h,
  let '(dir, r) := release (remove_calls e).1 (remove_calls e).2 (spool s) (hleases h) id in
  let h' := MkHost dir (hcalls h) (hzoned h) in
  ([h'], h', map_err EPool r).

Definition unlink (s : Service) (id : string) : nop unit :=
  found <~ ask (λ h, map_err EPool (find (spool s) (hleases h) id)) ;;
  match found with Some address => call (DeleteLink (hostInterface s address)) | None => ret tt end ;;;
  call (DeleteNamespace id).

Definition Release (s : Service) (e : env) (id : string) : nop unit :=
  check EBadName (validName id) ;;;
  unlink s id ;;;
  pool_release s e id.

Definition undo (s : Service) (e : env) (id : string) (was_held : bool) : nop unit :=
  if was_held then unlink s id else Release s e id.

Definition owner_set (o : option (Z * Z)) : bool := match o with Some (_, size) => negb (size =? 0) | None => false end.

Definition addNamespace (id : string) (o : Z * Z) : nop unit :=
  if owner_set (Some o) then call (AddOwnedNamespace id o.1 o.2) else call (AddNamespace id).

Definition link (id host : string) (o : Z * Z) : nop unit :=
  addNamespace id o ;;; call (AddVeth host guestInterface id).

Definition attach_port (id port : string) : nop unit :=
  call (AttachBridgeIn id port tapBridge) ;;; call (SetUpIn id port).

Definition bridgeTap (id tap : string) : nop unit :=
  call (AddTapIn id tap) ;;;
  call (AddBridgeIn id tapBridge) ;;;
  attach_port id guestInterface ;;;
  attach_port id tap ;;;
  call (SetUpIn id tapBridge).

Definition configureGuest (s : Service) (id : string) (address : Addr) : nop unit :=
  call (SetUpIn id "lo") ;;;
  call (AddAddressIn id guestInterface (PrefixFrom address (pbits (Subnet (cfg s))))) ;;;
  call (SetUpIn id guestInterface) ;;;
  call (AddDefaultRouteIn id guestInterface (gateway s)).

Definition attach (s : Service) (id : string) (address : Addr) (o : Z * Z) : nop unit :=
  let host := hostInterface s address in
  call (DeleteLink host) ;;;
  link id host o ;;;
  call (AttachBridge host (Bridge (cfg s))) ;;;
  call (IsolatePort host) ;;;
  call (SetUp host) ;;;
  if Tap (cfg s) then bridgeTap id host else configureGuest s id address.

Definition service_owner (s : Service) (e : env) : result net_error (Z * Z) :=
  if negb (HasUserns (cfg s)) then Ok (0, 0) else match owner e with Some o => Ok o | None => Err EOwner end.

Definition spec (s : Service) (id : string) (address : Addr) (o : Z * Z) : NetworkSpec :=
  MkNetworkSpec (PrefixFrom address (pbits (Subnet (cfg s)))) (gateway s) (hostInterface s address) (Nameservers (cfg s))
    ("/var/run/netns/" +:+ id)
    (if owner_set (Some o) then Some ("/var/run/shard/userns/" +:+ id, o.1, o.2) else None).

Definition Allocate (s : Service) (e : env) (id : string) : nop NetworkSpec :=
  check EBadName (validName id) ;;;
  lease <~ pool_allocate s e id ;;
  or_undo (held_for (Ensure s e) id) (undo s e id lease.2) ;;;
  built <~ ask (λ _, match ns_exists e with Some b => Ok b | None => Err EStat end) ;;
  (if built : bool then call (DeleteNamespace id) else ret tt) ;;;
  o <~ ask (λ _, service_owner s e) ;;
  or_undo (attach s id lease.1 o) (undo s e id lease.2) ;;;
  ret (spec s id lease.1 o).

Definition Reapply (s : Service) (e : env) (id : string) : nop unit :=
  check EBadName (validName id) ;;; held_for (Ensure s e) id.

(** [ReapplyAll]: with a reporter, a held compile is reported and succeeds. *)
Definition ReapplyAll (s : Service) (e : env) : op host (compile_error net_error) unit := λ h,
  let '(t, h', a) := Ensure s e h in
  (t, h', match a with
          | Ok _ => Ok tt
          | Err x => match heldReported (Some x) (HasReport (cfg s)) with Some x => Err x | None => Ok tt end
          end).

End Host.

(** * The layout *)

Lemma allocate_go_ge fuel fault p dir id c dir' a :
  allocate_go fuel fault p dir id (Addr4 c) = (dir', Ok a) → ∃ v, a = Addr4 v ∧ c ≤ v.
Proof.
  revert c. induction fuel as [|fuel IH]; intros c; cbn [allocate_go]; [by intros [= _]|].
  destruct (negb (Prefix_Contains (subnet p) (Addr4 c))); [by intros [= _]|].
  destruct (Prefix_Contains (subnet p) (Next (Addr4 c))) eqn:Hn; cbn [negb]; [|by intros [= _]].
  destruct (claim fault dir (Addr4 c) id) as [d [[]|e]] eqn:Hc; [|intros H|by intros [= _]].
  - intros H. apply pair_equal_spec in H as [_ H]. injection H as <-. exists c. split; [done|lia].
  - assert (d = dir) as ->.
    { unfold claim in Hc. destruct (dir !! path (Addr4 c)); [congruence|]. destruct fault; congruence. }
    cbn [Next] in *. destruct (c =? 2 ^ 32 - 1); [by rewrite Contains_invalid in Hn|].
    destruct (IH (c + 1) H) as (v & -> & Hv). exists v. split; [done|lia].
Qed.

(** What [normalise] accepts: an IPv4 subnet with no host bits, of 4 addresses at least. *)
Lemma New_shape c s :
  addr_ok (paddr (Subnet c)) → New c = Ok s →
  ∃ base bits, Subnet (cfg s) = MkPrefix (Addr4 base) bits ∧ subnet (spool s) = MkPrefix (Addr4 base) bits ∧
    gateway s = Addr4 (base + 1) ∧ first (spool s) = Addr4 (base + 2) ∧
    0 ≤ bits ≤ 30 ∧ addr4_ok base ∧ base mod 2 ^ (32 - bits) = 0.
Proof.
  intros Hok. unfold New, normalise. destruct (negb (IsAbs (Root c))); [done|].
  set (sub := if negb (Prefix_IsValid (Subnet c)) then _ else _).
  assert (Hsub : addr_ok (paddr sub) ∧ 0 ≤ pbits sub).
  { unfold sub. destruct (Prefix_IsValid (Subnet c)) eqn:Hv; cbn [negb].
    - unfold Prefix_IsValid in Hv. breflect. done.
    - vm_compute. split; [split; congruence|congruence]. }
  clearbody sub. destruct sub as [[|base|] bits]; cbn [paddr pbits Is4 negb] in *; try done.
  case_bool_decide as Hm; cbn [negb]; [|done]. destruct (30 <? bits) eqn:Hb; [done|]. breflect.
  destruct Hsub as [Ha H0]. cbn [addr_ok] in Ha. intros [= <-].
  unfold Masked, Prefix_IsValid in Hm. cbn [pbits paddr] in Hm. rewrite (proj2 (Z.leb_le 0 bits)) in Hm by lia.
  injection Hm as Hm. rewrite mask_low_spec in Hm by lia.
  assert (Hmod : base mod 2 ^ (32 - bits) = 0) by (rewrite <- Hm; apply Z.mod_mul; lia).
  assert (Hroom : base + 4 ≤ 2 ^ 32).
  { assert (2 ^ 2 ≤ 2 ^ (32 - bits)) by (apply Z.pow_le_mono_r; lia).
    pose proof (top_ok base bits 0 ltac:(lia) Ha Hmod ltac:(lia)) as [Ht _]. unfold top, addr4_ok in Ht. lia. }
  cbn [cfg spool Subnet set_layout subnet gateway first Next].
  rewrite (proj2 (Z.eqb_neq base _)) by lia. cbn [Next]. rewrite (proj2 (Z.eqb_neq (base + 1) _)) by lia.
  exists base, bits. split_and!; try done; try lia. f_equal. lia.
Qed.

Lemma New_pool_ok c s : addr_ok (paddr (Subnet c)) → New c = Ok s → pool_ok (spool s).
Proof.
  intros Hok H. destruct (New_shape c s Hok H) as (base & bits & _ & Hs & _ & Hf & Hb & Ha & Hm).
  exists base, bits, 2. split_and!; try done; try lia.
  assert (2 ^ 2 ≤ 2 ^ (32 - bits)) by (apply Z.pow_le_mono_r; lia). lia.
Qed.

(** The layout a service starts with can hold sandboxes. Whatever configuration it accepts, the pool's
    invariant holds, the bridge's own address is inside the subnet, and no new lease is ever the network's
    address, the bridge's or the broadcast address; two services over one configuration agree on the bridge's. *)
Theorem New_layout c s :
  addr_ok (paddr (Subnet c)) → New c = Ok s →
  pool_ok (spool s) ∧ Prefix_Contains (Subnet (cfg s)) (gateway s) = true ∧ Gateway c = Ok (gateway s) ∧
  ∀ fault dir id dir' a, allocate fault (spool s) dir id = (dir', Ok (a, false)) →
    Prefix_Contains (Subnet (cfg s)) a = true ∧ a ≠ paddr (Subnet (cfg s)) ∧ a ≠ gateway s ∧
    Prefix_Contains (Subnet (cfg s)) (Next a) = true.
Proof.
  intros Hok H. pose proof (New_pool_ok c s Hok H) as Hp.
  destruct (New_shape c s Hok H) as (base & bits & Hsub & Hs & Hg & Hf & Hb & Ha & Hm).
  assert (2 ^ 2 ≤ 2 ^ (32 - bits)) by (apply Z.pow_le_mono_r; lia). split_and!; [done| | |].
  - rewrite Hsub, Hg. apply subnet_range; [lia|done|]. lia.
  - unfold New, Gateway in *. destruct (normalise c) as [[cf g]|]; [|done]. by injection H as <-.
  - intros fault dir id dir' a E. unfold allocate in E. destruct (find (spool s) dir id) as [[b|]|]; [|clear H|].
    + apply pair_equal_spec in E as [_ E]. by injection E as _ E.
    + destruct (allocate_go (S (pool_size (spool s))) fault (spool s) dir id (first (spool s))) as [d r] eqn:Hgo.
      pose proof Hgo as Hgo2. rewrite Hf in Hgo2.
      destruct (allocate_first fault (spool s) dir id d r Hp Hgo) as [(v & Hc & Hn & _ & _ & Hcl)|(-> & -> & _)].
      2: { apply pair_equal_spec in E as [_ E]. discriminate E. }
      destruct r as [b|e]; [|apply pair_equal_spec in E as [_ E]; discriminate E].
      apply pair_equal_spec in E as [_ E]. injection E as ->.
      destruct (allocate_go_ge _ _ _ _ _ _ _ _ Hgo2) as (w & -> & Hw).
      assert (Ev : Addr4 w = Addr4 v) by (destruct (claim fault dir (Addr4 v) id) as [d' [|]]; destruct Hcl; congruence).
      injection Ev as ->. rewrite Hs in Hc, Hn. rewrite Hsub, Hg. cbn [paddr]. split_and!; try done; intros [= ->]; lia.
    + apply pair_equal_spec in E as [_ E]. discriminate E.
Qed.

Lemma app_inj_l s t u : s +:+ t = s +:+ u → t = u.
Proof. induction s as [|c s IH]; [done|]. rewrite !app_cons. intros [= H]. by apply IH. Qed.

Lemma hostInterface_offset c s v :
  addr_ok (paddr (Subnet c)) → New c = Ok s → Prefix_Contains (Subnet (cfg s)) (Addr4 v) = true →
  ∃ base bits, Subnet (cfg s) = MkPrefix (Addr4 base) bits ∧ 0 ≤ bits ≤ 30 ∧ 0 ≤ v - base < 2 ^ (32 - bits) ∧
    hostInterface s (Addr4 v) = hostInterfacePrefix +:+ Itoa (v - base).
Proof.
  intros Hok H Hc. destruct (New_shape c s Hok H) as (base & bits & Hsub & _ & _ & _ & Hb & Ha & Hm).
  exists base, bits. rewrite Hsub in Hc. apply subnet_range in Hc; [|lia|done]. split_and!; try done; try lia.
  unfold hostInterface, toUint32. rewrite Hsub. cbn [paddr]. unfold wrap_u. rewrite Z.mod_small; [done|].
  assert (2 ^ (32 - bits) ≤ 2 ^ 32) by (apply Z.pow_le_mono_r; lia). lia.
Qed.

(** The host end of a sandbox's link has a name of its own: two addresses of the subnet never name the same
    interface, and for a subnet of 29 host bits at most the name fits in the 15 characters Linux allows. *)
Theorem hostInterface_unique c s v w :
  addr_ok (paddr (Subnet c)) → New c = Ok s →
  Prefix_Contains (Subnet (cfg s)) (Addr4 v) = true → Prefix_Contains (Subnet (cfg s)) (Addr4 w) = true →
  (hostInterface s (Addr4 v) = hostInterface s (Addr4 w) → v = w) ∧
  (3 ≤ pbits (Subnet (cfg s)) → (String.length (hostInterface s (Addr4 v)) ≤ 15)%nat).
Proof.
  intros Hok H Hv Hw. destruct (hostInterface_offset c s v Hok H Hv) as (base & bits & Hsub & Hb & Hrv & ->).
  destruct (hostInterface_offset c s w Hok H Hw) as (base' & bits' & Hsub' & _ & Hrw & ->).
  rewrite Hsub in Hsub' |- *. injection Hsub' as <- <-. cbn [pbits]. split.
  - intros E%app_inj_l. apply Itoa_inj in E; lia.
  - intros H3. rewrite length_app_s. assert (2 ^ (32 - bits) ≤ 2 ^ 29) by (apply Z.pow_le_mono_r; lia).
    pose proof (Itoa_length 9 (v - base) ltac:(lia) ltac:(simpl; lia)). unfold hostInterfacePrefix.
    cbn [String.length]. lia.
Qed.

(** A subnet wider than that has addresses whose interface would need 16 characters. *)
Lemma hostInterface_long :
  ∃ s, New (MkConfig "/var/lib/shard" "" (MkPrefix (Addr4 0) 2) [] false false false false false) = Ok s ∧
    Prefix_Contains (Subnet (cfg s)) (Addr4 1000000000) = true ∧
    String.length (hostInterface s (Addr4 1000000000)) = 16%nat.
Proof. eexists. split; [vm_compute; reflexivity|]. split; vm_compute; reflexivity. Qed.

(** * Routes *)

Lemma Overlaps_spec a p b q :
  0 ≤ p ≤ 32 → 0 ≤ q ≤ 32 → addr4_ok a → addr4_ok b →
  Overlaps (MkPrefix (Addr4 a) p) (MkPrefix (Addr4 b) q) = true ↔
  ∃ v, Prefix_Contains (MkPrefix (Addr4 a) p) (Addr4 v) = true ∧ Prefix_Contains (MkPrefix (Addr4 b) q) (Addr4 v) = true.
Proof.
  intros Hp Hq Ha Hb.
  assert (Hdiv : ∀ v i j, 0 ≤ i ≤ j → v / 2 ^ j = v / 2 ^ i / 2 ^ (j - i)).
  { intros v i j Hij. rewrite Z.div_div by lia. rewrite <- Z.pow_add_r by lia. do 2 f_equal. lia. }
  assert (Hex : (∃ v, Prefix_Contains (MkPrefix (Addr4 a) p) (Addr4 v) = true ∧ Prefix_Contains (MkPrefix (Addr4 b) q) (Addr4 v) = true)
    ↔ a / 2 ^ (32 - Z.min p q) = b / 2 ^ (32 - Z.min p q)).
  { setoid_rewrite Contains4_spec; [|done..]. split.
    - intros (v & Ea & Eb). destruct (Z.min_spec p q) as [[? ->]|[? ->]].
      + rewrite <- Ea, (Hdiv v (32 - q) (32 - p)), (Hdiv b (32 - q) (32 - p)) by lia. by rewrite Eb.
      + rewrite <- Eb, (Hdiv v (32 - p) (32 - q)), (Hdiv a (32 - p) (32 - q)) by lia. by rewrite Ea.
    - intros E. destruct (Z.min_spec p q) as [[_ Em]|[_ Em]]; rewrite Em in E; [exists b|exists a]; by split. }
  rewrite Hex. unfold Overlaps, Prefix_IsValid. cbn [pbits paddr Is4].
  rewrite (proj2 (Z.leb_le 0 p)), (proj2 (Z.leb_le 0 q)) by lia. cbn [negb orb Bool.eqb].
  case_bool_decide as E; [by injection E as -> ->|]. destruct (Z.eqb_spec (Z.min p q) 0) as [E0|E0].
  - split; [intros _|done]. rewrite E0, Z.sub_0_r. unfold addr4_ok in *. by rewrite !Z.div_small.
  - rewrite bool_decide_eq_true. unfold Masked, Prefix_IsValid. cbn [pbits paddr].
    rewrite (proj2 (Z.leb_le 0 (Z.min p q))) by lia. cbn [paddr]. rewrite !mask_low_spec by lia.
    split; [intros [= F]|by intros ->]. apply Z.mul_reg_r in F; [done|]. apply Z.pow_nonzero; lia.
Qed.

Definition route_ok (p : Prefix) : Prop := ∃ v bits, p = MkPrefix (Addr4 v) bits ∧ 0 ≤ bits ≤ 32 ∧ addr4_ok v.

(** A subnet the host already routes is refused, and only such a one: [conflict] answers the first route that
    shares an address with the subnet, leaving out the subnet's own; when it answers none, no route but that
    leads anywhere the sandboxes are. *)
Theorem conflict_spec subnet routes :
  route_ok subnet → Forall route_ok routes →
  match conflict subnet routes with
  | Some route =>
      route ∈ routes ∧ route ≠ subnet ∧
      ∃ v, Prefix_Contains route (Addr4 v) = true ∧ Prefix_Contains subnet (Addr4 v) = true
  | None =>
      ∀ route v, route ∈ routes → route ≠ subnet → Prefix_Contains route (Addr4 v) = true →
        Prefix_Contains subnet (Addr4 v) = false
  end.
Proof.
  intros (b & q & -> & Hq & Hb) Hr. rewrite Forall_forall in Hr. unfold conflict.
  destruct (first_match _ routes) as [route|] eqn:E.
  - apply first_match_Some in E as (before & after & -> & Hm & _). breflect.
    destruct (Hr route ltac:(set_solver)) as (a & p & -> & Hp & Ha).
    split_and!; [set_solver|done|]. by apply Overlaps_spec.
  - apply first_match_None in E. rewrite Forall_forall in E. intros route v Hin Hne Hc. apply not_true_iff_false. intros Hs.
    specialize (E route Hin). cbv beta in E. rewrite bool_decide_eq_false_2 in E by done. cbn [negb andb] in E.
    destruct (Hr route Hin) as (a & p & -> & Hp & Ha).
    apply not_true_iff_false in E. apply E. apply Overlaps_spec; [done..|]. by exists v.
Qed.

(** * The order of the host's calls

    The calls so far come last one first. A sandbox's port is safe when it was isolated right before it came up,
    and when the last ruleset applied before its pair was made pins the address it is named after. *)

Fixpoint last_leases (calls : list command) : option (list Addr) :=
  match calls with
  | [] => None
  | ApplyRuleset _ leases :: _ => Some leases
  | _ :: calls => last_leases calls
  end.

Definition safe_call (s : Service) (c : command) (earlier : list command) : Prop :=
  match c with
  | SetUp port => head earlier = Some (IsolatePort port)
  | AddVeth port _ _ => ∃ a pinned, port = hostInterface s a ∧ last_leases earlier = Some pinned ∧ a ∈ pinned
  | _ => True
  end.

Fixpoint safe_calls (s : Service) (calls : list command) : Prop :=
  match calls with
  | [] => True
  | c :: earlier => safe_call s c earlier ∧ safe_calls s earlier
  end.

Section Order.
Context (manager : list command → command → bool) (s : Service) (Hpool : pool_ok (spool s)).

Definition ordered (h : host) : Prop := safe_calls s (hcalls h).

(** The ruleset in force pins the address. *)
Definition pinned (a : Addr) (h : host) : Prop := ∃ ls, last_leases (hcalls h) = Some ls ∧ a ∈ ls.

Definition leased_to (a : Addr) (h : host) : Prop := a ∈ held (spool s) (hleases h).

(** A call that is neither the making of a pair nor a port coming up is safe anywhere. *)
Definition plain_call (c : command) : bool := match c with SetUp _ | AddVeth _ _ _ | ApplyRuleset _ _ => false | _ => true end.

Lemma call_triple c (P : host → Prop) (Q : result net_error unit → host → Prop) :
  (∀ h, ordered h → P h → safe_call s c (hcalls h)) →
  (∀ h, ordered h → P h → Q (Ok tt) (MkHost (hleases h) (c :: hcalls h) (hzoned h)) ∧ Q (Err (ECall c)) h) →
  triple ordered P (call manager c) Q.
Proof.
  intros Hs HQ h Hi Hp. unfold call. destruct (manager (hcalls h) c); simpl.
  - assert (ordered (MkHost (hleases h) (c :: hcalls h) (hzoned h))) by (split; [by apply Hs|done]).
    split_and!; [by apply Forall_singleton|done|]. by apply HQ.
  - split_and!; [constructor|done|]. by apply HQ.
Qed.

(** A plain call keeps what is said of the leases and of the ruleset in force. *)
Definition stable (P : host → Prop) : Prop :=
  ∀ h c, plain_call c = true → P h → P (MkHost (hleases h) (c :: hcalls h) (hzoned h)).

Lemma plain_triple c (P : host → Prop) : plain_call c = true → stable P → triple ordered P (call manager c) (λ _ h, P h).
Proof.
  intros Hc Hst. apply call_triple; [intros h _ _; by destruct c|]. intros h _ Hp. split; [by apply Hst|done].
Qed.

Lemma stable_pinned a : stable (pinned a).
Proof. intros h c Hc (ls & Hl & Ha). exists ls. split; [|done]. by destruct c. Qed.

Lemma stable_True : stable (λ _, True).
Proof. done. Qed.

Lemma stable_leased a : stable (leased_to a).
Proof. by intros h c _. Qed.

(** Sequencing operations that all keep one fact. *)
Lemma keep_bind {E A B} (P : host → Prop) (m : op host E A) (k : A → op host E B) :
  triple ordered P m (λ _ h, P h) → (∀ a, triple ordered P (k a) (λ _ h, P h)) → triple ordered P (bind m k) (λ _ h, P h).
Proof.
  intros Hm Hk. apply triple_bind with (M := λ _ h, P h); [|done].
  eapply triple_weaken; [done|done|by intros [|]].
Qed.

Lemma keep_lift {A} (P : host → Prop) (m : nop A) : triple ordered P m (λ _ h, P h) → triple ordered P (lift m) (λ _ h, P h).
Proof.
  intros Hm h Hi Hp. specialize (Hm h Hi Hp). unfold lift. destruct (m h) as [[t h'] a]. done.
Qed.

Lemma keep_ask {E A} (P : host → Prop) (f : host → result E A) : triple ordered P (ask f) (λ _ h, P h).
Proof. by apply triple_ask. Qed.

Lemma keep_ret {E A} (P : host → Prop) (a : A) : triple ordered P (ret (E := E) a) (λ _ h, P h).
Proof. by apply triple_ret. Qed.

Lemma keep_fail {E A} (P : host → Prop) (e : E) : triple ordered P (fail (A := A) e) (λ _ h, P h).
Proof. by apply triple_fail. Qed.

Lemma keep_firewall P : stable P → (∀ h, P h → P (set_zoned h)) → triple ordered P (OpenFirewall manager s) (λ _ h, P h).
Proof.
  intros Hst Hz. unfold OpenFirewall. destruct (negb _); [apply keep_ret|]. apply keep_bind; [apply keep_ask|]. intros [].
  - apply keep_bind; [apply keep_ret|intros _]. by apply plain_triple.
  - apply keep_bind; [|intros _; by apply plain_triple]. apply keep_bind; [by apply plain_triple|intros _].
    apply triple_touch. intros h Hi Hp. split; [done|auto].
Qed.

(** After [Ensure] without a failure the ruleset in force pins every lease. *)
Lemma Ensure_triple e a :
  triple ordered (leased_to a) (Ensure manager s e)
    (λ r h, leased_to a h ∧ match r with Err (CompileFailed _) => True | _ => pinned a h end).
Proof.
  unfold Ensure.
  assert (Hkeep : ∀ {A} (m : nop A), triple ordered (leased_to a) m (λ _ h, leased_to a h) →
    triple ordered (leased_to a) (lift m) (λ r h, match r with
      | Ok _ => leased_to a h
      | Err e => leased_to a h ∧ match e with CompileFailed _ => True | _ => pinned a h end end)).
  { intros A m Hm h Hi Hp. specialize (Hm h Hi Hp). unfold lift. destruct (m h) as [[t h'] [x|x]]; simpl; naive_solver. }
  do 5 (eapply triple_bind with (M := λ _ h, leased_to a h); [eapply triple_weaken; [apply Hkeep|done|by intros [|[]]]|intros ?];
    [first [apply keep_ask|by apply plain_triple, stable_leased|by apply keep_firewall; [apply stable_leased|]]|]).
  eapply triple_bind with (M := λ _ h, leased_to a h); [eapply triple_weaken; [apply Hkeep, keep_ask|done|by intros [|[]]]|intros ch].
  eapply triple_bind with (M := λ ls h, leased_to a h ∧ a ∈ ls).
  { intros h Hi Hl. unfold lift, ask. destruct (leases_listed e); simpl; (split_and!; [constructor|done..]). }
  intros ls. eapply triple_bind with (M := λ _ h, leased_to a h ∧ pinned a h).
  - intros h Hi [Hl Ha].
    assert (T : triple ordered (λ h, leased_to a h) (call manager (ApplyRuleset ch.1 ls))
      (λ r h, leased_to a h ∧ (r = Ok tt → pinned a h))).
    { apply call_triple; [done|]. intros h' _ Hl'. split; [|done]. split; [done|]. intros _. by exists ls. }
    specialize (T h Hi Hl). unfold lift. destruct (call manager _ h) as [[t h'] [[]|x]]; simpl; naive_solver.
  - intros _. destruct (ch.2) as [errs|]; [apply triple_fail; naive_solver|apply triple_ret; naive_solver].
Qed.

Lemma held_intro dir v :
  Prefix_Contains (subnet (spool s)) (Addr4 v) = true → leased dir v → Addr4 v ∈ held (spool s) dir.
Proof.
  intros Hc Hl. unfold held. rewrite merge_sort_Permutation. apply list_elem_of_omap. exists (String4 v).
  split; [by apply sorted_names_spec|]. destruct Hpool as (base & bits & off & Hs & _ & Hb & Ha & Hm & Ho).
  apply (in_subnet (spool s) base bits Hs Hb Hm) in Hc. eapply lease_address_spec; [done..|].
  exists v. split_and!; [done|done|lia|lia].
Qed.

Lemma allocate_held fault dir id dir' a b :
  allocate fault (spool s) dir id = (dir', Ok (a, b)) → a ∈ held (spool s) dir'.
Proof.
  unfold allocate. destruct (find (spool s) dir id) as [[c|]|] eqn:Hf.
  - intros E. apply pair_equal_spec in E as [<- E]. injection E as <- <-.
    destruct (find_Some _ _ _ _ Hpool Hf) as (v & -> & Hc & Hl & _). by apply held_intro.
  - destruct (allocate_go _ _ _ _ _ _) as [d r] eqn:Hgo. intros E. destruct r as [c|e].
    2: { apply pair_equal_spec in E as [_ E]. discriminate E. }
    apply pair_equal_spec in E as [<- E]. injection E as <- <-.
    destruct (allocate_first _ _ _ _ _ _ Hpool Hgo) as [(v & Hc & _ & Hfree & _ & Hcl)|(_ & Hr & _)]; [|discriminate Hr].
    unfold claim in Hcl. rewrite Hfree in Hcl. destruct fault; destruct Hcl as [<- Hr]; try discriminate Hr.
    injection Hr as ->. apply held_intro; [done|]. unfold leased. cbn [path]. rewrite lookup_insert_eq. done.
  - intros E. apply pair_equal_spec in E as [_ E]. discriminate E.
Qed.

Lemma pool_allocate_triple e id :
  triple ordered (λ _, True) (pool_allocate s e id) (λ r h, match r with Ok (a, _) => leased_to a h | Err _ => True end).
Proof.
  intros h Hi _. unfold pool_allocate. destruct (allocate _ _ _ _) as [dir [[a b]|x]] eqn:E; simpl.
  - split_and!; [by apply Forall_singleton|done|]. unfold leased_to. cbn [hleases]. by eapply allocate_held.
  - split_and!; [by apply Forall_singleton|done..].
Qed.

Lemma keep_unlink id : triple ordered (λ _, True) (unlink manager s id) (λ _ _, True).
Proof.
  apply keep_bind; [apply keep_ask|]. intros found. apply keep_bind; [|intros _; by apply plain_triple].
  destruct found; [by apply plain_triple|apply keep_ret].
Qed.

Lemma keep_Release e id : triple ordered (λ _, True) (Release manager s e id) (λ _ _, True).
Proof.
  apply keep_bind; [apply triple_check; intros; by destruct (validName id)|intros _].
  apply keep_bind; [apply keep_unlink|intros _]. intros h Hi _. unfold pool_release.
  destruct (release _ _ _ _ _) as [dir r]. split_and!; [by apply Forall_singleton|done..].
Qed.

Lemma keep_undo e id b : triple ordered (λ _, True) (undo manager s e id b) (λ _ _, True).
Proof. unfold undo. destruct b; [apply keep_unlink|apply keep_Release]. Qed.

Lemma attach_triple id a o : triple ordered (pinned a) (attach manager s id a o) (λ _ _, True).
Proof.
  unfold attach. set (port := hostInterface s a).
  assert (Hto : ∀ {B} (m : nop B) P, triple ordered P m (λ _ h, P h) → triple ordered P m (λ r h, match r with Ok _ => P h | Err _ => True end)).
  { intros B m P Hm. eapply triple_weaken; [done|done|by intros [|]]. }
  eapply triple_bind with (M := λ _ h, pinned a h); [by apply Hto, plain_triple, stable_pinned|intros _].
  eapply triple_bind with (M := λ _ _, True).
  { unfold link. eapply triple_bind with (M := λ _ h, pinned a h).
    - unfold addNamespace. destruct (owner_set _); by apply Hto, plain_triple, stable_pinned.
    - intros _. apply call_triple; [|done]. intros h _ (ls & Hl & Ha). exists a, ls. done. }
  intros _. eapply triple_bind with (M := λ _ _, True); [by apply Hto, plain_triple|intros _].
  eapply triple_bind with (M := λ _ h, head (hcalls h) = Some (IsolatePort port)); [by apply call_triple|intros _].
  eapply triple_bind with (M := λ _ _, True); [by apply call_triple|intros _].
  destruct (Tap (cfg s)).
  - unfold bridgeTap, attach_port. repeat (apply keep_bind; [|intros _]); by apply plain_triple.
  - unfold configureGuest. repeat (apply keep_bind; [|intros _]); by apply plain_triple.
Qed.

Lemma held_for_triple e id a :
  triple ordered (leased_to a) (held_for (Ensure manager s e) id) (λ r h, match r with Ok _ => pinned a h | Err _ => True end).
Proof.
  intros h Hi Hl. pose proof (Ensure_triple e a h Hi Hl) as H. unfold held_for.
  destruct (Ensure manager s e h) as [[t h'] [[]|[errs|x]]]; [naive_solver| |naive_solver].
  destruct H as (? & ? & ? & ?). split_and!; [done..|]. unfold heldFor. by destruct (errs !! id).
Qed.

Lemma Allocate_triple e id : triple ordered (λ _, True) (Allocate manager s e id) (λ _ _, True).
Proof.
  unfold Allocate. eapply triple_bind with (M := λ _ _, True); [apply triple_check; intros; by destruct (validName id)|intros _].
  eapply triple_bind with (M := λ lease h, leased_to lease.1 h).
  { eapply triple_weaken; [apply pool_allocate_triple|done|]. by intros [[a b]|x]. }
  intros [a was]. cbn [fst snd]. eapply triple_bind with (M := λ _ h, pinned a h).
  { eapply triple_or_undo with (M := λ _ _, True); [|by intros; apply keep_undo].
    eapply triple_weaken; [apply held_for_triple|done|by intros [[]|]]. }
  intros _. eapply triple_bind with (M := λ _ h, pinned a h).
  { apply triple_ask. intros h _ Hp. by destruct (ns_exists e). }
  intros built. eapply triple_bind with (M := λ _ h, pinned a h).
  { destruct built; [|by apply triple_ret]. eapply triple_weaken; [by apply plain_triple, stable_pinned|done|by intros [[]|]]. }
  intros _. eapply triple_bind with (M := λ _ h, pinned a h).
  { apply triple_ask. intros h _ Hp. by destruct (service_owner s e). }
  intros o. eapply triple_bind with (M := λ _ _, True); [|intros _; by apply triple_ret].
  eapply triple_or_undo with (M := λ _ _, True); [|by intros; apply keep_undo].
  eapply triple_weaken; [apply attach_triple|done|by intros [[]|]].
Qed.

Lemma keep_Ensure e : triple ordered (λ _, True) (Ensure manager s e) (λ _ _, True).
Proof.
  unfold Ensure. repeat (apply keep_bind; [apply keep_lift|intros ?]);
    first [apply keep_ask|by apply plain_triple|by apply keep_firewall|idtac].
  - by apply call_triple.
  - match goal with |- context [match ?x with _ => _ end] => destruct x end; [apply keep_fail|apply keep_ret].
Qed.

End Order.

(** ** Requests, one after the other *)

Inductive net_request : Type :=
| NetAllocate (id : string)
| NetRelease (id : string)
| NetReapply (id : string)
| NetReapplyAll.

Definition net_run (manager : list command → command → bool) (s : Service) (e : env) (q : net_request)
  : op host (compile_error net_error) unit :=
  match q with
  | NetAllocate id => lift (Allocate manager s e id ;;; ret tt)
  | NetRelease id => lift (Release manager s e id)
  | NetReapply id => lift (Reapply manager s e id)
  | NetReapplyAll => ReapplyAll manager s e
  end.

Inductive net_step (s : Service) : host → host → Prop :=
| net_request_step manager e q h h' : h' ∈ states (net_run manager s e q) h → net_step s h h'.

Lemma net_run_triple manager s e q :
  pool_ok (spool s) → triple (ordered s) (λ _, True) (net_run manager s e q) (λ _ _, True).
Proof.
  intros Hp. destruct q as [id|id|id|]; cbn [net_run].
  - apply keep_lift, keep_bind; [by apply Allocate_triple|intros; apply keep_ret].
  - by apply keep_lift, keep_Release.
  - apply keep_lift, keep_bind; [apply triple_check; intros; by destruct (validName id)|intros _].
    intros h Hi _. pose proof (keep_Ensure manager s e h Hi Logic.I) as H. unfold held_for.
    destruct (Ensure manager s e h) as [[t h'] a]. naive_solver.
  - intros h Hi _. pose proof (keep_Ensure manager s e h Hi Logic.I) as H. unfold ReapplyAll.
    destruct (Ensure manager s e h) as [[t h'] a]. naive_solver.
Qed.

Lemma safe_calls_app s later earlier : safe_calls s (later ++ earlier) → safe_calls s earlier.
Proof. induction later as [|c later IH]; [done|]. intros [_ H]. by apply IH. Qed.

(** C31: A sandbox's port is guarded before it can carry a frame. Over every history of allocations, releases and
    reapplies, at every point of them and whatever calls fail: when the pair whose host end is named after an
    address is made, the last ruleset applied pins that address; and no port ever comes up but right after it was
    isolated from the other sandboxes'. *)
Theorem ports_guarded c s dir zoned h :
  addr_ok (paddr (Subnet c)) → New c = Ok s → rtc (net_step s) (MkHost dir [] zoned) h →
  (∀ later port peer id earlier, hcalls h = later ++ AddVeth port peer id :: earlier →
    ∃ a leases, port = hostInterface s a ∧ last_leases earlier = Some leases ∧ a ∈ leases) ∧
  (∀ later port earlier, hcalls h = later ++ SetUp port :: earlier → head earlier = Some (IsolatePort port)).
Proof.
  intros Hok Hnew Hr. assert (Ho : ordered s h).
  { apply rtc_ind_r with (P := ordered s) in Hr; [done|done|].
    intros x y _ [manager e q x' y' Hin] Hx.
    destruct (triple_states _ _ _ _ x' (net_run_triple manager s e q (New_pool_ok c s Hok Hnew)) Hx Logic.I) as [Hall _].
    rewrite Forall_forall in Hall. by apply Hall. }
  split.
  - intros later port peer id earlier E. unfold ordered in Ho. rewrite E in Ho. by apply safe_calls_app in Ho as [? _].
  - intros later port earlier E. unfold ordered in Ho. rewrite E in Ho. by apply safe_calls_app in Ho as [? _].
Qed.

(** * Addresses: the network of a substrate whose frames end in the daemon

    [addresses.go]: leases and the judge of the user-space stack, with no host side. *)

Record Addresses : Type := MkAddresses { apool : pool; asubnet : Prefix; agateway : Addr; aegress : bool; areport : bool }.

Definition NewAddresses (c : Config) : result net_error Addresses :=
  match normalise c with
  | Err e => Err e
  | Ok (c, gateway) => Ok (MkAddresses (MkPool (Subnet c) (Next gateway)) (Subnet c) gateway (HasEgress c) (HasReport c))
  end.

Record stack : Type := MkStack { kleases : leases; kjudge : Judge }.

Definition set_judge (cs : list Chain) (k : stack) : stack := MkStack (kleases k) (Apply cs (kjudge k)).

(** [apply]: the judge gets every chain, or keeps the ones it had when the compile failed outright. *)
Definition apply_chains (a : Addresses) (compiled : list Chain * option (compile_error net_error))
  : op stack (compile_error net_error) unit :=
  if negb (aegress a) then touch (set_judge [])
  else match splitHeld compiled.1 compiled.2 with
       | Err e => fail (CompileFailed e)
       | Ok (cs, held) =>
           touch (set_judge cs) ;;;
           match held with Some errs => fail (HeldChains errs) | None => ret tt end
       end.

Definition apply_for (a : Addresses) compiled (id : string) : op stack net_error unit := λ k,
  let '(t, k', r) := apply_chains a compiled k in
  (t, k', match r with
          | Ok _ => Ok tt
          | Err e => match heldFor (Some e) id with Some e => Err e | None => Ok tt end
          end).

Definition stack_leases (f : leases → leases * result pool_error unit) : op stack net_error unit := λ k,
  let '(dir, r) := f (kleases k) in let k' := MkStack dir (kjudge k) in ([k'], k', map_err EPool r).

Definition Addresses_Allocate (fault : claim_fault) (a : Addresses) compiled (id : string) : op stack net_error NetworkSpec :=
  check EBadName (validName id) ;;;
  lease <~ (λ k, let '(dir, r) := allocate fault (apool a) (kleases k) id in
                 let k' := MkStack dir (kjudge k) in ([k'], k', map_err EPool r)) ;;
  apply_for a compiled id ;;;
  ret (MkNetworkSpec (PrefixFrom lease.1 (pbits (asubnet a))) (agateway a) "" [agateway a] "" None).

Definition Addresses_Release (removed synced : bool) (a : Addresses) (id : string) : op stack net_error unit :=
  check EBadName (validName id) ;;; stack_leases (λ dir, release removed synced (apool a) dir id).

Definition Addresses_Reapply (a : Addresses) compiled (id : string) : op stack net_error unit :=
  check EBadName (validName id) ;;; apply_for a compiled id.

Definition Addresses_ReapplyAll (a : Addresses) compiled : op stack (compile_error net_error) unit := λ k,
  let '(t, k', r) := apply_chains a compiled k in
  (t, k', match r with
          | Ok _ => Ok tt
          | Err x => match heldReported (Some x) (areport a) with Some x => Err x | None => Ok tt end
          end).

(** The two networks lay the subnet out alike. *)
Lemma NewAddresses_New c s : New c = Ok s →
  NewAddresses c = Ok (MkAddresses (spool s) (Subnet (cfg s)) (gateway s) (HasEgress (cfg s)) (HasReport (cfg s))).
Proof. unfold New, NewAddresses. destruct (normalise c) as [[c' g]|]; [|done]. by intros [= <-]. Qed.

(** A sandbox that is given an address on the stack is judged by the chains of that very compile, held or not. *)
Lemma Addresses_Allocate_judged fault a compiled id k t k' spec :
  Addresses_Allocate fault a compiled id k = (t, k', Ok spec) →
  kjudge k' = Apply (if aegress a then compiled.1 else []) (kjudge k).
Proof.
  unfold Addresses_Allocate, bind at 1, check. destruct (validName id); [|done]. cbn [ret]. unfold bind at 1.
  destruct (allocate fault (apool a) (kleases k) id) as [dir [lease|e]]; cbn [map_err]; [|done].
  unfold bind, apply_for, apply_chains. destruct (aegress a); cbn [negb]; [|by intros [= _ <- _]].
  destruct compiled as [cs [[errs|e]|]]; cbn [splitHeld fst snd]; [|done|by intros [= _ <- _]].
  cbn [heldFor]. destruct (errs !! id) eqn:E; simpl; rewrite E; [done|]. by intros [= _ <- _].
Qed.

(** * Witnesses *)

Definition plain_config : Config := MkConfig "/var/lib/shard" "" PrefixZero [] false false false false false.
Definition plain_service : Service :=
  MkService (set_layout plain_config "shard0" (MkPrefix (Addr4 173473792) 16) DefaultNameservers)
    (MkPool (MkPrefix (Addr4 173473792) 16) (Addr4 173473794)) (Addr4 173473793).
Definition fine_env : env := MkEnv (Some []) ([], None) true ClaimFine (true, true) (Some false) None.
Definition fine_manager : list command → command → bool := λ _ _, true.
Definition empty_host : host := MkHost ∅ [] false.
Definition built_host : host := (Allocate fine_manager plain_service fine_env "sb-a" empty_host).1.2.

Lemma plain_service_New : New plain_config = Ok plain_service.
Proof. vm_compute. reflexivity. Qed.

Lemma New_layout_witness : New plain_config = Ok plain_service ∧ Prefix_Contains (Subnet (cfg plain_service)) (gateway plain_service) = true.
Proof.
  split; [vm_compute; reflexivity|].
  exact (proj1 (proj2 (New_layout plain_config plain_service Logic.I plain_service_New))).
Defined.

Lemma hostInterface_unique_witness : (String.length (hostInterface plain_service (Addr4 173473800)) ≤ 15)%nat.
Proof.
  refine (proj2 (hostInterface_unique plain_config plain_service 173473800 173473801 Logic.I plain_service_New _ _) _);
    [vm_compute; reflexivity|vm_compute; reflexivity|vm_compute; congruence].
Defined.

Lemma conflict_spec_witness :
  conflict (MkPrefix (Addr4 173473792) 16) [MkPrefix (Addr4 173473792) 16; MkPrefix (Addr4 173473793) 32]
    = Some (MkPrefix (Addr4 173473793) 32) ∧ MkPrefix (Addr4 173473793) 32 ≠ MkPrefix (Addr4 173473792) 16.
Proof.
  assert (E : conflict (MkPrefix (Addr4 173473792) 16) [MkPrefix (Addr4 173473792) 16; MkPrefix (Addr4 173473793) 32]
    = Some (MkPrefix (Addr4 173473793) 32)) by (vm_compute; reflexivity). split; [exact E|].
  assert (H1 : route_ok (MkPrefix (Addr4 173473792) 16)) by (exists 173473792, 16; unfold addr4_ok; split_and!; done || lia).
  assert (H2 : route_ok (MkPrefix (Addr4 173473793) 32)) by (exists 173473793, 32; unfold addr4_ok; split_and!; done || lia).
  pose proof (conflict_spec (MkPrefix (Addr4 173473792) 16) [MkPrefix (Addr4 173473792) 16; MkPrefix (Addr4 173473793) 32]
    H1 ltac:(rewrite !Forall_cons; auto)) as H.
  rewrite E in H. exact (proj1 (proj2 H)).
Defined.

Lemma ports_guarded_witness :
  ∃ later earlier, hcalls built_host = later ++ SetUp "shardv2" :: earlier ∧ head earlier = Some (IsolatePort "shardv2").
Proof.
  assert (Hr : rtc (net_step plain_service) empty_host built_host).
  { apply rtc_once. apply (net_request_step plain_service fine_manager fine_env (NetAllocate "sb-a")).
    apply list_elem_of_In. vm_compute. repeat first [left; reflexivity|right]. }
  exists (take 4 (hcalls built_host)), (drop 5 (hcalls built_host)).
  assert (E : hcalls built_host = take 4 (hcalls built_host) ++ SetUp "shardv2" :: drop 5 (hcalls built_host)) by (vm_compute; reflexivity).
  split; [exact E|].
  exact (proj2 (ports_guarded plain_config plain_service ∅ false built_host Logic.I plain_service_New Hr) _ _ _ E).
Defined.
