(* ===== verification/Replacer.v ===== *)
(** * Putting secrets in

    The substitution of [services/broker/broker.go]: [strings.NewReplacer] over the placeholders,
    [strings.Count], the bound on what a rewrite can come to, and the rewrite itself, which runs the
    replacer only when a placeholder that changes occurs in the text. Every placeholder a secret store
    holds has at least one byte. *)

From S2P Require Import Prelude GoStrings.
Local Open Scope Z_scope.

Record swap : Type := MkSwap { splaceholder : string; swith : string }.

#[export] Instance swap_eq_dec : EqDecision swap.
Proof. solve_decision. Defined.

(** The swap the replacer makes at the head of [s]: the first in argument order whose placeholder is there. *)
Definition swap_at (swaps : list swap) (s : string) : option swap :=
  first_match (λ p, negb (String.eqb (splaceholder p) "") && String.prefix (splaceholder p) s) swaps.

(** [strings.NewReplacer(pairs...).Replace]: left to right, matches do not overlap. *)
Fixpoint replace_pairs (swaps : list swap) (skip : nat) (s : string) : string :=
  match s with
  | EmptyString => EmptyString
  | String c s' =>
      match skip with
      | S k => replace_pairs swaps k s'
      | O => match swap_at swaps s with
             | Some p => swith p +:+ replace_pairs swaps (String.length (splaceholder p) - 1) s'
             | None => String c (replace_pairs swaps 0 s')
             end
      end
  end.

Definition Replace (swaps : list swap) (s : string) : string := replace_pairs swaps 0 s.

(** [strings.Count] of a [sub] that is not empty. *)
Fixpoint count_go (sub : string) (skip : nat) (s : string) : Z :=
  match s with
  | EmptyString => 0
  | String c s' =>
      match skip with
      | S k => count_go sub k s'
      | O => if String.prefix sub s then 1 + count_go sub (String.length sub - 1) s' else count_go sub 0 s'
      end
  end.

Definition Count (s sub : string) : Z := count_go sub 0 s.

Definition len (s : string) : Z := Z.of_nat (String.length s).

(** [swaps] in the order the replacer takes them, and those that change anything. *)
Definition changes (swaps : list swap) : list swap := filter (λ p, swith p ≠ splaceholder p) swaps.

Fixpoint bound_go (cs : list swap) (s : string) (length : Z) (found : bool) : Z * bool :=
  match cs with
  | [] => (length, found)
  | c :: cs =>
      let n := Count s (splaceholder c) in
      if n =? 0 then bound_go cs s length found
      else bound_go cs s (length + n * Z.max 0 (len (swith c) - len (splaceholder c))) true
  end.

Definition bound (cs : list swap) (s : string) : Z * bool := bound_go cs s (len s) false.

Section Rewrite.
(** The budget a request is charged to: [reserve] takes a number of bytes from it, or refuses. *)
Context {R : Type} (reserve : R → Z → option R).

Definition rewrite (swaps : list swap) (budget : R) (s : string) : option (R * string) :=
  let '(size, found) := bound (changes swaps) s in
  if negb found then Some (budget, s)
  else match reserve budget size with
       | None => None
       | Some budget => Some (budget, Replace swaps s)
       end.
End Rewrite.

(** [slices.SortStableFunc] by descending length: each swap goes after those no shorter. *)
Fixpoint insert_swap (p : swap) (ps : list swap) : list swap :=
  match ps with
  | [] => [p]
  | q :: ps =>
      if (String.length (splaceholder q) <? String.length (splaceholder p))%nat then p :: q :: ps
      else q :: insert_swap p ps
  end.

Definition sort_swaps (swaps : list swap) : list swap := foldl (λ acc p, insert_swap p acc) [] swaps.

Example replace_longest :
  Replace (sort_swaps [MkSwap "mock-TOKEN" "v1"; MkSwap "mock-TOKEN_B" "v2"]) "x mock-TOKEN_B mock-TOKEN" = "x v2 v1".
Proof. vm_compute. reflexivity. Qed.

(** * Lemmas *)

Lemma replace_pairs_skip swaps k s : replace_pairs swaps k s = Replace swaps (drop_s k s).
Proof. revert k. induction s as [|c s IH]; intros [|k]; try done. cbn [replace_pairs drop_s]. apply IH. Qed.

Lemma count_go_skip sub k s : count_go sub k s = Count (drop_s k s) sub.
Proof. revert k. induction s as [|c s IH]; intros [|k]; try done. cbn [count_go drop_s]. apply IH. Qed.

Lemma length_drop_s n s : String.length (drop_s n s) = (String.length s - n)%nat.
Proof. revert s. induction n as [|n IH]; intros [|c s]; simpl; auto. Qed.

Lemma drop_s_drop_s n m s : drop_s n (drop_s m s) = drop_s (m + n) s.
Proof. revert s. induction m as [|m IH]; intros [|c s]; simpl; auto. by destruct n. Qed.

Lemma drop_s_all s : drop_s (String.length s) s = "".
Proof. induction s; simpl; auto. Qed.

Lemma prefix_length p s : String.prefix p s = true → (String.length p ≤ String.length s)%nat.
Proof. intros [t ->]%prefix_spec. rewrite length_app_s. lia. Qed.

(** The equations of the two loops, free of the skip. *)
Lemma Replace_cons swaps c s :
  Replace swaps (String c s) =
  match swap_at swaps (String c s) with
  | Some p => swith p +:+ Replace swaps (drop_s (String.length (splaceholder p)) (String c s))
  | None => String c (Replace swaps s)
  end.
Proof.
  unfold Replace at 1. cbn [replace_pairs]. destruct (swap_at swaps (String c s)) as [p|] eqn:E; [|done].
  rewrite replace_pairs_skip. do 2 f_equal. apply first_match_Some in E as (? & ? & _ & H & _). breflect.
  apply String.eqb_neq in H. destruct (splaceholder p); [done|]. simpl. by rewrite Nat.sub_0_r.
Qed.

Lemma Count_cons sub c s :
  sub ≠ "" → Count (String c s) sub =
  if String.prefix sub (String c s) then 1 + Count (drop_s (String.length sub) (String c s)) sub else Count s sub.
Proof.
  intros Hne. unfold Count at 1. cbn [count_go]. destruct (String.prefix sub (String c s)); [|done].
  rewrite count_go_skip. destruct sub; [done|]. simpl. by rewrite Nat.sub_0_r.
Qed.

Lemma Count_nonneg s sub : 0 ≤ Count s sub.
Proof.
  unfold Count. generalize 0%nat. induction s as [|c s IH]; intros k; [done|]. cbn [count_go].
  destruct k; [destruct (String.prefix sub (String c s)); [specialize (IH (String.length sub - 1)%nat); lia|]|]; apply IH.
Qed.

(** Dropping a front of the text drops no more occurrences than it holds. *)
Lemma Count_drop_aux sub n s :
  sub ≠ "" → (String.length s ≤ n)%nat →
  (∀ k, Count (drop_s k s) sub ≤ Count s sub) ∧
  (∀ m, (m < String.length sub)%nat → Count s sub ≤ 1 + Count (drop_s m s) sub).
Proof.
  intros Hne. revert s. induction n as [|n IH]; intros s Hs.
  { destruct s; [|simpl in Hs; lia]. split; intros [|k]; done. }
  destruct s as [|c t]; [split; intros [|k]; done|]. simpl in Hs.
  assert (IHt := IH t ltac:(lia)). destruct IHt as [At Bt]. split.
  - intros [|k]; [done|]. cbn [drop_s]. etrans; [apply At|]. rewrite Count_cons by done.
    destruct (String.prefix sub (String c t)); [|done].
    destruct sub as [|d sub]; [done|]. cbn [String.length drop_s]. apply Bt. simpl. lia.
  - intros [|m] Hm; [cbn [drop_s]; lia|]. cbn [drop_s]. rewrite Count_cons by done.
    destruct (String.prefix sub (String c t)); [|apply Bt; lia].
    replace (drop_s (String.length sub) (String c t)) with (drop_s (String.length sub - S m) (drop_s m t)).
    + assert (IHd := IH (drop_s m t)). rewrite length_drop_s in IHd. destruct IHd as [Ad _]; [lia|].
      specialize (Ad (String.length sub - S m)%nat). lia.
    + rewrite drop_s_drop_s. destruct (String.length sub) as [|l]; [lia|]. cbn [drop_s]. f_equal. lia.
Qed.

Lemma Count_drop sub k s : sub ≠ "" → Count (drop_s k s) sub ≤ Count s sub.
Proof. intros Hne. by apply (Count_drop_aux sub (String.length s)). Qed.

Lemma Count_zero_cons sub c s : sub ≠ "" → Count (String c s) sub = 0 →
  String.prefix sub (String c s) = false ∧ Count s sub = 0.
Proof.
  intros Hne H. pose proof (Count_nonneg s sub). pose proof (Count_drop sub 1 (String c s) Hne) as Hd. cbn [drop_s] in Hd.
  rewrite Count_cons in H by done. destruct (String.prefix sub (String c s)); [|done].
  pose proof (Count_nonneg (drop_s (String.length sub) (String c s)) sub). lia.
Qed.

(** What the changes can add to a text. *)
Definition growth (c : swap) : Z := Z.max 0 (len (swith c) - len (splaceholder c)).
Definition extra (cs : list swap) (s : string) : Z :=
  foldr (λ c acc, Count s (splaceholder c) * growth c + acc) 0 cs.

Lemma bound_extra cs s : (bound cs s).1 = len s + extra cs s.
Proof.
  unfold bound. assert (H : ∀ l f, (bound_go cs s l f).1 = l + extra cs s); [|apply H].
  induction cs as [|c cs IH]; intros l f; simpl; [lia|]. unfold growth in *.
  destruct (Z.eqb_spec (Count s (splaceholder c)) 0) as [E|E]; rewrite IH; [rewrite E|]; lia.
Qed.

Lemma bound_found cs s : (bound cs s).2 = false → Forall (λ c, Count s (splaceholder c) = 0) cs.
Proof.
  unfold bound. assert (H : ∀ l f, (bound_go cs s l f).2 = false → f = false ∧ Forall (λ c, Count s (splaceholder c) = 0) cs).
  2: { intros E. exact (proj2 (H _ _ E)). }
  induction cs as [|c cs IH]; intros l f; simpl; [by intros ->|].
  destruct (Z.eqb_spec (Count s (splaceholder c)) 0) as [E|E]; intros H.
  - apply IH in H as [H1 H2]. split; [done|]. by constructor.
  - by apply IH in H as [H1 _].
Qed.

Lemma extra_cons c cs s : extra (c :: cs) s = Count s (splaceholder c) * growth c + extra cs s.
Proof. done. Qed.

Lemma growth_nonneg c : 0 ≤ growth c.
Proof. unfold growth. lia. Qed.

Lemma extra_mono cs s t :
  Forall (λ c, Count s (splaceholder c) ≤ Count t (splaceholder c)) cs → extra cs s ≤ extra cs t.
Proof.
  induction 1 as [|c cs Hc _ IH]; [done|]. rewrite !extra_cons.
  pose proof (Z.mul_le_mono_nonneg_r _ _ (growth c) (growth_nonneg c) Hc). lia.
Qed.

Lemma extra_drop cs k s : Forall (λ c, splaceholder c ≠ "") cs → extra cs (drop_s k s) ≤ extra cs s.
Proof. intros Hcs. apply extra_mono. eapply Forall_impl; [exact Hcs|]. intros c Hc. by apply Count_drop. Qed.

Lemma extra_step cs p c s :
  Forall (λ c, splaceholder c ≠ "") cs → p ∈ cs → String.prefix (splaceholder p) (String c s) = true →
  growth p + extra cs (drop_s (String.length (splaceholder p)) (String c s)) ≤ extra cs (String c s).
Proof.
  set (d := drop_s _ _). intros Hcs Hin Hp. induction Hcs as [|q l Hq Hl IH]; [set_solver|]. rewrite !extra_cons.
  pose proof (Count_drop (splaceholder q) (String.length (splaceholder p)) (String c s) Hq) as Hd. fold d in Hd.
  apply elem_of_cons in Hin as [->|Hin].
  - pose proof (extra_drop l (String.length (splaceholder q)) (String c s) Hl) as Hx. fold d in Hx.
    rewrite (Count_cons (splaceholder q)), Hp by done. fold d. lia.
  - pose proof (Z.mul_le_mono_nonneg_r _ _ (growth q) (growth_nonneg q) Hd). specialize (IH Hin). lia.
Qed.

Definition swaps_ok (swaps : list swap) : Prop := Forall (λ p, splaceholder p ≠ "") swaps.

Lemma changes_ok swaps : swaps_ok swaps → Forall (λ c, splaceholder c ≠ "") (changes swaps).
Proof.
  intros H. apply Forall_forall. intros c Hc. apply list_elem_of_filter in Hc as [_ Hc].
  exact (proj1 (Forall_forall _ _) H c Hc).
Qed.

Lemma swap_at_Some swaps s p :
  swap_at swaps s = Some p → p ∈ swaps ∧ String.prefix (splaceholder p) s = true ∧ splaceholder p ≠ "".
Proof.
  intros H. apply first_match_Some in H as (a & b & -> & H & _). breflect. apply String.eqb_neq in H. set_solver.
Qed.

Lemma len_app s t : len (s +:+ t) = len s + len t.
Proof. unfold len. rewrite length_app_s. lia. Qed.

(** The rewritten text is no longer than the bound. *)
Lemma Replace_bound swaps s : swaps_ok swaps → len (Replace swaps s) ≤ len s + extra (changes swaps) s.
Proof.
  intros Hok. pose proof (changes_ok swaps Hok) as Hc.
  remember (String.length s) as n eqn:Hn. assert (String.length s ≤ n)%nat as Hle by lia. clear Hn. revert s Hle.
  induction n as [|n IH]; intros s Hs.
  { destruct s; [|simpl in Hs; lia]. change (Replace swaps "") with "". unfold len. simpl.
    assert (H0 : ∀ l, extra l "" = 0) by (intros l; induction l as [|q l IHl]; simpl; [done|rewrite IHl; done]). rewrite H0. lia. }
  destruct s as [|c s]; [apply IH; simpl; lia|]. simpl in Hs. rewrite Replace_cons.
  destruct (swap_at swaps (String c s)) as [p|] eqn:E.
  - apply swap_at_Some in E as (Hin & Hp & Hne). rewrite len_app.
    set (d := drop_s (String.length (splaceholder p)) (String c s)).
    assert (Hlen : len d = len (String c s) - len (splaceholder p)).
    { unfold len, d. rewrite length_drop_s. apply prefix_length in Hp. lia. }
    assert (Hd : (String.length d ≤ n)%nat).
    { unfold d. rewrite length_drop_s. destruct (splaceholder p); [done|]. simpl. lia. }
    specialize (IH d Hd). destruct (decide (swith p = splaceholder p)) as [Ew|Ew].
    + rewrite Ew. pose proof (extra_drop (changes swaps) (String.length (splaceholder p)) (String c s) Hc) as Hx. fold d in Hx. lia.
    + assert (Hpc : p ∈ changes swaps) by by apply list_elem_of_filter.
      pose proof (extra_step (changes swaps) p c s Hc Hpc Hp) as Hx. fold d in Hx. unfold growth in Hx. lia.
  - pose proof (extra_drop (changes swaps) 1 (String c s) Hc) as Hx. cbn [drop_s] in Hx.
    specialize (IH s ltac:(lia)). unfold len in *. simpl String.length. lia.
Qed.

(** A text with no placeholder that changes comes out as it is. *)
Lemma Replace_id swaps s :
  swaps_ok swaps → Forall (λ c, Count s (splaceholder c) = 0) (changes swaps) → Replace swaps s = s.
Proof.
  intros Hok. pose proof (changes_ok swaps Hok) as Hc.
  remember (String.length s) as n eqn:Hn. assert (String.length s ≤ n)%nat as Hle by lia. clear Hn. revert s Hle.
  induction n as [|n IH]; intros [|c s] Hs HF; try done; [simpl in Hs; lia|]. simpl in Hs. rewrite Replace_cons.
  assert (HF' : ∀ k, Forall (λ q, Count (drop_s k (String c s)) (splaceholder q) = 0) (changes swaps)).
  { intros k. apply Forall_forall. intros q Hq. pose proof (proj1 (Forall_forall _ _) HF q Hq) as H0. simpl in H0.
    pose proof (proj1 (Forall_forall _ _) Hc q Hq) as Hne. pose proof (Count_drop (splaceholder q) k (String c s) Hne).
    pose proof (Count_nonneg (drop_s k (String c s)) (splaceholder q)). lia. }
  destruct (swap_at swaps (String c s)) as [p|] eqn:E.
  - apply swap_at_Some in E as (Hin & Hp & Hne). destruct (decide (swith p = splaceholder p)) as [Ew|Ew].
    + rewrite Ew, IH; [|rewrite length_drop_s; destruct (splaceholder p); [done|]; simpl; lia|apply HF'].
      apply prefix_spec in Hp as [t Ht]. rewrite Ht, drop_s_app. done.
    + assert (p ∈ changes swaps) as Hpc by by apply list_elem_of_filter.
      pose proof (proj1 (Forall_forall _ _) HF p Hpc) as H0. simpl in H0.
      apply Count_zero_cons in H0 as [H0 _]; [|done]. congruence.
  - rewrite IH; [done|lia|]. exact (HF' 1%nat).
Qed.

(** A rewrite is the replacer's answer, and no byte of it exists before it is paid for: the shortcut
    that skips the replacer changes nothing, and a text that does change fits in the size reserved for it
    first. *)
Theorem rewrite_spec {R} (reserve : R → Z → option R) swaps budget s budget' out :
  swaps_ok swaps → rewrite reserve swaps budget s = Some (budget', out) →
  out = Replace swaps s ∧
  (out ≠ s → ∃ size, reserve budget size = Some budget' ∧ len out ≤ size).
Proof.
  intros Hok. unfold rewrite. pose proof (bound_extra (changes swaps) s) as Hb.
  destruct (bound (changes swaps) s) as [size found] eqn:E. simpl in Hb. destruct found; simpl.
  - destruct (reserve budget size) as [b|] eqn:Hr; [|done]. intros [= <- <-].
    split; [done|]. intros _. exists size. split; [done|]. rewrite Hb. by apply Replace_bound.
  - intros [= <- <-]. pose proof (bound_found (changes swaps) s) as Hf. rewrite E in Hf.
    rewrite Replace_id by auto. done.
Qed.

(** ** The longest placeholder wins *)

Definition longer (p q : swap) : Prop :=
  (String.length (splaceholder q) ≤ String.length (splaceholder p))%nat.

Lemma insert_swap_elem p q ps : q ∈ insert_swap p ps ↔ q = p ∨ q ∈ ps.
Proof. induction ps as [|r ps IH]; simpl; [set_solver|]. destruct (_ <? _)%nat; set_solver. Qed.

Lemma insert_swap_sorted p ps : StronglySorted longer ps → StronglySorted longer (insert_swap p ps).
Proof.
  induction 1 as [|q ps Hps IH Hq]; simpl; [repeat constructor|].
  destruct (_ <? _)%nat eqn:E; breflect.
  - constructor; [by constructor|]. constructor; [unfold longer; lia|].
    eapply Forall_impl; [exact Hq|]. unfold longer. intros r. lia.
  - constructor; [done|]. apply Forall_forall. intros r Hr. apply insert_swap_elem in Hr as [->|Hr]; [exact E|].
    exact (proj1 (Forall_forall _ _) Hq r Hr).
Qed.

Lemma sort_swaps_spec swaps :
  StronglySorted longer (sort_swaps swaps) ∧ ∀ q, q ∈ sort_swaps swaps ↔ q ∈ swaps.
Proof.
  unfold sort_swaps. assert (H : ∀ acc, StronglySorted longer acc →
    StronglySorted longer (foldl (λ acc p, insert_swap p acc) acc swaps) ∧
    ∀ q, q ∈ foldl (λ acc p, insert_swap p acc) acc swaps ↔ q ∈ acc ∨ q ∈ swaps).
  - induction swaps as [|p swaps IH]; intros acc Hacc; simpl; [split; [done|set_solver]|].
    destruct (IH (insert_swap p acc)) as [H1 H2]; [by apply insert_swap_sorted|]. split; [done|].
    intros q. rewrite H2, insert_swap_elem. set_solver.
  - destruct (H []) as [H1 H2]; [constructor|]. split; [done|]. intros q. rewrite H2. set_solver.
Qed.

(** A shorter placeholder never eats a longer one: at every place of the text, the swap made is of the
    longest placeholder that stands there, whatever the order the secrets are granted in; and a
    placeholder that stands alone becomes its own value. *)
Theorem longest_placeholder swaps :
  (∀ s p, swap_at (sort_swaps swaps) s = Some p →
     p ∈ swaps ∧ ∀ q, q ∈ swaps → splaceholder q ≠ "" → String.prefix (splaceholder q) s = true → longer p q) ∧
  (∀ p, p ∈ swaps → splaceholder p ≠ "" → (∀ q, q ∈ swaps → splaceholder q = splaceholder p → q = p) →
     Replace (sort_swaps swaps) (splaceholder p) = swith p).
Proof.
  destruct (sort_swaps_spec swaps) as [Hs He].
  assert (Hwin : ∀ s p, swap_at (sort_swaps swaps) s = Some p →
     p ∈ swaps ∧ ∀ q, q ∈ swaps → splaceholder q ≠ "" → String.prefix (splaceholder q) s = true → longer p q).
  { intros s p H. pose proof H as H'. apply first_match_Some in H' as (before & after & HL & _ & Hb).
    split; [apply He; rewrite HL; set_solver|]. intros q Hq Hne Hpre. apply He in Hq. rewrite HL in Hq, Hs.
    apply StronglySorted_app in Hs as (_ & _ & Hs). apply StronglySorted_inv in Hs as [_ Hs].
    apply elem_of_app in Hq as [Hq|Hq].
    - pose proof (proj1 (Forall_forall _ _) Hb q Hq) as Hx. simpl in Hx. rewrite Hpre in Hx.
      apply String.eqb_neq in Hne. by rewrite Hne in Hx.
    - apply elem_of_cons in Hq as [->|Hq]; [unfold longer; lia|]. exact (proj1 (Forall_forall _ _) Hs q Hq). }
  split; [done|]. intros p Hp Hne Huniq.
  assert (Hpp : String.prefix (splaceholder p) (splaceholder p) = true) by (apply prefix_spec; exists ""; by rewrite app_nil_r).
  destruct (splaceholder p) as [|c r] eqn:Ep; [done|]. rewrite <- Ep in *.
  destruct (swap_at (sort_swaps swaps) (splaceholder p)) as [q|] eqn:Hat.
  - destruct (Hwin _ _ Hat) as [Hq Hlong]. specialize (Hlong p Hp Hne Hpp). unfold longer in Hlong.
    apply swap_at_Some in Hat as Hat'. destruct Hat' as (_ & Hpre & _). apply prefix_spec in Hpre as [t Ht].
    assert (q = p) as ->.
    { apply Huniq; [done|]. rewrite Ht, length_app_s in Hlong. destruct t; [by rewrite app_nil_r in Ht|simpl in Hlong; lia]. }
    rewrite Ep, Replace_cons, <- Ep, Hat, drop_s_all. apply app_nil_r.
  - unfold swap_at in Hat. apply first_match_None in Hat. exfalso.
    pose proof (proj1 (Forall_forall _ _) Hat p (proj2 (He p) Hp)) as Hx. simpl in Hx. rewrite Hpp in Hx.
    apply String.eqb_neq in Hne. by rewrite Hne in Hx.
Qed.

Lemma rewrite_spec_witness :
  let swaps := [MkSwap "mock-KEY" "s3cr3t-value"] in
  rewrite (λ b n, if n <=? b then Some (b - n) else None) swaps 100 "Bearer mock-KEY" = Some (81, "Bearer s3cr3t-value") ∧
  "Bearer s3cr3t-value" = Replace swaps "Bearer mock-KEY".
Proof.
  intros swaps. assert (H : rewrite (λ b n, if n <=? b then Some (b - n) else None) swaps 100 "Bearer mock-KEY" = Some (81, "Bearer s3cr3t-value"))
    by (vm_compute; reflexivity).
  split; [exact H|]. refine (proj1 (rewrite_spec _ swaps 100 _ _ _ _ H)). repeat constructor. done.
Defined.

Lemma longest_placeholder_witness :
  Replace (sort_swaps [MkSwap "mock-T" "a"; MkSwap "mock-TOKEN" "b"]) "mock-TOKEN" = "b".
Proof.
  refine (proj2 (longest_placeholder [MkSwap "mock-T" "a"; MkSwap "mock-TOKEN" "b"]) (MkSwap "mock-TOKEN" "b") _ _ _).
  - set_solver.
  - done.
  - intros q [->|[->|Hq]%elem_of_cons]%elem_of_cons; [done|done|set_solver].
Defined.
