(* ===== verification/Http.v ===== *)
(** * HTTP and base64 text

    What the broker uses of [net/http], [net/textproto] and [encoding/base64]: canonical header keys, a
    header as the list of its keys with their values, and the standard encoding with padding. *)

From S2P Require Import Prelude GoStrings.
Local Open Scope Z_scope.

(** ** Header keys *)

(** A byte a header key may hold. *)
Definition token_char (c : ascii) : bool :=
  is_digit c || is_upper c || is_lower c || contains_char c "!#$%&'*+-.^_`|~".

Definition upper_char (c : ascii) : ascii :=
  if is_lower c then ascii_of_nat (Z.to_nat (code c - 32)) else c.

Fixpoint canonical_go (upper : bool) (s : string) : string :=
  match s with
  | EmptyString => EmptyString
  | String c s => String (if upper then upper_char c else lower_char c) (canonical_go (Ascii.eqb c "-") s)
  end.

(** [http.CanonicalHeaderKey]: a key with a byte no key may hold is left as it is. *)
Definition CanonicalHeaderKey (s : string) : string := if all_chars token_char s then canonical_go true s else s.

(** [strings.TrimSpace]: the white-space runes [Fields] splits at, off both ends. *)
Fixpoint trim_left (skip : nat) (s : string) : string :=
  match s with
  | EmptyString => EmptyString
  | String c s' =>
      match skip with
      | S k => trim_left k s'
      | O => match space_len s with O => s | S n => trim_left n s' end
      end
  end.

Fixpoint space_only (skip : nat) (s : string) : bool :=
  match s with
  | EmptyString => true
  | String c s' =>
      match skip with
      | S k => space_only k s'
      | O => match space_len s with O => false | S n => space_only n s' end
      end
  end.

Fixpoint trim_right (s : string) : string :=
  match s with
  | EmptyString => EmptyString
  | String c s' => if space_only 0 s then EmptyString else String c (trim_right s')
  end.

Definition TrimSpace (s : string) : string := trim_right (trim_left 0 s).

(** [strings.EqualFold] of two ASCII texts. *)
Definition EqualFold (s t : string) : bool := String.eqb (map_chars lower_char s) (map_chars lower_char t).

(** A header, in the order its map is walked; a key occurs once. *)
Abbreviation Header := (list (string * list string)).

Definition Values (h : Header) (key : string) : list string :=
  match first_match (λ kv, String.eqb kv.1 (CanonicalHeaderKey key)) h with Some kv => kv.2 | None => [] end.

Definition Header_Get (h : Header) (key : string) : string := default "" (head (Values h key)).

Definition Header_Set (h : Header) (key value : string) : Header :=
  let key := CanonicalHeaderKey key in
  if existsb (λ kv, String.eqb kv.1 key) h
  then (λ kv, if String.eqb kv.1 key then (key, [value]) else kv) <$> h
  else h ++ [(key, [value])].

(** ** Base64 *)

Definition b64_char (n : Z) : ascii :=
  ascii_of_nat (Z.to_nat (if n <? 26 then 65 + n else if n <? 52 then 71 + n else if n <? 62 then n - 4 else if n =? 62 then 43 else 47)).

Definition b64_val (c : ascii) : option Z :=
  if is_upper c then Some (code c - 65)
  else if is_lower c then Some (code c - 71)
  else if is_digit c then Some (code c + 4)
  else if Ascii.eqb c "+" then Some 62
  else if Ascii.eqb c "/" then Some 63
  else None.

Definition byte (n : Z) : ascii := ascii_of_nat (Z.to_nat n).

Fixpoint EncodeToString64 (s : string) : string :=
  match s with
  | EmptyString => EmptyString
  | String a EmptyString =>
      let n := code a * 16 in
      String (b64_char (n / 64)) (String (b64_char (n mod 64)) "==")
  | String a (String b EmptyString) =>
      let n := (code a * 256 + code b) * 4 in
      String (b64_char (n / 4096)) (String (b64_char (n / 64 mod 64)) (String (b64_char (n mod 64)) "="))
  | String a (String b (String c s)) =>
      let n := (code a * 256 + code b) * 256 + code c in
      String (b64_char (n / 262144)) (String (b64_char (n / 4096 mod 64))
        (String (b64_char (n / 64 mod 64)) (String (b64_char (n mod 64)) (EncodeToString64 s))))
  end.

Definition EncodedLen (n : Z) : Z := (n + 2) / 3 * 4.

(** The decoder passes over CR and LF wherever they stand. *)
Fixpoint strip_crlf (s : string) : string :=
  match s with
  | EmptyString => EmptyString
  | String c s => if (code c =? 10) || (code c =? 13) then strip_crlf s else String c (strip_crlf s)
  end.

Fixpoint decode_go (s : string) : option string :=
  match s with
  | EmptyString => Some EmptyString
  | String a (String b (String c (String d s))) =>
      x ← b64_val a; y ← b64_val b;
      match b64_val c, b64_val d with
      | Some z, Some w =>
          let n := ((x * 64 + y) * 64 + z) * 64 + w in
          t ← decode_go s;
          Some (String (byte (n / 65536)) (String (byte (n / 256 mod 256)) (String (byte (n mod 256)) t)))
      | Some z, None =>
          if Ascii.eqb d "=" && String.eqb s "" then
            let n := ((x * 64 + y) * 64 + z) / 4 in
            Some (String (byte (n / 256)) (String (byte (n mod 256)) EmptyString))
          else None
      | None, _ =>
          if Ascii.eqb c "=" && Ascii.eqb d "=" && String.eqb s "" then
            let n := (x * 64 + y) / 16 in Some (String (byte n) EmptyString)
          else None
      end
  | _ => None
  end.

Definition DecodeString (s : string) : option string := decode_go (strip_crlf s).

Example b64_1 : EncodeToString64 "user:pass" = "dXNlcjpwYXNz".
Proof. vm_compute. reflexivity. Qed.
Example b64_2 : DecodeString "dXNlcjpwYQ==" = Some "user:pa".
Proof. vm_compute. reflexivity. Qed.
Example b64_3 : DecodeString "YTo=" = Some "a:" ∧ DecodeString "YTo" = None.
Proof. vm_compute. done. Qed.
Example trim_1 : TrimSpace "  x-a b " = "x-a b".
Proof. vm_compute. reflexivity. Qed.
Example key_1 : CanonicalHeaderKey "x-api-KEY" = "X-Api-Key" ∧ CanonicalHeaderKey "a b" = "a b".
Proof. vm_compute. done. Qed.
