(* ===== verification/Routes.v ===== *)
(** * Routes and scopes

    The table of routes of [services/api/api.go], the scopes of [models/scope.go], and the two muxes built from them: the
    daemon's ([Handler.register] in [services/api/huma.go]) and the one the TCP front checks a token against
    ([services/serve/scopes.go]). [http.ServeMux] is followed as [net/http] runs it: the escaped path is cleaned, cut into
    segments, and walked down a tree of literal, single and rest-of-path children. *)

From S2P Require Import Prelude GoStrings Http.
Local Open Scope Z_scope.

(** ** Scopes *)

Definition ScopeSandboxRead : string := "sandbox:read".
Definition ScopeSandboxWrite : string := "sandbox:write".
Definition ScopeSandboxDelete : string := "sandbox:delete".
Definition ScopeExec : string := "exec".
Definition ScopeSecret : string := "secret:*".
Definition ScopePolicy : string := "policy:*".
Definition ScopePortRead : string := "port:read".
Definition ScopePortWrite : string := "port:write".
Definition ScopeAll : string := "*".

(** The names of [models.Scopes]; their descriptions are printed and never read. *)
Definition Scopes : list string :=
  [ScopeSandboxRead; ScopeSandboxWrite; ScopeSandboxDelete; ScopeExec; ScopeSecret; ScopePolicy; ScopePortRead; ScopePortWrite; ScopeAll].

(** [CheckScopes] refuses a scope the table does not list, and names the first one it meets. *)
Definition CheckScopes (scopes : list string) : result string unit :=
  first_err (λ s, if contains Scopes s then Ok tt else Err s) scopes.

Definition Public : string := "public".
Definition Local_ : string := "local".

Definition AnyToken : string := "any".
Definition SandboxRead : string := ScopeSandboxRead.
Definition SandboxWrite : string := ScopeSandboxWrite.
Definition SandboxDelete : string := ScopeSandboxDelete.
Definition Exec : string := ScopeExec.
Definition Secret : string := ScopeSecret.
Definition Policy : string := ScopePolicy.
Definition PortRead : string := ScopePortRead.
Definition PortWrite : string := ScopePortWrite.

Record Route : Type := MkRoute { Method : string; Pattern : string; RClass : string; RScope : string }.
#[export] Instance Route_eq_dec : EqDecision Route. Proof. solve_decision. Defined.

Definition public (method pattern scope : string) : Route := MkRoute method pattern Public scope.
Definition local (method pattern : string) : Route := MkRoute method pattern Local_ "".

(** [routeTable], in its order. *)
Definition Routes : list Route := [
  public "GET" "/v0/version" AnyToken;
  public "GET" "/v0/capabilities" AnyToken;
  public "GET" "/v0/scopes" AnyToken;
  local "GET" "/v0/daemon";
  public "GET" "/v0/sandboxes" SandboxRead;
  public "GET" "/v0/sandboxes/{id}" SandboxRead;
  public "POST" "/v0/sandboxes" SandboxWrite;
  public "POST" "/v0/sandboxes/{id}/start" SandboxWrite;
  public "POST" "/v0/sandboxes/{id}/stop" SandboxWrite;
  public "DELETE" "/v0/sandboxes/{id}" SandboxDelete;
  public "POST" "/v0/sandboxes/{id}/pause" SandboxWrite;
  public "POST" "/v0/sandboxes/{id}/resume" SandboxWrite;
  public "POST" "/v0/sandboxes/{id}/fork" SandboxWrite;
  public "POST" "/v0/sandboxes/{id}/exec" Exec;
  public "GET" "/v0/sandboxes/{id}/exec" Exec;
  public "GET" "/v0/sandboxes/{id}/exec/{exec}" Exec;
  public "POST" "/v0/sandboxes/{id}/exec/{exec}/kill" Exec;
  public "DELETE" "/v0/sandboxes/{id}/exec/{exec}" Exec;
  public "POST" "/v0/sandboxes/{id}/exec/{exec}/resize" Exec;
  public "PUT" "/v0/sandboxes/{id}/files" Exec;
  public "GET" "/v0/sandboxes/{id}/files" Exec;
  public "HEAD" "/v0/sandboxes/{id}/files" Exec;
  public "DELETE" "/v0/sandboxes/{id}/files" Exec;
  public "GET" "/v0/sandboxes/{id}/ls" Exec;
  public "POST" "/v0/sandboxes/{id}/mkdir" Exec;
  public "PUT" "/v0/sandboxes/{id}/archive" Exec;
  public "GET" "/v0/sandboxes/{id}/archive" Exec;
  public "POST" "/v0/sandboxes/{id}/processes" Exec;
  public "GET" "/v0/sandboxes/{id}/processes" SandboxRead;
  public "GET" "/v0/sandboxes/{id}/processes/{name}" SandboxRead;
  public "POST" "/v0/sandboxes/{id}/processes/{name}/kill" Exec;
  public "GET" "/v0/sandboxes/{id}/processes/{name}/logs" SandboxRead;
  public "GET" "/v0/sandboxes/{id}/processes/{name}/attach" SandboxRead;
  public "GET" "/v0/sandboxes/{id}/egress-log" SandboxRead;
  public "POST" "/v0/sandboxes/{id}/secrets/{name}" Secret;
  public "DELETE" "/v0/sandboxes/{id}/secrets/{name}" Secret;
  public "PUT" "/v0/sandboxes/{id}/policy" Policy;
  public "DELETE" "/v0/sandboxes/{id}/policy" Policy;
  public "GET" "/v0/ports" PortRead;
  public "GET" "/v0/sandboxes/{id}/ports" PortRead;
  public "PUT" "/v0/sandboxes/{id}/ports/{host_port}" PortWrite;
  public "DELETE" "/v0/sandboxes/{id}/ports/{host_port}" PortWrite;
  public "POST" "/v0/snapshots" SandboxWrite;
  public "GET" "/v0/snapshots" SandboxRead;
  public "GET" "/v0/snapshots/{ref}" SandboxRead;
  public "DELETE" "/v0/snapshots/{ref}" SandboxDelete;
  public "GET" "/v0/policies" Policy;
  public "GET" "/v0/policies/{name}" Policy;
  public "PUT" "/v0/policies/{name}" Policy;
  public "DELETE" "/v0/policies/{name}" Policy;
  public "GET" "/v0/secrets" Secret;
  public "PUT" "/v0/secrets/{name}" Secret;
  public "DELETE" "/v0/secrets/{name}" Secret;
  local "GET" "/v0/images";
  local "POST" "/v0/images/pull";
  local "POST" "/v0/images/prune";
  local "DELETE" "/v0/images/{ref...}"
].

(** [covers]: whether the scopes of a token reach a route. *)
Definition covers (scopes : list string) (need : string) : bool :=
  bool_decide (scopes = []) || String.eqb need AnyToken || existsb (λ s, String.eqb s ScopeAll || String.eqb s need) scopes.

(** ** Paths and patterns, as [net/http] reads them *)

Definition hex_val (c : ascii) : option Z :=
  if is_digit c then Some (code c - 48)
  else if in_range 97 102 c then Some (code c - 87)
  else if in_range 65 70 c then Some (code c - 55)
  else None.

(** [url.PathUnescape]; a bad escape is refused. *)
Fixpoint PathUnescape (s : string) : option string :=
  match s with
  | EmptyString => Some EmptyString
  | String c s1 =>
      if Ascii.eqb c "%" then
        match s1 with
        | String a (String b s2) =>
            x ← hex_val a; y ← hex_val b; t ← PathUnescape s2; Some (String (byte (16 * x + y)) t)
        | _ => None
        end
      else t ← PathUnescape s1; Some (String c t)
  end.

(** The segments of a path the mux walks: each unescaped where it can be, and ["/"] for a slash at the end. *)
Fixpoint segments_of (pieces : list string) : list string :=
  match pieces with
  | [] => []
  | [last] => if String.eqb last "" then ["/"] else [default last (PathUnescape last)]
  | piece :: pieces => default piece (PathUnescape piece) :: segments_of pieces
  end.

Definition path_segments (path : string) : list string :=
  if String.eqb path "" then [] else segments_of (tail (Split "/" path)).

(** [path.Clean] of a rooted path: what is left after empty, [.] and [..] pieces. *)
Fixpoint clean_go (kept pieces : list string) : list string :=
  match pieces with
  | [] => reverse kept
  | p :: pieces =>
      if String.eqb p "" || String.eqb p "." then clean_go kept pieces
      else if String.eqb p ".." then clean_go (tail kept) pieces
      else clean_go (p :: kept) pieces
  end.

(** [cleanPath]: rooted, cleaned, with the slash at the end it had. *)
Definition cleanPath (p : string) : string :=
  if String.eqb p "" then "/"
  else
    let p := if HasPrefix p "/" then p else "/" +:+ p in
    let np := "/" +:+ Join "/" (clean_go [] (Split "/" p)) in
    if HasSuffix p "/" && negb (String.eqb np "/") then np +:+ "/" else np.

(** A segment of a pattern: text, [{name}], or [{name...}] and the slash at the end of a pattern. *)
Inductive seg : Type := Lit (s : string) | Wild | Multi.
#[export] Instance seg_eq_dec : EqDecision seg. Proof. solve_decision. Defined.

Definition seg_of (s : string) : seg :=
  if String.eqb s "" || HasSuffix s "...}" then Multi else if HasPrefix s "{" then Wild else Lit s.

Definition pattern_segs (pattern : string) : list seg := seg_of <$> tail (Split "/" pattern).

Record entry (A : Type) : Type := MkEntry { emethod : string; esegs : list seg; evalue : A }.
Arguments MkEntry {A} _ _ _.
Arguments emethod {A} _.
Arguments esegs {A} _.
Arguments evalue {A} _.

Definition map_entry {A B} (f : A → B) (e : entry A) : entry B := MkEntry (emethod e) (esegs e) (f (evalue e)).

(** ** The walk *)

(** A node of the tree: the patterns that reach it, each with the segments it still asks for. *)
Abbreviation node A := (list (list seg * entry A)).

Definition child {A} (step : list seg → option (list seg)) (n : node A) : node A :=
  omap (λ x, (λ t, (t, x.2)) <$> step x.1) n.

Definition past_wild (p : list seg) : option (list seg) := match p with Wild :: t => Some t | _ => None end.
Definition past_lit (key : string) (p : list seg) : option (list seg) :=
  match p with Lit k :: t => if String.eqb k key then Some t else None | _ => None end.

Definition wild_child {A} (n : node A) : node A := child past_wild n.

(** [findChild]; the key of the wildcard is the empty one. *)
Definition literal_child {A} (key : string) (n : node A) : node A :=
  if String.eqb key "" then wild_child n else child (past_lit key) n.

Definition is_end (p : list seg) : bool := match p with [] => true | _ => false end.
Definition is_rest (p : list seg) : bool := match p with [Multi] => true | _ => false end.

Definition multi_child {A} (n : node A) : option (entry A) :=
  snd <$> first_match (λ x, is_rest x.1) n.

(** A literal is tried before a wildcard, and both before the rest of the path. *)
Fixpoint matchPath {A} (segs : list string) (n : node A) : option (entry A) :=
  match segs with
  | [] => snd <$> first_match (λ x, is_end x.1) n
  | s :: rest =>
      match matchPath rest (literal_child s n) with
      | Some e => Some e
      | None =>
          match (if String.eqb s "/" then None else matchPath rest (wild_child n)) with
          | Some e => Some e
          | None => multi_child n
          end
      end
  end.

Definition method_child {A} (method : string) (es : list (entry A)) : node A :=
  omap (λ e, if String.eqb (emethod e) method then Some (esegs e, e) else None) es.

(** The method itself, then GET for a HEAD, then the patterns of no method. *)
Definition matchMethodAndPath {A} (method : string) (segs : list string) (es : list (entry A)) : option (entry A) :=
  match matchPath segs (method_child method es) with
  | Some e => Some e
  | None =>
      match (if String.eqb method "HEAD" then matchPath segs (method_child "GET" es) else None) with
      | Some e => Some e
      | None => matchPath segs (method_child "" es)
      end
  end.

Definition slashes (path : string) : nat := pred (length (Split "/" path)).

Definition exactMatch {A} (e : option (entry A)) (path : string) : bool :=
  match e with
  | None => false
  | Some e =>
      negb (bool_decide (last (esegs e) = Some Multi)) ||
      ((String.eqb path "" || HasSuffix path "/") && Nat.eqb (length (esegs e)) (slashes path))
  end.

Inductive answer (A : Type) : Type := Found (e : entry A) | Redirected | Missing.
Arguments Found {A} _.
Arguments Redirected {A}.
Arguments Missing {A}.

(** [matchOrRedirect]: a path that only a slash at the end would match exactly is sent there. *)
Definition matchOrRedirect {A} (es : list (entry A)) (method path : string) : answer A :=
  let e := matchMethodAndPath method (path_segments path) es in
  if negb (exactMatch e path) && negb (HasSuffix path "/") &&
     exactMatch (matchMethodAndPath method (path_segments (path +:+ "/")) es) (path +:+ "/")
  then Redirected
  else match e with Some e => Found e | None => Missing end.

(** [ServeMux.findHandler] on the escaped path: a CONNECT keeps its path, anything else is sent to its clean one. *)
Definition findHandler {A} (es : list (entry A)) (method path : string) : answer A :=
  if String.eqb method "CONNECT" then matchOrRedirect es method path
  else
    match matchOrRedirect es method (cleanPath path) with
    | Redirected => Redirected
    | a => if String.eqb (cleanPath path) path then a else Redirected
    end.

(** ** The two muxes *)

(** [newCapMux]: every public route under its scope. A route with no class, or a public one with no scope, is refused. *)
Inductive cap_error : Type := ENoClass (r : Route) | ENoScope (r : Route).

Definition capEntry (r : Route) : entry string := MkEntry (Method r) (pattern_segs (Pattern r)) (RScope r).

Fixpoint newCapMux (routes : list Route) : result cap_error (list (entry string)) :=
  match routes with
  | [] => Ok []
  | r :: routes =>
      if String.eqb (RClass r) Local_ then newCapMux routes
      else if negb (String.eqb (RClass r) Public) then Err (ENoClass r)
      else if String.eqb (RScope r) "" then Err (ENoScope r)
      else match newCapMux routes with Ok caps => Ok (capEntry r :: caps) | Err e => Err e end
  end.

(** [capMux.scope]: the scope of the route a request matches. *)
Definition scope (caps : list (entry string)) (method path : string) : option string :=
  match findHandler caps method path with Found e => Some (evalue e) | _ => None end.

(** [Handler.register]: every route, then the catch-all that answers an unknown path. *)
Inductive served : Type := Serves (r : Route) | NoRoute.

Definition register (routes : list Route) : list (entry served) :=
  ((λ r, MkEntry (Method r) (pattern_segs (Pattern r)) (Serves r)) <$> routes) ++ [MkEntry "" [Multi] NoRoute].

(** What the daemon runs for a request. *)
Definition dispatch (method path : string) : option Route :=
  match findHandler (register Routes) method path with
  | Found e => match evalue e with Serves r => Some r | NoRoute => None end
  | _ => None
  end.

(** What [newCapMux] answers on the table, as the front keeps it. *)
Definition caps : list (entry string) := match newCapMux Routes with Ok c => c | Err _ => [] end.

(** ** What a pattern can match *)

Fixpoint fits (p : list seg) (segs : list string) : bool :=
  match p, segs with
  | [], [] => true
  | Lit k :: p, s :: segs => String.eqb k s && fits p segs
  | Wild :: p, _ :: segs => fits p segs
  | [Multi], _ :: _ => true
  | _, _ => false
  end.

(** Two patterns no path fits both of. *)
Fixpoint apart (p q : list seg) : bool :=
  match p, q with
  | Lit a :: p, Lit b :: q => negb (String.eqb a b) || apart p q
  | Lit _ :: p, Wild :: q | Wild :: p, Lit _ :: q | Wild :: p, Wild :: q => apart p q
  | [], Lit _ :: _ | [], Wild :: _ | Lit _ :: _, [] | Wild :: _, [] => true
  | _, _ => false
  end.

Lemma apart_fits p q segs : apart p q = true → fits p segs = true → fits q segs = true → False.
Proof.
  revert q segs. induction p as [|[a| |] p IH]; intros [|[b| |] q] [|s segs]; simpl; try done; try (by apply IH).
  - rewrite !andb_true_iff, orb_true_iff, negb_true_iff, !String.eqb_eq. intros [H|H] [-> ?] [-> ?]; [|by eapply IH].
    by rewrite String.eqb_refl in H.
  - rewrite andb_true_iff. intros ? [_ ?] ?. by eapply IH.
  - rewrite andb_true_iff. intros ? ? [_ ?]. by eapply IH.
Qed.

Section Walk.
Context {A : Type}.
Implicit Types (n : node A) (e : entry A) (segs : list string).

Lemma child_fits step n p e s segs :
  (∀ q t, step q = Some t → fits t segs = true → fits q (s :: segs) = true) →
  (p, e) ∈ child step n → fits p segs = true → ∃ q, (q, e) ∈ n ∧ fits q (s :: segs) = true.
Proof.
  intros Hs. unfold child. rewrite list_elem_of_omap. intros ([q e'] & Hin & (t & Ht & [= -> ->])%fmap_Some) Hf. simpl in *.
  exists q. eauto.
Qed.

Lemma wild_child_fits n p e s segs :
  (p, e) ∈ wild_child n → fits p segs = true → ∃ q, (q, e) ∈ n ∧ fits q (s :: segs) = true.
Proof. apply child_fits. by intros [|[| |] q] t [= ->]. Qed.

Lemma literal_child_fits n p e s segs :
  (p, e) ∈ literal_child s n → fits p segs = true → ∃ q, (q, e) ∈ n ∧ fits q (s :: segs) = true.
Proof.
  unfold literal_child. destruct (String.eqb_spec s "") as [->|Hk]; [apply wild_child_fits|].
  apply child_fits. intros [|[a| |] q] t; simpl; try done. destruct (String.eqb a s); [|done]. by intros [= ->].
Qed.

Lemma multi_child_elem n e : multi_child n = Some e → ([Multi], e) ∈ n.
Proof.
  unfold multi_child. intros ([p e'] & H & ->)%fmap_Some. apply first_match_Some in H as (l1 & l2 & -> & Hp & _).
  destruct p as [|[| |] [|]]; try done. set_solver.
Qed.

(** What the walk answers is a pattern of the node that the path fits. *)
Lemma matchPath_fits segs n e : matchPath segs n = Some e → ∃ p, (p, e) ∈ n ∧ fits p segs = true.
Proof.
  revert n. induction segs as [|s segs IH]; intros n; simpl.
  - intros ([p e'] & H & ->)%fmap_Some. apply first_match_Some in H as (l1 & l2 & -> & Hp & _).
    destruct p; [|done]. exists []. set_solver.
  - destruct (matchPath segs (literal_child s n)) as [e1|] eqn:E1.
    + intros [= <-]. apply IH in E1 as (p & Hp & Hf). by eapply literal_child_fits.
    + destruct (String.eqb s "/"); [intros H; exists [Multi]; split; [by apply multi_child_elem|done]|].
      destruct (matchPath segs (wild_child n)) as [e2|] eqn:E2.
      * intros [= <-]. apply IH in E2 as (p & Hp & Hf). by eapply wild_child_fits.
      * intros H. exists [Multi]. split; [by apply multi_child_elem|done].
Qed.
End Walk.

Section Kept.
Context {A : Type} (P : entry A → bool).

Definition keep (n : node A) : node A := List.filter (λ x, P x.2) n.
Definition kept (e : option (entry A)) : option (entry A) := e ≫= λ e, if P e then Some e else None.

Definition separated (n : node A) : Prop := ∀ x y, x ∈ n → y ∈ n → P x.2 = true → P y.2 = false → apart x.1 y.1 = true.

Lemma child_keep step (n : node A) : child step (keep n) = keep (child step n).
Proof.
  unfold keep, child. induction n as [|[p e] n IH]; [done|]. simpl.
  destruct (P e) eqn:He; simpl; destruct (step p) as [t|]; simpl; rewrite ?He; [f_equal; exact IH|exact IH..].
Qed.

Lemma literal_child_keep s (n : node A) : literal_child s (keep n) = keep (literal_child s n).
Proof. unfold literal_child, wild_child. destruct (String.eqb s ""); apply child_keep. Qed.

Lemma child_separated step (n : node A) :
  (∀ p q p' q', step p = Some p' → step q = Some q' → apart p q = true → apart p' q' = true) →
  separated n → separated (child step n).
Proof.
  intros Hs Hn [p e] [q e'] Hx Hy HP HQ. unfold child in *. rewrite list_elem_of_omap in Hx, Hy.
  destruct Hx as ([p0 e0] & Hx & (t & Ht & [= -> ->])%fmap_Some), Hy as ([q0 e1] & Hy & (t' & Ht' & [= -> ->])%fmap_Some).
  eapply Hs; [done..|]. by apply (Hn (p0, e0) (q0, e1)).
Qed.

Lemma wild_separated (n : node A) : separated n → separated (wild_child n).
Proof. apply child_separated. intros [|[| |] p] [|[| |] q] p' q'; simpl; try done. by intros [= ->] [= ->]. Qed.

Lemma literal_separated s (n : node A) : separated n → separated (literal_child s n).
Proof.
  unfold literal_child. destruct (String.eqb s ""); [apply wild_separated|]. apply child_separated.
  intros [|[a| |] p] [|[b| |] q] p' q'; simpl; try done.
  destruct (String.eqb_spec a s) as [->|]; [|done]. destruct (String.eqb_spec b s) as [->|]; [|done].
  intros [= ->] [= ->]. by rewrite String.eqb_refl.
Qed.

Lemma first_match_keep (f : list seg → bool) (n : node A) :
  first_match (λ x, f x.1) n = None ∨ (∃ x, first_match (λ x, f x.1) n = Some x ∧ P x.2 = true) →
  first_match (λ x, f x.1) (keep n) = first_match (λ x, f x.1) n.
Proof.
  unfold keep. induction n as [|[p e] n IH]; [done|]. simpl. destruct (f p) eqn:Ef.
  - intros [|(x & [= <-] & Hx)]; [done|]. simpl in Hx. rewrite Hx. simpl. by rewrite Ef.
  - intros H. destruct (P e); simpl; rewrite ?Ef; by apply IH.
Qed.

Lemma keep_elem x (n : node A) : x ∈ keep n → x ∈ n ∧ P x.2 = true.
Proof. unfold keep. rewrite !list_elem_of_In, List.filter_In. done. Qed.

(** A path that a pattern set aside fits is fitted by none of the kept ones. *)
Lemma set_aside segs (n : node A) e :
  separated n → matchPath segs n = Some e → P e = false → matchPath segs (keep n) = None.
Proof.
  intros Hn E He. destruct (matchPath segs (keep n)) as [e'|] eqn:E'; [|done]. exfalso.
  apply matchPath_fits in E as (q & Hq & Hfq). apply matchPath_fits in E' as (p & [Hp HP]%keep_elem & Hfp).
  eapply apart_fits; [by apply (Hn (p, e') (q, e))|done..].
Qed.

(** Without the patterns that are set aside, the walk answers what it answered, where that is kept. *)
Lemma matchPath_kept segs (n : node A) : separated n → matchPath segs (keep n) = kept (matchPath segs n).
Proof.
  revert n. induction segs as [|s segs IH]; intros n Hn.
  - unfold kept. destruct (matchPath [] n) as [e|] eqn:E; cbn [mbind option_bind]; [destruct (P e) eqn:He; [|by eapply set_aside]|];
      simpl in E |- *; (rewrite (first_match_keep is_end); [done|]).
    + right. apply fmap_Some in E as (x & -> & ->). eauto.
    + left. by apply fmap_None in E.
  - assert (Hw := IH _ (wild_separated n Hn)). assert (Hl := IH _ (literal_separated s n Hn)).
    unfold kept. destruct (matchPath (s :: segs) n) as [e|] eqn:E; cbn [mbind option_bind]; [destruct (P e) eqn:He; [|by eapply set_aside]|];
      revert E; cbn [matchPath]; rewrite literal_child_keep, Hl; unfold wild_child in *; rewrite child_keep, Hw;
      (destruct (matchPath segs (literal_child s n)) as [e1|]; [intros [= ->]; unfold kept; simpl; by rewrite He|]);
      (destruct (if String.eqb s "/" then None else matchPath segs (child past_wild n)) as [e2|] eqn:E2;
        [intros [= ->]; destruct (String.eqb s "/"); try done; rewrite E2; unfold kept; simpl; by rewrite He|]);
      (assert ((if String.eqb s "/" then None else kept (matchPath segs (child past_wild n))) = None) as ->
        by (destruct (String.eqb s "/"); [done|]; by rewrite E2));
      unfold multi_child; intros E; simpl; (rewrite (first_match_keep is_rest); [done|]).
    + right. apply fmap_Some in E as (x & -> & ->). eauto.
    + left. by apply fmap_None in E.
Qed.
End Kept.

(** ** The front and the daemon agree *)

Definition is_public (e : entry served) : bool :=
  match evalue e with Serves r => String.eqb (RClass r) Public | NoRoute => false end.

Definition scope_of (s : served) : string := match s with Serves r => RScope r | NoRoute => "" end.

Lemma matchPath_map {A B} (f : A → B) segs (n : node A) :
  matchPath segs ((λ x, (x.1, map_entry f x.2)) <$> n) = map_entry f <$> matchPath segs n.
Proof.
  assert (∀ step (n : node A), child step ((λ x, (x.1, map_entry f x.2)) <$> n) = (λ x, (x.1, map_entry f x.2)) <$> child step n) as Hc.
  { intros step m. unfold child. induction m as [|[p e] m IH]; [done|]. simpl. destruct (step p); simpl; [f_equal|]; exact IH. }
  assert (∀ (g : list seg → bool) (n : node A), first_match (λ x, g x.1) ((λ x, (x.1, map_entry f x.2)) <$> n) =
    (λ x, (x.1, map_entry f x.2)) <$> first_match (λ x, g x.1) n) as Hm.
  { intros g m. induction m as [|[p e] m IH]; [done|]. simpl. by destruct (g p). }
  revert n. induction segs as [|s segs IH]; intros n; simpl; unfold multi_child, literal_child, wild_child.
  - rewrite (Hm is_end). by destruct (first_match _ n).
  - assert ((if String.eqb s "" then child past_wild ((λ x, (x.1, map_entry f x.2)) <$> n) else
      child (past_lit s) ((λ x, (x.1, map_entry f x.2)) <$> n)) = (λ x, (x.1, map_entry f x.2)) <$>
      (if String.eqb s "" then child past_wild n else child (past_lit s) n)) as -> by (destruct (String.eqb s ""); apply Hc).
    rewrite !Hc, !IH, (Hm is_rest).
    destruct (matchPath segs (if String.eqb s "" then _ else _)); [done|]. simpl.
    destruct (String.eqb s "/"); [by destruct (first_match _ n)|]. destruct (matchPath segs (child past_wild n)); [done|].
    simpl. by destruct (first_match _ n).
Qed.

Lemma caps_register : caps = map_entry scope_of <$> List.filter is_public (register Routes).
Proof. vm_compute. reflexivity. Qed.

(** No path fits a public pattern and a local one, whatever the methods; every public route names its method. *)
Lemma public_apart x y :
  x ∈ register Routes → y ∈ register Routes → is_public x = true → is_public y = false → emethod y ≠ "" →
  apart (esegs x) (esegs y) = true.
Proof.
  assert (forallb (λ x, forallb (λ y, negb (is_public x) || is_public y || String.eqb (emethod y) "" ||
    apart (esegs x) (esegs y)) (register Routes)) (register Routes) = true) as H by (vm_compute; reflexivity).
  rewrite !list_elem_of_In. intros Hx Hy Px Py Hm. rewrite forallb_forall in H. specialize (H x Hx). rewrite forallb_forall in H.
  specialize (H y Hy). apply String.eqb_neq in Hm. rewrite Px, Py, Hm in H. done.
Qed.

Lemma public_method x : x ∈ register Routes → is_public x = true → emethod x ≠ "".
Proof.
  assert (forallb (λ x, negb (is_public x) || negb (String.eqb (emethod x) "")) (register Routes) = true) as H by (vm_compute; reflexivity).
  rewrite list_elem_of_In. intros Hx Px. rewrite forallb_forall in H. specialize (H x Hx). rewrite Px in H. simpl in H.
  by apply String.eqb_neq, negb_true_iff.
Qed.

Lemma public_single e : e ∈ register Routes → is_public e = true → last (esegs e) ≠ Some Multi.
Proof.
  assert (forallb (λ x, negb (is_public x) || negb (bool_decide (last (esegs x) = Some Multi))) (register Routes) = true) as H
    by (vm_compute; reflexivity).
  rewrite list_elem_of_In. intros Hx Px. rewrite forallb_forall in H. specialize (H e Hx). rewrite Px in H. simpl in H.
  apply negb_true_iff in H. by apply bool_decide_eq_false in H.
Qed.

#[local] Opaque register caps.

Lemma method_child_elem {A} m (es : list (entry A)) p e : (p, e) ∈ method_child m es → e ∈ es ∧ p = esegs e ∧ emethod e = m.
Proof.
  unfold method_child. rewrite list_elem_of_omap. intros (x & Hx & H). destruct (String.eqb_spec (emethod x) m); [|done].
  by simplify_eq.
Qed.

Lemma method_child_map {A B} (P : entry A → bool) (f : A → B) m es :
  method_child m (map_entry f <$> List.filter P es) = (λ x, (x.1, map_entry f x.2)) <$> keep P (method_child m es).
Proof.
  unfold method_child, keep. induction es as [|e es IH]; [done|]. simpl.
  destruct (P e) eqn:Pe; simpl; destruct (String.eqb (emethod e) m); simpl; rewrite ?Pe; simpl; [f_equal|..]; exact IH.
Qed.

Lemma method_separated m : separated is_public (method_child m (register Routes)).
Proof.
  intros [p x] [q y] (Hx & -> & Mx)%method_child_elem (Hy & -> & My)%method_child_elem Px Py. simpl in *.
  apply public_apart; try done. rewrite My, <- Mx. by apply public_method.
Qed.

Lemma try_method m segs :
  matchPath segs (method_child m caps) = map_entry scope_of <$> kept is_public (matchPath segs (method_child m (register Routes))).
Proof. rewrite caps_register, method_child_map, matchPath_map. f_equal. apply matchPath_kept, method_separated. Qed.

Lemma found_in m segs e : matchPath segs (method_child m (register Routes)) = Some e →
  e ∈ register Routes ∧ emethod e = m ∧ fits (esegs e) segs = true.
Proof. by intros (p & (? & -> & ?)%method_child_elem & ?)%matchPath_fits. Qed.

(** The front's walk is the daemon's, with the local routes and the catch-all left out. *)
Lemma cap_match m segs :
  matchMethodAndPath m segs caps = map_entry scope_of <$> kept is_public (matchMethodAndPath m segs (register Routes)).
Proof.
  assert (kept is_public (matchPath segs (method_child "" (register Routes))) = None) as H3.
  { destruct (matchPath segs (method_child "" _)) as [e|] eqn:E; [|done]. apply found_in in E as (Hin & Hm & _).
    unfold kept. simpl. destruct (is_public e) eqn:P; [|done]. by apply public_method in P. }
  unfold matchMethodAndPath. rewrite !try_method, H3.
  destruct (matchPath segs (method_child m (register Routes))) as [e|] eqn:E1; cbn [kept mbind option_bind].
  - destruct (is_public e) eqn:P1; [done|]. simpl. destruct (String.eqb_spec m "HEAD") as [->|]; [|done].
    destruct (matchPath segs (method_child "GET" (register Routes))) as [e2|] eqn:E2; [|done]. simpl.
    destruct (is_public e2) eqn:P2; [|done]. apply found_in in E1 as (Hin & Hm & Hf), E2 as (Hin2 & _ & Hf2).
    exfalso. eapply apart_fits; [apply (public_apart e2 e); try done; by rewrite Hm|done..].
  - cbn [fmap option_fmap option_map]. destruct (String.eqb m "HEAD"); [|by rewrite H3].
    destruct (matchPath segs (method_child "GET" (register Routes))) as [e2|] eqn:E2; [|simpl; by rewrite H3].
    simpl. by destruct (is_public e2).
Qed.

Lemma match_in m segs e : matchMethodAndPath m segs (register Routes) = Some e → e ∈ register Routes.
Proof.
  unfold matchMethodAndPath. repeat case_match; intros; simplify_eq;
    match goal with H : matchPath _ _ = Some ?e |- ?e ∈ _ => by apply found_in in H as [? _] end.
Qed.

Lemma exactMatch_public m segs path e :
  matchMethodAndPath m segs (register Routes) = Some e → is_public e = true → exactMatch (Some e) path = true.
Proof.
  intros E P. simpl. pose proof (public_single e (match_in _ _ _ E) P) as H. by rewrite bool_decide_eq_false_2.
Qed.

(** What the front reads off the answer of the daemon's mux. *)
Definition public_scope (a : answer served) : option string :=
  match a with Found e => if is_public e then Some (scope_of (evalue e)) else None | _ => None end.

Lemma redirect_agrees m path :
  match matchOrRedirect caps m path with Found e => Some (evalue e) | _ => None end =
  public_scope (matchOrRedirect (register Routes) m path).
Proof.
  unfold matchOrRedirect. rewrite !cap_match.
  destruct (matchMethodAndPath m (path_segments path) (register Routes)) as [e|] eqn:E; cbn [kept mbind option_bind fmap option_fmap option_map].
  - destruct (is_public e) eqn:P; simpl.
    + pose proof (exactMatch_public _ _ path e E P) as H. simpl in H. rewrite H. simpl. by rewrite P.
    + repeat case_match; simpl; try done; by rewrite P.
  - simpl. by repeat case_match.
Qed.

(** C16: The TCP front and the daemon read every request alike. The scope the front asks a token for is the one of the public
    route the daemon then runs; a request the daemon answers with a local route, a redirect or its catch-all has no scope
    at the front, so no token of any kind carries it over the network. *)
Theorem scope_agrees method path :
  scope caps method path =
  match dispatch method path with
  | Some r => if String.eqb (RClass r) Public then Some (RScope r) else None
  | None => None
  end.
Proof.
  unfold scope, dispatch, findHandler.
  assert (∀ p, match matchOrRedirect caps method p with Found e => Some (evalue e) | _ => None end =
    match (match matchOrRedirect (register Routes) method p with
           | Found e => match evalue e with Serves r => Some r | NoRoute => None end | _ => None end) with
    | Some r => if String.eqb (RClass r) Public then Some (RScope r) else None | None => None end) as H.
  { intros p. rewrite redirect_agrees. unfold public_scope, is_public. destruct (matchOrRedirect (register Routes) method p) as [e| |]; [|done..].
    by destruct (evalue e). }
  destruct (String.eqb method "CONNECT"); [apply H|]. specialize (H (cleanPath path)).
  destruct (matchOrRedirect caps method (cleanPath path)), (matchOrRedirect (register Routes) method (cleanPath path));
    destruct (String.eqb (cleanPath path) path); done.
Qed.
