(* ===== verification/Headers.v ===== *)
(** * Request heads

    The head of an HTTP request as the TCP front reads and rewrites it ([services/serve/serve.go]), and as [net/http] in the
    daemon then reads it: lines up to the blank one, folded and cut at the first colon the way [net/textproto] does. *)

From S2P Require Import Prelude GoStrings Http.
Local Open Scope Z_scope.

Definition CR : ascii := ascii_of_nat 13.
Definition LF : ascii := ascii_of_nat 10.
Definition crlf : string := String CR (String LF "").
Definition blank_line : string := crlf +:+ crlf.

(** ** What [net/textproto] reads *)

(** A line up to its line feed, and what follows. *)
Fixpoint read_line (s : string) : option (string * string) :=
  match s with
  | EmptyString => None
  | String c s =>
      if Ascii.eqb c LF then Some ("", s)
      else match read_line s with Some (l, r) => Some (String c l, r) | None => None end
  end.

(** [bufio.Reader.ReadLine] drops one carriage return before the line feed. *)
Definition drop_cr (l : string) : string := TrimSuffix l (String CR "").

(** The lines up to the blank one, and what follows it. *)
Fixpoint read_lines (fuel : nat) (s : string) : option (list string * string) :=
  match fuel with
  | O => None
  | S fuel =>
      match read_line s with
      | None => None
      | Some (l, r) =>
          if String.eqb (drop_cr l) "" then Some ([], r)
          else match read_lines fuel r with Some (ls, r') => Some (drop_cr l :: ls, r') | None => None end
      end
  end.

Definition is_blank (c : ascii) : bool := (code c =? 32) || (code c =? 9).

Fixpoint trim_left_blank (s : string) : string :=
  match s with
  | EmptyString => EmptyString
  | String c s' => if is_blank c then trim_left_blank s' else s
  end.

Fixpoint trim_right_blank (s : string) : string :=
  match s with
  | EmptyString => EmptyString
  | String c s' => if all_chars is_blank s then EmptyString else String c (trim_right_blank s')
  end.

(** [textproto.trim]: spaces and tabs off both ends. *)
Definition trim (s : string) : string := trim_right_blank (trim_left_blank s).

Definition starts_blank (l : string) : bool := match l with String c _ => is_blank c | EmptyString => false end.

(** [validHeaderValueByte]: a tab, and anything that is no control byte. *)
Definition value_char (c : ascii) : bool := (code c =? 9) || ((32 <=? code c) && negb (code c =? 127)).

(** [canonicalMIMEHeaderKey]: a key with a space is kept as it is, and one with another byte no key holds is refused. *)
Definition canonicalMIMEHeaderKey (k : string) : option string :=
  if String.eqb k "" then None
  else if all_chars token_char k then Some (canonical_go true k)
  else if all_chars (λ c, token_char c || (code c =? 32)) k then Some k
  else None.

Fixpoint Header_Add (h : Header) (key value : string) : Header :=
  match h with
  | [] => [(key, [value])]
  | (k, vs) :: h => if String.eqb k key then (k, vs ++ [value]) :: h else (k, vs) :: Header_Add h key value
  end.

(** One field, cut at its first colon. *)
Definition add_field (kv : string) (h : Header) : option Header :=
  match Cut kv ":" with
  | (k, v, true) =>
      key ← canonicalMIMEHeaderKey k;
      if all_chars value_char v then Some (Header_Add h key (trim_left_blank v)) else None
  | _ => None
  end.

Definition flush_field (cur : option string) (h : Header) : option Header :=
  match cur with None => Some h | Some kv => add_field kv h end.

(** [ReadMIMEHeader] on the lines before the blank one: a line that starts with a blank goes on the field before it, and
    the name of a field stands on its first line. *)
Fixpoint mime_go (cur : option string) (lines : list string) (h : Header) : option Header :=
  match lines with
  | [] => flush_field cur h
  | l :: ls =>
      if starts_blank l then
        match cur with None => None | Some kv => mime_go (Some (kv +:+ " " +:+ trim l)) ls h end
      else
        h' ← flush_field cur h;
        if contains_char ":" l then mime_go (Some (trim l)) ls h' else None
  end.

Definition ReadMIMEHeader (lines : list string) : option Header := mime_go None lines [].

(** What [net/http] makes of a stream: the request line, the header, and where the body starts. *)
Definition read_request (s : string) : option (string * Header * string) :=
  match read_line s with
  | None => None
  | Some (first, r) =>
      match read_lines (S (String.length r)) r with
      | None => None
      | Some (lines, rest) => h ← ReadMIMEHeader lines; Some (drop_cr first, h, rest)
      end
  end.

(** ** What the front does with a head *)

(** [headerFields]. *)
Definition headerFields (head : string) : option Header := (λ x, x.1.2) <$> read_request head.

Definition headBytes : Z := 64 * 1024.

Inductive head_error : Type := EBareLF | EHeadLong | EHeadRead.

(** [readHead]: a byte at a time, so that what follows the blank line stays unread. *)
Fixpoint readHead_go (head input : string) : result head_error (string * string) :=
  match input with
  | EmptyString => Err EHeadRead
  | String c input =>
      if Ascii.eqb c LF && negb (HasSuffix head (String CR "")) then Err EBareLF
      else
        let head := head +:+ String c "" in
        if HasSuffix head blank_line then Ok (head, input)
        else if headBytes <=? Z.of_nat (String.length head) then Err EHeadLong
        else readHead_go head input
  end.

Definition readHead (input : string) : result head_error (string * string) := readHead_go "" input.

(** [bytes.Split] at a CRLF. *)
Fixpoint split_crlf (s : string) : list string :=
  match s with
  | EmptyString => [""]
  | String c s' =>
      match s' with
      | String d s'' =>
          if Ascii.eqb c CR && Ascii.eqb d LF then "" :: split_crlf s''
          else match split_crlf s' with w :: ws => String c w :: ws | [] => [String c ""] end
      | EmptyString => [String c ""]
      end
  end.

(** The case folding of a text that is compared with an ASCII one: beside the letters, the long s and the Kelvin sign
    fold to letters of ASCII. *)
Fixpoint fold_text (s : string) : string :=
  match s with
  | EmptyString => EmptyString
  | String a s1 =>
      match s1 with
      | String b s2 =>
          if (code a =? 197) && (code b =? 191) then String "s" (fold_text s2)
          else
            match s2 with
            | String c s3 =>
                if (code a =? 226) && (code b =? 132) && (code c =? 170) then String "k" (fold_text s3)
                else String (lower_char a) (fold_text s1)
            | EmptyString => String (lower_char a) (fold_text s1)
            end
      | EmptyString => String (lower_char a) EmptyString
      end
  end.

(** [strings.EqualFold] of any text with an ASCII one. *)
Definition EqualFoldASCII (s t : string) : bool := String.eqb (fold_text s) (map_chars lower_char t).

(** [hasHeaderName]. *)
Definition hasHeaderName (line field : string) : bool :=
  match Cut line ":" with
  | (name, _, true) => EqualFoldASCII (TrimSpace name) field
  | _ => false
  end.

(** The body of [stampScopes] and [setConnectionClose]: every line of the field is dropped, and one of the front's own is
    put last. The request line carries no header name. *)
Definition replaceHeader (field value head : string) : string :=
  match split_crlf (TrimSuffix head blank_line) with
  | [] => head
  | first :: lines =>
      Join crlf ((first :: filter (λ l, hasHeaderName l field = false) lines) ++ [field +:+ ": " +:+ value]) +:+ blank_line
  end.

Definition ScopesHeader : string := "X-Shard-Scopes".

Definition stampScopes (head : string) (scopes : list string) : string := replaceHeader ScopesHeader (Join "," scopes) head.
Definition setConnectionClose (head : string) : string := replaceHeader "Connection" "close" head.

(** [hasToken]. *)
Definition hasToken (header token : string) : bool := existsb (λ part, EqualFoldASCII (TrimSpace part) token) (Split "," header).

(** [isHandshake] of a header, which the front and the daemon both ask. *)
Definition handshake (h : Header) : bool :=
  hasToken (Header_Get h "Connection") "upgrade" && hasToken (Header_Get h "Upgrade") "websocket" &&
  String.eqb (Header_Get h "Sec-WebSocket-Version") "13" && negb (String.eqb (Header_Get h "Sec-WebSocket-Key") "").

Definition isHandshake (head : string) : bool := match headerFields head with Some h => handshake h | None => false end.

(** What [proxy] replays onto the daemon socket. *)
Definition replayed (head : string) : string := if isHandshake head then head else setConnectionClose head.

(** ** The scopes the daemon reads *)

(** [stampedScopes]: no such header is the local socket. *)
Definition stampedScopes (h : Header) : option (list string) :=
  match first_match (λ kv, String.eqb kv.1 (CanonicalHeaderKey ScopesHeader)) h with
  | None => None
  | Some kv => Some (filter (λ s, s ≠ "") (concat ((λ v, TrimSpace <$> Split "," v) <$> kv.2)))
  end.

(** ** Theorems: lines *)

Definition no_lf (l : string) : bool := negb (contains_char LF l).

(** Lines, each ended by a CRLF, before a text. *)
Fixpoint lines_text (ls : list string) (t : string) : string :=
  match ls with [] => t | l :: ls => l +:+ crlf +:+ lines_text ls t end.

Lemma no_lf_app s t : no_lf (s +:+ t) = no_lf s && no_lf t.
Proof. unfold no_lf. rewrite contains_char_app. apply negb_orb. Qed.

Lemma no_lf_cons c s : no_lf (String c s) = negb (Ascii.eqb LF c) && no_lf s.
Proof. unfold no_lf. rewrite contains_char_cons. apply negb_orb. Qed.

Lemma crlf_app t : crlf +:+ t = String CR (String LF t).
Proof. done. Qed.

Lemma lines_text_app ls ls' t : lines_text (ls ++ ls') t = lines_text ls (lines_text ls' t).
Proof. induction ls as [|l ls IH]; [done|]. simpl. by rewrite IH. Qed.

Lemma lines_text_end ls t u : lines_text ls t +:+ u = lines_text ls (t +:+ u).
Proof. induction ls as [|l ls IH]; [done|]. simpl. by rewrite <- !app_assoc_s, IH. Qed.

Lemma join_text first ls t : Join crlf (first :: ls) +:+ crlf +:+ t = lines_text (first :: ls) t.
Proof.
  revert first. induction ls as [|l ls IH]; intros first; [done|]. rewrite Join_cons, <- !app_assoc_s, IH. done.
Qed.

Lemma read_line_at l r : no_lf l = true → read_line (l +:+ crlf +:+ r) = Some (l +:+ String CR "", r).
Proof.
  induction l as [|c l IH]; [done|]. rewrite no_lf_cons, andb_true_iff, negb_true_iff. intros [Hc Hl].
  rewrite !app_cons. cbn [read_line]. rewrite Ascii.eqb_sym, Hc, IH by done. done.
Qed.

Lemma drop_cr_app l : drop_cr (l +:+ String CR "") = l.
Proof. apply TrimSuffix_app. Qed.

Lemma read_lines_text ls rest fuel :
  (length ls < fuel)%nat → Forall (λ l, no_lf l = true ∧ l ≠ "") ls →
  read_lines fuel (lines_text ls (crlf +:+ rest)) = Some (ls, rest).
Proof.
  revert fuel. induction ls as [|l ls IH]; intros [|fuel] Hf Hls; cbn [lines_text length] in *; try lia.
  - pose proof (read_line_at "" rest eq_refl) as E. rewrite !app_nil_l in E. cbn [read_lines]. by rewrite E.
  - inversion Hls as [|? ? [Hl Hne] Hls']; subst. cbn [read_lines]. rewrite read_line_at, drop_cr_app by done.
    apply String.eqb_neq in Hne. rewrite Hne, IH by (done || lia). done.
Qed.

Lemma lines_text_length ls t : (length ls ≤ String.length (lines_text ls t))%nat.
Proof. induction ls as [|l ls IH]; simpl; [lia|]. rewrite !length_app_s. simpl. lia. Qed.

(** A head of whole lines is read back line by line, up to its blank line and no further. *)
Lemma read_request_text first ls rest :
  no_lf first = true → Forall (λ l, no_lf l = true ∧ l ≠ "") ls →
  read_request (lines_text (first :: ls) (crlf +:+ rest)) = h ← ReadMIMEHeader ls; Some (first, h, rest).
Proof.
  intros Hf Hls. unfold read_request. cbn [lines_text]. rewrite read_line_at by done.
  rewrite read_lines_text; [by rewrite drop_cr_app| |done].
  pose proof (lines_text_length ls (crlf +:+ rest)). lia.
Qed.

Lemma split_crlf_one l : no_lf l = true → split_crlf l = [l].
Proof.
  induction l as [|c l IH]; [done|]. rewrite no_lf_cons, andb_true_iff. intros [_ Hl]. specialize (IH Hl).
  destruct l as [|d l]; [done|]. rewrite no_lf_cons, andb_true_iff, negb_true_iff in Hl. destruct Hl as [Hd Hl].
  cbn [split_crlf] in *. rewrite (Ascii.eqb_sym d LF), Hd, andb_false_r. by rewrite IH.
Qed.

Lemma split_crlf_at l t : no_lf l = true → split_crlf (l +:+ crlf +:+ t) = l :: split_crlf t.
Proof.
  induction l as [|c l IH]; [done|]. rewrite no_lf_cons, andb_true_iff. intros [_ Hl]. specialize (IH Hl). rewrite app_cons.
  destruct l as [|d l].
  - rewrite app_nil_l, crlf_app in *. cbn [split_crlf] in *.
    assert (Ascii.eqb CR LF = false) as -> by done. rewrite andb_false_r. by rewrite IH.
  - rewrite no_lf_cons, andb_true_iff, negb_true_iff in Hl. destruct Hl as [Hd Hl]. rewrite app_cons in *.
    cbn [split_crlf] in *. rewrite (Ascii.eqb_sym d LF), Hd, andb_false_r. by rewrite IH.
Qed.

Lemma split_crlf_Join first ls : Forall (λ l, no_lf l = true) (first :: ls) → split_crlf (Join crlf (first :: ls)) = first :: ls.
Proof.
  revert first. induction ls as [|l ls IH]; intros first; rewrite !Forall_cons.
  - intros [? _]. by apply split_crlf_one.
  - intros [? ?]. rewrite Join_cons, split_crlf_at by done. by rewrite IH by (by apply Forall_cons).
Qed.

(** ** The head the front reads *)

(** A head whose lines hold no line feed, with none empty after the first. *)
Definition whole (first : string) (ls : list string) : Prop :=
  no_lf first = true ∧ Forall (λ l, no_lf l = true ∧ l ≠ "") ls.

Lemma suffix_char s c t : HasSuffix (s +:+ String c "") (t +:+ String c "") = HasSuffix s t.
Proof.
  apply eq_true_iff_eq. rewrite !HasSuffix_spec. split; intros [p H]; exists p.
  - rewrite app_assoc_s in H. by apply app_inj_r in H.
  - by rewrite H, app_assoc_s.
Qed.

Lemma snoc_inj s t c d : s +:+ String c "" = t +:+ String d "" → s = t ∧ c = d.
Proof.
  revert t. induction s as [|a s IH]; intros [|b t]; rewrite ?app_nil_l, ?app_cons.
  - by intros [= ->].
  - intros [= -> H]. by destruct t.
  - intros [= -> H]. by destruct s.
  - intros [= -> H]. by destruct (IH _ H) as [-> ->].
Qed.

Lemma suffix_other s c t d : c ≠ d → HasSuffix (s +:+ String c "") (t +:+ String d "") = false.
Proof.
  intros Hn. apply not_true_iff_false. rewrite HasSuffix_spec. intros [p H]. rewrite app_assoc_s in H.
  by apply snoc_inj in H as [_ H].
Qed.

(** What [readHead] has read so far: whole lines, and the start of one. *)
Definition reading (head : string) : Prop :=
  ∃ done cur, head = lines_text done cur ∧ no_lf cur = true ∧
    match done with [] => True | first :: ls => whole first ls end.

Lemma no_lf_suffix s : no_lf (s +:+ String LF "") = false.
Proof. rewrite no_lf_app. by rewrite andb_false_r. Qed.

Lemma lines_text_snoc done l : lines_text (done ++ [l]) "" = lines_text done (l +:+ String CR "") +:+ String LF "".
Proof. rewrite lines_text_app, lines_text_end. simpl. by rewrite <- !app_assoc_s. Qed.

Lemma snoc_view s : s = "" ∨ ∃ t c, s = t +:+ String c "".
Proof.
  induction s as [|a s [->|(t & c & ->)]]; [by left|right..]; [by exists "", a|]. exists (String a t), c. by rewrite app_cons.
Qed.

Lemma suffix_last s c d : HasSuffix (s +:+ String c "") (String d "") = true → c = d.
Proof. rewrite HasSuffix_spec. intros [p H]. by apply snoc_inj in H as [_ ->]. Qed.

(** The current line holds the last byte, unless a line has just ended. *)
Lemma reading_cr done cur :
  HasSuffix (lines_text done cur) (String CR "") = true → ∃ l, cur = l +:+ String CR "".
Proof.
  destruct (snoc_view cur) as [->|(t & c & ->)].
  - destruct done as [|l done _] using rev_ind; [done|]. rewrite lines_text_snoc. by intros H%suffix_last.
  - rewrite <- lines_text_end. intros ->%suffix_last. by exists t.
Qed.

Lemma reading_step head c :
  reading head → (c = LF → HasSuffix head (String CR "") = true) → HasSuffix (head +:+ String c "") blank_line = false →
  reading (head +:+ String c "").
Proof.
  intros (done & cur & -> & Hcur & Hd) Hc Hno. destruct (decide (c = LF)) as [->|Hn].
  - destruct (reading_cr done cur (Hc eq_refl)) as [l ->]. exists (done ++ [l]), "". rewrite lines_text_snoc. split_and!; [done|done|].
    rewrite no_lf_app, andb_true_iff in Hcur. destruct Hcur as [Hl _]. destruct done as [|first ls]; simpl.
    + by split.
    + destruct Hd as [? ?]. split; [done|]. apply Forall_app. split; [done|]. constructor; [|constructor]. split; [done|]. intros ->.
      apply not_true_iff_false in Hno. apply Hno. rewrite HasSuffix_spec.
      destruct (@exists_last _ (first :: ls)) as (pre & l & E); [done|]. rewrite E.
      exists (lines_text pre l). rewrite !lines_text_end, lines_text_app. done.
  - exists done, (cur +:+ String c ""). rewrite lines_text_end. split_and!; [done| |done].
    rewrite no_lf_app, Hcur. unfold no_lf. rewrite contains_char_cons. destruct (Ascii.eqb_spec LF c); [by subst|done].
Qed.

Lemma reading_blank head c :
  reading head → (c = LF → HasSuffix head (String CR "") = true) → HasSuffix (head +:+ String c "") blank_line = true →
  ∃ first ls, whole first ls ∧ head +:+ String c "" = lines_text (first :: ls) crlf.
Proof.
  intros (done & cur & -> & Hcur & Hd) Hc Hb.
  assert (blank_line = (crlf +:+ String CR "") +:+ String LF "") as Eb by done.
  destruct (decide (c = LF)) as [->|Hn]; [|rewrite Eb, suffix_other in Hb by done; done].
  rewrite Eb, suffix_char in Hb. destruct (reading_cr done cur (Hc eq_refl)) as [l ->].
  rewrite <- lines_text_end, suffix_char in Hb. destruct (snoc_view l) as [->|(t & d & ->)].
  - destruct done as [|first ls]; [done|]. exists first, ls. split; [done|]. by rewrite lines_text_end.
  - rewrite <- lines_text_end in Hb. assert (crlf = String CR "" +:+ String LF "") as Ec by done.
    rewrite !no_lf_app, !andb_true_iff in Hcur. destruct Hcur as [[_ Hd'] _].
    destruct (decide (d = LF)) as [->|]; [done|]. rewrite Ec, suffix_other in Hb by done. done.
Qed.

Lemma readHead_go_spec input : ∀ head h rest,
  reading head → Z.of_nat (String.length head) < headBytes → readHead_go head input = Ok (h, rest) →
  head +:+ input = h +:+ rest ∧ Z.of_nat (String.length h) ≤ headBytes ∧ ∃ first ls, whole first ls ∧ h = lines_text (first :: ls) crlf.
Proof.
  induction input as [|c input IH]; intros head h rest Hr Hlen; cbn [readHead_go]; [done|].
  destruct (Ascii.eqb c LF && negb (HasSuffix head (String CR ""))) eqn:Ec; [done|].
  assert (c = LF → HasSuffix head (String CR "") = true) as Hc.
  { intros ->. by rewrite Ascii.eqb_refl, andb_true_l, negb_false_iff in Ec. }
  destruct (HasSuffix (head +:+ String c "") blank_line) eqn:Eb.
  - intros [= <- <-]. rewrite <- app_assoc_s, length_app_s. split_and!; [done|simpl; lia|by apply reading_blank].
  - destruct (Z.leb_spec headBytes (Z.of_nat (String.length (head +:+ String c "")))); [done|]. intros E.
    apply IH in E as (E & ? & ?); [|by apply reading_step|done]. by rewrite <- app_assoc_s in E.
Qed.

(** The front reads whole lines up to the first blank one, within its bound, and leaves the rest on the connection. *)
Lemma readHead_spec input h rest : readHead input = Ok (h, rest) →
  input = h +:+ rest ∧ Z.of_nat (String.length h) ≤ headBytes ∧ ∃ first ls, whole first ls ∧ h = lines_text (first :: ls) crlf.
Proof. intros E. apply (readHead_go_spec input "" h rest); [|done|done]. by exists [], "". Qed.

Lemma Join_blank first ls : lines_text (first :: ls) crlf = Join crlf (first :: ls) +:+ blank_line.
Proof. by rewrite <- join_text. Qed.

Lemma replaceHeader_text field value first ls :
  whole first ls →
  replaceHeader field value (lines_text (first :: ls) crlf) =
  lines_text (first :: filter (λ l, hasHeaderName l field = false) ls ++ [field +:+ ": " +:+ value]) crlf.
Proof.
  intros [Hf Hls]. unfold replaceHeader. rewrite Join_blank, TrimSuffix_app, split_crlf_Join.
  - by rewrite <- app_comm_cons, Join_blank.
  - constructor; [done|]. eapply Forall_impl; [exact Hls|]. by intros l [? _].
Qed.

Lemma whole_filter first ls (P : string → Prop) `{∀ l, Decision (P l)} last :
  whole first ls → no_lf last = true → last ≠ "" → whole first (filter P ls ++ [last]).
Proof.
  intros [? Hls] ? ?. split; [done|]. apply Forall_app. split; [|by repeat constructor].
  rewrite Forall_forall in *. intros l [_ Hl]%list_elem_of_filter. auto.
Qed.

(** ** Names and values of fields *)

Lemma Cut_inv c s : ∀ a b, Cut s (String c "") = (a, b, true) → s = a +:+ String c b ∧ contains_char c a = false.
Proof.
  induction s as [|d s IH]; intros a b; [done|]. cbn [Cut String.prefix]. destruct (ascii_dec c d) as [->|Hn].
  - destruct s; intros [= <- <-]; done.
  - destruct (Cut s (String c "")) as [[before after] []] eqn:E; [|done]. intros [= <- <-].
    destruct (IH _ _ eq_refl) as [-> H]. rewrite app_cons, contains_char_cons, H. apply Ascii.eqb_neq in Hn. by rewrite Hn.
Qed.

Lemma Cut_found c s : contains_char c s = true → ∃ a b, Cut s (String c "") = (a, b, true).
Proof.
  intros H. destruct (Cut s (String c "")) as [[a b] []] eqn:E; [by eexists _, _|]. exfalso. revert a b E.
  induction s as [|d s IH]; intros a b; [done|]. cbn [Cut String.prefix]. destruct (ascii_dec c d) as [->|Hn]; [by destruct s|].
  rewrite contains_char_cons in H. apply Ascii.eqb_neq in Hn. rewrite Hn in H. specialize (IH H).
  destruct (Cut s (String c "")) as [[x y] []]; [done|]. by specialize (IH _ _ eq_refl).
Qed.

Lemma trim_right_kept s c t : is_blank c = false → trim_right_blank (s +:+ String c t) = s +:+ String c (trim_right_blank t).
Proof.
  intros Hc. assert (∀ u, all_chars is_blank (u +:+ String c t) = false) as Hb.
  { intros u. rewrite all_chars_app. simpl. by rewrite Hc, andb_false_r. }
  induction s as [|d s IH].
  - rewrite !app_nil_l. cbn [trim_right_blank]. specialize (Hb ""). rewrite app_nil_l in Hb. by rewrite Hb.
  - rewrite !app_cons. cbn [trim_right_blank]. rewrite <- app_cons, Hb. by rewrite IH.
Qed.

(** The name a field is filed under is the one its first line shows before the colon. *)
Lemma cut_key l t : starts_blank l = false → contains_char ":" l = true →
  ∃ k v v', Cut l ":" = (k, v, true) ∧ Cut (trim l +:+ t) ":" = (k, v', true).
Proof.
  intros Hb Hc. destruct (Cut_found _ _ Hc) as (k & v & E). destruct (Cut_inv _ _ _ _ E) as [-> Hk].
  exists k, v. unfold trim. assert (trim_left_blank (k +:+ String ":" v) = k +:+ String ":" v) as ->.
  { destruct k as [|c k]; [done|]. rewrite app_cons in *. cbn [starts_blank trim_left_blank] in *. by rewrite Hb. }
  rewrite trim_right_kept by done. rewrite <- app_assoc_s, app_cons. eexists. split; [exact E|by apply Cut_at].
Qed.

(** *** Letters *)

Lemma lower_upper c : lower_char (upper_char c) = lower_char c.
Proof. by destruct c as [[] [] [] [] [] [] [] []]. Qed.

Lemma lower_lower c : lower_char (lower_char c) = lower_char c.
Proof. by destruct c as [[] [] [] [] [] [] [] []]. Qed.

Lemma canonical_lower up s : map_chars lower_char (canonical_go up s) = map_chars lower_char s.
Proof. revert up. induction s as [|c s IH]; intros up; [done|]. simpl. rewrite IH. destruct up; [by rewrite lower_upper|by rewrite lower_lower]. Qed.

Lemma token_plain c : token_char c = true → plain_char c = true ∧ is_ascii c = true ∧ is_blank c = false.
Proof. by destruct c as [[] [] [] [] [] [] [] []]. Qed.

Lemma fold_ascii s : all_chars is_ascii s = true → fold_text s = map_chars lower_char s.
Proof.
  assert (∀ a, is_ascii a = true → (code a =? 197) = false ∧ (code a =? 226) = false) as Ha.
  { intros a H. unfold is_ascii in H. apply Z.ltb_lt in H. split; apply Z.eqb_neq; lia. }
  induction s as [|a s IH]; [done|]. cbn [all_chars]. rewrite andb_true_iff. intros [[H1 H2]%Ha Hs]. specialize (IH Hs).
  cbn [fold_text map_chars]. destruct s as [|b s]; [done|]. rewrite H1, H2. cbn [andb]. rewrite IH. by destruct s.
Qed.

Lemma TrimSpace_plain s : all_chars plain_char s = true → TrimSpace s = s.
Proof.
  intros H. unfold TrimSpace.
  assert (trim_left 0 s = s) as ->.
  { destruct s as [|c s]; [done|]. simpl in H. apply andb_true_iff in H as [Hc _]. cbn [trim_left]. by rewrite plain_space_len. }
  induction s as [|c s IH]; [done|]. simpl in H. apply andb_true_iff in H as [Hc Hs]. cbn [trim_right space_only].
  rewrite plain_space_len by done. by rewrite IH.
Qed.

(** A line whose field is filed under an own name of the front's is one the front drops. *)
Lemma filed_named l k v F :
  all_chars token_char F = true → Cut l ":" = (k, v, true) → canonicalMIMEHeaderKey k = Some F → hasHeaderName l F = true.
Proof.
  intros HF E Hk. unfold hasHeaderName. rewrite E. unfold canonicalMIMEHeaderKey in Hk. case_match; [done|].
  destruct (all_chars token_char k) eqn:Et.
  - simplify_eq. unfold EqualFoldASCII. rewrite TrimSpace_plain, fold_ascii by (eapply all_chars_impl; [|exact Et]; intros c; by apply token_plain).
    rewrite canonical_lower. apply String.eqb_refl.
  - case_match; [|done]. simplify_eq. by rewrite HF in Et.
Qed.

(** ** What is filed under a name *)

Definition filed (h : Header) (F : string) : list string :=
  match first_match (λ kv, String.eqb kv.1 F) h with Some kv => kv.2 | None => [] end.

Lemma filed_add h F key v : filed (Header_Add h key v) F = filed h F ++ (if String.eqb key F then [v] else []).
Proof.
  unfold filed. induction h as [|[k vs] h IH]; simpl.
  - by destruct (String.eqb key F).
  - destruct (String.eqb_spec k key) as [->|Hn]; simpl.
    + destruct (String.eqb key F); [done|]. by rewrite (right_id_L [] (++)).
    + destruct (String.eqb_spec k F) as [->|]; [|exact IH]. simpl. apply not_eq_sym, String.eqb_neq in Hn. rewrite Hn.
      by rewrite (right_id_L [] (++)).
Qed.

Section Filed.
Context (F : string) (HF : all_chars token_char F = true) (HF' : canonical_go true F = F) (HFne : F ≠ "").

(** The field under way is not filed under [F]. *)
Definition other (cur : option string) : Prop :=
  match cur with
  | None => True
  | Some kv => ∃ k v, Cut kv ":" = (k, v, true) ∧ canonicalMIMEHeaderKey k ≠ Some F
  end.

Lemma other_flush cur h h' : other cur → flush_field cur h = Some h' → filed h' F = filed h F.
Proof.
  destruct cur as [kv|]; simpl; [|congruence]. intros (k & v & E & Hk) H. unfold add_field in H. rewrite E in H.
  destruct (canonicalMIMEHeaderKey k) as [key|]; [|done]. simpl in H. destruct (all_chars value_char v); [|done]. simplify_eq.
  rewrite filed_add. destruct (String.eqb_spec key F) as [->|]; [done|]. apply (right_id_L [] (++)).
Qed.

Lemma other_more kv t : other (Some kv) → other (Some (kv +:+ t)).
Proof.
  intros (k & v & E & Hk). apply Cut_inv in E as [-> Hc]. exists k, (v +:+ t). split; [|done].
  rewrite <- app_assoc_s, app_cons. by apply Cut_at.
Qed.

Lemma other_line l : starts_blank l = false → contains_char ":" l = true → hasHeaderName l F = false → other (Some (trim l)).
Proof.
  intros Hb Hc Hn. destruct (cut_key l "" Hb Hc) as (k & v & v' & E & E'). rewrite app_nil_r in E'. exists k, v'. split; [done|].
  intros Hk. by rewrite (filed_named l k v F HF E Hk) in Hn.
Qed.

Lemma mime_other ls : ∀ cur h h',
  other cur → Forall (λ l, hasHeaderName l F = false) ls → mime_go cur ls h = Some h' → filed h' F = filed h F.
Proof.
  induction ls as [|l ls IH]; intros cur h h' Hc Hls; [by apply other_flush|].
  apply Forall_cons in Hls as [Hl Hls]. cbn [mime_go]. destruct (starts_blank l) eqn:Eb.
  - destruct cur as [kv|]; [|done]. apply IH; [by apply other_more|done].
  - destruct (flush_field cur h) as [h1|] eqn:E1; [|done]. simpl. destruct (contains_char ":" l) eqn:El; [|done].
    intros E. apply IH in E; [|by apply other_line|done]. rewrite E. by eapply other_flush.
Qed.

(** A line that starts no continuation ends the field before it. *)
Lemma mime_split l ls2 : starts_blank l = false → ∀ ls1 cur h,
  mime_go cur (ls1 ++ l :: ls2) h = mime_go cur ls1 h ≫= mime_go None (l :: ls2).
Proof.
  intros Hb. induction ls1 as [|x ls1 IH]; intros cur h; simpl.
  - rewrite Hb. by destruct (flush_field cur h).
  - destruct (starts_blank x); [destruct cur; [apply IH|done]|].
    destruct (flush_field cur h); [|done]. simpl. destruct (contains_char ":" x); [apply IH|done].
Qed.

Definition field_value (value : string) : string := trim_left_blank (trim_right_blank (String " " value)).

Lemma token_head : starts_blank (F +:+ ": ") = false.
Proof.
  destruct F as [|c s]; [done|]. simpl in HF. apply andb_true_iff in HF as [Hc _]. rewrite app_cons. simpl. by apply token_plain.
Qed.

Lemma token_no_colon : contains_char ":" F = false.
Proof.
  apply contains_char_false. eapply all_chars_impl; [|exact HF]. intros c Hc. apply negb_true_iff.
  destruct (Ascii.eqb_spec ":" c) as [<-|]; [done|done].
Qed.

Lemma own_line value h h' :
  mime_go None [F +:+ ": " +:+ value] h = Some h' → filed h' F = filed h F ++ [field_value value].
Proof.
  pose proof token_head as Hh. cbn [mime_go].
  assert (starts_blank (F +:+ ": " +:+ value) = false) as -> by (destruct F; [done|done]).
  simpl flush_field at 1. cbn [mbind option_bind]. rewrite contains_char_app, orb_comm. cbn [orb].
  assert (contains_char ":" (": " +:+ value) = true) as -> by done. cbn [orb]. intros H.
  unfold trim in H. assert (trim_left_blank (F +:+ ": " +:+ value) = F +:+ ": " +:+ value) as E.
  { destruct F as [|c s]; [done|]. rewrite app_cons in *. cbn [trim_left_blank starts_blank] in *. by rewrite Hh. }
  rewrite E in H. change (": " +:+ value) with (String ":" (String " " value)) in H. rewrite trim_right_kept in H by done.
  cbn [mime_go flush_field] in H. unfold add_field in H. rewrite Cut_at in H by apply token_no_colon.
  unfold canonicalMIMEHeaderKey in H. apply String.eqb_neq in HFne. rewrite HFne, HF, HF' in H. simpl in H.
  destruct (all_chars value_char _); [|done]. simplify_eq. by rewrite filed_add, String.eqb_refl.
Qed.

(** One line of the field, with no other before or after: it is what the name holds. *)
Lemma mime_own pre post value h :
  Forall (λ l, hasHeaderName l F = false) pre → Forall (λ l, hasHeaderName l F = false) post →
  match post with [] => True | l :: _ => starts_blank l = false end →
  ReadMIMEHeader (pre ++ (F +:+ ": " +:+ value) :: post) = Some h → filed h F = [field_value value].
Proof.
  intros Hpre Hpost Hhead H. unfold ReadMIMEHeader in H.
  assert (starts_blank (F +:+ ": " +:+ value) = false) as Hb by (pose proof token_head; by destruct F).
  rewrite mime_split in H by done. destruct (mime_go None pre []) as [h1|] eqn:E1; [|done]. cbn [mbind option_bind] in H.
  apply mime_other in E1; [|done|done]. destruct post as [|l post].
  - apply own_line in H. by rewrite H, E1.
  - change (mime_go None ([F +:+ ": " +:+ value] ++ l :: post) h1 = Some h) in H. rewrite mime_split in H by done.
    destruct (mime_go None [F +:+ ": " +:+ value] h1) as [h2|] eqn:E2; [|done]. cbn [mbind option_bind] in H.
    apply mime_other in H; [|done|done]. apply own_line in E2. by rewrite H, E2, E1.
Qed.

End Filed.
