(* ===== verification/Tokens.v ===== *)
(** * Tokens and their ledger

    [services/serve/jwt.go] and [services/serve/ledger.go]: what a token carries, the file that lists every minted one, and
    the view of it the TCP front keeps. Signing is the work of [github.com/golang-jwt/jwt], an interface here. The text of a
    record is read through its length alone: that of its other fields, and of the word that says whether it is revoked. *)

From S2P Require Import Prelude GoStrings Sha256 SandboxID Store Routes.
Local Open Scope Z_scope.

(** ** Claims *)

(** Times are in nanoseconds; [jwt.NewNumericDate] and [Truncate(time.Second)] floor one to its second. *)
Definition nanos : Z := 1000000000.
Definition to_second (t : Z) : Z := t / nanos * nanos.

Record claims : Type := MkClaims {
  CScopes : list string;
  CID : string;
  CSubject : string;
  CIssuedAt : option Z;
  CExpiresAt : option Z
}.
#[export] Instance claims_eq_dec : EqDecision claims. Proof. solve_decision. Defined.
#[export] Instance claims_countable : Countable claims.
Proof.
  refine (inj_countable' (λ c, (CScopes c, CID c, CSubject c, CIssuedAt c, CExpiresAt c))
    (λ '(a, b, c, d, e), MkClaims a b c d e) _). by intros [].
Defined.

Definition no_claims : claims := MkClaims [] "" "" None None.

(** What the front relies on of the library: a signature made under a key is read back under it, while it has not expired,
    and nothing is read after it has. *)
Class Jwt : Type := {
  jwt_sign : string → claims → string;
  jwt_parse : string → Z → string → option claims;
  jwt_reads : ∀ key now c, (∀ e, CExpiresAt c = Some e → now < e) → jwt_parse key now (jwt_sign key c) = Some c;
  jwt_in_time : ∀ key now token c e, jwt_parse key now token = Some c → CExpiresAt c = Some e → now < e
}.

Inductive token_error : Type :=
| ENoSubject
| EPastTTL
| EUnknownScope (s : string)
| EUnverified
| ENoIssuedAt
| ENoID
| ELocked
| EStat
| EExposed
| EAppend
| ENotRegular
| EBrokenRecord
| ERewrite
| EGone.

Record Token : Type := MkToken { TText : string; TExpiresAt : option Z; TScopes : list string }.

(** [newClaims]: the random bytes of the id and the time are arguments. *)
Definition newClaims (raw : list Z) (now : Z) (sub : string) (scopes : list string) (ttl : Z) : result token_error claims :=
  if String.eqb sub "" then Err ENoSubject
  else if ttl <? 0 then Err EPastTTL
  else
    let scopes := if decide (scopes = []) then [ScopeAll] else scopes in
    match CheckScopes scopes with
    | Err s => Err (EUnknownScope s)
    | Ok _ => Ok (MkClaims scopes (EncodeToString raw) sub (Some (to_second now)) (if 0 <? ttl then Some (to_second (now + ttl)) else None))
    end.

Definition recordExpiry (c : claims) : option Z := to_second <$> CExpiresAt c.

Section Signed.
Context `{J : Jwt}.

Definition signClaims (key : string) (c : claims) : Token := MkToken (jwt_sign key c) (recordExpiry c) (CScopes c).

(** [MintToken] and [Mint]: a signed token that no ledger lists. *)
Definition MintToken (key : string) (raw : list Z) (now : Z) (sub : string) (scopes : list string) (ttl : Z) : result token_error Token :=
  match newClaims raw now sub scopes ttl with Err e => Err e | Ok c => Ok (signClaims key c) end.

Definition Mint (key : string) (raw : list Z) (now : Z) (sub : string) (scopes : list string) (ttl : Z) : result token_error string :=
  match MintToken key raw now sub scopes ttl with Err e => Err e | Ok t => Ok (TText t) end.

(** [verify]. *)
Definition verify (key : string) (now : Z) (token : string) : result token_error claims :=
  match jwt_parse key now token with
  | None => Err EUnverified
  | Some c =>
      if String.eqb (CSubject c) "" then Err ENoSubject
      else match CIssuedAt c with
           | None => Err ENoIssuedAt
           | Some _ => if String.eqb (CID c) "" then Err ENoID else Ok c
           end
  end.

End Signed.

(** ** The ledger file *)

Record ledgerEntry : Type := MkEntry_ {
  JTI : string;
  Sub : string;
  IssuedAt : Z;
  ExpiresAt : option Z;
  LScopes : list string;
  Revoked : bool
}.
#[export] Instance ledgerEntry_eq_dec : EqDecision ledgerEntry. Proof. solve_decision. Defined.

(** A line of the file: a record, or the bytes of a write that was cut short. *)
Inductive line : Type := Rec (e : ledgerEntry) | Broken (bytes : Z).

Record ledger_file : Type := MkLedger { flines : list line; fmode : Z; fregular : bool; fmtime : Z }.

Definition exposed (mode : Z) : bool := negb (Z.land mode 7 =? 0).

(** [scanEntries]. *)
Fixpoint scanEntries (ls : list line) : result token_error (list ledgerEntry) :=
  match ls with
  | [] => Ok []
  | Rec e :: ls => match scanEntries ls with Ok es => Ok (e :: es) | Err x => Err x end
  | Broken _ :: _ => Err EBrokenRecord
  end.

(** [openLedger] on a file that is there. *)
Definition openLedger (f : ledger_file) : result token_error ledger_file :=
  if negb (fregular f) then Err ENotRegular else if exposed (fmode f) then Err EExposed else Ok f.

(** [readEntries]: no file is an empty ledger. *)
Definition readEntries (d : option ledger_file) : result token_error (list ledgerEntry) :=
  match d with
  | None => Ok []
  | Some f => match openLedger f with Err e => Err e | Ok f => scanEntries (flines f) end
  end.

(** [checkTokensMode]. *)
Definition checkTokensMode (d : option ledger_file) : result token_error unit :=
  match d with None => Ok tt | Some f => if exposed (fmode f) then Err EExposed else Ok tt end.

(** What becomes of an append: the file does not open; it opens, and neither the mode nor a byte is set after; it holds
    the record; or it holds a part of it. *)
Inductive append_outcome : Type := NotOpened | NotWritten (mode : Z) | Appended | Torn (bytes : Z).

(** 0640. *)
Definition ledger_mode : Z := 416.

(** What a step of another program finds: whether it gets the lock, what the writes do, and the time the file then shows. *)
Record surroundings : Type := MkSurroundings { got_lock : bool; appending : append_outcome; rewriting : WriteOutcome; stamp : Z }.

(** [appendEntry], under the ledger lock. *)
Definition appendEntry (w : surroundings) (e : ledgerEntry) (d : option ledger_file) : option ledger_file * result token_error unit :=
  if negb (got_lock w) then (d, Err ELocked)
  else
    match checkTokensMode d with
    | Err x => (d, Err x)
    | Ok _ =>
        let lines := match d with Some f => flines f | None => [] end in
        let regular := match d with Some f => fregular f | None => true end in
        let landed ls := Some (MkLedger ls ledger_mode regular (stamp w)) in
        match appending w with
        | NotOpened => (d, Err EAppend)
        | NotWritten mode => (Some (MkLedger lines mode regular (match d with Some f => fmtime f | None => stamp w end)), Err EAppend)
        | Appended => (landed (lines ++ [Rec e]), Ok tt)
        | Torn n => (landed (lines ++ [Broken n]), Err EAppend)
        end
    end.

Definition revoked (e : ledgerEntry) : ledgerEntry := MkEntry_ (JTI e) (Sub e) (IssuedAt e) (ExpiresAt e) (LScopes e) true.

Definition flip (m : ledgerEntry → bool) (e : ledgerEntry) : ledgerEntry := if m e && negb (Revoked e) then revoked e else e.

(** [writeEntries]: the whole file, by an atomic rename. *)
Definition writeEntries (w : surroundings) (es : list ledgerEntry) (d : option ledger_file) : option ledger_file * result token_error unit :=
  let landed := Some (MkLedger (Rec <$> es) ledger_mode true (stamp w)) in
  match rewriting w with
  | Landed => (landed, Ok tt)
  | LandedUnsynced => (landed, Err ERewrite)
  | NotLanded => (d, Err ERewrite)
  end.

(** [revoke]: the count of records matched, which is answered with an error too. *)
Definition revoke (w : surroundings) (m : ledgerEntry → bool) (d : option ledger_file) : option ledger_file * Z * result token_error unit :=
  match d with
  | None => (d, 0, Ok tt)
  | Some _ =>
      if negb (got_lock w) then (d, 0, Err ELocked)
      else
        match readEntries d with
        | Err e => (d, 0, Err e)
        | Ok es =>
            let found := Z.of_nat (length (List.filter m es)) in
            if existsb (λ e, m e && negb (Revoked e)) es
            then let '(d', r) := writeEntries w (flip m <$> es) d in (d', found, r)
            else (d, found, Ok tt)
        end
  end.

Definition by_id (id : string) (e : ledgerEntry) : bool := String.eqb (JTI e) id.
Definition by_subject (sub : string) (e : ledgerEntry) : bool := String.eqb (Sub e) sub.

Definition RevokeToken (w : surroundings) (id : string) := revoke w (by_id id).
Definition RevokeSubject (w : surroundings) (sub : string) := revoke w (by_subject sub).

Inductive TokenStatus : Type := StatusActive | StatusRevoked | StatusExpired.

Definition statusOf (e : ledgerEntry) (now : Z) : TokenStatus :=
  if Revoked e then StatusRevoked
  else match ExpiresAt e with Some x => if x <? now then StatusExpired else StatusActive | None => StatusActive end.

(** [ListTokens]: each record, with its status. *)
Definition ListTokens (now : Z) (d : option ledger_file) : result token_error (list (ledgerEntry * TokenStatus)) :=
  match readEntries d with Err e => Err e | Ok es => Ok ((λ e, (e, statusOf e now)) <$> es) end.

Definition entry_of (c : claims) : ledgerEntry :=
  MkEntry_ (CID c) (CSubject c) (default 0 (to_second <$> CIssuedAt c)) (recordExpiry c) (CScopes c) false.

(** [IssueToken]: a token is answered only once its record has landed. *)
Definition IssueToken `{Jwt} (w : surroundings) (key : string) (raw : list Z) (now : Z) (sub : string) (scopes : list string) (ttl : Z)
    (d : option ledger_file) : option ledger_file * result token_error Token :=
  match newClaims raw now sub scopes ttl with
  | Err e => (d, Err e)
  | Ok c =>
      match appendEntry w (entry_of c) d with
      | (d', Err e) => (d', Err e)
      | (d', Ok _) => (d', Ok (signClaims key c))
      end
  end.

(** ** The view of the front *)

Definition index (es : list ledgerEntry) : gmap string ledgerEntry := foldl (λ m e, <[JTI e := e]> m) ∅ es.

Record ledger : Type := MkView { loaded : bool; modTime : Z; lsize : Z; byJTI : gmap string ledgerEntry }.

Definition no_view : ledger := MkView false 0 0 ∅.

Section View.
(** The bytes of the fields of a record other than the last: its id, subject, times and scopes. *)
Context (fields_len : string → string → Z → option Z → list string → Z).

(** The text of a record ends in [true] or [false]. *)
Definition line_size (l : line) : Z :=
  match l with
  | Rec e => fields_len (JTI e) (Sub e) (IssuedAt e) (ExpiresAt e) (LScopes e) + (if Revoked e then 4 else 5) + 1
  | Broken n => n
  end.

Definition file_size (f : ledger_file) : Z := foldr (λ l n, line_size l + n) 0 (flines f).

(** [refresh]: the file is read again when its time or its size differs; one that is gone refuses. *)
Definition refresh (d : option ledger_file) (l : ledger) : ledger * result token_error unit :=
  match d with
  | None => if loaded l then (l, Err EGone) else (l, Ok tt)
  | Some f =>
      match openLedger f with
      | Err e => (l, Err e)
      | Ok f =>
          if loaded l && (fmtime f =? modTime l) && (file_size f =? lsize l) then (l, Ok tt)
          else match scanEntries (flines f) with
               | Err e => (l, Err e)
               | Ok es => (MkView true (fmtime f) (file_size f) (index es), Ok tt)
               end
      end
  end.

Definition newLedger (d : option ledger_file) : result token_error ledger :=
  match refresh d no_view with (l, Ok _) => Ok l | (_, Err e) => Err e end.

Definition lookup_jti (l : ledger) (jti : string) : option ledgerEntry := byJTI l !! jti.

End View.

(** ** A ledger that only grows *)

(** A record stays, and can only become revoked. *)
Definition line_le (x y : line) : Prop :=
  match x, y with
  | Rec e, Rec e' => e' = e ∨ e' = revoked e
  | Broken m, Broken n => m = n
  | _, _ => False
  end.

Definition grows (ls ls' : list line) : Prop := ∃ kept added, ls' = kept ++ added ∧ Forall2 line_le ls kept.

#[export] Instance line_le_refl : Reflexive line_le.
Proof. intros [e|n]; simpl; auto. Qed.

#[export] Instance line_le_trans : Transitive line_le.
Proof. intros [x|x] [y|y] [z|z]; simpl; try done; [|congruence]. intros [->| ->] [->| ->]; auto. Qed.

#[export] Instance grows_preorder : PreOrder grows.
Proof.
  split.
  - intros ls. exists ls, []. by rewrite (right_id_L [] (++)).
  - intros a b c (k & x & -> & H1) (k' & y & -> & H2). apply Forall2_app_inv_l in H2 as (k1 & k2 & Hk1 & Hk2 & ->).
    exists k1, (k2 ++ y). split; [by rewrite (assoc_L (++))|]. by etrans.
Qed.

Lemma scan_lines ls es : scanEntries ls = Ok es ↔ ls = Rec <$> es.
Proof.
  revert es. induction ls as [|[e|n] ls IH]; intros es; simpl.
  - split; [by intros [= <-]|by destruct es].
  - destruct (scanEntries ls) as [es'|x]; split.
    + intros [= <-]. simpl. by f_equal; apply IH.
    + destruct es as [|e' es]; [done|]. intros [= -> H]. apply IH in H. congruence.
    + done.
    + destruct es as [|e' es]; [done|]. intros [= -> H]. by apply IH in H.
  - split; [done|by destruct es].
Qed.

Lemma flip_le m es : Forall2 line_le (Rec <$> es) (Rec <$> (flip m <$> es)).
Proof.
  induction es as [|e es IH]; simpl; constructor; [|done]. simpl. unfold flip. destruct (m e && negb (Revoked e)); auto.
Qed.

(** What a mint or a revoke can do to the file, whatever its calls meet. *)
Inductive ledger_op : Type :=
| Issues (w : surroundings) (raw : list Z) (now : Z) (sub : string) (scopes : list string) (ttl : Z)
| Revokes (w : surroundings) (m : ledgerEntry → bool).

Definition run_op `{Jwt} (key : string) (o : ledger_op) (d : option ledger_file) : option ledger_file :=
  match o with
  | Issues w raw now sub scopes ttl => (IssueToken w key raw now sub scopes ttl d).1
  | Revokes w m => (revoke w m d).1.1
  end.

Definition run_ops `{Jwt} (key : string) (os : list ledger_op) (d : option ledger_file) : option ledger_file :=
  foldl (λ d o, run_op key o d) d os.

Definition lines_of (d : option ledger_file) : list line := match d with Some f => flines f | None => [] end.

Definition mints (id : string) (o : ledger_op) : bool :=
  match o with Issues _ raw _ _ _ _ => String.eqb (EncodeToString raw) id | Revokes _ _ => false end.

(** Lines of another token. *)
Definition other_token (id : string) (l : line) : Prop := match l with Rec e => JTI e ≠ id | Broken _ => True end.

Definition grows_by (P : line → Prop) (ls ls' : list line) : Prop :=
  ∃ kept added, ls' = kept ++ added ∧ Forall2 line_le ls kept ∧ Forall P added.

Section Growth.
Context `{J : Jwt} (key : string).

Lemma grows_by_refl P ls : grows_by P ls ls.
Proof. exists ls, []. by rewrite (right_id_L [] (++)). Qed.

Lemma grows_by_end (P : line → Prop) ls l : P l → grows_by P ls (ls ++ [l]).
Proof. intros. exists ls, [l]. split_and!; [done|done|by constructor]. Qed.

Lemma grows_by_trans id a b c : grows_by (other_token id) a b → grows_by (other_token id) b c → grows_by (other_token id) a c.
Proof.
  intros (k & x & -> & H1 & Px) (k' & y & -> & H2 & Py). apply Forall2_app_inv_l in H2 as (k1 & k2 & Hk1 & Hk2 & ->).
  exists k1, (k2 ++ y). split_and!; [by rewrite (assoc_L (++))|by etrans|]. apply Forall_app. split; [|done].
  clear -Px Hk2. induction Hk2 as [|l l' x k2 Hl _ IH]; [done|]. apply Forall_cons in Px as [Pl Px]. constructor; [|auto].
  destruct l, l'; simpl in *; try done. destruct Hl as [->| ->]; done.
Qed.

Lemma append_grows P w e d : P (Rec e) → (∀ n, P (Broken n)) → grows_by P (lines_of d) (lines_of (appendEntry w e d).1).
Proof.
  intros He Hb. unfold appendEntry. destruct (negb (got_lock w)); [apply grows_by_refl|].
  destruct (checkTokensMode d); [|apply grows_by_refl].
  destruct (appending w) as [|mode| |n]; [apply grows_by_refl|simpl; destruct d; apply grows_by_refl|..];
    (change (match d with Some f => flines f | None => [] end) with (lines_of d); by apply grows_by_end).
Qed.

Lemma readEntries_lines d es : readEntries d = Ok es → lines_of d = Rec <$> es.
Proof.
  unfold readEntries. destruct d as [f|]; [|by intros [= <-]]. unfold openLedger. repeat (case_match; try done). simplify_eq.
  by intros H%scan_lines.
Qed.

Lemma writeEntries_lines w es d :
  lines_of (writeEntries w es d).1 = lines_of d ∨ lines_of (writeEntries w es d).1 = Rec <$> es.
Proof. unfold writeEntries. destruct (rewriting w); auto. Qed.

Lemma revoke_grows P w m d : grows_by P (lines_of d) (lines_of (revoke w m d).1.1).
Proof.
  unfold revoke. destruct d as [f|]; [|apply grows_by_refl]. destruct (negb (got_lock w)); [apply grows_by_refl|].
  destruct (readEntries (Some f)) as [es|] eqn:E; [|apply grows_by_refl]. apply readEntries_lines in E.
  destruct (existsb _ es); [|apply grows_by_refl].
  pose proof (writeEntries_lines w (flip m <$> es) (Some f)) as H. destruct (writeEntries w _ _) as [d' r]. simpl in H |- *.
  destruct H as [-> | ->]; [apply grows_by_refl|]. exists (Rec <$> (flip m <$> es)), []. rewrite (right_id_L [] (++)).
  simpl in E. rewrite E. split_and!; [done|apply flip_le|done].
Qed.

Lemma run_op_grows id o d : mints id o = false → grows_by (other_token id) (lines_of d) (lines_of (run_op key o d)).
Proof.
  destruct o as [w raw now sub scopes ttl|w m]; simpl; [|intros _; apply revoke_grows].
  intros Hid. unfold IssueToken. destruct (newClaims raw now sub scopes ttl) as [c|] eqn:E; [|apply grows_by_refl].
  pose proof (append_grows (other_token id) w (entry_of c) d) as H. destruct (appendEntry w (entry_of c) d) as [d' [|]]; simpl in *;
    (apply H; [|done]); unfold newClaims in E; repeat (case_match; try done); simplify_eq; simpl; by apply String.eqb_neq.
Qed.

Lemma run_ops_grows id os d : Forall (λ o, mints id o = false) os → grows_by (other_token id) (lines_of d) (lines_of (run_ops key os d)).
Proof.
  revert d. induction os as [|o os IH]; intros d Hos; [apply grows_by_refl|]. apply Forall_cons in Hos as [Ho Hos].
  eapply grows_by_trans; [by apply run_op_grows|by apply IH].
Qed.

Lemma run_op_grows_any o d : grows (lines_of d) (lines_of (run_op key o d)).
Proof.
  assert (grows_by (λ _, True) (lines_of d) (lines_of (run_op key o d))) as (k & x & ? & ? & _); [|by exists k, x].
  destruct o as [w raw now sub scopes ttl|w m]; simpl; [|apply revoke_grows].
  unfold IssueToken. destruct (newClaims raw now sub scopes ttl) as [c|] eqn:E; [|apply grows_by_refl].
  pose proof (append_grows (λ _, True) w (entry_of c) d) as H. by destruct (appendEntry w (entry_of c) d) as [d' [|]]; apply H.
Qed.

Lemma run_ops_grows_any os d : grows (lines_of d) (lines_of (run_ops key os d)).
Proof. revert d. induction os as [|o os IH]; intros d; [done|]. etrans; [apply run_op_grows_any|apply IH]. Qed.

End Growth.

(** ** A front that is not behind *)

(** The records of the first list the second shows as revoked since. *)
Fixpoint flipped (ls ls' : list line) : Z :=
  match ls, ls' with
  | Rec e :: ls, Rec e' :: ls' => (if negb (Revoked e) && Revoked e' then 1 else 0) + flipped ls ls'
  | _ :: ls, _ :: ls' => flipped ls ls'
  | _, _ => 0
  end.

Section Current.
Context `{J : Jwt} (key : string) (fields_len : string → string → Z → option Z → list string → Z).

Definition size_of (ls : list line) : Z := foldr (λ l n, line_size fields_len l + n) 0 ls.

(** The time or the size of the file gives a change away: within one tick of its clock, new records take more bytes than
    there are tokens revoked. *)
Definition told_apart (f f' : ledger_file) : Prop :=
  fmtime f' ≠ fmtime f ∨
  let added := drop (length (flines f)) (flines f') in added = [] ∨ flipped (flines f) (flines f') < size_of added.

(** A view taken of a version of the file. *)
Definition view_of (f : ledger_file) (l : ledger) : Prop :=
  loaded l = true ∧ modTime l = fmtime f ∧ lsize l = file_size fields_len f ∧
  ∃ es, flines f = Rec <$> es ∧ byJTI l = index es.

Lemma size_app ls ls' : size_of (ls ++ ls') = size_of ls + size_of ls'.
Proof. unfold size_of. induction ls as [|l ls IH]; simpl; [done|]. rewrite IH. lia. Qed.

Lemma kept_size ls kept : Forall2 line_le ls kept →
  size_of kept = size_of ls - flipped ls kept ∧ 0 ≤ flipped ls kept ∧ (flipped ls kept = 0 → kept = ls).
Proof.
  induction 1 as [|x y ls kept Hxy _ (IH1 & IH2 & IH3)]; [done|].
  destruct x as [e|n], y as [e'|n']; simpl in Hxy; try done.
  - destruct Hxy as [->| ->].
    + cbn [flipped]. rewrite andb_negb_l. unfold size_of in *. simpl. split_and!; [lia|lia|]. intros. f_equal. apply IH3. lia.
    + destruct e as [a b c d s []]; cbn [flipped Revoked revoked negb andb]; unfold size_of in *; simpl;
        (split_and!; [lia|lia|]); intros; [f_equal; apply IH3; lia|lia].
  - subst. cbn [flipped]. unfold size_of in *. simpl. split_and!; [lia|lia|]. intros. f_equal. auto.
Qed.

Lemma flipped_app ls kept added : length ls = length kept → flipped ls (kept ++ added) = flipped ls kept.
Proof.
  revert kept. induction ls as [|x ls IH]; intros [|y kept] H; simplify_eq/=; [by destruct added|].
  destruct x, y; rewrite ?IH by done; done.
Qed.

(** A file that has grown, and shows the same time and size, is the same. *)
Lemma told_apart_same f f' :
  grows (flines f) (flines f') → told_apart f f' → fmtime f' = fmtime f → file_size fields_len f' = file_size fields_len f →
  flines f' = flines f.
Proof.
  intros (kept & added & E & Hk) Ht Hm Hs. pose proof (Forall2_length _ _ _ Hk) as Hlen.
  destruct (kept_size _ _ Hk) as (H1 & H2 & H3). unfold file_size in Hs. fold (size_of (flines f)) (size_of (flines f')) in Hs.
  rewrite E, size_app, H1 in Hs. destruct Ht as [|Ht]; [done|]. rewrite E, Hlen, drop_app_length, flipped_app in Ht by done.
  destruct Ht as [-> |Ht]; [|lia]. unfold size_of at 2 in Hs. simpl in Hs. rewrite E, (right_id_L [] (++)). apply H3. lia.
Qed.

Lemma refresh_current f f' l l' :
  view_of f l → grows (flines f) (flines f') → told_apart f f' → refresh fields_len (Some f') l = (l', Ok tt) →
  ∃ es, flines f' = Rec <$> es ∧ byJTI l' = index es.
Proof.
  intros (Hl & Hm & Hs & es & Ees & Hix) Hg Ht. unfold refresh. destruct (openLedger f') as [f1|] eqn:Eo; [|done].
  assert (f1 = f') as -> by (unfold openLedger in Eo; by repeat (case_match; try done); simplify_eq).
  destruct (loaded l && (fmtime f' =? modTime l) && (file_size fields_len f' =? lsize l)) eqn:Ef.
  - intros [= <-]. rewrite !andb_true_iff, !Z.eqb_eq, Hm, Hs in Ef. destruct Ef as [[_ ?] ?].
    exists es. by rewrite (told_apart_same f f').
  - destruct (scanEntries (flines f')) as [es'|] eqn:Es; [|done]. intros [= <-]. exists es'. by apply scan_lines in Es.
Qed.

Lemma index_elem es id e : index es !! id = Some e → e ∈ es ∧ JTI e = id.
Proof.
  unfold index. assert (∀ m : gmap string ledgerEntry, foldl (λ m e, <[JTI e := e]> m) m es !! id = Some e → (e ∈ es ∧ JTI e = id) ∨ m !! id = Some e) as H.
  { induction es as [|x es IH]; intros m; simpl; [auto|]. intros H. apply IH in H as [[? ?]|H]; [left; set_solver|].
    destruct (decide (JTI x = id)) as [<-|Hn]; [rewrite lookup_insert_eq in H; simplify_eq; left; set_solver|].
    rewrite lookup_insert_ne in H by done. auto. }
  intros Hi. apply H in Hi as [?|Hi]; [done|]. by rewrite lookup_empty in Hi.
Qed.

Definition all_revoked (id : string) (ls : list line) : Prop := ∀ e, Rec e ∈ ls → JTI e = id → Revoked e = true.

Lemma all_revoked_grows id ls ls' : grows_by (other_token id) ls ls' → all_revoked id ls → all_revoked id ls'.
Proof.
  intros (kept & added & -> & Hk & Ha) H e. rewrite elem_of_app. intros [Hin|Hin] Hid.
  - apply list_elem_of_lookup in Hin as [i Hi]. destruct (Forall2_lookup_r _ _ _ _ _ Hk Hi) as (x & Hx & Hle).
    destruct x as [e0|]; [|done]. simpl in Hle. apply list_elem_of_lookup_2 in Hx. destruct Hle as [->| ->]; [by apply H|done].
  - rewrite Forall_forall in Ha. by apply Ha in Hin.
Qed.

Lemma revoke_all w id d d' n : RevokeToken w id d = (d', n, Ok tt) → all_revoked id (lines_of d').
Proof.
  unfold RevokeToken, revoke. destruct d as [f|]; [|intros [= <- _]; intros e He; by apply elem_of_nil in He].
  destruct (negb (got_lock w)); [done|]. destruct (readEntries (Some f)) as [es|] eqn:E; [|done]. apply readEntries_lines in E.
  assert (∀ e, Rec e ∈ Rec <$> es → e ∈ es) as Hr by (intros e (x & [= ->] & ?)%list_elem_of_fmap; done).
  destruct (existsb _ es) eqn:Ex.
  - unfold writeEntries. destruct (rewriting w); simpl; intros [= <- _]. intros e (x & [= ->] & Hx)%list_elem_of_fmap Hid.
    apply list_elem_of_fmap in Hx as (y & -> & _). revert Hid. unfold flip, by_id.
    destruct (String.eqb_spec (JTI y) id) as [Hy|Hy]; simpl; [|done]. by destruct (Revoked y) eqn:?.
  - intros [= <- _] e He Hid. rewrite E in He. apply Hr in He. apply not_false_iff_true. intros Hv.
    apply not_true_iff_false in Ex. apply Ex, existsb_exists. exists e. rewrite <- list_elem_of_In. split; [done|].
    unfold by_id. by rewrite Hid, String.eqb_refl, Hv.
Qed.

Lemma run_op_some o f : ∃ f', run_op key o (Some f) = Some f'.
Proof.
  destruct o as [w raw now sub scopes ttl|w m]; simpl.
  - unfold IssueToken, appendEntry. repeat case_match; simplify_eq/=; by eexists.
  - unfold revoke, writeEntries. repeat case_match; simplify_eq/=; by eexists.
Qed.

Lemma run_ops_some os : ∀ f, ∃ f', run_ops key os (Some f) = Some f'.
Proof.
  induction os as [|o os IH]; intros f; [by eexists|]. unfold run_ops. simpl. destruct (run_op_some o f) as [f1 ->]. apply IH.
Qed.

(** A view taken of the ledger at any time, brought up to date after a revocation and whatever was minted or revoked before
    and since, knows the token as revoked or not at all. What gives the change away is the time of the file, or else its
    size, which each revocation takes a byte off. *)
Lemma revoked_seen f os1 w id d n os2 f' l l' e :
  view_of f l → RevokeToken w id (run_ops key os1 (Some f)) = (d, n, Ok tt) →
  run_ops key os2 d = Some f' → Forall (λ o, mints id o = false) os2 → told_apart f f' →
  refresh fields_len (Some f') l = (l', Ok tt) → lookup_jti l' id = Some e → Revoked e = true.
Proof.
  intros Hv Hrev Hrun Hmint Ht Hr He.
  assert (run_ops key os2 (run_ops key (os1 ++ [Revokes w (by_id id)]) (Some f)) = Some f') as Hall.
  { unfold run_ops at 2. rewrite foldl_app. simpl. fold (run_ops key os1 (Some f)). unfold RevokeToken in Hrev. by rewrite Hrev. }
  assert (grows (flines f) (flines f')) as Hg.
  { pose proof (run_ops_grows_any key (os1 ++ [Revokes w (by_id id)]) (Some f)) as H1.
    pose proof (run_ops_grows_any key os2 (run_ops key (os1 ++ [Revokes w (by_id id)]) (Some f))) as H2.
    rewrite Hall in H2. by etrans. }
  destruct (refresh_current f f' l l' Hv Hg Ht Hr) as (es & Hes & Hix). unfold lookup_jti in He. rewrite Hix in He.
  apply index_elem in He as [Hin Hid].
  assert (all_revoked id (flines f')) as Ha.
  { pose proof (run_ops_grows key id os2 d Hmint) as H. rewrite Hrun in H. eapply all_revoked_grows; [exact H|]. by eapply revoke_all. }
  apply Ha; [|done]. rewrite Hes. apply list_elem_of_fmap. by exists e.
Qed.

End Current.

(** ** Minting *)

(** An answered token is listed, live, under the id it carries. *)
Lemma IssueToken_listed `{J : Jwt} w key raw now sub scopes ttl d d' t :
  IssueToken w key raw now sub scopes ttl d = (d', Ok t) →
  ∃ c f, d' = Some f ∧ last (flines f) = Some (Rec (entry_of c)) ∧ TText t = jwt_sign key c ∧ TScopes t = CScopes c ∧
    CSubject c = sub ∧ CID c = EncodeToString raw ∧ CIssuedAt c = Some (to_second now) ∧ CScopes c ≠ [] ∧
    CheckScopes (CScopes c) = Ok tt ∧ CExpiresAt c = (if 0 <? ttl then Some (to_second (now + ttl)) else None) ∧ sub ≠ "".
Proof.
  unfold IssueToken. destruct (newClaims raw now sub scopes ttl) as [c|] eqn:Ec; [|done].
  unfold appendEntry. destruct (negb (got_lock w)); [done|]. destruct (checkTokensMode d); [|done].
  destruct (appending w); intros [= <- <-]. exists c. eexists. split; [done|]. simpl. rewrite last_snoc.
  unfold newClaims in Ec. destruct (String.eqb_spec sub ""); [done|]. destruct (ttl <? 0); [done|].
  destruct (decide (scopes = [])) as [->|Hn]; (destruct (CheckScopes _) as [[]|] eqn:Es; [|done]); simplify_eq/=; done.
Qed.

(** The library's interface can be met: here a token is the number that encodes its key and its claims. *)
Definition plain_parse (key : string) (now : Z) (token : string) : option claims :=
  match parse_digits token with
  | Some (Zpos p) =>
      match decode p : option (string * claims) with
      | Some (k, c) =>
          if String.eqb k key && (match CExpiresAt c with Some e => now <? e | None => true end) then Some c else None
      | None => None
      end
  | _ => None
  end.

Definition plain_jwt : Jwt.
Proof.
  refine {| jwt_sign key c := Itoa (Zpos (encode (key, c))); jwt_parse := plain_parse |}.
  - intros key now c Hc. unfold plain_parse. rewrite parse_digits_Itoa, decode_encode, String.eqb_refl by lia. simpl.
    destruct (CExpiresAt c) as [e|]; [|done]. specialize (Hc e eq_refl). by apply Z.ltb_lt in Hc as ->.
  - intros key now token c e. unfold plain_parse. destruct (parse_digits token) as [[|p|]|]; try done.
    destruct (decode p : option (string * claims)) as [[k c']|]; [|done].
    destruct (String.eqb k key); [|done]. destruct (CExpiresAt c') as [e'|] eqn:Ee; simpl; [|intros [= <-]; congruence].
    destruct (Z.ltb_spec now e'); [|done]. intros [= <-]. congruence.
Defined.

Definition bench_len (jti sub : string) (iat : Z) (exp : option Z) (scopes : list string) : Z := 100.
Definition bench_entry (id : string) : ledgerEntry := MkEntry_ id "ci" 0 None [ScopeAll] false.
Definition bench_file : ledger_file := MkLedger [Rec (bench_entry "a"); Rec (bench_entry "b")] ledger_mode true 7.
Definition bench_view : ledger := (refresh bench_len (Some bench_file) no_view).1.
(** Everything goes well, within one tick of the clock. *)
Definition bench_tick : surroundings := MkSurroundings true Appended Landed 7.

Definition bench_after : ledger_file := MkLedger [Rec (bench_entry "a"); Rec (revoked (bench_entry "b"))] ledger_mode true 7.
