(* ===== verification/PreAuth.v ===== *)
(** * Connections that have shown no token

    [services/serve/preauth.go], and the part of [accept] and [handle] of [services/serve/serve.go] that takes a slot for a
    connection and gives it back: once its token is good, or when it ends, whichever comes first. *)

From S2P Require Import Prelude GoStrings Netip.
Local Open Scope Z_scope.

Definition preAuthPerSource : Z := 32.
Definition preAuthReserve : Z := 64.
Definition MaxInt : Z := max_int64.

(** [preAuthTotalFor], on the soft limit of file descriptors, a [uint64]. *)
Definition preAuthTotalFor (soft : Z) : Z :=
  if soft <? preAuthReserve + 2 * preAuthPerSource then preAuthPerSource
  else
    let total := (soft - preAuthReserve) / 2 in
    if MaxInt <? total then MaxInt else total.

Record preAuth : Type := MkPreAuth { total : Z; perSource : Z; held : Z; sources : gmap Addr Z }.

Definition newPreAuth (total perSource : Z) : preAuth := MkPreAuth total perSource 0 ∅.

Definition held_by (p : preAuth) (source : Addr) : Z := default 0 (sources p !! source).

Definition enter (source : Addr) (p : preAuth) : preAuth * bool :=
  if (total p <=? held p) || (perSource p <=? held_by p source) then (p, false)
  else (MkPreAuth (total p) (perSource p) (held p + 1) (<[source := held_by p source + 1]> (sources p)), true).

Definition leave (source : Addr) (p : preAuth) : preAuth :=
  let n := held_by p source - 1 in
  MkPreAuth (total p) (perSource p) (held p - 1) (if n =? 0 then delete source (sources p) else <[source := n]> (sources p)).

(** [netip.ParseAddrPort], less the port it answers. *)
Definition ParseAddrPort (s : string) : option Addr :=
  '(ip, port) ← cut_last ":" s;
  if String.eqb ip "" || String.eqb port "" then None
  else
    let v6 := HasPrefix ip "[" in
    if v6 && negb (HasSuffix ip "]" && (2 <=? Z.of_nat (String.length ip))) then None
    else
      n ← parse_digits port;
      a ← ParseAddr (if v6 then take_s (String.length ip - 2) (drop_s 1 ip) else ip);
      if (65535 <? n) || (v6 && Is4 a) || (negb v6 && Is6 a) then None else Some a.

(** [sourceOf]: an address that does not read shares the bucket of the invalid one. *)
Definition sourceOf (remote : string) : Addr := match ParseAddrPort remote with Some a => Unmap a | None => AddrInvalid end.

(** [waitOut]: the next wait after an [Accept] that ran out of a resource, in nanoseconds. *)
Definition acceptBackoffMin : Z := 5000000.
Definition acceptBackoffMax : Z := 1000000000.
Definition waitOut (last : Z) : Z := Z.min (Z.max (2 * last) acceptBackoffMin) acceptBackoffMax.

(** ** The connections of a front *)

(** A front, and the connections that hold a slot: each with its number and the source it entered under. *)
Record front : Type := MkFront { slots : preAuth; holding : list (nat * Addr) }.

(** [accept] takes a connection in; [handle] calls the [sync.OnceFunc] that leaves, up to twice. *)
Inductive conn_event : Type := Arrives (conn : nat) (remote : string) | Leaves (conn : nat).

Definition happens (e : conn_event) (f : front) : front :=
  match e with
  | Arrives conn remote =>
      match enter (sourceOf remote) (slots f) with
      | (p, true) => MkFront p (holding f ++ [(conn, sourceOf remote)])
      | (p, false) => MkFront p (holding f)
      end
  | Leaves conn =>
      match first_match (λ x, Nat.eqb x.1 conn) (holding f) with
      | Some x => MkFront (leave x.2 (slots f)) (List.filter (λ y, negb (Nat.eqb y.1 conn)) (holding f))
      | None => f
      end
  end.

Definition arrival (e : conn_event) : list nat := match e with Arrives conn _ => [conn] | Leaves _ => [] end.

Definition after (es : list conn_event) (f : front) : front := foldl (λ f e, happens e f) f es.

Definition from_source (s : Addr) (l : list (nat * Addr)) : Z := Z.of_nat (length (List.filter (λ x, bool_decide (x.2 = s)) l)).

(** ** Theorems *)

(** What the counters say is what is held, within the bounds; a source that holds nothing is forgotten. *)
Definition counted (T P : Z) (f : front) : Prop :=
  total (slots f) = T ∧ perSource (slots f) = P ∧ NoDup (holding f).*1 ∧
  held (slots f) = Z.of_nat (length (holding f)) ∧ held (slots f) ≤ T ∧
  (∀ s, held_by (slots f) s = from_source s (holding f) ∧ from_source s (holding f) ≤ P) ∧
  (∀ s, sources (slots f) !! s ≠ Some 0).

Lemma filter_absent conn (l : list (nat * Addr)) : conn ∉ l.*1 → List.filter (λ y, negb (Nat.eqb y.1 conn)) l = l.
Proof.
  induction l as [|[c a] l IH]; [done|]. simpl. rewrite not_elem_of_cons. intros [Hc Hl].
  destruct (Nat.eqb_spec c conn); [congruence|]. simpl. by rewrite IH.
Qed.

Lemma filter_one conn s (l : list (nat * Addr)) :
  NoDup l.*1 → (conn, s) ∈ l →
  Z.of_nat (length (List.filter (λ y, negb (Nat.eqb y.1 conn)) l)) = Z.of_nat (length l) - 1 ∧
  ∀ s', from_source s' (List.filter (λ y, negb (Nat.eqb y.1 conn)) l) = from_source s' l - (if decide (s = s') then 1 else 0).
Proof.
  unfold from_source. induction l as [|[c a] l IH]; [set_solver|]. cbn [fmap list_fmap]. intros [Hc Hl]%NoDup_cons Hin.
  apply elem_of_cons in Hin as [[= -> ->]|Hin].
  - simpl. rewrite Nat.eqb_refl. simpl. rewrite filter_absent by done. split; [lia|]. intros s'.
    destruct (decide (a = s')) as [->|]; [rewrite bool_decide_eq_true_2 by done; simpl; lia|].
    rewrite bool_decide_eq_false_2 by done. lia.
  - destruct (IH Hl Hin) as [IH1 IH2]. assert (c ≠ conn) as Hn.
    { intros ->. apply Hc. apply list_elem_of_fmap. by exists (conn, s). }
    apply Nat.eqb_neq in Hn. simpl. rewrite Hn. simpl. split; [lia|]. intros s'. specialize (IH2 s').
    destruct (bool_decide (a = s')); simpl; lia.
Qed.

Lemma NoDup_keys_filter n (l : list (nat * Addr)) : NoDup l.*1 → NoDup (List.filter (λ y, negb (Nat.eqb y.1 n)) l).*1.
Proof.
  induction l as [|[c a] l IH]; [done|]. cbn [fmap list_fmap]. intros [Hc Hl]%NoDup_cons. simpl.
  destruct (negb (Nat.eqb c n)); simpl; [|auto]. apply NoDup_cons. split; [|auto]. intros Hx. apply Hc.
  apply list_elem_of_fmap in Hx as (x & -> & Hx). apply list_elem_of_fmap. exists x. split; [done|].
  rewrite list_elem_of_In in *. by apply List.filter_In in Hx as [? _].
Qed.

Lemma from_source_snoc s l c a : from_source s (l ++ [(c, a)]) = from_source s l + (if decide (a = s) then 1 else 0).
Proof.
  unfold from_source. rewrite List.filter_app, length_app. simpl. destruct (decide (a = s)) as [->|].
  - rewrite bool_decide_eq_true_2 by done. simpl. lia.
  - rewrite bool_decide_eq_false_2 by done. simpl. lia.
Qed.

Lemma from_source_nonneg s l : 0 ≤ from_source s l.
Proof. unfold from_source. lia. Qed.

Lemma enter_counted T P f conn remote :
  counted T P f → conn ∉ (holding f).*1 → counted T P (happens (Arrives conn remote) f).
Proof.
  intros (H1 & H2 & H3 & H4 & H5 & H6 & H7) Hnew. simpl. set (a := sourceOf remote). unfold enter.
  destruct (Z.leb_spec (total (slots f)) (held (slots f))); [done|]. simpl.
  destruct (Z.leb_spec (perSource (slots f)) (held_by (slots f) a)); [done|].
  unfold counted. simpl. destruct (H6 a) as [Ha _]. pose proof (from_source_nonneg a (holding f)). split_and!; try done; try lia.
  - rewrite fmap_app. apply NoDup_app. split_and!; [done| |by apply NoDup_singleton]. intros x Hx ->%list_elem_of_singleton. done.
  - rewrite length_app. simpl. lia.
  - intros s. rewrite from_source_snoc. destruct (H6 s) as [Hs1 Hs2]. unfold held_by in *. simpl.
    destruct (decide (a = s)) as [<-|Hn]; [rewrite lookup_insert_eq; simpl; lia|]. rewrite lookup_insert_ne by done. lia.
  - intros s. destruct (decide (a = s)) as [<-|Hn]; [rewrite lookup_insert_eq; intros [= ?]; lia|]. by rewrite lookup_insert_ne.
Qed.

Lemma leave_counted T P f conn : counted T P f → counted T P (happens (Leaves conn) f).
Proof.
  intros (H1 & H2 & H3 & H4 & H5 & H6 & H7). simpl. destruct (first_match _ (holding f)) as [[c s]|] eqn:E; [|done].
  apply first_match_Some in E as (l1 & l2 & El & Hc & _). simpl in Hc. apply Nat.eqb_eq in Hc as ->.
  assert ((conn, s) ∈ holding f) as Hin by (rewrite El; set_solver).
  destruct (filter_one conn s (holding f) H3 Hin) as [Hlen Hcount]. destruct (H6 s) as [Hs Hs'].
  unfold counted. simpl. split_and!; try done; try lia.
  - by apply NoDup_keys_filter.
  - intros s'. rewrite Hcount. destruct (H6 s') as [Hs1 Hs2]. unfold held_by in *. simpl.
    destruct (decide (s = s')) as [<-|Hn].
    + case_match eqn:En; [apply Z.eqb_eq in En; rewrite lookup_delete_eq|rewrite lookup_insert_eq]; simpl; unfold held_by in *; lia.
    + case_match; [rewrite lookup_delete_ne by done|rewrite lookup_insert_ne by done]; lia.
  - intros s'. unfold held_by. case_match eqn:En; [apply Z.eqb_eq in En|apply Z.eqb_neq in En]; destruct (decide (s = s')) as [<-|Hn].
    + by rewrite lookup_delete_eq.
    + by rewrite lookup_delete_ne.
    + rewrite lookup_insert_eq. congruence.
    + by rewrite lookup_insert_ne.
Qed.

Lemma after_counted T P es : ∀ f seen,
  counted T P f → (∀ c, c ∈ (holding f).*1 → c ∈ seen) → NoDup (seen ++ concat (arrival <$> es)) → counted T P (after es f).
Proof.
  induction es as [|e es IH]; intros f seen Hf Hseen Hnd; [done|]. unfold after. simpl. destruct e as [conn remote|conn].
  - cbn [fmap list_fmap concat arrival] in Hnd. apply (IH _ (seen ++ [conn])).
    + apply enter_counted; [done|]. intros Hin%Hseen. apply NoDup_app in Hnd as (_ & Hd & _). by apply (Hd conn Hin), elem_of_cons; left.
    + intros c. simpl. destruct (enter _ _) as [p []]; simpl; [|set_solver]. rewrite fmap_app. set_solver.
    + by rewrite <- (assoc_L (++)).
  - apply (IH _ seen); [by apply leave_counted| |done]. intros c. simpl. destruct (first_match _ _); [|apply Hseen]. simpl. intros Hc.
    apply Hseen. apply list_elem_of_fmap in Hc as (x & -> & Hx). apply list_elem_of_fmap. exists x. split; [done|].
    rewrite list_elem_of_In in *. by apply List.filter_In in Hx as [? _].
Qed.

(** The slots of connections with no token yet are never overdrawn and never lost. Whatever connects and leaves, in any
    order and however often a connection leaves, the counters stay those of the connections that hold a slot, within the
    cap of all and the cap of each source; and once every one has left, nothing is counted and no source is kept. *)
Theorem slots_counted T P es :
  0 ≤ T → 0 ≤ P → NoDup (concat (arrival <$> es)) →
  let f := after es (MkFront (newPreAuth T P) []) in
  held (slots f) = Z.of_nat (length (holding f)) ∧ held (slots f) ≤ T ∧
  (∀ s, held_by (slots f) s = from_source s (holding f) ∧ held_by (slots f) s ≤ P) ∧
  (holding f = [] → slots f = newPreAuth T P).
Proof.
  intros HT HP Hnd f. assert (counted T P f) as (H1 & H2 & H3 & H4 & H5 & H6 & H7).
  { apply (after_counted T P es _ []); [|set_solver|done]. unfold counted, held_by, from_source. simpl.
    split_and!; try done. constructor. }
  split_and!; [done|done| |].
  - intros s. destruct (H6 s). split; [done|lia].
  - intros Hn. destruct (slots f) as [t p h m]. rewrite Hn in *. simpl in *. subst. unfold newPreAuth. f_equal.
    apply map_eq. intros s. rewrite lookup_empty. destruct (H6 s) as [Hs _]. specialize (H7 s). unfold held_by in Hs. simpl in Hs.
    destruct (m !! s) as [n|]; [|done]. simpl in Hs. by subst.
Qed.

(** The cap leaves room for both ends of every connection it counts, beside the reserve. *)
Lemma preAuthTotalFor_room soft :
  0 ≤ soft < 2 ^ 64 →
  preAuthPerSource ≤ preAuthTotalFor soft ≤ MaxInt ∧
  (preAuthReserve + 2 * preAuthPerSource ≤ soft → preAuthReserve + 2 * preAuthTotalFor soft ≤ soft < preAuthReserve + 2 * preAuthTotalFor soft + 2).
Proof.
  intros Hs. unfold preAuthTotalFor, preAuthReserve, preAuthPerSource, MaxInt, max_int64 in *.
  destruct (Z.ltb_spec soft (64 + 2 * 32)); [lia|]. pose proof (Z.div_mod (soft - 64) 2 ltac:(lia)).
  pose proof (Z.mod_pos_bound (soft - 64) 2 ltac:(lia)). destruct (Z.ltb_spec (2 ^ 63 - 1) ((soft - 64) / 2)); lia.
Qed.

Definition bench_flood : list conn_event :=
  [Arrives 0 "10.0.0.1:5"; Arrives 1 "[::ffff:10.0.0.1]:6"; Arrives 2 "10.0.0.2:7"; Arrives 3 "unix"; Leaves 0; Leaves 0; Arrives 4 "10.0.0.1:8"].

Lemma slots_counted_witness :
  holding (after bench_flood (MkFront (newPreAuth 3 1) [])) = [(2%nat, Addr4 167772162); (3%nat, AddrInvalid); (4%nat, Addr4 167772161)] ∧
  held (slots (after bench_flood (MkFront (newPreAuth 3 1) []))) ≤ 3.
Proof.
  split; [vm_compute; reflexivity|]. refine (proj1 (proj2 (slots_counted 3 1 bench_flood _ _ _))); [lia|lia|].
  apply (bool_decide_unpack _). vm_compute. exact Logic.I.
Defined.
