(* ===== verification/Front.v ===== *)
(** * The TCP front

    [services/serve/serve.go] and [services/serve/guard.go]: one connection from its first byte to what reaches the daemon
    socket. A connection answers a list of events in order; its client's bytes, the ledger file, the time and the daemon's
    status line are arguments. *)

From S2P Require Import Prelude GoStrings Http Routes Headers Tokens.
Local Open Scope Z_scope.

(** ** The request line *)

Definition methodChars : string := "!#$%&'*+-.^_`|~0123456789ABCDEFGHIJKLMNOPQRSTUVWXYZabcdefghijklmnopqrstuvwxyz".

(** [validMethod]: trimming the set off both ends leaves nothing exactly when every byte is in it. *)
Definition validMethod (method : string) : bool :=
  negb (String.eqb method "") && all_chars (λ c, contains_char c methodChars) method.

(** [http.ParseHTTPVersion]: whether it reads. *)
Definition ParseHTTPVersion (proto : string) : bool :=
  match CutPrefix proto "HTTP/" with
  | Some (String a (String b (String c EmptyString))) => is_digit a && Ascii.eqb b "." && is_digit c
  | _ => false
  end.

Definition is_ctl (c : ascii) : bool := (code c <? 32) || (code c =? 127).
Definition is_letter (c : ascii) : bool := is_lower c || is_upper c.

(** [getScheme] of [net/url]: the scheme and the rest; a colon first is refused. *)
Fixpoint getScheme_go (first : bool) (whole s : string) : option (string * string) :=
  match s with
  | EmptyString => Some ("", whole)
  | String c s =>
      if is_letter c then
        match getScheme_go false whole s with
        | Some (scheme, rest) => Some ((if String.eqb rest whole then "" else String c scheme), rest)
        | None => None
        end
      else if is_digit c || contains_char c "+-." then
        if first then Some ("", whole)
        else match getScheme_go false whole s with
             | Some (scheme, rest) => Some ((if String.eqb rest whole then "" else String c scheme), rest)
             | None => None
             end
      else if Ascii.eqb c ":" then if first then None else Some ("", s)
      else Some ("", whole)
  end.

Definition getScheme (raw : string) : option (string * string) := getScheme_go true raw raw.

(** [shouldEscape] and [validEncoded] of [net/url] on a path. *)
Definition unescaped (c : ascii) : bool := is_letter c || is_digit c || contains_char c "-_.~$&+,/:;=@".
Definition encoded_char (c : ascii) : bool := unescaped c || contains_char c "!'()*[]%".

Definition upper_hex (n : Z) : ascii := ascii_of_nat (Z.to_nat (if n <? 10 then 48 + n else 55 + n)).

Fixpoint escape (s : string) : string :=
  match s with
  | EmptyString => EmptyString
  | String c s =>
      if unescaped c then String c (escape s)
      else String "%" (String (upper_hex (code c / 16)) (String (upper_hex (code c mod 16)) (escape s)))
  end.

(** [setPath] and [EscapedPath]: the text of the path, when it is an encoding of what it decodes to; else its own. *)
Definition escaped_path (p : string) : option string :=
  path ← PathUnescape p;
  Some (if String.eqb p (escape path) || all_chars encoded_char p then p else escape path).

Section Front.
(** Which authorities [net/url] takes, the socket of an absolute URI. *)
Context (authority_ok : string → bool).
Context `{J : Jwt} (fields_len : string → string → Z → option Z → list string → Z).

(** [url.ParseRequestURI], down to the escaped path the mux reads. *)
Definition ParseRequestURI (raw : string) : option string :=
  if negb (all_chars (λ c, negb (is_ctl c)) raw) || String.eqb raw "" then None
  else if String.eqb raw "*" then Some "*"
  else
    '(scheme, rest) ← getScheme raw;
    let rest := (Cut rest "?").1.1 in
    if negb (HasPrefix rest "/") then if String.eqb scheme "" then None else Some ""
    else if negb (String.eqb scheme "") && HasPrefix rest "//" then
      let authority := (Cut (drop_s 2 rest) "/").1.1 in
      if authority_ok authority then escaped_path (drop_s (2 + String.length authority) rest) else None
    else escaped_path rest.

(** [requestLine]: the method, and the escaped path of the target. *)
Definition requestLine (head : string) : option (string * string) :=
  match Cut head crlf with
  | (line, _, true) =>
      match Cut line " " with
      | (method, rest, true) =>
          match Cut rest " " with
          | (uri, proto, true) =>
              if negb (validMethod method) || negb (ParseHTTPVersion proto) then None
              else
                let authority := String.eqb method "CONNECT" && negb (HasPrefix uri "/") in
                path ← ParseRequestURI (if authority then "http://" +:+ uri else uri); Some (method, path)
          | _ => None
          end
      | _ => None
      end
  | _ => None
  end.

(** ** The decision *)

Inductive decision : Type :=
| Allowed (c : claims)
| Refused (reason : string)
| Forbidden (c : claims) (need : option string).

(** The token of a head: what follows the scheme of its [Authorization]. *)
Definition bearer (head : string) : option string :=
  match headerFields head with
  | None => None
  | Some h =>
      match Cut (Header_Get h "Authorization") " " with
      | (scheme, token, true) => if EqualFoldASCII scheme "Bearer" then Some (TrimSpace token) else None
      | _ => None
      end
  end.

(** [authorize]: the view of the ledger is brought up to date only for a token that verifies. *)
Definition authorize (key : string) (now : Z) (d : option ledger_file) (l : ledger) (head method path : string) : ledger * decision :=
  match bearer head with
  | None => (l, Refused "no valid token")
  | Some token =>
      match verify key now token with
      | Err _ => (l, Refused "no valid token")
      | Ok c =>
          match refresh fields_len d l with
          | (l', Err _) => (l', Refused "the ledger is unavailable")
          | (l', Ok _) =>
              (l', match lookup_jti l' (CID c) with
                   | None => Refused "the token id is not in the ledger"
                   | Some e =>
                       if Revoked e then Refused "the token is revoked"
                       else match scope caps method path with
                            | None => Forbidden c None
                            | Some need => if covers (CScopes c) need then Allowed c else Forbidden c (Some need)
                            end
                   end)
          end
      end
  end.

(** One tick of [guard]: why the stream of a token ends, if it does. *)
Inductive guard_end : Type := GLedger (e : token_error) | GRevoked | GExpired.

Definition guard_tick (now : Z) (d : option ledger_file) (l : ledger) (c : claims) : ledger * option guard_end :=
  if match CExpiresAt c with Some e => e <=? now | None => false end then (l, Some GExpired)
  else
    match refresh fields_len d l with
    | (l', Err e) => (l', Some (GLedger e))
    | (l', Ok _) =>
        (l', match lookup_jti l' (CID c) with
             | None => Some GRevoked
             | Some e => if Revoked e then Some GRevoked else None
             end)
    end.

(** ** One connection *)

Inductive front_event : Type :=
| Answered (text : string)
| Left
| Dialed (ok : bool)
| Upstream (bytes : string).

Definition badRequestLine : string :=
  "{'error':{'code':'invalid_request','message':'the request line does not parse'}}".
Definition unauthorized : string :=
  "{'error':{'code':'unauthorized','message':'the bearer token is missing or invalid; send a valid token in Authorization: Bearer TOKEN'}}".
Definition unrouted : string :=
  "{'error':{'code':'forbidden','message':'no token scope reaches this route over the network; check the method and the path'}}".
Definition forbidden (need : string) : string :=
  "{'error':{'code':'forbidden','message':'the token lacks " +:+ need +:+ "; use a token with " +:+ need +:+ "'}}".
Definition badGateway : string :=
  "{'error':{'code':'internal','message':'the shard daemon does not answer on its socket'}}".

(** [answer]: the bodies above are written with their quotes. *)
Definition quoted (s : string) : string := map_chars (λ c, if Ascii.eqb c "'" then ascii_of_nat 34 else c) s.
Definition answer (status body : string) : string :=
  "HTTP/1.1 " +:+ status +:+ crlf +:+ "Content-Type: application/json" +:+ crlf +:+
  "Content-Length: " +:+ Itoa (Z.of_nat (String.length body) + 1) +:+ crlf +:+ "Connection: close" +:+ blank_line +:+
  quoted body +:+ String LF "".

(** [isSwitchingProtocols]. *)
Definition isSwitchingProtocols (status : string) : bool :=
  match Fields status with _ :: f :: _ => String.eqb f "101" | _ => false end.

(** [proxy]: the bytes that reach the daemon, at most, once the client has sent [rest] after its head. A handshake the
    daemon does not answer with a 101 ends there. *)
Definition proxy (head rest status : string) : string :=
  if isHandshake head then if isSwitchingProtocols status then replayed head +:+ rest else replayed head
  else replayed head +:+ rest.

(** [handle]. *)
Definition handle (key : string) (now : Z) (d : option ledger_file) (l : ledger) (dials : bool) (input status : string)
  : ledger * list front_event :=
  match readHead input with
  | Err _ => (l, [Left])
  | Ok (head, rest) =>
      match requestLine head with
      | None => (l, [Answered (answer "400 Bad Request" badRequestLine); Left])
      | Some (method, path) =>
          match authorize key now d l head method path with
          | (l', Refused _) => (l', [Answered (answer "401 Unauthorized" unauthorized); Left])
          | (l', Forbidden _ None) => (l', [Answered (answer "403 Forbidden" unrouted); Left])
          | (l', Forbidden _ (Some need)) => (l', [Answered (answer "403 Forbidden" (forbidden need)); Left])
          | (l', Allowed c) =>
              (l', Left :: if dials then [Dialed true; Upstream (proxy (stampScopes head (CScopes c)) rest status)]
                           else [Dialed false; Answered (answer "502 Bad Gateway" badGateway)])
          end
      end
  end.

(** ** Theorems *)

(** *** What the daemon reads of the scopes *)

Lemma scope_text s : s ∈ Scopes →
  all_chars (λ c, plain_char c && negb (is_blank c)) s = true ∧ contains_char "," s = false ∧ no_lf s = true ∧ s ≠ "".
Proof.
  assert (forallb (λ s, all_chars (λ c, plain_char c && negb (is_blank c)) s && negb (contains_char "," s) && no_lf s && negb (String.eqb s ""))
    Scopes = true) as H by (vm_compute; reflexivity).
  rewrite forallb_forall in H. rewrite list_elem_of_In. intros Hs%H. rewrite !andb_true_iff, !negb_true_iff in Hs.
  destruct Hs as [[[? ?] ?] ?]. split_and!; try done. by apply String.eqb_neq.
Qed.

Lemma CheckScopes_elem scopes : CheckScopes scopes = Ok tt → Forall (λ s, s ∈ Scopes) scopes.
Proof.
  unfold CheckScopes. rewrite first_err_Ok, Forall_forall. intros H. apply Forall_forall. intros s Hs.
  specialize (H s Hs). simpl in H. destruct (contains Scopes s) eqn:E; [|done]. by apply contains_elem_of.
Qed.

Lemma Join_chars (P : ascii → bool) sep scopes :
  all_chars P sep = true → Forall (λ s, all_chars P s = true) scopes → all_chars P (Join sep scopes) = true.
Proof.
  intros Hsep. induction scopes as [|s scopes IH]; [done|]. rewrite Forall_cons. intros [Hs Hss]. destruct scopes as [|s' ss]; [done|].
  rewrite Join_cons, !all_chars_app, Hs, Hsep. by apply IH.
Qed.

Lemma field_value_plain w : all_chars (λ c, negb (is_blank c)) w = true → field_value w = w.
Proof.
  unfold field_value. destruct w as [|c w]; [done|]. simpl all_chars. rewrite andb_true_iff, negb_true_iff. intros [Hc Hw].
  change (String " " (String c w)) with (" " +:+ String c w). rewrite trim_right_kept by done.
  assert (trim_right_blank w = w) as ->.
  { clear -Hw. induction w as [|d w IH]; [done|]. simpl in Hw. apply andb_true_iff in Hw as [Hd Hw]. apply negb_true_iff in Hd.
    cbn [trim_right_blank all_chars]. rewrite Hd. simpl. by rewrite IH. }
  change (trim_left_blank (String c w) = String c w). cbn [trim_left_blank]. by rewrite Hc.
Qed.

Lemma stamped_back scopes h : CheckScopes scopes = Ok tt → filed h ScopesHeader = [field_value (Join "," scopes)] → stampedScopes h = Some scopes.
Proof.
  intros Hs%CheckScopes_elem Hf. unfold stampedScopes. change (CanonicalHeaderKey ScopesHeader) with ScopesHeader.
  unfold filed in Hf. destruct (first_match _ h) as [[k vs]|]; [|done]. simpl in *. subst vs.
  rewrite field_value_plain; [|apply Join_chars; [done|]; eapply Forall_impl; [exact Hs|]; intros s (H & _)%scope_text;
    eapply all_chars_impl; [|exact H]; intros c; by rewrite andb_true_iff; intros [_ ?]].
  simpl. rewrite (right_id_L [] (++)). f_equal. destruct scopes as [|s scopes]; [done|].
  rewrite Split_Join; [|done|eapply Forall_impl; [exact Hs|]; by intros x (_ & ? & _)%scope_text].
  assert (TrimSpace <$> (s :: scopes) = s :: scopes) as ->.
  { apply fmap_id_Forall. eapply Forall_impl; [exact Hs|]. intros x (H & _)%scope_text. apply TrimSpace_plain.
    eapply all_chars_impl; [|exact H]. intros c. by rewrite andb_true_iff; intros [? _]. }
  apply filter_Forall. eapply Forall_impl; [exact Hs|]. by intros x (_ & _ & _ & ?)%scope_text.
Qed.

(** *** What the daemon reads of the head *)

Lemma Cut_crlf l t : no_lf l = true → Cut (l +:+ crlf +:+ t) crlf = (l, t, true).
Proof.
  intros Hl. induction l as [|c l IH]; [by destruct t|]. rewrite no_lf_cons, andb_true_iff in Hl. destruct Hl as [_ Hl].
  rewrite app_cons. assert (String.prefix crlf (String c (l +:+ crlf +:+ t)) = false) as Hp.
  { apply not_true_iff_false. rewrite prefix_spec. intros [u Hu]. rewrite crlf_app in Hu. injection Hu as _ Hu. destruct l as [|d l].
    - by rewrite app_nil_l in Hu.
    - rewrite app_cons in Hu. injection Hu as -> _. rewrite no_lf_cons, Ascii.eqb_refl in Hl. done. }
  cbn [Cut]. rewrite Hp, (IH Hl). done.
Qed.

Lemma requestLine_first first ls t ls' t' :
  no_lf first = true → requestLine (lines_text (first :: ls) t) = requestLine (lines_text (first :: ls') t').
Proof. intros H. unfold requestLine. simpl. by rewrite !Cut_crlf. Qed.

Definition stamp_line (scopes : list string) : string := ScopesHeader +:+ ": " +:+ Join "," scopes.
Definition close_line : string := "Connection" +:+ ": " +:+ "close".

Lemma stamp_named scopes : hasHeaderName (stamp_line scopes) "Connection" = false.
Proof. unfold hasHeaderName, stamp_line. change (": " +:+ Join "," scopes) with (String ":" (" " +:+ Join "," scopes)). by rewrite Cut_at. Qed.

Lemma no_lf_Join scopes : CheckScopes scopes = Ok tt → no_lf (Join "," scopes) = true.
Proof.
  intros Hs%CheckScopes_elem. unfold no_lf. apply negb_true_iff, contains_char_false, Join_chars; [done|].
  eapply Forall_impl; [exact Hs|]. intros s (_ & _ & H & _)%scope_text. by apply contains_char_false, negb_true_iff.
Qed.

Section Sent.
Context (first : string) (ls : list string) (scopes : list string).
Context (Hw : whole first ls) (Hs : no_lf (Join "," scopes) = true).

Definition kept_lines : list string := filter (λ l, hasHeaderName l ScopesHeader = false) ls.
Definition closed_lines : list string := filter (λ l, hasHeaderName l "Connection" = false) kept_lines.

Lemma stamped_text : stampScopes (lines_text (first :: ls) crlf) scopes = lines_text (first :: kept_lines ++ [stamp_line scopes]) crlf.
Proof. unfold stampScopes. by rewrite replaceHeader_text. Qed.

Lemma stamped_whole : whole first (kept_lines ++ [stamp_line scopes]).
Proof. apply whole_filter; [done| |done]. unfold stamp_line. rewrite !no_lf_app, Hs. done. Qed.

Lemma closed_text : setConnectionClose (lines_text (first :: kept_lines ++ [stamp_line scopes]) crlf) =
  lines_text (first :: closed_lines ++ [stamp_line scopes; close_line]) crlf.
Proof.
  unfold setConnectionClose. rewrite replaceHeader_text by apply stamped_whole. rewrite filter_app. unfold closed_lines.
  assert (filter (λ l, hasHeaderName l "Connection" = false) [stamp_line scopes] = [stamp_line scopes]) as ->
    by (apply filter_Forall; by repeat constructor; apply stamp_named).
  by rewrite <- (assoc_L (++)).
Qed.

Lemma kept_named : Forall (λ l, hasHeaderName l ScopesHeader = false) kept_lines.
Proof. apply Forall_forall. by intros l [? _]%list_elem_of_filter. Qed.

Lemma closed_named : Forall (λ l, hasHeaderName l "Connection" = false) (closed_lines ++ [stamp_line scopes]).
Proof.
  apply Forall_app. split; [|by repeat constructor; apply stamp_named]. apply Forall_forall. by intros l [? _]%list_elem_of_filter.
Qed.

Lemma closed_whole : whole first (closed_lines ++ [stamp_line scopes; close_line]).
Proof.
  destruct stamped_whole as [H1 H2]. split; [done|]. rewrite Forall_app in *. destruct H2 as [H2 H3]. split.
  - rewrite Forall_forall in *. intros l [_ Hl]%list_elem_of_filter. auto.
  - apply Forall_cons in H3 as [H3 _]. apply Forall_cons. split; [done|]. by apply Forall_singleton.
Qed.

(** The lines after the request line that reach the daemon. *)
Definition sent_lines : list string :=
  if isHandshake (lines_text (first :: kept_lines ++ [stamp_line scopes]) crlf) then kept_lines ++ [stamp_line scopes]
  else closed_lines ++ [stamp_line scopes; close_line].

Lemma sent_text : replayed (stampScopes (lines_text (first :: ls) crlf) scopes) = lines_text (first :: sent_lines) crlf.
Proof. unfold replayed, sent_lines. rewrite stamped_text. destruct (isHandshake _); [done|]. apply closed_text. Qed.

Lemma sent_whole : whole first sent_lines.
Proof. unfold sent_lines. destruct (isHandshake _); [apply stamped_whole|apply closed_whole]. Qed.

(** The daemon finds the scopes the front wrote and no others, and takes the connection over only where the front left it
    the handshake. *)
Lemma sent_header h : ReadMIMEHeader sent_lines = Some h →
  filed h ScopesHeader = [field_value (Join "," scopes)] ∧ (handshake h = true ∨ filed h "Connection" = ["close"]).
Proof.
  unfold sent_lines. destruct (isHandshake _) eqn:Eh; intros H; split.
  - eapply (mime_own ScopesHeader _ _ _ kept_lines []); [apply kept_named|done|done|exact H].
  - left. unfold isHandshake, headerFields in Eh.
    pose proof (read_request_text first _ "" (proj1 stamped_whole) (proj2 stamped_whole)) as E. rewrite app_nil_r in E.
    rewrite E, H in Eh. done.
  - eapply (mime_own ScopesHeader _ _ _ closed_lines [close_line]); [|by repeat constructor|done|exact H].
    pose proof kept_named as Hk. rewrite Forall_forall in *. intros l [_ Hl]%list_elem_of_filter. auto.
  - right. change (stamp_line scopes :: [close_line]) with ([stamp_line scopes] ++ [close_line]) in H. rewrite (assoc_L (++)) in H.
    eapply (mime_own "Connection" _ _ _ (closed_lines ++ [stamp_line scopes]) []) in H; [done|apply closed_named|done|done].
  Unshelve. all: done.
Qed.

End Sent.

(** *** One connection *)

Lemma authorize_allowed key now d l head method path l' c :
  authorize key now d l head method path = (l', Allowed c) →
  ∃ token e need, bearer head = Some token ∧ verify key now token = Ok c ∧ refresh fields_len d l = (l', Ok tt) ∧
    lookup_jti l' (CID c) = Some e ∧ Revoked e = false ∧ scope caps method path = Some need ∧ covers (CScopes c) need = true.
Proof.
  unfold authorize. destruct (bearer head) as [token|]; [|done]. destruct (verify key now token) as [c'|] eqn:Ev; [|done].
  destruct (refresh fields_len d l) as [l1 [[]|]] eqn:Er; [|done].
  destruct (lookup_jti l1 (CID c')) as [e|] eqn:El; [|done]. destruct (Revoked e) eqn:Erv; [done|].
  destruct (scope caps method path) as [need|] eqn:Es; [|done]. destruct (covers (CScopes c') need) eqn:Ec; [|done].
  intros [= -> ->]. by exists token, e, need.
Qed.

Lemma handle_upstream key now d l dials input status l' evs bytes :
  handle key now d l dials input status = (l', evs) → Upstream bytes ∈ evs →
  ∃ head rest method path c, readHead input = Ok (head, rest) ∧ requestLine head = Some (method, path) ∧
    authorize key now d l head method path = (l', Allowed c) ∧ bytes = proxy (stampScopes head (CScopes c)) rest status.
Proof.
  unfold handle. destruct (readHead input) as [[head rest]|] eqn:Eh; [|intros [= <- <-]; set_solver].
  destruct (requestLine head) as [[method path]|] eqn:El; [|intros [= <- <-]; set_solver].
  destruct (authorize key now d l head method path) as [l1 [c|r|c [need|]]] eqn:Ea; [|intros [= <- <-]; set_solver..].
  intros [= <- <-] Hb. exists head, rest, method, path, c. destruct dials; set_solver.
Qed.

(** The claims are ones [newClaims] makes, for any subject, scopes and life. *)
Definition minted (c : claims) : Prop := ∃ raw at_ sub scopes ttl, newClaims raw at_ sub scopes ttl = Ok c.

Lemma minted_scopes c : minted c → CheckScopes (CScopes c) = Ok tt.
Proof.
  intros (raw & at_ & sub & scopes & ttl & H). unfold newClaims in H. destruct (String.eqb sub ""); [done|]. destruct (ttl <? 0); [done|].
  destruct (CheckScopes _) as [[]|] eqn:E; [|done]. by injection H as <-.
Qed.

(** C11: Nothing reaches the daemon over the network but what its token allows, and the daemon cannot be made to read it
    otherwise. For the bytes of a connection that reach the daemon socket: they follow a token that verifies under the
    signing key, is listed in the ledger as the front has just refreshed it and is not revoked there; the request they
    carry runs a public route whose scope the token covers. For a token whose scopes have no line break in them, as no
    minted one has: the daemon reads the request line the front judged and one header of scopes, the front's own, whatever
    header the client forged; the body begins where the front stopped reading; and unless the request is a WebSocket
    handshake for the daemon too, it is the last of its connection. For a token that was minted, whose scopes a mint
    checks and [verify] does not, the scopes the daemon finds are exactly those of the token; one with a comma in a scope,
    which only the holder of the key could sign, would be read as more. *)
Theorem front_passes key now d l dials input status l' evs bytes :
  handle key now d l dials input status = (l', evs) → Upstream bytes ∈ evs →
  ∃ head rest token c e method path r,
    input = head +:+ rest ∧ bearer head = Some token ∧ verify key now token = Ok c ∧
    refresh fields_len d l = (l', Ok tt) ∧ lookup_jti l' (CID c) = Some e ∧ Revoked e = false ∧
    requestLine head = Some (method, path) ∧ dispatch method path = Some r ∧ RClass r = Public ∧ covers (CScopes c) (RScope r) = true ∧
    (minted c → no_lf (Join "," (CScopes c)) = true) ∧
    (no_lf (Join "," (CScopes c)) = true →
     requestLine bytes = Some (method, path) ∧
     ∀ line h body, read_request bytes = Some (line, h, body) →
       filed h ScopesHeader = [field_value (Join "," (CScopes c))] ∧ (minted c → stampedScopes h = Some (CScopes c)) ∧
       (body = rest ∨ handshake h = true ∧ body = "") ∧ (handshake h = true ∨ filed h "Connection" = ["close"])).
Proof.
  intros Hh Hb. destruct (handle_upstream _ _ _ _ _ _ _ _ _ _ Hh Hb) as (head & rest & method & path & c & Ehead & Eline & Ea & ->).
  apply authorize_allowed in Ea as (token & e & need & ? & ? & ? & ? & ? & Escope & Hcov).
  rewrite scope_agrees in Escope. destruct (dispatch method path) as [r|] eqn:Ed; [|done].
  destruct (String.eqb_spec (RClass r) Public) as [Hp|]; [|done]. injection Escope as <-.
  destruct (readHead_spec _ _ _ Ehead) as (Hin & _ & first & ls & Hw & ->).
  exists (lines_text (first :: ls) crlf), rest, token, c, e, method, path, r. split_and!; try done.
  { intros Hm. by apply no_lf_Join, minted_scopes. }
  intros Hs. pose proof (sent_whole first ls (CScopes c) Hw Hs) as [Hf Hls].
  assert (∃ t, proxy (stampScopes (lines_text (first :: ls) crlf) (CScopes c)) rest status =
    lines_text (first :: sent_lines first ls (CScopes c)) (crlf +:+ t) ∧
    (t = rest ∨ isHandshake (stampScopes (lines_text (first :: ls) crlf) (CScopes c)) = true ∧ t = "")) as (t & -> & Ht).
  { unfold proxy. rewrite sent_text by done. destruct (isHandshake _); [destruct (isSwitchingProtocols status)|].
    - exists rest. rewrite lines_text_end. auto.
    - exists "". rewrite app_nil_r. auto.
    - exists rest. rewrite lines_text_end. auto. }
  split; [by rewrite <- Eline; apply requestLine_first, Hw|].
  intros line h body E. rewrite read_request_text in E by done.
  destruct (ReadMIMEHeader (sent_lines first ls (CScopes c))) as [h'|] eqn:Em; [|done]. cbn [mbind option_bind] in E. injection E as <- <- <-.
  destruct (sent_header first ls (CScopes c) Hw Hs h' Em) as [Hst Hcl]. split_and!; [done|intros Hm; apply stamped_back; [by apply minted_scopes|done]| |done].
  destruct Ht as [->|[Hk ->]]; [by left|]. right. split; [|done]. rewrite stamped_text in Hk by done.
  unfold sent_lines in Em. rewrite Hk in Em. unfold isHandshake, headerFields in Hk.
  pose proof (read_request_text first _ "" (proj1 (stamped_whole first ls (CScopes c) Hw Hs)) (proj2 (stamped_whole first ls (CScopes c) Hw Hs))) as E.
  rewrite app_nil_r in E. rewrite E, Em in Hk. done.
Qed.

(** C28: A revoked token is let in no more, and its open streams end. Once the revocation has landed, and for any view the
    front took of the ledger before, the front admits no request under the token, and the next tick of the guard ends a
    stream that was let in before; whatever was minted or revoked around it, as long as the token id is not minted again
    and the time or the size of the file gives the change away ([told_apart]: the front reads the file again only when
    one of them differs, so within one tick of the clock of the file the records minted must not take as many bytes
    as there are tokens revoked). From the token's expiry on, with any ledger and any view, the same: no request is
    admitted and every tick ends the stream. *)
Theorem revoked_stops key now f os1 w c d n os2 f' l head method path :
  view_of fields_len f l → RevokeToken w (CID c) (run_ops key os1 (Some f)) = (d, n, Ok tt) →
  run_ops key os2 d = Some f' → Forall (λ o, mints (CID c) o = false) os2 → told_apart fields_len f f' →
  (authorize key now (Some f') l head method path).2 ≠ Allowed c ∧ (guard_tick now (Some f') l c).2 ≠ None ∧
  ∀ e later any_file any_view, CExpiresAt c = Some e → e ≤ later →
    (authorize key later any_file any_view head method path).2 ≠ Allowed c ∧ (guard_tick later any_file any_view c).2 = Some GExpired.
Proof.
  intros Hv Hrev Hrun Hm Ht.
  assert (∀ l', refresh fields_len (Some f') l = (l', Ok tt) → ∀ e, lookup_jti l' (CID c) = Some e → Revoked e = true) as Hall
    by (intros; by eapply (revoked_seen key fields_len)).
  split_and!.
  - intros Ha. destruct (authorize key now (Some f') l head method path) as [l' x] eqn:E. simpl in Ha. subst x.
    apply authorize_allowed in E as (token & e & need & _ & _ & Hr & Hl & Hn & _). by rewrite (Hall _ Hr _ Hl) in Hn.
  - unfold guard_tick. case_match; [done|]. destruct (refresh fields_len (Some f') l) as [l' [[]|]]; [|done].
    simpl. destruct (lookup_jti l' (CID c)) as [e|] eqn:El; [|done]. by rewrite (Hall l' eq_refl e El).
  - intros e later any_file any_view Hexp Hle. split.
    + intros Ha. destruct (authorize key later any_file any_view head method path) as [l' x] eqn:E. simpl in Ha. subst x.
      apply authorize_allowed in E as (token & ? & need & _ & Hver & _). unfold verify in Hver.
      destruct (jwt_parse key later token) as [c'|] eqn:Hp; [|done]. assert (c' = c) as -> by (by repeat case_match; simplify_eq).
      pose proof (jwt_in_time _ _ _ _ _ Hp Hexp). lia.
    + unfold guard_tick. rewrite Hexp. by rewrite (proj2 (Z.leb_le _ _) Hle).
Qed.

End Front.

(** ** A connection at work *)

Definition bench_claims : claims := MkClaims [ScopeExec; ScopePortRead] "0b" "ci" (Some 0) None.
Definition bench_ledger : ledger_file := MkLedger [Rec (bench_entry "0b")] ledger_mode true 7.

(** The same library, with a short name for one token. *)
Definition bench_jwt : Jwt.
Proof.
  refine {|
    jwt_sign key c := if decide (key = "key" ∧ c = bench_claims) then "t" else @jwt_sign plain_jwt key c;
    jwt_parse key now t := if String.eqb t "t" then if String.eqb key "key" then Some bench_claims else None else @jwt_parse plain_jwt key now t
  |}.
  - intros key now c Hc. destruct (decide (key = "key" ∧ c = bench_claims)) as [[-> ->]|]; [done|].
    destruct (String.eqb_spec (@jwt_sign plain_jwt key c) "t") as [E|]; [|by apply jwt_reads].
    exfalso. destruct (Itoa_digits (Zpos (encode (key, c)))) as [Hd _]; [lia|]. change (Itoa (Zpos (encode (key, c))) = "t") in E. by rewrite E in Hd.
  - intros key now t c e. destruct (String.eqb t "t"); [|apply jwt_in_time]. destruct (String.eqb key "key"); [|done]. by intros [= <-].
Defined.

Definition bench_request : string :=
  Join crlf ["GET /v0/ports HTTP/1.1"; "x-shard-scopes: *"; "Authorization: Bearer t"] +:+ blank_line +:+ "GET /v0/images".

Definition bench_handle : ledger * list front_event :=
  @handle (λ _, true) bench_jwt bench_len "key" 5 (Some bench_ledger) no_view true bench_request "".

Definition sent_bytes (evs : list front_event) : string := match evs with [_; _; Upstream b] => b | _ => "" end.

Definition read_scopes (bytes : string) : option (list string) :=
  match read_request bytes with Some (_, h, _) => stampedScopes h | None => None end.

Lemma bench_minted : minted bench_claims.
Proof. exists [11], 0, "ci", [ScopeExec; ScopePortRead], 0. vm_compute. reflexivity. Qed.

(** A client that asks for every right and pipelines a request to a local route behind its own. *)
Lemma front_passes_witness :
  read_scopes (sent_bytes bench_handle.2) = Some [ScopeExec; ScopePortRead] ∧
  ∃ head rest token c e method path r,
    bench_request = head +:+ rest ∧ bearer head = Some token ∧ @verify bench_jwt "key" 5 token = Ok c ∧
    refresh bench_len (Some bench_ledger) no_view = (bench_handle.1, Ok tt) ∧ lookup_jti bench_handle.1 (CID c) = Some e ∧ Revoked e = false ∧
    requestLine (λ _, true) head = Some (method, path) ∧ dispatch method path = Some r ∧ RClass r = Public ∧
    covers (CScopes c) (RScope r) = true ∧
    (minted c → ∀ line h body, read_request (sent_bytes bench_handle.2) = Some (line, h, body) → stampedScopes h = Some (CScopes c)).
Proof.
  split; [vm_compute; reflexivity|].
  destruct (@front_passes (λ _, true) bench_jwt bench_len "key" 5 (Some bench_ledger) no_view true
    bench_request "" bench_handle.1 bench_handle.2 (sent_bytes bench_handle.2)
    (surjective_pairing bench_handle))
    as (head & rest & token & c & e & method & path & r & H1 & H2 & H3 & H4 & H5 & H6 & H7 & H8 & H9 & H10 & H11 & H12).
  - apply list_elem_of_In. vm_compute. right. right. left. reflexivity.
  - exists head, rest, token, c, e, method, path, r. exact (conj H1 (conj H2 (conj H3 (conj H4 (conj H5 (conj H6 (conj H7 (conj H8 (conj H9 (conj H10
      (λ Hm line h body E, proj1 (proj2 (proj2 (H12 (H11 Hm)) line h body E)) Hm))))))))))).
Defined.

Definition bench_c : claims := MkClaims [ScopeAll] "b" "ci" (Some 0) (Some 9).

Lemma revoked_stops_witness :
  (@guard_tick bench_len 5 (Some bench_file) bench_view bench_c).2 = None ∧
  (@authorize plain_jwt bench_len "key" 5 (Some bench_after) bench_view "" "GET" "/v0/version").2 ≠ Allowed bench_c ∧
  (@guard_tick bench_len 5 (Some bench_after) bench_view bench_c).2 ≠ None ∧
  (@guard_tick bench_len 9 (Some bench_file) bench_view bench_c).2 = Some GExpired.
Proof.
  split; [reflexivity|].
  destruct (@revoked_stops plain_jwt bench_len "key" 5 bench_file [] bench_tick bench_c (Some bench_after) 1 [] bench_after bench_view
    "" "GET" "/v0/version") as (H1 & H2 & H3).
  - split_and!; [done..|]. by exists [bench_entry "a"; bench_entry "b"].
  - reflexivity.
  - reflexivity.
  - constructor.
  - right. left. reflexivity.
  - split; [exact H1|]. split; [exact H2|]. exact (proj2 (H3 9 9 (Some bench_file) bench_view eq_refl (Z.le_refl 9))).
Defined.
