(* ===== verification/Page.v ===== *)
(** * Pages of a list

    [services/api/page.go]: a list sorted by its key is handed out page by page; the cursor of the next page is the key of
    the last row of this one, so that it is a position even after the row it named is gone. *)

From S2P Require Import Prelude GoStrings.
Local Open Scope Z_scope.

(** Go orders strings by their bytes. *)
Definition str_lt (s t : string) : bool := match String.compare s t with Lt => true | _ => false end.

(** [sort.Search]: the least index of [lo, hi) at which [f] holds, by halving. *)
Fixpoint Search_go (fuel : nat) (f : nat → bool) (lo hi : nat) : nat :=
  match fuel with
  | O => lo
  | S fuel =>
      if (lo <? hi)%nat then
        let h := Nat.div2 (lo + hi) in
        if f h then Search_go fuel f lo h else Search_go fuel f (S h) hi
      else lo
  end.

Definition Search (n : nat) (f : nat → bool) : nat := Search_go n f 0 n.

Record pageQuery : Type := MkPage { limit : Z; cursor : string }.

(** [paged]: a cursor that could be no key of the list is refused. *)
Definition paged (limit : Z) (cursor : string) (shape : string → result string unit) : result string pageQuery :=
  if String.eqb cursor "" then Ok (MkPage limit "")
  else match shape cursor with Err e => Err e | Ok _ => Ok (MkPage limit cursor) end.

(** [pageOf], on the query of a local list. *)
Definition pageOf (raw cursor : string) (shape : string → result string unit) : result string pageQuery :=
  match paged 0 cursor shape with
  | Err e => Err e
  | Ok q =>
      if String.eqb raw "" then Ok q
      else match Atoi raw with
           | Some n => if n <? 1 then Err raw else Ok (MkPage n (Page.cursor q))
           | None => Err raw
           end
  end.

Section Page.
Context {T : Type} (key : T → string).

Definition page (items : list T) (q : pageQuery) : list T * option string :=
  let from := Search (length items) (λ i, match items !! i with Some x => str_lt (cursor q) (key x) | None => false end) in
  let items := drop from items in
  if (limit q =? 0) || (Z.of_nat (length items) <=? limit q) then (items, None)
  else (take (Z.to_nat (limit q)) items, key <$> items !! Z.to_nat (limit q - 1)).

(** A client that asks for page after page, until none is named. *)
Fixpoint walk (fuel : nat) (limit : Z) (cursor : string) (items : list T) : option (list (list T)) :=
  match fuel with
  | O => None
  | S fuel =>
      match page items (MkPage limit cursor) with
      | (rows, None) => Some [rows]
      | (rows, Some next) => match walk fuel limit next items with Some pages => Some (rows :: pages) | None => None end
      end
  end.

End Page.

(** ** Theorems *)

(** A search over [false .. false true .. true] ends at the first [true]. *)
Lemma Search_go_spec f k : ∀ fuel lo hi,
  (lo ≤ k ≤ hi)%nat → (hi - lo ≤ fuel)%nat → (∀ i, (lo ≤ i < hi)%nat → f i = (k <=? i)%nat) → Search_go fuel f lo hi = k.
Proof.
  induction fuel as [|fuel IH]; intros lo hi Hk Hf H; cbn [Search_go]; [lia|].
  destruct (Nat.ltb_spec lo hi); [|lia]. rewrite Nat.div2_div. pose proof (Nat.div_mod (lo + hi) 2 ltac:(lia)).
  pose proof (Nat.mod_upper_bound (lo + hi) 2 ltac:(lia)). set (h := ((lo + hi) / 2)%nat) in *.
  rewrite H by lia. destruct (Nat.leb_spec k h); apply IH; try lia; intros i Hi; apply H; lia.
Qed.

Lemma Search_spec n f k : (k ≤ n)%nat → (∀ i, (i < n)%nat → f i = (k <=? i)%nat) → Search n f = k.
Proof. intros Hk H. apply Search_go_spec; [lia|lia|]. intros i Hi. apply H. lia. Qed.

Lemma str_lt_irrefl s : str_lt s s = false.
Proof. unfold str_lt. pose proof (String.compare_antisym s s) as H. by destruct (String.compare s s). Qed.

Lemma str_lt_asym s t : str_lt s t = true → str_lt t s = false.
Proof. unfold str_lt. rewrite (String.compare_antisym t s). by destruct (String.compare s t). Qed.

Section Walk.
Context {T : Type} (key : T → string).

(** Sorted by its key, with no key twice and none empty. *)
Definition keyed (items : list T) : Prop :=
  StronglySorted (λ x y, str_lt (key x) (key y) = true) items ∧ Forall (λ x, str_lt "" (key x) = true) items.

(** The cursor of a position: empty at the start, else the key of the row before it. *)
Definition cursor_at (pre : list T) : string := match last pre with Some x => key x | None => "" end.

Lemma keyed_app pre post : keyed (pre ++ post) → ∀ x y, x ∈ pre → y ∈ post → str_lt (key x) (key y) = true.
Proof.
  intros [H _]. revert H. induction pre as [|z pre IH]; simpl; [set_solver|]. intros [Hz Hs]%StronglySorted_inv x y Hx Hy.
  apply elem_of_cons in Hx as [->|Hx]; [|by apply (IH Hz x y)]. rewrite Forall_forall in Hs. apply Hs. set_solver.
Qed.

Lemma last_largest pre x : StronglySorted (λ x y, str_lt (key x) (key y) = true) pre → last pre = Some x →
  ∀ y, y ∈ pre → y = x ∨ str_lt (key y) (key x) = true.
Proof.
  intros Hs Hl y Hy. destruct pre as [|z pre' _] using rev_ind; [done|]. rewrite last_snoc in Hl. simplify_eq.
  apply elem_of_app in Hy as [Hy|Hy%list_elem_of_singleton]; [right|by left].
  clear -Hs Hy. induction pre' as [|w pre IH]; [by apply elem_of_nil in Hy|]. simpl in Hs. apply StronglySorted_inv in Hs as [Hs Hw].
  apply elem_of_cons in Hy as [->|Hy]; [|by apply IH]. rewrite Forall_forall in Hw. apply Hw. set_solver.
Qed.

Lemma search_at pre post : keyed (pre ++ post) →
  Search (length (pre ++ post)) (λ i, match (pre ++ post) !! i with Some x => str_lt (cursor_at pre) (key x) | None => false end) = length pre.
Proof.
  intros Hk. apply Search_spec; [rewrite length_app; lia|]. intros i Hi. destruct (Nat.leb_spec (length pre) i).
  - rewrite lookup_app_r by done. rewrite length_app in Hi. destruct (lookup_lt_is_Some_2 post (i - length pre)) as [x Hx]; [lia|].
    rewrite Hx. apply list_elem_of_lookup_2 in Hx. unfold cursor_at. destruct (last pre) as [z|] eqn:El.
    + eapply keyed_app; [done| |done]. by apply last_Some_elem_of.
    + destruct Hk as [_ Hne]. rewrite Forall_forall in Hne. apply Hne. set_solver.
  - rewrite lookup_app_l by done. destruct (lookup_lt_is_Some_2 pre i) as [x Hx]; [done|]. rewrite Hx. apply list_elem_of_lookup_2 in Hx.
    unfold cursor_at. destruct (last pre) as [z|] eqn:El; [|apply last_None in El; subst; by apply elem_of_nil in Hx].
    destruct Hk as [Hs _]. assert (StronglySorted (λ x y, str_lt (key x) (key y) = true) pre) as Hp.
    { clear -Hs. induction pre as [|w pre IH]; [constructor|]. simpl in Hs. apply StronglySorted_inv in Hs as [? Hw].
      constructor; [auto|]. by apply Forall_app in Hw as [? _]. }
    destruct (last_largest pre z Hp El x Hx) as [->|Hl]; [apply str_lt_irrefl|by apply str_lt_asym].
Qed.

Lemma page_at pre post n : keyed (pre ++ post) → 1 ≤ n →
  page key (pre ++ post) (MkPage n (cursor_at pre)) =
  if Z.of_nat (length post) <=? n then (post, None)
  else (take (Z.to_nat n) post, Some (cursor_at (pre ++ take (Z.to_nat n) post))).
Proof.
  intros Hk Hn. unfold page. cbn [limit cursor]. rewrite search_at, drop_app_length by done.
  destruct (Z.eqb_spec n 0); [lia|]. cbn [orb]. destruct (Z.leb_spec (Z.of_nat (length post)) n); [done|]. f_equal.
  destruct (lookup_lt_is_Some_2 post (Z.to_nat (n - 1))) as [x Hx]; [lia|]. rewrite Hx. simpl. f_equal. unfold cursor_at.
  replace (Z.to_nat n) with (S (Z.to_nat (n - 1))) by lia. rewrite (take_S_r _ _ x) by done.
  by rewrite (assoc_L (++)), last_snoc.
Qed.

Lemma walk_at n post : 1 ≤ n → ∀ pre fuel, keyed (pre ++ post) → (length post < fuel)%nat →
  ∃ pages, walk key fuel n (cursor_at pre) (pre ++ post) = Some pages ∧ concat pages = post ∧
    Forall (λ rows, Z.of_nat (length rows) ≤ n) pages.
Proof.
  intros Hn. induction post as [post IH] using (well_founded_induction (Wf_nat.well_founded_ltof _ (@length T))). intros pre fuel Hk Hf. destruct fuel as [|fuel]; [lia|].
  cbn [walk]. rewrite page_at by done. destruct (Z.leb_spec (Z.of_nat (length post)) n).
  - exists [post]. simpl. rewrite (right_id_L [] (++)). split_and!; [done|done|by apply Forall_singleton].
  - set (k := Z.to_nat n). assert (pre ++ post = (pre ++ take k post) ++ drop k post) as E by by rewrite <- (assoc_L (++)), take_drop.
    pose proof (length_drop post k). assert (length (drop k post) < length post)%nat by (unfold k in *; lia).
    destruct (IH (drop k post) ltac:(done) (pre ++ take k post) fuel) as (pages & Hp & Hc & Hl);
      [by rewrite <- E|lia|]. rewrite E, Hp. exists (take k post :: pages). simpl. rewrite Hc, take_drop. split_and!; [done|done|].
    constructor; [|done]. rewrite length_take. unfold k. lia.
Qed.

(** Paging hands out the whole list. A client that follows the cursors of a list sorted by its key, a page of at least
    one row at a time, is through after at most one page per row, and has then been given every row once, in order, with
    no page longer than it asked for. *)
Theorem pages_cover items n : keyed items → 1 ≤ n →
  ∃ pages, walk key (S (length items)) n "" items = Some pages ∧ concat pages = items ∧
    Forall (λ rows, Z.of_nat (length rows) ≤ n) pages.
Proof. intros Hk Hn. by apply (walk_at n items Hn [] (S (length items))); [|lia]. Qed.

End Walk.

Lemma pages_cover_witness :
  page (λ s, s) ["ant"; "bee"; "cat"; "dog"; "elk"] (MkPage 2 "bird") = (["cat"; "dog"], Some "dog") ∧
  ∃ pages, walk (λ s, s) 6 2 "" ["ant"; "bee"; "cat"; "dog"; "elk"] = Some pages ∧ concat pages = ["ant"; "bee"; "cat"; "dog"; "elk"] ∧
    Forall (λ rows, Z.of_nat (length rows) ≤ 2) pages.
Proof.
  split; [vm_compute; reflexivity|]. refine (pages_cover (λ s, s) ["ant"; "bee"; "cat"; "dog"; "elk"] 2 _ _); [|lia].
  split; repeat constructor.
Defined.
