(* ===== verification/Size.v ===== *)
(** * Sizes in flags

    [pkg/size/size.go]: a size in whole MiB, read with a unit and written in the largest that is whole. *)

From S2P Require Import Prelude GoStrings.
Local Open Scope Z_scope.

Definition MiB : Z := 2 ^ 20.

Definition units (suffix : string) : option Z :=
  if String.eqb suffix "KiB" then Some (2 ^ 10)
  else if String.eqb suffix "MiB" then Some MiB
  else if String.eqb suffix "GiB" then Some (2 ^ 30)
  else if String.eqb suffix "KB" then Some 1000
  else if String.eqb suffix "MB" then Some 1000000
  else if String.eqb suffix "GB" then Some 1000000000
  else None.

(** The digits a text starts with, and what [strings.TrimLeft] leaves of it. *)
Fixpoint span_digits (s : string) : string * string :=
  match s with
  | EmptyString => ("", "")
  | String c s' => if is_digit c then let '(d, r) := span_digits s' in (String c d, r) else ("", s)
  end.

Inductive size_error : Type := ENegative | ENoNumber | EFraction | EUnit (s : string) | ENeedsUnit | ETooLarge.

(** [strconv.ParseInt] of digits, in 64 bits. *)
Definition ParseInt64 (s : string) : option Z :=
  match parse_digits s with Some n => if n <=? max_int64 then Some n else None | None => None end.

Definition ParseMiB (value : string) : result size_error Z :=
  if HasPrefix value "-" then Err ENegative
  else
    let '(number, suffix) := span_digits value in
    if String.eqb number "" then Err ENoNumber
    else if HasPrefix suffix "." || HasPrefix suffix "," then Err EFraction
    else
      match units suffix with
      | None =>
          if negb (String.eqb suffix "") then Err (EUnit suffix)
          else if all_chars (λ c, Ascii.eqb c "0") number then Ok 0 else Err ENeedsUnit
      | Some unit =>
          match ParseInt64 number with
          | None => Err ETooLarge
          | Some n =>
              if unit =? MiB then Ok n
              else if max_int64 / unit <? n then Err ETooLarge
              else Ok (let bytes := n * unit in if bytes mod MiB =? 0 then bytes / MiB else bytes / MiB + 1)
          end
      end.

Definition Format (mib : Z) : string :=
  if negb (mib =? 0) && (Z.rem mib 1024 =? 0) then Itoa (Z.quot mib 1024) +:+ "GiB" else Itoa mib +:+ "MiB".

(** [Show]: a space before the unit. *)
Definition Show_ (mib : Z) : string :=
  let f := Format mib in
  take_s (String.length f - 3) f +:+ " " +:+ drop_s (String.length f - 3) f.

(** ** Theorems *)

Lemma span_digits_app s t : all_chars is_digit s = true → match t with String c _ => is_digit c = false | _ => True end →
  span_digits (s +:+ t) = (s, t).
Proof.
  intros Hs Ht. induction s as [|c s IH].
  - rewrite app_nil_l. destruct t as [|c t]; [done|]. simpl. by rewrite Ht.
  - simpl in Hs. apply andb_true_iff in Hs as [Hc Hs]. rewrite app_cons. cbn [span_digits]. rewrite Hc, IH by done. done.
Qed.

Lemma ParseMiB_unit n suffix unit :
  0 ≤ n → suffix = "MiB" ∧ unit = MiB ∨ suffix = "GiB" ∧ unit = 2 ^ 30 →
  ParseMiB (Itoa n +:+ suffix) =
  if max_int64 <? n then Err ETooLarge
  else if unit =? MiB then Ok n
  else if max_int64 / unit <? n then Err ETooLarge else Ok (n * 1024).
Proof.
  intros Hn Hu. destruct (Itoa_digits n Hn) as [Hd Hne]. unfold ParseMiB.
  assert (HasPrefix (Itoa n +:+ suffix) "-" = false) as ->.
  { destruct (Itoa n) as [|c s]; [done|]. rewrite app_cons. simpl in Hd. apply andb_true_iff in Hd as [Hc _].
    unfold HasPrefix. cbn [String.prefix]. destruct (ascii_dec "-" c) as [<-|]; [by vm_compute in Hc|done]. }
  rewrite span_digits_app by (try done; by destruct Hu as [[-> _]|[-> _]]). apply String.eqb_neq in Hne. rewrite Hne.
  unfold ParseInt64. rewrite parse_digits_Itoa by done.
  destruct Hu as [[-> ->]|[-> ->]].
  - change (HasPrefix "MiB" "." || HasPrefix "MiB" ",") with false. change (units "MiB") with (Some MiB). cbv iota beta.
    rewrite Z.leb_antisym, Z.eqb_refl. by destruct (max_int64 <? n).
  - change (HasPrefix "GiB" "." || HasPrefix "GiB" ",") with false. change (units "GiB") with (Some (2 ^ 30)). cbv iota beta.
    rewrite Z.leb_antisym. change (2 ^ 30 =? MiB) with false. destruct (max_int64 <? n); [done|]. cbn [negb].
    destruct (max_int64 / 2 ^ 30 <? n); [done|]. cbv zeta.
    replace (n * 2 ^ 30) with (n * 1024 * MiB) by (unfold MiB; lia). rewrite Z.mod_mul, Z.div_mul by done. done.
Qed.

(** A size that is written is read back, up to the largest a count of bytes holds: every one below 2^43 MiB, and above
    it every one that is not whole GiB. From 2^43 MiB on, a whole number of GiB is written as a text that is refused. *)
Theorem ParseMiB_Format mib : 0 ≤ mib ≤ max_int64 →
  ParseMiB (Format mib) = if (2 ^ 43 <=? mib) && (mib mod 1024 =? 0) then Err ETooLarge else Ok mib.
Proof.
  intros Hm. unfold Format. rewrite Z.rem_mod_nonneg by lia. destruct (Z.eqb_spec mib 0) as [->|Hz]; [vm_compute; reflexivity|].
  cbn [negb andb]. destruct (Z.eqb_spec (mib mod 1024) 0) as [Hd|Hd].
  - rewrite Z.quot_div_nonneg by lia. pose proof (Z.div_mod mib 1024 ltac:(lia)) as Hdm.
    pose proof (Z.div_pos mib 1024 ltac:(lia) ltac:(lia)). rewrite (ParseMiB_unit _ "GiB" (2 ^ 30)) by auto.
    destruct (Z.ltb_spec max_int64 (mib / 1024)); [lia|]. change (2 ^ 30 =? MiB) with false.
    change (max_int64 / 2 ^ 30) with 8589934591. rewrite andb_true_r.
    destruct (Z.ltb_spec 8589934591 (mib / 1024)); destruct (Z.leb_spec (2 ^ 43) mib); try lia; [done|]. f_equal. lia.
  - rewrite (ParseMiB_unit _ "MiB" MiB) by (lia || auto). destruct (Z.ltb_spec max_int64 mib); [lia|].
    rewrite Z.eqb_refl, andb_false_r. done.
Qed.

Lemma ParseMiB_Format_witness :
  ParseMiB (Format 1536) = Ok 1536 ∧ Format 2048 = "2GiB" ∧ Show_ 2048 = "2 GiB" ∧
  ParseMiB "8796093022208MiB" = Ok 8796093022208 ∧ ParseMiB (Format 8796093022208) = Err ETooLarge.
Proof.
  split; [exact (ParseMiB_Format 1536 ltac:(unfold max_int64; lia))|]. split_and!; [vm_compute; reflexivity..|].
  exact (ParseMiB_Format 8796093022208 ltac:(unfold max_int64; lia)).
Defined.
