(* ===== verification/EgressPolicy.v ===== *)
(** * Egress policies

    [services/egress/policy.go]: what a policy may say, how the CLI spells a rule, and the store of
    one JSON file per policy. *)

From S2P Require Import Prelude GoStrings Netip Models Store Secret Network.
Local Open Scope Z_scope.

Definition maxRules : nat := 256.
Definition maxPorts : Z := 1024.
Definition webPorts : list Z := [80; 443].
Definition GroupAny := "any".
Definition GroupDNS := "dns".

Inductive rule_error : Type :=
| EAction
| EProtocol
| EPortsNeedProtocol
| EPortOutOfRange (port : Z)
| ETooManyPorts
| ENotAddress
| ENotIPv4
| EUnknownGroup
| EDnsNotAllow
| EHostName (e : destination_error)
| ESuffixWildcard
| ENameProtocol
| ENameNoPorts
| ENamePort (port : Z)
| EUnknownKind
| ENotRule
| EPrivateRanges
| EOldSyntax
| EPortNotNumber
| EPortsBackwards
| ERangeTooWide
| ENamesTooMany.

Inductive policy_error : Type :=
| ENameIsEmpty
| ENameTooLong
| ENameNotShaped
| ETooManyRules (n : nat)
| EBadRule (i : nat) (e : rule_error)
| EPolicyNotFound (name : string)
| EPolicyRead
| EPolicyDecode
| EPolicyWrite
| EPolicyRemove
| EPolicyStored (e : policy_error).

(** ** Names *)

Definition policy_head (c : ascii) : bool := is_lower c || is_digit c.
Definition policy_tail (c : ascii) : bool := policy_head c || Ascii.eqb c "-".

Definition policyNameShape (s : string) : bool :=
  match s with EmptyString => false | String c rest => policy_head c && all_chars policy_tail rest end.

Definition PolicyValidName (name : string) : result policy_error unit :=
  if String.eqb name "" then Err ENameIsEmpty
  else if (64 <? String.length name)%nat then Err ENameTooLong
  else if negb (policyNameShape name) then Err ENameNotShaped
  else Ok tt.

(** ** Rules *)

(** [named] says the rule matches a host name, which only the proxy can see. *)
Definition named (kind : DestinationKind) : bool :=
  bool_decide (kind = DestinationDomain) || bool_decide (kind = DestinationDomainSuffix).

Definition opensDNS (rule : Rule) : bool :=
  if named (DKind (RDestination rule)) then true
  else bool_decide (RAction rule = ActionAllow)
       && bool_decide (DKind (RDestination rule) = DestinationGroup)
       && String.eqb (DValue (RDestination rule)) GroupDNS.

Definition OpensDNS (policy : Policy) : bool := existsb opensDNS (PRules policy).

Definition parseCIDR (value : string) : result rule_error Prefix :=
  match (match ParsePrefix value with
         | Some prefix => Some prefix
         | None => addr ← ParseAddr value; Some (PrefixFrom addr (BitLen addr))
         end) with
  | None => Err ENotAddress
  | Some prefix => if negb (Is4 (paddr prefix)) then Err ENotIPv4 else Ok (Masked prefix)
  end.

Section Policy.
Context `{U : Unicode}.

Definition validHostValue (dest : Destination) : result rule_error unit :=
  let valid := match ValidDestination (DValue dest) with Err e => Err (EHostName e) | Ok _ => Ok tt end in
  if negb (Contains (DValue dest) "*") then valid
  else if bool_decide (DKind dest = DestinationDomainSuffix) then Err ESuffixWildcard
  else if String.eqb (DValue dest) "*" then Ok tt
  else valid.

Definition validDestination (rule : Rule) : result rule_error unit :=
  let dest := RDestination rule in
  match DKind dest with
  | DestinationCIDR => match parseCIDR (DValue dest) with Err e => Err e | Ok _ => Ok tt end
  | DestinationGroup =>
      if negb (bool_decide (is_Some (Groups (DValue dest)))) then Err EUnknownGroup
      else if String.eqb (DValue dest) GroupDNS && negb (bool_decide (RAction rule = ActionAllow)) then Err EDnsNotAllow
      else Ok tt
  | DestinationDomain | DestinationDomainSuffix =>
      match validHostValue dest with
      | Err e => Err e
      | Ok _ =>
          if negb (String.eqb (RProtocol rule) "tcp") then Err ENameProtocol
          else if bool_decide (RPorts rule = []) then Err ENameNoPorts
          else first_err (λ port, if negb (contains webPorts port) then Err (ENamePort port) else Ok tt) (RPorts rule)
      end
  | DestinationOther _ => Err EUnknownKind
  end.

Definition known_protocol (p : string) : bool := String.eqb p "" || String.eqb p "tcp" || String.eqb p "udp".

Definition validRule (rule : Rule) : result rule_error unit :=
  if negb (bool_decide (RAction rule = ActionAllow)) && negb (bool_decide (RAction rule = ActionDeny)) then Err EAction
  else if negb (known_protocol (RProtocol rule)) then Err EProtocol
  else if String.eqb (RProtocol rule) "" && negb (bool_decide (RPorts rule = [])) then Err EPortsNeedProtocol
  else match first_err (λ port, if (port <? 1) || (65535 <? port) then Err (EPortOutOfRange port) else Ok tt)
                       (RPorts rule) with
       | Err e => Err e
       | Ok _ => if maxPorts <? Z.of_nat (length (RPorts rule)) then Err ETooManyPorts else validDestination rule
       end.

Fixpoint valid_rules (i : nat) (rules : list Rule) : result policy_error unit :=
  match rules with
  | [] => Ok tt
  | rule :: rules =>
      match validRule rule with
      | Err e => Err (EBadRule i e)
      | Ok _ => valid_rules (S i) rules
      end
  end.

Definition Validate (policy : Policy) : result policy_error unit :=
  match PolicyValidName (PName policy) with
  | Err e => Err e
  | Ok _ =>
      if (maxRules <? length (PRules policy))%nat then Err (ETooManyRules (length (PRules policy)))
      else valid_rules 1 (PRules policy)
  end.

(** ** Reading a rule as the CLI spells it *)

Definition canonicalHost (dest : Destination) : Destination :=
  if named (DKind dest) then MkDestination (DKind dest) (CanonicalHost (DValue dest)) else dest.

Definition parseDestination (text : string) : result rule_error Destination :=
  if String.eqb text GroupAny || String.eqb text GroupDNS then Ok (MkDestination DestinationGroup text)
  else if String.eqb text "private" || String.eqb text "group:private" then Err EPrivateRanges
  else if bool_decide (is_Some (ParseAddr text)) then Ok (MkDestination DestinationCIDR text)
  else if bool_decide (is_Some (ParsePrefix text)) then Ok (MkDestination DestinationCIDR text)
  else match CutPrefix text "suffix:" with
       | Some value => Ok (MkDestination DestinationDomainSuffix value)
       | None =>
           let '(kind, _, found) := Cut text ":" in
           if found && contains ["cidr"; "domain"; "domain-suffix"; "group"] kind then Err EOldSyntax
           else Ok (MkDestination DestinationDomain text)
       end.

Definition parsePort (text : string) : result rule_error Z :=
  match Atoi text with
  | None => Err EPortNotNumber
  | Some n => if (n <? 1) || (65535 <? n) then Err (EPortOutOfRange n) else Ok n
  end.

Definition portRange (part : string) : result rule_error (Z * Z) :=
  let '(first, last, isRange) := Cut part "-" in
  let last := if isRange then last else first in
  from ← parsePort first;
  to ← parsePort last;
  if to <? from then Err EPortsBackwards else Ok (from, to).

Fixpoint ports_go (count : Z) (ports : list Z) (parts : list string) : result rule_error (list Z) :=
  match parts with
  | [] => Ok ports
  | part :: parts =>
      '(from, to) ← portRange part;
      if maxPorts <? to - from + 1 then Err ERangeTooWide
      else
        let count := count + (to - from + 1) in
        if maxPorts <? count then Err ENamesTooMany
        else ports_go count (ports ++ seqZ from (to - from + 1)) parts
  end.

Definition parsePorts (text : string) : result rule_error (list Z) :=
  if String.eqb text "" then Ok []
  else ports ← ports_go 0 [] (Split "," text); Ok (Compact (SortZ ports)).

Definition ParseRule (action : Action) (text : string) : result rule_error Rule :=
  let fields := Fields text in
  match fields with
  | [] => Err ENotRule
  | dest_text :: rest =>
      if (2 <? length fields)%nat then Err ENotRule
      else
        dest ← parseDestination dest_text;
        '(protocol, ports) ←
          match rest with
          | [] => Ok ("", [])
          | spec :: _ =>
              let '(proto, ports, _) := Cut spec ":" in
              parsed ← parsePorts ports; Ok (proto, parsed)
          end;
        let protocol := if named (DKind dest) && String.eqb protocol "" then "tcp" else protocol in
        let ports := if named (DKind dest) && String.eqb protocol "tcp" && bool_decide (ports = []) then webPorts else ports in
        let rule := MkRule action dest protocol ports in
        _ ← validRule rule;
        Ok (MkRule action (canonicalHost dest) protocol ports)
  end.

(** [FormatRule] without the action it begins with: the text [ParseRule] takes. *)
Definition FormatBody (rule : Rule) : string :=
  let dest := if bool_decide (DKind (RDestination rule) = DestinationDomainSuffix)
              then "suffix:" +:+ DValue (RDestination rule) else DValue (RDestination rule) in
  if String.eqb (RProtocol rule) "" then dest
  else
    let text := dest +:+ " " +:+ RProtocol rule in
    if bool_decide (RPorts rule = []) then text
    else text +:+ ":" +:+ Join "," (Itoa <$> RPorts rule).

Definition action_string (a : Action) : string :=
  match a with ActionAllow => "allow" | ActionDeny => "deny" | ActionOther s => s end.

Definition FormatRule (rule : Rule) : string := action_string (RAction rule) +:+ " " +:+ FormatBody rule.

(** ** The store *)

Inductive policy_entry : Type :=
| PolicyDir
| PolicyUnreadable
| PolicyNotJSON
| PolicyFile (p : Policy).

#[export] Instance policy_entry_eq_dec : EqDecision policy_entry.
Proof. solve_decision. Defined.

Definition policy_path (name : string) : string := name +:+ ".json".

Definition json_rule (r : Rule) : Rule :=
  MkRule (RAction r) (MkDestination (DKind (RDestination r)) (json_string (DValue (RDestination r))))
    (json_string (RProtocol r)) (RPorts r).

Definition json_policy (p : Policy) : Policy := MkPolicy (json_string (PName p)) (json_rule <$> PRules p).

Definition Policy_Set (w : WriteOutcome) (dir : gmap string policy_entry) (policy : Policy)
  : gmap string policy_entry * result policy_error unit :=
  match Validate policy with
  | Err e => (dir, Err e)
  | Ok _ =>
      (if wrote w then <[policy_path (PName policy) := PolicyFile (json_policy policy)]> dir else dir,
       if write_ok w then Ok tt else Err EPolicyWrite)
  end.

Definition canonical_rule (r : Rule) : Rule :=
  MkRule (RAction r) (canonicalHost (RDestination r)) (RProtocol r) (RPorts r).

Definition Policy_Get (dir : gmap string policy_entry) (name : string) : result policy_error Policy :=
  match PolicyValidName name with
  | Err e => Err e
  | Ok _ =>
      match dir !! policy_path name with
      | None => Err (EPolicyNotFound name)
      | Some PolicyDir | Some PolicyUnreadable => Err EPolicyRead
      | Some PolicyNotJSON => Err EPolicyDecode
      | Some (PolicyFile p) =>
          let p := MkPolicy name (PRules p) in
          match Validate p with
          | Err e => Err (EPolicyStored e)
          | Ok _ => Ok (MkPolicy name (canonical_rule <$> PRules p))
          end
      end
  end.

(** The names [List] reads, in the order the directory answers them. *)
Definition policy_names (dir : gmap string policy_entry) : list string :=
  omap (λ file,
    let '(name, is_policy) := CutSuffix file ".json" in
    if bool_decide (dir !! file = Some PolicyDir) || negb is_policy || negb (is_ok (PolicyValidName name))
    then None else Some name) (sorted_names dir).

Definition by_name (a b : Policy) : Prop := String.le (PName a) (PName b).
#[export] Instance by_name_dec : RelDecision by_name.
Proof. intros a b. unfold by_name. apply _. Defined.

Definition Policy_List (dir : gmap string policy_entry) : result policy_error (list Policy) :=
  policies ← map_result (Policy_Get dir) (policy_names dir);
  Ok (merge_sort by_name policies).

Definition Policy_Remove (removed synced : bool) (dir : gmap string policy_entry) (name : string)
  : gmap string policy_entry * result policy_error unit :=
  match PolicyValidName name with
  | Err e => (dir, Err e)
  | Ok _ =>
      if bool_decide (is_Some (dir !! policy_path name)) && negb removed then (dir, Err EPolicyRemove)
      else (delete (policy_path name) dir, if synced then Ok tt else Err EPolicyRemove)
  end.

End Policy.

(** * Ports *)

Lemma parsePort_range text n : parsePort text = Ok n → 1 ≤ n ≤ 65535.
Proof.
  unfold parsePort. destruct (Atoi text); [|done].
  destruct ((z <? 1) || (65535 <? z)) eqn:E; [done|]. intros [= <-]. breflect. lia.
Qed.

Lemma portRange_range part from to : portRange part = Ok (from, to) → 1 ≤ from ≤ to ∧ to ≤ 65535.
Proof.
  unfold portRange. destruct (Cut part "-") as [[first last] isRange].
  destruct (parsePort first) as [f|] eqn:Hf; [|done]. simpl.
  destruct (parsePort (if isRange then last else first)) as [t|] eqn:Ht; [|done]. simpl.
  destruct (t <? f) eqn:E; [done|]. intros [= <- <-].
  apply parsePort_range in Hf, Ht. breflect. lia.
Qed.

(** The ports a list of ranges names, and no more of them than the bound. *)
Lemma ports_go_spec count acc parts ports :
  ports_go count acc parts = Ok ports →
  count = Z.of_nat (length acc) → count ≤ maxPorts →
  Z.of_nat (length ports) ≤ maxPorts ∧
  ∀ p, p ∈ ports ↔ p ∈ acc ∨ ∃ part from to, part ∈ parts ∧ portRange part = Ok (from, to) ∧ from ≤ p ≤ to.
Proof.
  revert count acc. induction parts as [|part parts IH]; intros count acc H Hc Hm.
  - simpl in H. injection H as <-. split; [lia|]. intros p. split; [by left|].
    intros [|(? & ? & ? & ? & _)]; [done|]. set_solver.
  - cbn [ports_go] in H. destruct (portRange part) as [[from to]|] eqn:Hr; [|done]. simpl in H.
    destruct (maxPorts <? to - from + 1) eqn:E1; [done|].
    destruct (maxPorts <? count + (to - from + 1)) eqn:E2; [done|]. breflect.
    pose proof (portRange_range _ _ _ Hr) as Hft.
    apply IH in H as [H1 H2]; [|rewrite length_app, length_seqZ; lia|done].
    split; [done|]. intros p. rewrite H2, elem_of_app, elem_of_seqZ. setoid_rewrite elem_of_cons. split.
    + intros [[Hp|Hp]|(part' & f & t & Hin & Hp)]; [by left| |right; eauto 8].
      right. exists part, from, to. split_and!; [by left|done|lia|lia].
    + intros [Hp|(part' & f & t & [->|Hin] & Hp & Hb)]; [auto| |right; eauto 8].
      rewrite Hr in Hp. injection Hp as <- <-. left. right. lia.
Qed.

(** The ports a text names, sorted and once each. *)
Lemma parsePorts_sorted text ports : parsePorts text = Ok ports → StronglySorted Z.lt ports.
Proof.
  unfold parsePorts. destruct (String.eqb text ""); [intros [= <-]; constructor|].
  destruct (ports_go _ _ _); [|done]. intros [= <-]. apply Compact_StronglySorted, SortZ_Sorted.
Qed.

(** The ports of a rule are exactly the ones its text names: a text that parses answers a strictly
    increasing list of ports between 1 and 65535, at most 1024 of them, and a port is in it when one
    comma-separated part is that port or a range around it. *)
Theorem parsePorts_spec text ports :
  parsePorts text = Ok ports →
  StronglySorted Z.lt ports ∧ Forall (λ p, 1 ≤ p ≤ 65535) ports ∧ Z.of_nat (length ports) ≤ maxPorts ∧
  ∀ p, p ∈ ports ↔ text ≠ "" ∧ ∃ part from to, part ∈ Split "," text ∧ portRange part = Ok (from, to) ∧ from ≤ p ≤ to.
Proof.
  unfold parsePorts. destruct (String.eqb_spec text "") as [->|Hne].
  - intros [= <-]. split_and!; [constructor|constructor|done|]. intros p. split; [set_solver|]. by intros [].
  - destruct (ports_go 0 [] (Split "," text)) as [ps|] eqn:Hp; [|done]. intros [= <-].
    apply ports_go_spec in Hp as [Hlen Hin]; [|done|done].
    assert (Hmem : ∀ p, p ∈ Compact (SortZ ps) ↔ p ∈ ps) by (intros p; by rewrite Compact_elem_of, SortZ_Permutation).
    split_and!.
    + apply Compact_StronglySorted, SortZ_Sorted.
    + apply Forall_forall. intros p. rewrite Hmem, Hin. intros [|(part & f & t & _ & Hr & Hb)]; [set_solver|].
      apply portRange_range in Hr. lia.
    + pose proof (Compact_length (SortZ ps)) as H. pose proof (Permutation_length (SortZ_Permutation ps)). lia.
    + intros p. rewrite Hmem, Hin. split; [|by intros [_ ?]; right].
      intros [|?]; [set_solver|]. done.
Qed.

Lemma parsePorts_spec_witness : parsePorts "443,22,8000-8002,22" = Ok [22; 443; 8000; 8001; 8002] ∧ StronglySorted Z.lt [22; 443; 8000; 8001; 8002].
Proof.
  assert (H : parsePorts "443,22,8000-8002,22" = Ok [22; 443; 8000; 8001; 8002]) by (vm_compute; reflexivity).
  split; [exact H|]. exact (proj1 (parsePorts_spec _ _ H)).
Defined.

Lemma parsePort_Itoa p : 1 ≤ p ≤ 65535 → parsePort (Itoa p) = Ok p.
Proof.
  intros H. unfold parsePort. rewrite Atoi_Itoa by (unfold max_int64; lia).
  by rewrite (proj2 (Z.ltb_ge p 1)), (proj2 (Z.ltb_ge 65535 p)) by lia.
Qed.

Lemma Itoa_no_char c p : 0 ≤ p → is_digit c = false → contains_char c (Itoa p) = false.
Proof.
  intros Hp Hc. apply contains_char_false. destruct (Itoa_digits p Hp) as [Hd _].
  eapply all_chars_impl; [|exact Hd]. intros d Hd'. apply negb_true_iff, Ascii.eqb_neq. intros ->. congruence.
Qed.

Lemma portRange_Itoa p : 1 ≤ p ≤ 65535 → portRange (Itoa p) = Ok (p, p).
Proof.
  intros H. unfold portRange. rewrite (Cut_no_sep "-") by (apply Itoa_no_char; lia || done).
  rewrite parsePort_Itoa by done. simpl. by rewrite (proj2 (Z.ltb_ge p p)) by lia.
Qed.

Lemma ports_go_Itoa count acc ps :
  Forall (λ p, 1 ≤ p ≤ 65535) ps → count + Z.of_nat (length ps) ≤ maxPorts → 
  ports_go count acc (Itoa <$> ps) = Ok (acc ++ ps).
Proof.
  revert count acc. induction ps as [|p ps IH]; intros count acc H Hc.
  - by rewrite (right_id_L [] (++)).
  - apply Forall_cons in H as [Hp Hps]. rewrite fmap_cons. cbn [ports_go]. rewrite portRange_Itoa by done.
    simpl. replace (p - p + 1) with 1 by lia. simpl in Hc.
    rewrite (proj2 (Z.ltb_ge _ _)) by (unfold maxPorts; lia).
    rewrite (proj2 (Z.ltb_ge _ _)) by lia.
    rewrite IH by (done || lia). by rewrite <- app_assoc.
Qed.

Lemma parsePorts_Join ps :
  ps ≠ [] → Forall (λ p, 1 ≤ p ≤ 65535) ps → StronglySorted Z.lt ps → Z.of_nat (length ps) ≤ maxPorts →
  parsePorts (Join "," (Itoa <$> ps)) = Ok ps.
Proof.
  intros Hne Hr Hs Hl. unfold parsePorts.
  assert (Hsplit : Split "," (Join "," (Itoa <$> ps)) = Itoa <$> ps).
  { apply Split_Join; [by destruct ps|]. apply Forall_fmap. eapply Forall_impl; [exact Hr|].
    intros p Hp. simpl in *. apply Itoa_no_char; [lia|done]. }
  destruct (String.eqb_spec (Join "," (Itoa <$> ps)) "") as [E|_].
  { rewrite E in Hsplit. simpl in Hsplit. destruct ps as [|p ps]; [done|]. injection Hsplit as H _.
    apply Forall_cons in Hr as [Hp _]. simpl in Hp. destruct (Itoa_digits p ltac:(lia)) as [_ Hnil]. congruence. }
  rewrite Hsplit, ports_go_Itoa by (done || lia). simpl.
  by rewrite SortZ_id, Compact_id by (done || by apply StronglySorted_lt_le).
Qed.

(** * Reading back what [FormatRule] prints *)

Lemma cut_last_none c s : contains_char c s = false → cut_last c s = None.
Proof.
  induction s as [|d s IH]; [done|]. rewrite contains_char_cons. intros H. breflect.
  cbn [cut_last]. rewrite IH by done. rewrite Ascii.eqb_sym. by rewrite H.
Qed.

Lemma cut_last_app c s a b : cut_last c s = Some (a, b) → s = a +:+ String c b.
Proof.
  revert a b. induction s as [|d s IH]; [done|]. cbn [cut_last]. intros a b.
  destruct (cut_last c s) as [[x y]|]; [intros [= <- <-]; rewrite app_cons; f_equal; auto|].
  destruct (Ascii.eqb_spec d c) as [->|]; [|done]. by intros [= <- <-].
Qed.

Lemma ParsePrefix_no_slash s : contains_char "/" s = false → ParsePrefix s = None.
Proof. intros H. unfold ParsePrefix. by rewrite cut_last_none. Qed.

Lemma v4_plain s : all_chars v4_char s = true → all_chars plain_char s = true.
Proof. apply all_chars_impl. by intros [[] [] [] [] [] [] [] []]. Qed.

Lemma host_plain s : all_chars host_char s = true → all_chars plain_char s = true.
Proof. apply all_chars_impl. by intros [[] [] [] [] [] [] [] []]. Qed.

Lemma digits_plain s : all_chars is_digit s = true → all_chars plain_char s = true.
Proof. apply all_chars_impl. by intros [[] [] [] [] [] [] [] []]. Qed.

Lemma digits_acc_chars acc s n : digits_acc acc s = Some n → all_chars is_digit s = true.
Proof.
  revert acc. induction s as [|c s IH]; [done|]. intros acc. simpl.
  destruct (is_digit c); [|done]. apply IH.
Qed.

Lemma parse_digits_plain s n : parse_digits s = Some n → all_chars plain_char s = true.
Proof. intros H. apply digits_plain. destruct s; [done|]. by eapply digits_acc_chars. Qed.

Lemma Atoi_plain s n : Atoi s = Some n → all_chars plain_char s = true.
Proof.
  unfold Atoi. intros H. apply bind_Some in H as (m & Hm & _). revert Hm.
  destruct s as [|c d]; [done|]. intros Hm.
  assert (plain_char c = true ∧ ∃ k, parse_digits d = Some k ∨ parse_digits (String c d) = Some k) as (Hc & k & Hk).
  { destruct c as [[] [] [] [] [] [] [] []]; simpl in Hm; try done;
      try (apply bind_Some in Hm as (k & Hk & _)); eauto. }
  cbn [all_chars]. rewrite Hc. destruct Hk as [Hk|Hk]; [by eapply parse_digits_plain|].
  apply parse_digits_plain in Hk. cbn [all_chars] in Hk. by breflect.
Qed.

(** An address or prefix that [parseCIDR] takes has no white space in it. *)
Lemma parseCIDR_plain s p : parseCIDR s = Ok p → all_chars plain_char s = true ∧ s ≠ "".
Proof.
  unfold parseCIDR. destruct (ParsePrefix s) as [q|] eqn:Hp.
  - destruct (Is4 (paddr q)) eqn:H4; [|done]. intros _. unfold ParsePrefix in Hp.
    apply bind_Some in Hp as ([a b] & Hc & Hp). apply cut_last_app in Hc as ->.
    apply bind_Some in Hp as (ip & Hip & Hp). simpl in Hp. case_guards Hp.
    apply bind_Some in Hp as (bits & Hb & Hp). case_guards Hp. injection Hp as <-.
    destruct ip as [|v|]; try done. apply ParseAddr_Is4 in Hip as [_ Hip].
    split; [|by destruct a]. rewrite all_chars_app. cbn [all_chars].
    by rewrite (v4_plain _ Hip), (Atoi_plain _ _ Hb).
  - destruct (ParseAddr s) as [a|] eqn:Ha; [|done]. simpl. destruct a as [|v|]; try done.
    intros _. apply ParseAddr_Is4 in Ha as H. destruct H as [_ H]. split; [by apply v4_plain|]. by intros ->.
Qed.

Section Printing.
Context `{U : Unicode}.

Lemma validRule_shape rule :
  validRule rule = Ok tt →
  known_protocol (RProtocol rule) = true ∧ (RProtocol rule = "" → RPorts rule = []) ∧
  Forall (λ p, 1 ≤ p ≤ 65535) (RPorts rule) ∧ Z.of_nat (length (RPorts rule)) ≤ maxPorts ∧
  validDestination rule = Ok tt.
Proof.
  unfold validRule. destruct (negb _ && _); [done|]. destruct (known_protocol _) eqn:Hk; [|done].
  simpl. destruct (String.eqb _ _ && _) eqn:Hp; [done|].
  destruct (first_err _ _) as [[]|] eqn:Hf; [|done]. destruct (maxPorts <? _) eqn:Hm; [done|].
  intros Hv. breflect. split_and!; try done.
  - intros E. rewrite E in Hp. simpl in Hp. by breflect.
  - apply first_err_Ok in Hf. eapply Forall_impl; [exact Hf|]. intros p. simpl.
    destruct (_ || _) eqn:E; [done|]. breflect. lia.
Qed.

Lemma valid_named rule :
  validDestination rule = Ok tt → named (DKind (RDestination rule)) = true →
  RProtocol rule = "tcp" ∧ RPorts rule ≠ [] ∧ Forall (λ p, p ∈ webPorts) (RPorts rule) ∧
  validHostValue (RDestination rule) = Ok tt.
Proof.
  unfold validDestination. intros H Hn.
  destruct (DKind (RDestination rule)); try done;
    (destruct (validHostValue _) as [[]|]; [|done]; destruct (String.eqb_spec (RProtocol rule) "tcp"); [|done];
     simpl in H; destruct (bool_decide (RPorts rule = [])) eqn:E; [done|]; breflect; split_and!; try done;
     apply first_err_Ok in H; eapply Forall_impl; [exact H|]; intros p; simpl;
     destruct (contains webPorts p) eqn:Hc; [|done]; intros _; by apply contains_elem_of).
Qed.

Definition dest_text (dest : Destination) : string :=
  if bool_decide (DKind dest = DestinationDomainSuffix) then "suffix:" +:+ DValue dest else DValue dest.

(** What a destination that parsed and validated has: printed in its canonical spelling it reads back. *)
Definition reads_back (dest : Destination) : Prop :=
  all_chars plain_char (dest_text (canonicalHost dest)) = true ∧ dest_text (canonicalHost dest) ≠ "" ∧
  parseDestination (dest_text (canonicalHost dest)) = Ok (canonicalHost dest) ∧
  canonicalHost (canonicalHost dest) = canonicalHost dest.

Lemma no_slash_colon s :
  ContainsAny s "/:" = false → contains_char "/" s = false ∧ contains_char ":" s = false.
Proof.
  unfold ContainsAny. intros H. breflect. split; apply contains_char_false; (eapply all_chars_impl; [|exact H]).
  all: by intros [[] [] [] [] [] [] [] []].
Qed.

Lemma dotted_not_word s w : (2 ≤ length (Split "." s))%nat → (length (Split "." w) < 2)%nat → String.eqb s w = false.
Proof. intros Hs Hw. apply String.eqb_neq. intros ->. lia. Qed.

Lemma CutPrefix_no_colon s : contains_char ":" s = false → CutPrefix s "suffix:" = None.
Proof.
  intros H. unfold CutPrefix, HasPrefix. destruct (String.prefix "suffix:" s) eqn:E; [|done].
  apply prefix_spec in E as [t ->]. by rewrite contains_char_app in H.
Qed.

Lemma ParseAddr_suffix s : contains_char "%" s = false → ParseAddr ("suffix:" +:+ s) = None.
Proof.
  intros H. unfold ParseAddr. change (addr_family ("suffix:" +:+ s)) with (Some ":"%char). cbv iota.
  unfold parseIPv6. rewrite (Cut_no_sep "%") by by rewrite contains_char_app. done.
Qed.

Lemma host_no_percent s : all_chars host_char s = true → contains_char "%" s = false.
Proof.
  intros H. apply contains_char_false. eapply all_chars_impl; [|exact H].
  by intros [[] [] [] [] [] [] [] []].
Qed.

(** A canonical name is read as a domain, and behind [suffix:] as a suffix. *)
Lemma parse_canonical dest c :
  Secret.validDestination dest = Ok c →
  all_chars plain_char c = true ∧ c ≠ "" ∧ CanonicalHost c = c ∧
  parseDestination c = Ok (MkDestination DestinationDomain c) ∧
  parseDestination ("suffix:" +:+ c) = Ok (MkDestination DestinationDomainSuffix c).
Proof.
  intros H. apply validDestination_labels in H as (_ & Hl & Hlen & _ & Ha & Hany).
  destruct (CanonicalHost_id c Hl) as [Hid Hc]. destruct (no_slash_colon c Hany) as [Hs Hcol].
  split_and!; [by apply host_plain| |done| |].
  - intros ->. simpl in Hlen. lia.
  - unfold parseDestination.
    rewrite !(dotted_not_word c) by (done || (vm_compute; lia)).
    rewrite Ha, ParsePrefix_no_slash, CutPrefix_no_colon by done.
    rewrite (Cut_no_sep ":") by done. done.
  - unfold parseDestination.
    rewrite ParseAddr_suffix by by apply host_no_percent.
    rewrite ParsePrefix_no_slash by by rewrite contains_char_app.
    by rewrite CutPrefix_app.
Qed.

Lemma validHostValue_cases dest :
  validHostValue dest = Ok tt →
  (DKind dest ≠ DestinationDomainSuffix ∧ DValue dest = "*") ∨
  (∃ c, Secret.validDestination (DValue dest) = Ok c) ∧ 
  (DKind dest = DestinationDomainSuffix → Contains (DValue dest) "*" = false).
Proof.
  unfold validHostValue, ValidDestination. intros H.
  destruct (Contains (DValue dest) "*") eqn:E; simpl in H.
  - destruct (bool_decide _) eqn:E1 in H; [done|]. breflect.
    destruct (String.eqb_spec (DValue dest) "*") as [E2|]; [by left|]. right.
    destruct (Secret.validDestination _) eqn:E3; [|done]. naive_solver.
  - right. destruct (Secret.validDestination _) eqn:E3; [|done]. naive_solver.
Qed.

Lemma canonicalHost_other dest : named (DKind dest) = false → canonicalHost dest = dest.
Proof. unfold canonicalHost. by intros ->. Qed.

Lemma parseDestination_cases t dest :
  parseDestination t = Ok dest →
  (DKind dest = DestinationGroup ∧ DValue dest = t ∧ (t = GroupAny ∨ t = GroupDNS)) ∨
  (DKind dest = DestinationCIDR ∧ DValue dest = t) ∨
  (named (DKind dest) = true ∧ dest_text dest = t).
Proof.
  unfold parseDestination. intros H.
  destruct (String.eqb t GroupAny || String.eqb t GroupDNS) eqn:E1.
  { injection H as <-. left. split_and!; [done..|]. apply orb_true_iff in E1 as [E|E]; apply String.eqb_eq in E; auto. }
  destruct (_ || _) in H; [done|].
  destruct (bool_decide _) in H; [injection H as <-; auto|].
  destruct (bool_decide _) in H; [injection H as <-; auto|].
  right; right. unfold CutPrefix, HasPrefix in H.
  destruct (String.prefix "suffix:" t) eqn:Ep.
  { injection H as <-. split; [done|]. apply prefix_spec in Ep as [s ->].
    unfold dest_text. cbn [DKind DValue]. rewrite bool_decide_eq_true_2 by done. reflexivity. }
  destruct (Cut t ":") as [[kind rest] found]. destruct (_ && _); [done|]. by injection H as <-.
Qed.

Lemma parsed_reads_back t dest a proto ports :
  parseDestination t = Ok dest → validDestination (MkRule a dest proto ports) = Ok tt → reads_back dest.
Proof.
  intros Hp Hv. pose proof (parseDestination_cases _ _ Hp) as [(Hk & Ht & Hg)|[[Hk Ht]|[Hn Ht]]].
  - unfold reads_back. rewrite !canonicalHost_other by (unfold named; by rewrite Hk).
    unfold dest_text. rewrite Hk, Ht. by destruct Hg as [->| ->].
  - unfold reads_back. rewrite !canonicalHost_other by (unfold named; by rewrite Hk).
    unfold validDestination in Hv. simpl in Hv. rewrite Hk in Hv.
    destruct (parseCIDR (DValue dest)) as [p|] eqn:Hc; [|done]. apply parseCIDR_plain in Hc as [Hc Hne].
    unfold dest_text. rewrite Hk. simpl. split_and!; [done|done|by rewrite Ht|done].
  - apply valid_named in Hv as (_ & _ & _ & Hh); [|done]. simpl in Hh.
    unfold reads_back, canonicalHost. rewrite Hn. simpl. rewrite Hn. unfold dest_text. simpl.
    apply validHostValue_cases in Hh as [[Hk ->]|[[c Hc] Hs]].
    + rewrite bool_decide_eq_false_2 by done. destruct (DKind dest); done.
    + pose proof (validDestination_labels _ _ Hc) as (Ec & _). rewrite <- Ec.
      apply parse_canonical in Hc as (H1 & H2 & H3 & H4 & H5). rewrite H3.
      destruct (DKind dest); try done; simpl; split_and!; done.
Qed.

Lemma canonical_valid a dest proto ports :
  validRule (MkRule a dest proto ports) = Ok tt → validRule (MkRule a (canonicalHost dest) proto ports) = Ok tt.
Proof.
  intros H. destruct (named (DKind dest)) eqn:Hn; [|by rewrite canonicalHost_other].
  pose proof (validRule_shape _ H) as (_ & _ & _ & _ & Hv).
  pose proof (valid_named _ Hv Hn) as (_ & _ & _ & Hh). simpl in Hh.
  assert (validHostValue (canonicalHost dest) = Ok tt) as Hh'.
  { unfold canonicalHost. rewrite Hn. pose proof Hh as Hh2.
    apply validHostValue_cases in Hh as [[Hk E]|[[c Hc] Hs]].
    - unfold validHostValue. simpl. rewrite E. rewrite bool_decide_eq_false_2 by done. done.
    - pose proof (validDestination_labels _ _ Hc) as (Ec & _). pose proof (validDestination_idempotent _ _ Hc) as Hi.
      unfold validHostValue, ValidDestination. simpl. rewrite <- Ec, Hi.
      destruct (bool_decide _) eqn:Ek; breflect.
      + specialize (Hs Ek). rewrite Contains_char in Hs.
        rewrite Ec. unfold CanonicalHost. rewrite Contains_char.
        by rewrite ToLower_star by by apply TrimSuffix_no_char.
      + by destruct (Contains c "*"), (String.eqb c "*"). }
  revert H. unfold validRule. simpl. repeat case_match; try done. intros _.
  unfold validDestination in *. simpl in *. unfold canonicalHost in *. rewrite Hn in *. simpl in *.
  rewrite Hh'. rewrite Hh in Hv. destruct (DKind dest); done.
Qed.

(** The rule a text parses to: its destination, protocol and ports before the name is made canonical. *)
Lemma ParseRule_inv a text r :
  ParseRule a text = Ok r →
  ∃ t dest proto ports,
    parseDestination t = Ok dest ∧ validRule (MkRule a dest proto ports) = Ok tt ∧
    StronglySorted Z.lt ports ∧ r = MkRule a (canonicalHost dest) proto ports.
Proof.
  unfold ParseRule. intros H. destruct (Fields text) as [|t rest]; [done|].
  destruct (2 <? _)%nat; [done|]. destruct (parseDestination t) as [dest|] eqn:Hd; [|done]. simpl in H.
  destruct (match rest with [] => _ | _ => _ end) as [[proto ports]|] eqn:Hs; [|done]. simpl in H.
  set (proto' := if named _ && _ then _ else _) in H. set (ports' := if named _ && _ && _ then _ else _) in H.
  destruct (validRule _) as [[]|] eqn:Hv; [|done]. injection H as <-.
  exists t, dest, proto', ports'. split_and!; try done.
  assert (Hp : StronglySorted Z.lt ports).
  { destruct rest as [|spec rest]; [injection Hs as <- <-; constructor|].
    destruct (Cut spec ":") as [[pr ps] fd]. destruct (parsePorts ps) eqn:Hps; [|done].
    injection Hs as <- <-. by apply parsePorts_sorted in Hps. }
  subst ports'. destruct (_ && _ && _); [|done]. repeat constructor.
Qed.

Definition spec_text (proto : string) (ports : list Z) : string :=
  if bool_decide (ports = []) then proto else proto +:+ ":" +:+ Join "," (Itoa <$> ports).

Lemma FormatBody_text r :
  FormatBody r = if String.eqb (RProtocol r) "" then dest_text (RDestination r)
                 else dest_text (RDestination r) +:+ " " +:+ spec_text (RProtocol r) (RPorts r).
Proof.
  unfold FormatBody, spec_text. fold (dest_text (RDestination r)). destruct (String.eqb _ _); [done|].
  destruct (bool_decide _); [done|]. by rewrite !app_assoc_s.
Qed.

Lemma spec_text_reads proto ports :
  known_protocol proto = true → proto ≠ "" → Forall (λ p, 1 ≤ p ≤ 65535) ports →
  Z.of_nat (length ports) ≤ maxPorts → StronglySorted Z.lt ports →
  all_chars plain_char (spec_text proto ports) = true ∧ spec_text proto ports ≠ "" ∧
  ∃ ps found, Cut (spec_text proto ports) ":" = (proto, ps, found) ∧ parsePorts ps = Ok ports.
Proof.
  intros Hk Hne Hr Hl Hs.
  assert (all_chars plain_char proto = true ∧ contains_char ":" proto = false) as [Hp Hc].
  { unfold known_protocol in Hk. repeat apply orb_true_iff in Hk as [Hk|Hk]; apply String.eqb_eq in Hk as ->; done. }
  unfold spec_text. destruct (bool_decide (ports = [])) eqn:E; breflect.
  - subst. split_and!; [done|done|]. rewrite (Cut_no_sep ":") by done. by exists "", false.
  - split_and!.
    + rewrite all_chars_app, Hp. change (":" +:+ ?x) with (String ":" x). cbn [all_chars].
      apply all_chars_Join; [done|]. apply Forall_fmap. eapply Forall_impl; [exact Hr|].
      intros p Hp'. simpl in *. apply digits_plain. by apply Itoa_digits; lia.
    + by destruct proto.
    + exists (Join "," (Itoa <$> ports)), true. split; [by apply (Cut_at ":")|]. by apply parsePorts_Join.
Qed.

(** The text of a destination and of a protocol with its ports, read together. *)
Lemma ParseRule_text a dest proto ports :
  all_chars plain_char (dest_text dest) = true → dest_text dest ≠ "" →
  parseDestination (dest_text dest) = Ok dest → canonicalHost dest = dest →
  validRule (MkRule a dest proto ports) = Ok tt → StronglySorted Z.lt ports →
  ParseRule a (FormatBody (MkRule a dest proto ports)) = Ok (MkRule a dest proto ports).
Proof.
  intros Hc Hne Hd Hcan Hv Hs.
  pose proof (validRule_shape _ Hv) as (Hk & Hempty & Hr & Hl & Hvd). simpl in *.
  assert (Hnamed : named (DKind dest) = true → proto = "tcp" ∧ ports ≠ []).
  { intros Hn. by destruct (valid_named _ Hvd Hn) as (? & ? & _). }
  assert (Hproto : (if named (DKind dest) && String.eqb proto "" then "tcp" else proto) = proto).
  { destruct (named _) eqn:En; [|done]. by destruct (Hnamed eq_refl) as [-> _]. }
  assert (Hports : (if named (DKind dest) && String.eqb proto "tcp" && bool_decide (ports = []) then webPorts else ports) = ports).
  { destruct (named _) eqn:En; [|done]. destruct (Hnamed eq_refl) as [-> Hp].
    by rewrite bool_decide_eq_false_2. }
  rewrite FormatBody_text. simpl. unfold ParseRule. destruct (String.eqb_spec proto "") as [->|Hpn].
  - rewrite (Hempty eq_refl) in *. rewrite Fields_one by done. cbn [length Nat.ltb Nat.leb]. rewrite Hd. simpl mbind. cbv beta iota.
    rewrite Hproto. change (bool_decide (@nil Z = [])) with true in Hports. rewrite Hports, Hv. simpl. by rewrite Hcan.
  - destruct (spec_text_reads proto ports) as (Hsc & Hsn & ps & found & Hcut & Hps); try done.
    rewrite Fields_two by done. cbn [length Nat.ltb Nat.leb]. rewrite Hd. simpl mbind. cbv beta iota.
    rewrite Hcut. cbv beta iota. rewrite Hps. simpl mbind. cbv beta iota. rewrite (proj2 (String.eqb_neq proto "") Hpn), Hproto, Hports, Hv. simpl. by rewrite Hcan.
Qed.

(** C40: A rule the CLI accepted prints to a text that reads back to the same rule: names canonical,
    the protocol and ports the web defaults filled in, ports sorted. *)
Theorem ParseRule_FormatBody a text r :
  ParseRule a text = Ok r → ParseRule a (FormatBody r) = Ok r.
Proof.
  intros H. apply ParseRule_inv in H as (t & dest & proto & ports & Hd & Hv & Hs & ->).
  pose proof (validRule_shape _ Hv) as (_ & _ & _ & _ & Hvd).
  destruct (parsed_reads_back _ _ _ _ _ Hd Hvd) as (H1 & H2 & H3 & H4).
  apply ParseRule_text; try done. by apply canonical_valid.
Qed.

(** Every rule the CLI accepts is one the store accepts, and is already in the canonical spelling
    the store reads rules back in. *)
Theorem ParseRule_valid a text r :
  ParseRule a text = Ok r → validRule r = Ok tt ∧ canonical_rule r = r ∧ RAction r = a.
Proof.
  intros H. apply ParseRule_inv in H as (t & dest & proto & ports & Hd & Hv & Hs & ->).
  pose proof (validRule_shape _ Hv) as (_ & _ & _ & _ & Hvd).
  destruct (parsed_reads_back _ _ _ _ _ Hd Hvd) as (_ & _ & _ & H4).
  split_and!; [by apply canonical_valid| |done]. unfold canonical_rule. simpl. by rewrite H4.
Qed.

End Printing.

Lemma ParseRule_FormatBody_witness :
  let r := MkRule ActionAllow (MkDestination DestinationDomainSuffix "example.com") "tcp" [80; 443] in
  ParseRule (U := ascii_only) ActionAllow "  suffix:Example.COM. tcp:443,80,443" = Ok r ∧
  ParseRule (U := ascii_only) ActionAllow (FormatBody r) = Ok r.
Proof.
  intros r. assert (H : ParseRule (U := ascii_only) ActionAllow "  suffix:Example.COM. tcp:443,80,443" = Ok r)
    by (vm_compute; reflexivity).
  split; [exact H|]. exact (ParseRule_FormatBody _ _ _ H).
Defined.

Lemma ParseRule_valid_witness :
  let r := MkRule ActionDeny (MkDestination DestinationCIDR "10.1.2.3/8") "udp" [53] in
  ParseRule (U := ascii_only) ActionDeny "10.1.2.3/8 udp:53" = Ok r ∧ validRule (U := ascii_only) r = Ok tt.
Proof.
  intros r. assert (H : ParseRule (U := ascii_only) ActionDeny "10.1.2.3/8 udp:53" = Ok r) by (vm_compute; reflexivity).
  split; [exact H|]. exact (proj1 (ParseRule_valid _ _ _ H)).
Defined.

(** * The store *)

Section Stored.
Context `{U : Unicode}.

(** Every value of the policy is valid UTF-8, so JSON keeps its bytes. *)
Definition utf8_policy (p : Policy) : Prop :=
  Forall (λ r, json_string (DValue (RDestination r)) = DValue (RDestination r)) (PRules p).

Lemma valid_rules_Ok i rules : valid_rules i rules = Ok tt ↔ Forall (λ r, validRule r = Ok tt) rules.
Proof.
  revert i. induction rules as [|r rules IH]; intros i; simpl; [by split|].
  rewrite Forall_cons, <- (IH (S i)). destruct (validRule r) as [[]|]; naive_solver.
Qed.

Lemma Validate_Ok p :
  Validate p = Ok tt ↔
  PolicyValidName (PName p) = Ok tt ∧ (length (PRules p) ≤ maxRules)%nat ∧ Forall (λ r, validRule r = Ok tt) (PRules p).
Proof.
  unfold Validate. rewrite <- (valid_rules_Ok 1). destruct (PolicyValidName (PName p)) as [[]|]; [|naive_solver].
  destruct (maxRules <? _)%nat eqn:E; breflect; [|naive_solver]. split; [done|]. intros (_ & ? & _). lia.
Qed.

Lemma known_protocol_json s : known_protocol s = true → json_string s = s.
Proof.
  unfold known_protocol. intros H.
  repeat apply orb_true_iff in H as [H|H]; apply String.eqb_eq in H as ->; done.
Qed.

Lemma json_rule_id r :
  validRule r = Ok tt → json_string (DValue (RDestination r)) = DValue (RDestination r) → json_rule r = r.
Proof.
  intros Hv Hj. apply validRule_shape in Hv as (Hk & _).
  unfold json_rule. rewrite Hj, (known_protocol_json _ Hk). by destruct r as [a [k v] pr ps].
Qed.

Lemma policy_path_inj n m : policy_path n = policy_path m → n = m.
Proof. apply app_inj_r. Qed.

(** A policy the store took reads back, under its name, with its rules in order and their host
    names canonical, and no other policy is touched. *)
Theorem Policy_Set_Get w dir p dir' :
  Policy_Set w dir p = (dir', Ok tt) → utf8_policy p →
  Policy_Get dir' (PName p) = Ok (MkPolicy (PName p) (canonical_rule <$> PRules p)) ∧
  ∀ name, name ≠ PName p → Policy_Get dir' name = Policy_Get dir name.
Proof.
  unfold Policy_Set. destruct (Validate p) as [[]|] eqn:Hv; [|done].
  destruct w; simpl; intros [= <-] Hu; try done.
  pose proof Hv as Hv'. apply Validate_Ok in Hv' as (Hn & _ & Hr). split.
  - unfold Policy_Get. rewrite Hn, lookup_insert_eq.
    assert (Hj : MkPolicy (PName p) (PRules (json_policy p)) = p).
    { destruct p as [n rs]. simpl in *. f_equal. apply fmap_id_Forall.
      apply Forall_forall. intros r Hin. apply json_rule_id; [by apply (proj1 (Forall_forall _ _) Hr)|].
      by apply (proj1 (Forall_forall _ _) Hu). }
    by rewrite Hj, Hv.
  - intros name Hne. unfold Policy_Get. destruct (PolicyValidName name); [|done].
    rewrite lookup_insert_ne; [done|]. intros E. apply policy_path_inj in E. congruence.
Qed.

(** A policy [Get] answers is one every other part of egress may rely on: it validates under its
    own name, and each rule is in canonical spelling. *)
Theorem Policy_Get_valid dir name p :
  Policy_Get dir name = Ok p → Validate p = Ok tt ∧ PName p = name.
Proof.
  unfold Policy_Get. destruct (PolicyValidName name); [|done].
  destruct (dir !! _) as [[| | |q]|]; try done. destruct (Validate _) as [[]|] eqn:Hv; [|done].
  intros [= <-]. split; [|done]. apply Validate_Ok in Hv as (Hn & Hl & Hr). apply Validate_Ok. simpl in *.
  split_and!; [done|by rewrite length_fmap|]. apply Forall_fmap. eapply Forall_impl; [exact Hr|].
  intros r H. destruct r. simpl in *. by apply canonical_valid.
Qed.

End Stored.

Definition sample_policy : Policy :=
  MkPolicy "ci" [MkRule ActionAllow (MkDestination DestinationDomain "API.example.com") "tcp" [443];
                 MkRule ActionDeny (MkDestination DestinationGroup "any") "" []].

Lemma Policy_Set_Get_witness :
  Policy_Get (U := ascii_only) (Policy_Set (U := ascii_only) Landed ∅ sample_policy).1 "ci" =
  Ok (MkPolicy "ci" [MkRule ActionAllow (MkDestination DestinationDomain "api.example.com") "tcp" [443];
                     MkRule ActionDeny (MkDestination DestinationGroup "any") "" []]).
Proof.
  refine (proj1 (Policy_Set_Get (U := ascii_only) Landed ∅ sample_policy _ _ _)).
  - vm_compute. reflexivity.
  - repeat constructor.
Defined.

Lemma Policy_Get_valid_witness :
  Validate (U := ascii_only) (MkPolicy "ci" (canonical_rule (U := ascii_only) <$> PRules sample_policy)) = Ok tt.
Proof.
  refine (proj1 (Policy_Get_valid (U := ascii_only) {[ "ci.json" := PolicyFile sample_policy ]} "ci" _ _)).
  vm_compute. reflexivity.
Defined.
