(* ===== verification/EgressDecide.v ===== *)
(** * What the proxy decides

    [services/egress/decide.go] with [Effective] of [compile.go] and [Resolves] of [policy.go]: the
    verdict on one connection ([Decide]), on a name alone ([DecideName]) and on an http request before
    its host is resolved ([Unresolved]). *)

From S2P Require Import Prelude GoStrings Netip Models Store Secret Network EgressPolicy.
Local Open Scope Z_scope.

(** The resolver's port. *)
Definition dns_Port : Z := 53.

Record EffectiveRule : Type := MkEffectiveRule { ERule : Rule; EID : string; EImplied : string }.

Record Effective : Type := MkEffective { EMissing : bool; ERules : list EffectiveRule }.

#[export] Instance EffectiveRule_eq_dec : EqDecision EffectiveRule.
Proof. solve_decision. Defined.

(** [DRule] is [None] where the source leaves the zero rule: no rule was asked. *)
Record Decision : Type := MkDecision {
  DAction : Action;
  DRule : option EffectiveRule;
  DID : string;
  DReason : string
}.

(** ** Matching *)

(** The loop over [want] and [got], which are of one length. *)
Fixpoint labels_match (want got : list string) : bool :=
  match want, got with
  | w :: want, g :: got =>
      if negb (String.eqb w "*") && negb (String.eqb w g) then false else labels_match want got
  | _, _ => true
  end.

Definition same_labels (want got : list string) : bool :=
  if negb (length want =? length got)%nat then false else labels_match want got.

Definition MatchHost (pattern host : string) : bool :=
  if String.eqb pattern "*" then true
  else if negb (Contains pattern "*") then String.eqb pattern host
  else
    let want := Split "." pattern in
    let got := Split "." host in
    match want with
    | w :: want' =>
        if String.eqb w "*" then
          if (length got <=? length want')%nat then false
          else same_labels want' (lastn (length want') got)
        else same_labels want got
    | [] => same_labels want got
    end.

Definition MatchSuffix (value name : string) : bool :=
  String.eqb name value || HasSuffix name ("." +:+ value).

(** A rule of another protocol, or of other ports, is passed over. *)
Definition speaks_tcp (rule : Rule) (port : Z) : bool :=
  if negb (String.eqb (RProtocol rule) "") && negb (String.eqb (RProtocol rule) "tcp") then false
  else bool_decide (RPorts rule = []) || contains (RPorts rule) port.

Definition matches (rule : Rule) (host : string) (port : Z) (addr : Addr) : bool :=
  if negb (speaks_tcp rule port) then false
  else
    let value := DValue (RDestination rule) in
    match DKind (RDestination rule) with
    | DestinationCIDR => match parseCIDR value with Ok prefix => Prefix_Contains prefix addr | Err _ => false end
    | DestinationGroup => contains_addr (group_prefixes value) addr
    | DestinationDomain => MatchHost value host
    | DestinationDomainSuffix => MatchSuffix value host
    | DestinationOther _ => false
    end.

Definition mightAllowByAddress (rule : Rule) (port : Z) : bool :=
  if negb (bool_decide (RAction rule = ActionAllow)) then false
  else if negb (speaks_tcp rule port) then false
  else match DKind (RDestination rule) with
       | DestinationCIDR => true
       | DestinationGroup => negb (String.eqb (DValue (RDestination rule)) GroupDNS)
       | _ => false
       end.

Definition nameDecidesHTTP (rule : Rule) (host : string) (port : Z) : bool :=
  if negb (speaks_tcp rule port) then false
  else
    let value := DValue (RDestination rule) in
    match DKind (RDestination rule) with
    | DestinationDomain => MatchHost value host
    | DestinationDomainSuffix => MatchSuffix value host
    | DestinationGroup => String.eqb value GroupAny
    | _ => false
    end.

Definition closesName (rule : Rule) : bool :=
  if negb (String.eqb (RProtocol rule) "") && negb (String.eqb (RProtocol rule) "tcp") then false
  else if bool_decide (RPorts rule = []) then true
  else forallb (contains (RPorts rule)) webPorts.

Definition anyLeavesDNS (rule : Rule) : bool :=
  bool_decide (DKind (RDestination rule) = DestinationGroup) && String.eqb (DValue (RDestination rule)) GroupAny
  && (bool_decide (RPorts rule = []) || contains (RPorts rule) dns_Port).

Definition matchesName (rule : Rule) (name : string) : bool :=
  if bool_decide (RAction rule = ActionDeny) && negb (closesName rule) then false
  else
    let value := DValue (RDestination rule) in
    match DKind (RDestination rule) with
    | DestinationGroup => String.eqb value GroupDNS || anyLeavesDNS rule
    | DestinationDomain => MatchHost value name
    | DestinationDomainSuffix => MatchSuffix value name
    | _ => false
    end.

(** ** Whether a policy lets any name resolve *)

Definition resolves (rules : list Rule) (name : string) : bool :=
  match first_match (λ rule, matchesName rule name) rules with
  | Some rule => bool_decide (RAction rule = ActionAllow)
  | None => false
  end.

Definition samples (rule : Rule) (fresh : string) : list string :=
  let value := DValue (RDestination rule) in
  match DKind (RDestination rule) with
  | DestinationGroup => [fresh]
  | DestinationDomain => [ReplaceAll value "*" fresh]
  | DestinationDomainSuffix => [value; fresh +:+ "." +:+ value]
  | _ => []
  end.

(** The label is spelled by some rule of the policy. *)
Definition spelled (rules : list Rule) (label : string) : bool :=
  existsb (λ rule, contains (Split "." (DValue (RDestination rule))) label) rules.

(** The loop adds an [x] at a time; a label of [spell_bound] bytes is longer than any a rule spells. *)
Fixpoint fresh_go (fuel : nat) (rules : list Rule) (label : string) : option string :=
  match fuel with
  | O => None
  | S fuel => if spelled rules label then fresh_go fuel rules (label +:+ "x") else Some label
  end.

Definition spell_bound (rules : list Rule) : nat :=
  S (max_list (String.length ∘ DValue ∘ RDestination <$> rules)).

Definition freshLabel (rules : list Rule) : string := default "" (fresh_go (S (spell_bound rules)) rules "x").

Definition Resolves (policy : Policy) : bool :=
  let fresh := freshLabel (PRules policy) in
  existsb (λ rule,
    bool_decide (RAction rule = ActionAllow)
    && existsb (resolves (PRules policy)) (samples rule fresh)) (PRules policy).

(** ** The rules in force *)

Section Decide.
Context `{U : Unicode}.

(** [gateway] is the IPv4 address of shard's resolver. *)
Context (gateway : Z).

Definition dns_rule (implied proto : string) : EffectiveRule :=
  MkEffectiveRule (MkRule ActionAllow (MkDestination DestinationCIDR (String4 gateway)) proto [53]) "" implied.

Definition set_EID (r : EffectiveRule) (id : string) : EffectiveRule := MkEffectiveRule (ERule r) id (EImplied r).

Definition number (rules : list EffectiveRule) : list EffectiveRule :=
  imap (λ i r, set_EID r (Itoa (Z.of_nat i + 1))) rules.

Definition implied_by (policy : Policy) : string :=
  if existsb (λ rule, bool_decide (DKind (RDestination rule) = DestinationGroup)
                      && String.eqb (DValue (RDestination rule)) GroupDNS) (PRules policy)
  then "dns-rule" else "dns".

Definition effective_rules (policy : Policy) : list EffectiveRule :=
  let rules := (λ r, MkEffectiveRule r "" "") <$> PRules policy in
  let implied := implied_by policy in
  number (if OpensDNS policy then [dns_rule implied "udp"; dns_rule implied "tcp"] ++ rules else rules).

Definition Effective_ (dir : gmap string policy_entry) (sb : Sandbox) : result policy_error Effective :=
  if String.eqb (SPolicyName sb) "" then Ok (MkEffective false [])
  else match Policy_Get dir (SPolicyName sb) with
       | Err (EPolicyNotFound _) => Ok (MkEffective true [])
       | Err e => Err e
       | Ok policy => Ok (MkEffective false (effective_rules policy))
       end.

(** ** Verdicts *)

Definition missing_decision (sb : Sandbox) : Decision :=
  MkDecision ActionDeny None RuleMissing ("policy " +:+ SPolicyName sb +:+ " does not exist").
Definition none_decision (sb : Sandbox) : Decision :=
  MkDecision ActionAllow None RuleNone ("sandbox " +:+ ID sb +:+ " has no policy").
Definition default_decision (sb : Sandbox) (host : string) : Decision :=
  MkDecision ActionDeny None RuleDefault ("no rule of policy " +:+ SPolicyName sb +:+ " matches " +:+ host).
Definition rule_decision (sb : Sandbox) (rule : EffectiveRule) : Decision :=
  MkDecision (RAction (ERule rule)) (Some rule) (EID rule) ("the first matching rule of policy " +:+ SPolicyName sb).

(** [addresses], [now] and [l] are what the host's interfaces answer, the clock and the cached read. *)
Definition Decide (addresses : option (list Addr)) (now : Z) (l : Local)
    (dir : gmap string policy_entry) (sb : Sandbox) (host : string) (port : Z) (addr : Addr)
  : Local * result policy_error Decision :=
  if contains_addr Private addr then
    (l, Ok (MkDecision ActionDeny None RulePrivate (host +:+ " resolves to a private address")))
  else
    let '(l, local) := Local_Contains addresses now l addr in
    (l,
     if local then Ok (MkDecision ActionDeny None RuleLocal (host +:+ " resolves to an address local to the host"))
     else if String.eqb (SPolicyName sb) "" then Ok (none_decision sb)
     else match Effective_ dir sb with
          | Err e => Err e
          | Ok effective =>
              if EMissing effective then Ok (missing_decision sb)
              else match first_match (λ r, matches (ERule r) host port addr) (ERules effective) with
                   | Some rule => Ok (rule_decision sb rule)
                   | None => Ok (default_decision sb host)
                   end
          end).

Definition DecideName (dir : gmap string policy_entry) (sb : Sandbox) (name : string) : result policy_error Decision :=
  if String.eqb (SPolicyName sb) "" then Ok (none_decision sb)
  else match Effective_ dir sb with
       | Err e => Err e
       | Ok effective =>
           if EMissing effective then Ok (missing_decision sb)
           else match first_match (λ r, matchesName (ERule r) name) (ERules effective) with
                | Some rule => Ok (rule_decision sb rule)
                | None => Ok (default_decision sb name)
                end
       end.

(** The loop of [Unresolved]: the decision when the deny is final, [None] when the address is needed. *)
Fixpoint unresolved_go (sb : Sandbox) (host : string) (port : Z) (rules : list EffectiveRule) : option Decision :=
  match rules with
  | [] => Some (default_decision sb host)
  | rule :: rules =>
      if nameDecidesHTTP (ERule rule) host port then
        if bool_decide (RAction (ERule rule) = ActionDeny) then Some (rule_decision sb rule) else None
      else if mightAllowByAddress (ERule rule) port then None
      else unresolved_go sb host port rules
  end.

Definition Unresolved (dir : gmap string policy_entry) (sb : Sandbox) (host : string) (port : Z)
  : result policy_error (option Decision) :=
  if String.eqb (SPolicyName sb) "" then Ok None
  else match Effective_ dir sb with
       | Err e => Err e
       | Ok effective => if EMissing effective then Ok (Some (missing_decision sb)) else Ok (unresolved_go sb host port (ERules effective))
       end.

End Decide.

(** * Matching a host by its labels *)

Definition label_ok (want got : string) : Prop := want = "*" ∨ want = got.

Lemma same_labels_spec want got : same_labels want got = true ↔ Forall2 label_ok want got.
Proof.
  unfold same_labels. split.
  - destruct (Nat.eqb_spec (length want) (length got)) as [E|]; [|done]. simpl. revert got E.
    induction want as [|w want IH]; intros [|g got] E; try done; simpl. intros H.
    destruct (String.eqb_spec w "*") as [->|]; simpl in H; [constructor; [by left|auto]|].
    destruct (String.eqb_spec w g) as [->|]; simpl in H; [constructor; [by right|auto]|done].
  - intros H. rewrite (proj2 (Nat.eqb_eq _ _)) by by eapply Forall2_length. simpl.
    induction H as [|w g want got Hw _ IH]; [done|]. simpl.
    destruct Hw as [->| ->]; simpl; [done|]. by rewrite String.eqb_refl, andb_false_r.
Qed.

(** What a pattern with a star in it names. *)
Definition star_match (want got : list string) : Prop :=
  (∃ tail front last, want = "*" :: tail ∧ got = front ++ last ∧ front ≠ [] ∧ Forall2 label_ok tail last) ∨
  (head want ≠ Some "*" ∧ Forall2 label_ok want got).

(** A pattern names the hosts its labels say: [*] alone every host; a name with no star itself
    alone; a leading [*.] any depth under the rest and never the rest itself; any other star exactly
    one label. *)
Theorem MatchHost_spec pattern host :
  MatchHost pattern host = true ↔
  pattern = "*" ∨ (Contains pattern "*" = false ∧ host = pattern) ∨
  (pattern ≠ "*" ∧ Contains pattern "*" = true ∧ star_match (Split "." pattern) (Split "." host)).
Proof.
  unfold MatchHost. destruct (String.eqb_spec pattern "*") as [->|Hne]; [naive_solver|].
  destruct (Contains pattern "*") eqn:Hc; simpl.
  2: { rewrite String.eqb_eq. naive_solver. }
  destruct (Split_cons "." pattern) as (w & want & Hs). rewrite Hs. unfold star_match.
  set (got := Split "." host). destruct (String.eqb_spec w "*") as [->|Hw].
  - destruct (length got <=? length want)%nat eqn:Hl; breflect.
    + split; [done|]. intros [?|[[? _]|(_ & _ & [(t & f & l & [= <-] & -> & Hf & H2)|[? _]])]]; try done.
      apply Forall2_length in H2. rewrite length_app in Hl. destruct f; simpl in Hl; [done|lia].
    + rewrite same_labels_spec. split.
      * intros H2. right; right. split_and!; try done. left.
        exists want, (take (length got - length want) got), (lastn (length want) got).
        split_and!; [done|unfold lastn; by rewrite take_drop| |done].
        intros E. apply (f_equal length) in E. rewrite length_take in E. simpl in E. lia.
      * intros [?|[[? _]|(_ & _ & [(t & f & l & [= <-] & -> & Hf & H2)|[Hh _]])]]; try done.
        unfold lastn. rewrite length_app. pose proof (Forall2_length _ _ _ H2).
        by rewrite drop_app_length' by lia.
  - rewrite same_labels_spec. split; [naive_solver|].
    intros [?|[[? _]|(_ & _ & [(t & f & l & E & _)|[_ H2]])]]; try done. congruence.
Qed.

(** A suffix rule names the suffix and every name below it. *)
Lemma MatchSuffix_spec value name :
  MatchSuffix value name = true ↔
  name = value ∨ ∃ front, front ≠ [] ∧ Split "." name = front ++ Split "." value.
Proof.
  unfold MatchSuffix. rewrite orb_true_iff, String.eqb_eq. f_equiv.
  change ("." +:+ value) with (String "." value). rewrite (HasSuffix_Split "." name value). naive_solver.
Qed.

(** * A label no rule spells *)

Fixpoint xs (n : nat) : string := match n with O => "" | S n => String "x" (xs n) end.

Lemma xs_snoc n : xs n +:+ "x" = xs (S n).
Proof. induction n as [|n IH]; [done|]. cbn [xs]. by rewrite app_cons, IH. Qed.

Lemma xs_length n : String.length (xs n) = n.
Proof. induction n as [|n IH]; simpl; auto. Qed.

Lemma xs_no_char c n : Ascii.eqb c "x" = false → contains_char c (xs n) = false.
Proof. intros H. induction n as [|n IH]; [done|]. cbn [xs]. by rewrite contains_char_cons, H, IH. Qed.

Lemma Split_word_length sep s w : w ∈ Split sep s → (String.length w ≤ String.length s)%nat.
Proof.
  revert w. induction s as [|c s IH]; intros w; simpl.
  - intros ->%list_elem_of_singleton. done.
  - destruct (Ascii.eqb c sep).
    + intros [->|H]%elem_of_cons; [simpl; lia|]. apply IH in H. lia.
    + destruct (Split sep s) as [|v vs]; [intros ->%list_elem_of_singleton; simpl; lia|].
      intros [->|H]%elem_of_cons; [|specialize (IH w ltac:(by right)); lia].
      specialize (IH v ltac:(by left)). simpl. lia.
Qed.

Lemma spelled_short rules label : spelled rules label = true → (String.length label < spell_bound rules)%nat.
Proof.
  unfold spelled, spell_bound. rewrite existsb_elem_of. intros (r & Hr & Hl).
  apply contains_elem_of, Split_word_length in Hl.
  assert (String.length (DValue (RDestination r)) ≤ max_list (String.length ∘ DValue ∘ RDestination <$> rules))%nat; [|lia].
  apply max_list_elem_of_le. by apply (list_elem_of_fmap_2 (String.length ∘ DValue ∘ RDestination)).
Qed.

Lemma fresh_go_spec rules fuel n :
  (spell_bound rules < n + fuel)%nat → (1 ≤ fuel)%nat →
  ∃ m, fresh_go fuel rules (xs n) = Some (xs m) ∧ (n ≤ m)%nat ∧ spelled rules (xs m) = false.
Proof.
  revert n. induction fuel as [|fuel IH]; intros n Hb Hf; [lia|]. cbn [fresh_go].
  destruct (spelled rules (xs n)) eqn:E; [|by exists n].
  rewrite xs_snoc. apply spelled_short in E. rewrite xs_length in E.
  destruct (IH (S n)) as (m & H1 & H2 & H3); [lia|lia|]. exists m. split_and!; [done|lia|done].
Qed.

(** The loop ends, with a label of [x]s that no rule spells. *)
Lemma freshLabel_spec rules :
  ∃ m, freshLabel rules = xs (S m) ∧ Forall (λ r, freshLabel rules ∉ Split "." (DValue (RDestination r))) rules.
Proof.
  destruct (fresh_go_spec rules (S (spell_bound rules)) 1) as (m & Hm & H1 & Hs); [lia|lia|].
  unfold freshLabel. change "x" with (xs 1). rewrite Hm. simpl. exists (pred m). split; [by destruct m; [lia|]|].
  apply Forall_forall. intros r Hr Hin. apply not_true_iff_false in Hs. apply Hs.
  apply existsb_elem_of. exists r. split; [done|]. by apply contains_elem_of.
Qed.

(** * Generic samples

    [generic f S N]: the sample labels [S] stand for the name labels [N], the fresh label [f] in the
    place of every label a star matched. *)

Definition stands (f s n : string) : Prop := s = f ∨ s = n.

Definition generic (f : string) (S N : list string) : Prop :=
  Forall2 (stands f) S N ∨ ∃ B A' B', S = f :: B ∧ N = A' ++ B' ∧ A' ≠ [] ∧ Forall2 (stands f) B B'.

Lemma stands_refl f l : Forall2 (stands f) l l.
Proof. induction l; constructor; [by right|done]. Qed.

Lemma generic_refl f l : generic f l l.
Proof. left. apply stands_refl. Qed.

Lemma stands_avoid f l l' : f ∉ l → Forall2 (stands f) l l' → l = l'.
Proof.
  intros Hf H. induction H as [|s n l l' [->| ->] _ IH]; [done|set_solver|]. f_equal. apply IH. set_solver.
Qed.

Lemma stands_label_ok f V S N :
  f ∉ V → Forall2 label_ok V S → Forall2 (stands f) S N → Forall2 label_ok V N.
Proof.
  intros Hf HV. revert N. induction HV as [|v s V S Hv _ IH]; intros N HN; inversion HN as [|? n ? N' Hs HN']; subst.
  - constructor.
  - constructor; [|apply IH; [set_solver|done]].
    destruct Hv as [->| ->]; [by left|]. destruct Hs as [->| ->]; [set_solver|by right].
Qed.

(** A tail of the sample that a pattern reaches is a tail of the name. *)
Lemma generic_tail f S N front last :
  generic f S N → S = front ++ last → front ≠ [] →
  ∃ front' last', N = front' ++ last' ∧ front' ≠ [] ∧ Forall2 (stands f) last last'.
Proof.
  intros [H|(B & A' & B' & E & -> & HA & HB)] HS Hne.
  - subst. apply Forall2_app_inv_l in H as (front' & last' & Hf & Hl & ->).
    exists front', last'. split_and!; [done| |done]. intros ->. by inversion Hf; subst.
  - rewrite HS in E. destruct front as [|x front]; [done|]. injection E as -> E. subst B.
    apply Forall2_app_inv_l in HB as (front' & last' & _ & Hl & ->).
    exists (A' ++ front'), last'. split_and!; [by rewrite app_assoc| |done]. by destruct A'.
Qed.

Lemma generic_avoid f S N : generic f S N → f ∉ S → S = N.
Proof. intros [H|(B & ? & ? & -> & _)] Hf; [by eapply stands_avoid|set_solver]. Qed.

(** A pattern that does not spell [f] and matches the sample matches the name. *)
Lemma MatchHost_generic f v s name :
  f ∉ Split "." v → generic f (Split "." s) (Split "." name) → MatchHost v s = true → MatchHost v name = true.
Proof.
  intros Hf HG. rewrite !MatchHost_spec. intros [->|[[Hc ->]|(Hne & Hc & Hm)]]; [by left| |].
  - right; left. split; [done|]. symmetry. by apply (Split_inj "."), generic_avoid with f.
  - right; right. split_and!; try done. destruct Hm as [(tail & front & last & HV & HS & Hn & Ho)|[Hh Ho]].
    + left. destruct (generic_tail _ _ _ _ _ HG HS Hn) as (front' & last' & HN & Hn' & Hl).
      exists tail, front', last'. split_and!; try done. rewrite HV in Hf.
      eapply stands_label_ok; [|exact Ho|exact Hl]. set_solver.
    + right. split; [done|]. destruct HG as [HG|(B & A' & B' & HS & _)].
      * by eapply stands_label_ok.
      * exfalso. rewrite HS in Ho. inversion Ho as [|v0 ? V ? [->| ->] _ E]; subst; rewrite <- E in *; [done|set_solver].
Qed.

Lemma MatchSuffix_generic f v s name :
  f ∉ Split "." v → generic f (Split "." s) (Split "." name) → MatchSuffix v s = true → MatchSuffix v name = true.
Proof.
  intros Hf HG. rewrite !MatchSuffix_spec. intros [->|(front & Hn & HS)].
  - left. symmetry. by apply (Split_inj "."), generic_avoid with f.
  - right. destruct (generic_tail _ _ _ _ _ HG HS Hn) as (front' & last' & HN & Hn' & Hl).
    exists front'. split; [done|]. by rewrite HN, (stands_avoid f _ _ Hf Hl).
Qed.

Lemma matchesName_generic f r s name :
  f ∉ Split "." (DValue (RDestination r)) → generic f (Split "." s) (Split "." name) →
  matchesName r s = true → matchesName r name = true.
Proof.
  intros Hf HG. unfold matchesName. destruct (_ && _); [done|].
  destruct (DKind (RDestination r)); try done; [by eapply MatchHost_generic|by eapply MatchSuffix_generic].
Qed.

(** A sample that stands for an allowed name is allowed. *)
Lemma resolves_generic f rules s name :
  Forall (λ r, f ∉ Split "." (DValue (RDestination r))) rules →
  generic f (Split "." s) (Split "." name) → resolves rules name = true →
  (∀ r, first_match (λ r, matchesName r name) rules = Some r → matchesName r s = true) →
  resolves rules s = true.
Proof.
  intros Hf HG. unfold resolves. induction rules as [|r rules IH]; [done|].
  apply Forall_cons in Hf as [Hfr Hf]. cbn [first_match].
  destruct (matchesName r name) eqn:Hn.
  - intros Hallow Hs. by rewrite (Hs r eq_refl).
  - intros H1 H2. destruct (matchesName r s) eqn:Hms; [|by apply IH].
    by rewrite (matchesName_generic _ _ _ _ Hfr HG Hms) in Hn.
Qed.

(** ** The samples of a rule *)

Lemma Split_app_word sep f s w ws :
  contains_char sep f = false → Split sep s = w :: ws → Split sep (f +:+ s) = (f +:+ w) :: ws.
Proof.
  intros Hf Hs. induction f as [|c f IH]; [done|]. rewrite contains_char_cons in Hf. breflect.
  rewrite !app_cons. cbn [Split]. rewrite Ascii.eqb_sym. rewrite H. by rewrite IH.
Qed.

Lemma ReplaceAll_star c s f :
  ReplaceAll (String c s) "*" f = if Ascii.eqb c "*" then f +:+ ReplaceAll s "*" f else String c (ReplaceAll s "*" f).
Proof.
  unfold ReplaceAll. cbn [replace_go String.prefix String.length Nat.sub].
  destruct (ascii_dec "*" c) as [<-|Hc]; [by destruct s|]. by rewrite (proj2 (Ascii.eqb_neq c "*")) by congruence.
Qed.

(** Replacing the stars of a name replaces them label by label. *)
Lemma Split_ReplaceAll f s :
  contains_char "." f = false → Split "." (ReplaceAll s "*" f) = (λ l, ReplaceAll l "*" f) <$> Split "." s.
Proof.
  intros Hf. induction s as [|c s IH]; [done|]. rewrite ReplaceAll_star. cbn [Split].
  destruct (Split_cons "." s) as (w & ws & Hs). rewrite Hs in *. rewrite fmap_cons in IH.
  destruct (Ascii.eqb_spec c "*") as [->|Hc].
  - simpl (Ascii.eqb _ _). cbv iota. rewrite fmap_cons, ReplaceAll_star. simpl (Ascii.eqb _ _). cbv iota.
    by apply Split_app_word.
  - cbn [Split]. destruct (Ascii.eqb_spec c ".") as [->|Hd].
    + by rewrite IH, !fmap_cons.
    + rewrite IH, fmap_cons, ReplaceAll_star. by rewrite (proj2 (Ascii.eqb_neq c "*")).
Qed.

Lemma ReplaceAll_no_star s f : contains_char "*" s = false → ReplaceAll s "*" f = s.
Proof.
  induction s as [|c s IH]; [done|]. rewrite contains_char_cons, ReplaceAll_star. intros H. breflect.
  rewrite Ascii.eqb_sym, H. by rewrite IH.
Qed.

Lemma ReplaceAll_only_star f : ReplaceAll "*" "*" f = f.
Proof. rewrite ReplaceAll_star. simpl (Ascii.eqb _ _). cbv iota. apply app_nil_r. Qed.

Definition star_or_plain (l : string) : Prop := l = "*" ∨ contains_char "*" l = false.

Lemma sub_label_ok f W : Forall star_or_plain W → Forall2 label_ok W ((λ l, ReplaceAll l "*" f) <$> W).
Proof.
  induction 1 as [|l W Hl _ IH]; [constructor|]. rewrite fmap_cons. constructor; [|done].
  destruct Hl as [->|Hl]; [by left|right; by rewrite ReplaceAll_no_star].
Qed.

Lemma sub_stands f W N :
  Forall star_or_plain W → Forall2 label_ok W N → Forall2 (stands f) ((λ l, ReplaceAll l "*" f) <$> W) N.
Proof.
  intros HW H. induction H as [|w n W N Hw _ IH]; [constructor|].
  apply Forall_cons in HW as [Hl HW]. rewrite fmap_cons. constructor; [|by apply IH].
  destruct Hl as [->|Hl]; [left; apply ReplaceAll_only_star|].
  rewrite ReplaceAll_no_star by done. destruct Hw as [->| ->]; [done|by right].
Qed.

(** A pattern with stars matches its own sample, which stands for every name it matches. *)
Lemma star_match_sample f W N :
  f ≠ "*" → Forall star_or_plain W → star_match W N →
  star_match W ((λ l, ReplaceAll l "*" f) <$> W) ∧ generic f ((λ l, ReplaceAll l "*" f) <$> W) N.
Proof.
  intros Hf HW [(tail & front & last & -> & -> & Hn & Ho)|[Hh Ho]].
  - apply Forall_cons in HW as [_ HW]. rewrite fmap_cons, ReplaceAll_only_star. split.
    + left. exists tail, [f], ((λ l, ReplaceAll l "*" f) <$> tail). split_and!; try done. by apply sub_label_ok.
    + right. exists ((λ l, ReplaceAll l "*" f) <$> tail), front, last. split_and!; try done. by apply sub_stands.
  - split; [right; split; [done|by apply sub_label_ok]|]. left. by apply sub_stands.
Qed.

Lemma generic_fresh f name : contains_char "." f = false → generic f (Split "." f) (Split "." name).
Proof.
  intros Hf. right. exists [], (Split "." name), []. rewrite Split_no_sep by done.
  split_and!; [done|by rewrite (right_id_L [] (++))|apply Split_not_nil|constructor].
Qed.

Section Samples.
Context `{U : Unicode}.

(** The labels of a rule's value, once the store has made it canonical. *)
Lemma canonical_value r :
  validRule r = Ok tt → canonical_rule r = r → named (DKind (RDestination r)) = true →
  DValue (RDestination r) = "*" ∨ Forall star_or_plain (Split "." (DValue (RDestination r))).
Proof.
  intros Hv Hc Hn. apply validRule_shape in Hv as (_ & _ & _ & _ & Hv).
  apply valid_named in Hv as (_ & _ & _ & Hh); [|done].
  apply validHostValue_cases in Hh as [[_ ->]|[[c Hd] _]]; [by left|]. right.
  apply validDestination_labels in Hd as (Ec & Hl & _).
  assert (DValue (RDestination r) = c) as ->.
  { rewrite Ec. apply (f_equal (DValue ∘ RDestination)) in Hc. simpl in Hc.
    unfold canonicalHost in Hc. rewrite Hn in Hc. by symmetry. }
  eapply Forall_impl; [exact Hl|]. intros l. unfold check_label, star_or_plain. rewrite <- Contains_char.
  destruct (String.eqb_spec l "*"); [by left|]. destruct (Contains l "*"); [done|by right].
Qed.

Lemma sample_stands f r name :
  f ≠ "*" → contains_char "." f = false → contains_char "*" f = false →
  validRule r = Ok tt → canonical_rule r = r → RAction r = ActionAllow → matchesName r name = true →
  ∃ s, s ∈ samples r f ∧ generic f (Split "." s) (Split "." name) ∧ matchesName r s = true.
Proof.
  intros Hf Hdot Hstar Hv Hc Ha. unfold matchesName, samples. rewrite Ha.
  change (bool_decide (ActionAllow = ActionDeny) && negb (closesName r)) with false. cbv iota.
  pose proof (canonical_value r Hv Hc) as Hval.
  destruct (DKind (RDestination r)) eqn:Hk; try done.
  - set (v := DValue (RDestination r)) in *. intros Hm. exists (ReplaceAll v "*" f). split; [by left|].
    destruct (Hval eq_refl) as [->|Hl].
    { rewrite ReplaceAll_only_star. split; [by apply generic_fresh|done]. }
    pose proof Hm as Hm'. apply MatchHost_spec in Hm' as [->|[[Hs ->]|(Hne & Hs & Hm')]].
    + rewrite ReplaceAll_only_star. split; [by apply generic_fresh|done].
    + rewrite Contains_char in Hs. rewrite ReplaceAll_no_star by done. split; [apply generic_refl|done].
    + destruct (star_match_sample f _ _ Hf Hl Hm') as [H1 H2]. rewrite Split_ReplaceAll by done.
      split; [done|]. apply MatchHost_spec. right; right. by rewrite Split_ReplaceAll.
  - set (v := DValue (RDestination r)) in *. intros Hm. apply MatchSuffix_spec in Hm as [->|(front & Hn & HN)].
    + exists v. split_and!; [by left|apply generic_refl|]. apply MatchSuffix_spec. by left.
    + exists (f +:+ "." +:+ v). split; [by right; left|].
      change (f +:+ "." +:+ v) with (f +:+ String "." v). split.
      * rewrite Split_app_sep by done. right. exists (Split "." v), front, (Split "." v).
        split_and!; try done. apply stands_refl.
      * apply MatchSuffix_spec. right. exists [f]. split; [done|]. by rewrite Split_app_sep.
  - intros Hm. exists f. split_and!; [by left|by apply generic_fresh|done].
Qed.

Lemma fresh_props rules :
  freshLabel rules ≠ "*" ∧ contains_char "." (freshLabel rules) = false ∧ contains_char "*" (freshLabel rules) = false.
Proof.
  destruct (freshLabel_spec rules) as (m & -> & _).
  split_and!; [by destruct m|by apply xs_no_char|by apply xs_no_char].
Qed.

(** Whether some name resolves is answered by the samples of the allow rules. *)
Lemma Resolves_resolves p :
  Forall (λ r, validRule r = Ok tt ∧ canonical_rule r = r) (PRules p) →
  Resolves p = true ↔ ∃ name, resolves (PRules p) name = true.
Proof.
  intros Hp. unfold Resolves. rewrite existsb_elem_of. split.
  - intros (r & _ & H). breflect. apply existsb_elem_of in H0 as (s & _ & Hs). by exists s.
  - intros [name Hn]. unfold resolves in Hn.
    destruct (first_match _ _) as [r|] eqn:Hm; [|done]. breflect.
    pose proof Hm as Hm'. apply first_match_Some in Hm' as (before & after & Hr & Hmr & _).
    assert (Hin : r ∈ PRules p) by (rewrite Hr; set_solver).
    destruct (proj1 (Forall_forall _ _) Hp r Hin) as [Hv Hc].
    destruct (fresh_props (PRules p)) as (H1 & H2 & H3).
    destruct (sample_stands _ _ name H1 H2 H3 Hv Hc Hn Hmr) as (s & Hs & HG & Hms).
    exists r. split; [done|]. rewrite (bool_decide_eq_true_2 _ Hn). simpl. apply existsb_elem_of. exists s. split; [done|].
    destruct (freshLabel_spec (PRules p)) as (m & _ & Hfresh).
    eapply resolves_generic; [exact Hfresh|exact HG| |].
    + unfold resolves. rewrite Hm. by apply bool_decide_eq_true.
    + intros r' Hr'. rewrite Hm in Hr'. by injection Hr' as <-.
Qed.

End Samples.

(** * Decisions *)

Lemma first_match_fmap {A B} (f : B → bool) (g : A → B) l :
  first_match f (g <$> l) = g <$> first_match (λ x, f (g x)) l.
Proof. induction l as [|x l IH]; [done|]. rewrite fmap_cons. simpl. by destruct (f (g x)). Qed.

Lemma number_ERule rules : ERule <$> number rules = ERule <$> rules.
Proof. unfold number. rewrite fmap_imap, <- imap_const. done. Qed.

Section Verdicts.
Context `{U : Unicode} (gateway : Z).

Lemma valid_action r : validRule r = Ok tt → RAction r = ActionAllow ∨ RAction r = ActionDeny.
Proof.
  unfold validRule. destruct (negb _ && _) eqn:E; [done|]. intros _.
  apply andb_false_iff in E as [E|E]; breflect; auto.
Qed.

Lemma valid_group r :
  validRule r = Ok tt → DKind (RDestination r) = DestinationGroup →
  DValue (RDestination r) = GroupAny ∨ (DValue (RDestination r) = GroupDNS ∧ RAction r = ActionAllow).
Proof.
  intros Hv Hk. apply validRule_shape in Hv as (_ & _ & _ & _ & Hv). unfold validDestination in Hv. rewrite Hk in Hv.
  unfold Groups in Hv. destruct (String.eqb_spec (DValue (RDestination r)) "any") as [->|]; [by left|].
  destruct (String.eqb_spec (DValue (RDestination r)) "dns") as [->|]; [|done]. right. split; [done|].
  simpl in Hv. destruct (bool_decide (RAction r = _)) eqn:E; breflect; [done|]. done.
Qed.

Lemma canonicalHost_idempotent a d proto ports :
  validRule (MkRule a d proto ports) = Ok tt → canonicalHost (canonicalHost d) = canonicalHost d.
Proof.
  intros Hv. destruct (named (DKind d)) eqn:Hn; [|by rewrite !canonicalHost_other by (by rewrite ?canonicalHost_other)].
  apply validRule_shape in Hv as (_ & _ & _ & _ & Hv). apply valid_named in Hv as (_ & _ & _ & Hh); [|done].
  unfold canonicalHost. rewrite Hn. simpl. rewrite Hn. simpl in Hh. f_equal.
  apply validHostValue_cases in Hh as [[_ ->]|[[c Hc] _]]; [done|].
  pose proof (validDestination_labels _ _ Hc) as (<- & Hl & _). by apply CanonicalHost_id.
Qed.

(** What a stored policy holds when [Get] answers it. *)
Definition stored_rule (r : Rule) : Prop := validRule r = Ok tt ∧ canonical_rule r = r.

Lemma Policy_Get_stored dir name p : Policy_Get dir name = Ok p → Forall stored_rule (PRules p).
Proof.
  unfold Policy_Get. destruct (PolicyValidName name); [|done].
  destruct (dir !! _) as [[| | |q]|]; try done. destruct (Validate _) as [[]|] eqn:Hv; [|done].
  intros [= <-]. apply Validate_Ok in Hv as (_ & _ & Hr). simpl in *. apply Forall_fmap.
  eapply Forall_impl; [exact Hr|]. intros [ra rd rp rs] H. split; [by apply canonical_valid|].
  unfold canonical_rule. simpl. f_equal. by eapply canonicalHost_idempotent.
Qed.

(** The rules in force are the DNS the policy implies, then its own rules in order. *)
Definition implied_rules (p : Policy) : list Rule :=
  if OpensDNS p then [ERule (dns_rule gateway "" "udp"); ERule (dns_rule gateway "" "tcp")] else [].

Lemma effective_rules_spec p : ERule <$> effective_rules gateway p = implied_rules p ++ PRules p.
Proof.
  unfold effective_rules, implied_rules. rewrite number_ERule.
  assert (Hr : ERule <$> ((λ r, MkEffectiveRule r "" "") <$> PRules p) = PRules p).
  { rewrite <- list_fmap_compose. by apply fmap_id_Forall, Forall_forall. }
  destruct (OpensDNS p); [|done]. by rewrite fmap_app, Hr.
Qed.

Lemma Effective_Ok dir sb e :
  SPolicyName sb ≠ "" → Effective_ gateway dir sb = Ok e →
  (EMissing e = true ∧ ERules e = []) ∨
  ∃ p, Policy_Get dir (SPolicyName sb) = Ok p ∧ EMissing e = false ∧ ERules e = effective_rules gateway p.
Proof.
  intros Hne. unfold Effective_. rewrite (proj2 (String.eqb_neq _ _)) by done.
  destruct (Policy_Get dir (SPolicyName sb)) as [p|err] eqn:E; [intros [= <-]; eauto|].
  destruct err; try done. intros [= <-]. by left.
Qed.

Lemma Effective_Get dir sb p :
  SPolicyName sb ≠ "" → Policy_Get dir (SPolicyName sb) = Ok p →
  Effective_ gateway dir sb = Ok (MkEffective false (effective_rules gateway p)).
Proof. intros Hne Hp. unfold Effective_. rewrite (proj2 (String.eqb_neq _ _)) by done. by rewrite Hp. Qed.

(** A rule in force: one the store validated, or the implied one, which allows an address. *)
Definition in_force (r : Rule) : Prop :=
  validRule r = Ok tt ∨ (RAction r = ActionAllow ∧ DKind (RDestination r) = DestinationCIDR).

Lemma effective_in_force dir name p :
  Policy_Get dir name = Ok p → Forall (λ r, in_force (ERule r)) (effective_rules gateway p).
Proof.
  intros Hp. apply Policy_Get_stored in Hp.
  cut (Forall in_force (ERule <$> effective_rules gateway p)); [by rewrite Forall_fmap|].
  rewrite effective_rules_spec. apply Forall_app. split.
  - unfold implied_rules. destruct (OpensDNS p); repeat constructor; by right.
  - eapply Forall_impl; [exact Hp|]. intros r [H _]. by left.
Qed.

Lemma in_force_action r : in_force r → RAction r = ActionAllow ∨ RAction r = ActionDeny.
Proof. intros [H|[H _]]; [by apply valid_action|auto]. Qed.

Lemma in_force_group r :
  in_force r → DKind (RDestination r) = DestinationGroup →
  DValue (RDestination r) = GroupAny ∨ (DValue (RDestination r) = GroupDNS ∧ RAction r = ActionAllow).
Proof. intros [H|[_ H]] Hk; [by apply valid_group|congruence]. Qed.

Lemma any_contains v : addr4_ok v → contains_addr (group_prefixes GroupAny) (Addr4 v) = true.
Proof.
  intros Hv. unfold GroupAny. rewrite group_prefixes_any. unfold contains_addr. cbn [existsb].
  rewrite orb_false_r. apply Contains4_spec; [lia|]. unfold addr4_ok in Hv. change (2 ^ (32 - 0)) with (2 ^ 32).
  rewrite !Z.div_small; lia.
Qed.

(** [DecideName] walks the stored rules: the implied ones are addresses, which match no name. *)
Lemma DecideName_resolves dir sb p name :
  SPolicyName sb ≠ "" → Policy_Get dir (SPolicyName sb) = Ok p →
  ∃ d, DecideName gateway dir sb name = Ok d ∧ (DAction d = ActionAllow ↔ resolves (PRules p) name = true).
Proof.
  intros Hne Hp. unfold DecideName. rewrite (proj2 (String.eqb_neq _ _)) by done.
  rewrite (Effective_Get dir sb p) by done. cbn [EMissing ERules].
  assert (Hm : first_match (λ r, matchesName r name) (PRules p) =
               ERule <$> first_match (λ r, matchesName (ERule r) name) (effective_rules gateway p)).
  { rewrite <- (first_match_fmap (λ r, matchesName r name) ERule), effective_rules_spec. unfold implied_rules. by destruct (OpensDNS p). }
  unfold resolves. rewrite Hm. destruct (first_match _ (effective_rules gateway p)) as [r|]; simpl.
  - eexists. split; [done|]. simpl. by rewrite bool_decide_eq_true.
  - eexists. split; [done|]. done.
Qed.

(** [Resolves] tells exactly whether the policy lets any name at all resolve: it asks the names each
    allow rule samples on a label no rule spells, and no other name could have been allowed instead. *)
Theorem Resolves_spec dir sb p :
  SPolicyName sb ≠ "" → Policy_Get dir (SPolicyName sb) = Ok p →
  Resolves p = true ↔ ∃ name d, DecideName gateway dir sb name = Ok d ∧ DAction d = ActionAllow.
Proof.
  intros Hne Hp. rewrite Resolves_resolves by by eapply Policy_Get_stored. split.
  - intros [name Hn]. destruct (DecideName_resolves dir sb p name Hne Hp) as (d & Hd & Ha). naive_solver.
  - intros (name & d & Hd & Ha). exists name.
    destruct (DecideName_resolves dir sb p name Hne Hp) as (d' & Hd' & Ha'). rewrite Hd in Hd'. naive_solver.
Qed.

(** The addresses that name the host itself, or every host, on any machine. *)
Definition special_address (a : Addr) : Prop :=
  IsUnspecified a = true ∨ Prefix_Contains thisNetwork a = true ∨ IsMulticast a = true ∨ a = broadcast.

(** What [Decide] has checked of an address before any rule is asked. *)
Lemma Decide_floor_holds addresses now l dir sb host port addr l' d :
  Decide gateway addresses now l dir sb host port addr = (l', Ok d) → DAction d = ActionAllow →
  contains_addr Private addr = false ∧ ~ special_address addr ∧
  ∃ known, lowned l' = Some known ∧ addr ∉ known ∧
    ((l' = l ∧ lread l ≠ 0 ∧ now - lread l < hostRefresh) ∨
     (lread l' = now ∧ ∃ addrs, addresses = Some addrs ∧ known = list_to_set addrs)).
Proof.
  unfold Decide, special_address. destruct (contains_addr Private addr); [by intros [= <- <-]|].
  unfold Local_Contains, hostOwned.
  destruct (IsUnspecified addr); [by intros [= <- <-]|].
  destruct (Prefix_Contains thisNetwork addr); [by intros [= <- <-]|].
  destruct (IsMulticast addr); [by intros [= <- <-]|].
  destruct (bool_decide (addr = broadcast)) eqn:H4; [by intros [= <- <-]|]. simpl.
  destruct (negb (lread l =? 0) && (now - lread l <? hostRefresh)) eqn:Hf.
  - breflect. destruct (lowned l) as [known|] eqn:Hl; [|by intros [= <- <-]].
    destruct (bool_decide (addr ∈ known)) eqn:H5; [by intros [= <- <-]|]. breflect.
    intros [= <- _] _. split_and!; [done|naive_solver|]. exists known. split_and!; [done|done|by left].
  - destruct addresses as [known|]; [|by intros [= <- <-]].
    destruct (bool_decide (addr ∈ (list_to_set known : gset Addr))) eqn:H5; [by intros [= <- <-]|]. breflect.
    intros [= <- _] _. split_and!; [done|naive_solver|]. eexists. split_and!; [done|done|]. right. eauto.
Qed.

(** C3: The floor holds under every policy: a connection [Decide] allows goes to no private range, to no
    unspecified, this-network, multicast or broadcast address, and to no address of the host, by an
    interface read of this call or by a successful one less than a second old; interfaces that cannot be
    read deny every address. *)
Theorem Decide_floor addresses now l dir sb host port addr l' d :
  Decide gateway addresses now l dir sb host port addr = (l', Ok d) → DAction d = ActionAllow →
  contains_addr Private addr = false ∧ ~ special_address addr ∧
  ∃ known, lowned l' = Some known ∧ addr ∉ known ∧
    ((l' = l ∧ lread l ≠ 0 ∧ now - lread l < hostRefresh) ∨
     (lread l' = now ∧ ∃ addrs, addresses = Some addrs ∧ known = list_to_set addrs)).
Proof. apply Decide_floor_holds. Qed.

(** The part of [Decide] under the floor. *)
Definition decide_rules (sb : Sandbox) (host : string) (port : Z) (addr : Addr) (e : Effective) : Decision :=
  if EMissing e then missing_decision sb
  else match first_match (λ r, matches (ERule r) host port addr) (ERules e) with
       | Some rule => rule_decision sb rule
       | None => default_decision sb host
       end.

Lemma Decide_cases addresses now l dir sb host port addr e :
  SPolicyName sb ≠ "" → Effective_ gateway dir sb = Ok e →
  ∃ l' d, Decide gateway addresses now l dir sb host port addr = (l', Ok d) ∧
    (DAction d = ActionDeny ∧ DRule d = None ∨ d = decide_rules sb host port addr e).
Proof.
  intros Hne He. unfold Decide, decide_rules. destruct (contains_addr Private addr); [eauto 10|].
  destruct (Local_Contains addresses now l addr) as [l' []]; [eauto 10|].
  rewrite (proj2 (String.eqb_neq _ _)), He by done.
  destruct (EMissing e); [eauto|]. destruct (first_match _ _); eauto.
Qed.

Lemma unresolved_denies sb host port v rules d :
  addr4_ok v → Forall (λ r, in_force (ERule r)) rules → unresolved_go sb host port rules = Some d →
  match first_match (λ r, matches (ERule r) host port (Addr4 v)) rules with
  | Some r => RAction (ERule r) = ActionDeny
  | None => True
  end.
Proof.
  intros Hv HF. induction HF as [|r rules Hr HF IH]; [done|]. cbn [unresolved_go first_match]. intros H.
  destruct (matches (ERule r) host port (Addr4 v)) eqn:Hm.
  - destruct (in_force_action _ Hr) as [Ha|Ha]; [|done]. exfalso. revert H Hm.
    pose proof (in_force_group _ Hr) as Hg.
    unfold nameDecidesHTTP, mightAllowByAddress, matches. rewrite Ha.
    destruct (speaks_tcp (ERule r) port); [|done]. cbn [negb].
    rewrite (bool_decide_eq_true_2 (ActionAllow = ActionAllow)) by done.
    rewrite (bool_decide_eq_false_2 (ActionAllow = ActionDeny)) by done. cbn [negb].
    destruct (DKind (RDestination (ERule r))) eqn:Hk; [done| | | |done].
    1,2: intros H Hx; by rewrite Hx in H.
    destruct (Hg eq_refl) as [->|[-> _]]; [done|]. done.
  - apply IH. destruct (nameDecidesHTTP (ERule r) host port) eqn:Hn.
    + exfalso. revert Hn Hm. unfold nameDecidesHTTP, matches. destruct (speaks_tcp (ERule r) port); [|done]. cbn [negb].
      destruct (DKind (RDestination (ERule r))) eqn:Hk; try done; [congruence..|].
      intros ->%String.eqb_eq. by rewrite any_contains.
    + by destruct (mightAllowByAddress (ERule r) port).
Qed.

(** A deny [Unresolved] calls final is final: [Decide] would deny that host and port too, whatever
    IPv4 address the name resolved to. *)
Theorem Unresolved_final dir sb host port d addresses now l v :
  Unresolved gateway dir sb host port = Ok (Some d) → addr4_ok v →
  ∃ l' d', Decide gateway addresses now l dir sb host port (Addr4 v) = (l', Ok d') ∧ DAction d' = ActionDeny.
Proof.
  unfold Unresolved. destruct (String.eqb_spec (SPolicyName sb) "") as [|Hne]; [done|].
  destruct (Effective_ gateway dir sb) as [e|] eqn:He; [|done]. intros Hu Hv.
  destruct (Decide_cases addresses now l dir sb host port (Addr4 v) e Hne He) as (l' & d' & Hd & [[Ha _]| ->]); [eauto|].
  eexists _, _. split; [done|]. unfold decide_rules.
  destruct (Effective_Ok _ _ _ Hne He) as [[-> _]|(p & Hp & Hm & HE)]; [done|]. rewrite Hm in *.
  injection Hu as Hu. rewrite HE in *. eapply unresolved_denies in Hu; [|done|by eapply effective_in_force].
  by destruct (first_match _ _).
Qed.

(** A deny that refuses a name refuses every web connection to it. *)
Lemma closing_deny_matches r host port v :
  in_force r → RAction r = ActionDeny → addr4_ok v → port ∈ webPorts →
  matchesName r host = true → matches r host port (Addr4 v) = true.
Proof.
  intros Hr Ha Hv Hport. unfold matchesName, matches. rewrite Ha.
  rewrite (bool_decide_eq_true_2 (ActionDeny = ActionDeny)) by done. cbn [andb].
  destruct (closesName r) eqn:Hc; [|done]. cbn [negb]. intros Hm.
  assert (Hs : speaks_tcp r port = true).
  { revert Hc. unfold closesName, speaks_tcp. destruct (_ && _); [done|].
    destruct (bool_decide (RPorts r = [])); [done|]. simpl. intros H. breflect.
    unfold webPorts in Hport. apply elem_of_cons in Hport as [->|Hport]; [done|].
    by apply list_elem_of_singleton in Hport as ->. }
  rewrite Hs. cbn [negb]. destruct (DKind (RDestination r)) eqn:Hk; try done.
  destruct (in_force_group r Hr Hk) as [->|[_ ?]]; [by apply any_contains|congruence].
Qed.

(** A verdict that names a rule is the first match of the policy in force. *)
Lemma Decide_rule addresses now l dir sb host port addr l' d r :
  Decide gateway addresses now l dir sb host port addr = (l', Ok d) → DRule d = Some r →
  ∃ p, SPolicyName sb ≠ "" ∧ Policy_Get dir (SPolicyName sb) = Ok p ∧ d = rule_decision sb r ∧
    first_match (λ r, matches (ERule r) host port addr) (effective_rules gateway p) = Some r.
Proof.
  unfold Decide. destruct (contains_addr _ _); [by intros [= <- <-]|].
  destruct (Local_Contains _ _ _ _) as [? []]; [by intros [= <- <-]|].
  destruct (String.eqb_spec (SPolicyName sb) "") as [|Hne]; [by intros [= <- <-]|].
  destruct (Effective_ gateway dir sb) as [e|] eqn:He; [|done].
  destruct (Effective_Ok _ _ _ Hne He) as [[-> _]|(p & Hp & -> & ->)]; [by intros [= <- <-]|].
  destruct (first_match _ _) as [r'|] eqn:Hf; [|by intros [= <- <-]].
  intros [= <- <-] [= ->]. eauto.
Qed.

(** A name rule speaks for the web ports alone. *)
Lemma named_speaks_web r port :
  in_force r → named (DKind (RDestination r)) = true → speaks_tcp r port = true → port ∈ webPorts.
Proof.
  intros [Hr|[_ Hr]] Hn; [|by rewrite Hr in Hn].
  apply validRule_shape in Hr as (_ & _ & _ & _ & Hvd). apply valid_named in Hvd as (Hpr & Hps & Hw & _); [|done].
  unfold speaks_tcp. rewrite Hpr, (bool_decide_eq_false_2 _ Hps). simpl.
  rewrite contains_elem_of. intros Hin. exact (proj1 (Forall_forall _ _) Hw port Hin).
Qed.

(** An allow that matched a connection by name matches the name, and only on a web port. *)
Lemma named_allow_matches r host port addr :
  in_force r → RAction r = ActionAllow → named (DKind (RDestination r)) = true →
  matches r host port addr = true → matchesName r host = true ∧ port ∈ webPorts.
Proof.
  intros HFr Ha Hn. unfold matches, matchesName. rewrite Ha.
  rewrite (bool_decide_eq_false_2 (ActionAllow = ActionDeny)) by done. cbn [andb].
  destruct (speaks_tcp r port) eqn:Hs; [|done]. cbn [negb].
  pose proof (named_speaks_web r port HFr Hn Hs). by destruct (DKind (RDestination r)).
Qed.

(** What the name walk meets before that allow is an allow, or the connection would have met its deny. *)
Lemma name_walk_allows host port v before r after :
  Forall (λ b, in_force (ERule b) ∧ matches (ERule b) host port (Addr4 v) = false) before →
  addr4_ok v → port ∈ webPorts → RAction (ERule r) = ActionAllow → matchesName (ERule r) host = true →
  ∃ r', first_match (λ r, matchesName (ERule r) host) (before ++ r :: after) = Some r' ∧ RAction (ERule r') = ActionAllow.
Proof.
  intros Hb Hv Hport Ha Hname. induction Hb as [|b before [HF Hm] _ IH]; cbn [first_match app].
  - rewrite Hname. eauto.
  - destruct (matchesName (ERule b) host) eqn:Hmb; [|done]. exists b. split; [done|].
    destruct (in_force_action _ HF) as [?|Hdeny]; [done|].
    by rewrite (closing_deny_matches _ _ _ _ HF Hdeny Hv Hport Hmb) in Hm.
Qed.

(** Every host the proxy lets through by a name rule is a host the guest may resolve: when the first
    rule to match a web connection is an allow of that name, [DecideName] allows the name too. *)
Theorem Decide_name_resolves addresses now l dir sb host port v l' d r :
  Decide gateway addresses now l dir sb host port (Addr4 v) = (l', Ok d) →
  DAction d = ActionAllow → DRule d = Some r → named (DKind (RDestination (ERule r))) = true → addr4_ok v →
  ∃ d', DecideName gateway dir sb host = Ok d' ∧ DAction d' = ActionAllow.
Proof.
  intros Hd Ha Hr Hn Hv. destruct (Decide_rule _ _ _ _ _ _ _ _ _ _ _ Hd Hr) as (p & Hne & Hp & -> & Hf).
  pose proof (effective_in_force dir _ p Hp) as HF.
  apply first_match_Some in Hf as (before & after & HL & Hmatch & Hb). rewrite HL in HF.
  apply Forall_app in HF as [HFb HFr]. apply Forall_cons in HFr as [HFr _].
  destruct (named_allow_matches _ _ _ _ HFr Ha Hn Hmatch) as [Hname Hport].
  destruct (name_walk_allows host port v before r after) as (r' & Hw & Ha'); try done.
  { apply Forall_and. done. }
  exists (rule_decision sb r'). split; [|done]. unfold DecideName.
  rewrite (proj2 (String.eqb_neq _ _)), (Effective_Get dir sb p) by done. cbn [EMissing ERules]. by rewrite HL, Hw.
Qed.

End Verdicts.

(** * Witnesses *)

Definition web_policy : Policy :=
  MkPolicy "web" [MkRule ActionDeny (MkDestination DestinationDomain "*.evil.example.com") "tcp" [80; 443];
                  MkRule ActionAllow (MkDestination DestinationDomainSuffix "example.com") "tcp" [443];
                  MkRule ActionDeny (MkDestination DestinationGroup "any") "" []].

Definition web_dir : gmap string policy_entry := {[ "web.json" := PolicyFile web_policy ]}.
Definition web_sandbox : Sandbox :=
  let '(MkSandbox a1 a2 a3 a4 a5 a6 a7 a8 a9 a10 a11 a12 a13 a14 a15 a16 a17 a18 a19 a20 a21 a22 a23 a24 a25 a26 _ a28 a29 a30 a31) := sandbox_zero in
  MkSandbox a1 a2 a3 a4 a5 a6 a7 a8 a9 a10 a11 a12 a13 a14 a15 a16 a17 a18 a19 a20 a21 a22 a23 a24 a25 a26 "web" a28 a29 a30 a31.
Definition web_gateway : Z := 173473793.
Definition public_addr : Z := 134744072.
Definition host_addrs : option (list Addr) := Some [Addr4 web_gateway].

Definition web_decide (host : string) (port : Z) : Local * result policy_error Decision :=
  Decide (U := ascii_only) web_gateway host_addrs 5 (MkLocal None 0) web_dir web_sandbox host port (Addr4 public_addr).

Lemma Resolves_spec_witness :
  ∃ name d, DecideName (U := ascii_only) web_gateway web_dir web_sandbox name = Ok d ∧ DAction d = ActionAllow.
Proof.
  apply (proj1 (Resolves_spec (U := ascii_only) web_gateway web_dir web_sandbox web_policy ltac:(done) ltac:(vm_compute; reflexivity))).
  vm_compute. reflexivity.
Defined.

Lemma Decide_floor_witness :
  (web_decide "api.example.com" 443).1 = MkLocal (Some {[ Addr4 web_gateway ]}) 5 ∧
  contains_addr Private (Addr4 public_addr) = false.
Proof.
  split; [vm_compute; reflexivity|].
  exact (proj1 (Decide_floor (U := ascii_only) web_gateway host_addrs 5 (MkLocal None 0) web_dir web_sandbox
    "api.example.com" 443 (Addr4 public_addr) _ _ ltac:(vm_compute; reflexivity) ltac:(vm_compute; reflexivity))).
Defined.

Lemma Unresolved_final_witness :
  ∃ l' d', web_decide "a.evil.example.com" 443 = (l', Ok d') ∧ DAction d' = ActionDeny.
Proof.
  refine (Unresolved_final (U := ascii_only) web_gateway web_dir web_sandbox "a.evil.example.com" 443 _
    host_addrs 5 (MkLocal None 0) public_addr _ _).
  - vm_compute. reflexivity.
  - unfold addr4_ok, public_addr. lia.
Defined.

Lemma Decide_name_resolves_witness :
  ∃ d', DecideName (U := ascii_only) web_gateway web_dir web_sandbox "api.example.com" = Ok d' ∧ DAction d' = ActionAllow.
Proof.
  refine (Decide_name_resolves (U := ascii_only) web_gateway host_addrs 5 (MkLocal None 0) web_dir web_sandbox
    "api.example.com" 443 public_addr _ _ _ _ _ _ _ _).
  - vm_compute. reflexivity.
  - vm_compute. reflexivity.
  - vm_compute. reflexivity.
  - vm_compute. reflexivity.
  - unfold addr4_ok, public_addr. lia.
Defined.
