(* ===== verification/EgressCompile.v ===== *)
(** * Compiling policies into host chains

    [services/egress/compile.go]: one chain per fronted sandbox, each rule resolved to prefixes, and the
    last whole chain kept for a sandbox whose rules did not change and whose names no longer resolve. *)

From S2P Require Import Prelude GoStrings Sha256 Netip Models Store Secret Network EgressPolicy EgressDecide.
Local Open Scope Z_scope.

Inductive compile_failure : Type :=
| ELookup (host : string)
| ENoIPv4 (host : string)
| ECidr (e : rule_error)
| ECannotEnforce.

Inductive chains_error : Type :=
| ERecords
| ENoAddressOnRecord (id : string)
| EEffective (id : string) (e : policy_error)
| ECancelled (id : string) (e : compile_failure)
| EOnLastGood (e : compile_failure)
| EOnClosed (e : compile_failure).

Definition RuleSum (rule : Rule) : string := EncodeToString (take 6 (Sum256 (bytes_of (FormatRule rule)))).

Definition prefix_le (p q : Prefix) : Prop := Addr_Compare (paddr p) (paddr q) ≠ Gt.
#[export] Instance prefix_le_dec : RelDecision prefix_le.
Proof. intros p q. unfold prefix_le. apply _. Defined.

(** [LookupNetIP] of the resolver, for one call: [None] when it failed. *)
Definition resolver : Type := string → option (list Addr).

Definition resolve (lookup : resolver) (host : string) : result compile_failure (list Prefix) :=
  match lookup host with
  | None => Err (ELookup host)
  | Some addrs =>
      let prefixes := omap (λ addr, let addr := Unmap addr in
                              if negb (Is4 addr) then None else Some (PrefixFrom addr (BitLen addr))) addrs in
      if bool_decide (prefixes = []) then Err (ENoIPv4 host)
      else Ok (Compact (merge_sort prefix_le prefixes))
  end.

Definition Lookup (lookup : resolver) (host : string) : result compile_failure (list Addr) :=
  prefixes ← resolve lookup host; Ok (map paddr prefixes).

Definition compile (lookup : resolver) (rule : EffectiveRule) : result compile_failure Compiled :=
  let r := ERule rule in
  let compiled := MkCompiled (EID rule) (RuleSum r) (RAction r) (RProtocol r) (RPorts r) in
  match DKind (RDestination r) with
  | DestinationCIDR =>
      match parseCIDR (DValue (RDestination r)) with
      | Err e => Err (ECidr e)
      | Ok prefix => Ok (compiled [prefix])
      end
  | DestinationGroup => Ok (compiled (group_prefixes (DValue (RDestination r))))
  | DestinationDomain =>
      if Contains (DValue (RDestination r)) "*" then Ok (compiled [])
      else prefixes ← resolve lookup (DValue (RDestination r)); Ok (compiled prefixes)
  | DestinationDomainSuffix => Ok (compiled [])
  | DestinationOther _ => Err ECannotEnforce
  end.

(** [lookups] answers the lookup of each rule, by its id. *)
Fixpoint compileChain (lookups : string → resolver) (chain : Chain) (rules : list EffectiveRule)
  : result compile_failure Chain :=
  match rules with
  | [] => Ok chain
  | rule :: rules =>
      compiled ← compile (lookups (EID rule)) rule;
      compileChain lookups (MkChain (ChAddress chain) (ChPolicy chain) (ChRules chain ++ [compiled])) rules
  end.

(** [Compiles]: the first rule of the policy no apply could take. *)
Fixpoint compiles_go (lookups : nat → resolver) (i : nat) (rules : list Rule) : result (string * compile_failure) unit :=
  match rules with
  | [] => Ok tt
  | rule :: rules =>
      match compile (lookups i) (MkEffectiveRule rule "" "") with
      | Err e => Err (FormatRule rule, e)
      | Ok _ => compiles_go lookups (S i) rules
      end
  end.

Definition Compiles (lookups : nat → resolver) (policy : Policy) : result (string * compile_failure) unit :=
  compiles_go lookups 0 (PRules policy).

Definition Fronted (sb : Sandbox) : bool := negb (String.eqb (SPolicyName sb) "") || negb (bool_decide (Secrets sb = [])).

Record goodChain : Type := MkGoodChain { grules : list EffectiveRule; gchain : Chain }.

Section Chains.
Context `{U : Unicode} (gateway : Z) (dir : gmap string policy_entry).

(** What each rule's lookup answers, by sandbox, and whether the context is done when a compile fails. *)
Context (lookups : string → string → resolver) (cancelled : string → bool).

Record progress : Type := MkProgress {
  pchains : list Chain;
  pheld : gmap string chains_error;
  pcompiled : gset string
}.

Definition add_chain (p : progress) (c : Chain) : progress :=
  MkProgress (pchains p ++ [c]) (pheld p) (pcompiled p).

Definition hold (p : progress) (id : string) (c : Chain) (e : chains_error) : progress :=
  MkProgress (pchains p ++ [c]) (<[id := e]> (pheld p)) (pcompiled p).

(** One turn of the loop over the records: the chains cached so far outlive a failure of the turn. *)
Definition chains_step (good : gmap string goodChain) (p : progress) (sb : Sandbox)
  : gmap string goodChain * result chains_error progress :=
  if Fronted sb && Live (SState sb) && negb (Prefix_IsValid (Address sb)) then (good, Err (ENoAddressOnRecord (ID sb)))
  else if negb (Fronted sb) || negb (Prefix_IsValid (Address sb)) || bool_decide (SState sb = StateFailed) then (good, Ok p)
  else
    let chain := MkChain (paddr (Address sb)) (negb (String.eqb (SPolicyName sb) "")) [] in
    if negb (ChPolicy chain) then (good, Ok (add_chain p chain))
    else match Effective_ gateway dir sb with
         | Err e => (good, Err (EEffective (ID sb) e))
         | Ok effective =>
             let p := MkProgress (pchains p) (pheld p) ({[ID sb]} ∪ pcompiled p) in
             match compileChain (lookups (ID sb)) chain (ERules effective) with
             | Ok whole => (<[ID sb := MkGoodChain (ERules effective) whole]> good, Ok (add_chain p whole))
             | Err e =>
                 if cancelled (ID sb) then (good, Err (ECancelled (ID sb) e))
                 else match good !! ID sb with
                      | Some last =>
                          if bool_decide (ChAddress (gchain last) = ChAddress chain) && bool_decide (grules last = ERules effective)
                          then (good, Ok (hold p (ID sb) (gchain last) (EOnLastGood e)))
                          else (good, Ok (hold p (ID sb) chain (EOnClosed e)))
                      | None => (good, Ok (hold p (ID sb) chain (EOnClosed e)))
                      end
             end
         end.

Fixpoint chains_go (good : gmap string goodChain) (p : progress) (sandboxes : list Sandbox)
  : gmap string goodChain * result chains_error progress :=
  match sandboxes with
  | [] => (good, Ok p)
  | sb :: sandboxes =>
      match chains_step good p sb with
      | (good, Ok p) => chains_go good p sandboxes
      | (good, Err e) => (good, Err e)
      end
  end.

(** [sandboxes] is what the readable records are, or [None] when they cannot be listed. *)
Definition Chains (good : gmap string goodChain) (sandboxes : option (list Sandbox))
  : gmap string goodChain * (list Chain * option (compile_error chains_error)) :=
  match sandboxes with
  | None => (good, ([], Some (CompileFailed ERecords)))
  | Some sandboxes =>
      match chains_go good (MkProgress [] ∅ ∅) sandboxes with
      | (good, Err e) => (good, ([], Some (CompileFailed e)))
      | (good, Ok p) =>
          (filter (λ '(id, _), id ∈ pcompiled p) good,
           (pchains p, if bool_decide (pheld p = ∅) then None else Some (HeldChains (pheld p))))
      end
  end.

End Chains.

(** * What a chain holds *)

Lemma compileChain_rules lookups chain rules whole :
  compileChain lookups chain rules = Ok whole ↔
  ∃ cs, Forall2 (λ r c, compile (lookups (EID r)) r = Ok c) rules cs ∧
        whole = MkChain (ChAddress chain) (ChPolicy chain) (ChRules chain ++ cs).
Proof.
  revert chain. induction rules as [|r rules IH]; intros chain; cbn [compileChain].
  - split.
    + intros [= <-]. exists []. rewrite (right_id_L [] (++)). split; [constructor|by destruct chain].
    + intros (cs & H & ->). inversion H; subst. rewrite (right_id_L [] (++)). by destruct chain.
  - destruct (compile (lookups (EID r)) r) as [c|e] eqn:Hc; simpl.
    + rewrite IH. simpl. split.
      * intros (cs & Hcs & ->). exists (c :: cs). split; [by constructor|]. by rewrite <- app_assoc.
      * intros (cs & Hcs & ->). inversion Hcs as [|? c' ? cs' Hc' Hcs']; subst. exists cs'. split; [done|].
        rewrite <- app_assoc. simpl. congruence.
    + split; [done|]. intros (cs & Hcs & _). inversion Hcs; subst. congruence.
Qed.

Lemma resolve_v4 lookup host prefixes :
  resolve lookup host = Ok prefixes →
  prefixes ≠ [] ∧ Forall (λ p, Is4 (paddr p) = true ∧ pbits p = 32) prefixes.
Proof.
  unfold resolve. destruct (lookup host) as [addrs|]; [|done].
  set (ps := omap _ addrs). destruct (bool_decide (ps = [])) eqn:E; [done|]. breflect. intros [= <-].
  assert (Hin : ∀ p, p ∈ Compact (merge_sort prefix_le ps) ↔ p ∈ ps)
    by (intros p; by rewrite Compact_elem_of, merge_sort_Permutation). split.
  - intros Hn. destruct ps as [|p ps]; [done|]. assert (p ∈ (@nil Prefix)); [|set_solver].
    rewrite <- Hn. apply Hin. by left.
  - apply Forall_forall. intros p. rewrite Hin. intros Hp. apply list_elem_of_omap in Hp as (a & _ & Ha).
    destruct (Unmap a) as [|v|] eqn:Eu; simpl in Ha; try done. by injection Ha as <-.
Qed.

Section Agreement.
Context `{U : Unicode} (gateway : Z).

(** A rule and its compiled form match the same flows, except a name rule on the ports the proxy takes. *)
Lemma compile_matches lookup r c guest host port v :
  in_force (ERule r) → compile lookup r = Ok c →
  named (DKind (RDestination (ERule r))) = false ∨ port ∉ webPorts →
  Network.matches c (MkFlow guest "tcp" (Addr4 v) port) = matches (ERule r) host port (Addr4 v)
  ∧ CAction c = RAction (ERule r) ∧ CID c = EID r.
Proof.
  intros Hr Hc Hport.
  assert (Hmeta : CAction c = RAction (ERule r) ∧ CID c = EID r ∧ CProtocol c = RProtocol (ERule r) ∧ CPorts c = RPorts (ERule r)).
  { revert Hc. unfold compile. repeat case_match; try done; try (intros [= <-]; done).
    destruct (resolve _ _); [|done]. by intros [= <-]. }
  destruct Hmeta as (Ha & Hid & Hp & Hps). split; [|done].
  assert (Hspeaks : (if negb (String.eqb (CProtocol c) "") && negb (String.eqb (CProtocol c) "tcp") then false
                     else bool_decide (CPorts c = []) || contains (CPorts c) port) = speaks_tcp (ERule r) port)
    by (unfold speaks_tcp; by rewrite Hp, Hps).
  unfold Network.matches, matches. cbn [FAddr FProtocol FPort]. rewrite Hspeaks.
  destruct (speaks_tcp (ERule r) port) eqn:Hs; [|by destruct (contains_addr _ _)]. cbn [negb].
  destruct (DKind (RDestination (ERule r))) eqn:Hk.
  - unfold compile in Hc. rewrite Hk in Hc. destruct (parseCIDR _) as [pf|]; [|done].
    injection Hc as <-. unfold contains_addr. simpl. rewrite orb_false_r. by destruct (Prefix_Contains pf (Addr4 v)).
  - exfalso. destruct Hport as [|Hport]; [done|]. apply Hport. eapply named_speaks_web; [exact Hr|by rewrite Hk|done].
  - exfalso. destruct Hport as [|Hport]; [done|]. apply Hport. eapply named_speaks_web; [exact Hr|by rewrite Hk|done].
  - unfold compile in Hc. rewrite Hk in Hc. injection Hc as <-. simpl. by destruct (contains_addr _ _).
  - unfold compile in Hc. by rewrite Hk in Hc.
Qed.

Lemma first_match_agree guest host port v lookups rules cs :
  Forall2 (λ r c, compile (lookups (EID r)) r = Ok c) rules cs →
  Forall (λ r, in_force (ERule r) ∧ (named (DKind (RDestination (ERule r))) = false ∨ port ∉ webPorts)) rules →
  match first_match (λ r, matches (ERule r) host port (Addr4 v)) rules,
        first_match (λ c, Network.matches c (MkFlow guest "tcp" (Addr4 v) port)) cs with
  | Some r, Some c => CAction c = RAction (ERule r) ∧ CID c = EID r
  | None, None => True
  | _, _ => False
  end.
Proof.
  induction 1 as [|r c rules cs Hc _ IH]; [done|]. intros [[Hf Hp] HF]%Forall_cons. cbn [first_match].
  destruct (compile_matches _ _ _ guest host port v Hf Hc Hp) as (-> & Ha & Hid).
  destruct (matches (ERule r) host port (Addr4 v)); [done|]. by apply IH.
Qed.

Lemma unnamed_effective p :
  Forall (λ r, named (DKind (RDestination r)) = false) (PRules p) →
  Forall (λ r, named (DKind (RDestination (ERule r))) = false) (effective_rules gateway p).
Proof.
  intros H. cut (Forall (λ r, named (DKind (RDestination r)) = false) (ERule <$> effective_rules gateway p)).
  { by rewrite Forall_fmap. }
  rewrite effective_rules_spec. apply Forall_app. split; [|done].
  unfold implied_rules. destruct (OpensDNS p); repeat constructor.
Qed.

(** C5: The two places that enforce a policy agree: once its chain is applied, the judge gives a tcp flow
    the verdict [Decide] gives, and the same rule id, on every port the proxy does not take, and on
    every port when the policy names no host. Only an address that is private and local at once may
    be reported under either floor. *)
Theorem Judge_agrees_Decide lookups dir sb p guest chain host port v j addresses now l :
  SPolicyName sb ≠ "" → Policy_Get dir (SPolicyName sb) = Ok p →
  compileChain lookups (MkChain guest true []) (effective_rules gateway p) = Ok chain →
  (port ∉ webPorts ∨ Forall (λ r, named (DKind (RDestination r)) = false) (PRules p)) →
  applied j = true → chains j !! guest = Some chain →
  let local := (Local_Contains addresses now l (Addr4 v)).2 in
  let verdict := Judge_Judge local j (MkFlow guest "tcp" (Addr4 v) port) in
  ∃ l' d, Decide gateway addresses now l dir sb host port (Addr4 v) = (l', Ok d) ∧
    VAllow verdict = bool_decide (DAction d = ActionAllow) ∧
    (local && contains_addr Private (Addr4 v) = false → VRule verdict = DID d).
Proof.
  intros Hne Hp Hc Hport Hj Hch local verdict.
  apply compileChain_rules in Hc as (cs & Hcs & ->). cbn [ChAddress ChPolicy ChRules app] in Hch.
  assert (HF : Forall (λ r, in_force (ERule r) ∧ (named (DKind (RDestination (ERule r))) = false ∨ port ∉ webPorts))
                 (effective_rules gateway p)).
  { apply Forall_and. split; [by eapply effective_in_force|]. destruct Hport as [Hport|Hport].
    - apply Forall_forall. auto.
    - eapply Forall_impl; [by apply unnamed_effective|]. auto. }
  pose proof (first_match_agree guest host port v _ _ _ Hcs HF) as Hagree.
  unfold Decide. subst verdict. unfold Judge_Judge. cbn [FAddr FGuest]. rewrite Hj, Hch. cbn [negb ChPolicy ChRules].
  subst local. remember (contains_addr Private (Addr4 v)) as floor eqn:Hfloor. clear Hfloor. destruct floor.
  { eexists _, _. split; [done|]. destruct (Local_Contains addresses now l (Addr4 v)) as [? []]; cbn [snd]; (split; [reflexivity|]); cbn [andb VRule DID]; congruence. }
  destruct (Local_Contains addresses now l (Addr4 v)) as [l' []]; cbn [snd]; [eexists _, _; done|].
  rewrite (proj2 (String.eqb_neq _ _)), (Effective_Get gateway dir sb p) by done. cbn [EMissing ERules].
  destruct (first_match _ (effective_rules gateway p)) as [r|], (first_match _ cs) as [c|]; try done.
  - eexists _, _. split; [done|]. destruct Hagree as [Ha Hid]. simpl. by rewrite Ha, Hid.
  - eexists _, _. done.
Qed.

End Agreement.

(** * The chains of every sandbox *)

(** Every cached chain is a whole compile of the rules kept beside it. *)
Definition good_ok (good : gmap string goodChain) : Prop :=
  ∀ id g, good !! id = Some g →
  ∃ lk, compileChain lk (MkChain (ChAddress (gchain g)) true []) (grules g) = Ok (gchain g).

(** The sandboxes the host must hold a chain for. *)
Definition guarded (sb : Sandbox) : bool :=
  Fronted sb && Prefix_IsValid (Address sb) && negb (bool_decide (SState sb = StateFailed)).

Section Sound.
Context `{U : Unicode} (gateway : Z) (dir : gmap string policy_entry).
Context (lookups : string → string → resolver) (cancelled : string → bool).

(** [chain] is one the sandbox may run under: with no policy, the open chain that only redirects; with
    one, a whole compile of the rules in force now, from this run's lookups unless it is held; held, it
    may be an earlier compile of the same rules, or closed. *)
Definition serves (held : gmap string chains_error) (sb : Sandbox) (chain : Chain) : Prop :=
  let start policy := MkChain (paddr (Address sb)) policy [] in
  if String.eqb (SPolicyName sb) "" then chain = start false
  else ∃ e, Effective_ gateway dir sb = Ok e ∧
       match held !! ID sb with
       | None => compileChain (lookups (ID sb)) (start true) (ERules e) = Ok chain
       | Some _ => chain = start true ∨ ∃ lk, compileChain lk (start true) (ERules e) = Ok chain
       end.

Lemma serves_mono held held' sb chain :
  dom held ⊆ dom held' → serves held sb chain → serves held' sb chain.
Proof.
  intros Hd. unfold serves. destruct (String.eqb _ _); [done|]. intros (e & He & H). exists e. split; [done|].
  destruct (held' !! ID sb) eqn:H'; destruct (held !! ID sb) eqn:H1; [done|by right; eauto| |done].
  exfalso. apply elem_of_dom_2, Hd, elem_of_dom in H1 as [? H1]. congruence.
Qed.

Lemma good_ok_insert good id lk addr rules whole :
  good_ok good → compileChain lk (MkChain addr true []) rules = Ok whole →
  good_ok (<[id := MkGoodChain rules whole]> good).
Proof.
  intros Hg Hc i g. destruct (decide (i = id)) as [->|Hne].
  - rewrite lookup_insert_eq. intros [= <-]. exists lk. simpl.
    pose proof Hc as Hc'. apply compileChain_rules in Hc' as (cs & _ & ->). done.
  - rewrite lookup_insert_ne by done. apply Hg.
Qed.

(** What one turn adds: the chain of a sandbox to guard, and nothing otherwise. *)
Definition step_ok (p p' : progress) (sb : Sandbox) : Prop :=
  dom (pheld p) ⊆ dom (pheld p') ∧ (Fronted sb = true → Live (SState sb) = true → guarded sb = true) ∧
  if guarded sb then ∃ c, pchains p' = pchains p ++ [c] ∧ serves (pheld p') sb c else p' = p.

Lemma guarded_live sb :
  Fronted sb && Live (SState sb) && negb (Prefix_IsValid (Address sb)) = false →
  Fronted sb = true → Live (SState sb) = true → guarded sb = true.
Proof.
  unfold guarded. intros H Hf Hl. rewrite Hf, Hl in H. cbn [andb] in H. breflect. rewrite Hf, H. cbn [andb].
  rewrite bool_decide_eq_false_2; [done|]. intros E. by rewrite E in Hl.
Qed.

Lemma chains_step_good good p sb good' r :
  good_ok good → chains_step gateway dir lookups cancelled good p sb = (good', r) → good_ok good'.
Proof.
  intros Hg. unfold chains_step.
  destruct (_ && _ && _); [by intros [= <- _]|]. destruct (_ || _ || _); [by intros [= <- _]|].
  destruct (String.eqb (SPolicyName sb) ""); cbn [negb ChPolicy]; [by intros [= <- _]|].
  destruct (Effective_ gateway dir sb) as [e|]; [|by intros [= <- _]].
  destruct (compileChain _ _ _) as [whole|] eqn:Hc; [intros [= <- _]; by eapply good_ok_insert|].
  destruct (cancelled (ID sb)); [by intros [= <- _]|].
  destruct (good !! ID sb) as [last|]; [|by intros [= <- _]]. destruct (_ && _); by intros [= <- _].
Qed.

Lemma hold_serves held sb c x e :
  String.eqb (SPolicyName sb) "" = false → Effective_ gateway dir sb = Ok e →
  (c = MkChain (paddr (Address sb)) true [] ∨
   ∃ lk, compileChain lk (MkChain (paddr (Address sb)) true []) (ERules e) = Ok c) →
  dom held ⊆ dom (<[ID sb := x]> held) ∧ serves (<[ID sb := x]> held) sb c.
Proof.
  intros Hp He Hc. split; [rewrite dom_insert; set_solver|]. unfold serves. rewrite Hp. exists e. split; [done|].
  by rewrite lookup_insert_eq.
Qed.

Lemma chains_step_ok good p sb good' p' :
  good_ok good → chains_step gateway dir lookups cancelled good p sb = (good', Ok p') → step_ok p p' sb.
Proof.
  intros Hg. unfold chains_step, step_ok.
  destruct (_ && _ && _) eqn:Hlive; [done|]. pose proof (guarded_live sb Hlive) as Hl. revert Hl. unfold guarded.
  destruct (Fronted sb), (Prefix_IsValid (Address sb)), (bool_decide (SState sb = StateFailed)); cbn [andb orb negb];
    try (intros Hl [= <- <-]; done). intros _.
  destruct (String.eqb (SPolicyName sb) "") eqn:Hp; cbn [negb ChPolicy ChAddress].
  { intros [= <- <-]. split_and!; [done|done|]. eexists. split; [done|]. unfold serves. by rewrite Hp. }
  destruct (Effective_ gateway dir sb) as [e|] eqn:He; [|done].
  destruct (compileChain _ _ _) as [whole|err] eqn:Hc.
  { intros [= <- <-]. split_and!; [done|done|]. exists whole. split; [done|]. unfold serves. rewrite Hp.
    exists e. split; [done|]. simpl. destruct (pheld p !! ID sb); [right; eauto|done]. }
  destruct (cancelled (ID sb)); [done|].
  pose proof (λ c x, hold_serves (pheld p) sb c x e Hp He) as Hhold.
  destruct (good !! ID sb) as [last|] eqn:Hlast.
  - destruct (bool_decide _ && bool_decide _) eqn:Hsame.
    + apply andb_true_iff in Hsame as [Haddr Hrules]. apply bool_decide_eq_true in Haddr, Hrules.
      destruct (Hg _ _ Hlast) as [lk Hlk]. rewrite Haddr, Hrules in Hlk.
      intros [= <- <-]. destruct (Hhold (gchain last) (EOnLastGood err)) as [H1 H2]; [by right; exists lk|].
      split_and!; [done|done|]. eexists. done.
    + intros [= <- <-]. destruct (Hhold (MkChain (paddr (Address sb)) true []) (EOnClosed err)) as [H1 H2]; [by left|].
      split_and!; [done|done|]. eexists. done.
  - intros [= <- <-]. destruct (Hhold (MkChain (paddr (Address sb)) true []) (EOnClosed err)) as [H1 H2]; [by left|].
    split_and!; [done|done|]. eexists. done.
Qed.

Lemma chains_go_good good p sbs good' r :
  good_ok good → chains_go gateway dir lookups cancelled good p sbs = (good', r) → good_ok good'.
Proof.
  revert good p. induction sbs as [|sb sbs IH]; intros good p Hg; cbn [chains_go]; [by intros [= <- _]|].
  destruct (chains_step _ _ _ _ good p sb) as [g1 r1] eqn:Hs. apply chains_step_good in Hs as Hg1; [|done].
  destruct r1; [by apply IH|]. by intros [= <- _].
Qed.

Lemma chains_go_ok good p sbs good' p' :
  good_ok good → chains_go gateway dir lookups cancelled good p sbs = (good', Ok p') →
  dom (pheld p) ⊆ dom (pheld p') ∧
  Forall (λ sb, Fronted sb = true → Live (SState sb) = true → guarded sb = true) sbs ∧
  ∃ cs, pchains p' = pchains p ++ cs ∧ Forall2 (serves (pheld p')) (filter (λ sb, guarded sb = true) sbs) cs.
Proof.
  revert good p. induction sbs as [|sb sbs IH]; intros good p Hg; cbn [chains_go].
  { intros [= <- <-]. split_and!; [done|constructor|]. exists []. split; [by rewrite (right_id_L [] (++))|constructor]. }
  destruct (chains_step _ _ _ _ good p sb) as [g1 [p1|e]] eqn:Hs; [|done]. intros Hgo.
  pose proof (chains_step_good _ _ _ _ _ Hg Hs) as Hg1. apply chains_step_ok in Hs as (Hd & Hl & Hc); [|done].
  apply IH in Hgo as (Hd' & Hl' & cs & Hcs & HF); [|done].
  split_and!; [set_solver|by constructor|]. rewrite filter_cons. destruct (guarded sb).
  - destruct Hc as (c & Hc & Hsv). exists (c :: cs). rewrite decide_True by done.
    split; [by rewrite Hcs, Hc, <- app_assoc|]. constructor; [by eapply serves_mono|done].
  - subst p1. exists cs. by rewrite decide_False.
Qed.

(** C6: No sandbox the host must guard is left open. When [Chains] answers chains, held or not, there is
    exactly one for each fronted sandbox with an address that did not fail, in order, and it serves that
    sandbox: never the rules of an older policy, never a part of the rules. A live fronted sandbox with
    no address fails the whole compile. The cache keeps only whole chains, on failures too. *)
Theorem Chains_guard good sbs good' cs err :
  good_ok good → Chains gateway dir lookups cancelled good (Some sbs) = (good', (cs, err)) →
  good_ok good' ∧
  match err with
  | Some (CompileFailed _) => cs = []
  | _ =>
      Forall (λ sb, Fronted sb = true → Live (SState sb) = true → guarded sb = true) sbs ∧
      Forall2 (serves (match err with Some (HeldChains held) => held | _ => ∅ end))
        (filter (λ sb, guarded sb = true) sbs) cs
  end.
Proof.
  intros Hg. unfold Chains. destruct (chains_go _ _ _ _ good _ sbs) as [g1 [p|e]] eqn:Hgo.
  - pose proof (chains_go_good _ _ _ _ _ Hg Hgo) as Hg1. intros [= <- <- <-]. split.
    { intros id g H. apply map_lookup_filter_Some in H as [H _]. by apply (Hg1 id). }
    apply chains_go_ok in Hgo as (_ & Hl & cs & Hcs & HF); [|done]. simpl in Hcs. subst cs.
    destruct (bool_decide (pheld p = ∅)) eqn:E; [|done]. breflect. by rewrite E in HF.
  - pose proof (chains_go_good _ _ _ _ _ Hg Hgo) as Hg1. by intros [= <- <- <-].
Qed.

End Sound.

(** * Witnesses *)

Definition no_lookup : resolver := λ _, None.
Definition public_lookup : resolver := λ _, Some [Addr4 public_addr; Addr6 (65535 * 2 ^ 32 + public_addr) ""].

Definition addr_policy : Policy :=
  MkPolicy "web" [MkRule ActionAllow (MkDestination DestinationCIDR "8.8.0.0/16") "tcp" [443; 8443];
                  MkRule ActionDeny (MkDestination DestinationGroup "any") "" []].
Definition addr_dir : gmap string policy_entry := {[ "web.json" := PolicyFile addr_policy ]}.
Definition guest_addr : Addr := Addr4 (web_gateway + 1).

Definition addr_chain : Chain :=
  match compileChain (λ _, no_lookup) (MkChain guest_addr true []) (effective_rules web_gateway addr_policy) with
  | Ok c => c | Err _ => MkChain AddrInvalid false [] end.

Lemma Judge_agrees_Decide_witness :
  VAllow (Judge_Judge false (Apply [addr_chain] judge_zero) (MkFlow guest_addr "tcp" (Addr4 public_addr) 8443)) = true ∧
  ∃ l' d, Decide (U := ascii_only) web_gateway host_addrs 5 (MkLocal None 0) addr_dir web_sandbox "x" 8443 (Addr4 public_addr) = (l', Ok d) ∧
    true = bool_decide (DAction d = ActionAllow).
Proof.
  split; [vm_compute; reflexivity|].
  destruct (Judge_agrees_Decide (U := ascii_only) web_gateway (λ _, no_lookup) addr_dir web_sandbox addr_policy guest_addr
    addr_chain "x" 8443 public_addr (Apply [addr_chain] judge_zero) host_addrs 5 (MkLocal None 0)) as (l' & d & Hd & Hv & _).
  - done.
  - vm_compute. reflexivity.
  - vm_compute. reflexivity.
  - right. repeat constructor.
  - reflexivity.
  - vm_compute. reflexivity.
  - exists l', d. split; [exact Hd|]. rewrite <- Hv. vm_compute. reflexivity.
Defined.

Definition guarded_sandbox : Sandbox :=
  let '(MkSandbox a1 a2 a3 a4 a5 a6 a7 a8 a9 a10 a11 a12 a13 a14 a15 a16 a17 a18 a19 a20 a21 a22 a23 a24 a25 _ _ a28 a29 a30 a31) := sandbox_zero in
  MkSandbox "a1" a2 a3 a4 a5 a6 a7 a8 StateRunning a10 a11 a12 a13 a14 a15 a16 a17 a18 a19 (MkPrefix guest_addr 16) a21 a22 a23 a24 a25 ["TOKEN"] "web" a28 a29 a30 a31.

Lemma Chains_guard_witness :
  good_ok (Chains (U := ascii_only) web_gateway web_dir (λ _ _, public_lookup) (λ _, false) ∅ (Some [guarded_sandbox])).1.
Proof.
  refine (proj1 (Chains_guard (U := ascii_only) web_gateway web_dir (λ _ _, public_lookup) (λ _, false) ∅ [guarded_sandbox]
    _ _ _ _ _)).
  - intros id g H. discriminate H.
  - vm_compute. reflexivity.
Defined.
