(* ===== verification/Ruleset.v ===== *)
(** * The ruleset of the host

    [ruleset] of [services/network/egress.go]: the text the host network service hands to [nft], and what it does to the packets
    of a sandbox. [nft] is followed as its manual documents it: a table is a list of chains; a chain with a hook is run for every
    packet there, its rules in order; a rule whose matches all hold runs its statement; a verdict ends the chain, a log does not,
    and a jump that comes back goes on with the next rule. [print] is the text of such tables, and [ruleset] is the text of one. *)

From S2P Require Import Prelude Ops GoStrings Netip Models Secret Store Network Pool HostNetwork EgressPolicy EgressDecide EgressCompile.
Local Open Scope Z_scope.

(** ** The language *)

Inductive l3 : Type := V4 | V6 | ARP.
Inductive ct_state : Type := New_ | Established.

#[export] Instance l3_eq_dec : EqDecision l3.
Proof. solve_decision. Defined.
#[export] Instance ct_state_eq_dec : EqDecision ct_state.
Proof. solve_decision. Defined.

Inductive nft_match : Type :=
| Iifname (name : string) | Oifname (name : string) | OifnameNot (name : string) | Ibrname (name : string)
| Saddr (a : Addr) | SaddrNot (a : Addr) | SaddrOf (p : Prefix) | Daddr (a : Addr) | DaddrOf (ps : list Prefix) | ArpSaddrNot (a : Addr)
| L4proto (proto : string) | Dport (proto : string) (port : Z) | DportOf (proto : string) (ports : list Z)
| CtNew | CtEstablished | CtCountOver (n : Z)
| NfprotoIPv6 | EtherIP6 | EtherIP.

Inductive nft_statement : Type :=
| Accept | Drop | JumpTo (chain : string) | Masquerade | DnatTo (a : Addr) (port : Z) | Log (fields : string).

(** A line of a chain is a rule or a remark. *)
Inductive nft_line : Type := Rule_ (ms : list nft_match) (s : nft_statement) | Remark (text : string).

Inductive nft_hook : Type := Postrouting | Prerouting | Input | Forward.

#[export] Instance nft_hook_eq_dec : EqDecision nft_hook.
Proof. solve_decision. Defined.

(** A base chain has a type, a hook and a priority. Its policy is accept everywhere here. *)
Record nft_chain : Type := MkNftChain { nname : string; nbase : option (string * nft_hook * string); nlines : list nft_line }.
Record nft_table : Type := MkNftTable { nfamily : string; ntable : string; nchains : list nft_chain }.

(** ** Its text *)

Definition tab : string := String (ascii_of_nat 9) "".
Definition nl : string := String (ascii_of_nat 10) "".

(** [%q] of a name with nothing to escape, as those of interfaces are. *)
Definition quoted (s : string) : string := dquote +:+ s +:+ dquote.

(** [Addr.String]: the addresses of a ruleset are those of an IPv4 subnet. *)
Definition addr_text (a : Addr) : string := match a with Addr4 v => String4 v | _ => "invalid IP" end.

Definition set_text (l : list string) : string := "{ " +:+ Join ", " l +:+ " }".

Definition match_text (m : nft_match) : string :=
  match m with
  | Iifname n => "iifname " +:+ quoted n
  | Oifname n => "oifname " +:+ quoted n
  | OifnameNot n => "oifname != " +:+ quoted n
  | Ibrname n => "meta ibrname " +:+ quoted n
  | Saddr a => "ip saddr " +:+ addr_text a
  | SaddrNot a => "ip saddr != " +:+ addr_text a
  | SaddrOf p => "ip saddr " +:+ Prefix_String p
  | Daddr a => "ip daddr " +:+ addr_text a
  | DaddrOf ps => "ip daddr " +:+ set_text (Prefix_String <$> ps)
  | ArpSaddrNot a => "arp saddr ip != " +:+ addr_text a
  | L4proto p => "meta l4proto " +:+ p
  | Dport p n => p +:+ " dport " +:+ Itoa n
  | DportOf p ns => p +:+ " dport " +:+ set_text (Itoa <$> ns)
  | CtNew => "ct state new"
  | CtEstablished => "ct state established,related"
  | CtCountOver n => "ct count over " +:+ Itoa n
  | NfprotoIPv6 => "meta nfproto ipv6"
  | EtherIP6 => "ether type ip6"
  | EtherIP => "ether type ip"
  end.

Definition statement_text (s : nft_statement) : string :=
  match s with
  | Accept => "accept"
  | Drop => "drop"
  | JumpTo c => "jump " +:+ c
  | Masquerade => "masquerade"
  | DnatTo a n => "dnat ip to " +:+ addr_text a +:+ ":" +:+ Itoa n
  | Log fields => logLine fields
  end.

Definition line_text (l : nft_line) : string :=
  match l with
  | Rule_ ms s => Join " " ((match_text <$> ms) ++ [statement_text s])
  | Remark text => "# " +:+ text
  end.

Definition hook_text (h : nft_hook) : string :=
  match h with Postrouting => "postrouting" | Prerouting => "prerouting" | Input => "input" | Forward => "forward" end.

(** [each f l] is the texts of [l] one after the other. *)
Definition each {A} (f : A → string) (l : list A) : string := foldr (λ x s, f x +:+ s) "" l.

Definition chain_text (c : nft_chain) : string :=
  tab +:+ "chain " +:+ nname c +:+ " {" +:+ nl
  +:+ match nbase c with
      | Some (type, hook, priority) =>
          tab +:+ tab +:+ "type " +:+ type +:+ " hook " +:+ hook_text hook +:+ " priority " +:+ priority +:+ "; policy accept;" +:+ nl
      | None => ""
      end
  +:+ each (λ l, tab +:+ tab +:+ line_text l +:+ nl) (nlines c) +:+ tab +:+ "}" +:+ nl.

Definition table_text (t : nft_table) : string :=
  "table " +:+ nfamily t +:+ " " +:+ ntable t +:+ " {" +:+ nl +:+ Join nl (chain_text <$> nchains t) +:+ "}" +:+ nl.

(** A table is made, so that it is there, and deleted, so that it is empty; then it is written anew, in one transaction. *)
Definition flush_text (t : nft_table) : string :=
  "table " +:+ nfamily t +:+ " " +:+ ntable t +:+ nl +:+ "delete table " +:+ nfamily t +:+ " " +:+ ntable t +:+ nl.

Definition print (ts : list nft_table) : string := each flush_text ts +:+ nl +:+ Join nl (table_text <$> ts).

(** ** What it does *)

(** A packet, or an ARP frame, whose sender and target are its addresses. [pconns] is how many connections of its source the
    counter of the rule that looks holds, this one with them. *)
Record packet : Type := MkPacket {
  pnet : l3; psaddr : Addr; pdaddr : Addr; pproto : string; pport : Z; pstate : ct_state; pconns : Z
}.

(** Where a hook sees it: the interface it came in on, the one it leaves by, and the bridge that carries the frame. *)
Record place : Type := MkPlace { iif : string; oif : string; ibr : string }.

Definition v4 (p : packet) : bool := bool_decide (pnet p = V4).

Definition speaks (proto : string) (p : packet) : bool := negb (bool_decide (pnet p = ARP)) && String.eqb (pproto p) proto.

Definition holds (w : place) (p : packet) (m : nft_match) : bool :=
  match m with
  | Iifname n => String.eqb (iif w) n
  | Oifname n => String.eqb (oif w) n
  | OifnameNot n => negb (String.eqb (oif w) n)
  | Ibrname n => String.eqb (ibr w) n
  | Saddr a => v4 p && bool_decide (psaddr p = a)
  | SaddrNot a => v4 p && negb (bool_decide (psaddr p = a))
  | SaddrOf pf => v4 p && Prefix_Contains pf (psaddr p)
  | Daddr a => v4 p && bool_decide (pdaddr p = a)
  | DaddrOf ps => v4 p && contains_addr ps (pdaddr p)
  | ArpSaddrNot a => bool_decide (pnet p = ARP) && negb (bool_decide (psaddr p = a))
  | L4proto proto => speaks proto p
  | Dport proto n => speaks proto p && (pport p =? n)
  | DportOf proto ns => speaks proto p && contains ns (pport p)
  | CtNew => bool_decide (pstate p = New_)
  | CtEstablished => bool_decide (pstate p = Established)
  | CtCountOver n => n <? pconns p
  | NfprotoIPv6 | EtherIP6 => bool_decide (pnet p = V6)
  | EtherIP => v4 p
  end.

Inductive nft_verdict : Type := VAccept | VDrop | VDnat (a : Addr) (port : Z) | VMasquerade.

Definition lines_of (t : nft_table) (name : string) : list nft_line :=
  match first_match (λ c, String.eqb (nname c) name) (nchains t) with Some c => nlines c | None => [] end.

(** A chain that ends answers nothing. [depth] is how many jumps deep it may go. *)
Fixpoint run (depth : nat) (t : nft_table) (w : place) (p : packet) (ls : list nft_line) : option nft_verdict :=
  (fix go (ls : list nft_line) : option nft_verdict :=
     match ls with
     | [] => None
     | Remark _ :: ls => go ls
     | Rule_ ms s :: ls =>
         if negb (forallb (holds w p) ms) then go ls
         else match s with
              | Accept => Some VAccept
              | Drop => Some VDrop
              | Masquerade => Some VMasquerade
              | DnatTo a n => Some (VDnat a n)
              | Log _ => go ls
              | JumpTo c =>
                  match depth with
                  | O => Some VDrop
                  | S depth => match run depth t w p (lines_of t c) with Some v => Some v | None => go ls end
                  end
              end
     end) ls.

(** The kernel's jump stack. *)
Definition jumps : nat := 16.

Definition is_base (h : nft_hook) (c : nft_chain) : bool :=
  match nbase c with Some (_, h', _) => bool_decide (h = h') | None => false end.

(** What a hook of a family does: its base chain, and then the policy of the chain. *)
Definition at_hook (ts : list nft_table) (family : string) (h : nft_hook) (w : place) (p : packet) : nft_verdict :=
  match first_match (λ t, String.eqb (nfamily t) family) ts with
  | None => VAccept
  | Some t =>
      match first_match (is_base h) (nchains t) with
      | None => VAccept
      | Some c => default VAccept (run jumps t w p (nlines c))
      end
  end.

Inductive outcome : Type :=
| Dropped
| Delivered (a : Addr) (port : Z)
| Forwarded (a : Addr) (port : Z) (via : string)
| Heard.

#[export] Instance outcome_eq_dec : EqDecision outcome.
Proof. solve_decision. Defined.

Definition set_dst (a : Addr) (port : Z) (p : packet) : packet :=
  MkPacket (pnet p) (psaddr p) a (pproto p) port (pstate p) (pconns p).

(** The way of a packet through the host: [local] says which addresses are the host's own, [route] which interface the others
    are behind. The nat chains see the first packet of a flow alone. *)
Section Path.
Context (ts : list nft_table) (local : Addr → bool) (route : Addr → string).

Definition routed (from : string) (p : packet) : outcome :=
  let w := MkPlace from "" "" in
  let p := match pstate p, at_hook ts "inet" Prerouting w p with New_, VDnat a n => set_dst a n p | _, _ => p end in
  if local (pdaddr p) then
    match at_hook ts "inet" Input w p with VDrop => Dropped | _ => Delivered (pdaddr p) (pport p) end
  else
    let via := route (pdaddr p) in
    match at_hook ts "inet" Forward (MkPlace from via "") p with VDrop => Dropped | _ => Forwarded (pdaddr p) (pport p) via end.

(** From a port of a bridge: the frame is for another port of it ([bridged]) or for the host, which hears an ARP frame and
    routes the rest. *)
Definition from_port (bridge port : string) (bridged : bool) (p : packet) : outcome :=
  match at_hook ts "bridge" Prerouting (MkPlace port "" bridge) p with
  | VDrop => Dropped
  | _ =>
      if bridged then
        match at_hook ts "bridge" Forward (MkPlace port "" bridge) p with VDrop => Dropped | _ => Forwarded (pdaddr p) (pport p) bridge end
      else if bool_decide (pnet p = ARP) then Heard
      else routed bridge p
  end.

End Path.

(** ** The source *)

Definition tableFamily : string := "inet".
Definition bridgeFamily : string := "bridge".
Definition tableName : string := "shard".

Definition RuleIPv6 : string := "ipv6".
Definition RuleLimit : string := "limit".

Definition PlainPort : Z := 30080.
Definition TLSPort : Z := 30443.
Definition MaxSourceConns : Z := 1024.
Definition dnsPort : Z := 53.

Definition chainName (host : string) : string := "egress_" +:+ host.

Section Text.
Context (s : Service).

Abbreviation bridge := (quoted (Bridge (cfg s))).
Abbreviation gw := (addr_text (gateway s)).
Abbreviation port_of a := (quoted (hostInterface s a)).

Definition writePolicyChain (chain : Chain) : string :=
  nl +:+ tab +:+ "chain " +:+ chainName (hostInterface s (ChAddress chain)) +:+ " {" +:+ nl
  +:+ each (λ rule, each (λ line, tab +:+ tab +:+ line +:+ nl) (render rule)) (ChRules chain)
  +:+ tab +:+ tab +:+ logStatement RuleDefault +:+ nl +:+ tab +:+ tab +:+ "drop" +:+ nl +:+ tab +:+ "}" +:+ nl.

Definition prerouting_text (chain : Chain) : string :=
  let from := tab +:+ tab +:+ "iifname " +:+ bridge +:+ " ip saddr " +:+ addr_text (ChAddress chain) in
  from +:+ " tcp dport 80 dnat ip to " +:+ gw +:+ ":" +:+ Itoa PlainPort +:+ nl
  +:+ from +:+ " tcp dport 443 dnat ip to " +:+ gw +:+ ":" +:+ Itoa TLSPort +:+ nl
  +:+ (if negb (ChPolicy chain) then ""
       else from +:+ " udp dport " +:+ Itoa dnsPort +:+ " dnat ip to " +:+ gw +:+ ":" +:+ Itoa dnsPort +:+ nl
            +:+ from +:+ " tcp dport " +:+ Itoa dnsPort +:+ " dnat ip to " +:+ gw +:+ ":" +:+ Itoa dnsPort +:+ nl).

Definition input_text (chain : Chain) : string :=
  let proxied := "iifname " +:+ bridge +:+ " ip saddr " +:+ addr_text (ChAddress chain) +:+ " ip daddr " +:+ gw
                 +:+ " tcp dport { " +:+ Itoa PlainPort +:+ ", " +:+ Itoa TLSPort +:+ " }" in
  let over := proxied +:+ " ct count over " +:+ Itoa MaxSourceConns in
  tab +:+ tab +:+ over +:+ " " +:+ logStatement RuleLimit +:+ nl +:+ tab +:+ tab +:+ over +:+ " drop" +:+ nl
  +:+ tab +:+ tab +:+ proxied +:+ " accept" +:+ nl.

Definition lease_text (a : Addr) : string :=
  tab +:+ tab +:+ "iifname " +:+ port_of a +:+ " ether type ip6 " +:+ logStatement RuleIPv6 +:+ nl
  +:+ tab +:+ tab +:+ "iifname " +:+ port_of a +:+ " ether type ip6 drop" +:+ nl
  +:+ tab +:+ tab +:+ "iifname " +:+ port_of a +:+ " ether type ip ip saddr != " +:+ addr_text a +:+ " drop" +:+ nl
  +:+ tab +:+ tab +:+ "iifname " +:+ port_of a +:+ " arp saddr ip != " +:+ addr_text a +:+ " drop" +:+ nl.

(** [ruleset], the writes of its builder in order. *)
Definition ruleset (chains : list Chain) (leases : list Addr) : string :=
  "table " +:+ tableFamily +:+ " " +:+ tableName +:+ nl +:+ "delete table " +:+ tableFamily +:+ " " +:+ tableName +:+ nl
  +:+ "table " +:+ bridgeFamily +:+ " " +:+ tableName +:+ nl +:+ "delete table " +:+ bridgeFamily +:+ " " +:+ tableName +:+ nl +:+ nl
  +:+ "table " +:+ tableFamily +:+ " " +:+ tableName +:+ " {" +:+ nl
  +:+ tab +:+ "chain postrouting {" +:+ nl +:+ tab +:+ tab +:+ "type nat hook postrouting priority srcnat; policy accept;" +:+ nl
  +:+ tab +:+ tab +:+ "ip saddr " +:+ Prefix_String (Subnet (cfg s)) +:+ " oifname != " +:+ bridge +:+ " masquerade" +:+ nl +:+ tab +:+ "}" +:+ nl +:+ nl
  +:+ tab +:+ "chain prerouting {" +:+ nl +:+ tab +:+ tab +:+ "type nat hook prerouting priority dstnat; policy accept;" +:+ nl
  +:+ each prerouting_text chains
  +:+ tab +:+ "}" +:+ nl +:+ nl
  +:+ tab +:+ "chain input {" +:+ nl +:+ tab +:+ tab +:+ "type filter hook input priority filter; policy accept;" +:+ nl
  +:+ tab +:+ tab +:+ "iifname " +:+ bridge +:+ " ct state established,related accept" +:+ nl
  +:+ each input_text chains
  +:+ tab +:+ tab +:+ "iifname " +:+ bridge +:+ " ip daddr " +:+ gw +:+ " udp dport " +:+ Itoa dnsPort +:+ " accept" +:+ nl
  +:+ tab +:+ tab +:+ "iifname " +:+ bridge +:+ " ip daddr " +:+ gw +:+ " tcp dport " +:+ Itoa dnsPort +:+ " accept" +:+ nl
  +:+ each (λ a, tab +:+ tab +:+ "iifname " +:+ bridge +:+ " ip saddr " +:+ addr_text a +:+ " " +:+ logStatement RuleLocal +:+ nl) leases
  +:+ tab +:+ tab +:+ "iifname " +:+ bridge +:+ " drop" +:+ nl +:+ tab +:+ "}" +:+ nl +:+ nl
  +:+ tab +:+ "chain forward {" +:+ nl +:+ tab +:+ tab +:+ "type filter hook forward priority filter; policy accept;" +:+ nl
  +:+ tab +:+ tab +:+ "iifname " +:+ bridge +:+ " ct state established,related accept" +:+ nl
  +:+ tab +:+ tab +:+ "oifname " +:+ bridge +:+ " ct state new drop" +:+ nl
  +:+ tab +:+ tab +:+ "iifname " +:+ bridge +:+ " jump egress" +:+ nl +:+ tab +:+ "}" +:+ nl +:+ nl
  +:+ tab +:+ "chain egress {" +:+ nl
  +:+ tab +:+ tab +:+ "oifname " +:+ bridge +:+ " drop" +:+ nl
  +:+ tab +:+ tab +:+ "meta nfproto ipv6 " +:+ logStatement RuleIPv6 +:+ nl
  +:+ tab +:+ tab +:+ "meta nfproto ipv6 drop" +:+ nl
  +:+ each (λ a, tab +:+ tab +:+ "ip saddr " +:+ addr_text a +:+ " ip daddr { " +:+ Join ", " privateRanges +:+ " } " +:+ logStatement RulePrivate +:+ nl) leases
  +:+ tab +:+ tab +:+ "ip daddr { " +:+ Join ", " privateRanges +:+ " } drop" +:+ nl
  +:+ each (λ chain, if negb (ChPolicy chain) then ""
                     else tab +:+ tab +:+ "ip saddr " +:+ addr_text (ChAddress chain) +:+ " jump " +:+ chainName (hostInterface s (ChAddress chain)) +:+ nl) chains
  +:+ tab +:+ "}" +:+ nl
  +:+ each (λ chain, if ChPolicy chain then writePolicyChain chain else "") chains
  +:+ "}" +:+ nl +:+ nl
  +:+ "table " +:+ bridgeFamily +:+ " " +:+ tableName +:+ " {" +:+ nl
  +:+ tab +:+ "chain forward {" +:+ nl +:+ tab +:+ tab +:+ "type filter hook forward priority filter; policy accept;" +:+ nl
  +:+ tab +:+ tab +:+ "meta ibrname " +:+ bridge +:+ " drop" +:+ nl +:+ tab +:+ "}" +:+ nl +:+ nl
  +:+ tab +:+ "chain prerouting {" +:+ nl +:+ tab +:+ tab +:+ "type filter hook prerouting priority filter; policy accept;" +:+ nl
  +:+ each lease_text leases
  +:+ tab +:+ "}" +:+ nl +:+ "}" +:+ nl.

End Text.

(** ** The tables behind the text *)

Section Tables.
Context (s : Service).

Definition render_lines (rule : Compiled) : list nft_line :=
  match CPrefixes rule with
  | [] => [Remark "no address"]
  | _ =>
      let ms := [DaddrOf (CPrefixes rule)]
                ++ (if negb (String.eqb (CProtocol rule) "") then [L4proto (CProtocol rule)] else [])
                ++ (match CPorts rule with [] => [] | _ => [DportOf (CProtocol rule) (CPorts rule)] end) in
      if bool_decide (CAction rule = ActionAllow) then [Rule_ ms Accept]
      else [Rule_ ms (Log ("rule=" +:+ CID rule +:+ " sum=" +:+ CSum rule)); Rule_ ms Drop]
  end.

Definition policy_lines (chain : Chain) : list nft_line :=
  flat_map render_lines (ChRules chain) ++ [Rule_ [] (Log ("rule=" +:+ RuleDefault)); Rule_ [] Drop].

Definition policy_chain (chain : Chain) : nft_chain :=
  MkNftChain (chainName (hostInterface s (ChAddress chain))) None (policy_lines chain).

Abbreviation onBridge := (Iifname (Bridge (cfg s))).

Definition dnat_lines (chain : Chain) : list nft_line :=
  let from := [onBridge; Saddr (ChAddress chain)] in
  [Rule_ (from ++ [Dport "tcp" 80]) (DnatTo (gateway s) PlainPort); Rule_ (from ++ [Dport "tcp" 443]) (DnatTo (gateway s) TLSPort)]
  ++ (if negb (ChPolicy chain) then []
      else [Rule_ (from ++ [Dport "udp" dnsPort]) (DnatTo (gateway s) dnsPort); Rule_ (from ++ [Dport "tcp" dnsPort]) (DnatTo (gateway s) dnsPort)]).

Definition proxied_lines (chain : Chain) : list nft_line :=
  let proxied := [onBridge; Saddr (ChAddress chain); Daddr (gateway s); DportOf "tcp" [PlainPort; TLSPort]] in
  let over := proxied ++ [CtCountOver MaxSourceConns] in
  [Rule_ over (Log ("rule=" +:+ RuleLimit)); Rule_ over Drop; Rule_ proxied Accept].

Definition jump_lines (chain : Chain) : list nft_line :=
  if negb (ChPolicy chain) then [] else [Rule_ [Saddr (ChAddress chain)] (JumpTo (chainName (hostInterface s (ChAddress chain))))].

Definition pin_lines (a : Addr) : list nft_line :=
  let port := Iifname (hostInterface s a) in
  [Rule_ [port; EtherIP6] (Log ("rule=" +:+ RuleIPv6)); Rule_ [port; EtherIP6] Drop;
   Rule_ [port; EtherIP; SaddrNot a] Drop; Rule_ [port; ArpSaddrNot a] Drop].

Definition input_lines (chains : list Chain) (leases : list Addr) : list nft_line :=
  [Rule_ [onBridge; CtEstablished] Accept] ++ flat_map proxied_lines chains
  ++ [Rule_ [onBridge; Daddr (gateway s); Dport "udp" dnsPort] Accept; Rule_ [onBridge; Daddr (gateway s); Dport "tcp" dnsPort] Accept]
  ++ flat_map (λ a, [Rule_ [onBridge; Saddr a] (Log ("rule=" +:+ RuleLocal))]) leases
  ++ [Rule_ [onBridge] Drop].

Definition egress_lines (chains : list Chain) (leases : list Addr) : list nft_line :=
  [Rule_ [Oifname (Bridge (cfg s))] Drop; Rule_ [NfprotoIPv6] (Log ("rule=" +:+ RuleIPv6)); Rule_ [NfprotoIPv6] Drop]
  ++ flat_map (λ a, [Rule_ [Saddr a; DaddrOf Private] (Log ("rule=" +:+ RulePrivate))]) leases
  ++ [Rule_ [DaddrOf Private] Drop] ++ flat_map jump_lines chains.

Definition forward_lines : list nft_line :=
  [Rule_ [onBridge; CtEstablished] Accept; Rule_ [Oifname (Bridge (cfg s)); CtNew] Drop; Rule_ [onBridge] (JumpTo "egress")].

Definition inet_table (chains : list Chain) (leases : list Addr) : nft_table :=
  MkNftTable tableFamily tableName
    ([MkNftChain "postrouting" (Some ("nat", Postrouting, "srcnat")) [Rule_ [SaddrOf (Subnet (cfg s)); OifnameNot (Bridge (cfg s))] Masquerade];
      MkNftChain "prerouting" (Some ("nat", Prerouting, "dstnat")) (flat_map dnat_lines chains);
      MkNftChain "input" (Some ("filter", Input, "filter")) (input_lines chains leases);
      MkNftChain "forward" (Some ("filter", Forward, "filter")) forward_lines;
      MkNftChain "egress" None (egress_lines chains leases)]
     ++ flat_map (λ chain, if ChPolicy chain then [policy_chain chain] else []) chains).

Definition bridge_table (leases : list Addr) : nft_table :=
  MkNftTable bridgeFamily tableName
    [MkNftChain "forward" (Some ("filter", Forward, "filter")) [Rule_ [Ibrname (Bridge (cfg s))] Drop];
     MkNftChain "prerouting" (Some ("filter", Prerouting, "filter")) (flat_map pin_lines leases)].

Definition host_tables (chains : list Chain) (leases : list Addr) : list nft_table := [inet_table chains leases; bridge_table leases].

End Tables.

(** *** The text is theirs *)

Lemma each_app {A} (f : A → string) l l' : each f (l ++ l') = each f l +:+ each f l'.
Proof. induction l as [|x l IH]; simpl; [done|]. rewrite IH. apply app_assoc_s. Qed.

Lemma each_cons {A} (f : A → string) x l : each f (x :: l) = f x +:+ each f l.
Proof. done. Qed.

Lemma each_nil {A} (f : A → string) : each f [] = "".
Proof. done. Qed.

Lemma each_flat_map {A B} (f : B → string) (g : A → list B) l : each f (flat_map g l) = each (λ x, each f (g x)) l.
Proof. induction l as [|x l IH]; simpl; [done|]. by rewrite each_app, IH. Qed.

Lemma each_ext {A} (f g : A → string) l : (∀ x, f x = g x) → each f l = each g l.
Proof. intros H. induction l as [|x l IH]; simpl; [done|]. by rewrite H, IH. Qed.

Lemma Join_each sep w ws : Join sep (w :: ws) = w +:+ each (λ v, sep +:+ v) ws.
Proof.
  revert w. induction ws as [|v ws IH]; intros w; [by rewrite app_nil_r|].
  change (Join sep (w :: v :: ws)) with (w +:+ sep +:+ Join sep (v :: ws)). rewrite IH. simpl. by rewrite !app_assoc_s.
Qed.

Lemma Join_snoc_word sep w ws v : Join sep ((w :: ws) ++ [v]) = Join sep (w :: ws) +:+ sep +:+ v.
Proof. cbn [app]. rewrite !Join_each, each_app. simpl. by rewrite app_nil_r, app_assoc_s. Qed.

Abbreviation put l := (tab +:+ tab +:+ line_text l +:+ nl).

(** Texts are compared with their pieces in one row. *)
Ltac flat :=
  cbn [each foldr app fmap list_fmap match_text statement_text line_text Join negb]; unfold set_text, logStatement, logLine;
  cbn [fmap list_fmap Join]; rewrite <- ?app_assoc_s; reflexivity.

Lemma Itoa_web : Itoa 80 = "80" ∧ Itoa 443 = "443".
Proof. by vm_compute. Qed.

Section Printed.
Context (s : Service).

Lemma render_text rule : line_text <$> render_lines rule = render rule.
Proof.
  unfold render, render_lines. destruct (CPrefixes rule) as [|pf pfs]; [done|]. cbv zeta.
  set (ms := [DaddrOf (pf :: pfs)] ++ _ ++ _). set (parts := [_] ++ _ ++ _).
  assert (match_text <$> ms = parts) as Hm.
  { unfold ms, parts. rewrite !fmap_app. repeat f_equal; [by destruct (negb _)|]. by destruct (CPorts rule). }
  assert (∀ st, line_text (Rule_ ms st) = Join " " parts +:+ " " +:+ statement_text st) as Hl.
  { intros st. unfold line_text. rewrite Hm. apply Join_snoc_word. }
  case_bool_decide; cbn [fmap list_fmap]; by rewrite !Hl.
Qed.

Lemma render_put rule : each (λ l, put l) (render_lines rule) = each (λ l, tab +:+ tab +:+ l +:+ nl) (render rule).
Proof. rewrite <- render_text. by induction (render_lines rule) as [|l ls IH]; [|simpl; rewrite IH]. Qed.

Lemma policy_chain_text chain : nl +:+ chain_text (policy_chain s chain) = writePolicyChain s chain.
Proof.
  unfold chain_text, policy_chain, policy_lines, writePolicyChain. cbn [nname nbase nlines]. rewrite each_app, each_flat_map.
  rewrite (each_ext _ _ (ChRules chain) render_put). flat.
Qed.

Lemma dnat_text chain : each (λ l, put l) (dnat_lines s chain) = prerouting_text s chain.
Proof. unfold dnat_lines, prerouting_text. destruct (ChPolicy chain); cbn [each foldr app fmap list_fmap match_text statement_text line_text Join negb]; rewrite (proj1 Itoa_web), (proj2 Itoa_web); flat. Qed.

Lemma proxied_text chain : each (λ l, put l) (proxied_lines s chain) = input_text s chain.
Proof. unfold proxied_lines, input_text. flat. Qed.

Lemma pin_text a : each (λ l, put l) (pin_lines s a) = lease_text s a.
Proof. unfold pin_lines, lease_text. flat. Qed.

Lemma Private_text : Prefix_String <$> Private = privateRanges.
Proof. vm_compute. reflexivity. Qed.

Lemma local_text a : each (λ l, put l) [Rule_ [Iifname (Bridge (cfg s)); Saddr a] (Log ("rule=" +:+ RuleLocal))] =
  tab +:+ tab +:+ "iifname " +:+ quoted (Bridge (cfg s)) +:+ " ip saddr " +:+ addr_text a +:+ " " +:+ logStatement RuleLocal +:+ nl.
Proof. flat. Qed.

Lemma floor_text a : each (λ l, put l) [Rule_ [Saddr a; DaddrOf Private] (Log ("rule=" +:+ RulePrivate))] =
  tab +:+ tab +:+ "ip saddr " +:+ addr_text a +:+ " ip daddr { " +:+ Join ", " privateRanges +:+ " } " +:+ logStatement RulePrivate +:+ nl.
Proof. rewrite <- Private_text. generalize Private. intros ps. flat. Qed.

Lemma jump_text chain : each (λ l, put l) (jump_lines s chain) =
  if negb (ChPolicy chain) then ""
  else tab +:+ tab +:+ "ip saddr " +:+ addr_text (ChAddress chain) +:+ " jump " +:+ chainName (hostInterface s (ChAddress chain)) +:+ nl.
Proof. unfold jump_lines. destruct (ChPolicy chain); flat. Qed.

Lemma policies_text chains :
  each (λ v, nl +:+ v) (chain_text <$> flat_map (λ chain, if ChPolicy chain then [policy_chain s chain] else []) chains) =
  each (λ chain, if ChPolicy chain then writePolicyChain s chain else "") chains.
Proof.
  induction chains as [|chain chains IH]; [done|]. cbn [flat_map]. rewrite fmap_app, each_app, IH. cbn [each foldr]. f_equal.
  destruct (ChPolicy chain); [|done]. cbn [fmap list_fmap each foldr]. rewrite app_nil_r. apply policy_chain_text.
Qed.

(** The text of [ruleset] is that of the tables. *)
Lemma ruleset_text chains leases : ruleset s chains leases = print (host_tables s chains leases).
Proof.
  unfold print, host_tables, table_text, inet_table, bridge_table. cbn [nchains nfamily ntable fmap list_fmap].
  rewrite fmap_app. cbn [fmap list_fmap app]. rewrite !Join_each, !each_cons, policies_text.
  unfold flush_text, chain_text, input_lines, egress_lines, forward_lines. cbn [nname nbase nlines nfamily ntable].
  rewrite !each_app, !each_flat_map, !each_cons.
  rewrite (each_ext _ _ chains dnat_text), (each_ext _ _ chains proxied_text), (each_ext _ _ chains jump_text), (each_ext _ _ leases pin_text),
    (each_ext _ _ leases local_text), (each_ext _ _ leases floor_text), !each_nil.
  cbn [app fmap list_fmap match_text statement_text line_text Join negb]. rewrite Private_text.
  unfold ruleset, set_text. generalize (Join ", " privateRanges). intros ranges. rewrite <- !app_assoc_s, ?app_nil_r. reflexivity.
Qed.

End Printed.

(** ** What the ruleset does *)

(** Where a new flow of the sandbox at [a] ends up, by the judge of the user-space stack: a packet that is not from its address
    goes nowhere, a frame for another port neither; the web of a fronted sandbox goes to the proxy and the names of one with a
    policy to the resolver; of the host's own addresses those two are open, the proxy to a fronted sandbox within its share;
    nothing else of the bridge is; and the rest goes where the judge lets it. *)
Definition redirected (s : Service) (j : Judge) (a : Addr) (p : packet) : Addr * Z :=
  let tcp := String.eqb (pproto p) "tcp" in
  let policy := match Network.chains j !! a with Some c => ChPolicy c | None => false end in
  if Judge_Fronted j a && tcp && (pport p =? 80) then (gateway s, PlainPort)
  else if Judge_Fronted j a && tcp && (pport p =? 443) then (gateway s, TLSPort)
  else if policy && (String.eqb (pproto p) "udp" || tcp) && (pport p =? dnsPort) then (gateway s, dnsPort)
  else (pdaddr p, pport p).

Definition served (s : Service) (j : Judge) (a : Addr) (p : packet) (d : Addr) (n : Z) : bool :=
  bool_decide (d = gateway s)
  && (Judge_Fronted j a && String.eqb (pproto p) "tcp" && contains [PlainPort; TLSPort] n && (pconns p <=? MaxSourceConns)
      || (String.eqb (pproto p) "udp" || String.eqb (pproto p) "tcp") && (n =? dnsPort)).

Definition expected (s : Service) (j : Judge) (local : Addr → bool) (route : Addr → string) (a : Addr) (bridged : bool) (p : packet) : outcome :=
  if bool_decide (pnet p = V6) || negb (bool_decide (psaddr p = a)) || bridged then Dropped
  else if bool_decide (pnet p = ARP) then Heard
  else
    let d := (redirected s j a p).1 in
    let n := (redirected s j a p).2 in
    if local d then if served s j a p d n then Delivered d n else Dropped
    else if String.eqb (route d) (Bridge (cfg s)) then Dropped
    else if VAllow (Judge_Judge false j (MkFlow a (pproto p) d n)) then Forwarded d n (route d) else Dropped.

(** *** Runs of chains *)

Section Runs.
Context (t : nft_table) (w : place) (p : packet).

Lemma run_app depth ls ls' :
  run depth t w p (ls ++ ls') = match run depth t w p ls with Some v => Some v | None => run depth t w p ls' end.
Proof.
  induction ls as [|[ms st|text] ls IH]; [by destruct depth| |by destruct depth].
  destruct depth; simpl in *; destruct (forallb (holds w p) ms); simpl; try done; destruct st; try done.
  by destruct (run depth t w p _).
Qed.

Lemma run_cons depth l ls :
  run depth t w p (l :: ls) = match run depth t w p [l] with Some v => Some v | None => run depth t w p ls end.
Proof. apply (run_app depth [l] ls). Qed.

Lemma run_nil depth : run depth t w p [] = None.
Proof. by destruct depth. Qed.

(** What a rule alone does. *)
Definition does (depth : nat) (s : nft_statement) : option nft_verdict :=
  match s with
  | Accept => Some VAccept | Drop => Some VDrop | Masquerade => Some VMasquerade | DnatTo a n => Some (VDnat a n) | Log _ => None
  | JumpTo c => match depth with O => Some VDrop | S depth => run depth t w p (lines_of t c) end
  end.

Lemma run_rule depth ms s : run depth t w p [Rule_ ms s] = if forallb (holds w p) ms then does depth s else None.
Proof.
  destruct depth; simpl; destruct (forallb _ _); simpl; try done; destruct s; simpl; try done. by destruct (run depth t w p _).
Qed.

Lemma run_line depth ms s ls :
  run depth t w p (Rule_ ms s :: ls) =
  if forallb (holds w p) ms then match does depth s with Some v => Some v | None => run depth t w p ls end else run depth t w p ls.
Proof. rewrite run_cons, run_rule. by destruct (forallb _ ms). Qed.

Lemma run_quiet {X} depth (f : X → list nft_line) xs : (∀ x, x ∈ xs → run depth t w p (f x) = None) → run depth t w p (flat_map f xs) = None.
Proof.
  induction xs as [|x xs IH]; intros H; [apply run_nil|]. simpl. rewrite run_app, (H x) by (by left). apply IH. intros y Hy. apply H. by right.
Qed.

(** Of rules that each look for a key of their own, the one of the packet runs. *)
Lemma run_pick {X} depth (key : X → Addr) (f : X → list nft_line) a xs :
  NoDup (key <$> xs) → (∀ x, key x ≠ a → run depth t w p (f x) = None) →
  run depth t w p (flat_map f xs) = match first_match (λ x, bool_decide (key x = a)) xs with Some x => run depth t w p (f x) | None => None end.
Proof.
  intros Hn Hq. induction xs as [|x xs IH]; [apply run_nil|]. simpl. rewrite run_app. apply NoDup_cons in Hn as [Hx Hn].
  case_bool_decide as Hk; [|rewrite (Hq x Hk); by apply IH].
  assert (run depth t w p (flat_map f xs) = None) as ->; [|by destruct (run depth t w p (f x))].
  apply run_quiet. intros y Hy. apply Hq. intros Hy'. apply Hx. rewrite Hk, <- Hy'. by apply list_elem_of_fmap_2.
Qed.

End Runs.

(** *** The chains of the judge *)

Lemma Apply_lookup cs j a : NoDup (ChAddress <$> cs) →
  Network.chains (Apply cs j) !! a = first_match (λ c, bool_decide (ChAddress c = a)) cs.
Proof.
  unfold Apply. cbn [Network.chains]. intros Hn.
  assert (∀ m : gmap Addr Chain, foldl (λ m c, <[ChAddress c := c]> m) m cs !! a
               = match first_match (λ c, bool_decide (ChAddress c = a)) cs with Some c => Some c | None => m !! a end) as H.
  { induction cs as [|c cs IH]; intros m; [done|]. simpl. apply NoDup_cons in Hn as [Hc Hn]. rewrite IH by done. case_bool_decide as Ha.
    - rewrite (proj2 (first_match_None _ cs)); [by rewrite Ha, lookup_insert_eq|]. apply Forall_forall. intros y Hy.
      apply bool_decide_eq_false_2. intros Hy'. apply Hc. rewrite Ha, <- Hy'. by apply list_elem_of_fmap_2.
    - destruct (first_match _ cs); [done|]. by apply lookup_insert_ne. }
  rewrite H, lookup_empty. by destruct (first_match _ cs).
Qed.

(** A rule of ports names its protocol. *)
Definition rule_ok (r : Compiled) : bool := bool_decide (CPorts r = []) || negb (String.eqb (CProtocol r) "").

Section Behaviour.
Context (s : Service) (cs : list Chain) (leases : list Addr).
Context (Hsub : ∀ a b, Prefix_Contains (Subnet (cfg s)) a = true → Prefix_Contains (Subnet (cfg s)) b = true →
                       hostInterface s a = hostInterface s b → a = b).
Context (Hcs : Forall (λ c, Prefix_Contains (Subnet (cfg s)) (ChAddress c) = true ∧ forallb rule_ok (ChRules c) = true) cs).
Context (Hnd : NoDup (ChAddress <$> cs)) (Hls : Forall (λ a, Prefix_Contains (Subnet (cfg s)) a = true) leases).

Abbreviation inet := (inet_table s cs leases).
Abbreviation own a := (first_match (λ c, bool_decide (ChAddress c = a)) cs).

Lemma own_ok a c : own a = Some c → ChAddress c = a ∧ Prefix_Contains (Subnet (cfg s)) a = true ∧ forallb rule_ok (ChRules c) = true.
Proof.
  intros (l1 & l2 & E & H%bool_decide_eq_true & _)%first_match_Some. rewrite Forall_forall in Hcs. subst a.
  split; [done|]. apply Hcs. rewrite E. apply elem_of_app. right. by left.
Qed.

(** **** The rules of a policy *)

Lemma render_run t depth w p rule : v4 p = true → rule_ok rule = true →
  run depth t w p (render_lines rule) =
  if Network.matches rule (MkFlow (psaddr p) (pproto p) (pdaddr p) (pport p)) then Some (if bool_decide (CAction rule = ActionAllow) then VAccept else VDrop) else None.
Proof.
  intros Hv Hr. unfold render_lines, Network.matches. cbn [FAddr FProtocol FPort].
  destruct (CPrefixes rule) as [|pf pfs] eqn:Epf; [by destruct depth|]. rewrite <- Epf. cbv zeta. set (ms := [DaddrOf _] ++ _ ++ _).
  assert (forallb (holds w p) ms = (if negb (contains_addr (CPrefixes rule) (pdaddr p)) then false
      else if negb (String.eqb (CProtocol rule) "") && negb (String.eqb (CProtocol rule) (pproto p)) then false
      else bool_decide (CPorts rule = []) || contains (CPorts rule) (pport p))) as Hm.
  { unfold ms. rewrite !forallb_app. unfold rule_ok in Hr. cbn [forallb holds]. rewrite Hv. cbn [andb].
    assert (∀ proto, speaks proto p = String.eqb (pproto p) proto) as Hsp.
    { intros proto. unfold speaks, v4 in *. apply bool_decide_eq_true in Hv. by rewrite Hv. }
    destruct (contains_addr _ _); [|done]. cbn [andb negb]. rewrite (String.eqb_sym (CProtocol rule) (pproto p)).
    destruct (CPorts rule) as [|n ns]; cbn [bool_decide]; destruct (String.eqb (CProtocol rule) "") eqn:Ep; cbn [negb andb orb forallb holds];
      rewrite ?Hsp, ?andb_true_r, ?orb_true_l; try done.
    - by destruct (String.eqb (pproto p) (CProtocol rule)).
    - by destruct (String.eqb (pproto p) (CProtocol rule)). }
  rewrite <- Hm. destruct (bool_decide (CAction rule = ActionAllow)).
  - by rewrite run_rule.
  - rewrite run_cons, !run_rule. by destruct (forallb _ ms).
Qed.

Lemma policy_run t depth w p c : v4 p = true → forallb rule_ok (ChRules c) = true →
  run depth t w p (policy_lines c) =
  Some (match first_match (λ r, Network.matches r (MkFlow (psaddr p) (pproto p) (pdaddr p) (pport p))) (ChRules c) with
        | Some r => if bool_decide (CAction r = ActionAllow) then VAccept else VDrop
        | None => VDrop
        end).
Proof.
  intros Hv. unfold policy_lines. induction (ChRules c) as [|r rs IH]; cbn [forallb flat_map first_match].
  - intros _. cbn [app]. rewrite run_cons, !run_rule. done.
  - intros [Hr Hrs]%andb_true_iff. rewrite <- app_assoc, run_app, render_run, IH by done. by destruct (Network.matches r _).
Qed.

(** The chain of a policy is found by its name. *)
Lemma lines_policy a c : own a = Some c → ChPolicy c = true → lines_of inet (chainName (hostInterface s a)) = policy_lines c.
Proof.
  intros Hc Hp. unfold lines_of, inet_table. cbn [nchains app].
  assert (first_match (λ c, String.eqb (nname c) (chainName (hostInterface s a))) (flat_map (λ chain, if ChPolicy chain then [policy_chain s chain] else []) cs)
          = Some (policy_chain s c)) as H; [|cbn [first_match nname]; by rewrite H].
  destruct (own_ok a c Hc) as (_ & Ha & _). clear Hnd. induction cs as [|d ds IH]; [done|]. apply Forall_cons in Hcs as [[Hd _] Hds]. cbn [first_match] in Hc.
  cbn [flat_map]. case_bool_decide as E.
  - injection Hc as ->. rewrite Hp. cbn [app first_match nname policy_chain]. by rewrite E, String.eqb_refl.
  - destruct (ChPolicy d); [|by apply IH]. cbn [app first_match nname policy_chain].
    destruct (String.eqb_spec (chainName (hostInterface s (ChAddress d))) (chainName (hostInterface s a))) as [En|]; [|by apply IH].
    exfalso. apply E, Hsub; [done..|]. unfold chainName in En. by apply app_inj_l in En.
Qed.

(** **** Hooks *)

Lemma run_same {X} t depth w p (f : X → list nft_line) (on : X → bool) r xs :
  (∀ x, x ∈ xs → run depth t w p (f x) = if on x then r else None) →
  run depth t w p (flat_map f xs) = if existsb on xs then r else None.
Proof.
  induction xs as [|x xs IH]; intros H; [apply run_nil|]. cbn [flat_map existsb]. rewrite run_app, (H x) by (by left).
  rewrite IH by (intros y Hy; apply H; by right). by destruct (on x), r, (existsb on xs).
Qed.

Lemma pins_run a p : a ∈ leases →
  at_hook (host_tables s cs leases) "bridge" Prerouting (MkPlace (hostInterface s a) "" (Bridge (cfg s))) p
  = if bool_decide (pnet p = V6) || negb (bool_decide (psaddr p = a)) then VDrop else VAccept.
Proof.
  intros Ha. change (at_hook _ _ _ ?w _) with (default VAccept (run jumps (bridge_table s leases) w p (flat_map (pin_lines s) leases))).
  set (r := if bool_decide (pnet p = V6) || negb (bool_decide (psaddr p = a)) then Some VDrop else None).
  rewrite (run_same _ _ _ _ _ (λ b, bool_decide (b = a)) r).
  - rewrite (proj2 (existsb_exists _ _)); [unfold r; by destruct (_ || _)|]. exists a.
    split; [by apply list_elem_of_In|by apply bool_decide_eq_true_2].
  - intros b Hb. unfold pin_lines. rewrite !run_line. cbn [forallb holds iif].
    rewrite Forall_forall in Hls. destruct (String.eqb_spec (hostInterface s a) (hostInterface s b)) as [E|E].
    + assert (b = a) as -> by (apply Hsub; [by apply Hls..|done]). rewrite (bool_decide_eq_true_2 (a = a)) by done. unfold r, v4.
      rewrite !run_nil. destruct (pnet p), (bool_decide (psaddr p = a)); done.
    + rewrite (bool_decide_eq_false_2 (b = a)) by (by intros ->). by rewrite run_nil.
Qed.

Abbreviation from_bridge via := (MkPlace (Bridge (cfg s)) via "").

Section Packet.
Context (a : Addr) (p : packet) (Hv : v4 p = true) (Hp : psaddr p = a) (Hnew : pstate p = New_).

Lemma speaks_v4 proto : speaks proto p = String.eqb (pproto p) proto.
Proof. unfold speaks, v4 in *. apply bool_decide_eq_true in Hv. by rewrite Hv. Qed.

Abbreviation j := (Apply cs judge_zero).

Lemma fronted_own : Judge_Fronted j a = bool_decide (is_Some (own a)).
Proof. unfold Judge_Fronted. by rewrite Apply_lookup. Qed.

Lemma set_dst_same : set_dst (pdaddr p) (pport p) p = p.
Proof. by destruct p. Qed.

Lemma dnat_run :
  match at_hook (host_tables s cs leases) "inet" Prerouting (from_bridge "") p with VDnat d n => set_dst d n p | _ => p end
  = set_dst (redirected s j a p).1 (redirected s j a p).2 p.
Proof.
  change (at_hook _ _ _ ?w _) with (default VAccept (run jumps inet w p (flat_map (dnat_lines s) cs))).
  unfold redirected. rewrite fronted_own, Apply_lookup by done.
  rewrite (run_pick inet _ p jumps ChAddress _ a cs Hnd).
  - destruct (own a) as [c|] eqn:Ec; [|rewrite (bool_decide_eq_false_2 (is_Some None)) by (by intros []); cbn; by rewrite set_dst_same].
    rewrite (bool_decide_eq_true_2 (is_Some (Some c))) by done. destruct (own_ok a c Ec) as (Ha & _).
    unfold dnat_lines. rewrite Ha. destruct (ChPolicy c); cbn [app negb]; rewrite !run_line, run_nil; cbn [forallb holds iif does];
      rewrite !speaks_v4, Hv, Hp, String.eqb_refl, (bool_decide_eq_true_2 (a = a)) by done; cbn [andb]; rewrite !andb_true_r;
      destruct (String.eqb (pproto p) "tcp"), (String.eqb (pproto p) "udp"); cbn [andb orb];
      repeat match goal with |- context [pport p =? ?n] => destruct (pport p =? n); cbn [andb orb] end; cbn; rewrite ?set_dst_same; done.
  - intros c Hc. unfold dnat_lines. destruct (ChPolicy c); cbn [app negb]; rewrite !run_line, run_nil; cbn [forallb holds iif];
      rewrite Hp, (bool_decide_eq_false_2 (a = ChAddress c)) by done; rewrite !andb_false_r; done.
Qed.

Lemma input_run d n : let q := set_dst d n p in
  at_hook (host_tables s cs leases) "inet" Input (from_bridge "") q = if served s j a p d n then VAccept else VDrop.
Proof.
  intros q. assert (∀ proto, speaks proto q = String.eqb (pproto p) proto) as Hs by (intros proto; apply speaks_v4).
  assert (v4 q = true) as Hq by done.
  change (at_hook _ _ _ ?w _) with (default VAccept (run jumps inet w q (input_lines s cs leases))).
  unfold served, input_lines. rewrite fronted_own. cbn [app]. rewrite run_line, !run_app, !run_line, run_app, run_line.
  cbn [forallb holds iif does pdaddr pport pstate set_dst q]. rewrite Hnew, String.eqb_refl, !Hs, Hq, (bool_decide_eq_false_2 (New_ = Established)) by done. cbn [andb].
  rewrite (run_quiet _ _ _ _ _ leases) by (intros x _; rewrite run_rule; by destruct (forallb _ _)).
  assert (run jumps inet (from_bridge "") q (flat_map (proxied_lines s) cs) =
    if bool_decide (is_Some (own a)) && bool_decide (d = gateway s) && String.eqb (pproto p) "tcp" && contains [PlainPort; TLSPort] n
    then Some (if pconns p <=? MaxSourceConns then VAccept else VDrop) else None) as ->.
  { rewrite (run_pick inet _ q jumps ChAddress _ a cs Hnd).
    - destruct (own a) as [c|] eqn:Ec; [|by rewrite (bool_decide_eq_false_2 (is_Some None)) by (by intros [])].
      rewrite (bool_decide_eq_true_2 (is_Some (Some c))) by done. destruct (own_ok a c Ec) as (Ha & _).
      unfold proxied_lines. rewrite Ha. cbn [app]. rewrite !run_line, run_nil. cbn [forallb holds iif does pdaddr psaddr pport pconns set_dst q].
      rewrite !Hs, Hq, Hp, String.eqb_refl, (bool_decide_eq_true_2 (a = a)) by done. cbn [andb]. rewrite !andb_true_r, Z.leb_antisym.
      destruct (bool_decide (d = gateway s)), (String.eqb (pproto p) "tcp"), (contains _ n), (MaxSourceConns <? pconns p); done.
    - intros c Hc. unfold proxied_lines. cbn [app]. rewrite !run_line, run_nil. cbn [forallb holds psaddr set_dst q].
      rewrite Hp, (bool_decide_eq_false_2 (a = ChAddress c)) by done. rewrite !andb_false_r. done. }
  destruct (bool_decide (is_Some (own a))), (bool_decide (d = gateway s)), (String.eqb_spec (pproto p) "tcp") as [->|], (contains _ n) eqn:En, (String.eqb (pproto p) "udp"),
    (pconns p <=? MaxSourceConns), (n =? dnsPort) eqn:E53; cbn; try done.
  all: apply Z.eqb_eq in E53; by rewrite E53 in En.
Qed.

Lemma forward_run d n via : let q := set_dst d n p in
  at_hook (host_tables s cs leases) "inet" Forward (from_bridge via) q =
  if String.eqb via (Bridge (cfg s)) then VDrop
  else if VAllow (Judge_Judge false j (MkFlow a (pproto p) d n)) then VAccept else VDrop.
Proof.
  intros q. assert (v4 q = true) as Hq by done.
  change (at_hook _ _ _ ?w _) with (default VAccept (run jumps inet w q (forward_lines s))).
  unfold forward_lines. rewrite !run_line, run_nil. cbn [forallb holds iif oif does pstate set_dst q jumps].
  rewrite Hnew, String.eqb_refl, (bool_decide_eq_false_2 (New_ = Established)), (bool_decide_eq_true_2 (New_ = New_)) by done. cbn [andb]. rewrite andb_true_r.
  destruct (String.eqb via (Bridge (cfg s))) eqn:Eb; [done|]. cbn [andb].
  change (lines_of inet "egress") with (egress_lines s cs leases). unfold egress_lines. cbn [app].
  rewrite !run_line, run_app, run_line. cbn [forallb holds oif does]. rewrite Eb. cbn [andb].
  rewrite (bool_decide_eq_false_2 (pnet q = V6)) by (apply bool_decide_eq_true in Hq; by rewrite Hq). cbn [andb].
  rewrite (run_quiet _ _ _ _ _ leases) by (intros x _; rewrite run_rule; by destruct (forallb _ _)). rewrite Hq. cbn [andb pdaddr set_dst q].
  unfold Judge_Judge. cbn [FAddr FGuest]. destruct (contains_addr Private d); [done|]. cbn [andb applied Apply negb].
  change (Network.chains _) with (Network.chains j). rewrite Apply_lookup by done.
  rewrite (run_pick inet _ q 15 ChAddress _ a cs Hnd).
  - destruct (own a) as [c|] eqn:Ec; [|done]. destruct (own_ok a c Ec) as (Ha & _ & Hr). unfold jump_lines. destruct (ChPolicy c) eqn:Epol; cbn [negb]; [|by rewrite run_nil].
    rewrite run_rule. cbn [forallb holds psaddr set_dst q does]. rewrite Hp, Ha, Hq, (bool_decide_eq_true_2 (a = a)) by done. cbn [andb].
    rewrite (lines_policy a c Ec Epol), policy_run by done. cbn [psaddr pproto pdaddr pport set_dst q default]. rewrite Hp. by destruct (first_match _ (ChRules c)) as [r|]; [destruct (bool_decide (CAction r = ActionAllow))|].
  - intros c Hc. unfold jump_lines. destruct (ChPolicy c); cbn [negb]; [|apply run_nil]. rewrite run_rule. cbn [forallb holds psaddr set_dst q].
    rewrite Hp, (bool_decide_eq_false_2 (a = ChAddress c)) by done. by rewrite andb_false_r.
Qed.

End Packet.
End Behaviour.

(** *** The rules a policy compiles to *)

Section Compiled.
Context `{U : Unicode} (gw : Z) (policies : gmap string policy_entry).

(** A chain the compile answers: the whole rules of a stored policy, or none. *)
Definition compiled_from (c : Chain) : Prop :=
  ChRules c = [] ∨ ∃ lookups name policy, Policy_Get policies name = Ok policy ∧
    compileChain lookups (MkChain (ChAddress c) true []) (effective_rules gw policy) = Ok c.

Lemma effective_ports name policy : Policy_Get policies name = Ok policy →
  Forall (λ r, RPorts (ERule r) = [] ∨ RProtocol (ERule r) ≠ "") (effective_rules gw policy).
Proof.
  intros Hp. apply Policy_Get_stored in Hp. cut (Forall (λ r, RPorts r = [] ∨ RProtocol r ≠ "") (ERule <$> effective_rules gw policy)); [by rewrite Forall_fmap|].
  rewrite effective_rules_spec. apply Forall_app. split; [unfold implied_rules; destruct (OpensDNS policy); [|by constructor]; by do 2 (constructor; [by right|])|].
  eapply Forall_impl; [exact Hp|]. intros r [H _]. unfold validRule in H. case_match; [done|]. case_match; [done|].
  destruct (String.eqb_spec (RProtocol r) "") as [E|E]; [|by right]. left. cbn [andb] in H. by destruct (bool_decide_reflect (RPorts r = [])).
Qed.

Lemma compiled_ok c : compiled_from c → forallb rule_ok (ChRules c) = true.
Proof.
  intros [->|(lookups & name & policy & Hp & Hc)]; [done|]. apply compileChain_rules in Hc as (rs & Hrs & ->). cbn [ChRules app].
  apply effective_ports in Hp. apply forallb_forall. intros x Hx%list_elem_of_In.
  apply list_elem_of_lookup in Hx as [i Hi]. destruct (Forall2_lookup_r _ _ _ _ _ Hrs Hi) as (r & Hr & Hc).
  pose proof (Forall_lookup_1 _ _ _ _ Hp Hr) as Hports. unfold rule_ok.
  assert (CProtocol x = RProtocol (ERule r) ∧ CPorts x = RPorts (ERule r)) as [-> ->].
  { revert Hc. unfold compile. repeat case_match; try done; try (intros [= <-]; done). destruct (resolve _ _); [|done]. by intros [= <-]. }
  destruct Hports as [->|Hne]; [done|]. rewrite (proj2 (String.eqb_neq _ _) Hne). apply orb_true_r.
Qed.

End Compiled.

(** A frame for another port of the bridge. *)
Lemma bridged_run s cs leases port p : at_hook (host_tables s cs leases) "bridge" Forward (MkPlace port "" (Bridge (cfg s))) p = VDrop.
Proof.
  change (at_hook _ _ _ ?w _) with (default VAccept (run jumps (bridge_table s leases) w p [Rule_ [Ibrname (Bridge (cfg s))] Drop])).
  rewrite run_rule. cbn [forallb holds ibr]. by rewrite String.eqb_refl.
Qed.

Lemma contains_v4 c s a : addr_ok (paddr (Subnet c)) → New c = Ok s → Prefix_Contains (Subnet (cfg s)) a = true → ∃ v, a = Addr4 v.
Proof.
  intros Hok Hs Ha. destruct (New_shape c s Hok Hs) as (base & bits & Hsub & _). rewrite Hsub in Ha. destruct a as [|v|v z]; [|by eexists|].
  all: unfold Prefix_Contains in Ha; cbn [paddr] in Ha; by destruct (_ || _) in Ha.
Qed.

Lemma held_contains p dir : Forall (λ a, Prefix_Contains (subnet p) a = true) (held p dir).
Proof.
  apply Forall_forall. intros a. unfold held. rewrite merge_sort_Permutation, list_elem_of_omap. intros (name & _ & H).
  unfold lease_address in H. destruct (ParseAddr name); [|done]. cbn in H. by destruct (Prefix_Contains _ _) eqn:E; [injection H as <-|].
Qed.

Lemma service_chains_in s e cs held_ : service_chains s e = Ok (cs, held_) → Forall (λ c, Prefix_Contains (Subnet (cfg s)) (ChAddress c) = true) cs.
Proof.
  unfold service_chains. destruct (HasEgress (cfg s)); cbn [negb]; [|by intros [= <- <-]]. destruct (splitHeld _ _) as [[cs' h]|]; [|done].
  destruct (first_match _ cs') eqn:E; [done|]. intros [= <- <-]. apply first_match_None in E. eapply Forall_impl; [exact E|]. intros x Hx. by apply negb_false_iff.
Qed.

(** C7: the text the host hands to [nft] means what the judge of the user-space stack says. For chains compiled from stored
    policies, one for an address, and the leases on disk, it is the text of tables under which the first packet of any flow from
    the port of a leased address ends up where [expected] says: never past the port with another's address or over IPv6, never
    at another sandbox, on the host itself only at the resolver and, for a fronted sandbox within its share, the proxy, and
    anywhere else exactly where [Judge] allows. *)
Theorem ruleset_enforces `{U : Unicode} c s e cs held_ dir gw policies local route a bridged p :
  addr_ok (paddr (Subnet c)) → New c = Ok s → service_chains s e = Ok (cs, held_) →
  NoDup (ChAddress <$> cs) → Forall (compiled_from gw policies) cs →
  a ∈ held (spool s) dir → pstate p = New_ →
  ∃ ts, ruleset s cs (held (spool s) dir) = print ts ∧
    from_port ts local route (Bridge (cfg s)) (hostInterface s a) bridged p = expected s (Apply cs judge_zero) local route a bridged p.
Proof.
  intros Hok Hs Hc Hnd Hcomp Ha Hnew. exists (host_tables s cs (held (spool s) dir)). split; [apply ruleset_text|].
  destruct (New_shape c s Hok Hs) as (base & bits & Hsub & Hpool & _).
  pose proof (held_contains (spool s) dir) as Hls. rewrite Hpool, <- Hsub in Hls.
  assert (∀ a b, Prefix_Contains (Subnet (cfg s)) a = true → Prefix_Contains (Subnet (cfg s)) b = true → hostInterface s a = hostInterface s b → a = b) as Hinj.
  { intros x y Hx Hy E. destruct (contains_v4 c s x Hok Hs Hx) as [v ->], (contains_v4 c s y Hok Hs Hy) as [w ->]. f_equal.
    by apply (hostInterface_unique c s v w Hok Hs Hx Hy). }
  assert (Forall (λ c, Prefix_Contains (Subnet (cfg s)) (ChAddress c) = true ∧ forallb rule_ok (ChRules c) = true) cs) as Hcs.
  { apply Forall_and. split; [by eapply service_chains_in|]. eapply Forall_impl; [exact Hcomp|]. intros x Hx. by eapply compiled_ok. }
  unfold from_port, expected. rewrite (pins_run s cs (held (spool s) dir) Hinj Hls a p Ha).
  destruct (bool_decide (pnet p = V6)) eqn:E6; [done|]. cbn [orb]. destruct (bool_decide (psaddr p = a)) eqn:Ea; [|done]. cbn [negb orb].
  destruct bridged; [by rewrite bridged_run|]. destruct (bool_decide (pnet p = ARP)) eqn:Er; [done|].
  apply bool_decide_eq_true in Ea. apply bool_decide_eq_false in E6, Er. assert (v4 p = true) as Hv by (unfold v4; by destruct (pnet p)).
  unfold routed. rewrite Hnew, (dnat_run s cs (held (spool s) dir) Hcs Hnd a p Hv Ea Hnew).
  destruct (redirected s (Apply cs judge_zero) a p) as [d n]. cbn [fst snd pdaddr pport set_dst].
  destruct (local d); [rewrite (input_run s cs (held (spool s) dir) Hcs Hnd a p Hv Ea Hnew d n); by destruct (served _ _ _ _ _ _)|].
  rewrite (forward_run s cs (held (spool s) dir) Hinj Hcs Hnd a p Hv Ea Hnew d n (route d)). destruct (String.eqb _ _); [done|]. by destruct (VAllow _).
Qed.

(** A flow that comes from elsewhere never reaches a sandbox. *)
Theorem nothing_dials_in s cs leases local route from p :
  from ≠ Bridge (cfg s) → pstate p = New_ → local (pdaddr p) = false → route (pdaddr p) = Bridge (cfg s) →
  routed (host_tables s cs leases) local route from p = Dropped.
Proof.
  intros Hf Hnew Hl Hr. assert (String.eqb from (Bridge (cfg s)) = false) as Ef by (by apply String.eqb_neq). unfold routed. rewrite Hnew.
  assert (at_hook (host_tables s cs leases) "inet" Prerouting (MkPlace from "" "") p = VAccept) as ->.
  { change (at_hook _ _ _ ?w _) with (default VAccept (run jumps (inet_table s cs leases) w p (flat_map (dnat_lines s) cs))).
    rewrite run_quiet; [done|]. intros c _. unfold dnat_lines.
    destruct (ChPolicy c); cbn [app negb]; rewrite !run_line, run_nil; cbn [forallb holds iif]; by rewrite Ef. }
  rewrite Hl, Hr.
  change (at_hook _ _ _ ?w _) with (default VAccept (run jumps (inet_table s cs leases) w p (forward_lines s))).
  unfold forward_lines. rewrite !run_line. cbn [forallb holds iif oif]. by rewrite Ef, Hnew, String.eqb_refl.
Qed.

(** ** A host *)

Definition egress_config : Config := MkConfig "/var/lib/shard" "" PrefixZero [] true false false false false.
Definition egress_service : Service :=
  MkService (set_layout egress_config "shard0" (MkPrefix (Addr4 173473792) 16) DefaultNameservers)
    (MkPool (MkPrefix (Addr4 173473792) 16) (Addr4 173473794)) (Addr4 173473793).
Definition egress_env : env := MkEnv (Some []) ([addr_chain], None) true ClaimFine (true, true) (Some false) None.
Definition to_public (port : Z) : packet := MkPacket V4 guest_addr (Addr4 public_addr) "tcp" port New_ 1.

Abbreviation sent port := (λ ts, from_port ts (λ d, bool_decide (d = gateway egress_service)) (λ _, "eth0") "shard0" "shardv2" false (to_public port)).

(** The port the policy allows goes out, another does not, and the web goes to the proxy. *)
Example sent_somewhere : let ts := host_tables egress_service [addr_chain] [guest_addr] in
  sent 8443 ts = Forwarded (Addr4 public_addr) 8443 "eth0" ∧ sent 25 ts = Dropped ∧ sent 443 ts = Delivered (gateway egress_service) TLSPort.
Proof. vm_compute. split_and!; reflexivity. Qed.

Lemma ruleset_enforces_witness : ∃ ts, ruleset egress_service [addr_chain] [guest_addr] = print ts ∧ sent 8443 ts = Forwarded (Addr4 public_addr) 8443 "eth0".
Proof.
  destruct (ruleset_enforces (U := ascii_only) egress_config egress_service egress_env [addr_chain] None small_leases web_gateway addr_dir
    (λ d, bool_decide (d = gateway egress_service)) (λ _, "eth0") guest_addr false (to_public 8443)) as (ts & Hts & Hs).
  - exact Logic.I.
  - vm_compute. reflexivity.
  - vm_compute. reflexivity.
  - apply NoDup_singleton.
  - apply Forall_singleton. right. exists (λ _, no_lookup), "web", addr_policy. split; vm_compute; reflexivity.
  - apply (bool_decide_unpack _). vm_compute. exact Logic.I.
  - reflexivity.
  - exists ts. split; [exact Hts|]. refine (eq_trans Hs _). vm_compute. reflexivity.
Defined.
