(* ===== verification/Broker.v ===== *)
(** * The broker

    [services/broker/broker.go], the proxy's director: it names the sandbox behind a connection, judges
    the request by the rules the host enforces, logs every verdict, and puts secret values where the guest
    wrote placeholders. *)

From S2P Require Import Prelude GoStrings Netip Models Store Secret Network EgressPolicy EgressDecide EgressCompile Replacer Http Records.
Local Open Scope Z_scope.

Inductive broker_error : Type :=
| ENoSandbox (source : Addr)
| EReadRecords
| EPolicy (e : policy_error)
| EResolve (e : compile_failure)
| ELog (id : string)
| ESecret (e : Secret.error)
| EReserve.

(** ** Which sandbox holds an address *)

Record cache : Type := MkCache { cachedGen : Z; byAddr : option (gmap Addr Sandbox) }.

Definition addressable (sb : Sandbox) : bool :=
  Prefix_IsValid (Address sb) && negb (bool_decide (SState sb = StateFailed)).

(** [addresses]: the later record of an address wins. *)
Definition addresses (sandboxes : list Sandbox) : gmap Addr Sandbox :=
  foldl (λ m sb, if addressable sb then <[paddr (Address sb) := sb]> m else m) ∅ sandboxes.

(** [gen] is the generation read first, [listing] what the records answer after it, [None] when they fail. *)
Definition sandbox (gen : Z) (listing : option (list Sandbox)) (c : cache) (source : Addr)
  : cache * result broker_error Sandbox :=
  let lookup (c : cache) :=
    match default ∅ (byAddr c) !! source with
    | None => (c, Err (ENoSandbox source))
    | Some sb => (c, Ok sb)
    end in
  if bool_decide (byAddr c = None) || negb (gen =? cachedGen c) then
    match listing with
    | None => (c, Err EReadRecords)
    | Some sandboxes => lookup (MkCache gen (Some (addresses sandboxes)))
    end
  else lookup c.

(** ** Requests and verdicts *)

Record Request : Type := MkRequest { Source : Addr; Host : string; Port : Z; TLS : bool }.

Record ProxyDecision : Type := MkProxyDecision {
  Allowed : bool;
  Upstream : option (Addr * Z);
  PRule : string;
  PReason : string
}.

(** One line of the egress log. *)
Record LogRecord : Type := MkLogRecord {
  LTime : Z;
  LSource : string;
  LVerdict : Action;
  LHost : string;
  LPort : Z;
  LAddress : string;
  LRule : string;
  LRuleText : string;
  LReason : string
}.

Definition SourceProxy := "proxy".
Definition SourceDNS := "dns".
Definition RuleCertificate := "certificate".

(** The log of every sandbox, oldest line first; [append_ok] says whether the write lands. *)
Abbreviation egress_log := (list (string * LogRecord)).

Definition Append (append_ok : bool) (log : egress_log) (id : string) (r : LogRecord) : egress_log * result broker_error unit :=
  if append_ok then (log ++ [(id, r)], Ok tt) else (log, Err (ELog id)).

Definition rule_text (d : Decision) : string :=
  match DRule d with Some r => FormatRule (ERule r) | None => "" end.

(** [cmp.Or(a, b)]. *)
Definition Or (a b : string) : string := if String.eqb a "" then b else a.

Definition Addr_String (a : Addr) : string := match a with Addr4 v => String4 v | _ => "invalid IP" end.

(** The text of a lookup that failed; [detail] is the resolver's own. *)
Definition failure_text (detail : string) (e : compile_failure) : string :=
  match e with
  | ELookup host => "resolve " +:+ host +:+ " through the sandbox nameservers: " +:+ detail
  | ENoIPv4 host => "resolve " +:+ host +:+ ": no IPv4 address"
  | _ => detail
  end.

Section Broker.
Context `{U : Unicode} (gateway : Z) (policies : gmap string policy_entry).

(** [record] fills in what every line of the proxy shares. *)
Definition record (append_ok : bool) (now : Z) (log : egress_log) (id : string) (req : Request) (action : Action)
    (address rule ruleText reason : string) : egress_log * result broker_error unit :=
  Append append_ok log id (MkLogRecord now SourceProxy action (Host req) (Port req) address rule ruleText reason).

Definition denied (append_ok : bool) (now : Z) (log : egress_log) (id : string) (req : Request) (d : Decision)
  : egress_log * result broker_error ProxyDecision :=
  let rule := rule_text d in
  match record append_ok now log id req (DAction d) "" (DID d) rule (DReason d) with
  | (log, Err e) => (log, Err e)
  | (log, Ok _) => (log, Ok (MkProxyDecision false None (Or rule (DID d)) (DReason d)))
  end.

(** What the world answers during one call: the generation and the list of the records, the resolver, the
    interfaces, the clock and whether the log write lands. *)
Record world : Type := MkWorld {
  wgen : Z;
  wlisting : option (list Sandbox);
  wlookup : resolver;
  wlookup_text : string;
  waddresses : option (list Addr);
  wnow : Z;
  wappend : bool
}.

Record state : Type := MkState { scache : cache; slocal : Local; slog : egress_log }.

Definition Broker_Decide (w : world) (st : state) (req : Request) : state * result broker_error ProxyDecision :=
  match sandbox (wgen w) (wlisting w) (scache st) (Source req) with
  | (c, Err e) => (MkState c (slocal st) (slog st), Err e)
  | (c, Ok sb) =>
      match Unresolved gateway policies sb (Host req) (Port req) with
      | Err e => (MkState c (slocal st) (slog st), Err (EPolicy e))
      | Ok (Some d) =>
          let '(log, r) := denied (wappend w) (wnow w) (slog st) (ID sb) req d in (MkState c (slocal st) log, r)
      | Ok None =>
          match Lookup (wlookup w) (Host req) with
          | Err e =>
              let '(log, logged) := record (wappend w) (wnow w) (slog st) (ID sb) req ActionDeny "" RuleResolve "" (failure_text (wlookup_text w) e) in
              (MkState c (slocal st) log, match logged with Err e => Err e | Ok _ => Err (EResolve e) end)
          | Ok [] => (MkState c (slocal st) (slog st), Err (EResolve (ENoIPv4 (Host req))))
          | Ok (addr :: _) =>
              let '(local, decided) := Decide gateway (waddresses w) (wnow w) (slocal st) policies sb (Host req) (Port req) addr in
              match decided with
              | Err e => (MkState c local (slog st), Err (EPolicy e))
              | Ok d =>
                  let rule := rule_text d in
                  let '(log, logged) := record (wappend w) (wnow w) (slog st) (ID sb) req (DAction d) (Addr_String addr) (DID d) rule (DReason d) in
                  (MkState c local log,
                   match logged with
                   | Err e => Err e
                   | Ok _ => Ok (MkProxyDecision (bool_decide (DAction d = ActionAllow)) (Some (addr, Port req mod 65536))
                                   (Or rule (DID d)) (DReason d))
                   end)
              end
          end
      end
  end.

(** [Resolve] judges one DNS question by its name alone. *)
Definition Resolve (w : world) (st : state) (source : Addr) (name : string) : state * result broker_error bool :=
  match sandbox (wgen w) (wlisting w) (scache st) source with
  | (c, Err e) => (MkState c (slocal st) (slog st), Err e)
  | (c, Ok sb) =>
      match DecideName gateway policies sb name with
      | Err e => (MkState c (slocal st) (slog st), Err (EPolicy e))
      | Ok d =>
          let '(log, logged) := Append (wappend w) (slog st) (ID sb)
            (MkLogRecord (wnow w) SourceDNS (DAction d) name 0 "" (DID d) (rule_text d) (DReason d)) in
          (MkState c (slocal st) log,
           match logged with Err e => Err e | Ok _ => Ok (bool_decide (DAction d = ActionAllow)) end)
      end
  end.

Definition Untrusted (w : world) (st : state) (req : Request) (upstream : Addr) (reason : string)
  : state * result broker_error unit :=
  match sandbox (wgen w) (wlisting w) (scache st) (Source req) with
  | (c, Err e) => (MkState c (slocal st) (slog st), Err e)
  | (c, Ok sb) =>
      let '(log, logged) := record (wappend w) (wnow w) (slog st) (ID sb) req ActionDeny (Addr_String upstream) RuleCertificate "" reason in
      (MkState c (slocal st) log, logged)
  end.

(** ** Putting the secrets in *)

Context (EffectiveTLDPlusOne : string → option string).

Definition granted (sec : Secret.Secret) (host : string) : bool :=
  existsb (λ dest, MatchHost dest host) (SecDestinations sec).

(** The swaps of one request: the loop over the sandbox's secrets, in the order it lists them. *)
Fixpoint swaps_of (secrets : gmap string Secret.entry) (req : Request) (names : list string) : result broker_error (list swap) :=
  match names with
  | [] => Ok []
  | name :: names =>
      match Secret.Get EffectiveTLDPlusOne secrets name with
      | Err (ErrNotFound _) =>
          let placeholder := DefaultPlaceholder name in
          rest ← swaps_of secrets req names; Ok (MkSwap placeholder placeholder :: rest)
      | Err e => Err (ESecret e)
      | Ok sec =>
          if negb (TLS req) || negb (granted sec (Host req)) then
            rest ← swaps_of secrets req names; Ok (MkSwap (SecPlaceholder sec) (SecPlaceholder sec) :: rest)
          else match Secret.Value EffectiveTLDPlusOne secrets name with
               | Err e => Err (ESecret e)
               | Ok value => rest ← swaps_of secrets req names; Ok (MkSwap (SecPlaceholder sec) value :: rest)
               end
      end
  end.

Context {R : Type} (reserve : R → Z → option R).

Fixpoint rewrite_values (swaps : list swap) (budget : R) (values : list string) : option (R * list string) :=
  match values with
  | [] => Some (budget, [])
  | v :: values =>
      '(budget, v) ← rewrite reserve swaps budget v;
      '(budget, values) ← rewrite_values swaps budget values;
      Some (budget, v :: values)
  end.

Fixpoint rewrite_header (hop : list string) (swaps : list swap) (budget : R) (h : Header) : option (R * Header) :=
  match h with
  | [] => Some (budget, [])
  | (name, values) :: h =>
      '(budget, values) ← if contains hop name then Some (budget, values) else rewrite_values swaps budget values;
      '(budget, h) ← rewrite_header hop swaps budget h;
      Some (budget, (name, values) :: h)
  end.

Definition hopByHop (h : Header) : list string :=
  ["Connection"; "Proxy-Connection"; "Keep-Alive"; "Proxy-Authenticate"; "Proxy-Authorization"; "Te"; "Trailer";
   "Transfer-Encoding"; "Upgrade"]
  ++ (Values h "Connection" ≫= λ value, (λ name, CanonicalHeaderKey (TrimSpace name)) <$> Split "," value).

Definition basic : string := "Basic ".

Definition rewriteBasic (swaps : list swap) (budget : R) (h : Header) : option (R * Header) :=
  let value := Header_Get h "Authorization" in
  if (String.length value <=? String.length basic)%nat || negb (EqualFold (take_s (String.length basic) value) basic)
  then Some (budget, h)
  else match DecodeString (drop_s (String.length basic) value) with
       | None => Some (budget, h)
       | Some decoded =>
           if negb (Contains decoded ":") then Some (budget, h)
           else '(budget, swapped) ← rewrite reserve swaps budget decoded;
                if String.eqb swapped decoded then Some (budget, h)
                else
                  let encoded := len basic + EncodedLen (len swapped) in
                  budget ← reserve budget (len swapped + 3 * encoded);
                  Some (budget, Header_Set h "Authorization" (take_s (String.length basic) value +:+ EncodeToString64 swapped))
       end.

Definition substitute (swaps : list swap) (budget : R) (h : Header) : option (R * Header) :=
  let hop := hopByHop h in
  '(budget, h) ← rewrite_header hop swaps budget h;
  if contains hop "Authorization" then Some (budget, h) else rewriteBasic swaps budget h.

(** [Rewrite] edits the headers alone; the body goes out as it came. *)
Definition Rewrite (w : world) (st : state) (secrets : gmap string Secret.entry) (req : Request) (budget : R) (h : Header) (body : string)
  : state * result broker_error (R * Header * string) :=
  match sandbox (wgen w) (wlisting w) (scache st) (Source req) with
  | (c, Err e) => (MkState c (slocal st) (slog st), Err e)
  | (c, Ok sb) =>
      (MkState c (slocal st) (slog st),
       match swaps_of secrets req (Secrets sb) with
       | Err e => Err e
       | Ok swaps =>
           match substitute (sort_swaps swaps) budget h with
           | None => Err EReserve
           | Some (budget, h) => Ok (budget, h, body)
           end
       end)
  end.

End Broker.

(** * Naming the sandbox

    The broker against the promise of the records over time, [RecordsHistory]. *)

Section Fresh.
Context {H : RecordsHistory}.

(** The cache was filled from a list taken after its generation was read, at some earlier time. *)
Definition cache_ok (now : nat) (c : cache) : Prop :=
  byAddr c = None ∨
  ∃ i j sandboxes, (i ≤ j)%nat ∧ (j ≤ now)%nat ∧ cachedGen c = generation i ∧
    listing j = Some sandboxes ∧ byAddr c = Some (addresses sandboxes).

(** A map the generation still vouches for is no older than any settled instant up to now. *)
Lemma cache_hit now c :
  cache_ok now c → byAddr c ≠ None → cachedGen c = generation now →
  ∀ t, (t ≤ now)%nat → settled t → ∃ u sandboxes, (t ≤ u ≤ now)%nat ∧ listing u = Some sandboxes ∧ byAddr c = Some (addresses sandboxes).
Proof.
  intros [?|(i & j & sbs & Hij & Hj & Hg & Hl & Hb)] Hne Hnow t Ht Hs; [done|].
  destruct (le_lt_dec t j) as [Hle|Hlt].
  - exists j, sbs. split_and!; [lia..|done|done].
  - exists t, sbs. split_and!; [lia..| |done]. rewrite <- Hl. symmetry. apply listing_same; [lia| |done].
    pose proof (generation_mono i j Hij). pose proof (generation_mono j t ltac:(lia)). pose proof (generation_mono t now Ht). lia.
Qed.

(** The broker never answers from a stale map: the sandbox it names for an address is the one the
    records name at an instant of the call, or before it but no earlier than the last instant at which every
    write had moved the generation, however many requests were served from the map before. *)
Theorem sandbox_fresh now later c source c' sb :
  cache_ok now c → (now ≤ later)%nat →
  sandbox (generation now) (listing later) c source = (c', Ok sb) →
  cache_ok later c' ∧
  ∀ t, (t ≤ now)%nat → settled t →
    ∃ u sandboxes, (t ≤ u ≤ later)%nat ∧ listing u = Some sandboxes ∧ addresses sandboxes !! source = Some sb.
Proof.
  intros Hc Hle. unfold sandbox.
  destruct (bool_decide (byAddr c = None) || negb (generation now =? cachedGen c)) eqn:E.
  - destruct (listing later) as [sbs|] eqn:Hl; [|done]. simpl.
    destruct (addresses sbs !! source) as [x|] eqn:Hs; [|done]. intros [= <- <-]. split.
    + right. exists now, later, sbs. done.
    + intros t Ht _. exists later, sbs. split_and!; [lia..|done|done].
  - apply orb_false_iff in E as [E1 E2]. apply bool_decide_eq_false in E1. apply negb_false_iff, Z.eqb_eq in E2.
    destruct (default ∅ (byAddr c) !! source) as [x|] eqn:Hs; [|done]. intros [= <- <-]. split.
    + destruct Hc as [?|(i & j & s & Hij & Hj & Hrest)]; [done|]. right. exists i, j, s. split_and!; try apply Hrest; lia.
    + intros t Ht Hst. destruct (cache_hit now c Hc E1 ltac:(done) t Ht Hst) as (u & sbs & Hu & Hl & Hb).
      exists u, sbs. rewrite Hb in Hs. split_and!; [lia..|done|done].
Qed.

End Fresh.

(** A sandbox the map names holds the address, and did not fail. *)
Lemma addresses_spec sbs source sb :
  addresses sbs !! source = Some sb → sb ∈ sbs ∧ paddr (Address sb) = source ∧ addressable sb = true.
Proof.
  unfold addresses. revert sb. induction sbs as [|x sbs IH] using rev_ind; intros sb; [done|].
  rewrite foldl_app. simpl. destruct (addressable x) eqn:Ea.
  - destruct (decide (paddr (Address x) = source)) as [<-|Hne].
    + rewrite lookup_insert_eq. intros [= <-]. set_solver.
    + rewrite lookup_insert_ne by done. intros Hs. apply IH in Hs. set_solver.
  - intros Hs. apply IH in Hs. set_solver.
Qed.

(** * Verdicts *)

Section Verdicts.
Context `{U : Unicode} (gateway : Z) (policies : gmap string policy_entry).

Lemma Append_Ok append_ok log id r log' :
  Append append_ok log id r = (log', Ok tt) → append_ok = true ∧ log' = log ++ [(id, r)].
Proof. unfold Append. destruct append_ok; [|done]. by intros [= <-]. Qed.

(** A verdict without a line in the log is no verdict. *)
Definition logged (st st' : state) (req : Request) (d : ProxyDecision) : Prop :=
  ∃ id rec, slog st' = slog st ++ [(id, rec)] ∧ LHost rec = Host req ∧ LPort rec = Port req ∧
    (Allowed d = true ↔ LVerdict rec = ActionAllow).

Lemma unresolved_go_deny sb host port rules d : unresolved_go sb host port rules = Some d → DAction d = ActionDeny.
Proof.
  induction rules as [|r rules IH]; simpl; [by intros [= <-]|].
  destruct (nameDecidesHTTP _ _ _).
  - destruct (bool_decide _) eqn:E; [|done]. breflect. by intros [= <-].
  - destruct (mightAllowByAddress _ _); [done|]. apply IH.
Qed.

Lemma Unresolved_deny sb host port d : Unresolved gateway policies sb host port = Ok (Some d) → DAction d = ActionDeny.
Proof.
  unfold Unresolved. destruct (String.eqb _ _); [done|]. destruct (Effective_ _ _ _) as [e|]; [|done].
  destruct (EMissing e); [by intros [= <-]|]. intros [= H]. by eapply unresolved_go_deny.
Qed.

(** Every verdict the proxy acts on is in the log, with the same outcome: when the line cannot be written
    there is no verdict, only an error. And an allowed request is dialled at an address the name resolved
    to, outside every private range and the host's own addresses. *)
Theorem Broker_Decide_logged w st req st' d :
  Broker_Decide gateway policies w st req = (st', Ok d) →
  wappend w = true ∧ logged st st' req d ∧
  (Allowed d = true →
   ∃ addr rest, Lookup (wlookup w) (Host req) = Ok (addr :: rest) ∧ Upstream d = Some (addr, Port req mod 65536) ∧
     contains_addr Private addr = false ∧ ~ special_address addr).
Proof.
  unfold Broker_Decide, logged, denied, record. destruct (sandbox _ _ _ _) as [c [sb|e]]; [|done].
  destruct (Unresolved _ _ _ _ _) as [[dec|]|e] eqn:Hu; [| |done].
  - apply Unresolved_deny in Hu. destruct (Append _ _ _ _) as [log r] eqn:Ha. destruct r as [[]|]; [|done].
    intros [= <- <-]. apply Append_Ok in Ha as [-> ->]. split_and!; [done| |done].
    eexists _, _. split_and!; [done|done|done|]. simpl. rewrite Hu. done.
  - destruct (Lookup _ _) as [[|addr rest]|e] eqn:Hl; [done| |].
    2: { destruct (Append _ _ _ _) as [log [[]|]]; done. }
    destruct (Decide _ _ _ _ _ _ _ _ _) as [local [dec|e]] eqn:Hd; [|done].
    destruct (Append _ _ _ _) as [log r] eqn:Ha. destruct r as [[]|]; [|done].
    intros [= <- <-]. apply Append_Ok in Ha as [-> ->]. split_and!; [done| |].
    + eexists _, _. split_and!; [done|done|done|]. simpl. by rewrite bool_decide_eq_true.
    + simpl. intros Hallow%bool_decide_eq_true. exists addr, rest.
      destruct (Decide_floor_holds gateway _ _ _ _ _ _ _ _ _ _ Hd Hallow) as (H1 & H2 & _). done.
Qed.

End Verdicts.

(** * Secrets *)

Section Secrets.
Context `{U : Unicode} (EffectiveTLDPlusOne : string → option string).
Context {R : Type} (reserve : R → Z → option R).

Abbreviation swaps_of := (swaps_of EffectiveTLDPlusOne).
Abbreviation Rewrite := (Rewrite EffectiveTLDPlusOne reserve).
Abbreviation SGet := (Secret.Get EffectiveTLDPlusOne).
Abbreviation SValue := (Secret.Value EffectiveTLDPlusOne).

Lemma swaps_of_value_free secrets1 secrets2 req names :
  (∀ name, SGet secrets1 name = SGet secrets2 name) →
  (∀ name sec, SGet secrets1 name = Ok sec → TLS req = true → granted sec (Host req) = true →
     SValue secrets1 name = SValue secrets2 name) →
  swaps_of secrets1 req names = swaps_of secrets2 req names.
Proof.
  intros Hget Hval. induction names as [|name names IH]; [done|]. simpl. rewrite <- Hget, IH.
  destruct (SGet secrets1 name) as [sec|e] eqn:Hg; [|done].
  destruct (TLS req) eqn:Ht; [|done]. destruct (granted sec (Host req)) eqn:Hgr; [|done]. simpl. by rewrite (Hval name sec).
Qed.

(** C8: A secret's value reaches only the hosts it is granted to, over TLS: two stores that differ in nothing
    but the values of secrets not granted to the host, or in any value at all on a plain request, give the
    very same outbound request, budget and errors. *)
Theorem Rewrite_confined w st secrets1 secrets2 req budget h body :
  (∀ name, SGet secrets1 name = SGet secrets2 name) →
  (∀ name sec, SGet secrets1 name = Ok sec → TLS req = true → granted sec (Host req) = true →
     SValue secrets1 name = SValue secrets2 name) →
  Rewrite w st secrets1 req budget h body = Rewrite w st secrets2 req budget h body.
Proof.
  intros Hget Hval. unfold Rewrite. destruct (sandbox _ _ _ _) as [c [sb|]]; [|done].
  by rewrite (swaps_of_value_free secrets1 secrets2 req (Models.Secrets sb)).
Qed.

Lemma rewrite_unchanging swaps budget s :
  changes swaps = [] → rewrite reserve swaps budget s = Some (budget, s).
Proof. unfold rewrite. by intros ->. Qed.

Lemma rewrite_values_unchanging swaps budget values :
  changes swaps = [] → rewrite_values reserve swaps budget values = Some (budget, values).
Proof.
  intros Hc. induction values as [|v values IH]; [done|]. simpl.
  rewrite rewrite_unchanging by done. simpl. by rewrite IH.
Qed.

Lemma rewrite_header_unchanging hop swaps budget h :
  changes swaps = [] → rewrite_header reserve hop swaps budget h = Some (budget, h).
Proof.
  intros Hc. induction h as [|[name values] h IH]; [done|]. cbn [rewrite_header].
  destruct (contains hop name); [|rewrite rewrite_values_unchanging by done]; cbn [mbind option_bind]; by rewrite IH.
Qed.

Lemma substitute_unchanging swaps budget h :
  changes swaps = [] → substitute reserve swaps budget h = Some (budget, h).
Proof.
  intros Hc. unfold substitute. rewrite rewrite_header_unchanging by done. simpl.
  destruct (contains _ _); [done|]. unfold rewriteBasic. destruct (_ || _); [done|].
  destruct (DecodeString _) as [decoded|]; [|done]. destruct (Contains decoded ":"); [|done]. simpl.
  rewrite rewrite_unchanging by done. simpl. by rewrite String.eqb_refl.
Qed.

Lemma sort_unchanging swaps : Forall (λ p, swith p = splaceholder p) swaps → changes (sort_swaps swaps) = [].
Proof.
  intros HF. destruct (changes (sort_swaps swaps)) as [|p ps] eqn:E; [done|].
  assert (Hp : p ∈ changes (sort_swaps swaps)) by (rewrite E; by left).
  apply list_elem_of_filter in Hp as [Hne Hin]. apply (proj2 (sort_swaps_spec swaps)) in Hin.
  exfalso. apply Hne. exact (proj1 (Forall_forall _ _) HF p Hin).
Qed.

(** On a plain request no swap changes anything. *)
Lemma swaps_of_plain secrets req names swaps :
  TLS req = false → swaps_of secrets req names = Ok swaps → Forall (λ p, swith p = splaceholder p) swaps.
Proof.
  intros Ht. revert swaps. induction names as [|name names IH]; intros swaps H; simpl in H; [by injection H as <-|].
  rewrite Ht in H. destruct (SGet secrets name) as [sec|e].
  - simpl in H. destruct (swaps_of secrets req names) as [rest|]; [|done]. injection H as <-.
    constructor; [done|by apply IH].
  - destruct e; try done. destruct (swaps_of secrets req names) as [rest|]; [|done]. injection H as <-.
    constructor; [done|by apply IH].
Qed.

Lemma Header_Set_keys h key value :
  key = CanonicalHeaderKey key → key ∈ h.*1 → (Header_Set h key value).*1 = h.*1 ∧
  ∀ k vs, k ≠ key → (k, vs) ∈ Header_Set h key value ↔ (k, vs) ∈ h.
Proof.
  intros Hk Hin. unfold Header_Set. rewrite <- Hk.
  assert (existsb (λ kv : string * list string, String.eqb kv.1 key) h = true) as ->.
  { apply existsb_elem_of. apply list_elem_of_fmap in Hin as (kv & -> & Hin). exists kv. split; [done|]. apply String.eqb_refl. }
  split.
  - rewrite <- list_fmap_compose. apply list_fmap_ext. intros i [k vs] _. simpl.
    destruct (String.eqb_spec k key) as [->|]; done.
  - intros k vs Hne. rewrite list_elem_of_fmap. split.
    + intros ([k' vs'] & E & Hin'). simpl in E. destruct (String.eqb_spec k' key); injection E as -> ->; [done|done].
    + intros Hin'. exists (k, vs). split; [|done]. simpl. by rewrite (proj2 (String.eqb_neq _ _)).
Qed.
Lemma rewrite_header_keys hop swaps budget h budget' h' :
  rewrite_header reserve hop swaps budget h = Some (budget', h') →
  h'.*1 = h.*1 ∧ ∀ k vs, k ∈ hop → (k, vs) ∈ h' ↔ (k, vs) ∈ h.
Proof.
  revert budget h'. induction h as [|[name values] h IH]; intros budget h' H.
  - simpl in H. injection H as <- <-. done.
  - cbn [rewrite_header] in H. apply bind_Some in H as ([b vs'] & Hv & H). simpl in H.
    apply bind_Some in H as ([b2 h2] & Hh & H). injection H as <- <-. apply IH in Hh as [Hk Hx].
    split; [rewrite !fmap_cons, Hk; done|]. intros k vs Hin. rewrite !elem_of_cons, (Hx k vs Hin).
    destruct (decide (k = name)) as [->|Hne]; [|naive_solver].
    rewrite (proj2 (contains_elem_of hop name) Hin) in Hv. by injection Hv as <- <-.
Qed.

Lemma Get_in_keys h key : Header_Get h key ≠ "" → CanonicalHeaderKey key ∈ h.*1.
Proof.
  unfold Header_Get, Values. destruct (first_match _ h) as [kv|] eqn:E; [|done]. intros _.
  apply first_match_Some in E as (a & b & -> & E & _). apply String.eqb_eq in E. rewrite <- E, fmap_app. set_solver.
Qed.

Lemma rewriteBasic_keys swaps budget h budget' h' :
  rewriteBasic reserve swaps budget h = Some (budget', h') →
  h'.*1 = h.*1 ∧ ∀ k vs, k ≠ "Authorization" → (k, vs) ∈ h' ↔ (k, vs) ∈ h.
Proof.
  unfold rewriteBasic. destruct (_ || _) eqn:Hlen; [by intros [= <- <-]|].
  destruct (DecodeString _) as [decoded|]; [|by intros [= <- <-]].
  destruct (Contains decoded ":"); [|by intros [= <- <-]]. simpl. intros H.
  apply bind_Some in H as ([b swapped] & _ & H). simpl in H.
  destruct (String.eqb swapped decoded); [by injection H as <- <-|].
  apply bind_Some in H as (b2 & _ & H). injection H as <- <-.
  apply Header_Set_keys; [done|]. change "Authorization" with (CanonicalHeaderKey "Authorization").
  apply Get_in_keys. intros E. rewrite E in Hlen. done.
Qed.

(** What a rewrite leaves alone: the body, the set of headers, and every hop-by-hop header with the ones
    the Connection header names; and on a plain request, everything. *)
Theorem Rewrite_untouched w st secrets req budget h body st' budget' h' body' :
  Rewrite w st secrets req budget h body = (st', Ok (budget', h', body')) →
  body' = body ∧ h'.*1 = h.*1 ∧ (∀ k vs, k ∈ hopByHop h → (k, vs) ∈ h' ↔ (k, vs) ∈ h) ∧
  (TLS req = false → h' = h ∧ budget' = budget).
Proof.
  unfold Rewrite. destruct (sandbox _ _ _ _) as [c [sb|]]; [|done].
  destruct (swaps_of secrets req (Models.Secrets sb)) as [swaps|] eqn:Hsw; [|done].
  destruct (substitute reserve (sort_swaps swaps) budget h) as [[b2 h2]|] eqn:Hsub; [|done].
  intros [= <- <- <- <-]. split; [done|].
  assert (Hplain : TLS req = false → h2 = h ∧ b2 = budget).
  { intros Ht. apply swaps_of_plain, sort_unchanging in Hsw; [|done].
    rewrite substitute_unchanging in Hsub by done. by injection Hsub as <- <-. }
  unfold substitute in Hsub. apply bind_Some in Hsub as ([b1 h1] & Hh & Hsub). cbv beta iota in Hsub.
  apply rewrite_header_keys in Hh as [Hk Hx].
  destruct (contains (hopByHop h) "Authorization") eqn:Ha.
  - injection Hsub as <- <-. done.
  - apply rewriteBasic_keys in Hsub as [Hk2 Hx2]. split_and!; [by rewrite Hk2| |done].
    intros k vs Hin. rewrite Hx2, (Hx k vs Hin); [done|]. intros ->.
    apply contains_elem_of in Hin. congruence.
Qed.

End Secrets.

(** * Witnesses *)

#[local] Instance steady : RecordsHistory.
Proof. refine {| generation := λ _, 1; listing := λ _, Some [guarded_sandbox]; settled := λ _, True |}; done. Defined.

Lemma sandbox_fresh_witness :
  ∃ u sandboxes, (0 ≤ u ≤ 1)%nat ∧ listing u = Some sandboxes ∧ addresses sandboxes !! guest_addr = Some guarded_sandbox.
Proof.
  refine (proj2 (sandbox_fresh 0 1 (MkCache 0 None) guest_addr _ guarded_sandbox _ _ _) 0%nat _ _).
  - by left.
  - lia.
  - vm_compute. reflexivity.
  - lia.
  - exact I.
Defined.

Definition quiet_world : world :=
  MkWorld 1 (Some [guarded_sandbox]) public_lookup "" host_addrs 5 true.
Definition fresh_state : state := MkState (MkCache 0 None) (MkLocal None 0) [].
Definition web_request (tls : bool) : Request := MkRequest guest_addr "api.example.com" 443 tls.

Lemma Broker_Decide_logged_witness :
  ∃ addr rest, Lookup public_lookup "api.example.com" = Ok (addr :: rest) ∧ contains_addr Private addr = false.
Proof.
  destruct (Broker_Decide_logged (U := ascii_only) web_gateway web_dir quiet_world fresh_state (web_request true)
    _ _ ltac:(vm_compute; reflexivity)) as (_ & _ & H).
  destruct (H ltac:(vm_compute; reflexivity)) as (addr & rest & H1 & _ & H2 & _). exists addr, rest. exact (conj H1 H2).
Defined.

Definition token_store (value : string) : gmap string Secret.entry :=
  {[ "TOKEN" := EntryRecord (MkRecord value ["other.example.com"] "mock-TOKEN" 1) ]}.

Definition budget_reserve (b n : Z) : option Z := if n <=? b then Some (b - n) else None.

Lemma Rewrite_confined_witness :
  Rewrite (U := ascii_only) no_suffixes budget_reserve quiet_world fresh_state (token_store "one") (web_request true) 100 [("X-Key", ["mock-TOKEN"])] "" =
  Rewrite (U := ascii_only) no_suffixes budget_reserve quiet_world fresh_state (token_store "two") (web_request true) 100 [("X-Key", ["mock-TOKEN"])] "".
Proof.
  apply (Rewrite_confined (U := ascii_only) no_suffixes budget_reserve).
  - intros name. unfold Secret.Get, Secret.read, token_store. destruct (ValidName name); [|reflexivity].
    destruct (decide (name = "TOKEN")) as [->|Hne].
    + rewrite !lookup_singleton_eq. reflexivity.
    + rewrite !lookup_singleton_ne by congruence. reflexivity.
  - intros name sec Hg _ Hgr. exfalso. revert Hg Hgr. unfold Secret.Get, Secret.read, token_store.
    destruct (ValidName name); [|discriminate]. destruct (decide (name = "TOKEN")) as [->|Hne].
    + rewrite !lookup_singleton_eq. intros [= <-]. vm_compute. discriminate.
    + rewrite !lookup_singleton_ne by congruence. discriminate.
Defined.

Lemma Rewrite_untouched_witness :
  [("X-Key", ["mock-TOKEN"])] = [("X-Key", ["mock-TOKEN"])] ∧ 100 = 100.
Proof.
  refine (proj2 (proj2 (proj2 (Rewrite_untouched (U := ascii_only) no_suffixes budget_reserve quiet_world fresh_state
    (token_store "one") (web_request false) 100 [("X-Key", ["mock-TOKEN"])] "" _ 100 [("X-Key", ["mock-TOKEN"])] "" _))) _).
  - vm_compute. reflexivity.
  - reflexivity.
Defined.
