(* ===== verification/EgressLog.v ===== *)
(** * The egress log of a sandbox

    [services/egress/log.go]: one line per decision in the sandbox's own file, renamed aside before a line would take it past its
    bound; and the newest lines of the two files for who reads them. A file is kept by identity, since a reader keeps the one it
    opened when its name moves on. A record is a line of JSON: what [encoding/json] makes of one is a parameter. *)

From S2P Require Import Prelude GoStrings Models Network Pool EgressDecide Broker.
Local Open Scope Z_scope.

(** ** Lines *)

Definition nl_char : ascii := ascii_of_nat 10.

(** The text up to the last newline, a line each, and what follows it. *)
Fixpoint split_lines (s : string) : list string * string :=
  match s with
  | EmptyString => ([], "")
  | String c s =>
      let '(ls, rest) := split_lines s in
      if Ascii.eqb c nl_char then ("" :: ls, rest)
      else match ls with [] => ([], String c rest) | l :: ls => (String c l :: ls, rest) end
  end.

(** What a reader takes of a file: its whole lines, less the empty ones. *)
Definition whole_lines (s : string) : list string := List.filter (λ l, negb (String.eqb l "")) (split_lines s).1.

Lemma split_app s t :
  split_lines (s +:+ t) =
  ((split_lines s).1 ++ (split_lines ((split_lines s).2 +:+ t)).1, (split_lines ((split_lines s).2 +:+ t)).2).
Proof.
  induction s as [|c s IH]; [cbn [split_lines fst snd]; rewrite app_nil_l; by destruct (split_lines t)|]. rewrite app_cons. cbn [split_lines]. rewrite IH. clear IH.
  destruct (split_lines s) as [ls rest]. cbn [fst snd]. destruct (Ascii.eqb c nl_char) eqn:Ec; [done|].
  destruct ls as [|l ls]; [|done]. cbn [app fst snd]. rewrite app_cons. cbn [split_lines]. rewrite Ec.
  destruct (split_lines (rest +:+ t)) as [ls2 r2]. by destruct ls2.
Qed.

Lemma whole_lines_app s t : whole_lines (s +:+ t) = whole_lines s ++ whole_lines ((split_lines s).2 +:+ t).
Proof. unfold whole_lines. rewrite split_app. cbn [fst]. apply List.filter_app. Qed.

(** A line of its own: with something on it, and no newline. *)
Definition one_line (s : string) : bool := negb (String.eqb s "") && all_chars (λ c, negb (Ascii.eqb c nl_char)) s.

Lemma split_line s t : all_chars (λ c, negb (Ascii.eqb c nl_char)) s = true →
  split_lines (s +:+ String nl_char t) = (s :: (split_lines t).1, (split_lines t).2).
Proof.
  induction s as [|c s IH]; cbn [all_chars].
  - intros _. rewrite app_nil_l. cbn. by destruct (split_lines t).
  - intros [Hc Hs]%andb_true_iff. rewrite app_cons. cbn [split_lines]. rewrite IH by done. by rewrite (proj1 (negb_true_iff _) Hc).
Qed.

(** ** The newest lines: a ring *)

Record tail : Type := MkTail { tlines : list string; tnext : nat; tcut : nat }.

Definition newTail : tail := MkTail [] 0 0.

(** [max] is the capacity [newTail] was made with. *)
Definition add (max : nat) (t : tail) (line : string) : tail :=
  if (length (tlines t) <? max)%nat then MkTail (tlines t ++ [line]) (tnext t) (tcut t)
  else MkTail (<[tnext t := line]> (tlines t)) ((tnext t + 1) `mod` length (tlines t))%nat (S (tcut t)).

(** [read]: what follows the last newline is handed back. *)
Definition tail_read (max : nat) (t : tail) (text : string) : tail * string := (foldl (add max) t (whole_lines text), (split_lines text).2).

Definition kept_lines (t : tail) : list string := drop (tnext t) (tlines t) ++ take (tnext t) (tlines t).

(** The ring holds the newest lines, oldest first, and counts the others. *)
Lemma ring_newest max ls : (0 < max)%nat →
  let t := foldl (add max) newTail ls in kept_lines t = drop (length ls - max) ls ∧ tcut t = (length ls - max)%nat.
Proof.
  intros Hm. cut (let t := foldl (add max) newTail ls in
    kept_lines t = drop (length ls - max) ls ∧ tcut t = (length ls - max)%nat ∧ length (tlines t) = min max (length ls) ∧
    (tnext t < max)%nat ∧ (length ls < max → tnext t = 0)%nat); [by intros (? & ? & _)|].
  induction ls as [|x ls IH] using rev_ind; [by repeat split; simpl; try lia|].
  rewrite foldl_snoc. cbv zeta in IH |- *. set (t := foldl (add max) newTail ls) in *. destruct IH as (Hk & Hc & Hl & Hn & H0).
  rewrite length_app. cbn [length]. unfold add. destruct (Nat.ltb_spec (length (tlines t)) max) as [Hlt|Hge].
  - assert (length ls < max)%nat as Hls by lia. unfold kept_lines in *. cbn [tlines tnext tcut]. specialize (H0 Hls).
    rewrite H0, drop_0, take_0, (right_id_L [] (++)) in Hk. rewrite H0, drop_0, take_0, (right_id_L [] (++)), length_app, Hl, Hk. cbn [length].
    replace (length ls - max)%nat with 0%nat by lia. replace (length ls + 1 - max)%nat with 0%nat by lia. rewrite !drop_0. split_and!; [done|lia..].
  - assert (length (tlines t) = max) as Hmax by lia. rewrite Hmax. unfold kept_lines in *. cbn [tlines tnext tcut] in *.
    destruct (lookup_lt_is_Some_2 (tlines t) (tnext t)) as [y Hy]; [lia|]. apply list_elem_of_split_length in Hy as (A & B & E & Hn').
    rewrite E in *. rewrite Hn' in *. rewrite length_app in Hmax. cbn [length] in Hmax.
    rewrite drop_app_length, take_app_length in Hk. rewrite insert_app_r_alt, Nat.sub_diag by lia. cbn [insert list_insert].
    assert (drop (length ls + 1 - max) (ls ++ [x]) = B ++ A ++ [x]) as ->.
    { replace (length ls + 1 - max)%nat with (S (length ls - max)) by lia. rewrite drop_app_le by lia.
      rewrite <- Nat.add_1_r, <- drop_drop, <- Hk. cbn. by rewrite app_assoc. }
    destruct B as [|b B]; cbn [length] in *.
    + replace ((length A + 1) `mod` max)%nat with 0%nat; [|replace max with (length A + 1)%nat by lia; by rewrite Nat.Div0.mod_same].
      rewrite drop_0, take_0, (right_id_L [] (++)), length_app. cbn. split_and!; [done|lia..].
    + rewrite Nat.mod_small by lia. rewrite drop_app_ge, take_app_ge by lia. replace (length A + 1 - length A)%nat with 1%nat by lia.
      cbn [drop take]. rewrite length_app. cbn. split_and!; [done|lia..].
Qed.

(** ** The files of a log *)

(** [cur] and [rot] are the files the two names lead to; [watched] is how many follows read the log and how many renames there were
    since the first of them began. *)
Record log : Type := MkLog { files : list string; cur : option nat; rot : option nat; watched : option (nat * nat) }.

Definition content (l : log) (i : option nat) : string := match i with Some i => default "" (files l !! i) | None => "" end.
Definition size_of (s : string) : Z := Z.of_nat (String.length s).

Inductive log_error : Type := LStat | LRotate | LOpen | LWrite | LRead | LDecode (line : string).

(** How the calls of one append go; [lands] is what a write that fails leaves in the file. *)
Record append_faults : Type := MkFaults { stat_fails : bool; rename_fails : bool; open_fails : bool; lands : option string }.

Definition rotate (max : Z) (f : append_faults) (next : Z) (l : log) : log * result log_error unit :=
  if stat_fails f then (l, Err LStat)
  else match cur l with
       | None => (l, Ok tt)
       | Some i =>
           let size := size_of (content l (Some i)) in
           if (size =? 0) || (size + next <=? max) then (l, Ok tt)
           else if rename_fails f then (l, Err LRotate)
           else (MkLog (files l) None (Some i) (prod_map id S <$> watched l), Ok tt)
       end.

Definition open_append (f : append_faults) (l : log) : log * result log_error nat :=
  if open_fails f then (l, Err LOpen)
  else match cur l with
       | Some i => (l, Ok i)
       | None => (MkLog (files l ++ [""]) (Some (length (files l))) (rot l) (watched l), Ok (length (files l)))
       end.

Definition write_to (i : nat) (text : string) (l : log) : log := MkLog (alter (λ s, s +:+ text) i (files l)) (cur l) (rot l) (watched l).

Definition MaxLog : Z := Z.shiftl 8 20.
Definition TailRecords : nat := Z.to_nat 10000.

(** [Merge] of one set of records: a stable sort by time. *)
Fixpoint by_time (r : LogRecord) (rs : list LogRecord) : list LogRecord :=
  match rs with [] => [r] | r' :: rs' => if LTime r <=? LTime r' then r :: rs else r' :: by_time r rs' end.
Definition Merge (rs : list LogRecord) : list LogRecord := foldr by_time [] rs.

Section Log.
Context (marshal : LogRecord → string) (unmarshal : string → option LogRecord).

Definition line_of (r : LogRecord) : string := marshal r +:+ String nl_char "".

Definition Append (max : Z) (f : append_faults) (r : LogRecord) (l : log) : log * result log_error unit :=
  let line := line_of r in
  match rotate max f (size_of line) l with
  | (l, Err e) => (l, Err e)
  | (l, Ok _) =>
      match open_append f l with
      | (l, Err e) => (l, Err e)
      | (l, Ok i) => match lands f with None => (write_to i line l, Ok tt) | Some part => (write_to i part l, Err LWrite) end
      end
  end.

(** [records]: the kept lines, decoded. *)
Fixpoint decode (lines : list string) : result log_error (list LogRecord) :=
  match lines with
  | [] => Ok []
  | line :: lines =>
      match unmarshal line with
      | None => Err (LDecode line)
      | Some r => match decode lines with Err e => Err e | Ok rs => Ok (r :: rs) end
      end
  end.

(** [Tail]: [opens] and [reads] say whether the two files open and read. *)
Definition Tail (opens reads : bool) (l : log) : result log_error (list LogRecord * nat) :=
  if negb opens then Err LOpen
  else if negb reads then Err LRead
  else
    let newest := (tail_read TailRecords (tail_read TailRecords newTail (content l (rot l))).1 (content l (cur l))).1 in
    match decode (kept_lines newest) with Err e => Err e | Ok rs => Ok (rs, tcut newest) end.

(** [LogReader.Read]. *)
Definition Read (opens reads : bool) (l : log) : result log_error (list LogRecord * nat) :=
  match Tail opens reads l with Err e => Err e | Ok (rs, cut) => Ok (Merge rs, cut) end.

(** ** What is kept *)

(** Appends one after the other, with the records that were written. *)
Fixpoint appends (max : Z) (es : list (append_faults * LogRecord)) (l : log) : log * list LogRecord :=
  match es with
  | [] => (l, [])
  | (f, r) :: es =>
      let '(l, a) := Append max f r l in
      let '(l, rs) := appends max es l in
      (l, (if is_ok a then [r] else []) ++ rs)
  end.

Definition text_of (rs : list LogRecord) : string := foldr (λ r s, line_of r +:+ s) "" rs.

Lemma text_of_app rs rs' : text_of (rs ++ rs') = text_of rs +:+ text_of rs'.
Proof. induction rs as [|r rs IH]; [done|]. simpl. rewrite IH. apply app_assoc_s. Qed.

Lemma text_lines rs : Forall (λ r, one_line (marshal r) = true) rs → split_lines (text_of rs) = (marshal <$> rs, "").
Proof.
  induction 1 as [|r rs Hr _ IH]; [done|]. apply andb_true_iff in Hr as [_ Hr]. change (text_of (r :: rs)) with (line_of r +:+ text_of rs).
  unfold line_of. rewrite <- app_assoc_s, app_cons, app_nil_l, split_line by done. by rewrite IH.
Qed.

Lemma text_whole rs : Forall (λ r, one_line (marshal r) = true) rs → whole_lines (text_of rs) = marshal <$> rs.
Proof.
  intros H. unfold whole_lines. rewrite text_lines by done. cbn [fst]. induction H as [|r rs Hr _ IH]; [done|]. cbn.
  apply andb_true_iff in Hr as [Hr _]. rewrite Hr. by f_equal.
Qed.

Lemma decode_marshal rs : Forall (λ r, unmarshal (marshal r) = Some r) rs → decode (marshal <$> rs) = Ok rs.
Proof. induction 1 as [|r rs Hr _ IH]; [done|]. cbn. by rewrite Hr, IH. Qed.

(** The two files hold the newest of the records written, in order; a file is within the bound or one line; and when records are
    gone, more than the bound is still there. *)
Definition shape (max : Z) (rs : list LogRecord) (rotated current : string) : Prop :=
  ∃ gone old new, rs = gone ++ old ++ new ∧ rotated = text_of old ∧ current = text_of new ∧
    (gone ≠ [] → max < size_of (text_of (old ++ new))) ∧
    (size_of (text_of old) ≤ max ∨ length old = 1%nat) ∧ (size_of (text_of new) ≤ max ∨ length new = 1%nat).

Record keeps (max : Z) (rs : list LogRecord) (l : log) : Prop := {
  kp_files : ∀ i, cur l = Some i ∨ rot l = Some i → (i < length (files l))%nat;
  kp_apart : ∀ i, cur l = Some i → rot l ≠ Some i;
  kp_shape : shape max rs (content l (rot l)) (content l (cur l))
}.

Lemma size_text_app rs rs' : size_of (text_of (rs ++ rs')) = size_of (text_of rs) + size_of (text_of rs').
Proof. unfold size_of. rewrite text_of_app, length_app_s. lia. Qed.

Lemma size_line r : 0 < size_of (line_of r).
Proof. unfold size_of, line_of. rewrite length_app_s. cbn. lia. Qed.

Lemma text_single r : text_of [r] = line_of r.
Proof. cbn. apply app_nil_r. Qed.

(** A line more in the current file, where it fits or is alone. *)
Lemma shape_add max rs rotated current r :
  shape max rs rotated current → current = "" ∨ size_of current + size_of (line_of r) ≤ max → shape max (rs ++ [r]) rotated (current +:+ line_of r).
Proof.
  intros (gone & old & new & -> & -> & -> & Hg & Ho & Hn) Hfit. exists gone, old, (new ++ [r]). split_and!; try done.
  - by rewrite <- !app_assoc.
  - by rewrite text_of_app, text_single.
  - intros Hne. specialize (Hg Hne). rewrite app_assoc, size_text_app, text_single. pose proof (size_line r). lia.
  - rewrite size_text_app, text_single. destruct Hfit as [He|Hfit]; [|by left]. right. destruct new as [|x new]; [done|].
    exfalso. apply (f_equal size_of) in He. change (text_of (x :: new)) with (line_of x +:+ text_of new) in He. pose proof (size_line x).
    unfold size_of in *. rewrite length_app_s in He. cbn in He. lia.
Qed.

(** A line that does not fit goes to a file of its own, and the current one is the rotated one. *)
Lemma shape_rotate max rs rotated current r :
  shape max rs rotated current → max < size_of current + size_of (line_of r) → shape max (rs ++ [r]) current (line_of r).
Proof.
  intros (gone & old & new & -> & -> & -> & Hg & Ho & Hn) Hmax. exists (gone ++ old), new, [r]. split_and!; try done.
  - by rewrite <- !app_assoc.
  - by rewrite text_single.
  - intros _. by rewrite size_text_app, text_single.
  - by right.
Qed.

Lemma content_app l i t w c r : (i < length (files l))%nat → content (MkLog (files l ++ [t]) c r w) (Some i) = content l (Some i).
Proof. intros Hi. unfold content. cbn. by rewrite lookup_app_l. Qed.

(** The line lands in the file that is open for it. *)
Lemma write_keeps max rs r l l' i : (∀ i, cur l = Some i ∨ rot l = Some i → (i < length (files l))%nat) → (∀ i, cur l = Some i → rot l ≠ Some i) →
  open_append (MkFaults false false false None) l = (l', Ok i) →
  shape max (rs ++ [r]) (content l (rot l)) (content l (cur l) +:+ line_of r) → keeps max (rs ++ [r]) (write_to i (line_of r) l').
Proof.
  intros H1 H2 Ho Hs. unfold open_append in Ho. cbn in Ho. destruct (cur l) as [j|] eqn:Ec; injection Ho as <- <-; split; cbn.
  - intros k Hk. rewrite Ec in Hk. rewrite length_alter. by apply H1.
  - intros k Hk. rewrite Ec in Hk. by apply H2.
  - rewrite Ec. assert (j < length (files l))%nat as Hj by (by apply H1; left). destruct (lookup_lt_is_Some_2 _ _ Hj) as [s Hj'].
    assert (rot l ≠ Some j) as Hr by (by apply H2). unfold content in *. cbn in *. rewrite list_lookup_alter_eq, Hj' in *. cbn in *.
    destruct (rot l) as [k|]; [|done]. by rewrite list_lookup_alter_ne by congruence.
  - intros k [[= <-]|Hk]; rewrite length_alter, length_app; cbn; [lia|]. specialize (H1 k (or_intror Hk)). lia.
  - intros k [= <-] Hk. specialize (H1 _ (or_intror Hk)). lia.
  - unfold content in *. cbn in *. rewrite list_lookup_alter_eq, lookup_app_r, Nat.sub_diag by lia. cbn in *.
    destruct (rot l) as [k|] eqn:Er; [|done]. specialize (H1 k (or_intror eq_refl)). rewrite list_lookup_alter_ne by lia. by rewrite lookup_app_l.
Qed.

(** An append whose line lands keeps the log, with its record; one that fails before that keeps it as it was. *)
Lemma Append_keeps max f r l rs : open_fails f = false → lands f = None → keeps max rs l →
  let '(l', a) := Append max f r l in keeps max (if is_ok a then rs ++ [r] else rs) l'.
Proof.
  intros Hf Hl [H1 H2 H3]. unfold Append, rotate. destruct (stat_fails f); [by split|].
  assert (∀ l, open_append f l = open_append (MkFaults false false false None) l) as Ho by (intros l'; unfold open_append; by rewrite Hf).
  assert (∀ l', (∀ i, cur l' = Some i ∨ rot l' = Some i → (i < length (files l'))%nat) → (∀ i, cur l' = Some i → rot l' ≠ Some i) →
    shape max (rs ++ [r]) (content l' (rot l')) (content l' (cur l') +:+ line_of r) →
    let '(l', a) := match open_append f l' with (l', Err e) => (l', Err e) | (l', Ok i) => match lands f with None => (write_to i (line_of r) l', Ok tt) | Some part => (write_to i part l', Err LWrite) end end
    in keeps max (if is_ok a then rs ++ [r] else rs) l') as Hw.
  { intros l' G1 G2 Hs. rewrite Ho, Hl. destruct (open_append _ l') as [l2 [i|e]] eqn:Eo; [by eapply write_keeps|].
    unfold open_append in Eo. cbn in Eo. by destruct (cur l'). }
  destruct (cur l) as [i|] eqn:Ec.
  - destruct (_ || _) eqn:Efit.
    + apply (Hw l); rewrite ?Ec; try done. apply shape_add; [done|]. apply orb_true_iff in Efit as [E|E]; [|right; by apply Z.leb_le].
      left. apply Z.eqb_eq in E. unfold size_of in E. destruct (content l (Some i)); [done|]. cbn in E. lia.
    + destruct (rename_fails f); [split; by rewrite ?Ec|]. apply Hw; cbn.
      * intros k [?|[= <-]]; [done|]. apply H1. by left.
      * done.
      * apply orb_false_iff in Efit as [_ E%Z.leb_gt]. rewrite app_nil_l. by apply (shape_rotate _ _ (content l (rot l))).
  - apply (Hw l); rewrite ?Ec; try done. apply shape_add; [done|]. by left.
Qed.

Lemma appends_keeps max es : ∀ l rs, Forall (λ e, open_fails e.1 = false ∧ lands e.1 = None) es → keeps max rs l →
  keeps max (rs ++ (appends max es l).2) (appends max es l).1.
Proof.
  induction es as [|[f r] es IH]; intros l rs Hes Hk; cbn [appends fst snd]; [by rewrite (right_id_L [] (++))|].
  apply Forall_cons in Hes as [[Hf Hl] Hes]. pose proof (Append_keeps max f r l rs Hf Hl Hk) as Ha. destruct (Append max f r l) as [l1 a].
  specialize (IH l1 _ Hes Ha). destruct (appends max es l1) as [l2 rs2]. cbn [fst snd] in *. destruct a; cbn in *; [by rewrite <- app_assoc in IH|done].
Qed.

(** What a reader is given of the records in the two files. *)
Lemma Tail_newest old new l : Forall (λ r, one_line (marshal r) = true ∧ unmarshal (marshal r) = Some r) (old ++ new) →
  content l (rot l) = text_of old → content l (cur l) = text_of new →
  Tail true true l = Ok (drop (length (old ++ new) - TailRecords) (old ++ new), (length (old ++ new) - TailRecords)%nat).
Proof.
  intros [H1 H2]%Forall_and Ho Hn. pose proof H1 as [Hlo Hln]%Forall_app. unfold Tail. cbn [negb]. unfold tail_read. cbn [fst].
  rewrite Ho, Hn, <- foldl_app, !text_whole, <- fmap_app by done. set (kept := old ++ new) in *.
  destruct (ring_newest TailRecords (marshal <$> kept)) as [Hk Hc]; [unfold TailRecords; lia|]. rewrite Hk, Hc, length_fmap, <- fmap_drop.
  rewrite decode_marshal; [done|]. by apply Forall_drop.
Qed.

Lemma appends_records max P es : ∀ l, Forall (λ e, P e.2) es → Forall P (appends max es l).2.
Proof.
  induction es as [|[f r] es IH]; intros l; cbn [appends]; [by constructor|]. intros [Hr Hes]%Forall_cons.
  destruct (Append max f r l) as [l1 a]. specialize (IH l1 Hes). destruct (appends max es l1) as [l2 rs]. cbn [snd] in *.
  apply Forall_app. split; [|done]. destruct (is_ok a); by constructor.
Qed.

(** The log of a sandbox keeps the newest of its decisions. After any run of appends, some of which may have failed before
    their line, the two files hold the records that were written, in order, less a run of the oldest; no file is past the bound
    unless it is one line; whatever is gone, more than the bound is still there; and a read answers the newest ten thousand of
    them, in the order they were written, with the count of those it left out. *)
Theorem log_keeps_newest max es :
  0 ≤ max → Forall (λ e, open_fails e.1 = false ∧ lands e.1 = None ∧ one_line (marshal e.2) = true ∧ unmarshal (marshal e.2) = Some e.2) es →
  let '(l, rs) := appends max es (MkLog [] None None None) in
  ∃ gone old new, rs = gone ++ old ++ new ∧ content l (rot l) = text_of old ∧ content l (cur l) = text_of new ∧
    (gone ≠ [] → max < size_of (text_of (old ++ new))) ∧
    (size_of (text_of old) ≤ max ∨ length old = 1%nat) ∧ (size_of (text_of new) ≤ max ∨ length new = 1%nat) ∧
    Tail true true l = Ok (drop (length (old ++ new) - TailRecords) (old ++ new), (length (old ++ new) - TailRecords)%nat).
Proof.
  intros Hmax Hes. assert (keeps max [] (MkLog [] None None None)) as Hk.
  { split; cbn; [by intros i [|]|done|]. exists [], [], []. split_and!; try done; by left. }
  assert (Forall (λ e, open_fails e.1 = false ∧ lands e.1 = None) es) as Hf by (eapply Forall_impl; [exact Hes|]; naive_solver).
  pose proof (appends_records max (λ r, one_line (marshal r) = true ∧ unmarshal (marshal r) = Some r) es (MkLog [] None None None)) as Hrs.
  specialize (Hrs (Forall_impl _ _ _ Hes (λ e H, proj2 (proj2 H)))). apply (appends_keeps max es _ _ Hf) in Hk.
  destruct (appends max es _) as [l rs]. cbn [fst snd app] in *. destruct Hk as [_ _ (gone & old & new & -> & Ho & Hn & Hg & Hbo & Hbn)].
  exists gone, old, new. split_and!; try done. apply Tail_newest; [|done..]. by apply Forall_app in Hrs as [_ Hrs].
Qed.

End Log.

(** ** A log of a few bytes *)

Definition toy_record (t : Z) : LogRecord := MkLogRecord t SourceProxy ActionAllow "" 0 "" "" "" "".
Definition toy_marshal (r : LogRecord) : string := Itoa (LTime r).
Definition toy_unmarshal (s : string) : option LogRecord := toy_record <$> Atoi s.
Definition fine_append : append_faults := MkFaults false false false None.
Definition unstat_append : append_faults := MkFaults true false false None.

(** Lines of two bytes under a bound of four: two in each file, and a record that was not written. *)
Definition toy_run : log * list LogRecord :=
  appends toy_marshal 4 [(fine_append, toy_record 1); (fine_append, toy_record 2); (unstat_append, toy_record 3); (fine_append, toy_record 4);
                         (fine_append, toy_record 5); (fine_append, toy_record 6)] (MkLog [] None None None).

Example toy_kept : LTime <$> toy_run.2 = [1; 2; 4; 5; 6] ∧ whole_lines (content toy_run.1 (rot toy_run.1)) = ["4"; "5"] ∧
  whole_lines (content toy_run.1 (cur toy_run.1)) = ["6"].
Proof. vm_compute. split_and!; reflexivity. Qed.

Lemma log_keeps_newest_witness :
  ∃ gone old new, toy_run.2 = gone ++ old ++ new ∧ content toy_run.1 (rot toy_run.1) = text_of toy_marshal old ∧
    content toy_run.1 (cur toy_run.1) = text_of toy_marshal new.
Proof.
  assert (H := log_keeps_newest toy_marshal toy_unmarshal 4 [(fine_append, toy_record 1); (fine_append, toy_record 2); (unstat_append, toy_record 3);
    (fine_append, toy_record 4); (fine_append, toy_record 5); (fine_append, toy_record 6)]).
  fold toy_run in H. destruct toy_run as [l rs]. destruct H as (gone & old & new & Hrs & Ho & Hn & _); [lia|by repeat constructor; vm_compute|].
  exists gone, old, new. split_and!; assumption.
Defined.
