(* ===== verification/EgressFollow.v ===== *)
(** * Following the egress log of a sandbox

    [services/egress/follow.go]: a client that follows a log is given its newest lines, and then every line as it is appended,
    while the log is renamed aside under it. The appends run beside the follow: an append holds the lock of the log from before
    its rename to the end of its write, the follow takes it for each look at the files and reads them without it, so it may see a
    part of a line. Each is followed one step at a time, in any order. *)

From S2P Require Import Prelude GoStrings Models Network Pool EgressDecide Broker EgressLog.

(** ** The follower *)

(** [unread]: what a look found that the tail has not opened. *)
Record unread : Type := MkUnread { ugeneration : nat; urotated : option nat; ucurrent : option nat; ulost : nat }.

Inductive ended : Type := FellBehind (lost : nat) | BadLine (line : string) | Stopped.

(** Where a follow is: before it, with its files open, past the rotated one, between two looks, or with the answer of a look: the
    rest of the open file is read first, then the rotated file, then the current one. *)
Inductive phase : Type :=
| Before
| Started (rotated current : option nat) (renames : nat)
| Rotated (newest : tail) (current : option nat) (renames : nat)
| Waiting
| Rest (u : unread)
| Older (u : unread)
| Newer (u : unread)
| Ended (why : ended).

(** [tailFile], as the file it reads and how far, the part of a line it holds and the oldest generation it has not opened; the
    records of this look, those given to the client, and those it was given first. The last four remember where it began: the
    file of the current generation, the texts of the two files, and the lines that were there at the last look. *)
Record follower : Type := MkFollower {
  fphase : phase; fhandle : option (nat * nat); fpartial : string; fnext : nat;
  fbatch : list LogRecord; fout : list LogRecord; fbegan : list LogRecord;
  fbase : nat; frot : string; ftext : string; fowed : list string
}.

Definition no_follower : follower := MkFollower Before None "" 0 [] [] [] 0 "" "" [].

Definition in_phase (p : phase) (f : follower) : follower :=
  MkFollower p (fhandle f) (fpartial f) (fnext f) (fbatch f) (fout f) (fbegan f) (fbase f) (frot f) (ftext f) (fowed f).
Definition at_file (h : option (nat * nat)) (partial : string) (next : nat) (f : follower) : follower :=
  MkFollower (fphase f) h partial next (fbatch f) (fout f) (fbegan f) (fbase f) (frot f) (ftext f) (fowed f).
Definition with_batch (rs : list LogRecord) (f : follower) : follower :=
  MkFollower (fphase f) (fhandle f) (fpartial f) (fnext f) (fbatch f ++ rs) (fout f) (fbegan f) (fbase f) (frot f) (ftext f) (fowed f).

(** The records of a look are given to the client, and the follow waits for the next. *)
Definition given (f : follower) : follower :=
  MkFollower Waiting (fhandle f) (fpartial f) (fnext f) [] (fout f ++ fbatch f) (fbegan f) (fbase f) (frot f) (ftext f) (fowed f).

(** ** The log, an append in the middle of its write, and the follow *)

Record world : Type := MkWorld { wlog : log; wwriting : option (nat * string); wothers : nat; wf : follower }.

Definition set_log (l : log) (w : world) : world := MkWorld l (wwriting w) (wothers w) (wf w).
Definition set_follower (f : follower) (w : world) : world := MkWorld (wlog w) (wwriting w) (wothers w) f.

(** [follow] and [unfollow] of the log. *)
Definition follow_ (l : log) : log :=
  MkLog (files l) (cur l) (rot l) (match watched l with None => Some (1, 0) | Some (n, r) => Some (S n, r) end).
Definition unfollow_ (l : log) : log :=
  MkLog (files l) (cur l) (rot l) (match watched l with Some (S (S n), r) => Some (S n, r) | _ => None end).

Definition renames_of (l : log) : nat := match watched l with Some (_, r) => r | None => 0 end.

(** [since]: every file of generation [next] or newer that is still there. *)
Definition since (l : log) (next : nat) : unread :=
  let now := renames_of l in
  if now <? next then MkUnread now None None 0
  else if next <? now then
    let lost := now - 1 - next in
    if 0 <? lost then MkUnread now None None lost else MkUnread now (rot l) (cur l) 0
  else MkUnread now None (cur l) 0.

(** The lines of every file from one on. *)
Definition lines_from (i : nat) (l : log) : list string := flat_map whole_lines (drop i (files l)).

Section Follow.
Context (marshal : LogRecord → string) (unmarshal : string → option LogRecord) (max : Z).

(** [tailFile.records]: the whole lines from where the last read stopped to the end of the file. *)
Definition tail_records (i off : nat) (partial : string) (l : log) : list string * (nat * nat) * string :=
  let text := content l (Some i) in
  let read := partial +:+ drop_s off text in
  (whole_lines read, (i, String.length text), (split_lines read).2).

(** A read of the file the tail is at. A line that does not decode ends the follow. *)
Definition read_on (next_phase : follower → follower) (w : world) : world :=
  let f := wf w in
  match fhandle f with
  | None => set_follower (next_phase f) w
  | Some (i, off) =>
      let '(ls, h, partial) := tail_records i off (fpartial f) (wlog w) in
      match decode unmarshal ls with
      | Err (LDecode line) => MkWorld (unfollow_ (wlog w)) (wwriting w) (wothers w) (in_phase (Ended (BadLine line)) f)
      | Err _ => w
      | Ok rs => set_follower (next_phase (with_batch rs (at_file (Some h) partial (fnext f) f))) w
      end
  end.

(** [start], past the rotated file: the current one is read to its end, and what is newest of both is given, by time. *)
Definition start_ (newest : tail) (current : option nat) (renames : nat) (w : world) : world :=
  let f := wf w in
  let text := content (wlog w) current in
  let '(newest, partial) := tail_read TailRecords newest text in
  match decode unmarshal (kept_lines newest) with
  | Err (LDecode line) => MkWorld (unfollow_ (wlog w)) (wwriting w) (wothers w) (in_phase (Ended (BadLine line)) f)
  | Err _ => w
  | Ok rs =>
      set_follower (MkFollower Waiting (match current with Some i => Some (i, String.length text) | None => None end) partial
                      (match current with Some _ => S renames | None => renames end) [] [] (Merge rs) (fbase f) (frot f) text (fowed f)) w
  end.

(** One step of the follow; the lock is free where it takes it. *)
Definition steps (w : world) : world :=
  let f := wf w in
  let l := wlog w in
  match fphase f with
  | Before =>
      match wwriting w with
      | Some _ => w
      | None =>
          let l' := follow_ l in
          MkWorld l' None (wothers w)
            (MkFollower (Started (rot l) (cur l) (renames_of l')) None "" 0 [] [] [] (match cur l with Some i => i | None => length (files l) end) "" "" [])
      end
  | Started rotated current renames =>
      set_follower (MkFollower (Rotated (tail_read TailRecords newTail (content l rotated)).1 current renames) None "" 0 [] [] [] (fbase f) (content l rotated) "" []) w
  | Rotated newest current renames => start_ newest current renames w
  | Waiting =>
      match wwriting w with
      | Some _ => w
      | None =>
          set_follower (MkFollower (Rest (since l (fnext f))) (fhandle f) (fpartial f) (fnext f) [] (fout f) (fbegan f) (fbase f) (frot f) (ftext f) (lines_from (fbase f) l)) w
      end
  | Rest u =>
      read_on (λ f, if ugeneration u <? fnext f then given f else in_phase (Older u) f) w
  | Older u =>
      if 0 <? ulost u then MkWorld (unfollow_ l) (wwriting w) (wothers w) (in_phase (Ended (FellBehind (ulost u))) (given f))
      else match urotated u with
           | None => set_follower (in_phase (Newer u) f) w
           | Some i =>
               match decode unmarshal (whole_lines (content l (Some i))) with
               | Err (LDecode line) => MkWorld (unfollow_ l) (wwriting w) (wothers w) (in_phase (Ended (BadLine line)) f)
               | Err _ => w
               | Ok rs => set_follower (in_phase (Newer u) (with_batch rs f)) w
               end
           end
  | Newer u =>
      match ucurrent u with
      | None => set_follower (given (at_file None "" (ugeneration u) f)) w
      | Some i => read_on given (set_follower (at_file (Some (i, 0)) "" (S (ugeneration u)) f) w)
      end
  | Ended _ => w
  end.

(** What may happen: an append takes the lock, renames and opens; a part of its line lands; its write fails; another follow comes
    or goes; this one takes its next step, or stops, for an error of the host, its client, or the sandbox that is gone. *)
Inductive event : Type :=
| Appends (f : append_faults) (r : LogRecord)
| Lands (n : nat)
| Fails
| Joins
| Leaves
| Follows
| Stops.

Definition happens (e : event) (w : world) : world :=
  match e with
  | Appends f r =>
      match wwriting w with
      | Some _ => w
      | None =>
          match rotate max f (size_of (line_of marshal r)) (wlog w) with
          | (l, Err _) => set_log l w
          | (l, Ok _) =>
              match open_append f l with
              | (l, Err _) => set_log l w
              | (l, Ok i) => MkWorld l (Some (i, line_of marshal r)) (wothers w) (wf w)
              end
          end
      end
  | Lands n =>
      match wwriting w with
      | None => w
      | Some (i, rest) =>
          MkWorld (write_to i (take_s n rest) (wlog w)) (if String.eqb (drop_s n rest) "" then None else Some (i, drop_s n rest)) (wothers w) (wf w)
      end
  | Fails => MkWorld (wlog w) None (wothers w) (wf w)
  | Joins => match wwriting w with Some _ => w | None => MkWorld (follow_ (wlog w)) None (S (wothers w)) (wf w) end
  | Leaves =>
      match wwriting w, wothers w with
      | None, S n => MkWorld (unfollow_ (wlog w)) None n (wf w)
      | _, _ => w
      end
  | Follows => steps w
  | Stops =>
      match fphase (wf w) with
      | Before | Ended _ => w
      | _ => MkWorld (unfollow_ (wlog w)) (wwriting w) (wothers w) (in_phase (Ended Stopped) (wf w))
      end
  end.

Definition begin : world := MkWorld (MkLog [] None None None) None 0 no_follower.

Definition after (es : list event) : world := foldl (λ w e, happens e w) begin es.

End Follow.

(** ** What a log is, and how it grows *)

(** The file the current name leads to, or the one it will. *)
Definition base (l : log) : nat := match cur l with Some i => i | None => length (files l) end.

(** The file of a generation, while the log is watched. *)
Definition gen_file (l : log) (g : nat) : nat := base l - renames_of l + g.

Record log_ok (l : log) : Prop := {
  lo_cur : ∀ i, cur l = Some i → S i = length (files l);
  lo_rot : ∀ i, rot l = Some i → S i = base l;
  lo_renames : renames_of l ≤ base l;
  lo_kept : 0 < renames_of l → is_Some (rot l)
}.

Lemma base_le l : log_ok l → base l ≤ length (files l).
Proof. intros [H _ _ _]. unfold base. destruct (cur l) as [i|] eqn:E; [specialize (H i eq_refl); lia|done]. Qed.

(** A log grows: a file that is no longer current is as it was, and the current one has more. *)
Record grows (l l' : log) : Prop := {
  gr_ok : log_ok l';
  gr_files : ∀ i s, files l !! i = Some s → ∃ t, files l' !! i = Some (s +:+ t) ∧ (i < base l → t = "");
  gr_base : base l ≤ base l';
  gr_length : length (files l) ≤ length (files l')
}.

(** While it is watched, a generation keeps its file. *)
Definition same_gens (l l' : log) : Prop := ∀ g, gen_file l' g = gen_file l g.

Lemma grows_refl l : log_ok l → grows l l.
Proof. intros H. split; try done. intros i s Hi. exists "". by rewrite app_nil_r. Qed.

(** The lines of a run of files. *)
Definition lines_of (i n : nat) (l : log) : list string := flat_map whole_lines (take n (drop i (files l))).

Lemma lines_of_snoc i n l s : files l !! (i + n) = Some s → lines_of i (S n) l = lines_of i n l ++ whole_lines s.
Proof.
  intros Hs. unfold lines_of. rewrite (take_S_r _ _ s) by (by rewrite lookup_drop). rewrite flat_map_app. cbn. by rewrite (right_id_L [] (++)).
Qed.

(** What is past does not change, and what is current keeps what it had. *)
Lemma lines_of_past l l' i n : grows l l' → i + n ≤ base l → base l ≤ length (files l) → lines_of i n l' = lines_of i n l.
Proof.
  intros G. induction n as [|n IH]; intros Hn Hb; [done|]. destruct (lookup_lt_is_Some_2 (files l) (i + n)) as [s Hs]; [lia|].
  destruct (gr_files _ _ G _ _ Hs) as (t & Ht & He). rewrite He, app_nil_r in Ht by lia.
  rewrite (lines_of_snoc _ _ _ _ Hs), (lines_of_snoc _ _ _ _ Ht), IH by lia. done.
Qed.

Lemma lines_of_grows l l' i n : grows l l' → i + n ≤ S (base l) → base l ≤ length (files l) → i + n ≤ length (files l) →
  lines_of i n l `prefix_of` lines_of i n l'.
Proof.
  intros G Hn Hb Hf. destruct n as [|n]; [done|]. destruct (lookup_lt_is_Some_2 (files l) (i + n)) as [s Hs]; [lia|].
  destruct (gr_files _ _ G _ _ Hs) as (t & Ht & _). rewrite (lines_of_snoc _ _ _ _ Hs), (lines_of_snoc _ _ _ _ Ht).
  rewrite (lines_of_past l l') by (done || lia). apply prefix_app. rewrite whole_lines_app. by eexists.
Qed.

Lemma lines_of_more i n m l : n ≤ m → lines_of i n l `prefix_of` lines_of i m l.
Proof.
  intros Hm. unfold lines_of. replace m with (n + (m - n)) by lia. rewrite <- take_take_drop, flat_map_app. by eexists.
Qed.

Lemma lines_from_of l i : lines_from i l = lines_of i (length (files l) - i) l.
Proof. unfold lines_from, lines_of. rewrite <- length_drop, firstn_all. done. Qed.

(** *** The steps of an append *)

Lemma rotate_grows max f n l l' a : log_ok l → rotate max f n l = (l', a) → grows l l' ∧ (is_Some (watched l) → same_gens l l').
Proof.
  intros Hl. assert (grows l l ∧ (is_Some (watched l) → same_gens l l)) as Hsame by (split; [by apply grows_refl|done]).
  unfold rotate. destruct (stat_fails f); [by intros [= <- <-]|]. destruct (cur l) as [i|] eqn:Ec; [|by intros [= <- <-]].
  destruct (_ || _); [by intros [= <- <-]|]. destruct (rename_fails f); intros [= <- <-]; [done|]. clear Hsame.
  destruct Hl as [H1 H2 H3 H4]. pose proof (H1 i Ec) as Hi. assert (base l = i) as Hb by (unfold base; by rewrite Ec).
  assert (renames_of (MkLog (files l) None (Some i) (prod_map id S <$> watched l)) = match watched l with Some (_, r) => S r | None => 0 end) as Hr.
  { unfold renames_of. cbn. by destruct (watched l) as [[? ?]|]. }
  assert (match watched l with Some (_, r) => S r | None => 0 end ≤ S i) as Hle.
  { rewrite Hb in H3. unfold renames_of in H3. destruct (watched l) as [[? ?]|]; lia. }
  split; [split; [split|..]|]; rewrite ?Hr; cbn.
  - done.
  - intros k [= <-]. unfold base. cbn. lia.
  - unfold base. cbn. lia.
  - by eexists.
  - intros k s Hk. exists "". by rewrite app_nil_r.
  - rewrite Hb. unfold base. cbn. lia.
  - done.
  - intros [[m r] Hw] g. unfold gen_file. rewrite Hr, Hb. unfold base, renames_of. cbn. rewrite Hw in *. lia.
Qed.

Lemma open_grows f l l' a : log_ok l → open_append f l = (l', a) → grows l l' ∧ same_gens l l' ∧ match a with Ok i => cur l' = Some i | Err _ => True end.
Proof.
  intros Hl. unfold open_append. destruct (open_fails f); [intros [= <- <-]; by split; [apply grows_refl|]|].
  destruct (cur l) as [i|] eqn:Ec; intros [= <- <-]; [by split; [apply grows_refl|]|].
  assert (base l = length (files l)) as Hb by (unfold base; by rewrite Ec). destruct Hl as [H1 H2 H3 H4].
  unfold same_gens. split; [split; [split|..]|]; unfold gen_file, renames_of, base in *; cbn in *; rewrite ?Ec, ?length_app in *; cbn; try done; try lia.
  - intros i [= <-]. lia.
  - intros i s Hi. exists "". rewrite app_nil_r. split; [|done]. apply lookup_app_l_Some. done.
Qed.

Lemma write_grows i text l : log_ok l → cur l = Some i → grows l (write_to i text l) ∧ same_gens l (write_to i text l).
Proof.
  intros Hl Hi. pose proof Hl as [H1 H2 H3 H4]. assert (base (write_to i text l) = base l) as Hb by (unfold base, write_to; cbn; by rewrite length_alter).
  split; [split; [split|..]|]; try rewrite Hb; try done; cbn; try (rewrite length_alter; done).
  - intros j s Hj. destruct (decide (j = i)) as [->|Hne].
    + rewrite list_lookup_alter_eq, Hj. exists text. split; [done|]. unfold base. rewrite Hi. lia.
    + rewrite list_lookup_alter_ne by done. exists "". by rewrite app_nil_r.
  - intros g. unfold gen_file. by rewrite Hb.
Qed.

(** Another follow comes or goes while this one is there. *)
Lemma watch_grows l w : log_ok l → renames_of (MkLog (files l) (cur l) (rot l) w) = renames_of l →
  grows l (MkLog (files l) (cur l) (rot l) w) ∧ same_gens l (MkLog (files l) (cur l) (rot l) w).
Proof.
  intros [H1 H2 H3 H4] Hr. split; [split; [split|..]|]; rewrite ?Hr; try done.
  - intros i s Hi. exists "". by rewrite app_nil_r.
  - intros g. unfold gen_file. by rewrite Hr.
Qed.

Lemma unwatch_grows l w : log_ok l → renames_of (MkLog (files l) (cur l) (rot l) w) ≤ renames_of l → grows l (MkLog (files l) (cur l) (rot l) w).
Proof.
  intros [H1 H2 H3 H4] Hr. split; [split|..]; try done.
  - change (base (MkLog (files l) (cur l) (rot l) w)) with (base l). lia.
  - intros H. apply H4. lia.
  - intros i s Hi. exists "". by rewrite app_nil_r.
Qed.

Lemma lines_from_grows l l' i : log_ok l → grows l l' → lines_from i l `prefix_of` lines_from i l'.
Proof.
  intros Hl G. rewrite !lines_from_of. pose proof (base_le l Hl). pose proof (gr_length _ _ G).
  assert (length (files l) ≤ S (base l)) as Hb by (destruct Hl as [H1 _ _ _]; unfold base; destruct (cur l) as [k|] eqn:E; [specialize (H1 k eq_refl); lia|lia]).
  destruct (decide (i ≤ length (files l))) as [Hi|Hi]; [|replace (length (files l) - i) with 0 by lia; by eexists].
  etrans; [apply (lines_of_grows l l'); [done|lia..]|]. apply lines_of_more. lia.
Qed.

Lemma take_s_le n s t : n ≤ String.length s → take_s n (s +:+ t) = take_s n s.
Proof.
  revert n. induction s as [|c s IH]; intros [|n] Hn; cbn in *; try done; [lia|]. rewrite app_cons. cbn. f_equal. apply IH. lia.
Qed.

Lemma take_s_0 s : take_s 0 s = "".
Proof. by destruct s. Qed.

Lemma take_s_all s : take_s (String.length s) s = s.
Proof. induction s as [|c s IH]; [done|]. cbn. by rewrite IH. Qed.

(** ** What the follow has given

    [gave]: the lines it has read past its start decode to what it has given and what it is about to. *)

Section Invariant.
Context (marshal : LogRecord → string) (unmarshal : string → option LogRecord) (max : Z).

Definition gave (f : follower) (consumed : list string) : Prop :=
  ∃ lines, decode unmarshal lines = Ok (fout f ++ fbatch f) ∧ whole_lines (ftext f) ++ lines = consumed.

Definition handle_ok (l : log) (f : follower) : Prop :=
  match fhandle f with
  | Some (i, off) => S i = gen_file l (fnext f) ∧ fbase f ≤ i ≤ base l ∧
      ∃ s, files l !! i = Some s ∧ off ≤ String.length s ∧ fpartial f = (split_lines (take_s off s)).2
  | None => fbase f ≤ gen_file l (fnext f) ≤ base l
  end.

Definition consumed (l : log) (f : follower) : list string :=
  match fhandle f with
  | Some (i, off) => lines_of (fbase f) (i - fbase f) l ++ whole_lines (take_s off (content l (Some i)))
  | None => lines_of (fbase f) (gen_file l (fnext f) - fbase f) l
  end.

(** The current file of a look: what the look owes is in the files up to it. *)
Definition current_ok (l : log) (f : follower) (u : unread) : Prop :=
  let g := gen_file l (ugeneration u) in
  match ucurrent u with
  | None => fowed f `prefix_of` lines_of (fbase f) (g - fbase f) l
  | Some c => c = g ∧ g < length (files l) ∧ fowed f `prefix_of` lines_of (fbase f) (S g - fbase f) l
  end.

Definition rotated_ok (l : log) (f : follower) (u : unread) : Prop :=
  match urotated u with
  | None => ugeneration u = fnext f
  | Some i => i = gen_file l (fnext f) ∧ ugeneration u = S (fnext f)
  end.

Definition look_ok (l : log) (f : follower) (u : unread) : Prop :=
  let g := gen_file l (ugeneration u) in
  fbase f ≤ g ≤ base l ∧ fnext f ≤ S (ugeneration u) ∧
  if ugeneration u <? fnext f then is_Some (fhandle f) ∧ g < length (files l) ∧ fowed f `prefix_of` lines_of (fbase f) (S g - fbase f) l
  else ulost u = 0 → rotated_ok l f u ∧ current_ok l f u.

Definition start_ok (l : log) (f : follower) (current : option nat) (renames : nat) : Prop :=
  fbase f = gen_file l renames ∧ fbase f ≤ base l ∧ (current = None ∨ current = Some (fbase f) ∧ fbase f < length (files l)) ∧
  ftext f = "" ∧ fout f = [] ∧ fowed f = [].

Definition phase_ok (l : log) (f : follower) : Prop :=
  match fphase f with
  | Before => ftext f = ""
  | Started _ current renames => start_ok l f current renames
  | Rotated newest current renames => start_ok l f current renames ∧ newest = foldl (add TailRecords) newTail (whole_lines (frot f))
  | Waiting => handle_ok l f ∧ gave f (consumed l f) ∧ fbatch f = [] ∧ fowed f `prefix_of` consumed l f
  | Rest u => handle_ok l f ∧ gave f (consumed l f) ∧ look_ok l f u
  | Older u => fnext f ≤ ugeneration u ∧ fbase f ≤ gen_file l (fnext f) ∧ gave f (lines_of (fbase f) (gen_file l (fnext f) - fbase f) l) ∧ look_ok l f u
  | Newer u => fbase f ≤ gen_file l (ugeneration u) ≤ base l ∧ gave f (lines_of (fbase f) (gen_file l (ugeneration u) - fbase f) l) ∧ current_ok l f u
  | Ended _ => ∃ lines, decode unmarshal lines = Ok (fout f) ∧ whole_lines (ftext f) ++ lines `prefix_of` lines_from (fbase f) l
  end.

(** *** The log grows under the follow *)

Section Grows.
Context (l l' : log) (f : follower) (Hl : log_ok l) (G : grows l l') (S_ : same_gens l l').

Lemma handle_grows : handle_ok l f → handle_ok l' f ∧ consumed l' f = consumed l f.
Proof.
  pose proof (base_le l Hl) as Hb. pose proof (gr_base _ _ G) as Hg. unfold handle_ok, consumed. rewrite !S_. destruct (fhandle f) as [[i off]|].
  - intros (Hi & Hr & s & Hs & Ho & Hp). destruct (gr_files _ _ G _ _ Hs) as (t & Ht & _).
    assert (take_s off (s +:+ t) = take_s off s) as Htake by (by apply take_s_le). split.
    + split; [done|]. split; [lia|]. exists (s +:+ t). rewrite Htake, length_app_s. split_and!; [done|lia|done].
    + rewrite (lines_of_past l l') by (done || lia). unfold content. rewrite Hs, Ht. cbn. by rewrite Htake.
  - intros Hr. split; [lia|]. apply lines_of_past; [done|lia..].
Qed.

Lemma current_grows u : fbase f ≤ gen_file l (ugeneration u) ≤ base l → current_ok l f u → current_ok l' f u.
Proof.
  pose proof (base_le l Hl). pose proof (gr_length _ _ G). intros Hu. unfold current_ok. rewrite !S_. destruct (ucurrent u) as [c|].
  - intros (-> & Hlt & Hp). split; [done|]. split; [lia|]. etrans; [exact Hp|]. apply lines_of_grows; [done|lia..].
  - intros Hp. by rewrite (lines_of_past l l') by (done || lia).
Qed.

Lemma look_grows u : look_ok l f u → look_ok l' f u.
Proof.
  pose proof (base_le l Hl). pose proof (gr_length _ _ G). pose proof (gr_base _ _ G). unfold look_ok. rewrite !S_. intros (Hu & Hn & H2).
  split; [lia|]. split; [done|]. destruct (_ <? _).
  - destruct H2 as (Hh & Hlt & Hp). split; [done|]. split; [lia|]. etrans; [exact Hp|]. apply lines_of_grows; [done|lia..].
  - intros Hz. destruct (H2 Hz) as [Hr Hc]. split; [|by apply current_grows]. unfold rotated_ok in *. by rewrite S_.
Qed.

Lemma start_grows c r : start_ok l f c r → start_ok l' f c r.
Proof.
  pose proof (gr_length _ _ G). pose proof (gr_base _ _ G). unfold start_ok. rewrite !S_. intros (-> & Hb & Hc & He). split; [done|]. split; [lia|]. split; [|done].
  destruct Hc as [->|[-> Hc]]; [by left|]. right. split; [done|lia].
Qed.

End Grows.

Lemma phase_grows l l' f : log_ok l → grows l l' → (match fphase f with Before | Ended _ => True | _ => same_gens l l' end) →
  phase_ok l f → phase_ok l' f.
Proof.
  intros Hl G. pose proof (base_le l Hl). pose proof (gr_base _ _ G). unfold phase_ok. destruct (fphase f) as [|ro c r|t c r| |u|u|u|why]; intros Hs Hp.
  - done.
  - by apply (start_grows l).
  - destruct Hp. split; [by apply (start_grows l)|done].
  - destruct Hp as (Hh & Hg & Hb & Ho). destruct (handle_grows l l' f Hl G Hs Hh) as [Hh' ->]. done.
  - destruct Hp as (Hh & Hg & Hu). destruct (handle_grows l l' f Hl G Hs Hh) as [Hh' ->]. split; [done|]. split; [done|]. by apply (look_grows l).
  - destruct Hp as (Hn & Hb & Hg & Hu). pose proof (look_grows l l' f Hl G Hs u Hu). rewrite Hs. split; [done|]. split; [done|]. split; [|done].
    destruct Hu as (Hu & _). unfold gen_file in *. by rewrite (lines_of_past l l') by (done || lia).
  - destruct Hp as (Hb & Hg & Hc). pose proof (current_grows l l' f Hl G Hs u Hb Hc). rewrite Hs. split; [lia|]. split; [|done].
    by rewrite (lines_of_past l l') by (done || lia).
  - destruct Hp as (lines & Hd & Hp). exists lines. split; [done|]. etrans; [exact Hp|]. by apply lines_from_grows.
Qed.

(** *** Reads *)

Lemma decode_app ls ls' rs : decode unmarshal ls = Ok rs →
  decode unmarshal (ls ++ ls') = match decode unmarshal ls' with Ok rs' => Ok (rs ++ rs') | Err e => Err e end.
Proof.
  revert rs. induction ls as [|x ls IH]; intros rs; cbn; [intros [= <-]; by destruct (decode unmarshal ls')|].
  destruct (unmarshal x) as [r|]; [|done]. destruct (decode unmarshal ls) as [rs1|]; [|done]. intros [= <-]. rewrite (IH rs1) by done.
  by destruct (decode unmarshal ls').
Qed.

Lemma decode_split ls : ∀ a b, decode unmarshal ls = Ok (a ++ b) → ∃ l1 l2, ls = l1 ++ l2 ∧ decode unmarshal l1 = Ok a.
Proof.
  induction ls as [|x ls IH]; intros a b; cbn.
  - intros [= [-> ->]%eq_sym%app_eq_nil]. by exists [], [].
  - destruct (unmarshal x) as [r|] eqn:Ex; [|done]. destruct (decode unmarshal ls) as [rs|]; [|done]. destruct a as [|y a]; [by exists [], (x :: ls)|].
    intros [= <- ->]. destruct (IH a b eq_refl) as (l1 & l2 & -> & Hd). exists (x :: l1), l2. split; [done|]. cbn. by rewrite Ex, Hd.
Qed.

Lemma lines_of_from i n l : lines_of i n l `prefix_of` lines_from i l.
Proof.
  unfold lines_of, lines_from. exists (flat_map whole_lines (drop n (drop i (files l)))). by rewrite <- flat_map_app, take_drop.
Qed.

Lemma consumed_from l f : handle_ok l f → consumed l f `prefix_of` lines_from (fbase f) l.
Proof.
  unfold handle_ok, consumed. destruct (fhandle f) as [[i off]|]; [|intros _; apply lines_of_from].
  intros (_ & Hr & s & Hs & _ & _). etrans; [|apply (lines_of_from _ (S (i - fbase f)))].
  rewrite (lines_of_snoc _ _ _ s); [|by replace (fbase f + (i - fbase f)) with i by lia]. apply prefix_app. unfold content. rewrite Hs. cbn.
  rewrite <- (take_drop_s off s) at 2. rewrite whole_lines_app. by eexists.
Qed.

(** A follow that ends here has given a run of the lines of the log. *)
Lemma gave_ended l f c why : gave f c → c `prefix_of` lines_from (fbase f) l → phase_ok l (in_phase (Ended why) f).
Proof.
  intros (lines & Hd & Hc) Hp. destruct (decode_split lines (fout f) (fbatch f) Hd) as (l1 & l2 & -> & Hd1). exists l1. split; [done|].
  etrans; [|exact Hp]. rewrite <- Hc, app_assoc. by eexists.
Qed.

Definition active (p : phase) : bool := match p with Before | Ended _ => false | _ => true end.

Lemma active_ended l f why : active (fphase f) = true → phase_ok l f → phase_ok l (in_phase (Ended why) f).
Proof.
  unfold phase_ok at 1. destruct (fphase f); try done; intros _.
  - intros (_ & _ & _ & Ht & Ho & _). exists []. cbn [fout ftext in_phase]. rewrite Ho, Ht. split; [done|]. apply prefix_nil.
  - intros [(_ & _ & _ & Ht & Ho & _) _]. exists []. cbn [fout ftext in_phase]. rewrite Ho, Ht. split; [done|]. apply prefix_nil.
  - intros (Hh & Hg & _). eapply gave_ended; [exact Hg|by apply consumed_from].
  - intros (Hh & Hg & _). eapply gave_ended; [exact Hg|by apply consumed_from].
  - intros (_ & _ & Hg & _). eapply gave_ended; [exact Hg|apply lines_of_from].
  - intros (_ & Hg & _). eapply gave_ended; [exact Hg|apply lines_of_from].
Qed.

(** A read to the end of the open file. *)
Lemma read_end l f i off ls h partial rs : handle_ok l f → gave f (consumed l f) → fhandle f = Some (i, off) →
  tail_records i off (fpartial f) l = (ls, h, partial) → decode unmarshal ls = Ok rs →
  let f' := with_batch rs (at_file (Some h) partial (fnext f) f) in
  handle_ok l f' ∧ consumed l f' = lines_of (fbase f) (S i - fbase f) l ∧ gave f' (consumed l f').
Proof.
  intros Hh Hg Hf Ht Hd f'. unfold handle_ok, gave, consumed in Hh, Hg. rewrite Hf in Hh, Hg. destruct Hh as (Hi & Hr & s & Hs & Ho & Hp).
  assert (content l (Some i) = s) as Hc by (unfold content; by rewrite Hs). unfold tail_records in Ht. rewrite Hc in Ht. injection Ht as <- <- <-.
  rewrite Hp in *. assert (whole_lines s = whole_lines (take_s off s) ++ whole_lines ((split_lines (take_s off s)).2 +:+ drop_s off s)) as Hw.
  { rewrite <- whole_lines_app. by rewrite take_drop_s. }
  assert ((split_lines s).2 = (split_lines ((split_lines (take_s off s)).2 +:+ drop_s off s)).2) as Hsp.
  { rewrite <- (take_drop_s off s) at 1. by rewrite split_app. }
  assert (consumed l f' = lines_of (fbase f) (S i - fbase f) l) as Hcon.
  { unfold consumed, f'. cbn [fhandle with_batch at_file fbase]. rewrite Hc, take_s_all. replace (S i - fbase f) with (S (i - fbase f)) by lia.
    symmetry. apply lines_of_snoc. by replace (fbase f + (i - fbase f)) with i by lia. }
  split; [|split; [done|]].
  - unfold handle_ok, f'. cbn [fhandle with_batch at_file fbase fnext fpartial]. split; [done|]. split; [done|]. exists s. rewrite take_s_all, Hp. by split_and!.
  - destruct Hg as (lines & Hl & Hcl). exists (lines ++ whole_lines ((split_lines (take_s off s)).2 +:+ drop_s off s)).
    unfold f'. cbn [fout fbatch ftext with_batch at_file]. rewrite (decode_app _ _ _ Hl), Hd. split; [by rewrite app_assoc|].
    rewrite app_assoc, Hcl. unfold consumed. cbn [fhandle with_batch at_file fbase]. rewrite Hc, take_s_all, Hw. by rewrite <- app_assoc.
Qed.

(** *** The steps of the follow *)

Lemma look_since l f : log_ok l → handle_ok l f →
  look_ok l (MkFollower (fphase f) (fhandle f) (fpartial f) (fnext f) [] (fout f) (fbegan f) (fbase f) (frot f) (ftext f) (lines_from (fbase f) l)) (since l (fnext f)).
Proof.
  intros Hl Hh. pose proof (base_le l Hl) as Hb. destruct Hl as [H1 H2 H3 H4].
  assert (gen_file l (renames_of l) = base l) as Hg by (unfold gen_file; lia).
  assert (fbase f ≤ base l ∧ fnext f ≤ S (renames_of l) ∧ (renames_of l < fnext f → is_Some (fhandle f) ∧ base l < length (files l))) as (Hfb & Hn & Hlt).
  { unfold handle_ok in Hh. destruct (fhandle f) as [[i off]|]; [|unfold gen_file in *; split_and!; lia].
    destruct Hh as (Hi & Hr & s & Hs & _). unfold gen_file in *. split_and!; [lia|lia|]. intros Hlt. split; [by eexists|].
    apply lookup_lt_Some in Hs. lia. }
  assert (lines_from (fbase f) l = lines_of (fbase f) (match cur l with Some _ => S (base l) | None => base l end - fbase f) l) as Hfrom.
  { rewrite lines_from_of. f_equal. unfold base. destruct (cur l) as [k|] eqn:E; [specialize (H1 k eq_refl); lia|lia]. }
  assert (current_ok l (MkFollower (fphase f) (fhandle f) (fpartial f) (fnext f) [] (fout f) (fbegan f) (fbase f) (frot f) (ftext f) (lines_from (fbase f) l))
            (MkUnread (renames_of l) None (cur l) 0)) as Hcur.
  { unfold current_ok. cbn [ugeneration ucurrent fowed fbase]. rewrite Hg, Hfrom. destruct (cur l) as [k|] eqn:E; [|done].
    assert (base l = k) as Hk by (unfold base; by rewrite E). specialize (H1 k eq_refl). rewrite Hk. split_and!; [done|lia|done]. }
  unfold look_ok, since. destruct (Nat.ltb_spec (renames_of l) (fnext f)) as [Hlt1|Hge].
  - cbn [ugeneration fnext fbase fowed fhandle]. rewrite Hg, (proj2 (Nat.ltb_lt _ _)) by done. destruct (Hlt Hlt1) as [Hs Hlen]. split_and!; try done; try lia.
    rewrite lines_from_of. apply lines_of_more. unfold base in *. destruct (cur l) as [k|] eqn:E; [specialize (H1 k eq_refl); lia|lia].
  - destruct (Nat.ltb_spec (fnext f) (renames_of l)) as [Hlt2|Hge2]; [destruct (Nat.ltb_spec 0 (renames_of l - 1 - fnext f)) as [Hlost|Hlost]|];
      cbn [ugeneration fnext fbase fowed ulost]; rewrite Hg, (proj2 (Nat.ltb_ge _ _)) by done; (split; [lia|]); (split; [lia|]).
    + lia.
    + intros _. split; [|done]. unfold rotated_ok. cbn [urotated ugeneration fnext]. destruct H4 as [i Hi]; [lia|]. rewrite Hi. specialize (H2 i Hi).
      unfold gen_file. lia.
    + intros _. split; [|done]. unfold rotated_ok. cbn. lia.
Qed.

(** What the records of a look are, once they are given. *)
Lemma given_waiting l f : handle_ok l f → gave f (consumed l f) → fowed f `prefix_of` consumed l f → phase_ok l (given f).
Proof.
  intros Hh (lines & Hd & Hc) Ho. unfold phase_ok. cbn [given fphase]. split; [exact Hh|]. split; [|done]. exists lines. cbn [fout fbatch given ftext].
  by rewrite (right_id_L [] (++)).
Qed.

Lemma rest_step l f u f' : log_ok l → handle_ok l f → gave f (consumed l f) → look_ok l f u →
  (fhandle f = None ∧ f' = f ∨ ∃ i off ls h partial rs, fhandle f = Some (i, off) ∧ tail_records i off (fpartial f) l = (ls, h, partial) ∧
     decode unmarshal ls = Ok rs ∧ f' = with_batch rs (at_file (Some h) partial (fnext f) f)) →
  phase_ok l (if ugeneration u <? fnext f' then given f' else in_phase (Older u) f').
Proof.
  intros Hl Hh Hg (Hu & Hn & Hlook) Hcase. destruct Hcase as [[Hnone ->]|(i & off & ls & h & partial & rs & Hs & Ht & Hd & ->)].
  - destruct (Nat.ltb_spec (ugeneration u) (fnext f)) as [Hlt|Hge].
    { exfalso. destruct Hlook as ([h Hsome] & _). congruence. }
    unfold handle_ok, consumed in Hh, Hg. rewrite Hnone in Hh, Hg. unfold phase_ok. cbn [in_phase fphase fnext fbase]. split_and!; [done|lia|done|].
    unfold look_ok. cbn [in_phase fphase fnext fbase fowed fhandle]. rewrite (proj2 (Nat.ltb_ge _ _)) by done. split_and!; [lia..|done].
  - destruct (read_end l f i off ls h partial rs Hh Hg Hs Ht Hd) as (Hh' & Hc' & Hg'). set (f' := with_batch rs (at_file (Some h) partial (fnext f) f)) in *.
    assert (S i = gen_file l (fnext f) ∧ fbase f ≤ i) as [Hi Hb] by (unfold handle_ok in Hh; rewrite Hs in Hh; naive_solver lia).
    change (fnext f') with (fnext f). destruct (Nat.ltb_spec (ugeneration u) (fnext f)) as [Hlt|Hge].
    + destruct Hlook as (_ & Hlen & Hp). apply given_waiting; [done|done|]. rewrite Hc'. change (fowed f') with (fowed f).
      replace (S i) with (S (gen_file l (ugeneration u))); [done|]. unfold gen_file in *. lia.
    + unfold phase_ok. cbn [in_phase fphase]. change (fnext (in_phase (Older u) f')) with (fnext f). change (fbase (in_phase (Older u) f')) with (fbase f).
      split_and!; [done|lia| |].
      * rewrite <- Hi, <- Hc'. exact Hg'.
      * unfold look_ok. cbn [in_phase fphase fnext fbase fowed fhandle]. change (fnext f') with (fnext f). rewrite (proj2 (Nat.ltb_ge _ _)) by done.
        split_and!; [apply Hu..|lia|exact Hlook].
Qed.

(** ** Every state *)

(** What the client was given first: the newest lines of the two files, by time. *)
Definition began (f : follower) : Prop :=
  let all := whole_lines (frot f) ++ whole_lines (ftext f) in
  ∃ rs, decode unmarshal (drop (length all - TailRecords) all) = Ok rs ∧ fbegan f = Merge rs.

Definition began_ok (f : follower) : Prop :=
  match fphase f with
  | Before | Started _ _ _ | Rotated _ _ _ => fbegan f = [] ∧ fout f = []
  | Ended _ => fbegan f = [] ∧ fout f = [] ∨ began f
  | _ => began f
  end.

Definition watch_ok (l : log) (n : nat) : Prop := match watched l with None => n = 0 | Some (m, _) => m = n ∧ 0 < n end.

Definition count (w : world) : nat := wothers w + Nat.b2n (active (fphase (wf w))).

Record world_ok (w : world) : Prop := {
  wo_log : log_ok (wlog w);
  wo_writing : ∀ i rest, wwriting w = Some (i, rest) → cur (wlog w) = Some i;
  wo_watch : watch_ok (wlog w) (count w);
  wo_phase : phase_ok (wlog w) (wf w);
  wo_began : began_ok (wf w)
}.

Lemma unfollow_ok l n : log_ok l → watch_ok l (S n) → log_ok (unfollow_ l) ∧ watch_ok (unfollow_ l) n ∧ grows l (unfollow_ l) ∧ (0 < n → same_gens l (unfollow_ l)).
Proof.
  intros Hl Hw. unfold watch_ok in Hw. destruct (watched l) as [[m r]|] eqn:E; [|done]. destruct Hw as [-> _].
  assert (grows l (unfollow_ l)) as G.
  { apply unwatch_grows; [done|]. unfold renames_of. cbn. rewrite E. by destruct n; cbn; lia. }
  split_and!; [apply G| |done|].
  - unfold watch_ok, unfollow_. cbn. rewrite E. destruct n; cbn; [done|]. split; [done|lia].
  - intros Hn. apply watch_grows; [done|]. unfold renames_of. cbn. rewrite E. destruct n; [lia|done].
Qed.

Lemma follow_ok l n : log_ok l → watch_ok l n → log_ok (follow_ l) ∧ watch_ok (follow_ l) (S n) ∧ grows l (follow_ l) ∧ same_gens l (follow_ l).
Proof.
  intros Hl Hw. assert (grows l (follow_ l) ∧ same_gens l (follow_ l)) as [G S_].
  { apply watch_grows; [done|]. unfold renames_of. cbn. by destruct (watched l) as [[m r]|]. }
  split_and!; [apply G| |done..]. unfold watch_ok, follow_ in *. cbn. destruct (watched l) as [[m r]|]; [|by rewrite Hw; split; [|lia]]. destruct Hw as [-> _]. split; lia.
Qed.

Lemma rotate_watch mx f k l l' a n : rotate mx f k l = (l', a) → watch_ok l n → watch_ok l' n.
Proof.
  unfold rotate, watch_ok. repeat case_match; intros [= <- <-]; cbn; simplify_eq; try done; by destruct (watched l) as [[? ?]|]; cbn in *; simplify_eq.
Qed.

Lemma open_watch f l l' a n : open_append f l = (l', a) → watch_ok l n → watch_ok l' n.
Proof. unfold open_append. destruct (open_fails f); [by intros [= <- <-]|]. by destruct (cur l); intros [= <- <-]. Qed.

(** The log changes under the follow. *)
Lemma log_step w l' wr others' : world_ok w → grows (wlog w) l' → (∀ i rest, wr = Some (i, rest) → cur l' = Some i) →
  (active (fphase (wf w)) = true → same_gens (wlog w) l') → watch_ok l' (others' + Nat.b2n (active (fphase (wf w)))) →
  world_ok (MkWorld l' wr others' (wf w)).
Proof.
  intros [H1 H2 H3 H4 H5] G Hw Hs Hwatch. split; cbn; [apply G|done|done| |done]. apply (phase_grows (wlog w)); [done|done| |done].
  by destruct (fphase (wf w)); try (by apply Hs).
Qed.

(** The follow takes a step and is still there. *)
Lemma follower_step w f : world_ok w → active (fphase (wf w)) = true → active (fphase f) = true → phase_ok (wlog w) f → began_ok f → world_ok (set_follower f w).
Proof.
  intros [H1 H2 H3 H4 H5] Ha Hf Hp Hb. split; cbn; try done. unfold count in *. cbn. by rewrite Ha, Hf in *.
Qed.

(** The follow ends. *)
Lemma ended_step w f why : world_ok w → active (fphase (wf w)) = true → phase_ok (wlog w) (in_phase (Ended why) f) → began_ok (in_phase (Ended why) f) →
  world_ok (MkWorld (unfollow_ (wlog w)) (wwriting w) (wothers w) (in_phase (Ended why) f)).
Proof.
  intros [H1 H2 H3 H4 H5] Ha Hp Hb. unfold count in H3. rewrite Ha, Nat.add_1_r in H3. destruct (unfollow_ok _ _ H1 H3) as (Hl & Hw & G & _).
  split; cbn; try done. unfold count. cbn. by rewrite Nat.add_0_r.
Qed.

Lemma began_ended f why : active (fphase f) = true → began_ok f → began_ok (in_phase (Ended why) f).
Proof. unfold began_ok. cbn [in_phase fphase]. destruct (fphase f); try done; intros _ H; first [by left|by right]. Qed.

(** A read of the follow, and what comes after it. *)
Lemma read_on_ok k w : world_ok w → active (fphase (wf w)) = true →
  (fhandle (wf w) = None → world_ok (set_follower (k (wf w)) w)) →
  (∀ i off ls h partial rs, fhandle (wf w) = Some (i, off) → tail_records i off (fpartial (wf w)) (wlog w) = (ls, h, partial) → decode unmarshal ls = Ok rs →
     world_ok (set_follower (k (with_batch rs (at_file (Some h) partial (fnext (wf w)) (wf w)))) w)) →
  world_ok (read_on unmarshal k w).
Proof.
  intros Hw Ha Hnone Hsome. unfold read_on. destruct (fhandle (wf w)) as [[i off]|] eqn:Eh; [|by apply Hnone].
  destruct (tail_records i off _ _) as [[ls h] partial] eqn:Et. destruct (decode unmarshal ls) as [rs|e] eqn:Ed; [by eapply Hsome|].
  destruct e; try done. apply ended_step; [done|done| |].
  - apply active_ended; [done|]. apply Hw.
  - apply began_ended; [done|]. apply Hw.
Qed.

Lemma steps_ok w : world_ok w → world_ok (steps unmarshal w).
Proof.
  intros Hw. pose proof Hw as [H1 H2 H3 H4 H5]. pose proof (base_le _ H1) as Hlen. unfold steps. destruct (fphase (wf w)) as [|ro c r|newest c r| |u|u|u|why] eqn:Ep.
  - destruct (wwriting w) eqn:Ew; [done|]. unfold count in H3. rewrite Ep in H3. cbn [active Nat.b2n] in H3. rewrite Nat.add_0_r in H3.
    destruct (follow_ok _ _ H1 H3) as (Hl & Hwt & G & S_). split; cbn; try done.
    + unfold count. cbn. by rewrite Nat.add_1_r.
    + pose proof (lo_renames _ Hl) as Hr. unfold start_ok. cbn. fold (base (wlog w)). change (base (follow_ (wlog w))) with (base (wlog w)) in *. split_and!; try done.
      * unfold gen_file. change (base (follow_ (wlog w))) with (base (wlog w)). lia.
      * destruct (cur (wlog w)) as [k|] eqn:Ec; [right|by left]. unfold base. rewrite Ec. pose proof (lo_cur _ H1 k Ec). split; [done|lia].
  - unfold phase_ok in H4. rewrite Ep in H4. apply follower_step; try done; [by rewrite Ep|]. destruct H4 as (Hb & Hle & Hc & _). by split.
  - unfold phase_ok in H4. rewrite Ep in H4. destruct H4 as [(Hb & Hle & Hc & Ht & Ho & Hd) ->]. unfold start_. cbn [tail_read].
    rewrite <- foldl_app. destruct (ring_newest TailRecords (whole_lines (frot (wf w)) ++ whole_lines (content (wlog w) c))) as [Hk _]; [unfold TailRecords; lia|]. rewrite Hk.
    destruct (decode unmarshal _) as [rs|e] eqn:Ed.
    + apply follower_step; try done; [by rewrite Ep| |by exists rs]. unfold phase_ok. cbn [fphase]. unfold handle_ok, consumed, gave. destruct Hc as [->|[-> Hc]].
      * cbn. rewrite <- Hb, Nat.sub_diag. cbn. split_and!; [lia|lia| |done|by rewrite Hd]. by exists [].
      * destruct (lookup_lt_is_Some_2 _ _ Hc) as [s Hs]. cbn [fhandle fbase fnext fpartial fout fbatch ftext fowed app].
        assert (content (wlog w) (Some (fbase (wf w))) = s) as -> by (unfold content; by rewrite Hs). rewrite Nat.sub_diag, take_s_all. split_and!; [|lia|lia| | |done|by rewrite Hd; apply prefix_nil].
        -- rewrite Hb. unfold gen_file. lia.
        -- exists s. by rewrite take_s_all.
        -- exists []. by rewrite (right_id_L [] (++)).
    + destruct e; try done. apply ended_step; [done|by rewrite Ep| |].
      * apply active_ended; [by rewrite Ep|]. apply Hw.
      * apply began_ended; [by rewrite Ep|]. apply Hw.
  - destruct (wwriting w); [done|]. unfold phase_ok in H4. rewrite Ep in H4. destruct H4 as (Hh & Hg & Hb & Ho). apply follower_step; try done.
    + by rewrite Ep.
    + unfold phase_ok. cbn [fphase]. split; [exact Hh|]. split; [|by apply look_since]. unfold gave in *. by rewrite Hb in Hg.
    + unfold began_ok in *. by rewrite Ep in H5.
  - unfold phase_ok in H4. rewrite Ep in H4. destruct H4 as (Hh & Hg & Hu). assert (began (wf w)) as Hbg by (unfold began_ok in H5; by rewrite Ep in H5).
    assert (∀ f', began f' → phase_ok (wlog w) (if ugeneration u <? fnext f' then given f' else in_phase (Older u) f') →
              world_ok (set_follower (if ugeneration u <? fnext f' then given f' else in_phase (Older u) f') w)) as Hset.
    { intros f' Hb' Hp'. apply follower_step; try done; [by rewrite Ep|..]; by destruct (_ <? _). }
    apply read_on_ok; [done|by rewrite Ep|..].
    + intros Hn. apply Hset; [done|]. apply (rest_step (wlog w) (wf w)); try done. by left.
    + intros i off ls h partial rs Hs Ht Hd. apply Hset; [done|]. apply (rest_step (wlog w) (wf w)); try done. right. by exists i, off, ls, h, partial, rs.
  - unfold phase_ok in H4. rewrite Ep in H4. destruct H4 as (Hn & Hb & Hg & Hu & _ & Hlook). assert (began (wf w)) as Hbg by (unfold began_ok in H5; by rewrite Ep in H5).
    rewrite (proj2 (Nat.ltb_ge _ _)) in Hlook by done. destruct (Nat.ltb_spec 0 (ulost u)) as [Hlost|Hlost].
    { apply ended_step; [done|by rewrite Ep| |by right]. destruct Hg as (lines & Hd & Hc). exists lines. split; [exact Hd|]. cbn [ftext fbase given in_phase].
      rewrite Hc. apply lines_of_from. }
    destruct Hlook as [Hr Hcur]; [lia|]. unfold rotated_ok in Hr. destruct (urotated u) as [i|].
    + destruct Hr as [-> Hgen]. assert (gen_file (wlog w) (ugeneration u) = S (gen_file (wlog w) (fnext (wf w)))) as Hs by (unfold gen_file in *; lia).
      destruct (lookup_lt_is_Some_2 (files (wlog w)) (gen_file (wlog w) (fnext (wf w)))) as [s Hf]; [lia|].
      assert (content (wlog w) (Some (gen_file (wlog w) (fnext (wf w)))) = s) as -> by (unfold content; by rewrite Hf).
      destruct (decode unmarshal (whole_lines s)) as [rs|e] eqn:Ed.
      * apply follower_step; try done; [by rewrite Ep|]. split; [done|]. split; [|exact Hcur]. destruct Hg as (lines & Hd & Hc).
        exists (lines ++ whole_lines s). cbn [fout fbatch ftext with_batch in_phase fbase]. rewrite (decode_app _ _ _ Hd), Ed. split; [by rewrite app_assoc|].
        rewrite app_assoc, Hc, Hs. replace (S (gen_file (wlog w) (fnext (wf w))) - fbase (wf w)) with (S (gen_file (wlog w) (fnext (wf w)) - fbase (wf w))) by lia.
        symmetry. apply lines_of_snoc. by replace (fbase (wf w) + (gen_file (wlog w) (fnext (wf w)) - fbase (wf w))) with (gen_file (wlog w) (fnext (wf w))) by lia.
      * destruct e; try done. apply ended_step; [done|by rewrite Ep| |].
        -- apply active_ended; [by rewrite Ep|]. apply Hw.
        -- apply began_ended; [by rewrite Ep|]. apply Hw.
    + apply follower_step; try done; [by rewrite Ep|]. split; [done|]. split; [|exact Hcur]. cbn [fbase in_phase]. rewrite Hr. exact Hg.
  - unfold phase_ok in H4. rewrite Ep in H4. destruct H4 as (Hb & Hg & Hcur). assert (began (wf w)) as Hbg by (unfold began_ok in H5; by rewrite Ep in H5).
    unfold current_ok in Hcur. destruct (ucurrent u) as [c|] eqn:Ec.
    + destruct Hcur as (-> & Hc & Hp). set (f1 := at_file (Some (gen_file (wlog w) (ugeneration u), 0)) "" (S (ugeneration u)) (wf w)).
      destruct (lookup_lt_is_Some_2 _ _ Hc) as [s Hs].
      assert (handle_ok (wlog w) f1) as Hh1.
      { unfold handle_ok, f1. cbn. split; [unfold gen_file; lia|]. split; [lia|]. exists s. split; [done|]. split; [lia|by destruct s]. }
      assert (gave f1 (consumed (wlog w) f1)) as Hg1.
      { unfold consumed, f1. cbn [fhandle at_file fbase]. rewrite take_s_0. cbn. by rewrite (right_id_L [] (++)). }
      assert (world_ok (set_follower f1 w)) as Hw1.
      { assert (fphase f1 = Newer u) as Ep1 by done. apply follower_step; [done|by rewrite Ep|by rewrite Ep1| |by unfold began_ok; rewrite Ep1]. unfold phase_ok. rewrite Ep1.
        split; [done|]. split; [done|]. unfold current_ok. by rewrite Ec. }
      apply read_on_ok; [done|change (active (fphase (wf w)) = true); by rewrite Ep|done|]. intros i off ls h partial rs Hf Ht Hd. cbn [wf set_follower wlog] in *.
      pose proof Hf as Hf'. cbn in Hf'. injection Hf' as <- <-.
      destruct (read_end (wlog w) f1 _ _ ls h partial rs Hh1 Hg1 Hf Ht Hd) as (Hh2 & Hc2 & Hg2).
      change (set_follower ?f (set_follower f1 w)) with (set_follower f w). apply follower_step; try done; [by rewrite Ep|].
      apply given_waiting; [done|done|]. rewrite Hc2. exact Hp.
    + apply follower_step; try done; [by rewrite Ep|]. apply given_waiting.
      * unfold handle_ok. cbn. lia.
      * exact Hg.
      * exact Hcur.
  - done.
Qed.

Lemma happens_ok e w : world_ok w → world_ok (happens marshal unmarshal max e w).
Proof.
  intros Hw. pose proof Hw as [H1 H2 H3 H4 H5]. destruct e as [f r|n| | | | |]; cbn [happens].
  - destruct (wwriting w) eqn:Ew; [done|]. destruct (rotate _ _ _ _) as [l1 a1] eqn:Er. destruct (rotate_grows _ _ _ _ _ _ H1 Er) as [G1 S1].
    assert (active (fphase (wf w)) = true → same_gens (wlog w) l1) as Hs1.
    { intros Ha. apply S1. unfold watch_ok, count in H3. rewrite Ha in H3. destruct (watched (wlog w)); [by eexists|]. cbn in H3. lia. }
    pose proof (rotate_watch _ _ _ _ _ _ _ Er H3) as W1. destruct a1 as [u|e1]; [|by apply log_step; rewrite ?Ew].
    destruct (open_append f l1) as [l2 a2] eqn:Eo. destruct (open_grows _ _ _ _ (gr_ok _ _ G1) Eo) as (G2 & S2 & Hc). pose proof (open_watch _ _ _ _ _ Eo W1) as W2.
    assert (world_ok (MkWorld l1 None (wothers w) (wf w))) as Hw1 by (by apply log_step).
    destruct a2 as [i|e2]; [|by apply (log_step _ l2 (wwriting w) (wothers w) Hw1); rewrite ?Ew].
    apply (log_step _ l2 _ (wothers w) Hw1); try done. by intros k rest [= <- <-].
  - destruct (wwriting w) as [[i rest]|] eqn:Ew; [|done]. destruct (write_grows i (take_s n rest) _ H1 (H2 i rest eq_refl)) as [G S_].
    apply log_step; try done. intros k rest'. destruct (String.eqb _ _); [done|]. intros [= <- _]. by eapply H2.
  - split; try done.
  - destruct (wwriting w) eqn:Ew; [done|]. destruct (follow_ok _ _ H1 H3) as (_ & Hwt & G & S_). by apply log_step.
  - destruct (wwriting w) eqn:Ew; [done|]. destruct (wothers w) as [|n] eqn:Eo; [done|]. unfold count in H3. rewrite Eo in H3. cbn [Nat.add] in H3.
    destruct (unfollow_ok _ _ H1 H3) as (_ & Hwt & G & S_). apply log_step; try done. intros Ha. apply S_. rewrite Ha. cbn. lia.
  - by apply steps_ok.
  - destruct (fphase (wf w)) eqn:Ep; try done; (apply ended_step; [done|by rewrite Ep|apply active_ended; [by rewrite Ep|done]|apply began_ended; [by rewrite Ep|done]]).
Qed.

Lemma after_ok es : world_ok (after marshal unmarshal max es).
Proof.
  unfold after. assert (world_ok begin) as Hb.
  { split; try done. split; cbn; [done|done|lia|lia]. }
  revert Hb. generalize begin. induction es as [|e es IH]; intros w Hw; [done|]. apply IH. by apply happens_ok.
Qed.

(** C12: a client that follows the log of a sandbox is given every decision once, in order. Whatever appends, renames, other
    follows and reads come in between, at every moment what it was given after its first records is the lines of the files from
    the one that was current when it began, past what it began with, in order and with none left out; its first records are the
    newest of the two files, by time; and between two looks it has been given every line that was whole at the last one. *)
Theorem follow_delivers es :
  let w := after marshal unmarshal max es in
  let f := wf w in
  ∃ lines, decode unmarshal lines = Ok (fout f) ∧ whole_lines (ftext f) ++ lines `prefix_of` lines_from (fbase f) (wlog w) ∧
    (fbegan f = [] ∧ fout f = [] ∨ began f) ∧ (fphase f = Waiting → fowed f `prefix_of` whole_lines (ftext f) ++ lines).
Proof.
  intros w f. pose proof (after_ok es) as [H1 _ _ H4 H5]. fold w in H1, H4, H5. fold f in H4, H5.
  assert (fbegan f = [] ∧ fout f = [] ∨ began f) as Hb by (unfold began_ok in H5; destruct (fphase f); first [done|by left|by right]).
  destruct (active (fphase f)) eqn:Ea.
  - destruct (fphase f) eqn:Ep; try (
      destruct (active_ended (wlog w) f Stopped) as (lines & Hd & Hp); [by rewrite Ep|done|]; exists lines; by split_and!).
    unfold phase_ok in H4. rewrite Ep in H4. destruct H4 as (Hh & (lines & Hd & Hc) & Hbatch & Ho). exists lines.
    rewrite Hbatch, (right_id_L [] (++)) in Hd. rewrite Hc. split_and!; [done|by apply consumed_from|done|done].
  - unfold phase_ok in H4. destruct (fphase f) eqn:Ep; try done.
    + exists []. unfold began_ok in H5. rewrite Ep in H5. destruct H5 as [_ Ho]. split_and!; [by rewrite Ho|rewrite H4; apply prefix_nil|done|done].
    + destruct H4 as (lines & Hd & Hp). exists lines. by split_and!.
Qed.

End Invariant.

(** ** A follow that lives through a rename *)

Definition follow_run : list event :=
  [Appends fine_append (toy_record 1); Lands 9; Appends fine_append (toy_record 2); Lands 9; Follows; Follows; Follows;
   Appends fine_append (toy_record 3); Lands 1; Follows; Lands 1; Follows; Follows; Follows; Appends fine_append (toy_record 4); Lands 9; Follows; Follows; Follows].

(** It began with two records, and was given two more, over a rename and a line it saw in part. *)
Example follow_ran :
  let f := wf (after toy_marshal toy_unmarshal 4 follow_run) in
  LTime <$> fbegan f = [1; 2]%Z ∧ LTime <$> fout f = [3; 4]%Z ∧ fphase f = Waiting.
Proof. vm_compute. split_and!; reflexivity. Qed.

(** One that sleeps through two renames is told so. *)
Example follow_behind :
  fphase (wf (after toy_marshal toy_unmarshal 2
    ([Appends fine_append (toy_record 1); Lands 9; Follows; Follows; Follows] ++ flat_map (λ t, [Appends fine_append (toy_record t); Lands 9]) [2; 3; 4]%Z
     ++ [Follows; Follows; Follows]))) = Ended (FellBehind 1).
Proof. vm_compute. reflexivity. Qed.
