(* ===== verification/EgressTail.v ===== *)
(** * Host drops into the logs of the sandboxes

    [services/egress/read.go] and [tail.go]: the chains of the host log what they drop into the kernel's ring, and the tailer
    writes each line into the log of the sandbox it is about. It names the sandbox by an address or a port, from a map of the
    records it keeps while their generation stays the same; it keeps its place in the ring in a file. What the records, the clock
    and the log answer at each call are arguments. *)

From S2P Require Import Prelude GoStrings Netip Models Http Records Secret Network EgressPolicy EgressDecide EgressCompile Broker Ruleset.
Local Open Scope Z_scope.

(** ** A line of the ring *)

Definition SourceHost : string := "host".

(** The record a line becomes, the two things that say whose it is, and the sum of the rule that wrote it. *)
Record drop_ : Type := MkDrop { DRecord : LogRecord; DSource : string; DIface : string; DSum : string }.

(** [strconv.Atoi] with its error left out: a number out of range is the nearest in it. *)
Definition atoi (s : string) : Z :=
  match Atoi s with
  | Some n => n
  | None =>
      match s with
      | String "+" d => match parse_digits d with Some _ => max_int64 | None => 0 end
      | String "-" d => match parse_digits d with Some _ => min_int64 | None => 0 end
      | _ => match parse_digits s with Some _ => max_int64 | None => 0 end
      end
  end.

Definition field_map (fields : list string) : gmap string string :=
  foldl (λ m field, match Cut field "=" with (key, value, true) => <[key := value]> m | _ => m end) ∅ fields.

(** A key the map does not hold reads as the empty text. *)
Definition field (m : gmap string string) (key : string) : string := default "" (m !! key).

Section Lines.
Context `{U : Unicode}.

Definition protocol (proto : string) : string := if String.eqb proto "" then "raw" else ToLower proto.

Definition reason (rule proto : string) : string :=
  if String.eqb rule RuleLocal then "the host chains dropped a " +:+ proto +:+ " packet to the host's own address"
  else if String.eqb rule RuleIPv6 then "the host chains dropped an IPv6 " +:+ proto +:+ " packet: no policy rule can match one"
  else "the host chains dropped a " +:+ proto +:+ " packet".

(** The time of the record is the line's, which the caller sets. *)
Definition hostDrop (message : string) : option drop_ :=
  rest ← CutPrefix (TrimSpace message) (LogPrefix +:+ " ");
  let fields := field_map (Fields rest) in
  rule ← fields !! "rule";
  Some (MkDrop (MkLogRecord 0 SourceHost ActionDeny "" (atoi (field fields "DPT")) (field fields "DST") rule "" (reason rule (protocol (field fields "PROTO"))))
               (field fields "SRC") (field fields "IN") (field fields "sum")).

End Lines.

(** ** The tailer *)

(** [refreshed] is nil at the zero time, which is long ago. *)
Record tailer : Type := MkTailer {
  holders : gmap string Sandbox; refreshed : option Z; listedGen : Z; live : bool; unattributed : nat;
  (** what was written into the logs, oldest first *)
  written : list (string * LogRecord)
}.

Definition NewTailer : tailer := MkTailer ∅ None 0 false 0 [].

Definition refreshEvery : Z := 1000000000.

Definition set_holders (m : gmap string Sandbox) (at_ : option Z) (gen : Z) (t : tailer) : tailer :=
  MkTailer m at_ gen (live t) (unattributed t) (written t).
Definition set_live (b : bool) (t : tailer) : tailer := MkTailer (holders t) (refreshed t) (listedGen t) b (unattributed t) (written t).
Definition set_unattributed (n : nat) (t : tailer) : tailer := MkTailer (holders t) (refreshed t) (listedGen t) (live t) n (written t).
Definition add_written (id : string) (r : LogRecord) (t : tailer) : tailer :=
  MkTailer (holders t) (refreshed t) (listedGen t) (live t) (unattributed t) (written t ++ [(id, r)]).

(** What one call of [sandboxFor] is answered: the generation, the time, the generation once more, and the records. *)
Record look : Type := MkLook { kgen : Z; know : Z; kgen2 : Z; klist : option (list Sandbox) }.

Definition holder (m : gmap string Sandbox) (keys : list string) : option Sandbox :=
  first_match (λ _, true) (omap (λ key, if String.eqb key "" then None else m !! key) keys).

(** The map of one list: a failed create keeps an address it gave back. *)
Definition hold (m : gmap string Sandbox) (sb : Sandbox) : gmap string Sandbox :=
  if bool_decide (SState sb = StateFailed) then m
  else
    let m := if Prefix_IsValid (Address sb) then <[Addr_String (paddr (Address sb)) := sb]> m else m in
    if negb (String.eqb (HostInterface sb) "") then <[HostInterface sb := sb]> m else m.

Definition rebuild (sbs : list Sandbox) : gmap string Sandbox := foldl hold ∅ sbs.

Definition sandboxFor (k : look) (t : tailer) (keys : list string) : tailer * option Sandbox :=
  let t := if negb (kgen k =? listedGen t) then set_holders ∅ None (listedGen t) t else t in
  match holder (holders t) keys with
  | Some sb => (t, Some sb)
  | None =>
      if negb (live t) && match refreshed t with Some at_ => know k - at_ <? refreshEvery | None => false end then (t, None)
      else
        let t := set_holders (rebuild (default [] (klist k))) (Some (know k)) (kgen2 k) t in
        (t, holder (holders t) keys)
  end.

(** [forget]. *)
Definition forget (sb : Sandbox) (t : tailer) : tailer :=
  set_holders (filter (λ '(_, held), ID held ≠ ID sb) (holders t)) None (listedGen t) t.

(** How an append into the log of a sandbox ends: written, no such directory, or another error. *)
Inductive wrote : Type := Wrote | NoDir | NotWritten.

Inductive tail_error : Type := TRules | TAppend | TCursor.

Section Tailer.
Context `{U : Unicode} (gateway : Z) (policies : gmap string policy_entry).

Definition ruleText (sb : Sandbox) (id sum : string) : result tail_error string :=
  if String.eqb sum "" then Ok ""
  else match Effective_ gateway policies sb with
       | Err _ => Err TRules
       | Ok e =>
           Ok (match first_match (λ r, String.eqb (EID r) id && String.eqb (RuleSum (ERule r)) sum) (ERules e) with
               | Some r => FormatRule (ERule r)
               | None => ""
               end)
       end.

Definition set_text (time : Z) (text : string) (r : LogRecord) : LogRecord :=
  MkLogRecord time (LSource r) (LVerdict r) (LHost r) (LPort r) (LAddress r) (LRule r) text (LReason r).

(** [attribute]: a turn for each answer, two in all. *)
Fixpoint attribute_go (turns : list (look * wrote)) (time : Z) (d : drop_) (t : tailer) : tailer * result tail_error bool :=
  match turns with
  | [] => (set_unattributed (S (unattributed t)) t, Ok false)
  | (k, w) :: turns =>
      match sandboxFor k t [DSource d; DIface d] with
      | (t, None) => (set_unattributed (S (unattributed t)) t, Ok false)
      | (t, Some sb) =>
          if time <? CreatedAt sb then (set_unattributed (S (unattributed t)) t, Ok false)
          else match ruleText sb (LRule (DRecord d)) (DSum d) with
               | Err e => (t, Err e)
               | Ok text =>
                   match w with
                   | Wrote => (add_written (ID sb) (set_text time text (DRecord d)) t, Ok true)
                   | NotWritten => (t, Err TAppend)
                   | NoDir => attribute_go turns time d (forget sb t)
                   end
               end
      end
  end.

Definition attribute (first second : look * wrote) (time : Z) (d : drop_) (t : tailer) : tailer * result tail_error bool :=
  attribute_go [first; second] time d t.

(** ** A run over the ring *)

(** A line of the ring, with what its attribution is answered and whether the cursor is written after it. *)
Record ring_line : Type := MkLine { Sequence : Z; Time : Z; Message : string; lfirst : look * wrote; lsecond : look * wrote; lcursor : bool }.

(** The cursor in memory, the last line read, and the cursor on disk. *)
Record place_ : Type := MkPlaceIn { pcursor : option Z; plast : option Z; pfile : option Z }.

Definition yields (line : ring_line) (t : tailer) (p : place_) : tailer * place_ * result tail_error unit :=
  if match pcursor p with Some c => Sequence line <=? c | None => false end then (t, p, Ok tt)
  else
    let p := MkPlaceIn (pcursor p) (Some (Sequence line)) (pfile p) in
    match hostDrop (Message line) with
    | None => (t, p, Ok tt)
    | Some d =>
        match attribute (lfirst line) (lsecond line) (Time line) d t with
        | (t, Err e) => (t, p, Err e)
        | (t, Ok false) => (t, p, Ok tt)
        | (t, Ok true) =>
            let p := MkPlaceIn (Some (Sequence line)) (plast p) (pfile p) in
            if lcursor line then (t, MkPlaceIn (pcursor p) (plast p) (Some (Sequence line)), Ok tt) else (t, p, Err TCursor)
        end
    end.

(** The end of the backlog: the cursor settles there. *)
Definition caughtUp (writes : bool) (t : tailer) (p : place_) : tailer * place_ * result tail_error unit :=
  let t := set_live true t in
  match plast p with
  | None => (t, p, Ok tt)
  | Some last =>
      if bool_decide (pcursor p = Some last) then (t, p, Ok tt)
      else if writes then (t, MkPlaceIn (pcursor p) (plast p) (Some last), Ok tt) else (t, p, Err TCursor)
  end.

Inductive turn : Type := Line (line : ring_line) | CaughtUp (writes : bool).

Fixpoint follow_ring (turns : list turn) (t : tailer) (p : place_) : tailer * place_ * result tail_error unit :=
  match turns with
  | [] => (t, p, Ok tt)
  | e :: turns =>
      match match e with Line line => yields line t p | CaughtUp writes => caughtUp writes t p end with
      | (t, p, Ok _) => follow_ring turns t p
      | (t, p, Err e) => (t, p, Err e)
      end
  end.

(** [Run], from the cursor on disk; a cursor that does not read back is none. *)
Definition Run (file : option Z) (turns : list turn) (t : tailer) : tailer * place_ * result tail_error unit :=
  follow_ring turns (set_unattributed 0 (set_live false t)) (MkPlaceIn file None file).

End Tailer.

(** ** Whose drop it is *)

(** The record names the key: the text of its address, or its port on the bridge. *)
Definition names (sb : Sandbox) (key : string) : Prop :=
  SState sb ≠ StateFailed ∧ (Prefix_IsValid (Address sb) = true ∧ Addr_String (paddr (Address sb)) = key ∨ HostInterface sb = key ∧ key ≠ "").

Lemma rebuild_names sbs key sb : rebuild sbs !! key = Some sb → sb ∈ sbs ∧ names sb key.
Proof.
  unfold rebuild. revert sb. induction sbs as [|x sbs IH] using rev_ind; intros sb; [done|]. rewrite foldl_snoc. unfold hold at 1.
  set (m := foldl hold ∅ sbs) in *. assert (∀ y, m !! key = Some y → y ∈ sbs ++ [x] ∧ names y key) as Hm by (intros y Hy; apply IH in Hy; set_solver).
  case_bool_decide as Hf; [apply Hm|]. set (m1 := if Prefix_IsValid (Address x) then _ else m).
  assert (∀ y, m1 !! key = Some y → y ∈ sbs ++ [x] ∧ names y key) as Hm1.
  { intros y. unfold m1. destruct (Prefix_IsValid (Address x)) eqn:Ev; [|apply Hm].
    rewrite lookup_insert_Some. intros [[Hk <-]|[_ Hy]]; [|by apply Hm]. split; [set_solver|]. split; [done|]. by left. }
  destruct (String.eqb_spec (HostInterface x) "") as [He|He]; cbn [negb]; [apply Hm1|].
  rewrite lookup_insert_Some. intros [[Hk <-]|[_ Hy]]; [|by apply Hm1]. split; [set_solver|]. split; [done|]. right. by rewrite <- Hk.
Qed.

Lemma holder_found m keys sb : holder m keys = Some sb → ∃ key, key ∈ keys ∧ key ≠ "" ∧ m !! key = Some sb.
Proof.
  unfold holder. intros (l1 & l2 & E & _)%first_match_Some. assert (sb ∈ omap (λ key, if String.eqb key "" then None else m !! key) keys) as Hin.
  { rewrite E. apply elem_of_app. right. by left. }
  apply list_elem_of_omap in Hin as (key & Hk & Hm). destruct (String.eqb_spec key ""); [done|]. by exists key.
Qed.

Section Fresh.
Context {H : RecordsHistory}.

(** The answers of one look, between two instants. *)
Definition looks_at (i j : nat) (k : look) : Prop :=
  kgen k = generation i ∧ klist k = listing j ∧ ∃ i2, (i ≤ i2 ≤ j)%nat ∧ kgen2 k = generation i2.

(** The map is of a list taken after its generation was read, less what was forgotten. *)
Definition tailer_ok (now : nat) (t : tailer) : Prop :=
  holders t = ∅ ∨
  ∃ i j sbs, (i ≤ j ≤ now)%nat ∧ listedGen t = generation i ∧ listing j = Some sbs ∧ holders t ⊆ rebuild sbs.

Lemma tailer_later now now' t : (now ≤ now')%nat → tailer_ok now t → tailer_ok now' t.
Proof. intros Hn [?|(i & j & sbs & Hi & Hr)]; [by left|]. right. exists i, j, sbs. split; [lia|done]. Qed.

(** What a look answers is what the records say, no earlier than any settled instant before it. *)
Lemma sandboxFor_fresh now i j k t keys t' r : tailer_ok now t → (now ≤ i)%nat → (i ≤ j)%nat → looks_at i j k → sandboxFor k t keys = (t', r) →
  tailer_ok j t' ∧ written t' = written t ∧
  ∀ sb, r = Some sb → ∃ key, key ∈ keys ∧ ∀ s, (s ≤ i)%nat → settled s →
    ∃ u sbs, (s ≤ u ≤ j)%nat ∧ listing u = Some sbs ∧ sb ∈ sbs ∧ names sb key.
Proof.
  intros Ht Hn Hij (Hg & Hl & i2 & Hi2 & Hg2). unfold sandboxFor. set (t1 := if negb (kgen k =? listedGen t) then _ else t).
  assert (tailer_ok i t1 ∧ (holders t1 = ∅ ∨ listedGen t1 = generation i) ∧ written t1 = written t) as (Ht1 & Hgen & Hw).
  { unfold t1. destruct (Z.eqb_spec (kgen k) (listedGen t)) as [E|E]; cbn [negb]; [|split_and!; [by left|by left|done]].
    split_and!; [by apply (tailer_later now)|right; congruence|done]. }
  clearbody t1. destruct (holder (holders t1) keys) as [sb|] eqn:Eh.
  - intros [= <- <-]. split_and!; [by apply (tailer_later i)|done|]. intros sb' [= <-]. destruct (holder_found _ _ _ Eh) as (key & Hk & _ & Hm). exists key. split; [done|].
    intros s Hs Hset. destruct Ht1 as [He|(a & b & sbs & Hab & Hga & Hlb & Hsub)]; [by rewrite He in Hm|].
    assert (generation a = generation i) as Hsame by (destruct Hgen as [He|He]; [by rewrite He in Hm|congruence]).
    pose proof (lookup_weaken _ _ _ _ Hm Hsub) as [Hin Hnm]%rebuild_names.
    destruct (le_lt_dec s b) as [Hle|Hlt]; [exists b, sbs; split_and!; [lia|lia|done|done|done]|].
    exists s, sbs. split_and!; [lia|lia| |done|done]. rewrite <- Hlb. symmetry. apply listing_same; [lia| |done].
    pose proof (generation_mono a b ltac:(lia)). pose proof (generation_mono b s ltac:(lia)). pose proof (generation_mono s i ltac:(lia)). lia.
  - destruct (_ && _); [intros [= <- <-]; split_and!; [by apply (tailer_later i)|done|done]|]. intros [= <- <-]. cbn [holders set_holders written]. split_and!; [|done|].
    + destruct (klist k) as [sbs|] eqn:Ek; [|by left]. right. exists i2, j, sbs. split_and!; [lia|lia|done|congruence|done].
    + intros sb Hsb. destruct (holder_found _ _ _ Hsb) as (key & Hk & _ & Hm). exists key. split; [done|]. intros s Hs _.
      destruct (klist k) as [sbs|] eqn:Ek; [|done]. apply rebuild_names in Hm as [Hin Hnm]. exists j, sbs. split_and!; [lia|lia|congruence|done|done].
Qed.

Section Attribution.
Context `{U : Unicode} (gateway : Z) (policies : gmap string policy_entry).

(** The text of a rule stands beside a drop only where the rule has that id and that sum in the policy of the sandbox. *)
Definition text_ok (sb : Sandbox) (d : drop_) (text : string) : Prop :=
  text = "" ∨ ∃ e r, Effective_ gateway policies sb = Ok e ∧ r ∈ ERules e ∧ EID r = LRule (DRecord d) ∧ RuleSum (ERule r) = DSum d ∧ text = FormatRule (ERule r).

Lemma ruleText_ok sb d text : ruleText gateway policies sb (LRule (DRecord d)) (DSum d) = Ok text → text_ok sb d text.
Proof.
  unfold ruleText. destruct (String.eqb (DSum d) ""); [intros [= <-]; by left|]. destruct (Effective_ _ _ _) as [e|] eqn:Ee; [|done].
  destruct (first_match _ _) as [r|] eqn:Ef; intros [= <-]; [|by left]. apply first_match_Some in Ef as (l1 & l2 & E & Hr & _).
  apply andb_true_iff in Hr as [Hr1%String.eqb_eq Hr2%String.eqb_eq]. right. exists e, r. split_and!; try done. rewrite E. set_solver.
Qed.

(** What an attribution wrote. *)
Definition landed (i j : nat) (time : Z) (d : drop_) (entry : string * LogRecord) : Prop :=
  ∃ sb text, entry = (ID sb, set_text time text (DRecord d)) ∧ CreatedAt sb ≤ time ∧ text_ok sb d text ∧
    ∃ key, key ∈ [DSource d; DIface d] ∧ ∀ s, (s ≤ i)%nat → settled s →
      ∃ u sbs, (s ≤ u ≤ j)%nat ∧ listing u = Some sbs ∧ sb ∈ sbs ∧ names sb key.

Lemma attribute_turn now i j k w turns time d t t' r :
  tailer_ok now t → (now ≤ i ≤ j)%nat → looks_at i j k → attribute_go gateway policies ((k, w) :: turns) time d t = (t', r) →
  (∃ t1, tailer_ok j t1 ∧ written t1 = written t ∧ attribute_go gateway policies turns time d t1 = (t', r)) ∨
  tailer_ok j t' ∧ match r with Ok true => ∃ entry, written t' = written t ++ [entry] ∧ landed i j time d entry | _ => written t' = written t end.
Proof.
  intros Ht Hij Hk. cbn [attribute_go]. destruct (sandboxFor k t _) as [t1 o] eqn:Es.
  destruct (sandboxFor_fresh now i j k t _ t1 o Ht ltac:(lia) ltac:(lia) Hk Es) as (Ht1 & Hw & Hsb). destruct o as [sb|]; [|intros [= <- <-]; right; by split].
  destruct (Z.ltb_spec time (CreatedAt sb)) as [Hc|Hc]; [intros [= <- <-]; right; by split|].
  destruct (ruleText _ _ _ _ _) as [text|e] eqn:Er; [|intros [= <- <-]; right; by split]. destruct w.
  - intros [= <- <-]. right. split; [done|]. cbn. eexists. split; [by rewrite Hw|]. exists sb, text. split_and!; [done|lia|by apply ruleText_ok|by apply Hsb].
  - intros Hgo. left. exists (forget sb t1). split_and!; [|done|done]. destruct Ht1 as [He|(a & b & sbs & Hab & Hg & Hl & Hsub)].
    + left. cbn. by rewrite He, map_filter_empty.
    + right. exists a, b, sbs. split_and!; try done; [lia|lia|]. cbn. etrans; [apply map_filter_subseteq|done].
  - intros [= <- <-]. right. by split.
Qed.

(** C13: a drop of the host lands in the log of the sandbox that sent it, or nowhere. Whatever the map of the tailer held before,
    an attribution writes one entry at most: into the log of a sandbox that the records name for the address or the port of the
    line, at an instant of the attribution or before it but no earlier than any at which every write had moved the generation,
    that had not failed and was not created after the line; with the text of a rule only where the policy of the sandbox has that
    rule under that id. *)
Theorem attribute_right now i1 j1 i2 j2 first second time d t t' r :
  tailer_ok now t → (now ≤ i1 ≤ j1)%nat → (j1 ≤ i2 ≤ j2)%nat → looks_at i1 j1 first.1 → looks_at i2 j2 second.1 →
  attribute gateway policies first second time d t = (t', r) →
  tailer_ok j2 t' ∧
  match r with Ok true => ∃ entry, written t' = written t ++ [entry] ∧ landed i1 j2 time d entry | _ => written t' = written t end.
Proof.
  intros Ht H1 H2 Hk1 Hk2. unfold attribute. destruct first as [k1 w1], second as [k2 w2]. intros Hgo.
  destruct (attribute_turn now i1 j1 _ _ _ _ _ _ _ _ Ht ltac:(lia) Hk1 Hgo) as [(t1 & Ht1 & Hw1 & Hgo1)|[Ht' Hr]].
  - destruct (attribute_turn j1 i2 j2 _ _ _ _ _ _ _ _ Ht1 ltac:(lia) Hk2 Hgo1) as [(t2 & Ht2 & Hw2 & Hgo2)|[Ht' Hr]].
    + cbn in Hgo2. injection Hgo2 as <- <-. cbn. split; [done|congruence].
    + split; [done|]. rewrite Hw1 in Hr. destruct r as [[]|]; [|done|done]. destruct Hr as (entry & Hw & sb & text & He & Hc & Htx & key & Hkey & Hn).
      exists entry. split; [done|]. exists sb, text. split_and!; try done. exists key. split; [done|]. intros s Hs Hset. apply Hn; [lia|done].
  - split; [apply (tailer_later j1); [lia|done]|]. destruct r as [[]|]; [|done|done]. destruct Hr as (entry & Hw & sb & text & He & Hc & Htx & key & Hkey & Hn).
    exists entry. split; [done|]. exists sb, text. split_and!; try done. exists key. split; [done|]. intros s Hs Hset.
    destruct (Hn s Hs Hset) as (u & sbs & Hu & Hrest). exists u, sbs. split; [lia|done].
Qed.

End Attribution.
End Fresh.

(** ** Where a run left the ring *)

Section Runs.
Context `{U : Unicode} (gateway : Z) (policies : gmap string policy_entry).

Definition seen_all (c : Z) (ls : list ring_line) : Prop := Forall (λ line, Sequence line <= c) ls.

(** The lines a cursor is past change nothing. *)
Lemma skip_seen c ls turns t p : pcursor p = Some c → seen_all c ls →
  follow_ring gateway policies ((Line <$> ls) ++ turns) t p = follow_ring gateway policies turns t p.
Proof.
  intros Hc. induction 1 as [|line ls Hl _ IH]; [done|]. cbn [fmap list_fmap app follow_ring]. unfold yields. rewrite Hc. by rewrite (proj2 (Z.leb_le _ _) Hl).
Qed.

(** The place of a run between two lines: past the lines so far, the cursor of the run and the one on disk are at a line, or
    where they began. *)
Record placed (file : option Z) (ls : list ring_line) (p : place_) : Prop := {
  pl_last : ∀ n, plast p = Some n → n ∈ Sequence <$> ls;
  pl_seen : ∀ line, line ∈ ls → (∃ c, pcursor p = Some c ∧ Sequence line ≤ c) ∨ (∃ n, plast p = Some n ∧ Sequence line ≤ n);
  pl_cursor : pcursor p = file ∨ ∃ c, pcursor p = Some c ∧ c ∈ Sequence <$> ls;
  pl_file : pfile p = pcursor p;
  pl_order : ∀ c n, pcursor p = Some c → plast p = Some n → c ≤ n
}.

Lemma yields_placed file ls line t p t' p' : Forall (λ l, Sequence l < Sequence line) ls → placed file ls p →
  yields gateway policies line t p = (t', p', Ok tt) → placed file (ls ++ [line]) p'.
Proof.
  intros Hlt [H1 H2 H3 H4 H5]. unfold yields. rewrite Forall_forall in Hlt.
  assert (∀ n, n ∈ Sequence <$> ls → n ∈ Sequence <$> ls ++ [line]) as Hmore by (intros n; rewrite fmap_app; set_solver).
  destruct (match pcursor p with Some c => Sequence line <=? c | None => false end) eqn:Eskip.
  - intros [= <- <-]. split; [auto| |naive_solver|done|done]. intros l [Hl|Hl%list_elem_of_singleton]%elem_of_app; [by apply H2|]. subst l.
    destruct (pcursor p) as [c|]; [|done]. left. exists c. split; [done|]. by apply Z.leb_le.
  - set (p1 := MkPlaceIn (pcursor p) (Some (Sequence line)) (pfile p)).
    assert (placed file (ls ++ [line]) p1) as Hp1.
    { split; cbn; [intros n [= <-]; rewrite fmap_app; set_solver| |naive_solver|done|]; [|intros c n Hc [= <-]; rewrite Hc in Eskip; apply Z.leb_gt in Eskip; lia]. intros l Hl. right. exists (Sequence line). split; [done|].
      apply elem_of_app in Hl as [Hl|Hl%list_elem_of_singleton]; [specialize (Hlt l Hl)|subst l]; lia. }
    destruct (hostDrop _) as [d|]; [|by intros [= <- <-]]. destruct (attribute _ _ _ _ _ _ _) as [t1 [[]|]]; [|by intros [= <- <-]|done].
    destruct (lcursor line); [|done]. intros [= <- <-]. split; cbn.
    + intros n [= <-]. rewrite fmap_app. set_solver.
    + intros l Hl. left. exists (Sequence line). split; [done|]. apply elem_of_app in Hl as [Hl|Hl%list_elem_of_singleton]; [specialize (Hlt l Hl)|subst l]; lia.
    + right. exists (Sequence line). split; [done|]. rewrite fmap_app. set_solver.
    + done.
    + intros c n [= <-] [= <-]. lia.
Qed.

Lemma follow_placed file ls : ∀ done_ t p t' p', StronglySorted (λ a b, Sequence a < Sequence b) (done_ ++ ls) → placed file done_ p →
  follow_ring gateway policies (Line <$> ls) t p = (t', p', Ok tt) → placed file (done_ ++ ls) p'.
Proof.
  induction ls as [|line ls IH]; intros done_ t p t' p' Hs Hp; cbn [fmap list_fmap follow_ring].
  - intros [= <- <-]. by rewrite (right_id_L [] (++)).
  - destruct (yields _ _ line t p) as [[t1 p1] [[]|]] eqn:Ey; [|done]. intros Hgo. rewrite cons_middle, app_assoc in *.
    eapply IH; [done| |exact Hgo]. eapply yields_placed; [|exact Hp|exact Ey]. apply Forall_forall. intros l Hl.
    apply StronglySorted_app in Hs as (_ & Hs & _). apply StronglySorted_app in Hs. naive_solver set_solver.
Qed.

Lemma follow_ring_app turns turns' t p :
  follow_ring gateway policies (turns ++ turns') t p =
  match follow_ring gateway policies turns t p with (t, p, Ok _) => follow_ring gateway policies turns' t p | (t, p, Err e) => (t, p, Err e) end.
Proof.
  revert t p. induction turns as [|e turns IH]; intros t p; [done|]. cbn [app follow_ring].
  by destruct (match e with Line _ => _ | CaughtUp _ => _ end) as [[t1 p1] [[]|]].
Qed.

(** A daemon that restarts takes up the ring where the one before it settled: once a run has caught up with the ring, another one
    from its cursor writes nothing for a line the first was given, and skips no line that comes after. *)
Theorem restart_resumes file ls t t1 p1 :
  StronglySorted (λ a b, Sequence a < Sequence b) ls → Run gateway policies file ((Line <$> ls) ++ [CaughtUp true]) t = (t1, p1, Ok tt) →
  (∀ more t2, Run gateway policies (pfile p1) ((Line <$> ls) ++ more) t2 = Run gateway policies (pfile p1) more t2) ∧
  (∀ n, (∀ line, line ∈ ls → Sequence line < n) → (∀ c, file = Some c → c < n) → ∀ c, pfile p1 = Some c → c < n).
Proof.
  intros Hs. unfold Run. rewrite follow_ring_app. destruct (follow_ring _ _ (Line <$> ls) _ _) as [[t0 p0] [[]|]] eqn:Ef; [|done].
  apply (follow_placed file ls []) in Ef as [H1 H2 H3 H4 H5]; [|done|].
  2: { split; cbn; [done|by intros ? ?%elem_of_nil|by left|done|done]. }
  cbn [app] in *. cbn [follow_ring]. intros Hgo.
  assert (match pfile p1 with Some c => seen_all c ls ∧ (file = Some c ∨ c ∈ Sequence <$> ls) | None => ls = [] end) as Hfile.
  { assert (∀ c, (∀ line, line ∈ ls → (∃ c, pcursor p0 = Some c ∧ Sequence line ≤ c) ∨ (∃ n, plast p0 = Some n ∧ Sequence line ≤ n)) →
      (∀ b, pcursor p0 = Some b → b ≤ c) → (∀ b, plast p0 = Some b → b ≤ c) → seen_all c ls) as Hseen.
    { intros c Hall Hb Hn. apply Forall_forall. intros l Hl. destruct (Hall l Hl) as [(b & Hb' & Hle)|(b & Hb' & Hle)]; [specialize (Hb b Hb')|specialize (Hn b Hb')]; lia. }
    unfold caughtUp in Hgo. destruct (plast p0) as [last|] eqn:El.
    - assert (last ∈ Sequence <$> ls) as Hin by (by apply H1).
      assert (seen_all last ls) as Hall.
      { apply Hseen; [exact H2|intros b Hb; by apply (H5 b last)|intros b [= <-]; lia]. }
      destruct (bool_decide_reflect (pcursor p0 = Some last)) as [E|E]; injection Hgo as <- <-; cbn; [rewrite H4, E|]; by split; [|right].
    - injection Hgo as <- <-. rewrite H4. destruct (pcursor p0) as [c|] eqn:Ec.
      + split; [apply Hseen; [exact H2|intros b [= <-]; lia|done]|]. destruct H3 as [<-|(b & [= <-] & Hb)]; [by left|by right].
      + destruct ls as [|l ls]; [done|]. destruct (H2 l) as [(? & ? & _)|(? & ? & _)]; [by left|done|done]. }
  split.
  - intros more t2. destruct (pfile p1) as [c|]; [apply (skip_seen c); [done|apply Hfile]|by rewrite Hfile].
  - intros n Hn Hc c Ep. rewrite Ep in Hfile. destruct Hfile as [_ [E|(l & -> & Hl)%list_elem_of_fmap]]; [by apply Hc|by apply Hn].
Qed.

End Runs.

(** ** What the chains log is what the tailer reads *)

Lemma ascii_space_len c s : is_ascii c = true → is_ascii_space c = true → space_len (String c s) = 1%nat.
Proof. intros Ha Hs. cbn [space_len]. by rewrite Hs. Qed.

Lemma space_only_ends s w : all_chars is_ascii s = true → all_chars plain_char w = true → w ≠ "" → space_only 0 (s +:+ w) = false.
Proof.
  intros Hs Hw Hne. induction s as [|c s IH]; cbn [all_chars] in Hs.
  - destruct w as [|c w]; [done|]. cbn [all_chars] in Hw. apply andb_true_iff in Hw as [Hc _]. rewrite app_nil_l. cbn [space_only]. by rewrite plain_space_len.
  - apply andb_true_iff in Hs as [Hc Hs]. rewrite app_cons. cbn [space_only]. destruct (is_ascii_space c) eqn:Ec.
    + rewrite ascii_space_len by done. by apply IH.
    + rewrite plain_space_len; [done|]. unfold plain_char. by rewrite Hc, Ec.
Qed.

Lemma trim_right_ends s w : all_chars is_ascii s = true → all_chars plain_char w = true → w ≠ "" → trim_right (s +:+ w) = s +:+ w.
Proof.
  intros Hs Hw Hne. induction s as [|c s IH].
  - rewrite app_nil_l. clear Hs. induction w as [|c w IH]; [done|]. cbn [all_chars] in Hw. apply andb_true_iff in Hw as [Hc Hw]. cbn [trim_right space_only].
    rewrite plain_space_len by done. f_equal. destruct w as [|d w]; [done|]. by apply IH.
  - pose proof (space_only_ends (String c s) w Hs Hw Hne) as Hf. cbn [all_chars] in Hs. apply andb_true_iff in Hs as [Hc Hs].
    rewrite app_cons in *. cbn [trim_right]. rewrite Hf. by rewrite IH.
Qed.

Definition word (w : string) : bool := all_chars plain_char w && negb (String.eqb w "").

Lemma word_ok w : word w = true → all_chars plain_char w = true ∧ w ≠ "" ∧ all_chars is_ascii w = true.
Proof.
  intros [Hw Hne]%andb_true_iff. split_and!; [done|by apply String.eqb_neq, negb_true_iff|]. eapply all_chars_impl; [|exact Hw].
  intros c Hc. unfold plain_char in Hc. by apply andb_true_iff in Hc as [].
Qed.

Lemma Fields_words w ws : Forall (λ w, word w = true) (w :: ws) → Fields (Join " " (w :: ws)) = w :: ws.
Proof.
  revert w. induction ws as [|v ws IH]; intros w; intros [(Hw & Hne & _)%word_ok Hws]%Forall_cons; [by apply Fields_one|].
  change (Join " " (w :: v :: ws)) with (w +:+ " " +:+ Join " " (v :: ws)). unfold Fields in *. rewrite fields_go_space by done. rewrite IH by done.
  unfold flush. cbn. by destruct w.
Qed.

Lemma Join_ends w ws : Forall (λ w, word w = true) (w :: ws) → ∃ s v, Join " " (w :: ws) = s +:+ v ∧ all_chars is_ascii s = true ∧ word v = true.
Proof.
  revert w. induction ws as [|v ws IH]; intros w; intros [Hw Hws]%Forall_cons; [by exists "", w|].
  destruct (IH v Hws) as (s & x & E & Hs & Hx). exists (w +:+ " " +:+ s), x. change (Join " " (w :: v :: ws)) with (w +:+ " " +:+ Join " " (v :: ws)).
  rewrite E, <- !app_assoc_s, !all_chars_app. apply word_ok in Hw as (_ & _ & Hw). split_and!; [done| |done]. by rewrite Hw, Hs.
Qed.

Lemma field_map_more ks : ∀ (m : gmap string string) key,
  foldl (λ m field, match Cut field "=" with (key, value, true) => <[key := value]> m | _ => m end) m ks !! key =
  match field_map ks !! key with Some v => Some v | None => m !! key end.
Proof.
  unfold field_map. induction ks as [|k ks IH] using rev_ind; intros m key; [done|]. rewrite !foldl_snoc.
  destruct (Cut k "=") as [[a b] []]; [|apply IH]. destruct (decide (a = key)) as [->|Hne]; [by rewrite !lookup_insert_eq|].
  rewrite !lookup_insert_ne by done. apply IH.
Qed.

Section Logged.
Context `{U : Unicode}.

(** The kernel puts its own words after the prefix a rule logs with. *)
Definition logged (fields : string) (kernel : list string) : string := LogPrefix +:+ " " +:+ fields +:+ " " +:+ Join " " kernel.

(** A line a rule of a policy logged is read back: the id of the rule, its sum, and what the kernel says of the packet. *)
Theorem hostDrop_logged id sum k kernel : all_chars plain_char id = true → all_chars plain_char sum = true → Forall (λ w, word w = true) (k :: kernel) →
  field_map (k :: kernel) !! "rule" = None → field_map (k :: kernel) !! "sum" = None →
  ∃ d, hostDrop (logged ("rule=" +:+ id +:+ " sum=" +:+ sum) (k :: kernel)) = Some d ∧ LRule (DRecord d) = id ∧ DSum d = sum ∧
    DSource d = field (field_map (k :: kernel)) "SRC" ∧ DIface d = field (field_map (k :: kernel)) "IN" ∧ LAddress (DRecord d) = field (field_map (k :: kernel)) "DST".
Proof.
  intros Hid Hsum Hk Hr Hs. assert (Forall (λ w, word w = true) (("rule=" +:+ id) :: ("sum=" +:+ sum) :: k :: kernel)) as Hws.
  { assert (∀ p w, word p = true → all_chars plain_char w = true → word (p +:+ w) = true) as Hcat.
    { intros p w [Hp Hne]%andb_true_iff Hw. unfold word. rewrite all_chars_app, Hp, Hw. by destruct p. }
    constructor; [by apply Hcat|]. constructor; [by apply Hcat|done]. }
  assert (logged ("rule=" +:+ id +:+ " sum=" +:+ sum) (k :: kernel) = (LogPrefix +:+ " ") +:+ Join " " (("rule=" +:+ id) :: ("sum=" +:+ sum) :: k :: kernel)) as ->.
  { unfold logged. change (Join " " (?a :: ?b :: k :: kernel)) with (a +:+ " " +:+ b +:+ " " +:+ Join " " (k :: kernel)). rewrite <- !app_assoc_s. reflexivity. }
  destruct (Join_ends _ _ Hws) as (s & v & E & Has & (Hv & Hvn & _)%word_ok). unfold hostDrop.
  assert (TrimSpace ((LogPrefix +:+ " ") +:+ Join " " (("rule=" +:+ id) :: ("sum=" +:+ sum) :: k :: kernel)) =
          (LogPrefix +:+ " ") +:+ Join " " (("rule=" +:+ id) :: ("sum=" +:+ sum) :: k :: kernel)) as ->.
  { unfold TrimSpace. change (trim_left 0 ((LogPrefix +:+ " ") +:+ ?x)) with ((LogPrefix +:+ " ") +:+ x). rewrite E, app_assoc_s. apply trim_right_ends; [|done|done].
    by rewrite all_chars_app, Has. }
  rewrite CutPrefix_app. cbn [mbind option_bind]. rewrite Fields_words by done.
  set (m := field_map _). assert (∀ key, m !! key = match field_map (k :: kernel) !! key with Some v => Some v | None => (<["sum" := sum]> (<["rule" := id]> ∅) : gmap string string) !! key end) as Hm.
  { intros key. rewrite <- field_map_more. unfold m, field_map. cbn [foldl].
    rewrite (Cut_at "=" "rule" id eq_refl : Cut ("rule=" +:+ id) "=" = _), (Cut_at "=" "sum" sum eq_refl : Cut ("sum=" +:+ sum) "=" = _). done. }
  assert (∀ key, key ≠ "rule" → key ≠ "sum" → field m key = field (field_map (k :: kernel)) key) as Hf.
  { intros key H1 H2. unfold field. rewrite Hm. destruct (field_map (k :: kernel) !! key); [done|]. by rewrite !lookup_insert_ne by done. }
  rewrite Hm, Hr, lookup_insert_ne, lookup_insert_eq by done. cbn [mbind option_bind]. eexists. split; [reflexivity|]. cbn [DRecord DSum DSource DIface LRule LAddress].
  split_and!; [done| |by apply Hf..]. unfold field. by rewrite Hm, Hs, lookup_insert_eq.
Qed.

End Logged.

(** ** A drop of a sandbox *)

#[local] Instance still : RecordsHistory.
Proof. refine {| generation := λ _, 1; listing := λ _, Some [guarded_sandbox]; settled := λ _, True |}; done. Defined.

Definition ring_text : string := logged "rule=2" ["IN=shard0"; "OUT=eth0"; "SRC=10.87.0.2"; "DST=8.8.8.8"; "PROTO=TCP"; "DPT=25"].
Definition ring_drop : drop_ :=
  MkDrop (MkLogRecord 0 SourceHost ActionDeny "" 25 "8.8.8.8" "2" "" "the host chains dropped a tcp packet") "10.87.0.2" "shard0" "".

Example ring_text_read : hostDrop (U := ascii_only) ring_text = Some ring_drop.
Proof. vm_compute. reflexivity. Qed.

Definition still_look : look := MkLook 1 5 1 (Some [guarded_sandbox]).

(** The first write finds no directory, and the second lands. *)
Lemma attribute_right_witness :
  ∃ t' entry, attribute (U := ascii_only) web_gateway web_dir (still_look, NoDir) (still_look, Wrote) 7 ring_drop NewTailer = (t', Ok true) ∧
    written t' = [entry] ∧ landed (U := ascii_only) web_gateway web_dir 1 4 7 ring_drop entry.
Proof.
  destruct (attribute (U := ascii_only) web_gateway web_dir (still_look, NoDir) (still_look, Wrote) 7 ring_drop NewTailer) as [t' r] eqn:E.
  assert (r = Ok true) as -> by (vm_compute in E; congruence).
  destruct (attribute_right (U := ascii_only) web_gateway web_dir 0 1 2 3 4 (still_look, NoDir) (still_look, Wrote) 7 ring_drop NewTailer t' (Ok true)) as [_ (entry & Hw & Hl)].
  - by left.
  - lia.
  - lia.
  - split; [done|]. split; [done|]. exists 1%nat. split; [lia|done].
  - split; [done|]. split; [done|]. exists 3%nat. split; [lia|done].
  - exact E.
  - exists t', entry. split; [done|]. split; [exact Hw|exact Hl].
Defined.
