(* ===== verification/Proxy.v ===== *)
(** * The proxy of the fronted sandboxes

    [pkg/proxy/server.go] and [conns.go]: the requests of the guests, from what names one to the connection to its upstream. The
    proxy knows no policy and no secret: a director judges each request, says where it is dialed, and rewrites it. Requests of
    any number of guests are served at once; each is a phase in a table, and an event moves one of them by one step: a call of
    the director, one read of a body it holds, a dial, an answer. The rewrite of one request reserves its bytes in one step. *)

From S2P Require Import Prelude GoStrings Netip Models Secret Http Network EgressPolicy EgressDecide EgressCompile Replacer Records Broker PreAuth.
Local Open Scope Z_scope.

Definition BodyCap : Z := Z.shiftl 8 20.
Definition heldChunk : Z := Z.shiftl 32 10.
Definition MaxSourceConns : Z := 1024.
Definition MaxSourceRequests : Z := MaxSourceConns.
Definition maxHostLen : Z := 253.
Definition guestH2Conns : Z := 32.
Definition guestH2Streams : Z := MaxSourceConns / guestH2Conns.
Definition heldBudget : Z := Z.shiftl 32 20.

(** ** What names a request *)

(** [net.SplitHostPort], less the port. *)
Definition SplitHostPort (hostport : string) : option string :=
  '(before, _) ← cut_last ":" hostport;
  if HasPrefix hostport "[" then
    let '(inside, rest, closed) := Cut hostport "]" in
    if closed && HasPrefix rest ":" && negb (contains_char ":" (drop_s 1 rest))
       && negb (contains_char "[" (drop_s 1 hostport)) && negb (contains_char "]" rest)
    then Some (drop_s 1 inside) else None
  else if contains_char ":" before || contains_char "[" hostport || contains_char "]" hostport then None
  else Some before.

Definition hostOnly (hostport : string) : string := default hostport (SplitHostPort hostport).

(** A request as [net/http] reads it. [ServerName] is the name of the TLS handshake, [None] on the plain port; [Body] is [None]
    when there is none; [ContentLength] is -1 when the request names no length. *)
Record guest_request : Type := MkGuest {
  RemoteAddr : string;
  GHost : string;
  ServerName : option string;
  GHeader : Header;
  ContentLength : Z;
  Body : option string
}.

Inductive bad_request : Type := BadSource | NoHost | LongHost | OtherName (host : string).

Section Request.
Context `{U : Unicode}.

Definition canonicalHost (host : string) : string := TrimSuffix (ToLower host) ".".

Definition request (r : guest_request) (secure : bool) : result bad_request Request :=
  match ParseAddrPort (RemoteAddr r) with
  | None => Err BadSource
  | Some source =>
      let host := canonicalHost (hostOnly (GHost r)) in
      if String.eqb host "" then Err NoHost
      else if maxHostLen <? len host then Err LongHost
      else if negb secure then Ok (MkRequest (Unmap source) host 80 secure)
      else match ServerName r with
           | Some name => if String.eqb (canonicalHost name) host then Ok (MkRequest (Unmap source) host 443 secure) else Err (OtherName host)
           | None => Err (OtherName host)
           end
  end.

(** [GetCertificate]: the name a leaf is minted for. *)
Definition leaf_name (serverName : string) : option string :=
  if String.eqb serverName "" then None
  else if maxHostLen <? len serverName then None
  else Some (canonicalHost serverName).

End Request.

(** ** What a source holds *)

Record conns : Type := MkConns { climit : Z; copen : gmap Addr Z }.

Definition open_by (c : conns) (source : Addr) : Z := default 0 (copen c !! source).

Definition take_share (source : Addr) (c : conns) : option conns :=
  if climit c <=? open_by c source then None
  else Some (MkConns (climit c) (<[source := open_by c source + 1]> (copen c))).

Definition release (source : Addr) (c : conns) : conns :=
  let n := open_by c source - 1 in
  MkConns (climit c) (if n =? 0 then delete source (copen c) else <[source := n]> (copen c)).

Record budget : Type := MkBudget { blimit : Z; by_source : gmap Addr Z }.

Definition charged_to (b : budget) (source : Addr) : Z := default 0 (by_source b !! source).

Definition reserve (source : Addr) (b : budget) (n : Z) : option budget :=
  if blimit b <? charged_to b source + n then None
  else Some (MkBudget (blimit b) (<[source := charged_to b source + n]> (by_source b))).

Definition give (source : Addr) (n : Z) (b : budget) : budget :=
  let more := charged_to b source - n in
  MkBudget (blimit b) (if more <=? 0 then delete source (by_source b) else <[source := more]> (by_source b)).

(** ** Reading a body the director may change *)

(** A slice: what it holds and its capacity, which is 0 for the nil one alone. *)
Record buffer : Type := MkBuffer { bdata : string; bcap : Z }.

Definition no_buffer : buffer := MkBuffer "" 0.

(** [limit] and [first] of [read]. *)
Definition read_limit (length : Z) : Z * Z := if 0 <=? length then (length, length) else (BodyCap + 1, heldChunk).

Definition room (source : Addr) (limit first : Z) (buf : buffer) (b : budget) : option (budget * buffer) :=
  if len (bdata buf) <? bcap buf then Some (b, buf)
  else
    let size := Z.min (Z.max (2 * bcap buf) first) limit in
    match reserve source b (size - bcap buf) with
    | None => None
    | Some b => Some (b, MkBuffer (bdata buf) size)
    end.

(** How one read of the body ended. *)
Inductive read_end : Type := ReadOk | ReadEOF | ReadStalled | ReadFailed.

(** What a loop of [read] leaves: more to do, the buffer in full, or an error. *)
Inductive read_step : Type :=
| ReadMore (b : budget) (buf : buffer) (more : string)
| ReadDone (b : budget) (buf : buffer) (more : string)
| ReadError (b : budget) (charged : Z) (status : Z).

(** The statuses of [net/http] the proxy answers with. *)
Definition StatusBadRequest : Z := 400.
Definition StatusForbidden : Z := 403.
Definition StatusRequestTimeout : Z := 408.
Definition StatusBadGateway : Z := 502.
Definition StatusServiceUnavailable : Z := 503.

(** [statusOf], on the two errors it tells apart. *)
Definition statusOf (stalled overBudget : bool) : Z :=
  if stalled then StatusRequestTimeout else if overBudget then StatusServiceUnavailable else StatusBadGateway.

(** One turn of the loop of [read]: [n] bytes come, as far as there is room, and the end of the body only once all of it came. *)
Definition read (source : Addr) (length : Z) (n : nat) (ended : read_end) (b : budget) (buf : buffer) (more : string) : read_step :=
  let '(limit, first) := read_limit length in
  if limit <=? len (bdata buf) then ReadDone b buf more
  else match room source limit first buf b with
       | None => ReadError b (bcap buf) (statusOf false true)
       | Some (b, buf) =>
           let n := Nat.min n (Z.to_nat (bcap buf - len (bdata buf))) in
           let buf := MkBuffer (bdata buf +:+ take_s n more) (bcap buf) in
           let more := drop_s n more in
           match ended with
           | ReadStalled => ReadError b (bcap buf) (statusOf true false)
           | ReadFailed => ReadError b (bcap buf) (statusOf false false)
           | ReadEOF => if String.eqb more "" then ReadDone b buf more
                        else if limit <=? len (bdata buf) then ReadDone b buf more else ReadMore b buf more
           | ReadOk => if limit <=? len (bdata buf) then ReadDone b buf more else ReadMore b buf more
           end
       end.

(** ** The director *)

(** [Director]: what each call answers may depend on what the world answers it, [W], and moves its own state, [D]. The bool of a
    decision is [Hold]; a rewrite reserves bytes through the function it is handed, on whatever state that has. *)
Class Director (D W E : Type) : Type := {
  Decide_ : W → D → Request → D * result E (ProxyDecision * bool);
  Rewrite_ : ∀ R, (R → Z → option R) → W → D → Request → R → Header → option string → D * result E (R * Header * option string);
  Untrusted_ : W → D → Request → option (Addr * Z) → string → D * result E unit;
  over_budget : E → bool
}.

(** A rewrite reserves no less than nothing, and answers the state its reserves more. *)
Class DirectorLaws {D W E} (H : Director D W E) : Prop :=
  rewrite_reserves : ∀ R (res : R → Z → option R) (P : R → Prop) w d req b h body d' b' h' body',
    (∀ b n b', 0 ≤ n → P b → res b n = Some b' → P b') → P b →
    Rewrite_ R res w d req b h body = (d', Ok (b', h', body')) → P b'.

(** ** Requests in flight *)

(** The body that goes out: the guest's own as it comes, what was held with the rest of it, or the one the director answered. *)
Inductive out_body : Type := Streams (more : string) | Joined (held more : string) | Whole (body : string).

(** [out]: [URL.Host] and the scheme are the judged ones, [out.Host] the guest's own; [pinned] is the upstream in its context. *)
Record outbound : Type := MkOutbound {
  pinned : option (Addr * Z);
  https : bool;
  URLHost : string;
  OHost : string;
  OHeader : Header;
  OBody : out_body;
  OLength : Z
}.

(** Where a request is in [handle]: with the director, in the loop of [read], with its body in hand, or sent on. *)
Inductive phase : Type :=
| Judging
| Reading (d : ProxyDecision) (buf : buffer) (more : string)
| Rewriting (d : ProxyDecision) (held rest : option string) (more : string) (charged : Z)
| Forwarding (out : outbound) (charged : Z).

(** What the guest is answered. *)
Inductive reply : Type :=
| Refused (e : bad_request)
| Full
| Undecided (host : string) (why : option string)
| Denied (host : string) (port : string) (rule reason : string)
| Failed (status : Z)
| NotSent (untrusted : option (string * string))
| Passed (status : Z).

Definition code (r : reply) : Z :=
  match r with
  | Refused _ => StatusBadRequest
  | Full => StatusServiceUnavailable
  | Undecided _ _ => StatusBadGateway
  | Denied _ _ _ _ => StatusForbidden
  | Failed status => status
  | NotSent _ => StatusBadGateway
  | Passed status => status
  end.

(** [undecided]: [lookup] is whether the error is one of a lookup, and of a name that is not there. *)
Definition undecided (host : string) (lookup : option bool) : reply :=
  Undecided host ((λ notFound : bool, if notFound then "no such host" else "the lookup failed") <$> lookup).

Definition deny (req : Request) (d : ProxyDecision) : reply := Denied (Host req) (Itoa (Port req)) (PRule d) (PReason d).

(** What [errors.As] finds in the error of a request that was not sent; [invalid] is whether the reason is [x509.Expired]. *)
Record send_error : Type := MkSendError { verify : bool; authority : bool; hostname : bool; invalid : option bool }.

Definition untrusted (e : send_error) : string :=
  if negb (verify e) then ""
  else if authority e then "the upstream's certificate is signed by an authority the host does not trust"
  else if hostname e then "the upstream's certificate does not name the host"
  else match invalid e with
       | Some true => "the upstream's certificate has expired or is not valid yet"
       | _ => "the upstream's certificate failed the check"
       end.

Record flight : Type := MkFlight { guest : guest_request; asked : Request; at_ : phase }.

Definition charge (f : flight) : Z :=
  match at_ f with Judging => 0 | Reading _ buf _ => bcap buf | Rewriting _ _ _ _ n => n | Forwarding _ n => n end.

Definition move (f : flight) (p : phase) : flight := MkFlight (guest f) (asked f) p.

Section Server.
Context {D W E : Type} {H : Director D W E} `{U : Unicode}.

(** [Server]: the two counts, the requests in flight, the director, and what was dialed and answered. *)
Record server : Type := MkServer {
  held_ : budget;
  requests : conns;
  flights : gmap nat flight;
  director : D;
  dialed : list (flight * outbound);
  answered : list (nat * reply)
}.

Definition New_ (d : D) : server := MkServer (MkBudget heldBudget ∅) (MkConns MaxSourceRequests ∅) ∅ d [] [].

Definition set_held (b : budget) (s : server) : server := MkServer b (requests s) (flights s) (director s) (dialed s) (answered s).
Definition set_director (d : D) (s : server) : server := MkServer (held_ s) (requests s) (flights s) d (dialed s) (answered s).
Definition fly (id : nat) (f : flight) (s : server) : server :=
  MkServer (held_ s) (requests s) (<[id := f]> (flights s)) (director s) (dialed s) (answered s).
Definition say (id : nat) (r : reply) (s : server) : server :=
  MkServer (held_ s) (requests s) (flights s) (director s) (dialed s) (answered s ++ [(id, r)]).

(** What a request was charged is given back. *)
Definition pays (f : flight) (charged : Z) (s : server) : server := set_held (give (Source (asked f)) charged (held_ s)) s.

(** A request ends: it is answered, and its share released. *)
Definition ends (id : nat) (f : flight) (r : reply) (s : server) : server :=
  MkServer (held_ s) (release (Source (asked f)) (requests s)) (delete id (flights s)) (director s) (dialed s) (answered s ++ [(id, r)]).

(** The request comes in: [handle], up to the decision. *)
Definition comes (id : nat) (r : guest_request) (secure : bool) (s : server) : server :=
  match request r secure with
  | Err e => say id (Refused e) s
  | Ok req =>
      match take_share (Source req) (requests s) with
      | None => say id Full s
      | Some c => MkServer (held_ s) c (<[id := MkFlight r req Judging]> (flights s)) (director s) (dialed s) (answered s)
      end
  end.

(** [Decide], and [hold] up to its loop; [deadline] is whether the deadline of the body could be set. *)
Definition decides (id : nat) (w : W) (lookup : option bool) (deadline : bool) (f : flight) (s : server) : server :=
  let '(d, decided) := Decide_ w (director s) (asked f) in
  let s := set_director d s in
  match decided with
  | Err _ => ends id f (undecided (Host (asked f)) lookup) s
  | Ok (d, hold) =>
      if negb (Allowed d) then ends id f (deny (asked f) d) s
      else
        let body := default "" (Body (guest f)) in
        if negb hold || bool_decide (Body (guest f) = None) || (BodyCap <? ContentLength (guest f))
        then fly id (move f (Rewriting d None None body 0)) s
        else if negb deadline then ends id f (Failed (statusOf false false)) s
        else fly id (move f (Reading d no_buffer body)) s
  end.

(** One read of the body, and what [hold] answers after the last; [clears] is whether the deadline could be cleared. *)
Definition reads (id : nat) (n : nat) (ended : read_end) (clears : bool) (f : flight) (d : ProxyDecision) (buf : buffer) (more : string) (s : server) : server :=
  match read (Source (asked f)) (ContentLength (guest f)) n ended (held_ s) buf more with
  | ReadMore b buf more => fly id (move f (Reading d buf more)) (set_held b s)
  | ReadError b charged status => ends id f (Failed status) (pays f charged (set_held b s))
  | ReadDone b buf more =>
      let s := set_held b s in
      if negb clears then ends id f (Failed (statusOf false false)) (pays f (bcap buf) s)
      else if len (bdata buf) <=? BodyCap
      then fly id (move f (Rewriting d (if bcap buf =? 0 then None else Some (bdata buf)) None more (bcap buf))) s
      else fly id (move f (Rewriting d None (Some (bdata buf)) more (bcap buf))) s
  end.

(** The rest of [outbound]: the request that goes out is built and rewritten. A rewrite that is refused gives back, with what its
    body was charged, all that it had reserved. *)
Definition rewrites (id : nat) (w : W) (f : flight) (d : ProxyDecision) (held rest : option string) (more : string) (charged : Z) (s : server) : server :=
  let source := Source (asked f) in
  let spend (b : budget * Z) (n : Z) := (λ b', (b', b.2 + n)) <$> reserve source b.1 n in
  let '(dst, rewritten) := Rewrite_ (budget * Z) spend w (director s) (asked f) (held_ s, charged) (GHeader (guest f)) held in
  let s := set_director dst s in
  match rewritten with
  | Err e => ends id f (Failed (statusOf false (over_budget e))) (pays f charged s)
  | Ok (b, charged, h, body) =>
      let out := MkOutbound (Upstream d) (TLS (asked f)) (Host (asked f)) (GHost (guest f)) h in
      let sent :=
        match rest, held with
        | Some joined, _ => out (Joined joined more) (ContentLength (guest f))
        | None, None => out (Streams more) (ContentLength (guest f))
        | None, Some _ =>
            let body := default "" body in
            MkOutbound (Upstream d) (TLS (asked f)) (Host (asked f)) (GHost (guest f)) (Header_Set h "Content-Length" (Itoa (len body))) (Whole body) (len body)
        end in
      fly id (move f (Forwarding sent charged)) (set_held b s)
  end.

(** What the transport answers: the status of the upstream, or an error. *)
Inductive sent : Type := Responded (status : Z) | SendError (e : send_error).

(** The [ErrorHandler] of [forward], and the end of [handle]. *)
Definition forwarded (id : nat) (w : W) (answer : sent) (f : flight) (out : outbound) (charged : Z) (s : server) : server :=
  match answer with
  | Responded status => ends id f (Passed status) (pays f charged s)
  | SendError e =>
      let reason := untrusted e in
      if String.eqb reason "" then ends id f (NotSent None) (pays f charged s)
      else ends id f (NotSent (Some (Host (asked f), reason)))
             (pays f charged (set_director (Untrusted_ w (director s) (asked f) (pinned out) reason).1 s))
  end.

Inductive event : Type :=
| Comes (id : nat) (r : guest_request) (secure : bool)
| Decides (id : nat) (w : W) (lookup : option bool) (deadline : bool)
| Reads (id : nat) (n : nat) (ended : read_end) (clears : bool)
| Rewrites (id : nat) (w : W)
| Dials (id : nat)
| Forwarded (id : nat) (w : W) (answer : sent).

(** One step; the transport may dial more than once, and always the upstream pinned in the context. *)
Definition happens (e : event) (s : server) : server :=
  match e with
  | Comes id r secure => match flights s !! id with Some _ => s | None => comes id r secure s end
  | Decides id w lookup deadline =>
      match flights s !! id with Some f => match at_ f with Judging => decides id w lookup deadline f s | _ => s end | None => s end
  | Reads id n ended clears =>
      match flights s !! id with Some f => match at_ f with Reading d buf more => reads id n ended clears f d buf more s | _ => s end | None => s end
  | Rewrites id w =>
      match flights s !! id with
      | Some f => match at_ f with Rewriting d held rest more charged => rewrites id w f d held rest more charged s | _ => s end
      | None => s
      end
  | Dials id =>
      match flights s !! id with
      | Some f =>
          match at_ f with
          | Forwarding out _ => MkServer (held_ s) (requests s) (flights s) (director s) (dialed s ++ [(f, out)]) (answered s)
          | _ => s
          end
      | None => s
      end
  | Forwarded id w answer =>
      match flights s !! id with Some f => match at_ f with Forwarding out charged => forwarded id w answer f out charged s | _ => s end | None => s end
  end.

Definition after (d : D) (es : list event) : server := foldl (λ s e, happens e s) (New_ d) es.

End Server.
Arguments server : clear implicits.
Arguments event : clear implicits.
