(* ===== verification/ProxyGuard.v ===== *)
(** * What the proxy keeps

    The theorems of [Proxy]: what is charged to a source is what its requests hold; and against the promise of a director,
    [Promise], which the broker keeps, whatever is dialed was judged. *)

From S2P Require Import Prelude GoStrings Netip Models Secret Http Network EgressPolicy EgressDecide EgressCompile Replacer Records Broker PreAuth Proxy.
Local Open Scope Z_scope.

(** ** What the sources hold is what their requests hold *)

(** The sum over the requests of a source. *)
Definition sum (w : flight → Z) (source : Addr) : gmap nat flight → Z :=
  map_sum (λ f, if bool_decide (Source (asked f) = source) then w f else 0).

Lemma sum_insert w source id f m : m !! id = None →
  sum w source (<[id := f]> m) = (if bool_decide (Source (asked f) = source) then w f else 0) + sum w source m.
Proof. apply map_sum_insert. Qed.

Lemma sum_delete w source id f m : m !! id = Some f →
  sum w source m = (if bool_decide (Source (asked f) = source) then w f else 0) + sum w source (delete id m).
Proof. apply map_sum_delete. Qed.

Lemma sum_move w source id f f' m : m !! id = Some f → asked f' = asked f →
  sum w source (<[id := f']> m) = sum w source m + (if bool_decide (Source (asked f) = source) then w f' - w f else 0).
Proof. intros Hm Ha. unfold sum. rewrite (map_sum_move _ id f) by done. rewrite Ha. destruct (bool_decide _); lia. Qed.

Lemma sum_nonneg w source m : (∀ id f, m !! id = Some f → 0 ≤ w f) → 0 ≤ sum w source m.
Proof. intros Hw. apply map_sum_nonneg. intros id f Hf. specialize (Hw id f Hf). destruct (bool_decide _); lia. Qed.

Lemma sum_none w source m : (∀ id f, m !! id = Some f → Source (asked f) = source → w f = 0) → sum w source m = 0.
Proof. intros Hw. apply map_sum_none. intros id f Hf. destruct (bool_decide_reflect (Source (asked f) = source)); [by eapply Hw|done]. Qed.

Definition one (_ : flight) : Z := 1.

(** The counts are those of the requests in flight, within their bounds; what is left of a source that has none is nothing. *)
Record counted (b : budget) (c : conns) (m : gmap nat flight) : Prop := {
  cd_blimit : blimit b = heldBudget;
  cd_climit : climit c = MaxSourceRequests;
  cd_charged : ∀ source, charged_to b source = sum charge source m;
  cd_budget : ∀ source, charged_to b source ≤ heldBudget;
  cd_open : ∀ source, open_by c source = sum one source m;
  cd_cap : ∀ source, open_by c source ≤ MaxSourceRequests;
  cd_positive : ∀ id f, m !! id = Some f → 0 ≤ charge f;
  cd_zero : ∀ source, by_source b !! source = Some 0 → ∃ id f out n, m !! id = Some f ∧ Source (asked f) = source ∧ at_ f = Forwarding out n;
  cd_released : ∀ source, copen c !! source ≠ Some 0
}.

(** [n] bytes more are charged to a source, within the bound. *)
Record grows (source : Addr) (n : Z) (b b' : budget) : Prop := {
  gr_limit : blimit b' = blimit b;
  gr_charged : ∀ s, charged_to b' s = charged_to b s + (if bool_decide (source = s) then n else 0);
  gr_bound : charged_to b source ≤ blimit b → charged_to b' source ≤ blimit b;
  gr_more : 0 ≤ n;
  gr_zero : ∀ s, by_source b' !! s = Some 0 → by_source b !! s = Some 0 ∨ s = source
}.

Lemma grows_none source b : grows source 0 b b.
Proof. split; try done; [|tauto]. intros s. destruct (bool_decide _); lia. Qed.

Lemma grows_reserve source n m b b' b'' : grows source n b b' → 0 ≤ m → reserve source b' m = Some b'' → grows source (n + m) b b''.
Proof.
  intros [H1 H2 H3 H4 H5] Hm. unfold reserve. destruct (Z.ltb_spec (blimit b') (charged_to b' source + m)) as [|Hl]; [done|]. intros [= <-].
  split; simpl; [done| | |lia|].
  - intros s. unfold charged_to at 1. simpl. destruct (bool_decide_reflect (source = s)) as [<-|Hne].
    + rewrite lookup_insert_eq. simpl. rewrite H2, bool_decide_eq_true_2 by done. lia.
    + rewrite lookup_insert_ne by done. fold (charged_to b' s). rewrite H2, bool_decide_eq_false_2 by done. done.
  - intros _. unfold charged_to at 1. simpl. rewrite lookup_insert_eq. simpl. lia.
  - intros s. destruct (decide (s = source)) as [->|Hne]; [by right|]. rewrite lookup_insert_ne by done. apply H5.
Qed.

Lemma give_charged source n b s : n ≤ charged_to b source →
  charged_to (give source n b) s = charged_to b s - (if bool_decide (source = s) then n else 0).
Proof.
  intros Hn. unfold give. set (m := charged_to b source - n). unfold charged_to at 1. simpl.
  destruct (bool_decide_reflect (source = s)) as [<-|Hne].
  - fold m. destruct (Z.leb_spec m 0) as [Hm|Hm]; [rewrite lookup_delete_eq|rewrite lookup_insert_eq]; simpl; lia.
  - rewrite Z.sub_0_r. destruct (m <=? 0); [rewrite lookup_delete_ne by done|rewrite lookup_insert_ne by done]; done.
Qed.

Lemma give_zero source n b s : by_source (give source n b) !! s = Some 0 → by_source b !! s = Some 0 ∧ s ≠ source.
Proof.
  unfold give. set (m := charged_to b source - n). simpl. destruct (decide (s = source)) as [->|Hne].
  - destruct (Z.leb_spec m 0) as [Hm|Hm]; [by rewrite lookup_delete_eq|]. rewrite lookup_insert_eq. intros [= Hz]. lia.
  - destruct (m <=? 0); [rewrite lookup_delete_ne by done|rewrite lookup_insert_ne by done]; done.
Qed.

Lemma take_open source c c' s : take_share source c = Some c' →
  climit c' = climit c ∧ open_by c' s = open_by c s + (if bool_decide (source = s) then 1 else 0) ∧ open_by c source < climit c.
Proof.
  unfold take_share. destruct (Z.leb_spec (climit c) (open_by c source)); [done|]. intros [= <-]. simpl. split_and!; [done| |done].
  unfold open_by at 1. simpl. destruct (bool_decide_reflect (source = s)) as [<-|Hne]; [by rewrite lookup_insert_eq|].
  rewrite lookup_insert_ne by done. fold (open_by c s). lia.
Qed.

Lemma release_open source c s :
  open_by (release source c) s = open_by c s - (if bool_decide (source = s) then 1 else 0).
Proof.
  unfold release. set (m := open_by c source - 1). unfold open_by at 1. simpl. destruct (bool_decide_reflect (source = s)) as [<-|Hne].
  - fold m. destruct (Z.eqb_spec m 0) as [Hm|Hm]; [rewrite lookup_delete_eq|rewrite lookup_insert_eq]; simpl; lia.
  - rewrite Z.sub_0_r. destruct (m =? 0); [rewrite lookup_delete_ne by done|rewrite lookup_insert_ne by done]; done.
Qed.

Lemma release_zero source c s : (∀ t, copen c !! t ≠ Some 0) → copen (release source c) !! s ≠ Some 0.
Proof.
  intros Hc. unfold release. set (m := open_by c source - 1). simpl. destruct (Z.eqb_spec m 0) as [Hm|Hm].
  - destruct (decide (s = source)) as [->|]; [by rewrite lookup_delete_eq|by rewrite lookup_delete_ne].
  - destruct (decide (s = source)) as [->|]; [rewrite lookup_insert_eq; congruence|by rewrite lookup_insert_ne].
Qed.

Section Counted.
Context {b : budget} {c : conns} {m : gmap nat flight} (Hc : counted b c m).

Lemma charged_nonneg source : 0 ≤ charged_to b source.
Proof. rewrite (cd_charged _ _ _ Hc). apply sum_nonneg. apply (cd_positive _ _ _ Hc). Qed.

Lemma charge_le id f : m !! id = Some f → charge f ≤ charged_to b (Source (asked f)).
Proof.
  intros Hm. rewrite (cd_charged _ _ _ Hc), (sum_delete _ _ _ _ _ Hm), bool_decide_eq_true_2 by done.
  assert (0 ≤ sum charge (Source (asked f)) (delete id m)); [|lia].
  apply sum_nonneg. intros j g [_ Hj]%lookup_delete_Some. by apply (cd_positive _ _ _ Hc j).
Qed.

(** A request takes its next step, and may be charged for it; only a request that goes out may be charged nothing. *)
Lemma counted_move id f p n b' : m !! id = Some f → grows (Source (asked f)) n b b' → charge (move f p) = charge f + n →
  (match at_ f with Forwarding _ _ => False | _ => True end) →
  (match p with Forwarding _ _ => True | _ => by_source b' !! Source (asked f) = Some 0 → by_source b !! Source (asked f) = Some 0 end) →
  counted b' c (<[id := move f p]> m).
Proof.
  intros Hm [H1 H2 H3 H4 H5] Hn Hf Hz. pose proof Hc as [C1 C2 C3 C4 C5 C6 C7 C8 C9]. split; try done.
  - by rewrite H1.
  - intros s. rewrite H2, C3, (sum_move _ _ _ f) by done. rewrite Hn. destruct (bool_decide _); lia.
  - intros s. destruct (decide (s = Source (asked f))) as [->|Hne].
    + rewrite <- C1. apply H3. rewrite C1. apply C4.
    + rewrite H2, bool_decide_eq_false_2 by done. specialize (C4 s). lia.
  - intros s. rewrite C5, (sum_move _ _ _ f) by done. unfold one. destruct (bool_decide _); lia.
  - intros j g. destruct (decide (j = id)) as [->|Hne].
    + rewrite lookup_insert_eq. intros [= <-]. rewrite Hn. specialize (C7 id f Hm). lia.
    + rewrite lookup_insert_ne by done. apply C7.
  - intros s Hs. assert ((s = Source (asked f) ∧ ∃ out n, p = Forwarding out n) ∨ by_source b !! s = Some 0) as [(-> & out & k & ->) | Hs'].
    { destruct (H5 s Hs) as [? | ->]; [by right|]. destruct p; [by right; apply Hz..|]. left. eauto. }
    + exists id, (move f (Forwarding out k)), out, k. by rewrite lookup_insert_eq.
    + destruct (C8 s Hs') as (j & g & out & k & Hj & Hs2 & Hat). exists j, g, out, k. split; [|done].
      rewrite lookup_insert_ne; [done|]. intros <-. rewrite Hm in Hj. injection Hj as ->. by rewrite Hat in Hf.
Qed.

Lemma counted_gone id f b' : m !! id = Some f →
  blimit b' = blimit b → (∀ s, charged_to b' s = charged_to b s - (if bool_decide (Source (asked f) = s) then charge f else 0)) →
  (∀ s, by_source b' !! s = Some 0 → by_source b !! s = Some 0 ∧ (s ≠ Source (asked f) ∨ (match at_ f with Forwarding _ _ => False | _ => True end))) →
  counted b' (release (Source (asked f)) c) (delete id m).
Proof.
  intros Hm H1 H2 H3. pose proof Hc as [C1 C2 C3 C4 C5 C6 C7 C8 C9]. split; try done.
  - by rewrite H1.
  - intros s. rewrite H2, C3, (sum_delete _ _ _ f) by done. lia.
  - intros s. rewrite H2. specialize (C4 s). pose proof (C7 id f Hm). destruct (bool_decide _); lia.
  - intros s. rewrite release_open, C5, (sum_delete _ _ _ f) by done. unfold one. lia.
  - intros s. rewrite release_open. specialize (C6 s). destruct (bool_decide _); lia.
  - intros j g [_ Hj]%lookup_delete_Some. by apply (C7 j).
  - intros s Hs. destruct (H3 s Hs) as [Hs' Hd]. destruct (C8 s Hs') as (j & g & out & k & Hj & Hs2 & Hat). exists j, g, out, k. split; [|done].
    rewrite lookup_delete_ne; [done|]. intros <-. rewrite Hm in Hj. injection Hj as ->. destruct Hd as [Hd|Hd]; [congruence|by rewrite Hat in Hd].
  - intros s. by apply release_zero.
Qed.

Lemma counted_paid id f : m !! id = Some f →
  counted (give (Source (asked f)) (charge f) b) (release (Source (asked f)) c) (delete id m).
Proof.
  intros Hm. apply (counted_gone _ _ _ Hm); [done| |].
  - intros s. apply give_charged. by apply (charge_le id).
  - intros s [Hs Hne]%give_zero. auto.
Qed.

Lemma counted_unpaid id f : m !! id = Some f → at_ f = Judging → counted b (release (Source (asked f)) c) (delete id m).
Proof.
  intros Hm Ha. apply (counted_gone _ _ _ Hm); [done| |].
  - intros s. unfold charge. rewrite Ha. destruct (bool_decide _); lia.
  - intros s Hs. split; [done|]. right. by rewrite Ha.
Qed.

Lemma counted_comes id r req c' : m !! id = None → take_share (Source req) c = Some c' → counted b c' (<[id := MkFlight r req Judging]> m).
Proof.
  intros Hm Ht. pose proof Hc as [C1 C2 C3 C4 C5 C6 C7 C8 C9]. split; try done.
  - destruct (take_open _ _ _ (Source req) Ht) as (-> & _). done.
  - intros s. rewrite sum_insert by done. rewrite C3. simpl. destruct (bool_decide _); unfold charge; simpl; lia.
  - intros s. destruct (take_open _ _ _ s Ht) as (_ & -> & _). rewrite sum_insert, C5 by done. unfold one. simpl. lia.
  - intros s. destruct (take_open _ _ _ s Ht) as (_ & -> & Hlt). specialize (C6 s). rewrite C2 in Hlt.
    destruct (bool_decide_reflect (Source req = s)) as [<-|]; lia.
  - intros j g. destruct (decide (j = id)) as [->|]; [rewrite lookup_insert_eq; by intros [= <-]|rewrite lookup_insert_ne by done; apply C7].
  - intros s Hs. destruct (C8 s Hs) as (j & g & out & k & Hj & Hrest). exists j, g, out, k. split; [|done].
    rewrite lookup_insert_ne; [done|congruence].
  - intros s. revert Ht. unfold take_share. destruct (_ <=? _); [done|]. intros [= <-]. simpl.
    destruct (decide (s = Source req)) as [->|]; [|rewrite lookup_insert_ne by done; apply C9]. rewrite lookup_insert_eq, C5. intros [= Hz].
    assert (0 ≤ sum one (Source req) m); [|lia]. by apply sum_nonneg.
Qed.

End Counted.

(** ** Reading *)

(** A buffer of a body of this length, while it is read. *)
Definition buffer_ok (length : Z) (buf : buffer) : Prop :=
  len (bdata buf) ≤ bcap buf ∧ bcap buf ≤ (read_limit length).1.

Lemma len_nonneg s : 0 ≤ len s.
Proof. unfold len. lia. Qed.

Lemma len_append s t : len (s +:+ t) = len s + len t.
Proof. unfold len. rewrite length_app_s. lia. Qed.

Lemma len_take n s : len (take_s n s) ≤ Z.of_nat n.
Proof. unfold len. revert s. induction n as [|n IH]; intros [|c s]; simpl; try lia. specialize (IH s). lia. Qed.

Lemma room_spec source length buf b b' buf' : len (bdata buf) < (read_limit length).1 → buffer_ok length buf →
  room source (read_limit length).1 (read_limit length).2 buf b = Some (b', buf') →
  bdata buf' = bdata buf ∧ len (bdata buf) < bcap buf' ∧ buffer_ok length buf' ∧
  ((b' = b ∧ bcap buf' = bcap buf) ∨ (grows source (bcap buf' - bcap buf) b b' ∧ bcap buf < bcap buf')).
Proof.
  intros Hl [Ho1 Ho2]. unfold room, buffer_ok in *. destruct (Z.ltb_spec (len (bdata buf)) (bcap buf)) as [Hlt|Hge].
  - intros [= <- <-]. split_and!; auto.
  - set (size := Z.min (Z.max (2 * bcap buf) (read_limit length).2) (read_limit length).1).
    destruct (reserve source b (size - bcap buf)) as [b2|] eqn:Hr; [|done]. intros [= <- <-]. simpl.
    assert (bcap buf < size ≤ (read_limit length).1) as Hs.
    { subst size. pose proof (len_nonneg (bdata buf)). unfold read_limit in *. destruct (Z.leb_spec 0 length); simpl in *;
        [lia|]. change heldChunk with 32768 in *. change BodyCap with 8388608 in *. lia. }
    split_and!; [done|lia|lia|lia|]. right. split; [|lia].
    replace (size - bcap buf) with (0 + (size - bcap buf)) by lia. eapply grows_reserve; [apply grows_none|lia|exact Hr].
Qed.

(** What one turn of the loop does to the budget and to the body. *)
Definition read_goes (source : Addr) (length : Z) (b : budget) (buf : buffer) (more : string) (b' : budget) (buf' : buffer) (more' : string) : Prop :=
  bdata buf' +:+ more' = bdata buf +:+ more ∧ buffer_ok length buf' ∧
  ((b' = b ∧ bcap buf' = bcap buf) ∨ (grows source (bcap buf' - bcap buf) b b' ∧ bcap buf < bcap buf')).

Lemma read_spec source length n ended b buf more : buffer_ok length buf →
  match read source length n ended b buf more with
  | ReadMore b' buf' more' => read_goes source length b buf more b' buf' more'
  | ReadDone b' buf' more' => read_goes source length b buf more b' buf' more' ∧ (more' = "" ∨ (read_limit length).1 ≤ len (bdata buf'))
  | ReadError b' charged _ => (b' = b ∧ charged = bcap buf) ∨ (grows source (charged - bcap buf) b b' ∧ bcap buf < charged)
  end.
Proof.
  intros Hok. unfold read. destruct (read_limit length) as [limit first] eqn:Hrl.
  destruct (Z.leb_spec limit (len (bdata buf))) as [Hle|Hlt].
  { split; [|by right]. unfold read_goes. auto. }
  destruct (room source limit first buf b) as [[b' buf1]|] eqn:Hr; [|by left].
  pose proof (room_spec source length buf b b' buf1) as Hs. rewrite Hrl in Hs. simpl in Hs. destruct (Hs Hlt Hok Hr) as (Hd & Hroom & [Ho1 Ho2] & Hb).
  rewrite Hrl in Ho2. simpl in Ho2. set (k := Nat.min n (Z.to_nat (bcap buf1 - len (bdata buf1)))).
  assert (read_goes source length b buf more b' (MkBuffer (bdata buf1 +:+ take_s k more) (bcap buf1)) (drop_s k more)) as Hg.
  { split_and!; simpl; [|split; simpl|done].
    - by rewrite <- app_assoc_s, take_drop_s, Hd.
    - rewrite len_append. pose proof (len_take k more). lia.
    - by rewrite Hrl. }
  simpl. destruct ended; simpl.
  - destruct (Z.leb_spec limit (len (bdata buf1 +:+ take_s k more))); [split; [done|by right]|done].
  - destruct (String.eqb (drop_s k more) "") eqn:Em; [split; [done|by left; apply String.eqb_eq]|]. destruct (Z.leb_spec limit (len (bdata buf1 +:+ take_s k more))); [split; [done|by right]|done].
  - exact Hb.
  - exact Hb.
Qed.

(** ** What holds of a request in flight *)

Definition whole_body (f : flight) : string := default "" (Body (guest f)).

(** What goes out is bound for the host that was judged, and takes the guest's body with it, or one the director answered. *)
Definition out_ok (f : flight) (out : outbound) : Prop :=
  https out = TLS (asked f) ∧ URLHost out = Host (asked f) ∧ OHost out = GHost (guest f) ∧
  match OBody out with
  | Streams more => more = whole_body f ∧ OLength out = ContentLength (guest f)
  | Joined held more => held +:+ more = whole_body f ∧ OLength out = ContentLength (guest f)
  | Whole body => OLength out = len body ∧ Header_Get (OHeader out) "Content-Length" = Itoa (len body)
  end.

Definition flight_ok `{U : Unicode} (f : flight) : Prop :=
  request (guest f) (TLS (asked f)) = Ok (asked f) ∧
  match at_ f with
  | Judging => True
  | Reading d buf more => bdata buf +:+ more = whole_body f ∧ buffer_ok (ContentLength (guest f)) buf ∧ Allowed d = true ∧ ContentLength (guest f) ≤ BodyCap
  | Rewriting d held rest more n =>
      Allowed d = true ∧
      match rest, held with
      | Some joined, _ => joined +:+ more = whole_body f
      | None, None => more = whole_body f
      | None, Some body => body +:+ more = whole_body f ∧ (more = "" ∨ ContentLength (guest f) = len body)
      end
  | Forwarding out n => out_ok f out
  end.

(** ** What a director promises *)

(** What is sound stays so, and what was judged stays judged. *)
Definition kept {D} (sound : D → Prop) (judged : D → Request → ProxyDecision → Prop) (st st' : D) : Prop :=
  (sound st → sound st') ∧ ∀ req d, judged st req d → judged st' req d.

(** Against the answers [V] of the world: [sound] is what its state keeps, [judged] what an allowed decision means from then on, [carries] how the
    headers of a request that goes out come from the guest's, and [holds] whether it ever asks for a body. *)
Class Promise {D W E} (H : Director D W E) (V : W → Prop) : Type := {
  promise_laws :: DirectorLaws H;
  sound : D → Prop;
  judged : D → Request → ProxyDecision → Prop;
  carries : Request → Header → Header → Prop;
  holds : bool;
  decide_judged : ∀ w st req st' d hold, V w → sound st → Decide_ w st req = (st', Ok (d, hold)) → Allowed d = true → judged st' req d;
  decide_holds : ∀ w st req st' d hold, Decide_ w st req = (st', Ok (d, hold)) → hold = true → holds = true;
  decide_keeps : ∀ w st req, V w → kept sound judged st (Decide_ w st req).1;
  rewrite_keeps : ∀ R res w st req (b : R) h body, V w → kept sound judged st (Rewrite_ R res w st req b h body).1;
  untrusted_keeps : ∀ w st req upstream reason, V w → kept sound judged st (Untrusted_ w st req upstream reason).1;
  rewrite_carries : ∀ R res w st req (b : R) h body st' b' h' body',
    Rewrite_ R res w st req b h body = (st', Ok (b', h', body')) → carries req h h'
}.

(** The world a step is answered by, when it asks the director. *)
Definition world_of {W} (e : event W) : option W :=
  match e with
  | Decides _ w _ _ | Rewrites _ w | Forwarded _ w _ => Some w
  | Comes _ _ _ | Reads _ _ _ _ | Dials _ => None
  end.

(** What the world answered in the course of a run. *)
Definition answered_in {W} (es : list (event W)) (w : W) : Prop := ∃ e, e ∈ es ∧ world_of e = Some w.

Section Steps.
Context {D W E : Type} {H : Director D W E} {V : W → Prop} {P : Promise H V} `{U : Unicode}.
Implicit Types s : server D.

(** The director allowed the request, to the upstream it is pinned to. *)
Definition sent_ok (st : D) (f : flight) (out : outbound) : Prop :=
  request (guest f) (TLS (asked f)) = Ok (asked f) ∧ out_ok f out ∧
  (∃ d, Allowed d = true ∧ judged st (asked f) d ∧ pinned out = Upstream d) ∧
  ∃ h, carries (asked f) (GHeader (guest f)) h ∧
    match OBody out with
    | Whole _ => holds = true ∧ OHeader out = Header_Set h "Content-Length" (Itoa (OLength out))
    | Joined _ _ => holds = true ∧ OHeader out = h
    | Streams _ => OHeader out = h
    end.

Definition judged_ok (st : D) (f : flight) : Prop :=
  match at_ f with
  | Judging => True
  | Reading d _ _ => holds = true ∧ judged st (asked f) d
  | Rewriting d held rest _ _ => (holds = true ∨ held = None ∧ rest = None) ∧ judged st (asked f) d
  | Forwarding out _ => sent_ok st f out
  end.

Record server_ok s : Prop := {
  so_sound : sound (director s);
  so_counted : counted (held_ s) (requests s) (flights s);
  so_flights : ∀ id f, flights s !! id = Some f → flight_ok f;
  so_judged : ∀ id f, flights s !! id = Some f → judged_ok (director s) f;
  so_dialed : ∀ f out, (f, out) ∈ dialed s → sent_ok (director s) f out
}.

Abbreviation keeps := (kept sound judged).

Lemma sent_keeps st st' f out : keeps st st' → sent_ok st f out → sent_ok st' f out.
Proof. intros [_ Hk] (H1 & H2 & (d & H3 & H4 & H5) & H6). split_and!; [done|done| |done]. exists d. auto. Qed.

Lemma judged_keeps st st' f : keeps st st' → judged_ok st f → judged_ok st' f.
Proof.
  intros Hk. unfold judged_ok. destruct (at_ f); [done|intros [? ?]; split; [done|by apply Hk]..|by apply sent_keeps].
Qed.

Lemma director_ok s st : keeps (director s) st → server_ok s → server_ok (set_director st s).
Proof.
  intros Hk [H0 H1 H2 H3 H4]. split; simpl; [by apply Hk|done|done| |].
  - intros id f Hf. eapply judged_keeps; eauto.
  - intros f out Hin. eapply sent_keeps; eauto.
Qed.

Lemma ends_paid s id f r : server_ok s → flights s !! id = Some f → server_ok (ends id f r (pays f (charge f) s)).
Proof.
  intros [H0 H1 H2 H3 H4] Hf. split; simpl; [done|by apply counted_paid| | |done].
  - intros j g [_ Hj]%lookup_delete_Some. eauto.
  - intros j g [_ Hj]%lookup_delete_Some. eauto.
Qed.

Lemma ends_unpaid s id f r : server_ok s → flights s !! id = Some f → at_ f = Judging → server_ok (ends id f r s).
Proof.
  intros [H0 H1 H2 H3 H4] Hf Ha. split; simpl; [done|by apply counted_unpaid| | |done].
  - intros j g [_ Hj]%lookup_delete_Some. eauto.
  - intros j g [_ Hj]%lookup_delete_Some. eauto.
Qed.

(** A request that takes a step and is charged [n] for it. *)
Lemma fly_ok s id f p n b : server_ok s → flights s !! id = Some f → grows (Source (asked f)) n (held_ s) b →
  charge (move f p) = charge f + n →
  (match at_ f with Forwarding _ _ => False | _ => True end) →
  (match p with Forwarding _ _ => True | _ => by_source b !! Source (asked f) = Some 0 → by_source (held_ s) !! Source (asked f) = Some 0 end) →
  flight_ok (move f p) → judged_ok (director s) (move f p) → server_ok (fly id (move f p) (set_held b s)).
Proof.
  intros [H0 H1 H2 H3 H4] Hf Hg Hn Ha Hp Hfo Hj. split; simpl; [done|by eapply counted_move| | |done].
  - intros j g. destruct (decide (j = id)) as [->|]; [rewrite lookup_insert_eq; by intros [= <-]|rewrite lookup_insert_ne by done; eauto].
  - intros j g. destruct (decide (j = id)) as [->|]; [rewrite lookup_insert_eq; by intros [= <-]|rewrite lookup_insert_ne by done; eauto].
Qed.

(** The same, with nothing charged. *)
Lemma fly_free s id f p : server_ok s → flights s !! id = Some f → charge (move f p) = charge f →
  (match at_ f with Forwarding _ _ => False | _ => True end) → flight_ok (move f p) → judged_ok (director s) (move f p) → server_ok (fly id (move f p) s).
Proof.
  intros Hs Hf Hc Ha Hfo Hj. replace (fly id (move f p) s) with (fly id (move f p) (set_held (held_ s) s)) by by destruct s.
  apply (fly_ok s id f p 0); try done; [apply grows_none|lia|by destruct p].
Qed.

Lemma request_tls r secure req : request r secure = Ok req → TLS req = secure.
Proof.
  unfold request. destruct (ParseAddrPort _); [|done]. destruct (String.eqb _ _); [done|]. destruct (_ <? _); [done|].
  destruct secure; simpl; [|by intros [= <-]]. destruct (ServerName r); [|done]. destruct (String.eqb _ _); [by intros [= <-]|done].
Qed.

Lemma comes_ok s id r secure : flights s !! id = None → server_ok s → server_ok (comes id r secure s).
Proof.
  intros Hn Hs. unfold comes. destruct (request r secure) as [req|e] eqn:Hr; [|by destruct Hs].
  destruct (take_share _ _) as [c|] eqn:Ht; [|by destruct Hs]. destruct Hs as [H0 H1 H2 H3 H4].
  assert (∀ j g, <[id := MkFlight r req Judging]> (flights s) !! j = Some g → g = MkFlight r req Judging ∨ flights s !! j = Some g) as Hl.
  { intros j g. destruct (decide (j = id)) as [->|]; [rewrite lookup_insert_eq; intros [= <-]; by left|rewrite lookup_insert_ne by done; by right]. }
  split; simpl; [done|by eapply counted_comes| | |done]; intros j g [->|Hj]%Hl; eauto; [|done].
  split; [|done]. simpl. by rewrite (request_tls r secure).
Qed.

Lemma decides_ok s id w lookup deadline f : V w → server_ok s → flights s !! id = Some f → at_ f = Judging →
  server_ok (decides id w lookup deadline f s).
Proof.
  intros Hw Hs Hf Ha. unfold decides. destruct (Decide_ w (director s) (asked f)) as [st r] eqn:Hd.
  assert (server_ok (set_director st s)) as Hs1. { apply director_ok; [|done]. replace st with (Decide_ w (director s) (asked f)).1 by by rewrite Hd. by apply decide_keeps. }
  destruct r as [[d hold]|e]; [|by apply ends_unpaid]. destruct (Allowed d) eqn:Hal; [|by apply ends_unpaid]. simpl.
  assert (judged st (asked f) d) as Hj by by eapply decide_judged; [done|apply Hs| |].
  destruct (so_flights _ Hs _ _ Hf) as [Hreq _].
  assert (charge f = 0) as Hc0 by (unfold charge; by rewrite Ha).
  destruct (negb hold || bool_decide (Body (guest f) = None) || (BodyCap <? ContentLength (guest f))) eqn:Eh.
  - apply fly_free; try done; [by rewrite Ha|]. split; [by right|done].
  - destruct deadline; [|by apply ends_unpaid]. apply orb_false_iff in Eh as [Eh1 Eh]. apply orb_false_iff in Eh1 as [Eh1 _].
    apply negb_false_iff in Eh1. apply fly_free; try done; [by rewrite Ha| |split; [by eapply decide_holds|done]]. split; [done|]. simpl. apply Z.ltb_ge in Eh. split_and!; try done. split; [done|]. simpl.
    unfold read_limit. destruct (Z.leb_spec 0 (ContentLength (guest f))); simpl; [lia|]. by change BodyCap with 8388608.
Qed.

(** A step that reads leaves no entry of nothing behind. *)
Lemma grows_nonzero s source n b : server_ok s → grows source n (held_ s) b → 0 < n → by_source b !! source ≠ Some 0.
Proof.
  intros Hs Hg Hn Hz. pose proof (gr_charged _ _ _ _ Hg source) as Hc. rewrite bool_decide_eq_true_2 in Hc by done.
  unfold charged_to at 1 in Hc. rewrite Hz in Hc. simpl in Hc. pose proof (charged_nonneg (so_counted _ Hs) source). lia.
Qed.

Lemma fly_reads s id f p n b : server_ok s → flights s !! id = Some f → (n = 0 ∧ b = held_ s ∨ 0 < n ∧ grows (Source (asked f)) n (held_ s) b) →
  charge (move f p) = charge f + n →
  (match at_ f with Forwarding _ _ => False | _ => True end) →
  flight_ok (move f p) → judged_ok (director s) (move f p) → server_ok (fly id (move f p) (set_held b s)).
Proof.
  intros Hs Hf [[-> ->]|[Hn Hg]] Hc Ha Hfo Hj.
  - replace (set_held (held_ s) s) with s by by destruct s. apply fly_free; try done. lia.
  - apply (fly_ok s id f p n); try done. destruct p; try done; by intros ?%(grows_nonzero s _ n).
Qed.

Lemma ends_reads s id f n b r : server_ok s → flights s !! id = Some f → (n = 0 ∧ b = held_ s ∨ 0 < n ∧ grows (Source (asked f)) n (held_ s) b) →
  match at_ f with Reading _ _ _ => True | _ => False end → server_ok (ends id f r (pays f (charge f + n) (set_held b s))).
Proof.
  intros Hs Hf Hn Ha. pose proof (so_flights _ Hs _ _ Hf) as Hfo. pose proof (so_judged _ Hs _ _ Hf) as Hjo.
  destruct f as [g req p]. destruct p as [|d buf more| |]; try done. simpl in *.
  set (f := MkFlight g req (Reading d buf more)) in *.
  assert (counted b (requests s) (<[id := move f (Rewriting d None None "" (bcap buf + n))]> (flights s))) as Hcnt.
  { destruct Hn as [[-> ->]|[Hn Hg]].
    - eapply (counted_move (so_counted _ Hs)); [exact Hf|apply grows_none|done..].
    - eapply (counted_move (so_counted _ Hs)); [exact Hf|exact Hg|done..|]. intros Hz. by apply (grows_nonzero s (Source req) n b) in Hz. }
  assert (counted (give (Source req) (bcap buf + n) b) (release (Source req) (requests s)) (delete id (flights s))) as Hd.
  { rewrite <- (delete_insert_eq _ id (move f (Rewriting d None None "" (bcap buf + n)))).
    apply (counted_paid Hcnt id (move f (Rewriting d None None "" (bcap buf + n)))). by rewrite lookup_insert_eq. }
  destruct Hs as [H0 H1 H2 H3 H4]. split; simpl; [done|done| | |done]; intros j x [_ Hj]%lookup_delete_Some; eauto.
Qed.

Lemma reads_ok s id n ended clears f d buf more : server_ok s → flights s !! id = Some f → at_ f = Reading d buf more →
  server_ok (reads id n ended clears f d buf more s).
Proof.
  intros Hs Hf Ha. destruct (so_flights _ Hs _ _ Hf) as [Hreq Hfo]. pose proof (so_judged _ Hs _ _ Hf) as Hj. unfold judged_ok in Hj.
  rewrite Ha in Hfo, Hj. destruct Hfo as (Hbody & Hbuf & Hal & Hlen). destruct Hj as [Hh Hj].
  pose proof (read_spec (Source (asked f)) (ContentLength (guest f)) n ended (held_ s) buf more Hbuf) as Hr. unfold reads.
  assert (charge f = bcap buf) as Hc by (unfold charge; by rewrite Ha).
  assert (∀ b cap, (b = held_ s ∧ cap = bcap buf) ∨ (grows (Source (asked f)) (cap - bcap buf) (held_ s) b ∧ bcap buf < cap) →
    cap - bcap buf = 0 ∧ b = held_ s ∨ 0 < cap - bcap buf ∧ grows (Source (asked f)) (cap - bcap buf) (held_ s) b) as Hn.
  { intros b cap [[-> ->]|[Hg Hlt]]; [left; split; [lia|done]|right; split; [lia|done]]. }
  assert (∀ b cap r, (b = held_ s ∧ cap = bcap buf) ∨ (grows (Source (asked f)) (cap - bcap buf) (held_ s) b ∧ bcap buf < cap) →
    server_ok (ends id f r (pays f cap (set_held b s)))) as He.
  { intros b cap r Hb. replace cap with (charge f + (cap - bcap buf)) by lia. apply ends_reads; try done; [by apply Hn|]. by rewrite Ha. }
  destruct (read _ _ _ _ _ _ _) as [b' buf' more'|b' buf' more'|b' charged status].
  - destruct Hr as (Hb & Hok & Hg). apply (fly_reads s id f _ (bcap buf' - bcap buf)); try done; [by apply Hn|unfold charge at 1; simpl; lia|by rewrite Ha|].
    split; [done|]. simpl. split_and!; try done. unfold whole_body in *. simpl. by rewrite Hb.
  - destruct Hr as ((Hb & [Ho1 Ho2] & Hg) & Hend). destruct clears; [|by apply He]. cbn [negb].
    destruct (Z.leb_spec (len (bdata buf')) BodyCap) as [Hle|Hgt];
      (apply (fly_reads s id f _ (bcap buf' - bcap buf)); try done;
         [by apply Hn|unfold charge at 1; simpl; lia|by rewrite Ha| |split; [by left|done]]);
      (split; [done|]); simpl; (split; [done|]); unfold whole_body in *; simpl; rewrite <- Hbody.
    + destruct (Z.eqb_spec (bcap buf') 0) as [Hz|Hz].
      * rewrite <- Hb. destruct (bdata buf') as [|c t] eqn:Ed; [done|]. exfalso. rewrite Hz in Ho1. unfold len in Ho1. simpl in Ho1. lia.
      * split; [done|]. destruct Hend as [->|Hend]; [by left|]. right. unfold read_limit in Hend, Ho2.
        destruct (Z.leb_spec 0 (ContentLength (guest f))); simpl in *; lia.
    + done.
  - by apply He.
Qed.

Lemma Header_Get_Set h value : Header_Get (Header_Set h "Content-Length" value) "Content-Length" = value.
Proof.
  unfold Header_Get, Header_Set, Values. change (CanonicalHeaderKey "Content-Length") with "Content-Length".
  destruct (existsb (λ kv : string * list string, String.eqb kv.1 "Content-Length") h) eqn:Ex.
  - induction h as [|[k vs] h IH]; [done|]. simpl in *. destruct (String.eqb k "Content-Length") eqn:Ek; simpl; [done|].
    rewrite Ek. by apply IH.
  - induction h as [|[k vs] h IH]; [done|]. simpl in *. apply orb_false_iff in Ex as [Ek Ex]. rewrite Ek. by apply IH.
Qed.

Lemma rewrites_ok s id w f d held rest more n : V w → server_ok s → flights s !! id = Some f → at_ f = Rewriting d held rest more n →
  server_ok (rewrites id w f d held rest more n s).
Proof.
  intros Hw Hs Hf Ha. destruct (so_flights _ Hs _ _ Hf) as [Hreq Hfo]. pose proof (so_judged _ Hs _ _ Hf) as Hj. unfold judged_ok in Hj.
  rewrite Ha in Hfo, Hj. destruct Hfo as [Hal Hbody]. destruct Hj as [Hh Hj]. unfold rewrites.
  match goal with |- context [Rewrite_ ?R ?f ?w ?d ?r ?b ?h ?x] => set (spend := f); destruct (Rewrite_ R spend w d r b h x) as [st r1] eqn:Hrw end.
  assert (charge f = n) as Hc by (unfold charge; by rewrite Ha).
  assert (keeps (director s) st) as Hk. { change st with (st, r1).1. rewrite <- Hrw. by apply rewrite_keeps. }
  assert (server_ok (set_director st s)) as Hs1 by by apply director_ok.
  destruct r1 as [[[[b charged] h] body]|e].
  2: { rewrite <- Hc. by apply ends_paid. }
  assert (grows (Source (asked f)) (charged - n) (held_ s) b) as Hg.
  { refine (rewrite_reserves _ spend (λ p, grows (Source (asked f)) (p.2 - n) (held_ s) p.1) _ _ _ _ _ _ _ _ _ _ _ _ Hrw).
    - intros [b1 c1] k [b2 c2] Hk0 Hb1. subst spend. simpl. destruct (reserve (Source (asked f)) b1 k) as [b3|] eqn:Hres; [|done].
      intros [= <- <-]. simpl in *. replace (c1 + k - n) with (c1 - n + k) by lia. by eapply grows_reserve.
    - simpl. rewrite Z.sub_diag. apply grows_none. }
  assert (carries (asked f) (GHeader (guest f)) h) as Hcar by by eapply rewrite_carries.
  apply (proj2 Hk) in Hj. eapply (fly_ok (set_director st s) id f _ (charged - n)); try done.
  - unfold charge at 1. simpl. lia.
  - by rewrite Ha.
  - split; [done|]. destruct rest as [joined|]; [split_and!; done|]. destruct held as [x|]; [|split_and!; done].
    split_and!; try done. simpl. split; [done|]. apply Header_Get_Set.
  - split; [done|]. split_and!.
    + destruct rest as [joined|]; [split_and!; done|]. destruct held as [x|]; [|split_and!; done].
      split_and!; try done. simpl. split; [done|]. apply Header_Get_Set.
    + exists d. split_and!; [done|done|]. by destruct rest, held.
    + exists h. split; [done|]. destruct rest as [j|], held as [x|]; simpl; try done; (split; [|done]); by destruct Hh as [?|[? ?]].
Qed.

Lemma happens_kept e s : (∀ w, world_of e = Some w → V w) → server_ok s → server_ok (happens e s).
Proof.
  intros Hw Hs. destruct e as [id r secure|id w lookup deadline|id n ended clears|id w|id|id w answer]; simpl;
    destruct (flights s !! id) as [f|] eqn:Hf; try done; [by apply comes_ok|destruct (at_ f) eqn:Ha; try done..].
  - by apply decides_ok; [apply Hw|..].
  - by apply reads_ok.
  - by apply rewrites_ok; [apply Hw|..].
  - pose proof (so_judged _ Hs _ _ Hf) as Hj. unfold judged_ok in Hj. rewrite Ha in Hj. destruct Hs as [H0 H1 H2 H3 H4].
    split; simpl; [done..|]. intros g o [Hin|[= -> ->]%list_elem_of_singleton]%elem_of_app; auto.
  - assert (charge f = charged) as Hc by (unfold charge; by rewrite Ha). unfold forwarded. rewrite <- Hc. destruct answer as [status|e]; [by apply ends_paid|].
    destruct (String.eqb _ _); [by apply ends_paid|]. apply ends_paid; [|done]. apply director_ok; [|done].
    by apply untrusted_keeps, Hw.
Qed.

Lemma New_ok d : sound d → server_ok (New_ d).
Proof.
  intros Hd. split; simpl; [done| |done|done|set_solver]. split; simpl; try done; intros source; unfold charged_to, open_by; simpl; rewrite ?lookup_empty; done.
Qed.

Lemma after_kept d es : (∀ w, answered_in es w → V w) → sound d → server_ok (after d es).
Proof.
  intros Hw Hd. unfold after. generalize (New_ok d Hd). generalize (New_ d). induction es as [|e es IH]; intros s Hs; [done|]. simpl. apply IH.
  - intros w (e' & Hin & He). apply Hw. exists e'. split; [by right|done].
  - apply happens_kept; [|done]. intros w He. apply Hw. exists e. split; [by left|done].
Qed.

End Steps.

Section Requests.
Context `{U : Unicode}.

(** What a request that is served names: its source, the host of its header, and on TLS the same name in the handshake. *)
Lemma request_spec r secure req : request r secure = Ok req →
  (∃ a, ParseAddrPort (RemoteAddr r) = Some a ∧ Source req = Unmap a) ∧ Host req = canonicalHost (hostOnly (GHost r)) ∧
  Host req ≠ "" ∧ len (Host req) ≤ maxHostLen ∧ Port req = (if secure then 443 else 80) ∧
  (secure = true → ∃ name, ServerName r = Some name ∧ canonicalHost name = Host req).
Proof.
  unfold request. destruct (ParseAddrPort (RemoteAddr r)) as [a|]; [|done]. set (host := canonicalHost (hostOnly (GHost r))).
  destruct (String.eqb_spec host "") as [|Hne]; [done|]. destruct (Z.ltb_spec maxHostLen (len host)) as [|Hle]; [done|].
  assert (∀ port tls, (∃ a0, Some a = Some a0 ∧ Source (MkRequest (Unmap a) host port tls) = Unmap a0)) as Ha by (intros; by exists a).
  destruct secure; simpl; [|by intros [= <-]; split_and!].
  destruct (ServerName r) as [name|]; [|done]. destruct (String.eqb_spec (canonicalHost name) host) as [Hn|]; [|done].
  intros [= <-]. split_and!; try done. intros _. by exists name.
Qed.

End Requests.

(** ** The broker as the director *)

Section Broker.
Context `{U : Unicode} (gateway : Z) (policies : gmap string policy_entry) (EffectiveTLDPlusOne : string → option string).

(** A call of the broker is answered by its world and the store of the secrets. It never asks for a body to be held. *)
#[export] Instance broker_front : Director state (Broker.world * gmap string Secret.entry) broker_error := {|
  Decide_ w st req :=
    let '(st, r) := Broker_Decide gateway policies w.1 st req in
    (st, match r with Ok d => Ok (d, false) | Err e => Err e end);
  Rewrite_ R res w st req b h body :=
    let '(st, r) := Rewrite EffectiveTLDPlusOne res w.1 st w.2 req b h (default "" body) in
    (st, match r with Ok (b, h, text) => Ok (b, h, (λ _, text) <$> body) | Err e => Err e end);
  Untrusted_ w st req upstream reason := Broker.Untrusted w.1 st req (default AddrInvalid (fst <$> upstream)) reason;
  over_budget e := match e with EReserve => true | _ => false end
|}.

(** The reserves of a rewrite, one after the other. *)
Section Reserves.
Context {R : Type} (res : R → Z → option R) (P : R → Prop) (HP : ∀ b n b', 0 ≤ n → P b → res b n = Some b' → P b').

Lemma bound_go_nonneg cs s length found : 0 ≤ length → 0 ≤ (bound_go cs s length found).1.
Proof.
  revert length found. induction cs as [|c cs IH]; intros length found Hl; simpl; [done|]. destruct (_ =? 0); [by apply IH|]. apply IH.
  assert (0 ≤ Count s (splaceholder c)); [|nia]. apply Count_nonneg.
Qed.

Lemma rewrite_kept swaps b s b' s' : P b → rewrite res swaps b s = Some (b', s') → P b'.
Proof.
  intros Hb. unfold rewrite. destruct (bound _ _) as [size found] eqn:Hs. destruct found; simpl; [|by intros [= <- <-]].
  destruct (res b size) as [b2|] eqn:Hr; [|done]. intros [= <- <-]. eapply HP; [|exact Hb|exact Hr].
  change size with (size, true).1. rewrite <- Hs. apply bound_go_nonneg. unfold len. lia.
Qed.

Lemma rewrite_values_kept swaps b vs b' vs' : P b → rewrite_values res swaps b vs = Some (b', vs') → P b'.
Proof.
  revert b b' vs'. induction vs as [|v vs IH]; intros b b' vs' Hb; simpl; [by intros [= <- <-]|].
  intros ([b1 v1] & H1 & ([b2 vs2] & H2 & [= <- <-])%bind_Some)%bind_Some. eapply IH; [|exact H2]. by eapply rewrite_kept.
Qed.

Lemma rewrite_header_kept hop swaps b h b' h' : P b → rewrite_header res hop swaps b h = Some (b', h') → P b'.
Proof.
  revert b b' h'. induction h as [|[name vs] h IH]; intros b b' h' Hb; cbn [rewrite_header]; [by intros [= <- <-]|].
  intros ([b1 v1] & H1 & ([b2 vs2] & H2 & [= <- <-])%bind_Some)%bind_Some. eapply IH; [|exact H2].
  destruct (contains hop name); [by injection H1 as <- <-|]. by eapply rewrite_values_kept.
Qed.

Lemma rewriteBasic_kept swaps b h b' h' : P b → rewriteBasic res swaps b h = Some (b', h') → P b'.
Proof.
  intros Hb. unfold rewriteBasic. destruct (_ || _); [by intros [= <- <-]|]. destruct (DecodeString _) as [decoded|]; [|by intros [= <- <-]].
  destruct (Contains decoded ":"); [|by intros [= <- <-]]. simpl.
  intros ([b1 swapped] & H1 & H2)%bind_Some. cbv beta iota in H2. pose proof (rewrite_kept _ _ _ _ _ Hb H1) as Hb1.
  destruct (String.eqb swapped decoded); [by injection H2 as <- <-|]. apply bind_Some in H2 as (b2 & H2 & [= <- <-]).
  eapply HP; [|exact Hb1|exact H2]. pose proof (len_nonneg swapped). pose proof (len_nonneg basic). unfold EncodedLen.
  pose proof (Z.div_pos (len swapped + 2) 3). lia.
Qed.

Lemma substitute_kept swaps b h b' h' : P b → substitute res swaps b h = Some (b', h') → P b'.
Proof.
  intros Hb. unfold substitute. intros ([b1 h1] & H1 & H2)%bind_Some. cbv beta iota in H2. apply rewrite_header_kept in H1; [|done].
  destruct (contains _ _); [by injection H2 as <- <-|]. by eapply rewriteBasic_kept.
Qed.

End Reserves.

#[export] Instance broker_laws : DirectorLaws broker_front.
Proof.
  intros R res P w st req b h body st' b' h' body' HP Hb. simpl. unfold Rewrite.
  destruct (sandbox _ _ _ _) as [c [sb|]]; [|done]. destruct (Broker.swaps_of _ _ _ _) as [swaps|]; [|done].
  destruct (substitute res (sort_swaps swaps) b h) as [[b2 h2]|] eqn:Hs; [|done]. intros [= <- <- <- <-]. by eapply substitute_kept.
Qed.

(** The answers of the world the broker's state may come from. *)
Context (V : Broker.world * gmap string Secret.entry → Prop).

(** The map of the broker is of a list the records answered, under the generation it is filed by. *)
Definition listed (c : cache) : Prop :=
  byAddr c = None ∨ ∃ w sbs, V w ∧ wlisting w.1 = Some sbs ∧ byAddr c = Some (addresses sbs) ∧ cachedGen c = wgen w.1.

(** The addresses it takes for the host's are those the interfaces answered, when they were read. *)
Definition read_from (l : Local) : Prop :=
  lread l = 0 ∨ lowned l = None ∨
  ∃ w addrs, V w ∧ waddresses w.1 = Some addrs ∧ lowned l = Some (list_to_set addrs) ∧ lread l = wnow w.1.

Definition known (st : state) : Prop := listed (scache st) ∧ read_from (slocal st).

(** The broker judged the request in a call the world answered with [w]: the sandbox is the one a list of the records has at the
    source of the request, a list taken under the generation this call read; the address is the first the resolver has for
    the host; the policy of that sandbox allows it; and it is none of the private ones, none that stands for the host or for all
    hosts, and none the interfaces of the host answered less than a second before. *)
Record judged_by (w : Broker.world) (req : Request) (sb : Sandbox) (addr : Addr) (d : Decision) : Prop := {
  jb_sandbox : ∃ wl sbs, V wl ∧ wlisting wl.1 = Some sbs ∧ wgen wl.1 = wgen w ∧ addresses sbs !! Source req = Some sb;
  jb_resolved : ∃ rest, Lookup (wlookup w) (Host req) = Ok (addr :: rest);
  jb_policy : ∃ l, (Decide gateway (waddresses w) (wnow w) l policies sb (Host req) (Port req) addr).2 = Ok d ∧ DAction d = ActionAllow;
  jb_private : contains_addr Private addr = false;
  jb_special : ~ special_address addr;
  jb_host : ∃ wi addrs, V wi ∧ waddresses wi.1 = Some addrs ∧ addr ∉ addrs ∧ wnow w - wnow wi.1 < hostRefresh
}.

(** The request was judged so, and the log of the sandbox has the line of it. *)
Definition allowed_in_log (st : state) (req : Request) (upstream : option (Addr * Z)) : Prop :=
  ∃ w sb addr d, V w ∧ judged_by w.1 req sb addr d ∧ upstream = Some (addr, Port req mod 65536) ∧
    (ID sb, MkLogRecord (wnow w.1) SourceProxy ActionAllow (Host req) (Port req) (Addr_String addr) (DID d) (rule_text d) (DReason d)) ∈ slog st.

Definition allowed_to (st : state) (req : Request) (d : ProxyDecision) : Prop := allowed_in_log st req (Upstream d).

(** What goes out has the headers of the guest's request, and over plain HTTP their very values. *)
Definition same_headers (req : Request) (h h' : Header) : Prop := h'.*1 = h.*1 ∧ (TLS req = false → h' = h).

Lemma sandbox_known w c source c' r : V w → listed c → sandbox (wgen w.1) (wlisting w.1) c source = (c', r) →
  listed c' ∧ ∀ sb, r = Ok sb → ∃ wl sbs, V wl ∧ wlisting wl.1 = Some sbs ∧ wgen wl.1 = wgen w.1 ∧ addresses sbs !! source = Some sb.
Proof.
  intros Hw Hc. unfold sandbox. destruct (bool_decide _ || _) eqn:Eb.
  - destruct (wlisting w.1) as [sbs|] eqn:Hl; [|intros [= <- <-]; by split]. simpl.
    assert (listed (MkCache (wgen w.1) (Some (addresses sbs)))) by (right; by exists w, sbs).
    destruct (addresses sbs !! source) as [x|] eqn:Hx; intros [= <- <-]; simpl; (split; [done|]); [|done].
    intros sb [= <-]. by exists w, sbs.
  - apply orb_false_iff in Eb as [_ Eb]. apply negb_false_iff, Z.eqb_eq in Eb.
    destruct (default ∅ (byAddr c) !! source) as [x|] eqn:Hx; intros [= <- <-]; (split; [done|]); [|done]. intros sb [= <-].
    destruct Hc as [Hc|(wl & sbs & Hv & Hl & Hc & Hg)]; rewrite Hc in Hx; simpl in Hx; [done|]. exists wl, sbs. by rewrite <- Hg.
Qed.

(** The interfaces a decision goes by are read in its call, or were in one before. *)
Lemma Contains_read w l addr : V w → read_from l → read_from (Local_Contains (waddresses w.1) (wnow w.1) l addr).1.
Proof.
  intros Hw Hl. unfold Local_Contains, hostOwned. destruct (_ || _); [done|]. destruct (_ && _); [done|]. simpl.
  destruct (waddresses w.1) as [addrs|] eqn:Ha; [|right; by left]. right. right. by exists w, addrs.
Qed.

Lemma Decide_read w l sb host port addr : V w → read_from l →
  read_from (Decide gateway (waddresses w.1) (wnow w.1) l policies sb host port addr).1.
Proof.
  intros Hw Hl. unfold Decide. destruct (contains_addr Private addr); [done|].
  pose proof (Contains_read w l addr Hw Hl) as H. by destruct (Local_Contains _ _ _ _) as [l' []].
Qed.

(** The log only grows. *)
Lemma allowed_grows st st' tail req upstream : slog st' = slog st ++ tail → allowed_in_log st req upstream → allowed_in_log st' req upstream.
Proof.
  intros Hl (w & sb & addr & d & Hw & Hj & Hu & Hin). exists w, sb, addr, d. split_and!; [done..|]. rewrite Hl. apply elem_of_app. by left.
Qed.

Lemma Append_grows ok log id r : ∃ tail, (Append ok log id r).1 = log ++ tail.
Proof. unfold Append. destruct ok; simpl; [by eexists|]. exists []. by rewrite (right_id_L [] (++)). Qed.

Lemma Decide_kept w st req : V w → kept known allowed_to st (Broker_Decide gateway policies w.1 st req).1.
Proof.
  intros Hw. assert (∃ tail, slog (Broker_Decide gateway policies w.1 st req).1 = slog st ++ tail) as [tail Ht].
  { unfold Broker_Decide, denied, record. destruct (sandbox _ _ _ _) as [c [sb|]]; simpl; [|exists []; by rewrite (right_id_L [] (++))].
    destruct (Unresolved _ _ _ _ _) as [[d|]|]; simpl; [| |exists []; by rewrite (right_id_L [] (++))].
    - edestruct (Append_grows (wappend w.1) (slog st) (ID sb)) as [tail Ht]. destruct (Append _ _ _ _) as [log r] eqn:Ea.
      exists tail. destruct r; simpl; rewrite <- Ht, Ea; done.
    - destruct (Lookup _ _) as [[|addr rest]|]; simpl.
      + exists []. by rewrite (right_id_L [] (++)).
      + destruct (Decide _ _ _ _ _ _ _ _ _) as [local [d|]]; simpl; [|exists []; by rewrite (right_id_L [] (++))].
        edestruct (Append_grows (wappend w.1) (slog st) (ID sb)) as [tail Ht]. destruct (Append _ _ _ _) as [log r] eqn:Ea.
        exists tail. simpl. rewrite <- Ht, Ea. done.
      + edestruct (Append_grows (wappend w.1) (slog st) (ID sb)) as [tail Ht]. destruct (Append _ _ _ _) as [log r] eqn:Ea.
        exists tail. simpl. rewrite <- Ht, Ea. done. }
  split; [|intros q d; by apply (allowed_grows _ _ tail)].
  intros [Hk Hi]. destruct (sandbox (wgen w.1) (wlisting w.1) (scache st) (Source req)) as [c r] eqn:Hs.
  destruct (sandbox_known _ _ _ _ _ Hw Hk Hs) as [Hc _]. clear tail Ht. unfold known, Broker_Decide. rewrite Hs.
  destruct r as [sb|]; [|done]. destruct (Unresolved _ _ _ _ _) as [[d|]|]; [|destruct (Lookup _ _) as [[|addr rest]|]|]; try done.
  - by destruct (denied _ _ _ _ _ _).
  - pose proof (Decide_read w (slocal st) sb (Host req) (Port req) addr Hw Hi) as Hr.
    destruct (Decide _ _ _ _ _ _ _ _ _) as [local [d|]]; [|done]. by destruct (record _ _ _ _ _ _ _ _ _ _).
  - by destruct (record _ _ _ _ _ _ _ _ _ _).
Qed.

Lemma Rewrite_kept_st R (res : R → Z → option R) w st secrets req b h body :
  V w → kept known allowed_to st (Rewrite EffectiveTLDPlusOne res w.1 st secrets req b h body).1.
Proof.
  intros Hw. unfold Rewrite. destruct (sandbox _ _ _ _) as [c r] eqn:Hs. assert (kept known allowed_to st (MkState c (slocal st) (slog st))) as Hk.
  { split; [|intros q d; apply (allowed_grows _ _ []); simpl; by rewrite (right_id_L [] (++))].
    intros [Hk Hi]. by destruct (sandbox_known _ _ _ _ _ Hw Hk Hs) as [Hc _]. }
  by destruct r.
Qed.

Lemma Untrusted_kept w st req upstream reason : V w → kept known allowed_to st (Broker.Untrusted w.1 st req upstream reason).1.
Proof.
  intros Hw. unfold Broker.Untrusted, record. destruct (sandbox _ _ _ _) as [c r] eqn:Hs. destruct r as [sb|].
  - match goal with |- context [Append ?a ?l ?i ?x] => destruct (Append_grows a l i x) as [tail Ht]; destruct (Append a l i x) as [log q] end.
    split; [|intros q' d; by apply (allowed_grows _ _ tail)]. intros [Hk Hi]. by destruct (sandbox_known _ _ _ _ _ Hw Hk Hs) as [Hc _].
  - split; [|intros q d; apply (allowed_grows _ _ []); simpl; by rewrite (right_id_L [] (++))].
    intros [Hk Hi]. by destruct (sandbox_known _ _ _ _ _ Hw Hk Hs) as [Hc _].
Qed.

Lemma Decide_allowed w st req st' d :
  V w → known st → Broker_Decide gateway policies w.1 st req = (st', Ok d) → Allowed d = true → allowed_to st' req d.
Proof.
  intros Hw [Hk Hi]. unfold Broker_Decide. destruct (sandbox _ _ _ _) as [c r] eqn:Hs. destruct (sandbox_known _ _ _ _ _ Hw Hk Hs) as [_ Hsb].
  destruct r as [sb|]; [|done]. specialize (Hsb sb eq_refl). destruct (Unresolved _ _ _ _ _) as [[dec|]|]; [| |done].
  - unfold denied. destruct (record _ _ _ _ _ _ _ _ _ _) as [log [[]|]]; [|done]. by intros [= <- <-].
  - destruct (Lookup _ _) as [[|addr rest]|] eqn:Hlk; [done| |by destruct (record _ _ _ _ _ _ _ _ _ _) as [log [[]|]]].
    pose proof (Decide_read w (slocal st) sb (Host req) (Port req) addr Hw Hi) as Hr.
    destruct (Decide _ _ _ _ _ _ _ _ _) as [local [dec|]] eqn:Hd; [|done]. unfold record.
    destruct (Append _ _ _ _) as [log [[]|]] eqn:Ha; [|done]. intros [= <- <-]. simpl. intros Hal%bool_decide_eq_true.
    apply Append_Ok in Ha as [_ ->].
    destruct (Decide_floor_holds gateway _ _ _ _ _ _ _ _ _ _ Hd Hal) as (H1 & H2 & own & Hown & Hni & Hwhen).
    exists w, sb, addr, dec. split_and!; [done| |done|simpl; apply elem_of_app; right; apply list_elem_of_singleton; by rewrite Hal].
    split; [done|by exists rest|exists (slocal st); by rewrite Hd|done|done|]. simpl in Hr.
    destruct Hwhen as [(-> & Hnz & Hlt)|(Hnow & addrs & Hin & ->)].
    + destruct Hr as [?|[Hr|(wi & addrs & Hv & Hai & Ho & Ht)]]; [done|congruence|]. exists wi, addrs. rewrite Hown in Ho. injection Ho as ->.
      split_and!; [done|done|set_solver|lia].
    + exists w, addrs. split_and!; [done|done|set_solver|]. unfold hostRefresh. lia.
Qed.

#[export] Instance broker_promise : Promise broker_front V.
Proof.
  refine (Build_Promise _ _ _ _ _ broker_laws known allowed_to same_headers false _ _ _ _ _ _).
  - intros w st req st' d hold Hw Hk. simpl. destruct (Broker_Decide _ _ _ _ _) as [st2 [d2|]] eqn:Hd; [|done].
    intros [= <- <- _]. by eapply Decide_allowed.
  - intros w st req st' d hold. simpl. destruct (Broker_Decide _ _ _ _ _) as [st2 [d2|]]; [|done]. by intros [= _ _ <-].
  - intros w st req Hw. pose proof (Decide_kept w st req Hw) as Hk. simpl. by destruct (Broker_Decide _ _ _ _ _) as [st2 r].
  - intros R res w st req b h body Hw. pose proof (Rewrite_kept_st R res w st w.2 req b h (default "" body) Hw) as Hk. simpl.
    by destruct (Rewrite _ _ _ _ _ _ _ _ _) as [st2 r].
  - intros w st req upstream reason Hw. by apply Untrusted_kept.
  - intros R res w st req b h body st' b' h' body'. simpl. destruct (Rewrite _ _ _ _ _ _ _ _ _) as [st2 [[[b2 h2] text]|]] eqn:Hr; [|done].
    intros [= _ _ <- _]. unfold same_headers. unfold Rewrite in Hr. destruct (sandbox _ _ _ _) as [c [sb|]]; [|done].
    destruct (Broker.swaps_of _ _ _ _) as [swaps|] eqn:Hsw; [|done].
    destruct (substitute res (sort_swaps swaps) b h) as [[b3 h3]|] eqn:Hsub; [|done]. injection Hr as <- <- <- <-. split.
    + unfold substitute in Hsub. apply bind_Some in Hsub as ([b1 h1] & Hh & Hsub). cbv beta iota in Hsub.
      apply (rewrite_header_keys EffectiveTLDPlusOne) in Hh as [Hkeys _]. destruct (contains _ _); [by injection Hsub as <- <-|].
      apply (rewriteBasic_keys EffectiveTLDPlusOne) in Hsub as [Hk2 _]. by rewrite Hk2.
    + intros Ht. rewrite substitute_unchanging in Hsub; [by injection Hsub as <- <-|]. by eapply sort_unchanging, swaps_of_plain.
Defined.

End Broker.

(** ** Theorems *)

(** [New] of the broker: no map of the records yet, and no read of the interfaces. *)
Definition new_broker (st : state) : Prop := byAddr (scache st) = None ∧ lread (slocal st) = 0.

(** C9: nothing a fronted sandbox asks for leaves the host unless its policy allowed it. From a new broker, whatever requests come in,
    however their steps fall among each other and whatever fails, each connection the proxy opens was judged in one call of the
    broker: the sandbox is the one a list of the records has at the source of the request, a list taken under the generation that
    call read; the address is the first the resolver had for the host; the policy of that sandbox allows it; it is none of the
    private ones, none that stands for the host or for all hosts, and none the interfaces of the host answered less than a
    second before; and the log of that sandbox holds the line that says so. The request that goes out is for the host that was
    judged, which is the one its header and its TLS handshake name; it has the header names of the guest's, and over plain HTTP
    the guest's own headers, no secret among them; and its body is the guest's own, whole, as it comes. *)
Theorem proxy_judged `{U : Unicode} gateway policies EffectiveTLDPlusOne st es f out :
  new_broker st → let s := after (H := broker_front gateway policies EffectiveTLDPlusOne) st es in (f, out) ∈ dialed s →
  allowed_in_log gateway policies (answered_in es) (director s) (asked f) (pinned out) ∧
  (∃ a, ParseAddrPort (RemoteAddr (guest f)) = Some a ∧ Source (asked f) = Unmap a) ∧
  URLHost out = Host (asked f) ∧ Host (asked f) = canonicalHost (hostOnly (OHost out)) ∧
  (if https out then Port (asked f) = 443 ∧ ∃ name, ServerName (guest f) = Some name ∧ canonicalHost name = URLHost out
   else Port (asked f) = 80 ∧ OHeader out = GHeader (guest f)) ∧
  (OHeader out).*1 = (GHeader (guest f)).*1 ∧
  OBody out = Streams (whole_body f).
Proof.
  intros [Hc Hl] s Hin.
  destruct (so_dialed _ (after_kept (P := broker_promise gateway policies EffectiveTLDPlusOne (answered_in es)) st es ltac:(done)
    (conj (or_introl Hc) (or_introl Hl))) _ _ Hin) as (Hreq & Hout & (d & _ & Hd & Hpin) & (h & Hcar & Hh)).
  destruct (request_spec _ _ _ Hreq) as (Ha & Hhost & _ & _ & Hport & Htls). destruct Hout as (Ht & Hu & Ho & Hb).
  destruct Hcar as [Hnames Hplain]. destruct (OBody out) as [more|held more|body] eqn:Eb; [|by destruct Hh..]. subst h.
  split_and!; [|done|done|by rewrite Ho| |done|by destruct Hb as [-> _]].
  - by rewrite Hpin.
  - rewrite Ht, Hu. destruct (TLS (asked f)); auto.
Qed.

(** C38: no sandbox takes the daemon's memory or its sockets from the others. Whatever requests come in and wherever they end, what
    is charged to a source is exactly what its requests in flight hold to put secrets in, within the budget of a source; a body is
    never read past what was charged for it; no source has more requests open than its share; and a source that has none left is
    forgotten, with nothing charged. *)
Theorem proxy_accounts {D W E} {H : Director D W E} {P : Promise H (λ _, True)} `{U : Unicode} st es source :
  sound st → let s := after st es in
  charged_to (held_ s) source = sum charge source (flights s) ∧ 0 ≤ charged_to (held_ s) source ≤ heldBudget ∧
  open_by (requests s) source = sum one source (flights s) ∧ open_by (requests s) source ≤ MaxSourceRequests ∧
  (∀ id f d buf more, flights s !! id = Some f → at_ f = Reading d buf more →
     len (bdata buf) ≤ bcap buf ≤ charged_to (held_ s) (Source (asked f)) ∧ bcap buf ≤ BodyCap + 1) ∧
  ((∀ id f, flights s !! id = Some f → Source (asked f) ≠ source) →
     by_source (held_ s) !! source = None ∧ copen (requests s) !! source = None).
Proof.
  intros Hst s. pose proof (after_kept (P := P) st es (λ _ _, I) Hst) as Hs. fold s in Hs. pose proof (so_counted _ Hs) as Hc. split_and!.
  - apply Hc.
  - by apply (charged_nonneg Hc).
  - apply (cd_budget _ _ _ Hc).
  - apply Hc.
  - apply (cd_cap _ _ _ Hc).
  - intros id f d buf more Hf Ha. destruct (so_flights _ Hs _ _ Hf) as [_ Hfo]. rewrite Ha in Hfo. destruct Hfo as (_ & [H1 H2] & _ & H3).
    pose proof (charge_le Hc id f Hf) as Hle. unfold charge in Hle. rewrite Ha in Hle. split_and!; [done|done|].
    unfold read_limit in H2. destruct (0 <=? ContentLength (guest f)); simpl in H2; lia.
  - intros Hn. split.
    + destruct (by_source (held_ s) !! source) as [n|] eqn:Hb; [|done]. exfalso. pose proof (cd_charged _ _ _ Hc source) as Hch.
      rewrite sum_none in Hch by (intros id f Hf Hsrc; by apply Hn in Hf). unfold charged_to in Hch. rewrite Hb in Hch. simpl in Hch. subst n.
      destruct (cd_zero _ _ _ Hc source Hb) as (id & f & out & k & Hf & Hsrc & _). by apply (Hn id f).
    + destruct (copen (requests s) !! source) as [n|] eqn:Ho; [|done]. exfalso. pose proof (cd_open _ _ _ Hc source) as Hop.
      rewrite sum_none in Hop by (intros id f Hf Hsrc; by apply Hn in Hf). unfold open_by in Hop. rewrite Ho in Hop. simpl in Hop. subst n.
      by apply (cd_released _ _ _ Hc source).
Qed.

(** ** A request of a guest, and a body that is held *)

Definition guest_post : guest_request := MkGuest "10.87.0.2:40000" "API.example.com." (Some "api.example.com") [("X-Key", ["mock-TOKEN"])] 5 (Some "hello").

Definition broker_run : list (event (Broker.world * gmap string Secret.entry)) :=
  let w := (quiet_world, token_store "one") in
  [Comes 0 guest_post true; Decides 0 w None true; Rewrites 0 w; Dials 0; Forwarded 0 w (Responded 200)].

Definition run_broker : server state :=
  after (H := broker_front (U := ascii_only) web_gateway web_dir no_suffixes) (U := ascii_only) fresh_state broker_run.

Example broker_ran : answered run_broker = [(0%nat, Passed 200)] ∧ length (dialed run_broker) = 1%nat ∧ flights run_broker = ∅.
Proof. vm_compute. done. Qed.

Lemma proxy_judged_witness :
  ∃ f out, (f, out) ∈ dialed run_broker ∧ URLHost out = "api.example.com" ∧
    allowed_in_log (U := ascii_only) web_gateway web_dir (answered_in broker_run) (director run_broker) (asked f) (pinned out).
Proof.
  destruct (dialed run_broker) as [|[f out] l] eqn:E; [exfalso; vm_compute in E; congruence|].
  assert (Hin : (f, out) ∈ dialed run_broker) by (rewrite E; apply list_elem_of_here).
  exists f, out. rewrite <- E. split; [exact Hin|].
  destruct (proxy_judged (U := ascii_only) web_gateway web_dir no_suffixes fresh_state broker_run f out (conj eq_refl eq_refl) Hin) as (H1 & _ & H2 & _).
  split; [|exact H1]. vm_compute in E. by injection E as <- <-.
Defined.

(** A director that allows every request to one address and has every body held; its rewrite reserves a byte. *)
#[local] Instance holds_all : Director unit unit unit := {|
  Decide_ _ st _ := (st, Ok (MkProxyDecision true (Some (Addr4 134744072, 443)) "" "", true));
  Rewrite_ R res _ st _ b h body := (st, match res b 1 with Some b => Ok (b, h, body) | None => Err tt end);
  Untrusted_ _ st _ _ _ := (st, Ok tt);
  over_budget _ := true
|}.

#[local] Instance holds_all_laws : DirectorLaws holds_all.
Proof.
  intros R res P w st req b h body st' b' h' body' HP Hb. simpl. destruct (res b 1) as [b2|] eqn:Hr; [|done]. intros [= <- <- <- <-].
  by eapply (HP b 1).
Qed.

#[local] Instance holds_all_promise : Promise holds_all (λ _, True).
Proof. by refine (Build_Promise _ _ _ _ _ holds_all_laws (λ _, True) (λ _ _ _, True) (λ _ _ _, True) true _ _ _ _ _ _). Defined.

Definition held_run : list (event unit) := [Comes 0 guest_post true; Decides 0 tt None true; Reads 0 2 ReadOk true; Reads 0 9 ReadEOF true; Rewrites 0 tt; Dials 0].

Lemma proxy_accounts_witness :
  let s := after (U := ascii_only) tt held_run in
  charged_to (held_ s) guest_addr = 6 ∧ sum charge guest_addr (flights s) = 6 ∧ open_by (requests s) guest_addr = 1.
Proof.
  intros s. assert (Hc : charged_to (held_ s) guest_addr = 6) by (vm_compute; reflexivity).
  destruct (proxy_accounts (P := holds_all_promise) (U := ascii_only) tt held_run guest_addr I) as (H1 & _ & H2 & _).
  split; [exact Hc|]. split; [rewrite <- Hc; symmetry; exact H1|]. vm_compute. reflexivity.
Defined.
