(* ===== verification/ProxyConns.v ===== *)
(** * The connections of the guests to the proxy

    [pkg/proxy/conns.go]: a connection is taken in while its source holds less than its share, over both ports; the handshake of
    one may be offered h2 while the source holds less than its share of those; the first close gives back both. *)

From S2P Require Import Prelude GoStrings Netip Models PreAuth Proxy ProxyGuard.
Local Open Scope Z_scope.

(** [counted]: a connection that was taken in. *)
Record counted_conn : Type := MkCounted { csource : Addr; multiplexed : bool }.

(** The two counts of the [Server], and the connections that are open. *)
Record listeners : Type := MkListeners { conns_ : conns; h2conns : conns; wires : gmap nat counted_conn }.

Definition Serve : listeners := MkListeners (MkConns MaxSourceConns ∅) (MkConns guestH2Conns ∅) ∅.

(** One turn of [Accept]; a connection over the cap is closed. *)
Definition Accept (id : nat) (remote : string) (l : listeners) : listeners * bool :=
  match take_share (sourceOf remote) (conns_ l) with
  | None => (l, false)
  | Some c => (MkListeners c (h2conns l) (<[id := MkCounted (sourceOf remote) false]> (wires l)), true)
  end.

(** [multiplex]: whether the handshake offers h2. *)
Definition multiplex (id : nat) (protos : list string) (l : listeners) : listeners * bool :=
  match wires l !! id with
  | None => (l, false)
  | Some c =>
      if negb (contains protos "h2") then (l, false)
      else match take_share (csource c) (h2conns l) with
           | None => (l, false)
           | Some h => (MkListeners (conns_ l) h (<[id := MkCounted (csource c) true]> (wires l)), true)
           end
  end.

(** The first [Close]; the ones after find nothing to give back. *)
Definition Close (id : nat) (l : listeners) : listeners :=
  match wires l !! id with
  | None => l
  | Some c =>
      MkListeners (release (csource c) (conns_ l)) (if multiplexed c then release (csource c) (h2conns l) else h2conns l) (delete id (wires l))
  end.

(** A connection is accepted, handshakes once, and is closed any number of times. *)
Inductive conn_event : Type := Accepts (id : nat) (remote : string) | Handshakes (id : nat) (protos : list string) | Closes (id : nat).

Definition happens (e : conn_event) (l : listeners) : listeners :=
  match e with
  | Accepts id remote => match wires l !! id with Some _ => l | None => (Accept id remote l).1 end
  | Handshakes id protos =>
      match wires l !! id with Some (MkCounted _ false) => (multiplex id protos l).1 | _ => l end
  | Closes id => Close id l
  end.

Definition after (es : list conn_event) : listeners := foldl (λ l e, happens e l) Serve es.

(** ** The shares *)

Definition open_conns (source : Addr) : gmap nat counted_conn → Z := map_sum (λ c, if bool_decide (csource c = source) then 1 else 0).
Definition open_h2 (source : Addr) : gmap nat counted_conn → Z :=
  map_sum (λ c, if bool_decide (csource c = source) && multiplexed c then 1 else 0).

Record shares_ok (l : listeners) : Prop := {
  sh_limit : climit (conns_ l) = MaxSourceConns;
  sh_h2limit : climit (h2conns l) = guestH2Conns;
  sh_open : ∀ source, open_by (conns_ l) source = open_conns source (wires l);
  sh_h2 : ∀ source, open_by (h2conns l) source = open_h2 source (wires l);
  sh_cap : ∀ source, open_by (conns_ l) source ≤ MaxSourceConns;
  sh_h2cap : ∀ source, open_by (h2conns l) source ≤ guestH2Conns
}.

Lemma Accept_ok id remote l : wires l !! id = None → shares_ok l → shares_ok (Accept id remote l).1.
Proof.
  intros Hn [H1 H2 H3 H4 H5 H6]. unfold Accept. destruct (take_share _ _) as [c|] eqn:Ht; [|done]. unfold open_conns, open_h2 in *. split; simpl.
  - destruct (take_open _ _ _ (sourceOf remote) Ht) as (-> & _). done.
  - done.
  - intros s. destruct (take_open _ _ _ s Ht) as (_ & -> & _). unfold open_conns. rewrite map_sum_insert, H3 by done. simpl. lia.
  - intros s. unfold open_h2. rewrite map_sum_insert, H4 by done. simpl. rewrite andb_false_r. lia.
  - intros s. destruct (take_open _ _ _ s Ht) as (_ & -> & Hlt). specialize (H5 s). rewrite H1 in Hlt.
    destruct (bool_decide_reflect (sourceOf remote = s)) as [<-|]; lia.
  - done.
Qed.

Lemma multiplex_ok id c protos l : wires l !! id = Some c → multiplexed c = false → shares_ok l → shares_ok (multiplex id protos l).1.
Proof.
  intros Hc Hm [H1 H2 H3 H4 H5 H6]. unfold multiplex. rewrite Hc. destruct (contains _ _); [|done]. simpl.
  destruct (take_share _ _) as [h|] eqn:Ht; [|done]. unfold open_conns, open_h2 in *. split; simpl; try done.
  - destruct (take_open _ _ _ (csource c) Ht) as (-> & _). done.
  - intros s. unfold open_conns. rewrite (map_sum_move _ id c), H3 by done. simpl. lia.
  - intros s. destruct (take_open _ _ _ s Ht) as (_ & -> & _). unfold open_h2. rewrite (map_sum_move _ id c), H4 by done. simpl. rewrite Hm.
    rewrite andb_false_r, andb_true_r. lia.
  - intros s. destruct (take_open _ _ _ s Ht) as (_ & -> & Hlt). specialize (H6 s). rewrite H2 in Hlt.
    destruct (bool_decide_reflect (csource c = s)) as [<-|]; lia.
Qed.

Lemma closed_shares id l : shares_ok l → shares_ok (Close id l).
Proof.
  intros [H1 H2 H3 H4 H5 H6]. unfold Close. destruct (wires l !! id) as [c|] eqn:Hc; [|done]. unfold open_conns, open_h2 in *. split; simpl.
  - done.
  - by destruct (multiplexed c).
  - intros s. rewrite release_open, H3. unfold open_conns. rewrite (map_sum_delete _ id c (wires l)) by done. lia.
  - intros s. unfold open_h2. specialize (H4 s). rewrite (map_sum_delete _ id c (wires l)) in H4 by done. destruct (multiplexed c).
    + rewrite release_open. rewrite andb_true_r in H4. lia.
    + rewrite andb_false_r in H4. lia.
  - intros s. rewrite release_open. specialize (H5 s). destruct (bool_decide _); lia.
  - intros s. specialize (H6 s). destruct (multiplexed c); [|done]. rewrite release_open. destruct (bool_decide _); lia.
Qed.

Lemma happens_shares e l : shares_ok l → shares_ok (happens e l).
Proof.
  intros Hl. destruct e as [id remote|id protos|id]; simpl; [| |by apply closed_shares]; destruct (wires l !! id) as [[s m]|] eqn:Hc; try done.
  - by apply Accept_ok.
  - destruct m; [done|]. by apply (multiplex_ok id (MkCounted s false)).
Qed.

(** No source holds more connections than its share, nor more of them h2 than lets it hold as many streams as it may
    connections; what is counted is what is open, and a source with none open may open its whole share again. *)
Theorem conns_bounded es source :
  let l := after es in
  open_by (conns_ l) source = open_conns source (wires l) ∧ open_conns source (wires l) ≤ MaxSourceConns ∧
  open_by (h2conns l) source = open_h2 source (wires l) ∧ open_h2 source (wires l) * guestH2Streams ≤ MaxSourceConns.
Proof.
  intros l. assert (shares_ok l) as [H1 H2 H3 H4 H5 H6].
  { subst l. unfold after. assert (shares_ok Serve) as Hs by (split; try done; by intros s).
    revert Hs. generalize Serve. induction es as [|e es IH]; intros l Hl; [done|]. simpl. apply IH. by apply happens_shares. }
  specialize (H3 source). specialize (H4 source). specialize (H5 source). specialize (H6 source).
  split_and!; [done|lia|done|]. change guestH2Streams with 32. change MaxSourceConns with 1024 in *. change guestH2Conns with 32 in *. lia.
Qed.

(** A connection that is closed twice gives back its two shares once. *)
Example h2_shared :
  let l := after [Accepts 0 "10.87.0.2:40000"; Handshakes 0 ["h2"; "http/1.1"]; Accepts 1 "10.87.0.2:40001"; Handshakes 1 ["http/1.1"]; Closes 0; Closes 0] in
  wires l !! 0%nat = None ∧ (multiplexed <$> wires l !! 1%nat) = Some false ∧ h2conns l = MkConns guestH2Conns ∅.
Proof. vm_compute. done. Qed.
