(* ===== verification/LogRate.v ===== *)
(** * The lines a source may put in a log

    [pkg/lograte/lograte.go]: the lines that each guest causes are written up to a bound, and a later line counts the ones that were
    held back. The limiter of a source belongs to another package: whether it lets a line through, and whether its bucket is
    full, are arguments of each call. *)

From S2P Require Import Prelude GoStrings Netip.
Local Open Scope Z_scope.

Definition maxSources : Z := 1024.
Definition tallyAfter : Z := 1000000000.

(** [Log]: the lines held back of each source, when it last swept, the counts that are due, and what was written: lines, and counts
    of a source. *)
Record Log : Type := MkLog { sources : gmap Addr Z; swept : option Z; due : list Addr; written : Z; counts : list (Addr * Z) }.

Definition New : Log := MkLog ∅ None [] 0 [].

Definition crowded (m : gmap Addr Z) : bool := maxSources <=? Z.of_nat (size m).

(** [track]: [full] says of a source whether its bucket is full. *)
Definition track (now : Z) (full : Addr → bool) (from : Addr) (l : Log) : Log * Addr :=
  if bool_decide (is_Some (sources l !! from)) then (l, from)
  else
    let stale := match swept l with None => true | Some at_ => tallyAfter <=? now - at_ end in
    let l := if crowded (sources l) && stale
             then MkLog (filter (λ '(addr, held), negb ((held =? 0) && full addr) = true) (sources l)) (Some now) (due l) (written l) (counts l)
             else l in
    let add (key : Addr) := (MkLog (<[key := 0]> (sources l)) (swept l) (due l) (written l) (counts l), key) in
    if crowded (sources l) then
      if bool_decide (is_Some (sources l !! AddrInvalid)) then (l, AddrInvalid) else add AddrInvalid
    else add from.

(** [allow]: [lets] is what the limiter of the source answers. *)
Definition allow (now : Z) (full : Addr → bool) (lets : bool) (from : Addr) (l : Log) : Log * bool :=
  let '(l, from) := track now full from l in
  if lets then (l, true)
  else
    let held := default 0 (sources l !! from) + 1 in
    (MkLog (<[from := held]> (sources l)) (swept l) (if held =? 1 then from :: due l else due l) (written l) (counts l), false).

Definition Printf (now : Z) (full : Addr → bool) (lets : bool) (from : Addr) (l : Log) : Log :=
  let '(l, ok) := allow now full lets from l in
  if ok then MkLog (sources l) (swept l) (due l) (written l + 1) (counts l) else l.

(** [count], when its timer fires; a source that is not there is a nil pointer. *)
Definition count (from : Addr) (l : Log) : option Log :=
  held ← sources l !! from;
  Some (MkLog (<[from := 0]> (sources l)) (swept l) (filter (λ a, a ≠ from) (due l)) (written l) (counts l ++ [(from, held)])).

Inductive event : Type := Prints (from : Addr) (now : Z) (full : Addr → bool) (lets : bool) | Fires (from : Addr).

Definition happens (e : event) (l : Log) : option Log :=
  match e with
  | Prints from now full lets => Some (Printf now full lets from l)
  | Fires from => if bool_decide (from ∈ due l) then count from l else Some l
  end.

Fixpoint after (es : list event) (l : Log) : option Log :=
  match es with [] => Some l | e :: es => l ← happens e l; after es l end.

Definition lines_of (es : list event) : Z :=
  Z.of_nat (length (List.filter (λ e, match e with Prints _ _ _ _ => true | Fires _ => false end) es)).

(** The lines that were counted. *)
Definition counted (l : Log) : Z := foldr (λ c n, c.2 + n) 0 (counts l).

(** ** Theorems *)

Record log_ok (l : Log) : Prop := {
  lo_nodup : NoDup (due l);
  lo_due : ∀ a, a ∈ due l ↔ ∃ h, sources l !! a = Some h ∧ 0 < h;
  lo_held : ∀ a h, sources l !! a = Some h → 0 ≤ h;
  lo_size : Z.of_nat (size (delete AddrInvalid (sources l))) ≤ maxSources
}.

Abbreviation held_back m := (map_sum id m).

Lemma sources_insert a (m : gmap Addr Z) : m !! a = None → held_back (<[a := 0]> m) = held_back m.
Proof. intros Ha. rewrite map_sum_insert by done. done. Qed.

(** A source with nothing held may be forgotten. *)
Lemma swept_sum (P : Addr → Z → Prop) `{∀ a h, Decision (P a h)} (m : gmap Addr Z) : (∀ a h, m !! a = Some h → ¬ P a h → h = 0) →
  held_back (filter (λ '(a, h), P a h) m) = held_back m.
Proof.
  induction m as [|a h m Ha IH] using map_ind; intros Hp; [done|].
  assert (held_back (filter (λ '(a, h), P a h) m) = held_back m) as E.
  { apply IH. intros b k Hb. apply Hp. rewrite lookup_insert_ne; [done|congruence]. }
  rewrite map_sum_insert by done. destruct (decide (P a h)) as [Hy|Hn].
  - rewrite map_filter_insert_True by done. rewrite map_sum_insert, E; [done|]. apply map_lookup_filter_None. left. done.
  - rewrite map_filter_insert_False by done. rewrite delete_id by done. rewrite E, (Hp a h); [done|apply lookup_insert_eq|done].
Qed.

Definition same_lines (l l' : Log) : Prop := due l' = due l ∧ written l' = written l ∧ counts l' = counts l ∧ held_back (sources l') = held_back (sources l).

Lemma sweep_ok now full l :
  let m := filter (λ '(addr, held), negb ((held =? 0) && full addr) = true) (sources l) in
  log_ok l → log_ok (MkLog m (Some now) (due l) (written l) (counts l)) ∧ held_back m = held_back (sources l).
Proof.
  intros m [H1 H2 H3 H4]. assert (∀ a h, sources l !! a = Some h → ¬ (negb ((h =? 0) && full a) = true) → h = 0) as Hz.
  { intros a h _ Hn. destruct (Z.eqb_spec h 0); [done|]. by destruct Hn. }
  assert (∀ a h, m !! a = Some h → sources l !! a = Some h) as Hsub. { intros a h Hh. by apply map_lookup_filter_Some in Hh as [? _]. }
  split; [|by apply (swept_sum (λ a h, negb ((h =? 0) && full a) = true))]. split; simpl; [done| |eauto|].
  - intros a. rewrite H2. split; intros (h & Ha & Hp); exists h; (split; [|done]); [|by apply Hsub].
    apply map_lookup_filter_Some. split; [done|]. destruct (Z.eqb_spec h 0); [lia|done].
  - subst m. rewrite <- map_filter_delete. etrans; [|exact H4]. apply Nat2Z.inj_le, map_size_filter.
Qed.

Lemma add_ok key l : log_ok l → sources l !! key = None → (key = AddrInvalid ∨ crowded (sources l) = false) →
  log_ok (MkLog (<[key := 0]> (sources l)) (swept l) (due l) (written l) (counts l)).
Proof.
  intros [H1 H2 H3 H4] Hk Hc. split; simpl; [done| | |].
  - intros a. rewrite H2. destruct (decide (a = key)) as [->|]; [|by rewrite lookup_insert_ne].
    rewrite lookup_insert_eq, Hk. split; intros (h & [= <-] & Hp); lia.
  - intros a h. destruct (decide (a = key)) as [->|]; [rewrite lookup_insert_eq; by intros [= <-]|rewrite lookup_insert_ne by done; eauto].
  - destruct Hc as [->|Hc]; [by rewrite delete_insert_eq|]. unfold crowded in Hc. apply Z.leb_gt in Hc.
    pose proof (map_size_insert_None key 0 (sources l) Hk) as Hs. pose proof (map_size_delete AddrInvalid (<[key := 0]> (sources l))) as Hd.
    destruct (<[key := 0]> (sources l) !! AddrInvalid); unfold id in *; lia.
Qed.

Lemma track_ok now full from l : log_ok l →
  let '(l', key) := track now full from l in log_ok l' ∧ same_lines l l' ∧ is_Some (sources l' !! key).
Proof.
  intros Hl. unfold track. destruct (bool_decide_reflect (is_Some (sources l !! from))) as [|Hn]; [by split_and!|].
  set (l1 := if crowded (sources l) && _ then _ else l). assert (log_ok l1 ∧ same_lines l l1 ∧ sources l1 !! from = None) as (Hl1 & Hsame & Hnone).
  { subst l1. apply eq_None_not_Some in Hn. destruct (crowded (sources l) && _); [|by split_and!].
    destruct (sweep_ok now full l Hl) as [Ho Hs]. split_and!; [done|by split_and!|]. simpl. apply map_lookup_filter_None. by left. }
  clearbody l1. destruct Hsame as (S1 & S2 & S3 & S4). destruct (crowded (sources l1)) eqn:Hc.
  - destruct (bool_decide_reflect (is_Some (sources l1 !! AddrInvalid))) as [|Hi]; [by split_and!|]. apply eq_None_not_Some in Hi.
    split_and!; [apply add_ok; auto|split_and!; simpl; try done; by rewrite sources_insert|]. simpl. by rewrite lookup_insert_eq.
  - split_and!; [apply add_ok; auto|split_and!; simpl; try done; by rewrite sources_insert|]. simpl. by rewrite lookup_insert_eq.
Qed.

(** All the lines so far: written, counted, or waiting to be. *)
Definition lines (l : Log) : Z := written l + counted l + held_back (sources l).

Lemma Printf_ok now full lets from l : log_ok l → log_ok (Printf now full lets from l) ∧ lines (Printf now full lets from l) = lines l + 1.
Proof.
  intros Hl. unfold Printf, allow. pose proof (track_ok now full from l Hl) as Ht. destruct (track now full from l) as [l1 key].
  destruct Ht as ([H1 H2 H3 H4] & (S1 & S2 & S3 & S4) & [h Hk]). unfold lines, counted. destruct lets; simpl.
  { rewrite S2, S3, S4. split; [by split|lia]. }
  rewrite Hk. simpl. pose proof (H3 key h Hk) as Hh. rewrite S2, S3, (map_sum_move _ key h) by done. split; [|rewrite S4; unfold id; lia].
  assert (∀ a, (∃ k, <[key := h + 1]> (sources l1) !! a = Some k ∧ 0 < k) ↔ a = key ∨ a ∈ due l1) as Hd.
  { intros a. rewrite H2. destruct (decide (a = key)) as [->|Hne].
    - rewrite lookup_insert_eq. split; [by left|]. intros _. eexists. split; [done|lia].
    - rewrite lookup_insert_ne by done. naive_solver. }
  split; simpl.
  - destruct (Z.eqb_spec (h + 1) 1) as [E|]; [|done]. apply NoDup_cons. split; [|done]. rewrite H2. intros (k & Hk2 & Hp). rewrite Hk in Hk2. simplify_eq. lia.
  - intros a. rewrite Hd. destruct (Z.eqb_spec (h + 1) 1) as [E|Hne]; [by rewrite elem_of_cons|]. split; [by right|]. intros [->|]; [|done].
    apply H2. exists h. split; [done|lia].
  - intros a k. destruct (decide (a = key)) as [->|]; [rewrite lookup_insert_eq; intros [= <-]; lia|rewrite lookup_insert_ne by done; eauto].
  - pose proof (map_size_delete AddrInvalid (<[key := h + 1]> (sources l1))) as Hs1. pose proof (map_size_delete AddrInvalid (sources l1)) as Hs2.
    rewrite (map_size_insert_Some key (h + 1) (sources l1) (ex_intro _ h Hk)) in Hs1. destruct (decide (key = AddrInvalid)) as [->|Hne].
    + by rewrite delete_insert_eq.
    + rewrite lookup_insert_ne in Hs1 by done. destruct (sources l1 !! AddrInvalid); unfold id in *; lia.
Qed.

Lemma counted_snoc cs c : foldr (λ (c : Addr * Z) n, c.2 + n) 0 (cs ++ [c]) = foldr (λ c n, c.2 + n) 0 cs + c.2.
Proof. induction cs as [|x cs IH]; simpl; [lia|]. rewrite IH. lia. Qed.

Lemma count_ok from l : log_ok l → from ∈ due l → ∃ l', count from l = Some l' ∧ log_ok l' ∧ lines l' = lines l.
Proof.
  intros [H1 H2 H3 H4] Hin. pose proof Hin as (h & Hf & Hp)%H2. unfold count. rewrite Hf. simpl. eexists. split; [done|]. split.
  - split; simpl.
    + by apply NoDup_filter.
    + intros a. rewrite list_elem_of_filter, H2. destruct (decide (a = from)) as [->|Hne].
      * rewrite lookup_insert_eq. split; [naive_solver|]. intros (k & [= <-] & Hk). lia.
      * rewrite lookup_insert_ne by done. naive_solver.
    + intros a k. destruct (decide (a = from)) as [->|]; [rewrite lookup_insert_eq; by intros [= <-]|rewrite lookup_insert_ne by done; eauto].
    + pose proof (map_size_delete AddrInvalid (<[from := 0]> (sources l))) as Hs1. pose proof (map_size_delete AddrInvalid (sources l)) as Hs2.
      rewrite (map_size_insert_Some from 0 (sources l) (ex_intro _ h Hf)) in Hs1. destruct (decide (from = AddrInvalid)) as [->|Hne].
      * by rewrite delete_insert_eq.
      * rewrite lookup_insert_ne in Hs1 by done. destruct (sources l !! AddrInvalid); unfold id in *; lia.
  - unfold lines, counted. simpl. rewrite counted_snoc, (map_sum_move _ from h) by done. simpl. unfold id. lia.
Qed.

(** No line goes unseen: whatever the limiters let through and whenever the counts fire, every line a source caused was written, or
    was counted by a line that was, or is held by a source whose count is due; the count finds its source there, so it never
    stops the daemon; and no flood of sources makes the log track more than its bound of them and the one they share. *)
Theorem lines_accounted es : ∃ l, after es New = Some l ∧
  lines_of es = written l + counted l + held_back (sources l) ∧
  (∀ a h, sources l !! a = Some h → 0 ≤ h ∧ (0 < h ↔ a ∈ due l)) ∧
  Z.of_nat (size (sources l)) ≤ maxSources + 1.
Proof.
  assert (∀ l0, log_ok l0 → ∃ l, after es l0 = Some l ∧ log_ok l ∧ lines l = lines l0 + lines_of es) as Ha.
  { induction es as [|e es IH]; intros l0 Hl; [exists l0; split_and!; [done|done|unfold lines_of; simpl; lia]|]. simpl.
    assert (∃ l1, happens e l0 = Some l1 ∧ log_ok l1 ∧ lines l1 + lines_of es = lines l0 + lines_of (e :: es)) as (l1 & -> & Ho & Hlines).
    { unfold lines_of. destruct e as [from now full lets|from]; simpl.
      - eexists. split; [done|]. destruct (Printf_ok now full lets from l0 Hl) as [? ->]. split; [done|lia].
      - destruct (bool_decide_reflect (from ∈ due l0)) as [Hin|]; [|by exists l0]. destruct (count_ok from l0 Hl Hin) as (l1 & -> & ? & Hq). exists l1. by rewrite Hq. }
    simpl. destruct (IH l1 Ho) as (l & Hl2 & ? & ?). exists l. split_and!; [done|done|lia]. }
  destruct (Ha New) as (l & Hl & [H1 H2 H3 H4] & Hlines). { split; simpl; [constructor| |done|done]. intros a. split; [set_solver|]. intros (h & Hh & _). done. }
  exists l. split_and!; [done| | |].
  - unfold lines in Hlines. change (held_back (sources New)) with 0 in Hlines. change (written New) with 0 in Hlines. change (counted New) with 0 in Hlines. lia.
  - intros a h Hh. split; [eauto|]. rewrite H2. naive_solver.
  - pose proof (map_size_delete AddrInvalid (sources l)) as Hs. destruct (sources l !! AddrInvalid); unfold id in *; lia.
Qed.

Example one_held :
  let quiet := λ _ : Addr, false in
  (λ l, (written l, counts l)) <$> after [Prints (Addr4 1) 0 quiet true; Prints (Addr4 1) 1 quiet false; Prints (Addr4 1) 2 quiet false; Fires (Addr4 1)] New
  = Some (1, [(Addr4 1, 2)]).
Proof. vm_compute. done. Qed.
