(* ===== verification/Netstack.v ===== *)
(** * The user-space network stack

    [pkg/netstack/{policy,forward,netstack}.go]: the frames of a VM end in a stack of the daemon's own, which takes in what comes from
    the guest of the link and is for a port it serves or redirects, or for the judge; a flow the judge allows is dialed from the
    host, within the shares of the link and of the stack. How a frame is laid out belongs to another package, so its readers are
    the methods of a class; so does the stack between a frame that is taken and a request to forward, so any request may come. *)

From S2P Require Import Prelude GoStrings Netip Models Network.
Local Open Scope Z_scope.

Abbreviation bytes := (list Z).

(** The readers of [gvisor.dev/gvisor/pkg/tcpip/header] the stack uses. *)
Class FrameHeaders : Type := {
  EthernetMinimumSize : Z;
  IPv4MinimumSize : Z;
  IPv6MinimumSize : Z;
  ARPSize : Z;
  TCPMinimumSize : Z;
  UDPMinimumSize : Z;
  eth_Type : bytes → Z;
  ip_SourceAddress : bytes → Addr;
  ip_DestinationAddress : bytes → Addr;
  ip_TransportProtocol : bytes → Z;
  ip_FragmentOffset : bytes → Z;
  ip_HeaderLength : bytes → Z;
  ip6_DestinationAddress : bytes → Addr;
  arp_ProtocolAddressSender : bytes → Addr;
  tcp_DestinationPort : bytes → Z;
  udp_DestinationPort : bytes → Z
}.

Definition IPv4ProtocolNumber : Z := 2048.
Definition ARPProtocolNumber : Z := 2054.
Definition IPv6ProtocolNumber : Z := 34525.
Definition ICMPv4ProtocolNumber : Z := 1.
Definition TCPProtocolNumber : Z := 6.
Definition UDPProtocolNumber : Z := 17.

Definition size_of (b : bytes) : Z := Z.of_nat (length b).

Record Drop : Type := MkDrop { Guest : Addr; Destination : Addr; Protocol : string; DPort : Z; DropRule : string }.

(** [Config], what the listeners opened, and [open]. [Redirected] is [None] where every guest is redirected. *)
Record Config : Type := MkConfig {
  Address : Addr;
  Redirects : gmap Z Z;
  Redirected : option (Addr → bool);
  judges : bool;
  tcpPorts : gset Z;
  udpPorts : gset Z;
  open_ : bool
}.

Section Frames.
Context {F : FrameHeaders} (c : Config).

Definition serves (proto port : Z) : bool :=
  if proto =? TCPProtocolNumber then bool_decide (port ∈ tcpPorts c)
  else if proto =? UDPProtocolNumber then bool_decide (port ∈ udpPorts c)
  else false.

Definition forwardable (proto port : Z) : bool :=
  judges c && ((proto =? TCPProtocolNumber) || (proto =? UDPProtocolNumber)) && negb (port =? 0) && negb (serves proto port).

Definition redirected (guest : Addr) : bool := match Redirected c with None => true | Some f => f guest end.

Definition transportPort (ip : bytes) : Z :=
  if negb (ip_FragmentOffset ip =? 0) || (size_of ip <? ip_HeaderLength ip) then 0
  else
    let body := drop (Z.to_nat (ip_HeaderLength ip)) ip in
    if ip_TransportProtocol ip =? TCPProtocolNumber then if TCPMinimumSize <=? size_of body then tcp_DestinationPort body else 0
    else if ip_TransportProtocol ip =? UDPProtocolNumber then if UDPMinimumSize <=? size_of body then udp_DestinationPort body else 0
    else 0.

Definition protocolName (proto : Z) : string :=
  if proto =? TCPProtocolNumber then "tcp"
  else if proto =? UDPProtocolNumber then "udp"
  else if proto =? ICMPv4ProtocolNumber then "icmp"
  else Itoa proto.

Definition body_of (frame : bytes) : bytes := drop (Z.to_nat EthernetMinimumSize) frame.

Definition fromGuest (guest : Addr) (frame : bytes) : bool :=
  if size_of frame <? EthernetMinimumSize then false
  else
    let body := body_of frame in
    if eth_Type frame =? IPv4ProtocolNumber then (IPv4MinimumSize <=? size_of body) && bool_decide (ip_SourceAddress body = guest)
    else if eth_Type frame =? ARPProtocolNumber then (ARPSize <=? size_of body) && bool_decide (arp_ProtocolAddressSender body = guest)
    else false.

Definition refused (guest : Addr) (frame : bytes) : Drop :=
  if size_of frame <? EthernetMinimumSize then MkDrop guest AddrInvalid "runt" 0 ""
  else
    let body := body_of frame in
    let type := eth_Type frame in
    if type =? IPv6ProtocolNumber then
      MkDrop guest (if IPv6MinimumSize <=? size_of body then ip6_DestinationAddress body else AddrInvalid) "ipv6" 0 ""
    else if (type =? IPv4ProtocolNumber) || (type =? ARPProtocolNumber) then
      if (type =? IPv4ProtocolNumber) && (IPv4MinimumSize <=? size_of body)
      then MkDrop guest (ip_DestinationAddress body) ("forged " +:+ protocolName (ip_TransportProtocol body)) (transportPort body) ""
      else MkDrop guest AddrInvalid "forged" 0 ""
    else MkDrop guest AddrInvalid ("ethertype " +:+ Itoa type) 0 "".

(** [judge]: a drop, or [None] for a frame the stack takes. *)
Definition judge (guest : Addr) (frame : bytes) : option Drop :=
  if open_ c then None
  else if negb (fromGuest guest frame) then Some (refused guest frame)
  else if negb (eth_Type frame =? IPv4ProtocolNumber) then None
  else
    let ip := body_of frame in
    let proto := ip_TransportProtocol ip in
    let port := transportPort ip in
    if (proto =? TCPProtocolNumber) && bool_decide (is_Some (Redirects c !! port)) && redirected guest then None
    else
      let onAddress := bool_decide (ip_DestinationAddress ip = Address c) in
      if onAddress && serves proto port then None
      else if negb onAddress && forwardable proto port then None
      else Some (MkDrop guest (ip_DestinationAddress ip) (protocolName proto) port "").

End Frames.

(** ** Flows *)

Definition maxLinkFlows : Z := 1024.
Definition maxStackFlows : Z := 4096.
Definition RuleLimit : string := "limit".
Definition RuleRedirect : string := "redirect".

(** [Link]: its guest, the flows admitted on it, and whether it is closing. *)
Record link : Type := MkLink { lguest : Addr; lactive : Z; closing : bool }.

(** A flow that was admitted: on its way to the host, spliced and tracked by its link, or taken by a listener. *)
Inductive stage : Type := Dialing | Spliced | Listened.
#[export] Instance stage_eq_dec : EqDecision stage.
Proof. solve_decision. Defined.
Record flow_ : Type := MkFlow_ { flink : nat; fwhat : Flow; fstage : stage }.

(** What a flow is forwarded under: whether it is TCP, the configuration, whether its destination is local, and the judge. *)
Record ruling : Type := MkRuling { rtcp : bool; rconfig : Config; rlocal : bool; rjudge : Judge }.

(** [Stack]: the links that were made, the ones attached, the flows admitted, what was dialed for which link and under which ruling,
    and the drops handed to [report], before its limiter. *)
Record stack : Type := MkStack {
  links : gmap nat link;
  attached : list nat;
  nextID : nat;
  active : Z;
  closed : bool;
  flows : gmap nat flow_;
  dialed : list (nat * Flow * ruling);
  reported : list Drop
}.

Definition New : stack := MkStack ∅ [] 1 0 false ∅ [] [].

Definition set_links (m : gmap nat link) (n : Z) (s : stack) : stack :=
  MkStack m (attached s) (nextID s) n (closed s) (flows s) (dialed s) (reported s).
Definition set_flows (m : gmap nat flow_) (s : stack) : stack :=
  MkStack (links s) (attached s) (nextID s) (active s) (closed s) m (dialed s) (reported s).
Definition report (d : Drop) (s : stack) : stack :=
  MkStack (links s) (attached s) (nextID s) (active s) (closed s) (flows s) (dialed s) (reported s ++ [d]).

Definition guest_of (s : stack) (id : nat) : option Addr := lguest <$> links s !! id.

(** [linkOf]. *)
Definition linkOf (guest : Addr) (s : stack) : option nat := first_match (λ id, bool_decide (guest_of s id = Some guest)) (attached s).

(** [Attach], less the calls that make a NIC. *)
Definition Attach (guest : Addr) (s : stack) : stack :=
  if negb (Is4 guest) || closed s || bool_decide (is_Some (linkOf guest s)) then s
  else MkStack (<[nextID s := MkLink guest 0 false]> (links s)) (attached s ++ [nextID s]) (S (nextID s)) (active s) (closed s) (flows s) (dialed s) (reported s).

(** [admit] and [release] of a link. *)
Definition admits (id : nat) (s : stack) : option stack :=
  l ← links s !! id;
  if closing l || (maxLinkFlows <=? lactive l) || (maxStackFlows <=? active s) then None
  else Some (set_links (<[id := MkLink (lguest l) (lactive l + 1) (closing l)]> (links s)) (active s + 1) s).

Definition release (id : nat) (s : stack) : stack :=
  match links s !! id with
  | None => s
  | Some l => set_links (<[id := MkLink (lguest l) (lactive l - 1) (closing l)]> (links s)) (active s - 1) s
  end.

Definition drop_of (f : Flow) (rule : string) : Drop := MkDrop (FGuest f) (FAddr f) (FProtocol f) (FPort f) rule.

(** The end of a flow. *)
Definition ends (fid : nat) (s : stack) : stack :=
  match flows s !! fid with
  | None => s
  | Some f => release (flink f) (set_flows (delete fid (flows s)) s)
  end.

(** [forwardTCP] and [forwardUDP], up to the splice, and the dial that begins it. *)
Definition forward (fid : nat) (f : Flow) (r : ruling) (s : stack) : stack :=
  match linkOf (FGuest f) s with
  | None => s
  | Some id =>
      if rtcp r && bool_decide (is_Some (Redirects (rconfig r) !! FPort f)) && redirected (rconfig r) (FGuest f) then report (drop_of f RuleRedirect) s
      else
        let v := Judge_Judge (rlocal r) (rjudge r) f in
        if negb (VAllow v) then report (drop_of f (VRule v)) s
        else match admits id s with
             | None => report (drop_of f RuleLimit) s
             | Some s =>
                 MkStack (links s) (attached s) (nextID s) (active s) (closed s) (<[fid := MkFlow_ id f Dialing]> (flows s))
                   (dialed s ++ [(id, f, r)]) (reported s)
             end
  end.

(** The rest of [spliceTCP] and [spliceUDP]: [dials] is whether the host side and the guest side opened; [track] takes none once
    the link is closing. *)
Definition splice (fid : nat) (dials : bool) (s : stack) : stack :=
  match flows s !! fid with
  | Some (MkFlow_ id f Dialing) =>
      if negb dials then ends fid s
      else match links s !! id with
           | Some l => if closing l then ends fid s else set_flows (<[fid := MkFlow_ id f Spliced]> (flows s)) s
           | None => s
           end
  | _ => s
  end.

(** [Accept] of a listener: [stale] is whether the NAT table redirected the flow of a guest that is not redirected any more. *)
Definition accept (fid : nat) (f : Flow) (stale : bool) (s : stack) : stack :=
  match linkOf (FGuest f) s with
  | None => s
  | Some id =>
      if stale then report (drop_of f RuleRedirect) s
      else match admits id s with
           | None => report (drop_of f RuleLimit) s
           | Some s => set_flows (<[fid := MkFlow_ id f Listened]> (flows s)) s
           end
  end.

(** [Close] of a link: from the first step it takes no flow, and it is gone once no splice of it is left. *)
Definition closes (id : nat) (s : stack) : stack :=
  match links s !! id with
  | None => s
  | Some l => set_links (<[id := MkLink (lguest l) (lactive l) true]> (links s)) (active s) s
  end.

Definition splicing (id : nat) (s : stack) : Prop := map_Exists (λ _ f, flink f = id ∧ fstage f = Spliced) (flows s).

#[export] Instance splicing_dec id s : Decision (splicing id s).
Proof. unfold splicing. apply _. Defined.

Definition gone (id : nat) (s : stack) : stack :=
  if bool_decide (splicing id s) || negb (default false (closing <$> links s !! id)) then s
  else MkStack (links s) (filter (λ x, x ≠ id) (attached s)) (nextID s) (active s) (closed s) (flows s) (dialed s) (reported s).

Inductive event : Type :=
| Attaches (guest : Addr)
| Forwards (fid : nat) (f : Flow) (r : ruling)
| Splices (fid : nat) (dials : bool)
| Accepts (fid : nat) (f : Flow) (stale : bool)
| Ends (fid : nat)
| Closes (id : nat)
| Gone (id : nat).

Definition happens (e : event) (s : stack) : stack :=
  match e with
  | Attaches guest => Attach guest s
  | Forwards fid f r => if bool_decide (is_Some (flows s !! fid)) then s else forward fid f r s
  | Splices fid dials => splice fid dials s
  | Accepts fid f stale => if bool_decide (is_Some (flows s !! fid)) then s else accept fid f stale s
  | Ends fid => match flows s !! fid with Some (MkFlow_ _ _ Dialing) => s | _ => ends fid s end
  | Closes id => closes id s
  | Gone id => gone id s
  end.

Definition after (es : list event) : stack := foldl (λ s e, happens e s) New es.

(** ** Theorems *)

(** A frame the stack takes was sent by the guest of its link: it asks who has an address, or it is a packet from the guest's own
    address, to a port that is redirected for the guest, to a port a listener serves on the address of the stack, or off that
    address to a port none serves, over TCP or UDP and only where a judge will rule on it. *)
Theorem taken_frames {F : FrameHeaders} (c : Config) guest frame : open_ c = false → judge c guest frame = None →
  let ip := body_of frame in
  let port := transportPort ip in
  let proto := ip_TransportProtocol ip in
  eth_Type frame = ARPProtocolNumber ∧ arp_ProtocolAddressSender ip = guest ∨
  eth_Type frame = IPv4ProtocolNumber ∧ ip_SourceAddress ip = guest ∧
  (proto = TCPProtocolNumber ∧ is_Some (Redirects c !! port) ∧ redirected c guest = true ∨
   ip_DestinationAddress ip = Address c ∧ serves c proto port = true ∨
   ip_DestinationAddress ip ≠ Address c ∧ judges c = true ∧ (proto = TCPProtocolNumber ∨ proto = UDPProtocolNumber) ∧ port ≠ 0 ∧ serves c proto port = false).
Proof.
  intros Ho. unfold judge. rewrite Ho. destruct (fromGuest guest frame) eqn:Hg; [|done]. simpl. unfold fromGuest in Hg.
  destruct (size_of frame <? EthernetMinimumSize); [done|]. destruct (Z.eqb_spec (eth_Type frame) IPv4ProtocolNumber) as [H4|H4]; simpl.
  - apply andb_true_iff in Hg as [_ Hg%bool_decide_eq_true]. intros Hj. right. split_and!; [done|done|]. set (ip := body_of frame) in *.
    destruct ((ip_TransportProtocol ip =? TCPProtocolNumber) && bool_decide (is_Some (Redirects c !! transportPort ip)) && redirected c guest) eqn:Hr.
    + apply andb_true_iff in Hr as [[Hp%Z.eqb_eq Hr%bool_decide_eq_true]%andb_true_iff Hd]. by left.
    + right. destruct (bool_decide_reflect (ip_DestinationAddress ip = Address c)) as [Hd|Hd]; simpl in Hj.
      * left. split; [done|]. by destruct (serves c _ _).
      * right. split; [done|]. destruct (forwardable c (ip_TransportProtocol ip) (transportPort ip)) eqn:Hf; [|done]. unfold forwardable in Hf.
        apply andb_true_iff in Hf as [[[Hj' Hp%orb_true_iff]%andb_true_iff Hz%negb_true_iff%Z.eqb_neq]%andb_true_iff Hs%negb_true_iff].
        split_and!; [done| |done|done]. destruct Hp as [Hp%Z.eqb_eq|Hp%Z.eqb_eq]; [by left|by right].
  - destruct (Z.eqb_spec (eth_Type frame) ARPProtocolNumber) as [Ha|Ha]; [|done]. apply andb_true_iff in Hg as [_ Hg%bool_decide_eq_true]. by left.
Qed.

Definition on_link (id : nat) (f : flow_) : Z := if bool_decide (flink f = id) then 1 else 0.

(** The judge allowed the flow, to an address that is neither the host's nor private, and no listener was to take it. *)
Definition ruled (f : Flow) (r : ruling) : Prop :=
  VAllow (Judge_Judge (rlocal r) (rjudge r) f) = true ∧ rlocal r = false ∧ contains_addr Private (FAddr f) = false ∧
  (rtcp r = true → is_Some (Redirects (rconfig r) !! FPort f) → redirected (rconfig r) (FGuest f) = false).

Record stack_ok (s : stack) : Prop := {
  st_link : ∀ id l, links s !! id = Some l → lactive l = map_sum (on_link id) (flows s) ∧ lactive l ≤ maxLinkFlows ∧ (id < nextID s)%nat;
  st_active : active s = map_sum (λ _, 1) (flows s) ∧ active s ≤ maxStackFlows;
  st_flow : ∀ fid f, flows s !! fid = Some f → is_Some (links s !! flink f);
  st_attached : NoDup (attached s) ∧ ∀ id, id ∈ attached s → is_Some (links s !! id);
  st_guests : ∀ id id' g, id ∈ attached s → id' ∈ attached s → guest_of s id = Some g → guest_of s id' = Some g → id = id';
  st_spliced : ∀ fid f, flows s !! fid = Some f → fstage f = Spliced → flink f ∈ attached s;
  st_dialed : ∀ id f r, (id, f, r) ∈ dialed s → guest_of s id = Some (FGuest f) ∧ ruled f r
}.

Lemma linkOf_spec guest s id : linkOf guest s = Some id → id ∈ attached s ∧ guest_of s id = Some guest.
Proof.
  unfold linkOf. intros (a & b & -> & H%bool_decide_eq_true & _)%first_match_Some. split; [set_solver|done].
Qed.

Lemma attached_ok guest s : stack_ok s → stack_ok (Attach guest s).
Proof.
  intros [H1 H2 H3 [H4 H4'] H5 H6 H7]. unfold Attach. destruct (negb (Is4 guest) || closed s || bool_decide (is_Some (linkOf guest s))) eqn:E; [done|].
  apply orb_false_iff in E as [_ Hno%bool_decide_eq_false]. assert (links s !! nextID s = None) as Hnew.
  { destruct (links s !! nextID s) as [l|] eqn:Hl; [|done]. destruct (H1 _ _ Hl) as (_ & _ & ?). lia. }
  assert (∀ id, is_Some (links s !! id) → <[nextID s := MkLink guest 0 false]> (links s) !! id = links s !! id) as Hold.
  { intros id [l Hl]. rewrite lookup_insert_ne; [done|congruence]. }
  assert (∀ id, id ∈ attached s → guest_of s id ≠ Some guest) as Hg.
  { intros id Hin Hgo. apply Hno. unfold linkOf. destruct (first_match _ (attached s)) as [x|] eqn:Hx; [by eexists|].
    apply first_match_None in Hx. rewrite Forall_forall in Hx. specialize (Hx id Hin). apply bool_decide_eq_false in Hx. done. }
  split; simpl.
  - intros id l. destruct (decide (id = nextID s)) as [->|Hne].
    + rewrite lookup_insert_eq. intros [= <-]. simpl. split_and!; [|done|lia]. symmetry. apply map_sum_none. intros fid f Hf. unfold on_link.
      rewrite bool_decide_eq_false_2; [done|]. intros Heq. apply H3 in Hf. rewrite Heq, Hnew in Hf. by destruct Hf.
    + rewrite lookup_insert_ne by done. intros Hl. destruct (H1 _ _ Hl) as (? & ? & ?). split_and!; [done|done|lia].
  - done.
  - intros fid f Hf. rewrite Hold; eauto.
  - split.
    + apply NoDup_app. split_and!; [done| |apply NoDup_singleton]. intros x Hx Hs%list_elem_of_singleton. subst x. apply H4' in Hx. rewrite Hnew in Hx. by destruct Hx.
    + intros id [Hin|Hin%list_elem_of_singleton]%elem_of_app; [rewrite Hold; auto|]. rewrite Hin. by rewrite lookup_insert_eq.
  - unfold guest_of. simpl. intros id id' g [Hi|Hi%list_elem_of_singleton]%elem_of_app [Hi'|Hi'%list_elem_of_singleton]%elem_of_app; subst; rewrite ?lookup_insert_eq.
    + rewrite !Hold by auto. by apply H5.
    + rewrite Hold by auto. intros Hg1 [= <-]. by destruct (Hg id Hi).
    + rewrite Hold by auto. intros [= <-] Hg1. by destruct (Hg id' Hi').
    + done.
  - intros fid f Hf Hs. apply elem_of_app. left. eauto.
  - intros id f r Hin. destruct (H7 _ _ _ Hin) as [Hgo Hr]. split; [|done]. unfold guest_of in *. simpl. rewrite Hold; [done|].
    destruct (links s !! id); [by eexists|done].
Qed.

(** A flow is admitted on a link that is attached. *)
Lemma admitted_ok id fid f st s s1 dials :
  stack_ok s → flows s !! fid = None → admits id s = Some s1 → id ∈ attached s → st ≠ Spliced →
  (∀ x y r, (x, y, r) ∈ dials → x = id ∧ guest_of s id = Some (FGuest y) ∧ ruled y r) →
  stack_ok (MkStack (links s1) (attached s1) (nextID s1) (active s1) (closed s1) (<[fid := MkFlow_ id f st]> (flows s1)) (dialed s1 ++ dials) (reported s1)).
Proof.
  intros [H1 H2 H3 [H4 H4'] H5 H6 H7] Hfid Ha Hin Hst Hd. unfold admits in Ha. destruct (links s !! id) as [l|] eqn:Hl; [|done]. simpl in Ha.
  destruct (closing l || (maxLinkFlows <=? lactive l) || (maxStackFlows <=? active s)) eqn:E; [done|]. injection Ha as <-. simpl.
  apply orb_false_iff in E as [[_ E1%Z.leb_gt]%orb_false_iff E2%Z.leb_gt]. destruct (H1 _ _ Hl) as (Hc & Hb & Hn).
  assert (∀ x, guest_of (set_links (<[id := MkLink (lguest l) (lactive l + 1) (closing l)]> (links s)) (active s + 1) s) x = guest_of s x) as Hg.
  { intros x. unfold guest_of. simpl. destruct (decide (x = id)) as [->|]; [by rewrite lookup_insert_eq, Hl|by rewrite lookup_insert_ne]. }
  split; simpl.
  - intros x k. rewrite map_sum_insert by done. unfold on_link at 1. simpl. destruct (decide (x = id)) as [->|Hne].
    + rewrite lookup_insert_eq. intros [= <-]. simpl. rewrite bool_decide_eq_true_2 by done. split_and!; [lia|lia|done].
    + rewrite lookup_insert_ne, bool_decide_eq_false_2 by congruence. intros Hk. destruct (H1 _ _ Hk) as (? & ? & ?). split_and!; [lia|done|done].
  - rewrite map_sum_insert by done. lia.
  - intros x k. destruct (decide (x = fid)) as [->|]; [rewrite lookup_insert_eq; intros [= <-]; simpl; by rewrite lookup_insert_eq|].
    rewrite lookup_insert_ne by done. intros Hk. apply H3 in Hk. destruct (decide (flink k = id)) as [->|]; [by rewrite lookup_insert_eq|by rewrite lookup_insert_ne].
  - split; [done|]. intros x Hx. destruct (decide (x = id)) as [->|]; [by rewrite lookup_insert_eq|rewrite lookup_insert_ne by done; auto].
  - intros x y g Hx Hy Hgx Hgy. apply (H5 x y g Hx Hy); [rewrite <- (Hg x)|rewrite <- (Hg y)]; done.
  - intros x k. destruct (decide (x = fid)) as [->|]; [rewrite lookup_insert_eq; by intros [= <-]|rewrite lookup_insert_ne by done; eauto].
  - intros x y r [Hi|Hi]%elem_of_app.
    + destruct (H7 _ _ _ Hi) as [Hgx Hr]. split; [|done]. rewrite <- Hgx. apply Hg.
    + destruct (Hd _ _ _ Hi) as (-> & Hgx & Hr). split; [|done]. rewrite <- Hgx. apply Hg.
Qed.

Lemma forward_ok fid f r s : flows s !! fid = None → stack_ok s → stack_ok (forward fid f r s).
Proof.
  intros Hfid Hs. unfold forward. destruct (linkOf (FGuest f) s) as [id|] eqn:Hl; [|done]. apply linkOf_spec in Hl as [Hin Hg].
  destruct (rtcp r && bool_decide _ && redirected _ _) eqn:Hr; [by destruct Hs|].
  destruct (VAllow (Judge_Judge (rlocal r) (rjudge r) f)) eqn:Hv; simpl; [|by destruct Hs].
  destruct (admits id s) as [s1|] eqn:Ha; [|by destruct Hs]. eapply admitted_ok; try done.
  intros x y r' [= -> -> ->]%list_elem_of_singleton. split_and!; [done|done|]. split; [done|]. unfold Judge_Judge in Hv.
  destruct (rlocal r); [done|]. destruct (contains_addr Private (FAddr f)); [done|]. split_and!; [done|done|]. intros Ht Hred.
  rewrite Ht, bool_decide_eq_true_2 in Hr by done. done.
Qed.

Lemma accept_ok fid f stale s : flows s !! fid = None → stack_ok s → stack_ok (accept fid f stale s).
Proof.
  intros Hfid Hs. unfold accept. destruct (linkOf (FGuest f) s) as [id|] eqn:Hl; [|done]. apply linkOf_spec in Hl as [Hin Hg].
  destruct stale; [by destruct Hs|]. destruct (admits id s) as [s1|] eqn:Ha; [|by destruct Hs].
  replace (set_flows _ s1) with (MkStack (links s1) (attached s1) (nextID s1) (active s1) (closed s1) (<[fid := MkFlow_ id f Listened]> (flows s1)) (dialed s1 ++ []) (reported s1))
    by (unfold set_flows; by rewrite (right_id_L [] (++))).
  eapply admitted_ok; try done. intros x y r Hx. by apply elem_of_nil in Hx.
Qed.

Lemma ends_ok fid s : stack_ok s → stack_ok (ends fid s).
Proof.
  intros [H1 H2 H3 [H4 H4'] H5 H6 H7]. unfold ends. destruct (flows s !! fid) as [f|] eqn:Hf; [|done]. destruct (H3 _ _ Hf) as [l Hl].
  unfold release. simpl. rewrite Hl. assert (∀ x, guest_of (set_links (<[flink f := MkLink (lguest l) (lactive l - 1) (closing l)]> (links s)) (active s - 1) s) x = guest_of s x) as Hg.
  { intros x. unfold guest_of. simpl. destruct (decide (x = flink f)) as [->|]; [by rewrite lookup_insert_eq, Hl|by rewrite lookup_insert_ne]. }
  assert (∀ x, is_Some (links s !! x) → is_Some (<[flink f := MkLink (lguest l) (lactive l - 1) (closing l)]> (links s) !! x)) as Hsome.
  { intros x Hx. destruct (decide (x = flink f)) as [->|]; [by rewrite lookup_insert_eq|by rewrite lookup_insert_ne]. }
  split; simpl.
  - intros x k Hk. pose proof (map_sum_delete (on_link x) fid f (flows s) Hf) as Hsum. unfold on_link at 2 in Hsum.
    destruct (decide (x = flink f)) as [->|Hne].
    + rewrite lookup_insert_eq in Hk. injection Hk as <-. simpl. destruct (H1 _ _ Hl) as (? & ? & ?). rewrite bool_decide_eq_true_2 in Hsum by done. split_and!; [lia|lia|done].
    + rewrite lookup_insert_ne in Hk by congruence. rewrite bool_decide_eq_false_2 in Hsum by congruence. destruct (H1 _ _ Hk) as (? & ? & ?). split_and!; [lia|done|done].
  - pose proof (map_sum_delete (λ _, 1) fid f (flows s) Hf) as Hsum. simpl in Hsum. lia.
  - intros x k [_ Hk]%lookup_delete_Some. apply Hsome. eauto.
  - split; [done|]. intros x Hx. apply Hsome. auto.
  - intros x y g Hx Hy Hgx Hgy. apply (H5 x y g Hx Hy); [rewrite <- (Hg x)|rewrite <- (Hg y)]; done.
  - intros x k [_ Hk]%lookup_delete_Some. eauto.
  - intros x y r Hi. destruct (H7 _ _ _ Hi) as [Hgx Hr]. split; [|done]. rewrite <- Hgx. apply Hg.
Qed.

(** A link that may still be spliced on is attached: it is gone only once it is closing. *)
Definition links_ok (s : stack) : Prop := ∀ id l, links s !! id = Some l → closing l = false → id ∈ attached s.

Lemma splice_ok fid dials s : stack_ok s → links_ok s → stack_ok (splice fid dials s).
Proof.
  intros Hs Hlo. unfold splice. destruct (flows s !! fid) as [[id f st]|] eqn:Hf; [|done]. destruct st; [|done|done].
  destruct dials; simpl; [|by apply ends_ok]. destruct (links s !! id) as [l|] eqn:Hl; [|done]. destruct (closing l) eqn:Hc; [by apply ends_ok|].
  destruct Hs as [H1 H2 H3 [H4 H4'] H5 H6 H7]. split; simpl; try done.
  - intros x k Hk. destruct (H1 _ _ Hk) as (? & ? & ?). split_and!; [|done|done]. rewrite (map_sum_move _ fid _ _ _ Hf). unfold on_link at 2 3. simpl. lia.
  - rewrite (map_sum_move _ fid _ _ _ Hf). lia.
  - intros x k. destruct (decide (x = fid)) as [->|]; [rewrite lookup_insert_eq; intros [= <-]; simpl; by rewrite Hl|rewrite lookup_insert_ne by done; eauto].
  - intros x k. destruct (decide (x = fid)) as [->|]; [rewrite lookup_insert_eq; intros [= <-] _; simpl; by eapply Hlo|rewrite lookup_insert_ne by done; eauto].
Qed.

Lemma closes_ok id s : stack_ok s → stack_ok (closes id s).
Proof.
  intros [H1 H2 H3 [H4 H4'] H5 H6 H7]. unfold closes. destruct (links s !! id) as [l|] eqn:Hl; [|done].
  assert (∀ x, guest_of (set_links (<[id := MkLink (lguest l) (lactive l) true]> (links s)) (active s) s) x = guest_of s x) as Hg.
  { intros x. unfold guest_of. simpl. destruct (decide (x = id)) as [->|]; [by rewrite lookup_insert_eq, Hl|by rewrite lookup_insert_ne]. }
  assert (∀ x, is_Some (links s !! x) → is_Some (<[id := MkLink (lguest l) (lactive l) true]> (links s) !! x)) as Hsome.
  { intros x Hx. destruct (decide (x = id)) as [->|]; [by rewrite lookup_insert_eq|by rewrite lookup_insert_ne]. }
  split; simpl; try done.
  - intros x k. destruct (decide (x = id)) as [->|]; [rewrite lookup_insert_eq; intros [= <-]; simpl; by apply (H1 id)|rewrite lookup_insert_ne by done; apply H1].
  - eauto.
  - split; [done|]. eauto.
  - intros x y g Hx Hy Hgx Hgy. apply (H5 x y g Hx Hy); [rewrite <- (Hg x)|rewrite <- (Hg y)]; done.
  - intros x y r Hi. destruct (H7 _ _ _ Hi) as [Hgx Hr]. split; [|done]. rewrite <- Hgx. apply Hg.
Qed.

Lemma gone_ok id s : stack_ok s → stack_ok (gone id s).
Proof.
  intros Hs. unfold gone. destruct (bool_decide_reflect (splicing id s)) as [|Hn]; [done|]. simpl. destruct (negb _); [done|].
  destruct Hs as [H1 H2 H3 [H4 H4'] H5 H6 H7]. split; simpl; try done.
  - split; [by apply NoDup_filter|]. intros x [_ Hx]%list_elem_of_filter. auto.
  - intros x y g [_ Hx]%list_elem_of_filter [_ Hy]%list_elem_of_filter. by apply H5.
  - intros fid f Hf Hst. apply list_elem_of_filter. split; [|eauto]. intros Heq. apply Hn. exists fid, f. done.
Qed.

Lemma happens_stack e s : stack_ok s → links_ok s → stack_ok (happens e s) ∧ links_ok (happens e s).
Proof.
  intros Hs Hlo. assert (∀ id l l', links s !! id = Some l → (closing l' = false → closing l = false) → links_ok (set_links (<[id := l']> (links s)) (active s) s)) as Hset.
  { intros id l l' Hl Hc x k. simpl. destruct (decide (x = id)) as [->|]; [rewrite lookup_insert_eq; intros [= <-] Hk; eapply (Hlo id l); auto|rewrite lookup_insert_ne by done; apply Hlo]. }
  assert (∀ fid, links_ok (ends fid s)) as He.
  { intros fid. unfold ends. destruct (flows s !! fid) as [f|]; [|done]. unfold release. simpl. destruct (links s !! flink f) as [l|] eqn:Hl; [|done]. by apply (Hset _ l). }
  assert (∀ id s1, admits id s = Some s1 → links_ok s1) as Had.
  { intros id s1. unfold admits. destruct (links s !! id) as [l|] eqn:Hl; [|done]. simpl. destruct (_ || _); [done|]. intros [= <-]. by apply (Hset _ l). }
  destruct e as [guest|fid f r|fid dials|fid f stale|fid|id|id]; simpl.
  - split; [by apply attached_ok|]. unfold Attach. destruct (_ || _); [done|]. intros x k. simpl. rewrite elem_of_app. destruct (decide (x = nextID s)) as [->|].
    + intros _ _. right. by apply list_elem_of_singleton.
    + rewrite lookup_insert_ne by done. left. by eapply Hlo.
  - destruct (bool_decide_reflect (is_Some (flows s !! fid))) as [|Hn]; [done|]. apply eq_None_not_Some in Hn. split; [by apply forward_ok|].
    unfold forward. destruct (linkOf _ _) as [id|]; [|done]. destruct (rtcp r && _ && _); [done|]. destruct (negb _); [done|].
    destruct (admits id s) as [s1|] eqn:Ha; [|done]. exact (Had id s1 Ha).
  - split; [by apply splice_ok|]. unfold splice. destruct (flows s !! fid) as [[id f [| |]]|]; try done. destruct (negb dials); [done|].
    destruct (links s !! id) as [l|]; [|done]. destruct (closing l); done.
  - destruct (bool_decide_reflect (is_Some (flows s !! fid))) as [|Hn]; [done|]. apply eq_None_not_Some in Hn. split; [by apply accept_ok|].
    unfold accept. destruct (linkOf _ _) as [id|]; [|done]. destruct stale; [done|]. destruct (admits id s) as [s1|] eqn:Ha; [|done]. exact (Had id s1 Ha).
  - destruct (flows s !! fid) as [[id f [| |]]|] eqn:Hf; try done; (split; [by apply ends_ok|apply He]).
  - split; [by apply closes_ok|]. unfold closes. destruct (links s !! id) as [l|] eqn:Hl; [|done]. by apply (Hset _ l).
  - split; [by apply gone_ok|]. unfold gone. destruct (bool_decide (splicing id s)); [done|]. simpl.
    destruct (default false (closing <$> links s !! id)) eqn:Hc; [|done]. intros x k Hk Hcl. simpl in *. apply list_elem_of_filter. split; [|by eapply Hlo].
    intros ->. rewrite Hk in Hc. simpl in Hc. congruence.
Qed.

(** C10: on a host whose VMs speak to the daemon's own stack, nothing is dialed for a guest but what the judge allowed. Whatever
    requests reach the forwarders and however their steps fall among each other, each dial was for the guest of its link, under a
    ruling that allowed it, to an address that is neither private nor the host's, and not to a port that belongs to the proxy; no
    two links carry one guest; a link and the stack admit no more flows than their shares, each given back once; and once a link
    is gone none of its splices is left. *)
Theorem flows_ruled es :
  let s := after es in
  (∀ id f r, (id, f, r) ∈ dialed s → guest_of s id = Some (FGuest f) ∧ ruled f r) ∧
  (∀ id id' g, id ∈ attached s → id' ∈ attached s → guest_of s id = Some g → guest_of s id' = Some g → id = id') ∧
  (∀ id l, links s !! id = Some l → lactive l = map_sum (on_link id) (flows s) ∧ lactive l ≤ maxLinkFlows) ∧
  active s = map_sum (λ _, 1) (flows s) ∧ active s ≤ maxStackFlows ∧
  (∀ id, id ∉ attached s → ¬ splicing id s).
Proof.
  intros s. assert (stack_ok s) as [H1 [H2 H2'] H3 H4 H5 H6 H7].
  { assert (stack_ok New ∧ links_ok New) as Hn. { split; [|done]. split; simpl; try done; [split; [by apply NoDup_nil|]|..]; intros; by match goal with Hin : _ ∈ [] |- _ => apply elem_of_nil in Hin end. }
    subst s. unfold after. revert Hn. generalize New. induction es as [|e es IH]; intros s [Hs Hl]; [done|]. simpl. apply IH. by apply happens_stack. }
  split_and!; [done|done| |done|done|].
  - intros id l Hl. destruct (H1 _ _ Hl) as (? & ? & _). done.
  - intros id Hno (fid & f & Hf & <- & Hst). apply Hno. by eapply H6.
Qed.

(** ** A flow through the stack *)

Definition stack_config : Config := MkConfig (Addr4 173473793) {[ 80 := 30080; 443 := 30443 ]} (Some (λ _, true)) true {[ 30080; 30443 ]} {[ 53 ]} false.

(** A guest without a policy dials an address outside: it goes out on port 25 and not on 443, which is the proxy's. *)
Example stack_ran :
  let j := MkJudge true ∅ in
  let f port := MkFlow (Addr4 173473794) "tcp" (Addr4 134744072) port in
  let s := after [Attaches (Addr4 173473794); Forwards 0 (f 25) (MkRuling true stack_config false j); Splices 0 true;
                  Forwards 1 (f 443) (MkRuling true stack_config false j)] in
  length (dialed s) = 1%nat ∧ active s = 1 ∧ reported s = [drop_of (f 443) RuleRedirect].
Proof. vm_compute. done. Qed.

(** The layout of RFC 894, 791, 793 and 768, for a frame of TCP to port 443 elsewhere. *)
Definition be (b : bytes) (at_ n : nat) : Z := foldl (λ acc x, acc * 256 + x) 0 (take n (drop at_ b)).

#[local] Instance rfc_headers : FrameHeaders := {|
  EthernetMinimumSize := 14; IPv4MinimumSize := 20; IPv6MinimumSize := 40; ARPSize := 28; TCPMinimumSize := 20; UDPMinimumSize := 8;
  eth_Type b := be b 12 2; ip_SourceAddress b := Addr4 (be b 12 4); ip_DestinationAddress b := Addr4 (be b 16 4);
  ip_TransportProtocol b := be b 9 1; ip_FragmentOffset b := Z.land (be b 6 2) 8191 * 8; ip_HeaderLength b := Z.land (be b 0 1) 15 * 4;
  ip6_DestinationAddress _ := AddrInvalid; arp_ProtocolAddressSender b := Addr4 (be b 14 4);
  tcp_DestinationPort b := be b 2 2; udp_DestinationPort b := be b 2 2
|}.

Definition tcp_frame (src dst port : Z) : bytes :=
  let be4 x := [x / 2 ^ 24; x / 2 ^ 16 mod 256; x / 256 mod 256; x mod 256] in
  repeat 0 12 ++ [8; 0] ++ [69; 0; 0; 40; 0; 0; 0; 0; 64; 6; 0; 0] ++ be4 src ++ be4 dst ++ [0; 1; port / 256; port mod 256] ++ repeat 0 16.

Lemma taken_frames_witness :
  judge stack_config (Addr4 173473794) (tcp_frame 173473795 134744072 443) = Some (MkDrop (Addr4 173473794) (Addr4 134744072) "forged tcp" 443 "") ∧
  ip_SourceAddress (body_of (tcp_frame 173473794 134744072 443)) = Addr4 173473794.
Proof.
  split; [vm_compute; reflexivity|].
  destruct (taken_frames (F := rfc_headers) stack_config (Addr4 173473794) (tcp_frame 173473794 134744072 443) eq_refl ltac:(vm_compute; reflexivity)) as [[H _]|(_ & H & _)].
  - vm_compute in H. discriminate H.
  - exact H.
Defined.
