(* ===== verification/Daemon.v ===== *)
(** * The daemon

    [services/daemon/]: which substrate a daemon runs sandboxes on ([select.go], with [RecordedProvider] of
    [services/sandboxstate]), the space it holds back for a full disk ([reserve.go]), the locks it serves under ([daemon.go]) and
    the tasks it keeps running ([supervise.go], [taskstate.go]). *)

From S2P Require Import Prelude GoStrings.
Local Open Scope Z_scope.

(** ** The substrate *)

Definition gvisor : string := "gvisor".
Definition sysbox : string := "sysbox".
Definition runc : string := "runc".
Definition vz : string := "vz".
Definition firecracker : string := "firecracker".

Definition KVMDevice : string := "/dev/kvm".
Definition Providers : list string := [gvisor; sysbox; runc; vz; firecracker].

Record Selection : Type := MkSelection { Provider : string; Reason : string; Unreadable : string }.

Inductive select_error : Type :=
| EUnknown (named : string)
| EContradicts (named made : string)
| EUnreadable (note : string)
| ERecords
| EImage
| EClose.

(** An entry of the directory of the records, as a scan of it reads it. *)
Inductive scanned : Type := NotID | NoRecord | CannotRead (why : string) | Recorded (provider : string).

Inductive records_dir : Type := DirMissing | DirFails | Dir (entries : list scanned).

(** [RecordedProvider]: the provider the first record names, and why some cannot be read. *)
Fixpoint recorded_go (entries : list scanned) (provider : string) : string * list string :=
  match entries with
  | [] => (provider, [])
  | CannotRead why :: entries => let '(p, whys) := recorded_go entries provider in (p, why :: whys)
  | Recorded p :: entries => recorded_go entries (if String.eqb provider "" && negb (String.eqb p "") then p else provider)
  | _ :: entries => recorded_go entries provider
  end.

Definition RecordedProvider (d : records_dir) : result select_error (string * list string) :=
  match d with
  | DirMissing => Ok ("", [])
  | DirFails => Err ERecords
  | Dir entries => Ok (recorded_go entries "")
  end.

(** What a stat of the data image answers. *)
Inductive stat_answer : Type := Found | Missing | StatFails.

(** The note on the records that cannot be read: the text of the joined errors. *)
Definition note_of (whys : list string) : string :=
  match whys with [] => "" | _ => "some records cannot be read: " +:+ Join (String (ascii_of_nat 10) "") whys end.

Definition madeBy (root image : string) (d : records_dir) (stat : stat_answer) : result select_error Selection :=
  match RecordedProvider d with
  | Err e => Err e
  | Ok (recorded, whys) =>
      let note := note_of whys in
      if negb (String.eqb recorded "") then Ok (MkSelection recorded ("it made the records under " +:+ root) note)
      else match stat with
           | Found => Ok (MkSelection firecracker ("it made the data image " +:+ image) note)
           | Missing => Ok (MkSelection "" "" note)
           | StatFails => Err EImage
           end
  end.

(** What the probe of the device answers. *)
Inductive kvm_answer : Type := KvmMissing | KvmFails (why : string) | KvmOpens (closes : bool).

Definition withNote (s : Selection) (note : string) : Selection := MkSelection (Provider s) (Reason s) note.

Definition selectProvider (darwin : bool) (kvm : string) (probe : kvm_answer) (named root image : string) (d : records_dir) (stat : stat_answer)
  : result select_error Selection :=
  if negb (String.eqb named "") && negb (contains Providers named) then Err (EUnknown named)
  else match madeBy root image d stat with
       | Err e => Err e
       | Ok made =>
           if negb (String.eqb named "") && negb (String.eqb (Provider made) "") && negb (String.eqb named (Provider made))
           then Err (EContradicts named (Provider made))
           else if negb (String.eqb named "") then Ok (withNote (MkSelection named "named by --provider" "") (Unreadable made))
           else if negb (String.eqb (Provider made) "") then Ok made
           else if negb (String.eqb (Unreadable made) "") then Err (EUnreadable (Unreadable made))
           else if darwin then Ok (withNote (MkSelection vz "macOS runs virtual machines through Virtualization.framework" "") (Unreadable made))
           else match probe with
                | KvmMissing => Ok (withNote (MkSelection gvisor ("no " +:+ kvm) "") (Unreadable made))
                | KvmFails why => Ok (withNote (MkSelection gvisor (kvm +:+ " does not open: " +:+ why) "") (Unreadable made))
                | KvmOpens false => Err EClose
                | KvmOpens true => Ok (withNote (MkSelection firecracker (kvm +:+ " opens") "") (Unreadable made))
                end
       end.

(** What a record says, and what cannot be read. *)
Definition says (p : string) (d : records_dir) : Prop := ∃ entries, d = Dir entries ∧ Recorded p ∈ entries ∧ p ≠ "".
Definition unread (d : records_dir) : Prop := ∃ entries why, d = Dir entries ∧ CannotRead why ∈ entries.

Lemma recorded_go_kept entries p : p ≠ "" → (recorded_go entries p).1 = p.
Proof.
  intros Hp. induction entries as [|e entries IH]; [done|]. destruct e; simpl; try done.
  - by destruct (recorded_go entries p).
  - rewrite (proj2 (String.eqb_neq p "")) by done. done.
Qed.

Lemma recorded_go_spec entries :
  ((recorded_go entries "").1 = "" ∧ ∀ p, Recorded p ∈ entries → p = "") ∨ Recorded (recorded_go entries "").1 ∈ entries ∧ (recorded_go entries "").1 ≠ "".
Proof.
  induction entries as [|e entries IH]; [left; set_solver|]. destruct e as [| |why|q]; simpl.
  - destruct IH as [[IH1 IH2]|[IH1 IH2]]; [left|right]; set_solver.
  - destruct IH as [[IH1 IH2]|[IH1 IH2]]; [left|right]; set_solver.
  - destruct (recorded_go entries "") as [p whys]. simpl in *. destruct IH as [[IH1 IH2]|[IH1 IH2]]; [left|right]; set_solver.
  - destruct (String.eqb_spec q "") as [->|Hq]; simpl.
    + destruct IH as [[IH1 IH2]|[IH1 IH2]]; [left|right]; set_solver.
    + right. rewrite recorded_go_kept by done. set_solver.
Qed.

Lemma recorded_go_unread entries p : (∃ why, CannotRead why ∈ entries) ↔ (recorded_go entries p).2 ≠ [].
Proof.
  revert p. induction entries as [|e entries IH]; intros p; simpl; [split; [intros [? ?]; set_solver|done]|].
  destruct e as [| |why|q]; [rewrite <- IH; set_solver..| |rewrite <- IH; set_solver].
  destruct (recorded_go entries p) as [p' whys]. simpl. split; [done|]. intros _. exists why. apply list_elem_of_here.
Qed.

Lemma note_of_empty whys : note_of whys = "" ↔ whys = [].
Proof. destruct whys; simpl; [done|]. split; [|done]. intros E. discriminate. Qed.

(** A root stays with the substrate that made it: where a record names one, a daemon starts on a substrate some record names or
    not at all, whatever the operator names and the host offers; where none can be read, no probe picks one; and neither sysbox
    nor runc is ever picked by a probe. *)
Theorem root_keeps_provider darwin kvm probe named root image d stat s :
  selectProvider darwin kvm probe named root image d stat = Ok s →
  (∀ p, says p d → says (Provider s) d ∧ (named = "" ∨ named = Provider s)) ∧
  ((∀ p, ¬ says p d) → unread d → stat = Missing → named ≠ "" ∧ Provider s = named) ∧
  ((∀ p, ¬ says p d) → named = "" → Provider s ≠ sysbox ∧ Provider s ≠ runc) ∧
  (named ≠ "" → named ∈ Providers ∧ Provider s = named).
Proof.
  unfold selectProvider, madeBy. destruct (negb (String.eqb named "") && negb (contains Providers named)) eqn:Hn; [done|].
  assert (named ≠ "" → named ∈ Providers) as Hknown.
  { intros Hne. apply (proj2 (String.eqb_neq _ _)) in Hne. rewrite Hne in Hn. simpl in Hn. apply negb_false_iff in Hn. by apply contains_elem_of. }
  destruct (RecordedProvider d) as [[recorded whys]|] eqn:Hr; [|done].
  assert ((recorded = "" ∧ ∀ p, ¬ says p d) ∨ (recorded ≠ "" ∧ says recorded d)) as Hsays.
  { destruct d as [| |entries]; simpl in Hr; [injection Hr as <- <-; left; split; [done|]; intros p (? & ? & _); done|done|].
    pose proof (recorded_go_spec entries) as Hs. destruct (recorded_go entries "") as [x y]. injection Hr as -> ->. simpl in Hs.
    destruct Hs as [[-> Hs]|[Hs1 Hs2]]; [left|right; split; [done|by exists entries]].
    split; [done|]. intros p (e & [= <-] & Hin & Hp). by apply Hp, Hs. }
  assert (unread d → note_of whys ≠ "") as Hnote.
  { intros (entries & why & -> & Hin). rewrite note_of_empty. simpl in Hr. pose proof (recorded_go_unread entries "") as Hu.
    destruct (recorded_go entries "") as [x y]. injection Hr as -> ->. apply Hu. by exists why. }
  destruct Hsays as [[-> Hnone]|[Hne Hsays]].
  - simpl. assert (∀ p, says p d → False) as Hno by done. destruct stat; [| |done]; simpl.
    + destruct (String.eqb_spec named "") as [->|Hnm]; simpl.
      * intros [= <-]. simpl. split_and!; [naive_solver|done|by intros _ _|done].
      * destruct (String.eqb_spec named firecracker) as [->|]; simpl; [|done]. intros [= <-]. simpl. split_and!; [naive_solver|done|done|auto].
    + destruct (String.eqb_spec named "") as [->|Hnm]; simpl.
      * destruct (String.eqb_spec (note_of whys) "") as [He|]; simpl; [|done]. intros Hs.
        assert (Provider s ≠ sysbox ∧ Provider s ≠ runc) as Hp.
        { destruct darwin; [by injection Hs as <-|]. destruct probe as [|why|[|]]; try done; by injection Hs as <-. }
        split_and!; [naive_solver|intros _ Hu; by apply Hnote in Hu|done..].
      * intros [= <-]. simpl. split_and!; [naive_solver|done|done|auto].
  - rewrite (proj2 (String.eqb_neq recorded "")) by done. simpl. rewrite (proj2 (String.eqb_neq recorded "")) by done. simpl.
    destruct (String.eqb_spec named "") as [->|Hnm]; simpl.
    + intros [= <-]. simpl. split_and!; [auto|intros Hno; by apply Hno in Hsays|intros Hno; by apply Hno in Hsays|done].
    + destruct (String.eqb_spec named recorded) as [->|]; simpl; [|done]. intros [= <-]. simpl.
      split_and!; [auto|intros Hno; by apply Hno in Hsays|intros Hno; by apply Hno in Hsays|auto].
Qed.

(** ** The space held back *)

Definition reserveSize : Z := Z.shiftl 64 20.

(** The reserve as a stat reads it: its size, missing, or a failure. *)
Inductive reserve_stat : Type := ReserveHas (size : Z) | ReserveMissing | ReserveStatFails.

Inductive ensured : Type := Held | Wrote (ok : bool) | TooFull | EnsureFails.

Definition ensure (stat : reserve_stat) (free : option Z) (writes : bool) : ensured :=
  let write :=
    match free with
    | None => EnsureFails
    | Some free => if free <? 4 * reserveSize then TooFull else Wrote writes
    end in
  match stat with
  | ReserveHas size => if size =? reserveSize then Held else write
  | ReserveMissing => write
  | ReserveStatFails => EnsureFails
  end.

(** How a step of the start ends, and the removal of the reserve. *)
Inductive step_end : Type := StepOk | StepFull | StepFails.
Inductive removal : Type := Removed | NotThere | RemoveFails.

(** [retry]: how often the step ran, whether the reserve was deleted, and how it ended. *)
Definition retry (first second : step_end) (before : option Z) (remove : removal) (after : option Z) : nat * bool * step_end :=
  match first with
  | StepOk | StepFails => (1%nat, false, first)
  | StepFull =>
      match before with
      | None => (1%nat, false, StepFull)
      | Some _ =>
          match remove with
          | NotThere => (1%nat, false, StepFull)
          | RemoveFails => (1%nat, false, StepFull)
          | Removed => match after with None => (1%nat, true, StepFull) | Some _ => (2%nat, true, second) end
          end
      end
  end.

(** ** The locks a daemon serves under *)

(** What a daemon does, in order. *)
Inductive action : Type := TakeRoot | TakeHost | WritePID | Reconciles | Tasks | Drains | RemovePID | ReleaseHost | ReleaseRoot.

Inductive lock_answer : Type := Acquired | HeldBy | LockFails.

(** What the host answers: the two locks, the note in the second, the pid file and the reconcile. *)
Record answers : Type := MkAnswers { rootLock : lock_answer; hostLock : lock_answer; notes : bool; writesPID : bool; reconciles : bool }.

(** [takeLock] and [takeHostLock]: whether a lock is held on return. *)
Definition takeLock (a : answers) : bool := match rootLock a with Acquired => true | _ => false end.
Definition takeHostLock (a : answers) : list action * bool :=
  match hostLock a with Acquired => if notes a then ([TakeHost], true) else ([TakeHost; ReleaseHost], false) | _ => ([], false) end.

(** [Run], with the host lock and the drain a daemon was given: the deferred calls run last first. *)
Definition Run (withHost withDrain : bool) (a : answers) : list action * bool :=
  if negb (takeLock a) then ([], false)
  else
    let '(took, held) := if withHost then takeHostLock a else ([], true) in
    if negb held then ([TakeRoot] ++ took ++ [ReleaseRoot], false)
    else
      let given := (if withHost then [ReleaseHost] else []) ++ [ReleaseRoot] in
      if negb (writesPID a) then ([TakeRoot] ++ took ++ given, false)
      else
        let ends := (if withDrain then [Drains] else []) ++ [RemovePID] ++ given in
        if negb (reconciles a) then ([TakeRoot] ++ took ++ [WritePID; Reconciles] ++ ends, false)
        else ([TakeRoot] ++ took ++ [WritePID; Reconciles; Tasks] ++ ends, true).

(** What a daemon holds after some of what it did. *)
Record holds_ : Type := MkHolds { hroot : bool; hhost : bool; hpid : bool; hreconciled : bool }.

(** An action, refused where the daemon may not take it: the host and the records are touched under the locks alone, the tasks
    only once the records were reconciled, and a lock is given back only once the pid file is gone. *)
Definition acts (withHost : bool) (x : action) (h : holds_) : option holds_ :=
  let locked := hroot h && implb withHost (hhost h) in
  match x with
  | TakeRoot => if hroot h then None else Some (MkHolds true (hhost h) (hpid h) (hreconciled h))
  | TakeHost => if hroot h && negb (hhost h) then Some (MkHolds (hroot h) true (hpid h) (hreconciled h)) else None
  | WritePID => if locked then Some (MkHolds (hroot h) (hhost h) true (hreconciled h)) else None
  | Reconciles => if locked && hpid h then Some (MkHolds (hroot h) (hhost h) (hpid h) true) else None
  | Tasks => if locked && hpid h && hreconciled h then Some h else None
  | Drains => if locked && hpid h then Some h else None
  | RemovePID => if locked && hpid h then Some (MkHolds (hroot h) (hhost h) false (hreconciled h)) else None
  | ReleaseHost => if hhost h && negb (hpid h) then Some (MkHolds (hroot h) false (hpid h) (hreconciled h)) else None
  | ReleaseRoot => if hroot h && negb (hhost h) && negb (hpid h) then Some (MkHolds false (hhost h) (hpid h) (hreconciled h)) else None
  end.

Fixpoint acted (withHost : bool) (xs : list action) (h : holds_) : option holds_ :=
  match xs with [] => Some h | x :: xs => h ← acts withHost x h; acted withHost xs h end.

(** A daemon works under its locks and leaves nothing held: whatever fails on the way up, each thing it did it was allowed to at
    that point, and at the end the locks and the pid file are given back; the tasks run just when it started. *)
Theorem run_guarded withHost withDrain a :
  let '(xs, started) := Run withHost withDrain a in
  (∃ h, acted withHost xs (MkHolds false false false false) = Some h ∧ hroot h = false ∧ hhost h = false ∧ hpid h = false) ∧
  (Tasks ∈ xs ↔ started = true) ∧ (withDrain = true → Tasks ∈ xs → Drains ∈ xs).
Proof.
  destruct a as [rl hl nt pid rec]. unfold Run, takeLock, takeHostLock. simpl.
  destruct withHost, withDrain, rl, hl, nt, pid, rec; simpl; (split; [by eexists|]); split; try (intros; set_solver); set_solver.
Qed.

(** ** The tasks it keeps running *)

Inductive task_state : Type := TaskRunning | TaskBackoff | TaskDone.
Record taskStatus : Type := MkStatus { tstate : task_state; restarts : Z; lastError : string }.

Definition running (s : taskStatus) : taskStatus := MkStatus TaskRunning (restarts s) (lastError s).
Definition backoff_ (err : string) (s : taskStatus) : taskStatus := MkStatus TaskBackoff (restarts s + 1) err.
Definition done_ (s : taskStatus) : taskStatus := MkStatus TaskDone (restarts s) (lastError s).

Definition defaultMinBackoff : Z := 1000000000.
Definition defaultMaxBackoff : Z := 60000000000.
Definition defaultHealthyAfter : Z := 60000000000.

(** [jitter]: [r] is what [rand.N] drew below [d/2+1]. *)
Definition jitter (d r : Z) : Z := d / 2 + r.

(** One turn of [supervise]: how the run ended, [None] for nil and the text of an error or a panic; how long it held; whether the
    daemon stopped by then; the draw; and whether it stopped during the wait. *)
Record turn : Type := MkTurn { terr : option string; tlasted : Z; tstopped : bool; tdraw : Z; tstopsWaiting : bool }.

(** What the turns of a task leave: its status, its backoff, the waits, and whether it still runs. *)
Record task : Type := MkTask { tstatus : taskStatus; tbackoff : Z; twaits : list Z; tlives : bool }.

Section Supervise.
Context (minBackoff maxBackoff healthyAfter : Z).

Definition start_task : task := MkTask (MkStatus TaskRunning 0 "") minBackoff [] true.

Definition supervise_turn (t : task) (x : turn) : task :=
  if negb (tlives t) then t
  else
    let s := running (tstatus t) in
    if tstopped x then MkTask s (tbackoff t) (twaits t) false
    else match terr x with
         | None => MkTask (done_ s) (tbackoff t) (twaits t) false
         | Some err =>
             let b := if healthyAfter <=? tlasted x then minBackoff else tbackoff t in
             let s := backoff_ err s in
             if tstopsWaiting x then MkTask s b (twaits t) false
             else MkTask s (Z.min (b * 2) maxBackoff) (twaits t ++ [jitter b (tdraw x)]) true
         end.

Definition supervise (xs : list turn) : task := foldl supervise_turn start_task xs.

(** A draw is what [rand.N] may answer for the backoff of its turn. *)
Definition drawn (t : task) (x : turn) : Prop :=
  let b := if healthyAfter <=? tlasted x then minBackoff else tbackoff t in 0 ≤ tdraw x ≤ b / 2.

Fixpoint all_drawn (t : task) (xs : list turn) : Prop :=
  match xs with [] => True | x :: xs => drawn t x ∧ all_drawn (supervise_turn t x) xs end.

Definition task_ok (t : task) : Prop :=
  Forall (λ w, minBackoff / 2 ≤ w ≤ maxBackoff) (twaits t) ∧ minBackoff ≤ tbackoff t ≤ maxBackoff ∧
  (if tlives t then restarts (tstatus t) = Z.of_nat (length (twaits t)) ∧ tstate (tstatus t) ≠ TaskDone
   else Z.of_nat (length (twaits t)) ≤ restarts (tstatus t) ≤ Z.of_nat (length (twaits t)) + 1).

Lemma turn_ok t x : 0 < minBackoff ≤ maxBackoff → drawn t x → task_ok t → task_ok (supervise_turn t x).
Proof.
  intros Hb Hx (H1 & H2 & H3). unfold task_ok, supervise_turn. destruct (tlives t) eqn:El; simpl; [|by rewrite El].
  destruct (tstopped x); simpl; [split_and!; [done|lia|lia|lia|lia]|]. destruct (terr x) as [err|]; simpl; [|split_and!; [done|lia|lia|lia|lia]].
  unfold drawn in Hx. set (b := if healthyAfter <=? tlasted x then minBackoff else tbackoff t) in *.
  assert (minBackoff ≤ b ≤ maxBackoff) as Hbb by (subst b; destruct (healthyAfter <=? tlasted x); lia). clearbody b.
  destruct (tstopsWaiting x); simpl; [split_and!; [done|lia|lia|lia|lia]|]. rewrite length_app. simpl. split_and!; try done; try lia.
  apply Forall_app. split; [done|]. apply Forall_singleton. unfold jitter.
  pose proof (Z.div_le_mono minBackoff b 2). pose proof (Z.mul_div_le b 2). lia.
Qed.

Lemma ended_stays t ys : tlives t = false → foldl supervise_turn t ys = t.
Proof. intros Hl. induction ys as [|y ys IH]; [done|]. simpl. unfold supervise_turn at 2. by rewrite Hl. Qed.

(** A task that fails is run again after a wait of no less than half the least backoff and no more than the greatest, each failure
    is in its status, and one that ended well is not run again. *)
Theorem supervise_bounded xs : 0 < minBackoff ≤ maxBackoff → all_drawn start_task xs →
  let t := supervise xs in
  Forall (λ w, minBackoff / 2 ≤ w ≤ maxBackoff) (twaits t) ∧ minBackoff ≤ tbackoff t ≤ maxBackoff ∧
  Z.of_nat (length (twaits t)) ≤ restarts (tstatus t) ≤ Z.of_nat (length (twaits t)) + 1 ∧
  (tstate (tstatus t) = TaskDone → ∀ ys, supervise (xs ++ ys) = t).
Proof.
  intros Hb Hd t. assert (task_ok t) as (H1 & H2 & H3).
  { assert (task_ok start_task) as Hs by (split_and!; simpl; try done; try lia; by apply Forall_nil). subst t. unfold supervise. revert Hd Hs.
    generalize start_task. induction xs as [|x xs IH]; intros t Hd Ht; [done|]. simpl in *. destruct Hd as [Hx Hd]. apply IH; [done|]. by apply turn_ok. }
  split_and!; [done|lia|lia|destruct (tlives t); lia|destruct (tlives t); lia|].
  intros Hdone ys. unfold supervise. rewrite foldl_app. apply ended_stays. fold (supervise xs). fold t. destruct (tlives t); [naive_solver|done].
Qed.

End Supervise.

(** ** Runs *)

Example mac_root_stays : selectProvider true KVMDevice KvmMissing "" "/r" "/i" (Dir [CannotRead "bad"; Recorded "gvisor"]) Missing
  = Ok (MkSelection "gvisor" "it made the records under /r" "some records cannot be read: bad").
Proof. reflexivity. Qed.

Example full_root_starts : retry StepFull StepOk (Some 0) Removed (Some reserveSize) = (2%nat, true, StepOk).
Proof. reflexivity. Qed.

Example task_recovers :
  supervise defaultMinBackoff defaultMaxBackoff defaultHealthyAfter [MkTurn (Some "a") 5 false 0 false; MkTurn (Some "b") 5 false 1 false; MkTurn None 9 false 0 false]
  = MkTask (MkStatus TaskDone 2 "b") 4000000000 [500000000; 1000000001] false.
Proof. vm_compute. done. Qed.
