(* ===== verification/Dns.v ===== *)
(** * The resolver on the gateway

    [pkg/dns/server.go]: every question a sandbox asks is judged by its name through a director before any upstream is asked.
    Reading and building a DNS message is [golang.org/x/net/dns/dnsmessage], which is a parameter; the director is an
    interface, which the broker implements. A connection is the list of the bytes still to be read from it. *)

From S2P Require Import Prelude GoStrings Netip Models Secret EgressPolicy EgressDecide EgressCompile Network Broker PreAuth.
Local Open Scope Z_scope.

Definition Port : Z := 53.
Definition maxMessage : Z := 65535.
Definition maxInflight : Z := 256.
Definition maxPerSource : Z := 16.

(** ** Messages *)

Record DHeader : Type := MkDHeader {
  DID_ : Z; Response : bool; OpCode : Z; Authoritative : bool; Truncated : bool;
  RecursionDesired : bool; RecursionAvailable : bool; RCode : Z
}.

Record DQuestion : Type := MkDQuestion { QName : string; QType : Z; QClass : Z }.

Abbreviation bytes := (list Z).

(** [dnsmessage]: the header [Start] reads, what the calls of [Question] after it answer, [None] where one is an error, and the
    message a builder finishes. *)
Class DnsMessage := {
  Start : bytes → option DHeader;
  question1 : bytes → option DQuestion;
  second_done : bytes → bool;
  Build : DHeader → option DQuestion → option bytes
}.

(** A message that was built reads back as the header it was built from. *)
Class DnsMessageLaws (D : DnsMessage) := { Start_Build : ∀ h q out, Build h q = Some out → Start out = Some h }.

Definition RCodeFormatError : Z := 1.
Definition RCodeServerFailure : Z := 2.
Definition RCodeNameError : Z := 3.
Definition RCodeNotImplemented : Z := 4.

Record Question : Type := MkQuestion { QSource : Addr; Name_ : string }.

(** [Director], with the state its calls move. *)
Class Director (S E : Type) := { Resolve_ : S → Question → S * result E bool }.

Definition canonical `{Unicode} (name : string) : string := TrimSuffix (ToLower name) ".".

Inductive dns_error (E : Type) : Type :=
| DParse
| DJudge (e : E)
| DForward
| DBuild.
Arguments DParse {E}.
Arguments DJudge {E} _.
Arguments DForward {E}.
Arguments DBuild {E}.

(** ** One message *)

Section Answer.
Context `{U : Unicode} `{D : DnsMessage} {S E : Type} `{Dir : Director S E}.

(** [reply]. *)
Definition reply (h : DHeader) (q : option DQuestion) (rcode : Z) : option bytes :=
  Build (MkDHeader (DID_ h) true (OpCode h) false false (RecursionDesired h) true rcode) q.

(** What each upstream does with a message that is sent to it: [None] where nothing came back. *)
Definition upstream : Type := bytes → option bytes.

(** [forward]: how many upstreams were sent the message, and the first answer that is one to it. *)
Fixpoint forward (ups : list upstream) (msg : bytes) (id : Z) : nat * option bytes :=
  match ups with
  | [] => (0%nat, None)
  | up :: ups =>
      let next := let '(n, a) := forward ups msg id in (Datatypes.S n, a) in
      match up msg with
      | None => next
      | Some answer =>
          match Start answer with
          | None => next
          | Some h => if negb (Response h) || negb (DID_ h =? id) then next else (1%nat, Some answer)
          end
      end
  end.

(** What a message led to: the state of the director, how many upstreams were sent the message, the reply, and the fault. *)
Record outcome : Type := MkOutcome { ostate : S; osent : nat; oreply : option bytes; ofault : option (dns_error E) }.

Definition replied (s : S) (sent : nat) (out : option bytes) (fault : option (dns_error E)) : outcome :=
  MkOutcome s sent out (match out, fault with _, Some f => Some f | None, None => Some DBuild | Some _, None => None end).

(** [answer]. *)
Definition answer (ups : list upstream) (s : S) (source : Addr) (msg : bytes) : outcome :=
  match Start msg with
  | None => MkOutcome s 0 None (Some DParse)
  | Some h =>
      if Response h then MkOutcome s 0 None None
      else if negb (OpCode h =? 0) then replied s 0 (reply h None RCodeNotImplemented) None
      else
        match question1 msg with
        | None => replied s 0 (reply h None RCodeFormatError) None
        | Some q =>
            if negb (second_done msg) then replied s 0 (reply h (Some q) RCodeFormatError) None
            else
              match Resolve_ s (MkQuestion source (canonical (QName q))) with
              | (s, Err e) => replied s 0 (reply h (Some q) RCodeServerFailure) (Some (DJudge e))
              | (s, Ok false) => replied s 0 (reply h (Some q) RCodeNameError) None
              | (s, Ok true) =>
                  match forward ups msg (DID_ h) with
                  | (n, None) => replied s n (reply h (Some q) RCodeServerFailure) (Some DForward)
                  | (n, Some a) => MkOutcome s n (Some a) None
                  end
              end
        end
  end.

(** ** A tcp connection *)

(** [framed] and [readFramed]. *)
Definition framed (msg : bytes) : bytes :=
  let n := wrap_u 16 (Z.of_nat (length msg)) in Z.shiftr n 8 :: Z.land n 255 :: msg.

Inductive frame_end : Type := FrameEOF | FrameCut.

Definition readFramed (conn : bytes) : result frame_end (bytes * bytes) :=
  match conn with
  | [] => Err FrameEOF
  | [_] => Err FrameCut
  | hi :: lo :: conn =>
      let n := Z.to_nat (Z.lor (Z.shiftl hi 8) lo) in
      if (length conn <? n)%nat then Err (if Nat.eqb (length conn) 0 then FrameEOF else FrameCut) else Ok (take n conn, drop n conn)
  end.

(** [serveConn], over what the guest has sent: each frame is two bytes at least, so the length of the input is fuel enough. *)
Fixpoint serve_go (fuel : nat) (ups : list upstream) (s : S) (source : Addr) (conn : bytes) : S * list bytes :=
  match fuel with
  | O => (s, [])
  | Datatypes.S fuel =>
      match readFramed conn with
      | Err _ => (s, [])
      | Ok (msg, conn) =>
          let o := answer ups s source msg in
          let '(s, rest) := serve_go fuel ups (ostate o) source conn in
          (s, match oreply o with Some a => framed a :: rest | None => rest end)
      end
  end.

Definition serveConn (ups : list upstream) (s : S) (source : Addr) (conn : bytes) : S * list bytes :=
  serve_go (Datatypes.S (length conn)) ups s source conn.

(** Each message answered in turn, by itself. *)
Fixpoint answers (ups : list upstream) (s : S) (source : Addr) (msgs : list bytes) : S * list bytes :=
  match msgs with
  | [] => (s, [])
  | msg :: msgs =>
      let o := answer ups s source msg in
      let '(s, rest) := answers ups (ostate o) source msgs in
      (s, match oreply o with Some a => framed a :: rest | None => rest end)
  end.

End Answer.

(** ** The handlers in flight *)

(** Who is admitted: the udp questions and the tcp connections, each under a number, and which of them hold an in-flight slot. *)
Record bounds_ : Type := MkBounds { dsources : gmap Addr Z; inflight : Z; admitted_ : list (nat * Addr); slots_ : list nat }.

Definition count_of (b : bounds_) (s : Addr) : Z := default 0 (dsources b !! s).

Definition admit_ (source : Addr) (b : bounds_) : option (gmap Addr Z) :=
  if maxPerSource <=? count_of b source then None else Some (<[source := count_of b source + 1]> (dsources b)).

Definition leave_ (source : Addr) (b : bounds_) : gmap Addr Z :=
  let n := count_of b source - 1 in if n =? 0 then delete source (dsources b) else <[source := n]> (dsources b).

(** A question or a connection comes in; it takes a slot, which waits for one to be free; it gives the slot back; it ends. *)
Inductive life : Type := Comes (n : nat) (remote : string) | Holds (n : nat) | Frees (n : nat) | Ends_ (n : nat).

Definition lives (e : life) (b : bounds_) : bounds_ :=
  match e with
  | Comes n remote =>
      match ParseAddrPort remote with
      | None => b
      | Some a =>
          match admit_ (Unmap a) b with
          | Some m => MkBounds m (inflight b) (admitted_ b ++ [(n, Unmap a)]) (slots_ b)
          | None => b
          end
      end
  | Holds n =>
      if bool_decide (n ∈ (admitted_ b).*1) && negb (bool_decide (n ∈ slots_ b)) && (inflight b <? maxInflight)
      then MkBounds (dsources b) (inflight b + 1) (admitted_ b) (n :: slots_ b) else b
  | Frees n =>
      if bool_decide (n ∈ slots_ b)
      then MkBounds (dsources b) (inflight b - 1) (admitted_ b) (List.filter (λ m, negb (Nat.eqb m n)) (slots_ b)) else b
  | Ends_ n =>
      match first_match (λ x, Nat.eqb x.1 n) (admitted_ b) with
      | Some x => MkBounds (leave_ x.2 b) (inflight b) (List.filter (λ y, negb (Nat.eqb y.1 n)) (admitted_ b)) (slots_ b)
      | None => b
      end
  end.

Definition lived (es : list life) (b : bounds_) : bounds_ := foldl (λ b e, lives e b) b es.
Definition coming (e : life) : list nat := match e with Comes n _ => [n] | _ => [] end.
Definition no_handlers : bounds_ := MkBounds ∅ 0 [] [].

(** ** Theorems *)

(** The broker behind the interface: what the world answers it is fixed for the one call. *)
#[export] Instance broker_director `{U : Unicode} (gateway : Z) (policies : gmap string policy_entry) (w : world)
  : Director state broker_error :=
  {| Resolve_ := λ st q, Broker.Resolve gateway policies w st (QSource q) (Name_ q) |}.

Section Judged.
Context `{U : Unicode} `{D : DnsMessage} {L : DnsMessageLaws D}.

(** The answer of an upstream that [forward] takes is one to the question it sent. *)
Lemma forward_matches ups msg id n a :
  forward ups msg id = (n, Some a) → ∃ h, Start a = Some h ∧ Response h = true ∧ DID_ h = id.
Proof.
  revert n. induction ups as [|up ups IH]; intros n; [done|]. cbn [forward]. destruct (forward ups msg id) as [m x].
  destruct (up msg) as [b|]; [|intros [= <- ->]; by apply (IH m)]. destruct (Start b) as [h|] eqn:Eb; [|intros [= <- ->]; by apply (IH m)].
  destruct (Response h) eqn:Er; [|intros [= <- ->]; by apply (IH m)]. simpl. destruct (Z.eqb_spec (DID_ h) id); [|intros [= <- ->]; by apply (IH m)].
  intros [= <- <-]. by exists h.
Qed.

Lemma replied_reply {S E} (s : S) n out (f : option (dns_error E)) : oreply (replied s n out f) = out.
Proof. done. Qed.

(** A reply answers the message it is to: it says so, and carries its number. *)
Lemma reply_matches {S E} `{Dir : Director S E} ups s source msg h a :
  Start msg = Some h → oreply (answer ups s source msg) = Some a → ∃ h', Start a = Some h' ∧ Response h' = true ∧ DID_ h' = DID_ h.
Proof.
  intros Hh. unfold answer. rewrite Hh.
  assert (∀ q c, reply h q c = Some a → ∃ h', Start a = Some h' ∧ Response h' = true ∧ DID_ h' = DID_ h) as Hr.
  { intros q c Hb. apply Start_Build in Hb. by eexists. }
  destruct (Response h); [done|]. destruct (negb (OpCode h =? 0)); [apply Hr|]. destruct (question1 msg) as [q|]; [|apply Hr].
  destruct (negb (second_done msg)); [apply Hr|]. destruct (Resolve_ s _) as [s' [[]|e]]; [|apply Hr|apply Hr].
  destruct (forward ups msg (DID_ h)) as [n [b|]] eqn:Ef; [|apply Hr]. simpl. intros [= <-]. by apply forward_matches in Ef.
Qed.

(** C17: a question leaves for an upstream only after its name was allowed. Where the broker is the director, whatever a sandbox
    sends: an upstream is sent something only when the message reads as a query with one question, from an address a sandbox
    holds, whose name the policy of that sandbox allows, and the verdict is on the egress log. Whatever is replied says it is a
    reply and carries the number of the message, and a message that is a reply itself gets none. *)
Theorem upstream_judged gateway policies w ups st source msg :
  let o := answer (Dir := broker_director gateway policies w) ups st source msg in
  (osent o ≠ 0%nat →
   ∃ h q sb d, Start msg = Some h ∧ Response h = false ∧ OpCode h = 0 ∧ question1 msg = Some q ∧ second_done msg = true ∧
     (sandbox (wgen w) (wlisting w) (scache st) source).2 = Ok sb ∧
     DecideName gateway policies sb (canonical (QName q)) = Ok d ∧ DAction d = ActionAllow ∧
     slog (ostate o) = slog st ++
       [(ID sb, MkLogRecord (wnow w) SourceDNS ActionAllow (canonical (QName q)) 0 "" (DID d) (rule_text d) (DReason d))]) ∧
  (∀ a, oreply o = Some a →
   ∃ h h', Start msg = Some h ∧ Response h = false ∧ Start a = Some h' ∧ Response h' = true ∧ DID_ h' = DID_ h).
Proof.
  intros o. split.
  - unfold o, answer. destruct (Start msg) as [h|] eqn:Eh; [|done]. destruct (Response h) eqn:Er; [done|].
    destruct (Z.eqb_spec (OpCode h) 0) as [Eo|]; [|done]. simpl. destruct (question1 msg) as [q|] eqn:Eq; [|done].
    destruct (second_done msg) eqn:Ed; [|done]. simpl. unfold Broker.Resolve. simpl.
    destruct (sandbox _ _ _ _) as [c [sb|e]] eqn:Es; [|done]. destruct (DecideName gateway policies sb _) as [d|e] eqn:En; [|done].
    unfold Append. destruct (wappend w); [|done]. case_bool_decide as Ha; [|done].
    destruct (forward ups msg (DID_ h)) as [n [a|]] eqn:Ef; simpl; intros _; exists h, q, sb, d; rewrite Ha; by split_and!.
  - intros a Ha. destruct (Start msg) as [h|] eqn:Eh; [|unfold o, answer in Ha; by rewrite Eh in Ha].
    destruct (reply_matches _ _ _ _ h a Eh Ha) as (h' & Hh'). exists h, h'. split; [done|]. split; [|done].
    unfold o, answer in Ha. rewrite Eh in Ha. by destruct (Response h).
Qed.

End Judged.

(** ** Framing *)

Lemma be16 n : 0 ≤ n < 65536 → Z.lor (Z.shiftl (Z.shiftr n 8) 8) (Z.land n 255) = n.
Proof.
  intros Hn. rewrite Z.lor_comm. change 255 with (Z.ones 8). apply Z.bits_inj'. intros i Hi.
  rewrite Z.lor_spec, Z.land_spec, Z.shiftl_spec by lia. destruct (Z.ltb_spec i 8).
  - rewrite Z.ones_spec_low, andb_true_r by lia. rewrite (Z.testbit_neg_r _ (i - 8)) by lia. apply orb_false_r.
  - rewrite Z.ones_spec_high, andb_false_r by lia. rewrite Z.shiftr_spec by lia. simpl. f_equal. lia.
Qed.

Lemma readFramed_framed msg rest : Z.of_nat (length msg) ≤ maxMessage → readFramed (framed msg ++ rest) = Ok (msg, rest).
Proof.
  unfold maxMessage. intros Hm. unfold framed, readFramed. simpl. unfold wrap_u. change (2 ^ 16) with 65536.
  rewrite Z.mod_small by lia. rewrite be16 by lia.
  rewrite Nat2Z.id, length_app. destruct (Nat.ltb_spec (length msg + length rest) (length msg)); [lia|].
  by rewrite take_app_length, drop_app_length.
Qed.

Section Conn.
Context `{U : Unicode} `{D : DnsMessage} {S E : Type} `{Dir : Director S E}.

Lemma serve_go_framed ups source msgs : ∀ s fuel,
  Forall (λ m, Z.of_nat (length m) ≤ maxMessage) msgs → (length msgs < fuel)%nat →
  serve_go fuel ups s source (concat (framed <$> msgs)) = answers ups s source msgs.
Proof.
  induction msgs as [|m msgs IH]; intros s fuel Hm Hf; (destruct fuel as [|fuel]; [simpl in Hf; lia|]); [done|].
  apply Forall_cons in Hm as [Hm Hms]. cbn [fmap list_fmap concat serve_go answers]. rewrite readFramed_framed by done.
  rewrite IH; [done|done|]. simpl in Hf. lia.
Qed.

Lemma framed_length msgs : (length msgs ≤ length (concat (framed <$> msgs)))%nat.
Proof. induction msgs as [|m msgs IH]; [done|]. rewrite fmap_cons. cbn [concat length]. rewrite length_app. simpl. lia. Qed.

(** A tcp connection answers every question sent on it, in the order they came and each as if it had come alone: what is
    written is the framed replies of the messages, one after the other. *)
Theorem conn_answers ups s source msgs :
  Forall (λ m, Z.of_nat (length m) ≤ maxMessage) msgs →
  serveConn ups s source (concat (framed <$> msgs)) = answers ups s source msgs.
Proof. intros Hm. apply serve_go_framed; [done|]. pose proof (framed_length msgs). lia. Qed.
End Conn.

(** ** The bounds *)

Definition bounded (b : bounds_) : Prop :=
  NoDup (admitted_ b).*1 ∧ NoDup (slots_ b) ∧ inflight b = Z.of_nat (length (slots_ b)) ∧ inflight b ≤ maxInflight ∧
  (∀ s, count_of b s = from_source s (admitted_ b) ∧ from_source s (admitted_ b) ≤ maxPerSource) ∧
  (∀ s, dsources b !! s ≠ Some 0).

Lemma comes_bounded b n remote : bounded b → n ∉ (admitted_ b).*1 → bounded (lives (Comes n remote) b).
Proof.
  intros (H1 & H2 & H3 & H4 & H5 & H6) Hn. simpl. destruct (ParseAddrPort remote) as [x|]; [|done]. set (a := Unmap x).
  unfold admit_. destruct (Z.leb_spec maxPerSource (count_of b a)); [done|]. destruct (H5 a) as [Ha _].
  pose proof (from_source_nonneg a (admitted_ b)). unfold bounded. simpl. split_and!; try done.
  - rewrite fmap_app. apply NoDup_app. split_and!; [done| |by apply NoDup_singleton]. intros y Hy ->%list_elem_of_singleton. done.
  - intros s. rewrite from_source_snoc. destruct (H5 s) as [Hs1 Hs2]. unfold count_of in *. simpl.
    destruct (decide (a = s)) as [<-|]; [rewrite lookup_insert_eq; simpl; lia|]. rewrite lookup_insert_ne by done. lia.
  - intros s. destruct (decide (a = s)) as [<-|]; [rewrite lookup_insert_eq; intros [= ?]; lia|]. by rewrite lookup_insert_ne.
Qed.

Lemma ends_bounded b n : bounded b → bounded (lives (Ends_ n) b).
Proof.
  intros (H1 & H2 & H3 & H4 & H5 & H6). simpl. destruct (first_match _ (admitted_ b)) as [[c s]|] eqn:E; [|done].
  apply first_match_Some in E as (l1 & l2 & El & Hc & _). simpl in Hc. apply Nat.eqb_eq in Hc as ->.
  assert ((n, s) ∈ admitted_ b) as Hin by (rewrite El; set_solver).
  destruct (filter_one n s (admitted_ b) H1 Hin) as [_ Hcount]. destruct (H5 s) as [Hs Hs'].
  unfold bounded. simpl. split_and!; try done; [by apply NoDup_keys_filter| |].
  - intros s'. rewrite Hcount. destruct (H5 s') as [Hs1 Hs2]. unfold count_of, leave_ in *. simpl. destruct (decide (s = s')) as [<-|Hn].
    + case_match eqn:En; [apply Z.eqb_eq in En; rewrite lookup_delete_eq|rewrite lookup_insert_eq]; simpl; unfold count_of in *; lia.
    + case_match; [rewrite lookup_delete_ne by done|rewrite lookup_insert_ne by done]; lia.
  - intros s'. unfold leave_, count_of. case_match eqn:En; [apply Z.eqb_eq in En|apply Z.eqb_neq in En]; destruct (decide (s = s')) as [<-|Hn].
    + by rewrite lookup_delete_eq.
    + by rewrite lookup_delete_ne.
    + rewrite lookup_insert_eq. congruence.
    + by rewrite lookup_insert_ne.
Qed.

Lemma filter_nat n (l : list nat) :
  NoDup l → n ∈ l → Z.of_nat (length (List.filter (λ m, negb (Nat.eqb m n)) l)) = Z.of_nat (length l) - 1 ∧ NoDup (List.filter (λ m, negb (Nat.eqb m n)) l).
Proof.
  assert (∀ l, n ∉ l → List.filter (λ m, negb (Nat.eqb m n)) l = l) as Hid.
  { clear. induction l as [|m l IH]; [done|]. rewrite not_elem_of_cons. intros [Hm Hl]. simpl. destruct (Nat.eqb_spec m n); [congruence|].
    simpl. by rewrite IH. }
  induction l as [|m l IH]; [set_solver|]. intros [Hm Hl]%NoDup_cons Hin. simpl. destruct (Nat.eqb_spec m n) as [->|Hne]; simpl.
  - rewrite Hid by done. split; [lia|done].
  - apply elem_of_cons in Hin as [->|Hin]; [done|]. destruct (IH Hl Hin) as [IH1 IH2]. split; [lia|]. apply NoDup_cons. split; [|done].
    rewrite list_elem_of_In in *. rewrite List.filter_In. tauto.
Qed.

Lemma lives_admitted e b n : (∀ m r, e ≠ Comes m r) → n ∈ (admitted_ (lives e b)).*1 → n ∈ (admitted_ b).*1.
Proof.
  intros He. destruct e as [m r|m|m|m]; [by destruct (He m r)|..]; simpl; try (by case_match).
  destruct (first_match _ _); [|done]. simpl. intros Hn. apply list_elem_of_fmap in Hn as (x & -> & Hx). apply list_elem_of_fmap. exists x.
  split; [done|]. rewrite list_elem_of_In in *. by apply List.filter_In in Hx as [? _].
Qed.

Lemma slots_bounded b e : bounded b → (∀ n r, e ≠ Comes n r) → bounded (lives e b).
Proof.
  intros Hb He. destruct e as [n r|n|n|n]; [by destruct (He n r)| | |by apply ends_bounded];
    destruct Hb as (H1 & H2 & H3 & H4 & H5 & H6); simpl.
  - destruct (bool_decide (n ∈ (admitted_ b).*1)); [|done]. case_bool_decide as Hn; [done|]. simpl.
    destruct (Z.ltb_spec (inflight b) maxInflight); [|done]. unfold bounded. simpl. split_and!; try done; [by apply NoDup_cons|lia|lia].
  - case_bool_decide as Hn; [|done]. destruct (filter_nat n (slots_ b) H2 Hn) as [Hl Hd]. unfold bounded. simpl. split_and!; try done; lia.
Qed.

Lemma lived_bounded es : ∀ b seen,
  bounded b → (∀ n, n ∈ (admitted_ b).*1 → n ∈ seen) → NoDup (seen ++ concat (coming <$> es)) → bounded (lived es b).
Proof.
  induction es as [|e es IH]; intros b seen Hb Hseen Hnd; [done|]. unfold lived. simpl.
  assert ((∃ n r, e = Comes n r) ∨ ∀ n r, e ≠ Comes n r) as [(n & r & ->)|He] by (destruct e; [left; by eexists _, _|right; done..]).
  - cbn [fmap list_fmap concat coming] in Hnd. apply (IH _ (seen ++ [n])).
    + apply comes_bounded; [done|]. intros Hin%Hseen. apply NoDup_app in Hnd as (_ & Hd & _). by apply (Hd n Hin), elem_of_cons; left.
    + intros c. simpl. destruct (ParseAddrPort r) as [a|]; [|set_solver]. destruct (admit_ _ _); [|set_solver]. simpl. rewrite fmap_app. set_solver.
    + by rewrite <- (assoc_L (++)).
  - apply (IH _ seen); [by apply slots_bounded| |by destruct e; [destruct (He n remote)| ..]]. intros c Hc. apply Hseen. by apply (lives_admitted e b).
Qed.

(** No sandbox can fill the resolver for the others. Whatever questions and connections come in, take a slot, give it back
    and end, in any order: the counters stay those of the questions and connections admitted, no address has more than its
    share of them, no more handlers answer at once than the pool holds, and once all have ended nothing is counted. *)
Theorem resolver_bounded es :
  NoDup (concat (coming <$> es)) →
  let b := lived es no_handlers in
  inflight b = Z.of_nat (length (slots_ b)) ∧ inflight b ≤ maxInflight ∧
  (∀ s, count_of b s = from_source s (admitted_ b) ∧ count_of b s ≤ maxPerSource) ∧
  (admitted_ b = [] → dsources b = ∅).
Proof.
  intros Hnd b. assert (bounded b) as (H1 & H2 & H3 & H4 & H5 & H6).
  { apply (lived_bounded es _ []); [|set_solver|done]. unfold bounded, count_of, from_source. simpl. split_and!; try done; constructor. }
  split_and!; [done|done| |].
  - intros s. destruct (H5 s). split; [done|lia].
  - intros Hn. apply map_eq. intros s. rewrite lookup_empty. destruct (H5 s) as [Hs _]. specialize (H6 s). rewrite Hn in Hs.
    unfold count_of, from_source in Hs. simpl in Hs. destruct (dsources b !! s) as [m|]; [|done]. simpl in Hs. by subst.
Qed.

(** ** Witnesses *)

(** A toy of the message format: the header a field at a time, and one question after it as its name's length says. *)
Definition bit (b : bool) : Z := if b then 1 else 0.

#[local] Instance toy_messages : DnsMessage := {
  Start := λ m,
    match m with
    | id :: qr :: op :: aa :: tc :: rd :: ra :: rc :: _ =>
        Some (MkDHeader id (qr =? 1) op (aa =? 1) (tc =? 1) (rd =? 1) (ra =? 1) rc)
    | _ => None
    end;
  question1 := λ m, match drop 8 m with t :: name => Some (MkDQuestion (String.string_of_list_ascii (ascii_of_nat ∘ Z.to_nat <$> name)) t 1) | [] => None end;
  second_done := λ _, true;
  Build := λ h q,
    Some ([DID_ h; bit (Response h); OpCode h; bit (Authoritative h); bit (Truncated h); bit (RecursionDesired h); bit (RecursionAvailable h); RCode h]
          ++ match q with Some q => QType q :: (Z.of_nat ∘ nat_of_ascii <$> String.list_ascii_of_string (QName q)) | None => [] end)
}.

#[local] Instance toy_laws : DnsMessageLaws toy_messages.
Proof. constructor. intros [id r op aa tc rd ra rc] q out [= <-]. simpl. by destruct r, aa, tc, rd, ra. Qed.

Definition asks (name : string) : bytes := [7; 0; 0; 0; 0; 1; 0; 0; 1] ++ (Z.of_nat ∘ nat_of_ascii <$> String.list_ascii_of_string name).
Definition echo : upstream := λ m, match m with id :: _ :: rest => Some (id :: 1 :: rest) | _ => None end.
Definition silent : upstream := λ _, None.

Definition toy_answer (name : string) : outcome :=
  answer (U := ascii_only) (Dir := broker_director (U := ascii_only) web_gateway web_dir quiet_world) [silent; echo] fresh_state guest_addr (asks name).

Lemma upstream_judged_witness :
  osent (toy_answer "API.example.com.") = 2%nat ∧ osent (toy_answer "evil.test") = 0%nat ∧
  ∃ h q sb d, Start (asks "API.example.com.") = Some h ∧ Response h = false ∧ OpCode h = 0 ∧
    question1 (asks "API.example.com.") = Some q ∧ second_done (asks "API.example.com.") = true ∧
    (sandbox (wgen quiet_world) (wlisting quiet_world) (scache fresh_state) guest_addr).2 = Ok sb ∧
    DecideName (U := ascii_only) web_gateway web_dir sb (canonical (H := ascii_only) (QName q)) = Ok d ∧ DAction d = ActionAllow ∧
    slog (ostate (toy_answer "API.example.com.")) = slog fresh_state ++
      [(ID sb, MkLogRecord (wnow quiet_world) SourceDNS ActionAllow (canonical (H := ascii_only) (QName q)) 0 "" (DID d) (rule_text d) (DReason d))].
Proof.
  split; [vm_compute; reflexivity|]. split; [vm_compute; reflexivity|].
  refine (proj1 (upstream_judged (U := ascii_only) (L := toy_laws) web_gateway web_dir quiet_world [silent; echo] fresh_state guest_addr (asks "API.example.com.")) _).
  vm_compute. discriminate.
Defined.

Lemma conn_answers_witness :
  serveConn (U := ascii_only) (Dir := broker_director (U := ascii_only) web_gateway web_dir quiet_world) [echo] fresh_state guest_addr
    (concat (framed <$> [asks "api.example.com"; asks "evil.test"])) =
  answers (U := ascii_only) (Dir := broker_director (U := ascii_only) web_gateway web_dir quiet_world) [echo] fresh_state guest_addr
    [asks "api.example.com"; asks "evil.test"].
Proof. apply conn_answers. repeat constructor; vm_compute; discriminate. Defined.

Definition two_guests : list life :=
  [Comes 0 "10.100.0.2:5353"; Holds 0; Comes 1 "10.100.0.3:5353"; Comes 2 "10.100.0.2:5354"; Holds 2; Ends_ 0; Frees 0; Comes 3 "nowhere"].

Lemma resolver_bounded_witness :
  admitted_ (lived two_guests no_handlers) = [(1%nat, Addr4 174325763); (2%nat, Addr4 174325762)] ∧ inflight (lived two_guests no_handlers) ≤ maxInflight.
Proof.
  split; [vm_compute; reflexivity|]. refine (proj1 (proj2 (resolver_bounded two_guests _))). apply (bool_decide_unpack _). vm_compute. exact Logic.I.
Defined.
