(* ===== verification/Rootfs.v ===== *)
(** * A directory, and the names of [os.Root] under it

    What [os.OpenRoot] gives of a directory: a map from the paths under it to its entries, with the regular files by identity, so
    that a hard link is a second name of one. A name is resolved the way the package documents: a link that stays under the
    directory is followed, and one that leaves it is the escape error. *)

From S2P Require Import Prelude GoStrings.
Local Open Scope Z_scope.

(** ** The directory *)

Definition owner : Type := option (Z * Z).

(** What is neither a directory, a link nor a regular file. *)
Inductive special : Type := Fifo | Device | Socket.

Inductive node : Type :=
| NDir (mode : Z) (by_ : owner)
| NLink (target : string) (by_ : owner)
| NFile (ino : nat)
| NOther (kind : special).

Record inode : Type := MkInode { ibody : string; imode : Z; iowner : owner }.

Record tree : Type := MkTree { nodes : gmap (list string) node; inodes : gmap nat inode; next_ino : nat }.

Inductive fs_error : Type := FEscape | FNotExist | FExist | FNotDir | FLoop | FIsDir | FOther.
#[export] Instance fs_error_eq_dec : EqDecision fs_error. Proof. solve_decision. Defined.

(** The directory itself is always there. *)
Definition node_at (t : tree) (p : list string) : option node := match p with [] => Some (NDir 448 None) | _ => nodes t !! p end.

(** How many links a name may go through. *)
Class LinkLimit := rootMaxSymlinks : nat.

(** A name from [cur] on: each link on the way is followed, the last one too where the caller asks for that. *)
Fixpoint walk (links : nat) (t : tree) (follow : bool) : list string → list string → result fs_error (list string) :=
  fix go cur rest :=
    match rest with
    | [] => Ok cur
    | c :: rest =>
        if String.eqb c "" || String.eqb c "." then go cur rest
        else if String.eqb c ".." then match cur with [] => Err FEscape | _ => go (removelast cur) rest end
        else
          match nodes t !! (cur ++ [c]) with
          | None => match rest with [] => Ok (cur ++ [c]) | _ => Err FNotExist end
          | Some (NDir _ _) => go (cur ++ [c]) rest
          | Some (NFile _) | Some (NOther _) => match rest with [] => Ok (cur ++ [c]) | _ => Err FNotDir end
          | Some (NLink target _) =>
              match rest, follow with
              | [], false => Ok (cur ++ [c])
              | _, _ =>
                  match links with
                  | O => Err FLoop
                  | S links => if HasPrefix target "/" then Err FEscape else walk links t follow cur (Split "/" target ++ rest)
                  end
              end
          end
    end.

Section Calls.
Context `{LinkLimit}.

Definition resolve (t : tree) (follow : bool) (name : list string) : result fs_error (list string) := walk rootMaxSymlinks t follow [] name.

Definition set_nodes (f : gmap (list string) node → gmap (list string) node) (t : tree) : tree := MkTree (f (nodes t)) (inodes t) (next_ino t).

Definition Mkdir (mode : Z) (name : list string) (t : tree) : result fs_error (tree * unit) :=
  p ← resolve t false name;
  match node_at t p with Some _ => Err FExist | None => Ok (set_nodes <[p := NDir mode None]> t, tt) end.

Definition Stat (follow : bool) (name : list string) (t : tree) : result fs_error node :=
  p ← resolve t follow name;
  match node_at t p with Some n => Ok n | None => Err FNotExist end.

(** A new file, which must not be there. *)
Definition OpenExcl (name : list string) (t : tree) : result fs_error (tree * nat) :=
  p ← resolve t false name;
  match node_at t p with
  | Some _ => Err FExist
  | None => let i := next_ino t in Ok (MkTree (<[p := NFile i]> (nodes t)) (<[i := MkInode "" 384 None]> (inodes t)) (S i), i)
  end.

Definition SymlinkAt (target : string) (name : list string) (t : tree) : result fs_error (tree * unit) :=
  p ← resolve t false name;
  if String.eqb target "" then Err FNotExist
  else match node_at t p with Some _ => Err FExist | None => Ok (set_nodes <[p := NLink target None]> t, tt) end.

Definition LinkAt (old name : list string) (t : tree) : result fs_error (tree * unit) :=
  o ← resolve t false old;
  p ← resolve t false name;
  match node_at t o, node_at t p with
  | None, _ => Err FNotExist
  | Some (NDir _ _), _ => Err FOther
  | Some _, Some _ => Err FExist
  | Some n, None => Ok (set_nodes <[p := n]> t, tt)
  end.

(** [rename(2)]: two names of one file are left both. *)
Definition Rename (old name : list string) (t : tree) : result fs_error (tree * unit) :=
  o ← resolve t false old;
  p ← resolve t false name;
  match node_at t o, node_at t p with
  | None, _ => Err FNotExist
  | Some _, Some (NDir _ _) => Err FIsDir
  | Some (NDir _ _), Some _ => Err FNotDir
  | Some (NFile i), Some (NFile j) =>
      if Nat.eqb i j then Ok (t, tt) else Ok (set_nodes (λ m, <[p := NFile i]> (delete o m)) t, tt)
  | Some n, _ => Ok (set_nodes (λ m, <[p := n]> (delete o m)) t, tt)
  end.

Definition has_below (t : tree) (p : list string) : bool :=
  bool_decide (map_Exists (λ q _, take (length p) q = p ∧ q ≠ p) (nodes t)).

Definition RemoveAt (name : list string) (t : tree) : result fs_error (tree * unit) :=
  p ← resolve t false name;
  match p, node_at t p with
  | [], _ => Err FOther
  | _, None => Err FNotExist
  | _, Some (NDir _ _) => if has_below t p then Err FExist else Ok (set_nodes (delete p) t, tt)
  | _, Some _ => Ok (set_nodes (delete p) t, tt)
  end.

Definition on_inode (f : inode → inode) (i : nat) (t : tree) : tree := MkTree (nodes t) (alter f i (inodes t)) (next_ino t).

(** What a call writes on an entry; the mode and the owner of the directory itself, and of what is no file, are not followed. *)
Definition put (p : list string) (n : node) (t : tree) : tree := match p with [] => t | _ => set_nodes <[p := n]> t end.

Definition Lchown (o : Z * Z) (name : list string) (t : tree) : result fs_error (tree * unit) :=
  p ← resolve t false name;
  match node_at t p with
  | None => Err FNotExist
  | Some (NDir m _) => Ok (put p (NDir m (Some o)) t, tt)
  | Some (NLink x _) => Ok (put p (NLink x (Some o)) t, tt)
  | Some (NFile i) => Ok (on_inode (λ x, MkInode (ibody x) (Z.land (imode x) 1023) (Some o)) i t, tt)
  | Some (NOther _) => Ok (t, tt)
  end.

Definition Chmod (mode : Z) (name : list string) (t : tree) : result fs_error (tree * unit) :=
  p ← resolve t true name;
  match node_at t p with
  | None => Err FNotExist
  | Some (NDir _ o) => Ok (put p (NDir mode o) t, tt)
  | Some (NFile i) => Ok (on_inode (λ x, MkInode (ibody x) mode (iowner x)) i t, tt)
  | Some (NOther _) => Ok (t, tt)
  | Some (NLink _ _) => Err FLoop
  end.

End Calls.

(** ** Where a name leads *)

(** A piece that is a name of its own. *)
Definition plain_piece (c : string) : Prop := c ≠ "" ∧ c ≠ "." ∧ c ≠ "..".

Lemma plain_piece_eqb c : plain_piece c → (String.eqb c "" || String.eqb c ".") = false ∧ String.eqb c ".." = false.
Proof. intros (H1 & H2 & H3). rewrite !(proj2 (String.eqb_neq _ _)) by done. done. Qed.

(** The equation of the walk at one piece. *)
Lemma walk_cons links t follow cur c rest :
  walk links t follow cur (c :: rest) =
  if String.eqb c "" || String.eqb c "." then walk links t follow cur rest
  else if String.eqb c ".." then match cur with [] => Err FEscape | _ => walk links t follow (removelast cur) rest end
  else
    match nodes t !! (cur ++ [c]) with
    | None => match rest with [] => Ok (cur ++ [c]) | _ => Err FNotExist end
    | Some (NDir _ _) => walk links t follow (cur ++ [c]) rest
    | Some (NFile _) | Some (NOther _) => match rest with [] => Ok (cur ++ [c]) | _ => Err FNotDir end
    | Some (NLink target _) =>
        match rest, follow with
        | [], false => Ok (cur ++ [c])
        | _, _ =>
            match links with
            | O => Err FLoop
            | S links => if HasPrefix target "/" then Err FEscape else walk links t follow cur (Split "/" target ++ rest)
            end
        end
    end.
Proof. by destruct links. Qed.

Lemma walk_nil links t follow cur : walk links t follow cur [] = Ok cur.
Proof. by destruct links. Qed.

(** Induction along a walk: over the links left, then over the pieces. *)
Lemma walk_ind (P : nat → list string → Prop) :
  (∀ l, P l []) → (∀ l c rest, P l rest → (∀ l' pre, (l' < l)%nat → P l' (pre ++ rest)) → P l (c :: rest)) → ∀ l rest, P l rest.
Proof.
  intros H0 Hc l. induction l as [l IH] using (well_founded_induction Nat.lt_wf_0). intros rest.
  induction rest as [|c rest IHr]; [done|]. apply Hc; [done|]. intros l' pre Hl. by apply IH.
Qed.

(** A name whose last piece is plain ends there. *)
Lemma walk_last t c : plain_piece c → ∀ links rest cur p, walk links t false cur (rest ++ [c]) = Ok p → ∃ d, p = d ++ [c].
Proof.
  intros Hc. destruct (plain_piece_eqb c Hc) as [Hc1 Hc2].
  apply (walk_ind (λ links rest, ∀ cur p, walk links t false cur (rest ++ [c]) = Ok p → ∃ d, p = d ++ [c])).
  - intros l cur p. simpl. rewrite walk_cons, Hc1, Hc2. destruct (nodes t !! (cur ++ [c])) as [[]|]; rewrite ?walk_nil; intros [= <-]; by exists cur.
  - intros l d rest IH IHl cur p. cbn [app]. rewrite walk_cons. destruct (String.eqb d "" || String.eqb d "."); [apply IH|].
    destruct (String.eqb d ".."); [destruct cur; [done|apply IH]|]. destruct (nodes t !! (cur ++ [d])) as [[m o|x o|i|k]|].
    + apply IH.
    + destruct (rest ++ [c]) as [|y ys] eqn:Er; [by destruct rest|]. rewrite <- Er. destruct l as [|l]; [done|]. destruct (HasPrefix x "/"); [done|].
      rewrite (assoc_L (++)). apply IHl. lia.
    + by destruct rest.
    + by destruct rest.
    + by destruct rest.
Qed.

(** An entry made where a name led to nothing is what the name leads to. *)
Lemma walk_made t p n : nodes t !! p = None → ∀ links rest cur,
  walk links t false cur rest = Ok p → walk links (set_nodes <[p := n]> t) false cur rest = Ok p.
Proof.
  intros Hp. apply (walk_ind (λ links rest, ∀ cur, walk links t false cur rest = Ok p →
    walk links (set_nodes <[p := n]> t) false cur rest = Ok p)); [intros l cur; by rewrite !walk_nil|].
  intros l c rest IH IHl cur. rewrite !walk_cons. destruct (String.eqb c "" || String.eqb c "."); [by apply IH|].
  destruct (String.eqb c ".."); [destruct cur; [done|by apply IH]|]. unfold set_nodes at 1. cbn [nodes].
  destruct (decide (p = cur ++ [c])) as [->|Hn].
  - rewrite Hp, lookup_insert_eq. destruct rest; [|done]. intros _. destruct n; by rewrite ?walk_nil.
  - rewrite lookup_insert_ne by done. destruct (nodes t !! (cur ++ [c])) as [[m o|x o|i|k]|] eqn:E; try done.
    + apply IH.
    + destruct rest as [|y ys]; [done|]. destruct l as [|l]; [done|]. destruct (HasPrefix x "/"); [done|]. apply IHl. lia.
Qed.

(** What a walk reads of an entry. *)
Definition shape (n : node) : node := match n with NDir _ _ => NDir 0 None | NLink x _ => NLink x None | NFile i => NFile i | NOther k => NOther k end.

Lemma walk_shape t t' : shape <$> nodes t = shape <$> nodes t' →
  ∀ follow links rest cur, walk links t follow cur rest = walk links t' follow cur rest.
Proof.
  intros E follow. apply (walk_ind (λ links rest, ∀ cur, walk links t follow cur rest = walk links t' follow cur rest)); [intros l cur; by rewrite !walk_nil|].
  intros l c rest IH IHl cur. rewrite !walk_cons, !IH. destruct (_ || _); [done|]. destruct (String.eqb c ".."); [by destruct cur|].
  assert (shape <$> nodes t !! (cur ++ [c]) = shape <$> nodes t' !! (cur ++ [c])) as En by (by rewrite <- !lookup_fmap, E).
  destruct (nodes t !! _) as [[]|], (nodes t' !! _) as [[]|]; simplify_eq/=; try done.
  destruct rest, follow, l; try done; case_match; try done; apply IHl; lia.
Qed.

Lemma shape_insert (m : gmap (list string) node) p n n' : m !! p = Some n → shape n' = shape n → shape <$> <[p := n']> m = shape <$> m.
Proof. intros Hp E. rewrite fmap_insert, E. apply insert_id. by rewrite lookup_fmap, Hp. Qed.

(** Once a finished file is over the last entry of a name, the name leads there or nowhere. *)
Lemma walk_renamed t p o i j : nodes t !! o = Some (NFile j) → ∀ links rest cur q,
  walk links t false cur rest = Ok p → walk links (set_nodes (λ m, <[p := NFile i]> (delete o m)) t) false cur rest = Ok q → q = p.
Proof.
  intros Ho. apply (walk_ind (λ links rest, ∀ cur q, walk links t false cur rest = Ok p →
    walk links (set_nodes (λ m, <[p := NFile i]> (delete o m)) t) false cur rest = Ok q → q = p)).
  { intros l cur q. rewrite !walk_nil. congruence. }
  intros l c rest IH IHl cur q. rewrite !walk_cons. destruct (_ || _); [by apply IH|].
  destruct (String.eqb c ".."); [destruct cur; [done|by apply IH]|]. unfold set_nodes at 1. cbn [nodes].
  destruct (decide (p = cur ++ [c])) as [->|Hn]; [rewrite lookup_insert_eq; intros _; destruct rest; congruence|].
  rewrite lookup_insert_ne by done. destruct (decide (o = cur ++ [c])) as [->|Hno]; [rewrite Ho; destruct rest; congruence|].
  rewrite lookup_delete_ne by done. destruct (nodes t !! (cur ++ [c])) as [[m w|x w|f|f]|] eqn:E.
  - apply IH.
  - destruct rest as [|y ys]; [congruence|]. destruct l as [|l]; [done|]. destruct (HasPrefix x "/"); [done|]. apply IHl. lia.
  - destruct rest; congruence.
  - destruct rest; congruence.
  - destruct rest; congruence.
Qed.

(** An entry less never makes a name leave the directory. *)
Lemma walk_deleted t p follow : ∀ links rest cur,
  walk links (set_nodes (delete p) t) follow cur rest = Err FEscape → walk links t follow cur rest = Err FEscape.
Proof.
  apply (walk_ind (λ links rest, ∀ cur, walk links (set_nodes (delete p) t) follow cur rest = Err FEscape → walk links t follow cur rest = Err FEscape)).
  { intros l cur. by rewrite !walk_nil. }
  intros l c rest IH IHl cur. rewrite !walk_cons. destruct (_ || _); [by apply IH|].
  destruct (String.eqb c ".."); [destruct cur; [done|by apply IH]|]. unfold set_nodes at 1. cbn [nodes].
  destruct (decide (p = cur ++ [c])) as [->|Hn]; [rewrite lookup_delete_eq; by destruct rest|]. rewrite lookup_delete_ne by done.
  destruct (nodes t !! (cur ++ [c])) as [[m w|x w|f|f]|]; [apply IH| |by destruct rest..].
  destruct rest, follow, l; try done; destruct (HasPrefix x "/"); try done; apply IHl; lia.
Qed.

(** A name whose last entry is gone leads nowhere. *)
Lemma walk_unlinked t p : ∀ links rest cur,
  walk links t false cur rest = Ok p → walk links (set_nodes (delete p) t) true cur rest ≠ Err FEscape.
Proof.
  apply (walk_ind (λ links rest, ∀ cur, walk links t false cur rest = Ok p → walk links (set_nodes (delete p) t) true cur rest ≠ Err FEscape)).
  { intros l cur. by rewrite !walk_nil. }
  intros l c rest IH IHl cur. rewrite !walk_cons. destruct (_ || _); [by apply IH|].
  destruct (String.eqb c ".."); [destruct cur; [done|by apply IH]|]. unfold set_nodes at 1. cbn [nodes].
  destruct (decide (p = cur ++ [c])) as [->|Hn]; [rewrite lookup_delete_eq; by destruct rest|]. rewrite lookup_delete_ne by done.
  destruct (nodes t !! (cur ++ [c])) as [[m w|x w|f|f]|]; [apply IH| |by destruct rest..].
  destruct rest as [|y ys]; [congruence|]. destruct l as [|l]; [done|]. destruct (HasPrefix x "/"); [done|]. apply IHl. lia.
Qed.
