(* ===== verification/Tarball.v ===== *)
(** * Unpacking a tar under a directory

    [pkg/tarball/tarball.go]: what [cp] out of a sandbox runs on the host over a tar the guest made. The directory is a map from
    the paths under it to its entries, with the regular files by identity, so that a hard link is a second name of one. The calls
    of [os.Root] resolve a name the way the package documents: a link that stays under the directory is followed, and one that
    leaves it is the escape error. Any call may also fail by itself: a list in the state says which. A tar is the list of its
    entries, and an error of its reader is one of them. *)

From S2P Require Import Prelude Ops GoStrings Rootfs.
Local Open Scope Z_scope.
Local Open Scope op_scope.

(** ** Package path *)

(** [path.Clean], a piece at a time; [kept] is what is kept so far, last piece first. *)
Fixpoint clean_pieces (rooted : bool) (kept pieces : list string) : list string :=
  match pieces with
  | [] => reverse kept
  | p :: pieces =>
      if String.eqb p "" || String.eqb p "." then clean_pieces rooted kept pieces
      else if String.eqb p ".." then
        match kept with
        | [] => clean_pieces rooted (if rooted then [] else [".."]) pieces
        | k :: kept' => clean_pieces rooted (if String.eqb k ".." then ".." :: kept else kept') pieces
        end
      else clean_pieces rooted (p :: kept) pieces
  end.

Definition Clean (p : string) : string :=
  let rooted := HasPrefix p "/" in
  match clean_pieces rooted [] (Split "/" p) with
  | [] => if rooted then "/" else "."
  | ps => (if rooted then "/" else "") +:+ Join "/" ps
  end.

(** A clean relative path by its pieces: the directory itself has none. [path.Dir] drops the last one. *)
Definition pieces (p : string) : list string := if String.eqb p "." then [] else Split "/" p.
Definition Dir (name : list string) : list string := removelast name.

Section Unpack.
Context `{LinkLimit}.

(** ** The tar and the options *)

Inductive typeflag : Type := TypeDir | TypeReg | TypeSymlink | TypeLink | TypeChar | TypeBlock | TypeFifo | TypeXGlobalHeader | TypeOther (c : ascii).

Record header : Type := MkHeader { HName : string; Linkname : string; HSize : Z; HMode : Z; Typeflag : typeflag }.

Inductive tar_item : Type := TarEntry (h : header) (body : string) | TarBroken.

Record Options : Type := MkOptions {
  Strip : string; KeepSetid : bool; ConfineLinks : bool; MaxBytes : Z; MaxEntries : Z; Owner_ : owner
}.

Inductive reason : Type :=
| REmpty | RAbsolute | RDotDot | RNotUnder | RAtDst | RDevice | RFifo | RType
| RDirTaken | RBytes | REntries | RLinkLeaves | RHardLink | RHardLinkMoved | RLeaves | RThroughLink.

Inductive unpack_error : Type :=
| Refused (name : string) (r : reason)
| Failed (name : string) (e : fs_error)
| ReadTar
| SetMode (name : list string) (e : fs_error)
| RemoveFailed (name : list string) (e : fs_error)
| CheckLink (name : string) (e : fs_error).

(** [errors.Join]. *)
Abbreviation joined := (list unpack_error).

(** [faults] is how the calls to come go: [None] goes through, [Some n] fails, a copy after its first [n] bytes. *)
Record unpacker : Type := MkUnpacker {
  root : tree; faults : list (option nat); bytes_ : Z; temps : Z;
  files : gmap (list string) node; made_dirs : list (list string * Z); made_links : list (list string * string)
}.

Abbreviation uop := (op unpacker joined).

Definition set_root (f : tree → tree) (u : unpacker) : unpacker :=
  MkUnpacker (f (root u)) (faults u) (bytes_ u) (temps u) (files u) (made_dirs u) (made_links u).
Definition set_faults (f : list (option nat)) (u : unpacker) : unpacker :=
  MkUnpacker (root u) f (bytes_ u) (temps u) (files u) (made_dirs u) (made_links u).
Definition set_bytes (n : Z) (u : unpacker) : unpacker :=
  MkUnpacker (root u) (faults u) n (temps u) (files u) (made_dirs u) (made_links u).
Definition set_temps (n : Z) (u : unpacker) : unpacker :=
  MkUnpacker (root u) (faults u) (bytes_ u) n (files u) (made_dirs u) (made_links u).
Definition set_files (f : gmap (list string) node → gmap (list string) node) (u : unpacker) : unpacker :=
  MkUnpacker (root u) (faults u) (bytes_ u) (temps u) (f (files u)) (made_dirs u) (made_links u).
Definition add_dir (d : list string * Z) (u : unpacker) : unpacker :=
  MkUnpacker (root u) (faults u) (bytes_ u) (temps u) (files u) (made_dirs u ++ [d]) (made_links u).
Definition set_links (f : list (list string * string) → list (list string * string)) (u : unpacker) : unpacker :=
  MkUnpacker (root u) (faults u) (bytes_ u) (temps u) (files u) (made_dirs u) (f (made_links u)).

(** One call on the directory: it may fail by itself, and its answer is a value, since the code tells the errors apart. *)
Definition sys {A} (f : tree → result fs_error (tree * A)) : uop (result fs_error A) := λ u,
  let u' := set_faults (tail (faults u)) u in
  if default None (head (faults u)) then ([], u', Ok (Err FOther))
  else match f (root u) with
       | Err e => ([], u', Ok (Err e))
       | Ok (t, a) => ([set_root (λ _, t) u'], set_root (λ _, t) u', Ok (Ok a))
       end.

Definition look {A} (f : tree → result fs_error A) : uop (result fs_error A) := sys (λ t, a ← f t; Ok (t, a)).

(** [refusal]. *)
Definition refusal (entry : string) (e : fs_error) : joined := [match e with FEscape => Refused entry RLeaves | e => Failed entry e end].

(** [errors.Join(err, cleanup())], where the cleanup answers what failed. *)
Definition joining {A} (e : joined) (cleanup : uop joined) : uop A := λ u,
  match cleanup u with
  | (t, u', Ok e') => (t, u', Err (e ++ e'))
  | (t, u', Err e') => (t, u', Err (e ++ e'))
  end.

(** ** The unpacker *)

Context (pid : Z) (opts : Options).

(** [local]. *)
Definition local (name : string) : result joined (list string) :=
  if String.eqb name "" then Err [Refused name REmpty]
  else if HasPrefix name "/" then Err [Refused name RAbsolute]
  else if bool_decide (".." ∈ Split "/" name) then Err [Refused name RDotDot]
  else
    let clean := Clean name in
    if String.eqb (Strip opts) "" then Ok (pieces clean)
    else if String.eqb clean (Strip opts) then Ok []
    else match CutPrefix clean (Strip opts +:+ "/") with
         | Some rest => Ok (pieces rest)
         | None => Err [Refused name RNotUnder]
         end.

(** [own], [tempName], [removeTemp], [mode]. *)
Definition own (name : list string) (entry : string) : uop unit :=
  match Owner_ opts with
  | None => ret tt
  | Some o => r <~ sys (Lchown o name) ;; match r with Ok _ => ret tt | Err e => fail (refusal entry e) end
  end.

Definition tempName (name : list string) : uop (list string) := λ u,
  let u := set_temps (temps u + 1) u in
  ([u], u, Ok (Dir name ++ [".shard-unpack-" +:+ Itoa pid +:+ "-" +:+ Itoa (temps u)])).

Definition removeTemp (tmp : list string) : uop joined :=
  r <~ sys (RemoveAt tmp) ;; ret (match r with Ok _ | Err FNotExist => [] | Err e => [RemoveFailed tmp e] end).

Definition mode (h : header) : Z := Z.land (HMode h) (if KeepSetid opts then 4095 else 1023).

(** [parent], over the name with its last piece first. *)
Fixpoint parent_go (entry : string) (rev_name : list string) : uop unit :=
  match rev_name with
  | [] | [_] => ret tt
  | _ :: rev_dir =>
      let dir := reverse rev_dir in
      r <~ sys (Mkdir 493 dir) ;;
      r <~ match r with Err FNotExist => parent_go entry rev_dir ;;; sys (Mkdir 493 dir) | _ => ret r end ;;
      match r with
      | Err FExist => ret tt
      | Err e => fail (refusal entry e)
      | Ok _ => own dir entry
      end
  end.

Definition parent (name : list string) (entry : string) : uop unit := parent_go entry (reverse name).

(** [place]. *)
Definition place (tmp name : list string) (entry : string) (file : bool) : uop unit :=
  r <~ sys (Rename tmp name) ;;
  match r with
  | Err e => joining (refusal entry e) (removeTemp tmp)
  | Ok _ =>
      if negb file then touch (set_files (delete name))
      else
        r <~ look (Stat false name) ;;
        match r with
        | Err e => fail (refusal entry e)
        | Ok info => touch (set_files <[name := info]>)
        end
  end.

(** [dir]. *)
Definition dir (name : list string) (h : header) : uop unit :=
  parent name (HName h) ;;;
  r <~ sys (Mkdir 448 name) ;;
  match r with
  | Err FExist =>
      r <~ look (Stat true name) ;;
      match r with
      | Err e => fail (refusal (HName h) e)
      | Ok (NDir _ _) => ret tt
      | Ok _ => fail [Refused (HName h) RDirTaken]
      end
  | Err e => fail (refusal (HName h) e)
  | Ok _ => own name (HName h) ;;; touch (add_dir (name, mode h))
  end.

(** [io.CopyN] into the open file, of the bytes the tar holds of the size: what was copied before a failure stays. *)
Definition copy (i : nat) (data : string) : uop (result fs_error unit) := λ u,
  let put d := set_root (on_inode (λ x, MkInode d (imode x) (iowner x)) i) (set_faults (tail (faults u)) u) in
  match default None (head (faults u)) with
  | Some n => ([put (take_s n data)], put (take_s n data), Ok (Err FOther))
  | None => ([put data], put data, Ok (Ok tt))
  end.

(** [fill], on the open file: the copy, then the mode, then the close; a tar that holds less fails the copy. *)
Definition fill (i : nat) (h : header) (body : string) : uop unit :=
  let size := Z.to_nat (HSize h) in
  let or_failed (r : result fs_error unit) := match r with Err e => fail [Failed (HName h) e] | Ok _ => ret tt end in
  r <~ copy i (take_s size body) ;;
  or_failed r ;;;
  check [Failed (HName h) FOther] (size <=? String.length body)%nat ;;;
  r <~ sys (λ t, Ok (on_inode (λ x, MkInode (ibody x) (mode h) (iowner x)) i t, tt)) ;;
  or_failed r ;;;
  r <~ look (λ _, Ok tt) ;;
  or_failed r.

(** A refusal of [m] removes the temp name as well. *)
Definition or_removed {A} (tmp : list string) (m : uop A) : uop A := λ u,
  match m u with
  | (t, u', Err e) => match removeTemp tmp u' with
                      | (t2, u2, Ok e') => (t ++ t2, u2, Err (e ++ e'))
                      | (t2, u2, Err e') => (t ++ t2, u2, Err (e ++ e'))
                      end
  | answer => answer
  end.

(** [file]. *)
Definition file (name : list string) (h : header) (body : string) : uop unit :=
  past <~ ask (λ u, Ok ((0 <? MaxBytes opts) && (MaxBytes opts - bytes_ u <? HSize h))) ;;
  if past then fail [Refused (HName h) RBytes]
  else
    touch (λ u, set_bytes (bytes_ u + HSize h) u) ;;;
    parent name (HName h) ;;;
    tmp <~ tempName name ;;
    r <~ sys (OpenExcl tmp) ;;
    match r with
    | Err e => fail (refusal (HName h) e)
    | Ok i =>
        or_removed tmp (own tmp (HName h)) ;;;
        or_removed tmp (fill i h body) ;;;
        place tmp name (HName h) true
    end.

(** [leaves]. *)
Definition leaves (name : list string) (target : string) : bool :=
  if HasPrefix target "/" then true
  else match clean_pieces false (reverse (Dir name)) (Split "/" target) with
       | p :: _ => String.eqb p ".."
       | [] => false
       end.

(** [symlink]. *)
Definition symlink (name : list string) (h : header) : uop unit :=
  if ConfineLinks opts && leaves name (Linkname h) then fail [Refused (HName h) RLinkLeaves]
  else
    parent name (HName h) ;;;
    tmp <~ tempName name ;;
    r <~ sys (SymlinkAt (Linkname h) tmp) ;;
    match r with
    | Err e => fail (refusal (HName h) e)
    | Ok _ =>
        or_removed tmp (own tmp (HName h)) ;;;
        (if ConfineLinks opts then touch (set_links (λ l, l ++ [(name, HName h)])) else ret tt) ;;;
        place tmp name (HName h) false
    end.

(** [hardlink]. *)
Definition hardlink (name : list string) (h : header) : uop unit :=
  wrote <~ ask (λ u, Ok (match local (Linkname h) with
                         | Ok target => match files u !! target with Some info => Some (target, info) | None => None end
                         | Err _ => None
                         end)) ;;
  match wrote with
  | None => fail [Refused (HName h) RHardLink]
  | Some (target, info) =>
      parent name (HName h) ;;;
      tmp <~ tempName name ;;
      r <~ sys (LinkAt target tmp) ;;
      match r with
      | Err e => fail (refusal (HName h) e)
      | Ok _ =>
          r <~ look (Stat false tmp) ;;
          match r with
          | Err e => joining (refusal (HName h) e) (removeTemp tmp)
          | Ok linked =>
              if match info, linked with NFile i, NFile j => Nat.eqb i j | _, _ => false end then place tmp name (HName h) true
              else joining [Refused (HName h) RHardLinkMoved] (removeTemp tmp)
          end
      end
  end.

(** [entry]. *)
Definition entry (h : header) (body : string) : uop unit :=
  match Typeflag h with
  | TypeXGlobalHeader => ret tt
  | flag =>
      match local (HName h) with
      | Err e => fail e
      | Ok name =>
          if bool_decide (name = []) && negb (match flag with TypeDir => true | _ => false end) then fail [Refused (HName h) RAtDst]
          else
            match flag with
            | TypeDir => dir name h
            | TypeReg => file name h body
            | TypeSymlink => symlink name h
            | TypeLink => hardlink name h
            | TypeChar | TypeBlock => fail [Refused (HName h) RDevice]
            | TypeFifo => fail [Refused (HName h) RFifo]
            | _ => fail [Refused (HName h) RType]
            end
      end
  end.

(** What [confine] does about one link. *)
Definition confine_one (name : list string) (entry : string) : uop joined :=
  r <~ look (Stat true name) ;;
  match r with
  | Err FEscape => r <~ sys (RemoveAt name) ;; ret (Refused entry RThroughLink :: match r with Ok _ => [] | Err e => [RemoveFailed name e] end)
  | Ok _ | Err FNotExist | Err FNotDir | Err FLoop => ret []
  | Err e => ret [CheckLink entry e]
  end.

(** [confine]: what it refused. *)
Fixpoint confine_go (links : list (list string * string)) : uop joined :=
  match links with
  | [] => ret []
  | (name, entry) :: links => here <~ confine_one name entry ;; rest <~ confine_go links ;; ret (here ++ rest)
  end.

Definition confine : uop joined :=
  links <~ ask (λ u, Ok (made_links u)) ;;
  refused <~ confine_go links ;;
  touch (set_links (λ _, [])) ;;;
  ret refused.

(** [finish]. *)
Fixpoint chmod_dirs (dirs : list (list string * Z)) : uop unit :=
  match dirs with
  | [] => ret tt
  | (name, m) :: dirs =>
      r <~ sys (Chmod m name) ;;
      match r with Err e => fail [SetMode name e] | Ok _ => chmod_dirs dirs end
  end.

Definition finish : uop unit :=
  refused <~ confine ;;
  match refused with
  | [] => dirs <~ ask (λ u, Ok (reverse (made_dirs u))) ;; chmod_dirs dirs
  | _ => fail refused
  end.

(** [run], with the number of the entry it is at. *)
Fixpoint run_go (entries : Z) (items : list tar_item) : uop unit :=
  match items with
  | [] => finish
  | TarBroken :: _ => joining [ReadTar] confine
  | TarEntry h body :: items =>
      if (0 <? MaxEntries opts) && (MaxEntries opts <=? entries) then joining [Refused (HName h) REntries] confine
      else λ u, match entry h body u with
                | (t, u', Err e) => let '(t2, u2, a) := joining e confine u' in (t ++ t2, u2, a)
                | (t, u', Ok _) => let '(t2, u2, a) := run_go (entries + 1) items u' in (t ++ t2, u2, a)
                end
  end.

(** [Unpack]. *)
Definition Unpack (t : tree) (fails : list (option nat)) (items : list tar_item) : list unpacker * unpacker * result joined unit :=
  run_go 0 items (MkUnpacker t fails 0 0 ∅ [] []).

End Unpack.

Abbreviation joined := (list unpack_error).
Abbreviation uop := (op unpacker joined).

Lemma take_s_length n s : (String.length (take_s n s) ≤ n)%nat.
Proof. revert s. induction n as [|n IH]; intros [|c s]; simpl; try lia. specialize (IH s). lia. Qed.

Lemma take_s_short n s : (String.length (take_s n s) ≤ String.length s)%nat.
Proof. revert s. induction n as [|n IH]; intros [|c s]; simpl; [lia..|]. specialize (IH s). lia. Qed.

(** ** What an unpack keeps *)

Definition body_size (t : tree) (i : nat) : Z := match inodes t !! i with Some x => Z.of_nat (String.length (ibody x)) | None => 0 end.
Definition total (f : nat → Z) (l : list nat) : Z := foldr (λ i acc, f i + acc) 0 l.

(** The bytes of the files made since there were [from] of them. *)
Definition written (from : nat) (t : tree) : Z := total (body_size t) (seq from (next_ino t - from)).

Lemma total_le f g d i l : NoDup l → 0 ≤ d → (∀ j, j ≠ i → g j ≤ f j) → g i ≤ f i + d → total g l ≤ total f l + d.
Proof.
  intros Hnd Hd Hj Hi. assert (∀ l, i ∉ l → total g l ≤ total f l) as Hall.
  { clear -Hj. induction l as [|j l IH]; [done|]. rewrite not_elem_of_cons. intros [Hne Hl]. simpl. specialize (Hj j ltac:(congruence)). specialize (IH Hl). lia. }
  induction l as [|j l IH]; [simpl; lia|]. apply NoDup_cons in Hnd as [Hn Hl]. simpl. destruct (decide (j = i)) as [->|Hne].
  - specialize (Hall l Hn). lia.
  - specialize (IH Hl). specialize (Hj j Hne). lia.
Qed.

Lemma total_ext f g l : (∀ j, g j ≤ f j) → total g l ≤ total f l.
Proof. intros H. induction l as [|j l IH]; simpl; [done|]. specialize (H j). lia. Qed.

Lemma total_snoc f l i : total f (l ++ [i]) = total f l + f i.
Proof. induction l as [|j l IH]; simpl; [lia|]. rewrite IH. lia. Qed.

Section Keeps.
Context `{LinkLimit} (pid : Z) (opts : Options) (t0 : tree).

Definition temp_path (p : list string) : Prop := ∃ d k, p = d ++ [".shard-unpack-" +:+ Itoa pid +:+ "-" +:+ Itoa k].

(** No setuid and no setgid, unless they are kept. *)
Definition no_setid (m : Z) : Prop := KeepSetid opts = false → Z.land m 3072 = 0.

Record sound (t : tree) : Prop := MkSound {
  s_next : (next_ino t0 ≤ next_ino t)%nat;
  s_known : ∀ i, is_Some (inodes t !! i) → (i < next_ino t)%nat;
  s_names : ∀ p i, nodes t !! p = Some (NFile i) → nodes t0 !! p = Some (NFile i) ∨ (next_ino t0 ≤ i)%nat ∨ temp_path p;
  s_old : ∀ i x, (i < next_ino t0)%nat → inodes t0 !! i = Some x → ∃ m o, inodes t !! i = Some (MkInode (ibody x) m o);
  s_setid : ∀ i x, (next_ino t0 ≤ i)%nat → inodes t !! i = Some x → no_setid (imode x)
}.

Record good (u : unpacker) : Prop := MkGood {
  g_sound : sound (root u);
  g_dirs : Forall (λ d, no_setid d.2) (made_dirs u);
  g_files : ∀ name i, files u !! name = Some (NFile i) → (next_ino t0 ≤ i)%nat;
  g_bytes : written (next_ino t0) (root u) ≤ bytes_ u;
  g_cap : 0 < MaxBytes opts → bytes_ u ≤ MaxBytes opts
}.

(** Room left of the bytes counted for what is still to be written. *)
Definition slack (k : Z) (u : unpacker) : Prop := written (next_ino t0) (root u) + k ≤ bytes_ u.

(** A change of the tree that an unpack may make at any time. *)
Definition harmless (t t' : tree) : Prop := sound t → sound t' ∧ written (next_ino t0) t' ≤ written (next_ino t0) t.

Lemma harmless_refl t : harmless t t.
Proof. intros H0. done. Qed.

Lemma sound_nodes t m :
  sound t → (∀ p i, m !! p = Some (NFile i) → nodes t0 !! p = Some (NFile i) ∨ (next_ino t0 ≤ i)%nat ∨ temp_path p) →
  sound (MkTree m (inodes t) (next_ino t)).
Proof. intros [H1 H2 H3 H4 H5] Hm. by constructor. Qed.

Lemma harmless_nodes t f :
  (sound t → ∀ p i, f (nodes t) !! p = Some (NFile i) → nodes t0 !! p = Some (NFile i) ∨ (next_ino t0 ≤ i)%nat ∨ temp_path p) →
  harmless t (set_nodes f t).
Proof. intros Hf Hs. split; [|done]. apply sound_nodes; [done|by apply Hf]. Qed.

(** An entry that is no regular file. *)
Lemma harmless_insert t p n : (∀ i, n ≠ NFile i) → harmless t (set_nodes <[p := n]> t).
Proof.
  intros Hn. apply harmless_nodes. intros Hs q i. destruct (decide (p = q)) as [<-|Hq].
  - rewrite lookup_insert_eq. intros [= ->]. by destruct (Hn i).
  - rewrite lookup_insert_ne by done. apply (s_names _ Hs).
Qed.

Lemma harmless_put t p n : (∀ i, n ≠ NFile i) → harmless t (put p n t).
Proof. destruct p; [intros _; apply harmless_refl|apply harmless_insert]. Qed.

Lemma harmless_delete t p : harmless t (set_nodes (delete p) t).
Proof.
  apply harmless_nodes. intros Hs q i Hq. apply lookup_delete_Some in Hq as [_ Hq]. by apply (s_names _ Hs).
Qed.

Lemma harmless_inode t f i :
  (∀ x, ibody (f x) = ibody x) → (∀ x, no_setid (imode x) → no_setid (imode (f x))) → harmless t (on_inode f i t).
Proof.
  intros Hb Hm [H1 H2 H3 H4 H5]. split.
  - constructor; simpl; [done| |done| |].
    + intros j Hj. apply H2. by rewrite lookup_alter_is_Some in Hj.
    + intros j x Hlt Hx. destruct (H4 j x Hlt Hx) as (m & o & Hj). destruct (decide (i = j)) as [<-|Hne].
      * rewrite lookup_alter_eq, Hj. simpl. exists (imode (f (MkInode (ibody x) m o))), (iowner (f (MkInode (ibody x) m o))).
        pose proof (Hb (MkInode (ibody x) m o)) as Hbx. simpl in Hbx. rewrite <- Hbx at 2. by destruct (f _).
      * rewrite lookup_alter_ne by done. by eexists _, _.
    + intros j x Hge. destruct (decide (i = j)) as [<-|Hne].
      * rewrite lookup_alter_eq. destruct (inodes t !! i) as [y|] eqn:E; [|done]. intros [= <-]. apply Hm. by apply (H5 i).
      * rewrite lookup_alter_ne by done. by apply H5.
  - unfold written. simpl. apply total_ext. intros j. unfold body_size. simpl. destruct (decide (i = j)) as [<-|Hne].
    + rewrite lookup_alter_eq. destruct (inodes t !! i); simpl; [by rewrite Hb|done].
    + by rewrite lookup_alter_ne.
Qed.

Lemma resolve_None t name p : resolve t false name = Ok p → node_at t p = None → nodes t !! p = None ∧ p ≠ [].
Proof. by destruct p. Qed.

Lemma Mkdir_harmless m name t t' a : Mkdir m name t = Ok (t', a) → harmless t t'.
Proof.
  unfold Mkdir. destruct (resolve t false name) as [p|]; [|done]. simpl. destruct (node_at t p); [done|]. intros [= <- _].
  by apply harmless_insert.
Qed.

Lemma SymlinkAt_harmless x name t t' a : SymlinkAt x name t = Ok (t', a) → harmless t t'.
Proof.
  unfold SymlinkAt. destruct (resolve t false name) as [p|]; [|done]. simpl. destruct (String.eqb x ""); [done|].
  destruct (node_at t p); [done|]. intros [= <- _]. by apply harmless_insert.
Qed.

Lemma RemoveAt_harmless name t t' a : RemoveAt name t = Ok (t', a) → harmless t t'.
Proof.
  unfold RemoveAt. destruct (resolve t false name) as [[|c p]|]; [done| |done]. cbn [mbind result_bind].
  destruct (node_at t (c :: p)) as [[]|]; try done; try case_match; try done; intros [= <- _]; apply harmless_delete.
Qed.

Lemma mask_setid m : Z.land (Z.land m 1023) 3072 = 0.
Proof. rewrite <- Z.land_assoc. by rewrite Z.land_0_r. Qed.

Lemma Lchown_harmless o name t t' a : Lchown o name t = Ok (t', a) → harmless t t'.
Proof.
  unfold Lchown. destruct (resolve t false name) as [p|]; [|done]. simpl. destruct (node_at t p) as [[]|]; [| | | |done]; intros [= <- _].
  - by apply harmless_put.
  - by apply harmless_put.
  - apply harmless_inode; [done|]. intros x _ _. apply mask_setid.
  - apply harmless_refl.
Qed.

Lemma Chmod_harmless m name t t' a : no_setid m → Chmod m name t = Ok (t', a) → harmless t t'.
Proof.
  intros Hm. unfold Chmod. destruct (resolve t true name) as [p|]; [|done]. simpl. destruct (node_at t p) as [[]|]; try done; intros [= <- _].
  - by apply harmless_put.
  - by apply harmless_inode.
  - apply harmless_refl.
Qed.

Lemma plain_temp k : plain_piece (".shard-unpack-" +:+ Itoa pid +:+ "-" +:+ Itoa k).
Proof. by split_and!. Qed.

Lemma node_at_file t p i : node_at t p = Some (NFile i) → nodes t !! p = Some (NFile i).
Proof. by destruct p. Qed.

(** A second name, under a temp name. *)
Lemma LinkAt_harmless old d k t t' a :
  LinkAt old (d ++ [".shard-unpack-" +:+ Itoa pid +:+ "-" +:+ Itoa k]) t = Ok (t', a) → harmless t t'.
Proof.
  unfold LinkAt. destruct (resolve t false old) as [o|]; [|done]. cbn [mbind result_bind]. destruct (resolve t false _) as [p|] eqn:Ep; [|done].
  cbn [mbind result_bind]. apply walk_last in Ep as [d' ->]; [|apply plain_temp].
  assert (∀ n, harmless t (set_nodes <[d' ++ [".shard-unpack-" +:+ Itoa pid +:+ "-" +:+ Itoa k] := n]> t)) as Hh.
  { intros n. apply harmless_nodes. intros Hs q i. destruct (decide (d' ++ [".shard-unpack-" +:+ Itoa pid +:+ "-" +:+ Itoa k] = q)) as [<-|Hq].
    - intros _. right. right. by exists d', k.
    - rewrite lookup_insert_ne by done. apply (s_names _ Hs). }
  destruct (node_at t o) as [[]|]; try done; destruct (node_at t _); try done; intros [= <- _]; apply Hh.
Qed.

(** A finished temp, which is no file of before, over the name. *)
Lemma Rename_harmless old name t t' a :
  (∀ i, Stat false old t = Ok (NFile i) → (next_ino t0 ≤ i)%nat) → Rename old name t = Ok (t', a) → harmless t t'.
Proof.
  unfold Stat, Rename. destruct (resolve t false old) as [o|] eqn:Eo; [|done]. cbn [mbind result_bind].
  destruct (resolve t false name) as [p|]; [|done]. cbn [mbind result_bind]. intros Hnew.
  assert (∀ n, node_at t o = Some n → harmless t (set_nodes (λ m, <[p := n]> (delete o m)) t)) as Hh.
  { intros n Hn. apply harmless_nodes. intros Hs q i. destruct (decide (p = q)) as [<-|Hq].
    - rewrite lookup_insert_eq. intros [= ->]. right. left. apply Hnew. by rewrite Hn.
    - rewrite lookup_insert_ne by done. rewrite lookup_delete_Some. intros [_ Hq']. by apply (s_names _ Hs). }
  destruct (node_at t o) as [n|] eqn:En; [|done].
  destruct n as [m w|x w|i|k], (node_at t p) as [[m' w'|x' w'|j|k']|]; try done; try (intros [= <- _]; by apply Hh).
  destruct (Nat.eqb i j); intros [= <- _]; [apply harmless_refl|by apply Hh].
Qed.

(** A new file, which is what its name then leads to. *)
Lemma OpenExcl_sound name t t' i :
  OpenExcl name t = Ok (t', i) → sound t →
  sound t' ∧ written (next_ino t0) t' ≤ written (next_ino t0) t ∧ (next_ino t0 ≤ i)%nat ∧ inodes t' !! i = Some (MkInode "" 384 None) ∧
  Stat false name t' = Ok (NFile i).
Proof.
  unfold OpenExcl. destruct (resolve t false name) as [p|] eqn:Ep; [|done]. cbn [mbind result_bind]. destruct (node_at t p) eqn:Ea; [done|].
  destruct (resolve_None t name p Ep Ea) as [Hp Hne].
  intros [= <- <-] Hs. pose proof Hs as [H1 H2 H3 H4 H5]. assert (inodes t !! next_ino t = None) as Hfresh.
  { apply eq_None_not_Some. intros Hx. apply H2 in Hx. lia. }
  split_and!; simpl.
  - constructor; simpl.
    + lia.
    + intros j [x [[<- _]|[_ Hj]]%lookup_insert_Some]; [lia|]. specialize (H2 j ltac:(by eexists)). lia.
    + intros q j [[<- [= <-]]|[_ Hq]]%lookup_insert_Some; [by right; left|by apply H3].
    + intros j x Hlt Hx. rewrite lookup_insert_ne by lia. by apply H4.
    + intros j x Hge [[<- <-]|[_ Hj]]%lookup_insert_Some; [by intros _|by apply (H5 j)].
  - unfold written. simpl. replace (S (next_ino t) - next_ino t0)%nat with (S (next_ino t - next_ino t0)) by lia. rewrite seq_S.
    replace (next_ino t0 + (next_ino t - next_ino t0))%nat with (next_ino t) by lia.
    rewrite total_snoc. unfold body_size at 2. simpl. rewrite lookup_insert_eq. simpl. rewrite Z.add_0_r. apply total_ext.
    intros j. unfold body_size. simpl. destruct (decide (next_ino t = j)) as [<-|]; [by rewrite lookup_insert_eq, Hfresh|by rewrite lookup_insert_ne].
  - done.
  - apply lookup_insert_eq.
  - unfold Stat, resolve in *. erewrite (walk_shape (MkTree (<[p := NFile (next_ino t)]> (nodes t)) _ _) (set_nodes <[p := NFile (next_ino t)]> t)) by done.
    rewrite (walk_made t p) by done.
    cbn [mbind result_bind]. destruct p; [done|]. simpl. by rewrite lookup_insert_eq.
Qed.

(** ** Operations *)

Lemma good_root u t : good u → sound t → written (next_ino t0) t ≤ written (next_ino t0) (root u) → good (set_root (λ _, t) u).
Proof. intros [H1 H2 H3 H4 H5] Hs Hw. constructor; simpl; try done. lia. Qed.

Lemma good_faults f u : good u → good (set_faults f u).
Proof. by intros [H1 H2 H3 H4 H5]. Qed.

(** An operation that keeps all of it, and the room that is left. *)
Definition calm {A} (m : uop A) : Prop := ∀ k, triple good (slack k) m (λ _ u, slack k u).

Lemma calm_ret {A} (a : A) : calm (ret a).
Proof. intros k. by apply triple_ret. Qed.

Lemma calm_fail {A} e : calm (fail (A := A) e).
Proof. intros k. by apply triple_fail. Qed.

Lemma calm_ask {A} f : calm (ask (A := A) f).
Proof. intros k. by apply triple_ask. Qed.

Lemma calm_check e b : calm (check e b).
Proof. destruct b; [apply calm_ret|apply calm_fail]. Qed.

Lemma calm_bind {A B} (m : uop A) (f : A → uop B) : calm m → (∀ a, calm (f a)) → calm (bind m f).
Proof.
  intros Hm Hf k. eapply triple_bind with (M := λ _, slack k); [|intros a; apply Hf].
  eapply triple_weaken; [apply (Hm k)|done|]. by intros [a|e] u _ Hu.
Qed.

(** One call, with what the caller learns from it. *)
Lemma triple_call {A} (P : unpacker → Prop) (f : tree → result fs_error (tree * A)) (Q : result joined (result fs_error A) → unpacker → Prop) :
  (∀ u, good u → P u → ∀ fs,
     (∀ e, Q (Ok (Err e)) (set_faults fs u)) ∧
     (∀ t a, f (root u) = Ok (t, a) → good (set_root (λ _, t) (set_faults fs u)) ∧ Q (Ok (Ok a)) (set_root (λ _, t) (set_faults fs u)))) →
  triple good P (sys f) Q.
Proof.
  intros Hf u Hg Hp. unfold sys. destruct (Hf u Hg Hp (tail (faults u))) as [He Ho].
  destruct (default None (head (faults u))); [split; [by apply Forall_nil_2|split; [by apply good_faults|apply He]]|].
  destruct (f (root u)) as [[t a]|e]; [|split; [by apply Forall_nil_2|split; [by apply good_faults|apply He]]].
  destruct (Ho t a eq_refl) as (Hg' & Hq). split; [by apply Forall_singleton|]. by split.
Qed.

Lemma triple_sys {A} (P : unpacker → Prop) (f : tree → result fs_error (tree * A)) (Q : result joined (result fs_error A) → unpacker → Prop) :
  (∀ u, good u → P u → ∀ fs,
     (∀ e, Q (Ok (Err e)) (set_faults fs u)) ∧
     (∀ t a, f (root u) = Ok (t, a) → sound t ∧ written (next_ino t0) t ≤ written (next_ino t0) (root u) ∧
        Q (Ok (Ok a)) (set_root (λ _, t) (set_faults fs u)))) →
  triple good P (sys f) Q.
Proof.
  intros Hf. apply triple_call. intros u Hg Hp fs. destruct (Hf u Hg Hp fs) as [He Ho]. split; [done|]. intros t a Ha.
  destruct (Ho t a Ha) as (Hs & Hw & Hq). split; [|done]. apply good_root; [by apply good_faults|done|done].
Qed.

Lemma calm_sys {A} (f : tree → result fs_error (tree * A)) : (∀ t t' a, f t = Ok (t', a) → harmless t t') → calm (sys f).
Proof.
  intros Hf k. apply triple_sys. intros u Hg Hk fs. split; [done|]. intros t a Ha.
  destruct (Hf _ _ _ Ha (g_sound _ Hg)) as [Hs Hw]. split_and!; [done|done|]. unfold slack in *. simpl. lia.
Qed.

Lemma calm_look {A} (f : tree → result fs_error A) : calm (look f).
Proof. apply calm_sys. intros t t' a. destruct (f t); [|done]. intros [= <- _]. apply harmless_refl. Qed.

Lemma calm_touch f : (∀ u, good u → good (f u)) → (∀ u, root (f u) = root u) → (∀ u, bytes_ (f u) = bytes_ u) → calm (touch f).
Proof. intros Hg Hr Hb k. apply triple_touch. intros u Hu Hs. split; [by apply Hg|]. unfold slack in *. by rewrite Hr, Hb. Qed.

Lemma calm_joining {A} e m : calm m → calm (joining (A := A) e m).
Proof.
  intros Hm k u Hg Hk. specialize (Hm k u Hg Hk). unfold joining. destruct (m u) as [[t u'] [e'|e']]; done.
Qed.

Ltac calm_steps :=
  repeat first
    [ apply calm_ret | apply calm_fail | apply calm_ask | apply calm_check | apply calm_look
    | apply calm_sys; intros ???; first [apply Mkdir_harmless | apply Lchown_harmless | apply RemoveAt_harmless | apply SymlinkAt_harmless]
    | apply calm_joining | apply calm_bind; [|intros ?] | case_match ].

Lemma removeTemp_calm tmp : calm (removeTemp tmp).
Proof. unfold removeTemp. calm_steps. Qed.

Lemma own_calm name entry : calm (own opts name entry).
Proof. unfold own. calm_steps. Qed.

Lemma parent_calm name entry : calm (parent opts name entry).
Proof.
  unfold parent. induction (reverse name) as [|c l IH]; [apply calm_ret|]. destruct l as [|d l]; [apply calm_ret|].
  cbn [parent_go]. apply calm_bind; [calm_steps|]. intros r. apply calm_bind.
  - destruct r as [u|e]; [apply calm_ret|]. destruct e; try apply calm_ret. apply calm_bind; [exact IH|]. intros _. calm_steps.
  - intros [u|e]; [apply own_calm|]. destruct e; calm_steps.
Qed.

Lemma or_removed_triple {A} tmp (m : uop A) P (Q : A → unpacker → Prop) k :
  triple good P m (λ a u, match a with Ok a => Q a u | Err _ => slack k u end) →
  triple good P (or_removed tmp m) (λ a u, match a with Ok a => Q a u | Err _ => slack k u end).
Proof.
  intros Hm u Hg Hp. specialize (Hm u Hg Hp). unfold or_removed. destruct (m u) as [[t u'] [a|e]]; [done|].
  destruct Hm as (Ht & Hg' & Hk). pose proof (removeTemp_calm tmp k u' Hg' Hk) as Hr.
  destruct (removeTemp tmp u') as [[t2 u2] [e'|e']]; destruct Hr as (Ht2 & ? & ?); (split; [by apply Forall_app|done]).
Qed.

Lemma tempName_triple name k :
  triple good (slack k) (tempName pid name)
    (λ a u, ∃ n, a = Ok (Dir name ++ [".shard-unpack-" +:+ Itoa pid +:+ "-" +:+ Itoa n]) ∧ slack k u).
Proof.
  intros u Hg Hk. unfold tempName. assert (good (set_temps (temps u + 1) u)) by (by destruct Hg).
  split; [by apply Forall_singleton|]. split; [done|]. by exists (temps u + 1).
Qed.

(** A name that leads to a file of this unpack's own. *)
Definition made_at (tmp : list string) (i : nat) (u : unpacker) : Prop := Stat false tmp (root u) = Ok (NFile i) ∧ (next_ino t0 ≤ i)%nat.
Definition empty_at (i : nat) (u : unpacker) : Prop := ∀ x, inodes (root u) !! i = Some x → ibody x = "".

Lemma Stat_shape f name t t' i : shape <$> nodes t = shape <$> nodes t' → Stat f name t = Ok (NFile i) → Stat f name t' = Ok (NFile i).
Proof.
  intros E. unfold Stat, resolve. rewrite (walk_shape _ _ E). destruct (walk _ t' _ _ _) as [p|]; [|done]. simpl. destruct p as [|c p]; [done|].
  simpl. assert (shape <$> nodes t !! (c :: p) = shape <$> nodes t' !! (c :: p)) as En by (by rewrite <- !lookup_fmap, E).
  destruct (nodes t !! _) as [n|]; [|done]. intros [= ->]. destruct (nodes t' !! _) as [[]|]; by simplify_eq/=.
Qed.

Lemma Lchown_shape o name t t' a : Lchown o name t = Ok (t', a) →
  shape <$> nodes t = shape <$> nodes t' ∧ ∀ i x', inodes t' !! i = Some x' → ∃ x, inodes t !! i = Some x ∧ ibody x' = ibody x.
Proof.
  unfold Lchown. destruct (resolve t false name) as [p|]; [|done]. simpl. destruct (node_at t p) as [[m w|y w|j|s]|] eqn:E; [| | | |done]; intros [= <- _].
  - split; [by destruct p; [|symmetry; eapply shape_insert]|]. intros i x' Hx. exists x'. by destruct p.
  - destruct p as [|c p]; [done|]. split; [symmetry; by eapply shape_insert|]. intros i x' Hx. by exists x'.
  - split; [done|]. intros i x' Hx. simpl in Hx. destruct (decide (j = i)) as [<-|Hn].
    + rewrite lookup_alter_eq in Hx. destruct (inodes t !! j) as [x|]; [|done]. injection Hx as <-. by exists x.
    + rewrite lookup_alter_ne in Hx by done. by exists x'.
  - split; [done|]. intros i x' Hx. by exists x'.
Qed.

(** Nothing of it moves the temp file or fills it. *)
Lemma own_temp tmp entry k i :
  triple good (λ u, slack k u ∧ made_at tmp i u ∧ empty_at i u) (own opts tmp entry) (λ _ u, slack k u ∧ made_at tmp i u ∧ empty_at i u).
Proof.
  unfold own. destruct (Owner_ opts) as [o|]; [|by apply triple_ret].
  eapply triple_bind with (M := λ _ u, slack k u ∧ made_at tmp i u ∧ empty_at i u).
  - apply triple_sys. intros u Hg (Hk & [Hm Hi] & He) fs. split; [done|]. intros t a Ha.
    destruct (Lchown_harmless _ _ _ _ _ Ha (g_sound _ Hg)) as [Hs Hw]. apply Lchown_shape in Ha as [Hsh Hb]. split; [done|]. split; [done|].
    unfold slack, made_at, empty_at in *. simpl. split_and!; [lia|by eapply Stat_shape|done|].
    intros x' Hx'. destruct (Hb i x' Hx') as (x & Hx & ->). by apply He.
  - intros [u|e]; [by apply triple_ret|]. by apply triple_fail.
Qed.

Lemma own_links tmp entry :
  triple good (λ u, slack 0 u ∧ ∀ i, Stat false tmp (root u) ≠ Ok (NFile i)) (own opts tmp entry)
    (λ a u, match a with Ok _ => slack 0 u ∧ ∀ i, Stat false tmp (root u) ≠ Ok (NFile i) | Err _ => slack 0 u end).
Proof.
  unfold own. destruct (Owner_ opts) as [o|]; [|by apply triple_ret].
  eapply triple_bind with (M := λ _ u, slack 0 u ∧ ∀ i, Stat false tmp (root u) ≠ Ok (NFile i)).
  - apply triple_sys. intros u Hg (Hk & Hn) fs. split; [done|]. intros t a Ha.
    destruct (Lchown_harmless _ _ _ _ _ Ha (g_sound _ Hg)) as [Hs Hw]. apply Lchown_shape in Ha as [Hsh _]. split; [done|]. split; [done|].
    unfold slack in *. simpl. split; [lia|]. intros i Hi. apply (Hn i). by eapply Stat_shape.
  - intros [u|e]; [by apply triple_ret|]. apply triple_fail. by intros u _ [? _].
Qed.

(** What the name of a finished file leads to, once it is over it. *)
Lemma Rename_names tmp name t t' a i :
  Stat false tmp t = Ok (NFile i) → (next_ino t0 ≤ i)%nat → Rename tmp name t = Ok (t', a) →
  ∀ j, Stat false name t' = Ok (NFile j) → (next_ino t0 ≤ j)%nat.
Proof.
  unfold Stat at 1, Rename. destruct (resolve t false tmp) as [o|] eqn:Eo; [|done]. cbn [mbind result_bind].
  destruct (node_at t o) as [n|] eqn:En; [|done]. intros [= ->] Hi. destruct (resolve t false name) as [p|] eqn:Ep; [|done]. cbn [mbind result_bind].
  assert (∀ j, Stat false name (set_nodes (λ m, <[p := NFile i]> (delete o m)) t) = Ok (NFile j) → (next_ino t0 ≤ j)%nat) as Hmoved.
  { intros j. unfold Stat. destruct (resolve (set_nodes _ t) false name) as [q|] eqn:Eq; [|done]. simpl.
    eapply (walk_renamed t p o i i) in Eq as ->; [|by apply node_at_file|exact Ep]. destruct p; [done|]. simpl. rewrite lookup_insert_eq. by intros [= <-]. }
  destruct (node_at t p) as [[m w|x w|j'|s]|] eqn:Ea; [done| | | |]; [intros [= <- _]; exact Hmoved| |intros [= <- _]; exact Hmoved..].
  destruct (Nat.eqb_spec i j') as [->|]; intros [= <- _]; [|exact Hmoved]. intros j. unfold Stat. rewrite Ep. simpl. rewrite Ea. by intros [= <-].
Qed.

(** [place] of a file this unpack made. *)
Lemma place_file tmp name entry k i :
  triple good (λ u, slack k u ∧ made_at tmp i u) (place tmp name entry true) (λ _ u, slack k u).
Proof.
  unfold place. eapply triple_bind with
    (M := λ r u, slack k u ∧ (r = Ok tt → ∀ j, Stat false name (root u) = Ok (NFile j) → (next_ino t0 ≤ j)%nat)).
  - apply triple_sys. intros u Hg (Hk & Hm & Hi) fs. split; [done|]. intros t [] Ha.
    assert (∀ j, Stat false tmp (root u) = Ok (NFile j) → (next_ino t0 ≤ j)%nat) as Hnew by (intros j; rewrite Hm; by intros [= <-]).
    destruct (Rename_harmless _ _ _ _ _ Hnew Ha (g_sound _ Hg)) as [Hs Hw]. split; [done|]. split; [done|]. split; [unfold slack in *; simpl; lia|].
    intros _ j. simpl. by eapply Rename_names.
  - intros [[]|e]; [|intros u Hg [Hk _]; by apply (calm_joining _ _ (removeTemp_calm tmp) k)]. simpl.
    eapply triple_bind with (M := λ r u, slack k u ∧ ∀ j, r = Ok (NFile j) → (next_ino t0 ≤ j)%nat).
    + apply triple_sys. intros u Hg [Hk Hn] fs. specialize (Hn eq_refl). split; [by intros e; split; [|intros j [=]]|]. intros t n Ha.
      destruct (Stat false name (root u)) as [n'|] eqn:E; [|done]. simpl in Ha. injection Ha as <- <-.
      split; [by apply g_sound|]. split; [done|]. split; [done|]. intros j [= ->]. by apply Hn.
    + intros [n|e]; [|apply triple_fail; by intros u Hg [Hk _]]. apply triple_touch. intros u Hg [Hk Hn]. split; [|done].
      destruct Hg as [H1 H2 H3 H4 H5]. constructor; simpl; try done. intros q j [[<- ->]|[_ Hq]]%lookup_insert_Some; [by apply Hn|by apply (H3 q)].
Qed.

(** [place] of a link. *)
Lemma place_link tmp name entry k :
  triple good (λ u, slack k u ∧ ∀ i, Stat false tmp (root u) ≠ Ok (NFile i)) (place tmp name entry false) (λ _ u, slack k u).
Proof.
  unfold place. eapply triple_bind with (M := λ _ u, slack k u).
  - apply triple_sys. intros u Hg [Hk Hn] fs. split; [done|]. intros t [] Ha.
    destruct (Rename_harmless _ _ _ _ _ (λ i Hi, match Hn i Hi with end) Ha (g_sound _ Hg)) as [Hs Hw].
    split; [done|]. split; [done|]. unfold slack in *. simpl. lia.
  - intros [[]|e]; [|by apply calm_joining, removeTemp_calm]. simpl. apply calm_touch; [|done|done].
    intros u [H1 H2 H3 H4 H5]. constructor; simpl; try done. intros q j [_ Hq]%lookup_delete_Some. by apply (H3 q).
Qed.

Lemma mode_no_setid h : no_setid (mode opts h).
Proof. unfold no_setid, mode. intros ->. apply mask_setid. Qed.

Lemma dir_calm name h : calm (dir opts name h).
Proof.
  unfold dir. apply calm_bind; [apply parent_calm|]. intros _. apply calm_bind; [calm_steps|]. intros [[]|e]; [|destruct e; calm_steps].
  apply calm_bind; [apply own_calm|]. intros _. apply calm_touch; [|done|done]. intros u [H1 H2 H3 H4 H5]. constructor; simpl; try done.
  apply Forall_app. split; [done|]. apply Forall_singleton. apply mode_no_setid.
Qed.

(** The write of the bytes uses up the room that was left for them. *)
Lemma fill_written t i d n :
  sound t → (next_ino t0 ≤ i)%nat → (∀ x, inodes t !! i = Some x → ibody x = "") → (String.length d ≤ n)%nat →
  let t' := on_inode (λ x, MkInode d (imode x) (iowner x)) i t in
  sound t' ∧ written (next_ino t0) t' ≤ written (next_ino t0) t + Z.of_nat n.
Proof.
  intros [H1 H2 H3 H4 H5] Hi He Hd t'. split.
  - constructor; simpl; [done| |done| |].
    + intros j Hj. apply H2. by rewrite lookup_alter_is_Some in Hj.
    + intros j x Hlt Hx. rewrite lookup_alter_ne by lia. by apply H4.
    + intros j x Hge. destruct (decide (i = j)) as [<-|Hne].
      * rewrite lookup_alter_eq. destruct (inodes t !! i) as [y|] eqn:E; [|done]. intros [= <-]. simpl. by apply (H5 i y).
      * rewrite lookup_alter_ne by done. by apply H5.
  - unfold written. simpl. apply total_le with (i := i); [apply NoDup_seq|lia| |].
    + intros j Hj. unfold body_size. simpl. by rewrite lookup_alter_ne.
    + unfold body_size. simpl. rewrite lookup_alter_eq. destruct (inodes t !! i) as [x|] eqn:E; simpl; [|lia].
      rewrite (He x eq_refl). simpl. lia.
Qed.

Lemma copy_triple i data n tmp k :
  (String.length data ≤ n)%nat → 0 ≤ k →
  triple good (λ u, slack (k + Z.of_nat n) u ∧ made_at tmp i u ∧ empty_at i u) (copy i data) (λ _ u, slack k u ∧ made_at tmp i u).
Proof.
  intros Hn Hk0 u Hg (Hk & [Hm Hi] & He).
  assert (Hput : ∀ d, (String.length d ≤ n)%nat →
    let u' := set_root (on_inode (λ x, MkInode d (imode x) (iowner x)) i) (set_faults (tail (faults u)) u) in
    good u' ∧ slack k u' ∧ made_at tmp i u').
  { intros d Hd. destruct (fill_written (root u) i d n (g_sound _ Hg) Hi He Hd) as [Hs Hw].
    unfold slack in *. cbn [root bytes_ set_root set_faults]. split; [|split; [lia|]].
    - destruct Hg as [H1 H2 H3 H4 H5]. constructor; cbn [root bytes_ set_root set_faults made_dirs files]; try done. lia.
    - split; [|done]. eapply Stat_shape; [|exact Hm]. done. }
  unfold copy. cbn zeta. destruct (default None _) as [j|].
  - destruct (Hput (take_s j data)) as (H1 & H2); [pose proof (take_s_short j data); lia|]. split; [by apply Forall_singleton|done].
  - destruct (Hput data Hn) as (H1 & H2). split; [by apply Forall_singleton|done].
Qed.

Lemma fill_body_triple i h body tmp k :
  0 ≤ HSize h → 0 ≤ k →
  triple good (λ u, slack (k + HSize h) u ∧ made_at tmp i u ∧ empty_at i u) (fill opts i h body)
    (λ a u, match a with Ok _ => slack k u ∧ made_at tmp i u | Err _ => slack k u end).
Proof.
  intros Hsz Hk0. unfold fill. cbn zeta.
  assert (Hor : ∀ r : result fs_error unit, triple good (λ u, slack k u ∧ made_at tmp i u)
    match r with Err e => fail [Failed (HName h) e] | Ok _ => ret tt end
    (λ a u, match a with Ok _ => slack k u ∧ made_at tmp i u | Err _ => slack k u end)).
  { intros [[]|e]; [by apply triple_ret|apply triple_fail; by intros u _ [? _]]. }
  eapply triple_bind with (M := λ _ u, slack k u ∧ made_at tmp i u).
  { eapply triple_weaken; [apply (copy_triple i _ (Z.to_nat (HSize h)) tmp k); [apply take_s_length|done]| |by intros []; naive_solver].
    intros u _. by rewrite Z2Nat.id by done. }
  intros r. eapply triple_bind with (M := λ _ u, slack k u ∧ made_at tmp i u); [eapply triple_weaken; [apply Hor|done|by intros []]|intros _].
  eapply triple_bind with (M := λ _ u, slack k u ∧ made_at tmp i u); [apply triple_check; intros u _ [? ?]; by case_match|]. intros _.
  eapply triple_bind with (M := λ _ u, slack k u ∧ made_at tmp i u).
  { apply triple_sys. intros u Hg (Hk & Hm & Hi) fs. split; [done|]. intros t [] [= <-].
    assert (harmless (root u) (on_inode (λ x, MkInode (ibody x) (mode opts h) (iowner x)) i (root u))) as Hh.
    { apply harmless_inode; [done|]. intros x _. apply mode_no_setid. }
    destruct (Hh (g_sound _ Hg)) as [Hs Hw]. split; [done|]. split; [done|]. unfold slack in *. simpl. split; [lia|].
    split; [|done]. eapply Stat_shape; [|exact Hm]. done. }
  intros r'. eapply triple_bind with (M := λ _ u, slack k u ∧ made_at tmp i u); [eapply triple_weaken; [apply Hor|done|by intros []]|intros _].
  eapply triple_bind with (M := λ _ u, slack k u ∧ made_at tmp i u); [|intros c; apply Hor].
  unfold look. apply triple_sys. intros u Hg (Hk & Hm) fs. split; [done|]. intros t [] [= <-].
  split; [by apply g_sound|]. split; [done|]. done.
Qed.

(** An entry keeps all of it. *)
Definition steady_ {A} (m : uop A) : Prop := triple good (λ _, True) m (λ _ _, True).

Lemma steady_calm {A} (m : uop A) : calm m → steady_ m.
Proof.
  intros Hm. eapply triple_weaken; [apply (Hm 0)| |done]. intros u Hg _. unfold slack. pose proof (g_bytes _ Hg). lia.
Qed.

Lemma file_steady name h body : 0 ≤ HSize h → steady_ (file pid opts name h body).
Proof.
  intros Hsz. unfold file, steady_.
  eapply triple_bind with (M := λ past u, past = (0 <? MaxBytes opts) && (MaxBytes opts - bytes_ u <? HSize h)); [by apply triple_ask|].
  intros [|]; [by apply triple_fail|].
  eapply triple_bind with (M := λ _, slack (0 + HSize h)).
  { apply triple_touch. intros u Hg Hp. pose proof (g_bytes _ Hg). split; [|unfold slack; simpl; lia].
    destruct Hg as [H1 H2 H3 H4 H5]. constructor; simpl; try done; [lia|]. intros Hmax. symmetry in Hp. apply andb_false_iff in Hp as [?%Z.ltb_ge|?%Z.ltb_ge]; lia. }
  intros _. eapply triple_bind with (M := λ _, slack (0 + HSize h)).
  { eapply triple_weaken; [apply parent_calm|done|]. by intros []. }
  intros _. eapply triple_bind with (M := λ _, slack (0 + HSize h)).
  { eapply triple_weaken; [apply tempName_triple|done|]. by intros a u _ (n & -> & Hk). }
  intros tmp. eapply triple_bind with
    (M := λ r u, match r with Ok i => slack (0 + HSize h) u ∧ made_at tmp i u ∧ empty_at i u | Err _ => True end).
  { apply triple_sys. intros u Hg Hk fs. split; [done|]. intros t i Ha.
    destruct (OpenExcl_sound tmp (root u) t i Ha (g_sound _ Hg)) as (Hs & Hw & Hi & Hx & Hst).
    split; [done|]. split; [done|]. unfold slack, made_at, empty_at in *. simpl. split; [lia|]. split; [done|]. intros x. rewrite Hx. by intros [= <-]. }
  intros [i|e]; [|by apply triple_fail].
  eapply triple_bind with (M := λ _ u, slack (0 + HSize h) u ∧ made_at tmp i u ∧ empty_at i u).
  { eapply triple_weaken; [apply (or_removed_triple tmp _ _ (λ _ u, slack (0 + HSize h) u ∧ made_at tmp i u ∧ empty_at i u) (0 + HSize h))| |].
    - eapply triple_weaken; [apply own_temp|intros u _ Hu; exact Hu|]. by intros [a|e] u _ (? & ? & ?).
    - done.
    - by intros []. }
  intros _. eapply triple_bind with (M := λ _ u, slack 0 u ∧ made_at tmp i u).
  { eapply triple_weaken; [apply (or_removed_triple tmp _ _ (λ _ u, slack 0 u ∧ made_at tmp i u) 0); by apply fill_body_triple|intros u _ Hu; exact Hu|]. by intros []. }
  intros _. eapply triple_weaken; [apply (place_file tmp name _ 0 i)|done|done].
Qed.

Lemma Stat_made_link tmp x t t' a i : SymlinkAt x tmp t = Ok (t', a) → Stat false tmp t' ≠ Ok (NFile i).
Proof.
  unfold SymlinkAt. destruct (resolve t false tmp) as [p|] eqn:Ep; [|done]. cbn [mbind result_bind]. destruct (String.eqb x ""); [done|].
  destruct (node_at t p) eqn:Ea; [done|]. destruct (resolve_None t tmp p Ep Ea) as [Hp Hne]. intros [= <- _]. unfold Stat, resolve in *.
  rewrite (walk_made t p) by done. cbn [mbind result_bind]. destruct p; [done|]. simpl. by rewrite lookup_insert_eq.
Qed.

Lemma symlink_steady name h : steady_ (symlink pid opts name h).
Proof.
  unfold symlink, steady_. destruct (_ && _); [by apply triple_fail|].
  eapply triple_bind with (M := λ _ _, True); [eapply triple_weaken; [apply steady_calm, parent_calm|done|by intros []]|]. intros _.
  eapply triple_bind with (M := λ _, slack 0).
  { eapply triple_weaken; [apply (tempName_triple name 0)| |by intros a u _ (n & -> & Hk)]. intros u Hg _. unfold slack. pose proof (g_bytes _ Hg). lia. }
  intros tmp. eapply triple_bind with
    (M := λ r u, slack 0 u ∧ (r = Ok tt → ∀ i, Stat false tmp (root u) ≠ Ok (NFile i))).
  { apply triple_sys. intros u Hg Hk fs. split; [by intros e; split|]. intros t [] Ha.
    destruct (SymlinkAt_harmless _ _ _ _ _ Ha (g_sound _ Hg)) as [Hs Hw]. split; [done|]. split; [done|].
    split; [unfold slack in *; simpl; lia|]. intros _ i. by eapply Stat_made_link. }
  intros [[]|e]; [|by apply triple_fail].
  eapply triple_bind with (M := λ _ u, slack 0 u ∧ ∀ i, Stat false tmp (root u) ≠ Ok (NFile i)).
  { eapply triple_weaken; [apply (or_removed_triple tmp _ _ (λ _ u, slack 0 u ∧ ∀ i, Stat false tmp (root u) ≠ Ok (NFile i)) 0)| |by intros []].
    - apply (own_links tmp (HName h)).
    - intros u _ [? Hn]. split; [done|]. by apply Hn. }
  intros _. eapply triple_bind with (M := λ _ u, slack 0 u ∧ ∀ i, Stat false tmp (root u) ≠ Ok (NFile i)).
  { destruct (ConfineLinks opts); [|by apply triple_ret]. apply triple_touch. intros u Hg [Hk Hn]. split; [by destruct Hg|done]. }
  intros _. eapply triple_weaken; [apply (place_link tmp name _ 0)|done|done].
Qed.

Lemma hardlink_steady name h : steady_ (hardlink pid opts name h).
Proof.
  unfold hardlink, steady_. eapply triple_bind with
    (M := λ w _, match w with Some (_, NFile i) => (next_ino t0 ≤ i)%nat | _ => True end).
  { apply triple_ask. intros u Hg _. destruct (local opts (Linkname h)) as [target|]; [|done].
    destruct (files u !! target) as [[]|] eqn:E; try done. by apply (g_files _ Hg target). }
  intros [[target info]|]; [|by apply triple_fail]. intros u0 Hg0 Hinfo. revert u0 Hg0 Hinfo. cut (
    (match info with NFile i => (next_ino t0 ≤ i)%nat | _ => True end) →
    triple good (λ _, True) (parent opts name (HName h) ;;;
      tmp <~ tempName pid name ;;
      r <~ sys (LinkAt target tmp) ;;
      match r with
      | Err e => fail (refusal (HName h) e)
      | Ok _ =>
          r <~ look (Stat false tmp) ;;
          match r with
          | Err e => joining (refusal (HName h) e) (removeTemp tmp)
          | Ok linked =>
              if match info, linked with NFile i, NFile j => Nat.eqb i j | _, _ => false end then place tmp name (HName h) true
              else joining [Refused (HName h) RHardLinkMoved] (removeTemp tmp)
          end
      end) (λ _ _, True)).
  { intros Hcut u0 Hg0 Hinfo. by apply (Hcut Hinfo u0 Hg0). }
  intros Hinfo. eapply triple_bind with (M := λ _ _, True); [eapply triple_weaken; [apply steady_calm, parent_calm|done|by intros []]|]. intros _.
  eapply triple_bind with (M := λ tmp u, slack 0 u ∧ ∃ n, tmp = Dir name ++ [".shard-unpack-" +:+ Itoa pid +:+ "-" +:+ Itoa n]).
  { eapply triple_weaken; [apply (tempName_triple name 0)| |].
    - intros u Hg _. unfold slack. pose proof (g_bytes _ Hg). lia.
    - intros a u _ (n & -> & Hk). split; [done|by exists n]. }
  intros tmp. eapply triple_bind with (M := λ _, slack 0).
  { apply triple_sys. intros u Hg (Hk & n & ->) fs. split; [done|]. intros t [] Ha.
    destruct (LinkAt_harmless _ _ _ _ _ _ Ha (g_sound _ Hg)) as [Hs Hw]. split; [done|]. split; [done|]. unfold slack in *. simpl. lia. }
  intros [[]|e]; [|by apply triple_fail].
  eapply triple_bind with (M := λ r u, slack 0 u ∧ ∀ n, r = Ok n → Stat false tmp (root u) = Ok n).
  { apply triple_sys. intros u Hg Hk fs. split; [by intros e|]. intros t n Ha.
    destruct (Stat false tmp (root u)) as [n'|] eqn:E; [|done]. simpl in Ha. injection Ha as <- <-.
    split; [by apply g_sound|]. split; [done|]. split; [done|]. by intros n [= ->]. }
  intros [linked|e].
  - destruct info as [|?|i|?]; try (eapply triple_weaken; [apply steady_calm, calm_joining, removeTemp_calm|done|done]).
    destruct linked as [|?|j|?]; try (eapply triple_weaken; [apply steady_calm, calm_joining, removeTemp_calm|done|done]).
    destruct (Nat.eqb_spec i j) as [->|]; [|eapply triple_weaken; [apply steady_calm, calm_joining, removeTemp_calm|done|done]].
    eapply triple_weaken; [apply (place_file tmp name _ 0 j)| |done]. intros u _ [Hk Hn]. split; [done|]. split; [by apply Hn|done].
  - eapply triple_weaken; [apply steady_calm, calm_joining, removeTemp_calm|done|done].
Qed.

Lemma entry_steady h body : 0 ≤ HSize h → steady_ (entry pid opts h body).
Proof.
  intros Hsz. unfold entry. destruct (Typeflag h); try (by apply triple_ret);
    (destruct (local opts (HName h)) as [name|e]; [|by apply triple_fail]); destruct (_ && _); try (by apply triple_fail).
  - apply steady_calm, dir_calm.
  - by apply file_steady.
  - apply symlink_steady.
  - apply hardlink_steady.
Qed.

Lemma confine_calm : calm confine.
Proof.
  assert (∀ links, calm (confine_go links)) as Hgo.
  { induction links as [|[name e] links IH]; [apply calm_ret|]. cbn [confine_go].
    apply calm_bind; [|intros here; apply calm_bind; [exact IH|intros rest; apply calm_ret]].
    unfold confine_one. apply calm_bind; [apply calm_look|]. intros [n|[]]; calm_steps. }
  unfold confine. apply calm_bind; [apply calm_ask|]. intros links. apply calm_bind; [apply Hgo|]. intros refused.
  apply calm_bind; [|intros _; apply calm_ret]. apply calm_touch; [|done|done]. by intros u [H1 H2 H3 H4 H5].
Qed.

Lemma chmod_steady dirs : Forall (λ d, no_setid d.2) dirs → steady_ (chmod_dirs dirs).
Proof.
  induction dirs as [|[name m] dirs IH]; [intros _; by apply triple_ret|]. intros [Hm Hd]%Forall_cons. cbn [chmod_dirs].
  eapply triple_bind with (M := λ _ _, True); [|intros [[]|e]; [by apply IH|by apply triple_fail]].
  eapply triple_weaken; [apply steady_calm, calm_sys|done|by intros []]. intros t t' a Ha. by eapply Chmod_harmless.
Qed.

Lemma finish_steady : steady_ finish.
Proof.
  unfold finish. eapply triple_bind with (M := λ _ _, True); [eapply triple_weaken; [apply steady_calm, confine_calm|done|by intros []]|].
  intros [|e es]; [|by apply triple_fail].
  eapply triple_bind with (M := λ dirs _, Forall (λ d, no_setid d.2) dirs).
  - apply triple_ask. intros u Hg _. apply Forall_reverse. apply (g_dirs _ Hg).
  - intros dirs u Hg Hd. by apply (chmod_steady dirs Hd u Hg).
Qed.

Lemma run_steady items : ∀ n, Forall (λ i, match i with TarEntry h _ => 0 ≤ HSize h | TarBroken => True end) items → steady_ (run_go pid opts n items).
Proof.
  assert (∀ e, steady_ (joining (A := ()) e confine)) as Hj by (intros e; apply steady_calm, calm_joining, confine_calm).
  induction items as [|[h body|] items IH]; intros n Hi; [apply finish_steady| |apply Hj]. apply Forall_cons in Hi as [Hh Hi]. cbn [run_go].
  destruct (_ && _); [apply Hj|]. intros u Hg _. pose proof (entry_steady h body Hh u Hg Logic.I) as He.
  destruct (entry pid opts h body u) as [[t u'] [[]|e]]; destruct He as (Ht & Hg' & _).
  - pose proof (IH (n + 1) Hi u' Hg' Logic.I) as Hr. destruct (run_go pid opts (n + 1) items u') as [[t2 u2] a]. destruct Hr as (? & ? & _).
    split; [by apply Forall_app|done].
  - pose proof (Hj e u' Hg' Logic.I) as Hr. destruct (joining e confine u') as [[t2 u2] a]. destruct Hr as (? & ? & _). split; [by apply Forall_app|done].
Qed.

End Keeps.

(** A directory as it can be: every file known by a number that was given out. *)
Definition tree_ok (t : tree) : Prop :=
  (∀ p i, nodes t !! p = Some (NFile i) → (i < next_ino t)%nat) ∧ ∀ i, is_Some (inodes t !! i) → (i < next_ino t)%nat.

(** C18: an unpack of any tar, with any call failing at any point, keeps the files that were there and the limits it was given. At
    every state on its way: a name leads to the file it led to before, or to one the unpack made, or is one of the unpack's own
    temp names; each file that was there has the bytes it had; no file it made is setuid or setgid, unless those are kept; and
    where there is a cap, the bytes of the files it made are within it. *)
Theorem unpack_keeps `{LinkLimit} pid opts t fails items :
  tree_ok t → Forall (λ i, match i with TarEntry h _ => 0 ≤ HSize h | TarBroken => True end) items →
  Forall (λ u,
    (∀ p i, nodes (root u) !! p = Some (NFile i) → nodes t !! p = Some (NFile i) ∨ (next_ino t ≤ i)%nat ∨ temp_path pid p) ∧
    (∀ i x, inodes t !! i = Some x → ∃ m o, inodes (root u) !! i = Some (MkInode (ibody x) m o)) ∧
    (∀ i x, (next_ino t ≤ i)%nat → inodes (root u) !! i = Some x → KeepSetid opts = false → Z.land (imode x) 3072 = 0) ∧
    (0 < MaxBytes opts → written (next_ino t) (root u) ≤ MaxBytes opts))
    ((Unpack pid opts t fails items).1.1 ++ [(Unpack pid opts t fails items).1.2]).
Proof.
  intros [Hn Hi] Hsz. assert (good pid opts t (MkUnpacker t fails 0 0 ∅ [] [])) as Hg.
  { constructor; simpl; [|done|by intros ??|unfold written; by rewrite Nat.sub_diag|lia]. constructor; [done|done|by left| |].
    - intros i [b m o] _ Hx. by exists m, o.
    - intros i x Hge Hx. specialize (Hi i ltac:(by eexists)). lia. }
  pose proof (run_steady pid opts t items 0 Hsz _ Hg Logic.I) as Hr. unfold Unpack. destruct (run_go _ _ _ _ _) as [[us u] a].
  destruct Hr as (Hus & Hu & _). simpl. apply Forall_app. split; [|apply Forall_singleton].
  1: eapply Forall_impl; [exact Hus|]; clear u Hu; intros u Hu.
  all: destruct Hu as [[H1 H2 H3 H4 H5] _ _ H6 H7]; split_and!; [done| |exact H5|intros ?; specialize (H7 ltac:(done)); lia];
    intros i x Hx; apply H4; [apply Hi; by eexists|done].
Qed.

(** ** Links *)

Section Links.
Context `{LinkLimit} (pid : Z) (opts : Options).

Definition stays (name : list string) (t : tree) : Prop := Stat true name t ≠ Err FEscape.

Lemma stays_walk name t : stays name t ↔ walk rootMaxSymlinks t true [] name ≠ Err FEscape.
Proof. unfold stays, Stat, resolve. destruct (walk _ t true [] name) as [p|e]; simpl; [destruct (node_at t p)|]; split; congruence. Qed.

Lemma RemoveAt_stays name t t' a other : RemoveAt name t = Ok (t', a) → stays other t → stays other t'.
Proof.
  unfold RemoveAt. destruct (resolve t false name) as [[|c p]|]; [done| |done]. cbn [mbind result_bind]. rewrite !stays_walk.
  intros Hr Ho He. apply Ho. destruct (node_at t (c :: p)) as [[]|]; try done; try (destruct (has_below t (c :: p)); [done|]);
    injection Hr as <- _; by apply walk_deleted in He.
Qed.

Lemma RemoveAt_gone name t t' a : RemoveAt name t = Ok (t', a) → stays name t'.
Proof.
  unfold RemoveAt. destruct (resolve t false name) as [[|c p]|] eqn:E; [done| |done]. cbn [mbind result_bind]. rewrite stays_walk.
  intros Hr. destruct (node_at t (c :: p)) as [[]|]; try done; try (destruct (has_below t (c :: p)); [done|]);
    injection Hr as <- _; by apply walk_unlinked.
Qed.

Definition only_refused (es : joined) : Prop := Forall (λ e, match e with Refused _ _ => True | _ => False end) es.

(** A call on the directory answers by itself, and moves the directory only when it worked. *)
Lemma sys_cases {A} (f : tree → result fs_error (tree * A)) u t u' a :
  sys f u = (t, u', a) →
  (∃ e, a = Ok (Err e) ∧ root u' = root u ∧ (e = FOther ∨ f (root u) = Err e)) ∨ (∃ x tr, a = Ok (Ok x) ∧ root u' = tr ∧ f (root u) = Ok (tr, x)).
Proof.
  unfold sys. destruct (default None _); [intros [= _ <- <-]; left; exists FOther; auto|].
  destruct (f (root u)) as [[tr x]|e]; intros [= _ <- <-]; [right; by exists x, tr|left; exists e; auto].
Qed.

Lemma confine_one_stays name entry u t u' es :
  confine_one name entry u = (t, u', Ok es) → only_refused es →
  stays name (root u') ∧ ∀ other, stays other (root u) → stays other (root u').
Proof.
  unfold confine_one, bind. destruct (look (Stat true name) u) as [[t1 u1] a1] eqn:E1. unfold look in E1.
  apply sys_cases in E1 as [(e & -> & Hr & He)|(n & tr & -> & Hr & He)].
  - assert (e ≠ FEscape → e ≠ FOther → stays name (root u1)) as Hst.
    { intros H1 H2. destruct He as [->|He]; [done|]. unfold stays. rewrite Hr. destruct (Stat true name (root u)) as [n|e'] eqn:Es; [done|]. cbn in He. congruence. }
    destruct e; cbn [ret]; try (intros [= _ <- <-] _; rewrite <- Hr; split; [by apply Hst|done]);
      try (intros [= _ <- <-] Hf; by apply Forall_cons in Hf as [[] _]).
    destruct (sys (RemoveAt name) u1) as [[t2 u2] a2] eqn:E2. apply sys_cases in E2 as [(e2 & -> & Hr2 & He2)|([] & tr & -> & Hr2 & He2)].
    + cbn [ret]. intros [= _ <- <-] Hf. apply Forall_cons in Hf as [_ Hf]. by apply Forall_cons in Hf as [[] _].
    + cbn [ret]. intros [= _ <- <-] _. rewrite Hr2. split; [by eapply RemoveAt_gone|]. intros other Ho. eapply RemoveAt_stays; [exact He2|by rewrite Hr].
  - cbn [ret]. intros [= _ <- <-] _. destruct (Stat true name (root u)) as [n'|] eqn:Es; [|done]. simpl in He. injection He as <- <-. rewrite Hr.
    split; [|done]. unfold stays. by rewrite Es.
Qed.

Lemma confine_go_stays links : ∀ u t u' es, confine_go links u = (t, u', Ok es) → only_refused es →
  Forall (λ l, stays l.1 (root u')) links ∧ ∀ other, stays other (root u) → stays other (root u').
Proof.
  induction links as [|[name entry] links IH]; intros u t u' es; [cbn; intros [= _ <- _] _; by split|].
  cbn [confine_go]. unfold bind. destruct (confine_one name entry u) as [[t1 u1] [here|]] eqn:E1; [|done].
  destruct (confine_go links u1) as [[t2 u2] [rest|]] eqn:E2; [|done]. cbn [ret]. intros [= _ <- <-] [Hh Hrest]%Forall_app.
  destruct (confine_one_stays _ _ _ _ _ _ E1 Hh) as [Hn Ho]. destruct (IH _ _ _ _ E2 Hrest) as [Hl Ho2].
  split; [|auto]. apply Forall_cons. split; [by apply Ho2|done].
Qed.

(** The links it has seen are taken off the list, and only then. *)
Lemma confine_stays u t u' es : confine u = (t, u', Ok es) → only_refused es → Forall (λ l, stays l.1 (root u')) (made_links u).
Proof.
  unfold confine, bind, ask. simpl. destruct (confine_go (made_links u) u) as [[t1 u1] [r|]] eqn:E; [|done]. unfold touch, ret. intros [= _ <- <-] Hr.
  by destruct (confine_go_stays _ _ _ _ _ E Hr) as [Hl _].
Qed.

Lemma chmod_stays dirs : ∀ u t u' a, chmod_dirs dirs u = (t, u', a) → ∀ name, stays name (root u) → stays name (root u').
Proof.
  induction dirs as [|[n m] dirs IH]; intros u t u' a; [cbn; by intros [= _ <- _]|]. cbn [chmod_dirs]. unfold bind.
  destruct (sys (Chmod m n) u) as [[t1 u1] a1] eqn:E. apply sys_cases in E as [(e & -> & Hr & _)|(x & tr & -> & Hr & He)].
  - cbn [fail]. intros [= _ <- _] name. by rewrite Hr.
  - destruct (chmod_dirs dirs u1) as [[t2 u2] b] eqn:E2. intros [= _ <- _] name Hs. eapply IH; [exact E2|]. rewrite Hr.
    rewrite stays_walk in *. erewrite walk_shape; [exact Hs|]. symmetry. revert He. unfold Chmod. destruct (resolve (root u) true n) as [p|]; [|done]. simpl.
    destruct (node_at (root u) p) as [[]|] eqn:Ep; try done; intros [= <- _]; [|done..]. destruct p; [done|]. symmetry. by eapply shape_insert.
Qed.

(** ** Which links are checked *)

(** An operation that takes nothing off the list of the links made. *)
Definition records {A} (m : uop A) : Prop := ∀ x, triple (λ u, x ∈ made_links u) (λ _, True) m (λ _ _, True).

Lemma records_ret {A} (a : A) : records (ret a).
Proof. intros x. by apply triple_ret. Qed.
Lemma records_fail {A} e : records (fail (A := A) e).
Proof. intros x. by apply triple_fail. Qed.
Lemma records_ask {A} f : records (ask (A := A) f).
Proof. intros x. by apply triple_ask. Qed.
Lemma records_check e b : records (check e b).
Proof. destruct b; [apply records_ret|apply records_fail]. Qed.
Lemma records_touch f : (∀ u x, x ∈ made_links u → x ∈ made_links (f u)) → records (touch f).
Proof. intros Hf x. apply triple_touch. intros u Hx _. by split; [apply Hf|]. Qed.
Lemma records_sys {A} (f : tree → result fs_error (tree * A)) : records (sys f).
Proof.
  intros x u Hx _. unfold sys. destruct (default None _); [split; [by apply Forall_nil_2|done]|].
  destruct (f (root u)) as [[t a]|e]; [split; [by apply Forall_singleton|done]|split; [by apply Forall_nil_2|done]].
Qed.
Lemma records_copy i data : records (copy i data).
Proof. intros x u Hx _. unfold copy. cbn zeta. destruct (default None _); (split; [by apply Forall_singleton|done]). Qed.
Lemma records_bind {A B} (m : uop A) (f : A → uop B) : records m → (∀ a, records (f a)) → records (bind m f).
Proof. intros Hm Hf x. eapply triple_bind with (M := λ _ _, True); [|intros a; apply Hf]. eapply triple_weaken; [apply (Hm x)|done|by intros []]. Qed.

Ltac records_steps :=
  repeat first
    [ apply records_ret | apply records_fail | apply records_ask | apply records_check | apply records_sys | apply records_copy
    | apply records_touch; [done]
    | apply records_bind; [|intros ?] | case_match ].

Lemma records_removeTemp tmp : records (removeTemp tmp).
Proof. unfold removeTemp. records_steps. Qed.

Lemma records_own name e : records (own opts name e).
Proof. unfold own. records_steps. Qed.

Lemma records_joining {A} e m : records m → records (joining (A := A) e m).
Proof. intros Hm x u Hx Ht. specialize (Hm x u Hx Ht). unfold joining. by destruct (m u) as [[t u'] [e'|e']]. Qed.

Lemma records_or_removed {A} tmp (m : uop A) : records m → records (or_removed tmp m).
Proof.
  intros Hm x u Hx Ht. specialize (Hm x u Hx Ht). unfold or_removed. destruct (m u) as [[t u'] [a|e]]; [done|]. destruct Hm as (H1 & H2 & _).
  pose proof (records_removeTemp tmp x u' H2 Ht) as Hr. destruct (removeTemp tmp u') as [[t2 u2] [e'|e']]; destruct Hr as (? & ? & _);
    (split; [by apply Forall_app|done]).
Qed.

Lemma records_tempName name : records (tempName pid name).
Proof. intros x u Hx _. unfold tempName. split; [by apply Forall_singleton|done]. Qed.

Lemma records_parent name e : records (parent opts name e).
Proof.
  unfold parent. induction (reverse name) as [|c l IH]; [apply records_ret|]. destruct l as [|d l]; [apply records_ret|].
  cbn [parent_go]. apply records_bind; [apply records_sys|]. intros r. apply records_bind.
  - destruct r as [u|er]; [apply records_ret|]. destruct er; try apply records_ret. apply records_bind; [exact IH|intros _; apply records_sys].
  - intros [u|er]; [apply records_own|]. destruct er; records_steps.
Qed.

Lemma records_place tmp name e b : records (place tmp name e b).
Proof.
  unfold place, look. apply records_bind; [apply records_sys|]. intros [[]|er]; [|apply records_joining, records_removeTemp].
  destruct b; simpl; records_steps.
Qed.

Lemma records_entry h body : records (entry pid opts h body).
Proof.
  unfold entry. destruct (Typeflag h); try apply records_ret; (destruct (local opts (HName h)) as [name|e]; [|apply records_fail]);
    destruct (_ && _); try apply records_fail.
  - unfold dir, look. apply records_bind; [apply records_parent|]. intros _. apply records_bind; [apply records_sys|]. intros [[]|er]; [|destruct er; records_steps].
    apply records_bind; [apply records_own|]. intros _. by apply records_touch.
  - unfold file. apply records_bind; [apply records_ask|]. intros [|]; [apply records_fail|]. apply records_bind; [by apply records_touch|]. intros _.
    apply records_bind; [apply records_parent|]. intros _. apply records_bind; [apply records_tempName|]. intros tmp.
    apply records_bind; [apply records_sys|]. intros [i|e]; [|apply records_fail]. apply records_bind; [apply records_or_removed, records_own|]. intros _.
    apply records_bind; [|intros _; apply records_place]. apply records_or_removed. unfold fill, look. cbn zeta. records_steps.
  - unfold symlink. destruct (_ && _); [apply records_fail|]. apply records_bind; [apply records_parent|]. intros _.
    apply records_bind; [apply records_tempName|]. intros tmp. apply records_bind; [apply records_sys|]. intros [u|e]; [|apply records_fail].
    apply records_bind; [apply records_or_removed, records_own|]. intros _. apply records_bind; [|intros _; apply records_place].
    destruct (ConfineLinks opts); [|apply records_ret]. apply records_touch. intros u' x Hx. simpl. apply elem_of_app. by left.
  - unfold hardlink, look. apply records_bind; [apply records_ask|]. intros [[target info]|]; [|apply records_fail].
    apply records_bind; [apply records_parent|]. intros _. apply records_bind; [apply records_tempName|]. intros tmp.
    apply records_bind; [apply records_sys|]. intros [u|e]; [|apply records_fail]. apply records_bind; [apply records_sys|].
    intros [n|e]; [|apply records_joining, records_removeTemp]. destruct (match info with NFile _ => _ | _ => _ end);
      [apply records_place|apply records_joining, records_removeTemp].
Qed.

(** A link that was unpacked is on the list. *)
Lemma symlink_recorded name h u t u' :
  ConfineLinks opts = true → symlink pid opts name h u = (t, u', Ok tt) → (name, HName h) ∈ made_links u'.
Proof.
  intros Hc. assert (triple (λ _, True) (λ _, True) (symlink pid opts name h) (λ a u, a = Ok tt → (name, HName h) ∈ made_links u)) as Ht.
  { unfold symlink. rewrite Hc. destruct (leaves name (Linkname h)); [by apply triple_fail|]. cbn [andb].
    assert (∀ B (m : uop B), triple (λ _, True) (λ _, True) m (λ _ _, True)) as Htriv.
    { intros B m u0 _ _. destruct (m u0) as [[t0 u0'] b]. split; [|done]. by apply Forall_forall. }
    eapply triple_bind with (M := λ _ _, True); [eapply triple_weaken; [apply Htriv|done|by intros []]|]. intros _.
    eapply triple_bind with (M := λ _ _, True); [eapply triple_weaken; [apply Htriv|done|by intros []]|]. intros tmp.
    eapply triple_bind with (M := λ _ _, True); [eapply triple_weaken; [apply Htriv|done|by intros []]|]. intros [[]|e]; [|by apply triple_fail].
    eapply triple_bind with (M := λ _ _, True); [eapply triple_weaken; [apply Htriv|done|by intros []]|]. intros _.
    eapply triple_bind with (M := λ _ u, (name, HName h) ∈ made_links u).
    - apply triple_touch. intros u0 _ _. split; [done|]. simpl. apply elem_of_app. right. by left.
    - intros _ u0 _ Hx. pose proof (records_place tmp name (HName h) false _ u0 Hx Logic.I) as Hp.
      destruct (place tmp name (HName h) false u0) as [[t0 u0'] b]. destruct Hp as (_ & ? & _). split; [by apply Forall_forall|done]. }
  intros E. specialize (Ht u Logic.I Logic.I). rewrite E in Ht. by apply Ht.
Qed.

Lemma finish_stays u t u' : finish u = (t, u', Ok tt) → Forall (λ l, stays l.1 (root u')) (made_links u).
Proof.
  unfold finish, bind at 1. destruct (confine u) as [[t1 u1] [[|e es]|es]] eqn:E; [|done|done].
  apply confine_stays in E; [|by apply Forall_nil_2]. unfold bind, ask. destruct (chmod_dirs _ u1) as [[t2 u2] a] eqn:E2. simpl. intros [= _ <- _].
  eapply Forall_impl; [exact E|]. intros l Hl. by eapply chmod_stays.
Qed.

Lemma joining_Err {A} e (m : uop joined) u t u' (a : A) : joining e m u ≠ (t, u', Ok a).
Proof. unfold joining. by destruct (m u) as [[? ?] [?|?]]. Qed.

Lemma run_stays items : ConfineLinks opts = true → ∀ n u t u', run_go pid opts n items u = (t, u', Ok tt) →
  (∀ l, l ∈ made_links u → stays l.1 (root u')) ∧
  ∀ h body name, TarEntry h body ∈ items → Typeflag h = TypeSymlink → local opts (HName h) = Ok name → stays name (root u').
Proof.
  intros Hc. induction items as [|[h body|] items IH]; intros n u t u'; cbn [run_go].
  - intros E. apply finish_stays in E. rewrite Forall_forall in E. split; [done|]. intros h body name Hin. by apply not_elem_of_nil in Hin.
  - destruct (_ && _); [intros E; by apply joining_Err in E|]. destruct (entry pid opts h body u) as [[t1 u1] [[]|e]] eqn:E1.
    2:{ destruct (joining e confine u1) as [[t2 u2] a] eqn:E2. intros [= _ _ ->]. by apply joining_Err in E2. }
    destruct (run_go pid opts (n + 1) items u1) as [[t2 u2] a] eqn:E2. intros [= _ <- ->]. destruct (IH _ _ _ _ E2) as [Hl He].
    assert (∀ l, l ∈ made_links u → l ∈ made_links u1) as Hkeep.
    { intros l Hin. pose proof (records_entry h body l u Hin Logic.I) as Hr. rewrite E1 in Hr. by destruct Hr as (_ & ? & _). }
    split; [auto|]. intros h' body' name Hin Ht Hn. apply elem_of_cons in Hin as [[= -> ->]|Hin]; [|by eapply He].
    unfold entry in E1. rewrite Ht, Hn in E1. case_bool_decide; [done|]. simpl in E1. apply symlink_recorded in E1; [|done]. by apply (Hl _ E1).
  - intros E. by apply joining_Err in E.
Qed.

End Links.

(** C19: where links are confined, an unpack that answers well leaves no link of the tar that leads out by its own name: each
    symlink entry, under the name it was unpacked as, ends inside the directory, at nothing, or in a loop. *)
Theorem links_checked `{LinkLimit} pid opts t fails items ts u :
  ConfineLinks opts = true → Unpack pid opts t fails items = (ts, u, Ok tt) →
  ∀ h body name, TarEntry h body ∈ items → Typeflag h = TypeSymlink → local opts (HName h) = Ok name → Stat true name (root u) ≠ Err FEscape.
Proof. intros Hc E. by apply (run_stays pid opts items Hc 0 _ _ _ E). Qed.

(** ** Scenarios *)

Definition bench_limit : LinkLimit := 40%nat.
Definition copy_out : Options := MkOptions "" false true 1000 100 None.
Definition a_dir (n : string) : tar_item := TarEntry (MkHeader n "" 0 493 TypeDir) "".
Definition a_link (n x : string) : tar_item := TarEntry (MkHeader n x 0 511 TypeSymlink) "".
Definition a_file (n b : string) : tar_item := TarEntry (MkHeader n "" (Z.of_nat (String.length b)) 2541 TypeReg) b.
Definition a_hard (n x : string) : tar_item := TarEntry (MkHeader n x 0 511 TypeLink) "".

(** A directory with a file of its owner's. *)
Definition home : tree := MkTree {[ ["keep"] := NDir 448 None; ["keep"; "key"] := NFile 0 ]} {[ 0%nat := MkInode "secret" 384 None ]} 1.

Lemma home_ok : tree_ok home.
Proof.
  split; simpl.
  - intros p i [[<- [=]]|[_ [<- [= <-]]%lookup_singleton_Some]]%lookup_insert_Some. lia.
  - intros i [x [<- _]%lookup_singleton_Some]. lia.
Qed.

Definition plain_tar : list tar_item := [a_dir "c/"; a_file "c/x" "hello"; a_hard "c/y" "c/x"; a_link "l" "c/x"].

Lemma unpack_keeps_witness :
  (Unpack (H := bench_limit) 7 copy_out home [] plain_tar).2 = Ok tt ∧
  Forall (λ u, written 1 (root u) ≤ 1000)
    ((Unpack (H := bench_limit) 7 copy_out home [] plain_tar).1.1 ++ [(Unpack (H := bench_limit) 7 copy_out home [] plain_tar).1.2]).
Proof.
  split; [vm_compute; reflexivity|]. eapply Forall_impl; [refine (unpack_keeps (H := bench_limit) 7 copy_out home [] plain_tar home_ok _)|].
  - repeat constructor; vm_compute; discriminate.
  - intros u (_ & _ & _ & Hb). apply Hb. vm_compute. reflexivity.
Defined.

Lemma links_checked_witness : Stat (H := bench_limit) true ["l"] (root (Unpack (H := bench_limit) 7 copy_out home [] plain_tar).1.2) ≠ Err FEscape.
Proof.
  refine (links_checked (H := bench_limit) 7 copy_out home [] plain_tar _ _ eq_refl _ (MkHeader "l" "c/x" 0 511 TypeSymlink) "" ["l"] _ eq_refl _).
  - apply triple_eta.
  - right. right. right. left.
  - vm_compute. reflexivity.
Defined.

(** A link replaced after another entry went through it takes that entry's name somewhere else: the link the tar left behind
    leads out of the directory, and the unpack answers well. *)
Definition moved_link : list tar_item :=
  [a_dir "c/"; a_dir "d/"; a_dir "p/q/"; a_link "p/q/a" "../../c"; a_link "p/q/a/b" "../../etc"; a_link "p/q/a" "../../d"].

Theorem link_left_behind :
  let '(_, u, a) := Unpack (H := bench_limit) 7 copy_out home [] moved_link in
  a = Ok tt ∧ nodes (root u) !! ["c"; "b"] = Some (NLink "../../etc" None) ∧ Stat (H := bench_limit) true ["c"; "b"] (root u) = Err FEscape.
Proof. vm_compute. split_and!; reflexivity. Qed.

(** The same way the mode of a directory of the tar lands on a file that was there. *)
Theorem mode_on_a_kept_file :
  let '(_, u, a) := Unpack (H := bench_limit) 7 copy_out home [] [a_dir "c/"; a_link "a" "c"; a_dir "a/key/"; a_link "a" "keep"] in
  a = Ok tt ∧ nodes (root u) !! ["keep"; "key"] = Some (NFile 0) ∧ imode <$> inodes (root u) !! 0%nat = Some 493.
Proof. vm_compute. split_and!; reflexivity. Qed.

(** A hard link of a file to its own name leaves the temp name: a rename of one name of a file over another does nothing. *)
Theorem temp_left_behind :
  let '(_, u, a) := Unpack (H := bench_limit) 7 copy_out home [] [a_file "x" "hello"; a_hard "x" "x"] in
  a = Ok tt ∧ nodes (root u) !! [".shard-unpack-7-2"] = Some (NFile 1).
Proof. vm_compute. split_and!; reflexivity. Qed.
