(* ===== verification/Users.v ===== *)
(** * The users of a rootfs

    [services/bundle/user.go] and [workdir.go]: a user a create or an exec names, looked up in the passwd and the group of the
    guest's own tree; and the walk of that tree the way the guest itself would, which decides whether the file behind a path is
    one a runtime may open. The tree is the one of [Rootfs]. *)

From S2P Require Import Prelude GoStrings Netip Http Rootfs.
Local Open Scope Z_scope.

(** ** The guest's own paths *)

Definition maxLinks : nat := 40.

Inductive path_error : Type := PFs (e : fs_error) | PNotDir | PLoop | PMounted | PSource.

(** [filepath.Join] of a clean path and one piece. *)
Definition join_piece (resolved part : string) : string := if String.eqb resolved "" then part else resolved +:+ "/" +:+ part.

(** [filepath.Dir] of a clean relative path, and what the walk makes of it at a [..]. *)
Definition dir_of (resolved : string) : string := match cut_last "/" resolved with Some (d, _) => d | None => "." end.
Definition up (resolved : string) : string := TrimSuffix (dir_of resolved) ".".

(** [inMount]. *)
Definition inMount (mounts : gmap string string) (rel : string) : bool :=
  bool_decide (map_Exists (λ dest _, rel = dest ∨ HasPrefix rel (dest +:+ "/") = true) mounts).

Definition is_dir (n : node) : bool := match n with NDir _ _ => true | _ => false end.
Definition is_regular (n : node) : bool := match n with NFile _ => true | _ => false end.

Section Guest.
Context `{LinkLimit} (t : tree).

(** The mounts of the guest, and what the host says of the source of a bind. *)
Context (mounts : gmap string string) (source_of : string → option node).

(** [guestPath], with the links it may still follow. *)
Fixpoint guest_go (links : nat) : string → node → list string → result path_error (string * node) :=
  fix go resolved mode parts :=
    match parts with
    | [] => Ok (resolved, mode)
    | part :: parts =>
        if negb (is_dir mode) then Err PNotDir
        else if String.eqb part "" || String.eqb part "." then go resolved mode parts
        else if String.eqb part ".." then go (up resolved) (NDir 0 None) parts
        else
          let next := join_piece resolved part in
          match mounts !! next with
          | Some source =>
              if String.eqb source "" then Err PMounted
              else match source_of source with Some n => go next n parts | None => Err PSource end
          | None =>
              if inMount mounts resolved then Err PMounted
              else
                match Stat false (Split "/" next) t with
                | Err e => Err (PFs e)
                | Ok (NLink target _) =>
                    match links with
                    | O => Err PLoop
                    | S links => guest_go links (if HasPrefix target "/" then "" else resolved) mode (Split "/" target ++ parts)
                    end
                | Ok n => go next n parts
                end
          end
    end.

Definition guestPath (rel : string) : result path_error (string * node) := guest_go maxLinks "" (NDir 0 None) (Split "/" rel).

End Guest.

(** [unreachable]. *)
Definition unreachable (e : path_error) : bool :=
  match e with PFs FNotExist | PFs FNotDir | PFs FLoop | PNotDir | PLoop => true | _ => false end.

Inductive db_error : Type := DbCheck (rel : string) (e : path_error) | DbNotRegular (rel : string).

(** [checkDatabases]. *)
Fixpoint checkDatabases `{LinkLimit} (t : tree) (rels : list string) : result db_error unit :=
  match rels with
  | [] => Ok tt
  | rel :: rels =>
      match guestPath t ∅ (λ _, None) rel with
      | Err e => if unreachable e then checkDatabases t rels else Err (DbCheck rel e)
      | Ok (_, mode) => if is_regular mode then checkDatabases t rels else Err (DbNotRegular rel)
      end
  end.

Definition CheckUserDatabases `{LinkLimit} (t : tree) : result db_error unit := checkDatabases t ["etc/passwd"; "etc/group"].
Definition CheckPasswd `{LinkLimit} (t : tree) : result db_error unit := checkDatabases t ["etc/passwd"].

(** [CheckWorkDir], over the mounts of the spec: whether the workdir is refused, or could not be told. *)
Inductive workdir : Type := WorkDirFine | WorkDirNotDir | WorkDirUnknown (e : path_error).

Definition TrimPrefix (s p : string) : string := match CutPrefix s p with Some rest => rest | None => s end.

Definition CheckWorkDir `{LinkLimit} (t : tree) (mounts : gmap string string) (source_of : string → option node) (d : string) : workdir :=
  match guestPath t mounts source_of (TrimPrefix d "/") with
  | Ok (_, mode) => if is_dir mode then WorkDirFine else WorkDirNotDir
  | Err PNotDir | Err (PFs FNotDir) => WorkDirNotDir
  | Err PMounted | Err (PFs FNotExist) | Err (PFs FLoop) | Err PLoop => WorkDirFine
  | Err e => WorkDirUnknown e
  end.

(** ** Passwd and group *)

Definition passwdFields : nat := 4.
Definition groupFields : nat := 3.
Definition memberField : nat := 3.
Definition homeField : nat := 5.

(** A database as it opens and reads: the lines of the scanner, and whether it got to the end of them. *)
Inductive database : Type :=
| DbMissing
| DbRefused
| DbBroken
| DbLines (lines : list string) (whole : bool).

Inductive user_error : Type :=
| NoEntry (missing_file : bool)
| UnknownUser (name : string)
| UnknownGroup (name : string)
| DatabaseRefused
| DatabaseBroken
| BadUID (name : string)
| BadGID (name : string).

Definition parseID (s : string) : option Z := n ← parse_digits s; if n <=? 4294967295 then Some n else None.

(** [scanDatabase]: the fields of each line that has enough of them, until the visit says no more. *)
Fixpoint scan_lines {A} (minFields : nat) (visit : A → list string → result user_error (A * bool)) (a : A) (lines : list string)
  : result user_error (A * bool) :=
  match lines with
  | [] => Ok (a, true)
  | line :: lines =>
      let fields := Split ":" line in
      if (length fields <? minFields)%nat then scan_lines minFields visit a lines
      else match visit a fields with
           | Err e => Err e
           | Ok (a, true) => scan_lines minFields visit a lines
           | Ok (a, false) => Ok (a, false)
           end
  end.

Definition scanDatabase {A} (db : database) (minFields : nat) (visit : A → list string → result user_error (A * bool)) (a : A)
  : result user_error A :=
  match db with
  | DbMissing => Err (NoEntry true)
  | DbRefused => Err DatabaseRefused
  | DbBroken => Err DatabaseBroken
  | DbLines lines whole =>
      match scan_lines minFields visit a lines with
      | Err e => Err e
      | Ok (a, false) => Ok a
      | Ok (a, true) => if whole then Ok a else Err DatabaseBroken
      end
  end.

(** [findEntry]. *)
Definition findEntry (db : database) (minFields : nat) (match_ : list string → bool) : result user_error (list string) :=
  match scanDatabase db minFields (λ found fields, if match_ fields then Ok (Some fields, false) else Ok (found, true)) None with
  | Err e => Err e
  | Ok None => Err (NoEntry false)
  | Ok (Some fields) => Ok fields
  end.

Definition field (n : nat) (fields : list string) : string := default "" (fields !! n).

(** [lookupUser]: the entry's name, its uid and its primary gid. *)
Definition lookupUser (passwd : database) (name : string) : result user_error (string * Z * Z) :=
  let numeric := parseID name in
  let match_ fields :=
    match numeric with
    | Some wanted => match parseID (field 2 fields) with Some id => id =? wanted | None => false end
    | None => String.eqb (field 0 fields) name
    end in
  match findEntry passwd passwdFields match_ with
  | Err (NoEntry m) => match numeric with Some wanted => Ok ("", wanted, 0) | None => Err (UnknownUser name) end
  | Err e => Err e
  | Ok fields =>
      match parseID (field 2 fields) with
      | None => Err (BadUID name)
      | Some uid => match parseID (field 3 fields) with None => Err (BadGID name) | Some gid => Ok (field 0 fields, uid, gid) end
      end
  end.

(** [membershipsOf]. *)
Definition membershipsOf (group : database) (name : string) : result user_error (list Z) :=
  if String.eqb name "" then Ok []
  else
    match scanDatabase group (memberField + 1)
            (λ groups fields,
              if negb (bool_decide (name ∈ Split "," (field memberField fields))) then Ok (groups, true)
              else match parseID (field 2 fields) with
                   | None => Err (BadGID (field 0 fields))
                   | Some gid => Ok (groups ++ [gid], true)
                   end) [] with
    | Err (NoEntry _) => Ok []
    | answer => answer
    end.

(** [lookupGroup]. *)
Definition lookupGroup (group : database) (name : string) : result user_error Z :=
  match parseID name with
  | Some id => Ok id
  | None =>
      match findEntry group groupFields (λ f, String.eqb (field 0 f) name) with
      | Err (NoEntry _) => Err (UnknownGroup name)
      | Err e => Err e
      | Ok fields => match parseID (field 2 fields) with None => Err (BadGID name) | Some gid => Ok gid end
      end
  end.

Record Identity : Type := MkIdentity { UID : Z; GID : Z; Groups : list Z }.

(** The supplementary set: each one once, in the order they come. *)
Fixpoint add_groups (groups memberships : list Z) : list Z :=
  match memberships with
  | [] => groups
  | m :: ms => add_groups (if bool_decide (m ∈ groups) then groups else groups ++ [m]) ms
  end.

(** [ResolveUser]. *)
Definition ResolveUser (passwd group : database) (user : string) : result user_error Identity :=
  let '(name, grp, hasGroup) := Cut user ":" in
  '(entry, uid, gid) ← lookupUser passwd name;
  gid ← (if hasGroup then lookupGroup group grp else Ok gid);
  memberships ← membershipsOf group entry;
  Ok (MkIdentity uid gid (add_groups [gid] memberships)).

(** [formatGroups] and [parseGroups]. *)
Definition formatGroups (groups : list Z) : string := Join "," (Itoa <$> groups).

Fixpoint parse_fields (fields : list string) : option (list Z) :=
  match fields with
  | [] => Some []
  | f :: fs => gid ← parseID f; rest ← parse_fields fs; Some (gid :: rest)
  end.

Definition parseGroups (groups : string) : option (list Z) := if String.eqb groups "" then Some [] else parse_fields (Split "," groups).

(** ** Home *)

Definition MaxGuestFile : Z := 4 * 2 ^ 20.

Inductive home_error : Type := HomeUser | HomeRefused | HomeFails | HomeOver.

(** What the read of the resolved passwd gives: the open may find it gone, refused or broken. *)
Inductive home_read : Type := HomeGone | HomeLink | HomeBroken | HomeBytes (data : string).

(** The home of the first entry of the uid: none is the root directory, and an entry with no home field leaves it empty. *)
Fixpoint home_in (uid : Z) (lines : list string) : string :=
  match lines with
  | [] => "/"
  | line :: lines =>
      let fields := Split ":" (TrimSpace line) in
      if (length fields <? 3)%nat then home_in uid lines
      else match parseID (field 2 fields) with
           | Some id => if id =? uid then if (length fields <=? homeField)%nat then "" else field homeField fields else home_in uid lines
           | None => home_in uid lines
           end
  end.

Definition LF : ascii := ascii_of_nat 10.

(** [guestHome]. *)
Definition guestHome `{LinkLimit} (t : tree) (read : string → home_read) (uid : Z) : result home_error string :=
  match guestPath t ∅ (λ _, None) "etc/passwd" with
  | Err e => if unreachable e then Ok "/" else Err HomeFails
  | Ok (resolved, mode) =>
      if negb (is_regular mode) then Err HomeRefused
      else
        match read resolved with
        | HomeGone => Ok "/"
        | HomeLink => Err HomeRefused
        | HomeBroken => Err HomeFails
        | HomeBytes data => if MaxGuestFile <? Z.of_nat (String.length data) then Err HomeOver else Ok (home_in uid (Split LF data))
        end
  end.

(** [AddHome]. *)
Definition AddHome `{LinkLimit} (t : tree) (read : string → home_read) (user : string) (env : list string) : result home_error (list string) :=
  if existsb (λ e, HasPrefix e "HOME=") env then Ok env
  else
    let '(uidText, _, _) := Cut user ":" in
    match (if String.eqb uidText "" then Some 0 else parseID uidText) with
    | None => Err HomeUser
    | Some uid => match guestHome t read uid with Err e => Err e | Ok home => Ok (env ++ ["HOME=" +:+ home]) end
    end.

(** ** Theorems *)

(** The guest's own lookup of a path: the kernel's, in a root of its own. A link is taken from where it is found, an absolute one
    from the top, and a [..] at the top stays there. *)
Fixpoint lookup_go (links : nat) (t : tree) : list string → node → list string → result path_error (list string * node) :=
  fix go cur here parts :=
    match parts with
    | [] => Ok (cur, here)
    | part :: parts =>
        if negb (is_dir here) then Err PNotDir
        else if String.eqb part "" || String.eqb part "." then go cur here parts
        else if String.eqb part ".." then go (removelast cur) (NDir 0 None) parts
        else
          match nodes t !! (cur ++ [part]) with
          | None => Err (PFs FNotExist)
          | Some (NLink target _) =>
              match links with
              | O => Err PLoop
              | S links => lookup_go links t (if HasPrefix target "/" then [] else cur) here (Split "/" target ++ parts)
              end
          | Some n => go (cur ++ [part]) n parts
          end
    end.

Definition guest_lookup (t : tree) (rel : string) : result path_error (list string * node) := lookup_go maxLinks t [] (NDir 0 None) (Split "/" rel).

(** The names of a tree: pieces with no slash; no name ends in a dot. *)
Definition names_plain (t : tree) : Prop := ∀ p c, is_Some (nodes t !! (p ++ [c])) → HasSuffix c "." = false.

(** A path of directories, from the top down, each by a name of its own. *)
Inductive real (t : tree) : list string → Prop :=
| real_top : real t []
| real_below cur c m o : real t cur → plain_piece c → contains_char "/" c = false → nodes t !! (cur ++ [c]) = Some (NDir m o) → real t (cur ++ [c]).

Lemma real_inv t cur c : real t (cur ++ [c]) →
  real t cur ∧ plain_piece c ∧ contains_char "/" c = false ∧ ∃ m o, nodes t !! (cur ++ [c]) = Some (NDir m o).
Proof.
  intros Hr. inversion Hr as [E|cur' c' m o H1 H2 H3 H4 E]; [by destruct cur|]. apply app_inj_2 in E as [-> [= ->]]; [|done]. by eauto 10.
Qed.

Lemma real_cases t cur : real t cur → cur = [] ∨ ∃ p c, cur = p ++ [c].
Proof. intros []; [by left|right; eauto]. Qed.

Lemma real_removelast t cur : real t cur → real t (removelast cur).
Proof.
  intros Hr. destruct (real_cases t cur Hr) as [->|(p & c & ->)]; [done|]. rewrite List.removelast_last. by apply real_inv in Hr as [? _].
Qed.

Lemma real_words t cur : real t cur → Forall (λ c, contains_char "/" c = false) cur.
Proof. induction 1; [done|]. apply Forall_app. split; [done|]. by apply Forall_singleton. Qed.

(** A walk along directories goes to where they are. *)
Lemma walk_real links t cur : real t cur → ∀ rest, walk links t false [] (cur ++ rest) = walk links t false cur rest.
Proof.
  induction 1 as [|cur c m o Hr IH Hp Hs Hn]; intros rest; [done|]. rewrite <- (assoc_L (++)), IH. cbn [app]. rewrite walk_cons.
  destruct (plain_piece_eqb c Hp) as [-> ->]. by rewrite Hn.
Qed.

Lemma Stat_real `{LinkLimit} t cur c : real t cur → plain_piece c →
  Stat false (cur ++ [c]) t = match nodes t !! (cur ++ [c]) with Some n => Ok n | None => Err FNotExist end.
Proof.
  intros Hr Hp. unfold Stat, resolve. rewrite walk_real by done. rewrite walk_cons. destruct (plain_piece_eqb c Hp) as [-> ->].
  assert (node_at t (cur ++ [c]) = nodes t !! (cur ++ [c])) as Ha by (by destruct cur).
  destruct (nodes t !! (cur ++ [c])) as [[]|] eqn:E; rewrite ?walk_nil; cbn [mbind result_bind]; by rewrite Ha, ?E.
Qed.

Lemma cut_last_sep sep a b : contains_char sep b = false → cut_last sep (a +:+ String sep b) = Some (a, b).
Proof.
  intros Hb. induction a as [|c a IH].
  - rewrite app_nil_l. cbn [cut_last]. assert (cut_last sep b = None) as ->; [|by rewrite Ascii.eqb_refl].
    clear -Hb. induction b as [|d b IH]; [done|]. rewrite contains_char_cons, orb_false_iff in Hb. destruct Hb as [Hd Hb]. cbn [cut_last].
    rewrite IH by done. rewrite Ascii.eqb_sym. by rewrite Hd.
  - rewrite app_cons. cbn [cut_last]. by rewrite IH.
Qed.

Lemma cut_last_word sep b : contains_char sep b = false → cut_last sep b = None.
Proof.
  induction b as [|d b IH]; [done|]. rewrite contains_char_cons, orb_false_iff. intros [Hd Hb]. cbn [cut_last]. rewrite IH by done.
  rewrite Ascii.eqb_sym. by rewrite Hd.
Qed.

Lemma HasSuffix_dot a b : b ≠ "" → HasSuffix (a +:+ b) "." = HasSuffix b ".".
Proof.
  intros Hb. induction a as [|c a IH]; [done|]. rewrite app_cons. cbn [HasSuffix]. rewrite IH.
  destruct (String.eqb_spec (String c (a +:+ b)) ".") as [E|]; [|done]. injection E as _ E. by destruct a, b.
Qed.

Lemma Join_snoc p c : p ≠ [] → Join "/" (p ++ [c]) = Join "/" p +:+ String "/" c.
Proof. intros Hp. rewrite Join_app by done. done. Qed.

Lemma real_plain t cur : real t cur → Forall plain_piece cur.
Proof. induction 1; [done|]. apply Forall_app. split; [done|]. by apply Forall_singleton. Qed.

Lemma Join_nonempty p : p ≠ [] → Forall plain_piece p → Join "/" p ≠ "".
Proof. destruct p as [|c [|d p]]; [done| |]; intros _ [(Hc & _) _]%Forall_cons; [done|]. rewrite Join_cons. by destruct c. Qed.

Lemma join_real t cur c : real t cur → join_piece (Join "/" cur) c = Join "/" (cur ++ [c]).
Proof.
  intros Hr. unfold join_piece. destruct cur as [|d cur]; [done|]. rewrite (proj2 (String.eqb_neq _ _)); [by rewrite Join_snoc|].
  apply Join_nonempty; [done|]. by eapply real_plain.
Qed.

Lemma up_real t cur : names_plain t → real t cur → up (Join "/" cur) = Join "/" (removelast cur).
Proof.
  intros Hn Hr. destruct (real_cases t cur Hr) as [->|(p & c & ->)]; [done|]. rewrite List.removelast_last.
  apply real_inv in Hr as (Hp & Hc & Hs & _). unfold up, dir_of. destruct (real_cases t p Hp) as [->|(q & d & ->)].
  - simpl. by rewrite cut_last_word.
  - rewrite Join_snoc by (by destruct q). rewrite cut_last_sep by done. apply TrimSuffix_none. apply real_inv in Hp as (Hq & Hd & _ & m & o & Hnd).
    assert (d ≠ "") by apply Hd. destruct q as [|e q]; [by apply (Hn [] d)|]. rewrite Join_snoc by done.
    rewrite (HasSuffix_dot _ (String "/" d)) by done. change (String "/" d) with ("/" +:+ d). rewrite HasSuffix_dot by done. by apply (Hn (e :: q) d).
Qed.

(** What the two walks have in common: where they are, and that it is a directory. *)
Definition at_dir (t : tree) (cur : list string) (here : node) : Prop := is_dir here = true → real t cur.

Definition show (a : result path_error (list string * node)) : result path_error (string * node) :=
  match a with Ok (cur, n) => Ok (Join "/" cur, n) | Err e => Err e end.

Lemma lookup_cons links t cur here part parts :
  lookup_go links t cur here (part :: parts) =
  if negb (is_dir here) then Err PNotDir
  else if String.eqb part "" || String.eqb part "." then lookup_go links t cur here parts
  else if String.eqb part ".." then lookup_go links t (removelast cur) (NDir 0 None) parts
  else
    match nodes t !! (cur ++ [part]) with
    | None => Err (PFs FNotExist)
    | Some (NLink target _) =>
        match links with
        | O => Err PLoop
        | S links => lookup_go links t (if HasPrefix target "/" then [] else cur) here (Split "/" target ++ parts)
        end
    | Some n => lookup_go links t (cur ++ [part]) n parts
    end.
Proof. by destruct links. Qed.

Lemma guest_cons `{LinkLimit} t mounts source_of links resolved mode part parts :
  guest_go t mounts source_of links resolved mode (part :: parts) =
  if negb (is_dir mode) then Err PNotDir
  else if String.eqb part "" || String.eqb part "." then guest_go t mounts source_of links resolved mode parts
  else if String.eqb part ".." then guest_go t mounts source_of links (up resolved) (NDir 0 None) parts
  else
    let next := join_piece resolved part in
    match mounts !! next with
    | Some source =>
        if String.eqb source "" then Err PMounted
        else match source_of source with Some n => guest_go t mounts source_of links next n parts | None => Err PSource end
    | None =>
        if inMount mounts resolved then Err PMounted
        else
          match Stat false (Split "/" next) t with
          | Err e => Err (PFs e)
          | Ok (NLink target _) =>
              match links with
              | O => Err PLoop
              | S links => guest_go t mounts source_of links (if HasPrefix target "/" then "" else resolved) mode (Split "/" target ++ parts)
              end
          | Ok n => guest_go t mounts source_of links next n parts
          end
    end.
Proof. by destruct links. Qed.

Lemma guest_go_agrees `{LinkLimit} t : names_plain t → ∀ links parts,
  Forall (λ p, contains_char "/" p = false) parts → ∀ cur here, at_dir t cur here →
  guest_go t ∅ (λ _, None) links (Join "/" cur) here parts = show (lookup_go links t cur here parts).
Proof.
  intros Hn. apply (walk_ind (λ links parts, Forall (λ p, contains_char "/" p = false) parts → ∀ cur here, at_dir t cur here →
    guest_go t ∅ (λ _, None) links (Join "/" cur) here parts = show (lookup_go links t cur here parts))).
  { intros l _ cur here _. by destruct l. }
  intros l c rest IH IHl [Hc Hrest]%Forall_cons cur here Ha.
  assert (∀ cur' here', at_dir t cur' here' → guest_go t ∅ (λ _, None) l (Join "/" cur') here' rest = show (lookup_go l t cur' here' rest)) as IH'
    by (intros; by apply IH).
  rewrite guest_cons, lookup_cons. destruct (is_dir here) eqn:Ed; [|done]. specialize (Ha Ed). cbn [negb].
  destruct (String.eqb c "" || String.eqb c ".") eqn:E1; [apply IH'; by intros _|].
  destruct (String.eqb_spec c "..") as [->|E2].
  { rewrite (up_real t) by done. apply IH'. intros _. by apply real_removelast. }
  assert (plain_piece c) as Hp.
  { apply orb_false_iff in E1 as [?%String.eqb_neq ?%String.eqb_neq]. by split_and!. }
  rewrite lookup_empty. assert (inMount ∅ (Join "/" cur) = false) as ->.
  { apply bool_decide_eq_false. intros (d & x & Hd & _). by rewrite lookup_empty in Hd. }
  cbn zeta. rewrite (join_real t) by done. rewrite Split_Join; [|clear; destruct cur; discriminate|apply Forall_app; split; [by eapply real_words|by apply Forall_singleton]].
  rewrite Stat_real by done. destruct (nodes t !! (cur ++ [c])) as [n|] eqn:En; [|done].
  assert (at_dir t (cur ++ [c]) n) as Hat.
  { intros Hd. destruct n as [m o| | |]; try done. by eapply real_below. }
  destruct n as [m o|target o|i|k]; try (by apply IH'). destruct l as [|l]; [done|].
  replace (if HasPrefix target "/" then "" else Join "/" cur) with (Join "/" (if HasPrefix target "/" then [] else cur)) by (by destruct (HasPrefix target "/")).
  apply IHl; [lia| |].
  - apply Forall_app. split; [apply Split_words|done].
  - intros _. destruct (HasPrefix target "/"); [constructor|done].
Qed.

(** C29: the walk the checks of a user database run finds what the guest's own lookup of the path finds: the same path, the same
    kind of entry, or the same error, for any links in the tree. No name in the tree may end in a dot: a [..] in such a directory
    is taken wrong. *)
Theorem guestPath_agrees `{LinkLimit} t rel :
  names_plain t → guestPath t ∅ (λ _, None) rel = show (guest_lookup t rel).
Proof. intros Hn. unfold guestPath, guest_lookup. apply (guest_go_agrees t Hn maxLinks (Split "/" rel) (Split_words "/" rel) [] (NDir 0 None)). intros _. constructor. Qed.

(** ** Identities *)

Lemma add_groups_spec ms : ∀ gs, NoDup gs →
  NoDup (add_groups gs ms) ∧ (∃ rest, add_groups gs ms = gs ++ rest) ∧ ∀ g, g ∈ add_groups gs ms ↔ g ∈ gs ∨ g ∈ ms.
Proof.
  induction ms as [|m ms IH]; intros gs Hg; simpl; [split_and!; [done|by exists []; rewrite (right_id_L [] (++))|set_solver]|].
  case_bool_decide as Hm.
  - destruct (IH gs Hg) as (H1 & H2 & H3). split_and!; [done|done|]. intros g. rewrite H3. set_solver.
  - assert (NoDup (gs ++ [m])) as Hnd.
    { apply NoDup_app. split_and!; [done| |by apply NoDup_singleton]. intros x Hx ->%list_elem_of_singleton. done. }
    destruct (IH (gs ++ [m]) Hnd) as (H1 & (rest & H2) & H3). split_and!; [done| |].
    + exists ([m] ++ rest). by rewrite H2, (assoc_L (++)).
    + intros g. rewrite H3. set_solver.
Qed.

(** The groups of a database whose line names a member. *)
Definition member_lines (name : string) (lines : list string) : list (list string) :=
  filter (λ f, (4 ≤ length f)%nat ∧ name ∈ Split "," (field memberField f)) (Split ":" <$> lines).

Lemma scan_members name lines : ∀ acc gs b,
  scan_lines (memberField + 1)
    (λ groups fields,
      if negb (bool_decide (name ∈ Split "," (field memberField fields))) then Ok (groups, true)
      else match parseID (field 2 fields) with None => Err (BadGID (field 0 fields)) | Some gid => Ok (groups ++ [gid], true) end) acc lines = Ok (gs, b) →
  b = true ∧ ∃ new, gs = acc ++ new ∧ Forall2 (λ f g, parseID (field 2 f) = Some g) (member_lines name lines) new.
Proof.
  unfold member_lines. induction lines as [|line lines IH]; intros acc gs b; simpl.
  { intros [= <- <-]. split; [done|]. exists []. by rewrite (right_id_L [] (++)). }
  rewrite filter_cons. destruct (Nat.ltb_spec (length (Split ":" line)) 4).
  { rewrite decide_False by (intros [? _]; lia). apply IH. }
  case_bool_decide as Hm; simpl.
  - rewrite decide_True by (split; [lia|done]). destruct (parseID _) as [g|] eqn:Eg; [|done]. intros Hs.
    destruct (IH _ _ _ Hs) as (-> & new & -> & Hnew). split; [done|]. exists (g :: new). rewrite <- (assoc_L (++)). split; [done|]. by constructor.
  - rewrite decide_False by (by intros [_ ?]). apply IH.
Qed.

Lemma scan_members_err name lines : ∀ acc e,
  scan_lines (memberField + 1)
    (λ groups fields,
      if negb (bool_decide (name ∈ Split "," (field memberField fields))) then Ok (groups, true)
      else match parseID (field 2 fields) with None => Err (BadGID (field 0 fields)) | Some gid => Ok (groups ++ [gid], true) end) acc lines = Err e →
  ∃ g, e = BadGID g.
Proof.
  induction lines as [|line lines IH]; intros acc e; simpl; [done|]. destruct (_ <? _)%nat; [apply IH|].
  destruct (negb _); [apply IH|]. destruct (parseID _); [apply IH|]. intros [= <-]. by eexists.
Qed.

(** A user resolves to the whole of it. The identity an image's databases give: the primary group first and each group once;
    a number no entry has is itself, in the root group, with no group more unless one was asked for; any other user is the entry
    it names, and its groups are its own, or the one asked for, and those of the lines of the group file that name the entry as a
    member, every one of which reads. *)
Theorem ResolveUser_whole passwd lines user id :
  ResolveUser passwd (DbLines lines true) user = Ok id →
  let '(name, grp, hasGroup) := Cut user ":" in
  ∃ entry uid gid0 memberships, lookupUser passwd name = Ok (entry, uid, gid0) ∧ UID id = uid ∧
    (if hasGroup then lookupGroup (DbLines lines true) grp = Ok (GID id) else GID id = gid0) ∧
    NoDup (Groups id) ∧ head (Groups id) = Some (GID id) ∧
    (∀ g, g ∈ Groups id ↔ g = GID id ∨ g ∈ memberships) ∧
    Forall2 (λ f g, parseID (field 2 f) = Some g) (if String.eqb entry "" then [] else member_lines entry lines) memberships.
Proof.
  unfold ResolveUser. destruct (Cut user ":") as [[name grp] hasGroup]. destruct (lookupUser passwd name) as [[[entry uid] gid0]|]; [|done].
  cbn [mbind result_bind]. destruct (if hasGroup then lookupGroup (DbLines lines true) grp else Ok gid0) as [gid|] eqn:Eg; [|done].
  cbn [mbind result_bind]. destruct (membershipsOf (DbLines lines true) entry) as [ms|] eqn:Em; [|done]. cbn [mbind result_bind]. intros [= <-].
  exists entry, uid, gid0, ms. destruct (add_groups_spec ms [gid] (NoDup_singleton gid)) as (H1 & (rest & H2) & H3). cbn [UID GID Groups]. split_and!; [done|done| |done| | |].
  - destruct hasGroup; [done|congruence].
  - by rewrite H2.
  - intros g. rewrite H3. set_solver.
  - unfold membershipsOf in Em. destruct (String.eqb entry ""); [injection Em as <-; constructor|].
    cbn [scanDatabase] in Em. destruct (scan_lines _ _ [] lines) as [[gs b]|e] eqn:Es; [|by apply scan_members_err in Es as [g ->]].
    apply scan_members in Es as (-> & new & -> & Hnew). injection Em as <-. done.
Qed.

Lemma Itoa_word n : 0 ≤ n → contains_char "," (Itoa n) = false.
Proof.
  intros Hn. apply contains_char_false. destruct (Itoa_digits n Hn) as [Hd _]. eapply all_chars_impl; [|exact Hd].
  intros d Hd'. apply negb_true_iff, Ascii.eqb_neq. intros <-. done.
Qed.

(** The set a supervisor is given on its command line reads back. *)
Theorem parseGroups_format groups : Forall (λ g, 0 ≤ g ≤ 4294967295) groups → parseGroups (formatGroups groups) = Some groups.
Proof.
  intros Hg. unfold parseGroups, formatGroups. destruct groups as [|g gs]; [done|].
  assert (∀ gs, Forall (λ g, 0 ≤ g ≤ 4294967295) gs → parse_fields (Itoa <$> gs) = Some gs) as Hp.
  { induction 1 as [|x l Hx Hl IH]; [done|]. rewrite fmap_cons. cbn [parse_fields]. rewrite IH.
    unfold parseID. rewrite parse_digits_Itoa by lia. cbn [mbind option_bind]. destruct (Z.leb_spec x 4294967295); [done|simpl in Hx; lia]. }
  rewrite (proj2 (String.eqb_neq _ _)).
  - rewrite Split_Join; [by apply Hp|done|]. apply Forall_fmap. eapply Forall_impl; [exact Hg|]. intros x [Hx _]. by apply Itoa_word.
  - apply Forall_cons in Hg as [Hg _]. destruct (Itoa_digits g (proj1 Hg)) as [_ Hne]. destruct gs as [|g' gs]; [done|].
    cbn [fmap list_fmap]. rewrite Join_cons. by destruct (Itoa g).
Qed.

(** ** Scenarios *)

Definition guest_limit : LinkLimit := 255%nat.

(** A passwd that is a link into a directory whose name ends in a dot, and back out of one below it. *)
Definition dotted : tree := MkTree
  {[ ["etc"] := NDir 493 None; ["etc"; "passwd"] := NLink "../d./x/../p" None; ["d."] := NDir 493 None; ["d."; "x"] := NDir 493 None;
     ["d."; "p"] := NOther Fifo; ["d"] := NDir 493 None; ["d"; "p"] := NFile 0 ]} ∅ 1.

(** The check passes, and what the guest's own lookup finds is a fifo. *)
Theorem dotted_passes :
  CheckPasswd (H := guest_limit) dotted = Ok tt ∧ guest_lookup dotted "etc/passwd" = Ok (["d."; "p"], NOther Fifo).
Proof. split; vm_compute; reflexivity. Qed.

Definition linked : tree := MkTree
  {[ ["etc"] := NLink "usr/etc" None; ["usr"] := NDir 493 None; ["usr"; "etc"] := NDir 493 None;
     ["usr"; "etc"; "passwd"] := NLink "/var/../usr/p" None; ["usr"; "p"] := NOther Fifo; ["var"] := NDir 493 None ]} ∅ 0.

Lemma linked_plain : names_plain linked.
Proof.
  assert (map_Forall (λ p (_ : node), HasSuffix (default "" (last p)) "." = false) (nodes linked)) as Hall.
  { apply (bool_decide_unpack _). vm_compute. exact Logic.I. }
  intros p c [n Hn]. specialize (Hall _ _ Hn). simpl in Hall. by rewrite last_snoc in Hall.
Qed.

Lemma guestPath_agrees_witness :
  guestPath (H := guest_limit) linked ∅ (λ _, None) "etc/passwd" = show (guest_lookup linked "etc/passwd") ∧
  CheckPasswd (H := guest_limit) linked = Err (DbNotRegular "etc/passwd").
Proof. split; [apply guestPath_agrees, linked_plain|vm_compute; reflexivity]. Defined.

Definition image_passwd : database := DbLines ["root:x:0:0:root:/root:/bin/sh"; "web:x:100:101:web:/srv:/bin/false"] true.
Definition image_groups : list string := ["root:x:0:root"; "web:x:101:"; "logs:x:4:web,root"; "short:x:9"; "ssl:x:102:web"; "web2:x:101:web"].

Lemma ResolveUser_whole_witness :
  ∃ entry uid gid0 memberships, lookupUser image_passwd "100" = Ok (entry, uid, gid0) ∧ 100 = uid ∧ lookupGroup (DbLines image_groups true) "ssl" = Ok 102 ∧
    NoDup [102; 4; 101] ∧ head [102; 4; 101] = Some 102 ∧ (∀ g, g ∈ [102; 4; 101] ↔ g = 102 ∨ g ∈ memberships) ∧
    Forall2 (λ f g, parseID (field 2 f) = Some g) (if String.eqb entry "" then [] else member_lines entry image_groups) memberships.
Proof. exact (ResolveUser_whole image_passwd image_groups "100:ssl" (MkIdentity 100 102 [102; 4; 101]) eq_refl). Defined.
