(* ===== verification/Forwarder.v ===== *)
(** * The forwarded ports of the host

    [services/portforward/portforward.go]: the listeners of the daemon, one per host port, and the connections each carries to its
    sandbox. The code keeps pointers to a forward in the goroutines that serve its connections, so a forward is an object of its
    own here, with a number, and the map from ports holds numbers. A listener or a connection that is closed is no longer open on
    the host; what the host answers to a bind, a close or a dial is an argument. *)

From S2P Require Import Prelude GoStrings Models.
Local Open Scope Z_scope.

(** ** State *)

(** What the host answers to a bind. *)
Inductive bind_answer : Type := Bound | InUse | Denied | BindFails.

Record forward : Type := MkForward {
  fid : string; fspec : PortForward; flistener : option nat; freason : string; fended : bool; fconns : gset nat
}.

(** Where a connection is: accepted and not yet tracked, waiting for its dial, dialed and not yet held, or carried. *)
Inductive stage : Type :=
| Accepted (f l : nat)
| Dialing (f : nat) (guest : Z)
| Dialed (f upstream : nat)
| Carried (f upstream : nat).

Record forwarder : Type := MkForwarder {
  ports : gmap Z nat;
  heap : gmap nat forward;
  listening : gmap nat (Z * bool);
  open_ : gset nat;
  serving : gmap nat stage;
  fresh_ : nat
}.

Definition New : forwarder := MkForwarder ∅ ∅ ∅ ∅ ∅ 0.

Definition set_forward (n : nat) (f : forward) (s : forwarder) : forwarder :=
  MkForwarder (ports s) (<[n := f]> (heap s)) (listening s) (open_ s) (serving s) (fresh_ s).

(** ** Listeners *)

Definition unlisten (l : option nat) (s : forwarder) : forwarder :=
  match l with
  | Some l => MkForwarder (ports s) (heap s) (delete l (listening s)) (open_ s) (serving s) (fresh_ s)
  | None => s
  end.

(** [drop]: the forward goes off the map whatever the closes answer. *)
Definition drop_port (port : Z) (s : forwarder) : forwarder :=
  match ports s !! port with
  | None => s
  | Some n =>
      match heap s !! n with
      | None => s
      | Some f =>
          let s := unlisten (flistener f) s in
          MkForwarder (delete port (ports s)) (<[n := MkForward (fid f) (fspec f) (flistener f) (freason f) true (fconns f)]> (heap s))
            (listening s) (open_ s ∖ fconns f) (serving s) (fresh_ s)
      end
  end.

(** [BindError.Public]. *)
Definition bind_reason (port : Z) (a : bind_answer) : string :=
  match a with
  | InUse => "host port " +:+ Itoa port +:+ " is in use on the host: pick another host port"
  | Denied => "host port " +:+ Itoa port +:+ " is privileged and the daemon does not run as root: pick a host port of 1024 or more"
  | _ => "the host did not listen on port " +:+ Itoa port +:+ "; the daemon log has why"
  end.

(** The host gives a port to one listener at a time. *)
Definition listens_on (port : Z) (s : forwarder) : bool := bool_decide (map_Exists (λ _ x, x.1 = port) (listening s)).

Inductive open_error : Type := OBind (a : bind_answer) | OClose.

Definition foreign (id : string) (port : Z) (s : forwarder) : bool :=
  match ports s !! port with
  | Some n => match heap s !! n with Some f => negb (String.eqb (fid f) id) | None => false end
  | None => false
  end.

(** The forward of the port, a new one where there is none. *)
Definition claim_port (id : string) (spec : PortForward) (s : forwarder) : nat * forwarder :=
  match ports s !! HostPort spec with
  | Some n => (n, s)
  | None =>
      let n := fresh_ s in
      (n, MkForwarder (<[HostPort spec := n]> (ports s)) (<[n := MkForward id spec None "" false ∅]> (heap s)) (listening s) (open_ s) (serving s) (S n))
  end.

(** The bind of a forward whose old listener is gone. *)
Definition rebind_port (a : bind_answer) (n : nat) (f : forward) (spec : PortForward) (s : forwarder) : forwarder * result open_error unit :=
  match (if listens_on (HostPort spec) s then InUse else a) with
  | Bound =>
      let l := fresh_ s in
      let s := MkForwarder (ports s) (heap s) (<[l := (HostPort spec, Public spec)]> (listening s)) (open_ s) (serving s) (S l) in
      (set_forward n (MkForward (fid f) spec (Some l) "" (fended f) (fconns f)) s, Ok tt)
  | a => (set_forward n (MkForward (fid f) spec None (bind_reason (HostPort spec) a) (fended f) (fconns f)) s, Err (OBind a))
  end.

(** [open]: whether a close on the way fails, and what the bind answers. *)
Definition open_port (close_fails : bool) (a : bind_answer) (id : string) (spec : PortForward) (s : forwarder) : forwarder * result open_error unit :=
  if foreign id (HostPort spec) s && close_fails then (drop_port (HostPort spec) s, Err OClose)
  else
    let s := if foreign id (HostPort spec) s then drop_port (HostPort spec) s else s in
    let '(n, s) := claim_port id spec s in
    match heap s !! n with
    | None => (s, Ok tt)
    | Some f =>
        if match flistener f with None => true | Some _ => negb (Bool.eqb (Public (fspec f)) (Public spec)) end then
          let s := unlisten (flistener f) s in
          if match flistener f with Some _ => close_fails | None => false end then
            (set_forward n (MkForward (fid f) spec None ("the host did not let go of port " +:+ Itoa (HostPort spec) +:+ "; the daemon log has why") (fended f) (fconns f)) s, Err OClose)
          else rebind_port a n f spec s
        else (set_forward n (MkForward (fid f) spec (flistener f) (freason f) (fended f) (fconns f)) s, Ok tt)
    end.

Definition held_by_id (id : string) (s : forwarder) (port : Z) : bool :=
  match ports s !! port with
  | Some n => match heap s !! n with Some f => String.eqb (fid f) id | None => false end
  | None => false
  end.

Definition drop_all (ps : list Z) (s : forwarder) : forwarder := foldl (λ s p, drop_port p s) s ps.

(** [Set]: what it answers is the errors that are no refusal of a bind. *)
Fixpoint open_each (answers : Z → bool * bind_answer) (id : string) (want : list PortForward) (s : forwarder) : forwarder * list open_error :=
  match want with
  | [] => (s, [])
  | spec :: want =>
      let '(close_fails, a) := answers (HostPort spec) in
      let '(s, r) := open_port close_fails a id spec s in
      let '(s, errs) := open_each answers id want s in
      (s, match r with Err OClose => OClose :: errs | _ => errs end)
  end.

Definition Set_ (answers : Z → bool * bind_answer) (id : string) (want : list PortForward) (s : forwarder) : forwarder * list open_error :=
  let gone := List.filter (λ p, held_by_id id s p && negb (bool_decide (p ∈ HostPort <$> want))) (map_to_list (ports s)).*1 in
  open_each answers id want (drop_all gone s).

(** [Close] and [CloseSandbox]. *)
Definition Close (id : string) (port : Z) (s : forwarder) : forwarder := if held_by_id id s port then drop_port port s else s.
Definition CloseSandbox (id : string) (s : forwarder) : forwarder := drop_all (List.filter (held_by_id id s) (map_to_list (ports s)).*1) s.

(** [Sandboxes] and [Status]. *)
Definition Sandboxes (s : forwarder) : list string :=
  merge_sort String.le (elements (list_to_set (omap (λ p, fid <$> heap s !! p.2) (map_to_list (ports s))) : gset string)).

Record Status : Type := MkStatus { StSandbox : string; Listening : bool; StError : string }.

Definition Status_of (port : Z) (s : forwarder) : Status :=
  match ports s !! port with
  | Some n => match heap s !! n with Some f => MkStatus (fid f) (bool_decide (is_Some (flistener f))) (freason f) | None => MkStatus "" false "" end
  | None => MkStatus "" false ""
  end.

(** ** Connections *)

Definition with_conns (g : gset nat → gset nat) (f : forward) : forward := MkForward (fid f) (fspec f) (flistener f) (freason f) (fended f) (g (fconns f)).
Definition with_reason (r : string) (f : forward) : forward := MkForward (fid f) (fspec f) (flistener f) r (fended f) (fconns f).

Definition on_forward (n : nat) (g : forward → forward) (s : forwarder) : forwarder :=
  MkForwarder (ports s) (alter g n (heap s)) (listening s) (open_ s) (serving s) (fresh_ s).

(** [note]: a reason is kept while there is a listener. *)
Definition note (r : string) (f : forward) : forward := match flistener f with None => f | Some _ => with_reason r f end.

(** [unreached]. *)
Inductive dial_answer : Type := Reached | ConnRefused | Unsupported | DialFails.

Definition unreached (guest : Z) (a : dial_answer) : string :=
  match a with
  | ConnRefused => "nothing listens on 127.0.0.1:" +:+ Itoa guest +:+ " in the sandbox"
  | Unsupported => "the sandbox runs a shard-init from before port forwards: stop and start it"
  | _ => "the last connection did not reach port " +:+ Itoa guest +:+ " in the sandbox; the daemon log has why"
  end.

Definition close_conn (c : nat) (s : forwarder) : forwarder := MkForwarder (ports s) (heap s) (listening s) (open_ s ∖ {[c]}) (serving s) (fresh_ s).
Definition open_conn (s : forwarder) : nat * forwarder :=
  (fresh_ s, MkForwarder (ports s) (heap s) (listening s) ({[fresh_ s]} ∪ open_ s) (serving s) (S (fresh_ s))).
Definition set_stage (c : nat) (g : stage) (s : forwarder) : forwarder := MkForwarder (ports s) (heap s) (listening s) (open_ s) (<[c := g]> (serving s)) (fresh_ s).
Definition end_stage (c : nat) (s : forwarder) : forwarder := MkForwarder (ports s) (heap s) (listening s) (open_ s) (delete c (serving s)) (fresh_ s).

Inductive event : Type :=
| Opens (close_fails : bool) (a : bind_answer) (id : string) (spec : PortForward)
| Sets (answers : Z → bool * bind_answer) (id : string) (want : list PortForward)
| Closes (id : string) (port : Z)
| ClosesSandbox (id : string)
| Arrives (n l : nat)
| AcceptFails (n : nat)
| Tracks (c : nat)
| Dials (c : nat) (a : dial_answer)
| Holds (c : nat)
| Ends (c : nat).

(** One call, or one step of [accept] or [serve]. *)
Definition happens (e : event) (s : forwarder) : forwarder :=
  match e with
  | Opens cf a id spec => (open_port cf a id spec s).1
  | Sets answers id want => (Set_ answers id want s).1
  | Closes id port => Close id port s
  | ClosesSandbox id => CloseSandbox id s
  | Arrives n l =>
      (* the accept loop of a listener that is open holds the forward it was bound for *)
      match listening s !! l, heap s !! n with
      | Some _, Some f => if bool_decide (flistener f = Some l) then let '(c, s) := open_conn s in set_stage c (Accepted n l) s else s
      | _, _ => s
      end
  | AcceptFails n =>
      on_forward n (λ f, note ("the host refused a connection to port " +:+ Itoa (HostPort (fspec f)) +:+ "; the daemon log has why") f) s
  | Tracks c =>
      match serving s !! c with
      | Some (Accepted n l) =>
          match heap s !! n with
          | Some f =>
              if bool_decide (flistener f = Some l)
              then set_stage c (Dialing n (GuestPort (fspec f))) (on_forward n (with_conns (λ k, {[c]} ∪ k)) s)
              else end_stage c (close_conn c s)
          | None => s
          end
      | _ => s
      end
  | Dials c a =>
      match serving s !! c with
      | Some (Dialing n guest) =>
          match a with
          | Reached => let '(u, s) := open_conn s in set_stage c (Dialed n u) s
          | a => end_stage c (on_forward n (with_conns (λ k, k ∖ {[c]})) (close_conn c (on_forward n (note (unreached guest a)) s)))
          end
      | _ => s
      end
  | Holds c =>
      match serving s !! c with
      | Some (Dialed n u) =>
          match heap s !! n with
          | Some f =>
              if fended f then end_stage c (on_forward n (with_conns (λ k, k ∖ {[c]})) (close_conn u s))
              else set_stage c (Carried n u) (on_forward n (note "") (on_forward n (with_conns (λ k, {[u]} ∪ k)) s))
          | None => s
          end
      | _ => s
      end
  | Ends c =>
      match serving s !! c with
      | Some (Carried n u) => end_stage c (on_forward n (with_conns (λ k, k ∖ {[c]} ∖ {[u]})) (close_conn u (close_conn c s)))
      | _ => s
      end
  end.

Definition after (es : list event) (s : forwarder) : forwarder := foldl (λ s e, happens e s) s es.

(** ** Theorems *)

Definition upstream_of (g : stage) : option nat := match g with Dialed _ u | Carried _ u => Some u | _ => None end.

Record sound (s : forwarder) : Prop := MkSound {
  k_ports : ∀ p n, ports s !! p = Some n → ∃ f, heap s !! n = Some f ∧ fended f = false ∧ HostPort (fspec f) = p;
  k_live : ∀ n f, heap s !! n = Some f → fended f = false → ports s !! HostPort (fspec f) = Some n;
  k_listens : ∀ l p pub, listening s !! l = Some (p, pub) →
    ∃ n f, ports s !! p = Some n ∧ heap s !! n = Some f ∧ flistener f = Some l ∧ Public (fspec f) = pub;
  k_bound : ∀ n f l, heap s !! n = Some f → fended f = false → flistener f = Some l → listening s !! l = Some (HostPort (fspec f), Public (fspec f));
  k_heap : ∀ n, is_Some (heap s !! n) → (n < fresh_ s)%nat;
  k_lids : ∀ l, is_Some (listening s !! l) → (l < fresh_ s)%nat;
  k_clients : ∀ c, is_Some (serving s !! c) → (c < fresh_ s)%nat;
  k_ups : ∀ c g u, serving s !! c = Some g → upstream_of g = Some u → (u < fresh_ s)%nat ∧ serving s !! u = None;
  k_apart : ∀ c c' g g' u, serving s !! c = Some g → serving s !! c' = Some g' → upstream_of g = Some u → upstream_of g' = Some u → c = c';
  k_carried : ∀ c n u, serving s !! c = Some (Carried n u) →
    ∃ f, heap s !! n = Some f ∧ (fended f = false → u ∈ fconns f) ∧ (fended f = true → u ∉ open_ s)
}.

Lemma New_sound : sound New.
Proof. constructor; intros *; cbn [New ports heap listening open_ serving fresh_]; rewrite ?lookup_empty; first [by intros []|done|by intros [=]]. Qed.

Definition ended (f : forward) : forward := MkForward (fid f) (fspec f) (flistener f) (freason f) true (fconns f).

Lemma unlisten_lookup l s k x : listening (unlisten l s) !! k = Some x ↔ listening s !! k = Some x ∧ l ≠ Some k.
Proof.
  destruct l as [l|]; simpl; [rewrite lookup_delete_Some; naive_solver|]. split; [by intros ?|by intros [? _]].
Qed.

Lemma drop_eq port s : sound s →
  drop_port port s = s ∧ ports s !! port = None ∨
  ∃ n f, ports s !! port = Some n ∧ heap s !! n = Some f ∧ fended f = false ∧ HostPort (fspec f) = port ∧
    drop_port port s = MkForwarder (delete port (ports s)) (<[n := ended f]> (heap s)) (listening (unlisten (flistener f) s)) (open_ s ∖ fconns f) (serving s) (fresh_ s).
Proof.
  intros Hs. unfold drop_port. destruct (ports s !! port) as [n|] eqn:Ep; [|by left]. destruct (k_ports s Hs port n Ep) as (f & Hf & He & Hp).
  rewrite Hf. right. exists n, f. split_and!; try done. unfold ended. by destruct (flistener f).
Qed.

Lemma drop_sound port s : sound s → sound (drop_port port s).
Proof.
  intros Hs. destruct (drop_eq port s Hs) as [[-> _]|(n & f & Hp & Hf & He & Hport & ->)]; [done|]. pose proof Hs as [K1 K2 K3 K4 K5 K6 K7 K8 K9 K10].
  constructor; cbn [ports heap listening open_ serving fresh_].
  - intros p m [Hne Hm]%lookup_delete_Some. destruct (K1 p m Hm) as (g & Hg & Hge & Hgp). exists g. rewrite lookup_insert_ne; [done|]. intros <-. congruence.
  - intros m g [[<- <-]|[Hne Hg]]%lookup_insert_Some; [done|]. intros Hge. pose proof (K2 m g Hg Hge) as Hm. rewrite lookup_delete_ne; [done|]. intros E. congruence.
  - intros l p pub [Hl Hnl]%unlisten_lookup. destruct (K3 l p pub Hl) as (m & g & Hm & Hg & Hgl & Hpub).
    assert (m ≠ n) as Hmn by (intros ->; congruence). exists m, g. rewrite lookup_insert_ne by done. split_and!; try done.
    rewrite lookup_delete_ne; [done|]. intros <-. congruence.
  - intros m g l [[<- <-]|[Hne Hg]]%lookup_insert_Some; [done|]. intros Hge Hl. apply unlisten_lookup. pose proof (K4 m g l Hg Hge Hl) as Hx.
    split; [done|]. intros Hfl. pose proof (K4 n f l Hf He Hfl) as Hy. rewrite Hx in Hy. injection Hy as Hy _. pose proof (K2 m g Hg Hge). congruence.
  - intros m Hm. apply K5. destruct (decide (m = n)) as [->|]; [by rewrite Hf|]. by rewrite lookup_insert_ne in Hm.
  - intros l [x Hx]. apply unlisten_lookup in Hx as [Hx _]. apply K6. by eexists.
  - done.
  - done.
  - done.
  - intros c m u Hc. destruct (K10 c m u Hc) as (g & Hg & Hc1 & Hc2). destruct (decide (m = n)) as [->|Hmn].
    + exists (ended f). rewrite lookup_insert_eq. split_and!; [done|done|]. intros _. assert (g = f) as -> by congruence. specialize (Hc1 He). set_solver.
    + exists g. rewrite lookup_insert_ne by done. split_and!; [done|done|]. intros Hge. specialize (Hc2 Hge). set_solver.
Qed.

Lemma drop_ports port s : sound s → ∀ p, ports (drop_port port s) !! p = if decide (port = p) then None else ports s !! p.
Proof.
  intros Hs p. destruct (drop_eq port s Hs) as [[-> Hn]|(n & f & Hp & Hf & He & Hport & ->)]; cbn [ports].
  - by destruct (decide (port = p)) as [<-|].
  - destruct (decide (port = p)) as [<-|Hne]; [by rewrite lookup_delete_eq|by rewrite lookup_delete_ne].
Qed.

(** A forward is of one sandbox for good. *)
Lemma drop_ids port s : sound s → ∀ n, fid <$> heap (drop_port port s) !! n = fid <$> heap s !! n.
Proof.
  intros Hs n. destruct (drop_eq port s Hs) as [[-> Hn]|(m & f & Hp & Hf & He & Hport & ->)]; [done|]. cbn [heap].
  destruct (decide (m = n)) as [<-|Hne]; [by rewrite lookup_insert_eq, Hf|by rewrite lookup_insert_ne].
Qed.

Lemma claim_sound id spec s n s' :
  sound s → claim_port id spec s = (n, s') →
  sound s' ∧ (foreign id (HostPort spec) s = false → ∃ f, heap s' !! n = Some f ∧ fid f = id ∧ fended f = false ∧ HostPort (fspec f) = HostPort spec).
Proof.
  intros Hs. unfold claim_port, foreign. destruct (ports s !! HostPort spec) as [m|] eqn:Ep; intros [= <- <-].
  - split; [done|]. destruct (k_ports s Hs _ _ Ep) as (f & Hf & He & Hp). rewrite Hf. intros Hfor. exists f. split_and!; try done.
    apply negb_false_iff, String.eqb_eq in Hfor. done.
  - pose proof Hs as [K1 K2 K3 K4 K5 K6 K7 K8 K9 K10]. assert (heap s !! fresh_ s = None) as Hfresh.
    { apply eq_None_not_Some. intros Hx%K5. lia. }
    split; [|intros _; eexists; cbn [heap]; rewrite lookup_insert_eq; by split_and!].
    constructor; cbn [ports heap listening open_ serving fresh_].
    + intros p m [[<- <-]|[Hne Hm]]%lookup_insert_Some; [eexists; by rewrite lookup_insert_eq|]. destruct (K1 p m Hm) as (g & Hg & ?). exists g.
      rewrite lookup_insert_ne; [done|]. intros <-. congruence.
    + intros m g [[<- <-]|[Hne Hg]]%lookup_insert_Some; [intros _; apply lookup_insert_eq|]. intros Hge. pose proof (K2 m g Hg Hge) as Hm.
      rewrite lookup_insert_ne; [done|]. intros E. congruence.
    + intros l p pub Hl. destruct (K3 l p pub Hl) as (m & g & Hm & Hg & ?). exists m, g. rewrite !lookup_insert_ne; [done|intros <-; congruence|intros <-; congruence].
    + intros m g l [[<- <-]|[Hne Hg]]%lookup_insert_Some; [done|]. by apply (K4 m g l).
    + intros m [x [[<- _]|[_ Hx]]%lookup_insert_Some]; [lia|]. specialize (K5 m ltac:(by eexists)). lia.
    + intros l Hl. specialize (K6 l Hl). lia.
    + intros c Hc. specialize (K7 c Hc). lia.
    + intros c g u Hc Hu. destruct (K8 c g u Hc Hu). split; [lia|done].
    + exact K9.
    + intros c m u Hc. destruct (K10 c m u Hc) as (g & Hg & ?). exists g. rewrite lookup_insert_ne; [done|]. intros <-. congruence.
Qed.

(** The forward of a port, with the spec it is asked for and the listener it then has. *)
Lemma update_sound s n f spec l' r m' fresh' :
  sound s → heap s !! n = Some f → fended f = false → HostPort (fspec f) = HostPort spec →
  (∀ l x, m' !! l = Some x ↔ l' = Some l ∧ x = (HostPort spec, Public spec) ∨ listening s !! l = Some x ∧ flistener f ≠ Some l) →
  (∀ l, is_Some (m' !! l) → (l < fresh')%nat) → (fresh_ s ≤ fresh')%nat →
  sound (MkForwarder (ports s) (<[n := MkForward (fid f) spec l' r (fended f) (fconns f)]> (heap s)) m' (open_ s) (serving s) fresh').
Proof.
  intros [K1 K2 K3 K4 K5 K6 K7 K8 K9 K10] Hf He Hp Hm Hml Hfr. constructor; cbn [ports heap listening open_ serving fresh_].
  - intros p m Hpm. destruct (K1 p m Hpm) as (g & Hg & Hge & Hgp). destruct (decide (n = m)) as [<-|Hne].
    + eexists. rewrite lookup_insert_eq. split_and!; [done|done|]. cbn. congruence.
    + exists g. by rewrite lookup_insert_ne.
  - intros m g [[<- <-]|[Hne Hg]]%lookup_insert_Some; cbn; [|by apply K2]. intros _. rewrite <- Hp. by apply K2.
  - intros l p pub [[-> [= -> ->]]|[Hl Hnl]]%Hm.
    + exists n. eexists. rewrite lookup_insert_eq. split_and!; try done. rewrite <- Hp. by apply K2.
    + destruct (K3 l p pub Hl) as (m & g & Hpm & Hg & Hgl & Hpub). exists m, g. rewrite lookup_insert_ne; [done|]. intros <-. congruence.
  - intros m g l [[<- <-]|[Hne Hg]]%lookup_insert_Some; cbn; intros Hge Hl; apply Hm; [by left|]. right. split; [by apply (K4 m g l)|]. intros Hfl.
    pose proof (K4 m g l Hg Hge Hl) as Hx. pose proof (K4 n f l Hf He Hfl) as Hy. rewrite Hx in Hy. injection Hy as Hy _.
    pose proof (K2 m g Hg Hge). pose proof (K2 n f Hf He). congruence.
  - intros m Hx. assert (is_Some (heap s !! m)) as Hy%K5; [|lia]. destruct (decide (n = m)) as [<-|]; [by rewrite Hf|]. by rewrite lookup_insert_ne in Hx.
  - done.
  - intros c Hc. specialize (K7 c Hc). lia.
  - intros c g u Hc Hu. destruct (K8 c g u Hc Hu). split; [lia|done].
  - exact K9.
  - intros c m u Hc. destruct (K10 c m u Hc) as (g & Hg & Hc1 & Hc2). destruct (decide (n = m)) as [<-|Hne].
    + eexists. rewrite lookup_insert_eq. split_and!; [done| |]; cbn; assert (g = f) as -> by congruence; done.
    + exists g. by rewrite lookup_insert_ne.
Qed.

Lemma rebind_sound a n f spec s :
  sound s → heap s !! n = Some f → fended f = false → HostPort (fspec f) = HostPort spec →
  sound (rebind_port a n f spec (unlisten (flistener f) s)).1.
Proof.
  intros Hs Hf He Hp.
  assert (∀ r, sound (set_forward n (MkForward (fid f) spec None r (fended f) (fconns f)) (unlisten (flistener f) s))) as Hno.
  { intros r. pose proof (update_sound s n f spec None r (listening (unlisten (flistener f) s)) (fresh_ s) Hs Hf He Hp) as Hu.
    unfold set_forward. destruct (flistener f) as [l|] eqn:El; apply Hu; try done.
    - intros k x. rewrite unlisten_lookup. naive_solver.
    - intros k [x [Hx _]%unlisten_lookup]. apply (k_lids s Hs). by eexists.
    - intros k x. rewrite unlisten_lookup. naive_solver.
    - apply (k_lids s Hs). }
  unfold rebind_port. destruct (if listens_on _ _ then InUse else a); try apply Hno. cbn [fst].
  assert (fresh_ (unlisten (flistener f) s) = fresh_ s) as Efr by (by destruct (flistener f)).
  pose proof (update_sound s n f spec (Some (fresh_ s)) "" (<[fresh_ s := (HostPort spec, Public spec)]> (listening (unlisten (flistener f) s))) (S (fresh_ s)) Hs Hf He Hp) as Hu.
  rewrite Efr. unfold set_forward. cbn [ports heap listening open_ serving fresh_].
  assert (ports (unlisten (flistener f) s) = ports s ∧ heap (unlisten (flistener f) s) = heap s ∧ open_ (unlisten (flistener f) s) = open_ s ∧ serving (unlisten (flistener f) s) = serving s)
    as (-> & -> & -> & ->) by (by destruct (flistener f)).
  apply Hu; [| |lia].
  - intros k x. rewrite lookup_insert_Some, unlisten_lookup. split; [naive_solver|]. intros [[[= ->] ->]|[Hk Hfl]]; [by left|]. right. split; [|done].
    intros <-. pose proof (k_lids s Hs (fresh_ s) ltac:(by eexists)). lia.
  - intros k [x [[<- _]|[_ [Hx _]%unlisten_lookup]]%lookup_insert_Some]; [lia|]. pose proof (k_lids s Hs k ltac:(by eexists)). lia.
Qed.

Lemma open_sound cf a id spec s : sound s → sound (open_port cf a id spec s).1.
Proof.
  intros Hs. unfold open_port. destruct (foreign id (HostPort spec) s && cf) eqn:Ec; [by apply drop_sound|]. cbn zeta.
  set (s1 := if foreign id (HostPort spec) s then drop_port (HostPort spec) s else s).
  assert (sound s1 ∧ foreign id (HostPort spec) s1 = false) as [Hs1 Hf1].
  { unfold s1. destruct (foreign id (HostPort spec) s) eqn:Ef; [|done]. split; [by apply drop_sound|]. unfold foreign. rewrite drop_ports by done.
    by rewrite decide_True. }
  destruct (claim_port id spec s1) as [n s2] eqn:Ecl. destruct (claim_sound id spec s1 n s2 Hs1 Ecl) as [Hs2 Hfw].
  destruct (Hfw Hf1) as (f & Hf & Hid & He & Hp). rewrite Hf. destruct (match flistener f with None => true | Some _ => _ end) eqn:Er.
  - destruct (match flistener f with Some _ => cf | None => false end) eqn:Ecf; [|by apply rebind_sound].
    destruct (flistener f) as [l|] eqn:El; [|done]. cbn [fst]. apply (update_sound s2 n f spec None _ (delete l (listening s2)) (fresh_ s2)); try done.
    + intros k x. rewrite lookup_delete_Some, El. naive_solver.
    + intros k [x [_ Hx]%lookup_delete_Some]. apply (k_lids s2 Hs2). by eexists.
  - cbn [fst]. apply (update_sound s2 n f spec (flistener f) (freason f) (listening s2) (fresh_ s2)); try done; [|apply (k_lids s2 Hs2)].
    destruct (flistener f) as [l|] eqn:El; [|done]. apply negb_false_iff, Bool.eqb_prop in Er. pose proof (k_bound s2 Hs2 n f l Hf He El) as Hb. rewrite Hp, Er in Hb.
    intros k x. split; [|naive_solver]. intros Hk. destruct (decide (k = l)) as [->|Hne]; [left; split; [done|congruence]|]. right. split; [done|congruence].
Qed.

(** A step of a connection: the forwards keep what they are, but for their connections and their reasons. *)
Definition same_forward (f g : forward) : Prop := fid g = fid f ∧ fspec g = fspec f ∧ flistener g = flistener f ∧ fended g = fended f.

Lemma conn_sound s h' o' v' fresh' :
  sound s → (∀ n g, h' !! n = Some g → ∃ f, heap s !! n = Some f ∧ same_forward f g) → (∀ n f, heap s !! n = Some f → ∃ g, h' !! n = Some g ∧ same_forward f g) →
  (fresh_ s ≤ fresh')%nat →
  (∀ c, is_Some (v' !! c) → (c < fresh')%nat) →
  (∀ c g u, v' !! c = Some g → upstream_of g = Some u → (u < fresh')%nat ∧ v' !! u = None) →
  (∀ c c' g g' u, v' !! c = Some g → v' !! c' = Some g' → upstream_of g = Some u → upstream_of g' = Some u → c = c') →
  (∀ c n u, v' !! c = Some (Carried n u) → ∃ f, h' !! n = Some f ∧ (fended f = false → u ∈ fconns f) ∧ (fended f = true → u ∉ o')) →
  sound (MkForwarder (ports s) h' (listening s) o' v' fresh').
Proof.
  intros [K1 K2 K3 K4 K5 K6 K7 K8 K9 K10] Hb Hf Hfr H7 H8 H9 H10. constructor; cbn [ports heap listening open_ serving fresh_]; try done.
  - intros p n Hp. destruct (K1 p n Hp) as (f & Hn & He & Hq). destruct (Hf n f Hn) as (g & Hg & _ & Es & _ & Ee). exists g. rewrite Es, Ee. done.
  - intros n g Hg. destruct (Hb n g Hg) as (f & Hn & _ & Es & _ & Ee). rewrite Es, Ee. by apply K2.
  - intros l p pub Hl. destruct (K3 l p pub Hl) as (n & f & Hp & Hn & Hfl & Hpub). destruct (Hf n f Hn) as (g & Hg & _ & Es & El & _). exists n, g. rewrite Es, El. done.
  - intros n g l Hg. destruct (Hb n g Hg) as (f & Hn & _ & Es & El & Ee). rewrite Es, El, Ee. by apply (K4 n f l).
  - intros n [g Hg]. destruct (Hb n g Hg) as (f & Hn & _). specialize (K5 n ltac:(by eexists)). lia.
  - intros l Hl. specialize (K6 l Hl). lia.
Qed.

Lemma same_refl f : same_forward f f.
Proof. done. Qed.

Lemma alter_same g n (h : gmap nat forward) : (∀ f, same_forward f (g f)) →
  (∀ m x, alter g n h !! m = Some x → ∃ f, h !! m = Some f ∧ same_forward f x) ∧ (∀ m f, h !! m = Some f → ∃ x, alter g n h !! m = Some x ∧ same_forward f x).
Proof.
  intros Hg. split.
  - intros m x. destruct (decide (n = m)) as [<-|Hne].
    + rewrite lookup_alter_eq. destruct (h !! n) as [f|]; [|done]. intros [= <-]. by exists f.
    + rewrite lookup_alter_ne by done. intros Hx. by exists x.
  - intros m f Hm. destruct (decide (n = m)) as [<-|Hne].
    + rewrite lookup_alter_eq, Hm. by exists (g f).
    + rewrite lookup_alter_ne by done. by exists f.
Qed.

Lemma note_same r f : same_forward f (note r f).
Proof. unfold note. by destruct (flistener f). Qed.

Lemma same_trans f g h : same_forward f g → same_forward g h → same_forward f h.
Proof. unfold same_forward. intros (-> & -> & -> & ->) (? & ? & ? & ?). done. Qed.

(** What [k_carried] asks of a forward whose connections are changed but for those carried. *)
Lemma carried_alter (h : gmap nat forward) g n (o o' : gset nat) u m :
  (∀ f, fended (g f) = fended f) → (∀ f, u ∈ fconns f → u ∈ fconns (g f)) → (u ∈ o' → u ∈ o) →
  (∃ f, h !! m = Some f ∧ (fended f = false → u ∈ fconns f) ∧ (fended f = true → u ∉ o)) →
  ∃ f, alter g n h !! m = Some f ∧ (fended f = false → u ∈ fconns f) ∧ (fended f = true → u ∉ o').
Proof.
  intros He Hc Ho (f & Hf & H1 & H2). destruct (decide (n = m)) as [<-|Hne].
  - exists (g f). rewrite lookup_alter_eq, Hf, He. split_and!; [done| |]; intros Hx; [by apply Hc, H1|]. intros Hu. by apply (H2 Hx), Ho.
  - exists f. rewrite lookup_alter_ne by done. split_and!; [done|done|]. intros Hx Hu. by apply (H2 Hx), Ho.
Qed.

Lemma arrives_sound n l s : sound s → sound (happens (Arrives n l) s).
Proof.
  intros Hs. cbn [happens]. destruct (listening s !! l); [|done]. destruct (heap s !! n) as [f|]; [|done]. case_bool_decide; [|done].
  pose proof Hs as [K1 K2 K3 K4 K5 K6 K7 K8 K9 K10]. unfold open_conn, set_stage. cbn [ports heap listening open_ serving fresh_]. apply (conn_sound s); [done|intros m g Hg; by exists g|intros m g Hg; by exists g|lia| | | |].
  - intros c [x [[<- _]|[_ Hx]]%lookup_insert_Some]; [lia|]. specialize (K7 c ltac:(by eexists)). lia.
  - intros c g u [[<- <-]|[Hne Hc]]%lookup_insert_Some Hu; [done|]. destruct (K8 c g u Hc Hu) as [Hlt Hn]. split; [lia|]. rewrite lookup_insert_ne by lia. done.
  - intros c c' g g' u [[<- <-]|[Hne Hc]]%lookup_insert_Some; [done|]. intros [[<- <-]|[Hne' Hc']]%lookup_insert_Some; [done|]. by apply (K9 c c' g g' u).
  - intros c m u [[<- [=]]|[Hne Hc]]%lookup_insert_Some. destruct (K10 c m u Hc) as (x & Hx & H1 & H2). exists x. split_and!; [done|done|]. intros He.
    destruct (K8 c _ u Hc eq_refl). specialize (H2 He). rewrite elem_of_union, elem_of_singleton. intros [->|?]; [lia|done].
Qed.

Lemma stage_sound s h' o' c g :
  sound s → is_Some (serving s !! c) →
  (∀ n x, h' !! n = Some x → ∃ f, heap s !! n = Some f ∧ same_forward f x) → (∀ n f, heap s !! n = Some f → ∃ x, h' !! n = Some x ∧ same_forward f x) →
  (match g with Some (Dialed _ _) => False | Some g => ∃ g0, serving s !! c = Some g0 ∧ ∀ u, upstream_of g = Some u → upstream_of g0 = Some u | None => True end) →
  (∀ c' n u, (if decide (c = c') then g = Some (Carried n u) else serving s !! c' = Some (Carried n u)) →
     ∃ f, h' !! n = Some f ∧ (fended f = false → u ∈ fconns f) ∧ (fended f = true → u ∉ o')) →
  sound (MkForwarder (ports s) h' (listening s) o' (partial_alter (λ _, g) c (serving s)) (fresh_ s)).
Proof.
  intros Hs Hc Hb Hf Hg H10. pose proof Hs as [_ _ _ _ _ _ K7 K8 K9 _].
  assert (∀ c' x u, partial_alter (λ _, g) c (serving s) !! c' = Some x → upstream_of x = Some u → ∃ x0, serving s !! c' = Some x0 ∧ upstream_of x0 = Some u) as Hsub.
  { intros c' x u. destruct (decide (c = c')) as [<-|Hne].
    - rewrite lookup_partial_alter_eq. intros -> Hu. destruct x; try done; destruct Hg as (g0 & Hg0 & Hgu); exists g0; auto.
    - rewrite lookup_partial_alter_ne by done. intros Hx Hu. by exists x. }
  apply (conn_sound s); [done|done|done|done| | | |].
  - intros c' Hx. apply K7. destruct (decide (c = c')) as [<-|Hne]; [done|]. by rewrite lookup_partial_alter_ne in Hx.
  - intros c' x u Hx Hu. destruct (Hsub c' x u Hx Hu) as (x0 & Hx0 & Hu0). destruct (K8 c' x0 u Hx0 Hu0) as [Hlt Hn]. split; [done|].
    rewrite lookup_partial_alter_ne; [done|]. intros ->. by rewrite Hn in Hc; destruct Hc.
  - intros c1 c2 x1 x2 u Hx1 Hx2 Hu1 Hu2. destruct (Hsub c1 x1 u Hx1 Hu1) as (y1 & Hy1 & Hv1). destruct (Hsub c2 x2 u Hx2 Hu2) as (y2 & Hy2 & Hv2).
    by apply (K9 c1 c2 y1 y2 u).
  - intros c' n u Hx. apply (H10 c'). destruct (decide (c = c')) as [<-|Hne]; [by rewrite lookup_partial_alter_eq in Hx|by rewrite lookup_partial_alter_ne in Hx].
Qed.

Lemma set_stage_alter c g s : set_stage c g s = MkForwarder (ports s) (heap s) (listening s) (open_ s) (partial_alter (λ _, Some g) c (serving s)) (fresh_ s).
Proof. done. Qed.

Lemma end_stage_alter c s : end_stage c s = MkForwarder (ports s) (heap s) (listening s) (open_ s) (partial_alter (λ _, None) c (serving s)) (fresh_ s).
Proof. done. Qed.

Lemma conns_same g f : same_forward f (with_conns g f).
Proof. done. Qed.

(** Another connection's upstream end is neither end of this one. *)
Lemma ups_apart s c c' g n u : sound s → serving s !! c = Some g → serving s !! c' = Some (Carried n u) → c ≠ c' → u ≠ c ∧ upstream_of g ≠ Some u.
Proof.
  intros Hs Hc Hc' Hne. destruct (k_ups s Hs c' _ u Hc' eq_refl) as [_ Hn]. split; [intros ->; congruence|].
  intros Hu. apply Hne. by apply (k_apart s Hs c c' g (Carried n u) u).
Qed.

Lemma tracks_sound c s : sound s → sound (happens (Tracks c) s).
Proof.
  intros Hs. cbn [happens]. destruct (serving s !! c) as [[n l| | |]|] eqn:Ec; try done. destruct (heap s !! n) as [f|] eqn:Ef; [|done].
  case_bool_decide as Hl.
  - rewrite set_stage_alter. unfold on_forward. cbn [ports heap listening open_ serving fresh_].
    destruct (alter_same (with_conns (λ k, {[c]} ∪ k)) n (heap s) (conns_same _)) as [Ha Hb].
    apply stage_sound; [done|by rewrite Ec|done|done|by exists (Accepted n l)|]. intros c' m u. destruct (decide (c = c')) as [<-|Hne]; [done|]. intros Hc'.
    apply (carried_alter _ _ _ (open_ s)); [done|cbn; set_solver|done|by apply (k_carried s Hs c')].
  - rewrite end_stage_alter. unfold close_conn. cbn [ports heap listening open_ serving fresh_].
    apply stage_sound; [done|by rewrite Ec|intros m g Hg; by exists g|intros m g Hg; by exists g|done|]. intros c' m u. destruct (decide (c = c')) as [<-|Hne]; [done|]. intros Hc'.
    destruct (k_carried s Hs c' m u Hc') as (x & Hx & H1 & H2). exists x. split_and!; [done|done|]. intros He. specialize (H2 He). set_solver.
Qed.

Lemma dials_sound c a s : sound s → sound (happens (Dials c a) s).
Proof.
  intros Hs. cbn [happens]. destruct (serving s !! c) as [[|n guest| |]|] eqn:Ec; try done.
  assert (∀ r, sound (end_stage c (on_forward n (with_conns (λ k, k ∖ {[c]})) (close_conn c (on_forward n (note r) s))))) as Hfail.
  { intros r. rewrite end_stage_alter. unfold on_forward, close_conn. cbn [ports heap listening open_ serving fresh_].
    destruct (alter_same (note r) n (heap s) (note_same r)) as [Ha Hb].
    destruct (alter_same (with_conns (λ k, k ∖ {[c]})) n (alter (note r) n (heap s)) (conns_same _)) as [Ha2 Hb2].
    apply stage_sound; [done|by rewrite Ec| | |done|].
    - intros m x Hx. destruct (Ha2 m x Hx) as (y & Hy & Hxy). destruct (Ha m y Hy) as (z & Hz & Hyz). exists z. split; [done|by eapply same_trans].
    - intros m x Hx. destruct (Hb m x Hx) as (y & Hy & Hxy). destruct (Hb2 m y Hy) as (z & Hz & Hyz). exists z. split; [done|by eapply same_trans].
    - intros c' m u. destruct (decide (c = c')) as [<-|Hne]; [done|]. intros Hc'. destruct (ups_apart s c c' _ m u Hs Ec Hc' Hne) as [Hu _].
      apply (carried_alter _ _ _ (open_ s)); [done|cbn; set_solver|set_solver|].
      apply (carried_alter _ _ _ (open_ s)); [intros f; by destruct (note_same r f) as (_ & _ & _ & ?)|intros f; unfold note; by destruct (flistener f)|done|by apply (k_carried s Hs c')]. }
  destruct a; try apply Hfail. unfold open_conn. rewrite set_stage_alter. cbn [ports heap listening open_ serving fresh_]. pose proof Hs as [_ _ _ _ _ _ K7 K8 K9 K10].
  assert (serving s !! fresh_ s = None) as Hfresh by (apply eq_None_not_Some; intros Hx%K7; lia). pose proof (K7 c ltac:(by rewrite Ec)) as Hcl.
  apply (conn_sound s); [done|intros m g Hg; by exists g|intros m g Hg; by exists g|lia| | | |].
  - intros c' Hx. destruct (decide (c = c')) as [<-|Hne]; [lia|]. rewrite lookup_partial_alter_ne in Hx by done. specialize (K7 c' Hx). lia.
  - intros c' g u. destruct (decide (c = c')) as [<-|Hne].
    + rewrite lookup_partial_alter_eq. intros [= <-] [= <-]. split; [lia|]. rewrite lookup_partial_alter_ne by lia. done.
    + rewrite lookup_partial_alter_ne by done. intros Hc' Hu. destruct (K8 c' g u Hc' Hu) as [Hlt Hn]. split; [lia|].
      rewrite lookup_partial_alter_ne; [done|]. intros ->. congruence.
  - intros c1 c2 g1 g2 u H1 H2 Hu1 Hu2. destruct (decide (c = c1)) as [<-|N1], (decide (c = c2)) as [<-|N2]; [done| | |].
    + rewrite lookup_partial_alter_eq in H1. rewrite lookup_partial_alter_ne in H2 by done. simplify_eq/=. destruct (K8 c2 g2 _ H2 Hu2). lia.
    + rewrite lookup_partial_alter_eq in H2. rewrite lookup_partial_alter_ne in H1 by done. simplify_eq/=. destruct (K8 c1 g1 _ H1 Hu1). lia.
    + rewrite lookup_partial_alter_ne in H1, H2 by done. by apply (K9 c1 c2 g1 g2 u).
  - intros c' m u. destruct (decide (c = c')) as [<-|Hne]; [by rewrite lookup_partial_alter_eq|]. rewrite lookup_partial_alter_ne by done. intros Hc'.
    destruct (K10 c' m u Hc') as (x & Hx & H1 & H2). exists x. split_and!; [done|done|]. intros He. destruct (K8 c' _ u Hc' eq_refl). specialize (H2 He).
    rewrite elem_of_union, elem_of_singleton. intros [->|?]; [lia|done].
Qed.

Lemma holds_sound c s : sound s → sound (happens (Holds c) s).
Proof.
  intros Hs. cbn [happens]. destruct (serving s !! c) as [[| |n u|]|] eqn:Ec; try done. destruct (heap s !! n) as [f|] eqn:Ef; [|done].
  destruct (fended f) eqn:Ee.
  - rewrite end_stage_alter. unfold on_forward, close_conn. cbn [ports heap listening open_ serving fresh_].
    destruct (alter_same (with_conns (λ k, k ∖ {[c]})) n (heap s) (conns_same _)) as [Ha Hb].
    apply stage_sound; [done|by rewrite Ec|done|done|done|]. intros c' m v. destruct (decide (c = c')) as [<-|Hne]; [done|]. intros Hc'.
    destruct (ups_apart s c c' _ m v Hs Ec Hc' Hne) as [Hv _].
    apply (carried_alter _ _ _ (open_ s)); [done|cbn; set_solver|set_solver|by apply (k_carried s Hs c')].
  - rewrite set_stage_alter. unfold on_forward. cbn [ports heap listening open_ serving fresh_].
    destruct (alter_same (with_conns (λ k, {[u]} ∪ k)) n (heap s) (conns_same _)) as [Ha Hb].
    destruct (alter_same (note "") n (alter (with_conns (λ k, {[u]} ∪ k)) n (heap s)) (note_same "")) as [Ha2 Hb2].
    assert (∀ x, fconns (note "" x) = fconns x) as Hnc by (intros x; unfold note; by destruct (flistener x)).
    apply stage_sound; [done|by rewrite Ec| | |exists (Dialed n u); split; [done|by intros v [= <-]]|].
    + intros m x Hx. destruct (Ha2 m x Hx) as (y & Hy & Hxy). destruct (Ha m y Hy) as (z & Hz & Hyz). exists z. split; [done|by eapply same_trans].
    + intros m x Hx. destruct (Hb m x Hx) as (y & Hy & Hxy). destruct (Hb2 m y Hy) as (z & Hz & Hyz). exists z. split; [done|by eapply same_trans].
    + intros c' m v. destruct (decide (c = c')) as [<-|Hne].
      * intros [= <- <-]. eexists. rewrite !lookup_alter_eq, Ef. split_and!; [done| |]; rewrite ?Hnc; cbn; [intros _; set_solver|].
        destruct (note_same "" (with_conns (λ k, {[u]} ∪ k) f)) as (_ & _ & _ & Hx). rewrite Hx. cbn. congruence.
      * intros Hc'. apply (carried_alter _ _ _ (open_ s)); [intros x; by destruct (note_same "" x) as (_ & _ & _ & ?)|intros x; by rewrite Hnc|done|].
        apply (carried_alter _ _ _ (open_ s)); [done|cbn; set_solver|done|by apply (k_carried s Hs c')].
Qed.

Lemma conn_ends_sound c s : sound s → sound (happens (Ends c) s).
Proof.
  intros Hs. cbn [happens]. destruct (serving s !! c) as [[| | |n u]|] eqn:Ec; try done.
  rewrite end_stage_alter. unfold on_forward, close_conn. cbn [ports heap listening open_ serving fresh_].
  destruct (alter_same (with_conns (λ k, k ∖ {[c]} ∖ {[u]})) n (heap s) (conns_same _)) as [Ha Hb].
  apply stage_sound; [done|by rewrite Ec|done|done|done|]. intros c' m v. destruct (decide (c = c')) as [<-|Hne]; [done|]. intros Hc'.
  destruct (ups_apart s c c' _ m v Hs Ec Hc' Hne) as [Hv Hvu]. cbn in Hvu.
  apply (carried_alter _ _ _ (open_ s)); [done|cbn; set_solver|set_solver|by apply (k_carried s Hs c')].
Qed.

Lemma drop_all_sound ps : ∀ s, sound s → sound (drop_all ps s).
Proof. induction ps as [|p ps IH]; intros s Hs; [done|]. apply IH. by apply drop_sound. Qed.

Lemma drop_all_ports ps : ∀ s, sound s → ∀ p, ports (drop_all ps s) !! p = if decide (p ∈ ps) then None else ports s !! p.
Proof.
  induction ps as [|q ps IH]; intros s Hs p; [done|]. unfold drop_all. cbn [foldl]. fold (drop_all ps (drop_port q s)).
  rewrite IH by (by apply drop_sound). rewrite drop_ports by done. destruct (decide (p ∈ ps)), (decide (q = p)) as [->|].
  1-3: rewrite decide_True by set_solver; done. by rewrite decide_False by set_solver.
Qed.

Lemma drop_all_ids ps : ∀ s, sound s → ∀ n, fid <$> heap (drop_all ps s) !! n = fid <$> heap s !! n.
Proof.
  induction ps as [|q ps IH]; intros s Hs n; [done|]. unfold drop_all. cbn [foldl]. fold (drop_all ps (drop_port q s)).
  rewrite IH by (by apply drop_sound). by apply drop_ids.
Qed.

Lemma held_by_id_fid id s p : held_by_id id s p = true ↔ ∃ n, ports s !! p = Some n ∧ fid <$> heap s !! n = Some id.
Proof.
  unfold held_by_id. destruct (ports s !! p) as [n|]; [|split; [done|by intros (n & [=] & _)]].
  split.
  - intros Hh. exists n. split; [done|]. destruct (heap s !! n) as [f|]; [|done]. apply String.eqb_eq in Hh. by rewrite <- Hh.
  - intros (m & [= <-] & Hf). destruct (heap s !! n) as [f|]; [|done]. injection Hf as <-. by apply String.eqb_eq.
Qed.

(** A sandbox whose forwards were closed has none. *)
Lemma CloseSandbox_none id s p : sound s → held_by_id id (CloseSandbox id s) p = false.
Proof.
  intros Hs. apply not_true_iff_false. rewrite held_by_id_fid. unfold CloseSandbox. intros (n & Hp & Hi). rewrite drop_all_ports in Hp by done.
  rewrite drop_all_ids in Hi by done. destruct (decide _) as [|Hin]; [done|]. apply Hin. apply list_elem_of_In, List.filter_In. split.
  - apply list_elem_of_In, list_elem_of_fmap. exists (p, n). split; [done|]. by apply elem_of_map_to_list.
  - apply held_by_id_fid. by exists n.
Qed.

Lemma open_each_sound answers id want : ∀ s, sound s → sound (open_each answers id want s).1.
Proof.
  induction want as [|spec want IH]; intros s Hs; [done|]. cbn [open_each]. destruct (answers (HostPort spec)) as [cf a].
  pose proof (open_sound cf a id spec s Hs) as H1. destruct (open_port cf a id spec s) as [s1 r]. cbn [fst] in H1. specialize (IH s1 H1).
  by destruct (open_each answers id want s1).
Qed.

Lemma happens_sound e s : sound s → sound (happens e s).
Proof.
  intros Hs. destruct e as [cf a id spec|answers id want|id port|id|n l|n|c|c a|c|c].
  - by apply open_sound.
  - apply open_each_sound. by apply drop_all_sound.
  - cbn [happens]. unfold Close. destruct (held_by_id id s port); [by apply drop_sound|done].
  - by apply drop_all_sound.
  - by apply arrives_sound.
  - cbn [happens]. unfold on_forward. set (g := λ f : forward, note _ f).
    destruct (alter_same g n (heap s) ltac:(intros f; apply note_same)) as [Ha Hb]. pose proof Hs as [_ _ _ _ _ _ K7 K8 K9 K10].
    apply (conn_sound s); try done. intros c m u Hc. apply (carried_alter _ _ _ (open_ s)); [|intros f; unfold g, note; by destruct (flistener f)|done|by apply (K10 c)].
    intros f. by destruct (note_same ("the host refused a connection to port " +:+ Itoa (HostPort (fspec f)) +:+ "; the daemon log has why") f) as (_ & _ & _ & ?).
  - by apply tracks_sound.
  - by apply dials_sound.
  - by apply holds_sound.
  - by apply conn_ends_sound.
Qed.

Lemma after_sound es : ∀ s, sound s → sound (after es s).
Proof. induction es as [|e es IH]; intros s Hs; [done|]. apply IH. by apply happens_sound. Qed.

(** *** A forward that ended stays so *)

Definition over (n : nat) (s : forwarder) : Prop := ∃ f, heap s !! n = Some f ∧ fended f = true.

Lemma over_heap n s s' : heap s' = heap s → over n s → over n s'.
Proof. unfold over. by intros ->. Qed.

Lemma over_on n m g s : (∀ f, fended (g f) = fended f) → over n s → over n (on_forward m g s).
Proof.
  intros Hg (f & Hf & He). unfold over, on_forward. cbn [heap]. destruct (decide (m = n)) as [->|Hne].
  - rewrite lookup_alter_eq, Hf. eexists. split; [done|]. by rewrite Hg.
  - rewrite lookup_alter_ne by done. eauto.
Qed.

Lemma over_set n m f s : heap s !! m = Some f → ∀ f', fended f' = fended f → over n s → over n (set_forward m f' s).
Proof.
  intros Hm f' Hf' (g & Hg & He). unfold over, set_forward. cbn [heap]. destruct (decide (m = n)) as [->|Hne].
  - rewrite lookup_insert_eq. eexists. split; [done|]. congruence.
  - rewrite lookup_insert_ne by done. eauto.
Qed.

Lemma unlisten_heap l s : heap (unlisten l s) = heap s.
Proof. by destruct l. Qed.

Lemma over_drop n port s : over n s → over n (drop_port port s).
Proof.
  intros Ho. unfold drop_port. destruct (ports s !! port) as [m|]; [|done]. destruct (heap s !! m) as [f|] eqn:Hm; [|done].
  destruct Ho as (g & Hg & He). unfold over. cbn [heap]. rewrite unlisten_heap. destruct (decide (m = n)) as [->|Hne].
  - rewrite lookup_insert_eq. by eexists.
  - rewrite lookup_insert_ne by done. eauto.
Qed.

Lemma over_drop_all n ps : ∀ s, over n s → over n (drop_all ps s).
Proof. induction ps as [|p ps IH]; intros s Ho; [done|]. apply IH. by apply over_drop. Qed.

Lemma over_claim n id spec s : sound s → over n s → over n (claim_port id spec s).2.
Proof.
  intros Hs Ho. unfold claim_port. destruct (ports s !! HostPort spec); [done|]. destruct Ho as (f & Hf & He). exists f. cbn [snd heap].
  rewrite lookup_insert_ne; [done|]. pose proof (k_heap s Hs n ltac:(by rewrite Hf)). lia.
Qed.

Lemma over_rebind n a m f spec s : heap s !! m = Some f → over n s → over n (rebind_port a m f spec s).1.
Proof.
  intros Hm Ho. unfold rebind_port. destruct (if listens_on _ _ then InUse else a); cbn [fst]; by apply (over_set n m f).
Qed.

Lemma over_open n cf a id spec s : sound s → over n s → over n (open_port cf a id spec s).1.
Proof.
  intros Hs Ho. unfold open_port. destruct (foreign id (HostPort spec) s && cf); [by apply over_drop|].
  set (s1 := if foreign id (HostPort spec) s then drop_port (HostPort spec) s else s).
  assert (sound s1) as H1 by (subst s1; destruct (foreign _ _ _); [by apply drop_sound|done]).
  assert (over n s1) as Ho1 by (subst s1; destruct (foreign _ _ _); [by apply over_drop|done]).
  pose proof (over_claim n id spec s1 H1 Ho1) as Ho2. destruct (claim_port id spec s1) as [m s2]. cbn [snd] in Ho2.
  destruct (heap s2 !! m) as [f|] eqn:Hm; [|done].
  assert (heap (unlisten (flistener f) s2) !! m = Some f) as Hm' by (by rewrite unlisten_heap).
  assert (over n (unlisten (flistener f) s2)) as Ho3 by (eapply over_heap; [apply unlisten_heap|done]).
  destruct (match flistener f with None => true | Some _ => _ end); cbn [fst]; [|by apply (over_set n m f)].
  destruct (match flistener f with Some _ => cf | None => false end); cbn [fst]; [by apply (over_set n m f)|by apply over_rebind].
Qed.

Lemma over_open_each n answers id want : ∀ s, sound s → over n s → over n (open_each answers id want s).1.
Proof.
  induction want as [|spec want IH]; intros s Hs Ho; [done|]. cbn [open_each]. destruct (answers (HostPort spec)) as [cf a].
  pose proof (open_sound cf a id spec s Hs) as H1. pose proof (over_open n cf a id spec s Hs Ho) as H2.
  destruct (open_port cf a id spec s) as [s1 r]. cbn [fst] in H1, H2. specialize (IH s1 H1 H2). by destruct (open_each answers id want s1).
Qed.

Lemma note_ended r f : fended (note r f) = fended f.
Proof. unfold note. by destruct (flistener f). Qed.

Lemma over_happens n e s : sound s → over n s → over n (happens e s).
Proof.
  intros Hs Ho. destruct e as [cf a id spec|answers id want|id port|id|m l|m|c|c a|c|c]; cbn [happens].
  - by apply over_open.
  - apply over_open_each; [by apply drop_all_sound|by apply over_drop_all].
  - unfold Close. destruct (held_by_id id s port); [by apply over_drop|done].
  - by apply over_drop_all.
  - destruct (listening s !! l), (heap s !! m); try done. by case_bool_decide.
  - apply over_on; [|done]. intros f. apply note_ended.
  - destruct (serving s !! c) as [[m l| | |]|]; try done. destruct (heap s !! m) as [f|]; [|done]. case_bool_decide; [|done].
    by apply (over_heap n (on_forward m (with_conns (λ k, {[c]} ∪ k)) s)), over_on.
  - destruct (serving s !! c) as [[| m guest| |]|]; try done.
    assert (∀ r, over n (end_stage c (on_forward m (with_conns (λ k, k ∖ {[c]})) (close_conn c (on_forward m (note r) s))))) as Hr.
    { intros r. apply (over_heap n (on_forward m (with_conns (λ k, k ∖ {[c]})) (on_forward m (note r) s))); [done|].
      apply over_on; [done|]. apply over_on; [apply note_ended|done]. }
    destruct a; [done|apply Hr..].
  - destruct (serving s !! c) as [[| |m u|]|]; try done. destruct (heap s !! m) as [f|]; [|done]. destruct (fended f).
    + by apply (over_heap n (on_forward m (with_conns (λ k, k ∖ {[c]})) s)), over_on.
    + apply (over_heap n (on_forward m (note "") (on_forward m (with_conns (λ k, {[u]} ∪ k)) s))); [done|].
      apply over_on; [apply note_ended|by apply over_on].
  - destruct (serving s !! c) as [[| | |m u]|]; try done.
    by apply (over_heap n (on_forward m (with_conns (λ k, k ∖ {[c]} ∖ {[u]})) s)), over_on.
Qed.

Lemma over_after n es : ∀ s, sound s → over n s → over n (after es s).
Proof.
  induction es as [|e es IH]; intros s Hs Ho; [done|]. apply IH; [by apply happens_sound|by apply over_happens].
Qed.

(** No connection is carried into a forward that is over, and a dial that reached it is let go. *)
Lemma over_carries n c u s : sound s → over n s →
  (serving s !! c = Some (Carried n u) → u ∉ open_ s) ∧
  (serving s !! c = Some (Dialed n u) → serving (happens (Holds c) s) !! c = None ∧ u ∉ open_ (happens (Holds c) s)).
Proof.
  intros Hs (f & Hf & He). split.
  - intros Hc. destruct (k_carried s Hs c n u Hc) as (f' & Hf' & _ & Hu). rewrite Hf in Hf'. injection Hf' as <-. by apply Hu.
  - intros Hc. cbn [happens]. rewrite Hc, Hf, He. cbn [end_stage on_forward close_conn serving open_]. rewrite lookup_delete_eq. split; [done|set_solver].
Qed.

Lemma CloseSandbox_over id s n : sound s → fid <$> heap (CloseSandbox id s) !! n = Some id → over n (CloseSandbox id s).
Proof.
  intros Hs Hid. assert (sound (CloseSandbox id s)) as Hs' by (by apply drop_all_sound).
  destruct (heap (CloseSandbox id s) !! n) as [f|] eqn:Hf; [|done]. exists f. split; [done|]. destruct (fended f) eqn:He; [done|].
  pose proof (k_live _ Hs' n f Hf He) as Hp. pose proof (CloseSandbox_none id s (HostPort (fspec f)) Hs) as Hn.
  apply not_true_iff_false in Hn. destruct Hn. apply held_by_id_fid. exists n. by rewrite Hf.
Qed.

(** C27: a host port reaches one sandbox at a time, and none once its forward is closed. Whatever is opened, set and closed, and
    whatever connections come, in any order and with any answer of the host: a listener that is open is the one of the forward the
    port has now, public exactly when that forward is; and a connection that is carried, and still open into a sandbox, is one of a
    forward its port has now. After the forwards of a sandbox are closed, no port has one of its and no listener stands for it; and
    from then on, whatever comes later, no connection of those forwards is carried with its end in the sandbox open. One whose dial
    reached the sandbox as they were closed, and that was not carried yet, has that end open until its next step, which closes it. *)
Theorem forwards_apart es :
  let s := after es New in
  (∀ l p pub, listening s !! l = Some (p, pub) →
     ∃ n f, ports s !! p = Some n ∧ heap s !! n = Some f ∧ flistener f = Some l ∧ HostPort (fspec f) = p ∧ Public (fspec f) = pub) ∧
  (∀ c n u, serving s !! c = Some (Carried n u) → u ∈ open_ s →
     ∃ f, heap s !! n = Some f ∧ ports s !! HostPort (fspec f) = Some n) ∧
  ∀ id, let s' := CloseSandbox id s in
    (∀ p, held_by_id id s' p = false) ∧
    (∀ l p pub, listening s' !! l = Some (p, pub) → held_by_id id s' p = false ∧ is_Some (ports s' !! p)) ∧
    (∀ es' c n u, fid <$> heap s' !! n = Some id → let t := after es' s' in
       (serving t !! c = Some (Carried n u) → u ∉ open_ t) ∧
       (serving t !! c = Some (Dialed n u) → serving (happens (Holds c) t) !! c = None ∧ u ∉ open_ (happens (Holds c) t))).
Proof.
  intros s. assert (sound s) as Hs by apply after_sound, New_sound.
  assert (∀ s, sound s → ∀ c n u, serving s !! c = Some (Carried n u) → u ∈ open_ s → ∃ f, heap s !! n = Some f ∧ ports s !! HostPort (fspec f) = Some n) as Hc.
  { intros s1 H1 c n u Hc Hu. destruct (k_carried s1 H1 c n u Hc) as (f & Hf & _ & He). exists f. split; [done|]. apply (k_live s1 H1); [done|].
    destruct (fended f); [by destruct (He eq_refl)|done]. }
  split; [|split].
  - intros l p pub Hl. destruct (k_listens s Hs l p pub Hl) as (n & f & Hp & Hf & Hfl & Hpub). exists n, f. split_and!; try done.
    destruct (k_ports s Hs p n Hp) as (f' & Hf' & _ & ?). congruence.
  - by apply Hc.
  - intros id s'. assert (sound s') as Hs' by (by apply drop_all_sound). assert (∀ p, held_by_id id s' p = false) as Hn by (intros p; by apply CloseSandbox_none).
    split; [done|]. split.
    + intros l p pub Hl. destruct (k_listens s' Hs' l p pub Hl) as (n & f & Hp & _). split; [done|by rewrite Hp].
    + intros es' c n u Hid. apply over_carries; [by apply after_sound|]. apply over_after; [done|]. by apply CloseSandbox_over.
Qed.

(** A connection that was accepted before its forward ended and tracked after: its dial is the one that ends it. *)
Example tracked_late :
  let s := after [Opens false Bound "a" (MkPortForward 80 8080 false); Arrives 0 1; ClosesSandbox "a"; Tracks 2; Dials 2 DialFails] New in
  listening s = ∅ ∧ open_ s = ∅ ∧ serving s = ∅.
Proof. vm_compute. split_and!; reflexivity. Qed.

(** Where that dial reaches the sandbox all the same, its end of the connection is closed and the client's is left open. *)
Example tracked_late_reached :
  let s := after [Opens false Bound "a" (MkPortForward 80 8080 false); Arrives 0 1; ClosesSandbox "a"; Tracks 2; Dials 2 Reached; Holds 2] New in
  listening s = ∅ ∧ open_ s = {[2%nat]} ∧ serving s = ∅.
Proof. vm_compute. split_and!; reflexivity. Qed.
