(* ===== verification/ExecTable.v ===== *)
(** * The table of execs

    [services/sandbox/exec.go], what the daemon remembers of the commands it runs beside the named processes: the
    sessions by their id, and how many run in each sandbox and in all. The two counters bound the daemon's own
    memory, so they must neither leak a slot nor let one past the limit. *)

From S2P Require Import Prelude Models.
Local Open Scope Z_scope.

Definition maxRunningExecsPerSandbox : Z := 32.
Definition maxRunningExecs : Z := 256.
Definition exitedExecCap : nat := 32.

(** A session as the table sees it: whose it is, whether the create has answered it, and when its command ended. *)
Record session : Type := MkSession { sandboxID : string; shown : bool; exitedAt : option Z }.

Record table : Type := MkTable {
  execs : gmap string session;
  running : gmap string Z;
  runningAll : Z;
  (** the execs whose own context [cancel] has ended *)
  cancelled : gset string
}.

Definition new_table : table := MkTable ∅ ∅ 0 ∅.

Definition set_execs (f : gmap string session → gmap string session) (t : table) : table :=
  MkTable (f (execs t)) (running t) (runningAll t) (cancelled t).

Definition holdExec (execID : string) (s : session) : table → table := set_execs <[execID := s]>.
Definition showExec (execID : string) : table → table :=
  set_execs (alter (λ s, MkSession (sandboxID s) true (exitedAt s)) execID).
Definition dropExec (execID : string) : table → table := set_execs (delete execID).
Definition dropHidden (execID : string) (t : table) : table :=
  match execs t !! execID with
  | Some s => if shown s then t else dropExec execID t
  | None => t
  end.

Definition execOf (t : table) (id execID : string) : option session :=
  match execs t !! execID with
  | Some s => if negb (String.eqb (sandboxID s) id) || negb (shown s) then None else Some s
  | None => None
  end.

(** The execs of one sandbox that a list answers, in order of id. *)
Definition execsOf (t : table) (id : string) : list string :=
  merge_sort String.le (omap (λ p, if String.eqb (sandboxID p.2) id && shown p.2 then Some p.1 else None) (map_to_list (execs t))).

(** [dropExecs]: every exec of the sandbox is cancelled and forgotten. *)
Definition dropExecs (id : string) (t : table) : table :=
  let mine := filter (λ p, sandboxID p.2 = id) (execs t) in
  MkTable (filter (λ p, sandboxID p.2 ≠ id) (execs t)) (running t) (runningAll t) (cancelled t ∪ dom mine).

(** ** The slots *)

Definition running_of (t : table) (id : string) : Z := default 0 (running t !! id).

(** The refusal names the limit, and whether it is the daemon's. *)
Record exec_limit : Type := MkExecLimit { Limit : Z; Daemon : bool }.

Definition admitExec (id : string) (t : table) : result exec_limit table :=
  if maxRunningExecsPerSandbox <=? running_of t id then Err (MkExecLimit maxRunningExecsPerSandbox false)
  else if maxRunningExecs <=? runningAll t then Err (MkExecLimit maxRunningExecs true)
  else Ok (MkTable (execs t) (<[id := running_of t id + 1]> (running t)) (runningAll t + 1) (cancelled t)).

Definition releaseExec (id : string) (t : table) : table :=
  let n := running_of t id - 1 in
  MkTable (execs t) (if n =? 0 then delete id (running t) else <[id := n]> (running t)) (runningAll t - 1) (cancelled t).

(** ** The exited execs a sandbox retains

    A Go map is walked in any order, and a sort that is not stable leaves equal times in any order: [walk] is the
    order of the walk, which a stable sort keeps among equals, so every outcome of the source is one of these. *)

Definition exited_of (id : string) (s : session) : option Z :=
  if negb (String.eqb (sandboxID s) id) || negb (shown s) then None else exitedAt s.

Definition exited_in (t : table) (id : string) (walk : list string) : list (string * Z) :=
  omap (λ e, match execs t !! e with
             | Some s => match exited_of id s with Some at_ => Some (e, at_) | None => None end
             | None => None
             end) walk.

Definition older (a b : string * Z) : Prop := a.2 ≤ b.2.
#[export] Instance older_dec : RelDecision older.
Proof. intros a b. unfold older. apply _. Defined.
#[export] Instance older_total : Total older.
Proof. intros a b. unfold older. lia. Qed.
#[export] Instance older_trans : Transitive older.
Proof. intros a b c. unfold older. lia. Qed.

Definition forget (gone : list string) (t : table) : table :=
  MkTable (foldr delete (execs t) gone) (running t) (runningAll t) (cancelled t ∪ list_to_set gone).

Definition capExitedExecs (id : string) (walk : list string) (t : table) : table :=
  let exited := exited_in t id walk in
  if (length exited <=? exitedExecCap)%nat then t
  else forget (take (length exited - exitedExecCap) (merge_sort older exited).*1) t.

(** * What the counters count *)

(** A slot is one admitted exec that has not been released: the counters are those of the slots. *)
Definition slots_of (slots : list string) (id : string) : Z := Z.of_nat (count_occ (λ a b : string, decide (a = b)) slots id).

Record counts (slots : list string) (t : table) : Prop := {
  counts_of : ∀ id, running t !! id = if slots_of slots id =? 0 then None else Some (slots_of slots id);
  counts_all : runningAll t = Z.of_nat (length slots);
  counts_bound : ∀ id, slots_of slots id ≤ maxRunningExecsPerSandbox;
  counts_bound_all : Z.of_nat (length slots) ≤ maxRunningExecs
}.

Lemma slots_of_cons id slots id' : slots_of (id :: slots) id' = slots_of slots id' + (if decide (id = id') then 1 else 0).
Proof. unfold slots_of. simpl. destruct (decide (id = id')); lia. Qed.

Lemma slots_of_nonneg slots id : 0 ≤ slots_of slots id.
Proof. unfold slots_of. lia. Qed.

Lemma running_of_counts slots t id : counts slots t → running_of t id = slots_of slots id.
Proof. intros H. unfold running_of. rewrite (counts_of _ _ H). destruct (slots_of slots id =? 0) eqn:E; breflect; simpl; lia. Qed.

Lemma slots_of_Permutation slots slots' id : Permutation slots slots' → slots_of slots id = slots_of slots' id.
Proof. intros H. unfold slots_of. f_equal. by apply Permutation_count_occ. Qed.

Lemma counts_Permutation slots slots' t : Permutation slots slots' → counts slots t → counts slots' t.
Proof.
  intros Hp H. split.
  - intros id. rewrite <- (slots_of_Permutation _ _ _ Hp). apply H.
  - rewrite <- Hp. apply H.
  - intros id. rewrite <- (slots_of_Permutation _ _ _ Hp). apply H.
  - rewrite <- Hp. apply H.
Qed.

Lemma admitExec_counts slots t id t' : counts slots t → admitExec id t = Ok t' → counts (id :: slots) t'.
Proof.
  intros H. unfold admitExec. rewrite (running_of_counts _ _ _ H). intros Ha. case_guards Ha. injection Ha as <-. breflect.
  pose proof (slots_of_nonneg slots id). split; cbn [running runningAll].
  - intros id'. rewrite slots_of_cons, lookup_insert, (counts_of _ _ H). pose proof (slots_of_nonneg slots id').
    case_decide as E; [subst id'|by rewrite Z.add_0_r]. destruct (_ + 1 =? 0) eqn:E1; breflect; [lia|done].
  - rewrite (counts_all _ _ H). simpl. lia.
  - intros id'. rewrite slots_of_cons. pose proof (counts_bound _ _ H id'). case_decide; subst; lia.
  - rewrite (counts_all _ _ H) in *. simpl. lia.
Qed.

Lemma releaseExec_counts slots t id : counts (id :: slots) t → counts slots (releaseExec id t).
Proof.
  intros H. unfold releaseExec. rewrite (running_of_counts _ _ _ H), slots_of_cons, decide_True by done.
  rewrite Z.add_simpl_r. split; cbn [running runningAll].
  - intros id'. pose proof (counts_of _ _ H id') as Hc. rewrite slots_of_cons in Hc.
    pose proof (slots_of_nonneg slots id'). destruct (decide (id = id')) as [<-|Hne].
    + destruct (slots_of slots id =? 0) eqn:E; [by rewrite lookup_delete_eq|by rewrite lookup_insert_eq].
    + rewrite Z.add_0_r in Hc. destruct (slots_of slots id =? 0); [by rewrite lookup_delete_ne|by rewrite lookup_insert_ne].
  - rewrite (counts_all _ _ H). simpl. lia.
  - intros id'. pose proof (counts_bound _ _ H id') as Hb. rewrite slots_of_cons in Hb. case_decide; lia.
  - pose proof (counts_bound_all _ _ H) as Hb. simpl in Hb. lia.
Qed.

(** ** Runs of the table

    Every exec takes a slot in its create and gives it back when its command ends; the table changes in
    between by the other operations, which leave the counters alone. [slots] is whose commands run. *)
Inductive table_step : list string * table → list string * table → Prop :=
| step_admit slots t id t' : admitExec id t = Ok t' → table_step (slots, t) (id :: slots, t')
| step_release l1 id l2 t : table_step (l1 ++ id :: l2, t) (l1 ++ l2, releaseExec id t)
| step_hold slots t execID s : table_step (slots, t) (slots, holdExec execID s t)
| step_show slots t execID : table_step (slots, t) (slots, showExec execID t)
| step_drop slots t execID : table_step (slots, t) (slots, dropExec execID t)
| step_hidden slots t execID : table_step (slots, t) (slots, dropHidden execID t)
| step_ended slots t id : table_step (slots, t) (slots, dropExecs id t)
| step_cap slots t id walk : table_step (slots, t) (slots, capExitedExecs id walk t).

Lemma counts_same slots t t' : running t' = running t → runningAll t' = runningAll t → counts slots t → counts slots t'.
Proof. intros E1 E2 H. split; intros; rewrite ?E1, ?E2; apply H. Qed.

Lemma table_step_counts a b : table_step a b → counts a.1 a.2 → counts b.1 b.2.
Proof.
  intros Hs. destruct Hs as [slots t id t' Ha| | | | |slots t e| |]; simpl; intros Hc; try by eapply counts_same; [..|exact Hc].
  - by eapply admitExec_counts.
  - apply releaseExec_counts. eapply counts_Permutation; [|exact Hc]. by rewrite Permutation_middle.
  - unfold dropHidden. destruct (execs t !! e) as [[? [] ?]|]; [done| |done]. by eapply counts_same; [..|exact Hc].
  - unfold capExitedExecs. destruct (_ <=? _)%nat; [done|]. by eapply counts_same; [..|exact Hc].
Qed.

Lemma counts_new : counts [] new_table.
Proof. split; try done; intros; unfold slots_of; simpl; unfold maxRunningExecsPerSandbox; lia. Qed.

Lemma rtc_preserved {A} (I : A → Prop) {R : relation A} a b : (∀ x y, R x y → I x → I y) → rtc R a b → I a → I b.
Proof. intros H. induction 1; eauto. Qed.

(** However creates, ends, stops and removals interleave, the two counters count exactly the commands that
    run: a sandbox never runs more than 32 at once and the daemon never more than 256, the entry of a sandbox
    with none is gone from the table, and a slot that is free is given: an exec is refused only at a limit. *)
Theorem exec_slots slots t :
  rtc table_step ([], new_table) (slots, t) →
  (∀ id, running_of t id = slots_of slots id ∧ slots_of slots id ≤ maxRunningExecsPerSandbox ∧
         (running t !! id = None ↔ slots_of slots id = 0)) ∧
  runningAll t = Z.of_nat (length slots) ∧ Z.of_nat (length slots) ≤ maxRunningExecs ∧
  (∀ id, is_ok (admitExec id t) = (slots_of slots id <? maxRunningExecsPerSandbox) && (Z.of_nat (length slots) <? maxRunningExecs)).
Proof.
  intros Hr. assert (Hc : counts slots t).
  { apply (rtc_preserved (λ a, counts a.1 a.2) _ _ table_step_counts Hr counts_new). }
  split_and!; [|apply Hc|apply Hc|].
  - intros id. split_and!; [by apply running_of_counts|apply Hc|]. rewrite (counts_of _ _ Hc).
    destruct (slots_of slots id =? 0) eqn:E; breflect; naive_solver.
  - intros id. unfold admitExec. rewrite (running_of_counts _ _ _ Hc), (counts_all _ _ Hc).
    rewrite !Z.ltb_antisym. by destruct (_ <=? slots_of slots id), (maxRunningExecs <=? _).
Qed.

Lemma exec_slots_witness :
  is_ok (admitExec "a" (releaseExec "a" (MkTable ∅ {["a" := 1]} 1 ∅))) = true.
Proof.
  assert (Hr : rtc table_step ([], new_table) ([], releaseExec "a" (MkTable ∅ {["a" := 1]} 1 ∅))).
  { eapply rtc_l; [by eapply (step_admit [] new_table "a")|]. apply rtc_once. apply (step_release [] "a" []). }
  destruct (exec_slots _ _ Hr) as (_ & _ & _ & H). rewrite H. reflexivity.
Defined.

(** * The retained execs *)

Lemma lookup_forget gone (m : gmap string session) e :
  foldr delete m gone !! e = if decide (e ∈ gone) then None else m !! e.
Proof.
  induction gone as [|x gone IH]; cbn [foldr]; [by rewrite decide_False by apply not_elem_of_nil|].
  rewrite lookup_delete, IH. repeat case_decide; try done; set_solver.
Qed.

Lemma exited_in_elem t id walk e x :
  (e, x) ∈ exited_in t id walk ↔ e ∈ walk ∧ ∃ s, execs t !! e = Some s ∧ exited_of id s = Some x.
Proof.
  unfold exited_in. rewrite list_elem_of_omap. split.
  - intros (e' & He & Hs). destruct (execs t !! e') as [s|] eqn:E1; [|done].
    destruct (exited_of id s) as [y|] eqn:E2; [|done]. injection Hs as <- <-. eauto.
  - intros (He & s & Hs & Hx). exists e. split; [done|]. by rewrite Hs, Hx.
Qed.

Lemma exited_in_fst t id walk : NoDup walk → NoDup (exited_in t id walk).*1.
Proof.
  intros Hnd. induction Hnd as [|e walk He Hnd IH]; [constructor|]. unfold exited_in. simpl.
  destruct (execs t !! e) as [s|]; [|done]. destruct (exited_of id s) as [x|]; [|done].
  simpl. constructor; [|done]. rewrite list_elem_of_fmap. intros ([e' y] & -> & [H _]%exited_in_elem). done.
Qed.

Lemma omap_cons' {A B} (f : A → option B) x l :
  omap f (x :: l) = match f x with Some y => y :: omap f l | None => omap f l end.
Proof. done. Qed.

Lemma exited_in_forget t id walk gone :
  exited_in (forget gone t) id walk = filter (λ p, p.1 ∉ gone) (exited_in t id walk).
Proof.
  unfold exited_in, forget. cbn [execs]. induction walk as [|e walk IH]; [done|].
  rewrite !omap_cons', lookup_forget, IH. destruct (decide (e ∈ gone)) as [Hd|Hd];
    destruct (execs t !! e) as [s|]; try done; destruct (exited_of id s); try done; rewrite filter_cons; simpl;
    [by rewrite decide_False by tauto|by rewrite decide_True by done].
Qed.

Lemma filter_not_taken (l : list (string * Z)) n :
  NoDup l.*1 → filter (λ p, p.1 ∉ (take n l).*1) l = drop n l.
Proof.
  revert n. induction l as [|[e x] l IH]; intros n Hnd; [by destruct n|]. apply NoDup_cons in Hnd as [He Hnd].
  destruct n as [|n]; cbn [take drop]; rewrite ?fmap_nil, ?fmap_cons; cbn [fst].
  - rewrite filter_cons_True by set_solver. f_equal. apply filter_Forall, Forall_forall. set_solver.
  - rewrite filter_cons_False by (simpl; set_solver). rewrite <- (IH n Hnd).
    assert (Hout : ∀ q, q ∈ l → q.1 ≠ e) by (intros [k y] Hk; simpl; intros ->; apply He; apply list_elem_of_fmap; by exists (e, y)).
    clear -Hout. generalize (fst <$> take n l). intros g. induction l as [|q l IH]; [done|]. rewrite !filter_cons. rewrite IH by set_solver.
    pose proof (Hout q ltac:(left)). repeat case_decide; set_solver.
Qed.

(** A sandbox keeps at most 32 execs that have ended, the latest to end of those it had; what it forgets it
    has also cancelled, and an exec that still runs, is not yet answered, or is another sandbox's is never forgotten. *)
Theorem capExitedExecs_spec id walk t :
  NoDup walk → (∀ e, e ∈ walk ↔ is_Some (execs t !! e)) →
  let t' := capExitedExecs id walk t in
  (length (exited_in t' id walk) ≤ exitedExecCap)%nat ∧
  (∀ e s, execs t !! e = Some s → exited_of id s = None → execs t' !! e = Some s) ∧
  (∀ e s, execs t !! e = Some s → execs t' !! e = None →
     e ∈ cancelled t' ∧ length (exited_in t' id walk) = exitedExecCap ∧
     ∀ k sk x y, execs t' !! k = Some sk → exited_of id sk = Some y → exited_of id s = Some x → x ≤ y).
Proof.
  intros Hnd Hwalk. cbn zeta. unfold capExitedExecs. destruct (_ <=? _)%nat eqn:E; breflect.
  { split_and!; [done|done|]. intros e s H1 H2. congruence. }
  set (xs := exited_in t id walk) in *. set (sorted := merge_sort older xs) in *. set (n := (length xs - exitedExecCap)%nat) in *.
  assert (Hp : Permutation sorted xs) by apply merge_sort_Permutation.
  assert (Hs : StronglySorted older sorted) by (apply StronglySorted_merge_sort; apply _).
  assert (Hn1 : NoDup sorted.*1) by (rewrite Hp; by apply exited_in_fst).
  assert (Hgone : ∀ e, e ∈ take n sorted.*1 → ∃ x s, (e, x) ∈ take n sorted ∧ execs t !! e = Some s ∧ exited_of id s = Some x).
  { intros e. rewrite <- fmap_take, list_elem_of_fmap. intros ([e' x] & -> & H). simpl.
    assert ((e', x) ∈ xs) as (_ & s & ? & ?)%exited_in_elem by (rewrite <- Hp; by apply (sublist_subseteq (take n sorted) sorted (sublist_take _ _))). eauto. }
  assert (Hrest : exited_in (forget (take n sorted.*1) t) id walk = filter (λ p, p.1 ∉ take n sorted.*1) xs).
  { apply exited_in_forget. }
  assert (Hdrop : Permutation (filter (λ p, p.1 ∉ take n sorted.*1) xs) (drop n sorted)).
  { rewrite <- Hp, <- fmap_take. by rewrite filter_not_taken. }
  assert (Hlen : length (exited_in (forget (take n sorted.*1) t) id walk) = exitedExecCap).
  { rewrite Hrest, Hdrop, length_drop, Hp. subst n. lia. }
  split_and!.
  - by rewrite Hlen.
  - intros e s He Hx. unfold forget. cbn [execs]. rewrite lookup_forget. case_decide as Hd; [|done].
    destruct (Hgone e Hd) as (x & s' & _ & Hs' & Hx'). congruence.
  - intros e s He. unfold forget at 1. cbn [execs]. rewrite lookup_forget. case_decide as Hd; [|congruence]. intros _.
    split_and!; [unfold forget; cbn [cancelled]; set_solver|done|].
    intros k sk x y Hk Hy Hx. destruct (Hgone e Hd) as (x' & s' & Hin & Hs' & Hx').
    assert (x' = x) as -> by congruence.
    assert (Hky : (k, y) ∈ drop n sorted).
    { rewrite <- Hdrop, <- Hrest. apply exited_in_elem. split; [|eauto]. apply Hwalk.
      unfold forget in Hk. cbn [execs] in Hk. rewrite lookup_forget in Hk. case_decide; [done|eauto]. }
    rewrite <- (take_drop n sorted) in Hs. eapply StronglySorted_app_1_elem_of in Hs; [|exact Hin|exact Hky]. exact Hs.
Qed.

Definition one_exited : table :=
  MkTable {["e1" := MkSession "a" true (Some 5); "e2" := MkSession "a" true None]} {["a" := 1]} 1 ∅.

Lemma capExitedExecs_spec_witness :
  execs (capExitedExecs "a" ["e1"; "e2"] one_exited) !! "e2" = Some (MkSession "a" true None).
Proof.
  assert (Hw : ∀ e, e ∈ ["e1"; "e2"] ↔ is_Some (execs one_exited !! e)).
  { intros e. unfold one_exited. cbn [execs]. rewrite lookup_insert_is_Some, lookup_singleton_is_Some. set_solver. }
  destruct (capExitedExecs_spec "a" ["e1"; "e2"] one_exited ltac:(by apply (bool_decide_unpack _); vm_compute) Hw) as (_ & H & _).
  apply H; reflexivity.
Defined.

(** A sandbox that ends takes its execs with it and no others: each of its own is forgotten and cancelled, and
    every other sandbox's table entry stays as it was. *)
Theorem dropExecs_spec id t :
  (∀ e, execOf (dropExecs id t) id e = None) ∧
  (∀ e s, execs t !! e = Some s → sandboxID s = id → execs (dropExecs id t) !! e = None ∧ e ∈ cancelled (dropExecs id t)) ∧
  (∀ e s, execs t !! e = Some s → sandboxID s ≠ id → execs (dropExecs id t) !! e = Some s).
Proof.
  unfold dropExecs, execOf. cbn [execs cancelled]. split_and!.
  - intros e. destruct (filter _ (execs t) !! e) as [s|] eqn:E; [|done]. apply map_lookup_filter_Some in E as [_ E]. simpl in E.
    apply String.eqb_neq in E. by rewrite E.
  - intros e s He Hs. split.
    + apply map_lookup_filter_None. right. intros s' Hs'. simpl. congruence.
    + apply elem_of_union. right. apply elem_of_dom. exists s. by apply map_lookup_filter_Some.
  - intros e s He Hs. by apply map_lookup_filter_Some.
Qed.
