(* ===== verification/Locks.v ===== *)
(** * The locks of the sandboxes

    [lock], [tryLock], [ref], [release] and [unref] of [services/sandbox/service.go], run by any number of goroutines at once.
    A lock is an object on the heap with one slot and a count of the goroutines that hold or wait for it; the map of the
    service finds it by the id of its sandbox and forgets it when the count drops to zero. What is one step here is what
    the mutex of the map, or one channel operation, makes one step there. *)

From S2P Require Import Prelude.

(** [sandboxLock]: the buffered channel of one is full or not. *)
Record sandboxLock : Type := MkLock { slot : bool; refs : nat }.

(** Which of the two asked for the lock. *)
Inductive asking : Type := Lock | TryLock.

(** Where a goroutine is. A lock it has is the object [ref] answered, whatever the map says by then. *)
Inductive place : Type :=
| Elsewhere
| Asked (by_ : asking) (id : string) (l : nat)
| Waits (id : string) (l : nat)
| Holds (id : string) (l : nat)
| Emptied (id : string) (l : nat)
| Leaves (id : string) (l : nat).

Record world : Type := MkWorld { locks : gmap string nat; heap : gmap nat sandboxLock; threads : list place }.

Definition start_world (n : nat) : world := MkWorld ∅ ∅ (replicate n Elsewhere).

(** ** The operations *)

Definition put (t : nat) (p : place) (w : world) : world := MkWorld (locks w) (heap w) (<[t := p]> (threads w)).
Definition set_lock (l : nat) (x : sandboxLock) (w : world) : world := MkWorld (locks w) (<[l := x]> (heap w)) (threads w).

(** [ref]: the lock of the id, made when there is none, with one more count. *)
Definition ref (id : string) (w : world) : option (nat * world) :=
  match locks w !! id with
  | Some l => match heap w !! l with
              | Some x => Some (l, set_lock l (MkLock (slot x) (S (refs x))) w)
              | None => None
              end
  | None => let l := fresh (dom (heap w)) in
            Some (l, MkWorld (<[id := l]> (locks w)) (<[l := MkLock false 1]> (heap w)) (threads w))
  end.

(** [unref] looks the lock up again; a nil there would be a crash, and is none of its answers. *)
Definition unref (id : string) (w : world) : option world :=
  l ← locks w !! id;
  x ← heap w !! l;
  Some (let w := set_lock l (MkLock (slot x) (pred (refs x))) w in
        if decide (pred (refs x) = 0) then MkWorld (delete id (locks w)) (heap w) (threads w) else w).

(** The send on the slot, when it is empty. *)
Definition fill (l : nat) (w : world) : option world :=
  x ← heap w !! l; if slot x then None else Some (set_lock l (MkLock true (refs x)) w).
Definition empty_slot (l : nat) (w : world) : option world :=
  x ← heap w !! l; if slot x then Some (set_lock l (MkLock false (refs x)) w) else None.
Definition full (l : nat) (w : world) : bool := match heap w !! l with Some x => slot x | None => false end.

(** What a goroutine does next. *)
Inductive action : Type :=
| Ask (by_ : asking) (id : string)
| Send
| Default
| CtxDone
| Release
| Unref.

Definition fire (t : nat) (a : action) (w : world) : option world :=
  p ← threads w !! t;
  match a, p with
  | Ask by_ id, Elsewhere => lw ← ref id w; let '(l, w) := lw in Some (put t (Asked by_ id l) w)
  | Send, (Asked _ id l | Waits id l) => w ← fill l w; Some (put t (Holds id l) w)
  | Default, Asked Lock id l => if full l w then Some (put t (Waits id l) w) else None
  | Default, Asked TryLock id l => if full l w then Some (put t (Leaves id l) w) else None
  | CtxDone, Waits id l => Some (put t (Leaves id l) w)
  | Release, Holds id l => w ← empty_slot l w; Some (put t (Emptied id l) w)
  | Unref, (Emptied id _ | Leaves id _) => w ← unref id w; Some (put t Elsewhere w)
  | _, _ => None
  end.

Definition step (w w' : world) : Prop := ∃ t a, fire t a w = Some w'.

(** ** What each place counts for *)

Definition attached (p : place) : option (string * nat) :=
  match p with
  | Elsewhere => None
  | Asked _ id l | Waits id l | Holds id l | Emptied id l | Leaves id l => Some (id, l)
  end.
Definition fills (l : nat) (p : place) : bool := match p with Holds _ l' => bool_decide (l = l') | _ => false end.
Definition uses (l : nat) (p : place) : bool :=
  match attached p with Some (_, l') => bool_decide (l = l') | None => false end.

Fixpoint count (f : place → bool) (ps : list place) : nat :=
  match ps with [] => 0 | p :: ps => (if f p then 1 else 0) + count f ps end.

Lemma count_insert f t p q ps :
  ps !! t = Some q → count f (<[t := p]> ps) + (if f q then 1 else 0) = count f ps + (if f p then 1 else 0).
Proof.
  revert t. induction ps as [|x ps IH]; intros [|t] H; simplify_eq/=; [lia|]. specialize (IH t H). lia.
Qed.

Lemma count_pos f t q ps : ps !! t = Some q → f q = true → 0 < count f ps.
Proof.
  revert t. induction ps as [|x ps IH]; intros [|t] H Hf; simplify_eq/=; [rewrite Hf; lia|]. specialize (IH t H Hf). lia.
Qed.

Lemma count_two f t u p q ps :
  ps !! t = Some p → ps !! u = Some q → f p = true → f q = true → t ≠ u → 2 ≤ count f ps.
Proof.
  revert t u. induction ps as [|x ps IH]; intros [|t] [|u] Ht Hu Hp Hq Hne; simplify_eq/=.
  - rewrite Hp. pose proof (count_pos f u q ps Hu Hq). lia.
  - rewrite Hq. pose proof (count_pos f t p ps Ht Hp). lia.
  - specialize (IH t u Ht Hu Hp Hq ltac:(congruence)). lia.
Qed.

Lemma count_zero f ps : Forall (λ p, f p = false) ps → count f ps = 0.
Proof. induction 1 as [|p ps Hp _ IH]; [done|]. simpl. by rewrite Hp, IH. Qed.

Lemma count_zero_inv f t q ps : count f ps = 0 → ps !! t = Some q → f q = false.
Proof. intros H Ht. destruct (f q) eqn:E; [|done]. pose proof (count_pos f t q ps Ht E). lia. Qed.

(** ** The invariant *)

Record safe (w : world) : Prop := {
  (** a lock a goroutine has is the one the map finds *)
  sf_found : ∀ t p id l, threads w !! t = Some p → attached p = Some (id, l) → locks w !! id = Some l;
  (** a lock in the map is on the heap, and counts those who have it *)
  sf_counted : ∀ id l, locks w !! id = Some l → ∃ x, heap w !! l = Some x ∧ refs x = count (uses l) (threads w) ∧ refs x ≠ 0;
  (** the slot of a lock is full when a goroutine holds it, and one at most does *)
  sf_filled : ∀ l x, heap w !! l = Some x → count (fills l) (threads w) = if slot x then 1 else 0;
  (** one sandbox to a lock *)
  sf_one : ∀ id id' l, locks w !! id = Some l → locks w !! id' = Some l → id = id'
}.

Lemma safe_start n : safe (start_world n).
Proof.
  split; [|done|done|done]. intros t p id l H Ha. simpl in H. apply lookup_replicate in H as [-> _]. done.
Qed.

(** The places after one goroutine has moved. *)
Lemma places_after (t : nat) (p : place) (ps : list place) u q : <[t := p]> ps !! u = Some q → (u = t ∧ q = p) ∨ (u ≠ t ∧ ps !! u = Some q).
Proof.
  destruct (decide (u = t)) as [->|Hne]; [|rewrite list_lookup_insert_ne by done; auto].
  intros H. left. split; [done|]. apply list_lookup_insert_Some in H. naive_solver.
Qed.

Lemma count_same f t p q ps : ps !! t = Some q → f p = f q → count f (<[t := p]> ps) = count f ps.
Proof. intros H E. pose proof (count_insert f t p q ps H) as Hc. rewrite E in Hc. lia. Qed.

(** A step between places that have the same lock and the same claim on its slot. *)
Lemma safe_put t p q w : safe w → threads w !! t = Some q → attached p = attached q → (∀ l, fills l p = fills l q) → safe (put t p w).
Proof.
  intros [Hf Hc Hs Ho] Ht Ha Hfl. split; cbn [put locks heap threads]; [..|exact Ho].
  - intros u r id l Hu Hr. apply places_after in Hu as [[-> ->]|[Hut Hu]]; [|by eapply Hf]. rewrite Ha in Hr. by eapply Hf.
  - intros id l Hl. destruct (Hc id l Hl) as (x & Hx & Hr & Hn). exists x. split_and!; [done| |done]. rewrite Hr. symmetry.
    apply (count_same _ t p q); [done|]. unfold uses. by rewrite Ha.
  - intros l x Hx. rewrite (count_same (fills l) t p q) by done. by apply Hs.
Qed.

(** A change of the slot by the goroutine that fills or empties it. *)
Lemma safe_slot t p q w l x b :
  safe w → threads w !! t = Some q → attached p = attached q → heap w !! l = Some x →
  (∀ l', l' ≠ l → fills l' p = fills l' q) → (if fills l p then 1 else 0) + (if slot x then 1 else 0) = (if fills l q then 1 else 0) + (if (b : bool) then 1 else 0) →
  safe (put t p (set_lock l (MkLock b (refs x)) w)).
Proof.
  intros [Hf Hc Hs Ho] Ht Ha Hx Hfl Hb. split; cbn [put set_lock locks heap threads]; [..|exact Ho].
  - intros u r id l' Hu Hr. apply places_after in Hu as [[-> ->]|[Hut Hu]]; [|by eapply Hf]. rewrite Ha in Hr. by eapply Hf.
  - intros id l' Hl. destruct (Hc id l' Hl) as (y & Hy & Hr & Hn). rewrite (count_same (uses l') t p q); [|done|unfold uses; by rewrite Ha].
    destruct (decide (l' = l)) as [->|Hne]; [|exists y; by rewrite lookup_insert_ne].
    rewrite Hx in Hy. injection Hy as <-. exists (MkLock b (refs x)). by rewrite lookup_insert_eq.
  - intros l' y Hy. destruct (decide (l' = l)) as [->|Hne].
    + rewrite lookup_insert_eq in Hy. injection Hy as <-. cbn [slot]. pose proof (count_insert (fills l) t p q (threads w) Ht) as Hi.
      specialize (Hs l x Hx). lia.
    + rewrite lookup_insert_ne in Hy by done. rewrite (count_same (fills l') t p q); [by apply Hs|done|by apply Hfl].
Qed.

Lemma uses_attached l p id : attached p = Some (id, l) → uses l p = true.
Proof. intros H. unfold uses. rewrite H. by apply bool_decide_eq_true. Qed.

Lemma uses_none l p : attached p = None → uses l p = false.
Proof. intros H. unfold uses. by rewrite H. Qed.

Lemma uses_other l l' p id : attached p = Some (id, l) → l' ≠ l → uses l' p = false.
Proof. intros H Hne. unfold uses. rewrite H. by apply bool_decide_eq_false. Qed.

Lemma safe_ref t by_ id l w w' :
  safe w → threads w !! t = Some Elsewhere → ref id w = Some (l, w') → safe (put t (Asked by_ id l) w').
Proof.
  intros [Hf Hc Hs Ho] Ht. unfold ref. destruct (locks w !! id) as [l0|] eqn:El.
  - destruct (Hc id l0 El) as (x & Hx & Hr & Hn). rewrite Hx. intros [= <- <-]. split; cbn [put set_lock locks heap threads]; [..|exact Ho].
    + intros u p i l Hu Hp. apply places_after in Hu as [[-> ->]|[Hut Hu]]; [injection Hp as <- <-; done|by eapply Hf].
    + intros i l Hl. destruct (Hc i l Hl) as (y & Hy & Hry & Hny). pose proof (count_insert (uses l) t (Asked by_ id l0) Elsewhere (threads w) Ht) as Hi.
      destruct (decide (l = l0)) as [->|Hne].
      * rewrite lookup_insert_eq. eexists. split; [done|]. cbn [refs]. rewrite (uses_attached l0 (Asked by_ id l0) id eq_refl) in Hi. cbn in Hi. split; [lia|done].
      * exists y. rewrite lookup_insert_ne by done. rewrite (uses_other l0 l (Asked by_ id l0) id eq_refl Hne) in Hi. cbn in Hi. split_and!; [done|lia|done].
    + intros l y Hy. rewrite (count_same (fills l) t (Asked by_ id l0) Elsewhere) by done. destruct (decide (l = l0)) as [->|Hne].
      * rewrite lookup_insert_eq in Hy. injection Hy as <-. exact (Hs l0 x Hx).
      * rewrite lookup_insert_ne in Hy by done. by apply Hs.
  - intros [= <- <-]. set (l := fresh (dom (heap w))). assert (Hl : heap w !! l = None) by (apply not_elem_of_dom, is_fresh).
    assert (Hnew : Forall (λ p, uses l p = false) (threads w)).
    { apply Forall_lookup. intros u p Hu. destruct (uses l p) eqn:E; [|done]. unfold uses in E. destruct (attached p) as [[i l']|] eqn:Ep; [|done].
      apply bool_decide_eq_true in E as <-. destruct (Hc i l (Hf u p i l Hu Ep)) as (x & Hx & _). congruence. }
    split; cbn [put locks heap threads].
    + intros u p i l' Hu Hp. apply places_after in Hu as [[-> ->]|[Hut Hu]]; [injection Hp as <- <-; by rewrite lookup_insert_eq|].
      specialize (Hf u p i l' Hu Hp). rewrite lookup_insert_ne; [done|]. congruence.
    + intros i l' Hi. pose proof (count_insert (uses l') t (Asked by_ id l) Elsewhere (threads w) Ht) as Hu.
      destruct (decide (i = id)) as [->|Hne].
      * rewrite lookup_insert_eq in Hi. injection Hi as <-. rewrite lookup_insert_eq. eexists. split; [done|]. cbn [refs].
        rewrite (uses_attached l (Asked by_ id l) id eq_refl), (count_zero (uses l) (threads w) Hnew) in Hu. cbn in Hu. split; [lia|done].
      * rewrite lookup_insert_ne in Hi by done. destruct (Hc i l' Hi) as (y & Hy & Hr & Hn). assert (Hll : l' ≠ l) by congruence.
        exists y. rewrite lookup_insert_ne by done. rewrite (uses_other l l' (Asked by_ id l) id eq_refl Hll) in Hu. cbn in Hu. split_and!; [done|lia|done].
    + intros l' y Hy. rewrite (count_same (fills l') t (Asked by_ id l) Elsewhere) by done. destruct (decide (l' = l)) as [->|Hne].
      * rewrite lookup_insert_eq in Hy. injection Hy as <-. apply count_zero. eapply Forall_impl; [exact Hnew|]. intros p. unfold uses, fills. by destruct p.
      * rewrite lookup_insert_ne in Hy by done. by apply Hs.
    + assert (Hold : ∀ i, locks w !! i ≠ Some l) by (intros i Hi; destruct (Hc i l Hi) as (x & Hx & _); congruence).
      intros i i' l' Hi Hi'. apply lookup_insert_Some in Hi as [[<- <-]|[Hni Hi]], Hi' as [[<- E]|[Hni' Hi']]; try done; [..|by eapply Ho].
      * by destruct (Hold i').
      * subst l'. by destruct (Hold i).
Qed.

Lemma safe_unref t p id l w :
  safe w → threads w !! t = Some p → attached p = Some (id, l) → (∀ l, fills l p = false) →
  ∃ w', unref id w = Some w' ∧ safe (put t Elsewhere w').
Proof.
  intros [Hf Hc Hs Ho] Ht Hp Hfl. pose proof (Hf t p id l Ht Hp) as Hl. destruct (Hc id l Hl) as (x & Hx & Hr & Hn).
  unfold unref. rewrite Hl. cbn [mbind option_bind]. rewrite Hx. eexists. split; [done|].
  pose proof (count_insert (uses l) t Elsewhere p (threads w) Ht) as Hi. rewrite (uses_attached l p id Hp) in Hi. cbn in Hi.
  assert (Hother : ∀ l', l' ≠ l → count (uses l') (<[t := Elsewhere]> (threads w)) = count (uses l') (threads w)).
  { intros l' Hne. apply (count_same _ t Elsewhere p); [done|]. by rewrite (uses_other l l' p id Hp Hne). }
  assert (Hfilled : ∀ l' y, <[l := MkLock (slot x) (pred (refs x))]> (heap w) !! l' = Some y →
    count (fills l') (<[t := Elsewhere]> (threads w)) = if slot y then 1 else 0).
  { intros l' y Hy. rewrite (count_same (fills l') t Elsewhere p); [|done|by rewrite Hfl].
    apply lookup_insert_Some in Hy as [[<- <-]|[_ Hy]]; [exact (Hs l x Hx)|by apply Hs]. }
  case_decide as Hz; split; cbn [put set_lock locks heap threads]; try exact Hfilled; [..|exact Ho].
  - intros u q i l' Hu Hq. apply places_after in Hu as [[-> ->]|[Hut Hu]]; [done|]. rewrite lookup_delete_ne; [by eapply Hf|]. intros <-.
    assert (l' = l) as -> by (pose proof (Hf u q id l' Hu Hq); congruence).
    assert (H2 : <[t := Elsewhere]> (threads w) !! u = Some q) by (by rewrite list_lookup_insert_ne).
    pose proof (count_pos (uses l) u q _ H2 (uses_attached l q id Hq)). lia.
  - intros i l' [Hni Hl']%lookup_delete_Some. destruct (Hc i l' Hl') as (y & Hy & Hry & Hny).
    assert (Hne : l' ≠ l) by (intros ->; by destruct Hni; eapply Ho). exists y. rewrite lookup_insert_ne, Hother by done. done.
  - intros i i' l' [_ Hi']%lookup_delete_Some [_ Hi2]%lookup_delete_Some. by eapply Ho.
  - intros u q i l' Hu Hq. apply places_after in Hu as [[-> ->]|[Hut Hu]]; [done|]. by eapply Hf.
  - intros i l' Hl'. destruct (Hc i l' Hl') as (y & Hy & Hry & Hny). destruct (decide (l' = l)) as [->|Hne].
    + rewrite lookup_insert_eq. eexists. split; [done|]. cbn [refs]. split; [lia|done].
    + exists y. rewrite lookup_insert_ne, Hother by done. done.
Qed.

Lemma safe_step w w' : step w w' → safe w → safe w'.
Proof.
  intros (t & a & H) Hw. unfold fire in H. destruct (threads w !! t) as [p|] eqn:Ht; [|done]. cbn [mbind option_bind] in H.
  assert (Hsend : ∀ id l, attached p = Some (id, l) → (∀ l', fills l' p = false) →
    (w0 ← fill l w; Some (put t (Holds id l) w0)) = Some w' → safe w').
  { intros id l Hp Hfl Hs. unfold fill in Hs. destruct (heap w !! l) as [x|] eqn:Hx; [|done]. cbn [mbind option_bind] in Hs.
    destruct (slot x) eqn:Esl; [done|]. injection Hs as <-. apply (safe_slot t (Holds id l) p w l x true); [done..| |].
    - intros l' Hne. rewrite Hfl. cbn. by apply bool_decide_eq_false.
    - rewrite Esl, Hfl. cbn. by rewrite bool_decide_true. }
  assert (Hun : ∀ id l, attached p = Some (id, l) → (∀ l', fills l' p = false) →
    (w0 ← unref id w; Some (put t Elsewhere w0)) = Some w' → safe w').
  { intros id l Hp Hfl Hs. destruct (safe_unref t p id l w Hw Ht Hp Hfl) as (w1 & E & Hsafe). rewrite E in Hs. by injection Hs as <-. }
  destruct a as [by_ id| | | | |], p as [|by0 id0 l|id0 l|id0 l|id0 l|id0 l]; try done; try (by eapply Hsend); try (by eapply Hun).
  - destruct (ref id w) as [[l w0]|] eqn:Er; [|done]. cbn in H. injection H as <-. by eapply safe_ref.
  - destruct by0, (full l w); try done; injection H as <-; by eapply safe_put.
  - injection H as <-. by apply (safe_put _ _ (Waits id0 l)).
  - unfold empty_slot in H. destruct (heap w !! l) as [x|] eqn:Hx; [|done]. cbn [mbind option_bind] in H. destruct (slot x) eqn:Esl; [|done].
    injection H as <-. apply (safe_slot t (Emptied id0 l) (Holds id0 l) w l x false); [done..| |].
    + intros l' Hne. cbn. symmetry. by apply bool_decide_eq_false.
    + rewrite Esl. cbn. by rewrite bool_decide_true.
Qed.

Lemma safe_reached n w : rtc step (start_world n) w → safe w.
Proof. intros H. assert (Hs := safe_start n). induction H; [done|]. apply IHrtc. by eapply safe_step. Qed.

(** A goroutine past its [ref] and before its [unref] of [id]. *)
Definition concerned (id : string) (p : place) : Prop := ∃ l, attached p = Some (id, l).

(** C21: The locks of the sandboxes, whatever the interleaving. No two goroutines hold the lock of one sandbox at once, though
    locks are made and forgotten as they come and go; the map keeps the lock of a sandbox exactly as long as some
    goroutine holds or waits for it; and whoever gives a lock up finds the one it had, so [unref] never meets a nil. *)
Theorem locks_exclusive n w :
  rtc step (start_world n) w →
  (∀ t u id l l', threads w !! t = Some (Holds id l) → threads w !! u = Some (Holds id l') → t = u) ∧
  (∀ id, is_Some (locks w !! id) ↔ ∃ t p, threads w !! t = Some p ∧ concerned id p) ∧
  (∀ t id l, threads w !! t = Some (Emptied id l) ∨ threads w !! t = Some (Leaves id l) → is_Some (fire t Unref w)).
Proof.
  intros Hr. pose proof (safe_reached n w Hr) as Hw. destruct Hw as [Hf Hc Hs Ho]. split_and!.
  - intros t u id l l' Ht Hu. assert (l' = l) as ->.
    { pose proof (Hf t _ id l Ht eq_refl). pose proof (Hf u _ id l' Hu eq_refl). congruence. }
    destruct (decide (t = u)) as [|Hne]; [done|]. destruct (Hc id l (Hf t _ id l Ht eq_refl)) as (x & Hx & _).
    assert (Hl : fills l (Holds id l) = true) by (cbn; by apply bool_decide_eq_true).
    pose proof (count_two (fills l) t u _ _ (threads w) Ht Hu Hl Hl Hne) as H2. rewrite (Hs l x Hx) in H2. destruct (slot x); lia.
  - intros id. split.
    + intros [l Hl]. destruct (Hc id l Hl) as (x & Hx & Hre & Hn). assert (Hex : Exists (λ p, uses l p = true) (threads w)).
      { destruct (decide (Exists (λ p, uses l p = true) (threads w))) as [|Hno]; [done|]. destruct Hn. rewrite Hre. apply count_zero.
        apply Forall_forall. intros p Hp. apply not_true_is_false. intros E. apply Hno, Exists_exists. eauto. }
      apply Exists_exists in Hex as (p & Hp & Hu). apply list_elem_of_lookup in Hp as [t Ht]. exists t, p. split; [done|].
      unfold uses in Hu. destruct (attached p) as [[i l']|] eqn:Ep; [|done]. apply bool_decide_eq_true in Hu as <-. exists l.
      rewrite Ep. rewrite (Ho i id l); [done|by eapply Hf|done].
    + intros (t & p & Ht & l & Hp). exists l. by eapply Hf.
  - intros t id l Ht. unfold fire. destruct Ht as [Ht|Ht]; rewrite Ht; cbn [mbind option_bind].
    + destruct (safe_unref t (Emptied id l) id l w) as (w1 & -> & _); [by split|exact Ht|done|done|]. by eexists.
    + destruct (safe_unref t (Leaves id l) id l w) as (w1 & -> & _); [by split|exact Ht|done|done|]. by eexists.
Qed.

(** ** Two goroutines and one lock *)

Definition runs (script : list (nat * action)) (w : world) : option world :=
  foldl (λ w ta, w ≫= fire ta.1 ta.2) (Some w) script.

Lemma runs_none script : foldl (λ w ta, w ≫= fire ta.1 ta.2) None script = None.
Proof. by induction script. Qed.

Lemma runs_steps script w w' : runs script w = Some w' → rtc step w w'.
Proof.
  revert w. induction script as [|[t a] script IH]; intros w; [by intros [= <-]|]. unfold runs. cbn [foldl mbind option_bind fst snd].
  destruct (fire t a w) as [w1|] eqn:E; [|by rewrite runs_none]. intros H. eapply rtc_l; [by exists t, a|]. by apply IH.
Qed.

(** The first holds, the second waits, and gets the lock the first gave up. *)
Definition handover : list (nat * action) :=
  [(0, Ask Lock "a"); (0, Send); (1, Ask Lock "a"); (1, Default); (0, Release); (1, Send); (0, Unref)].

Definition handed : world := default (start_world 2) (runs handover (start_world 2)).

Lemma locks_exclusive_witness :
  (threads handed = [Elsewhere; Holds "a" 0] ∧ is_Some (locks handed !! "a") ∧
  (∀ t u id l l', threads handed !! t = Some (Holds id l) → threads handed !! u = Some (Holds id l') → t = u)).
Proof.
  split; [vm_compute; reflexivity|]. split; [apply (bool_decide_unpack _); vm_compute; reflexivity|].
  refine (proj1 (locks_exclusive 2 handed _)). apply (runs_steps handover). vm_compute. reflexivity.
Defined.
