(* ===== verification/ExecBuffer.v ===== *)
(** * The output of an exec

    [execBuffer] of [services/sandbox/exec.go]: the last bytes a command wrote, for whoever attaches. Writes by the copiers of
    the command, the loop of one attached client and the daemon's own steps take turns at the buffer's mutex in any
    order; each is one step here. A write that has to wait for the client is a write that is not enabled; the stall
    bound, after which the daemon detaches the client, may pass at any time while a write waits. The wake-ups, the
    progress times they are measured from and the counts of waits for the statistics are not modelled. *)

From S2P Require Import Prelude GoStrings.
Local Open Scope Z_scope.

Definition execBufferCap : Z := 8 * 2 ^ 20.

Record chunk : Type := MkChunk { c_data : string; c_stderr : bool }.
Definition clen (c : chunk) : Z := Z.of_nat (String.length (c_data c)).

(** [follower]: [stalled] once the buffer has detached it. *)
Record follower : Type := MkFollower { stalled : bool; f_at : Z }.

Record execBuffer : Type := MkBuffer {
  chunks : list chunk;
  size : Z;
  dropped : nat;
  truncated : bool;
  closed : bool;
  released : bool;
  discarded : bool;
  follower_of : option nat;
  evicted : Z;
  taken : Z;
  lost : Z
}.

(** The buffer and the followers its clients point to. *)
Record shared : Type := MkShared { buf : execBuffer; fs : gmap nat follower }.

(** [newExecBuffer]: a hold is a follower with no client. *)
Definition newExecBuffer (hold : bool) : shared :=
  MkShared (MkBuffer [] 0 0 false false false false (if hold then Some 0%nat else None) 0 0 0)
    (if hold then {[0%nat := MkFollower false 0]} else ∅).

(** ** append *)

Definition drop_first (c : chunk) (rest : list chunk) (b : execBuffer) : execBuffer :=
  MkBuffer rest (size b - clen c) (S (dropped b)) true (closed b) (released b) (discarded b) (follower_of b)
    (evicted b + clen c) (taken b) (if taken b <=? evicted b then lost b + clen c else lost b).

(** The loop that evicts the oldest chunks over the cap, on the buffer whose chunks are [cs]. *)
Fixpoint evict (cs : list chunk) (b : execBuffer) : execBuffer :=
  match cs with
  | c :: ((_ :: _) as rest) => if execBufferCap <? size b then evict rest (drop_first c rest b) else b
  | _ => b
  end.

Definition add_chunk (c : chunk) (b : execBuffer) : execBuffer :=
  MkBuffer (chunks b ++ [c]) (size b + clen c) (dropped b) (truncated b) (closed b) (released b) (discarded b) (follower_of b)
    (evicted b) (taken b) (lost b).

(** [append], once [await] has let it through. *)
Definition append_ (c : chunk) (b : execBuffer) : execBuffer := let b := add_chunk c b in evict (chunks b) b.

Definition owed (s : shared) (f : follower) : Z := evicted (buf s) + size (buf s) - Z.max (f_at f) (evicted (buf s)).

Definition full_ (s : shared) (n : Z) : bool :=
  released (buf s) &&
  match follower_of (buf s) with
  | Some i => match fs s !! i with
              | Some f => (0 <? owed s f) && (execBufferCap <? owed s f + n)
              | None => false
              end
  | None => false
  end.

(** ** The other operations *)

Definition set_follower (f : option nat) (b : execBuffer) : execBuffer :=
  MkBuffer (chunks b) (size b) (dropped b) (truncated b) (closed b) (released b) (discarded b) f (evicted b) (taken b) (lost b).

Definition detach (s : shared) : shared :=
  match follower_of (buf s) with
  | Some i => MkShared (set_follower None (buf s)) (alter (λ f, MkFollower true (f_at f)) i (fs s))
  | None => s
  end.

Definition follow (s : shared) : nat * shared :=
  let i := fresh (dom (fs s)) in (i, MkShared (set_follower (Some i) (buf s)) (<[i := MkFollower false 0]> (fs s))).

Definition unfollow (i : nat) (s : shared) : shared :=
  if bool_decide (follower_of (buf s) = Some i) then MkShared (set_follower None (buf s)) (fs s) else s.

Definition take_ (i : nat) (at_ : Z) (s : shared) : shared :=
  let b := buf s in
  MkShared (MkBuffer (chunks b) (size b) (dropped b) (truncated b) (closed b) (released b) (discarded b) (follower_of b) (evicted b)
              (Z.max (taken b) at_) (lost b))
    (alter (λ f, MkFollower (stalled f) at_) i (fs s)).

Definition close_ (b : execBuffer) : execBuffer :=
  MkBuffer (chunks b) (size b) (dropped b) (truncated b) true (released b) (discarded b) (follower_of b) (evicted b) (taken b) (lost b).

Definition release_ (b : execBuffer) : execBuffer :=
  if discarded b then b
  else MkBuffer (chunks b) (size b) (dropped b) (truncated b) (closed b) true (discarded b) (follower_of b) (evicted b) (taken b) (lost b).

Definition discard_ (b : execBuffer) : execBuffer :=
  if released b then b
  else MkBuffer [] 0 (dropped b) (truncated b) (closed b) (released b) true (follower_of b) (evicted b) (taken b) (lost b).

(** ** stream *)

(** The loop of one client: its follower, the next chunk it will copy and the offset it has accepted up to, the batch it
    copied and has not yet sent, what it read of [closed]. For the theorems: what it has sent, whether it has looked into
    an open buffer, and the first chunk it found there. *)
Record client : Type := MkClient {
  c_f : nat; c_next : nat; c_at : Z; c_batch : list chunk; c_closed : bool;
  c_out : list chunk; c_seen : bool; c_first : nat
}.

Definition new_client (i : nat) : client := MkClient i 0 0 [] false [] false 0.

(** One turn of the loop under the mutex. *)
Definition look (c : client) (b : execBuffer) : client :=
  if released b then
    let '(next, at_) := if (c_next c <? dropped b)%nat then (dropped b, evicted b) else (c_next c, c_at c) in
    let batch := drop (next - dropped b) (chunks b) in
    MkClient (c_f c) (next + length batch) at_ batch (closed b) (c_out c) true (if c_seen c then c_first c else next)
  else MkClient (c_f c) (c_next c) (c_at c) [] (closed b) (c_out c) (c_seen c) (c_first c).

(** One chunk the client accepted. *)
Definition sent (x : chunk) (rest : list chunk) (c : client) : client :=
  MkClient (c_f c) (c_next c) (c_at c + clen x) rest (c_closed c) (c_out c ++ [x]) (c_seen c) (c_first c).

(** ** The steps, in any order *)

Record world : Type := MkWorld {
  sh : shared;
  me : option client;
  (** the clients whose stream returned with no error *)
  finished : list client;
  (** all that was written, less what a discard dropped *)
  hist : list chunk;
  (** how much of it when the buffer was closed *)
  ended : option nat
}.

Inductive event : Type :=
| Write (c : chunk) | Stall (n : Z) | Release_ | Discard | Close_
| Attach | Look | Emit | Leave | Finish.

Definition with_buf (f : execBuffer → execBuffer) (w : world) : world :=
  MkWorld (MkShared (f (buf (sh w))) (fs (sh w))) (me w) (finished w) (hist w) (ended w).

(** The first close is the one that is noted. *)
Definition closes (w : world) : world :=
  MkWorld (MkShared (close_ (buf (sh w))) (fs (sh w))) (me w) (finished w) (hist w)
    (if closed (buf (sh w)) then ended w else Some (length (hist w))).

(** A copier writes what it read, which is never nothing, also after the close: the terminal's copier may outlive the wait
    for it. [settleBuffer] is the one that closes, after it has released the buffer or discarded what it held. *)
Definition happens (e : event) (w : world) : option world :=
  let s := sh w in
  match e, me w with
  | Write c, _ =>
      if bool_decide (c_data c ≠ "") && negb (full_ s (clen c)) then
        Some (MkWorld (MkShared (append_ c (buf s)) (fs s)) (me w) (finished w) (hist w ++ [c]) (ended w))
      else None
  | Stall n, _ => if full_ s n then Some (MkWorld (detach s) (me w) (finished w) (hist w) (ended w)) else None
  | Release_, _ => Some (with_buf release_ w)
  | Discard, _ =>
      Some (MkWorld (MkShared (discard_ (buf s)) (fs s)) (me w) (finished w)
              (if released (buf s) then hist w else take (dropped (buf s)) (hist w)) (ended w))
  | Close_, _ => if released (buf s) || discarded (buf s) then Some (closes w) else None
  | Attach, None => let '(i, s) := follow s in Some (MkWorld s (Some (new_client i)) (finished w) (hist w) (ended w))
  | Look, Some c =>
      match c_batch c, fs s !! c_f c with
      | [], Some f => if stalled f || c_closed c then None else Some (MkWorld s (Some (look c (buf s))) (finished w) (hist w) (ended w))
      | _, _ => None
      end
  | Emit, Some c =>
      match c_batch c with
      | x :: rest => Some (MkWorld (take_ (c_f c) (c_at c + clen x) s) (Some (sent x rest c)) (finished w) (hist w) (ended w))
      | [] => None
      end
  | Leave, Some c => Some (MkWorld (unfollow (c_f c) s) None (finished w) (hist w) (ended w))
  | Finish, Some c =>
      if c_closed c && bool_decide (c_batch c = []) then
        Some (MkWorld (unfollow (c_f c) s) None (c :: finished w) (hist w) (ended w))
      else None
  | _, _ => None
  end.

Definition world_step (w w' : world) : Prop := ∃ e, happens e w = Some w'.
Definition first_world (hold : bool) : world := MkWorld (newExecBuffer hold) None [] [] None.

(** ** Bytes *)

Definition total (cs : list chunk) : Z := foldr (λ c n, clen c + n) 0 cs.

Lemma total_cons c cs : total (c :: cs) = clen c + total cs.
Proof. done. Qed.

Lemma total_app a b : total (a ++ b) = total a + total b.
Proof. induction a as [|c a IH]; simpl; [done|]. unfold total in *. simpl. lia. Qed.

Lemma total_take_drop k cs : total (take k cs) + total (drop k cs) = total cs.
Proof. rewrite <- total_app. by rewrite take_drop. Qed.

Lemma total_nonneg cs : 0 ≤ total cs.
Proof. induction cs as [|c cs IH]; [done|]. unfold total, clen in *. simpl. lia. Qed.

Lemma total_drop_le i j cs : (i ≤ j)%nat → total (drop j cs) ≤ total (drop i cs).
Proof.
  intros H. replace j with (i + (j - i))%nat by lia. rewrite <- drop_drop. pose proof (total_take_drop (j - i) (drop i cs)).
  pose proof (total_nonneg (take (j - i) (drop i cs))). lia.
Qed.

Lemma total_take_le i j cs : (i ≤ j)%nat → total (take i cs) ≤ total (take j cs).
Proof. intros H. pose proof (total_take_drop i cs). pose proof (total_take_drop j cs). pose proof (total_drop_le i j cs H). lia. Qed.

Definition filled (cs : list chunk) : Prop := Forall (λ c, 0 < clen c) cs.

Lemma total_zero cs : filled cs → total cs = 0 → cs = [].
Proof. intros Hf H. destruct Hf as [|c cs Hc _]; [done|]. unfold total in H. simpl in H. pose proof (total_nonneg cs). unfold total in *. lia. Qed.

(** ** Evicting *)

Definition same_flags (b b' : execBuffer) : Prop :=
  closed b' = closed b ∧ released b' = released b ∧ discarded b' = discarded b ∧ follower_of b' = follower_of b ∧ taken b' = taken b.

Lemma evict_cons c c' rest b :
  evict (c :: c' :: rest) b = if execBufferCap <? size b then evict (c' :: rest) (drop_first c (c' :: rest) b) else b.
Proof. done. Qed.

Lemma evict_spec cs b :
  chunks b = cs → size b = total cs →
  ∃ m, chunks (evict cs b) = drop m cs ∧ size (evict cs b) = total (drop m cs) ∧ dropped (evict cs b) = (dropped b + m)%nat ∧
    evicted (evict cs b) = evicted b + total (take m cs) ∧ truncated (evict cs b) = (truncated b || bool_decide (0 < m)%nat) ∧
    (m = 0 ∨ m < length cs)%nat ∧ (size (evict cs b) ≤ execBufferCap ∨ (length (drop m cs) ≤ 1)%nat) ∧
    (m = 0%nat ∨ execBufferCap < total (drop (pred m) cs)) ∧ same_flags b (evict cs b).
Proof.
  revert b. induction cs as [|c [|c' rest] IH]; intros b Hc Hs; [cbn [evict]..|rewrite evict_cons].
  - exists 0%nat. rewrite Hc, Hs. cbn. split_and!; auto; [lia|by rewrite orb_false_r|by repeat split].
  - exists 0%nat. rewrite Hc, Hs. cbn. split_and!; auto; [lia|by rewrite orb_false_r|by repeat split].
  - destruct (execBufferCap <? size b) eqn:E.
    + destruct (IH (drop_first c (c' :: rest) b)) as (m & H1 & H2 & H3 & H4 & H5 & H6 & H7 & H8 & H9); [done|cbn [size drop_first]; rewrite Hs, total_cons; lia|].
      exists (S m). change (drop (S m) (c :: c' :: rest)) with (drop m (c' :: rest)). change (take (S m) (c :: c' :: rest)) with (c :: take m (c' :: rest)).
      split_and!; [done|done| | | | |done| |exact H9].
      * rewrite H3. cbn [dropped drop_first]. lia.
      * rewrite H4, total_cons. cbn [evicted drop_first]. lia.
      * rewrite H5, (bool_decide_true (0 < S m)%nat), orb_true_r by lia. done.
      * right. cbn [length] in *. lia.
      * right. cbn [pred]. destruct m as [|m]; [cbn [drop]; apply Z.ltb_lt in E; lia|]. destruct H8 as [|H8]; [done|]. exact H8.
    + exists 0%nat. rewrite Hc, Hs. cbn [drop take]. split_and!; auto; [cbn; lia|by rewrite orb_false_r|left; lia|by repeat split].
Qed.

(** ** The invariant *)

Record client_ok (c : client) (f : follower) (w : world) : Prop := {
  ck_follows : stalled f = false → follower_of (buf (sh w)) = Some (c_f c);
  ck_closed : c_closed c = true → closed (buf (sh w)) = true;
  ck_unseen : c_seen c = false → c_out c = [] ∧ c_batch c = [] ∧ c_next c = 0%nat ∧ c_at c = 0 ∧ f_at f = 0 ∧
    (c_closed c = true → discarded (buf (sh w)) = true);
  ck_seen : c_seen c = true →
    released (buf (sh w)) = true ∧ (c_first c ≤ dropped (buf (sh w)))%nat ∧ (c_next c ≤ length (hist w))%nat ∧
    c_next c = (c_first c + length (c_out c ++ c_batch c))%nat ∧
    c_out c ++ c_batch c = take (c_next c - c_first c) (drop (c_first c) (hist w)) ∧
    c_at c = total (take (c_first c + length (c_out c)) (hist w)) ∧
    (f_at f = c_at c ∨ (c_out c = [] ∧ f_at f = 0)) ∧
    (stalled f = false → (dropped (buf (sh w)) ≤ c_first c + length (c_out c))%nat) ∧
    (c_closed c = true → ∃ n, ended w = Some n ∧ (n ≤ c_next c)%nat)
}.

(** The client sent the chunks from its first one on, and all that were written when the buffer was closed. *)
Definition all_but_late (c : client) (w : world) : Prop :=
  c_out c `prefix_of` drop (c_first c) (hist w) ∧
  ∃ n, ended w = Some n ∧ (n ≤ length (hist w))%nat ∧ (n ≤ c_first c + length (c_out c))%nat.

Definition delivered (w : world) (c : client) : Prop :=
  if c_seen c then released (buf (sh w)) = true ∧ all_but_late c w
  else discarded (buf (sh w)) = true ∧ c_out c = [].

Record buffer_ok (b : execBuffer) (h : list chunk) : Prop := {
  bk_filled : filled h;
  bk_dropped : (dropped b ≤ length h)%nat;
  bk_chunks : chunks b = drop (dropped b) h;
  bk_size : size b = total (chunks b);
  bk_evicted : evicted b = total (take (dropped b) h);
  bk_truncated : truncated b = bool_decide (0 < dropped b)%nat;
  bk_bound : size b ≤ execBufferCap ∨ (length (chunks b) ≤ 1)%nat;
  bk_one : released b = true → discarded b = false;
  bk_closed : closed b = true → released b = true ∨ discarded b = true
}.

Record ok (w : world) : Prop := {
  ok_buffer : buffer_ok (buf (sh w)) (hist w);
  ok_client : ∀ c, me w = Some c → ∃ f, fs (sh w) !! c_f c = Some f ∧ client_ok c f w;
  ok_finished : finished w = [] ∨ closed (buf (sh w)) = true;
  ok_ended : closed (buf (sh w)) = true → ∃ n, ended w = Some n ∧ (released (buf (sh w)) = true → n ≤ length (hist w))%nat;
  ok_delivered : Forall (delivered w) (finished w)
}.

Lemma ok_first hold : ok (first_world hold).
Proof.
  split; [|done|by left|done|constructor]. split; try done; [constructor|by left].
Qed.

(** ** A write *)

Lemma append_ok c b h :
  buffer_ok b h → 0 < clen c →
  buffer_ok (append_ c b) (h ++ [c]) ∧ same_flags b (append_ c b) ∧ (dropped b ≤ dropped (append_ c b))%nat ∧
  ((dropped (append_ c b) < length (h ++ [c]))%nat) ∧
  (dropped (append_ c b) = dropped b ∨ execBufferCap < total (drop (pred (dropped (append_ c b))) (h ++ [c]))).
Proof.
  intros [Hf Hd Hc Hs He Ht Hb Ho Hcl] Hlen. unfold append_. cbn [chunks add_chunk].
  assert (Hcs : chunks b ++ [c] = drop (dropped b) (h ++ [c])) by (rewrite drop_app_le by done; by rewrite Hc).
  destruct (evict_spec (chunks b ++ [c]) (add_chunk c b)) as (m & H1 & H2 & H3 & H4 & H5 & H6 & H7 & H8 & H9).
  { done. } { cbn [size add_chunk]. rewrite Hs, total_app. unfold total. simpl. lia. }
  cbn [dropped evicted truncated add_chunk] in H3, H4, H5. rewrite Hcs in *. rewrite drop_drop in *.
  assert (Hm : (dropped b + m < length (h ++ [c]))%nat) by (rewrite length_drop, length_app in *; simpl in *; lia).
  assert (Hflags : same_flags b (evict (drop (dropped b) (h ++ [c])) (add_chunk c b))) by exact H9.
  split; [|split_and!; [exact Hflags|rewrite H3; lia|by rewrite H3|]].
  - destruct H9 as (E1 & E2 & E3 & _). cbn [closed released discarded add_chunk] in *. split.
    + apply Forall_app. split; [done|]. by apply Forall_singleton.
    + rewrite H3. lia.
    + by rewrite H1, H3.
    + by rewrite H2, H1.
    + rewrite H4, H3, He, take_drop_commute. rewrite <- (total_take_drop (dropped b) (take (dropped b + m) (h ++ [c]))).
      rewrite take_take, Nat.min_l by apply Nat.le_add_r. 
      assert (Et : take (dropped b) (h ++ [c]) = take (dropped b) h) by (by apply take_app_le). by rewrite Et.
    + rewrite H5, H3, Ht. apply eq_true_iff_eq. rewrite orb_true_iff, !bool_decide_eq_true. lia.
    + rewrite H1. exact H7.
    + rewrite E2, E3. exact Ho.
    + rewrite E1, E2, E3. exact Hcl.
  - rewrite H3. destruct m as [|m]; [left; lia|]. destruct H8 as [|H8]; [done|]. right.
    replace (pred (dropped b + S m)) with (dropped b + pred (S m))%nat by lia. exact H8.
Qed.

(** The offset a client that follows has accepted up to is where the buffer counts what it owes from. *)
Lemma owed_spec c f w :
  ok w → client_ok c f w → c_seen c = true → stalled f = false →
  owed (sh w) f = total (drop (c_first c + length (c_out c)) (hist w)).
Proof.
  intros [[Hf Hd Hc Hs He _ _ _ _] _ _ _] [_ _ _ Hseen] Es Hst. destruct (Hseen Es) as (_ & Hfi & Hn & Hnx & _ & Hat & Hfat & Hdr & _).
  specialize (Hdr Hst). unfold owed. rewrite Hs, Hc, He. rewrite total_take_drop.
  pose proof (total_take_drop (c_first c + length (c_out c)) (hist w)) as Ht.
  pose proof (total_take_le (dropped (buf (sh w))) (c_first c + length (c_out c)) (hist w) Hdr) as Hle.
  destruct Hfat as [->|[Eo ->]]; [lia|]. rewrite Eo in *. cbn [length] in *.
  assert (dropped (buf (sh w)) = c_first c + 0)%nat as E by lia. rewrite E in *. pose proof (total_nonneg (take (c_first c + 0) (hist w))). lia.
Qed.

(** What lets a write through keeps it from evicting a chunk the client has not accepted. *)
Lemma write_spares x c f w :
  ok w → client_ok c f w → fs (sh w) !! c_f c = Some f → c_seen c = true → stalled f = false → full_ (sh w) (clen x) = false → 0 < clen x →
  (dropped (append_ x (buf (sh w))) ≤ c_first c + length (c_out c))%nat.
Proof.
  intros Hw Hck Hfs Es Hst Hfull Hx. pose proof (owed_spec c f w Hw Hck Es Hst) as How.
  destruct (append_ok x (buf (sh w)) (hist w) (ok_buffer w Hw) Hx) as (_ & _ & _ & Hlt & Hev).
  destruct Hck as [Hfo _ _ Hseen]. destruct (Hseen Es) as (Hrel & _ & Hn & Hnx & _ & _ & _ & Hdr & _). specialize (Hdr Hst).
  destruct Hev as [->|Hev]; [done|]. destruct (decide (dropped (append_ x (buf (sh w))) ≤ c_first c + length (c_out c))%nat) as [|Hno]; [done|].
  exfalso. rewrite length_app in Hlt. cbn [length] in Hlt. rewrite length_app in Hnx. set (k := (c_first c + length (c_out c))%nat) in *.
  pose proof (total_drop_le k (pred (dropped (append_ x (buf (sh w))))) (hist w ++ [x]) ltac:(lia)) as Hle.
  rewrite (drop_app_le (hist w) [x] k), total_app, total_cons in Hle by lia. change (total []) with 0 in Hle.
  unfold full_ in Hfull. rewrite Hrel, (Hfo Hst), Hfs, How in Hfull. cbn [andb] in Hfull.
  pose proof (total_nonneg (drop k (hist w))) as Hnn. destruct (decide (total (drop k (hist w)) = 0)) as [Hz|Hz].
  - apply total_zero in Hz; [|apply Forall_drop, (bk_filled _ _ (ok_buffer w Hw))].
    assert (length (drop k (hist w)) = 0%nat) as Hl by (by rewrite Hz). rewrite length_drop in Hl. lia.
  - apply andb_false_iff in Hfull as [Hq|Hq]; lia.
Qed.

Lemma drop_written k (h : list chunk) x : drop k h `prefix_of` drop k (h ++ [x]).
Proof. rewrite drop_app. by eexists. Qed.

Lemma Write_ok x w :
  ok w → c_data x ≠ "" → full_ (sh w) (clen x) = false →
  ok (MkWorld (MkShared (append_ x (buf (sh w))) (fs (sh w))) (me w) (finished w) (hist w ++ [x]) (ended w)).
Proof.
  intros Hw Hne Hfull. assert (Hx : 0 < clen x) by (unfold clen; destruct (c_data x); [done|simpl; lia]).
  destruct (append_ok x _ _ (ok_buffer w Hw) Hx) as (Hb & (E1 & E2 & E3 & E4 & E5) & Hd & _).
  split; cbn [sh buf fs me hist finished ended]; [done|..].
  - intros c Hc. destruct (ok_client w Hw c Hc) as (f & Hf & Hck). exists f. split; [done|].
    pose proof (λ Es Hst, write_spares x c f w Hw Hck Hf Es Hst Hfull Hx) as Hsp. destruct Hck as [H1 H2 H3 H4].
    split; cbn [sh buf fs hist ended]; rewrite ?E1, ?E2, ?E3, ?E4; [done|done|done|].
    intros Es. destruct (H4 Es) as (G1 & G2 & G3 & G4 & G5 & G6 & G7 & G8 & G9). pose proof G4 as G4'. rewrite length_app in G4'.
    split_and!; try done; [lia|rewrite length_app; lia|..].
    + rewrite G5. rewrite drop_app_le by lia. rewrite take_app_le; [done|]. rewrite length_drop. lia.
    + rewrite G6. f_equal. symmetry. apply take_app_le. lia.
    + intros Hst. by apply Hsp.
  - rewrite E1. apply Hw.
  - rewrite E1, E2. intros Hcl. destruct (ok_ended w Hw Hcl) as (n & Hn & Hle). exists n. split; [done|]. intros Hr. specialize (Hle Hr).
    rewrite length_app. lia.
  - eapply Forall_impl; [apply Hw|]. intros c. unfold delivered, all_but_late. cbn [sh buf hist ended]. rewrite E2, E3. destruct (c_seen c); [|done].
    intros (Hr & Hp & n & Hn & Hl1 & Hl2). split; [done|]. split; [by etrans; [|apply drop_written]|]. exists n. rewrite length_app.
    split_and!; [done|lia|done].
Qed.

(** ** The other steps *)

Lemma Stall_ok w : ok w → ok (MkWorld (detach (sh w)) (me w) (finished w) (hist w) (ended w)).
Proof.
  intros [Hb Hc Hf He Hd]. unfold detach. destruct (follower_of (buf (sh w))) as [i|] eqn:Ei; [|by destruct w; split].
  split; cbn [sh buf fs me hist finished set_follower closed released ended]; [by destruct Hb; split|..|done|done|done].
  intros c Hm. destruct (Hc c Hm) as (f & Hfs & [H1 H2 H3 H4]). rewrite lookup_alter. case_decide as E; [rewrite E|]; rewrite Hfs; cbn [fmap option_fmap option_map].
  - eexists. split; [done|]. split; cbn [stalled f_at sh buf set_follower follower_of hist closed discarded released dropped]; try done.
    intros Es. destruct (H4 Es) as (? & ? & ? & ? & ? & ? & ? & ? & ?). by split_and!.
  - exists f. split; [done|]. split; cbn [sh buf set_follower follower_of hist]; try done. intros Hst. specialize (H1 Hst). rewrite Ei in H1. by injection H1 as ->.
Qed.

Lemma Release_ok w : ok w → ok (with_buf release_ w).
Proof.
  intros [Hb Hc Hf He Hd]. unfold with_buf, release_. destruct (discarded (buf (sh w))) eqn:Ed; [destruct w as [[] ? ? ? ?]; exact (Build_ok _ Hb Hc Hf He Hd)|].
  split; cbn [sh buf fs me hist finished closed released ended]; [destruct Hb; split; cbn; auto| |done| |].
  - intros c Hm. destruct (Hc c Hm) as (f & Hfs & [H1 H2 H3 H4]). exists f. split; [done|]. split; cbn; try done.
    + intros Es. destruct (H3 Es) as (? & ? & ? & ? & ? & Hcl). split_and!; try done. intros E. by specialize (Hcl E); rewrite Ed in Hcl.
    + intros Es. by destruct (H4 Es) as (? & ?).
  - intros E. destruct (He E) as (n & Hn & Hle). exists n. split; [done|]. intros _. apply Hle.
    destruct (bk_closed _ _ Hb E) as [|E']; [done|congruence].
  - eapply Forall_impl; [exact Hd|]. intros c. unfold delivered, all_but_late. cbn. rewrite Ed. destruct (c_seen c); [by intros [_ ?]|by intros [? _]].
Qed.

Lemma Discard_ok w : ok w → ok (MkWorld (MkShared (discard_ (buf (sh w))) (fs (sh w))) (me w) (finished w)
  (if released (buf (sh w)) then hist w else take (dropped (buf (sh w))) (hist w)) (ended w)).
Proof.
  intros [Hb Hc Hf He Hd]. unfold discard_. destruct (released (buf (sh w))) eqn:Er; [|].
  { destruct w as [[] ? ? ? ?]. split; try done. intros E. destruct (He E) as (n & Hn & Hle). exists n. split; [done|]. intros _. by apply Hle. }
  split; cbn [sh buf fs me hist finished closed released ended]; [..|done| |].
  - destruct Hb as [B1 B2 B3 B4 B5 B6 B7 B8 B9]. split; cbn [dropped chunks size evicted truncated released discarded closed]; try done; auto.
    + by apply Forall_take.
    + rewrite length_take. lia.
    + symmetry. apply length_zero_iff_nil. rewrite length_drop, length_take. lia.
    + by rewrite take_take, Nat.min_id.
  - intros c Hm. destruct (Hc c Hm) as (f & Hfs & [H1 H2 H3 H4]). exists f. split; [done|]. split; cbn; try done.
    + intros Es. destruct (H3 Es) as (? & ? & ? & ? & ? & Hcl). by split_and!.
    + intros Es. destruct (H4 Es) as (G1 & _). congruence.
  - intros E. destruct (He E) as (n & Hn & _). by exists n.
  - eapply Forall_impl; [exact Hd|]. intros c. unfold delivered, all_but_late. cbn. rewrite Er. destruct (c_seen c); [by intros [? _]|by intros [_ ?]].
Qed.

Lemma Close_ok w : ok w → released (buf (sh w)) || discarded (buf (sh w)) = true → ok (closes w).
Proof.
  intros [Hb Hc Hf He Hd] Hg. split; cbn [closes close_ sh buf fs me hist finished closed released ended].
  - destruct Hb; split; try done. intros _. by apply orb_true_iff.
  - intros c Hm. destruct (Hc c Hm) as (f & Hfs & [H1 H2 H3 H4]). exists f. split; [done|]. split; try done. intros Es.
    destruct (H4 Es) as (G1 & G2 & G3 & G4 & G5 & G6 & G7 & G8 & G9). split_and!; try done. cbn [ended closes]. intros E. by rewrite (H2 E); apply G9.
  - by right.
  - intros _. destruct (closed (buf (sh w))) eqn:E; [by apply He|]. exists (length (hist w)). by split.
  - destruct Hf as [->|E]; [constructor|]. eapply Forall_impl; [exact Hd|]. intros c. unfold delivered, all_but_late.
    cbn [closes close_ sh buf hist ended released discarded]. by rewrite E.
Qed.

Lemma Attach_ok w : ok w → ok (MkWorld (follow (sh w)).2 (Some (new_client (follow (sh w)).1)) (finished w) (hist w) (ended w)).
Proof.
  intros [Hb Hc Hf He Hd]. unfold follow. cbn [fst snd]. split; cbn [sh buf fs me hist finished set_follower closed released ended]; [by destruct Hb; split|..|done|done|done].
  intros c [= <-]. cbn [c_f new_client]. rewrite lookup_insert_eq. eexists. split; [done|]. by split.
Qed.

Lemma Look_ok w c f :
  ok w → me w = Some c → c_batch c = [] → fs (sh w) !! c_f c = Some f → stalled f = false → c_closed c = false →
  ok (MkWorld (sh w) (Some (look c (buf (sh w)))) (finished w) (hist w) (ended w)).
Proof.
  intros [Hb Hc Hf He Hd] Hm Hba Hfs Hst Hcl. split; cbn [sh buf fs me hist finished ended]; [done| |done|done|done].
  intros c' [= <-]. destruct (Hc c Hm) as (f' & Hfs' & [H1 H2 H3 H4]). rewrite Hfs in Hfs'. injection Hfs' as <-.
  destruct Hb as [B1 B2 B3 B4 B5 B6 B7 B8 B9]. exists f. unfold look. destruct (released (buf (sh w))) eqn:Er.
  - destruct (c_seen c) eqn:Es.
    + destruct (H4 eq_refl) as (G1 & G2 & G3 & G4 & G5 & G6 & G7 & G8 & G9). specialize (G8 Hst). rewrite Hba, (right_id_L [] (++)) in *.
      replace (c_next c <? dropped (buf (sh w)))%nat with false by (symmetry; apply Nat.ltb_ge; lia). cbn [c_f]. split; [done|].
      assert (Hbat : drop (c_next c - dropped (buf (sh w))) (chunks (buf (sh w))) = drop (c_next c) (hist w)).
      { rewrite B3, drop_drop. f_equal. lia. }
      rewrite Hbat. split; cbn [c_closed c_seen c_next c_at c_batch c_out c_first c_f sh buf hist]; try done. intros _.
      assert (Hlen : (c_next c + length (drop (c_next c) (hist w)) = length (hist w))%nat) by (rewrite length_drop; lia).
      rewrite Hlen. split_and!; try done.
      * rewrite length_app, length_drop. lia.
      * rewrite G5. rewrite <- length_drop, firstn_all. rewrite <- (take_drop (c_next c - c_first c) (drop (c_first c) (hist w))) at 2.
        f_equal. rewrite drop_drop. f_equal. lia.
      * intros E. destruct (He E) as (n & Hn & Hle). exists n. split; [done|]. by apply Hle.
    + destruct (H3 eq_refl) as (G1 & G2 & G3 & G4 & G5 & G6). cbn [c_f]. rewrite G3, G4.
      assert (Hnext : (if (0 <? dropped (buf (sh w)))%nat then (dropped (buf (sh w)), evicted (buf (sh w))) else (0%nat, 0)) = (dropped (buf (sh w)), evicted (buf (sh w)))).
      { destruct (Nat.ltb_spec 0 (dropped (buf (sh w)))); [done|]. assert (dropped (buf (sh w)) = 0%nat) as E by lia. by rewrite B5, E. }
      rewrite Hnext. cbn [c_f]. split; [done|]. rewrite Nat.sub_diag, drop_0, B3.
      split; cbn [c_closed c_seen c_next c_at c_batch c_out c_first c_f sh buf hist]; try done. intros _. rewrite G1. cbn [app length].
      split_and!; try done; [rewrite length_drop; lia| | |by right|intros _; lia|].
      * symmetry. apply take_ge. lia.
      * by rewrite Nat.add_0_r.
      * intros E. destruct (He E) as (n & Hn & Hle). exists n. split; [done|]. specialize (Hle eq_refl). rewrite length_drop. lia.
  - assert (Es : c_seen c = false) by (destruct (c_seen c) eqn:Es; [|done]; destruct (H4 eq_refl) as (G1 & _); congruence).
    cbn [c_f]. split; [done|]. split; cbn [c_closed c_seen c_next c_at c_batch c_out c_first c_f sh buf hist]; try done; [|by rewrite Es].
    intros _. destruct (H3 Es) as (G1 & G2 & G3 & G4 & G5 & G6). split_and!; try done. intros E. destruct (B9 E); [congruence|done].
Qed.

Lemma Emit_ok w c x rest :
  ok w → me w = Some c → c_batch c = x :: rest →
  ok (MkWorld (take_ (c_f c) (c_at c + clen x) (sh w)) (Some (sent x rest c)) (finished w) (hist w) (ended w)).
Proof.
  intros [Hb Hc Hf He Hd] Hm Hba. split; cbn [take_ sh buf fs me hist finished closed released ended]; [by destruct Hb; split|..|done|done|].
  - intros c' [= <-]. destruct (Hc c Hm) as (f & Hfs & [H1 H2 H3 H4]). cbn [c_f sent]. rewrite lookup_alter_eq, Hfs. eexists. split; [done|].
    destruct (c_seen c) eqn:Es; [|destruct (H3 eq_refl) as (_ & G & _); congruence].
    destruct (H4 eq_refl) as (G1 & G2 & G3 & G4 & G5 & G6 & G7 & G8 & G9). rewrite Hba in *.
    split; cbn [sent c_closed c_seen c_next c_at c_batch c_out c_first c_f stalled f_at sh buf hist follower_of closed discarded released dropped take_]; try done; [by rewrite Es|].
    intros _. rewrite <- (assoc_L (++)). cbn [app]. split_and!; try done; [|by left|intros Hst; specialize (G8 Hst); rewrite length_app; lia].
    + rewrite length_app. cbn [length]. replace (c_first c + (length (c_out c) + 1))%nat with (S (c_first c + length (c_out c))) by lia.
      rewrite (take_S_r _ _ x), total_app, total_cons; [change (total []) with 0; lia|].
      rewrite <- lookup_drop. rewrite <- (lookup_take_lt _ (c_next c - c_first c)); [|rewrite G4, length_app; simpl; lia].
      rewrite <- G5. by rewrite list_lookup_middle.
  - eapply Forall_impl; [exact Hd|]. intros c'. unfold delivered, all_but_late. by destruct (c_seen c').
Qed.

Lemma unfollow_same i s : buf (unfollow i s) = buf s ∨ buf (unfollow i s) = set_follower None (buf s).
Proof. unfold unfollow. case_bool_decide; auto. Qed.

Lemma Leave_ok w i done_ :
  ok w → Forall (delivered w) done_ → (done_ = [] ∨ closed (buf (sh w)) = true) → ok (MkWorld (unfollow i (sh w)) None done_ (hist w) (ended w)).
Proof.
  intros [Hb Hc Hf He Hd] Hdone Hcl. pose proof (unfollow_same i (sh w)) as Hu. split; cbn [sh buf fs me hist finished ended]; [|done|..].
  - destruct Hu as [->| ->]; [done|]. by destruct Hb; split.
  - by destruct Hu as [->| ->].
  - by destruct Hu as [->| ->].
  - eapply Forall_impl; [exact Hdone|]. intros c. unfold delivered, all_but_late. cbn [sh buf hist ended]. by destruct Hu as [->| ->].
Qed.

Lemma Finish_ok w c :
  ok w → me w = Some c → c_closed c = true → c_batch c = [] → ok (MkWorld (unfollow (c_f c) (sh w)) None (c :: finished w) (hist w) (ended w)).
Proof.
  intros Hw Hm Hcl Hba. destruct (ok_client w Hw c Hm) as (f & Hfs & [H1 H2 H3 H4]). apply Leave_ok; [done| |right; by apply H2].
  constructor; [|apply Hw]. unfold delivered, all_but_late. destruct (c_seen c) eqn:Es.
  - destruct (H4 eq_refl) as (G1 & G2 & G3 & G4 & G5 & G6 & G7 & G8 & G9). split; [done|]. rewrite Hba, (right_id_L [] (++)) in *.
    split; [rewrite G5; apply prefix_take|]. destruct (G9 Hcl) as (n & Hn & Hle). exists n. split_and!; [done|lia|lia].
  - destruct (H3 eq_refl) as (G1 & _ & _ & _ & _ & G6). by split; [apply G6|].
Qed.

Lemma ok_step w w' : world_step w w' → ok w → ok w'.
Proof.
  intros [e He] Hw. destruct e as [x|n| | | | | | | |]; cbn [happens] in He.
  - destruct (bool_decide _ && _) eqn:E; [|done]. injection He as <-. apply andb_true_iff in E as [E1 E3%negb_true_iff].
    apply bool_decide_eq_true in E1. by apply Write_ok.
  - destruct (full_ _ _); [|done]. injection He as <-. by apply Stall_ok.
  - injection He as <-. by apply Release_ok.
  - injection He as <-. by apply Discard_ok.
  - destruct (_ || _) eqn:E; [|done]. injection He as <-. by apply Close_ok.
  - destruct (me w); [done|]. pose proof (Attach_ok w Hw) as H. destruct (follow (sh w)) as [i s]. by injection He as <-.
  - destruct (me w) as [c|] eqn:Em; [|done]. destruct (c_batch c) eqn:Eb; [|done]. destruct (fs (sh w) !! c_f c) as [f|] eqn:Ef; [|done].
    destruct (stalled f || c_closed c) eqn:E; [done|]. apply orb_false_iff in E as [E1 E2]. injection He as <-. by eapply Look_ok.
  - destruct (me w) as [c|] eqn:Em; [|done]. destruct (c_batch c) as [|x rest] eqn:Eb; [done|]. injection He as <-. by apply Emit_ok.
  - destruct (me w) as [c|] eqn:Em; [|done]. injection He as <-. apply Leave_ok; [done|apply Hw..].
  - destruct (me w) as [c|] eqn:Em; [|done]. destruct (c_closed c && _) eqn:E; [|done]. apply andb_true_iff in E as [E1 E2%bool_decide_eq_true].
    injection He as <-. by apply Finish_ok.
Qed.

Lemma ok_reached hold w : rtc world_step (first_world hold) w → ok w.
Proof. intros H. assert (Hs := ok_first hold). induction H; [done|]. apply IHrtc. by eapply ok_step. Qed.

(** C22: A client that stays gets all of it. Whatever the order in which the command's writes, the client's reads and the
    daemon's steps take the buffer, and however slow the client is: a stream that returns with no error has sent the
    chunks the command wrote, in order and once each, from the first that was there when it first looked, and among them
    every one that was written before the buffer was closed; only what a copier that outlived the close wrote after it
    may be missing, at the end. A command that never started has sent none of its output. *)
Theorem stream_delivers hold w c :
  rtc world_step (first_world hold) w → c ∈ finished w →
  if c_seen c then
    c_out c `prefix_of` drop (c_first c) (hist w) ∧
    ∃ n, ended w = Some n ∧ take (n - c_first c) (drop (c_first c) (hist w)) `prefix_of` c_out c
  else discarded (buf (sh w)) = true ∧ c_out c = [].
Proof.
  intros Hr Hc. pose proof (ok_delivered w (ok_reached hold w Hr)) as Hd. rewrite Forall_forall in Hd. specialize (Hd c Hc).
  unfold delivered in Hd. destruct (c_seen c); [|done]. destruct Hd as (_ & Hp & n & Hn & _ & Hle). split; [done|]. exists n. split; [done|].
  destruct Hp as [late ->]. rewrite take_app_le by lia. apply prefix_take.
Qed.

(** C39: The memory an exec's output takes is bounded, and its account is true. The buffer holds at most its cap, or one write
    that alone is larger; what it holds is the newest of what was written; the bytes evicted and held add up to all
    that was written; and the output is said to be truncated exactly when something was evicted. *)
Theorem buffer_account hold w :
  rtc world_step (first_world hold) w →
  let b := buf (sh w) in
  (size b ≤ execBufferCap ∨ (length (chunks b) ≤ 1)%nat) ∧ size b = total (chunks b) ∧ chunks b = drop (dropped b) (hist w) ∧
  evicted b + size b = total (hist w) ∧ (truncated b = true ↔ evicted b ≠ 0).
Proof.
  intros Hr b. destruct (ok_buffer w (ok_reached hold w Hr)) as [B1 B2 B3 B4 B5 B6 B7 B8 B9]. fold b in B2, B3, B4, B5, B6, B7, B8, B9.
  pose proof (total_take_drop (dropped b) (hist w)) as Ht. rewrite <- B3, <- B4, <- B5 in Ht. split_and!; try done.
  rewrite B6, bool_decide_eq_true, B5. split.
  - intros Hd E. apply total_zero in E; [|by apply Forall_take]. assert (H : length (take (dropped b) (hist w)) = 0%nat) by (by rewrite E).
    rewrite length_take in H. lia.
  - intros H. destruct (decide (dropped b = 0%nat)) as [E|]; [by rewrite E in H|lia].
Qed.

(** ** One exec *)

Definition run_events (es : list event) (w : world) : option world := foldl (λ w e, w ≫= happens e) (Some w) es.

Lemma run_events_none es : foldl (λ w e, w ≫= happens e) None es = None.
Proof. by induction es. Qed.

Lemma run_events_steps es w w' : run_events es w = Some w' → rtc world_step w w'.
Proof.
  revert w. induction es as [|e es IH]; intros w; [by intros [= <-]|]. unfold run_events. cbn [foldl mbind option_bind].
  destruct (happens e w) as [w1|] eqn:E; [|by rewrite run_events_none]. intros H. eapply rtc_l; [by exists e|]. by apply IH.
Qed.

(** The last write comes after the close, from a copier that outlived it. *)
Definition hello : list event :=
  [Write (MkChunk "hel" false); Release_; Attach; Look; Emit; Write (MkChunk "lo" false); Write (MkChunk "oops" true); Close_; Look; Emit; Emit;
   Write (MkChunk "late" false); Finish].

Definition said : world := default (first_world true) (run_events hello (first_world true)).

Definition listener : client := default (new_client 0) (head (finished said)).

Lemma stream_delivers_witness :
  (c_out listener = [MkChunk "hel" false; MkChunk "lo" false; MkChunk "oops" true] ∧ ended said = Some 3%nat ∧ length (hist said) = 4%nat ∧
  if c_seen listener then
    c_out listener `prefix_of` drop (c_first listener) (hist said) ∧
    ∃ n, ended said = Some n ∧ take (n - c_first listener) (drop (c_first listener) (hist said)) `prefix_of` c_out listener
  else discarded (buf (sh said)) = true ∧ c_out listener = []).
Proof.
  split; [vm_compute; reflexivity|]. split; [vm_compute; reflexivity|]. split; [vm_compute; reflexivity|]. apply (stream_delivers true said listener).
  - apply (run_events_steps hello). vm_compute. reflexivity.
  - unfold listener. apply (head_Some_elem_of (finished said)). vm_compute. reflexivity.
Defined.

Lemma buffer_account_witness :
  let b := buf (sh said) in
  ((size b ≤ execBufferCap ∨ (length (chunks b) ≤ 1)%nat) ∧ size b = total (chunks b) ∧ chunks b = drop (dropped b) (hist said) ∧
  evicted b + size b = total (hist said) ∧ (truncated b = true ↔ evicted b ≠ 0)).
Proof. apply (buffer_account true said). apply (run_events_steps hello). vm_compute. reflexivity. Defined.
