(* ===== verification/Host.v ===== *)
(** * What the sandbox service asks of the host

    The lifecycle verbs of [services/sandbox] drive the layers below them through the interfaces of [Config]: the
    substrate ([models.Provider] and its optional extensions), the network, the port forwarder, the image and
    policy stores, the filesystem, the clock. Each method call is a constructor of [call], indexed by the type of
    its answer; a host is any state with a way to perform the calls, so a theorem about a verb holds whatever
    the substrate answers and whichever call fails. What the layers below must not do, where a theorem needs it,
    is the class [Holdings]. *)

From S2P Require Import Prelude Ops GoStrings Netip Models Restart Store Secret SandboxID Repository ExecTable.
Local Open Scope Z_scope.

(** ** models/provider.go *)

Record Status : Type := MkStatus {
  Exists : bool;
  StState : State;
  StPID : Z;
  OOMKilled : bool;
  StReason : string;
  SupervisorFailed : string;
  Unstarted : bool
}.

Definition Alive (s : Status) : bool := Exists s && negb (bool_decide (StState s = StateStopped)).

Record Capabilities : Type := MkCapabilities { CPause : bool; CResume : bool; CFork : bool; CPort : bool; CSwap : bool }.

Record NetworkSpec : Type := MkNetworkSpec {
  NSNetnsPath : string;
  NSAddress : Prefix;
  NSGateway : Addr;
  NSHostInterface : string;
  NSNameservers : list Addr
}.

Record ImageConfig : Type := MkImageConfig { ICEnv : list string; ICWorkDir : string; ICUser : string }.

(** [image.Image], the part a create reads. *)
Record Image_ : Type := MkImage { IRootFS : string; IDisk : string; IErofs : string; IDigest : string; IConfig : ImageConfig }.

Record SandboxSpec : Type := MkSandboxSpec {
  SpID : string;
  SpName : string;
  SpRootFS : string;
  SpRootDisk : string;
  SpBaseDisk : string;
  SpStateDir : string;
  SpEnv : list string;
  SpWorkDir : string;
  SpUser : string;
  SpNetwork : NetworkSpec;
  SpResources : Resources;
  SpSeed : string;
  SpProxyCA : option string
}.

Record ProcessSpec : Type := MkProcessSpec {
  PsName : string; PsArgv : list string; PsEnv : list string; PsWorkDir : string; PsUser : string; PsRestart : RestartSpec
}.

(** The snapshot a create is seeded from, as its repository keeps it. *)
Record Snapshot_ : Type := MkSnapshot {
  SnID : string; SnName : string; SnSource : string; SnSourceName : string; SnImage : string; SnDigest : string;
  SnProvider : string; SnDiskMiB : Z; SnMemoryMiB : Z; SnSize : Z; SnCreatedAt : Z
}.

(** ** Errors *)

(** What a call of a layer below answers, by the types and sentinels the verbs tell apart. *)
Inductive call_error : Type :=
| CFails
| CNotFound
| CNoFreeAddress
| CImageGone
| CNoCABundle
| CNoRoom
| CBound
| CUser
| CUnresponsive (reason : string)
| CLost
| CProcessRunning
| CUnsupported
| CNotStarted (code : Z)
| CChannel (why : string)
| CUnsettable
| CBind (in_use denied : bool).

Inductive Code : Type :=
| CodeInvalidRequest | CodeNotFound | CodeSandboxNotRunning | CodeSandboxNotStopped | CodeSandboxNotPaused
| CodeSandboxLive | CodeSandboxFailed | CodeNoCheckpoint | CodeUnsupported | CodeInUse | CodeNameTaken
| CodeNoProcess | CodeProcessLimit | CodeExecLimit | CodeTimeout | CodeInternal.

(** Why a request is the caller's fault. *)
Inductive request_fault : Type :=
| FNoSource | FBothSources | FMemoryNegative | FMemoryPast | FVCPUNegative | FDiskNegative | FDiskPast
| FSwapNegative | FSwapPast | FHostPort | FGuestPort | FPortTwice | FPolicyName | FTrustEnv | FEnvEntry
| FEnvSecret | FSecretName | FSecretTwice | FSecretTrust | FNoSecret | FNoPolicy | FNoProxyCA | FResources
| FPastHostMemory | FPastHostCPUs | FSwapPastDisk | FImageRef | FDisk | FUserGroup | FPortDenied | FNoCommand | FProcessName
| FRestart (e : restart_error) | FNoSandbox | FSnapshotProvider | FSnapshotImageGone | FSnapshotImageMoved
| FSnapshotDisk | FNoPolicyName | FSecretEnv.

(** The error a verb answers. A wrapped error is the error itself; [EJoin] is [errors.Join]; [EOutOfFuel] is no answer
    of the source, but of a loop of the model that ran out of turns. *)
Inductive service_error : Type :=
| ERepo (e : repo_error)
| ECall (e : call_error)
| EBusy
| ECtx
| ERequest (why : request_fault)
| EState (state : State) (code : Code)
| ETimeout (verb : string)
| EVerb (verb : string)
| ECancelled (verb : string)
| EImageGone (verb : string)
| ENoCABundle
| EHeld (by_ : string)
| EPortNotFound (port : Z)
| EPortInUse
| ENoAddress
| ENetwork (e : call_error)
| EUnavailable (why : string)
| EExecLimit (l : exec_limit)
| ENotSettled
| EOutOfFuel
| EForkRefused
| EStays
| ELeft (held : list string) (cause : service_error)
| EJoin (a b : service_error).

(** [errors.Is] and [errors.As] look at every error of the tree. *)
Fixpoint some_error (p : service_error → bool) (e : service_error) : bool :=
  p e || match e with EJoin a b => some_error p a || some_error p b | ELeft _ c => some_error p c | _ => false end.

Definition is_timeout : service_error → bool := some_error (λ e, match e with ETimeout _ => true | _ => false end).
Definition is_not_found : service_error → bool := some_error (λ e, match e with ERepo ENotFound => true | _ => false end).
Definition is_image_gone : service_error → bool := some_error (λ e, match e with ECall CImageGone => true | _ => false end).

(** ** Calls

    The probe of a substrate answers beside its error whether the bound put on it has passed. *)
Record probe_error : Type := MkProbeError { pe_error : call_error; pe_past_bound : bool }.

Abbreviation answer := (result call_error).

Inductive call : Type → Type :=
(* models.Provider *)
| PCheckResources (res : Resources) : call (answer unit)
| PStatus (id : string) : call (result probe_error Status)
| PCreate (spec : SandboxSpec) : call (answer unit)
| PStart (id : string) : call (answer unit)
| PStop (id : string) (grace : Z) : call (answer unit)
| PRemove (id : string) : call (answer unit)
| PPause (id dir : string) : call (answer unit)
| PResume (id dir : string) : call (answer unit)
| PFork (source : string) (spec : SandboxSpec) : call (answer unit)
| PAdoptStaging (dir : string) : call (answer unit)
| PStartProcess (id : string) (spec : ProcessSpec) : call (answer unit)
| PStopProcess (id name : string) (grace : Z) : call (answer unit)
| PProcesses (id : string) : call (answer (list ProcessReport))
| PLogSize (id name : string) : call (answer Z)
(* the extensions only some substrates have *)
| PReclaim (id : string) : call (answer unit)
| PRelease (id dir : string) : call (answer unit)
| PReleaseDisk (dir : string) : call unit
(* network.Service *)
| NAllocate (id : string) : call (answer NetworkSpec)
| NRelease (id : string) : call (answer unit)
| NReapply (id : string) : call (answer unit)
| NReapplyAll : call (answer unit)
(* portforward.Forwarder *)
| FOpen (id : string) (spec : PortForward) : call (answer unit)
| FSet (id : string) (want : list PortForward) : call (answer unit)
| FClose (id : string) (port : Z) : call (answer unit)
| FCloseSandbox (id : string) : call (answer unit)
| FSandboxes : call (list string)
| FProbe (spec : PortForward) : call (answer unit)
(* image.Service, secret.Store, egress.Store and the snapshot repository, as a create reads them *)
| ICanonical (ref : string) : call (answer string)
| IPull (ref : string) : call (answer Image_)
| ILookup (ref : string) : call (answer (option Image_))
| SGet (name : string) : call (answer string)
| PolicyGet (name : string) : call (answer Policy)
| ProxyCA : call (answer string)
| SnapResolve (ref : string) : call (answer string)
| SnapGet (id : string) : call (answer Snapshot_)
| SnapFiles (id : string) : call (answer string)
| SnapCreate (snap : Snapshot_) : call (answer Snapshot_)
| SnapDelete (id : string) : call (answer unit)
(* models.Environment *)
| EnvOpen (id : string) : call (answer unit)
| EnvCanSet (id name : string) : call (answer unit)
| EnvTrust (id : string) (ca : string) : call (answer unit)
| EnvSet (id name value : string) : call (answer unit)
| EnvRemove (id name : string) : call (answer unit)
(* the files of a checkpoint, the substrate's own root *)
| CkRemoveFile (dir : string) : call (answer unit)
| CkHeld (dir : string) : call (answer bool)
| CkStaging (dir : string) : call (answer bool)
| ReleaseRoot : call (answer unit)
(* which system call of the repository's own work fails *)
| RWrite : call WriteOutcome
| RCreate (res : Resources) : call create_calls
| RDelete : call delete_calls
| RRemoveCheckpoint (name : string) : call bool
(* the lock of a sandbox: taken, or given up on *)
| LLock (id : string) : call bool
| LTryLock (id : string) : call bool
(* what ended the pull of a create, and the wait of a poll *)
| PullEndedBy (id : string) : call (option string)
| Sleep (d : Z) : call unit.

Class Host : Type := {
  W : Type;
  perform : ∀ {A}, call A → W → W * A;
  (** [ctx.Err() != nil] of the verb, and of the bound a start runs under *)
  ctx_ended : W → bool;
  budget_spent : W → bool;
  (** [time.Now().UTC()] *)
  clock : W → Z;
  provider_name : string;
  capabilities : Capabilities;
  (** the optional interfaces of the substrate *)
  reclaims : bool;
  releases : bool;
  admits_disk : bool;
  default_memory : option Z;
  guest_kernel : option string;
  (** [Config] *)
  host_memory_mib : Z;
  host_cpus : Z;
  has_proxy_ca : bool;
  stop_settle : Z;
  (** the redacted text of an error, and the part of it a public route may answer *)
  error_text : service_error → string;
  public_text : service_error → option string;
  (** the check a fork runs under its source's lock *)
  fork_check : Sandbox → bool
}.

(** ** The service *)

Record service `{Host} : Type := MkService { repo_of : repo; host : W; table_of : table }.
Arguments MkService {_} _ _ _.

Section Service.
Context `{Hst : Host}.

Abbreviation sop := (op service service_error).

Definition set_repo (r : repo) (s : service) : service := MkService r (host s) (table_of s).
Definition set_host (w : W) (s : service) : service := MkService (repo_of s) w (table_of s).
Definition set_table (t : table) (s : service) : service := MkService (repo_of s) (host s) t.

(** A call whose answer the verb reads. *)
Definition do_call {A} (c : call A) : sop A := λ s,
  let '(w, a) := perform c (host s) in ([set_host w s], set_host w s, Ok a).

(** A call whose error the verb answers as it is. *)
Definition try {A} (c : call (answer A)) : sop A :=
  (a <~ do_call c ;; match a with Ok x => ret x | Err e => fail (ECall e) end)%op.

(** The same, and the error as a value. *)
Definition attempt {A} (m : sop A) : sop (result service_error A) := λ s,
  let '(t, s', a) := m s in (t, s', Ok a).

Definition of_result {A} (a : result service_error A) : sop A := match a with Ok x => ret x | Err e => fail e end.

Definition on_repo {A} (m : op repo repo_error A) : sop A := λ s,
  let '(t, r, a) := m (repo_of s) in ((λ r, set_repo r s) <$> t, set_repo r s, map_err ERepo a).

Definition read_host {A} (f : W → A) : sop A := ask (λ s, Ok (f (host s))).

(** The repository as the service drives it. *)
Definition getRecord (id : string) : sop Sandbox := ask (λ s, map_err ERepo (Get (repo_of s) id)).
Definition resolve (ref : string) : sop string := ask (λ s, map_err ERepo (Resolve (repo_of s) ref)).
Definition update (id : string) (f : Sandbox → option Sandbox) : sop unit :=
  (w <~ do_call RWrite ;; on_repo (Update w id f))%op.
Definition mutate (id : string) (f : Sandbox → Sandbox) : sop unit := update id (λ sb, Some (f sb)).
Definition deleteRecord (id : string) : sop unit := (c <~ do_call RDelete ;; on_repo (Delete c id))%op.

Definition CheckpointDir (id : string) : sop string :=
  ask (λ _, match ValidID id with Ok _ => Ok ("checkpoints/" +:+ id) | Err e => Err (ERepo (ESpelling e)) end).
Definition Dir (id : string) : sop string :=
  ask (λ _, match ValidID id with Ok _ => Ok ("sandboxes/" +:+ id) | Err e => Err (ERepo (ESpelling e)) end).

End Service.

Abbreviation sop := (op service service_error).
