(* ===== verification/Registry.v ===== *)
(** * The image layout

    [pkg/registry/registry.go]: the index of the images on disk and the blobs behind it. The name of an image is parsed by
    [go-containerregistry], which is a parameter, and so is what a registry answers to a pull. A blob is kept as what its bytes
    hash to: what bytes of a hash parse as is a function of the hash. Any call may fail by itself, as a list in the state says.
    The state also holds what [services/image] builds beside the layout. *)

From S2P Require Import Prelude Ops GoStrings Secret Host.
Local Open Scope op_scope.

(** ** What the packages below answer *)

Record reference : Type := MkReference { RName : string; RContext : string; RepositoryStr : string; RDigest : option string }.

(** [name.ParseReference]; a name it gave parses to the same digest and the same name. *)
Class References := { ParseReference : string → option reference }.
Class ReferenceLaws `{References} := {
  ParseReference_name : ∀ ref p, ParseReference ref = Some p → ∃ q, ParseReference (RName p) = Some q ∧ RName q = RName p ∧ RDigest q = RDigest p ∧ RepositoryStr q = RepositoryStr p;
  ParseReference_named : ∀ ref p, ParseReference ref = Some p → RName p ≠ ""
}.

Record manifest : Type := MkManifest { MConfig : string; MLayers : list string }.

(** What the bytes of a hash parse as. *)
Class Contents := { manifest_of : string → option manifest; config_of : string → option ImageConfig }.

(** ** State *)

Record descriptor : Type := MkDescriptor { DRef : string; DDigest : string }.
#[export] Instance descriptor_eq_dec : EqDecision descriptor. Proof. solve_decision. Defined.

Inductive shape : Type := RootFS_ | Disk_ | Erofs_.
#[export] Instance shape_eq_dec : EqDecision shape. Proof. solve_decision. Defined.
#[export] Instance shape_countable : Countable shape.
Proof. apply (inj_countable' (λ s, match s with RootFS_ => 0 | Disk_ => 1 | Erofs_ => 2 end) (λ n, match n with 0 => RootFS_ | 1 => Disk_ | _ => Erofs_ end)). by intros []. Defined.

(** A file of an artifact directory: one under its own name, or one under a staging name, which starts with [.unpack-]: a random
    number follows in one that is being built, and [rm-] with the old name in one that is being removed. *)
Inductive aname : Type := Named (file : string) | Temp (n : nat) | Removing (file : string).
#[export] Instance aname_eq_dec : EqDecision aname. Proof. solve_decision. Defined.
#[export] Instance aname_countable : Countable aname.
Proof.
  apply (inj_countable' (λ a, match a with Named f => inl f | Temp n => inr (inl n) | Removing f => inr (inr f) end)
           (λ a, match a with inl f => Named f | inr (inl n) => Temp n | inr (inr f) => Removing f end)). by intros [].
Defined.

(** What was unpacked into it so far: the layers, the bottom one first. *)
Record artifact : Type := MkArtifact { adir : bool; alayers : list string }.

Record images : Type := MkImages {
  index : list descriptor; blobs : gmap string string; artifacts : gmap (shape * aname) artifact; ifaults : list bool
}.

Definition set_index (l : list descriptor) (s : images) : images := MkImages l (blobs s) (artifacts s) (ifaults s).
Definition set_blobs (f : gmap string string → gmap string string) (s : images) : images := MkImages (index s) (f (blobs s)) (artifacts s) (ifaults s).
Definition set_artifacts (f : gmap (shape * aname) artifact → gmap (shape * aname) artifact) (s : images) : images :=
  MkImages (index s) (blobs s) (f (artifacts s)) (ifaults s).
Definition spend (s : images) : images := MkImages (index s) (blobs s) (artifacts s) (tail (ifaults s)).

(** The errors the callers tell apart; [IFree] is the answer of the check a removal runs, [IJoin] is [errors.Join]. *)
Inductive img_error (E : Type) : Type :=
| IBadReference
| INotCached (name : string) (held : list string)
| IFetch (name : string)
| IBroken (ref : string)
| ISys
| INotReclaimed
| IFree (e : E)
| IJoin (a b : img_error E).
Arguments IBadReference {E}.
Arguments INotCached {E} _ _.
Arguments IFetch {E} _.
Arguments IBroken {E} _.
Arguments ISys {E}.
Arguments INotReclaimed {E}.
Arguments IFree {E} _.
Arguments IJoin {E} _ _.

Fixpoint errors_Is {E} (f : img_error E → bool) (e : img_error E) : bool :=
  f e || match e with IJoin a b => errors_Is f a || errors_Is f b | _ => false end.
Definition ErrNotReclaimed {E} : img_error E → bool := errors_Is (λ e, match e with INotReclaimed => true | _ => false end).
Definition ErrNotCached {E} : img_error E → bool := errors_Is (λ e, match e with INotCached _ _ => true | _ => false end).

Section Registry.
Context `{Refs : References} `{Cont : Contents} {E : Type}.

Abbreviation iop := (op images (img_error E)).

(** One call on the host, and one that changes the disk. *)
Definition sys (e : img_error E) : iop unit := λ s,
  ([], spend s, if default false (head (ifaults s)) then Err e else Ok tt).
Definition change (f : images → images) : iop unit := sys ISys ;;; touch f.
Definition reads {A} (f : images → A) : iop A := ask (λ s, Ok (f s)).

(** A call whose error is a value. *)
Definition caught {A} (m : iop A) : iop (result (img_error E) A) := λ s,
  let '(t, s', a) := m s in (t, s', Ok a).

(** [parseRef]. *)
Definition parseRef (ref : string) : result (img_error E) reference :=
  match ParseReference ref with
  | None => Err IBadReference
  | Some p => if existsb (λ g, String.eqb g "." || String.eqb g "..") (Split "/" (RepositoryStr p)) then Err IBadReference else Ok p
  end.

(** [Canonical] and [DigestOf]. *)
Definition Canonical (ref : string) : result (img_error E) string := p ← parseRef ref; Ok (RName p).
Definition DigestOf (ref : string) : option string := match parseRef ref with Ok p => RDigest p | Err _ => None end.

(** [names]. *)
Definition names (d : descriptor) (p : reference) : bool :=
  String.eqb (DRef d) (RName p) || match RDigest p with Some g => String.eqb (DDigest d) g | None => false end.

(** [notCached]: what the store holds of the repository. *)
Definition notCached (p : reference) (l : list descriptor) : img_error E :=
  INotCached (RName p)
    (merge_sort String.le (List.filter (λ ref, HasPrefix ref (RContext p +:+ ":") || HasPrefix ref (RContext p +:+ "@")) (DRef <$> l))).

Definition manifests : iop (list descriptor) := sys ISys ;;; reads index.

(** [split]: what the reference names, and what it does not. *)
Definition parted (p : reference) (l : list descriptor) : list descriptor * list descriptor :=
  (List.filter (λ d, names d p) l, List.filter (λ d, negb (names d p)) l).

Definition split (ref : string) : iop (list descriptor * list descriptor) :=
  p <~ ask (λ _, parseRef ref) ;;
  l <~ manifests ;;
  match parted p l with
  | ([], _) => fail (notCached p l)
  | halves => ret halves
  end.

(** [Orphaned]. *)
Fixpoint orphaned_go (held orphaned : list string) (l : list descriptor) : list string :=
  match l with
  | [] => orphaned
  | d :: l => orphaned_go held (if contains held (DDigest d) || contains orphaned (DDigest d) then orphaned else orphaned ++ [DDigest d]) l
  end.

Definition Orphaned (ref : string) : iop (list string) :=
  halves <~ split ref ;; ret (orphaned_go (DDigest <$> halves.2) [] halves.1).

(** [image]: an image reads back when its manifest and its config hash to what names them. Its sizes and times are left out. *)
Record reg_image : Type := MkRegImage { GRef : string; GDigest : string; GManifest : option manifest }.

(** [verifiedConfig]. *)
Definition verifiedConfig (ref : string) (m : manifest) : iop ImageConfig :=
  sys (IBroken ref) ;;;
  b <~ reads blobs ;;
  match b !! MConfig m with
  | None => fail (IBroken ref)
  | Some c =>
      if negb (String.eqb c (MConfig m)) then fail (IBroken ref)
      else match config_of c with None => fail (IBroken ref) | Some cfg => ret cfg end
  end.

Definition image (d : descriptor) : iop reg_image :=
  sys (IBroken (DRef d)) ;;;
  b <~ reads blobs ;;
  match b !! DDigest d with
  | None => fail (IBroken (DRef d))
  | Some h =>
      if negb (String.eqb h (DDigest d)) then fail (IBroken (DRef d))
      else match manifest_of h with
           | None => fail (IBroken (DRef d))
           | Some m => verifiedConfig (DRef d) m ;;; ret (MkRegImage (DRef d) (DDigest d) (Some m))
           end
  end.

(** [Get]. *)
Definition Get (ref : string) : iop reg_image :=
  halves <~ split ref ;;
  match halves.1 with
  | d :: _ => image d
  | [] => fail ISys (* [split] refuses an empty match *)
  end.

(** [List]: an image that does not read back is listed as broken. *)
Fixpoint list_go (l : list descriptor) : iop (list reg_image) :=
  match l with
  | [] => ret []
  | d :: l =>
      a <~ caught (image d) ;;
      rest <~ list_go l ;;
      ret (match a with Ok img => img | Err _ => MkRegImage (DRef d) (DDigest d) None end :: rest)
  end.

Definition ref_le (a b : reg_image) : Prop := String.le (GRef a) (GRef b).
#[export] Instance ref_le_dec : RelDecision ref_le.
Proof. intros a b. unfold ref_le. apply _. Defined.

Definition List_ : iop (list reg_image) := l <~ manifests ;; imgs <~ list_go l ;; ret (merge_sort ref_le imgs).

(** [writeIndex]: the write is atomic, and the sync after it may fail. *)
Definition writeIndex (l : list descriptor) : iop unit := sys ISys ;;; change (set_index l) ;;; sys ISys.

(** [reachable]: a manifest that does not read back reaches nothing. *)
Definition reachable (s : images) : list string :=
  concat ((λ d, DDigest d :: match (blobs s !! DDigest d) ≫= manifest_of with Some m => MConfig m :: MLayers m | None => [] end) <$> index s).

(** [Collect]: the blobs nothing reaches go one by one, until one does not. *)
Fixpoint collect_go (kept names : list string) : iop unit :=
  match names with
  | [] => ret tt
  | n :: names => (if contains kept n then ret tt else change (set_blobs (delete n))) ;;; collect_go kept names
  end.

Definition Collect : iop unit :=
  sys ISys ;;;
  kept <~ reads reachable ;;
  sys ISys ;;;
  names <~ reads (λ s, sorted_names (blobs s)) ;;
  collect_go kept names.

(** [Remove]. *)
Definition Remove (ref : string) : iop unit :=
  halves <~ split ref ;;
  writeIndex halves.2 ;;;
  a <~ caught Collect ;;
  match a with Ok _ => ret tt | Err _ => fail INotReclaimed end.

(** [writeJSONBlob]: what was fetched hashes to its name. *)
Definition writeJSONBlob (h : string) : iop unit := sys ISys ;;; sys ISys ;;; change (set_blobs <[h := h]>) ;;; sys ISys.

(** The layers of [layout.WriteImage]: one the layout has is not written again. *)
Fixpoint write_layers (l : list string) : iop unit :=
  match l with
  | [] => ret tt
  | h :: l =>
      b <~ reads (λ s, bool_decide (is_Some (blobs s !! h))) ;;
      (if b then ret tt else change (set_blobs <[h := h]>)) ;;;
      write_layers l
  end.

(** [write]. *)
Definition write (ref digest : string) (m : manifest) : iop unit :=
  writeJSONBlob (MConfig m) ;;;
  writeJSONBlob digest ;;;
  write_layers (MLayers m) ;;;
  sys ISys ;;;
  l <~ manifests ;;
  writeIndex (List.filter (λ d, negb (String.eqb (DRef d) ref)) l ++ [MkDescriptor ref digest]).

(** [Pull]: the digest the registry answers to a reference, [None] where it answers none. *)
Definition Pull (remote : reference → option string) (ref : string) : iop reg_image :=
  p <~ ask (λ _, parseRef ref) ;;
  match remote p with
  | None => fail (IFetch (RName p))
  | Some digest =>
      match manifest_of digest with
      | None => fail (IFetch (RName p))
      | Some m => write (RName p) digest m ;;; Get (RName p)
      end
  end.

End Registry.
Abbreviation iop E := (op images (img_error E)).
