(* ===== verification/Merge.v ===== *)
(** * The layers of an image as one disk

    [services/image/disk.go]: a VM boots from one ext4 image, which is written from the tars of the layers in two passes. The first
    settles which entry of which layer survives at each path, the whiteouts applied; the second streams the survivors as one tar.
    A layer is the list of its headers, each with its place in it. A path is the list of its pieces. *)

From S2P Require Import Prelude GoStrings Tarball.

#[local] Instance typeflag_eq_dec : EqDecision typeflag. Proof. solve_decision. Defined.

(** ** The plan *)

Definition whiteoutPrefix : string := ".wh.".
Definition opaqueWhiteout : string := ".wh..wh..opq".

Abbreviation path := (list string).
Abbreviation version := (nat * nat)%type.

(** [before]. *)
Definition before (v o : version) : bool := (v.1 <? o.1)%nat || ((v.1 =? o.1)%nat && (v.2 <? o.2)%nat).

Record merge : Type := MkMerge { tree : gmap path version; kids : gmap path (gset path); links : gmap version version; names_ : gmap version path }.

Definition set_tree (f : gmap path version → gmap path version) (m : merge) : merge := MkMerge (f (tree m)) (kids m) (links m) (names_ m).
Definition set_kids (f : gmap path (gset path) → gmap path (gset path)) (m : merge) : merge := MkMerge (tree m) (f (kids m)) (links m) (names_ m).

Definition empty_merge : merge := MkMerge ∅ ∅ ∅ ∅.

(** [cleanName]. *)
Definition cleanName (name : string) : option path := match clean_pieces true [] (Split "/" name) with [] => None | ps => Some ps end.

Definition kids_of (q : path) (m : merge) : gset path := default ∅ (kids m !! q).

(** [put]: the name is linked under each parent up to the first one that holds it; over the path with its last piece first. *)
Fixpoint put_go (rev_name : path) (k : gmap path (gset path)) : gmap path (gset path) :=
  match rev_name with
  | [] => k
  | _ :: rev_parent =>
      let held := default ∅ (k !! reverse rev_parent) in
      if bool_decide (reverse rev_name ∈ held) then k else put_go rev_parent (<[reverse rev_parent := {[reverse rev_name]} ∪ held]> k)
  end.

Definition put (name : path) (v : version) (m : merge) : merge := set_kids (put_go (reverse name)) (set_tree <[name := v]> m).

(** [holds]. *)
Definition holds (m : merge) (name : path) (v : version) : bool := bool_decide (tree m !! name = Some v).

(** The first half of [dropBelow]. *)
Definition drop_name (name : path) (limit : nat) (m : merge) : merge :=
  match tree m !! name with Some v => if (v.1 <? limit)%nat then set_tree (delete name) m else m | None => m end.

(** The end of the loop of [dropUnder]: a kid with nothing left under it leaves the index. *)
Definition forget_kid (name kid : path) (m : merge) : merge :=
  if bool_decide (is_Some (tree m !! kid)) || negb (bool_decide (kids_of kid m = ∅)) then m
  else set_kids (λ k, delete kid (alter (λ ks, ks ∖ {[kid]}) name k)) m.

(** [dropUnder] and [dropBelow]: the walk goes one piece deeper with each call, so the depth of the index is fuel enough. *)
Fixpoint dropUnder_go (fuel : nat) (name : path) (limit : nat) (m : merge) : merge :=
  match fuel with
  | O => m
  | S fuel => foldl (λ m kid, forget_kid name kid (dropUnder_go fuel kid limit (drop_name kid limit m))) m (elements (kids_of name m))
  end.

Definition depth (m : merge) : nat := max_list (length <$> elements (dom (kids m))).

Definition dropUnder (name : path) (limit : nat) (m : merge) : merge := dropUnder_go (S (depth m)) name limit m.
Definition dropBelow (name : path) (limit : nat) (m : merge) : merge := dropUnder name limit (drop_name name limit m).

Inductive merge_error : Type := LinkToRoot (name : path) | LinkMissing (name target : path) | BadType (name : path).

(** [path.Join(dir, gone)]: [None] where the result names nothing a layer holds, which are [.] and [..] themselves. *)
Definition hidden (dir : path) (gone : string) : option path :=
  if String.eqb gone "" then Some dir
  else if String.eqb gone "." then match dir with [] => None | _ => Some dir end
  else if String.eqb gone ".." then match dir with [] | [_] => None | _ => Some (removelast dir) end
  else Some (dir ++ [gone]).

(** The link an entry takes: the version its target has now, or the one behind it. *)
Definition take_link (v : version) (name : path) (h : header) (m : merge) : result merge_error merge :=
  match cleanName (Linkname h) with
  | None => Err (LinkToRoot name)
  | Some target =>
      match tree m !! target with
      | None => Err (LinkMissing name target)
      | Some tv => Ok (MkMerge (tree m) (kids m) (<[v := default tv (links m !! tv)]> (links m)) (<[tv := target]> (names_ m)))
      end
  end.

(** [plan]. *)
Definition plan (v : version) (h : header) (m : merge) : result merge_error merge :=
  match cleanName (HName h) with
  | None => Ok m
  | Some name =>
      let dir := removelast name in
      let base := List.last name "" in
      if String.eqb base opaqueWhiteout then Ok (dropUnder dir v.1 m)
      else
        match CutPrefix base whiteoutPrefix with
        | Some gone => Ok (match hidden dir gone with Some name => dropBelow name v.1 m | None => m end)
        | None =>
            m ← match Typeflag h with TypeLink => take_link v name h m | _ => Ok m end;
            Ok (put name v (match Typeflag h with TypeDir => set_tree (delete name) m | _ => dropBelow name (S v.1) m end))
        end
  end.

(** ** The two passes *)

(** The headers of the layers, each with its version, in the order they are read. *)
Fixpoint versions_of (i : nat) (layers : list (list header)) : list (version * header) :=
  match layers with
  | [] => []
  | layer :: layers => imap (λ seq h, ((i, seq), h)) layer ++ versions_of (S i) layers
  end.

Fixpoint plan_all (m : merge) (l : list (version * header)) : result merge_error merge :=
  match l with
  | [] => Ok m
  | (v, h) :: l => m ← plan v h m; plan_all m l
  end.

(** [planDisk]: what of the versions is needed, and where the ones that lost their name are written. *)
Definition needed (m : merge) (v : version) : bool :=
  existsb (λ x, bool_decide (x.2 = v) || bool_decide (links m !! x.2 = Some v)) (map_to_list (tree m)).

Definition home_step (m : merge) (home : gmap version path) (x : path * version) : gmap version path :=
  match links m !! x.2 with
  | None => home
  | Some tv =>
      if match names_ m !! tv with Some n => holds m n tv | None => false end then home
      else
        match home !! tv with
        | Some held => if match tree m !! held with Some o => before x.2 o | None => false end then <[tv := x.1]> home else home
        | None => <[tv := x.1]> home
        end
  end.

Definition home_of (m : merge) : gmap version path := foldl (home_step m) ∅ (map_to_list (tree m)).

(** [checkType]. *)
Definition checkType (h : header) : bool :=
  match Typeflag h with TypeReg | TypeDir | TypeSymlink | TypeLink | TypeChar | TypeBlock | TypeFifo => true | _ => false end.

(** What goes out: an entry of a version under a name, or a hard link to a name. *)
Inductive item : Type := Body (name : path) (v : version) | LinkTo (name target : path).

(** [linkName]. *)
Definition linkName (m : merge) (home : gmap version path) (tv : version) : path :=
  match home !! tv with Some h => h | None => default [] (names_ m !! tv) end.

(** [write]. *)
Definition write (m : merge) (home : gmap version path) (v : version) (h : header) : result merge_error (list item) :=
  match cleanName (HName h) with
  | None => Ok []
  | Some name =>
      if negb (needed m v) then Ok []
      else if negb (checkType h) then Err (BadType name)
      else
        match Typeflag h with
        | TypeLink =>
            let target := default (0, 0)%nat (links m !! v) in
            if bool_decide (home !! target = Some name) then Ok []
            else Ok [LinkTo (if holds m name v then name else default [] (home !! v)) (linkName m home target)]
        | _ => Ok [Body (if holds m name v then name else default [] (home !! v)) v]
        end
  end.

(** [writeTar]. *)
Fixpoint write_all (m : merge) (home : gmap version path) (l : list (version * header)) : result merge_error (list item) :=
  match l with
  | [] => Ok []
  | (v, h) :: l => here ← write m home v h; rest ← write_all m home l; Ok (here ++ rest)
  end.

(** [buildDisk], up to the stream it hands the image writer. *)
Definition buildDisk (layers : list (list header)) : result merge_error (list item) :=
  let l := versions_of 0 layers in
  m ← plan_all empty_merge l; write_all m (home_of m) l.

(** ** The index of the plan *)

(** Everything of a set of paths that a layer before the limit wrote goes. *)
Definition cut (f : path → bool) (limit : nat) (t : gmap path version) : gmap path version :=
  filter (λ x, negb (f x.1 && (x.2.1 <? limit)%nat) = true) t.

Lemma lookup_cut f limit t p :
  cut f limit t !! p = match t !! p with Some v => if f p && (v.1 <? limit)%nat then None else Some v | None => None end.
Proof.
  unfold cut. rewrite map_lookup_filter. destruct (t !! p) as [v|]; [|done]. simpl. destruct (f p && (v.1 <? limit)%nat); by case_guard.
Qed.

Lemma cut_cut f g limit t : cut f limit (cut g limit t) = cut (λ p, f p || g p) limit t.
Proof.
  apply map_eq. intros p. rewrite !lookup_cut. destruct (t !! p) as [v|]; [|done].
  destruct (g p), (v.1 <? limit)%nat eqn:El; simpl; rewrite ?El, ?andb_false_r, ?andb_true_r, ?orb_true_r, ?orb_false_r; by destruct (f p).
Qed.

Lemma cut_ext f g limit t : (∀ p, is_Some (t !! p) → f p = g p) → cut f limit t = cut g limit t.
Proof. intros H. apply map_eq. intros p. rewrite !lookup_cut. destruct (t !! p) as [v|] eqn:Ep; [|done]. by rewrite H. Qed.

(** Every path of the tree is reached from the root through the index, and the index holds nothing that is out of place. *)
Record indexed (m : merge) : Prop := MkIndexed {
  ix_child : ∀ q x, x ∈ kids_of q m → ∃ c, x = q ++ [c];
  ix_up : ∀ q d x, x ∈ kids_of (q ++ [d]) m → q ++ [d] ∈ kids_of q m;
  ix_tree : ∀ q c, is_Some (tree m !! (q ++ [c])) → q ++ [c] ∈ kids_of q m;
  ix_root : tree m !! [] = None
}.

(** The index is not deeper than this. *)
Definition shallow (n : nat) (m : merge) : Prop := ∀ q, kids_of q m ≠ ∅ → (length q < n)%nat.

(** What a drop does to the rest of the plan. *)
Definition shrinks (m m' : merge) : Prop := (∀ q, kids_of q m' ⊆ kids_of q m) ∧ links m' = links m ∧ names_ m' = names_ m.

Lemma shrinks_refl m : shrinks m m.
Proof. done. Qed.

Lemma shrinks_trans m1 m2 m3 : shrinks m1 m2 → shrinks m2 m3 → shrinks m1 m3.
Proof. intros (H1 & H2 & H3) (H4 & H5 & H6). split; [set_solver|]. by rewrite H5, H6. Qed.

Lemma shallow_shrinks n m m' : shrinks m m' → shallow n m → shallow n m'.
Proof. intros [H _] Hs q Hq. apply Hs. specialize (H q). set_solver. Qed.

(** Each piece of the way to something in the index is in it. *)
Lemma indexed_way m q c r : indexed m → r ≠ [] → is_Some (tree m !! (q ++ c :: r)) ∨ kids_of (q ++ c :: r) m ≠ ∅ → q ++ [c] ∈ kids_of q m.
Proof.
  intros Hi. revert q c. induction r as [|d r IH] using rev_ind; [done|]. intros q c _ Hr.
  assert (q ++ c :: r ++ [d] = (q ++ c :: r) ++ [d]) as Eq by (by rewrite <- (assoc_L (++))). rewrite Eq in Hr.
  assert ((q ++ c :: r) ++ [d] ∈ kids_of (q ++ c :: r) m) as Hin.
  { destruct Hr as [Hr|Hr]; [by apply (ix_tree m Hi)|]. apply set_choose_L in Hr as [x Hx]. by eapply (ix_up m Hi). }
  destruct (decide (r = [])) as [->|Hne]; [by eapply (ix_up m Hi)|]. apply (IH q c Hne). right. set_solver.
Qed.

Lemma indexed_first m q c r : indexed m → is_Some (tree m !! (q ++ c :: r)) → q ++ [c] ∈ kids_of q m.
Proof. intros Hi Ht. destruct r as [|d r]; [by apply (ix_tree m Hi)|]. apply (indexed_way m q c (d :: r)); [done|done|by left]. Qed.

Lemma drop_name_tree name limit m : tree (drop_name name limit m) = cut (λ p, bool_decide (p = name)) limit (tree m).
Proof.
  apply map_eq. intros p. rewrite lookup_cut. unfold drop_name. destruct (tree m !! name) as [v|] eqn:En.
  - destruct (v.1 <? limit)%nat eqn:El; cbn [set_tree tree].
    + destruct (decide (name = p)) as [<-|Hne]; [by rewrite lookup_delete_eq, En, bool_decide_true, El|].
      rewrite lookup_delete_ne by done. by rewrite bool_decide_false by done; destruct (tree m !! p).
    + destruct (tree m !! p) as [w|] eqn:Ew; [|done]. case_bool_decide as Hp; [subst; simplify_eq; by rewrite El|done].
  - destruct (tree m !! p) as [w|] eqn:Ew; [|done]. case_bool_decide as Hp; [congruence|done].
Qed.

Lemma drop_name_rest name limit m : kids (drop_name name limit m) = kids m ∧ links (drop_name name limit m) = links m ∧ names_ (drop_name name limit m) = names_ m.
Proof. unfold drop_name. by repeat case_match. Qed.

Lemma kids_of_drop name limit m q : kids_of q (drop_name name limit m) = kids_of q m.
Proof. unfold kids_of. by rewrite (proj1 (drop_name_rest name limit m)). Qed.

Lemma drop_name_indexed name limit m : indexed m → indexed (drop_name name limit m).
Proof.
  intros [H1 H2 H3 H4]. constructor; intros *; rewrite ?kids_of_drop; try by eauto.
  - rewrite drop_name_tree. intros Ht. apply H3. rewrite lookup_cut in Ht. by destruct (tree m !! (q ++ [c])).
  - rewrite drop_name_tree, lookup_cut. by rewrite H4.
Qed.

Lemma drop_name_shrinks name limit m : shrinks m (drop_name name limit m).
Proof. destruct (drop_name_rest name limit m) as (_ & H2 & H3). split; [|done]. intros q. by rewrite kids_of_drop. Qed.

Lemma kids_of_forget name kid m q : name ≠ kid → kids_of q (set_kids (λ k, delete kid (alter (λ ks, ks ∖ {[kid]}) name k)) m) =
  if decide (q = kid) then ∅ else if decide (q = name) then kids_of q m ∖ {[kid]} else kids_of q m.
Proof.
  intros Hne. unfold kids_of. cbn [set_kids kids]. destruct (decide (q = kid)) as [->|Hq]; [by rewrite lookup_delete_eq|].
  rewrite lookup_delete_ne by done. destruct (decide (q = name)) as [->|Hn]; [|by rewrite lookup_alter_ne].
  rewrite lookup_alter_eq. destruct (kids m !! name); simpl; set_solver.
Qed.

Lemma forget_kid_spec name kid m : (∃ c, kid = name ++ [c]) → indexed m →
  tree (forget_kid name kid m) = tree m ∧ indexed (forget_kid name kid m) ∧ shrinks m (forget_kid name kid m).
Proof.
  intros [c Hk] Hi. unfold forget_kid. case_match eqn:Eg; [done|]. apply orb_false_iff in Eg as [E1 E2].
  apply bool_decide_eq_false in E1. apply negb_false_iff, bool_decide_eq_true in E2.
  assert (name ≠ kid) as Hne. { intros ->. apply (f_equal length) in Hk. rewrite length_app in Hk. simpl in Hk. lia. }
  split; [done|]. pose proof Hi as [H1 H2 H3 H4]. set (m' := set_kids _ m).
  assert (∀ q, kids_of q m' = if decide (q = kid) then ∅ else if decide (q = name) then kids_of q m ∖ {[kid]} else kids_of q m) as Hq.
  { intros q. by apply kids_of_forget. }
  assert (∀ q, kids_of q m' ⊆ kids_of q m) as Hsub by (intros q; rewrite Hq; repeat case_decide; set_solver).
  assert (∀ q x, x ∈ kids_of q m → x ≠ kid → q ≠ kid → x ∈ kids_of q m') as Hkeep.
  { intros q x Hx Hxk Hqk. rewrite Hq, decide_False by done. case_decide; set_solver. }
  split; [|done]. constructor.
  - intros q x Hx. apply H1. by apply Hsub.
  - intros q d x Hx. assert (q ++ [d] ≠ kid) as Hqd. { intros Eq. rewrite Hq, decide_True in Hx by done. set_solver. }
    apply Hkeep; [by eapply H2, Hsub|done|]. intros ->. assert (kid ++ [d] ∈ kids_of kid m) by (by eapply H2, Hsub). set_solver.
  - intros q d Hd. cbn in Hd. apply Hkeep; [by apply H3| |]; [by intros Eq; rewrite Eq in Hd|].
    intros ->. assert (kid ++ [d] ∈ kids_of kid m) by (by apply H3). set_solver.
  - done.
Qed.

Definition under (q p : path) : bool := bool_decide (q `prefix_of` p) && negb (bool_decide (p = q)).

Lemma under_spec q p : under q p = true ↔ ∃ c r, p = q ++ c :: r.
Proof.
  unfold under. rewrite andb_true_iff, negb_true_iff, bool_decide_eq_true, bool_decide_eq_false. split.
  - intros [[[|c r] ->] Hne]; [by rewrite (right_id_L [] (++)) in Hne|]. eauto.
  - intros (c & r & ->). split; [by eexists|]. intros Eq. apply (f_equal length) in Eq. rewrite length_app in Eq. simpl in Eq. lia.
Qed.

Lemma prefix_under kid p : bool_decide (kid `prefix_of` p) = under kid p || bool_decide (p = kid).
Proof.
  unfold under. destruct (decide (p = kid)) as [->|Hne]; [by rewrite !bool_decide_true by done|].
  rewrite (bool_decide_false (p = kid)) by done. by rewrite andb_true_r, orb_false_r.
Qed.

(** What a walk over a part of the index does, given what it does one piece deeper. *)
Definition drops (f : path → bool) (limit : nat) (m m' : merge) : Prop := tree m' = cut f limit (tree m) ∧ indexed m' ∧ shrinks m m'.

Lemma drops_trans f g limit m1 m2 m3 : drops g limit m1 m2 → drops f limit m2 m3 → drops (λ p, f p || g p) limit m1 m3.
Proof. intros (H1 & H2 & H3) (H4 & H5 & H6). split; [by rewrite H4, H1, cut_cut|]. split; [done|by eapply shrinks_trans]. Qed.

Lemma drops_kid fuel name kid limit m :
  (∀ m, indexed m → shallow (length kid + fuel) m → drops (under kid) limit m (dropUnder_go fuel kid limit m)) →
  (∃ c, kid = name ++ [c]) → indexed m → shallow (length kid + fuel) m →
  drops (λ p, bool_decide (kid `prefix_of` p)) limit m (forget_kid name kid (dropUnder_go fuel kid limit (drop_name kid limit m))).
Proof.
  intros IH Hk Hi Hs. assert (drops (λ p, bool_decide (p = kid)) limit m (drop_name kid limit m)) as Hd.
  { split; [apply drop_name_tree|]. split; [by apply drop_name_indexed|apply drop_name_shrinks]. }
  specialize (IH (drop_name kid limit m) (proj1 (proj2 Hd)) (shallow_shrinks _ _ _ (drop_name_shrinks kid limit m) Hs)).
  pose proof (drops_trans _ _ _ _ _ _ Hd IH) as (H1 & H2 & H3).
  destruct (forget_kid_spec name kid _ Hk H2) as (H4 & H5 & H6). split; [|split; [done|by eapply shrinks_trans]].
  rewrite H4, H1. apply cut_ext. intros p _. by rewrite prefix_under.
Qed.

Lemma drops_fold fuel name limit ks : ∀ m,
  (∀ kid m, kid ∈ ks → indexed m → shallow (length kid + fuel) m → drops (under kid) limit m (dropUnder_go fuel kid limit m)) →
  (∀ kid, kid ∈ ks → ∃ c, kid = name ++ [c]) → indexed m → shallow (length name + S fuel) m →
  drops (λ p, existsb (λ kid, bool_decide (kid `prefix_of` p)) ks) limit m
    (foldl (λ m kid, forget_kid name kid (dropUnder_go fuel kid limit (drop_name kid limit m))) m ks).
Proof.
  induction ks as [|kid ks IHk]; intros m IH Hk Hi Hs; cbn [foldl].
  { split; [|done]. apply map_eq. intros p. rewrite lookup_cut. simpl. by destruct (tree m !! p). }
  assert (shallow (length kid + fuel) m) as Hs'.
  { destruct (Hk kid) as [c ->]; [left|]. rewrite length_app. simpl. by replace (length name + 1 + fuel)%nat with (length name + S fuel)%nat by lia. }
  assert (∃ c, kid = name ++ [c]) as Hc by (apply Hk; left).
  pose proof (drops_kid fuel name kid limit m (λ m, IH kid m (list_elem_of_here kid ks)) Hc Hi Hs') as H1.
  set (m1 := forget_kid name kid (dropUnder_go fuel kid limit (drop_name kid limit m))) in *. destruct H1 as (H1 & H2 & H3).
  assert (drops (λ p, existsb (λ kid, bool_decide (kid `prefix_of` p)) ks) limit m1
    (foldl (λ m kid, forget_kid name kid (dropUnder_go fuel kid limit (drop_name kid limit m))) m1 ks)) as H4.
  { apply IHk; [|by intros kid' ?; apply Hk; right|done|by eapply shallow_shrinks]. intros kid' m' Hin. apply IH. by right. }
  destruct (drops_trans _ _ _ _ _ _ (conj H1 (conj H2 H3)) H4) as (H5 & H6 & H7). split; [|done]. rewrite H5. apply cut_ext. intros p _.
  simpl. apply orb_comm.
Qed.

Lemma dropUnder_go_spec fuel : ∀ name limit m, indexed m → shallow (length name + fuel) m → drops (under name) limit m (dropUnder_go fuel name limit m).
Proof.
  induction fuel as [|fuel IH]; intros name limit m Hi Hs; cbn [dropUnder_go].
  - split; [|done]. apply map_eq. intros p. rewrite lookup_cut. destruct (tree m !! p) as [v|] eqn:Ep; [|done].
    destruct (under name p) eqn:Eu; [|done]. exfalso. apply under_spec in Eu as (c & r & ->).
    assert (kids_of name m ≠ ∅) as Hne. { pose proof (indexed_first m name c r Hi (mk_is_Some _ _ Ep)). set_solver. }
    specialize (Hs name Hne). lia.
  - destruct (drops_fold fuel name limit (elements (kids_of name m)) m) as (H1 & H2); [| | |done|].
    + intros kid m' _ Hi' Hs'. by apply IH.
    + intros kid Hk%elem_of_elements. by apply (ix_child m Hi).
    + done.
    + split; [|done]. rewrite H1. apply cut_ext. intros p [v Hp]. apply Bool.eq_iff_eq_true. rewrite existsb_elem_of, under_spec. split.
      * intros (kid & Hk%elem_of_elements & Hx%bool_decide_eq_true). destruct (ix_child m Hi name kid Hk) as [c ->]. destruct Hx as [r ->].
        exists c, r. by rewrite <- (assoc_L (++)).
      * intros (c & r & ->). exists (name ++ [c]). split; [|apply bool_decide_eq_true; exists r; by rewrite <- (assoc_L (++))].
        apply elem_of_elements. apply (indexed_first m name c r Hi). by rewrite Hp.
Qed.

Lemma max_list_in n l : n ∈ l → (n ≤ max_list l)%nat.
Proof. induction l as [|x l IH]; [by intros ?%elem_of_nil|]. intros [->|H]%elem_of_cons; simpl; [lia|]. specialize (IH H). lia. Qed.

Lemma depth_shallow m : shallow (S (depth m)) m.
Proof.
  intros q Hq. unfold kids_of in Hq. destruct (kids m !! q) as [ks|] eqn:Ek; [|done]. unfold depth. apply Nat.lt_succ_r, max_list_in.
  apply list_elem_of_fmap. exists q. split; [done|]. apply elem_of_elements, elem_of_dom. by eexists.
Qed.

(** The walk over the index forgets exactly what is under the name, of the layers before the limit: what a scan of the whole tree
    would. *)
Lemma dropUnder_spec name limit m : indexed m → drops (under name) limit m (dropUnder name limit m).
Proof. intros Hi. apply dropUnder_go_spec; [done|]. intros q Hq. pose proof (depth_shallow m q Hq). lia. Qed.

Lemma dropBelow_spec name limit m : indexed m → drops (λ p, bool_decide (name `prefix_of` p)) limit m (dropBelow name limit m).
Proof.
  intros Hi. unfold dropBelow. assert (drops (λ p, bool_decide (p = name)) limit m (drop_name name limit m)) as Hd.
  { split; [apply drop_name_tree|]. split; [by apply drop_name_indexed|apply drop_name_shrinks]. }
  destruct (drops_trans _ _ _ _ _ _ Hd (dropUnder_spec name limit _ (proj1 (proj2 Hd)))) as (H1 & H2). split; [|done].
  rewrite H1. apply cut_ext. intros p _. by rewrite prefix_under.
Qed.

(** ** Putting a name *)

Definition linked (k : gmap path (gset path)) (q : path) : gset path := default ∅ (k !! q).

Lemma linked_insert k q s q' : linked (<[q := s]> k) q' = if decide (q = q') then s else linked k q'.
Proof. unfold linked. destruct (decide (q = q')) as [<-|Hne]; [by rewrite lookup_insert_eq|by rewrite lookup_insert_ne]. Qed.

(** Every parent of what the index holds is in it. *)
Definition closed (k : gmap path (gset path)) : Prop := ∀ q d x, x ∈ linked k (q ++ [d]) → q ++ [d] ∈ linked k q.

Lemma closed_way k q c r : closed k → r ≠ [] → linked k (q ++ c :: r) ≠ ∅ → q ++ [c] ∈ linked k q.
Proof.
  intros Hc. revert q c. induction r as [|d r IH] using rev_ind; [done|]. intros q c _ Hr.
  rewrite app_comm_cons, (assoc_L (++)) in Hr. apply set_choose_L in Hr as [x Hx]. apply Hc in Hx.
  destruct (decide (r = [])) as [->|Hne]; [by eapply Hc|]. apply (IH q c Hne). set_solver.
Qed.

Lemma closed_prefix k q c p d : closed k → p ++ [d] ∈ linked k p → q ++ [c] `prefix_of` p ++ [d] → q ++ [c] ∈ linked k q.
Proof.
  intros Hk Hp [r Hr]. rewrite <- (assoc_L (++)) in Hr. simpl in Hr. destruct r as [|e r _] using rev_ind.
  - apply app_inj_2 in Hr as [-> [= ->]]; [done|done].
  - rewrite app_comm_cons, (assoc_L (++)) in Hr. apply app_inj_2 in Hr as [-> [= ->]]; [|done].
    destruct r as [|f r _] using rev_ind; [by eapply Hk|]. apply (closed_way k q c (r ++ [f])); [done|by destruct r|]. set_solver.
Qed.

Lemma put_go_spec k0 : closed k0 → ∀ rp k, (∀ q, (length q < length rp)%nat → linked k q = linked k0 q) →
  ∀ q x, x ∈ linked (put_go rp k) q ↔ x ∈ linked k q ∨ ∃ c, x = q ++ [c] ∧ x `prefix_of` reverse rp.
Proof.
  intros Hk. induction rp as [|d rp IH]; intros k Ha q x; cbn [put_go].
  - split; [by left|]. intros [H|(c & -> & H)]; [done|]. apply prefix_nil_inv in H. by destruct q.
  - rewrite reverse_cons. change (default ∅ (k !! reverse rp)) with (linked k (reverse rp)). case_bool_decide as Hin.
    + split; [by left|]. intros [H|(c & -> & H)]; [done|]. assert (length q < length (d :: rp))%nat as Hl.
      { apply prefix_length in H. rewrite !length_app, length_reverse in H. simpl in *. lia. }
      rewrite Ha by done. apply (closed_prefix k0 q c (reverse rp) d); [done| |done].
      rewrite <- Ha; [done|]. rewrite length_reverse. simpl. lia.
    + rewrite IH.
      * rewrite linked_insert. split.
        -- intros [H|(c & -> & H)]; [|right; exists c; split; [done|by apply prefix_app_r]].
           case_decide as Eq; [|by left]. subst q. apply elem_of_union in H as [->%elem_of_singleton|H]; [right; by exists d|by left].
        -- intros [H|(c & -> & H)].
           ++ left. case_decide; [subst; set_solver|done].
           ++ destruct H as [r Hr]. destruct r as [|e r _] using rev_ind.
              ** rewrite (right_id_L [] (++)) in Hr. apply app_inj_2 in Hr as [-> [= ->]]; [|done]. left. rewrite decide_True by done. set_solver.
              ** right. exists c. split; [done|]. rewrite (assoc_L (++)) in Hr. apply app_inj_2 in Hr as [-> _]; [|done]. by exists r.
      * intros q' Hq'. rewrite linked_insert, decide_False; [apply Ha; simpl; lia|]. intros <-. rewrite length_reverse in Hq'. lia.
Qed.

Lemma indexed_closed m : indexed m → closed (kids m).
Proof. intros [_ H2 _ _]. exact H2. Qed.

Lemma put_indexed name v m : name ≠ [] → indexed m → indexed (put name v m).
Proof.
  intros Hne Hi. pose proof Hi as [H1 H2 H3 H4].
  assert (∀ q x, x ∈ kids_of q (put name v m) ↔ x ∈ kids_of q m ∨ ∃ c, x = q ++ [c] ∧ x `prefix_of` name) as Hp.
  { intros q x. change (x ∈ linked (put_go (reverse name) (kids m)) q ↔ x ∈ linked (kids m) q ∨ ∃ c, x = q ++ [c] ∧ x `prefix_of` name).
    rewrite (put_go_spec (kids m) (indexed_closed m Hi)) by done. by rewrite reverse_involutive. }
  constructor.
  - intros q x [Hx|(c & -> & _)]%Hp; [by apply H1|by eexists].
  - intros q d x [Hx|(c & -> & Hx)]%Hp; apply Hp; [left; by eapply H2|]. right. exists d. split; [done|]. etrans; [|done]. by eexists.
  - intros q c Hc. apply Hp. cbn in Hc. destruct (decide (name = q ++ [c])) as [->|Hn]; [right; by eexists|].
    rewrite lookup_insert_ne in Hc by done. left. by apply H3.
  - cbn. by rewrite lookup_insert_ne.
Qed.

Lemma delete_indexed name m : indexed m → indexed (set_tree (delete name) m).
Proof.
  intros [H1 H2 H3 H4]. constructor; try done.
  - intros q c Hc. apply H3. cbn in Hc. by apply lookup_delete_is_Some in Hc as [_ Hc].
  - cbn. apply lookup_delete_None. by right.
Qed.

(** ** The reference: one layer over another *)

(** What each path holds: the layer that put it there, and the version of its body; a hard link is a second name of a body. *)
Abbreviation stack := (gmap path (nat * version)).

Definition hide (f : path → bool) (limit : nat) (fs : stack) : stack := filter (λ x, negb (f x.1 && (x.2.1 <? limit)%nat) = true) fs.

Definition overlay_step (v : version) (h : header) (fs : stack) : result merge_error stack :=
  match cleanName (HName h) with
  | None => Ok fs
  | Some name =>
      let dir := removelast name in
      let base := List.last name "" in
      if String.eqb base opaqueWhiteout then Ok (hide (under dir) v.1 fs)
      else
        match CutPrefix base whiteoutPrefix with
        | Some gone => Ok (match hidden dir gone with Some name => hide (λ p, bool_decide (name `prefix_of` p)) v.1 fs | None => fs end)
        | None =>
            body ← match Typeflag h with
                   | TypeLink =>
                       match cleanName (Linkname h) with
                       | None => Err (LinkToRoot name)
                       | Some target => match fs !! target with None => Err (LinkMissing name target) | Some x => Ok x.2 end
                       end
                   | _ => Ok v
                   end;
            Ok (<[name := (v.1, body)]>
                  (match Typeflag h with TypeDir => fs | _ => filter (λ x, negb (bool_decide (name `prefix_of` x.1)) = true) fs end))
        end
  end.

Fixpoint overlay_all (fs : stack) (l : list (version * header)) : result merge_error stack :=
  match l with
  | [] => Ok fs
  | (v, h) :: l => fs ← overlay_step v h fs; overlay_all fs l
  end.

Definition overlay (layers : list (list header)) : result merge_error stack := overlay_all ∅ (versions_of 0 layers).

(** ** The plan is the reference *)

Definition resolve (m : merge) (v : version) : version := default v (links m !! v).
Definition seen (m : merge) : stack := (λ v, (v.1, resolve m v)) <$> tree m.

Definition named (done_ : list (version * header)) (v : version) (p : path) : Prop := ∃ h, (v, h) ∈ done_ ∧ cleanName (HName h) = Some p.

Record planned (m : merge) (done_ : list (version * header)) : Prop := MkPlanned {
  pl_indexed : indexed m;
  pl_tree : ∀ p v, tree m !! p = Some v → named done_ v p;
  pl_links : ∀ v tv, links m !! v = Some tv →
    (∃ h, (v, h) ∈ done_ ∧ Typeflag h = TypeLink) ∧ links m !! tv = None ∧ before tv v = true ∧
    (∃ h n, (tv, h) ∈ done_ ∧ cleanName (HName h) = Some n ∧ Typeflag h ≠ TypeLink ∧ names_ m !! tv = Some n);
  pl_names : ∀ tv n, names_ m !! tv = Some n → named done_ tv n;
  pl_flags : ∀ p v h, tree m !! p = Some v → (v, h) ∈ done_ → Typeflag h = TypeLink → is_Some (links m !! v)
}.

(** A version is that of one header. *)
Definition distinct (l : list (version * header)) : Prop := NoDup l.*1.

Lemma distinct_header l v h h' : distinct l → (v, h) ∈ l → (v, h') ∈ l → h = h'.
Proof.
  intros Hd H1 H2. induction l as [|[u g] l IH]; [by apply elem_of_nil in H1|]. apply NoDup_cons in Hd as [Hn Hd].
  assert (∀ k, (u, k) ∉ l) as Hk. { intros k Hk. apply Hn. apply list_elem_of_fmap. by exists (u, k). }
  apply elem_of_cons in H1 as [E1|H1]; apply elem_of_cons in H2 as [E2|H2]; simplify_eq; [done|by apply Hk in H2|by apply Hk in H1|auto].
Qed.

Lemma named_more done_ x v p : named done_ v p → named (done_ ++ [x]) v p.
Proof. intros (h & H1 & H2). exists h. split; [|done]. apply elem_of_app. by left. Qed.

(** Fewer names, and nothing new. *)
Lemma planned_shrinks m m' done_ x : planned m done_ → indexed m' → (∀ p v, tree m' !! p = Some v → tree m !! p = Some v) → links m' = links m → names_ m' = names_ m →
  x.1 ∉ done_.*1 → planned m' (done_ ++ [x]).
Proof.
  intros [P1 P2 P3 P4 P5] Hi Ht Hl Hn Hx. assert (∀ v h, (v, h) ∈ done_ → (v, h) ∈ done_ ++ [x]) as Hm by (intros; apply elem_of_app; by left).
  constructor; rewrite ?Hl, ?Hn; [done| | | |].
  - intros p v Hp. by apply named_more, P2, Ht.
  - intros v tv Hv. destruct (P3 v tv Hv) as ((h & H1 & H2) & H3 & H4 & (h' & n & H5 & H6)).
    split; [exists h; by split; auto|]. split; [done|]. split; [done|]. exists h', n. by split; auto.
  - intros tv n H. by apply named_more, P4.
  - intros p v h Hp Hh Hf. apply elem_of_app in Hh as [Hh|Hh%list_elem_of_singleton]; [by eapply P5; eauto|].
    exfalso. apply Ht in Hp. destruct (P2 p v Hp) as (h' & Hin & _). apply Hx. subst x. apply list_elem_of_fmap. by exists (v, h').
Qed.

Lemma drops_tree f limit m m' p v : drops f limit m m' → tree m' !! p = Some v → tree m !! p = Some v.
Proof. intros [-> _]. rewrite lookup_cut. destruct (tree m !! p) as [w|]; [|done]. by case_match. Qed.

Lemma drops_planned f limit m m' done_ x : planned m done_ → drops f limit m m' → x.1 ∉ done_.*1 → planned m' (done_ ++ [x]).
Proof. intros Hp Hd Hx. pose proof Hd as (_ & Hi & _ & Hl & Hn). eapply planned_shrinks; try done. intros p v. by eapply drops_tree. Qed.

Lemma drops_seen f limit m m' : drops f limit m m' → seen m' = hide f limit (seen m).
Proof.
  intros (Ht & _ & _ & Hl & _). apply map_eq. intros p. unfold seen, hide. rewrite lookup_fmap, map_lookup_filter, lookup_fmap, Ht, lookup_cut.
  unfold resolve. rewrite Hl. destruct (tree m !! p) as [v|]; [|done]. simpl.
  destruct (f p && (v.1 <? limit)%nat); cbn [fmap option_fmap option_map]; by case_guard.
Qed.

(** Every version there is comes before one that is still to come. *)
Definition follows (v : version) (done_ : list (version * header)) : Prop := ∀ u, u ∈ done_.*1 → before u v = true.

Lemma before_irrefl v : before v v = false.
Proof. unfold before. rewrite Nat.ltb_irrefl, Nat.eqb_refl. simpl. apply Nat.ltb_irrefl. Qed.

Lemma before_layer u v : before u v = true → (u.1 ≤ v.1)%nat.
Proof. unfold before. rewrite orb_true_iff, andb_true_iff. intros [H|[H _]]; breflect; [lia|]. apply Nat.eqb_eq in H. lia. Qed.

Lemma follows_fresh v done_ : follows v done_ → v ∉ done_.*1.
Proof. intros H Hin. specialize (H v Hin). by rewrite before_irrefl in H. Qed.

Lemma named_in done_ v p : named done_ v p → v ∈ done_.*1.
Proof. intros (h & Hin & _). apply list_elem_of_fmap. by exists (v, h). Qed.

Lemma seen_lookup m p : seen m !! p = (λ v, (v.1, resolve m v)) <$> tree m !! p.
Proof. apply lookup_fmap. Qed.

(** The link of a plan, and of the reference. *)
Lemma take_link_planned v name h m done_ : planned m done_ → distinct done_ → follows v done_ → Typeflag h = TypeLink →
  match take_link v name h m, cleanName (Linkname h) with
  | Ok m', Some target => ∃ tv, tree m !! target = Some tv ∧ tree m' = tree m ∧ kids m' = kids m ∧
      links m' = <[v := resolve m tv]> (links m) ∧ names_ m' = <[tv := target]> (names_ m)
  | Err e, None => e = LinkToRoot name
  | Err e, Some target => e = LinkMissing name target ∧ tree m !! target = None
  | Ok _, None => False
  end.
Proof.
  intros Hp Hd Hf Hh. unfold take_link. destruct (cleanName (Linkname h)) as [target|]; [|done].
  destruct (tree m !! target) as [tv|] eqn:Et; [|done]. by exists tv.
Qed.

(** What the links and the names become when an entry takes a version. *)
Lemma linked_planned m m' v name h done_ tv target :
  planned m done_ → distinct done_ → follows v done_ → cleanName (HName h) = Some name → Typeflag h = TypeLink →
  tree m !! target = Some tv → tree m' = tree m → kids m' = kids m → links m' = <[v := resolve m tv]> (links m) → names_ m' = <[tv := target]> (names_ m) →
  indexed m' ∧
  (∀ u w, links m' !! u = Some w →
    (∃ h', (u, h') ∈ done_ ++ [(v, h)] ∧ Typeflag h' = TypeLink) ∧ links m' !! w = None ∧ before w u = true ∧
    (∃ h' n, (w, h') ∈ done_ ++ [(v, h)] ∧ cleanName (HName h') = Some n ∧ Typeflag h' ≠ TypeLink ∧ names_ m' !! w = Some n)) ∧
  (∀ w n, names_ m' !! w = Some n → named (done_ ++ [(v, h)]) w n).
Proof.
  intros [P1 P2 P3 P4 P5] Hd Hf Hn Hh Ht E1 E2 E3 E4. pose proof (follows_fresh v done_ Hf) as Hv.
  assert (∀ u g, (u, g) ∈ done_ → (u, g) ∈ done_ ++ [(v, h)]) as Hm by (intros; apply elem_of_app; by left).
  destruct (P2 target tv Ht) as (ht & Hht & Hnt). assert (tv ∈ done_.*1) as Htv by (by eapply named_in; exists ht).
  assert (∀ u n, names_ m !! u = Some n → names_ m' !! u = Some n) as Hnames.
  { intros u n Hu. rewrite E4. destruct (decide (tv = u)) as [<-|Hne]; [|by rewrite lookup_insert_ne]. rewrite lookup_insert_eq. f_equal.
    destruct (P4 tv n Hu) as (g & Hg & Hgn). assert (g = ht) as -> by (by eapply distinct_header). congruence. }
  split; [|split].
  - destruct P1 as [I1 I2 I3 I4]. constructor; unfold kids_of in *; rewrite ?E1, ?E2; done.
  - intros u w Hu. rewrite E3 in Hu. apply lookup_insert_Some in Hu as [[<- <-]|[Hne Hu]].
    + (* the new link *)
      split; [exists h; split; [apply elem_of_app; right; by apply list_elem_of_singleton|done]|]. unfold resolve.
      destruct (links m !! tv) as [w|] eqn:Ew; simpl.
      * destruct (P3 tv w Ew) as (_ & H2 & H3 & (g & n & H4 & H5 & H6 & H7)).
        assert (w ≠ v) as Hwv. { intros ->. apply Hv. apply list_elem_of_fmap. by exists (v, g). }
        split; [by rewrite E3, lookup_insert_ne|]. split; [apply Hf, list_elem_of_fmap; by exists (w, g)|]. exists g, n. split; [by apply Hm|]. auto.
      * assert (tv ≠ v) as Hwv by (intros ->; done). split; [by rewrite E3, lookup_insert_ne|]. split; [by apply Hf|].
        exists ht, target. split; [by apply Hm|]. split; [done|]. split; [|by rewrite E4, lookup_insert_eq]. intros Hlt.
        destruct (P5 target tv ht Ht Hht Hlt) as [x Hx]. congruence.
    + destruct (P3 u w Hu) as ((g & H1 & H1') & H2 & H3 & (g' & n & H4 & H5 & H6 & H7)).
      assert (w ≠ v) as Hwv. { intros ->. apply Hv. apply list_elem_of_fmap. by exists (v, g'). }
      split; [exists g; split; [by apply Hm|done]|]. split; [by rewrite E3, lookup_insert_ne|]. split; [done|]. exists g', n. split; [by apply Hm|]. auto.
  - intros w n Hw. rewrite E4 in Hw. apply lookup_insert_Some in Hw as [[<- <-]|[_ Hw]]; apply named_more; [by exists ht|by apply P4].
Qed.

(** An entry put in place of what was there. *)
Lemma seen_put name v m : seen (put name v m) = <[name := (v.1, resolve m v)]> (seen m).
Proof.
  apply map_eq. intros p. rewrite seen_lookup. cbn [put set_kids set_tree tree]. destruct (decide (name = p)) as [<-|Hne].
  - by rewrite !lookup_insert_eq.
  - rewrite !lookup_insert_ne by done. by rewrite seen_lookup.
Qed.

Lemma seen_ext m m' : tree m' = tree m → (∀ p v, tree m !! p = Some v → resolve m' v = resolve m v) → seen m' = seen m.
Proof.
  intros Ht Hr. apply map_eq. intros p. rewrite !seen_lookup, Ht. destruct (tree m !! p) as [v|] eqn:Ep; [|done]. simpl. by rewrite (Hr p v Ep).
Qed.

Lemma fresh_unlinked m done_ v : planned m done_ → v ∉ done_.*1 → links m !! v = None.
Proof.
  intros Hp Hv. destruct (links m !! v) as [tv|] eqn:El; [|done]. destruct (pl_links m done_ Hp v tv El) as ((h & Hh & _) & _).
  exfalso. apply Hv. apply list_elem_of_fmap. by exists (v, h).
Qed.

(** What the tree is once the entry has its place to itself. *)
Definition cleared (h : header) (name : path) (v : version) (m : merge) : merge :=
  match Typeflag h with TypeDir => set_tree (delete name) m | _ => dropBelow name (S v.1) m end.

Lemma cleared_spec h name v m : indexed m → let m' := cleared h name v m in
  indexed m' ∧ links m' = links m ∧ names_ m' = names_ m ∧ (∀ p w, tree m' !! p = Some w → tree m !! p = Some w).
Proof.
  intros Hi m'. assert (drops (λ p, bool_decide (name `prefix_of` p)) (S v.1) m (dropBelow name (S v.1) m)) as Hd by (by apply dropBelow_spec).
  assert (m' = set_tree (delete name) m ∨ m' = dropBelow name (S v.1) m) as [->| ->] by (unfold m', cleared; destruct (Typeflag h); auto).
  - split; [by apply delete_indexed|]. split; [done|]. split; [done|]. intros p w. cbn [set_tree tree]. by intros [_ Hw]%lookup_delete_Some.
  - pose proof Hd as (_ & H2 & _ & H3 & H4). split; [done|]. split; [done|]. split; [done|]. intros p w. by eapply drops_tree.
Qed.

Lemma cleared_seen h name v m x : indexed m → (∀ p w, tree m !! p = Some w → (w.1 ≤ v.1)%nat) →
  <[name := x]> (seen (cleared h name v m)) =
  <[name := x]> (match Typeflag h with TypeDir => seen m | _ => filter (λ y, negb (bool_decide (name `prefix_of` y.1)) = true) (seen m) end).
Proof.
  intros Hi Hl. assert (seen (dropBelow name (S v.1) m) = filter (λ y, negb (bool_decide (name `prefix_of` y.1)) = true) (seen m)) as Hd.
  { rewrite (drops_seen _ _ _ _ (dropBelow_spec name (S v.1) m Hi)). apply map_filter_ext. intros p [l w] Hp. simpl.
    rewrite seen_lookup in Hp. destruct (tree m !! p) as [u|] eqn:Eu; [|done]. injection Hp as <- _. specialize (Hl p u Eu).
    rewrite (proj2 (Nat.ltb_lt u.1 (S v.1))) by lia. by rewrite andb_true_r. }
  unfold cleared. destruct (Typeflag h); rewrite ?Hd; try done.
  apply map_eq. intros p. destruct (decide (name = p)) as [<-|Hne]; [by rewrite !lookup_insert_eq|].
  rewrite !lookup_insert_ne by done. rewrite !seen_lookup. cbn [set_tree tree]. by rewrite lookup_delete_ne.
Qed.

Lemma cleanName_ne name p : cleanName name = Some p → p ≠ [].
Proof. unfold cleanName. destruct (clean_pieces true [] (Split "/" name)); [done|]. by intros [= <-]. Qed.

(** One entry, given what its link was. *)
Lemma put_planned m m1 v name h done_ :
  planned m done_ → follows v done_ → cleanName (HName h) = Some name → tree m1 = tree m → indexed m1 →
  (∀ u, u ≠ v → links m1 !! u = links m !! u) →
  (∀ u w, links m1 !! u = Some w →
    (∃ h', (u, h') ∈ done_ ++ [(v, h)] ∧ Typeflag h' = TypeLink) ∧ links m1 !! w = None ∧ before w u = true ∧
    (∃ h' n, (w, h') ∈ done_ ++ [(v, h)] ∧ cleanName (HName h') = Some n ∧ Typeflag h' ≠ TypeLink ∧ names_ m1 !! w = Some n)) →
  (∀ w n, names_ m1 !! w = Some n → named (done_ ++ [(v, h)]) w n) →
  (Typeflag h = TypeLink → is_Some (links m1 !! v)) →
  planned (put name v (cleared h name v m1)) (done_ ++ [(v, h)]).
Proof.
  intros Hp Hf Hn Ht Hi Hl H3 H4 H5. destruct (cleared_spec h name v m1 Hi) as (C1 & C2 & C3 & C4). set (m2 := cleared h name v m1) in *.
  pose proof (follows_fresh v done_ Hf) as Hv. constructor.
  - apply put_indexed; [by eapply cleanName_ne|done].
  - intros p w. cbn [put set_kids set_tree tree]. intros [[<- <-]|[_ Hw]]%lookup_insert_Some.
    + exists h. split; [apply elem_of_app; right; by apply list_elem_of_singleton|done].
    + apply C4 in Hw. rewrite Ht in Hw. apply named_more. by apply (pl_tree m done_ Hp).
  - cbn [put set_kids set_tree links names_]. by rewrite C2, C3.
  - cbn [put set_kids set_tree names_]. by rewrite C3.
  - intros p w g. cbn [put set_kids set_tree links tree]. rewrite C2. intros [[<- <-]|[Hne Hw]]%lookup_insert_Some Hg Hg'.
    + apply H5. apply elem_of_app in Hg as [Hg|Hg%list_elem_of_singleton]; [|by simplify_eq].
      exfalso. apply Hv. apply list_elem_of_fmap. by exists (v, g).
    + apply C4 in Hw. rewrite Ht in Hw. pose proof (named_in _ _ _ (pl_tree m done_ Hp p w Hw)) as Hin. assert (w ≠ v) as Hwv by (intros ->; done).
      rewrite Hl by done. apply elem_of_app in Hg as [Hg|Hg%list_elem_of_singleton]; [|by simplify_eq]. by apply (pl_flags m done_ Hp p w g).
Qed.

Lemma plan_step v h m done_ : planned m done_ → distinct done_ → follows v done_ →
  match plan v h m with
  | Ok m' => planned m' (done_ ++ [(v, h)]) ∧ overlay_step v h (seen m) = Ok (seen m')
  | Err e => overlay_step v h (seen m) = Err e
  end.
Proof.
  intros Hp Hd Hf. pose proof (follows_fresh v done_ Hf) as Hv. unfold plan, overlay_step. destruct (cleanName (HName h)) as [name|] eqn:Hn.
  2: { split; [|done]. by eapply planned_shrinks; try apply Hp. }
  destruct (String.eqb (List.last name "") opaqueWhiteout).
  { pose proof (dropUnder_spec (removelast name) v.1 m (pl_indexed m done_ Hp)) as Hdr. split; [by eapply drops_planned|]. by rewrite (drops_seen _ _ _ _ Hdr). }
  destruct (CutPrefix (List.last name "") whiteoutPrefix) as [gone|].
  { destruct (hidden (removelast name) gone) as [q|]; [|split; [by eapply planned_shrinks; try apply Hp|done]].
    pose proof (dropBelow_spec q v.1 m (pl_indexed m done_ Hp)) as Hdr. split; [by eapply drops_planned|]. by rewrite (drops_seen _ _ _ _ Hdr). }
  assert (∀ p w, tree m !! p = Some w → (w.1 ≤ v.1)%nat) as Hlay. { intros p w Hw. apply before_layer, Hf. by eapply named_in, (pl_tree m done_ Hp). }
  assert (∀ m1 body, tree m1 = tree m → indexed m1 → (∀ u, u ≠ v → links m1 !! u = links m !! u) → resolve m1 v = body →
    <[name := (v.1, body)]> (match Typeflag h with TypeDir => seen m | _ => filter (λ x, negb (bool_decide (name `prefix_of` x.1)) = true) (seen m) end) =
    seen (put name v (cleared h name v m1))) as Hseen.
  { intros m1 body Ht Hi Hl Hb. destruct (cleared_spec h name v m1 Hi) as (_ & C2 & _ & _). rewrite seen_put. unfold resolve at 1. rewrite C2.
    fold (resolve m1 v). rewrite Hb. rewrite cleared_seen; [|done|by rewrite Ht]. assert (seen m1 = seen m) as ->; [|done].
    apply seen_ext; [done|]. intros p w Hw. unfold resolve. rewrite Hl; [done|]. intros ->. apply Hv. by eapply named_in, (pl_tree m done_ Hp). }
  destruct (decide (Typeflag h = TypeLink)) as [Hlink|Hlink].
  - rewrite Hlink. pose proof (take_link_planned v name h m done_ Hp Hd Hf Hlink) as Htl.
    destruct (take_link v name h m) as [m1|e]; destruct (cleanName (Linkname h)) as [target|]; cbn [mbind result_bind].
    + destruct Htl as (tv & Htv & E1 & E2 & E3 & E4).
      destruct (linked_planned m m1 v name h done_ tv target Hp Hd Hf Hn Hlink Htv E1 E2 E3 E4) as (L1 & L2 & L3).
      assert (∀ u, u ≠ v → links m1 !! u = links m !! u) as Hl by (intros u Hu; by rewrite E3, lookup_insert_ne).
      assert (dropBelow name (S v.1) m1 = cleared h name v m1) as -> by (unfold cleared; by rewrite Hlink). split.
      * apply (put_planned m m1 v name h done_); try done. intros _. rewrite E3, lookup_insert_eq. by eexists.
      * rewrite seen_lookup, Htv. cbn [fmap option_fmap option_map mbind result_bind]. f_equal. rewrite <- (Hseen m1 (resolve m tv)); try done.
        -- by rewrite Hlink.
        -- unfold resolve at 1. by rewrite E3, lookup_insert_eq.
    + done.
    + destruct Htl as [-> Htv]. by rewrite seen_lookup, Htv.
    + by subst e.
  - assert (match Typeflag h with TypeLink => take_link v name h m | _ => Ok m end = Ok m) as -> by (by destruct (Typeflag h)).
    assert (∀ A (a b : A), match Typeflag h with TypeLink => a | _ => b end = b) as Hno by (intros; by destruct (Typeflag h)). rewrite Hno.
    cbn [mbind result_bind]. fold (cleared h name v m). pose proof (fresh_unlinked m done_ v Hp Hv) as Hu. split.
    + apply (put_planned m m v name h done_); try done; [by apply (pl_indexed m done_)| |].
      * intros u w Hw. destruct (pl_links m done_ Hp u w Hw) as ((g & G1 & G2) & G3 & G4 & (g' & n & G5 & G6)).
        split; [exists g; split; [apply elem_of_app; by left|done]|]. split; [done|]. split; [done|]. exists g', n. split; [apply elem_of_app; by left|done].
      * intros w n Hw. by apply named_more, (pl_names m done_ Hp).
    + f_equal. apply Hseen; [done|by apply (pl_indexed m done_)|done|]. unfold resolve. by rewrite Hu.
Qed.

Lemma plan_all_spec l : ∀ m done_, planned m done_ → distinct (done_ ++ l) → (∀ pre x post, l = pre ++ x :: post → follows x.1 (done_ ++ pre)) →
  match plan_all m l with
  | Ok m' => planned m' (done_ ++ l) ∧ overlay_all (seen m) l = Ok (seen m')
  | Err e => overlay_all (seen m) l = Err e
  end.
Proof.
  induction l as [|[v h] l IH]; intros m done_ Hp Hd Hf; cbn [plan_all overlay_all].
  { by rewrite (right_id_L [] (++)). }
  assert (distinct done_) as Hd0. { unfold distinct in *. rewrite fmap_app in Hd. by apply NoDup_app in Hd as [? _]. }
  assert (follows v done_) as Hv. { specialize (Hf [] (v, h) l eq_refl). by rewrite (right_id_L [] (++)) in Hf. }
  pose proof (plan_step v h m done_ Hp Hd0 Hv) as Hs. destruct (plan v h m) as [m1|e]; cbn [mbind result_bind]; [|by rewrite Hs].
  destruct Hs as [Hp1 ->]. cbn [mbind result_bind]. specialize (IH m1 (done_ ++ [(v, h)]) Hp1). rewrite <- (assoc_L (++)) in IH. apply IH; [done|].
  intros pre x post ->. rewrite <- (assoc_L (++)). by apply (Hf ((v, h) :: pre) x post).
Qed.

(** ** The order of the versions *)

Definition earlier (x y : version * header) : Prop := before x.1 y.1 = true.

Lemma layer_sorted i layer : ∀ k, StronglySorted earlier (imap (λ seq h, ((i, (k + seq)%nat), h)) layer) ∧
  Forall (λ x, x.1.1 = i ∧ (k ≤ x.1.2)%nat) (imap (λ seq h, ((i, (k + seq)%nat), h)) layer).
Proof.
  induction layer as [|h layer IH]; intros k; [by split; constructor|]. rewrite imap_cons. destruct (IH (S k)) as [H1 H2].
  assert (imap ((λ seq h, ((i, (k + seq)%nat), h)) ∘ S) layer = imap (λ seq h, ((i, (S k + seq)%nat), h)) layer) as ->.
  { apply imap_ext. intros j x _. simpl. by rewrite Nat.add_succ_r. }
  split.
  - constructor; [done|]. eapply Forall_impl; [done|]. intros [[a b] g] [Ha Hb]. simpl in *. subst a. unfold earlier, before. simpl.
    rewrite Nat.ltb_irrefl, Nat.eqb_refl. simpl. apply Nat.ltb_lt. lia.
  - constructor; [simpl; lia|]. eapply Forall_impl; [done|]. intros x [? ?]. split; [done|lia].
Qed.

Lemma versions_sorted layers : ∀ i, StronglySorted earlier (versions_of i layers) ∧ Forall (λ x, (i ≤ x.1.1)%nat) (versions_of i layers).
Proof.
  induction layers as [|layer layers IH]; intros i; cbn [versions_of]; [by split; constructor|]. destruct (IH (S i)) as [H1 H2].
  destruct (layer_sorted i layer 0) as [H3 H4]. change (λ seq h, ((i, (0 + seq)%nat), h)) with (λ (seq : nat) (h : header), ((i, seq), h)) in H3, H4. split.
  - apply StronglySorted_app. split_and!; [|done|done]. rewrite !Forall_forall in *. intros x y Hx Hy. destruct (H4 x Hx) as [Hx1 _]. specialize (H2 y Hy).
    unfold earlier, before. apply orb_true_iff. left. apply Nat.ltb_lt. lia.
  - apply Forall_app. split; [eapply Forall_impl; [exact H4|]; simpl; intros x [? ?]; lia|]. eapply Forall_impl; [exact H2|]. simpl. intros x ?. lia.
Qed.

Lemma sorted_follows l pre x post : StronglySorted earlier l → l = pre ++ x :: post → follows x.1 pre.
Proof.
  intros Hs -> u (y & -> & Hy)%list_elem_of_fmap. apply (StronglySorted_app_1_elem_of earlier pre (x :: post) y x Hs Hy). left.
Qed.

Lemma sorted_distinct l : StronglySorted earlier l → distinct l.
Proof.
  induction 1 as [|x l Hl IH Hx]; [constructor|]. constructor; [|done]. intros (y & Hxy & Hy)%list_elem_of_fmap.
  rewrite Forall_forall in Hx. specialize (Hx y Hy). unfold earlier in Hx. by rewrite Hxy, before_irrefl in Hx.
Qed.

(** ** The stream laid down *)

(** The disk the image writer makes of a stream: an entry takes its name, and a hard link is a second name of what its target is by
    then. *)
Fixpoint laid (disk : gmap path version) (items : list item) : option (gmap path version) :=
  match items with
  | [] => Some disk
  | Body name v :: items => laid (<[name := v]> disk) items
  | LinkTo name target :: items => match disk !! target with Some v => laid (<[name := v]> disk) items | None => None end
  end.

Lemma laid_app items : ∀ disk more, laid disk (items ++ more) = match laid disk items with Some disk => laid disk more | None => None end.
Proof. induction items as [|[] items IH]; intros disk more; simpl; [done|by rewrite IH|]. destruct (disk !! target); [by rewrite IH|done]. Qed.

(** A version that a link took, and that has its own name no more. *)
Definition lost (m : merge) (tv : version) : bool := negb (match names_ m !! tv with Some n => holds m n tv | None => false end).

Lemma home_spec m l : ∀ home,
  (∀ p v, (p, v) ∈ l → tree m !! p = Some v) →
  (∀ tv p, home !! tv = Some p → lost m tv = true ∧ ∃ v, tree m !! p = Some v ∧ links m !! v = Some tv) →
  let home' := foldl (home_step m) home l in
  (∀ tv p, home' !! tv = Some p → lost m tv = true ∧ ∃ v, tree m !! p = Some v ∧ links m !! v = Some tv) ∧
  (∀ tv, is_Some (home !! tv) → is_Some (home' !! tv)) ∧
  (∀ p v tv, (p, v) ∈ l → links m !! v = Some tv → lost m tv = true → is_Some (home' !! tv)).
Proof.
  induction l as [|[p v] l IH]; intros home Hl Hh; cbn [foldl].
  { split; [done|]. split; [done|]. by intros ? ? ? ?%elem_of_nil. }
  set (home1 := home_step m home (p, v)).
  assert ((∀ tv q, home1 !! tv = Some q → lost m tv = true ∧ ∃ v, tree m !! q = Some v ∧ links m !! v = Some tv) ∧
    (∀ tv, is_Some (home !! tv) → is_Some (home1 !! tv)) ∧ (∀ tv, links m !! v = Some tv → lost m tv = true → is_Some (home1 !! tv))) as (H1 & H2 & H3).
  { assert (tree m !! p = Some v) as Hp by (apply Hl; left). unfold home1, home_step. cbn [fst snd]. destruct (links m !! v) as [tv|] eqn:Ev; [|done].
    assert (match names_ m !! tv with Some n => holds m n tv | None => false end = negb (lost m tv)) as -> by (unfold lost; by rewrite negb_involutive).
    destruct (lost m tv) eqn:El; simpl.
    2: { split; [done|]. split; [done|]. intros tv' [= <-]. by rewrite El. }
    assert (∀ tv' q, <[tv := p]> home !! tv' = Some q → lost m tv' = true ∧ ∃ v, tree m !! q = Some v ∧ links m !! v = Some tv') as Hin.
    { intros tv' q [[<- <-]|[_ Hq]]%lookup_insert_Some; [|by apply Hh]. split; [done|]. by exists v. }
    assert (∀ tv', is_Some (home !! tv') → is_Some (<[tv := p]> home !! tv')) as Hmon by (intros; rewrite lookup_insert_is_Some'; by right).
    destruct (home !! tv) as [held|] eqn:Et; [case_match|]; (split; [done|]); (split; [done|]); intros tv' [= <-] _.
    all: rewrite ?lookup_insert_eq, ?Et; by eexists. }
  destruct (IH home1) as (H4 & H5 & H6); [intros q w Hq; apply Hl; by right|done|]. split; [done|]. split; [by auto|].
  intros q w tv [[= -> ->]|Hq]%elem_of_cons Hw Hlost; [by apply H5, H3|by eapply H6].
Qed.

Lemma home_of_spec m :
  (∀ tv p, home_of m !! tv = Some p → lost m tv = true ∧ ∃ v, tree m !! p = Some v ∧ links m !! v = Some tv) ∧
  (∀ p v tv, tree m !! p = Some v → links m !! v = Some tv → lost m tv = true → is_Some (home_of m !! tv)).
Proof.
  destruct (home_spec m (map_to_list (tree m)) ∅) as (H1 & _ & H3).
  - intros p v. by rewrite elem_of_map_to_list.
  - by intros tv p ?%lookup_empty_Some.
  - split; [done|]. intros p v tv Hp. apply (H3 p v tv). by apply elem_of_map_to_list.
Qed.

(** What is on the disk once the versions of [done_] have gone out. *)
Definition out (m : merge) (done_ : list (version * header)) (p : path) (v : version) : bool :=
  match links m !! v with
  | None => bool_decide (v ∈ done_.*1)
  | Some tv => if bool_decide (home_of m !! tv = Some p) then bool_decide (tv ∈ done_.*1) else bool_decide (v ∈ done_.*1)
  end.

Definition disk_after (m : merge) (done_ : list (version * header)) (disk : gmap path version) : Prop :=
  ∀ p, disk !! p = match tree m !! p with Some v => if out m done_ p v then Some (resolve m v) else None | None => None end.

(** A version that is the last to go out changes nothing but what waits for it. *)
Lemma out_snoc m done_ v h p w : v ∉ done_.*1 → (links m !! w = None → w ≠ v) → (∀ tv, links m !! w = Some tv → home_of m !! tv = Some p → tv ≠ v) →
  (∀ tv, links m !! w = Some tv → home_of m !! tv ≠ Some p → w ≠ v) → out m (done_ ++ [(v, h)]) p w = out m done_ p w.
Proof.
  intros Hv H1 H2 H3. unfold out. assert (∀ u, u ≠ v → bool_decide (u ∈ (done_ ++ [(v, h)]).*1) = bool_decide (u ∈ done_.*1)) as Hb.
  { intros u Hu. apply bool_decide_ext. rewrite fmap_app. set_solver. }
  destruct (links m !! w) as [tv|] eqn:Ew; [|by apply Hb, H1]. case_bool_decide as Eh; [by apply Hb, (H2 tv)|by apply Hb, (H3 tv)].
Qed.

Section Written.
Context (m : merge) (l : list (version * header)) (Hpl : planned m l) (Hso : StronglySorted earlier l).

Lemma header_name v h p : (v, h) ∈ l → named l v p → cleanName (HName h) = Some p.
Proof. intros H1 (h' & H2 & H3). by rewrite (distinct_header l v h h' (sorted_distinct l Hso) H1 H2). Qed.

Lemma tree_name v h p : (v, h) ∈ l → tree m !! p = Some v → cleanName (HName h) = Some p.
Proof. intros H1 H2. apply (header_name v h p H1). by apply (pl_tree m l Hpl). Qed.

(** What is behind a link: a version of its own name, which is no link and came before. *)
Lemma behind w tv h : links m !! w = Some tv → (tv, h) ∈ l →
  links m !! tv = None ∧ before tv w = true ∧ Typeflag h ≠ TypeLink ∧ ∃ n, cleanName (HName h) = Some n ∧ names_ m !! tv = Some n.
Proof.
  intros Hw Hh. destruct (pl_links m l Hpl w tv Hw) as (_ & H2 & H3 & (h' & n & H4 & H5 & H6 & H7)).
  rewrite (distinct_header l tv h h' (sorted_distinct l Hso) Hh H4). eauto 10.
Qed.

Lemma needed_spec v : needed m v = true ↔ ∃ p w, tree m !! p = Some w ∧ (w = v ∨ links m !! w = Some v).
Proof.
  unfold needed. rewrite existsb_elem_of. split.
  - intros ([p w] & Hp%elem_of_map_to_list & Hx). apply orb_true_iff in Hx as [Hx|Hx]; apply bool_decide_eq_true in Hx; eauto.
  - intros (p & w & Hp & Hx). exists (p, w). split; [by apply elem_of_map_to_list|]. apply orb_true_iff. rewrite !bool_decide_eq_true. done.
Qed.

Lemma before_asym u v : before u v = true → before v u = true → False.
Proof.
  unfold before. rewrite !orb_true_iff, !andb_true_iff. intros H1 H2.
  destruct H1 as [H1|[H1 H1']], H2 as [H2|[H2 H2']]; breflect; rewrite ?Nat.eqb_eq in *; lia.
Qed.

(** What came before has gone out. *)
Lemma gone_out done_ v h todo tv : l = done_ ++ (v, h) :: todo → tv ∈ l.*1 → before tv v = true → tv ∈ done_.*1.
Proof.
  intros Hl Hin Hb. rewrite Hl, fmap_app, fmap_cons in Hin. apply elem_of_app in Hin as [Hin|Hin]; [done|]. exfalso.
  apply elem_of_cons in Hin as [->|(y & -> & Hy)%list_elem_of_fmap]; [by rewrite before_irrefl in Hb|].
  assert (before v y.1 = true) as Hv; [|by eapply before_asym].
  rewrite Hl in Hso. apply StronglySorted_app_1_r in Hso. inversion Hso as [|? ? _ Hall]; subst. rewrite Forall_forall in Hall. by apply (Hall y Hy).
Qed.

(** The next version, and what is on the disk before it. *)
Context (done_ : list (version * header)) (v : version) (h : header) (todo : list (version * header)) (Hl : l = done_ ++ (v, h) :: todo).
Context (disk : gmap path version) (Hd : disk_after m done_ disk).

Lemma next_in : (v, h) ∈ l.
Proof. rewrite Hl. apply elem_of_app. right. left. Qed.

Lemma next_fresh : v ∉ done_.*1.
Proof. apply follows_fresh, (sorted_follows l done_ (v, h) todo Hso Hl). Qed.

(** Nothing goes out, and nothing waited for it. *)
Lemma step_quiet : (∀ p w, tree m !! p = Some w → (links m !! w = Some v → home_of m !! v ≠ Some p) ∧
    (w = v → ∃ tv, links m !! v = Some tv ∧ home_of m !! tv = Some p)) → disk_after m (done_ ++ [(v, h)]) disk.
Proof.
  intros H p. rewrite Hd. destruct (tree m !! p) as [w|] eqn:Ep; [|done]. destruct (H p w Ep) as [H1 H2]. rewrite out_snoc; [done|apply next_fresh| | |].
  - intros Hn ->. destruct (H2 eq_refl) as (tv & Htv & _). congruence.
  - intros tv Htv Hh ->. by apply H1.
  - intros tv Htv Hh ->. destruct (H2 eq_refl) as (tv' & Htv' & Hh'). congruence.
Qed.

(** One entry goes out under a name. *)
Lemma step_put q w : tree m !! q = Some w → out m (done_ ++ [(v, h)]) q w = true →
  (∀ p w, p ≠ q → tree m !! p = Some w → w ≠ v ∧ (links m !! w = Some v → home_of m !! v ≠ Some p)) →
  disk_after m (done_ ++ [(v, h)]) (<[q := resolve m w]> disk).
Proof.
  intros Hq Ho Hrest p. destruct (decide (q = p)) as [<-|Hne]; [by rewrite lookup_insert_eq, Hq, Ho|].
  rewrite lookup_insert_ne by done. rewrite Hd. destruct (tree m !! p) as [w'|] eqn:Ep; [|done]. destruct (Hrest p w') as [R1 R2]; [done|done|].
  rewrite out_snoc; [done|apply next_fresh|done| |done]. intros tv Htv Hhome ->. by apply R2.
Qed.

Lemma next_out : v ∈ (done_ ++ [(v, h)]).*1.
Proof. rewrite fmap_app. apply elem_of_app. right. left. Qed.

Lemma next_name p : tree m !! p = Some v → cleanName (HName h) = Some p.
Proof. apply (tree_name v h p next_in). Qed.

(** A version a link took, which is on the disk: at its home, or at its own name. *)
Lemma linkName_out w tv : links m !! w = Some tv → (∃ p, tree m !! p = Some w) → tv ∈ done_.*1 → disk !! linkName m (home_of m) tv = Some tv.
Proof.
  intros Hw [p Hp] Hin. destruct (home_of_spec m) as [H1 H2]. unfold linkName. destruct (home_of m !! tv) as [hp|] eqn:Eh.
  - destruct (H1 tv hp Eh) as (_ & v' & Hv' & Hlv'). rewrite Hd, Hv'. unfold out, resolve. rewrite Hlv'. by rewrite !bool_decide_true.
  - destruct (lost m tv) eqn:El; [destruct (H2 p w tv Hp Hw El); congruence|]. unfold lost in El. apply negb_false_iff in El.
    destruct (names_ m !! tv) as [n|]; [|done]. simpl. unfold holds in El. apply bool_decide_eq_true in El. rewrite Hd, El.
    destruct (pl_links m l Hpl w tv Hw) as (_ & Hn & _). unfold out, resolve. rewrite Hn. by rewrite bool_decide_true.
Qed.

Lemma write_link name items : cleanName (HName h) = Some name → needed m v = true → Typeflag h = TypeLink →
  write m (home_of m) v h = Ok items → ∃ disk', laid disk items = Some disk' ∧ disk_after m (done_ ++ [(v, h)]) disk'.
Proof.
  intros Hn Hne Hlink. assert (∀ p w, tree m !! p = Some w → links m !! w ≠ Some v) as Hnob.
  { intros p w _ Hlw. by destruct (behind w v h Hlw next_in) as (_ & _ & ? & _). }
  apply needed_spec in Hne as Hex. destruct Hex as (p & w & Hp & [->|Hw]); [|by destruct (Hnob p w Hp)].
  pose proof (next_name p Hp) as Hp'. assert (p = name) as -> by congruence.
  destruct (pl_flags m l Hpl name v h Hp next_in Hlink) as [tv Htv]. destruct (pl_links m l Hpl v tv Htv) as (_ & _ & Hb & (ht & n & Hht & _)).
  assert (tv ∈ done_.*1) as Hout. { eapply (gone_out done_ v h todo); [done| |done]. apply list_elem_of_fmap. by exists (tv, ht). }
  unfold write. rewrite Hn, Hne, Hlink, Htv. unfold checkType. rewrite Hlink. simpl. case_bool_decide as Hhome.
  - intros [= <-]. exists disk. split; [done|]. apply step_quiet. intros q w Hq. split; [intros Hx; by destruct (Hnob q w Hq)|].
    intros ->. pose proof (next_name q Hq) as Hq'. assert (q = name) as -> by congruence. by exists tv.
  - intros [= <-]. unfold holds. rewrite bool_decide_true by done. cbn [laid]. rewrite (linkName_out v tv Htv); [|by eexists|done].
    eexists. split; [done|]. replace tv with (resolve m v) by (unfold resolve; by rewrite Htv). apply step_put; [done| |].
    + unfold out. rewrite Htv, bool_decide_false by done. by rewrite bool_decide_true by apply next_out.
    + intros q w Hqn Hq. split; [|intros Hx; by destruct (Hnob q w Hq)]. intros ->. pose proof (next_name q Hq). congruence.
Qed.

Lemma write_body name items : cleanName (HName h) = Some name → needed m v = true → Typeflag h ≠ TypeLink →
  write m (home_of m) v h = Ok items → ∃ disk', laid disk items = Some disk' ∧ disk_after m (done_ ++ [(v, h)]) disk'.
Proof.
  intros Hn Hne Hlink. destruct (home_of_spec m) as [Hh1 Hh2]. assert (links m !! v = None) as Hv.
  { destruct (links m !! v) as [tv|] eqn:Ev; [|done]. destruct (pl_links m l Hpl v tv Ev) as ((h' & Hh' & Hf) & _).
    by rewrite (distinct_header l v h' h (sorted_distinct l Hso) Hh' next_in) in Hf. }
  assert (∀ q, tree m !! q = Some v → q = name) as Huniq by (intros q Hq; pose proof (next_name q Hq); congruence).
  unfold write. rewrite Hn, Hne. simpl. destruct (checkType h); simpl; [|done].
  assert (∀ A (a b : A), match Typeflag h with TypeLink => a | _ => b end = b) as -> by (intros; by destruct (Typeflag h)).
  intros [= <-]. cbn [laid]. eexists. split; [done|]. destruct (holds m name v) eqn:Eho.
  - unfold holds in Eho. apply bool_decide_eq_true in Eho. replace v with (resolve m v) at 2 by (unfold resolve; by rewrite Hv).
    apply step_put; [done| |].
    + unfold out. rewrite Hv. by rewrite bool_decide_true by apply next_out.
    + intros q w Hqn Hq. split; [by intros ->; apply Huniq in Hq|]. intros Hw Hhome. destruct (Hh1 v q Hhome) as [Hlost _].
      destruct (behind w v h Hw next_in) as (_ & _ & _ & n & Hn' & Hnn). unfold lost in Hlost. rewrite Hnn in Hlost.
      assert (n = name) as -> by congruence. unfold holds in Hlost. by rewrite bool_decide_true in Hlost.
  - unfold holds in Eho. apply bool_decide_eq_false in Eho. apply needed_spec in Hne as (p & w & Hp & [->|Hw]).
    { by rewrite (Huniq p Hp) in Hp. }
    destruct (behind w v h Hw next_in) as (_ & _ & _ & n & Hn' & Hnn). assert (n = name) as -> by congruence.
    assert (lost m v = true) as Hlost. { unfold lost. rewrite Hnn. unfold holds. by rewrite bool_decide_false. }
    destruct (Hh2 p w v Hp Hw Hlost) as [hp Hhp]. rewrite Hhp. simpl. destruct (Hh1 v hp Hhp) as (_ & v' & Hv' & Hlv').
    replace v with (resolve m v') at 2 by (unfold resolve; by rewrite Hlv'). apply step_put; [done| |].
    + unfold out. rewrite Hlv', bool_decide_true by done. by rewrite bool_decide_true by apply next_out.
    + intros q w' Hqn Hq. split; [intros ->; by rewrite (Huniq q Hq) in Hq|]. intros _. congruence.
Qed.

Lemma write_step items : write m (home_of m) v h = Ok items →
  ∃ disk', laid disk items = Some disk' ∧ disk_after m (done_ ++ [(v, h)]) disk'.
Proof.
  intros Hw. destruct (cleanName (HName h)) as [name|] eqn:Hn.
  - destruct (needed m v) eqn:Hne.
    + destruct (decide (Typeflag h = TypeLink)); [by eapply write_link|by eapply write_body].
    + unfold write in Hw. rewrite Hn, Hne in Hw. injection Hw as <-. exists disk. split; [done|]. apply step_quiet.
      assert (¬ ∃ p w, tree m !! p = Some w ∧ (w = v ∨ links m !! w = Some v)) as Hno by (by rewrite <- needed_spec, Hne). naive_solver.
  - unfold write in Hw. rewrite Hn in Hw. injection Hw as <-. exists disk. split; [done|]. apply step_quiet. intros p w Hp. split.
    + intros Hx. destruct (behind w v h Hx next_in) as (_ & _ & _ & n & Hn' & _). congruence.
    + intros ->. pose proof (next_name p Hp). congruence.
Qed.

End Written.

Lemma write_all_spec m l : planned m l → StronglySorted earlier l → ∀ todo done_ disk items, l = done_ ++ todo → disk_after m done_ disk →
  write_all m (home_of m) todo = Ok items → ∃ disk', laid disk items = Some disk' ∧ disk_after m l disk'.
Proof.
  intros Hp Hs. induction todo as [|[v h] todo IH]; intros done_ disk items Hl Hd; cbn [write_all].
  { intros [= <-]. exists disk. split; [done|]. by rewrite Hl, (right_id_L [] (++)). }
  intros (here & Hh & (rest & Hr & [= <-])%bind_Ok)%bind_Ok. destruct (write_step m l Hp Hs done_ v h todo Hl disk Hd here Hh) as (disk1 & H1 & H2).
  destruct (IH (done_ ++ [(v, h)]) disk1 rest) as (disk2 & H3 & H4); [by rewrite <- (assoc_L (++))|done|done|].
  exists disk2. by rewrite laid_app, H1.
Qed.

Lemma write_all_err m home l e : write_all m home l = Err e → ∃ n, e = BadType n.
Proof.
  induction l as [|[v h] l IH]; [done|]. cbn [write_all]. intros [Hw|(here & _ & [Hr|(rest & _ & Hx)]%bind_Err)]%bind_Err; [|by apply IH|done].
  unfold write in Hw. destruct (cleanName (HName h)) as [name|]; [|done]. destruct (needed m v); simpl in Hw; [|done].
  destruct (checkType h); simpl in Hw; [|injection Hw as <-; by eexists]. destruct (Typeflag h); try done. by case_match.
Qed.

(** Everything has gone out. *)
Lemma disk_done m l disk : planned m l → disk_after m l disk → disk = snd <$> seen m.
Proof.
  intros Hp Hd. apply map_eq. intros p. rewrite Hd, lookup_fmap, seen_lookup. destruct (tree m !! p) as [v|] eqn:Ep; [|done]. simpl.
  assert (out m l p v = true) as ->; [|done]. unfold out. pose proof (named_in _ _ _ (pl_tree m l Hp p v Ep)) as Hv.
  destruct (links m !! v) as [tv|] eqn:Ev; [|by apply bool_decide_eq_true]. destruct (pl_links m l Hp v tv Ev) as (_ & _ & _ & (h & n & Hh & _)).
  case_bool_decide; apply bool_decide_eq_true; [|done]. apply list_elem_of_fmap. by exists (tv, h).
Qed.

Lemma empty_planned : planned empty_merge [].
Proof. constructor; [constructor|..]; intros *; unfold kids_of; cbn; rewrite ?lookup_empty; first [done|by intros []]. Qed.

(** C15: the disk of an image holds what its layers do, one over the other. Whatever the layers are, what the stream of [buildDisk]
    lays down is, path by path, what applying the layers in order gives: whiteouts and opaque directories hide what the layers
    below put there and nothing of their own, a file takes the place of a directory with everything under it, and every hard link
    is a name of the version its target was when the link was read, even where the target's name is gone. Where there is no disk,
    the layers have a hard link to nothing, or a file of a type no guest can hold. *)
Theorem disk_is_overlay layers :
  match buildDisk layers with
  | Ok items => ∃ fs, overlay layers = Ok fs ∧ laid ∅ items = Some (snd <$> fs)
  | Err e => overlay layers = Err e ∨ ∃ n fs, e = BadType n ∧ overlay layers = Ok fs
  end.
Proof.
  unfold buildDisk, overlay. destruct (versions_sorted layers 0) as [Hs _]. set (l := versions_of 0 layers) in *.
  pose proof (plan_all_spec l empty_merge [] empty_planned (sorted_distinct l Hs) (λ pre x post Hx, sorted_follows l pre x post Hs Hx)) as Hp.
  replace (seen empty_merge) with (∅ : stack) in Hp by done. destruct (plan_all empty_merge l) as [m|e]; cbn [mbind result_bind]; [|by left].
  destruct Hp as [Hp Ho]. simpl in Hp. destruct (write_all m (home_of m) l) as [items|e] eqn:Ew.
  - destruct (write_all_spec m l Hp Hs l [] ∅ items eq_refl) as (disk & H1 & H2); [|done|].
    + intros p. rewrite lookup_empty. destruct (tree m !! p) as [v|]; [|done]. unfold out. by repeat case_match.
    + exists (seen m). split; [done|]. by rewrite H1, (disk_done m l disk Hp H2).
  - right. destruct (write_all_err _ _ _ _ Ew) as [n ->]. by eexists _, _.
Qed.

(** Two layers: the second hides a file that a link of the first names, and makes a directory opaque. *)
Definition two_layers : list (list header) :=
  [[MkHeader "etc/" "" 0 493 TypeDir; MkHeader "etc/passwd" "" 5 420 TypeReg; MkHeader "etc/users" "etc/passwd" 0 420 TypeLink;
    MkHeader "var/log/old" "" 3 420 TypeReg; MkHeader "bin/sh" "" 9 493 TypeReg];
   [MkHeader "etc/.wh.passwd" "" 0 420 TypeReg; MkHeader "var/log/.wh..wh..opq" "" 0 420 TypeReg; MkHeader "var/log/new" "" 3 420 TypeReg;
    MkHeader "bin" "" 0 511 TypeSymlink]].

Example two_layers_disk :
  buildDisk two_layers = Ok [Body ["etc"] (0, 0); Body ["etc"; "users"] (0, 1); Body ["var"; "log"; "new"] (1, 2); Body ["bin"] (1, 3)]%nat.
Proof. vm_compute. reflexivity. Qed.
