(* ===== verification/Images.v ===== *)
(** * The image tree

    [services/image/image.go] and [remove.go]: the layout of [Registry] and the artifacts one digest unpacks into: a directory, an
    ext4 disk and an EROFS image. They are built under a staging name and renamed, and a removal renames them aside before the
    index changes. The disk that [disk.go] builds from the layers is in [Merge], and the EROFS tool is not of the repository: here
    each build is one call that may fail. *)

From S2P Require Import Prelude Ops GoStrings Host Registry.
Local Open Scope op_scope.

Section Images.
Context `{Refs : References} `{Cont : Contents} {E : Type}.

(** What the service was configured with: where the tree is, and which shapes it builds beside the directory. *)
Context (root : string) (disks erofs : bool).

Abbreviation iop := (op images (img_error E)).

(** ** Names *)

(** [rootfsDir], [diskPath] and [erofsPath]. *)
Definition base_of (digest : string) : string := ReplaceAll digest ":" "-".
Definition file_of (k : shape) (digest : string) : string :=
  base_of digest +:+ match k with RootFS_ => "" | Disk_ => ".ext4" | Erofs_ => ".erofs" end.
Definition dir_name (k : shape) : string := match k with RootFS_ => "rootfs" | Disk_ => "disks" | Erofs_ => "erofs" end.
Definition path_of (k : shape) (digest : string) : string := root +:+ "/" +:+ dir_name k +:+ "/" +:+ file_of k digest.

Definition at_ (k : shape) (digest : string) : shape * aname := (k, Named (file_of k digest)).

Definition artifactDirs : list shape := [RootFS_; Disk_; Erofs_].

(** ** Reading *)

(** [os.Stat], where every error is taken alike. *)
Definition stat (p : shape * aname) : iop (option artifact) :=
  a <~ caught (sys ISys) ;;
  match a with Err _ => ret None | Ok _ => reads (λ s, artifacts s !! p) end.

Definition exists_ (p : shape * aname) : iop bool := a <~ stat p ;; ret (bool_decide (is_Some a)).
Definition is_tree (digest : string) : iop bool := a <~ stat (at_ RootFS_ digest) ;; ret (match a with Some a => adir a | None => false end).

(** [unpacked]. *)
Definition unpacked (digest : string) : iop bool :=
  tree <~ is_tree digest ;;
  if negb tree then ret false
  else
    disk <~ (if disks then exists_ (at_ Disk_ digest) else ret true) ;;
    if negb disk then ret false else if erofs then exists_ (at_ Erofs_ digest) else ret true.

Record Image : Type := MkPulled {
  IReference : string; IDigest_ : string; IRoot : string; IDisk_ : string; IErofs_ : string; IConfig_ : option ImageConfig
}.

(** [describe]: a broken image has no config. *)
Definition describe (img : reg_image) : iop Image :=
  let described := MkPulled (GRef img) (GDigest img) (path_of RootFS_ (GDigest img))
                     (if disks then path_of Disk_ (GDigest img) else "") (if erofs then path_of Erofs_ (GDigest img) else "") in
  match GManifest img with
  | None => ret (described None)
  | Some m => cfg <~ verifiedConfig (GRef img) m ;; ret (described (Some cfg))
  end.

(** [cached], [Lookup] and [Cached]. *)
Definition cached (ref : string) : iop (option Image) :=
  a <~ caught (Get ref) ;;
  match a with
  | Err e => if ErrNotCached e then ret None else fail e
  | Ok held => u <~ unpacked (GDigest held) ;; if negb u then ret None else img <~ describe held ;; ret (Some img)
  end.

Definition Lookup (ref : string) : iop (option Image) := cached ref.

Definition Cached (ref : string) : iop bool :=
  match parseRef (E := E) ref with
  | Err _ => ret false
  | Ok _ => img <~ cached ref ;; ret (bool_decide (is_Some img))
  end.

(** [List]. *)
Fixpoint describe_all (l : list reg_image) : iop (list Image) :=
  match l with
  | [] => ret []
  | img :: l => i <~ describe img ;; rest <~ describe_all l ;; ret (i :: rest)
  end.

Definition List : iop (list Image) := l <~ List_ ;; describe_all l.

(** ** Staging *)

Definition staging (n : aname) : bool := match n with Named _ => false | _ => true end.

(** [sweepStaging], a directory after the other. *)
Fixpoint sweep_names (k : shape) (l : list aname) : iop unit :=
  match l with
  | [] => ret tt
  | n :: l => change (set_artifacts (delete (k, n))) ;;; sweep_names k l
  end.

Fixpoint sweep_dirs (l : list shape) : iop unit :=
  match l with
  | [] => ret tt
  | k :: l =>
      sys ISys ;;;
      staged <~ reads (λ s, omap (λ p, if bool_decide (p.1.1 = k) && staging p.1.2 then Some p.1.2 else None) (map_to_list (artifacts s))) ;;
      sweep_names k staged ;;;
      sweep_dirs l
  end.

Definition sweepStaging : iop unit := sweep_dirs artifactDirs.

(** [os.Rename]: a directory takes the name of an empty directory at most, and a file that of a file. *)
Inductive renamed : Type := Renamed | NoSource | RenameFails.

Definition blocked (a b : artifact) : bool := if adir a && adir b then negb (bool_decide (alayers b = [])) else adir a || adir b.

Definition rename (src dst : shape * aname) : iop renamed :=
  a <~ caught (sys ISys) ;;
  match a with
  | Err _ => ret RenameFails
  | Ok _ =>
      m <~ reads artifacts ;;
      match m !! src with
      | None => ret NoSource
      | Some a =>
          if match m !! dst with Some b => blocked a b | None => false end then ret RenameFails
          else touch (set_artifacts (λ m, <[dst := a]> (delete src m))) ;;; ret Renamed
      end
  end.

(** An unused staging name, and a deferred call whose error nobody sees. *)
Definition temp_of (k : shape) (s : images) : shape * aname :=
  (k, Temp (fresh (list_to_set (omap (λ p, match p.1.2 with Temp n => Some n | _ => None end) (map_to_list (artifacts s))) : gset nat))).

Definition finally {A} (cleanup : iop unit) (m : iop A) : iop A := λ s,
  let '(t, s1, a) := m s in
  let '(t2, s2, _) := cleanup s1 in (t ++ t2, s2, a).

Definition land (tmp dst : shape * aname) : iop unit :=
  r <~ rename tmp dst ;;
  match r with Renamed => sys ISys | _ => fail ISys end.

(** [applyLayer]: what was applied is checked against the digest of the layer when it is closed. *)
Definition whole_blob (h : string) (s : images) : bool := bool_decide (blobs s !! h = Some h).

Fixpoint apply_layers (tmp : shape * aname) (layers : list string) : iop unit :=
  match layers with
  | [] => ret tt
  | h :: layers =>
      sys ISys ;;;
      ok <~ reads (whole_blob h) ;;
      check ISys ok ;;;
      touch (set_artifacts (alter (λ a, MkArtifact (adir a) (alayers a ++ [h])) tmp)) ;;;
      sys ISys ;;;
      apply_layers tmp layers
  end.

(** [unpackDir]. *)
Definition unpackDir (digest : string) (layers : list string) : iop unit :=
  done_ <~ is_tree digest ;;
  if done_ then ret tt
  else
    tmp <~ reads (temp_of RootFS_) ;;
    change (set_artifacts <[tmp := MkArtifact true []]>) ;;;
    finally (change (set_artifacts (delete tmp)))
      (sys ISys ;;; apply_layers tmp layers ;;; sys ISys ;;; land tmp (at_ RootFS_ digest)).

(** [stageFile]: what was built so far goes with a failure, except where the close of the new file fails. *)
Definition stageFile (k : shape) (digest : string) (build : shape * aname → iop unit) : iop unit :=
  tmp <~ reads (temp_of k) ;;
  change (set_artifacts <[tmp := MkArtifact false []]>) ;;;
  sys ISys ;;;
  finally (change (set_artifacts (delete tmp))) (build tmp ;;; sys ISys ;;; sys ISys ;;; land tmp (at_ k digest)).

Definition filled (tmp : shape * aname) (layers : list string) : images → images :=
  set_artifacts (alter (λ a, MkArtifact (adir a) layers) tmp).

(** [unpackDisk] and [unpackErofs]. *)
Definition unpackDisk (digest : string) (layers : list string) : iop unit :=
  done_ <~ exists_ (at_ Disk_ digest) ;;
  if done_ then ret tt
  else stageFile Disk_ digest (λ tmp,
         ok <~ reads (λ s, forallb (λ h, whole_blob h s) layers) ;; check ISys ok ;;; change (filled tmp layers)).

Definition unpackErofs (digest : string) : iop unit :=
  done_ <~ exists_ (at_ Erofs_ digest) ;;
  if done_ then ret tt
  else stageFile Erofs_ digest (λ tmp,
         tree <~ reads (λ s, artifacts s !! at_ RootFS_ digest) ;;
         match tree with None => fail ISys | Some a => change (filled tmp (alayers a)) end).

(** [unpack]. *)
Definition unpack (img : reg_image) : iop unit :=
  u <~ unpacked (GDigest img) ;;
  if u then ret tt
  else
    match GManifest img with
    | None => fail (IBroken (GRef img))
    | Some m =>
        sys ISys ;;;
        unpackDir (GDigest img) (MLayers m) ;;;
        (if disks then unpackDisk (GDigest img) (MLayers m) else ret tt) ;;;
        (if erofs then unpackErofs (GDigest img) else ret tt)
    end.

(** ** Pull *)

(** [errors.Join(e, cleanup())]. *)
Definition join (e : img_error E) (e' : option (img_error E)) : img_error E := match e' with Some e' => IJoin e e' | None => e end.

Definition joining {A} (e : img_error E) (cleanup : iop unit) : iop A :=
  a <~ caught cleanup ;; fail (join e (match a with Ok _ => None | Err e' => Some e' end)).

Context (remote : reference → option string).

(** [pullLocked]. *)
Definition pullLocked (ref : string) : iop Image :=
  found <~ cached ref ;;
  match found with
  | Some img => ret img
  | None =>
      sweepStaging ;;;
      held <~ caught (Get ref) ;;
      match held with
      | Ok img => unpack img ;;; describe img
      | Err e =>
          if negb (ErrNotCached e) then fail e
          else
            a <~ caught (Registry.Pull remote ref) ;;
            match a with
            | Err e => joining e Collect
            | Ok img =>
                u <~ caught (unpack img) ;;
                match u with Err e => joining e (Registry.Remove ref) | Ok _ => describe img end
            end
      end
  end.

(** [Pull] and [Claim]: the lock is not given once the context is done. *)
Definition Pull_ (ref : string) : iop Image :=
  found <~ cached ref ;;
  match found with Some img => ret img | None => sys ISys ;;; pullLocked ref end.

Definition Claim (ref : string) (record : Image → iop unit) : iop Image :=
  sys ISys ;;; img <~ pullLocked ref ;; record img ;;; ret img.

(** ** Remove *)

(** [stageDigestRemoval] and [stageRemoval]: what was moved, and the error that stopped it. *)
Fixpoint stage_shapes (digest : string) (l : list shape) : iop (list (shape * string) * option (img_error E)) :=
  match l with
  | [] => ret ([], None)
  | k :: l =>
      r <~ rename (at_ k digest) (k, Removing (file_of k digest)) ;;
      match r with
      | RenameFails => ret ([], Some ISys)
      | NoSource => stage_shapes digest l
      | Renamed => rest <~ stage_shapes digest l ;; ret ((k, file_of k digest) :: rest.1, rest.2)
      end
  end.

Definition stageDigestRemoval (digest : string) : iop (list (shape * string) * option (img_error E)) := stage_shapes digest artifactDirs.

Fixpoint stageRemoval (digests : list string) : iop (list (shape * string) * option (img_error E)) :=
  match digests with
  | [] => ret ([], None)
  | d :: digests =>
      r <~ stageDigestRemoval d ;;
      match r.2 with
      | Some e => ret (r.1, Some e)
      | None => rest <~ stageRemoval digests ;; ret (r.1 ++ rest.1, rest.2)
      end
  end.

(** [restoreRemoval], over what was moved, the last first. *)
Fixpoint restore_go (moved : list (shape * string)) : iop (option (img_error E)) :=
  match moved with
  | [] => ret None
  | (k, f) :: moved =>
      r <~ rename (k, Removing f) (k, Named f) ;;
      e <~ match r with Renamed => a <~ caught (sys ISys) ;; ret (match a with Ok _ => None | Err e => Some e end) | _ => ret (Some ISys) end ;;
      rest <~ restore_go moved ;;
      ret (match e with None => rest | Some e => Some (join e rest) end)
  end.

Definition restoreRemoval (moved : list (shape * string)) : iop (option (img_error E)) := restore_go (reverse moved).

Definition restoring {A} (e : img_error E) (moved : list (shape * string)) : iop A := r <~ restoreRemoval moved ;; fail (join e r).

(** [unindex], with the check it runs first. *)
Definition unindex (ref : string) (free : iop unit) : iop unit :=
  free ;;;
  orphaned <~ Orphaned ref ;;
  st <~ stageRemoval orphaned ;;
  match st.2 with
  | Some e => restoring e st.1
  | None =>
      a <~ caught (Registry.Remove ref) ;;
      match a with
      | Ok _ => ret tt
      | Err e =>
          if ErrNotReclaimed e then fail e
          else
            b <~ caught (Orphaned ref) ;;
            match b with
            | Err ie => if ErrNotCached ie then fail e else restoring (IJoin e ie) st.1
            | Ok _ => restoring e st.1
            end
      end
  end.

(** [Remove]. *)
Definition Remove_ (ref : string) (free : iop unit) : iop unit :=
  sys ISys ;;;
  removed <~ caught (unindex ref free) ;;
  match removed with
  | Err e => if ErrNotReclaimed e then joined <~ caught sweepStaging ;; fail (match joined with Ok _ => e | Err e' => IJoin e (IJoin INotReclaimed e') end) else fail e
  | Ok _ => a <~ caught sweepStaging ;; match a with Ok _ => ret tt | Err e => fail (IJoin INotReclaimed e) end
  end.

End Images.
