(* ===== verification/ImageTree.v ===== *)
(** * What the image tree keeps

    Every state the operations of [Images] go through is one of an invariant: an artifact under its own name is the whole unpack of
    its digest, the index says one digest for one reference, and what a holder was handed is still there. *)

From S2P Require Import Prelude Ops GoStrings Host Registry Images.
Local Open Scope op_scope.

(** ** File names *)

(** A digest is an algorithm and hexadecimal digits, with a colon between them. *)
Definition plain_digest (d : string) : Prop := contains_char "-" d = false ∧ d ≠ "".

Lemma ReplaceAll_colon c s :
  ReplaceAll (String c s) ":" "-" = if Ascii.eqb c ":" then String "-" (ReplaceAll s ":" "-") else String c (ReplaceAll s ":" "-").
Proof.
  unfold ReplaceAll. cbn [replace_go String.prefix String.length Nat.sub].
  destruct (Ascii.eqb_spec c ":") as [->|Hne]; [by destruct s|]. destruct (ascii_dec ":" c); [by subst|]. done.
Qed.

Lemma base_of_inj d d' : contains_char "-" d = false → contains_char "-" d' = false → base_of d = base_of d' → d = d'.
Proof.
  unfold base_of. revert d'. induction d as [|c d IH]; intros [|c' d']; [done| | |].
  - rewrite ReplaceAll_colon. by case_match.
  - rewrite ReplaceAll_colon. by case_match.
  - rewrite !contains_char_cons, !orb_false_iff, !ReplaceAll_colon. intros [Hc Hd] [Hc' Hd'].
    apply Ascii.eqb_neq in Hc, Hc'.
    destruct (Ascii.eqb_spec c ":") as [->|]; destruct (Ascii.eqb_spec c' ":") as [->|]; intros [= E]; subst; try done; f_equal; by apply IH.
Qed.

Lemma suffix_inj s s' e : s +:+ e = s' +:+ e → s = s'.
Proof.
  intros H. assert (String.length s = String.length s') as Hl.
  { apply (f_equal String.length) in H. rewrite !length_app_s in H. lia. }
  revert s' H Hl. induction s as [|c s IH]; intros [|c' s'] H Hl; try done. rewrite !app_cons in H. injection H as -> H. f_equal. apply IH; [done|].
  simpl in Hl. lia.
Qed.

Lemma file_of_inj k d d' : plain_digest d → plain_digest d' → file_of k d = file_of k d' → d = d'.
Proof. intros [Hd _] [Hd' _] H. apply suffix_inj in H. by apply base_of_inj. Qed.

Section Facts.
Context `{Refs : References} {RL : ReferenceLaws} `{Cont : Contents} {E : Type}.
Context (root : string) (disks erofs : bool).

(** The digests that name a list of images and not one, which is what a registry answers to some references. *)
Context (is_list : string → bool).

Abbreviation iop := (op images (img_error E)).

(** ** The invariant *)

Definition shapes : list shape := RootFS_ :: (if disks then [Disk_] else []) ++ (if erofs then [Erofs_] else []).

(** The whole unpack of a digest. *)
Definition whole_of (k : shape) (d : string) (a : artifact) : Prop :=
  adir a = bool_decide (k = RootFS_) ∧ ∃ m, manifest_of d = Some m ∧ alayers a = MLayers m.

Definition wholes (m : gmap (shape * aname) artifact) : Prop :=
  ∀ k n f a, m !! (k, n) = Some a → n = Named f ∨ n = Removing f → ∃ d, plain_digest d ∧ f = file_of k d ∧ whole_of k d a.

Definition entry_ok (d : descriptor) : Prop :=
  plain_digest (DDigest d) ∧ is_list (DDigest d) = false ∧ ∀ g, DigestOf (E := E) (DRef d) = Some g → DDigest d = g ∨ is_list g = true.

Definition index_ok (l : list descriptor) : Prop :=
  Forall entry_ok l ∧ ∀ d d', d ∈ l → d' ∈ l → DRef d ≠ "" → DRef d = DRef d' → DDigest d = DDigest d'.

(** A reference stands for a digest: an entry says so, or the reference itself and an entry of that digest is there. *)
Definition stands_for (l : list descriptor) (r d : string) : Prop :=
  MkDescriptor r d ∈ l ∨ DigestOf (E := E) r = Some d ∧ d ∈ DDigest <$> l.

Definition claim : Type := string * string.

Definition claimed (l : list descriptor) (m : gmap (shape * aname) artifact) (c : claim) : Prop :=
  c.1 ≠ "" ∧ stands_for l c.1 c.2 ∧ ∀ k, k ∈ shapes → is_Some (m !! at_ k c.2).

(** What the claims are, for a run of the operations. *)
Context (C : list claim).

Definition inv (l : list descriptor) (m : gmap (shape * aname) artifact) : Prop :=
  wholes m ∧ index_ok l ∧ Forall (claimed l m) C.

Definition kept (s : images) : Prop := inv (index s) (artifacts s).

Lemma stands_plain l r d : index_ok l → stands_for l r d → plain_digest d ∧ is_list d = false.
Proof.
  intros [Hl _] [Hin|[_ (e & -> & He)%list_elem_of_fmap]]; rewrite Forall_forall in Hl; [by destruct (Hl _ Hin) as (? & ? & _)|].
  by destruct (Hl _ He) as (? & ? & _).
Qed.

Lemma index_ok_sub l l' : (∀ d, d ∈ l' → d ∈ l) → index_ok l → index_ok l'.
Proof. intros Hs [H1 H2]. split; [|auto]. rewrite Forall_forall in *. auto. Qed.

(** ** Changes of the artifacts *)

(** What a step may do to the artifacts: nothing a claim needs goes, and what is under a name is whole. *)
Definition mild (m m' : gmap (shape * aname) artifact) : Prop :=
  (wholes m → wholes m') ∧ ∀ k d, is_Some (m !! at_ k d) → is_Some (m' !! at_ k d).

Lemma mild_inv l m m' : mild m m' → inv l m → inv l m'.
Proof.
  intros [Hw Hp] (H1 & H2 & H3). split; [auto|]. split; [done|]. eapply Forall_impl; [done|]. intros c (Hr & Hs & Hk).
  split; [done|]. split; [done|]. auto.
Qed.

Lemma mild_delete m k n : staging n = true → mild m (delete (k, n) m).
Proof.
  intros Hn. split.
  - intros Hw k' n' f a [_ Ha]%lookup_delete_Some. by apply Hw.
  - intros k' d Hd. rewrite lookup_delete_ne; [done|]. intros [= _ En]. by rewrite En in Hn.
Qed.

Lemma mild_temp m k n f : mild m (partial_alter f (k, Temp n) m).
Proof.
  split.
  - intros Hw k' n' g a Ha Hn. apply (Hw k' n' g a); [|done]. rewrite lookup_partial_alter_ne in Ha; [done|].
    intros [= _ <-]. destruct Hn; done.
  - intros k' d Hd. rewrite lookup_partial_alter_ne; done.
Qed.

(** A rename to a name: what it takes there is whole. *)
Lemma mild_named m k n d a : staging n = true → m !! (k, n) = Some a → (wholes m → plain_digest d ∧ whole_of k d a) →
  mild m (<[at_ k d := a]> (delete (k, n) m)).
Proof.
  intros Hn Ha Hd. split.
  - intros Hw k' n' f b [[[= <- <-] <-]|[_ [_ Hb]%lookup_delete_Some]]%lookup_insert_Some [H|H].
    + injection H as <-. destruct (Hd Hw). by exists d.
    + done.
    + subst n'. by eapply Hw; [|left].
    + subst n'. by eapply Hw; [|right].
  - intros k' d' Hp. destruct (decide (at_ k d = at_ k' d')) as [->|Hne]; [by rewrite lookup_insert_eq|].
    rewrite lookup_insert_ne by done. rewrite lookup_delete_ne; [done|]. intros [= _ ->]. done.
Qed.

(** ** Steps that leave the index *)

Definition present (x : shape * string) (s : images) : Prop := is_Some (artifacts s !! at_ x.1 x.2).
Definition frame (l : list descriptor) (h : shape * string → Prop) (s : images) : Prop := index s = l ∧ ∀ x, h x → present x s.

(** Every state on the way is one of the invariant, the index stays, what is there stays there, and the answer is as said. *)
Definition does {A} (P : images → Prop) (m : iop A) (Q : result (img_error E) A → images → Prop) : Prop :=
  ∀ l h, triple kept (λ s, frame l h s ∧ P s) m (λ a s, frame l h s ∧ Q a s).

Definition quiet {A} (m : iop A) : Prop := does (λ _, True) m (λ _ _, True).

Lemma does_weaken {A} (P P' : images → Prop) (m : iop A) (Q Q' : result (img_error E) A → images → Prop) :
  does P' m Q' → (∀ s, kept s → P s → P' s) → (∀ a s, kept s → Q' a s → Q a s) → does P m Q.
Proof.
  intros H Hp Hq l h. eapply triple_weaken; [apply (H l h)| |]; simpl; [intros s Hi [? ?]; auto|intros a s Hi [? ?]; auto].
Qed.

Lemma does_bind {A B} P (m : iop A) (k : A → iop B) M Q :
  does P m (λ a s, match a with Ok a => M a s | Err e => Q (Err e) s end) → (∀ a, does (M a) (k a) Q) → does P (bind m k) Q.
Proof.
  intros Hm Hk l h. eapply (triple_bind _ _ _ _ (λ a s, frame l h s ∧ M a s)); [|intros a; apply (Hk a l h)].
  eapply triple_weaken; [apply (Hm l h)|done|]. simpl. by intros [a|e] s Hi [? ?].
Qed.

Lemma does_frames {A} P (m : iop A) Q (D : shape * string → Prop) :
  does P m Q → does (λ s, P s ∧ ∀ x, D x → present x s) m (λ a s, Q a s ∧ ∀ x, D x → present x s).
Proof.
  intros H l h. eapply triple_weaken; [apply (H l (λ y, h y ∨ D y))| |]; simpl.
  - intros s Hi [[Hl Hh] [HP Hx]]. split; [|done]. split; [done|]. intros y [Hy|Hy]; auto.
  - intros a s Hi [[Hl Hh] HQ]. split; [split; auto|]. split; auto.
Qed.

Lemma does_pure {A} (φ : Prop) (m : iop A) Q : (φ → does (λ _, True) m Q) → does (λ _, φ) m Q.
Proof. intros H l h s Hi (Hf & Hφ). by apply H. Qed.

Lemma does_ret {A} (P : images → Prop) (a : A) Q : (∀ s, kept s → P s → Q (Ok a) s) → does P (ret a) Q.
Proof. intros H l h. apply triple_ret. intros s Hi [? ?]. auto. Qed.

Lemma does_fail {A} (P : images → Prop) e (Q : result (img_error E) A → images → Prop) : (∀ s, kept s → P s → Q (Err e) s) → does P (fail e) Q.
Proof. intros H l h. apply triple_fail. intros s Hi [? ?]. auto. Qed.

Lemma does_ask {A} (P : images → Prop) f (Q : result (img_error E) A → images → Prop) : (∀ s, kept s → P s → Q (f s) s) → does P (ask f) Q.
Proof. intros H l h. apply triple_ask. intros s Hi [? ?]. auto. Qed.

Lemma does_reads {A} (P : images → Prop) f (Q : result (img_error E) A → images → Prop) : (∀ s, kept s → P s → Q (Ok (f s)) s) → does P (reads f) Q.
Proof. apply does_ask. Qed.

Lemma does_check (P : images → Prop) e (b : bool) Q : (∀ s, kept s → P s → if b then Q (Ok tt) s else Q (Err e) s) → does P (check e b) Q.
Proof. unfold check. destruct b; [apply does_ret|apply does_fail]. Qed.

Lemma does_sys (P : images → Prop) e Q :
  (∀ s, P s → P (spend s)) → (∀ s, kept s → P s → Q (Ok tt) s ∧ Q (Err e) s) → does P (sys e) Q.
Proof.
  intros Hp Hq l h s Hi [Hl HP]. unfold sys. split; [constructor|]. split; [done|]. split; [done|].
  destruct (Hq (spend s) Hi (Hp s HP)). by case_match.
Qed.

Lemma does_caught {A} P (m : iop A) Q : does P m (λ a s, Q (Ok a) s) → does P (caught m) Q.
Proof. intros H l h s Hi HP. specialize (H l h s Hi HP). unfold caught. by destruct (m s) as [[t s'] a]. Qed.

Lemma does_touch (P : images → Prop) f Q :
  (∀ s, kept s → P s → index (f s) = index s ∧ mild (artifacts s) (artifacts (f s)) ∧ Q (Ok tt) (f s)) → does P (touch f) Q.
Proof.
  intros H l h. apply triple_touch. intros s Hi [[Hl Hh] HP]. destruct (H s Hi HP) as (Hx & Hm & Hq). split.
  - unfold kept. rewrite Hx. by eapply mild_inv.
  - split; [|done]. split; [by rewrite Hx|]. intros x Hy. apply Hm. by apply Hh.
Qed.

Lemma does_change (P : images → Prop) f Q :
  (∀ s, P s → P (spend s)) → (∀ s, kept s → P s → Q (Err ISys) s) →
  (∀ s, kept s → P s → index (f s) = index s ∧ mild (artifacts s) (artifacts (f s)) ∧ Q (Ok tt) (f s)) → does P (change f) Q.
Proof.
  intros Hp He Hf. eapply (does_bind _ _ _ (λ _ s, P s)); [apply does_sys; [done|by split; auto]|]. intros _. by apply does_touch.
Qed.

Lemma does_finally {A} P (cleanup : iop unit) (m : iop A) Q :
  does P m Q → (∀ a, does (Q a) cleanup (λ _ s, Q a s)) → does P (finally cleanup m) Q.
Proof.
  intros Hm Hc l h s Hi HP. specialize (Hm l h s Hi HP). unfold finally. destruct (m s) as [[t s1] a]. destruct Hm as (Ht & Hi1 & Hl & Hq).
  specialize (Hc a l h s1 Hi1 (conj Hl Hq)). destruct (cleanup s1) as [[t2 s2] x]. destruct Hc as (Ht2 & Hi2 & Hl2 & Hq2).
  split; [by apply Forall_app|done].
Qed.

Lemma img_quiet_bind {A B} (m : iop A) (k : A → iop B) : quiet m → (∀ a, quiet (k a)) → quiet (bind m k).
Proof. intros Hm Hk. eapply (does_bind _ _ _ (λ _ _, True)); [|done]. eapply does_weaken; [apply Hm|done|]. by intros []. Qed.

Lemma quiet_sys e : quiet (sys e).
Proof. by apply does_sys. Qed.

Lemma quiet_caught {A} (m : iop A) : quiet m → quiet (caught m).
Proof. intros H. by apply does_caught. Qed.

Lemma quiet_change f : (∀ s, index (f s) = index s ∧ mild (artifacts s) (artifacts (f s))) → quiet (change f).
Proof. intros H. apply does_change; [done|done|]. intros s _ _. by destruct (H s). Qed.

Lemma quiet_blobs f : quiet (change (set_blobs f)).
Proof. by apply quiet_change. Qed.

Ltac quiet_steps :=
  repeat first
    [ apply quiet_blobs | apply quiet_sys | apply img_quiet_bind; [|intros ?] | apply quiet_caught | done
    | by apply does_ret | by apply does_fail | by apply does_reads | by apply does_ask | by apply does_check | case_match ].

Lemma quiet_verifiedConfig ref m : quiet (verifiedConfig ref m).
Proof. unfold verifiedConfig. quiet_steps. Qed.

Lemma quiet_image d : quiet (image d).
Proof. unfold image, verifiedConfig. quiet_steps. Qed.

(** ** Reading the index *)

(** A reference that stands in the index, and one that does not. *)
Definition found_in (ref : string) (l : list descriptor) (img : reg_image) : Prop :=
  ∃ p m, parseRef (E := E) ref = Ok p ∧ stands_for l (RName p) (GDigest img) ∧ GManifest img = Some m ∧ manifest_of (GDigest img) = Some m.
Definition found (ref : string) (s : images) (img : reg_image) : Prop := found_in ref (index s) img.

Definition missing (ref : string) (l : list descriptor) : Prop :=
  ∃ p, parseRef (E := E) ref = Ok p ∧ ∀ d, d ∈ l → names d p = false.

Lemma DigestOf_name ref p : parseRef (E := E) ref = Ok p → DigestOf (E := E) (RName p) = RDigest p ∧ RName p ≠ "".
Proof.
  unfold parseRef at 1. destruct (ParseReference ref) as [q|] eqn:Eq; [|done]. case_match eqn:Ex; [done|]. intros [= ->].
  split; [|by eapply ParseReference_named]. destruct (ParseReference_name _ _ Eq) as (q & Hq & Hn & Hd & Hr).
  unfold DigestOf, parseRef. rewrite Hq, Hr. by rewrite Ex.
Qed.

Lemma parseRef_name ref p q : parseRef (E := E) ref = Ok p → parseRef (E := E) (RName p) = Ok q → RName q = RName p.
Proof.
  unfold parseRef at 1. destruct (ParseReference ref) as [p'|] eqn:Ep; [|done]. case_match; [done|]. intros [= ->].
  destruct (ParseReference_name _ _ Ep) as (q' & Hq' & Hn & _). unfold parseRef. rewrite Hq'. case_match; [done|]. by intros [= <-].
Qed.

Lemma names_stands l d p ref : parseRef (E := E) ref = Ok p → d ∈ l → names d p = true → stands_for l (RName p) (DDigest d).
Proof.
  intros Hp Hd. unfold names. rewrite orb_true_iff. destruct (DigestOf_name ref p Hp) as [Hg _].
  intros [Hn%String.eqb_eq|Hn]; [left; rewrite <- Hn; by destruct d|]. right. destruct (RDigest p) as [g|]; [|done].
  apply String.eqb_eq in Hn as <-. split; [done|]. apply list_elem_of_fmap. by exists d.
Qed.

Lemma does_split ref :
  does (λ _, True) (split ref) (λ a s,
    match a with
    | Ok h => ∃ p, parseRef (E := E) ref = Ok p ∧ h = parted p (index s) ∧ h.1 ≠ []
    | Err e => ErrNotCached e = true → missing ref (index s)
    end).
Proof.
  unfold split. eapply (does_bind _ _ _ (λ p _, parseRef (E := E) ref = Ok p)).
  { apply does_ask. intros s _ _. unfold parseRef. repeat case_match; simplify_eq; done. }
  intros p. eapply (does_bind _ _ _ (λ l s, parseRef (E := E) ref = Ok p ∧ l = index s)).
  { unfold manifests. eapply (does_bind _ _ _ (λ _ _, parseRef (E := E) ref = Ok p)); [by apply does_sys|]. intros _. by apply does_reads. }
  intros l. destruct (parted p l) as [[|d matched] rest] eqn:Ep.
  - apply does_fail. intros s _ [Hp ->] _. exists p. split; [done|]. intros d Hd. injection Ep as Ep _.
    destruct (names d p) eqn:En; [|done]. assert (d ∈ List.filter (λ d, names d p) (index s)) as Hin.
    { apply list_elem_of_In, filter_In. split; [by apply list_elem_of_In|done]. }
    rewrite Ep in Hin. by apply not_elem_of_nil in Hin.
  - apply does_ret. intros s _ [Hp ->]. by exists p.
Qed.

Lemma elem_of_List_filter {A} (f : A → bool) l x : x ∈ List.filter f l ↔ x ∈ l ∧ f x = true.
Proof. by rewrite !list_elem_of_In, filter_In. Qed.

Lemma does_image ref d :
  does (λ s, ∃ p, parseRef (E := E) ref = Ok p ∧ d ∈ index s ∧ names d p = true) (image d)
    (λ a s, match a with Ok img => found ref s img | Err e => ErrNotCached e = false end).
Proof.
  set (P := λ s, ∃ p, parseRef (E := E) ref = Ok p ∧ d ∈ index s ∧ names d p = true).
  unfold image. eapply (does_bind _ _ _ (λ _ s, P s)); [by apply does_sys|]. intros _.
  eapply (does_bind _ _ _ (λ _ s, P s)); [by apply does_reads|]. intros b.
  destruct (b !! DDigest d) as [h|]; [|by apply does_fail]. destruct (String.eqb_spec h (DDigest d)) as [->|]; [|by apply does_fail].
  simpl. destruct (manifest_of (DDigest d)) as [m|] eqn:Em; [|by apply does_fail].
  eapply (does_bind _ _ _ (λ _ s, P s)).
  { unfold verifiedConfig. eapply (does_bind _ _ _ (λ _ s, P s)); [by apply does_sys|]. intros _.
    eapply (does_bind _ _ _ (λ _ s, P s)); [by apply does_reads|]. intros b'. repeat case_match; first [by apply does_fail|by apply does_ret]. }
  intros _. apply does_ret. intros s _ (p & Hp & Hd & Hn). exists p, m. split; [done|]. split; [by eapply names_stands|done].
Qed.

Lemma does_Get ref :
  does (λ _, True) (Get ref)
    (λ a s, match a with Ok img => found ref s img | Err e => ErrNotCached e = true → missing ref (index s) end).
Proof.
  unfold Get. eapply (does_bind _ _ _ (λ h s, ∃ p, parseRef (E := E) ref = Ok p ∧ h = parted p (index s))).
  { eapply does_weaken; [apply does_split|done|]. intros [h|e] s _; [|done]. intros (p & Hp & Hh & _). by exists p. }
  intros [[|d matched] rest]; cbn [fst].
  - by apply does_fail.
  - eapply does_weaken; [apply (does_image ref d)| |].
    + intros s _ (p & Hp & [= Hh _]). exists p. split; [done|]. apply (elem_of_List_filter (λ d, names d p)). rewrite <- Hh. left.
    + intros [img|e] s _; [done|]. by intros ->.
Qed.

(** What the index says stays said. *)
Lemma does_index {A} P (m : iop A) Q (φ : list descriptor → Prop) :
  does P m Q → does (λ s, P s ∧ φ (index s)) m (λ a s, Q a s ∧ φ (index s)).
Proof.
  intros H l h s Hi (Hf & HP & Hφ). pose proof (H l h s Hi (conj Hf HP)) as Hs. destruct (m s) as [[t s'] a].
  destruct Hs as (? & ? & [Hl ?] & ?). split; [done|]. split; [done|]. split; [done|]. split; [done|]. rewrite Hl. by destruct Hf as [<- _].
Qed.

Lemma quiet_index {A} (m : iop A) (φ : list descriptor → Prop) : quiet m → does (λ s, φ (index s)) m (λ _ s, φ (index s)).
Proof. intros H. eapply does_weaken; [apply (does_index _ _ _ φ H)|done|by intros a s _ []]. Qed.

Definition all_present (d : string) (s : images) : Prop := ∀ k, k ∈ shapes → present (k, d) s.

Definition held_for (ref : string) (d : string) (s : images) : Prop :=
  ∃ p, parseRef (E := E) ref = Ok p ∧ claimed (index s) (artifacts s) (RName p, d).

Lemma found_held ref s img : found ref s img → all_present (GDigest img) s → held_for ref (GDigest img) s.
Proof.
  intros (p & m & Hp & Hs & _) Ha. exists p. split; [done|]. split; [by eapply DigestOf_name|]. done.
Qed.

Lemma does_stat x : does (λ _, True) (stat x) (λ a s, match a with Ok (Some f) => artifacts s !! x = Some f | _ => True end).
Proof.
  unfold stat. eapply (does_bind _ _ _ (λ _ _, True)); [apply does_caught; by apply does_sys|]. intros [[]|e].
  - apply does_reads. intros s _ _. by destruct (artifacts s !! x) eqn:Ex.
  - by apply does_ret.
Qed.

Lemma does_exists k d : does (λ _, True) (exists_ (at_ k d)) (λ a s, a = Ok true → present (k, d) s).
Proof.
  unfold exists_. eapply (does_bind _ _ _ (λ a s, match a with Some f => artifacts s !! at_ k d = Some f | _ => True end)).
  { eapply does_weaken; [apply does_stat|done|]. intros [[]|] s _; done. }
  intros [f|]; apply does_ret; [|done]. intros s _ Hf _. by exists f.
Qed.

Lemma does_is_tree d : does (λ _, True) (is_tree d) (λ a s, a = Ok true → present (RootFS_, d) s).
Proof.
  unfold is_tree. eapply (does_bind _ _ _ (λ a s, match a with Some f => artifacts s !! at_ RootFS_ d = Some f | _ => True end)).
  { eapply does_weaken; [apply does_stat|done|]. intros [[]|] s _; done. }
  intros [f|]; apply does_ret; [|done]. intros s _ Hf _. by exists f.
Qed.

Lemma shapes_present d s :
  (∀ k, k = RootFS_ ∨ k = Disk_ ∧ disks = true ∨ k = Erofs_ ∧ erofs = true → present (k, d) s) → all_present d s.
Proof. unfold all_present, shapes. intros H k Hk. apply H. destruct disks, erofs; set_unfold; naive_solver. Qed.

(** A shape that is not built is not asked for. *)
Lemma does_asked (b : bool) k d (D : shape * string → Prop) :
  does (λ s, ∀ x, D x → present x s) (if b then exists_ (at_ k d) else ret true)
    (λ a s, match a with Ok r => r = true → ∀ x, D x ∨ x = (k, d) ∧ b = true → present x s | Err _ => True end).
Proof.
  destruct b.
  - eapply does_weaken; [apply (does_frames _ _ _ D (does_exists k d))|done|]. intros [[]|] s _ [H1 H2]; try done.
    intros _ x [Hx|[-> _]]; [auto|by apply H1].
  - apply does_ret. intros s _ H _ x [Hx|[_ ?]]; [auto|done].
Qed.

Lemma does_unpacked d : does (λ _, True) (unpacked disks erofs d) (λ a s, match a with Ok r => r = true → all_present d s | Err _ => True end).
Proof.
  unfold unpacked. eapply (does_bind _ _ _ (λ a s, a = true → ∀ x, x = (RootFS_, d) → present x s)).
  { eapply does_weaken; [apply does_is_tree|done|]. intros [[]|] s _ H; try done. intros _ x ->. by apply H. }
  intros [|]; simpl; [|by apply does_ret].
  eapply (does_bind _ _ _ (λ a s, a = true → ∀ x, x = (RootFS_, d) ∨ x = (Disk_, d) ∧ disks = true → present x s)).
  { eapply does_weaken; [apply (does_asked disks Disk_ d (λ x, x = (RootFS_, d)))|intros s _ H; exact (H eq_refl)|done]. }
  intros [|]; simpl; [|by apply does_ret].
  eapply does_weaken; [apply (does_asked erofs Erofs_ d (λ x, x = (RootFS_, d) ∨ x = (Disk_, d) ∧ disks = true))|intros s _ H; exact (H eq_refl)|].
  intros [r|] s _ H; [|done]. intros Hr. apply shapes_present. intros k Hk. apply H; [done|]. naive_solver.
Qed.

Lemma does_describe img :
  does (λ _, True) (describe root disks erofs img) (λ a _, match a with Ok i => IDigest_ i = GDigest img ∧ IReference i = GRef img | Err _ => True end).
Proof.
  unfold describe. destruct (GManifest img) as [m|]; [|by apply does_ret].
  eapply (does_bind _ _ _ (λ _ _, True)); [|intros cfg; by apply does_ret]. eapply does_weaken; [apply quiet_verifiedConfig|done|by intros []].
Qed.

(** A described image is held the way the image is. *)
Lemma describe_held ref img :
  does (λ s, found ref s img ∧ all_present (GDigest img) s) (describe root disks erofs img)
    (λ a s, match a with Ok i => held_for ref (IDigest_ i) s | Err _ => True end).
Proof.
  eapply does_weaken.
  - refine (does_frames _ _ _ (λ x, x.1 ∈ shapes ∧ x.2 = GDigest img) (does_index _ _ _ (λ l, found_in ref l img) (does_describe img))).
  - intros s _ [Hf Ha]. split; [by split|]. intros [k d] [Hk Hd]. simpl in *. subst. by apply Ha.
  - intros [i|] s _ [[Hi Hf] Ha]; [|done]. destruct Hi as [-> _]. apply found_held; [done|]. intros k Hk. by apply Ha.
Qed.

Lemma does_cached ref :
  does (λ _, True) (cached root disks erofs ref)
    (λ a s, match a with Ok (Some i) => held_for ref (IDigest_ i) s | _ => True end).
Proof.
  unfold cached. eapply (does_bind _ _ _ (λ a s, match a with Ok img => found ref s img | Err _ => True end)).
  { apply does_caught. eapply does_weaken; [apply does_Get|done|]. by intros [] s _ H. }
  intros [img|e]; [|case_match; [by apply does_ret|by apply does_fail]].
  eapply (does_bind _ _ _ (λ u s, found ref s img ∧ (u = true → all_present (GDigest img) s))).
  { eapply does_weaken; [refine (does_index _ _ _ (λ l, found_in ref l img) (does_unpacked (GDigest img)))|done|].
    intros [u|] s _ [H1 H2]; [|done]. by split. }
  intros [|]; simpl; [|by apply does_ret].
  eapply (does_bind _ _ _ (λ i s, held_for ref (IDigest_ i) s)); [|intros i; by apply does_ret].
  eapply does_weaken; [apply (describe_held ref)|intros s _ [H1 H2]; by split; auto|by intros []].
Qed.

(** ** Staging *)

Lemma quiet_sweep_names k l : Forall (λ n, staging n = true) l → quiet (sweep_names k l).
Proof.
  induction 1 as [|n l Hn Hl IH]; cbn [sweep_names]; [by apply does_ret|]. apply img_quiet_bind; [|done].
  apply quiet_change. intros s. split; [done|]. by apply mild_delete.
Qed.

Lemma quiet_sweepStaging : quiet sweepStaging.
Proof.
  unfold sweepStaging. induction artifactDirs as [|k l IH]; cbn [sweep_dirs]; [by apply does_ret|]. apply img_quiet_bind; [apply quiet_sys|]. intros _.
  eapply (does_bind _ _ _ (λ staged _, Forall (λ n, staging n = true) staged)).
  - apply does_reads. intros s _ _. apply Forall_forall. intros n (x & Hx & Hn)%list_elem_of_omap. case_match eqn:Ec; [|done].
    injection Hn as <-. by apply andb_true_iff in Ec as [_ Ec].
  - intros staged. eapply (does_bind _ _ _ (λ _ _, True)); [|done].
    apply does_pure. intros Hs. eapply does_weaken; [apply (quiet_sweep_names k staged Hs)|done|by intros []].
Qed.

(** A rename out of a staging name of what is whole. *)
Lemma does_land k n d a : plain_digest d → whole_of k d a →
  does (λ s, artifacts s !! (k, Temp n) = Some a) (land (k, Temp n) (at_ k d)) (λ r s, r = Ok tt → present (k, d) s).
Proof.
  intros Hd Hw. unfold land. eapply (does_bind _ _ _ (λ r s, match r with Renamed => present (k, d) s | _ => True end)).
  - unfold rename. eapply (does_bind _ _ _ (λ _ s, artifacts s !! (k, Temp n) = Some a)); [apply does_caught; by apply does_sys|].
    intros [[]|]; [|by apply does_ret]. eapply (does_bind _ _ _ (λ m s, m = artifacts s ∧ m !! (k, Temp n) = Some a)); [by apply does_reads|].
    intros m. destruct (m !! (k, Temp n)) as [a'|] eqn:Ea; [|by apply does_ret]. case_match; [by apply does_ret|].
    eapply (does_bind _ _ _ (λ _ s, present (k, d) s)); [|intros []; by apply does_ret]. apply does_touch. intros s _ [-> [= ->]].
    split; [done|]. split; [by apply mild_named|]. exists a. cbn. by rewrite lookup_insert_eq.
  - intros []; [|by apply does_fail|by apply does_fail].
    eapply does_weaken; [apply (does_frames _ _ _ (λ x, x = (k, d)) (quiet_sys ISys))| |].
    + intros s _ H. split; [done|]. by intros x ->.
    + intros r s _ [_ H] _. by apply H.
Qed.

Lemma quiet_keeps {A} (m : iop A) (φ : Prop) x : quiet m → does (λ s, φ → present x s) m (λ _ s, φ → present x s).
Proof.
  intros H. eapply does_weaken; [apply (does_frames _ _ _ (λ y, φ ∧ y = x) H)| |].
  - intros s _ Hx. split; [done|]. intros y [Hφ ->]. auto.
  - intros a s _ [_ Hx] Hφ. by apply Hx.
Qed.

Lemma quiet_unstage k n : quiet (change (set_artifacts (delete (k, Temp n)))).
Proof. apply quiet_change. intros s. split; [done|]. by apply mild_delete. Qed.

Lemma does_apply_layers k n layers : ∀ ls,
  does (λ s, artifacts s !! (k, Temp n) = Some (MkArtifact true ls)) (apply_layers (k, Temp n) layers)
    (λ r s, r = Ok tt → artifacts s !! (k, Temp n) = Some (MkArtifact true (ls ++ layers))).
Proof.
  induction layers as [|h layers IH]; intros ls; cbn [apply_layers].
  { apply does_ret. intros s _ H _. by rewrite (right_id_L [] (++)). }
  set (P := λ ls s, artifacts s !! (k, Temp n) = Some (MkArtifact true ls)).
  eapply (does_bind _ _ _ (λ _ s, P ls s)); [by apply does_sys|]. intros _.
  eapply (does_bind _ _ _ (λ _ s, P ls s)); [by apply does_reads|]. intros ok.
  eapply (does_bind _ _ _ (λ _ s, P ls s)); [apply does_check; intros s _ HP; by case_match|]. intros _.
  eapply (does_bind _ _ _ (λ _ s, P (ls ++ [h]) s)).
  { apply does_touch. intros s _ HP. split; [done|]. split; [by apply mild_temp|]. unfold P in *. cbn. by rewrite lookup_alter_eq, HP. }
  intros _. eapply (does_bind _ _ _ (λ _ s, P (ls ++ [h]) s)); [by apply does_sys|]. intros _.
  eapply does_weaken; [apply (IH (ls ++ [h]))|done|]. intros r s _ H Hr. rewrite H by done. by rewrite <- (assoc_L (++)).
Qed.

Lemma whole_layers k d m : manifest_of d = Some m → whole_of k d (MkArtifact (bool_decide (k = RootFS_)) (MLayers m)).
Proof. intros Hm. split; [done|]. by exists m. Qed.

Lemma does_unpackDir d m : plain_digest d → manifest_of d = Some m →
  does (λ _, True) (unpackDir d (MLayers m)) (λ r s, r = Ok tt → present (RootFS_, d) s).
Proof.
  intros Hd Hm. unfold unpackDir. eapply (does_bind _ _ _ (λ b s, b = true → present (RootFS_, d) s)).
  { eapply does_weaken; [apply (does_is_tree d)|done|]. intros [b|] s _ H; [|done]. intros ->. by apply H. }
  intros [|]; [apply does_ret; by auto|]. eapply (does_bind _ _ _ (λ tmp _, ∃ n, tmp = (RootFS_, Temp n))).
  { apply does_reads. intros s _ _. by eexists. }
  intros tmp. apply does_pure. intros [n ->].
  eapply (does_bind _ _ _ (λ _ s, artifacts s !! (RootFS_, Temp n) = Some (MkArtifact true []))).
  { apply does_change; [done|done|]. intros s _ _. split; [done|]. split; [by apply mild_temp|]. cbn. by rewrite lookup_insert_eq. }
  intros _. apply does_finally; [|intros a; by apply quiet_keeps, quiet_unstage].
  eapply (does_bind _ _ _ (λ _ s, artifacts s !! (RootFS_, Temp n) = Some (MkArtifact true []))); [by apply does_sys|]. intros _.
  eapply (does_bind _ _ _ (λ _ s, artifacts s !! (RootFS_, Temp n) = Some (MkArtifact true (MLayers m)))).
  { eapply does_weaken; [apply (does_apply_layers _ n (MLayers m) [])|done|]. intros [[]|] s _ H; [by apply H|done]. }
  intros _. eapply (does_bind _ _ _ (λ _ s, artifacts s !! (RootFS_, Temp n) = Some (MkArtifact true (MLayers m)))); [by apply does_sys|].
  intros _. apply does_land; [done|]. apply (whole_layers RootFS_ d m Hm).
Qed.

(** A file that is built under a staging name, given what the build leaves there. *)
Lemma does_stageFile k d m build : plain_digest d → manifest_of d = Some m → k ≠ RootFS_ →
  (∀ n, does (λ s, artifacts s !! (k, Temp n) = Some (MkArtifact false [])) (build (k, Temp n))
     (λ r s, r = Ok tt → artifacts s !! (k, Temp n) = Some (MkArtifact false (MLayers m)))) →
  does (λ _, True) (stageFile k d build) (λ r s, r = Ok tt → present (k, d) s).
Proof.
  intros Hd Hm Hk Hb. unfold stageFile. eapply (does_bind _ _ _ (λ tmp _, ∃ n, tmp = (k, Temp n))).
  { apply does_reads. intros s _ _. by eexists. }
  intros tmp. apply does_pure. intros [n ->]. set (P := λ s, artifacts s !! (k, Temp n) = Some (MkArtifact false [])).
  eapply (does_bind _ _ _ (λ _ s, P s)).
  { apply does_change; [done|done|]. intros s _ _. split; [done|]. split; [by apply mild_temp|]. unfold P. cbn. by rewrite lookup_insert_eq. }
  intros _. eapply (does_bind _ _ _ (λ _ s, P s)); [by apply does_sys|]. intros _.
  apply does_finally; [|intros a; by apply quiet_keeps, quiet_unstage].
  set (R := λ s, artifacts s !! (k, Temp n) = Some (MkArtifact false (MLayers m))).
  eapply (does_bind _ _ _ (λ _ s, R s)). { eapply does_weaken; [apply (Hb n)|done|]. intros [[]|] s _ H; [by apply H|done]. }
  intros _. eapply (does_bind _ _ _ (λ _ s, R s)); [by apply does_sys|]. intros _.
  eapply (does_bind _ _ _ (λ _ s, R s)); [by apply does_sys|]. intros _. apply does_land; [done|].
  pose proof (whole_layers k d m Hm) as Hw. by rewrite bool_decide_false in Hw.
Qed.

Lemma does_filled k n layers :
  does (λ s, artifacts s !! (k, Temp n) = Some (MkArtifact false [])) (change (filled (k, Temp n) layers))
    (λ r s, r = Ok tt → artifacts s !! (k, Temp n) = Some (MkArtifact false layers)).
Proof.
  apply does_change; [done|done|]. intros s _ Hs. split; [done|]. split; [by apply mild_temp|]. intros _. cbn. by rewrite lookup_alter_eq, Hs.
Qed.

Lemma does_unpackDisk d m : plain_digest d → manifest_of d = Some m →
  does (λ _, True) (unpackDisk d (MLayers m)) (λ r s, r = Ok tt → present (Disk_, d) s).
Proof.
  intros Hd Hm. unfold unpackDisk. eapply (does_bind _ _ _ (λ b s, b = true → present (Disk_, d) s)).
  { eapply does_weaken; [apply (does_exists Disk_ d)|done|]. intros [b|] s _ H; [|done]. intros ->. by apply H. }
  intros [|]; [apply does_ret; by auto|]. eapply does_weaken; [apply (does_stageFile Disk_ d m); [done..|]|done|done].
  intros n. set (P := λ s, artifacts s !! (Disk_, Temp n) = Some (MkArtifact false [])).
  eapply (does_bind _ _ _ (λ _ s, P s)); [by apply does_reads|]. intros ok.
  eapply (does_bind _ _ _ (λ _ s, P s)); [apply does_check; intros s _ HP; by case_match|]. intros _. apply does_filled.
Qed.

Lemma kept_whole s k d a : kept s → plain_digest d → artifacts s !! at_ k d = Some a → whole_of k d a.
Proof.
  intros (Hw & _) Hd Ha. destruct (Hw k _ (file_of k d) a Ha) as (d' & Hd' & Hf & Hwh); [by left|]. apply file_of_inj in Hf; [by subst|done|done].
Qed.

Lemma does_unpackErofs d m : plain_digest d → manifest_of d = Some m →
  does (λ _, True) (unpackErofs d) (λ r s, r = Ok tt → present (Erofs_, d) s).
Proof.
  intros Hd Hm. unfold unpackErofs. eapply (does_bind _ _ _ (λ b s, b = true → present (Erofs_, d) s)).
  { eapply does_weaken; [apply (does_exists Erofs_ d)|done|]. intros [b|] s _ H; [|done]. intros ->. by apply H. }
  intros [|]; [apply does_ret; by auto|]. eapply does_weaken; [apply (does_stageFile Erofs_ d m); [done..|]|done|done].
  intros n. set (P := λ s, artifacts s !! (Erofs_, Temp n) = Some (MkArtifact false [])).
  eapply (does_bind _ _ _ (λ t s, P s ∧ match t with Some a => alayers a = MLayers m | None => True end)).
  { apply does_reads. intros s Hs HP. split; [done|]. destruct (artifacts s !! at_ RootFS_ d) as [a|] eqn:Ea; [|done].
    destruct (kept_whole s RootFS_ d a Hs Hd Ea) as (_ & m' & Hm' & Hl). congruence. }
  intros [a|]; [|by apply does_fail]. intros l h s Hi (Hf & HP & Ha). rewrite Ha. by apply (does_filled Erofs_ n (MLayers m) l h s).
Qed.

(** One more shape, where it is built. *)
Lemma does_built (b : bool) k d (D : shape * string → Prop) (build : iop unit) :
  does (λ _, True) build (λ r s, r = Ok tt → present (k, d) s) →
  does (λ s, ∀ x, D x → present x s) (if b then build else ret tt)
    (λ r s, match r with Ok _ => ∀ x, D x ∨ x = (k, d) ∧ b = true → present x s | Err _ => True end).
Proof.
  intros Hb. destruct b.
  - eapply does_weaken; [apply (does_frames _ _ _ D Hb)|done|]. intros [[]|] s _ [H1 H2]; [|done]. intros x [Hx|[-> _]]; [auto|by apply H1].
  - apply does_ret. intros s _ H x [Hx|[_ ?]]; [auto|done].
Qed.

Lemma does_unpack img m : plain_digest (GDigest img) → GManifest img = Some m → manifest_of (GDigest img) = Some m →
  does (λ _, True) (unpack disks erofs img) (λ r s, match r with Ok _ => all_present (GDigest img) s | Err _ => True end).
Proof.
  intros Hd Hg Hm. unfold unpack. set (d := GDigest img) in *. eapply (does_bind _ _ _ (λ b s, b = true → all_present d s)).
  { eapply does_weaken; [apply (does_unpacked d)|done|]. by intros [b|] s _ H. }
  intros [|]; [apply does_ret; by auto|]. rewrite Hg. eapply (does_bind _ _ _ (λ _ _, True)); [by apply does_sys|]. intros _.
  eapply (does_bind _ _ _ (λ _ s, ∀ x, x = (RootFS_, d) → present x s)).
  { eapply does_weaken; [apply (does_unpackDir d m Hd Hm)|done|]. intros [[]|] s _ H; [|done]. intros x ->. by apply H. }
  intros _. eapply (does_bind _ _ _ (λ _ s, ∀ x, x = (RootFS_, d) ∨ x = (Disk_, d) ∧ disks = true → present x s)).
  { eapply does_weaken; [apply (does_built disks Disk_ d (λ x, x = (RootFS_, d))), (does_unpackDisk d m Hd Hm)|done|done]. }
  intros _. eapply does_weaken.
  - apply (does_built erofs Erofs_ d (λ x, x = (RootFS_, d) ∨ x = (Disk_, d) ∧ disks = true)), (does_unpackErofs d m Hd Hm).
  - done.
  - intros [u|] s _ H; [|done]. apply shapes_present. intros k Hk. apply H. naive_solver.
Qed.

Lemma found_plain ref s img : kept s → found ref s img → plain_digest (GDigest img).
Proof. intros (_ & Hi & _) (p & m & _ & Hs & _). by eapply stands_plain. Qed.

(** ** Changes of the index *)

Definition base (l : list descriptor) : Prop := index_ok l ∧ Forall (λ c : claim, stands_for l c.1 c.2) C.

Lemma inv_base l m : inv l m → base l.
Proof. intros (_ & H1 & H2). split; [done|]. eapply Forall_impl; [done|]. by intros c (_ & ? & _). Qed.

Lemma inv_move l l' m : inv l m → base l' → inv l' m.
Proof.
  intros (H1 & _ & H2) [H3 H4]. split; [done|]. split; [done|]. rewrite Forall_forall in *. intros c Hc. destruct (H2 c Hc) as (? & _ & ?).
  split; [done|]. split; [by apply H4|done].
Qed.

(** The operation under the invariant, from an index. *)
Definition runs {A} (P : images → Prop) (m : iop A) (Q : result (img_error E) A → images → Prop) : Prop := triple kept P m Q.

Lemma runs_does {A} l P (m : iop A) Q : does P m Q → runs (λ s, index s = l ∧ P s) m (λ a s, index s = l ∧ Q a s).
Proof.
  intros H. eapply triple_weaken; [apply (H l (λ _, False))| |]; simpl.
  - intros s _ [Hl HP]. split; [|done]. by split.
  - by intros a s _ [[Hl _] HQ].
Qed.

Lemma runs_quiet {A} l (m : iop A) : quiet m → runs (λ s, index s = l) m (λ _ s, index s = l).
Proof. intros H. eapply triple_weaken; [apply (runs_does l _ _ _ H)|done|by intros a s _ []]. Qed.

Lemma runs_bind {A B} P (m : iop A) (k : A → iop B) M Q :
  runs P m (λ a s, match a with Ok a => M a s | Err e => Q (Err e) s end) → (∀ a, runs (M a) (k a) Q) → runs P (bind m k) Q.
Proof. apply triple_bind. Qed.

Lemma runs_caught {A} P (m : iop A) Q : runs P m (λ a s, Q (Ok a) s) → runs P (caught m) Q.
Proof. intros H s Hi HP. specialize (H s Hi HP). unfold caught. by destruct (m s) as [[t s'] a]. Qed.

Definition either (l l' : list descriptor) (s : images) : Prop := index s = l ∨ index s = l'.

Lemma runs_writeIndex l l' : base l' →
  runs (λ s, index s = l) (writeIndex l') (λ a s, match a with Ok _ => index s = l' | Err _ => either l l' s end).
Proof.
  intros Hb. unfold writeIndex. eapply (runs_bind _ _ _ (λ _ s, index s = l)).
  { eapply triple_weaken; [apply (runs_quiet l), (quiet_sys ISys)|done|]. intros [] s _ ?; [done|by left]. }
  intros _. eapply (runs_bind _ _ _ (λ _ s, index s = l')).
  - unfold change. eapply (runs_bind _ _ _ (λ _ s, index s = l)).
    { eapply triple_weaken; [apply (runs_quiet l), (quiet_sys ISys)|done|]. intros [] s _ ?; [done|by left]. }
    intros _. apply triple_touch. intros s Hi <-. split; [|done]. by eapply inv_move.
  - intros _. eapply triple_weaken; [apply (runs_quiet l'), (quiet_sys ISys)|done|]. intros [] s _ ?; [done|by right].
Qed.

Lemma quiet_collect_go kept_ l : quiet (collect_go kept_ l).
Proof. induction l as [|n l IH]; cbn [collect_go]; [by apply does_ret|]. apply img_quiet_bind; [|done]. case_match; [by apply does_ret|apply quiet_blobs]. Qed.

Lemma quiet_Collect : quiet Collect.
Proof. unfold Collect. quiet_steps. apply quiet_collect_go. Qed.

Lemma quiet_write_layers l : quiet (write_layers l).
Proof. induction l as [|h l IH]; cbn [write_layers]; [by apply does_ret|]. quiet_steps. Qed.

Lemma quiet_manifests : quiet manifests.
Proof. unfold manifests. quiet_steps. Qed.

(** A quiet step, with the index as it was either way. *)
Lemma runs_quiet_then {A B} l (m : iop A) (k : A → iop B) Q : quiet m → (∀ e s, index s = l → Q (Err e) s) →
  (∀ a, runs (λ s, index s = l) (k a) Q) → runs (λ s, index s = l) (bind m k) Q.
Proof.
  intros Hm He Hk. eapply (runs_bind _ _ _ (λ _ s, index s = l)); [|done]. eapply triple_weaken; [by apply (runs_quiet l)|done|].
  intros [] s _ ?; [done|by apply He].
Qed.

(** What a registry answers: the digest of one image, and the one a reference names unless that names a list of them. *)
Definition remote_ok (remote : reference → option string) : Prop :=
  ∀ p d, remote p = Some d → plain_digest d ∧ is_list d = false ∧ ∀ g, RDigest p = Some g → d = g ∨ is_list g = true.

Lemma base_pulled l ref p d : base l → missing ref l → parseRef (E := E) ref = Ok p →
  plain_digest d → is_list d = false → (∀ g, RDigest p = Some g → d = g ∨ is_list g = true) → base (l ++ [MkDescriptor (RName p) d]).
Proof.
  intros [[H1 H2] H3] (q & Hq & Hmiss) Hp Hd Hl Hg. assert (q = p) as -> by congruence. destruct (DigestOf_name ref p Hp) as [HD Hne].
  assert (∀ e, e ∈ l → DRef e ≠ RName p) as Hno.
  { intros e He Heq. specialize (Hmiss e He). unfold names in Hmiss. by rewrite Heq, String.eqb_refl in Hmiss. }
  split; [split|].
  - apply Forall_app. split; [done|]. apply Forall_singleton. split; [done|]. split; [done|]. cbn [DRef DDigest]. by rewrite HD.
  - intros e e' [He|He%list_elem_of_singleton]%elem_of_app [He'|He'%list_elem_of_singleton]%elem_of_app; subst; cbn [DRef DDigest].
    + by apply H2.
    + intros _ E'. by destruct (Hno e He).
    + intros _ E'. by destruct (Hno e' He').
    + done.
  - eapply Forall_impl; [done|]. intros c [Hc|[Hc1 Hc2]]; [left; apply elem_of_app; by left|]. right. split; [done|].
    rewrite fmap_app. apply elem_of_app. by left.
Qed.

Lemma filter_missing l p : (∀ d, d ∈ l → names d p = false) → List.filter (λ d, negb (String.eqb (DRef d) (RName p))) l = l.
Proof.
  induction l as [|d l IH]; intros H; [done|]. cbn [List.filter]. assert (names d p = false) as Hd by (apply H; left).
  unfold names in Hd. apply orb_false_iff in Hd as [-> _]. simpl. f_equal. apply IH. intros e He. apply H. by right.
Qed.

(** The index with a new entry, which [ref] alone names. *)
Definition pulled (ref : string) (l : list descriptor) (s : images) : Prop :=
  ∃ p d, parseRef (E := E) ref = Ok p ∧ index s = l ++ [MkDescriptor (RName p) d].

Lemma runs_Registry_Pull remote ref l : remote_ok remote → base l → missing ref l →
  runs (λ s, index s = l) (Registry.Pull remote ref)
    (λ a s, match a with Ok img => pulled ref l s ∧ found ref s img | Err _ => True end).
Proof.
  intros Hr Hb Hm. unfold Registry.Pull. destruct Hm as (p & Hp & Hno).
  eapply (runs_bind _ _ _ (λ q s, index s = l ∧ q = p)). { apply triple_ask. intros s _ Hs. rewrite Hp. done. }
  intros q s Hi [Hs ->]. revert s Hi Hs. change (runs (λ s, index s = l) (match remote p with None => fail (IFetch (RName p)) | Some digest =>
      match manifest_of digest with None => fail (IFetch (RName p)) | Some m => write (RName p) digest m ;;; Get (RName p) end end)
    (λ a s, match a with Ok img => pulled ref l s ∧ found ref s img | Err _ => True end)).
  destruct (remote p) as [d|] eqn:Ed; [|by apply triple_fail]. destruct (manifest_of d) as [m|]; [|by apply triple_fail].
  destruct (Hr p d Ed) as (Hd & Hl & Hg). assert (base (l ++ [MkDescriptor (RName p) d])) as Hb'. { eapply base_pulled; try done. by exists p. }
  eapply (runs_bind _ _ _ (λ _ s, index s = l ++ [MkDescriptor (RName p) d])).
  - unfold write. apply runs_quiet_then; [unfold writeJSONBlob; quiet_steps|done|]. intros _.
    apply runs_quiet_then; [unfold writeJSONBlob; quiet_steps|done|]. intros _.
    apply runs_quiet_then; [apply quiet_write_layers|done|]. intros _. apply runs_quiet_then; [apply quiet_sys|done|]. intros _.
    eapply (runs_bind _ _ _ (λ l0 s, index s = l ∧ l0 = l)).
    { unfold manifests. apply runs_quiet_then; [apply quiet_sys|done|]. intros _. apply triple_ask. intros s _ Hs. by rewrite Hs. }
    intros l0 s Hi [Hs ->]. rewrite (filter_missing l p Hno). pose proof (runs_writeIndex l _ Hb' s Hi Hs) as H.
    destruct (writeIndex _ s) as [[t s'] a]. destruct H as (? & ? & H). split_and!; try done. by destruct a.
  - intros _. eapply triple_weaken; [apply (runs_does (l ++ [MkDescriptor (RName p) d]) _ _ _ (does_Get (RName p)))|done|].
    intros [img|] s _ [Hs H]; [|done]. destruct H as (q & m' & Hq & Hst & Hg1 & Hg2). split; [by exists p, d|].
    exists p, m'. split; [done|]. split; [|done]. by rewrite <- (parseRef_name ref p q Hp Hq).
Qed.

Lemma runs_Registry_Remove ref l rest : base rest → (∀ p, parseRef (E := E) ref = Ok p → (parted p l).2 = rest) →
  runs (λ s, index s = l) (Registry.Remove ref) (λ a s, match a with Ok _ => index s = rest | Err _ => either l rest s end).
Proof.
  intros Hb Hr. unfold Registry.Remove. eapply (runs_bind _ _ _ (λ h s, index s = l ∧ h.2 = rest)).
  { eapply triple_weaken; [apply (runs_does l _ _ _ (does_split ref))|done|]. intros [h|] s _ [Hs H]; [|by left]. split; [done|].
    destruct H as (p & Hp & -> & _). rewrite Hs. by apply Hr. }
  intros h. eapply (runs_bind _ _ _ (λ _ s, index s = rest)).
  { intros s Hi [Hs ->]. pose proof (runs_writeIndex l rest Hb s Hi Hs) as H. by destruct (writeIndex rest s) as [[t s'] [[]|]]. }
  intros _. apply runs_quiet_then; [apply quiet_caught, quiet_Collect|by right|].
  intros [[]|]; [by apply triple_ret|apply triple_fail; by right].
Qed.

Lemma runs_pure {A} (φ : Prop) P (m : iop A) Q : (∀ s, kept s → P s → φ) → (φ → runs P m Q) → runs P m Q.
Proof. intros H1 H2 s Hi HP. apply H2; [by apply (H1 s)|done|done]. Qed.

Lemma runs_weaken {A} (P P' : images → Prop) (m : iop A) (Q Q' : result (img_error E) A → images → Prop) :
  runs P' m Q' → (∀ s, kept s → P s → P' s) → (∀ a s, kept s → Q' a s → Q a s) → runs P m Q.
Proof. apply triple_weaken. Qed.

Lemma runs_quiet_any {A} (m : iop A) : quiet m → runs (λ _, True) m (λ _ _, True).
Proof. intros H s Hi _. pose proof (runs_quiet (index s) m H s Hi eq_refl) as Hs. destruct (m s) as [[t s'] a]. naive_solver. Qed.

Lemma runs_joining {A} P e (m : iop unit) : runs P m (λ _ _, True) →
  runs P (joining (A := A) e m) (λ a s, match a with Ok _ => False | Err _ => True end).
Proof.
  intros Hm. unfold joining. eapply (runs_bind _ _ _ (λ _ _, True)); [by apply runs_caught|]. intros a. by apply triple_fail.
Qed.

(** What was found is unpacked, and then handed over. *)
Lemma runs_hand_over ref l img : runs (λ s, index s = l ∧ found ref s img) (unpack disks erofs img)
  (λ a s, index s = l ∧ match a with Ok _ => found ref s img ∧ all_present (GDigest img) s | Err _ => True end).
Proof.
  eapply (runs_pure (∃ m, plain_digest (GDigest img) ∧ GManifest img = Some m ∧ manifest_of (GDigest img) = Some m)).
  { intros s Hs [_ Hf]. pose proof (found_plain ref s img Hs Hf). destruct Hf as (p & m & _ & _ & ? & ?). by exists m. }
  intros (m & Hd & Hg & Hm). eapply runs_weaken; [refine (runs_does l _ _ _ (does_index _ _ _ (λ l, found_in ref l img) (does_unpack img m Hd Hg Hm)))| |].
  - by intros s _ [Hl Hf].
  - intros [[]|] s _ (Hl & H1 & H2); by split.
Qed.

Lemma runs_described ref l img :
  runs (λ s, index s = l ∧ found ref s img ∧ all_present (GDigest img) s) (describe root disks erofs img)
    (λ a s, match a with Ok i => held_for ref (IDigest_ i) s | Err _ => True end).
Proof. eapply runs_weaken; [refine (runs_does l _ _ _ (describe_held ref img))|done|by intros a s _ []]. Qed.

Lemma parted_pulled l p d : (∀ e, e ∈ l → names e p = false) → (parted p (l ++ [MkDescriptor (RName p) d])).2 = l.
Proof.
  intros Hno. cbn [parted snd]. rewrite List.filter_app. cbn [List.filter]. unfold names at 2. cbn [DRef]. rewrite String.eqb_refl.
  cbn [orb negb]. rewrite (right_id_L [] (++)). induction l as [|e l IH]; [done|]. cbn [List.filter].
  rewrite (Hno e) by left. simpl. f_equal. apply IH. intros e' He'. apply Hno. by right.
Qed.

Lemma runs_pullLocked remote ref : remote_ok remote →
  runs (λ _, True) (pullLocked root disks erofs remote ref)
    (λ a s, match a with Ok i => held_for ref (IDigest_ i) s | Err _ => True end).
Proof.
  intros Hr s Hi _. pose proof (inv_base _ _ Hi) as Hb. set (l := index s) in *. assert (index s = l) as Hl by done. clearbody l. revert s Hi Hl.
  change (runs (λ s, index s = l) (pullLocked root disks erofs remote ref) (λ a s, match a with Ok i => held_for ref (IDigest_ i) s | Err _ => True end)).
  unfold pullLocked. eapply (runs_bind _ _ _ (λ f s, index s = l ∧ match f with Some i => held_for ref (IDigest_ i) s | None => True end)).
  { eapply runs_weaken; [refine (runs_does l _ _ _ (does_cached ref))|done|]. intros [[]|] s _ [? ?]; done. }
  intros [i|]; [apply triple_ret; by intros s _ []|].
  eapply (runs_bind _ _ _ (λ _ s, index s = l)). { eapply runs_weaken; [apply (runs_quiet l), quiet_sweepStaging|by intros s _ []|by intros []]. }
  intros _. eapply (runs_bind _ _ _ (λ h s, index s = l ∧ match h with Ok img => found ref s img | Err e => ErrNotCached e = true → missing ref l end)).
  { apply runs_caught. eapply runs_weaken; [refine (runs_does l _ _ _ (does_Get ref))|done|]. intros [img|e] s _ [Hs H]; [done|]. rewrite Hs in H. done. }
  intros [img|e].
  - eapply (runs_bind _ _ _ (λ _ s, index s = l ∧ found ref s img ∧ all_present (GDigest img) s)); [|intros _; apply runs_described].
    eapply runs_weaken; [apply (runs_hand_over ref l)|done|by intros []].
  - destruct (ErrNotCached e) eqn:Ee; simpl; [|by apply triple_fail]. eapply (runs_pure (missing ref l)); [intros s _ [_ H]; by apply H|].
    intros Hm. eapply (runs_bind _ _ _ (λ a s, match a with Ok img => pulled ref l s ∧ found ref s img | Err _ => True end)).
    { apply runs_caught. eapply runs_weaken; [apply (runs_Registry_Pull remote ref l Hr Hb Hm)|by intros s _ []|done]. }
    intros [img|e'].
    + intros s Hi [(p & d & Hp & Hs) Hf]. set (l' := l ++ [MkDescriptor (RName p) d]) in *. revert s Hi Hs Hf.
      enough (runs (λ s, index s = l' ∧ found ref s img) (u <~ caught (unpack disks erofs img) ;;
          match u with Err e => joining e (Registry.Remove ref) | Ok _ => describe root disks erofs img end)
        (λ a s, match a with Ok i => held_for ref (IDigest_ i) s | Err _ => True end)) as Hen by (intros s Hi Hs Hf; by apply Hen).
      eapply (runs_bind _ _ _ (λ u s, index s = l' ∧ match u with Ok _ => found ref s img ∧ all_present (GDigest img) s | Err _ => True end)).
      { apply runs_caught. apply (runs_hand_over ref l' img). }
      intros [u|e']; [apply (runs_described ref l')|]. eapply runs_weaken; [apply (runs_joining (λ s, index s = l'))|by intros s _ []|by intros []].
      destruct Hm as (q & Hq & Hno). assert (q = p) as -> by congruence.
      eapply runs_weaken; [apply (runs_Registry_Remove ref l' l Hb)|done|done]. intros q Hq'. assert (q = p) as -> by congruence. by apply parted_pulled.
    + eapply runs_weaken; [apply (runs_joining (λ _, True) e' Collect), runs_quiet_any, quiet_Collect|done|by intros []].
Qed.

(** What a pull or a claim hands over is held for the reference. *)
Lemma runs_Pull remote ref : remote_ok remote →
  runs (λ _, True) (Pull_ root disks erofs remote ref) (λ a s, match a with Ok i => held_for ref (IDigest_ i) s | Err _ => True end).
Proof.
  intros Hr. unfold Pull_. eapply (runs_bind _ _ _ (λ f s, match f with Some i => held_for ref (IDigest_ i) s | None => True end)).
  { intros s Hi _. pose proof (runs_does (index s) _ _ _ (does_cached ref) s Hi (conj eq_refl Logic.I)) as H.
    destruct (cached root disks erofs ref s) as [[t s'] [[i|]|e]]; naive_solver. }
  intros [i|]; [by apply triple_ret|]. eapply (runs_bind _ _ _ (λ _ _, True)).
  { eapply runs_weaken; [apply runs_quiet_any, (quiet_sys ISys)|done|by intros []]. }
  intros _. by apply runs_pullLocked.
Qed.

(** ** Removal *)

Lemma orphaned_spec held l : ∀ acc x, x ∈ orphaned_go held acc l ↔ x ∈ acc ∨ x ∈ DDigest <$> l ∧ x ∉ held.
Proof.
  induction l as [|d l IH]; intros acc x; cbn [orphaned_go]; [set_solver|]. rewrite IH, fmap_cons, elem_of_cons.
  destruct (contains held (DDigest d)) eqn:Eh; [apply contains_elem_of in Eh; simpl; set_solver|].
  assert (DDigest d ∉ held) as Hd by (intros H%contains_elem_of; congruence). simpl.
  destruct (contains acc (DDigest d)) eqn:Ea; [apply contains_elem_of in Ea; set_solver|]. set_solver.
Qed.

(** The removal of a reference takes nothing a claim needs. *)
Definition spares (ref : string) (l : list descriptor) : Prop :=
  ∀ p c, parseRef (E := E) ref = Ok p → c ∈ C → c.1 ≠ RName p ∧ c.2 ∉ orphaned_go (DDigest <$> (parted p l).2) [] (parted p l).1.

Lemma elem_of_parted p l d : (d ∈ (parted p l).1 ↔ d ∈ l ∧ names d p = true) ∧ (d ∈ (parted p l).2 ↔ d ∈ l ∧ names d p = false).
Proof. cbn [parted fst snd]. rewrite !elem_of_List_filter, negb_true_iff. done. Qed.

Lemma rest_stands l p r d : stands_for l r d → r ≠ RName p → d ∉ orphaned_go (DDigest <$> (parted p l).2) [] (parted p l).1 →
  stands_for (parted p l).2 r d.
Proof.
  intros Hs Hr Ho. rewrite orphaned_spec in Ho. assert (d ∈ DDigest <$> (parted p l).1 → d ∈ DDigest <$> (parted p l).2) as Hm.
  { intros Hd. destruct (decide (d ∈ DDigest <$> (parted p l).2)); [done|]. exfalso. apply Ho. by right. }
  destruct Hs as [Hin|[Hg (e & -> & He)%list_elem_of_fmap]].
  - left. destruct (names (MkDescriptor r d) p) eqn:En; [|by apply elem_of_parted]. exfalso. unfold names in En.
    apply orb_true_iff in En as [En%String.eqb_eq|En]; [done|]. cbn [DDigest] in En. destruct (RDigest p) as [g|] eqn:Eg; [|done].
    apply String.eqb_eq in En as <-. assert (d ∈ DDigest <$> (parted p l).2) as (e & -> & He)%list_elem_of_fmap.
    { apply Hm. apply list_elem_of_fmap. exists (MkDescriptor r d). split; [done|]. apply elem_of_parted. split; [done|].
      unfold names. by rewrite Eg, String.eqb_refl, orb_true_r. }
    apply elem_of_parted in He as [_ He]. unfold names in He. by rewrite Eg, String.eqb_refl, orb_true_r in He.
  - right. split; [done|]. destruct (names e p) eqn:En.
    + apply Hm. apply list_elem_of_fmap. exists e. split; [done|]. by apply elem_of_parted.
    + apply list_elem_of_fmap. exists e. split; [done|]. by apply elem_of_parted.
Qed.

Lemma base_rest ref p l : base l → parseRef (E := E) ref = Ok p → spares ref l → base (parted p l).2.
Proof.
  intros [H1 H2] Hp Hs. split.
  - eapply index_ok_sub; [|done]. intros d Hd. by apply elem_of_parted in Hd as [? _].
  - rewrite Forall_forall in *. intros c Hc. destruct (Hs p c Hp Hc). apply rest_stands; auto.
Qed.

(** The artifacts that may be moved aside. *)
Definition loose (d : string) : Prop := plain_digest d ∧ d ∉ C.*2.

Lemma aside_inv l m k d a : loose d → m !! at_ k d = Some a → inv l m → inv l (<[(k, Removing (file_of k d)) := a]> (delete (at_ k d) m)).
Proof.
  intros [Hd Hc] Ha (H1 & H2 & H3). split; [|split; [done|]].
  - intros k' n f b [[[= <- <-] <-]|[_ [_ Hb]%lookup_delete_Some]]%lookup_insert_Some Hn; [|by eapply H1].
    destruct Hn as [?|[= <-]]; [done|]. apply (H1 k (Named (file_of k d)) (file_of k d) a Ha). by left.
  - rewrite Forall_forall in *. intros [r d'] Hin. destruct (H3 _ Hin) as (Hr & Hs & Hp). split; [done|]. split; [done|]. intros k' Hk'. cbn [snd] in *.
    rewrite lookup_insert_ne by done. rewrite lookup_delete_ne; [by apply Hp|]. intros Hat.
    assert (k' = k) as -> by (unfold at_ in Hat; congruence). apply Hc. apply list_elem_of_fmap. exists (r, d'). split; [|done]. cbn.
    apply (file_of_inj k); [done|by eapply stands_plain|]. unfold at_ in Hat. congruence.
Qed.

Lemma back_mild m k f a : m !! (k, Removing f) = Some a → mild m (<[(k, Named f) := a]> (delete (k, Removing f) m)).
Proof.
  intros Ha. split.
  - intros Hw k' n g b [[[= <- <-] <-]|[_ [_ Hb]%lookup_delete_Some]]%lookup_insert_Some Hn; [|by eapply Hw].
    destruct Hn as [[= <-]|?]; [|done]. apply (Hw k (Removing f) f a Ha). by right.
  - intros k' d Hp. destruct (decide ((k, Named f) = at_ k' d)) as [->|Hne]; [by rewrite lookup_insert_eq|].
    rewrite lookup_insert_ne by done. by rewrite lookup_delete_ne.
Qed.

Lemma runs_aside l k d : loose d → runs (λ s, index s = l) (rename (at_ k d) (k, Removing (file_of k d))) (λ _ s, index s = l).
Proof.
  intros Hd. unfold rename. eapply runs_quiet_then; [apply quiet_caught, quiet_sys|done|]. intros [[]|]; [|by apply triple_ret].
  eapply (runs_bind _ _ _ (λ m s, index s = l ∧ m = artifacts s)); [by apply triple_ask|]. intros m.
  destruct (m !! at_ k d) as [a|] eqn:Ea; [|apply triple_ret; by intros s _ []]. case_match; [apply triple_ret; by intros s _ []|].
  eapply (runs_bind _ _ _ (λ _ s, index s = l)); [|intros _; by apply triple_ret]. apply triple_touch. intros s Hi [Hl ->].
  split; [|done]. unfold kept. cbn. by apply aside_inv.
Qed.

Lemma quiet_back k f : quiet (rename (k, Removing f) (k, Named f)).
Proof.
  unfold rename. apply img_quiet_bind; [apply quiet_caught, quiet_sys|]. intros [[]|]; [|by apply does_ret].
  eapply (does_bind _ _ _ (λ m s, m = artifacts s)); [by apply does_reads|]. intros m.
  destruct (m !! (k, Removing f)) as [a|] eqn:Ea; [|by apply does_ret]. case_match; [by apply does_ret|].
  eapply (does_bind _ _ _ (λ _ _, True)); [|intros _; by apply does_ret]. apply does_touch. intros s _ ->.
  split; [done|]. split; [|done]. by apply back_mild.
Qed.

Lemma quiet_restore moved : quiet (restoreRemoval moved).
Proof.
  unfold restoreRemoval. induction (reverse moved) as [|[k f] l IH]; cbn [restore_go]; [by apply does_ret|].
  apply img_quiet_bind; [apply quiet_back|]. intros r. apply img_quiet_bind; [|intros e; apply img_quiet_bind; [done|intros x; by apply does_ret]].
  destruct r; [|by apply does_ret|by apply does_ret]. apply img_quiet_bind; [apply quiet_caught, quiet_sys|]. intros a. by apply does_ret.
Qed.

Lemma quiet_restoring {A} e moved : quiet (restoring (A := A) e moved).
Proof. unfold restoring. apply img_quiet_bind; [apply quiet_restore|]. intros r. by apply does_fail. Qed.

Lemma runs_stageDigest l d : loose d → runs (λ s, index s = l) (stageDigestRemoval d) (λ _ s, index s = l).
Proof.
  intros Hd. unfold stageDigestRemoval. induction artifactDirs as [|k ks IH]; cbn [stage_shapes]; [by apply triple_ret|].
  eapply (runs_bind _ _ _ (λ _ s, index s = l)); [eapply runs_weaken; [apply (runs_aside l k d Hd)|done|by intros []]|]. intros [].
  - eapply (runs_bind _ _ _ (λ _ s, index s = l)); [eapply runs_weaken; [apply IH|done|by intros []]|]. intros r. by apply triple_ret.
  - apply IH.
  - by apply triple_ret.
Qed.

Lemma runs_stageRemoval l ds : Forall loose ds → runs (λ s, index s = l) (stageRemoval ds) (λ _ s, index s = l).
Proof.
  induction 1 as [|d ds Hd Hds IH]; cbn [stageRemoval]; [by apply triple_ret|].
  eapply (runs_bind _ _ _ (λ _ s, index s = l)); [eapply runs_weaken; [apply (runs_stageDigest l d Hd)|done|by intros []]|]. intros [moved [e|]]; cbn [fst snd].
  - by apply triple_ret.
  - eapply (runs_bind _ _ _ (λ _ s, index s = l)); [eapply runs_weaken; [apply IH|done|by intros []]|]. intros r. by apply triple_ret.
Qed.

Lemma does_Orphaned ref :
  does (λ _, True) (Orphaned ref) (λ a s, match a with
    | Ok ds => ∃ p, parseRef (E := E) ref = Ok p ∧ ds = orphaned_go (DDigest <$> (parted p (index s)).2) [] (parted p (index s)).1
    | Err _ => True end).
Proof.
  unfold Orphaned. eapply (does_bind _ _ _ (λ h s, ∃ p, parseRef (E := E) ref = Ok p ∧ h = parted p (index s))).
  { eapply does_weaken; [apply does_split|done|]. intros [h|e] s _; [|done]. intros (p & Hp & Hh & _). by exists p. }
  intros h. apply does_ret. intros s _ (p & Hp & ->). by exists p.
Qed.

(** [unindex], given what its check promises. *)
Lemma runs_unindex ref l (free : iop unit) :
  runs (λ s, index s = l) free (λ a s, index s = l ∧ (a = Ok tt → spares ref l)) →
  runs (λ s, index s = l) (unindex ref free) (λ _ _, True).
Proof.
  intros Hf. unfold unindex. eapply (runs_bind _ _ _ (λ _ s, index s = l ∧ spares ref l)).
  { eapply runs_weaken; [apply Hf|done|]. intros [[]|] s _ [? ?]; [split; auto|done]. }
  intros _. eapply (runs_pure (base l ∧ spares ref l)). { intros s Hi [<- Hs]. split; [by eapply inv_base|done]. }
  intros [Hb Hs]. eapply (runs_bind _ _ _ (λ ds s, index s = l ∧ Forall loose ds)).
  { eapply runs_weaken; [refine (runs_does l _ _ _ (does_Orphaned ref))|by intros s _ []|]. intros [ds|] s _ [Hl H]; [|done]. split; [done|].
    destruct H as (p & Hp & ->). rewrite Hl. apply Forall_forall. intros d Hd. split.
    - apply orphaned_spec in Hd as [?%elem_of_nil|[(e & -> & He)%list_elem_of_fmap _]]; [done|]. apply elem_of_parted in He as [He _].
      destruct Hb as [[Hok _] _]. rewrite Forall_forall in Hok. by apply Hok.
    - intros (c & -> & Hc)%list_elem_of_fmap. by apply (Hs p c Hp Hc). }
  intros ds. eapply (runs_pure (Forall loose ds)); [by intros s _ []|]. intros Hds.
  eapply (runs_bind _ _ _ (λ _ s, index s = l)). { eapply runs_weaken; [apply (runs_stageRemoval l ds Hds)|by intros s _ []|by intros []]. }
  intros [moved [e|]]; cbn [fst snd]. { eapply runs_weaken; [apply runs_quiet_any, quiet_restoring|done|done]. }
  eapply (runs_bind _ _ _ (λ _ _, True)).
  - apply runs_caught. destruct (parseRef (E := E) ref) as [p|e] eqn:Ep.
    + eapply runs_weaken; [apply (runs_Registry_Remove ref l (parted p l).2); [by eapply base_rest|]|done|done]. intros q Hq. congruence.
    + eapply runs_weaken; [apply (runs_Registry_Remove ref l l Hb)|done|done]. intros q Hq. congruence.
  - intros [u|e]; [by apply triple_ret|]. case_match; [by apply triple_fail|]. eapply (runs_bind _ _ _ (λ _ _, True)).
    { apply runs_caught. eapply runs_weaken; [apply runs_quiet_any; eapply does_weaken; [apply (does_Orphaned ref)|done|done]|done|done]. }
    intros [ds'|ie]; [apply runs_quiet_any, quiet_restoring|]. case_match; [by apply triple_fail|apply runs_quiet_any, quiet_restoring].
Qed.

Lemma runs_Remove_at ref l (free : iop unit) :
  runs (λ s, index s = l) free (λ a s, index s = l ∧ (a = Ok tt → spares ref l)) → runs (λ s, index s = l) (Remove_ ref free) (λ _ _, True).
Proof.
  intros Hf. unfold Remove_. apply runs_quiet_then; [apply quiet_sys|done|]. intros _. eapply (runs_bind _ _ _ (λ _ _, True)).
  { apply runs_caught. by apply (runs_unindex ref l free). }
  intros [u|e].
  - apply runs_quiet_any, img_quiet_bind; [apply quiet_caught, quiet_sweepStaging|]. intros [[]|]; [by apply does_ret|by apply does_fail].
  - case_match; [|by apply triple_fail]. apply runs_quiet_any, img_quiet_bind; [apply quiet_caught, quiet_sweepStaging|]. intros a. by apply does_fail.
Qed.

Lemma runs_Remove ref (free : iop unit) :
  (∀ l, runs (λ s, index s = l) free (λ a s, index s = l ∧ (a = Ok tt → spares ref l))) → runs (λ _, True) (Remove_ ref free) (λ _ _, True).
Proof. intros Hf s Hi _. by apply (runs_Remove_at ref (index s) free (Hf _) s Hi). Qed.

(** ** What is listed *)

Definition listed (g : reg_image) : descriptor := MkDescriptor (GRef g) (GDigest g).

Lemma image_listed d : does (λ _, True) (image d) (λ a _, match a with Ok g => listed g = d | Err _ => True end).
Proof.
  unfold image. eapply (does_bind _ _ _ (λ _ _, True)); [by apply does_sys|]. intros _.
  eapply (does_bind _ _ _ (λ _ _, True)); [by apply does_reads|]. intros b. repeat case_match; try by apply does_fail.
  eapply (does_bind _ _ _ (λ _ _, True)); [eapply does_weaken; [apply quiet_verifiedConfig|done|by intros []]|]. intros _. apply does_ret. by destruct d.
Qed.

Lemma list_go_listed l : does (λ _, True) (list_go l) (λ a _, match a with Ok gs => listed <$> gs = l | Err _ => True end).
Proof.
  induction l as [|d l IH]; cbn [list_go]; [by apply does_ret|].
  eapply (does_bind _ _ _ (λ a _, match a with Ok g => listed g = d | Err _ => True end)).
  { apply does_caught. apply image_listed. }
  intros a. apply does_pure. intros Ha. eapply (does_bind _ _ _ (λ gs _, listed <$> gs = l)); [done|]. intros gs. apply does_ret.
  intros s _ <-. rewrite fmap_cons. f_equal. destruct a as [g|e]; [done|]. by destruct d.
Qed.

Lemma List_listed : does (λ _, True) List_ (λ a s, match a with Ok gs => listed <$> gs ≡ₚ index s | Err _ => True end).
Proof.
  unfold List_. eapply (does_bind _ _ _ (λ l s, l = index s)).
  { unfold manifests. eapply (does_bind _ _ _ (λ _ _, True)); [by apply does_sys|]. intros _. by apply does_reads. }
  intros l. eapply (does_bind _ _ _ (λ gs s, listed <$> gs = index s)).
  - eapply does_weaken; [refine (does_index _ _ _ (λ l', l = l') (list_go_listed l))|by intros s _ ->|]. intros [gs|] s _ [H1 H2]; [|done]. congruence.
  - intros gs. apply does_ret. intros s _ <-. apply fmap_Permutation, merge_sort_Permutation.
Qed.

Lemma describe_all_listed gs :
  does (λ _, True) (describe_all root disks erofs gs)
    (λ a _, match a with Ok is_ => (λ i, MkDescriptor (IReference i) (IDigest_ i)) <$> is_ = listed <$> gs | Err _ => True end).
Proof.
  induction gs as [|g gs IH]; cbn [describe_all]; [by apply does_ret|].
  eapply (does_bind _ _ _ (λ i _, IDigest_ i = GDigest g ∧ IReference i = GRef g)).
  { eapply does_weaken; [apply (does_describe g)|done|by intros []]. }
  intros i. apply does_pure. intros [H1 H2]. eapply (does_bind _ _ _ (λ is_ _, (λ i, MkDescriptor (IReference i) (IDigest_ i)) <$> is_ = listed <$> gs)).
  { eapply does_weaken; [apply IH|done|by intros []]. }
  intros is_. apply does_ret. intros s _ Hs. rewrite !fmap_cons, Hs. f_equal. by rewrite H1, H2.
Qed.

Lemma does_List :
  does (λ _, True) (Images.List root disks erofs)
    (λ a s, match a with Ok is_ => (λ i, MkDescriptor (IReference i) (IDigest_ i)) <$> is_ ≡ₚ index s | Err _ => True end).
Proof.
  unfold Images.List. eapply (does_bind _ _ _ (λ gs s, listed <$> gs ≡ₚ index s)).
  { eapply does_weaken; [apply List_listed|done|by intros []]. }
  intros gs. eapply does_weaken; [refine (does_index _ _ _ (λ l, listed <$> gs ≡ₚ l) (describe_all_listed gs))|done|].
  intros [is_|] s _ [H1 H2]; [|done]. by rewrite H1.
Qed.

End Facts.
