(* ===== verification/Snapshots.v ===== *)
(** * The snapshot repository

    [services/sandboxstate/snapshots.go], over the name index of [names.go]: a directory per snapshot, with the files copied
    from a stopped sandbox and, beside them, the record that makes it one. An operation is followed one visible change at a
    time, as for the sandbox repository; which system call fails is an argument. *)

From S2P Require Import Prelude Ops Paths GoStrings Netip Models Records Store Secret SandboxID Repository ExecTable Host.
Local Open Scope Z_scope.
Local Open Scope op_scope.

(** ** The disk *)

Inductive snap_record : Type := SnapUnreadable | SnapGarbled | SnapOf (snap : Snapshot_).

(** How far the copy of the files has come, or how much of it is left. *)
Inductive files_state : Type := NoFiles | SomeFiles | WholeFiles.

Inductive snap_entry : Type := SFile | SDir (files : files_state) (record : option snap_record).

Record snaps : Type := MkSnaps { sdirs : gmap string snap_entry; slinks : gmap string link }.

Definition set_sdirs (f : gmap string snap_entry → gmap string snap_entry) (s : snaps) : snaps := MkSnaps (f (sdirs s)) (slinks s).
Definition set_slinks (f : gmap string link → gmap string link) (s : snaps) : snaps := MkSnaps (sdirs s) (f (slinks s)).

Inductive snap_error : Type :=
| SNotFound
| SSpelling (e : spelling_error)
| SRead
| SDecode
| SCarriesID
| SRandom
| SMkdir
| SNoFreeID
| SFill
| SMeasure
| SWrite
| SNameTaken (holder : string)
| SLink
| SSync
| SRemove
| SBrokenLink.

Abbreviation snop := (op snaps snap_error).

Definition ValidSnapshotName : string → result spelling_error unit := ValidName.
Definition ValidSnapshotID : string → result spelling_error unit := ValidID.

(** [Get]. *)
Definition SGet (s : snaps) (id : string) : result snap_error Snapshot_ :=
  match ValidSnapshotID id with
  | Err e => Err (SSpelling e)
  | Ok _ =>
      match sdirs s !! id with
      | None | Some (SDir _ None) => Err SNotFound
      | Some SFile | Some (SDir _ (Some SnapUnreadable)) => Err SRead
      | Some (SDir _ (Some SnapGarbled)) => Err SDecode
      | Some (SDir _ (Some (SnapOf snap))) => Ok snap
      end
  end.

(** ** Names *)

Definition snap_target (id : string) : string := "../snapshots/" +:+ id.

Definition sholder (s : snaps) (name : string) : string :=
  match slinks s !! name with Some (Link target) => Base target | _ => "another snapshot" end.

Definition sclaim (f : link_fault) (name id : string) : snop unit :=
  if String.eqb name "" then ret tt
  else
    _ <~ ask (λ _, map_err SSpelling (ValidSnapshotName name)) ;;
    taken <~ ask (λ s, Ok (if slinks s !! name then Some (sholder s name) else None)) ;;
    match taken, f with
    | Some h, _ => fail (SNameTaken h)
    | None, LinkFails => fail SLink
    | None, LinkFine => touch (set_slinks <[name := Link (snap_target id)]>)
    | None, LinkSyncFails => touch (set_slinks <[name := Link (snap_target id)]>) ;;; fail SSync
    end.

Definition sdrop (removed : bool) (name id : string) : snop unit :=
  if String.eqb name "" then ret tt
  else
    found <~ ask (λ s, Ok (slinks s !! name)) ;;
    match found with
    | None => ret tt
    | Some NotLink | Some LinkUnreadable => fail SLink
    | Some (Link target) =>
        if negb (String.eqb (Base target) id) then ret tt
        else if removed then touch (set_slinks (delete name)) else fail SLink
    end.

Definition SResolve (s : snaps) (ref : string) : result snap_error string :=
  match plainComponent ref with
  | Err e => Err (SSpelling e)
  | Ok _ =>
      match slinks s !! ref with
      | None | Some NotLink => Ok ref
      | Some LinkUnreadable => Err SLink
      | Some (Link target) =>
          match plainComponent (Base target) with Err _ => Err SBrokenLink | Ok _ => Ok (Base target) end
      end
  end.

(** ** Create *)

Fixpoint sclaim_go (c : claim_calls) (attempts : nat) (ids : list (option string)) : snop string :=
  match attempts, ids with
  | O, _ => fail SNoFreeID
  | S _, [] | S _, None :: _ => fail SRandom
  | S attempts, Some id :: ids =>
      exists_ <~ ask (λ s, Ok (bool_decide (is_Some (sdirs s !! id)))) ;;
      if exists_ then sclaim_go c attempts ids
      else check SMkdir (mkdir_ok c) ;;;
           touch (set_sdirs <[id := SDir NoFiles None]>) ;;;
           check SSync (parent_sync c) ;;;
           ret id
  end.

(** [os.RemoveAll] of a snapshot: the files go a part at a time, and the record before them or after them, as the directory
    lists them; a failure stops it after any of its steps. *)
Record removing : Type := MkRemoving { record_first : bool; stops_after : option nat }.

Definition shed_files (f : files_state) (id : string) (s : snaps) : snaps :=
  set_sdirs (alter (λ e, match e with SDir _ r => SDir f r | SFile => SFile end) id) s.
Definition shed_record (id : string) (s : snaps) : snaps :=
  set_sdirs (alter (λ e, match e with SDir f _ => SDir f None | SFile => SFile end) id) s.

Definition remove_steps (order : bool) (id : string) : list (snaps → snaps) :=
  (if order then [shed_record id; shed_files SomeFiles id; shed_files NoFiles id]
   else [shed_files SomeFiles id; shed_files NoFiles id; shed_record id]) ++ [set_sdirs (delete id)].

Fixpoint touches (fs : list (snaps → snaps)) : snop unit :=
  match fs with [] => ret tt | f :: fs => touch f ;;; touches fs end.

Definition SRemoveAll (f : removing) (id : string) : snop unit :=
  match stops_after f with
  | None => touches (remove_steps (record_first f) id)
  | Some n => touches (take n (remove_steps (record_first f) id)) ;;; fail SRemove
  end.

Definition abandon (f : removing) (sync : bool) (id : string) : snop unit :=
  SRemoveAll f id ;;; check SSync sync.

(** [allocated]: the blocks of every file of the walk, by inode; a hard link counts once. *)
Fixpoint allocated (seen : gset Z) (files : list (Z * Z)) : Z :=
  match files with
  | [] => 0
  | (ino, blocks) :: files => if decide (ino ∈ seen) then allocated seen files else blocks * 512 + allocated ({[ino]} ∪ seen) files
  end.

Record snap_calls : Type := MkSnapCalls {
  sc_claim : claim_calls;
  sc_mkdir : bool;
  sc_fill : bool;
  sc_walk : option (list (Z * Z));
  sc_write : WriteOutcome;
  sc_link : link_fault;
  sc_remove : removing;
  sc_sync : bool
}.

Definition set_size (id : string) (size : Z) (s : Snapshot_) : Snapshot_ :=
  MkSnapshot id (SnName s) (SnSource s) (SnSourceName s) (SnImage s) (SnDigest s) (SnProvider s) (SnDiskMiB s) (SnMemoryMiB s) size (SnCreatedAt s).

Definition put_record (snap : Snapshot_) (s : snaps) : snaps :=
  set_sdirs (alter (λ e, match e with SDir f _ => SDir f (Some (SnapOf snap)) | SFile => SFile end) (SnID snap)) s.

(** [write]. What a record takes from a sandbox has been read back from one, so its text encodes to itself. *)
Definition swrite (w : WriteOutcome) (snap : Snapshot_) : snop unit :=
  if wrote w then
    touch (put_record snap) ;;;
    check SWrite (write_ok w)
  else fail SWrite.

(** [Create]: the copy of the files is the argument of the source, whose outcome is [sc_fill]. *)
Definition SCreate (c : snap_calls) (snap : Snapshot_) : snop Snapshot_ :=
  check SCarriesID (String.eqb (SnID snap) "") ;;;
  (if String.eqb (SnName snap) "" then ret tt
   else _ <~ ask (λ _, map_err SSpelling (ValidSnapshotName (SnName snap))) ;;
        taken <~ ask (λ s, Ok (if slinks s !! SnName snap then Some (sholder s (SnName snap)) else None)) ;;
        match taken with Some h => fail (SNameTaken h) | None => ret tt end) ;;;
  id <~ sclaim_go (sc_claim c) idAttempts (new_ids (sc_claim c)) ;;
  let gone {A} (m : snop A) : snop A := or_undo m (abandon (sc_remove c) (sc_sync c) id) in
  gone (check SMkdir (sc_mkdir c)) ;;;
  gone (touch (shed_files SomeFiles id) ;;; check SFill (sc_fill c) ;;; touch (shed_files WholeFiles id)) ;;;
  size <~ gone (ask (λ _, match sc_walk c with Some files => Ok (allocated ∅ files) | None => Err SMeasure end)) ;;
  let snap := set_size id size snap in
  gone (swrite (sc_write c) snap) ;;;
  gone (sclaim (sc_link c) (SnName snap) id) ;;;
  ret snap.

(** ** Delete, and the sweep at the start of the daemon *)

Definition SDelete (drops : bool) (f : removing) (sync : bool) (id : string) : snop unit :=
  snap <~ ask (λ s, SGet s id) ;;
  sdrop drops (SnName snap) id ;;;
  SRemoveAll f id ;;;
  check SSync sync.

(** Whether an entry is the directory of a create that was cut. *)
Definition cut_create (s : snaps) (name : string) : bool :=
  match sdirs s !! name with
  | Some (SDir _ None) => is_ok (ValidSnapshotID name)
  | _ => false
  end.

(** [Sweep], over the entries as they were listed: how many directories it removed; each removal may fail. *)
Fixpoint sweep_names (f : string → removing) (names : list string) : snop nat :=
  match names with
  | [] => ret 0%nat
  | name :: names =>
      cut <~ ask (λ s, Ok (cut_create s name)) ;;
      if cut then SRemoveAll (f name) name ;;; n <~ sweep_names f names ;; ret (S n) else sweep_names f names
  end.

Definition SSweep (f : string → removing) (sync : bool) : snop nat := λ s,
  (n <~ sweep_names f (sorted_names (sdirs s)) ;;
   if Nat.eqb n 0 then ret n else check SSync sync ;;; ret n) s.

(** ** Reads *)

Definition swalk_entry (s : snaps) (name : string) : option (string * result snap_error Snapshot_) :=
  match sdirs s !! name with
  | Some (SDir _ _) =>
      match ValidSnapshotID name with
      | Ok _ => match SGet s name with Err SNotFound => None | answer => Some (name, answer) end
      | Err _ => None
      end
  | _ => None
  end.

Definition snap_le (a b : Snapshot_) : Prop := String.le (SnID a) (SnID b).
#[export] Instance snap_le_dec : RelDecision snap_le.
Proof. intros a b. unfold snap_le. apply _. Defined.

(** [List]: the readable records in the order of their ids, and the ids of the others. *)
Definition SList (s : snaps) : list Snapshot_ * list string :=
  let w := omap (swalk_entry s) (sorted_names (sdirs s)) in
  (merge_sort snap_le (omap (λ p, match p.2 with Ok snap => Some snap | Err _ => None end) w), omap (λ p, match p.2 with Ok _ => None | Err _ => Some p.1 end) w).

(** ** Theorems *)

(** Every record that reads back stands beside the whole of its files, under its own id. *)
Definition visible_whole (s : snaps) : Prop :=
  ∀ id f snap, sdirs s !! id = Some (SDir f (Some (SnapOf snap))) → f = WholeFiles ∧ SnID snap = id.

(** The start, with one more directory. *)
Definition at_ (s0 : snaps) (id : string) (f : files_state) (r : option snap_record) : snaps :=
  MkSnaps (<[id := SDir f r]> (sdirs s0)) (slinks s0).

Lemma snaps_eta s : MkSnaps (sdirs s) (slinks s) = s.
Proof. by destruct s. Qed.

Section At.
Context (s0 : snaps) (id : string) (Hfree : sdirs s0 !! id = None) (H0 : visible_whole s0).

Lemma at_files f f' r : shed_files f' id (at_ s0 id f r) = at_ s0 id f' r.
Proof. unfold shed_files, at_, set_sdirs. simpl. by rewrite alter_insert_eq. Qed.

Lemma at_record f r : shed_record id (at_ s0 id f r) = at_ s0 id f None.
Proof. unfold shed_record, at_, set_sdirs. simpl. by rewrite alter_insert_eq. Qed.

Lemma at_put f r snap : SnID snap = id → put_record snap (at_ s0 id f r) = at_ s0 id f (Some (SnapOf snap)).
Proof. intros E. unfold put_record, at_, set_sdirs. simpl. rewrite E. by rewrite alter_insert_eq. Qed.

Lemma at_gone f r : set_sdirs (delete id) (at_ s0 id f r) = s0.
Proof. unfold at_, set_sdirs. simpl. rewrite delete_insert_id by done. apply snaps_eta. Qed.

Lemma whole_at f r :
  (∀ snap, r = Some (SnapOf snap) → f = WholeFiles ∧ SnID snap = id) → visible_whole (at_ s0 id f r).
Proof.
  intros Hr id' f' snap. unfold at_. simpl. destruct (decide (id = id')) as [<-|Hn].
  - rewrite lookup_insert_eq. intros [= -> ->]. by apply Hr.
  - rewrite lookup_insert_ne by done. apply H0.
Qed.

Lemma unlisted_get f : ∀ id', SGet (at_ s0 id f None) id' = SGet s0 id'.
Proof.
  intros id'. unfold SGet, at_. simpl. destruct (ValidSnapshotID id'); [|done]. destruct (decide (id = id')) as [<-|Hn].
  - by rewrite lookup_insert_eq, Hfree.
  - by rewrite lookup_insert_ne.
Qed.
End At.

(** The states a removal goes through, and the one it ends in. *)
Fixpoint trail (fs : list (snaps → snaps)) (s : snaps) : list snaps :=
  match fs with [] => [] | f :: fs => f s :: trail fs (f s) end.

Lemma touches_eq fs : ∀ s, touches fs s = (trail fs s, foldl (λ s g, g s) s fs, Ok tt).
Proof. induction fs as [|f fs IH]; intros s; [done|]. simpl. unfold bind. simpl. by rewrite IH. Qed.

Lemma trail_take (P : snaps → Prop) n fs : ∀ s, Forall P (trail fs s) → Forall P (trail (take n fs) s).
Proof.
  revert fs. induction n as [|n IH]; intros [|f fs] s; simpl; try done. rewrite !Forall_cons. intros [? ?]. auto.
Qed.

Lemma run_take n fs : ∀ s, foldl (λ s g, g s) s (take n fs) ∈ s :: trail fs s.
Proof.
  revert fs. induction n as [|n IH]; intros [|f fs] s; simpl; try by left. right. apply IH.
Qed.

(** Kept at every step, where a removal takes the record first. *)
Definition kept_by (f : removing) (s : snaps) : Prop := record_first f = true → visible_whole s.

(** What a record of a directory may be: none yet, or the whole of it. *)
Definition own (id : string) (f : files_state) (r : option snap_record) : Prop :=
  ∀ snap, r = Some (SnapOf snap) → f = WholeFiles ∧ SnID snap = id.

Lemma own_none id f : own id f None.
Proof. by intros snap [=]. Qed.

Lemma kept_at rm s0 id f r : visible_whole s0 → own id f r → kept_by rm (at_ s0 id f r).
Proof. intros Hv Hr _. by apply whole_at. Qed.

(** A removal of one directory more, which ends where it was not, unless it is stopped. *)
Lemma remove_triple rm sync s0 id f r :
  visible_whole s0 → sdirs s0 !! id = None → own id f r →
  triple (kept_by rm) (λ s, s = at_ s0 id f r) (abandon rm sync id) (λ _ s, stops_after rm = None → s = s0).
Proof.
  intros H0 Hfree Hr s Hk ->. unfold abandon, SRemoveAll.
  assert (Forall (kept_by rm) (trail (remove_steps (record_first rm) id) (at_ s0 id f r))) as Htr.
  { destruct (record_first rm) eqn:Er.
    - simpl. rewrite at_record, !at_files, at_gone by done. repeat (apply Forall_cons; split); try apply Forall_nil; try done;
        intros _; try exact H0; by apply whole_at.
    - apply Forall_forall. intros x _ Hx. congruence. }
  assert (foldl (λ s g, g s) (at_ s0 id f r) (remove_steps (record_first rm) id) = s0) as Hend.
  { destruct (record_first rm); simpl; by rewrite ?at_record, ?at_files, ?at_record, ?at_gone. }
  destruct (stops_after rm) as [n|].
  - unfold bind. rewrite touches_eq. simpl. rewrite (right_id_L [] (++)). split_and!; [by apply trail_take| |done].
    pose proof (run_take n (remove_steps (record_first rm) id) (at_ s0 id f r)) as Hin.
    apply elem_of_cons in Hin as [->|Hin]; [done|]. rewrite Forall_forall in Htr. by apply Htr.
  - unfold bind. rewrite touches_eq, Hend. unfold check.
    destruct sync; simpl; rewrite (right_id_L [] (++)); (split_and!; [done|by intros _|done]).
Qed.

Section Creating.
Context (s0 : snaps) (c : snap_calls) (H0 : visible_whole s0) (Hids : ids_ok (sc_claim c)).

(** How a refusal leaves the records, where its cleanup works. *)
Definition unchanged (s : snaps) : Prop := (∀ id, SGet s id = SGet s0 id) ∧ slinks s = slinks s0.

Lemma unchanged_start : unchanged s0.
Proof. done. Qed.

Let kept : snaps → Prop := kept_by (sc_remove c).

Lemma claim_triple_s attempts ids : (∀ id, Some id ∈ ids → generated id) →
  triple kept (λ s, s = s0) (sclaim_go (sc_claim c) attempts ids)
    (λ a s, match a with
            | Ok id => generated id ∧ sdirs s0 !! id = None ∧ s = at_ s0 id NoFiles None
            | Err _ => unchanged s
            end).
Proof.
  revert ids. induction attempts as [|n IH]; intros [|[id|] ids] Hg; simpl; try (apply triple_fail; by intros s _ ->).
  intros s Hk ->. unfold bind, ask. case_bool_decide as Hd.
  - specialize (IH ids ltac:(intros x Hx; apply Hg; by right) s0 Hk eq_refl). by destruct (sclaim_go _ n ids s0) as [[t s1] a].
  - assert (sdirs s0 !! id = None) as Hfree by (by apply eq_None_not_Some).
    assert (set_sdirs <[id := SDir NoFiles None]> s0 = at_ s0 id NoFiles None) as Eat by done.
    assert (kept (at_ s0 id NoFiles None)) as Hat by (by apply kept_at, own_none).
    unfold check. destruct (mkdir_ok (sc_claim c)); simpl; [|split; [apply Forall_nil_2; done|by split]]. destruct (parent_sync (sc_claim c)); simpl; rewrite Eat;
      (split; [by apply Forall_singleton|split; [done|]]).
    + split_and!; [apply Hg; by left|done|done].
    + split; [|done]. by apply unlisted_get.
Qed.

(** What a refused create leaves, and what one that worked leaves. *)
Definition refusal (s : snaps) : Prop := stops_after (sc_remove c) = None → sc_link c ≠ LinkSyncFails → unchanged s.

Definition made (snap0 snap : Snapshot_) (s : snaps) : Prop :=
  ∃ size, snap = set_size (SnID snap) size snap0 ∧ generated (SnID snap) ∧ sdirs s0 !! SnID snap = None ∧
    sdirs s = <[SnID snap := SDir WholeFiles (Some (SnapOf snap))]> (sdirs s0) ∧
    slinks s = (if String.eqb (SnName snap0) "" then slinks s0 else <[SnName snap0 := Link (snap_target (SnID snap))]> (slinks s0)).

(** One step of the create that only moves the directory it claimed, and gives it back when it is refused. *)
Lemma gone_triple {A} id (m : snop A) (P : snaps → Prop) (M : A → snaps → Prop) :
  sdirs s0 !! id = None →
  triple kept P m (λ a s, match a with Ok a => M a s | Err _ => ∃ f r, own id f r ∧ s = at_ s0 id f r end) →
  triple kept P (or_undo m (abandon (sc_remove c) (sc_sync c) id)) (λ a s, match a with Ok a => M a s | Err _ => refusal s end).
Proof.
  intros Hfree Hm. eapply triple_or_undo; [exact Hm|]. intros _ s Hk (f & r & Hr & ->).
  pose proof (remove_triple (sc_remove c) (sc_sync c) s0 id f r H0 Hfree Hr _ Hk eq_refl) as Ht.
  destruct (abandon _ _ _ _) as [[t s1] a]. destruct Ht as (? & ? & Hs). split_and!; [done|done|].
  intros Hst _. rewrite (Hs Hst). apply unchanged_start.
Qed.

(** The name check before the copy, which changes nothing. *)
Lemma name_triple (snap : Snapshot_) :
  triple kept (λ s, s = s0)
    (if String.eqb (SnName snap) "" then ret tt
     else _ <~ ask (λ _, map_err SSpelling (ValidSnapshotName (SnName snap))) ;;
          taken <~ ask (λ s, Ok (if slinks s !! SnName snap then Some (sholder s (SnName snap)) else None)) ;;
          match taken with Some h => fail (SNameTaken h) | None => ret tt end)
    (λ a s, s = s0 ∧ (a = Ok tt → SnName snap = "" ∨ slinks s0 !! SnName snap = None)).
Proof.
  intros s Hk ->. destruct (String.eqb (SnName snap) "") eqn:E.
  - split; [by apply Forall_nil_2|]. split; [done|]. split; [done|]. intros _. left. by apply String.eqb_eq.
  - unfold bind, ask. destruct (ValidSnapshotName (SnName snap)) as [u|e]; simpl.
    2:{ split; [by apply Forall_nil_2|]. split; [done|]. split; [done|]. intros [=]. }
    destruct (slinks s0 !! SnName snap) eqn:El; simpl; (split; [by apply Forall_nil_2|]); (split; [done|]); (split; [done|]); [intros [=]|by right].
Qed.

(** The claim of the name, over the whole snapshot. *)
Lemma named_triple id sn :
  sdirs s0 !! id = None → SnID sn = id →
  triple kept (λ s, s = at_ s0 id WholeFiles (Some (SnapOf sn)))
    (or_undo (sclaim (sc_link c) (SnName sn) id) (abandon (sc_remove c) (sc_sync c) id))
    (λ a s, match a with
            | Ok _ => sdirs s = <[id := SDir WholeFiles (Some (SnapOf sn))]> (sdirs s0) ∧
                slinks s = (if String.eqb (SnName sn) "" then slinks s0 else <[SnName sn := Link (snap_target id)]> (slinks s0))
            | Err _ => refusal s
            end).
Proof.
  intros Hfree Hid. assert (own id WholeFiles (Some (SnapOf sn))) as Hown by (by intros x [= <-]).
  pose proof (kept_at (sc_remove c) s0 id WholeFiles (Some (SnapOf sn)) H0 Hown) as Hat.
  destruct (sc_link c) eqn:El.
  3:{ set (b := set_slinks <[SnName sn := Link (snap_target id)]> s0).
      eapply triple_or_undo with
        (M := λ _ s, s = at_ b id WholeFiles (Some (SnapOf sn)) ∨ s = at_ s0 id WholeFiles (Some (SnapOf sn))).
      - intros s Hk ->. unfold sclaim. destruct (String.eqb (SnName sn) ""); [split; [by apply Forall_nil_2|by split]|].
        unfold bind, ask, touch, fail. destruct (ValidSnapshotName (SnName sn)); simpl; [|split; [by apply Forall_nil_2|auto]].
        destruct (slinks s0 !! SnName sn); simpl; [split; [by apply Forall_nil_2|auto]|].
        split; [by apply Forall_singleton|auto].
      - intros e s Hk Hs.
        assert (visible_whole b) as Hb by exact H0.
        assert (∃ b', visible_whole b' ∧ sdirs b' !! id = None ∧ s = at_ b' id WholeFiles (Some (SnapOf sn))) as (b' & Hb' & Hf' & ->).
        { destruct Hs as [->| ->]; [by exists b|by exists s0]. }
        pose proof (remove_triple (sc_remove c) (sc_sync c) b' id _ _ Hb' Hf' Hown _ Hk eq_refl) as Ht.
        destruct (abandon _ _ _ _) as [[t s1] a]. destruct Ht as (? & ? & _). split; [done|]. split; [done|]. intros _ Hl. done. }
  - apply gone_triple; [done|]. intros s Hk ->. unfold sclaim, bind, ask, touch, fail.
    destruct (String.eqb (SnName sn) ""); [split; [by apply Forall_nil_2|done]|].
    destruct (ValidSnapshotName (SnName sn)); simpl; [|split; [by apply Forall_nil_2|split; [done|by eexists _, _]]].
    destruct (slinks s0 !! SnName sn); simpl; [split; [by apply Forall_nil_2|split; [done|by eexists _, _]]|].
    split; [by apply Forall_singleton|]. done.
  - apply gone_triple; [done|]. intros s Hk ->. unfold sclaim, bind, ask, touch, fail.
    destruct (String.eqb (SnName sn) ""); [split; [by apply Forall_nil_2|done]|].
    destruct (ValidSnapshotName (SnName sn)); simpl; [|split; [by apply Forall_nil_2|split; [done|by eexists _, _]]].
    destruct (slinks s0 !! SnName sn); simpl; (split; [by apply Forall_nil_2|split; [done|by eexists _, _]]).
Qed.

(** A step that neither changes the directory nor answers anything. *)
Lemma gone_check id e b f r :
  sdirs s0 !! id = None → own id f r →
  triple kept (λ s, s = at_ s0 id f r) (or_undo (check e b) (abandon (sc_remove c) (sc_sync c) id))
    (λ a s, match a with Ok _ => s = at_ s0 id f r | Err _ => refusal s end).
Proof.
  intros Hfree Hr. apply gone_triple; [done|]. apply triple_check. intros s _ ->. destruct b; [done|by exists f, r].
Qed.

(** The copy of the files. *)
Lemma fill_triple id b :
  sdirs s0 !! id = None →
  triple kept (λ s, s = at_ s0 id NoFiles None)
    (or_undo (touch (shed_files SomeFiles id) ;;; check SFill b ;;; touch (shed_files WholeFiles id)) (abandon (sc_remove c) (sc_sync c) id))
    (λ a s, match a with Ok _ => s = at_ s0 id WholeFiles None | Err _ => refusal s end).
Proof.
  intros Hfree. apply gone_triple; [done|]. intros s Hk ->. unfold bind, touch, check. rewrite at_files.
  pose proof (λ f, kept_at (sc_remove c) s0 id f None H0 (own_none id f)) as Hat.
  destruct b; simpl; rewrite ?at_files.
  - split; [|split; [apply Hat|done]]. repeat (apply Forall_cons; split); [apply Hat..|by apply Forall_nil_2].
  - split; [apply Forall_singleton, Hat|]. split; [apply Hat|]. eexists _, _. split; [apply own_none|done].
Qed.

(** The write of the record. *)
Lemma swrite_triple id w sn :
  sdirs s0 !! id = None → SnID sn = id →
  triple kept (λ s, s = at_ s0 id WholeFiles None) (or_undo (swrite w sn) (abandon (sc_remove c) (sc_sync c) id))
    (λ a s, match a with Ok _ => s = at_ s0 id WholeFiles (Some (SnapOf sn)) | Err _ => refusal s end).
Proof.
  intros Hfree <-. assert (own (SnID sn) WholeFiles (Some (SnapOf sn))) as Hown by (by intros x [= <-]).
  apply gone_triple; [done|]. intros s Hk ->. unfold swrite.
  destruct (wrote w); [|split; [by apply Forall_nil_2|split; [done|by eexists _, _; split; [apply own_none|]]]].
  unfold bind, touch, check. rewrite at_put by done.
  pose proof (kept_at (sc_remove c) s0 _ _ _ H0 Hown) as Hat.
  destruct (write_ok w); simpl; (split; [by apply Forall_singleton|]); (split; [done|]); [done|]. by eexists _, _.
Qed.

Lemma create_triple snap :
  triple kept (λ s, s = s0) (SCreate c snap) (λ a s, match a with Ok sn => made snap sn s | Err _ => refusal s end).
Proof.
  unfold SCreate.
  eapply triple_bind with (M := λ _ s, s = s0); [apply triple_check; intros s _ ->; by destruct (String.eqb (SnID snap) "")|]. intros _.
  eapply triple_bind with (M := λ _ s, s = s0).
  { eapply triple_weaken; [apply name_triple|done|]. intros [u|e] s _ [-> _]; [done|]. by intros ??. }
  intros _. eapply triple_bind with (M := λ id s, generated id ∧ sdirs s0 !! id = None ∧ s = at_ s0 id NoFiles None).
  { eapply triple_weaken; [apply claim_triple_s, Hids|done|]. intros [id|e] s _ Ha; [done|]. by intros ??. }
  intros id s Hk (Hg & Hfree & Hs). revert s Hk Hs.
  eapply triple_bind; [apply gone_check; [done|apply own_none]|]. intros ?.
  eapply triple_bind; [by apply fill_triple|]. intros ?.
  eapply triple_bind with (M := λ _ s, s = at_ s0 id WholeFiles None).
  { apply gone_triple; [done|]. apply triple_ask. intros s _ ->. destruct (sc_walk c); [done|]. eexists _, _. split; [apply own_none|done]. }
  intros size. eapply triple_bind; [by apply swrite_triple|]. intros ?.
  eapply triple_bind with (M := λ _ s, made snap (set_size id size snap) s).
  { eapply triple_weaken; [by apply (named_triple id (set_size id size snap))|done|].
    intros [u|e] s _ Ha; [|exact Ha]. exists size. destruct Ha as [-> ->]. by split_and!. }
  intros _. by apply triple_ret.
Qed.

End Creating.

Lemma made_found s0 snap sn s : made s0 snap sn s →
  SGet s (SnID sn) = Ok sn ∧ (∀ id, id ≠ SnID sn → SGet s id = SGet s0 id) ∧
  (is_ok (ValidSnapshotName (SnName snap)) = true → SResolve s (SnName snap) = Ok (SnID sn)).
Proof.
  intros (size & E & Hg & Hf & Hd & Hl). pose proof (generated_ValidID _ Hg) as Hid. unfold SGet, ValidSnapshotID. rewrite Hd. split_and!.
  - by rewrite Hid, lookup_insert_eq.
  - intros id Hn. by rewrite lookup_insert_ne.
  - intros Hv. unfold ValidSnapshotName in Hv. destruct (ValidName (SnName snap)) as [[]|] eqn:Ev; [|done].
    pose proof (ValidName_plain _ Ev) as Hp. unfold SResolve. rewrite Hp, Hl. destruct (String.eqb_spec (SnName snap) "") as [En|_].
    { by rewrite En in Hp. }
    rewrite lookup_insert_eq. change (snap_target (SnID sn)) with ("../snapshots" +:+ "/" +:+ SnID sn). rewrite Base_path by done.
    unfold ValidID in Hid. by rewrite Hid.
Qed.

Section Sweeping.
Context (f : string → removing).

Lemma removed_name name s ff r s' t :
  sdirs s !! name = Some (SDir ff r) → SRemoveAll (f name) name s = (t, s', Ok tt) → s' = set_sdirs (delete name) s.
Proof.
  intros Hd. assert (s = at_ (set_sdirs (delete name) s) name ff r) as Es.
  { unfold at_, set_sdirs. simpl. rewrite insert_delete_eq, insert_id by done. by destruct s. }
  assert (sdirs (set_sdirs (delete name) s) !! name = None) as Hn by apply lookup_delete_eq.
  set (b := set_sdirs (delete name) s) in *. clearbody b. subst s. unfold SRemoveAll.
  destruct (stops_after (f name)) as [n|]; [unfold bind; rewrite touches_eq; intros; by simplify_eq/=|].
  rewrite touches_eq.
  destruct (record_first (f name)); simpl; rewrite ?at_record, ?at_files, ?at_record, ?at_gone by done; intros; by simplify_eq.
Qed.

(** What a sweep takes: the directories of its list that hold no record, and nothing else. *)
Lemma sweep_names_spec names : ∀ s t s' n, sweep_names f names s = (t, s', Ok n) →
  slinks s' = slinks s ∧ ∀ id, sdirs s' !! id = (if decide (id ∈ names ∧ cut_create s id = true) then None else sdirs s !! id).
Proof.
  induction names as [|name names IH]; intros s t s' n; cbn [sweep_names].
  { intros [= _ <- _]. split; [done|]. intros id. rewrite decide_False; [done|]. intros [H _]. by apply not_elem_of_nil in H. }
  unfold bind, ask at 1. simpl. destruct (cut_create s name) eqn:Ec.
  - destruct (SRemoveAll (f name) name s) as [[t1 s1] [[]|]] eqn:Er; [|done].
    assert (∃ ff, sdirs s !! name = Some (SDir ff None)) as [ff Hd].
    { revert Ec. unfold cut_create. destruct (sdirs s !! name) as [[|ff [r|]]|]; try done. by exists ff. }
    apply (removed_name name s ff None) in Er; [|done]. destruct (sweep_names f names s1) as [[t2 s2] [m|]] eqn:E2; [|done].
    intros [= _ <- _]. apply IH in E2 as [Hl Hs]. subst s1. split; [done|]. intros id. rewrite Hs. unfold cut_create. simpl.
    destruct (decide (id = name)) as [->|Hn].
    + rewrite lookup_delete_eq. rewrite decide_False by (by intros []). rewrite decide_True; [done|]. split; [by left|exact Ec].
    + rewrite lookup_delete_ne by done. apply decide_ext. rewrite elem_of_cons. naive_solver.
  - destruct (sweep_names f names s) as [[t2 s2] [m|]] eqn:E2; [|done]. intros [= _ <- _]. apply IH in E2 as [Hl Hs]. split; [done|].
    intros id. rewrite Hs. apply decide_ext. rewrite elem_of_cons.
    split; [by intros [? ?]; auto|]. intros [[->|?] ?]; [congruence|done].
Qed.
End Sweeping.

Lemma elem_of_snap_names {A} (m : gmap string A) id : is_Some (m !! id) → id ∈ sorted_names m.
Proof. intros H. unfold sorted_names. rewrite merge_sort_Permutation. by apply elem_of_elements, elem_of_dom. Qed.

Lemma swept_get s s' : (∀ id, sdirs s' !! id = (if cut_create s id then None else sdirs s !! id)) → ∀ id, SGet s' id = SGet s id.
Proof.
  intros H id. unfold SGet, ValidSnapshotID. rewrite H. destruct (ValidID id) eqn:Ev; [|done]. unfold cut_create, ValidSnapshotID.
  rewrite Ev. by destruct (sdirs s !! id) as [[|ff [r|]]|].
Qed.

(** The snapshot a scenario takes: of a stopped sandbox, into a directory nothing holds yet. *)
Definition nightly : Snapshot_ := MkSnapshot "" "nightly" "amber-badger-ff0a" "web" "alpine" "" "gvisor" 1024 512 0 1000.
Definition fine_claim : claim_calls := MkClaimCalls [Some "amber-badger-ff0b"] true true.
Definition fine_snap : snap_calls :=
  MkSnapCalls fine_claim true true (Some [(11, 8); (12, 16); (11, 8)]) Landed LinkFine (MkRemoving true None) true.
Definition no_snaps : snaps := MkSnaps ∅ ∅.

Lemma fine_claim_ok : ids_ok fine_claim.
Proof. intros id Hin. apply list_elem_of_singleton in Hin as [= ->]. exists 0, 1, 255, 11. by split_and!. Qed.

(** A create of a snapshot shows no half of one: at every state on its way, each record that reads back stands beside the
    whole of its files and under its own id, as long as a removal that cleans up takes the record before the files. One that
    answers a snapshot has left it to be found by its id and by its name, and left every other id as it was; one that is refused,
    whose removal is not itself cut and whose name link was not made and then refused by the sync, leaves every id and every
    name as they were. *)
Theorem snapshot_created c snap s0 :
  visible_whole s0 → ids_ok (sc_claim c) →
  (record_first (sc_remove c) = true → Forall visible_whole (states (SCreate c snap) s0)) ∧
  match SCreate c snap s0 with
  | (_, s, Ok sn) =>
      SGet s0 (SnID sn) = Err SNotFound ∧ SGet s (SnID sn) = Ok sn ∧ (∀ id, id ≠ SnID sn → SGet s id = SGet s0 id) ∧
      (is_ok (ValidSnapshotName (SnName snap)) = true → SResolve s (SnName snap) = Ok (SnID sn))
  | (_, s, Err _) => stops_after (sc_remove c) = None → sc_link c ≠ LinkSyncFails → unchanged s0 s
  end.
Proof.
  intros H0 Hids. destruct (triple_states _ _ _ _ s0 (create_triple s0 c H0 Hids snap) (λ _, H0) eq_refl) as [Hall Hq]. split.
  - intros Hr. eapply Forall_impl; [exact Hall|]. intros s Hs. by apply Hs.
  - destruct (SCreate c snap s0) as [[t s] [sn|e]]; [|exact Hq]. simpl in Hq. destruct (made_found _ _ _ _ Hq) as (? & ? & ?).
    split; [|done]. destruct Hq as (size & _ & Hg & Hf & _). unfold SGet, ValidSnapshotID. by rewrite (generated_ValidID _ Hg), Hf.
Qed.

Lemma snapshot_created_witness :
  (SCreate fine_snap nightly no_snaps).2 = Ok (set_size "amber-badger-ff0b" 12288 nightly) ∧
  Forall visible_whole (states (SCreate fine_snap nightly) no_snaps).
Proof.
  split; [vm_compute; reflexivity|]. refine (proj1 (snapshot_created fine_snap nightly no_snaps _ fine_claim_ok) eq_refl).
  intros id f snap H. discriminate H.
Defined.

(** A sweep at the start of the daemon that answers has left no directory of a create that was cut, and every snapshot
    as it was: the record of every id and every name. *)
Theorem sweep_clears f sync s :
  match SSweep f sync s with
  | (_, s', Ok _) => (∀ name, cut_create s' name = false) ∧ (∀ id, SGet s' id = SGet s id) ∧ slinks s' = slinks s
  | (_, _, Err _) => True
  end.
Proof.
  unfold SSweep, bind. destruct (sweep_names f (sorted_names (sdirs s)) s) as [[t s1] [n|]] eqn:E; [|done].
  apply sweep_names_spec in E as [Hl Hs].
  assert (∀ id, sdirs s1 !! id = (if cut_create s id then None else sdirs s !! id)) as Hs'.
  { intros id. rewrite Hs. destruct (cut_create s id) eqn:Ec.
    - rewrite decide_True; [done|]. split; [|done]. apply elem_of_snap_names. revert Ec. unfold cut_create. by destruct (sdirs s !! id).
    - by rewrite decide_False by (by intros []). }
  assert ((∀ name, cut_create s1 name = false) ∧ (∀ id, SGet s1 id = SGet s id) ∧ slinks s1 = slinks s) as Hall.
  { split; [|split; [by apply swept_get|done]]. intros name. unfold cut_create at 1. rewrite Hs'.
    destruct (cut_create s name) eqn:Ec; [done|]. exact Ec. }
  destruct (Nat.eqb n 0); [exact Hall|]. unfold check. by destruct sync.
Qed.

(** A delete can be cut after it has taken some of the files and before it takes the record: what is left is a snapshot every
    verb still finds, without the whole of its files, and no sweep takes it. The repository of the sandboxes moves a directory
    aside before it removes it, which this one does not. *)
Definition one_snap : snaps := (SCreate fine_snap nightly no_snaps).1.2.

Theorem delete_leaves_torn :
  let '(_, s, a) := SDelete true (MkRemoving false (Some 1%nat)) true "amber-badger-ff0b" one_snap in
  a = Err SRemove ∧ is_ok (SGet s "amber-badger-ff0b") = true ∧ ¬ visible_whole s ∧ (SSweep (λ _, MkRemoving true None) true s).1.2 = s.
Proof.
  set (x := SDelete _ _ _ _ _). vm_compute in x. subst x. split_and!; [reflexivity|reflexivity| |reflexivity].
  intros H. by destruct (H "amber-badger-ff0b" SomeFiles _ eq_refl).
Qed.
