(* ===== verification/Moves.v ===== *)
(** * What one change of a verb may do

    The relation [moves] between two states a verb goes through one after the other: the records of other
    sandboxes stay as they are, the record of its own makes a legal move of the lifecycle machine or none, and two
    invariants are kept: records are well formed, and the host holds nothing for an id with no record. [keeps id A m B]
    is the judgement the verbs are checked by: started with the record of [id] in a state of [A], every change of [m]
    is such a move, and whatever [m] answers, the record is then in a state of [B]. *)

From S2P Require Import Prelude Ops Paths GoStrings Netip Models SandboxFields Restart Store Secret SandboxID Repository ExecTable Host.
Local Open Scope Z_scope.
Local Open Scope op_scope.

(** ** The abstract machine of one sandbox: a record that is not there, or in a state *)

Inductive life_move : option State → option State → Prop :=
| life_same a : life_move a a
| life_born s : s = StatePending ∨ s = StateCreated → life_move None (Some s)
| life_moved s t : CanTransitionTo s t = true → life_move (Some s) (Some t)
| life_freed s : life_move (Some s) None.

(** ** What the host holds

    [leased] and [substrate] are the ids the network and the substrate hold something for: an allocation may add
    the id it is for, whatever it answers, and a release that succeeds gives it up; no other call adds one. *)

Definition leased_after {A} (c : call A) : A → gset string → gset string :=
  match c with
  | NAllocate id => λ _ l, {[id]} ∪ l
  | NRelease id => λ a l, match a with Ok _ => l ∖ {[id]} | Err _ => l end
  | _ => λ _ l, l
  end.

Definition substrate_after {A} (c : call A) : A → gset string → gset string :=
  match c with
  | PCreate spec => λ _ l, {[SpID spec]} ∪ l
  | PFork _ spec => λ _ l, {[SpID spec]} ∪ l
  | PStart id => λ _ l, {[id]} ∪ l
  | PResume id _ => λ _ l, {[id]} ∪ l
  | PRemove id => λ a l, match a with Ok _ => l ∖ {[id]} | Err _ => l end
  | _ => λ _ l, l
  end.

Class Holdings `{Host} : Type := {
  leased : W → gset string;
  substrate : W → gset string;
  leased_law : ∀ A (c : call A) w, leased (perform c w).1 ⊆ leased_after c (perform c w).2 (leased w);
  substrate_law : ∀ A (c : call A) w, substrate (perform c w).1 ⊆ substrate_after c (perform c w).2 (substrate w);
  (** the random source makes ids of the one shape *)
  created_ids : ∀ res w, ids_ok (cc_claim (perform (RCreate res) w).2)
}.

(** The id a call may claim something for. *)
Definition claims {A} (c : call A) : option string :=
  match c with
  | NAllocate id | PStart id | PResume id _ => Some id
  | PCreate spec | PFork _ spec => Some (SpID spec)
  | _ => None
  end.

(** ** Records *)

Definition state_of (r : repo) (id : string) : option State := SState <$> record r id.

Definition well_formed (r : repo) : Prop :=
  ∀ id sb, ValidID id = Ok tt → record r id = Some sb → ID sb = id ∧ State_Valid (SState sb) = true.

Definition others_same (id : string) (r r' : repo) : Prop :=
  ∀ id', ValidID id' = Ok tt → id' ≠ id → record r' id' = record r id'.

Record repo_moves (id : string) (r r' : repo) : Prop := {
  rm_others : others_same id r r';
  rm_legal : life_move (state_of r id) (state_of r' id);
  rm_formed : well_formed r → well_formed r'
}.

Section Moves.
Context `{Hst : Host} {Hld : Holdings}.

Definition no_orphans (s : service) : Prop :=
  ∀ id, ValidID id = Ok tt → id ∈ leased (host s) ∪ substrate (host s) → is_Some (record (repo_of s) id).

Record moves (id : string) (s s' : service) : Prop := {
  mv_repo : repo_moves id (repo_of s) (repo_of s');
  mv_orphans : no_orphans s → no_orphans s'
}.

Definition at_ (id : string) (A : list State) (s : service) : Prop :=
  ∃ sb, record (repo_of s) id = Some sb ∧ SState sb ∈ A.

Definition keeps {X} (id : string) (A : list State) (m : sop X) (B : list State) : Prop :=
  path (moves id) (at_ id A) m (λ _ s, at_ id B s).

(** ** Calls *)

Lemma repo_moves_refl id r : repo_moves id r r.
Proof. split; [done|constructor|done]. Qed.

Lemma no_orphans_call {A} (c : call A) (s : service) :
  (∀ i, claims c = Some i → is_Some (record (repo_of s) i)) →
  no_orphans s → no_orphans (set_host (perform c (host s)).1 s).
Proof.
  intros Hc Hn i Hv. unfold set_host. cbn [repo_of host]. intros Hi. apply elem_of_union in Hi as [Hi|Hi].
  - apply leased_law in Hi. revert Hc Hi. generalize (perform c (host s)).2.
    destruct c; simpl; intros a Hc Hi; try (apply Hn; [done|set_solver]).
    + apply elem_of_union in Hi as [->%elem_of_singleton|]; [by apply Hc|apply Hn; [done|set_solver]].
    + apply Hn; [done|]. destruct a; set_solver.
  - apply substrate_law in Hi. revert Hc Hi. generalize (perform c (host s)).2.
    destruct c; simpl; intros a Hc Hi; try (apply Hn; [done|set_solver]);
      try (apply elem_of_union in Hi as [->%elem_of_singleton|]; [by apply Hc|apply Hn; [done|set_solver]]).
    apply Hn; [done|]. destruct a; set_solver.
Qed.

Lemma call_moves {A} id (c : call A) s :
  (∀ i, claims c = Some i → is_Some (record (repo_of s) i)) → moves id s (set_host (perform c (host s)).1 s).
Proof. intros Hc. split; [apply repo_moves_refl|by apply no_orphans_call]. Qed.

Lemma path_call {A} id (c : call A) (P : repo → Prop) :
  (∀ r, P r → ∀ i, claims c = Some i → is_Some (record r i)) →
  path (moves id) (λ s, P (repo_of s)) (do_call c) (λ _ s, P (repo_of s)).
Proof.
  intros Hc s Hp. unfold do_call. pose proof (call_moves id c s (Hc _ Hp)) as Hm.
  destruct (perform c (host s)) as [w a]. simpl in *. done.
Qed.

Definition own_claim {A} (id : string) (c : call A) : Prop := ∀ i, claims c = Some i → i = id.

Lemma keeps_call {A} id L (c : call A) : own_claim id c → keeps id L (do_call c) L.
Proof.
  intros Hc. unfold keeps. apply (path_call id c (λ r, ∃ sb, record r id = Some sb ∧ SState sb ∈ L)).
  intros r (sb & Hr & _) i Hi. rewrite (Hc i Hi). by exists sb.
Qed.

(** ** Structure *)

Lemma at_mono id A B s : A ⊆ B → at_ id A s → at_ id B s.
Proof. intros H (sb & ? & ?). exists sb. split; [done|]. by apply H. Qed.

Lemma keeps_mono {X} id A A' (m : sop X) B B' : keeps id A m B → A' ⊆ A → B ⊆ B' → keeps id A' m B'.
Proof. intros H HA HB. eapply path_weaken; [exact H|..]; intros; by eapply at_mono. Qed.

Lemma keeps_bind {X Y} id A (m : sop X) (k : X → sop Y) B C :
  keeps id A m B → B ⊆ C → (∀ x, keeps id B (k x) C) → keeps id A (bind m k) C.
Proof.
  intros Hm HB Hk. eapply path_bind with (M := λ _ s, at_ id B s).
  - eapply path_post; [exact Hm|]. intros [x|e] s H; [done|by eapply at_mono].
  - intros x. exact (Hk x).
Qed.

Lemma keeps_ret {X} id A (x : X) : keeps id A (ret x) A.
Proof. by apply path_ret. Qed.
Lemma keeps_fail {X} id A e : keeps id A (fail e : sop X) A.
Proof. by apply path_fail. Qed.
Lemma keeps_ask {X} id A (f : service → result service_error X) : keeps id A (ask f) A.
Proof. by apply path_ask. Qed.
Lemma keeps_of_result {X} id A (x : result service_error X) : keeps id A (of_result x) A.
Proof. destruct x; [apply keeps_ret|apply keeps_fail]. Qed.
Lemma keeps_check id A e b : keeps id A (check e b) A.
Proof. apply path_check. intros. by destruct b. Qed.
Lemma keeps_read {X} id A (f : W → X) : keeps id A (read_host f) A.
Proof. apply keeps_ask. Qed.

Lemma keeps_attempt {X} id A (m : sop X) B : keeps id A m B → keeps id A (attempt m) B.
Proof. intros H s Hs. specialize (H s Hs). unfold attempt. destruct (m s) as [[t s'] a]. exact H. Qed.

Lemma keeps_try {X} id A (c : call (answer X)) : own_claim id c → keeps id A (try c) A.
Proof.
  intros Hc. eapply keeps_bind; [by apply keeps_call|done|]. intros [x|e]; [apply keeps_ret|apply keeps_fail].
Qed.

(** The table of execs is no part of a record. *)
Lemma keeps_touch_table id A f : keeps id A (touch (λ s, set_table (f s) s)) A.
Proof. apply path_touch. intros s Hs. split; [|done]. split; [apply repo_moves_refl|done]. Qed.

(** ** Reading the record *)

Lemma Get_record r id sb : Get r id = Ok sb ↔ ValidID id = Ok tt ∧ record r id = Some sb.
Proof.
  unfold Get, record. destruct (ValidID id) as [[]|]; [|naive_solver].
  destruct (dirs r !! id) as [[|[[]|]]|]; naive_solver.
Qed.

Lemma keeps_get {Y} id A (k : Sandbox → sop Y) C :
  A ⊆ C → (∀ sb, SState sb ∈ A → keeps id [SState sb] (k sb) C) → keeps id A (bind (getRecord id) k) C.
Proof.
  intros HA Hk s (sb & Hr & Hs). unfold bind, getRecord, ask. destruct (Get (repo_of s) id) as [sb'|e] eqn:E; simpl.
  - apply Get_record in E as [_ E]. rewrite Hr in E. injection E as <-.
    specialize (Hk sb Hs s (ex_intro _ sb (conj Hr (proj2 (list_elem_of_singleton _ _) eq_refl)))). destruct (k sb s) as [[t s'] b]. exact Hk.
  - split; [done|]. by eapply at_mono; [|exists sb].
Qed.

(** ** Changing the record *)

Lemma legal_keep s t : s = t ∨ CanTransitionTo s t = true → life_move (Some s) (Some t).
Proof. intros [->|?]; by constructor. Qed.

Lemma json_state_valid s : State_Valid s = true → json_state s = s.
Proof. by destruct s. Qed.

Definition landed (sb : Sandbox) (r : repo) : repo := set_dirs <[ID sb := EntryDir (Some (RecordOf (json_sandbox sb)))]> r.

Lemma record_landed sb r id : record (landed sb r) id = if decide (ID sb = id) then Some (json_sandbox sb) else record r id.
Proof. unfold landed. rewrite record_insert. done. Qed.

Lemma landed_others sb r : others_same (ID sb) r (landed sb r).
Proof. intros id' Hv' Hne. rewrite record_landed, decide_False; [done|]. congruence. Qed.

Lemma landed_state sb r : State_Valid (SState sb) = true → state_of (landed sb r) (ID sb) = Some (SState sb).
Proof. intros Hs. unfold state_of. rewrite record_landed, decide_True by done. simpl. by rewrite json_state_valid. Qed.

Lemma landed_formed sb r :
  ValidID (ID sb) = Ok tt → State_Valid (SState sb) = true → well_formed r → well_formed (landed sb r).
Proof.
  intros Hv Hs Hw id' sb' Hv'. rewrite record_landed. case_decide as E; [|by apply Hw]. intros [= <-].
  cbn [ID SState json_sandbox]. rewrite ValidID_json, json_state_valid by done. done.
Qed.

(** A record written over one in a state it may move from. *)
Lemma landed_moves id old sb r :
  ValidID id = Ok tt → record r id = Some old → ID sb = id → State_Valid (SState sb) = true →
  SState old = SState sb ∨ CanTransitionTo (SState old) (SState sb) = true →
  repo_moves id r (landed sb r).
Proof.
  intros Hv Hold <- Hs Hl. split; [apply landed_others| |by apply landed_formed].
  rewrite landed_state by done. unfold state_of. rewrite Hold. by apply legal_keep.
Qed.

Lemma bump_moves id r : repo_moves id r (bump r).
Proof. by destruct (repo_moves_refl id r). Qed.

Lemma write_followed w sb r :
  (∃ x, dirs r !! ID sb = Some (EntryDir x)) →
  write w sb r = if wrote w then ([landed sb r; bump (landed sb r)], bump (landed sb r), if write_ok w then Ok tt else Err EWriteRecord)
                 else ([bump r], bump r, Err EWriteRecord).
Proof. intros [x E]. unfold write, deferred, bind, ask. rewrite E. by destruct w. Qed.

Lemma Update_eq w id f r sb sb' :
  Get r id = Ok sb → f sb = Some sb' → ID sb' = id → Name sb' = Name sb → State_Valid (SState sb') = true →
  Update w id f r = write w sb' r.
Proof.
  intros Eg Ef Hid Hn Hs. unfold Update, bind, ask, check, ret. rewrite Eg, Ef, Hid, Hn, !String.eqb_refl, Hs.
  by destruct (write w sb' r) as [[]].
Qed.

(** What an update does, followed: nothing, a move of the generation only, or the record and then the generation. *)
Lemma Update_run w id f r :
  (∃ e, Update w id f r = ([], r, Err e)) ∨
  ∃ sb sb', ValidID id = Ok tt ∧ record r id = Some sb ∧ f sb = Some sb' ∧ ID sb' = id ∧ State_Valid (SState sb') = true ∧
    ((∃ e, Update w id f r = ([bump r], bump r, Err e)) ∨
     Update w id f r = ([landed sb' r; bump (landed sb' r)], bump (landed sb' r), if write_ok w then Ok tt else Err EWriteRecord)).
Proof.
  destruct (Get r id) as [sb|e] eqn:Eg; [|left; exists e; unfold Update, bind, ask; by rewrite Eg].
  pose proof (proj1 (Get_record _ _ _) Eg) as [Hv Hr]. destruct (f sb) as [sb'|] eqn:Ef;
    [|left; exists EMutate; unfold Update, bind, ask; by rewrite Eg, Ef].
  destruct (String.eqb_spec (ID sb') id) as [Hid|Hid];
    [|left; exists EChangedID; unfold Update, bind, ask, check; apply String.eqb_neq in Hid; by rewrite Eg, Ef, Hid].
  destruct (String.eqb_spec (Name sb') (Name sb)) as [Hn|Hn];
    [|left; exists EChangedName; unfold Update, bind, ask, check, ret; apply String.eqb_neq in Hn; by rewrite Eg, Ef, Hid, String.eqb_refl, Hn].
  destruct (State_Valid (SState sb')) eqn:Hs;
    [|left; exists EUnknownState; unfold Update, bind, ask, check, ret; by rewrite Eg, Ef, Hid, Hn, !String.eqb_refl, Hs].
  right. exists sb, sb'. do 5 (split; [done|]). rewrite (Update_eq w id f r sb sb' Eg Ef Hid Hn Hs), write_followed.
  - destruct w; simpl; eauto.
  - rewrite Hid. unfold record in Hr. destruct (dirs r !! id) as [[]|]; naive_solver.
Qed.

Lemma at_bump id A s : at_ id A (set_repo (bump (repo_of s)) s) ↔ at_ id A s.
Proof. done. Qed.

Lemma set_repo_moves id r' s :
  repo_moves id (repo_of s) r' → (∀ i, ValidID i = Ok tt → is_Some (record (repo_of s) i) → is_Some (record r' i)) →
  moves id s (set_repo r' s).
Proof. intros Hm Hi. split; [done|]. intros Hn i Hv Hin. apply Hi; [done|]. by apply Hn. Qed.

Lemma landed_keeps sb r i : is_Some (record r i) → is_Some (record (landed sb r) i).
Proof. intros H. rewrite record_landed. by case_decide. Qed.

Lemma keeps_update id f A T :
  (∀ sb sb', SState sb ∈ A → f sb = Some sb' →
     SState sb' ∈ T ∧ (SState sb = SState sb' ∨ CanTransitionTo (SState sb) (SState sb') = true)) →
  path (moves id) (at_ id A) (update id f) (λ a s, match a with Ok _ => at_ id T s | Err _ => at_ id (A ++ T) s end).
Proof.
  intros Hf. unfold update. eapply path_bind with (M := λ _, at_ id A).
  { eapply path_post; [by apply (keeps_call id A)|]. intros [w|e] s H; [done|]. eapply at_mono; [|done]. set_solver. }
  intros w s (sb & Hr & Hs). unfold on_repo.
  destruct (Update_run w id f (repo_of s)) as [[e ->]|(sb0 & sb' & Hv & Hr' & Ef & Hid & Hvs & Hrun)].
  { simpl. split; [by destruct s|]. exists sb. split; [done|]. set_solver. }
  rewrite Hr in Hr'. injection Hr' as <-. destruct (Hf sb sb' Hs Ef) as [Ht Hl]. destruct Hrun as [[e ->]| ->]; simpl.
  - split; [|exists sb; split; [done|set_solver]]. split; [|done]. apply set_repo_moves; [apply bump_moves|done].
  - assert (Hat : record (bump (landed sb' (repo_of s))) id = Some (json_sandbox sb')).
    { change (record (bump (landed sb' (repo_of s))) id) with (record (landed sb' (repo_of s)) id).
      by rewrite record_landed, decide_True. }
    assert (Hin : SState (json_sandbox sb') ∈ T) by (cbn [SState json_sandbox]; by rewrite json_state_valid).
    split_and!.
    + apply set_repo_moves; [by apply (landed_moves id sb)|]. intros. by apply landed_keeps.
    + apply (set_repo_moves id (bump (landed sb' (repo_of s))) (set_repo (landed sb' (repo_of s)) s)); [apply bump_moves|done].
    + done.
    + destruct (write_ok w); simpl; exists (json_sandbox sb'); (split; [done|set_solver]).
Qed.

(** The states a closure may leave a record in. *)
Definition lands (f : Sandbox → Sandbox) (A T : list State) : Prop :=
  ∀ sb, SState sb ∈ A → SState (f sb) ∈ T ∧ (SState sb = SState (f sb) ∨ CanTransitionTo (SState sb) (SState (f sb)) = true).

Lemma path_mutate id f A T :
  lands f A T →
  path (moves id) (at_ id A) (mutate id f) (λ a s, match a with Ok _ => at_ id T s | Err _ => at_ id (A ++ T) s end).
Proof. intros Hf. apply keeps_update. intros sb sb' Hs [= <-]. by apply Hf. Qed.

Lemma keeps_mutate_bind {Y} id f A T (k : unit → sop Y) C :
  lands f A T → A ++ T ⊆ C → keeps id T (k tt) C → keeps id A (bind (mutate id f) k) C.
Proof.
  intros Hf HC Hk. eapply path_bind with (M := λ _, at_ id T).
  - eapply path_post; [by apply path_mutate|]. intros [x|e] s H; [done|by eapply at_mono].
  - intros []. exact Hk.
Qed.

Lemma keeps_mutate id f A T : lands f A T → keeps id A (mutate id f) (A ++ T).
Proof.
  intros Hf. eapply path_post; [by apply path_mutate|]. intros [x|e] s H; [|done]. eapply at_mono; [|done]. set_solver.
Qed.

(** A closure that leaves the state alone. *)
Lemma keeps_mutate_same id f A : (∀ sb, SState (f sb) = SState sb) → keeps id A (mutate id f) A.
Proof.
  intros Hf. eapply keeps_mono; [eapply (keeps_mutate id f A A)|done|set_solver].
  intros sb Hs. rewrite Hf. auto.
Qed.

Lemma keeps_update_same id f A : (∀ sb sb', f sb = Some sb' → SState sb' = SState sb) → keeps id A (update id f) A.
Proof.
  intros Hf. eapply path_post; [eapply (keeps_update id f A A)|].
  - intros sb sb' Hs E. rewrite (Hf _ _ E). auto.
  - intros [x|e] s H; [done|]. eapply at_mono; [|done]. set_solver.
Qed.

(** A change of the repository that is no change of a record. *)
Lemma keeps_on_repo {X} id A (m : op repo repo_error X) :
  (∀ r, let '(t, r', _) := m r in Forall (λ r1, dirs r1 = dirs r) t ∧ dirs r' = dirs r ∧ r' = default r (last t)) →
  keeps id A (on_repo m) A.
Proof.
  intros Hm s (sb & Hr & Hs). specialize (Hm (repo_of s)). unfold on_repo. destruct (m (repo_of s)) as [[t r'] a].
  destruct Hm as (Ht & Hd & Hlast). simpl.
  assert (Hrec : ∀ r1 i, dirs r1 = dirs (repo_of s) → record r1 i = record (repo_of s) i) by (intros r1 i E; unfold record; by rewrite E).
  split; [|exists sb; split; [unfold set_repo; cbn [repo_of]; by rewrite Hrec|done]].
  assert (Hgen : ∀ t (r0 : repo), dirs r0 = dirs (repo_of s) → Forall (λ r1, dirs r1 = dirs (repo_of s)) t →
    chain (moves id) (set_repo r0 s) ((λ r, set_repo r s) <$> t) (set_repo (default r0 (last t)) s)).
  { clear -Hrec. intros t. induction t as [|x t IH]; intros r0 H0 Hf; [done|]. apply Forall_cons in Hf as [Hx Hf].
    rewrite fmap_cons. split.
    - assert (Hsame : ∀ i, record x i = record r0 i) by (intros i; by rewrite (Hrec x i Hx), (Hrec r0 i H0)).
      apply (set_repo_moves id x (set_repo r0 s)); [|intros i _ Hi; cbn [repo_of set_repo] in Hi; rewrite Hsame; exact Hi].
      cbn [repo_of set_repo]. split.
      + intros i _ _. apply Hsame.
      + unfold state_of. rewrite Hsame. constructor.
      + intros Hw i sb Hv. rewrite Hsame. by apply Hw.
    - replace (default r0 (last (x :: t))) with (default x (last t)) by (rewrite last_cons; by destruct (last t)).
      by apply IH. }
  rewrite Hlast. specialize (Hgen t (repo_of s) eq_refl Ht). destruct s. exact Hgen.
Qed.

End Moves.
