(* ===== verification/Lab.v ===== *)
(** * A host to try the verbs on

    A small substrate and network whose every call succeeds: what the theorems about the service ask of a host can be
    had, and the verbs can be run on it. Beside it, the same with a substrate that holds what it is asked to create and
    refuses it. *)

From S2P Require Import Prelude Ops GoStrings Netip Models SandboxFields Restart Store Secret SandboxID Repository ExecTable Host Moves.
Local Open Scope Z_scope.

(** Who has an address, whom the substrate holds, who runs there, and the time. *)
Record bench : Type := MkBench { b_leased : gset string; b_held : gset string; b_up : gset string; b_now : Z }.

Definition empty_bench : bench := MkBench ∅ ∅ ∅ 1.

Definition bench_status (up : bool) : Status := MkStatus up (if up then StateRunning else StateStopped) (if up then 7 else 0) false "" "" false.

Definition bench_net : NetworkSpec := MkNetworkSpec "/run/netns/a" (MkPrefix (Addr4 2886729730) 16) (Addr4 2886729729) "shard0" [].
Definition bench_image : Image_ := MkImage "/rootfs" "" "" "sha256:1" (MkImageConfig ["PATH=/bin"] "/" "root").
Definition bench_snapshot : Snapshot_ := MkSnapshot "snap" "" "" "" "alpine" "sha256:1" "lab" 0 0 0 1.
Definition bench_delete : delete_calls := MkDeleteCalls true true true true "t" (λ _, TrashGone) true.

Definition hold (id : string) (b : bench) : bench := MkBench (b_leased b) ({[id]} ∪ b_held b) (b_up b) (b_now b).
Definition up (id : string) (b : bench) : bench := MkBench (b_leased b) ({[id]} ∪ b_held b) ({[id]} ∪ b_up b) (b_now b).
Definition down (id : string) (b : bench) : bench := MkBench (b_leased b) (b_held b) (b_up b ∖ {[id]}) (b_now b).

Definition bench_perform {A} (c : call A) : bench → bench * A :=
  match c in call A return bench → bench * A with
  | PCheckResources _ => λ b, (b, Ok tt)
  | PStatus id => λ b, (b, Ok (bench_status (bool_decide (id ∈ b_up b))))
  | PCreate spec => λ b, (hold (SpID spec) b, Ok tt)
  | PStart id => λ b, (up id b, Ok tt)
  | PStop id _ => λ b, (down id b, Ok tt)
  | PRemove id => λ b, (MkBench (b_leased b) (b_held b ∖ {[id]}) (b_up b ∖ {[id]}) (b_now b), Ok tt)
  | PPause id _ => λ b, (down id b, Ok tt)
  | PResume id _ => λ b, (up id b, Ok tt)
  | PFork _ spec => λ b, (up (SpID spec) b, Ok tt)
  | PAdoptStaging _ => λ b, (b, Ok tt)
  | PStartProcess _ _ => λ b, (b, Ok tt)
  | PStopProcess _ _ _ => λ b, (b, Ok tt)
  | PProcesses _ => λ b, (b, Ok [])
  | PLogSize _ _ => λ b, (b, Ok 0)
  | PReclaim _ => λ b, (b, Ok tt)
  | PRelease _ _ => λ b, (b, Ok tt)
  | PReleaseDisk _ => λ b, (b, tt)
  | NAllocate id => λ b, (MkBench ({[id]} ∪ b_leased b) (b_held b) (b_up b) (b_now b), Ok bench_net)
  | NRelease id => λ b, (MkBench (b_leased b ∖ {[id]}) (b_held b) (b_up b) (b_now b), Ok tt)
  | NReapply _ => λ b, (b, Ok tt)
  | NReapplyAll => λ b, (b, Ok tt)
  | FOpen _ _ => λ b, (b, Ok tt)
  | FSet _ _ => λ b, (b, Ok tt)
  | FClose _ _ => λ b, (b, Ok tt)
  | FCloseSandbox _ => λ b, (b, Ok tt)
  | FSandboxes => λ b, (b, [])
  | FProbe _ => λ b, (b, Ok tt)
  | ICanonical ref => λ b, (b, Ok ref)
  | IPull _ => λ b, (b, Ok bench_image)
  | ILookup _ => λ b, (b, Ok (Some bench_image))
  | SGet _ => λ b, (b, Ok "mock-TOKEN")
  | PolicyGet name => λ b, (b, Ok (MkPolicy name []))
  | ProxyCA => λ b, (b, Ok "pem")
  | SnapResolve ref => λ b, (b, Ok ref)
  | SnapGet _ => λ b, (b, Ok bench_snapshot)
  | SnapFiles _ => λ b, (b, Ok "files")
  | SnapCreate snap => λ b, (b, Ok snap)
  | SnapDelete _ => λ b, (b, Ok tt)
  | EnvOpen _ => λ b, (b, Ok tt)
  | EnvCanSet _ _ => λ b, (b, Ok tt)
  | EnvTrust _ _ => λ b, (b, Ok tt)
  | EnvSet _ _ _ => λ b, (b, Ok tt)
  | EnvRemove _ _ => λ b, (b, Ok tt)
  | CkRemoveFile _ => λ b, (b, Ok tt)
  | CkHeld _ => λ b, (b, Ok true)
  | CkStaging _ => λ b, (b, Ok false)
  | ReleaseRoot => λ b, (b, Ok tt)
  | RWrite => λ b, (b, Landed)
  | RCreate _ => λ b, (b, fine_create)
  | RDelete => λ b, (b, bench_delete)
  | RRemoveCheckpoint _ => λ b, (b, true)
  | LLock _ => λ b, (b, true)
  | LTryLock _ => λ b, (b, true)
  | PullEndedBy _ => λ b, (b, None)
  | Sleep d => λ b, (MkBench (b_leased b) (b_held b) (b_up b) (b_now b + Z.max 0 d), tt)
  end.

Definition lab_of (p : ∀ A, call A → bench → bench * A) : Host := {|
  W := bench;
  perform := p;
  ctx_ended := λ _, false;
  budget_spent := λ _, false;
  clock := b_now;
  provider_name := "lab";
  capabilities := MkCapabilities true true true true true;
  reclaims := true;
  releases := true;
  admits_disk := false;
  default_memory := Some 512;
  guest_kernel := Some "6.1";
  host_memory_mib := 65536;
  host_cpus := 8;
  has_proxy_ca := true;
  stop_settle := 0;
  error_text := λ _, "it failed";
  public_text := λ _, None;
  fork_check := λ _, true
|}.

#[export] Instance lab : Host := lab_of (@bench_perform).

Lemma lab_ids res w : ids_ok (cc_claim (perform (RCreate res) w).2).
Proof. apply one_id_ok. Qed.

#[export] Instance lab_holdings : Holdings.
Proof.
  refine {| leased := b_leased; substrate := b_held; created_ids := lab_ids |}; intros A c w; destruct c; simpl; set_solver.
Defined.

(** *** A substrate that refuses a create it has begun *)

Definition refusing_perform {A} (c : call A) : bench → bench * A :=
  match c in call A return bench → bench * A with
  | PCreate spec => λ b, (hold (SpID spec) b, Err CFails)
  | c => bench_perform c
  end.

Definition refusing_lab : Host := lab_of (@refusing_perform).

Definition refusing_holdings : @Holdings refusing_lab.
Proof.
  refine {| leased := (b_leased : @W refusing_lab → _); substrate := b_held; created_ids := lab_ids |}; intros A c w; destruct c; simpl; set_solver.
Defined.
