(* ===== verification/Lifecycle.v ===== *)
(** * The lifecycle verbs

    [services/sandbox/service.go] and [teardown.go]: start, stop and rm of a sandbox, the records they keep and the
    order in which they claim and give back what the host holds for it. A verb is an operation over the service:
    the repository, the host and the table of execs. Log lines are not modelled. *)

From S2P Require Import Prelude Ops GoStrings Netip Models SandboxFields Restart Store Secret SandboxID Repository ExecTable Host.
Local Open Scope Z_scope.
Local Open Scope op_scope.

Definition StopGrace : Z := 30 * second.
Definition DefaultStopSettle : Z := 5 * second.
Definition pollWait : Z := 50 * (second / 1000).

(** ** What the verbs write on a record *)

Definition FailedGeneric : string := "the daemon log has the cause of the failure".

(** [PublicReason]. *)
Definition PublicReason (sb : Sandbox) : string :=
  if negb (String.eqb (FailedPublic sb) "") || String.eqb (FailedReason sb) "" then FailedPublic sb else FailedGeneric.

(** [failed]: the record of a create that ended in [cause]. *)
Definition failed `{Host} (cause : service_error) (sb : Sandbox) : Sandbox :=
  set_Pausing false (set_PID 0 (set_FailedPublic (default FailedGeneric (public_text cause))
    (set_FailedReason (error_text cause) (set_SState StateFailed sb)))).

Definition SupervisorFailedReason : string := "shard-init failed".

Definition supervisorFailed (why : string) : Sandbox → Sandbox := set_StoppedReason (SupervisorFailedReason +:+ ": " +:+ why).

Definition callOff (sb : Sandbox) : Sandbox := set_SOOM (callOffOOMRestart (SOOM sb)) sb.

Definition byOperator : Sandbox → Sandbox := set_StoppedByOperator true.

(** The write of [Complete] at its commit point. *)
Definition nowRunning (now : Z) (sb : Sandbox) : Sandbox :=
  set_RunStartedAt now (set_StartedAt now (set_SState StateRunning sb)).

(** The write of [RecordRunning]. *)
Definition ranAgain `{Host} (status : Status) (now : Z) (resumed : bool) (sb : Sandbox) : Sandbox :=
  let sb := set_Pausing false (set_UnresponsiveReason "" (set_StoppedReason ""
              (set_PID (StPID status) (set_SState StateRunning sb)))) in
  let sb := set_RunStartedAt now (callOff sb) in
  let sb := if negb resumed || (StartedAt sb =? 0) then set_StartedAt (RunStartedAt sb) sb else sb in
  if negb resumed then set_Kernel (default "" guest_kernel) sb else sb.

(** The write of [stop]. *)
Definition stoppedBy (status : Status) (after : list ProcessReport) (sb : Sandbox) : Sandbox :=
  let sb := set_Checkpoint "" (callOff (set_UnresponsiveReason "" (set_PID 0 (set_SState StateStopped sb)))) in
  let sb := set_Processes (endProcesses (merged (Processes sb) after)) sb in
  let sb := if negb (String.eqb (SupervisorFailed status) "") then supervisorFailed (SupervisorFailed status) sb else sb in
  byOperator sb.

(** ** Guards *)

Definition wrongState (sb : Sandbox) (code : Code) : service_error := EState (SState sb) code.

Definition FailedGuard (sb : Sandbox) : result service_error unit :=
  if bool_decide (SState sb = StateFailed) then Err (EState StateFailed CodeSandboxFailed) else Ok tt.

Definition imageGone (verb : string) (e : service_error) : service_error :=
  if is_image_gone e then EImageGone verb else e.

Section Verbs.
Context `{Hst : Host}.

(** [lock], as a verb sees it; what the lock table itself does is in [Locks]. *)
Definition locked {A} (id : string) (m : sop A) : sop A :=
  got <~ do_call (LLock id) ;; if got then m else fail EBusy.

(** [tryLock], for a background loop that skips a sandbox a verb holds. *)
Definition tryLocked {A} (id : string) (skipped : A) (m : sop A) : sop A :=
  got <~ do_call (LTryLock id) ;; if got then m else ret skipped.

(** [status]: a bound of ours that passed, not the caller's own, is the typed timeout. *)
Definition status (id verb : string) : sop Status :=
  a <~ do_call (PStatus id) ;;
  match a with
  | Ok st => ret st
  | Err e =>
      ended <~ read_host ctx_ended ;;
      if pe_past_bound e && negb ended then fail (ETimeout verb) else fail (ECall (pe_error e))
  end.

(** [Provider.Status] on the verb's own context. *)
Definition probe (id : string) : sop Status :=
  a <~ do_call (PStatus id) ;; match a with Ok st => ret st | Err e => fail (ECall (pe_error e)) end.

Definition record_ (id : string) : sop Sandbox := getRecord id.

Definition closePorts (id : string) : sop unit := try (FCloseSandbox id).
Definition openPorts (id : string) : sop unit := sb <~ getRecord id ;; try (FSet id (Ports sb)).

Definition drop_execs (id : string) : sop unit := touch (λ s, set_table (dropExecs id (table_of s)) s).

(** [table]: a channel only guest root can break leaves no reports, and says why. *)
Definition table_ (id : string) : sop (list ProcessReport * string) :=
  a <~ do_call (PProcesses id) ;;
  match a with
  | Ok reports => ret (reports, "")
  | Err (CChannel why) => ret ([], why)
  | Err e => fail (ECall e)
  end.

(** [dropCheckpoint]: the checkpoint and the staging a cut pause left. *)
Definition dropCheckpoint (id : string) : sop unit :=
  _ <~ CheckpointDir id ;;
  ok <~ do_call (RRemoveCheckpoint id) ;;
  on_repo (remove_checkpoint ok id) ;;;
  ok <~ do_call (RRemoveCheckpoint (id +:+ ".tmp")) ;;
  on_repo (remove_checkpoint ok (id +:+ ".tmp")).

(** ** teardown.go *)

(** [RecordRunning]. *)
Definition RecordRunning (id : string) (resumed : bool) : sop unit :=
  st <~ probe id ;;
  now <~ read_host clock ;;
  mutate id (ranAgain st now resumed).

(** [Reconcile]: a failed start or resume that the substrate may hold anyway. *)
Definition Reconcile (id : string) (resumed : bool) : sop unit :=
  st <~ probe id ;;
  if negb (Alive st) then ret tt
  else RecordRunning id resumed ;;; fail EStays.

(** [Teardown.Unwind]: the claims go back in the reverse order, up to the first that fails. *)
Fixpoint Unwind (steps : list (sop unit)) : sop unit :=
  match steps with
  | [] => ret tt
  | step :: rest => step ;;; Unwind rest
  end.

(** [err = errors.Join(err, td.Unwind(ctx))], the stack with its last push first. *)
Definition unwinding {A} (e : service_error) (steps : list (sop unit)) : sop A := λ s,
  let '(t, s', a) := Unwind steps s in
  (t, s', Err match a with Ok _ => e | Err e2 => EJoin e e2 end).

Definition AllocateNetwork (id : string) : sop NetworkSpec :=
  a <~ do_call (NAllocate id) ;;
  match a with
  | Ok spec => ret spec
  | Err CNoFreeAddress => fail ENoAddress
  | Err e => fail (ENetwork e)
  end.

Definition resolvedThrough (spec : NetworkSpec) (policy : string) : NetworkSpec :=
  if String.eqb policy "" then spec
  else MkNetworkSpec (NSNetnsPath spec) (NSAddress spec) (NSGateway spec) (NSHostInterface spec) [NSGateway spec].

(** ** start *)

(** An error beside the outcome of one more step: [errors.Join(err, m())]. *)
Definition joined {A} (e : service_error) (m : sop unit) : sop A := λ s,
  let '(t, s', a) := m s in (t, s', Err match a with Ok _ => e | Err e2 => EJoin e e2 end).

Definition recordFailedStart (id : string) : sop unit :=
  st <~ probe id ;;
  if Alive st || String.eqb (SupervisorFailed st) "" then ret tt
  else mutate id (supervisorFailed (SupervisorFailed st)).

Definition startWithin (id : string) : sop unit :=
  _ <~ try (NAllocate id) ;;
  started <~ do_call (PStart id) ;;
  match started with
  | Ok _ => RecordRunning id false
  | Err e =>
      reconciled <~ attempt (Reconcile id false) ;;
      match reconciled with
      | Err e2 => fail (EJoin (ECall e) e2)
      | Ok _ => joined (ECall e) (recordFailedStart id)
      end
  end.

(** [start]: a budget that passed while the caller still waits is the typed timeout, whatever the run answered. *)
Definition start (id : string) : sop unit :=
  a <~ attempt (startWithin id) ;;
  spent <~ read_host budget_spent ;;
  ended <~ read_host ctx_ended ;;
  if spent && negb ended then fail (ETimeout "start") else of_result a.

(** ** stop *)

(** The polls a settle allows: each waits a step of the clock, and one more finds the deadline passed. *)
Definition settle_polls (bound : Z) : nat := S (Z.to_nat (bound / pollWait + 1)).

Definition settle_bound : Z := if stop_settle =? 0 then DefaultStopSettle else stop_settle.

(** [awaitStopped], poll by poll. *)
Fixpoint await_go (fuel : nat) (id : string) (deadline : Z) : sop Status :=
  match fuel with
  | O => fail EOutOfFuel
  | S fuel =>
      a <~ do_call (PStatus id) ;;
      ended <~ read_host ctx_ended ;;
      match a with
      | Err e => if ended then fail ECtx else if pe_past_bound e then fail ENotSettled else fail (ECall (pe_error e))
      | Ok st =>
          if negb (Alive st) then ret st
          else
            now <~ read_host clock ;;
            if deadline <=? now then fail ENotSettled
            else
              _ <~ do_call (Sleep pollWait) ;;
              ended <~ read_host ctx_ended ;;
              if ended then fail ECtx else await_go fuel id deadline
      end
  end.

Definition awaitStopped (id : string) : sop Status :=
  now <~ read_host clock ;;
  await_go (settle_polls settle_bound) id (now + settle_bound).

(** What the opening probe of a stop decides: go on, or that the record is all there is to change. *)
Inductive opening : Type := GoOn | CallOff | MarkOnly.

Definition open_stop (id : string) (sb : Sandbox) : sop opening :=
  a <~ attempt (status id "stop") ;;
  match a with
  | Err e =>
      if is_timeout e && bool_decide (SState sb = StateStopped) then ret GoOn else fail e
  | Ok st =>
      if bool_decide (SState sb = StateStopped) && negb (Alive st) then
        ret (if RestartDue (SOOM sb) then CallOff else MarkOnly)
      else ret GoOn
  end.

Definition stop (id : string) (force : bool) : sop unit :=
  sb <~ getRecord id ;;
  closePorts id ;;;
  o <~ (if force then ret GoOn else open_stop id sb) ;;
  match o with
  | CallOff => mutate id callOff ;;; dropCheckpoint id
  | MarkOnly => mutate id byOperator ;;; dropCheckpoint id
  | GoOn =>
      try (PStop id StopGrace) ;;;
      st <~ awaitStopped id ;;
      drop_execs id ;;;
      after <~ table_ id ;;
      mutate id (stoppedBy st after.1) ;;;
      dropCheckpoint id
  end.

Definition Stop_locked (id : string) : sop Sandbox :=
  sb <~ getRecord id ;;
  sb <~ (if bool_decide (SState sb = StatePending)
         then mutate id (failed (ECancelled "shard stop")) ;;; getRecord id
         else ret sb) ;;
  _ <~ ask (λ _, FailedGuard sb) ;;
  stop id false ;;;
  record_ id.

Definition Stop (ref : string) : sop Sandbox := id <~ resolve ref ;; locked id (Stop_locked id).

(** ** rm *)

Definition reclaim (id : string) (wedge : service_error) : sop unit :=
  if reclaims then
    a <~ do_call (PReclaim id) ;; match a with Ok _ => ret tt | Err e => fail (EJoin wedge (ECall e)) end
  else fail wedge.

Definition refuseOrStop (id : string) (state : State) (force : bool) : sop unit :=
  if negb force then fail (EState state CodeSandboxNotStopped) else stop id force.

Definition endIfAlive (id : string) (sb : Sandbox) (force : bool) : sop unit :=
  if bool_decide (SState sb = StatePaused) then refuseOrStop id (SState sb) force
  else
    a <~ attempt (status id "remove") ;;
    match a with
    | Err e => if force && is_timeout e then reclaim id e ;;; stop id force else fail e
    | Ok st => if negb (Alive st) then ret tt else refuseOrStop id (StState st) force
    end.

(** [free]: the holdings in order, up to the first that fails, whose refusal names what is left. *)
Fixpoint free_go (held : list (string * sop unit)) : sop unit :=
  match held with
  | [] => ret tt
  | (what, m) :: rest =>
      a <~ attempt m ;;
      match a with
      | Ok _ => free_go rest
      | Err e => fail (ELeft (what :: rest.*1) e)
      end
  end.

Definition holdings (id : string) : list (string * sop unit) :=
  [("forwarded host ports", closePorts id);
   ("runtime state and rootfs mount", try (PRemove id));
   ("netns, veth and address lease", try (NRelease id));
   ("record and state directory", deleteRecord id);
   ("host rules", try NReapplyAll)].

Definition free (id : string) : sop unit := free_go (holdings id).

Definition dropSubstrateRoot : sop unit :=
  left_ <~ ask (λ s, Ok (Repository.List (repo_of s))) ;;
  match left_ with
  | ([], []) => try ReleaseRoot
  | _ => ret tt
  end.

Definition Remove_locked (id : string) (force : bool) : sop unit :=
  sb <~ getRecord id ;;
  endIfAlive id sb force ;;;
  drop_execs id ;;;
  free id ;;;
  dropSubstrateRoot.

Definition Remove (ref : string) (force : bool) : sop unit := id <~ resolve ref ;; locked id (Remove_locked id force).

End Verbs.
