(* ===== verification/Settle.v ===== *)
(** * A stop that returns

    [awaitStopped] polls the substrate until it answers that the sandbox is down, and gives up once the settle has passed.
    The model runs it on fuel; on a clock that goes forward, the fuel never runs out. *)

From S2P Require Import Prelude Ops Paths GoStrings Netip Models SandboxFields Restart Store Secret SandboxID Repository ExecTable Host Moves Lab Lifecycle.
Local Open Scope Z_scope.
Local Open Scope op_scope.

(** [time.Now] never goes back over a call, and a sleep takes as long as it says. *)
Class Clock `{Host} : Prop := {
  clock_forward : ∀ A (c : call A) w, clock w ≤ clock (perform c w).1;
  clock_slept : ∀ d w, clock w + d ≤ clock (perform (Sleep d) w).1;
  settle_positive : 0 ≤ stop_settle
}.

Section Settle.
Context `{Hst : Host} {Hck : Clock}.

Local Ltac run := cbn [fst snd set_host host repo_of table_of app] in *.

(** The polls left are enough to wait out the deadline. *)
Lemma await_go_ends fuel id deadline s :
  deadline - clock (host s) < Z.of_nat fuel * pollWait - pollWait + 1 → fuel ≠ 0%nat →
  let '(t, _, a) := await_go fuel id deadline s in
  a ≠ Err EOutOfFuel ∧ (∀ st, a = Ok st → Alive st = false) ∧ (length t ≤ 2 * fuel)%nat.
Proof.
  revert s. induction fuel as [|fuel IH]; [done|]. intros s Hd _.
  cbn [await_go]. pose proof (clock_forward _ (PStatus id) (host s)) as H1. unfold bind, do_call, read_host, ask, ret, fail.
  destruct (perform (PStatus id) (host s)) as [w [st|e]]; run.
  - destruct (negb (Alive st)) eqn:Ea; run; [split_and!; [done|intros ? [= <-]; by apply negb_true_iff|simpl; lia]|].
    destruct (Z.leb_spec deadline (clock w)) as [|Hlt]; run; [split_and!; [done|done|simpl; lia]|].
    pose proof (clock_slept pollWait w) as H2. destruct (perform (Sleep pollWait) w) as [w2 []]. run.
    destruct (ctx_ended w2); run; [split_and!; [done|done|simpl; lia]|].
    destruct (decide (fuel = 0%nat)) as [-> |Hf]; [lia|].
    specialize (IH (MkService (repo_of s) w2 (table_of s))). cbn [host] in IH. specialize (IH ltac:(lia) Hf).
    destruct (await_go fuel id deadline _) as [[t s'] a]. destruct IH as (? & ? & ?). split_and!; [done|done|]. simpl. lia.
  - destruct (ctx_ended w); [|destruct (pe_past_bound e)]; (split_and!; [done|done|simpl; lia]).
Qed.

Lemma settle_bound_positive : 0 ≤ settle_bound.
Proof. unfold settle_bound. pose proof settle_positive. destruct (stop_settle =? 0); [|done]. unfold DefaultStopSettle, second. lia. Qed.

(** The most calls one wait can make: a status and a sleep for each poll the settle has room for. *)
Definition poll_bound : Z := 2 * (settle_bound / pollWait + 2).

(** C34: A stop does not wait for ever. Whatever the substrate answers, [awaitStopped] returns: after a number of polls the
    settle bounds it has found the sandbox down, or given up, or the caller has; and it answers a status only of a
    sandbox that is down. *)
Theorem awaitStopped_returns id s :
  let '(t, _, a) := awaitStopped id s in
  a ≠ Err EOutOfFuel ∧ (∀ st, a = Ok st → Alive st = false) ∧ Z.of_nat (length t) ≤ poll_bound.
Proof.
  unfold awaitStopped, bind, read_host, ask. pose proof settle_bound_positive as Hb.
  pose proof (Z.mul_div_le settle_bound pollWait ltac:(done)). pose proof (Z.mod_pos_bound settle_bound pollWait ltac:(done)).
  pose proof (Z.div_pos settle_bound pollWait Hb ltac:(done)). pose proof (Z.div_mod settle_bound pollWait ltac:(done)).
  pose proof (await_go_ends (settle_polls settle_bound) id (clock (host s) + settle_bound) s) as H'.
  unfold settle_polls in *. rewrite Nat2Z.inj_succ, Z2Nat.id in H' by lia. specialize (H' ltac:(lia) ltac:(done)).
  destruct (await_go _ _ _ s) as [[t s'] a]. destruct H' as (? & ? & ?). split_and!; [done|done|].
  unfold poll_bound. cbn [app]. lia.
Qed.

End Settle.

#[export] Instance lab_clock : Clock.
Proof. split; [|intros d w; simpl; lia|done]. intros A c w. destruct c; simpl; try lia. Qed.

Definition settle_bench : service := MkService new_repo (up "amber-badger-ff0a" empty_bench) new_table.

(** A sandbox that never goes down is given up on. *)
Lemma awaitStopped_returns_witness :
  (awaitStopped "amber-badger-ff0a" settle_bench).2 = Err ENotSettled ∧
  let '(t, _, a) := awaitStopped "amber-badger-ff0a" settle_bench in
  a ≠ Err EOutOfFuel ∧ (∀ st, a = Ok st → Alive st = false) ∧ Z.of_nat (length t) ≤ poll_bound.
Proof. split; [vm_compute; reflexivity|]. exact (awaitStopped_returns "amber-badger-ff0a" settle_bench). Defined.
