(* ===== verification/Reconcile.v ===== *)
(** * Records against the substrate

    [services/sandbox/reconcile.go], [liveness.go] and the writes of [oom.go]: a daemon that comes up asks the substrate
    about every record and corrects the record, and a tick does the same for the records that say running. A cut
    pause leaves a mark on the record and a checkpoint on the disk, and both loops settle it. *)

From S2P Require Import Prelude Ops GoStrings Netip Models SandboxFields Restart Store Secret SandboxID Repository ExecTable Host Lifecycle.
Local Open Scope Z_scope.
Local Open Scope op_scope.

Definition LostReason : string := "daemon restarted and found no process".
Definition InterruptedReason : string := "the daemon restarted before the create finished".
Definition DroppedCopyReason : string := "the daemon restarted before the fork finished".
Definition OOMKilledReason : string := "ran out of memory and the host ended it".
Definition DiedReason : string := "the sandbox process died".

(** ** What the loops write on a record *)

Definition paused (dir : string) (sb : Sandbox) : Sandbox :=
  set_UnresponsiveReason "" (set_Pausing false (set_Checkpoint dir (set_PID 0 (set_SState StatePaused sb)))).
Definition heldPaused (sb : Sandbox) : Sandbox := set_PID 0 (set_SState StatePaused sb).
Definition unresponsive (reason : string) (sb : Sandbox) : Sandbox :=
  set_UnresponsiveReason reason (set_SState StateUnresponsive sb).
Definition answered (st : Status) (sb : Sandbox) : Sandbox :=
  let sb := set_UnresponsiveReason "" (set_SState StateRunning sb) in
  if bool_decide (StState st = StateRunning) && Pausing sb then set_Pausing false sb else sb.
Definition ended (reason : string) (sb : Sandbox) : Sandbox :=
  set_Processes (endProcesses (Processes sb))
    (set_UnresponsiveReason "" (set_StoppedReason reason (set_PID 0 (set_SState StateStopped sb)))).
Definition supervisorEnded (why : string) (sb : Sandbox) : Sandbox :=
  let sb := set_UnresponsiveReason "" (set_PID 0 (set_SState StateStopped sb)) in
  supervisorFailed why (set_Processes (endProcesses (Processes sb)) sb).
Definition outOfMemory (oom : OOM) (sb : Sandbox) : Sandbox := set_SOOM (Some oom) (ended OOMKilledReason sb).
Definition dropped (reason : string) (sb : Sandbox) : Sandbox :=
  set_FailedPublic reason (set_FailedReason reason (set_PID 0 (set_SState StateFailed sb))).

(** The same run of the sandbox as the one a list saw. *)
Definition same_run (current seen : Sandbox) : bool :=
  Live (SState current) && (PID current =? PID seen) && (RunStartedAt current =? RunStartedAt seen).

(** [ranPast]: a marked record the substrate says runs on. *)
Definition ranPast (sb : Sandbox) (st : Status) : bool :=
  bool_decide (SState sb = StateRunning) && Pausing sb && Alive st && bool_decide (StState st = StateRunning).

(** ** The state a record should say

    The substrate and the record decide it, but for a paused record the substrate holds nothing of: there the
    checkpoint on the disk decides. *)
Inductive verdict : Type := Says (s : State) | AsksCheckpoint.

Definition reconciled_verdict (sb : Sandbox) (st : Status) : verdict :=
  let unguarded := Alive st && negb (Prefix_IsValid (Address sb)) in
  if bool_decide (SState sb = StateCreated) then Says StateFailed
  else if bool_decide (SState sb = StatePending) && (bool_decide (StState st = StateCreated) || unguarded) then Says StateFailed
  else if Live (SState sb) && unguarded then Says StateFailed
  else if Live (SState sb) && Unstarted st then Says StateFailed
  else if Unstarted st && (bool_decide (SState sb = StateStopped) || bool_decide (SState sb = StateFailed)) then Says (SState sb)
  else if bool_decide (StState st = StateUnresponsive) then Says StateUnresponsive
  else if bool_decide (StState st = StatePaused) then Says StatePaused
  else if Alive st then Says StateRunning
  else if bool_decide (SState sb = StatePaused) then AsksCheckpoint
  else if bool_decide (SState sb = StatePending) then Says StateFailed
  else if Live (SState sb) then Says StateStopped
  else Says (SState sb).

Section Reconcile.
Context `{Hst : Host}.

Definition recordPaused (id dir : string) : sop unit := mutate id (paused dir).
Definition recordCutPause : string → string → sop unit := recordPaused.
Definition dropMark (id : string) : sop unit := mutate id (set_Pausing false).

Definition recordUnresponsive (id : string) (sb : Sandbox) (reason : string) : sop unit :=
  if bool_decide (SState sb = StateUnresponsive) && String.eqb (UnresponsiveReason sb) reason then ret tt
  else mutate id (unresponsive reason).
Definition recordAnswered (id : string) (st : Status) : sop unit := mutate id (answered st).
Definition recordDied (id reason : string) : sop unit := mutate id (ended reason) ;;; drop_execs id.
Definition recordSupervisorFailed (id why : string) : sop unit := mutate id (supervisorEnded why).
Definition recordOOMKilled (id : string) (sb : Sandbox) (now : Z) : sop unit :=
  mutate id (outOfMemory (nextOOM sb now)) ;;; drop_execs id.

Definition hasCheckpoint (dir : string) : sop bool := if String.eqb dir "" then ret false else try (CkHeld dir).

Definition reconciled (sb : Sandbox) (st : Status) : sop State :=
  match reconciled_verdict sb st with
  | Says s => ret s
  | AsksCheckpoint => held <~ hasCheckpoint (Checkpoint sb) ;; ret (if held then StatePaused else StateStopped)
  end.

Definition markedCheckpoint (sb : Sandbox) : sop string :=
  if negb (Live (SState sb)) || negb (Pausing sb) then ret ""
  else
    dir <~ CheckpointDir (ID sb) ;;
    held <~ hasCheckpoint dir ;;
    ret (if held then dir else "").

Definition cutPause (sb : Sandbox) (st : Status) : sop string :=
  dir <~ markedCheckpoint sb ;;
  if String.eqb dir "" then ret ""
  else if negb releases && negb (Alive st) then ret dir
  else if negb releases || (Alive st && negb (bool_decide (StState st = StatePaused))) then ret ""
  else try (PRelease (ID sb) dir) ;;; ret dir.

(** ** At the start of the daemon *)

Definition failDropped (sb : Sandbox) (st : Status) : sop unit :=
  let copy := bool_decide (SState sb = StateCreated) in
  (if Alive st then try (PStop (ID sb) 0) ;;; _ <~ awaitStopped (ID sb) ;; ret tt else ret tt) ;;;
  (if copy then try (PRemove (ID sb)) else ret tt) ;;;
  mutate (ID sb) (dropped (if copy then DroppedCopyReason else InterruptedReason)).

Definition endUnstarted (sb : Sandbox) : sop unit :=
  try (PStop (ID sb) 0) ;;; _ <~ awaitStopped (ID sb) ;; ret tt.

Definition adoptStaging (id : string) : sop unit :=
  dir <~ CheckpointDir id ;;
  held <~ try (CkStaging (dir +:+ ".tmp")) ;;
  try (PAdoptStaging dir) ;;;
  if held then _ <~ try (CkStaging (dir +:+ ".tmp")) ;; ret tt else ret tt.

(** The last part of [applyReconcile]: the record moves to [state]. *)
Definition correct (sb : Sandbox) (st : Status) (state : State) : sop State :=
  let id := ID sb in
  if bool_decide (state = StateStopped) && Unstarted st then endUnstarted sb ;;; ret state
  else if bool_decide (state = SState sb) then ret state
  else if bool_decide (state = StateUnresponsive) then recordUnresponsive id sb (StReason st) ;;; ret state
  else if bool_decide (state = StateRunning) && bool_decide (SState sb = StateUnresponsive) then recordAnswered id st ;;; ret state
  else if bool_decide (state = StateRunning) then RecordRunning id false ;;; ret state
  else if bool_decide (state = StatePaused) then mutate id heldPaused ;;; ret state
  else if bool_decide (state = StateFailed) then failDropped sb st ;;; ret state
  else if negb (String.eqb (SupervisorFailed st) "") then recordSupervisorFailed id (SupervisorFailed st) ;;; ret StateStopped
  else mutate id (ended LostReason) ;;; ret state.

Definition applyReconcile (sb : Sandbox) (probed : result service_error Status) : sop State :=
  match probed with
  | Err e => if is_timeout e then ret (SState sb) else fail e
  | Ok st =>
      if Live (SState sb) && negb (Alive st) && OOMKilled st then
        now <~ read_host clock ;; recordOOMKilled (ID sb) sb now ;;; ret StateStopped
      else
        cut <~ cutPause sb st ;;
        if negb (String.eqb cut "") then recordCutPause (ID sb) cut ;;; ret StatePaused
        else
          (if ranPast sb st then dropMark (ID sb) else ret tt) ;;;
          state <~ reconciled sb st ;;
          correct sb st state
  end.

(** [egress.Fronted]. *)
Definition fronted_record (sb : Sandbox) : bool :=
  negb (String.eqb (SPolicyName sb) "") || negb (bool_decide (Secrets sb = [])).

(** The probes run first, all of them. *)
Fixpoint probe_all (sandboxes : list Sandbox) : sop (list (Sandbox * result service_error Status)) :=
  match sandboxes with
  | [] => ret []
  | sb :: rest => a <~ attempt (status (ID sb) "reconcile") ;; ps <~ probe_all rest ;; ret ((sb, a) :: ps)
  end.

(** [reserve.retry]: a step that found the root full is run once more when the reserve could be deleted, which [again] says. *)
Definition retried {A} (again : service_error → bool) (m : sop A) : sop A :=
  a <~ attempt m ;;
  match a with
  | Ok x => ret x
  | Err e => if again e then m else fail e
  end.

(** The state one record is left in, and whether it is live with nothing to guard it. *)
Definition reconcile_one (again : string → service_error → bool) (sb : Sandbox) (probed : result service_error Status) : sop (State * bool) :=
  a <~ attempt (adoptStaging (ID sb) ;;; retried (again (ID sb)) (applyReconcile sb probed)) ;;
  match a with
  | Ok state => ret (state, false)
  | Err _ =>
      let state := match probed with Ok st => if Alive st then StateRunning else SState sb | Err _ => SState sb end in
      ret (state, Live state && fronted_record sb && negb (Prefix_IsValid (Address sb)))
  end.

Fixpoint reconcile_each (again : string → service_error → bool) (probes : list (Sandbox * result service_error Status)) : sop (list (State * bool)) :=
  match probes with
  | [] => ret []
  | (sb, probed) :: rest => x <~ reconcile_one again sb probed ;; xs <~ reconcile_each again rest ;; ret (x :: xs)
  end.

Definition ReconcileAll (again : string → service_error → bool) (sandboxes : list Sandbox) : sop unit :=
  probes <~ probe_all sandboxes ;;
  out <~ reconcile_each again probes ;;
  if existsb snd out then fail EStays
  else if existsb (λ x, Live x.1) out then try NReapplyAll
  else ret tt.

(** [reconciler.Reconcile] of the daemon, with what the steps answer that touch neither the records nor the substrate:
    the sweep of the exec scratch and the reserve, the sweep of the snapshots, and the build of the provider. *)
Record boot_answers : Type := MkBootAnswers {
  bt_scratch : bool;
  bt_removes : string → bool;
  bt_synced : bool;
  bt_snapshots : bool;
  bt_provider : bool;
  bt_again : string → service_error → bool
}.

Definition reconciler_Reconcile (c : boot_answers) : sop unit :=
  check (ECall CFails) (bt_scratch c) ;;;
  on_repo (SweepCheckpointTmp (bt_removes c) (bt_synced c)) ;;;
  check (ECall CFails) (bt_snapshots c) ;;;
  sandboxes <~ ask (λ s, Ok (ListReadable (repo_of s))) ;;
  match sandboxes with
  | [] => ret tt
  | _ => check (ECall CFails) (bt_provider c) ;;; ReconcileAll (bt_again c) sandboxes
  end.

(** ** On the liveness tick *)

(** [probeLive]: nothing for a probe out of budget, which the next tick asks again. *)
Definition probeLive (id : string) : sop (option Status) :=
  a <~ attempt (status id "liveness") ;;
  match a with
  | Ok st => ret (Some st)
  | Err e => if is_timeout e then ret None else fail e
  end.

(** The part of [reconcileLive] under the lock, once the run is known to be the one seen. *)
Definition reconcile_run (id : string) (current : Sandbox) (st : Status) (now : Z) : sop unit :=
  cut <~ cutPause current st ;;
  if negb (String.eqb cut "") then recordCutPause id cut
  else
    (if ranPast current st then dropMark id else ret tt) ;;;
    if Alive st then ret tt
    else if OOMKilled st then recordOOMKilled id current now
    else if negb (String.eqb (SupervisorFailed st) "") then recordSupervisorFailed id (SupervisorFailed st)
    else recordDied id DiedReason.

Definition reconcile_locked (seen : Sandbox) (st : Status) (now : Z) : sop unit :=
  let id := ID seen in
  current <~ getRecord id ;;
  if negb (same_run current seen) then ret tt
  else if bool_decide (StState st = StateUnresponsive) then recordUnresponsive id current (StReason st)
  else
    current <~ (if Alive st && bool_decide (SState current = StateUnresponsive)
                then recordAnswered id st ;;; getRecord id else ret current) ;;
    again <~ (if ranPast current st then probeLive id else ret (Some st)) ;;
    match again with
    | None => ret tt
    | Some st => reconcile_run id current st now
    end.

Definition reconcileLive (seen : Sandbox) (now : Z) : sop unit :=
  let id := ID seen in
  before <~ getRecord id ;;
  if negb (same_run before seen) then ret tt
  else
    probed <~ probeLive id ;;
    match probed with
    | None => ret tt
    | Some st => tryLocked id tt (reconcile_locked seen st now)
    end.

Definition noteUnresponsive (seen : Sandbox) (reason : string) : sop unit :=
  let id := ID seen in
  tryLocked id tt
    (current <~ getRecord id ;;
     if negb (same_run current seen) then ret tt else recordUnresponsive id current reason).

End Reconcile.

(** ** What a daemon makes of a record it finds

    [reconciled] against the lifecycle machine. The verbs move a record along [legalTransitions] only; a daemon that comes up
    believes the substrate over the record, and some of its corrections are moves the machine does not list. *)

From S2P Require Import Paths Moves Lab.

Definition off_machine : list (State * State) :=
  [(StatePending, StateUnresponsive); (StatePending, StatePaused);
   (StatePaused, StateUnresponsive);
   (StateUnresponsive, StateFailed);
   (StateStopped, StateUnresponsive); (StateStopped, StatePaused);
   (StateFailed, StateUnresponsive); (StateFailed, StatePaused); (StateFailed, StateRunning)].

(** A record and a status that bring a correction about. *)
Definition corrected_by (s t : State) : Sandbox * Status :=
  (set_SState s (set_Address (match t with StateFailed => PrefixZero | _ => MkPrefix (Addr4 2886729730) 16 end) web),
   MkStatus true (match t with StateFailed => StateRunning | _ => t end) 7 false "" "" false).

(** The corrections a daemon makes at its start. For a record in a state the machine knows, the state [reconciled] asks
    for is the one it has, or a legal move from it, or one of nine moves the machine does not list; where a checkpoint
    decides, both answers are legal. Each of the nine does come about: a record that says failed is brought back to
    running when the substrate says the sandbox is up. *)
Theorem reconciled_moves sb st :
  State_Valid (SState sb) = true →
  match reconciled_verdict sb st with
  | Says t => t = SState sb ∨ CanTransitionTo (SState sb) t = true ∨ (SState sb, t) ∈ off_machine
  | AsksCheckpoint => SState sb = StatePaused ∧ CanTransitionTo StatePaused StateStopped = true
  end ∧
  Forall (λ m, CanTransitionTo m.1 m.2 = false ∧ ∃ sb' st', SState sb' = m.1 ∧ reconciled_verdict sb' st' = Says m.2) off_machine.
Proof.
  intros Hv. split.
  - unfold reconciled_verdict. generalize (Alive st), (negb (Prefix_IsValid (Address sb))), (Unstarted st). intros alive open un.
    destruct (SState sb); try discriminate Hv; destruct alive, open, un; cbn;
      repeat (case_bool_decide; cbn; try discriminate); try (by repeat split);
      first [by left|by right; left|right; right; unfold off_machine; set_solver].
  - unfold off_machine.
    repeat (apply Forall_cons; split; [split; [reflexivity|]|]); [..|constructor];
      match goal with |- ∃ _ _, _ = (?s, ?t).1 ∧ _ => exists (corrected_by s t).1, (corrected_by s t).2 end; split; reflexivity.
Qed.

Lemma reconciled_moves_witness :
  reconciled_verdict (set_SState StateFailed web) (bench_status true) = Says StateRunning ∧
  CanTransitionTo StateFailed StateRunning = false ∧
  Forall (λ m, CanTransitionTo m.1 m.2 = false ∧ ∃ sb' st', SState sb' = m.1 ∧ reconciled_verdict sb' st' = Says m.2) off_machine.
Proof.
  split; [reflexivity|]. split; [reflexivity|].
  exact (proj2 (reconciled_moves (set_SState StateFailed web) (bench_status true) eq_refl)).
Defined.
