(* ===== verification/Processes.v ===== *)
(** * Named processes, and the starts that bring them back

    [services/sandbox/process.go], [launchable.go], [autostart.go], the rest of [restart.go] and [oom.go], and the verb
    [Start] of [service.go]: a run writes the process on the record before the guest starts it, a kill marks it, a
    start of the sandbox launches the processes its policies bring back. *)

From S2P Require Import Prelude Ops GoStrings Netip Models SandboxFields Restart Store Secret SandboxID Repository ExecTable Host Lifecycle Reconcile.
Local Open Scope Z_scope.
Local Open Scope op_scope.

Definition MaxProcesses : nat := 16.

(** ** What a start brings back: launchable.go *)

Inductive trigger : Type := operatorStart | daemonStart.

Definition launchable (p : Process) (sb : Sandbox) (by_ : trigger) : bool :=
  match SPolicy (PrRestart p) with
  | RestartAlways => true
  | RestartUnlessStopped =>
      negb (PrKilled p) && (match by_ with operatorStart => true | daemonStart => negb (StoppedByOperator sb) end)
  | _ => false
  end.

Definition Owed (sb : Sandbox) : bool :=
  if negb (bool_decide (SState sb = StateStopped)) && negb (bool_decide (SState sb = StateRunning)) then false
  else existsb (λ p, launchable p sb daemonStart) (Processes sb).

(** ** The entries of the record *)

Definition named (name : string) (p : Process) : bool := String.eqb (PrName p) name.

(** [slices.IndexFunc] and [slices.Delete] of one element. *)
Fixpoint index_func {A} (f : A → bool) (l : list A) : option nat :=
  match l with
  | [] => None
  | x :: l => if f x then Some 0%nat else S <$> index_func f l
  end.
Definition delete_at {A} (i : nat) (l : list A) : list A := take i l ++ drop (S i) l.

Definition withProcess (procs : list Process) (p : Process) : list Process :=
  match index_func (named (PrName p)) procs with
  | Some i => <[i := p]> procs
  | None => procs ++ [p]
  end.

(** A Go map from names to offsets, as the record's association list: the last write of a name is the one read. *)
Definition withLogStart (starts : list (string * Z)) (name : string) (at_ : Z) : list (string * Z) :=
  filter (λ p, p.1 ≠ name) starts ++ [(name, at_)].

(** [admitted]: room for one more run of [name], or the refusal. *)
Definition admitted (sb : Sandbox) (procs : list Process) (name : string) : result service_error (list Process) :=
  let kept :=
    match index_func (named name) procs with
    | Some i =>
        match procs !! i with
        | Some p => if negb (Ended (PSState (PrStatus p))) then Err (EState (SState sb) CodeNameTaken) else Ok (delete_at i procs)
        | None => Ok procs
        end
    | None => Ok procs
    end in
  match kept with
  | Err e => Err e
  | Ok procs =>
      if (length procs <? MaxProcesses)%nat then Ok procs
      else match index_func (λ p, Ended (PSState (PrStatus p))) procs with
           | None => Err (EState (SState sb) CodeProcessLimit)
           | Some oldest => Ok (delete_at oldest procs)
           end
  end.

Record RunRequest : Type := MkRunRequest {
  RnName : string; RnCommand : list string; RnEnv : list string; RnWorkDir : string; RnUser : string;
  RnRestart : option RestartSpec
}.

(** [strings.Cut(entry, "=")] found, with a key that is not empty. *)
Definition assignment (entry : string) : bool :=
  match Cut entry "=" with (key, _, found) => found && negb (String.eqb key "") end.

Definition zero_status : ProcessStatus := MkProcessStatus (ProcessStateOther "") 0 None 0.

Definition newProcess (req : RunRequest) : result service_error Process :=
  match RnCommand req with
  | [] => Err (ERequest FNoCommand)
  | argv0 :: _ =>
      let name := if String.eqb (RnName req) "" then Base argv0 else RnName req in
      if negb (ValidProcessName name) then Err (ERequest FProcessName)
      else match restartOf (RnRestart req) with
           | Err e => Err (ERequest (FRestart e))
           | Ok restart =>
               if negb (forallb assignment (RnEnv req)) then Err (ERequest FEnvEntry)
               else Ok (MkProcess name (RnCommand req) (RnEnv req) (RnWorkDir req) (RnUser req) restart false zero_status)
           end
  end.

Definition with_status (s : ProcessStatus) (p : Process) : Process := set_PrStatus p s.

(** The write of a run, of a run that was refused, and of one that did not start. *)
Definition startedProcess (procs : list Process) (p : Process) (start : Z) (sb : Sandbox) : Sandbox :=
  set_LogStarts (withLogStart (LogStarts sb) (PrName p) start) (set_Processes procs sb).
Definition putBack (before : Sandbox) (sb : Sandbox) : Sandbox :=
  set_LogStarts (LogStarts before) (set_Processes (Processes before) sb).
Definition notStarted (p : Process) (sb : Sandbox) : Sandbox := set_Processes (withProcess (Processes sb) p) sb.

(** [recordKill], on the record. *)
Definition killed (name : string) (reports : list ProcessReport) (reaped : bool) (sb : Sandbox) : option (Process * Sandbox) :=
  let procs := merged (Processes sb) reports in
  match index_func (named name) procs with
  | None => None
  | Some i =>
      match procs !! i with
      | None => None
      | Some p =>
          let st := if reaped && negb (Ended (PSState (PrStatus p))) then set_PState (PrStatus p) ProcessKilled else PrStatus p in
          let p := MkProcess (PrName p) (PrCommand p) (PrEnv p) (PrWorkDir p) (PrUser p) (PrRestart p) true st in
          Some (p, set_Processes (<[i := p]> procs) sb)
      end
  end.

Section Processes.
Context `{Hst : Host}.

(** ** Who may run a command: exec.go *)

Definition resolveForExec (ref : string) : sop (string * Sandbox) :=
  id <~ resolve ref ;; sb <~ getRecord id ;; _ <~ ask (λ _, FailedGuard sb) ;; ret (id, sb).

Definition pausedRefusal : service_error := EState StatePaused CodeSandboxNotRunning.

Definition pausedMeanwhile (id : string) : sop bool :=
  sb <~ getRecord id ;;
  if bool_decide (SState sb = StatePaused) then ret true
  else dir <~ markedCheckpoint sb ;; ret (negb (String.eqb dir "")).

Definition pauseOutranks {A} (id : string) (e : service_error) : sop A :=
  a <~ attempt (getRecord id) ;;
  match a with
  | Err e2 => fail (EJoin e e2)
  | Ok sb => if negb (bool_decide (SState sb = StatePaused)) && negb (Pausing sb) then fail e else fail pausedRefusal
  end.

Definition readyForExec (ref : string) : sop (string * Sandbox) :=
  p <~ resolveForExec ref ;;
  let '(id, sb) := p in
  if bool_decide (SState sb = StateStopped) then fail (EState StateStopped CodeSandboxNotRunning)
  else if bool_decide (SState sb = StatePaused) then fail pausedRefusal
  else
    a <~ attempt (probe id) ;;
    match a with
    | Err e => pauseOutranks id e
    | Ok st =>
        if bool_decide (StState st = StateUnresponsive) then
          noteUnresponsive sb (StReason st) ;;; fail (EUnavailable "is unresponsive")
        else if Alive st then ret (id, sb)
        else
          paused <~ pausedMeanwhile id ;;
          if paused : bool then fail pausedRefusal
          else if OOMKilled st then fail (EUnavailable OOMKilledReason)
          else if negb (Exists st) then fail (EUnavailable "is gone from the provider")
          else fail (EState (StState st) CodeSandboxNotRunning)
    end.

(** ** Run and kill *)

Definition seen_procs (id : string) (sb : Sandbox) : sop (list Process) :=
  if negb (Live (SState sb)) then ret (Processes sb)
  else reports <~ table_ id ;; ret (merged (Processes sb) reports.1).

(** A write that follows a failed start: its own failure is joined to the start's. *)
Definition after_refusal {A} (e : call_error) (write : sop unit) (answer_ : service_error) : sop A :=
  a <~ attempt write ;;
  match a with Ok _ => fail answer_ | Err e2 => fail (EJoin (ECall e) e2) end.

Definition unstarted (id : string) (before : Sandbox) (p : Process) (e : call_error) : sop Process :=
  match e with
  | CProcessRunning => after_refusal e (mutate id (putBack before)) (EState (SState before) CodeNameTaken)
  | CUnsupported => after_refusal e (mutate id (putBack before)) (ECall e)
  | _ =>
      let exit := match e with CNotStarted code => Some (MkExitStatus code 0) | _ => PSExit (PrStatus p) end in
      let p := with_status (MkProcessStatus ProcessExited (PSRestarts (PrStatus p)) exit (PSStartedAt (PrStatus p))) p in
      after_refusal e (mutate id (notStarted p)) (ECall e)
  end.

Definition startProcess (id : string) (before : Sandbox) (procs : list Process) (p : Process) : sop Process :=
  start <~ try (PLogSize id (PrName p)) ;;
  now <~ read_host clock ;;
  let p := with_status (MkProcessStatus ProcessRunning 0 None now) p in
  mutate id (startedProcess (withProcess procs p) p start) ;;;
  a <~ do_call (PStartProcess id (MkProcessSpec (PrName p) (PrCommand p) (PrEnv p) (PrWorkDir p) (PrUser p) (PrRestart p))) ;;
  match a with
  | Ok _ => ret p
  | Err e => unstarted id before p e
  end.

Definition Run_locked (id : string) (proc : Process) : sop Process :=
  p <~ readyForExec id ;;
  let '(id, sb) := p in
  procs <~ seen_procs id sb ;;
  procs <~ ask (λ _, admitted sb procs (PrName proc)) ;;
  startProcess id sb procs proc.

Definition Run (ref : string) (req : RunRequest) : sop Process :=
  proc <~ ask (λ _, newProcess req) ;;
  id <~ resolve ref ;;
  locked id (Run_locked id proc).

Definition recordKill (id name : string) (reports : list ProcessReport) (reaped : bool) : sop Process :=
  before <~ getRecord id ;;
  update id (λ sb, snd <$> killed name reports reaped sb) ;;;
  match killed name reports reaped before with
  | Some (p, _) => ret p
  | None => fail (ERepo EMutate)
  end.

Definition Kill_locked (id name : string) (force : bool) : sop Process :=
  sb <~ getRecord id ;;
  _ <~ ask (λ _, FailedGuard sb) ;;
  check (EState (SState sb) CodeNoProcess) (existsb (named name) (Processes sb)) ;;;
  if bool_decide (SState sb = StateStopped) || bool_decide (SState sb = StateCreated) then recordKill id name [] false
  else
    _ <~ readyForExec id ;;
    try (PStopProcess id name (if force then 0 else StopGrace)) ;;;
    reports <~ table_ id ;;
    recordKill id name reports.1 true.

Definition Kill (ref name : string) (force : bool) : sop Process := id <~ resolve ref ;; locked id (Kill_locked id name force).

(** ** The process tick: restart.go *)

Definition recordExitChannel (id : string) (sb : Sandbox) (why : string) : sop unit :=
  if String.eqb (ExitChannel sb) why then ret tt else mutate id (set_ExitChannel why).

Definition same_statuses (a b : list Process) : bool :=
  (length a =? length b)%nat && forallb (λ p, sameStatus p.1 p.2) (zip a b).

Definition writeProcesses (id : string) (sb : Sandbox) : sop unit :=
  if negb (Supervised sb) then ret tt
  else
    reports <~ table_ id ;;
    recordExitChannel id sb reports.2 ;;;
    if same_statuses (merged (Processes sb) reports.1) (Processes sb) then ret tt
    else mutate id (λ rec, set_Processes (merged (Processes rec) reports.1) rec).

Definition recordProcesses (id : string) : sop unit :=
  tryLocked id tt (sb <~ getRecord id ;; writeProcesses id sb).

Definition recordProcessesNow (id : string) : sop unit := locked id (sb <~ getRecord id ;; writeProcesses id sb).

(** ** Starts: autostart.go, oom.go and Start *)

Fixpoint launch_go (id : string) (by_ : trigger) (skip : string → bool) (sb : Sandbox) (procs : list Process)
    (failures : list service_error) : sop (list service_error) :=
  match procs with
  | [] => ret failures
  | p :: rest =>
      if skip (PrName p) || negb (launchable p sb by_) then launch_go id by_ skip sb rest failures
      else
        rec <~ attempt (getRecord id) ;;
        match rec with
        | Err e => ret (failures ++ [e])
        | Ok rec =>
            a <~ attempt (startProcess id rec (Processes rec) p) ;;
            launch_go id by_ skip sb rest (match a with Ok _ => failures | Err e => failures ++ [e] end)
        end
  end.

(** [launch]: the processes that failed to start again, in order; none is no error. *)
Definition launch (id : string) (by_ : trigger) (skip : string → bool) : sop (list service_error) :=
  sb <~ getRecord id ;; launch_go id by_ skip sb (Processes sb) [].

Definition Start_locked (id : string) : sop Sandbox :=
  sb <~ getRecord id ;;
  _ <~ ask (λ _, FailedGuard sb) ;;
  check (wrongState sb CodeSandboxNotStopped) (bool_decide (SState sb = StateStopped)) ;;;
  a <~ attempt (start id) ;;
  _ <~ of_result (match a with Ok x => Ok x | Err e => Err (imageGone "start" e) end) ;;
  openPorts id ;;;
  mutate id (set_StoppedByOperator false) ;;;
  _ <~ attempt (launch id operatorStart (λ _, false)) ;;
  record_ id.

Definition Start (ref : string) : sop Sandbox := id <~ resolve ref ;; locked id (Start_locked id).

(** The names the guest still runs or waits to start again. *)
Definition live_names (reports : list ProcessReport) (name : string) : bool :=
  match latestReports reports !! name with Some r => negb (Ended (PSState (RStatus r))) | None => false end.

Definition autostart_locked (id : string) : sop (list service_error) :=
  sb <~ getRecord id ;;
  if negb (Owed sb) then ret []
  else if bool_decide (SState sb = StateStopped) then
    a <~ attempt (start id) ;;
    _ <~ of_result (match a with Ok x => Ok x | Err e => Err (imageGone "start" e) end) ;;
    launch id daemonStart (λ _, false)
  else
    reports <~ table_ id ;;
    if negb (String.eqb reports.2 "") then fail (EUnavailable reports.2)
    else launch id daemonStart (live_names reports.1).

Definition autostart (id : string) : sop (list service_error) := locked id (autostart_locked id).

Definition retryOOMStart (id : string) (due now : Z) (cause : service_error) : sop unit :=
  joined cause (mutate id (λ rec, set_SOOM (retryOOM (SState rec) (SOOM rec) due now) rec)).

Definition start_again_locked (seen : Sandbox) (now : Z) : sop unit :=
  let id := ID seen in
  let due := match SOOM seen with Some o => RestartAt o | None => 0 end in
  a <~ attempt (getRecord id) ;;
  match a with
  | Err e => if is_not_found e then ret tt else fail e
  | Ok current =>
      let at_ := match SOOM current with Some o => RestartAt o | None => 0 end in
      if negb (bool_decide (SState current = StateStopped)) || negb (RestartDue (SOOM current)) || negb (at_ =? due) then ret tt
      else
        started <~ attempt (start id) ;;
        match started with
        | Err e => retryOOMStart id at_ now e
        | Ok _ => _ <~ attempt (launch id daemonStart (λ _, false)) ;; ret tt
        end
  end.

Definition startAgainWhenDue (seen : Sandbox) (now : Z) : sop unit :=
  let due := match SOOM seen with Some o => RestartAt o | None => 0 end in
  if now <? due then ret tt else tryLocked (ID seen) tt (start_again_locked seen now).

(** [Liveness], one record of the tick. *)
Definition liveness_one (seen : Sandbox) (now : Z) : sop unit :=
  if Live (SState seen) then reconcileLive seen now
  else if bool_decide (SState seen = StateStopped) && RestartDue (SOOM seen) then startAgainWhenDue seen now
  else ret tt.

End Processes.
