(* ===== verification/ProcessTable.v ===== *)
(** * The processes a record keeps

    [admitted] and [withProcess] of [services/sandbox/process.go]: a record names each process once and keeps at most
    [MaxProcesses] of them; room is made by an entry that has ended, never by one that runs. *)

From S2P Require Import Prelude Ops GoStrings Netip Models SandboxFields Restart Store Secret SandboxID Repository ExecTable Host Lifecycle Reconcile Processes.
Local Open Scope Z_scope.

Lemma index_func_spec {A} (f : A → bool) l :
  match index_func f l with
  | Some i => ∃ x, l !! i = Some x ∧ f x = true
  | None => Forall (λ x, f x = false) l
  end.
Proof.
  induction l as [|y l IH]; cbn [index_func]; [constructor|]. destruct (f y) eqn:E; [by exists y|].
  destruct (index_func f l) as [i|]; [exact IH|]. by constructor.
Qed.

Lemma delete_at_Permutation {A} i (l : list A) x : l !! i = Some x → l ≡ₚ x :: delete_at i l.
Proof.
  intros H. unfold delete_at. rewrite <- (take_drop_middle l i x H) at 1. by rewrite Permutation_middle.
Qed.

Definition alive (p : Process) : Prop := Ended (PSState (PrStatus p)) = false.

(** One entry leaves the table. *)
Lemma delete_at_kept i procs x :
  procs !! i = Some x → NoDup (PrName <$> procs) →
  NoDup (PrName <$> delete_at i procs) ∧ PrName x ∉ PrName <$> delete_at i procs ∧ length procs = S (length (delete_at i procs)) ∧
  delete_at i procs ⊆ procs ∧ ∀ q, q ∈ procs → q = x ∨ q ∈ delete_at i procs.
Proof.
  intros Hx Hnd. pose proof (delete_at_Permutation i procs x Hx) as Hp. rewrite Hp in Hnd. rewrite fmap_cons in Hnd.
  apply NoDup_cons in Hnd as [Hni Hnd]. split_and!; [done|done|exact (Permutation_length Hp)|..].
  - intros q Hq. apply (elem_of_Permutation_proper q _ _ Hp). by right.
  - intros q Hq. apply (elem_of_Permutation_proper q _ _ Hp) in Hq. by apply elem_of_cons in Hq.
Qed.

Lemma named_eq name p : named name p = true ↔ PrName p = name.
Proof. unfold named. apply String.eqb_eq. Qed.

Lemma withProcess_new procs p : PrName p ∉ PrName <$> procs → withProcess procs p = procs ++ [p].
Proof.
  intros Hn. unfold withProcess. pose proof (index_func_spec (named (PrName p)) procs) as H.
  destruct (index_func _ _) as [i|]; [|done]. destruct H as (x & Hx & Hf%named_eq). destruct Hn. rewrite <- Hf.
  apply list_elem_of_fmap_2. by eapply list_elem_of_lookup_2.
Qed.

(** A run finds room or says why not. For a table that names each process once and is not over its bound: a run is
    refused only when a process of that name is alive, or when the table is full of live processes under other names;
    otherwise the new entry goes last, each name is still there once, the bound holds, and whatever entry made room had
    ended. *)
Theorem admitted_room sb procs p :
  NoDup (PrName <$> procs) → (length procs ≤ MaxProcesses)%nat →
  match admitted sb procs (PrName p) with
  | Ok kept =>
      withProcess kept p = kept ++ [p] ∧ NoDup (PrName <$> withProcess kept p) ∧ (length (withProcess kept p) ≤ MaxProcesses)%nat ∧
      kept ⊆ procs ∧ ∀ q, q ∈ procs → alive q → q ∈ kept
  | Err e =>
      (e = EState (SState sb) CodeNameTaken ∧ ∃ q, q ∈ procs ∧ PrName q = PrName p ∧ alive q) ∨
      (e = EState (SState sb) CodeProcessLimit ∧ length procs = MaxProcesses ∧ PrName p ∉ PrName <$> procs ∧ Forall alive procs)
  end.
Proof.
  intros Hnd Hlen. unfold admitted.
  assert (Hroom : ∀ procs' kept, NoDup (PrName <$> kept) → PrName p ∉ PrName <$> kept → (length kept < MaxProcesses)%nat → kept ⊆ procs' →
    (∀ q, q ∈ procs' → alive q → q ∈ kept) → withProcess kept p = kept ++ [p] ∧ NoDup (PrName <$> withProcess kept p) ∧
    (length (withProcess kept p) ≤ MaxProcesses)%nat ∧ kept ⊆ procs' ∧ ∀ q, q ∈ procs' → alive q → q ∈ kept).
  { intros procs' kept Hk Hn Hl Hsub Hal. rewrite (withProcess_new kept p Hn), fmap_app, length_app. cbn [fmap list_fmap length].
    split_and!; [done| |lia|done|done]. apply NoDup_app. split_and!; [done| |apply NoDup_singleton]. intros x Hx ->%list_elem_of_singleton. done. }
  pose proof (index_func_spec (named (PrName p)) procs) as Hi. destruct (index_func (named (PrName p)) procs) as [i|].
  - destruct Hi as (x & Hx & Hf%named_eq). rewrite Hx. destruct (negb (Ended _)) eqn:Ee.
    { left. split; [done|]. exists x. split_and!; [by eapply list_elem_of_lookup_2|done|]. by apply negb_true_iff in Ee. }
    apply negb_false_iff in Ee. destruct (delete_at_kept i procs x Hx Hnd) as (Hk & Hn & Hl & Hsub & Hin). rewrite Hf in Hn.
    replace (length (delete_at i procs) <? MaxProcesses)%nat with true by (symmetry; apply Nat.ltb_lt; lia).
    apply Hroom; [done|done|lia|done|]. intros q Hq Ha. destruct (Hin q Hq) as [->|]; [|done]. unfold alive in Ha. congruence.
  - assert (Hn : PrName p ∉ PrName <$> procs).
    { intros (q & Hq & Hin)%list_elem_of_fmap. rewrite Forall_forall in Hi. specialize (Hi q Hin). unfold named in Hi. by rewrite <- Hq, String.eqb_refl in Hi. }
    destruct (Nat.ltb_spec (length procs) MaxProcesses); [by apply Hroom|].
    pose proof (index_func_spec (λ p, Ended (PSState (PrStatus p))) procs) as Ho. destruct (index_func _ procs) as [i|].
    + destruct Ho as (x & Hx & He). destruct (delete_at_kept i procs x Hx Hnd) as (Hk & _ & Hl & Hsub & Hin).
      apply Hroom; [done| |lia|done|].
      * intros Hp. apply Hn. apply list_elem_of_fmap in Hp as (q & -> & Hq). by apply list_elem_of_fmap_2, Hsub.
      * intros q Hq Ha. destruct (Hin q Hq) as [->|]; [|done]. unfold alive in Ha. congruence.
    + right. split_and!; [done|lia|done|exact Ho].
Qed.

(** ** On a full table *)

Definition entry (name : string) (st : ProcessState) : Process :=
  MkProcess name [name] [] "" "" (MkRestartSpec RestartNo 0 0) false (MkProcessStatus st 0 None 0).

Definition full_table : list Process :=
  entry "p" ProcessExited :: ((λ n, entry n ProcessRunning) <$> ["a"; "b"; "c"; "d"; "e"; "f"; "g"; "h"; "i"; "j"; "k"; "l"; "m"; "n"; "o"]).

Lemma admitted_room_witness :
  (length full_table = MaxProcesses ∧
  match admitted web full_table "q" with
  | Ok kept =>
      withProcess kept (entry "q" ProcessRunning) = kept ++ [entry "q" ProcessRunning] ∧
      NoDup (PrName <$> withProcess kept (entry "q" ProcessRunning)) ∧
      (length (withProcess kept (entry "q" ProcessRunning)) ≤ MaxProcesses)%nat ∧
      kept ⊆ full_table ∧ ∀ q, q ∈ full_table → alive q → q ∈ kept
  | Err _ => False
  end).
Proof.
  split; [reflexivity|].
  assert (Hnd : NoDup (PrName <$> full_table)) by (apply (bool_decide_unpack _); vm_compute; reflexivity).
  pose proof (admitted_room web full_table (entry "q" ProcessRunning) Hnd ltac:(vm_compute; lia)) as H.
  change (PrName (entry "q" ProcessRunning)) with "q" in H. destruct (admitted web full_table "q") eqn:E; [exact H|].
  vm_compute in E. discriminate E.
Defined.
