(* ===== verification/Checkpoint.v ===== *)
(** * Pause, resume and fork

    [services/sandbox/checkpoint.go]. A pause marks the record before it asks the substrate for a checkpoint, so that a
    daemon cut between the two finds what to believe; a fork claims a record, a directory and a network, and gives
    back what it claimed in the reverse order when the substrate refuses. *)

From S2P Require Import Prelude Ops GoStrings Netip Models SandboxFields Restart Store Secret SandboxID Repository ExecTable Host Lifecycle Reconcile.
Local Open Scope Z_scope.
Local Open Scope op_scope.

Definition gone (sb : Sandbox) : Sandbox := set_Pausing false (set_PID 0 (set_SState StateStopped sb)).

(** The network as the record keeps it. *)
Definition networked (net : NetworkSpec) (sb : Sandbox) : Sandbox :=
  set_HostInterface (NSHostInterface net) (set_Address (NSAddress net) (set_NetnsPath (NSNetnsPath net) sb)).

(** [diskRefused]: only a disk that does not fit, or a bound it cannot take, is the request's fault. *)
Definition diskRefused (e : service_error) : service_error :=
  match e with
  | ECall CNoRoom | ECall CBound => ERequest FDisk
  | e => e
  end.

Section Checkpoint.
Context `{Hst : Host}.

Definition requireVerb (verb : string) : sop unit :=
  let claimed :=
    if String.eqb verb "pause" then CPause capabilities
    else if String.eqb verb "resume" then CResume capabilities
    else if String.eqb verb "fork" then CFork capabilities
    else if String.eqb verb "port" then CPort capabilities
    else if String.eqb verb "swap" then CSwap capabilities
    else false in
  check (EVerb verb) claimed.

(** [fail]: the record says why, and the cause is answered. *)
Definition fail_ {A} (id : string) (cause : service_error) : sop A := joined cause (mutate id (failed cause)).

Definition settleLivePause (id : string) (st : Status) : sop unit :=
  sb <~ getRecord id ;;
  dir <~ cutPause sb st ;;
  if negb (String.eqb dir "") then recordPaused id dir ;;; fail EStays
  else
    held <~ markedCheckpoint sb ;;
    if negb (String.eqb held "") && bool_decide (StState st = StatePaused) then fail EStays
    else dropMark id.

Definition reconcileGone (id dir : string) : sop unit :=
  st <~ status id "pause" ;;
  if Alive st then settleLivePause id st
  else
    held <~ hasCheckpoint dir ;;
    if held : bool then recordPaused id dir ;;; fail EStays
    else mutate id gone ;;; fail EStays.

Definition Pause_locked (id : string) : sop Sandbox :=
  sb <~ getRecord id ;;
  _ <~ ask (λ _, FailedGuard sb) ;;
  check (wrongState sb CodeSandboxNotRunning) (bool_decide (SState sb = StateRunning)) ;;;
  closePorts id ;;;
  dir <~ CheckpointDir id ;;
  try (CkRemoveFile dir) ;;;
  mutate id (set_Pausing true) ;;;
  a <~ do_call (PPause id dir) ;;
  match a with
  | Ok _ => recordPaused id dir ;;; record_ id
  | Err (CUnresponsive reason) =>
      recordUnresponsive id sb reason ;;; fail (EState StateUnresponsive CodeSandboxNotRunning)
  | Err CLost => fail_ id (ECall CLost)
  | Err e =>
      g <~ attempt (reconcileGone id dir) ;;
      match g with
      | Err e2 => fail (EJoin (ECall e) e2)
      | Ok _ => fail (diskRefused (ECall e))
      end
  end.

Definition Pause (ref : string) : sop Sandbox :=
  requireVerb "pause" ;;; id <~ resolve ref ;; locked id (Pause_locked id).

Definition Resume_locked (id : string) : sop Sandbox :=
  sb <~ getRecord id ;;
  _ <~ ask (λ _, FailedGuard sb) ;;
  check (EState (SState sb) CodeSandboxNotPaused) (bool_decide (SState sb = StatePaused)) ;;;
  check (EState (SState sb) CodeNoCheckpoint) (negb (String.eqb (Checkpoint sb) "")) ;;;
  _ <~ try (NAllocate id) ;;
  a <~ do_call (PResume id (Checkpoint sb)) ;;
  match a with
  | Err e =>
      g <~ attempt (Reconcile id true) ;;
      fail (imageGone "resume" (match g with Ok _ => ECall e | Err e2 => EJoin (ECall e) e2 end))
  | Ok _ =>
      r <~ do_call (NReapply id) ;;
      match r with
      | Err e => joined (ECall e) (Reconcile id true)
      | Ok _ => RecordRunning id true ;;; openPorts id ;;; record_ id
      end
  end.

Definition Resume (ref : string) : sop Sandbox :=
  requireVerb "resume" ;;; id <~ resolve ref ;; locked id (Resume_locked id).

(** ** Fork *)

(** [readSource], the source held by its lock. *)
Definition readSource (id : string) : sop Sandbox :=
  sb <~ getRecord id ;; _ <~ ask (λ _, FailedGuard sb) ;; ret sb.

(** The step a copy's record goes back by: an rm that came first has already deleted it. *)
Definition forget_copy (id : string) : sop unit :=
  a <~ attempt (deleteRecord id) ;;
  match a with Ok _ => ret tt | Err e => if is_not_found e then ret tt else fail e end.

(** The part of [claimCopy] behind the push of its network release. *)
Definition copy_network (id : string) (policy : string) (front : bool) : sop NetworkSpec :=
  net <~ AllocateNetwork id ;;
  let net := resolvedThrough net policy in
  mutate id (networked net) ;;;
  (if front then try (NReapply id) else ret tt) ;;;
  ret net.

Definition copied (name : string) (now : Z) (source : string) (src : Sandbox) `{Host} : Sandbox := {|
  ID := ""; Name := name; Image := Image src; Digest := Digest src; Snapshot := ""; ForkedFrom := source;
  Provider := provider_name; Kernel := Kernel src; SState := StateCreated; ExitChannel := ""; StoppedReason := "";
  FailedReason := ""; FailedPublic := ""; UnresponsiveReason := ""; SOOM := None; Checkpoint := ""; Pausing := false;
  PID := 0; NetnsPath := ""; Address := PrefixZero; HostInterface := ""; SResources := SResources src;
  Processes := Processes src; StoppedByOperator := false; LogStarts := []; Secrets := Secrets src;
  SPolicyName := SPolicyName src; Ports := []; StartedAt := 0; RunStartedAt := 0; CreatedAt := now |}.

(** The part of [Fork] after the copy has its record, its lock, its directory and its network. *)
Definition bring_up (source id : string) (src : Sandbox) (name dir : string) (net : NetworkSpec) (claims : list (sop unit)) : sop Sandbox :=
  let claims := try (PRemove id) :: claims in
  let spec := MkSandboxSpec id name "" "" "" dir [] "" "" net (SResources src) "" None in
  a <~ do_call (PFork source spec) ;;
  match a with
  | Err e =>
      ended <~ read_host ctx_ended ;;
      if ended : bool then
        p <~ attempt (status id "fork") ;;
        match p with
        | Err e2 => fail (EJoin (ECall e) e2)
        | Ok st => if Alive st then fail (ECall e) else unwinding (ECall e) claims
        end
      else unwinding (imageGone "fork" (diskRefused (ECall e))) claims
  | Ok _ =>
      r <~ do_call (NReapply id) ;;
      match r with
      | Err e => joined (ECall e) (Reconcile id true)
      | Ok _ => RecordRunning id true ;;; record_ id
      end
  end.

Definition create_record (sb : Sandbox) : sop Sandbox :=
  c <~ do_call (RCreate (SResources sb)) ;;
  on_repo (Create (MkCreateCalls (cc_claim c) [] (cc_write c) (cc_link c) (cc_remove c)) sb).

Definition Fork_locked (source name : string) : sop Sandbox :=
  src <~ readSource source ;;
  check (wrongState src CodeSandboxNotRunning) (bool_decide (SState src = StateRunning)) ;;;
  check EForkRefused (fork_check src) ;;;
  now <~ read_host clock ;;
  copy <~ create_record (copied name now source src) ;;
  let id := ID copy in
  let record := forget_copy id in
  got <~ do_call (LLock id) ;;
  if negb got then unwinding EBusy [record]
  else
    there <~ attempt (getRecord id) ;;
    match there with
    | Err e => unwinding e [record]
    | Ok _ =>
        d <~ attempt (Dir id) ;;
        match d with
        | Err e => unwinding e [record]
        | Ok dir =>
            net <~ attempt (copy_network id (SPolicyName src) (fronted_record src)) ;;
            match net with
            | Err e => unwinding e [try (NRelease id); record]
            | Ok net => bring_up source id src name dir net [try (NRelease id); record]
            end
        end
    end.

Definition valid_copy_name (name : string) : sop unit :=
  ask (λ _, if String.eqb name "" then Ok tt else map_err (λ e, ERepo (ESpelling e)) (ValidName name)).

Definition Fork (ref name : string) : sop Sandbox :=
  requireVerb "fork" ;;; valid_copy_name name ;;; source <~ resolve ref ;; locked source (Fork_locked source name).

End Checkpoint.
