(* ===== verification/Ports.v ===== *)
(** * Host ports forwarded into sandboxes

    [services/sandbox/ports.go]: the record of each sandbox names the host ports that carry into it. One host port
    belongs to one sandbox, whatever state the sandbox is in, and the host's listeners follow the records. *)

From S2P Require Import Prelude Ops GoStrings Netip Models SandboxFields Restart Store Secret SandboxID Repository ExecTable Host Lifecycle Checkpoint.
Local Open Scope Z_scope.
Local Open Scope op_scope.

Definition port_le (a b : PortForward) : Prop := HostPort a ≤ HostPort b.
#[export] Instance port_le_dec : RelDecision port_le.
Proof. intros a b. unfold port_le. apply _. Defined.
#[export] Instance port_le_total : Total port_le.
Proof. intros a b. unfold port_le. lia. Qed.
#[export] Instance port_le_trans : Transitive port_le.
Proof. intros a b c. unfold port_le. lia. Qed.

Definition byHostPort (ports : list PortForward) : list PortForward := merge_sort port_le ports.

Definition without_port (port : Z) (ports : list PortForward) : list PortForward := filter (λ p, HostPort p ≠ port) ports.

Definition upsertPort (ports : list PortForward) (spec : PortForward) : list PortForward :=
  byHostPort (without_port (HostPort spec) ports ++ [spec]).

Definition validPort (spec : PortForward) : result service_error unit :=
  if HostPort spec =? 0 then Err (ERequest FHostPort)
  else if GuestPort spec =? 0 then Err (ERequest FGuestPort)
  else Ok tt.

Fixpoint valid_ports_go (seen : gset Z) (ports : list PortForward) : result service_error unit :=
  match ports with
  | [] => Ok tt
  | spec :: rest =>
      match validPort spec with
      | Err e => Err e
      | Ok _ =>
          if bool_decide (HostPort spec ∈ seen) then Err (ERequest FPortTwice)
          else valid_ports_go ({[HostPort spec]} ∪ seen) rest
      end
  end.

Definition validPorts : list PortForward → result service_error unit := valid_ports_go ∅.

(** [nameOf]. *)
Definition nameOf (id : string) (sb : Sandbox) : string := if String.eqb (Name sb) "" then id else Name sb.

Definition forwards (port : Z) (sb : Sandbox) : bool := existsb (λ p, HostPort p =? port) (Ports sb).

(** [portUnclaimed]: no sandbox other than [id] forwards the port; [id] is empty for a create. *)
Definition port_unclaimed (sandboxes : list Sandbox) (id : string) (port : Z) : result service_error unit :=
  match first_match (λ sb, negb (String.eqb (ID sb) id) && forwards port sb) sandboxes with
  | Some sb => Err (EHeld (nameOf (ID sb) sb))
  | None => Ok tt
  end.

(** [portRefused]. *)
Definition portRefused (e : call_error) : service_error :=
  match e with
  | CBind true _ => EPortInUse
  | CBind false true => ERequest FPortDenied
  | e => ECall e
  end.

Section Ports.
Context `{Hst : Host}.

Definition portUnclaimed (id : string) (port : Z) : sop unit :=
  ask (λ s, port_unclaimed (ListReadable (repo_of s)) id port).

Fixpoint claimPorts (ports : list PortForward) : sop unit :=
  match ports with
  | [] => ret tt
  | spec :: rest =>
      portUnclaimed "" (HostPort spec) ;;;
      a <~ do_call (FProbe spec) ;;
      match a with
      | Err e => fail (portRefused e)
      | Ok _ => claimPorts rest
      end
  end.

Definition writePorts (id : string) (ports : list PortForward) : sop unit := mutate id (set_Ports ports).

(** Two steps that both run: [errors.Join(a(), b())], with the error of a restore already made before them. *)
Definition refusedPort {A} (id : string) (was : list PortForward) (port : Z) (e : call_error) : sop A :=
  closed <~ do_call (FClose id port) ;;
  restore <~ (match first_match (λ p, HostPort p =? port) was with
              | Some old => do_call (FOpen id old)
              | None => ret closed
              end) ;;
  written <~ attempt (writePorts id was) ;;
  match written, restore with
  | Ok _, Ok _ => fail (portRefused e)
  | Err w, Ok _ => fail (EJoin (portRefused e) w)
  | Ok _, Err c => fail (EJoin (portRefused e) (ECall c))
  | Err w, Err c => fail (EJoin (portRefused e) (EJoin w (ECall c)))
  end.

(** [holdForPorts], the sandbox held by its lock. *)
Definition heldForPorts (id : string) : sop Sandbox :=
  sb <~ getRecord id ;; _ <~ ask (λ _, FailedGuard sb) ;; ret sb.

Definition AddPort_locked (id : string) (spec : PortForward) : sop Sandbox :=
  sb <~ heldForPorts id ;;
  portUnclaimed id (HostPort spec) ;;;
  writePorts id (upsertPort (Ports sb) spec) ;;;
  (if bool_decide (SState sb = StateRunning) then
     a <~ do_call (FOpen id spec) ;;
     match a with
     | Ok _ => ret tt
     | Err e => refusedPort id (Ports sb) (HostPort spec) e
     end
   else ret tt) ;;;
  record_ id.

Definition AddPort (ref : string) (hostPort guestPort : Z) (public : bool) : sop Sandbox :=
  requireVerb "port" ;;;
  let spec := MkPortForward hostPort guestPort public in
  _ <~ ask (λ _, validPort spec) ;;
  id <~ resolve ref ;;
  locked id (AddPort_locked id spec).

Definition RemovePort_locked (id : string) (port : Z) : sop unit :=
  sb <~ heldForPorts id ;;
  let kept := without_port port (Ports sb) in
  if (length kept =? length (Ports sb))%nat then fail (EPortNotFound port)
  else writePorts id kept ;;; try (FClose id port).

Definition RemovePort (ref : string) (port : Z) : sop unit := id <~ resolve ref ;; locked id (RemovePort_locked id port).

Definition sync_locked (id : string) : sop unit :=
  a <~ attempt (getRecord id) ;;
  match a with
  | Err e => if is_not_found e then closePorts id else fail e
  | Ok sb => if bool_decide (SState sb = StateRunning) then try (FSet id (Ports sb)) else closePorts id
  end.

Definition syncPorts (id : string) : sop unit := tryLocked id tt (sync_locked id).

Definition sync_ids (held : list string) (sandboxes : list Sandbox) : list string :=
  foldl (λ ids sb, if negb (bool_decide (Ports sb = [])) && negb (contains ids (ID sb)) then ids ++ [ID sb] else ids) held sandboxes.

(** Each sandbox's outcome: one that fails stops no other. *)
Fixpoint sync_each (ids : list string) : sop (list (result service_error unit)) :=
  match ids with
  | [] => ret []
  | id :: rest => a <~ attempt (syncPorts id) ;; xs <~ sync_each rest ;; ret (a :: xs)
  end.

Definition SyncPorts (sandboxes : list Sandbox) : sop (list (result service_error unit)) :=
  held <~ do_call FSandboxes ;; sync_each (sync_ids held sandboxes).

End Ports.
