(* ===== verification/Creation.v ===== *)
(** * Creating a sandbox

    [services/sandbox/service.go] and [snapshots.go]: the request and what is refused before anything is claimed, the
    pending record [Prepare] writes, and [Complete], which builds and starts the sandbox and gives back what it
    claimed when a step before the commit point fails. *)

From S2P Require Import Prelude Ops GoStrings Netip Models SandboxFields Restart Store Secret SandboxID Repository ExecTable Host Lifecycle Reconcile Processes Checkpoint Ports EgressPolicy.
Local Open Scope Z_scope.
Local Open Scope op_scope.

(** ** Bounds *)

Definition MaxMemoryMiB : Z := 2 ^ 24.
Definition MaxDiskSize : Z := 2 ^ 44 - 4096 * 8 * 4096.
Definition MaxDiskMiB : Z := Z.shiftr MaxDiskSize 20.
Definition DefaultSwapMiB : Z := 2048.
Definition DefaultDiskMiB : Z := 10240.

Record ResourceRequest : Type := MkResourceRequest {
  RqMemoryMiB : option Z; RqVCPUs : Z; RqDiskMiB : Z; RqSwapMiB : option Z
}.

Record CreateRequest : Type := MkCreateRequest {
  CrImage : string;
  CrSnapshot : string;
  CrName : string;
  CrEnv : list string;
  CrWorkDir : string;
  CrUser : string;
  CrSecrets : list string;
  CrPolicy : string;
  CrResources : ResourceRequest;
  CrPorts : list PortForward
}.

Definition bounds (r : ResourceRequest) : Resources :=
  MkResources (default 0 (RqMemoryMiB r)) (RqVCPUs r) (RqDiskMiB r) (default 0 (RqSwapMiB r)).

Definition fronted (req : CreateRequest) : bool := negb (String.eqb (CrPolicy req) "") || negb (bool_decide (CrSecrets req = [])).

Definition TrustEnv : list string := ["SSL_CERT_FILE"; "REQUESTS_CA_BUNDLE"; "NODE_EXTRA_CA_CERTS"; "CURL_CA_BUNDLE"].

Definition env_key (entry : string) : string := (Cut entry "=").1.1.

(** [bundle.TrustsUser]. *)
Definition TrustsUser (env : list string) : bool := negb (existsb (λ entry, contains TrustEnv (env_key entry)) env).

Definition DiskBound (r : Resources) : Z := if DiskMiB r <=? 0 then DefaultDiskMiB else DiskMiB r.

(** ** [validate] *)

Definition valid_entry (secrets : list string) (entry : string) : result service_error unit :=
  let '(key, _, found) := Cut entry "=" in
  if negb found || String.eqb key "" then Err (ERequest FEnvEntry)
  else if contains secrets key then Err (ERequest FEnvSecret)
  else Ok tt.

Fixpoint valid_secrets (before secrets : list string) : result service_error unit :=
  match secrets with
  | [] => Ok tt
  | name :: rest =>
      if negb (is_ok (Secret.ValidName name)) then Err (ERequest FSecretName)
      else if contains before name then Err (ERequest FSecretTwice)
      else if contains TrustEnv name then Err (ERequest FSecretTrust)
      else valid_secrets (before ++ [name]) rest
  end.

Definition guard (b : bool) (e : service_error) (k : result service_error unit) : result service_error unit :=
  if b then Err e else k.

Definition validate (req : CreateRequest) : result service_error unit :=
  let res := bounds (CrResources req) in
  guard (String.eqb (CrImage req) "" && String.eqb (CrSnapshot req) "") (ERequest FNoSource) (
  guard (negb (String.eqb (CrImage req) "") && negb (String.eqb (CrSnapshot req) "")) (ERequest FBothSources) (
  match (if String.eqb (CrName req) "" then Ok tt else SandboxID.ValidName (CrName req)) with
  | Err e => Err (ERepo (ESpelling e))
  | Ok _ =>
  guard (MemoryMiB res <? 0) (ERequest FMemoryNegative) (
  guard (MaxMemoryMiB <? MemoryMiB res) (ERequest FMemoryPast) (
  guard (RqVCPUs (CrResources req) <? 0) (ERequest FVCPUNegative) (
  guard (RqDiskMiB (CrResources req) <? 0) (ERequest FDiskNegative) (
  guard (MaxDiskMiB <? RqDiskMiB (CrResources req)) (ERequest FDiskPast) (
  guard (SwapMiB res <? 0) (ERequest FSwapNegative) (
  guard (MaxDiskMiB <? SwapMiB res) (ERequest FSwapPast) (
  match validPorts (CrPorts req) with
  | Err e => Err e
  | Ok _ =>
  guard (negb (String.eqb (CrPolicy req) "") && negb (is_ok (PolicyValidName (CrPolicy req)))) (ERequest FPolicyName) (
  guard (fronted req && negb (TrustsUser (CrEnv req))) (ERequest FTrustEnv) (
  match first_err (valid_entry (CrSecrets req)) (CrEnv req) with
  | Err e => Err e
  | Ok _ => valid_secrets [] (CrSecrets req)
  end)) end))))))) end)).

(** ** What a create runs: runspec.go *)

Definition firstNonEmpty (a b : string) : string := if String.eqb a "" then b else a.

(** [byKey]: the last override of each key. *)
Definition by_key (overrides : list string) : gmap string string :=
  foldl (λ m entry, let '(key, _, found) := Cut entry "=" in if found : bool then <[key := entry]> m else m) ∅ overrides.

(** The first loop: the image's entries in order, each overridden in place; and the keys so applied. *)
Fixpoint merge_base (m : gmap string string) (imageEnv : list string) : list string * gset string :=
  match imageEnv with
  | [] => ([], ∅)
  | entry :: rest =>
      let '(key, _, found) := Cut entry "=" in
      let '(env, applied) := merge_base m rest in
      if negb found then (env, applied)
      else match m !! key with
           | None => (entry :: env, applied)
           | Some override => (override :: env, {[key]} ∪ applied)
           end
  end.

(** The second loop: the overrides of keys not yet applied, each key once. *)
Fixpoint merge_rest (m : gmap string string) (applied : gset string) (overrides : list string) : list string :=
  match overrides with
  | [] => []
  | entry :: rest =>
      let '(key, _, found) := Cut entry "=" in
      if negb found || bool_decide (key ∈ applied) then merge_rest m applied rest
      else default "" (m !! key) :: merge_rest m ({[key]} ∪ applied) rest
  end.

Definition MergeEnv (imageEnv overrides : list string) : list string :=
  let m := by_key overrides in
  let '(env, applied) := merge_base m imageEnv in
  env ++ merge_rest m applied overrides.

Definition resolve_spec (s : SandboxSpec) (cfg : ImageConfig) : SandboxSpec :=
  MkSandboxSpec (SpID s) (firstNonEmpty (SpName s) (SpID s)) (SpRootFS s) (SpRootDisk s) (SpBaseDisk s) (SpStateDir s)
    (MergeEnv (ICEnv cfg) (SpEnv s)) (firstNonEmpty (SpWorkDir s) (ICWorkDir cfg)) (firstNonEmpty (SpUser s) (ICUser cfg))
    (SpNetwork s) (SpResources s) (SpSeed s) (SpProxyCA s).

Section Creation.
Context `{Hst : Host}.

(** ** Prepare *)

Definition resources (r : ResourceRequest) : Resources :=
  let res := bounds r in
  let memory := match default_memory with
                | Some d => if MemoryMiB res =? 0 then d else MemoryMiB res
                | None => MemoryMiB res
                end in
  let swap := match RqSwapMiB r with
              | None => if CSwap capabilities then DefaultSwapMiB else SwapMiB res
              | Some _ => SwapMiB res
              end in
  MkResources memory (VCPUs res) (DiskMiB res) swap.

Fixpoint grantSecrets_go (env names : list string) : sop (list string) :=
  match names with
  | [] => ret env
  | name :: rest =>
      a <~ do_call (SGet name) ;;
      match a with
      | Ok placeholder => grantSecrets_go (env ++ [name +:+ "=" +:+ placeholder]) rest
      | Err CNotFound => fail (ERequest FNoSecret)
      | Err e => fail (ECall e)
      end
  end.

Definition grantSecrets (req : CreateRequest) : sop (list string) := grantSecrets_go (CrEnv req) (CrSecrets req).

Definition policyRefused (name : string) (e : call_error) : service_error :=
  match e with
  | CNotFound => ERequest FNoPolicy
  | e => if negb (is_ok (PolicyValidName name)) then ERequest FPolicyName else ECall e
  end.

Definition getPolicy (name : string) : sop Policy :=
  a <~ do_call (PolicyGet name) ;; match a with Ok p => ret p | Err e => fail (policyRefused name e) end.

Definition proxyCA : sop string := if has_proxy_ca then try ProxyCA else fail (ERequest FNoProxyCA).

(** ** Snapshots: what a create is seeded from *)

Record seeded : Type := MkSeeded { seed_req : CreateRequest; seed_id : string; seed_img : Image_; seed_files : string }.

Definition with_source (image : string) (res : ResourceRequest) (req : CreateRequest) : CreateRequest :=
  MkCreateRequest image (CrSnapshot req) (CrName req) (CrEnv req) (CrWorkDir req) (CrUser req) (CrSecrets req) (CrPolicy req)
    res (CrPorts req).

(** The bounds a snapshot fills in, and the disk it refuses. *)
Definition seeded_resources (snap : Snapshot_) (r : ResourceRequest) : result service_error ResourceRequest :=
  let disk := if RqDiskMiB r =? 0 then SnDiskMiB snap else RqDiskMiB r in
  let memory := match RqMemoryMiB r with None => SnMemoryMiB snap | Some m => m end in
  let r := MkResourceRequest (Some memory) (RqVCPUs r) disk (RqSwapMiB r) in
  let need := Z.shiftr (SnSize snap + 2 ^ 20 - 1) 20 in
  let bound := DiskBound (bounds r) in
  if admits_disk && (disk <? SnDiskMiB snap) then Err (ERequest FSnapshotDisk)
  else if negb admits_disk && (bound <? SnDiskMiB snap) && (bound <? need) then Err (ERequest FSnapshotDisk)
  else Ok r.

Definition readSeed (id : string) (req : CreateRequest) : sop seeded :=
  snap <~ try (SnapGet id) ;;
  check (ERequest FSnapshotProvider) (String.eqb (SnProvider snap) provider_name) ;;;
  found <~ try (ILookup (SnImage snap)) ;;
  match found with
  | None => fail (ERequest FSnapshotImageGone)
  | Some img =>
      check (ERequest FSnapshotImageMoved) (String.eqb (IDigest img) (SnDigest snap)) ;;;
      res <~ ask (λ _, seeded_resources snap (CrResources req)) ;;
      files <~ try (SnapFiles id) ;;
      ret (MkSeeded (with_source (SnImage snap) res req) id img files)
  end.

(** [snapshotLock]: a snapshot's lock never meets a sandbox's, whose id holds no slash. *)
Definition snapshotLock (id : string) : string := "snapshot/" +:+ id.

Definition seed (ref : string) (req : CreateRequest) : sop seeded :=
  id <~ try (SnapResolve ref) ;; locked (snapshotLock id) (readSeed id req).

Definition pending_record (req : CreateRequest) (ref snapshot : string) (res : Resources) (now : Z) : Sandbox := {|
  ID := ""; Name := CrName req; Image := ref; Digest := ""; Snapshot := snapshot; ForkedFrom := "";
  Provider := provider_name; Kernel := ""; SState := StatePending; ExitChannel := ""; StoppedReason := "";
  FailedReason := ""; FailedPublic := ""; UnresponsiveReason := ""; SOOM := None; Checkpoint := ""; Pausing := false;
  PID := 0; NetnsPath := ""; Address := PrefixZero; HostInterface := ""; SResources := res;
  Processes := []; StoppedByOperator := false; LogStarts := []; Secrets := CrSecrets req;
  SPolicyName := CrPolicy req; Ports := byHostPort (CrPorts req); StartedAt := 0; RunStartedAt := 0; CreatedAt := now |}.

(** The bounds the record keeps, or why the host cannot give them. *)
Definition host_bounds (res : Resources) : result service_error Resources :=
  if (0 <? host_memory_mib) && (host_memory_mib <? MemoryMiB res) then Err (ERequest FPastHostMemory)
  else if (0 <? host_cpus) && (host_cpus <? VCPUs res) then Err (ERequest FPastHostCPUs)
  else
    let res := MkResources (MemoryMiB res) (VCPUs res) (DiskBound res) (SwapMiB res) in
    if DiskMiB res <=? SwapMiB res then Err (ERequest FSwapPastDisk) else Ok res.

(** The record's write, the disk admitted inside it: an admission whose record then failed is given back. *)
Definition create_admitted (sb : Sandbox) : sop Sandbox :=
  c <~ do_call (RCreate (SResources sb)) ;;
  let c := MkCreateCalls (cc_claim c) (if admits_disk then cc_admit c else []) (cc_write c) (cc_link c) (cc_remove c) in
  reserved <~ ask (λ s, Ok (match (claimIn (cc_claim c) (repo_of s)).2 with
                            | Ok id => if admits_disk && forallb (λ b, b) (cc_admit c) then Some id else None
                            | Err _ => None
                            end)) ;;
  a <~ attempt (on_repo (Create c sb)) ;;
  match a, reserved with
  | Ok sb, _ => ret sb
  | Err e, Some id => do_call (PReleaseDisk ("sandboxes/" +:+ id)) ;;; fail e
  | Err e, None => fail e
  end.

Definition prepare_seeded (req : CreateRequest) (snapshot : string) : sop Sandbox :=
  let res := resources (CrResources req) in
  (if 0 <? SwapMiB res then requireVerb "swap" else ret tt) ;;;
  a <~ do_call (PCheckResources res) ;;
  _ <~ of_result (match a with Ok x => Ok x | Err _ => Err (ERequest FResources) end) ;;
  res <~ ask (λ _, host_bounds res) ;;
  a <~ do_call (ICanonical (CrImage req)) ;;
  ref <~ of_result (match a with Ok x => Ok x | Err _ => Err (ERequest FImageRef) end) ;;
  _ <~ grantSecrets req ;;
  (if negb (String.eqb (CrPolicy req) "") then _ <~ getPolicy (CrPolicy req) ;; ret tt else ret tt) ;;;
  (if fronted req then _ <~ proxyCA ;; ret tt else ret tt) ;;;
  (if negb (bool_decide (CrPorts req = [])) then requireVerb "port" ;;; claimPorts (CrPorts req) else ret tt) ;;;
  now <~ read_host clock ;;
  create_admitted (pending_record req ref snapshot res now).

Definition Prepare (req : CreateRequest) : sop Sandbox :=
  _ <~ ask (λ _, validate req) ;;
  if negb (String.eqb (CrSnapshot req) "") then
    seed <~ seed (CrSnapshot req) req ;; prepare_seeded (seed_req seed) (seed_id seed)
  else prepare_seeded req "".

(** ** Complete *)

(** [pull]: what ended the pull, when a verb did, outranks the pull's own answer. *)
Definition pull (id : string) (req : CreateRequest) : sop Image_ :=
  a <~ do_call (IPull (CrImage req)) ;;
  cause <~ do_call (PullEndedBy id) ;;
  match cause, a with
  | Some verb, _ => fail (ECancelled verb)
  | None, Ok img => ret img
  | None, Err e => fail (ECall e)
  end.

(** What [recordCreated] copies from the substrate. *)
Definition created_with (st : Status) (net : NetworkSpec) (digest : string) (sb : Sandbox) : Sandbox :=
  set_Kernel (default "" guest_kernel) (set_Digest digest (networked net (set_PID (StPID st) sb))).

Definition recordCreated (id : string) (net : NetworkSpec) (digest : string) : sop unit :=
  st <~ probe id ;; mutate id (created_with st net digest).

(** [userRefused], then [diskRefused], [noCABundle] and [imageGone], on what [Provider.Create] answered. *)
Definition create_refused (e : call_error) : service_error :=
  imageGone "create" (match diskRefused (match e with CUser => ERequest FUserGroup | e => ECall e end) with
                      | ECall CNoCABundle => ENoCABundle
                      | e => e
                      end).

(** The outcome of the build: what to give back on a refusal, or [committed]. *)
Definition build (id : string) (req : CreateRequest) (env : list string) (ca : option string) (img : Image_) (files dir : string)
  : sop unit :=
  a <~ attempt (AllocateNetwork id) ;;
  match a with
  | Err e => unwinding e [try (NRelease id)]
  | Ok net =>
      let net := resolvedThrough net (CrPolicy req) in
      let spec := resolve_spec (MkSandboxSpec id (CrName req) (IRootFS img) (IDisk img) (IErofs img) dir env (CrWorkDir req) (CrUser req)
                    net (resources (CrResources req)) files ca) (IConfig img) in
      let claims := [try (PRemove id); try (NRelease id)] in
      a <~ do_call (PCreate spec) ;;
      match a with
      | Err e => unwinding (create_refused e) claims
      | Ok _ =>
          a <~ attempt (recordCreated id net (IDigest img) ;;; (if fronted req then try (NReapply id) else ret tt)) ;;
          match a with
          | Err e => unwinding e claims
          | Ok _ =>
              a <~ do_call (PStart id) ;;
              match a with
              | Ok _ => ret tt
              | Err e =>
                  ended <~ read_host ctx_ended ;;
                  if ended : bool then fail (ECall e)
                  else unwinding (imageGone "create" (ECall e)) claims
              end
          end
      end
  end.

Definition to_build (id : string) (req : CreateRequest) (sb : Sandbox) : sop unit :=
  s <~ (if negb (String.eqb (Snapshot sb) "") then x <~ seed (Snapshot sb) req ;; ret (Some x) else ret None) ;;
  let req := match s with Some s => seed_req s | None => req end in
  env <~ grantSecrets req ;;
  ca <~ (if fronted req then c <~ proxyCA ;; ret (Some c) else ret None) ;;
  img <~ (match s with Some s => ret (seed_img s) | None => pull id req end) ;;
  dir <~ Dir id ;;
  build id req env ca img (match s with Some s => seed_files s | None => "" end) dir.

(** Past the commit point the sandbox is live: the record says so, or the error names it. *)
Definition commit (id : string) : sop unit :=
  now <~ read_host clock ;; mutate id (nowRunning now) ;;; openPorts id.

Definition Complete_locked (id : string) (req : CreateRequest) : sop unit :=
  a <~ attempt (getRecord id) ;;
  match a with
  | Err e => if is_not_found e then ret tt else fail e
  | Ok sb =>
      if negb (bool_decide (SState sb = StatePending)) then ret tt
      else
        built <~ attempt (to_build id req sb) ;;
        match built with
        | Ok _ => commit id
        | Err e =>
            ended <~ read_host ctx_ended ;;
            if ended : bool then fail e else fail_ id e
        end
  end.

Definition Complete (id : string) (req : CreateRequest) : sop unit := locked id (Complete_locked id req).

Definition Create_ (req : CreateRequest) : sop Sandbox :=
  sb <~ Prepare req ;; Complete (ID sb) req ;;; record_ (ID sb).

(** ** Snapshot verbs *)

Definition CreateSnapshot_locked (id name : string) : sop Snapshot_ :=
  sb <~ getRecord id ;;
  _ <~ ask (λ _, FailedGuard sb) ;;
  check (wrongState sb CodeSandboxNotStopped) (bool_decide (SState sb = StateStopped)) ;;;
  found <~ try (ILookup (Image sb)) ;;
  match found with
  | None => fail (ERequest FSnapshotImageGone)
  | Some img =>
      check (ERequest FSnapshotImageMoved) (String.eqb (IDigest img) (Digest sb)) ;;;
      now <~ read_host clock ;;
      try (SnapCreate (MkSnapshot "" name id (Name sb) (Image sb) (Digest sb) provider_name (DiskMiB (SResources sb))
                         (MemoryMiB (SResources sb)) 0 now))
  end.

Definition RemoveSnapshot (ref : string) : sop unit :=
  id <~ try (SnapResolve ref) ;; locked (snapshotLock id) (try (SnapDelete id)).

End Creation.
