(* ===== verification/Rights.v ===== *)
(** * What a token may give a sandbox

    [services/api/api.go]: the route of a create and of a fork asks for the scope to write a sandbox; the secrets, the policy and
    the host ports that the new sandbox takes are in the body, or on the source, and are asked for here. The handlers, less the
    decoding of their bodies. *)

From S2P Require Import Prelude Ops GoStrings Netip Models SandboxFields SandboxID Repository Http Routes Headers Host Lifecycle Creation Checkpoint.
Local Open Scope op_scope.

Record scopeError : Type := MkScopeError { escope : string; named : string; eaction : string }.

(** [scopesCover]. *)
Definition scopesCover (scopes : list string) (need : string) : bool :=
  if bool_decide (scopes = []) then true else existsb (λ s, String.eqb s ScopeAll || String.eqb s need) scopes.

(** [stamped] is the value of the context: [None] for a request that came to the socket itself. *)
Definition checkGrantScopes (stamped : option (list string)) (action : string) (secrets : list string) (policy : string) : result scopeError unit :=
  match stamped with
  | None => Ok tt
  | Some scopes =>
      if negb (bool_decide (secrets = [])) && negb (scopesCover scopes ScopeSecret) then Err (MkScopeError ScopeSecret "secret" action)
      else if negb (String.eqb policy "") && negb (scopesCover scopes ScopePolicy) then Err (MkScopeError ScopePolicy "policy" action)
      else Ok tt
  end.

Definition checkCreateScopes (stamped : option (list string)) (req : CreateRequest) : result scopeError unit :=
  match checkGrantScopes stamped "create that names" (CrSecrets req) (CrPolicy req) with
  | Err e => Err e
  | Ok _ =>
      match stamped with
      | None => Ok tt
      | Some scopes =>
          if negb (bool_decide (CrPorts req = [])) && negb (scopesCover scopes ScopePortWrite)
          then Err (MkScopeError ScopePortWrite "host port" "create that forwards") else Ok tt
      end
  end.

(** The check [forkSandbox] has the fork run on its source. *)
Definition forkCheck (stamped : option (list string)) (source : Sandbox) : bool :=
  is_ok (checkGrantScopes stamped "fork that copies" (Secrets source) (SPolicyName source)).

(** [createSandbox]: [create] is the one of the lifecycle the query asked for. *)
Inductive create_answer (A : Type) : Type := Forbidden (e : scopeError) | Created (a : A).
Arguments Forbidden {A} e.
Arguments Created {A} a.

Definition createSandbox {S E A} (header : Header) (req : CreateRequest) (create : CreateRequest → op S E A) : op S E (create_answer A) :=
  match checkCreateScopes (stampedScopes header) req with
  | Err e => ret (Forbidden e)
  | Ok _ => a <~ create req ;; ret (Created a)
  end.

(** ** Theorems *)

(** What a request takes beyond the sandbox itself. *)
Definition takes (secrets : list string) (policy : string) (ports : list PortForward) (need : string) : Prop :=
  need = ScopeSecret ∧ secrets ≠ [] ∨ need = ScopePolicy ∧ policy ≠ "" ∨ need = ScopePortWrite ∧ ports ≠ [].

(** The daemon reads a scope as the front does. *)
Lemma scopesCover_covers scopes need : need ≠ AnyToken → scopesCover scopes need = covers scopes need.
Proof.
  intros Hn. unfold scopesCover, covers. rewrite (proj2 (String.eqb_neq need AnyToken)) by done. rewrite orb_false_r. by destruct (bool_decide _).
Qed.

Lemma checkGrantScopes_Ok scopes action secrets policy :
  checkGrantScopes (Some scopes) action secrets policy = Ok tt ↔ ∀ need, takes secrets policy [] need → covers scopes need = true.
Proof.
  unfold checkGrantScopes, takes. rewrite !scopesCover_covers by done.
  destruct (bool_decide_reflect (secrets = [])) as [Hs|Hs]; simpl;
    [|destruct (covers scopes ScopeSecret) eqn:Hc; simpl; [|split; [done|]; intros Hall; rewrite Hall in Hc; [done|by left]]];
    (destruct (String.eqb_spec policy "") as [Hp|Hp]; simpl;
      [|destruct (covers scopes ScopePolicy) eqn:Hc2; simpl; [|split; [done|]; intros Hall; rewrite Hall in Hc2; [done|right; by left]]]);
    (split; [intros _ need [[-> ?]|[[-> ?]|[-> ?]]]; done|done]).
Qed.

(** A token creates with the rights it has: through the front, a create runs just when the scopes of the token cover every kind
    of thing its body names, by the rule the front itself judges routes by; any other touches nothing and names the scope that is
    missing. *)
Theorem create_rights {S E A} header scopes req (create : CreateRequest → op S E A) s : stampedScopes header = Some scopes →
  ((∀ need, takes (CrSecrets req) (CrPolicy req) (CrPorts req) need → covers scopes need = true) ∧
     createSandbox header req create s = (a <~ create req ;; ret (Created a)) s) ∨
  ∃ e, createSandbox header req create s = ([], s, Ok (Forbidden e)) ∧
    takes (CrSecrets req) (CrPolicy req) (CrPorts req) (escope e) ∧ covers scopes (escope e) = false.
Proof.
  intros Hst. unfold createSandbox. rewrite Hst. unfold checkCreateScopes, checkGrantScopes, takes. rewrite !scopesCover_covers by done.
  destruct (bool_decide_reflect (CrSecrets req = [])) as [Hs|Hs]; simpl;
    [|destruct (covers scopes ScopeSecret) eqn:Hc; simpl; [|right; eexists; split_and!; [done|by left|done]]];
    (destruct (String.eqb_spec (CrPolicy req) "") as [Hp|Hp]; simpl;
      [|destruct (covers scopes ScopePolicy) eqn:Hc2; simpl; [|right; eexists; split_and!; [done|right; by left|done]]]);
    (destruct (bool_decide_reflect (CrPorts req = [])) as [Hq|Hq]; simpl;
      [|destruct (covers scopes ScopePortWrite) eqn:Hc3; simpl; [|right; eexists; split_and!; [done|right; by right|done]]]);
    left; (split; [intros need [[-> ?]|[[-> ?]|[-> ?]]]; done|done]).
Qed.

(** A fork copies no more than the token may give: where the host runs the check of the route, a fork whose source holds a secret
    or a policy the scopes do not cover answers an error before it made anything, every state on its way the one it began in. *)
Theorem fork_rights `{Hst : Host} scopes source name s src :
  (∀ sb, fork_check sb = forkCheck (Some scopes) sb) → Get (repo_of s) source = Ok src →
  (∃ need, takes (Secrets src) (SPolicyName src) [] need ∧ covers scopes need = false) →
  ∃ e, Fork_locked source name s = ([], s, Err e).
Proof.
  intros Hf Hg (need & Hn & Hc). assert (fork_check src = false) as Hno.
  { rewrite Hf. unfold forkCheck. destruct (checkGrantScopes _ _ _ _) as [[]|e] eqn:Hch; [|done].
    rewrite (proj1 (checkGrantScopes_Ok _ _ _ _) Hch need Hn) in Hc. done. }
  unfold Fork_locked, readSource, bind, getRecord, ask, check. rewrite Hg. simpl. destruct (FailedGuard src) as [[]|e]; simpl; [|by exists e].
  destruct (bool_decide _); simpl; [|by eexists]. rewrite Hno. simpl. by eexists.
Qed.

Example forked_secret : forkCheck (Some [ScopeSandboxWrite]) (set_Secrets ["TOKEN"] sandbox_zero) = false ∧
  forkCheck (Some [ScopeSandboxWrite; ScopeSecret]) (set_Secrets ["TOKEN"] sandbox_zero) = true ∧ forkCheck None (set_Secrets ["TOKEN"] sandbox_zero) = true.
Proof. vm_compute. done. Qed.
