(* ===== verification/Env.v ===== *)
(** * The environment of a sandbox

    [MergeEnv] of [services/runspec/runspec.go]: the image's entries and the request's, the request's winning. *)

From S2P Require Import Prelude Ops GoStrings Netip Models SandboxFields Restart Store Secret SandboxID Repository ExecTable Host Lifecycle Reconcile Processes Checkpoint Ports Creation.
Local Open Scope Z_scope.

(** An entry that assigns something to [key]. *)
Definition assigns (key entry : string) : Prop := (Cut entry "=").2 = true ∧ env_key entry = key.
#[export] Instance assigns_dec key entry : Decision (assigns key entry).
Proof. unfold assigns. apply _. Defined.

(** The last of the overrides for a key is the one that counts. *)
Lemma by_key_last overrides key : by_key overrides !! key = last (filter (assigns key) overrides).
Proof.
  induction overrides as [|entry l IH] using rev_ind; [done|]. unfold by_key in *. rewrite foldl_app, filter_app. cbn [foldl].
  rewrite last_app, filter_cons, filter_nil. case_decide as Ha; unfold assigns, env_key in Ha; destruct (Cut entry "=") as [[k v] found];
    cbn [fst snd] in Ha.
  - destruct Ha as [-> ->]. by rewrite lookup_insert_eq.
  - destruct found; [|exact IH]. rewrite lookup_insert_ne by naive_solver. exact IH.
Qed.

(** What an entry of the image becomes. *)
Definition replaced (m : gmap string string) (entry : string) : string := default entry (m !! env_key entry).

Lemma merge_base_spec m imageEnv :
  (merge_base m imageEnv).1 = replaced m <$> filter (λ e, (Cut e "=").2 = true) imageEnv ∧
  ∀ key, key ∈ (merge_base m imageEnv).2 ↔ is_Some (m !! key) ∧ ∃ e, e ∈ imageEnv ∧ assigns key e.
Proof.
  induction imageEnv as [|e l [IH1 IH2]]; cbn [merge_base]; [split; [done|set_solver]|].
  destruct (merge_base m l) as [env applied] eqn:Em. cbn [fst snd] in IH1, IH2. unfold assigns, replaced, env_key in *.
  rewrite filter_cons. destruct (Cut e "=") as [[k v] found] eqn:Ec. destruct found; cbn [negb fst snd].
  - rewrite decide_True by done. rewrite fmap_cons, Ec. cbn [fst]. destruct (m !! k) as [o|] eqn:Ek; cbn [fst snd default].
    + split; [by rewrite IH1|]. intros key. rewrite elem_of_union, elem_of_singleton, IH2. split.
      * intros [->|(Hs & e' & He & Ha)]; [split; [eauto|]; exists e; rewrite Ec; set_solver|]. split; [done|]. exists e'. set_solver.
      * intros (Hs & e' & He & Ha). apply elem_of_cons in He as [->|He]; [left; rewrite Ec in Ha; by destruct Ha|right; eauto].
    + split; [by rewrite IH1|]. intros key. rewrite IH2. split; intros (Hs & e' & He & Ha); (split; [done|]); [exists e'; set_solver|].
      apply elem_of_cons in He as [->|He]; [|eauto]. rewrite Ec in Ha. destruct Ha as [_ Ha]. cbn in Ha. subst k. rewrite Ek in Hs. by destruct Hs.
  - rewrite decide_False by done. cbn [fst snd]. split; [done|]. intros key. rewrite IH2.
    split; intros (Hs & e' & He & Ha); (split; [done|]); [exists e'; set_solver|].
    apply elem_of_cons in He as [->|He]; [|eauto]. rewrite Ec in Ha. by destruct Ha.
Qed.

Lemma merge_rest_spec m applied overrides e :
  e ∈ merge_rest m applied overrides ↔
  ∃ key o, key ∉ applied ∧ o ∈ overrides ∧ assigns key o ∧ e = default "" (m !! key).
Proof.
  revert applied. induction overrides as [|o l IH]; intros applied; cbn [merge_rest]; [set_solver|]. unfold assigns, env_key in *.
  destruct (Cut o "=") as [[k v] found] eqn:Ec. destruct found; cbn [negb orb].
  - case_bool_decide as Hin.
    + rewrite IH. split; intros (key & o' & Hk & Ho & Ha & He); exists key, o'; [set_solver|].
      apply elem_of_cons in Ho as [->|Ho]; [|done]. rewrite Ec in Ha. destruct Ha as [_ <-]. done.
    + rewrite elem_of_cons, IH. split.
      * intros [->|(key & o' & Hk & Ho & Ha & He)]; [exists k, o; rewrite Ec; set_solver|]. exists key, o'. set_solver.
      * intros (key & o' & Hk & Ho & Ha & ->). destruct (decide (key = k)) as [->|Hne]; [by left|]. right.
        apply elem_of_cons in Ho as [->|Ho]; [rewrite Ec in Ha; by destruct Ha as [_ <-]|]. exists key, o'. set_solver.
  - rewrite IH. split; intros (key & o' & Hk & Ho & Ha & He); exists key, o'; [set_solver|].
    apply elem_of_cons in Ho as [->|Ho]; [|done]. rewrite Ec in Ha. by destruct Ha.
Qed.

(** The entry that counts for a key, of the overrides or else of the image. *)
Definition winner (imageEnv overrides : list string) (key e : string) : Prop :=
  match last (filter (assigns key) overrides) with
  | Some o => e = o
  | None => e ∈ imageEnv
  end.

Lemma by_key_assigns overrides key o : by_key overrides !! key = Some o → o ∈ overrides ∧ assigns key o.
Proof. rewrite by_key_last. intros H%last_Some_elem_of. apply list_elem_of_filter in H. tauto. Qed.

(** The request's environment wins over the image's. Every entry the guest gets assigns a variable, and it is the last
    assignment of that variable in the request, or, when the request has none, one of the image's; every variable
    either of them assigns is there; and the image's variables stay where the image had them. *)
Theorem MergeEnv_spec imageEnv overrides :
  (∀ e, e ∈ MergeEnv imageEnv overrides → assigns (env_key e) e ∧ winner imageEnv overrides (env_key e) e) ∧
  (∀ key e, e ∈ imageEnv ++ overrides → assigns key e → ∃ e', e' ∈ MergeEnv imageEnv overrides ∧ assigns key e') ∧
  (∃ rest, env_key <$> MergeEnv imageEnv overrides = (env_key <$> filter (λ e, (Cut e "=").2 = true) imageEnv) ++ rest).
Proof.
  unfold MergeEnv. pose proof (merge_base_spec (by_key overrides) imageEnv) as [Hb Ha].
  pose proof (merge_rest_spec (by_key overrides)) as Hr. destruct (merge_base (by_key overrides) imageEnv) as [env applied]. cbn [fst snd] in *. subst env.
  assert (Hrep : ∀ e, (Cut e "=").2 = true → assigns (env_key e) (replaced (by_key overrides) e)).
  { intros e He. unfold replaced. destruct (by_key overrides !! env_key e) as [o|] eqn:E; [|done]. by apply by_key_assigns in E as [_ E]. }
  assert (Hin : ∀ o key, o ∈ overrides → assigns key o → is_Some (by_key overrides !! key)).
  { intros o key Ho Hk. rewrite by_key_last. apply last_is_Some. intros E. assert (H : o ∈ filter (assigns key) overrides) by (by apply list_elem_of_filter).
    rewrite E in H. by inversion H. }
  split_and!.
  - intros e [(e0 & -> & [Hf He0]%list_elem_of_filter)%list_elem_of_fmap|He]%elem_of_app.
    + pose proof (Hrep e0 Hf) as [H1 H2]. split; [by rewrite H2|]. unfold winner. rewrite <- by_key_last, H2. unfold replaced.
      by destruct (by_key overrides !! env_key e0).
    + apply Hr in He as (key & o & Hk & Ho & Has & ->). destruct (Hin o key Ho Has) as [o' Eo]. rewrite Eo. cbn.
      destruct (by_key_assigns _ _ _ Eo) as [_ H]. destruct H as [H1 H2]. rewrite H2. split; [done|]. unfold winner. by rewrite <- by_key_last, Eo.
  - intros key e He Has. destruct (by_key overrides !! key) as [o|] eqn:Ek.
    + destruct (by_key_assigns _ _ _ Ek) as [Ho Hoa]. exists o. split; [|done]. apply elem_of_app.
      destruct (decide (key ∈ applied)) as [Hap|Hap].
      * left. apply Ha in Hap as (_ & e1 & He1 & [Hf Hk1]). apply list_elem_of_fmap. exists e1. split; [|by apply list_elem_of_filter].
        unfold replaced. by rewrite Hk1, Ek.
      * right. apply Hr. exists key, o. split_and!; [done..|]. by rewrite Ek.
    + apply elem_of_app in He as [He|He]; [|by destruct (Hin e key He Has); congruence]. exists e. split; [|done]. apply elem_of_app. left.
      destruct Has as [Hf Hk]. apply list_elem_of_fmap. exists e. split; [|by apply list_elem_of_filter]. unfold replaced. by rewrite Hk, Ek.
  - eexists. rewrite fmap_app. f_equal. rewrite <- list_fmap_compose. apply list_fmap_ext. intros i e [Hf _]%list_elem_of_lookup_2%list_elem_of_filter.
    cbn. by destruct (Hrep e Hf).
Qed.
