(* ===== verification/Grants.v ===== *)
(** * Policies and secrets of a sandbox that exists

    [services/sandbox/policies.go] and [secrets.go]: attach and detach of a policy, grant and ungrant of a secret. Each
    takes a created or stopped sandbox only, rewrites the guest environment and the record, and puts the host's rules
    on again before the guest runs next. *)

From S2P Require Import Prelude Ops GoStrings Netip Models SandboxFields Restart Store Secret SandboxID Repository ExecTable Host Lifecycle Reconcile Checkpoint Ports Creation.
Local Open Scope Z_scope.
Local Open Scope op_scope.

(** [SecretHolders]: the readable records that grant the secret; a record that does not read back may hold it too. *)
Definition SecretHolders (r : repo) (name : string) : list string * bool :=
  let '(sandboxes, unread) := Repository.List r in
  (omap (λ sb, if contains (Secrets sb) name then Some (nameOf (ID sb) sb) else None) sandboxes,
   negb (bool_decide (unread = []))).

Definition granted (name : string) (sb : Sandbox) : Sandbox :=
  if contains (Secrets sb) name then sb else set_Secrets (Secrets sb ++ [name]) sb.
Definition ungranted (name : string) (sb : Sandbox) : Sandbox := set_Secrets (filter (λ held, held ≠ name) (Secrets sb)) sb.

Section Grants.
Context `{Hst : Host}.

(** [holdCreatedOrStopped], the sandbox held by its lock. *)
Definition heldForRewrite (id : string) : sop Sandbox :=
  sb <~ getRecord id ;;
  _ <~ ask (λ _, FailedGuard sb) ;;
  check (EState (SState sb) CodeSandboxLive) (bool_decide (SState sb = StateCreated) || bool_decide (SState sb = StateStopped)) ;;;
  ret sb.

Definition writePolicy (id name : string) : sop unit := mutate id (set_SPolicyName name).

Definition movePolicy (id was want : string) : sop Sandbox :=
  writePolicy id want ;;;
  a <~ do_call (NReapply id) ;;
  match a with
  | Ok _ => record_ id
  | Err e => joined (ECall e) (writePolicy id was)
  end.

(** An image with no roots for the proxy CA to join is named as such. *)
Definition plant (id ca : string) : sop unit :=
  a <~ do_call (EnvTrust id ca) ;;
  match a with
  | Ok _ => ret tt
  | Err CNoCABundle => fail ENoCABundle
  | Err e => fail (ECall e)
  end.

Definition trustProxy (id : string) : sop unit :=
  ca <~ proxyCA ;; try (EnvOpen id) ;;; plant id ca.

Definition AttachPolicy_locked (id name : string) : sop Sandbox :=
  sb <~ heldForRewrite id ;;
  if String.eqb (SPolicyName sb) name then ret sb
  else
    _ <~ getPolicy name ;;
    (if fronted_record sb then ret tt else trustProxy id) ;;;
    movePolicy id (SPolicyName sb) name.

Definition AttachPolicy (ref name : string) : sop Sandbox :=
  check (ERequest FNoPolicyName) (negb (String.eqb name "")) ;;;
  id <~ resolve ref ;; locked id (AttachPolicy_locked id name).

Definition DetachPolicy_locked (id : string) : sop Sandbox :=
  sb <~ heldForRewrite id ;;
  if String.eqb (SPolicyName sb) "" then ret sb else movePolicy id (SPolicyName sb) "".

Definition DetachPolicy (ref : string) : sop Sandbox := id <~ resolve ref ;; locked id (DetachPolicy_locked id).

Definition GrantSecret_locked (id name : string) : sop Sandbox :=
  sb <~ heldForRewrite id ;;
  if contains (Secrets sb) name then ret sb
  else
    a <~ do_call (SGet name) ;;
    placeholder <~ of_result (match a with Ok p => Ok p | Err CNotFound => Err (ERequest FNoSecret) | Err e => Err (ECall e) end) ;;
    ca <~ proxyCA ;;
    try (EnvOpen id) ;;;
    check (ERequest FSecretTrust) (negb (contains TrustEnv name)) ;;;
    a <~ do_call (EnvCanSet id name) ;;
    _ <~ of_result (match a with Ok x => Ok x | Err CUnsettable => Err (ERequest FSecretEnv) | Err e => Err (ECall e) end) ;;
    plant id ca ;;;
    try (EnvSet id name placeholder) ;;;
    mutate id (granted name) ;;;
    try (NReapply id) ;;;
    record_ id.

Definition valid_secret (name : string) : sop unit :=
  check (ERequest FSecretName) (is_ok (Secret.ValidName name)).

Definition GrantSecret (ref name : string) : sop Sandbox :=
  valid_secret name ;;; id <~ resolve ref ;; locked id (GrantSecret_locked id name).

Definition UngrantSecret_locked (id name : string) : sop Sandbox :=
  sb <~ heldForRewrite id ;;
  if negb (contains (Secrets sb) name) then ret sb
  else
    try (EnvOpen id) ;;;
    try (EnvRemove id name) ;;;
    mutate id (ungranted name) ;;;
    try (NReapply id) ;;;
    record_ id.

Definition UngrantSecret (ref name : string) : sop Sandbox :=
  valid_secret name ;;; id <~ resolve ref ;; locked id (UngrantSecret_locked id name).

End Grants.
