(* ===== verification/Stores.v ===== *)
(** * The policy, secret and image verbs

    [services/sandbox/stores.go]: what an operator does to the stores, against the records that hold what they keep. A store entry
    is held by the records that name it, read at every ask. *)

From S2P Require Import Prelude Ops GoStrings Models Store Secret Repository EgressPolicy EgressDecide EgressCompile Host Ports Grants Snapshots Registry Images.
Local Open Scope op_scope.

(** [HeldError]. *)
Record HeldError : Type := MkHeld { Subject : string; Verb : string; Noun : string; Users : list string; Fix : string }.

Inductive request_text : Type :=
| QPolicy (e : policy_error) | QRule (e : rule_error) | QCompile (rule : string) (e : compile_failure)
| QSecretName (e : name_error) | QNoValue | QSecret (e : Secret.error) | QNoImage | QReference.

Inductive store_error : Type :=
| SRequest (why : request_text)
| SHeldBy (h : HeldError)
| SPolicy (e : policy_error)
| SSecret (e : Secret.error)
| SNotEnforced (name : string).

(** ** Holders *)

(** [PolicyHolders]: the names of the readable holders, and the ids of the records that do not read back. *)
Definition PolicyHolders (r : repo) (name : string) : list string * list string :=
  let '(sandboxes, unread) := Repository.List r in
  (omap (λ sb, if String.eqb (SPolicyName sb) name then Some (nameOf (ID sb) sb) else None) sandboxes, unread).

Definition unreadableFix (ids : list string) : string :=
  "ask the server administrator to repair or remove the unreadable sandbox " +:+ Join ", " ids +:+ " first".

(** ** Policies *)

Section Policies.
Context `{U : Unicode}.

Record PolicyView : Type := MkPolicyView { VPolicy : Policy; VHolders : list string; VDNS : string }.

Definition dnsState (policy : Policy) : string := if Resolves policy then "open" else "closed".

(** [Policy]. *)
Definition Policy_ (policies : gmap string policy_entry) (r : repo) (name : string) : result store_error PolicyView :=
  match PolicyValidName name with
  | Err e => Err (SRequest (QPolicy e))
  | Ok _ =>
      match Policy_Get policies name with
      | Err e => Err (SPolicy e)
      | Ok policy => let '(holders, ids) := PolicyHolders r name in Ok (MkPolicyView policy (holders ++ ids) (dnsState policy))
      end
  end.

(** [RemovePolicy]: [removed] and [synced] are what the unlink and the sync answer. *)
Definition RemovePolicy (removed synced : bool) (policies : gmap string policy_entry) (r : repo) (name : string)
  : gmap string policy_entry * result store_error unit :=
  match PolicyValidName name with
  | Err e => (policies, Err (SRequest (QPolicy e)))
  | Ok _ =>
      match Policy_Get policies name with
      | Err e => (policies, Err (SPolicy e))
      | Ok _ =>
          match PolicyHolders r name with
          | (users, (_ :: _) as ids) => (policies, Err (SHeldBy (MkHeld ("policy " +:+ name) "possibly held by" "sandbox" (users ++ ids) (unreadableFix ids))))
          | ((_ :: _) as users, []) => (policies, Err (SHeldBy (MkHeld ("policy " +:+ name) "held by" "sandbox" users "remove the sandbox first")))
          | ([], []) => let '(policies, a) := Policy_Remove removed synced policies name in (policies, map_err SPolicy a)
          end
      end
  end.

(** [SetPolicy]: the rules are parsed in order, the policy is compiled against the host before it is stored, and put on the
    sandboxes that hold it; [reapplied] is what that answers. *)
Definition parse_rules (texts : list (Action * string)) : result rule_error (list Rule) := map_result (λ t, ParseRule t.1 t.2) texts.

Definition SetPolicy (lookups : nat → resolver) (w : WriteOutcome) (reapplied : bool) (policies : gmap string policy_entry) (r : repo)
    (name : string) (rules : list (Action * string)) : gmap string policy_entry * result store_error PolicyView :=
  match PolicyValidName name with
  | Err e => (policies, Err (SRequest (QPolicy e)))
  | Ok _ =>
      match parse_rules rules with
      | Err e => (policies, Err (SRequest (QRule e)))
      | Ok rules =>
          let policy := MkPolicy name rules in
          match Validate policy with
          | Err e => (policies, Err (SRequest (QPolicy e)))
          | Ok _ =>
              match Compiles lookups policy with
              | Err (rule, e) => (policies, Err (SRequest (QCompile rule e)))
              | Ok _ =>
                  match Policy_Set w policies policy with
                  | (policies, Err e) => (policies, Err (SPolicy e))
                  | (policies, Ok _) =>
                      match PolicyHolders r name with
                      | (_, _ :: _) => (policies, Err (SNotEnforced name))
                      | ([], []) => (policies, Ok (MkPolicyView policy [] (dnsState policy)))
                      | (_ :: _, []) => (policies, if reapplied then Ok (MkPolicyView policy [] (dnsState policy)) else Err (SNotEnforced name))
                      end
                  end
              end
          end
      end
  end.

End Policies.

(** ** Secrets *)

(** The refusals of the secret store that are [InvalidError]s. *)
Definition invalid (e : Secret.error) : bool :=
  match e with
  | EBadName _ | EEmptyValue | ENulValue | EPlaceholderInValue | EValueInPlaceholder | EPlaceholderShort | EPlaceholderCharset
  | EPlaceholderTaken _ | ECannotTellHolders | ENoDestination | EBadDestination _ _ => true
  | _ => false
  end.

Section Secrets.
Context `{U : Unicode} (EffectiveTLDPlusOne : string → option string).

(** [SetSecret]. *)
Definition SetSecret (holders : option (string → option (list string))) (now : Z) (w : WriteOutcome) (dir : gmap string Secret.entry)
    (name value : string) (destinations : list string) (placeholder : string) : gmap string Secret.entry * result store_error Secret :=
  match ValidName name with
  | Err e => (dir, Err (SRequest (QSecretName e)))
  | Ok _ =>
      if String.eqb value "" then (dir, Err (SRequest QNoValue))
      else
        let '(dir, a) := Secret.Set_ EffectiveTLDPlusOne holders now w dir name value destinations placeholder in
        (dir, match a with
              | Ok sec => Ok sec
              | Err (Secret.EHeld hs removed) =>
                  Err (SHeldBy (MkHeld ("secret " +:+ name) "granted to" "sandbox" hs
                         (if removed then "ungrant it first: those sandboxes still hold the placeholder of the removed secret"
                          else "ungrant it first: a granted secret cannot change its placeholder")))
              | Err e => Err (if invalid e then SRequest (QSecret e) else SSecret e)
              end)
  end.
(** [ungranted]. *)
Definition ungranted_ (r : repo) (name : string) : result store_error unit :=
  match SecretHolders r name, (Repository.List r).2 with
  | (users, _), (_ :: _) as ids =>
      Err (SHeldBy (MkHeld ("secret " +:+ name) "possibly granted to" "sandbox" (users ++ ids) (unreadableFix ids +:+ ", or pass --force")))
  | ([], _), [] => Ok tt
  | (users, _), [] => Err (SHeldBy (MkHeld ("secret " +:+ name) "granted to" "sandbox" users "ungrant it first, remove the sandbox, or pass --force"))
  end.

(** [RemoveSecret]. *)
Definition RemoveSecret (removed synced : bool) (dir : gmap string Secret.entry) (r : repo) (name : string) (force : bool)
  : gmap string Secret.entry * result store_error unit :=
  match ValidName name with
  | Err e => (dir, Err (SRequest (QSecretName e)))
  | Ok _ =>
      match (if force then Ok tt else ungranted_ r name) with
      | Err e => (dir, Err e)
      | Ok _ =>
          match Secret.Get EffectiveTLDPlusOne dir name with
          | Err (ErrNotFound n) => (dir, Err (SSecret (ErrNotFound n)))
          | _ => let '(dir, a) := Secret.Remove removed synced dir name in (dir, map_err SSecret a)
          end
      end
  end.

End Secrets.

(** ** Images *)

(** What the check of an image removal answers besides the errors of the layout. *)
Inductive free_error : Type := FHeldBy (h : HeldError) | FCannotTellSandboxes (ids : list string) | FCannotTellSnapshots (ids : list string) | FBadReference.

Record imageUser : Type := MkUser { UName : string; UReference : string; UDigest_ : string }.

Section ImageVerbs.
Context `{Refs : References} `{Cont : Contents} (root : string) (disks erofs : bool).

Abbreviation fop := (iop free_error).

(** [heldImages] and [snapshotImages]. *)
Definition heldImages (r : repo) : result free_error (list imageUser) :=
  match Repository.List r with
  | (sandboxes, []) => Ok ((λ sb, MkUser (nameOf (ID sb) sb) (Models.Image sb) (Digest sb)) <$> sandboxes)
  | (_, ids) => Err (FCannotTellSandboxes ids)
  end.

Definition snapshotImages (s : snaps) : result free_error (list imageUser) :=
  match SList s with
  | (snaps, []) => Ok ((λ sn, MkUser (if String.eqb (SnName sn) "" then SnID sn else SnName sn) (SnImage sn) (SnDigest sn)) <$> snaps)
  | (_, ids) => Err (FCannotTellSnapshots ids)
  end.

(** [resolveDigest]. *)
Definition resolveDigest (u : imageUser) (byReference : gmap string string) : string :=
  if negb (String.eqb (UDigest_ u) "") then UDigest_ u
  else match byReference !! UReference u with
       | Some digest => digest
       | None => default "" (DigestOf (E := free_error) (UReference u))
       end.

Definition digestByReference (l : list Image) : gmap string string := foldl (λ m i, <[IReference i := IDigest_ i]> m) ∅ l.

(** The users that hold the image by its reference, or one whose rootfs goes with it. *)
Definition holders_in (canonical : string) (orphaned : list string) (byReference : gmap string string) (users : list imageUser) : list string :=
  omap (λ u, if String.eqb (UReference u) canonical || contains orphaned (resolveDigest u byReference) then Some (UName u) else None) users.

(** [unreferenced], with the users the records and the snapshots gave. *)
Definition unreferenced (sandboxes snapshots : result free_error (list imageUser)) (ref : string) : fop unit :=
  sandboxes <~ ask (λ _, map_err IFree sandboxes) ;;
  snapshots <~ ask (λ _, map_err IFree snapshots) ;;
  canonical <~ ask (λ _, match Canonical (E := free_error) ref with Ok c => Ok c | Err _ => Err (IFree FBadReference) end) ;;
  orphaned <~ Orphaned ref ;;
  imgs <~ Images.List root disks erofs ;;
  let by_ref := digestByReference imgs in
  match holders_in canonical orphaned by_ref sandboxes with
  | (_ :: _) as users =>
      fail (IFree (FHeldBy (MkHeld ("image " +:+ ref) "referenced by" "sandbox" users "remove the sandbox first, or pass --force")))
  | [] =>
      match holders_in canonical orphaned by_ref snapshots with
      | (_ :: _) as users =>
          fail (IFree (FHeldBy (MkHeld ("image " +:+ ref) "referenced by" "snapshot" users "remove it first with shard snapshot remove, or pass --force")))
      | [] => ret tt
      end
  end.

(** [removeImage]: a removal that did not free its blobs is a warning. *)
Definition removeImage (ref : string) (free : fop unit) : fop (list (img_error free_error)) :=
  a <~ caught (Remove_ ref free) ;;
  match a with
  | Ok _ => ret []
  | Err e => if ErrNotReclaimed e then ret [e] else fail e
  end.

(** [RemoveImage]. *)
Definition RemoveImage (r : repo) (s : snaps) (ref : string) (force : bool) : fop (list (img_error free_error)) :=
  if String.eqb ref "" then fail (IFree FBadReference)
  else removeImage ref (if force then ret tt else unreferenced (heldImages r) (snapshotImages s) ref).

(** [PruneImages]: what was removed, the warnings, and the error that ended it. An entry with no reference is left alone, with a
    warning of its own, which is its digest here. *)
Definition is_held : img_error free_error → bool := errors_Is (λ e, match e with IFree (FHeldBy _) => true | _ => false end).

Record pruned : Type := MkPruned { PRemoved : list string; PUnnamed : list string; PNotReclaimed : list (img_error free_error); PEnded : option (img_error free_error) }.

Fixpoint prune_go (r : repo) (s : snaps) (acc : pruned) (l : list Image) : fop pruned :=
  match l with
  | [] => ret acc
  | img :: l =>
      if String.eqb (IReference img) "" then prune_go r s (MkPruned (PRemoved acc) (PUnnamed acc ++ [IDigest_ img]) (PNotReclaimed acc) None) l
      else
        a <~ caught (removeImage (IReference img) (unreferenced (heldImages r) (snapshotImages s) (IReference img))) ;;
        match a with
        | Ok ws => prune_go r s (MkPruned (PRemoved acc ++ [IReference img]) (PUnnamed acc) (PNotReclaimed acc ++ ws) None) l
        | Err e => if is_held e then prune_go r s acc l else ret (MkPruned (PRemoved acc) (PUnnamed acc) (PNotReclaimed acc) (Some e))
        end
  end.

Definition PruneImages (r : repo) (s : snaps) : fop pruned :=
  imgs <~ Images.List root disks erofs ;; prune_go r s (MkPruned [] [] [] None) imgs.

End ImageVerbs.

(** ** What show prints and what a removal refuses *)

Section Shown.
Context `{U : Unicode}.

(** The holders a show prints are those a removal refuses over: it goes through to the store exactly when show prints none, and
    refuses with the same list otherwise. Every readable record that names the policy is on the list. *)
Theorem policy_show_rm removed synced policies r name view :
  Policy_ policies r name = Ok view →
  (VHolders view = [] → RemovePolicy removed synced policies r name =
     (let '(policies', a) := Policy_Remove removed synced policies name in (policies', map_err SPolicy a))) ∧
  (VHolders view ≠ [] → ∃ verb fix_, RemovePolicy removed synced policies r name =
     (policies, Err (SHeldBy (MkHeld ("policy " +:+ name) verb "sandbox" (VHolders view) fix_)))) ∧
  (∀ sb, sb ∈ ListReadable r → SPolicyName sb = name → nameOf (ID sb) sb ∈ VHolders view).
Proof.
  unfold Policy_, RemovePolicy, ListReadable. destruct (PolicyValidName name) as [[]|]; [|done]. destruct (Policy_Get policies name) as [policy|]; [|done].
  destruct (PolicyHolders r name) as [users ids] eqn:Eh. intros [= <-]. cbn [VHolders]. split_and!.
  - intros [-> ->]%app_eq_nil. by destruct (Policy_Remove removed synced policies name).
  - intros Hne. destruct users as [|x users], ids as [|id ids]; [done| | |]; rewrite ?(right_id_L [] (++)); eexists _, _; reflexivity.
  - intros sb Hsb Hp. apply elem_of_app. left. unfold PolicyHolders in Eh. destruct (Repository.List r) as [sandboxes unread]. injection Eh as <- _.
    apply list_elem_of_omap. exists sb. split; [done|]. by rewrite Hp, String.eqb_refl.
Qed.
End Shown.
