(* ===== verification/Holders.v ===== *)
(** * What a holder of an image keeps

    The image verbs of [Stores] over the image tree: no removal that was not forced takes the rootfs of an image a record or a
    snapshot holds, at any state on the way; nor does one that runs beside a create, a snapshot or a pull, however the daemon
    interleaves them and wherever it is cut. *)

From S2P Require Import Prelude Ops GoStrings Netip Models Host Snapshots Repository Registry Images ImageTree Stores.
Local Open Scope op_scope.

Section Holders.
Context `{Refs : References} {RL : ReferenceLaws} `{Cont : Contents} (root : string) (disks erofs : bool) (is_list : string → bool).

Abbreviation E := free_error.
Abbreviation kept C := (kept (E := E) disks erofs is_list C).
Abbreviation runs C := (runs (E := E) disks erofs is_list C).
Abbreviation spares C := (spares (E := E) C).
Abbreviation stands_for := (stands_for (E := E)).

(** ** The check of a removal *)

Lemma byReference_lookup imgs : ∀ (m : gmap string string) r,
  match foldl (λ m i, <[IReference i := IDigest_ i]> m) m imgs !! r with
  | Some d => m !! r = Some d ∨ ∃ i, i ∈ imgs ∧ IReference i = r ∧ IDigest_ i = d
  | None => m !! r = None ∧ ∀ i, i ∈ imgs → IReference i ≠ r
  end.
Proof.
  induction imgs as [|i imgs IH]; intros m r; simpl.
  { destruct (m !! r); [by left|]. split; [done|]. by intros i ?%elem_of_nil. }
  specialize (IH (<[IReference i := IDigest_ i]> m) r). destruct (foldl _ _ imgs !! r) as [d|].
  - destruct IH as [IH|(j & Hj & IH)]; [|right; exists j; split; [by right|done]].
    apply lookup_insert_Some in IH as [[Hr Hd]|[_ IH]]; [|by left]. right. exists i. split; [left|done].
  - destruct IH as [[Hm Hr]%lookup_insert_None IH]. split; [done|]. intros j [->|Hj]%elem_of_cons; [done|by apply IH].
Qed.

Lemma digestByReference_in l imgs r : (λ i, MkDescriptor (IReference i) (IDigest_ i)) <$> imgs ≡ₚ l →
  match digestByReference imgs !! r with Some d => MkDescriptor r d ∈ l | None => ∀ d, MkDescriptor r d ∉ l end.
Proof.
  intros Hl. assert (∀ d, MkDescriptor r d ∈ l ↔ ∃ i, i ∈ imgs ∧ IReference i = r ∧ IDigest_ i = d) as Hin.
  { intros d. rewrite <- Hl, list_elem_of_fmap. split; [intros (i & [= -> ->] & Hi); eauto|intros (i & Hi & <- & <-); eauto]. }
  unfold digestByReference. pose proof (byReference_lookup imgs ∅ r) as H. destruct (foldl _ ∅ imgs !! r) as [d|].
  - destruct H as [H|H]; [by rewrite lookup_empty in H|by apply Hin].
  - intros d (i & Hi & Hr & _)%Hin. by apply (proj2 H i Hi).
Qed.

(** A user whose reference stands for a digest is resolved to it. *)
Lemma resolveDigest_stands l imgs u d : index_ok (E := E) is_list l → (λ i, MkDescriptor (IReference i) (IDigest_ i)) <$> imgs ≡ₚ l →
  stands_for l (UReference u) d → UReference u ≠ "" → UDigest_ u = "" ∨ UDigest_ u = d → resolveDigest u (digestByReference imgs) = d.
Proof.
  intros Hok Hl Hs Hr Hd. destruct (stands_plain (E := E) is_list l _ _ Hok Hs) as [[_ Hne] Hnl]. unfold resolveDigest.
  destruct (String.eqb_spec (UDigest_ u) "") as [E0|E0]; simpl; [|by destruct Hd].
  pose proof (digestByReference_in l imgs (UReference u) Hl) as Hb. destruct (digestByReference imgs !! UReference u) as [d2|].
  - destruct Hok as [H1 H2]. destruct Hs as [Hin|[Hg _]]; [by apply (H2 _ _ Hb Hin Hr)|].
    rewrite Forall_forall in H1. destruct (H1 _ Hb) as (_ & _ & H3). destruct (H3 d Hg) as [Hx|Hx]; [done|congruence].
  - destruct Hs as [Hin|[Hg _]]; [by destruct (Hb d)|]. by rewrite Hg.
Qed.

(** Every claim is made by one of the users. *)
Definition vouched (C : list claim) (users : list imageUser) : Prop :=
  ∀ c, c ∈ C → ∃ u, u ∈ users ∧ UReference u = c.1 ∧ (UDigest_ u = "" ∨ UDigest_ u = c.2).

Lemma holders_in_nil canonical orphaned by_ref users u :
  holders_in canonical orphaned by_ref users = [] → u ∈ users → UReference u ≠ canonical ∧ resolveDigest u by_ref ∉ orphaned.
Proof.
  unfold holders_in. intros Hn Hu. destruct (String.eqb (UReference u) canonical || contains orphaned (resolveDigest u by_ref)) eqn:Eu.
  - exfalso. assert (UName u ∈ holders_in canonical orphaned by_ref users) as Hin by (apply list_elem_of_omap; exists u; by rewrite Eu).
    unfold holders_in in Hin. rewrite Hn in Hin. by apply not_elem_of_nil in Hin.
  - apply orb_false_iff in Eu as [E1 E2]. split; [by apply String.eqb_neq|]. intros Hin%contains_elem_of. congruence.
Qed.

Lemma runs_unreferenced C sandboxes snapshots ref l :
  (∀ us ss, sandboxes = Ok us → snapshots = Ok ss → vouched C (us ++ ss)) →
  runs C (λ s, index s = l) (unreferenced root disks erofs sandboxes snapshots ref) (λ a s, index s = l ∧ (a = Ok tt → spares C ref l)).
Proof.
  intros Hv. unfold unreferenced. eapply (runs_bind disks erofs is_list C _ _ _ (λ us s, index s = l ∧ sandboxes = Ok us)).
  { apply triple_ask. intros s _ Hs. by destruct sandboxes. }
  intros us. eapply (runs_bind disks erofs is_list C _ _ _ (λ ss s, index s = l ∧ sandboxes = Ok us ∧ snapshots = Ok ss)).
  { apply triple_ask. intros s _ [Hs Hu]. by destruct snapshots. }
  intros ss. eapply (runs_pure disks erofs is_list C (vouched C (us ++ ss))); [intros s _ (_ & ? & ?); by apply Hv|]. intros Hvc.
  eapply (runs_bind disks erofs is_list C _ _ _ (λ c s, index s = l ∧ ∃ p, parseRef (E := E) ref = Ok p ∧ c = RName p)).
  { apply triple_ask. intros s _ (Hs & _). unfold Canonical. destruct (parseRef ref) as [p|] eqn:Ep; [|by split]. simpl. split; [done|]. by exists p. }
  intros c. eapply (runs_pure disks erofs is_list C (∃ p, parseRef (E := E) ref = Ok p ∧ c = RName p)); [by intros s _ []|]. intros (p & Hp & ->).
  eapply (runs_bind disks erofs is_list C _ _ _ (λ os s, index s = l ∧ os = orphaned_go (DDigest <$> (parted p l).2) [] (parted p l).1)).
  { eapply runs_weaken; [refine (runs_does disks erofs is_list C l _ _ _ (does_Orphaned disks erofs is_list C ref))|by intros s _ []|].
    intros [os|] s _ [Hs H]; [|by split]. destruct H as (q & Hq & ->). assert (q = p) as -> by congruence. by rewrite Hs. }
  intros os. eapply (runs_bind disks erofs is_list C _ _ _ (λ imgs s, index s = l ∧ index_ok (E := E) is_list l ∧
      os = orphaned_go (DDigest <$> (parted p l).2) [] (parted p l).1 ∧ (λ i, MkDescriptor (IReference i) (IDigest_ i)) <$> imgs ≡ₚ l ∧ Forall (λ c : claim, c.1 ≠ "" ∧ stands_for l c.1 c.2) C)).
  { eapply (runs_pure disks erofs is_list C (os = orphaned_go (DDigest <$> (parted p l).2) [] (parted p l).1)); [by intros s _ []|]. intros ->.
    eapply runs_weaken; [refine (runs_does disks erofs is_list C l _ _ _ (does_List root disks erofs is_list C))|by intros s _ []|].
    intros [imgs|] s Hi [Hs H]; [|by split]. destruct Hi as (_ & H1 & H2). rewrite Hs in *. split_and!; try done.
    eapply Forall_impl; [done|]. by intros d (? & ? & _). }
  intros imgs. destruct (holders_in _ _ _ us) as [|x xs] eqn:Eu; [|apply triple_fail; by intros s _ []].
  destruct (holders_in _ _ _ ss) as [|x xs] eqn:Es; [|apply triple_fail; by intros s _ []].
  apply triple_ret. intros s _ (Hs & Hok & -> & Hl & HC). split; [done|]. intros _ q cl Hq Hin. assert (q = p) as -> by congruence.
  rewrite Forall_forall in HC. destruct (HC cl Hin) as [Hne Hst]. destruct (Hvc cl Hin) as (u & Hu & Hur & Hud).
  assert (resolveDigest u (digestByReference imgs) = cl.2) as Hres. { apply (resolveDigest_stands l); try done; by rewrite Hur. }
  rewrite <- Hur, <- Hres. apply elem_of_app in Hu as [Hu|Hu]; [by eapply (holders_in_nil _ _ _ us)|by eapply (holders_in_nil _ _ _ ss)].
Qed.

(** ** The verbs *)

Lemma runs_removeImage C ref free :
  (∀ l, runs C (λ s, index s = l) free (λ a s, index s = l ∧ (a = Ok tt → spares C ref l))) →
  runs C (λ _, True) (removeImage ref free) (λ _ _, True).
Proof.
  intros Hf. unfold removeImage. eapply (runs_bind disks erofs is_list C _ _ _ (λ _ _, True)).
  { apply runs_caught. eapply runs_weaken; [by apply runs_Remove|done|done]. }
  intros [u|e]; [by apply triple_ret|]. case_match; [by apply triple_ret|by apply triple_fail].
Qed.

Lemma runs_prune C r sn l : (∀ us ss, heldImages r = Ok us → snapshotImages sn = Ok ss → vouched C (us ++ ss)) →
  ∀ acc, runs C (λ _, True) (prune_go root disks erofs r sn acc l) (λ _ _, True).
Proof.
  intros Hv. induction l as [|img l IH]; intros acc; cbn [prune_go]; [by apply triple_ret|]. case_match; [done|].
  eapply (runs_bind disks erofs is_list C _ _ _ (λ _ _, True)).
  { apply runs_caught. eapply runs_weaken; [apply runs_removeImage; intros l'; by apply runs_unreferenced|done|done]. }
  intros [ws|e]; [done|]. case_match; [done|by apply triple_ret].
Qed.

(** What a digest unpacks into is there, and whole. *)
Definition intact (d : string) (s : images) : Prop :=
  ∀ k, k ∈ shapes disks erofs → ∃ a, artifacts s !! at_ k d = Some a ∧ whole_of k d a.

Lemma kept_intact C s c : kept C s → c ∈ C → intact c.2 s.
Proof.
  intros Hk Hc k Hin. destruct Hk as (H1 & H2 & H3). pose proof H3 as H4. rewrite Forall_forall in H4. destruct (H4 c Hc) as (_ & Hs & Hp).
  destruct (Hp k Hin) as [a Ha]. exists a. split; [done|]. apply (kept_whole (E := E) disks erofs is_list C s k c.2 a); [done| |done].
  by eapply stands_plain.
Qed.

(** C20: an image that a record or a snapshot holds stays. Where the rootfs of the digest a holder stands on is there, it is there
    and whole at every state a removal or a prune that was not forced goes through, whichever call of the host fails on the way
    and wherever the daemon is cut: the directory, and the disk and the EROFS image where they are built. *)
Theorem held_image_stays r sn s u d ref :
  wholes (artifacts s) → index_ok (E := E) is_list (index s) →
  (∀ us ss, heldImages r = Ok us → snapshotImages sn = Ok ss → u ∈ us ++ ss) →
  UReference u ≠ "" → stands_for (index s) (UReference u) d → UDigest_ u = "" ∨ UDigest_ u = d →
  (∀ k, k ∈ shapes disks erofs → is_Some (artifacts s !! at_ k d)) →
  Forall (intact d) (states (RemoveImage root disks erofs r sn ref false) s) ∧ Forall (intact d) (states (PruneImages root disks erofs r sn) s).
Proof.
  intros Hw Hok Hu Hr Hst Hd Hp. set (C := [(UReference u, d)]).
  assert (kept C s) as Hk by (split; [done|]; split; [done|]; by apply Forall_singleton).
  assert (∀ us ss, heldImages r = Ok us → snapshotImages sn = Ok ss → vouched C (us ++ ss)) as Hv.
  { intros us ss H1 H2 c ->%list_elem_of_singleton. exists u. split; [by apply Hu|done]. }
  assert (∀ A (m : iop E A), runs C (λ _, True) m (λ _ _, True) → Forall (intact d) (states m s)) as Hall.
  { intros A m Hm. destruct (triple_states _ _ _ _ s Hm Hk Logic.I) as [Hs _]. eapply Forall_impl; [done|]. intros s' Hs'.
    apply (kept_intact C s' (UReference u, d)); [done|by left]. }
  split; apply Hall.
  - unfold RemoveImage. case_match; [by apply triple_fail|]. apply runs_removeImage. intros l. by apply runs_unreferenced.
  - unfold PruneImages. eapply (runs_bind disks erofs is_list C _ _ _ (λ _ _, True)); [|intros imgs; by apply runs_prune].
    eapply runs_weaken; [apply runs_quiet_any; eapply does_weaken; [apply (does_List root disks erofs is_list C)|done|done]|done|by intros []].
Qed.

(** ** Creates, snapshots and removals at once

    A holder is a record or a snapshot; [hclaim] is the digest whose rootfs it was handed, which the record of a create names only
    once the create is done. A removal holds the write lock from before its check to its end, and the removal lock from the check
    to the change of the index, during which no cached image is handed out; records are written and deleted all the while. *)

Record holder : Type := MkHolder { huser : imageUser; hsnapshot : bool; hclaim : option string }.

Inductive phase : Type := Idle | Checked (ref : string).

Record world : Type := MkWorld { wimages : images; wholders : gmap nat holder; wphase : phase }.

Definition users_of (snapshot : bool) (w : world) : list imageUser :=
  omap (λ p, if Bool.eqb (hsnapshot p.2) snapshot then Some (huser p.2) else None) (map_to_list (wholders w)).

Inductive event : Type :=
| Writes (i : nat) (name ref : string)
| Hits (i : nat) (ref : string)
| Pulls (i : nat) (ref : string) (remote : reference → option string) (cut : option nat)
| Records (i : nat)
| Copies (i j : nat) (name : string)
| Forgets (i : nat)
| Checks (ref : string)
| Unindexes (cut : option nat).

(** A holder that has none yet takes the image it was handed, where its record names the same reference. *)
Definition handed (i : nat) (ref digest : string) (m : gmap nat holder) : gmap nat holder :=
  match m !! i, Canonical (E := E) ref with
  | Some (MkHolder u sn None), Ok c => if String.eqb (UReference u) c && String.eqb (UDigest_ u) "" then <[i := MkHolder u sn (Some digest)]> m else m
  | _, _ => m
  end.

(** An operation run to its end, or cut after some of its changes. *)
Definition ran {A} (m : iop E A) (cut : option nat) (s : images) : images * option A :=
  match cut with
  | Some n => (default s (states m s !! n), None)
  | None => (((m s).1).2, match (m s).2 with Ok a => Some a | Err _ => None end)
  end.

Definition happens (e : event) (w : world) : world :=
  match e, w with
  | Writes i name ref, MkWorld s m ph =>
      match m !! i, Canonical (E := E) ref with
      | None, Ok c => MkWorld s (<[i := MkHolder (MkUser name c "") false None]> m) ph
      | _, _ => w
      end
  | Hits i ref, MkWorld s m Idle =>
      match ran (cached root disks erofs ref) None s with
      | (s, Some (Some img)) => MkWorld s (handed i ref (IDigest_ img) m) Idle
      | (s, _) => MkWorld s m Idle
      end
  | Pulls i ref remote cut, MkWorld s m Idle =>
      match ran (pullLocked root disks erofs remote ref) cut s with
      | (s, Some img) => MkWorld s (handed i ref (IDigest_ img) m) Idle
      | (s, None) => MkWorld s m Idle
      end
  | Records i, MkWorld s m ph =>
      match m !! i with
      | Some (MkHolder u sn (Some d)) => MkWorld s (<[i := MkHolder (MkUser (UName u) (UReference u) d) sn (Some d)]> m) ph
      | _ => w
      end
  | Copies i j name, MkWorld s m ph =>
      match m !! i, m !! j with
      | Some (MkHolder u _ (Some d)), None => MkWorld s (<[j := MkHolder (MkUser name (UReference u) (UDigest_ u)) true (Some d)]> m) ph
      | _, _ => w
      end
  | Forgets i, MkWorld s m ph => MkWorld s (delete i m) ph
  | Checks ref, MkWorld s m Idle =>
      match ran (unreferenced root disks erofs (Ok (users_of false w)) (Ok (users_of true w)) ref) None s with
      | (s, Some _) => MkWorld s m (Checked ref)
      | (s, None) => MkWorld s m Idle
      end
  | Unindexes cut, MkWorld s m (Checked ref) => MkWorld (ran (Remove_ ref (ret tt)) cut s).1 m Idle
  | _, _ => w
  end.

Definition after (es : list event) (w : world) : world := foldl (λ w e, happens e w) w es.

Definition claims_of (m : gmap nat holder) : list claim := omap (λ p, (λ d, (UReference (huser p.2), d)) <$> hclaim p.2) (map_to_list m).

Lemma elem_of_claims m c : c ∈ claims_of m ↔ ∃ i h d, m !! i = Some h ∧ hclaim h = Some d ∧ c = (UReference (huser h), d).
Proof.
  unfold claims_of. rewrite list_elem_of_omap. split.
  - intros ([i h] & Hi%elem_of_map_to_list & Hc). simpl in Hc. destruct (hclaim h) as [d|] eqn:Ed; [|done]. injection Hc as <-. eauto 10.
  - intros (i & h & d & Hi & Hd & ->). exists (i, h). split; [by apply elem_of_map_to_list|]. simpl. by rewrite Hd.
Qed.

Record sound (w : world) : Prop := MkSound {
  k_kept : kept (claims_of (wholders w)) (wimages w);
  k_digest : ∀ i h d, wholders w !! i = Some h → hclaim h = Some d → UDigest_ (huser h) = "" ∨ UDigest_ (huser h) = d;
  k_phase : ∀ ref, wphase w = Checked ref → spares (claims_of (wholders w)) ref (index (wimages w))
}.

Lemma kept_sub C C' s : (∀ c, c ∈ C' → c ∈ C) → kept C s → kept C' s.
Proof. intros Hs (H1 & H2 & H3). split; [done|]. split; [done|]. rewrite Forall_forall in *. auto. Qed.

Lemma spares_sub C C' ref l : (∀ c, c ∈ C' → c ∈ C) → spares C ref l → spares C' ref l.
Proof. intros Hs H p c Hp Hc. apply H; auto. Qed.

(** The holders may change as long as no claim is new. *)
Lemma sound_holders s m m' ph : sound (MkWorld s m ph) → (∀ c, c ∈ claims_of m' → c ∈ claims_of m) →
  (∀ i h d, m' !! i = Some h → hclaim h = Some d → UDigest_ (huser h) = "" ∨ UDigest_ (huser h) = d) → sound (MkWorld s m' ph).
Proof.
  intros [K1 K2 K3] Hc Hd. constructor; cbn in *; [by eapply kept_sub|done|]. intros ref Hr. eapply spares_sub; [done|by apply K3].
Qed.

(** An operation that keeps the claims, run to its end or cut. *)
Lemma ran_kept {A} C P (m : iop E A) Q cut s : runs C P m Q → P s → kept C s →
  kept C (ran m cut s).1 ∧ ∀ a, (ran m cut s).2 = Some a → Q (Ok a) (ran m cut s).1.
Proof.
  intros Hm HP Hk. destruct (triple_states _ _ _ _ s Hm Hk HP) as [Hs Hq]. destruct cut as [n|]; simpl.
  - split; [|done]. destruct (states m s !! n) as [s'|] eqn:En; [|done]. rewrite Forall_forall in Hs. apply Hs. by eapply list_elem_of_lookup_2.
  - specialize (Hm s Hk HP). destruct (m s) as [[t s'] [a|e]]; simpl in *; split; try naive_solver.
Qed.

Lemma claims_insert m i h c : c ∈ claims_of (<[i := h]> m) → c ∈ claims_of m ∨ ∃ d, hclaim h = Some d ∧ c = (UReference (huser h), d).
Proof.
  intros (j & g & d & Hj & Hd & ->)%elem_of_claims. apply lookup_insert_Some in Hj as [[<- <-]|[_ Hj]]; [right; eauto|left].
  apply elem_of_claims. eauto 10.
Qed.

(** What was handed over is one more claim, which holds. *)
Lemma handed_sound s m i ref d : sound (MkWorld s m Idle) → held_for (E := E) disks erofs ref d s → sound (MkWorld s (handed i ref d m) Idle).
Proof.
  intros Hs (p & Hp & Hc). unfold handed. destruct (m !! i) as [[u sn []]|] eqn:Ei; [done| |done]. unfold Canonical. rewrite Hp. simpl.
  destruct (String.eqb_spec (UReference u) (RName p)) as [Hu|]; [|done]. destruct (String.eqb_spec (UDigest_ u) "") as [Hd|]; [|done]. simpl.
  destruct Hs as [K1 K2 _]. constructor; cbn in *; [|clear K1|done].
  - destruct K1 as (H1 & H2 & H3). split; [done|]. split; [done|]. rewrite Forall_forall in *. intros c [Hin|(d' & [= <-] & ->)]%claims_insert; [auto|].
    simpl. by rewrite Hu.
  - intros j h d' [[<- <-]|[_ Hj]]%lookup_insert_Some; [intros _; by left|by apply (K2 j)].
Qed.

Lemma users_vouch s m ph : sound (MkWorld s m ph) → vouched (claims_of m) (users_of false (MkWorld s m ph) ++ users_of true (MkWorld s m ph)).
Proof.
  intros [_ K2 _] c (i & h & d & Hi & Hd & ->)%elem_of_claims. exists (huser h). split; [|split; [done|by apply (K2 i h d)]].
  apply elem_of_app. unfold users_of. cbn. destruct (hsnapshot h) eqn:Es; [right|left]; apply list_elem_of_omap; exists (i, h);
    (split; [by apply elem_of_map_to_list|]); simpl; by rewrite Es.
Qed.

(** The registry a pull asks answers the way a registry does. *)
Definition answers (e : event) : Prop := match e with Pulls _ _ remote _ => remote_ok is_list remote | _ => True end.

Lemma Hits_sound i ref w : sound w → sound (happens (Hits i ref) w).
Proof.
  destruct w as [s m []]; [|done]. intros Hs. cbn [happens].
  assert (runs (claims_of m) (λ _, True) (cached root disks erofs ref)
    (λ a s, match a with Ok (Some img) => held_for (E := E) disks erofs ref (IDigest_ img) s | _ => True end)) as Hr.
  { intros s0 Hi _. pose proof (runs_does disks erofs is_list _ (index s0) _ _ _ (does_cached root disks erofs is_list _ ref) s0 Hi (conj eq_refl Logic.I)) as H.
    destruct (cached root disks erofs ref s0) as [[t s'] a]. naive_solver. }
  destruct (ran_kept _ _ _ _ None s Hr Logic.I (k_kept _ Hs)) as [H1 H2]. destruct (ran _ None s) as [s' a]. simpl in *.
  assert (sound (MkWorld s' m Idle)) as Hs' by (destruct Hs; by constructor).
  destruct a as [[img|]|]; [|done|done]. apply handed_sound; [done|]. by apply (H2 (Some img)).
Qed.

Lemma Pulls_sound i ref remote cut w : remote_ok is_list remote → sound w → sound (happens (Pulls i ref remote cut) w).
Proof.
  intros Hrem. destruct w as [s m []]; [|done]. intros Hs. cbn [happens].
  destruct (ran_kept _ _ _ _ cut s (runs_pullLocked root disks erofs is_list (claims_of m) remote ref Hrem) Logic.I (k_kept _ Hs)) as [H1 H2].
  destruct (ran _ cut s) as [s' a]. simpl in *. assert (sound (MkWorld s' m Idle)) as Hs' by (destruct Hs; by constructor).
  destruct a as [img|]; [|done]. apply handed_sound; [done|]. by apply (H2 img).
Qed.

Lemma Checks_sound ref w : sound w → sound (happens (Checks ref) w).
Proof.
  destruct w as [s m []]; [|done]. intros Hs. cbn [happens]. set (w := MkWorld s m Idle) in *.
  set (free := unreferenced root disks erofs (Ok (users_of false w)) (Ok (users_of true w)) ref).
  pose proof (runs_unreferenced (claims_of m) (Ok (users_of false w)) (Ok (users_of true w)) ref (index s)) as Hf.
  specialize (Hf (λ us ss H1 H2, ltac:(injection H1 as <-; injection H2 as <-; by apply users_vouch)) s (k_kept _ Hs) eq_refl).
  fold free in Hf. simpl. destruct (free s) as [[t s'] a]. destruct Hf as (_ & H1 & H2 & H3). simpl.
  destruct a as [[]|e]; destruct Hs as [_ K2 _]; constructor; cbn in *; try done. intros ref' [= <-]. rewrite H2. by apply H3.
Qed.

Lemma Unindexes_sound cut w : sound w → sound (happens (Unindexes cut) w).
Proof.
  destruct w as [s m [|ref]]; [done|]. intros Hs. cbn [happens]. pose proof (k_phase _ Hs ref eq_refl) as Hsp. cbn in Hsp.
  assert (runs (claims_of m) (λ s', index s' = index s) (Remove_ ref (ret tt)) (λ _ _, True)) as Hr.
  { apply runs_Remove_at. apply triple_ret. by intros s' _ ->. }
  destruct (ran_kept _ _ _ _ cut s Hr eq_refl (k_kept _ Hs)) as [H1 _]. destruct Hs as [_ K2 _]. by constructor.
Qed.


Lemma happens_world_sound e w : answers e → sound w → sound (happens e w).
Proof.
  intros He. destruct e as [i name ref|i ref|i ref remote cut|i|i j name|i|ref|cut];
    [|apply Hits_sound|by apply Pulls_sound| | | |apply Checks_sound|apply Unindexes_sound]; destruct w as [s m ph]; intros Hs; cbn [happens].
  - destruct (m !! i) as [h|] eqn:Ei; [done|]. destruct (Canonical ref) as [c|]; [|done]. apply (sound_holders s m); [done| |].
    + intros x [Hx|(d & Hd & _)]%claims_insert; done.
    + intros j h d [[<- <-]|[_ Hj]]%lookup_insert_Some; [done|by apply (k_digest _ Hs j)].
  - destruct (m !! i) as [[u sn [d|]]|] eqn:Ei; [|done|done]. apply (sound_holders s m); [done| |].
    + intros x [Hx|(d' & [= <-] & ->)]%claims_insert; [done|]. apply elem_of_claims. exists i, (MkHolder u sn (Some d)), d. done.
    + intros j h d' [[<- <-]|[_ Hj]]%lookup_insert_Some; [intros [= <-]; by right|by apply (k_digest _ Hs j)].
  - destruct (m !! i) as [[u sn [d|]]|] eqn:Ei; [|done|done]. destruct (m !! j) as [h|] eqn:Ej; [done|]. apply (sound_holders s m); [done| |].
    + intros x [Hx|(d' & [= <-] & ->)]%claims_insert; [done|]. apply elem_of_claims. exists i, (MkHolder u sn (Some d)), d. done.
    + intros x h d' [[<- <-]|[_ Hj]]%lookup_insert_Some; [intros [= <-]; by apply (k_digest _ Hs i _ d Ei)|by apply (k_digest _ Hs x)].
  - apply (sound_holders s m); [done| |].
    + intros c (j & h & d & [_ Hj]%lookup_delete_Some & Hd & ->)%elem_of_claims. apply elem_of_claims. eauto 10.
    + intros j h d [_ Hj]%lookup_delete_Some. by apply (k_digest _ Hs j).
Qed.

Lemma after_world_sound es : ∀ w, Forall answers es → sound w → sound (after es w).
Proof. induction es as [|e es IH]; intros w Hes Hs; [done|]. apply Forall_cons in Hes as [He Hes]. by apply IH, happens_world_sound. Qed.

(** C14: what a sandbox or a snapshot was handed stays for as long as its record does. From a tree that is whole, whatever order
    creates write their records, hit the cache, pull and finish in, snapshots are taken, records go, and removals check and unindex
    in between, whichever calls fail and wherever one is cut: the rootfs a holder was handed, and its disk and its EROFS image
    where they are built, are there and whole. *)
Theorem handed_stays s es i h d :
  wholes (artifacts s) → index_ok (E := E) is_list (index s) → Forall answers es →
  wholders (after es (MkWorld s ∅ Idle)) !! i = Some h → hclaim h = Some d →
  intact d (wimages (after es (MkWorld s ∅ Idle))).
Proof.
  intros Hw Hok Hes Hi Hd. assert (sound (MkWorld s ∅ Idle)) as Hs.
  { constructor; cbn; [|by intros ? ? ? ?%lookup_empty_Some|done]. split; [done|]. split; [done|]. apply Forall_forall.
    intros c (j & g & e & Hj%lookup_empty_Some & _)%elem_of_claims. done. }
  pose proof (after_world_sound es _ Hes Hs) as Ha. apply (kept_intact _ _ (UReference (huser h), d) (k_kept _ Ha)). apply elem_of_claims. eauto 10.
Qed.

End Holders.

(** ** A run *)

Module Bench.

#[export] Instance names_ : References := {| ParseReference ref := if String.eqb ref "" then None else Some (MkReference ref ref ref None) |}.

#[export] Instance names_laws : ReferenceLaws.
Proof.
  split; intros ref p; simpl; (destruct (String.eqb_spec ref "") as [|Hne]; [done|]); intros [= <-]; [|done].
  exists (MkReference ref ref ref None). simpl. by rewrite (proj2 (String.eqb_neq _ _) Hne).
Qed.

#[export] Instance contents_ : Contents := {|
  manifest_of d := if String.eqb d "sha256:aa" then Some (MkManifest "sha256:cf" ["sha256:01"]) else if String.eqb d "sha256:bb" then Some (MkManifest "sha256:cf" []) else None;
  config_of c := if String.eqb c "sha256:cf" then Some (MkImageConfig [] "" "") else None
|}.

Definition tree_ : images := MkImages
  [MkDescriptor "alpine" "sha256:aa"; MkDescriptor "old" "sha256:bb"]
  (list_to_map ((λ h, (h, h)) <$> ["sha256:aa"; "sha256:bb"; "sha256:cf"; "sha256:01"]))
  (list_to_map [(at_ RootFS_ "sha256:aa", MkArtifact true ["sha256:01"]); (at_ RootFS_ "sha256:bb", MkArtifact true [])]) [].

(** A create hits the cache while its record is pending; a removal of its image is refused, and one of another image is not. *)
Definition busy : list event :=
  [Writes 0 "box" "alpine"; Hits 0 "alpine"; Checks "alpine"; Unindexes None; Checks "old"; Writes 1 "late" "old"; Hits 1 "old"; Unindexes None;
   Records 0; Copies 0 2 "snap"; Forgets 0; Checks "alpine"; Unindexes None].

Example busy_runs :
  let w := after "/images" false false busy (MkWorld tree_ ∅ Idle) in
  index (wimages w) = [MkDescriptor "alpine" "sha256:aa"] ∧ hclaim <$> wholders w !! 2%nat = Some (Some "sha256:aa") ∧
  hclaim <$> wholders w !! 1%nat = Some None ∧ (map_to_list (artifacts (wimages w))).*1 = [at_ RootFS_ "sha256:aa"].
Proof. vm_compute. split_and!; reflexivity. Qed.

Lemma tree_whole : wholes (artifacts tree_) ∧ index_ok (E := free_error) (λ _, false) (index tree_).
Proof.
  split.
  - intros k n f a Ha Hn. unfold tree_ in Ha. cbn [artifacts] in Ha. apply elem_of_list_to_map_2 in Ha.
    apply elem_of_cons in Ha as [[= -> -> ->]|Ha].
    + destruct Hn as [[= <-]|?]; [|done]. exists "sha256:aa". split; [done|]. split; [done|]. split; [done|]. by eexists.
    + apply list_elem_of_singleton in Ha as [= -> -> ->]. destruct Hn as [[= <-]|?]; [|done]. exists "sha256:bb".
      split; [done|]. split; [done|]. split; [done|]. by eexists.
  - split.
    + repeat constructor; done.
    + intros d d' Hd Hd'. cbn in Hd, Hd'. apply elem_of_cons in Hd as [Hd|Hd%list_elem_of_singleton];
        apply elem_of_cons in Hd' as [Hd'|Hd'%list_elem_of_singleton]; by subst.
Qed.

End Bench.
Import Bench.

Lemma handed_stays_witness :
  intact false false "sha256:aa" (wimages (after "/images" false false Bench.busy (MkWorld Bench.tree_ ∅ Idle))).
Proof.
  refine (handed_stays "/images" false false (λ _, false) Bench.tree_ Bench.busy 2
    (MkHolder (MkUser "snap" "alpine" "sha256:aa") true (Some "sha256:aa")) "sha256:aa" (proj1 Bench.tree_whole) (proj2 Bench.tree_whole) _ _ _).
  - repeat constructor.
  - vm_compute. reflexivity.
  - reflexivity.
Defined.

(** A stopped sandbox of the image, as its repository lists it. *)
Definition held_record : Sandbox := {|
  ID := "brave-otter-0001"; Name := ""; Models.Image := "alpine"; Digest := "sha256:aa"; Snapshot := ""; ForkedFrom := ""; Provider := "";
  Kernel := ""; SState := StateStopped; ExitChannel := ""; StoppedReason := ""; FailedReason := "";
  FailedPublic := ""; UnresponsiveReason := ""; SOOM := None; Checkpoint := ""; Pausing := false;
  PID := 0; NetnsPath := ""; Address := PrefixZero; HostInterface := "";
  SResources := MkResources 0 0 0 0; Processes := []; StoppedByOperator := false; LogStarts := [];
  Secrets := []; SPolicyName := ""; Models.Ports := []; StartedAt := 0; RunStartedAt := 0; CreatedAt := 0 |}.
Definition one_record : repo := MkRepo {[ "brave-otter-0001" := EntryDir (Some (RecordOf held_record)) ]} ∅ ∅ 0.
Definition no_snapshots : snaps := MkSnaps ∅ ∅.

Lemma held_image_stays_witness :
  Forall (intact false false "sha256:aa") (states (RemoveImage "/images" false false one_record no_snapshots "alpine" false) tree_) ∧
  Forall (intact false false "sha256:aa") (states (PruneImages "/images" false false one_record no_snapshots) tree_).
Proof.
  refine (held_image_stays "/images" false false (λ _, false) one_record no_snapshots tree_ (MkUser "brave-otter-0001" "alpine" "sha256:aa")
    "sha256:aa" "alpine" (proj1 tree_whole) (proj2 tree_whole) _ _ _ _ _).
  - intros us ss H1 H2. vm_compute in H1, H2. injection H1 as <-. injection H2 as <-. left.
  - done.
  - left. left.
  - by right.
  - intros k ->%list_elem_of_singleton. vm_compute. by eexists.
Defined.

(** The removal is refused, and the prune takes the other image. *)
Example held_refused :
  (RemoveImage "/images" false false one_record no_snapshots "alpine" false tree_).2 =
    Err (IFree (FHeldBy (MkHeld "image alpine" "referenced by" "sandbox" ["brave-otter-0001"] "remove the sandbox first, or pass --force"))) ∧
  (PruneImages "/images" false false one_record no_snapshots tree_).2 = Ok (MkPruned ["old"] [] [] None).
Proof. vm_compute. split; reflexivity. Qed.
