(* ===== verification/Verbs.v ===== *)
(** * The verbs keep the machine

    Every lifecycle verb, background loop and create of the sandbox service, checked against [Moves]: which states it may
    leave a record in, and that each change on the way is a legal move that keeps the invariants. *)

From S2P Require Import Prelude Ops Paths GoStrings Netip Models SandboxFields Restart Store Secret SandboxID Repository ExecTable Host Moves.
From S2P Require Import Lifecycle Reconcile Processes Checkpoint Ports Creation.
Local Open Scope Z_scope.
Local Open Scope op_scope.

Create HintDb keeps.

(** ** Automation *)

Ltac own := intros ? Hclaim; cbn in Hclaim; first [discriminate Hclaim|by injection Hclaim].
#[export] Hint Extern 1 (own_claim _ _) => own : keeps.

#[export] Hint Resolve keeps_ret keeps_fail keeps_ask keeps_of_result keeps_check keeps_read keeps_attempt keeps_try keeps_call
  keeps_touch_table : keeps.

Ltac sub := first [done|set_solver].

(** Steps that leave the record's state alone, up to one that does not. *)
Ltac kstep :=
  lazymatch goal with
  | |- keeps ?id ?A (bind (A := ?X) ?m ?k) ?C =>
      eapply (keeps_bind id A m k A C); [solve [eauto 3 with keeps]|sub|intros ?]
  | |- keeps ?id ?A (match ?x with _ => _ end) ?C => destruct x eqn:?
  | |- keeps ?id ?A ?m ?C => first [solve [eapply (keeps_mono id A A m A C); [solve [eauto 3 with keeps]|done|sub]]]
  end.
Ltac ksteps := repeat kstep.

(** A sub-operation that may move the record from [A] to [B]. *)
Ltac kuse B H := eapply (keeps_bind _ _ _ _ B); [eapply keeps_mono; [apply H|sub|sub]|sub|intros ?].

Section Verbs.
Context `{Hst : Host} {Hld : Holdings}.

(** ** Pieces that leave the state alone *)

Lemma probe_same id A : keeps id A (probe id) A.
Proof. unfold probe. ksteps. Qed.

Lemma status_same id i verb A : keeps id A (status i verb) A.
Proof. unfold status. ksteps. Qed.

Lemma closePorts_same id i A : keeps id A (closePorts i) A.
Proof. unfold closePorts. ksteps. Qed.

Lemma getRecord_same id i A : keeps id A (getRecord i) A.
Proof. apply keeps_ask. Qed.

Lemma openPorts_same id A : keeps id A (openPorts id) A.
Proof. unfold openPorts, getRecord. ksteps. Qed.

Lemma table_same id A : keeps id A (table_ id) A.
Proof. unfold table_. ksteps. Qed.

Lemma drop_execs_same id i A : keeps id A (drop_execs i) A.
Proof. apply keeps_touch_table. Qed.

Lemma CheckpointDir_same id i A : keeps id A (CheckpointDir i) A.
Proof. apply keeps_ask. Qed.

Lemma remove_checkpoint_same id A ok name : keeps id A (on_repo (remove_checkpoint ok name)) A.
Proof. apply keeps_on_repo. intros r. unfold remove_checkpoint. destruct ok; simpl; [|done]. split; [by apply Forall_singleton|done]. Qed.

Lemma mutate_same id f A : (∀ sb, SState (f sb) = SState sb) → keeps id A (mutate id f) A.
Proof. apply keeps_mutate_same. Qed.

End Verbs.

#[export] Hint Resolve probe_same status_same closePorts_same getRecord_same openPorts_same table_same drop_execs_same
  CheckpointDir_same remove_checkpoint_same : keeps.
#[export] Hint Extern 2 (keeps _ ?A (mutate _ _) ?A) => (apply keeps_mutate_same; by_fields) : keeps.

Section More.
Context `{Hst : Host} {Hld : Holdings}.

Lemma dropCheckpoint_same id A : keeps id A (dropCheckpoint id) A.
Proof. unfold dropCheckpoint. ksteps. Qed.

Lemma await_go_same fuel id deadline A : keeps id A (await_go fuel id deadline) A.
Proof.
  revert id. induction fuel as [|fuel IH]; intros id; cbn [await_go]; [ksteps|]. repeat first [kstep|apply IH].
Qed.

Lemma awaitStopped_same id A : keeps id A (awaitStopped id) A.
Proof. unfold awaitStopped. kstep. apply await_go_same. Qed.

(** ** Writes that move the state *)

Definition can (A : list State) (t : State) : Prop := Forall (λ s, s = t ∨ CanTransitionTo s t = true) A.

Lemma lands_to f A t : (∀ sb, SState (f sb) = t) → can A t → lands f A [t].
Proof.
  intros Hf Hc sb Hs. rewrite Hf. split; [by apply list_elem_of_singleton|]. by apply (proj1 (Forall_forall _ _) Hc).
Qed.

Lemma mutate_to id f A t : (∀ sb, SState (f sb) = t) → can A t → keeps id A (mutate id f) (A ++ [t]).
Proof. intros. by apply keeps_mutate, lands_to. Qed.

Lemma RecordRunning_to id resumed A : can A StateRunning → keeps id A (RecordRunning id resumed) (A ++ [StateRunning]).
Proof. intros Hc. unfold RecordRunning. ksteps. apply mutate_to; [|done]. intros sb. unfold ranAgain. by destruct sb, resumed; simpl; repeat case_match. Qed.

Lemma Reconcile_to id resumed A : can A StateRunning → keeps id A (Reconcile id resumed) (A ++ [StateRunning]).
Proof. intros Hc. unfold Reconcile. kstep. kstep; [ksteps|]. kuse (A ++ [StateRunning]) RecordRunning_to; [done|]. ksteps. Qed.

Lemma keeps_joined {X} id A e (m : sop unit) B : keeps id A m B → keeps id A (joined e m : sop X) B.
Proof. intros H s Hs. specialize (H s Hs). unfold joined. destruct (m s) as [[t s'] a]. exact H. Qed.

Lemma keeps_unwinding {X} id A e steps : Forall (λ step, keeps id A step A) steps → keeps id A (unwinding e steps : sop X) A.
Proof.
  intros Hs. assert (H : keeps id A (Unwind steps) A).
  { induction Hs as [|step steps H _ IH]; cbn [Unwind]; [ksteps|]. by eapply keeps_bind; [exact H|done|intros]. }
  intros s Hat. specialize (H s Hat). unfold unwinding. destruct (Unwind steps s) as [[t s'] a]. exact H.
Qed.

(** ** start *)

Lemma recordFailedStart_same id A : keeps id A (recordFailedStart id) A.
Proof. unfold recordFailedStart. ksteps. Qed.

Lemma startWithin_to id A : can A StateRunning → keeps id A (startWithin id) (A ++ [StateRunning]).
Proof.
  intros Hc. unfold startWithin. do 2 kstep. kstep; [by apply RecordRunning_to|].
  eapply (keeps_bind _ _ _ _ (A ++ [StateRunning])); [by apply keeps_attempt, Reconcile_to|sub|].
  intros [?|?]; [|ksteps]. apply keeps_joined, recordFailedStart_same.
Qed.

Lemma start_to id A : can A StateRunning → keeps id A (start id) (A ++ [StateRunning]).
Proof.
  intros Hc. unfold start. eapply (keeps_bind _ _ _ _ (A ++ [StateRunning])); [by apply keeps_attempt, startWithin_to|sub|].
  intros a. ksteps.
Qed.

(** ** stop *)

Lemma open_stop_same id sb A : keeps id A (open_stop id sb) A.
Proof. unfold open_stop. ksteps. Qed.

Lemma stop_to id force A : can A StateStopped → keeps id A (stop id force) (A ++ [StateStopped]).
Proof.
  intros Hc. unfold stop. do 2 kstep. eapply (keeps_bind _ A _ _ A); [destruct force; [ksteps|apply open_stop_same]|sub|].
  intros []; [|kstep; eapply keeps_mono; [apply dropCheckpoint_same|sub|sub]..].
  kstep. eapply (keeps_bind _ A _ _ A); [apply awaitStopped_same|sub|intros st]. do 2 kstep.
  eapply (keeps_mutate_bind _ _ _ [StateStopped]); [apply lands_to; [|done]|sub|].
  - intros sb. unfold stoppedBy. by destruct sb; simpl; repeat case_match.
  - eapply keeps_mono; [apply dropCheckpoint_same|sub|sub].
Qed.

(** ** Whole verbs

    [serves m]: from any well-formed service, each change of [m] is a move of one sandbox. *)

Definition any_moves (s s' : service) : Prop := ∃ id, moves id s s'.

Definition good (s : service) : Prop := well_formed (repo_of s) ∧ no_orphans s.

Definition serves {X} (m : sop X) : Prop := path any_moves good m (λ _ _, True).

Lemma any_moves_good s s' : any_moves s s' → good s → good s'.
Proof. intros [id [[]]] []. split; auto. Qed.

Lemma serves_good {X} (m : sop X) : serves m → path any_moves good m (λ _, good).
Proof.
  intros H s Hs. specialize (H s Hs). destruct (m s) as [[t s'] a]. destruct H as [Ht _]. split; [done|].
  by apply (chain_keeps any_moves good s t s' any_moves_good Ht).
Qed.

Lemma serves_bind {X Y} (m : sop X) (k : X → sop Y) : serves m → (∀ x, serves (k x)) → serves (bind m k).
Proof.
  intros Hm Hk. eapply path_bind with (M := λ _, good); [|exact Hk].
  eapply path_post; [by apply serves_good|]. by intros [].
Qed.

Lemma serves_ret {X} (x : X) : serves (ret x).
Proof. by apply path_ret. Qed.
Lemma serves_fail {X} e : serves (fail e : sop X).
Proof. by apply path_fail. Qed.
Lemma serves_ask {X} (f : service → result service_error X) : serves (ask f).
Proof. by apply path_ask. Qed.
Lemma serves_of_result {X} (x : result service_error X) : serves (of_result x).
Proof. destruct x; [apply serves_ret|apply serves_fail]. Qed.
Lemma serves_check e b : serves (check e b).
Proof. apply path_check. intros. by destruct b. Qed.
Lemma serves_attempt {X} (m : sop X) : serves m → serves (attempt m).
Proof. intros H s Hs. specialize (H s Hs). unfold attempt. destruct (m s) as [[t s'] a]. exact H. Qed.
Lemma serves_joined {X} e (m : sop unit) : serves m → serves (joined e m : sop X).
Proof. intros H s Hs. specialize (H s Hs). unfold joined. destruct (m s) as [[t s'] a]. exact H. Qed.

Lemma serves_call {X} (c : call X) : claims c = None → serves (do_call c).
Proof.
  intros Hc s Hs. unfold do_call. pose proof (call_moves "" c s) as Hm. destruct (perform c (host s)) as [w a]. simpl in *.
  split; [|done]. split; [|done]. exists "". apply Hm. by rewrite Hc.
Qed.

Lemma serves_try {X} (c : call (answer X)) : claims c = None → serves (try c).
Proof. intros Hc. apply serves_bind; [by apply serves_call|]. intros [?|?]; [apply serves_ret|apply serves_fail]. Qed.

Lemma serves_locked {X} id (m : sop X) : serves m → serves (locked id m).
Proof. intros Hm. apply serves_bind; [by apply serves_call|]. intros []; [done|apply serves_fail]. Qed.

Lemma serves_tryLocked {X} id (x : X) (m : sop X) : serves m → serves (tryLocked id x m).
Proof. intros Hm. apply serves_bind; [by apply serves_call|]. intros []; [done|apply serves_ret]. Qed.

Lemma serves_touch_table f : serves (touch (λ s, set_table (f s) s)).
Proof. apply path_touch. intros s Hs. split; [|done]. exists "". split; [apply repo_moves_refl|done]. Qed.

(** The states a record can be in. *)
Definition all_states : list State :=
  [StatePending; StateCreated; StateRunning; StatePaused; StateUnresponsive; StateStopped; StateFailed].

Lemma valid_all s : State_Valid s = true → s ∈ all_states.
Proof. destruct s; [set_solver..|done]. Qed.

(** [works id A m]: the same, for one sandbox and with nothing said of its record at the end. *)
Definition works {X} (id : string) (A : list State) (m : sop X) : Prop := path (moves id) (at_ id A) m (λ _ _, True).

Lemma keeps_works {X} id A (m : sop X) B : keeps id A m B → works id A m.
Proof. intros H. by eapply path_post. Qed.

Lemma chain_any id s t s' : chain (moves id) s t s' → chain any_moves s t s'.
Proof. apply chain_mono. intros a b ?. by exists id. Qed.

(** A verb that begins with the record it works on. *)
Lemma serves_get_works {Y} id (k : Sandbox → sop Y) :
  (∀ sb, SState sb ∈ all_states → ID sb = id → works id [SState sb] (k sb)) → serves (bind (getRecord id) k).
Proof.
  intros Hk s [Hs _]. unfold bind, getRecord, ask. destruct (Get (repo_of s) id) as [sb|e] eqn:E; simpl; [|done].
  apply Get_record in E as [Hv E]. destruct (Hs id sb Hv E) as [Hid Hval].
  specialize (Hk sb (valid_all _ Hval) Hid s (ex_intro _ sb (conj E (proj2 (list_elem_of_singleton _ _) eq_refl)))).
  destruct (k sb s) as [[t s'] b]. destruct Hk as [Hc _]. split; [by eapply chain_any|done].
Qed.

Lemma serves_get {Y} id (k : Sandbox → sop Y) :
  (∀ sb, SState sb ∈ all_states → ID sb = id → ∃ C, keeps id [SState sb] (k sb) C) → serves (bind (getRecord id) k).
Proof. intros Hk. apply serves_get_works. intros sb Hin Hid. destruct (Hk sb Hin Hid) as [C HC]. by eapply keeps_works. Qed.

Lemma keeps_bind_val {X Y} id A (m : sop X) (k : X → sop Y) (F : X → Prop) (B : X → list State) C :
  path (moves id) (at_ id A) m (λ a s, match a with Ok x => F x ∧ at_ id (B x) s | Err _ => at_ id C s end) →
  (∀ x, F x → keeps id (B x) (k x) C) → keeps id A (bind m k) C.
Proof.
  intros Hm Hk. eapply path_bind; [exact Hm|]. intros x s [HF Hs]. by apply (Hk x HF).
Qed.

Lemma keeps_guard {Y} id A sb (k : unit → sop Y) C :
  A ⊆ C → (SState sb ≠ StateFailed → keeps id A (k tt) C) → keeps id A (bind (ask (λ _, FailedGuard sb)) k) C.
Proof.
  intros HA Hk. unfold FailedGuard. case_bool_decide as E.
  - intros s Hs. simpl. split; [done|]. by eapply at_mono.
  - eapply keeps_bind_val with (F := λ _, True) (B := λ _, A); [by apply path_ask|]. intros [] _. by apply Hk.
Qed.

Lemma keeps_check_bind {Y} id A e b (k : unit → sop Y) C :
  A ⊆ C → (b = true → keeps id A (k tt) C) → keeps id A (bind (check e b) k) C.
Proof.
  intros HA Hk. destruct b.
  - eapply (keeps_bind id A _ _ A); [ksteps|done|]. intros []. by apply Hk.
  - intros s Hs. simpl. split; [done|]. by eapply at_mono.
Qed.

(** *** Stop *)

Definition stoppable : list State := [StateCreated; StateRunning; StatePaused; StateUnresponsive; StateStopped].

Lemma can_stop : can stoppable StateStopped.
Proof. repeat (apply Forall_cons; split; [by auto|]). constructor. Qed.

Lemma failed_state cause sb : SState (failed cause sb) = StateFailed.
Proof. by destruct sb. Qed.

Lemma Stop_locked_serves id : serves (Stop_locked id).
Proof.
  apply serves_get. intros sb Hin Hid. exists all_states.
  eapply (keeps_bind_val _ _ _ _ (λ sb', SState sb' ≠ StatePending ∧ SState sb' ∈ all_states) (λ sb', [SState sb'])).
  - case_bool_decide as Hp.
    + rewrite Hp. eapply path_bind with (M := λ _, at_ id [StateFailed]).
      * eapply path_post; [apply path_mutate, (lands_to _ _ StateFailed), Forall_singleton; [apply failed_state|by right]|].
        intros [?|?] s H; [done|]. eapply at_mono; [|exact H]. set_solver.
      * intros []. apply path_ask. intros s (sb1 & Hr & Hs). apply list_elem_of_singleton in Hs.
        destruct (Get (repo_of s) id) as [sb2|] eqn:E; simpl; [|exists sb1; split; [done|rewrite Hs; set_solver]].
        apply Get_record in E as [_ E]. rewrite Hr in E. injection E as <-. rewrite Hs. split; [split; [done|set_solver]|].
        exists sb1. split; [done|]. by apply list_elem_of_singleton.
    + apply path_ret. done.
  - intros sb' [Hp Hs]. apply keeps_guard; [set_solver|]. intros Hf.
    eapply keeps_mono; [|intros x Hx; apply list_elem_of_singleton in Hx as ->; assert (SState sb' ∈ stoppable) by (unfold all_states, stoppable in *; set_solver); eassumption|done].
    eapply (keeps_bind _ _ _ _ (stoppable ++ [StateStopped])); [apply stop_to, can_stop|set_solver|]. intros _.
    eapply keeps_mono; [apply getRecord_same|done|set_solver].
Qed.

End More.
