(* ===== verification/Removal.v ===== *)
(** * Removing a sandbox

    rm frees what a stopped sandbox holds in an order that keeps the record until nothing else is left to find by it.
    The record is the only handle by which the mount and the lease can be found again, so a removal cut anywhere
    leaves either the record or nothing. *)

From S2P Require Import Prelude Ops Paths GoStrings Netip Models SandboxFields Restart Store Secret SandboxID Repository ExecTable Host Moves.
From S2P Require Import Lifecycle Reconcile Processes Checkpoint Ports Creation Verbs.
Local Open Scope Z_scope.
Local Open Scope op_scope.

Section Removal.
Context `{Hst : Host} {Hld : Holdings}.

(** The host holds nothing for [id]. *)
Definition unheld (id : string) (s : service) : Prop := id ∉ leased (host s) ∪ substrate (host s).

Lemma same_dirs_moves id r r' : dirs r' = dirs r → repo_moves id r r'.
Proof.
  intros E. assert (H : ∀ i, record r' i = record r i) by (intros i; unfold record; by rewrite E). split.
  - intros i _ _. apply H.
  - unfold state_of. rewrite H. constructor.
  - intros Hw i sb Hv. rewrite H. by apply Hw.
Qed.

(** A record that goes. *)
Lemma gone_moves id r r' : others_same id r r' → record r' id = None → repo_moves id r r'.
Proof.
  intros Ho Hn. split; [done|..].
  - unfold state_of. rewrite Hn. destruct (record r id); constructor.
  - intros Hw i sb Hv Hr. destruct (decide (i = id)) as [->|Hne]; [congruence|]. apply Hw; [done|]. by rewrite <- Ho.
Qed.

Lemma trash_ne c id : trash_of c id ≠ id.
Proof. intros E. apply (f_equal String.length) in E. unfold trash_of in E. rewrite !length_app_s in E. simpl in E. lia. Qed.

(** A removal of the trash is no change of a record. *)
Lemma removeTrash_path n calls c id (P : repo → Prop) :
  (∀ r r', record r' id = record r id → P r → P r') →
  path (repo_moves id) P (removeTrash n calls (trash_of c id)) (λ _, P).
Proof.
  intros HP. induction n as [|n IH]; cbn [removeTrash]; [by apply path_fail|].
  destruct (calls n); [|done|by apply path_fail]. apply path_touch. intros r Hr.
  assert (Hsame : ∀ i, ValidID i = Ok tt ∨ i = id → record (set_dirs (delete (trash_of c id)) r) i = record r i).
  { intros i Hi. rewrite record_delete. case_decide as E; [|done]. destruct Hi as [Hi| ->]; [|by destruct (trash_ne c id)].
    by destruct (trash_not_id c id); rewrite E. }
  split; [split|].
  - intros i Hv _. apply Hsame. by left.
  - unfold state_of. rewrite Hsame by (by right). constructor.
  - intros Hw i s Hv. rewrite Hsame by (by left). by apply Hw.
  - eapply HP; [|exact Hr]. apply Hsame. by right.
Qed.

Lemma move_aside_moves c id r :
  let r' := set_dirs (move_aside id (trash_of c id)) r in repo_moves id r r' ∧ record r' id = None.
Proof.
  assert (Hn : record (set_dirs (move_aside id (trash_of c id)) r) id = None).
  { unfold record, set_dirs, move_aside. cbn [dirs]. destruct (dirs r !! id) eqn:E; [|by rewrite E].
    rewrite lookup_insert, lookup_delete, (decide_True (P := id = id)) by done. case_decide as E1; [|done]. by destruct (trash_ne c id). }
  split; [|done]. apply gone_moves; [|done]. intros i Hv Hne. unfold record, set_dirs, move_aside. cbn [dirs].
  destruct (dirs r !! id); [|done]. rewrite lookup_insert, lookup_delete.
  case_decide as E; [by destruct (trash_not_id c id); rewrite E|]. by rewrite decide_False.
Qed.

Lemma Delete_path c id : path (repo_moves id) (λ _, True) (Delete c id) (λ a r, a = Ok tt → record r id = None).
Proof.
  unfold Delete. eapply path_bind with (M := λ _ _, True); [apply path_ask; intros r _; by destruct (Get r id)|]. intros sb.
  eapply path_deferred with (Q' := λ a r, a = Ok tt → record r id = None); [|intros; split; [by apply same_dirs_moves|done]].
  eapply path_bind with (M := λ _ _, True).
  { unfold drop_name. destruct (String.eqb _ _); [by apply path_ret|]. eapply path_bind with (M := λ _ _, True); [by apply path_ask|].
    intros [[target| |]|]; [|by apply path_fail..|by apply path_ret]. destruct (negb _); [by apply path_ret|].
    destruct (dc_drop c); [|by apply path_fail]. apply path_touch. intros. split; [by apply same_dirs_moves|done]. }
  intros _. assert (Hck : ∀ ok name, path (repo_moves id) (λ _, True) (remove_checkpoint ok name)
    (λ a r, match a with Ok _ => True | Err e => @Err repo_error unit e = Ok tt → record r id = None end)).
  { intros [] name; [|by apply path_fail]. apply path_touch. intros. split; [by apply same_dirs_moves|done]. }
  eapply path_bind with (M := λ _ _, True); [apply Hck|intros _].
  eapply path_bind with (M := λ _ _, True); [apply Hck|intros _].
  eapply path_bind with (M := λ _ _, True); [apply path_check; intros; by destruct (dc_rename c)|intros _].
  eapply path_bind with (M := λ _ r, record r id = None); [apply path_touch; intros r _; apply move_aside_moves|intros _].
  eapply path_bind with (M := λ _ r, record r id = None); [|intros _; apply path_check; intros; by destruct (dc_sync c)].
  eapply path_post; [apply (removeTrash_path 3 _ c id (λ r, record r id = None)); congruence|]. by intros [].
Qed.

(** A change of the repository while the host holds nothing for [id]. *)
Lemma on_repo_unheld {X} id (m : op repo repo_error X) Q :
  path (repo_moves id) (λ _, True) m Q →
  path (moves id) (unheld id) (on_repo m) (λ a s, unheld id s ∧ ∃ b, a = map_err ERepo b ∧ Q b (repo_of s)).
Proof.
  intros Hm s Hu. specialize (Hm (repo_of s) I). unfold on_repo. destruct (m (repo_of s)) as [[t r'] a]. destruct Hm as [Ht HQ].
  split; [|eauto]. assert (Hgen : ∀ t r0, chain (repo_moves id) r0 t r' →
    chain (moves id) (set_repo r0 s) ((λ r, set_repo r s) <$> t) (set_repo r' s)).
  { clear t Ht. intros t. induction t as [|x t IH]; intros r0; [by intros ->|]. intros [Hx Ht]. rewrite fmap_cons.
    split; [|by apply IH]. split; [exact Hx|]. intros Hn i Hv Hi. cbn [repo_of set_repo host] in *.
    rewrite (rm_others _ _ _ Hx); [by apply Hn|done|]. intros ->. done. }
  specialize (Hgen t (repo_of s) Ht). destruct s. exact Hgen.
Qed.

Lemma do_call_unheld {X} id (c : call X) : claims c = None → path (moves id) (unheld id) (do_call c) (λ _, unheld id).
Proof.
  intros Hc s Hu. unfold do_call. pose proof (call_moves id c s) as Hm.
  pose proof (leased_law X c (host s)) as Hl. pose proof (substrate_law X c (host s)) as Hs.
  destruct (perform c (host s)) as [w a]. simpl in *. split; [split; [|done]; apply Hm; by rewrite Hc|].
  unfold unheld in *. cbn [host set_host]. revert Hu Hl Hs. clear -Hc.
  destruct c; try discriminate Hc; simpl; try set_solver; destruct a; set_solver.
Qed.

(** Freed: nothing on the host, and no record. *)
Definition freed (id : string) (s : service) : Prop := unheld id s ∧ record (repo_of s) id = None.

Lemma deleteRecord_path id :
  path (moves id) (unheld id) (deleteRecord id) (λ a s, unheld id s ∧ (a = Ok tt → record (repo_of s) id = None)).
Proof.
  unfold deleteRecord. eapply path_bind with (M := λ _, unheld id).
  - eapply path_post; [by apply do_call_unheld|]. by intros [].
  - intros c. eapply path_post; [apply on_repo_unheld, Delete_path|]. intros a s (Hu & b & -> & Hb). split; [done|].
    intros E. apply Hb. by destruct b as [[]|].
Qed.

(** The give-backs of the network and the substrate. *)
Lemma PRemove_path id A :
  path (moves id) (at_ id A) (try (PRemove id)) (λ a s, at_ id A s ∧ (a = Ok tt → id ∉ substrate (host s))).
Proof.
  intros s Hs. unfold try, bind, do_call. pose proof (call_moves id (PRemove id) s ltac:(done)) as Hm.
  pose proof (substrate_law _ (PRemove id) (host s)) as Hl. destruct (perform (PRemove id) (host s)) as [w [[]|e]]; simpl in *.
  - split_and!; [done|done|done|]. intros _. set_solver.
  - done.
Qed.

Lemma NRelease_path id (P : service → Prop) :
  (∀ w s, substrate w ⊆ substrate (host s) → P s → P (set_host w s)) →
  path (moves id) P (try (NRelease id)) (λ a s, P s ∧ (a = Ok tt → id ∉ leased (host s))).
Proof.
  intros HP s Hs. unfold try, bind, do_call. pose proof (call_moves id (NRelease id) s ltac:(done)) as Hm.
  pose proof (leased_law _ (NRelease id) (host s)) as Hl. pose proof (substrate_law _ (NRelease id) (host s)) as Hsub.
  destruct (perform (NRelease id) (host s)) as [w [[]|e]]; simpl in *; (split; [done|]); (split; [by apply HP|]); [|done].
  intros _. set_solver.
Qed.

Lemma path_attempt {X} (R : service → service → Prop) P (m : sop X) Q : path R P m Q → path R P (attempt m) (λ a s, ∃ x, a = Ok x ∧ Q x s).
Proof. intros H s Hs. specialize (H s Hs). unfold attempt. destruct (m s) as [[t s'] a]. destruct H. eauto. Qed.

(** One holding after the other: the first refusal is answered with what is left. *)
Lemma free_go_path id what (m : sop unit) rest (P M : service → Prop) :
  path (moves id) P m (λ a s, a = Ok tt → M s) →
  path (moves id) M (free_go rest) (λ a s, a = Ok tt → freed id s) →
  path (moves id) P (free_go ((what, m) :: rest)) (λ a s, a = Ok tt → freed id s).
Proof.
  intros Hm Hr. cbn [free_go]. eapply path_bind with (M := λ a s, a = Ok tt → M s).
  - eapply path_post; [by apply path_attempt|]. intros a s (x & -> & H). exact H.
  - intros [[]|e]; [|by apply path_fail]. eapply path_pre; [exact Hr|]. auto.
Qed.

Lemma free_path id A : path (moves id) (at_ id A) (free id) (λ a s, a = Ok tt → freed id s).
Proof.
  unfold free, holdings. apply (free_go_path _ _ _ _ _ (at_ id A)); [eapply path_post; [apply closePorts_same|done]|].
  apply (free_go_path _ _ _ _ _ (λ s, id ∉ substrate (host s))).
  { eapply path_post; [apply PRemove_path|]. intros a s [? ?] ?. auto. }
  apply (free_go_path _ _ _ _ _ (unheld id)).
  { eapply path_post; [apply (NRelease_path id (λ s, id ∉ substrate (host s)))|].
    - intros w s Hw. cbn [host set_host]. set_solver.
    - intros a s [H1 H2] E. specialize (H2 E). unfold unheld. set_solver. }
  apply (free_go_path _ _ _ _ _ (freed id)).
  { eapply path_post; [apply deleteRecord_path|]. intros a s [? ?] ?. split; auto. }
  apply (free_go_path _ _ _ _ _ (freed id)); [|by apply path_ret].
  unfold try. eapply path_bind with (M := λ _, freed id); [|intros [[]|e]; [by apply path_ret|by apply path_fail]].
  intros s [Hu Hr]. pose proof (do_call_unheld id NReapplyAll eq_refl s Hu) as H. unfold do_call in *.
  destruct (perform NReapplyAll (host s)) as [w a]. simpl in *. destruct H as [? ?]. split; [done|]. by split.
Qed.

(** ** Moves the machine does not list

    [shifts X id] is [moves id], but the record of [id] may also make one of the moves of [X]: what a removal by force
    and the start of a daemon do to a record is not all in [legalTransitions]. *)

Definition off_moves (X : list (State * State)) (a b : option State) : Prop :=
  life_move a b ∨ ∃ s t, a = Some s ∧ b = Some t ∧ (s, t) ∈ X.

Record shifts (X : list (State * State)) (id : string) (s s' : service) : Prop := {
  sh_others : others_same id (repo_of s) (repo_of s');
  sh_life : off_moves X (state_of (repo_of s) id) (state_of (repo_of s') id);
  sh_formed : well_formed (repo_of s) → well_formed (repo_of s');
  sh_orphans : no_orphans s → no_orphans s'
}.

Lemma moves_shifts X id s s' : moves id s s' → shifts X id s s'.
Proof. intros [[]]. split; [done|by left|done|done]. Qed.

Definition drifts {Y} (X : list (State * State)) (id : string) (A : list State) (m : sop Y) : Prop :=
  path (shifts X id) (at_ id A) m (λ _ s, at_ id A s).

Lemma keeps_drifts {Y} X id A (m : sop Y) : keeps id A m A → drifts X id A m.
Proof. apply path_mono, moves_shifts. Qed.

Lemma drifts_bind_val {Y Z} X id A (m : sop Y) (k : Y → sop Z) (F : Y → Prop) :
  drifts X id A m → ends (at_ id A) m (on_ok (λ y _, F y)) → (∀ y, F y → drifts X id A (k y)) → drifts X id A (bind m k).
Proof.
  intros Hm HF Hk. eapply path_bind with (M := λ y s, F y ∧ at_ id A s).
  - intros s Hs. specialize (Hm s Hs). specialize (HF s Hs). destruct (m s) as [[t s'] a]. destruct Hm as [Ht Ha]. split; [done|].
    destruct a as [y|]; [|done]. split; [by apply (HF y)|done].
  - intros y s [HFy Hs]. by apply (Hk y HFy).
Qed.

Lemma drifts_bind {Y Z} X id A (m : sop Y) (k : Y → sop Z) :
  drifts X id A m → (∀ y, drifts X id A (k y)) → drifts X id A (bind m k).
Proof. intros Hm Hk. apply (drifts_bind_val X id A m k (λ _, True)); [done|by intros s _ y|auto]. Qed.

Lemma drifts_attempt {Y} X id A (m : sop Y) : drifts X id A m → drifts X id A (attempt m).
Proof. intros H s Hs. specialize (H s Hs). unfold attempt. destruct (m s) as [[t s'] a]. exact H. Qed.

(** [A] may be written over with [t]. *)
Definition may (X : list (State * State)) (A : list State) (t : State) : Prop :=
  t ∈ A ∧ ∀ s, s ∈ A → s = t ∨ CanTransitionTo s t = true ∨ (s, t) ∈ X.

Lemma landed_shifts X A sb sb' s :
  may X A (SState sb') → ValidID (ID sb') = Ok tt → State_Valid (SState sb') = true →
  record (repo_of s) (ID sb') = Some sb → SState sb ∈ A → shifts X (ID sb') s (set_repo (landed sb' (repo_of s)) s).
Proof.
  intros [_ Hm] Hv Hs Hr Ha. split; [apply landed_others| |by apply landed_formed|].
  - unfold set_repo. cbn [repo_of]. rewrite landed_state by done. unfold state_of. rewrite Hr. cbn.
    destruct (Hm _ Ha) as [->|[H|H]]; [left; constructor|left; by constructor|right; eauto].
  - intros Hn i Hvi Hi. apply landed_keeps. by apply Hn.
Qed.

Lemma drifts_mutate X id f A t : (∀ sb, SState (f sb) = t) → may X A t → drifts X id A (mutate id f).
Proof.
  intros Hf Hm. apply drifts_bind; [by apply keeps_drifts, keeps_call|]. intros w s (sb & Hr & Hs). unfold on_repo.
  destruct (Update_run w id (λ sb, Some (f sb)) (repo_of s)) as [[e ->]|(sb0 & sb' & Hv & Hr' & [= <-] & <- & Hvs & Hrun)].
  { split; [by destruct s|]. by exists sb. }
  rewrite Hr in Hr'. injection Hr' as <-. destruct Hrun as [[e ->]| ->]; cbn [map_err].
  - split; [|by exists sb]. split; [|done]. apply moves_shifts, set_repo_moves; [apply bump_moves|done].
  - assert (Hat : at_ (ID (f sb)) A (set_repo (landed (f sb) (repo_of s)) s)).
    { exists (json_sandbox (f sb)). unfold set_repo. cbn [repo_of]. rewrite record_landed, decide_True by done. split; [done|].
      cbn [SState json_sandbox]. rewrite json_state_valid, Hf by done. apply Hm. }
    split; [|exact Hat]. split; [|split; [|done]].
    + apply (landed_shifts X A sb); [by rewrite Hf|done..].
    + apply moves_shifts. apply (set_repo_moves _ _ (set_repo (landed (f sb) (repo_of s)) s)); [apply bump_moves|done].
Qed.

Definition any_shifts (X : list (State * State)) (s s' : service) : Prop := ∃ id, shifts X id s s'.

Lemma any_moves_shifts X s s' : any_moves s s' → any_shifts X s s'.
Proof. intros [id H]. exists id. by apply moves_shifts. Qed.

Lemma any_shifts_good X s s' : any_shifts X s s' → good s → good s'.
Proof. intros [id []] []. split; auto. Qed.

(** [serves], with the moves of [X] too. *)
Definition serves_off {Y} (X : list (State * State)) (m : sop Y) : Prop := path (any_shifts X) good m (λ _, good).

Lemma path_off {Y} X (m : sop Y) (P : service → Prop) Q :
  path (any_shifts X) (λ s, good s ∧ P s) m Q → path (any_shifts X) (λ s, good s ∧ P s) m (λ a s, good s ∧ Q a s).
Proof.
  intros H s Hs. specialize (H s Hs). destruct (m s) as [[t s'] a]. destruct H as [Ht HQ]. split; [done|]. split; [|done].
  by apply (chain_keeps (any_shifts X) good s t s' (any_shifts_good X) Ht), Hs.
Qed.

Lemma serves_serves_off {Y} X (m : sop Y) : serves m → serves_off X m.
Proof.
  intros H. eapply path_post; [|intros a s Hs; exact Hs].
  eapply path_mono; [apply (any_moves_shifts X)|by apply serves_good].
Qed.

Lemma serves_off_bind {Y Z} X (m : sop Y) (k : Y → sop Z) :
  serves_off X m → (∀ y, serves_off X (k y)) → serves_off X (bind m k).
Proof. intros Hm Hk. eapply path_bind with (M := λ _, good); [|exact Hk]. eapply path_post; [exact Hm|]. by intros []. Qed.

(** ** The whole verb *)

Lemma endIfAlive_kept id sb A : keeps id A (endIfAlive id sb false) A.
Proof. unfold endIfAlive, refuseOrStop. cbn [andb negb]. ksteps. Qed.

Lemma reclaim_same id e A : keeps id A (reclaim id e) A.
Proof. unfold reclaim. ksteps. Qed.

Lemma dropSubstrateRoot_serves : serves dropSubstrateRoot.
Proof.
  unfold dropSubstrateRoot. apply serves_bind; [apply serves_ask|]. intros [[|? ?] [|? ?]]; try apply serves_ret. by apply serves_try.
Qed.

Lemma bind_assoc {S E A B C} (m : op S E A) (k : A → op S E B) (k' : B → op S E C) s :
  bind (bind m k) k' s = bind m (λ x, bind (k x) k') s.
Proof.
  unfold bind. destruct (m s) as [[t1 s1] [x|e]]; [|done]. destruct (k x s1) as [[t2 s2] [y|e]]; [|done].
  destruct (k' y s2) as [[t3 s3] a]. by rewrite (assoc_L (++)).
Qed.

(** From a record with nothing up behind it, to the end. *)
Lemma Remove_rest_path id A :
  path any_moves (λ s, good s ∧ at_ id A s) (drop_execs id ;;; free id ;;; dropSubstrateRoot) (λ _ _, True).
Proof.
  assert (H : path (moves id) (at_ id A) (drop_execs id ;;; free id) (λ _ _, True)).
  { eapply path_bind with (M := λ _, at_ id A); [eapply path_post; [apply drop_execs_same|by intros []]|intros _].
    eapply path_post; [apply free_path|done]. }
  intros s Hs. rewrite <- bind_assoc. revert s Hs.
  change (path any_moves (λ s, good s ∧ at_ id A s) ((drop_execs id ;;; free id) ;;; dropSubstrateRoot) (λ _ _, True)).
  eapply path_bind with (M := λ _, good); [|intros _; apply dropSubstrateRoot_serves].
  intros s [Hg Hat]. specialize (H s Hat). destruct (bind _ _ s) as [[t s'] a]. destruct H as [Hc _].
  apply chain_any in Hc. split; [done|]. destruct a; [|done].
  by apply (chain_keeps any_moves good s t s' any_moves_good Hc).
Qed.

Lemma serves_get_good {Y} id (k : Sandbox → sop Y) :
  (∀ sb, SState sb ∈ all_states → ID sb = id → path any_moves (λ s, good s ∧ at_ id [SState sb] s) (k sb) (λ _ _, True)) →
  serves (bind (getRecord id) k).
Proof.
  intros Hk s Hg. unfold bind, getRecord, ask. destruct (Get (repo_of s) id) as [sb|e] eqn:E; simpl; [|done].
  apply Get_record in E as [Hv E]. destruct (proj1 Hg id sb Hv E) as [Hid Hval].
  specialize (Hk sb (valid_all _ Hval) Hid s (conj Hg (ex_intro _ sb (conj E (proj2 (list_elem_of_singleton _ _) eq_refl))))).
  destruct (k sb s) as [[t s'] b]. done.
Qed.

Lemma Remove_locked_serves id : serves (Remove_locked id false).
Proof.
  apply serves_get_good. intros sb _ _. eapply path_bind with (M := λ _ s, good s ∧ at_ id [SState sb] s); [|intros _; apply Remove_rest_path].
  intros s [Hg Hat]. pose proof (endIfAlive_kept id sb [SState sb] s Hat) as H. destruct (endIfAlive id sb false s) as [[t s'] a].
  destruct H as [Hc Hat']. apply chain_any in Hc. split; [done|]. destruct a; [|done]. split; [|done].
  by apply (chain_keeps any_moves good s t s' any_moves_good Hc).
Qed.

(** *** By force

    A removal by force stops a sandbox that is up whatever its record says, and the stop writes stopped over it. *)

Definition forced_moves : list (State * State) := [(StatePending, StateStopped); (StateFailed, StateStopped)].

Lemma may_force : may forced_moves all_states StateStopped.
Proof.
  split; [set_solver|]. intros s Hs. unfold all_states, forced_moves in *. repeat setoid_rewrite elem_of_cons in Hs.
  destruct Hs as [->|[->|[->|[->|[->|[->|[->|H]]]]]]]; [..|by apply elem_of_nil in H];
    first [by left|by right; left|right; right; set_solver].
Qed.

Lemma stop_forced id : drifts forced_moves id all_states (stop id true).
Proof.
  assert (Hk : ∀ Y (m : sop Y), keeps id all_states m all_states → drifts forced_moves id all_states m) by (intros; by apply keeps_drifts).
  unfold stop. apply drifts_bind; [apply Hk, getRecord_same|intros sb].
  apply drifts_bind; [apply Hk, closePorts_same|intros _]. apply drifts_bind_val with (F := λ o, o = GoOn); [apply Hk, keeps_ret| |intros ? ->].
  { by intros s _ o [= <-]. }
  apply drifts_bind; [apply Hk; ksteps|intros _]. apply drifts_bind; [apply Hk, awaitStopped_same|intros st].
  apply drifts_bind; [apply Hk, drop_execs_same|intros _]. apply drifts_bind; [apply Hk, table_same|intros after].
  apply drifts_bind; [|intros _; apply Hk, dropCheckpoint_same]. eapply drifts_mutate; [|apply may_force].
  intros x. unfold stoppedBy. by destruct x; simpl; repeat case_match.
Qed.

Lemma endIfAlive_forced id sb : drifts forced_moves id all_states (endIfAlive id sb true).
Proof.
  assert (Hs : ∀ state, drifts forced_moves id all_states (refuseOrStop id state true)) by (intros; apply stop_forced).
  assert (Hk : ∀ Y (m : sop Y), keeps id all_states m all_states → drifts forced_moves id all_states m) by (intros; by apply keeps_drifts).
  unfold endIfAlive. case_bool_decide; [apply Hs|]. apply drifts_bind; [apply Hk, keeps_attempt, status_same|].
  intros [st|e]; [destruct (negb _); [apply Hk, keeps_ret|apply Hs]|]. destruct (_ && _); [|apply Hk, keeps_fail].
  apply drifts_bind; [apply Hk, reclaim_same|intros _; apply stop_forced].
Qed.

Lemma Remove_locked_forced id : serves_off forced_moves (Remove_locked id true).
Proof.
  intros s Hg. unfold Remove_locked, bind at 1, getRecord, ask. destruct (Get (repo_of s) id) as [sb|e] eqn:E; simpl; [|done].
  apply Get_record in E as [Hv E]. destruct (proj1 Hg id sb Hv E) as [Hid Hval].
  assert (H : path (any_shifts forced_moves) (λ s, good s ∧ at_ id all_states s)
    (endIfAlive id sb true ;;; drop_execs id ;;; free id ;;; dropSubstrateRoot) (λ _ _, True)).
  { apply (path_bind _ _ _ _ (λ _ s, good s ∧ at_ id all_states s)).
    - eapply path_post; [apply (path_off _ _ _ (λ _, at_ id all_states))|by intros []]. eapply path_pre; [|intros s' [_ Hat]; exact Hat].
      eapply path_mono; [|apply endIfAlive_forced]. intros a b ?. by exists id.
    - intros _. eapply path_mono; [apply any_moves_shifts|].
      apply (Remove_rest_path id all_states). }
  specialize (H s (conj Hg (ex_intro _ sb (conj E (valid_all _ Hval))))). destruct (bind _ _ s) as [[t s'] a].
  destruct H as [H _]. split; [exact H|]. by apply (chain_keeps (any_shifts forced_moves) good s t s' (any_shifts_good _) H).
Qed.

End Removal.
