(* ===== verification/Service.v ===== *)
(** * The service keeps the machine

    Every verb and loop of the sandbox service, from the record it reads to its last change. *)

From S2P Require Import Prelude Ops Paths GoStrings Netip Models SandboxFields Restart Store Secret SandboxID Repository ExecTable Host Moves.
From S2P Require Import Lifecycle Reconcile Processes Checkpoint Ports Creation Grants Verbs Removal.
Local Open Scope Z_scope.
Local Open Scope op_scope.

Create HintDb serves.
#[export] Hint Resolve serves_ret serves_fail serves_ask serves_of_result serves_check serves_attempt serves_joined serves_call serves_try
  serves_locked serves_tryLocked serves_touch_table : serves.

Ltac sstep :=
  lazymatch goal with
  | |- serves (bind _ _) => apply serves_bind; [solve [eauto 4 with serves]|intros ?]
  | |- serves (match ?x with _ => _ end) => destruct x eqn:?
  | |- serves _ => solve [eauto 4 with serves]
  end.
Ltac ssteps := repeat sstep.

Section Same.
Context `{Hst : Host} {Hld : Holdings}.

(** ** Verbs that leave every state alone *)

Lemma serves_update_same id f : (∀ sb sb', f sb = Some sb' → SState sb' = SState sb) → serves (update id f).
Proof.
  intros Hf s Hg. destruct (record (repo_of s) id) as [sb|] eqn:E.
  - pose proof (keeps_update_same id f [SState sb] Hf s (ex_intro _ sb (conj E (proj2 (list_elem_of_singleton _ _) eq_refl)))) as H.
    destruct (update id f s) as [[t s'] a]. destruct H as [H _]. split; [by eapply chain_any|done].
  - unfold update, bind. pose proof (serves_call RWrite eq_refl s Hg) as H. unfold do_call in *.
    destruct (perform RWrite (host s)) as [w a]. unfold on_repo. cbn [repo_of set_host].
    destruct (Update_run a id f (repo_of s)) as [[e ->]|(? & ? & ? & ? & ?)]; [|congruence]. simpl in *.
    destruct H as [[H _] _]. by split.
Qed.

Lemma serves_mutate_same id f : (∀ sb, SState (f sb) = SState sb) → serves (mutate id f).
Proof. intros Hf. apply serves_update_same. intros sb sb' [= <-]. apply Hf. Qed.

Lemma serves_getRecord id : serves (getRecord id).
Proof. apply serves_ask. Qed.
Lemma serves_resolve ref : serves (resolve ref).
Proof. apply serves_ask. Qed.
Lemma serves_read {X} (f : W → X) : serves (read_host f).
Proof. apply serves_ask. Qed.
Lemma serves_record id : serves (record_ id).
Proof. apply serves_ask. Qed.
Lemma serves_CheckpointDir id : serves (CheckpointDir id).
Proof. apply serves_ask. Qed.
Lemma serves_Dir id : serves (Dir id).
Proof. apply serves_ask. Qed.

End Same.

#[export] Hint Resolve serves_getRecord serves_resolve serves_read serves_record serves_CheckpointDir serves_Dir : serves.
#[export] Hint Extern 2 (serves (mutate _ _)) => (apply serves_mutate_same; by_fields) : serves.

Section Pieces.
Context `{Hst : Host} {Hld : Holdings}.

Lemma serves_probe id : serves (probe id).
Proof. unfold probe. ssteps. Qed.
Lemma serves_status id verb : serves (status id verb).
Proof. unfold status. ssteps. Qed.
Lemma serves_closePorts id : serves (closePorts id).
Proof. unfold closePorts. ssteps. Qed.
Lemma serves_openPorts id : serves (openPorts id).
Proof. unfold openPorts. ssteps. Qed.
Lemma serves_table id : serves (table_ id).
Proof. unfold table_. ssteps. Qed.
Lemma serves_drop_execs id : serves (drop_execs id).
Proof. unfold drop_execs. ssteps. Qed.
Lemma serves_hasCheckpoint dir : serves (hasCheckpoint dir).
Proof. unfold hasCheckpoint. ssteps. Qed.
Lemma serves_requireVerb verb : serves (requireVerb verb).
Proof. unfold requireVerb. ssteps. Qed.

End Pieces.

#[export] Hint Resolve serves_probe serves_status serves_closePorts serves_openPorts serves_table serves_drop_execs serves_hasCheckpoint
  serves_requireVerb : serves.

Section Quiet.
Context `{Hst : Host} {Hld : Holdings}.

Lemma serves_markedCheckpoint sb : serves (markedCheckpoint sb).
Proof. unfold markedCheckpoint. ssteps. Qed.

Lemma serves_after_refusal {X} e (m : sop unit) ans : serves m → serves (after_refusal e m ans : sop X).
Proof. intros H. unfold after_refusal. apply serves_bind; [by apply serves_attempt|]. intros [?|?]; ssteps. Qed.

Lemma unstarted_serves id before p e : serves (unstarted id before p e).
Proof. unfold unstarted. destruct e; apply serves_after_refusal; ssteps. Qed.

Lemma startProcess_serves id before procs p : serves (startProcess id before procs p).
Proof. unfold startProcess. do 4 sstep. sstep; [ssteps|apply unstarted_serves]. Qed.

Lemma launch_go_serves id by_ skip sb procs failures : serves (launch_go id by_ skip sb procs failures).
Proof.
  revert failures. induction procs as [|p procs IH]; intros failures; cbn [launch_go]; [ssteps|].
  destruct (_ || _); [apply IH|]. sstep. destruct x as [rec|e]; [|ssteps].
  apply serves_bind; [apply serves_attempt, startProcess_serves|]. intros a. apply IH.
Qed.

Lemma launch_serves id by_ skip : serves (launch id by_ skip).
Proof. unfold launch. sstep. apply launch_go_serves. Qed.

Lemma recordKill_serves id name reports reaped : serves (recordKill id name reports reaped).
Proof.
  unfold recordKill. sstep. apply serves_bind; [|intros _; ssteps]. apply serves_update_same. intros sb sb'.
  destruct (killed name reports reaped sb) as [[p sb1]|] eqn:E; [|done]. intros [= <-]. simpl. unfold killed in E.
  destruct (index_func _ _); [|discriminate E]. destruct (merged _ _ !! _); [|discriminate E]. injection E as <- <-. by destruct sb.
Qed.

Lemma writeProcesses_serves id sb : serves (writeProcesses id sb).
Proof.
  unfold writeProcesses, recordExitChannel. sstep; [ssteps|]. sstep. apply serves_bind; [ssteps|intros _]. ssteps.
Qed.

Lemma recordProcesses_serves id : serves (recordProcesses id).
Proof. apply serves_tryLocked. sstep. apply writeProcesses_serves. Qed.
Lemma recordProcessesNow_serves id : serves (recordProcessesNow id).
Proof. apply serves_locked. sstep. apply writeProcesses_serves. Qed.

(** *** Ports *)

Lemma refusedPort_serves {X} id was port e : serves (refusedPort id was port e : sop X).
Proof. unfold refusedPort, writePorts. sstep. apply serves_bind; [ssteps|intros ?]. sstep. destruct x1, x0; ssteps. Qed.

Lemma AddPort_locked_serves id spec : serves (AddPort_locked id spec).
Proof.
  unfold AddPort_locked, heldForPorts, portUnclaimed, writePorts. apply serves_bind; [ssteps|intros sb]. do 2 sstep.
  apply serves_bind; [|intros _; ssteps]. sstep; [|ssteps]. sstep. sstep; [ssteps|apply refusedPort_serves].
Qed.

Lemma RemovePort_locked_serves id port : serves (RemovePort_locked id port).
Proof. unfold RemovePort_locked, heldForPorts, writePorts. apply serves_bind; [ssteps|intros sb]. cbn zeta. ssteps. Qed.

Lemma syncPorts_serves id : serves (syncPorts id).
Proof. apply serves_tryLocked. unfold sync_locked. ssteps. Qed.

(** *** Policies and secrets *)

Lemma heldForRewrite_serves id : serves (heldForRewrite id).
Proof. unfold heldForRewrite. ssteps. Qed.

Lemma movePolicy_serves id was want : serves (movePolicy id was want).
Proof. unfold movePolicy, writePolicy. ssteps. Qed.

Lemma proxyCA_serves : serves proxyCA.
Proof. unfold proxyCA. ssteps. Qed.

Lemma plant_serves id ca : serves (plant id ca).
Proof. unfold plant. ssteps. Qed.

Lemma getPolicy_serves name : serves (getPolicy name).
Proof. unfold getPolicy. ssteps. Qed.

Lemma AttachPolicy_locked_serves id name : serves (AttachPolicy_locked id name).
Proof.
  unfold AttachPolicy_locked, trustProxy. apply serves_bind; [apply heldForRewrite_serves|intros sb]. sstep; [ssteps|].
  apply serves_bind; [apply getPolicy_serves|intros _]. apply serves_bind; [|intros _; apply movePolicy_serves].
  sstep; [ssteps|]. apply serves_bind; [apply proxyCA_serves|intros ca]. sstep. apply plant_serves.
Qed.

Lemma DetachPolicy_locked_serves id : serves (DetachPolicy_locked id).
Proof.
  unfold DetachPolicy_locked. apply serves_bind; [apply heldForRewrite_serves|intros sb]. sstep; [ssteps|apply movePolicy_serves].
Qed.

Lemma granted_state name sb : SState (granted name sb) = SState sb.
Proof. unfold granted. case_match; [done|]. by destruct sb. Qed.

Lemma GrantSecret_locked_serves id name : serves (GrantSecret_locked id name).
Proof.
  unfold GrantSecret_locked. apply serves_bind; [apply heldForRewrite_serves|intros sb]. sstep; [ssteps|].
  do 2 sstep. apply serves_bind; [apply proxyCA_serves|intros ca]. do 4 sstep. apply serves_bind; [apply plant_serves|intros _].
  sstep. apply serves_bind; [apply serves_mutate_same, granted_state|intros _]. ssteps.
Qed.

Lemma UngrantSecret_locked_serves id name : serves (UngrantSecret_locked id name).
Proof.
  unfold UngrantSecret_locked. apply serves_bind; [apply heldForRewrite_serves|intros sb]. ssteps.
Qed.

End Quiet.

(** ** Starts *)

Section Starts.
Context `{Hst : Host} {Hld : Holdings}.

(** A state-preserving tail after a move: whatever it serves, one sandbox's record keeps its place. *)
Lemma works_then_serves {X Y} id A (m : sop X) B (k : X → sop Y) :
  keeps id A m B → (∀ x, serves (k x)) → path any_moves (λ s, good s ∧ at_ id A s) (bind m k) (λ _ _, True).
Proof.
  intros Hm Hk. eapply path_bind with (M := λ _, good); [|exact Hk].
  intros s [Hg Hat]. specialize (Hm s Hat). destruct (m s) as [[t s'] a]. destruct Hm as [Hc _].
  apply chain_any in Hc. split; [done|]. destruct a; [|done].
  by apply (chain_keeps any_moves good s t s' any_moves_good Hc).
Qed.

Lemma can_singleton s t : s = t ∨ CanTransitionTo s t = true → can [s] t.
Proof. intros. by apply Forall_singleton. Qed.

Lemma serves_anyway {X} (P : service → Prop) (m : sop X) : serves m → path any_moves (λ s, good s ∧ P s) m (λ _ _, True).
Proof. intros H. eapply path_pre; [exact H|]. by intros s [? _]. Qed.

(** A guard in front of the rest, inside a verb that holds a record. *)
Lemma guarded {Y} id A sb (k : unit → sop Y) :
  (SState sb ≠ StateFailed → path any_moves (λ s, good s ∧ at_ id A s) (k tt) (λ _ _, True)) →
  path any_moves (λ s, good s ∧ at_ id A s) (bind (ask (λ _, FailedGuard sb)) k) (λ _ _, True).
Proof.
  intros Hk. unfold FailedGuard. case_bool_decide as E; [intros s Hs; by split|].
  eapply path_bind with (M := λ _ s, good s ∧ at_ id A s); [by apply path_ask|]. intros []. by apply Hk.
Qed.

Lemma checked {Y} id A e b (k : unit → sop Y) :
  (b = true → path any_moves (λ s, good s ∧ at_ id A s) (k tt) (λ _ _, True)) →
  path any_moves (λ s, good s ∧ at_ id A s) (bind (check e b) k) (λ _ _, True).
Proof.
  intros Hk. destruct b; [|intros s Hs; by split].
  eapply path_bind with (M := λ _ s, good s ∧ at_ id A s); [by apply path_ret|]. intros []. by apply Hk.
Qed.

Lemma start_serves {Y} id (k : result service_error unit → sop Y) :
  (∀ x, serves (k x)) → path any_moves (λ s, good s ∧ at_ id [StateStopped] s) (bind (attempt (start id)) k) (λ _ _, True).
Proof. intros Hk. eapply works_then_serves; [|done]. apply keeps_attempt, start_to, can_singleton. by right. Qed.

Lemma Start_locked_serves id : serves (Start_locked id).
Proof.
  apply serves_get_good. intros sb _ _. apply guarded. intros _. apply checked. intros E%bool_decide_eq_true. rewrite E.
  apply start_serves. intros a. do 3 sstep. apply serves_bind; [apply serves_attempt, launch_serves|]. intros _. ssteps.
Qed.

Lemma autostart_locked_serves id : serves (autostart_locked id).
Proof.
  apply serves_get_good. intros sb _ _. destruct (negb (Owed sb)); [by apply path_ret|]. case_bool_decide as E.
  - rewrite E. apply start_serves. intros a. sstep. apply launch_serves.
  - apply serves_anyway. sstep. sstep; [ssteps|apply launch_serves].
Qed.

Lemma retryOOMStart_serves id due now e : serves (retryOOMStart id due now e).
Proof. unfold retryOOMStart. apply serves_joined, serves_mutate_same. by_fields. Qed.

(** A verb that reads the record and looks at why it could not. *)
Lemma serves_get_attempt {Y} id (k : result service_error Sandbox → sop Y) :
  (∀ e, serves (k (Err e))) →
  (∀ sb, SState sb ∈ all_states → ID sb = id → path any_moves (λ s, good s ∧ at_ id [SState sb] s) (k (Ok sb)) (λ _ _, True)) →
  serves (bind (attempt (getRecord id)) k).
Proof.
  intros He Hk s Hg. unfold bind, attempt, getRecord, ask. destruct (Get (repo_of s) id) as [sb|e] eqn:E; cbn [map_err].
  - apply Get_record in E as [Hv E]. destruct (proj1 Hg id sb Hv E) as [Hid Hval].
    specialize (Hk sb (valid_all _ Hval) Hid s (conj Hg (ex_intro _ sb (conj E (proj2 (list_elem_of_singleton _ _) eq_refl))))).
    destruct (k (Ok sb) s) as [[t s'] b]. exact Hk.
  - specialize (He (ERepo e) s Hg). destruct (k (Err (ERepo e)) s) as [[t s'] b]. exact He.
Qed.

Lemma start_again_locked_serves seen now : serves (start_again_locked seen now).
Proof.
  unfold start_again_locked. cbn zeta. apply serves_get_attempt; [intros e; ssteps|]. intros sb _ _.
  destruct (negb _ || _ || _) eqn:Hc; [by apply path_ret|]. breflect.
  match goal with H : SState sb = StateStopped |- _ => rewrite H end. apply start_serves.
  intros [x|e]; [|apply retryOOMStart_serves]. apply serves_bind; [apply serves_attempt, launch_serves|]. intros _. ssteps.
Qed.

End Starts.

(** ** Pause and resume *)

Section Checkpoints.
Context `{Hst : Host} {Hld : Holdings}.

Definition live : list State := [StateRunning; StateUnresponsive].
Definition live_or_ended : list State := [StateRunning; StateUnresponsive; StatePaused; StateStopped].

Ltac can_tac := repeat (apply Forall_cons; split; [first [by left|by right]|]); constructor.

Lemma hasCheckpoint_same id dir A : keeps id A (hasCheckpoint dir) A.
Proof. unfold hasCheckpoint. ksteps. Qed.

Lemma markedCheckpoint_same id sb A : keeps id A (markedCheckpoint sb) A.
Proof.
  unfold markedCheckpoint. kstep; [ksteps|]. kstep. eapply (keeps_bind _ A _ _ A); [apply hasCheckpoint_same|done|intros]. ksteps.
Qed.

Lemma cutPause_same id sb st A : keeps id A (cutPause sb st) A.
Proof.
  unfold cutPause. eapply (keeps_bind _ A _ _ A); [apply markedCheckpoint_same|done|intros dir]. ksteps.
Qed.

Lemma recordPaused_to id dir A : can A StatePaused → keeps id A (recordPaused id dir) (A ++ [StatePaused]).
Proof. apply mutate_to. by_fields. Qed.

Lemma dropMark_same id A : keeps id A (dropMark id) A.
Proof. unfold dropMark. ksteps. Qed.

Lemma recordUnresponsive_to id sb reason A :
  can A StateUnresponsive → keeps id A (recordUnresponsive id sb reason) (A ++ [StateUnresponsive]).
Proof. intros Hc. unfold recordUnresponsive. kstep; [ksteps|]. apply mutate_to; [by_fields|done]. Qed.

Lemma settleLivePause_to id st : keeps id [StateRunning] (settleLivePause id st) live_or_ended.
Proof.
  unfold settleLivePause. kstep. eapply (keeps_bind _ [StateRunning] _ _ [StateRunning]); [apply cutPause_same|sub|intros dir]. kstep.
  - kuse [StateRunning; StatePaused] recordPaused_to; [can_tac|ksteps].
  - eapply (keeps_bind _ [StateRunning] _ _ [StateRunning]); [apply markedCheckpoint_same|sub|intros held].
    kstep; [ksteps|]. eapply keeps_mono; [apply dropMark_same|done|sub].
Qed.

Lemma reconcileGone_to id dir : keeps id [StateRunning] (reconcileGone id dir) live_or_ended.
Proof.
  unfold reconcileGone. kstep. kstep; [apply settleLivePause_to|].
  eapply (keeps_bind _ [StateRunning] _ _ [StateRunning]); [apply hasCheckpoint_same|sub|intros held]. kstep.
  - kuse [StateRunning; StatePaused] recordPaused_to; [can_tac|ksteps].
  - eapply (keeps_bind _ _ _ _ [StateRunning; StateStopped]); [apply (mutate_to id gone [StateRunning] StateStopped); [by_fields|can_tac]|sub|intros _].
    ksteps.
Qed.

Lemma fail_to {X} id A cause : can A StateFailed → keeps id A (fail_ id cause : sop X) (A ++ [StateFailed]).
Proof. intros Hc. unfold fail_. apply keeps_joined, mutate_to; [apply failed_state|done]. Qed.

Lemma Pause_locked_serves id : serves (Pause_locked id).
Proof.
  apply serves_get. intros sb Hin Hid. exists all_states. apply keeps_guard; [set_solver|]. intros _.
  apply keeps_check_bind; [set_solver|]. intros E%bool_decide_eq_true. rewrite E. do 5 kstep. destruct x3 as [x3|e].
  - kuse [StateRunning; StatePaused] recordPaused_to; [can_tac|]. eapply keeps_mono; [apply getRecord_same|done|sub].
  - assert (Hother : keeps id [StateRunning] (g <~ attempt (reconcileGone id x0) ;; match g with
        | Err e2 => fail (EJoin (ECall e) e2) | Ok _ => fail (diskRefused (ECall e)) end : sop Sandbox) all_states).
    { eapply (keeps_bind _ _ _ _ live_or_ended); [apply keeps_attempt, reconcileGone_to|sub|]. intros [?|?]; ksteps. }
    destruct e; try exact Hother.
    + kuse [StateRunning; StateUnresponsive] recordUnresponsive_to; [can_tac|ksteps].
    + eapply keeps_mono; [apply (fail_to id [StateRunning])|done|sub]. can_tac.
Qed.

Lemma Resume_locked_serves id : serves (Resume_locked id).
Proof.
  apply serves_get. intros sb Hin Hid. exists all_states. apply keeps_guard; [set_solver|]. intros _.
  apply keeps_check_bind; [set_solver|]. intros E%bool_decide_eq_true. rewrite E. do 3 kstep. destruct x1 as [x1|e].
  - kstep. destruct x2 as [x2|e].
    + kuse [StatePaused; StateRunning] RecordRunning_to; [can_tac|]. kstep. eapply keeps_mono; [apply getRecord_same|done|sub].
    + apply keeps_joined. eapply keeps_mono; [apply (Reconcile_to id true [StatePaused])|done|sub]. can_tac.
  - eapply (keeps_bind _ _ _ _ [StatePaused; StateRunning]); [apply keeps_attempt, (Reconcile_to id true [StatePaused]); can_tac|sub|].
    intros g. ksteps.
Qed.

(** ** The liveness tick *)

Lemma recordAnswered_to id st A : can A StateRunning → keeps id A (recordAnswered id st) (A ++ [StateRunning]).
Proof. intros Hc. apply mutate_to; [|done]. intros sb. unfold answered. destruct sb; simpl. by repeat case_match. Qed.

Lemma recordDied_to id reason A : can A StateStopped → keeps id A (recordDied id reason) (A ++ [StateStopped]).
Proof.
  intros Hc. unfold recordDied. eapply (keeps_bind _ _ _ _ (A ++ [StateStopped])); [apply mutate_to; [by_fields|done]|done|intros _]. ksteps.
Qed.

Lemma recordSupervisorFailed_to id why A : can A StateStopped → keeps id A (recordSupervisorFailed id why) (A ++ [StateStopped]).
Proof. intros Hc. apply mutate_to; [by_fields|done]. Qed.

Lemma recordOOMKilled_to id sb now A : can A StateStopped → keeps id A (recordOOMKilled id sb now) (A ++ [StateStopped]).
Proof.
  intros Hc. unfold recordOOMKilled. eapply (keeps_bind _ _ _ _ (A ++ [StateStopped])); [apply mutate_to; [by_fields|done]|done|intros _]. ksteps.
Qed.

Lemma probeLive_same id A : keeps id A (probeLive id) A.
Proof. unfold probeLive. ksteps. Qed.

Lemma reconcile_run_to id current st now : keeps id live (reconcile_run id current st now) live_or_ended.
Proof.
  unfold reconcile_run. eapply (keeps_bind _ live _ _ live); [apply cutPause_same|sub|intros cut]. kstep.
  { eapply keeps_mono; [apply (recordPaused_to id cut live)|done|sub]. can_tac. }
  eapply (keeps_bind _ live _ _ live); [kstep; [apply dropMark_same|ksteps]|sub|intros _]. kstep; [ksteps|].
  assert (Hc : can live StateStopped) by can_tac. repeat kstep.
  - eapply keeps_mono; [by apply recordOOMKilled_to|done|sub].
  - eapply keeps_mono; [by apply recordSupervisorFailed_to|done|sub].
  - eapply keeps_mono; [by apply recordDied_to|done|sub].
Qed.

Lemma reconcile_locked_serves seen st now : serves (reconcile_locked seen st now).
Proof.
  apply serves_get. intros sb Hin Hid. exists (all_states). destruct (negb (same_run sb seen)) eqn:Hrun; [ksteps; sub|].
  apply negb_false_iff in Hrun. unfold same_run in Hrun. apply andb_true_iff in Hrun as [[Hl _]%andb_true_iff _].
  assert (Hlive : SState sb ∈ live) by (unfold Live in Hl; destruct (SState sb); try done; set_solver).
  eapply keeps_mono; [|intros x Hx; apply list_elem_of_singleton in Hx as ->; exact Hlive|done]. kstep.
  { eapply keeps_mono; [apply (recordUnresponsive_to _ sb (StReason st) live)|done|sub]. can_tac. }
  eapply (keeps_bind _ live _ _ live); [|sub|intros current].
  { kstep; [|ksteps]. eapply (keeps_bind _ _ _ _ live); [|done|intros; ksteps].
    eapply keeps_mono; [apply (recordAnswered_to _ st live)|done|sub]. can_tac. }
  eapply (keeps_bind _ live _ _ live); [kstep; [apply probeLive_same|ksteps]|sub|].
  intros [st'|]; [|ksteps]. eapply keeps_mono; [apply reconcile_run_to|done|sub].
Qed.

Lemma serves_probeLive id : serves (probeLive id).
Proof. unfold probeLive. ssteps. Qed.

Lemma reconcileLive_serves seen now : serves (reconcileLive seen now).
Proof.
  unfold reconcileLive. cbn zeta. sstep. sstep; [ssteps|]. apply serves_bind; [apply serves_probeLive|]. intros [st|]; [|ssteps].
  apply serves_tryLocked, reconcile_locked_serves.
Qed.

Lemma startAgainWhenDue_serves seen now : serves (startAgainWhenDue seen now).
Proof. unfold startAgainWhenDue. cbn zeta. sstep; [ssteps|]. apply serves_tryLocked, start_again_locked_serves. Qed.

Lemma liveness_one_serves seen now : serves (liveness_one seen now).
Proof. unfold liveness_one. sstep; [apply reconcileLive_serves|]. sstep; [apply startAgainWhenDue_serves|ssteps]. Qed.

Lemma noteUnresponsive_serves seen reason : serves (noteUnresponsive seen reason).
Proof.
  unfold noteUnresponsive. cbn zeta. apply serves_tryLocked, serves_get. intros sb Hin Hid. exists all_states.
  destruct (negb (same_run sb seen)) eqn:Hrun; [ksteps; sub|].
  apply negb_false_iff in Hrun. unfold same_run in Hrun. apply andb_true_iff in Hrun as [[Hl _]%andb_true_iff _].
  assert (Hlive : SState sb ∈ live) by (unfold Live in Hl; destruct (SState sb); try done; set_solver).
  eapply keeps_mono; [apply (recordUnresponsive_to _ sb reason live)|..]; [can_tac| |sub].
  intros x Hx. apply list_elem_of_singleton in Hx as ->. exact Hlive.
Qed.

(** ** Run and kill *)

Lemma readyForExec_serves ref : serves (readyForExec ref).
Proof.
  unfold readyForExec, resolveForExec. apply serves_bind; [ssteps|]. intros [id sb]. sstep; [ssteps|]. sstep; [ssteps|].
  sstep. destruct x as [st|e].
  - sstep; [apply serves_bind; [apply noteUnresponsive_serves|intros; ssteps]|]. sstep; [ssteps|].
    apply serves_bind; [|intros; ssteps]. unfold pausedMeanwhile. sstep. sstep; [ssteps|].
    apply serves_bind; [apply serves_markedCheckpoint|intros; ssteps].
  - unfold pauseOutranks. sstep. destruct x as [?|?]; ssteps.
Qed.

Lemma Run_locked_serves id proc : serves (Run_locked id proc).
Proof.
  unfold Run_locked, seen_procs. apply serves_bind; [apply readyForExec_serves|]. intros [i sb].
  apply serves_bind; [ssteps|intros procs]. sstep. apply startProcess_serves.
Qed.

Lemma Kill_locked_serves id name force : serves (Kill_locked id name force).
Proof.
  unfold Kill_locked. do 3 sstep. sstep; [apply recordKill_serves|]. apply serves_bind; [apply readyForExec_serves|intros _].
  do 2 sstep. apply recordKill_serves.
Qed.

End Checkpoints.

(** ** The start of a daemon

    A daemon that comes up believes the substrate over the record: [off_machine] has the moves of one correction. A correction
    is tried once more when the disk was full, and the checkpoint it asks about may have come or gone in between, so a
    record a first try called paused may then be called failed. *)

Section DaemonStart.
Context `{Hst : Host} {Hld : Holdings}.

Definition restart_moves : list (State * State) := off_machine ++ [(StatePaused, StateFailed)].

(** A marked pause whose checkpoint decides may be found complete. *)
Definition may_be_cut (sb : Sandbox) (st : Status) : bool :=
  Live (SState sb) && Pausing sb && (negb (Alive st) || bool_decide (StState st = StatePaused)).

(** The states a correction may write. *)
Definition aims (sb : Sandbox) (st : Status) : list State :=
  if Live (SState sb) && negb (Alive st) && OOMKilled st then [StateStopped]
  else (if may_be_cut sb st then [StatePaused] else []) ++
       match reconciled_verdict sb st with Says t => [t] | AsksCheckpoint => [StatePaused; StateStopped] end.

Definition listed_or_kept (s t : State) : Prop := s = t ∨ CanTransitionTo s t = true ∨ (s, t) ∈ restart_moves.

#[local] Instance listed_or_kept_dec s t : Decision (listed_or_kept s t).
Proof. unfold listed_or_kept. apply _. Defined.

Lemma aims_listed sb st :
  State_Valid (SState sb) = true → Forall (λ t, Forall (λ s, listed_or_kept s t) (SState sb :: aims sb st)) (aims sb st).
Proof.
  intros Hv. unfold aims, may_be_cut, reconciled_verdict, Alive.
  generalize (Exists st), (negb (Prefix_IsValid (Address sb))), (Unstarted st), (OOMKilled st), (Pausing sb). intros ex open un oom mark.
  destruct (SState sb); try discriminate Hv; destruct (StState st), ex, open, un, oom, mark;
    apply (bool_decide_unpack _); vm_compute; exact Logic.I.
Qed.

Lemma aims_may sb st t : State_Valid (SState sb) = true → t ∈ aims sb st → may restart_moves (SState sb :: aims sb st) t.
Proof.
  intros Hv Ht. split; [set_solver|]. intros s Hs. pose proof (aims_listed sb st Hv) as H.
  rewrite Forall_forall in H. specialize (H t Ht). rewrite Forall_forall in H. by apply H.
Qed.

Definition decided (sb : Sandbox) (s : State) : Prop :=
  s = SState sb ∨ s ∈ [StateFailed; StateUnresponsive; StatePaused; StateRunning; StateStopped].

Lemma aims_decided sb st t : t ∈ aims sb st → decided sb t.
Proof.
  assert (H : Forall (decided sb) (aims sb st)).
  { unfold aims, decided, reconciled_verdict.
    repeat match goal with |- context [if ?b then _ else _] => destruct b end; cbn;
      repeat (apply Forall_cons; split); try apply Forall_nil; try done; first [by left|right; set_solver]. }
  rewrite Forall_forall in H. apply H.
Qed.

(** A pause is found complete only where [may_be_cut]. *)
Lemma cutPause_cut sb st A : ends (at_ (ID sb) A) (cutPause sb st) (on_ok (λ dir _, dir = "" ∨ may_be_cut sb st = true)).
Proof.
  intros s _. unfold cutPause, may_be_cut, bind at 1. destruct (Live (SState sb) && Pausing sb) eqn:Em.
  - destruct (markedCheckpoint sb s) as [[t s1] [dir|e]]; [|by intros ?]. destruct (String.eqb dir ""); [intros x; cbn; intros [= <-]; by left|].
    destruct (negb releases && negb (Alive st)) eqn:E1; [intros x _; right; apply andb_true_iff in E1 as [_ ->]; done|].
    destruct (negb releases || _) eqn:E2; [intros x; cbn; intros [= <-]; by left|]. intros x _. right. apply orb_false_iff in E2 as [_ E2].
    apply orb_true_iff. destruct (Alive st); [right|by left]. simpl in E2. by apply negb_false_iff in E2.
  - unfold markedCheckpoint. rewrite <- negb_andb, Em. intros x; cbn; intros [= <-]. by left.
Qed.

Lemma reconciled_aims sb st (A : list State) : (∀ t, t ∈ match reconciled_verdict sb st with Says t => [t] | AsksCheckpoint => [StatePaused; StateStopped] end → t ∈ A) →
  ends (λ _, True) (reconciled sb st) (on_ok (λ t _, t ∈ A)).
Proof.
  intros HA s _. unfold reconciled. destruct (reconciled_verdict sb st) as [t|]; [intros x [= <-]; set_solver|].
  unfold bind. destruct (hasCheckpoint _ s) as [[t s1] [[|]|e]]; [..|by intros ?]; intros x [= <-]; apply HA; set_solver.
Qed.

Lemma awaitStopped_tt_same id A : keeps id A (_ <~ awaitStopped id ;; ret tt) A.
Proof. eapply keeps_bind; [apply awaitStopped_same|done|intros _; apply keeps_ret]. Qed.

Lemma correct_drifts X sb st A state :
  decided sb state → (state ≠ SState sb → may X A state) → drifts X (ID sb) A (correct sb st state).
Proof.
  intros Hd Hm. assert (Hk : ∀ Y (m : sop Y), keeps (ID sb) A m A → drifts X (ID sb) A m) by (intros; by apply keeps_drifts).
  assert (Hmut : ∀ f, state ≠ SState sb → (∀ x, SState (f x) = state) → drifts X (ID sb) A (mutate (ID sb) f ;;; ret state)).
  { intros f Hne Hf. apply drifts_bind; [by eapply drifts_mutate; [exact Hf|apply Hm]|intros _; apply Hk, keeps_ret]. }
  unfold correct. destruct (_ && _).
  { apply Hk. unfold endUnstarted. eapply keeps_bind; [|done|intros _; apply keeps_ret].
    eapply keeps_bind; [ksteps|done|intros _; apply awaitStopped_tt_same]. }
  case_bool_decide as Hne; [apply Hk, keeps_ret|].
  case_bool_decide as E1.
  { unfold recordUnresponsive. destruct (_ && _); [apply Hk; ksteps|]. apply Hmut; [done|]. rewrite E1. by intros []. }
  destruct (bool_decide (state = StateRunning) && _) eqn:E2.
  { apply andb_true_iff in E2 as [E2%bool_decide_eq_true _]. apply Hmut; [done|]. rewrite E2. intros x. unfold answered.
    destruct x. simpl. by destruct (_ && _). }
  clear E2. case_bool_decide as E3.
  { unfold RecordRunning. apply drifts_bind; [|intros _; apply Hk, keeps_ret].
    apply drifts_bind; [apply Hk, probe_same|intros s1]. apply drifts_bind; [apply Hk, keeps_read|intros now].
    apply (drifts_mutate _ _ _ _ state); [|by apply Hm]. rewrite E3. intros x. unfold ranAgain. by destruct x; simpl; repeat case_match. }
  case_bool_decide as E4; [apply Hmut; [done|]; rewrite E4; by intros []|].
  case_bool_decide as E5.
  { unfold failDropped. apply drifts_bind; [|intros _; apply Hk, keeps_ret]. apply drifts_bind.
    { apply Hk. destruct (Alive st); [|apply keeps_ret]. eapply keeps_bind; [ksteps|done|intros _; apply awaitStopped_tt_same]. }
    intros _. apply drifts_bind; [apply Hk; ksteps|intros _]. eapply drifts_mutate; [|by apply Hm]. rewrite E5. by intros []. }
  assert (E6 : state = StateStopped) by (destruct Hd as [Hd|Hd]; [done|set_solver]).
  destruct (negb _); [|apply Hmut; [done|rewrite E6; by intros []]].
  rewrite <- E6. apply Hmut; [done|]. rewrite E6. by intros [].
Qed.

Lemma applyReconcile_drifts sb probed :
  State_Valid (SState sb) = true →
  ∃ A, SState sb ∈ A ∧ drifts restart_moves (ID sb) A (applyReconcile sb probed).
Proof.
  intros Hv. destruct probed as [st|e]; [|exists [SState sb]; split; [set_solver|]; apply keeps_drifts; cbn; destruct (is_timeout e); ksteps].
  pose proof (λ t, aims_may sb st t Hv) as Hmay. exists (SState sb :: aims sb st). split; [set_solver|].
  pose proof (aims_decided sb st) as Hdec. set (A := SState sb :: aims sb st) in *.
  assert (Hk : ∀ Y (m : sop Y), keeps (ID sb) A m A → drifts restart_moves (ID sb) A m) by (intros; by apply keeps_drifts).
  cbn [applyReconcile]. destruct (Live (SState sb) && negb (Alive st) && OOMKilled st) eqn:Eoom.
  { apply drifts_bind; [apply Hk, keeps_read|intros now]. unfold recordOOMKilled.
    apply drifts_bind; [|intros _; apply Hk, keeps_ret]. apply drifts_bind; [|intros _; apply Hk, drop_execs_same].
    apply (drifts_mutate _ _ _ _ StateStopped); [by intros []|]. apply Hmay. unfold aims. rewrite Eoom. set_solver. }
  assert (Ha : ∀ t, t ∈ match reconciled_verdict sb st with Says t => [t] | AsksCheckpoint => [StatePaused; StateStopped] end → t ∈ aims sb st)
    by (intros t Ht; unfold aims; rewrite Eoom; set_solver).
  eapply drifts_bind_val; [apply Hk, cutPause_same|apply cutPause_cut|]. intros cut Hcut.
  destruct (String.eqb_spec cut "") as [->|Hne]; cbn [negb].
  - apply drifts_bind; [apply Hk; destruct (ranPast sb st); [apply dropMark_same|ksteps]|intros _].
    eapply drifts_bind_val with (F := λ t, t ∈ aims sb st); [apply Hk; unfold reconciled; destruct (reconciled_verdict sb st)| |].
    + ksteps.
    + eapply keeps_bind; [apply hasCheckpoint_same|done|intros; ksteps].
    + intros s _. exact (reconciled_aims sb st (aims sb st) Ha s Logic.I).
    + intros t Ht. apply correct_drifts; [by apply Hdec|]. intros _. by apply Hmay.
  - destruct Hcut as [?|Hcut]; [done|]. apply drifts_bind; [|intros _; apply Hk, keeps_ret].
    apply (drifts_mutate _ _ _ _ StatePaused); [by intros []|]. apply Hmay. unfold aims. rewrite Eoom, Hcut. set_solver.
Qed.

Lemma drifts_attempted {Y} X id A (m : sop Y) again : drifts X id A m → drifts X id A (retried again m).
Proof.
  intros Hm. unfold retried. apply drifts_bind; [by apply drifts_attempt|]. intros [x|e]; [apply keeps_drifts, keeps_ret|].
  destruct (again e); [done|apply keeps_drifts, keeps_fail].
Qed.

Lemma adoptStaging_same id A : keeps id A (adoptStaging id) A.
Proof. unfold adoptStaging. ksteps. Qed.

Lemma reconcile_one_path again sb probed :
  State_Valid (SState sb) = true →
  path (shifts restart_moves (ID sb)) (at_ (ID sb) [SState sb]) (reconcile_one again sb probed) (λ _ _, True).
Proof.
  intros Hv. destruct (applyReconcile_drifts sb probed Hv) as (A & Ha & H). eapply path_weaken with (Q' := λ _, at_ (ID sb) A).
  - apply drifts_bind; [|intros [?|?]; apply keeps_drifts; ksteps]. apply drifts_attempt, drifts_bind; [apply keeps_drifts, adoptStaging_same|].
    intros _. by apply drifts_attempted.
  - intros s Hs. eapply at_mono; [|exact Hs]. set_solver.
  - done.
Qed.

(** The records a list of the disk shows, each under its own id and not yet changed. *)
Definition listed (sbs : list Sandbox) (s : service) : Prop :=
  NoDup (ID <$> sbs) ∧ Forall (λ sb, ValidID (ID sb) = Ok tt ∧ State_Valid (SState sb) = true ∧ at_ (ID sb) [SState sb] s) sbs.

Lemma ListReadable_listed s : well_formed (repo_of s) → listed (ListReadable (repo_of s)) s.
Proof.
  intros Hw. unfold ListReadable, List. cbn [fst].
  assert (Hv : ∀ n sb, visible (repo_of s) n = Some sb → ValidID n = Ok tt ∧ record (repo_of s) n = Some sb ∧ ID sb = n ∧ State_Valid (SState sb) = true).
  { intros n sb. unfold visible. destruct (ValidID n) as [[]|] eqn:E; [|done]. intros H. destruct (Hw n sb E H). auto. }
  split.
  - rewrite merge_sort_Permutation, readable_visible. pose proof (sorted_names_NoDup (dirs (repo_of s))) as Hnd.
    induction Hnd as [|n l Hn Hnd IH]; [constructor|]. simpl. destruct (visible (repo_of s) n) as [sb|] eqn:E; [|done]. simpl. constructor; [|done].
    destruct (Hv n sb E) as (_ & _ & -> & _). intros (sb' & Heq & (n' & Hn' & E')%list_elem_of_omap)%list_elem_of_fmap.
    destruct (Hv n' sb' E') as (_ & _ & Hid & _). congruence.
  - rewrite merge_sort_Permutation, readable_visible. apply Forall_forall. intros sb (n & _ & E)%list_elem_of_omap.
    destruct (Hv n sb E) as (? & ? & <- & ?). split_and!; [done..|]. exists sb. split; [done|set_solver].
Qed.

Lemma chain_others X id s t s' id' :
  chain (shifts X id) s t s' → ValidID id' = Ok tt → id' ≠ id → record (repo_of s') id' = record (repo_of s) id'.
Proof.
  intros Hc Hv Hne. revert s Hc. induction t as [|x t IH]; intros s; simpl; [by intros ->|]. intros [Hx Hc].
  rewrite (IH x Hc). by apply (sh_others _ _ _ _ Hx).
Qed.

Lemma reconcile_each_path again probes :
  path (any_shifts restart_moves) (λ s, good s ∧ listed probes.*1 s) (reconcile_each again probes) (λ _, good).
Proof.
  induction probes as [|[sb probed] probes IH]; cbn [reconcile_each]; [apply path_ret; by intros ? []|].
  eapply path_bind with (M := λ _ s, good s ∧ listed probes.*1 s).
  - intros s [Hg [Hnd Hf]]. cbn in Hnd, Hf. apply NoDup_cons in Hnd as [Hni Hnd]. apply Forall_cons in Hf as [(Hvid & Hv & Hat) Hf].
    pose proof (reconcile_one_path again sb probed Hv s Hat) as H. destruct (reconcile_one again sb probed s) as [[t s'] a].
    destruct H as [Hc _]. assert (Hc' : chain (any_shifts restart_moves) s t s') by (eapply chain_mono; [|exact Hc]; intros x y ?; by exists (ID sb)).
    split; [done|]. assert (Hg' : good s') by (by apply (chain_keeps _ good s t s' (any_shifts_good restart_moves) Hc')).
    destruct a; [|done]. split; [done|]. split; [done|]. rewrite Forall_forall in Hf |- *. intros sb' Hin.
    destruct (Hf sb' Hin) as (Hvid' & Hv' & sb0 & Hr & Hs). split_and!; [done..|]. exists sb0. split; [|done].
    rewrite (chain_others _ _ _ _ _ (ID sb') Hc Hvid'); [done|]. intros E. apply Hni. rewrite <- E. by apply list_elem_of_fmap_2.
  - intros x. eapply path_bind with (M := λ _, good); [eapply path_post; [apply IH|by intros []]|]. intros xs. by apply path_ret.
Qed.

Lemma probe_all_path sbs all :
  path (any_shifts restart_moves) (λ s, good s ∧ listed all s) (probe_all sbs)
    (λ a s, match a with Ok ps => ps.*1 = sbs ∧ good s ∧ listed all s | Err _ => good s end).
Proof.
  induction sbs as [|sb sbs IH]; cbn [probe_all]; [by apply path_ret|].
  eapply path_bind with (M := λ _ s, good s ∧ listed all s).
  - intros s [Hg Hl]. pose proof (serves_serves_off restart_moves _ (serves_attempt _ (serves_status (ID sb) "reconcile")) s Hg) as H.
    assert (Hrepo : repo_of (attempt (status (ID sb) "reconcile") s).1.2 = repo_of s).
    { unfold attempt, status, bind, do_call, read_host, ask. destruct (perform (PStatus (ID sb)) (host s)) as [w [st|e]]; [done|].
      cbn. by destruct (_ && _). }
    destruct (attempt _ s) as [[t s'] a]. destruct H as [Ht Hg']. split; [done|]. destruct a; [|done]. split; [done|].
    destruct Hl as [Hnd Hf]. split; [done|]. unfold at_ in *. cbn in Hrepo. by rewrite Hrepo.
  - intros a. eapply path_bind; [apply IH|]. intros ps s (Hps & Hg & Hl). cbn. by rewrite Hps.
Qed.

Lemma ReconcileAll_path again sbs :
  path (any_shifts restart_moves) (λ s, good s ∧ listed sbs s) (ReconcileAll again sbs) (λ _, good).
Proof.
  unfold ReconcileAll. eapply path_bind; [eapply path_post; [apply (probe_all_path sbs sbs)|intros [ps|e] s H; exact H]|].
  intros ps. eapply path_bind with (M := λ _, good).
  - eapply path_weaken; [apply (reconcile_each_path again ps)|intros s (-> & Hg & Hl); done|by intros []].
  - intros out. destruct (existsb snd out); [apply serves_serves_off, serves_fail|].
    destruct (existsb _ out); apply serves_serves_off; [by apply serves_try|apply serves_ret].
Qed.

(** A change of the repository that is none of the records. *)
Lemma serves_on_repo {Y} (m : op repo repo_error Y) :
  path (λ r r', dirs r' = dirs r) (λ _, True) m (λ _ _, True) → serves (on_repo m).
Proof.
  intros Hm s Hg. specialize (Hm (repo_of s) Logic.I). unfold on_repo. destruct (m (repo_of s)) as [[t r'] a]. destruct Hm as [Hc _].
  split; [|done]. assert (Hgen : ∀ t r0, chain (λ r r', dirs r' = dirs r) r0 t r' →
    chain any_moves (set_repo r0 s) ((λ r, set_repo r s) <$> t) (set_repo r' s)).
  { clear. intros t. induction t as [|x t IH]; intros r0; [by intros ->|]. intros [Hx Hc]. rewrite fmap_cons. split; [|by apply IH].
    assert (Hrec : ∀ i, record x i = record r0 i) by (intros i; unfold record; by rewrite Hx).
    exists "". apply (set_repo_moves _ x (set_repo r0 s)); [by apply same_dirs_moves|]. intros i _ Hi. cbn in Hi. by rewrite Hrec. }
  specialize (Hgen t (repo_of s) Hc). destruct s. exact Hgen.
Qed.

Lemma Sweep_serves removes synced : serves (on_repo (SweepCheckpointTmp removes synced)).
Proof.
  apply serves_on_repo. unfold SweepCheckpointTmp. eapply path_bind with (M := λ _ _, True); [by apply path_ask|intros before].
  eapply path_bind with (M := λ _ _, True).
  - apply path_post with (Q' := λ _ _, True); [|by intros []]. generalize (merge_sort String.le (elements before)). intros names.
    induction names as [|x names IH]; cbn [sweep_go]; [by apply path_ret|]. destruct (negb _); [apply IH|].
    eapply path_bind with (M := λ _ _, True); [by apply path_ask|]. intros []; [apply IH|].
    eapply path_bind with (M := λ _ _, True); [|intros _; apply IH]. unfold remove_checkpoint.
    destruct (removes x); [by apply path_touch|by apply path_fail].
  - intros _. eapply path_bind with (M := λ _ _, True); [by apply path_ask|intros after].
    case_bool_decide; [by apply path_ret|]. apply path_check. by destruct synced.
Qed.

Lemma reconciler_Reconcile_serves c : serves_off restart_moves (reconciler_Reconcile c).
Proof.
  unfold reconciler_Reconcile. apply serves_off_bind; [apply serves_serves_off, serves_check|intros _].
  apply serves_off_bind; [apply serves_serves_off, Sweep_serves|intros _].
  apply serves_off_bind; [apply serves_serves_off, serves_check|intros _].
  eapply path_bind with (M := λ sbs s, good s ∧ listed sbs s); [apply path_ask; intros s Hg; split; [done|]; apply ListReadable_listed, Hg|].
  intros [|sb sbs]; [apply path_ret; by intros ? []|]. destruct (bt_provider c); [|apply path_fail; by intros ? []].
  eapply path_bind with (M := λ _ s, good s ∧ listed (sb :: sbs) s); [by apply path_ret|]. intros _. apply ReconcileAll_path.
Qed.

End DaemonStart.
