(* ===== verification/Birth.v ===== *)
(** * Sandboxes come into being

    A create and a fork, checked against [Moves]: the record is the first claim and the last to go back, so a build
    that fails, or is cut, never leaves the host holding something for an id that has no record. *)

From S2P Require Import Prelude Ops Paths GoStrings Netip Models SandboxFields Restart Store Secret SandboxID Repository ExecTable Host Moves.
From S2P Require Import Lifecycle Reconcile Processes Checkpoint Ports Creation Grants Verbs Removal Service.
Local Open Scope Z_scope.
Local Open Scope op_scope.

(** ** The repository's create, followed *)

(** A move of a sandbox that was not there at [r0]. *)
Definition born_moves (r0 r r' : repo) : Prop := ∃ id, repo_moves id r r' ∧ record r0 id = None.

Lemma fresh_dir_moves id r : record r id = None → repo_moves id r (set_dirs <[id := EntryDir None]> r).
Proof.
  intros Hn. apply gone_moves.
  - intros i _ Hne. rewrite record_insert. by rewrite decide_False by congruence.
  - rewrite record_insert. by rewrite decide_True.
Qed.

Lemma claimIn_path c r0 :
  path (born_moves r0) (λ r, r = r0) (claimIn c)
    (λ a r, match a with Ok id => Some id ∈ new_ids c ∧ record r0 id = None ∧ record r id = None | Err _ => True end).
Proof.
  unfold claimIn. assert (H : ∀ ids n, ids ⊆ new_ids c → path (born_moves r0) (λ r, r = r0) (claim_go c n ids)
    (λ a r, match a with Ok id => Some id ∈ new_ids c ∧ record r0 id = None ∧ record r id = None | Err _ => True end)).
  2: { by apply H. }
  intros ids. induction ids as [|[id|] ids IH]; intros [|n] Hsub; cbn [claim_go]; try by apply path_fail.
  eapply path_bind with (M := λ b r, r = r0 ∧ (b = false → dirs r0 !! id = None)).
  { apply path_ask. intros r ->. split; [done|]. intros Hb%bool_decide_eq_false. by apply eq_None_not_Some. }
  intros []; [eapply path_pre; [apply IH; set_solver|by intros r [-> _]]|].
  eapply path_bind with (M := λ _ r, r = r0 ∧ dirs r0 !! id = None);
    [apply path_check; intros r [-> H]; destruct (mkdir_ok c); auto|intros _].
  eapply path_bind with (M := λ _ r, record r0 id = None ∧ record r id = None).
  { apply path_touch. intros r [-> H]. assert (Hn : record r0 id = None) by (unfold record; by rewrite H).
    split; [exists id; split; [by apply fresh_dir_moves|done]|]. split; [done|]. rewrite record_insert. by rewrite decide_True. }
  intros _. eapply path_bind with (M := λ _ r, record r0 id = None ∧ record r id = None);
    [apply path_check; intros r H; by destruct (parent_sync c)|intros _].
  apply path_ret. intros r [? ?]. split_and!; [|done..]. apply Hsub. by left.
Qed.

Lemma RemoveAll_path f id : path (repo_moves id) (λ _, True) (RemoveAll f id) (λ _ _, True).
Proof.
  destruct f as [|[]]; cbn [RemoveAll].
  - apply path_touch. intros r _. split; [|done]. apply gone_moves; [|rewrite record_delete; by rewrite decide_True].
    intros i _ Hne. rewrite record_delete. by rewrite decide_False by congruence.
  - by apply path_fail.
  - eapply path_bind with (M := λ _ _, True); [|intros _; by apply path_fail]. apply path_touch. intros r _. split; [|done].
    apply gone_moves.
    + intros i _ Hne. unfold record, set_dirs. cbn [dirs]. by rewrite lookup_alter_ne by congruence.
    + unfold record, set_dirs. cbn [dirs]. rewrite lookup_alter_eq. by destruct (dirs r !! id).
Qed.

Lemma give_back_path {X} c id (m : op repo repo_error X) P Q :
  path (repo_moves id) P m (λ a r, match a with Ok x => Q x r | Err _ => True end) →
  path (repo_moves id) P (give_back c id m) (λ a r, match a with Ok x => Q x r | Err _ => True end).
Proof.
  intros Hm r Hp. specialize (Hm r Hp). unfold give_back. destruct (m r) as [[t r1] [a|e]]; [done|]. destruct Hm as [Ht _].
  pose proof (RemoveAll_path (cc_remove c) id r1 ltac:(done)) as Hr. destruct (RemoveAll (cc_remove c) id r1) as [[t2 r2] x].
  destruct Hr as [Ht2 _]. split; [|done]. eapply chain_app; [done|]. eapply chain_app; [done|]. split; [apply bump_moves|done].
Qed.

(** A record that lands where there was none. *)
Lemma born_landed sb r :
  record r (ID sb) = None → SState sb = StatePending ∨ SState sb = StateCreated → repo_moves (ID sb) r (landed sb r).
Proof.
  intros Hn Hs. assert (Hv : State_Valid (SState sb) = true) by (destruct Hs as [-> | ->]; done). split.
  - intros i _ Hne. rewrite record_landed. by rewrite decide_False by congruence.
  - unfold state_of. rewrite record_landed, decide_True, Hn by done. simpl. rewrite json_state_valid by done. by constructor.
  - intros Hw i s Hvi. rewrite record_landed. case_decide as E; [|by apply Hw]. intros [= <-]. cbn [ID SState json_sandbox].
    rewrite E, ValidID_json, json_state_valid by done. done.
Qed.

Lemma write_path w sb :
  SState sb = StatePending ∨ SState sb = StateCreated →
  path (repo_moves (ID sb)) (λ r, record r (ID sb) = None) (write w sb)
    (λ a r, match a with Ok _ => record r (ID sb) = Some (json_sandbox sb) | Err _ => True end).
Proof.
  intros Hs. unfold write. eapply path_deferred with (Q' := λ a r, match a with Ok _ => record r (ID sb) = Some (json_sandbox sb) | Err _ => True end).
  2: { intros a r H. split; [apply bump_moves|]. destruct a; [|done]. done. }
  eapply path_bind with (M := λ _ r, record r (ID sb) = None); [by apply path_ask|]. intros has. destruct (has && wrote w); [|by apply path_fail].
  eapply path_bind with (M := λ _ r, record r (ID sb) = Some (json_sandbox sb)); [|intros _; apply path_check; intros; by destruct (write_ok w)].
  apply path_touch. intros r Hr. split; [by apply born_landed|]. change (set_dirs _ r) with (landed sb r).
  rewrite record_landed. by rewrite decide_True.
Qed.

Lemma claim_path f name id P : (∀ r r', dirs r' = dirs r → P r → P r') → path (repo_moves id) P (claim f name id) (λ _, P).
Proof.
  intros HP. unfold claim. destruct (String.eqb name ""); [apply path_ret; auto|].
  eapply path_bind with (M := λ _, P); [apply path_ask; intros r Hr; destruct (SandboxID.ValidName name); exact Hr|intros _].
  eapply path_bind with (M := λ _, P); [apply path_ask; intros r Hr; exact Hr|]. intros [h|]; [apply path_fail; auto|].
  assert (Ht : path (repo_moves id) P (touch (set_links <[name := Link (link_target id)]>) : op repo repo_error unit) (λ _, P)).
  { apply path_touch. intros r Hr. split; [by apply same_dirs_moves|]. eapply HP; [|exact Hr]; done. }
  destruct f; [exact Ht|apply path_fail; auto|]. eapply path_bind with (M := λ _, P); [eapply path_post; [exact Ht|by intros []]|intros _].
  apply path_fail; auto.
Qed.

Lemma born_any r0 id {X} P (m : op repo repo_error X) Q :
  path (repo_moves id) P m Q → path (born_moves r0) (λ r, record r0 id = None ∧ P r) m Q.
Proof.
  intros Hm r [Hn Hp]. specialize (Hm r Hp). destruct (m r) as [[t r'] a]. destruct Hm as [Hc Hq]. split; [|done].
  eapply chain_mono; [|exact Hc]. intros x y ?. by exists id.
Qed.

Lemma Create_path c sb r0 :
  SState sb = StatePending ∨ SState sb = StateCreated →
  path (born_moves r0) (λ r, r = r0) (Create c sb)
    (λ a r, match a with
            | Ok sb' => Some (ID sb') ∈ new_ids (cc_claim c) ∧ record r0 (ID sb') = None ∧ record r (ID sb') = Some (json_sandbox sb') ∧
                SState sb' = SState sb
            | Err _ => True
            end).
Proof.
  intros Hs. unfold Create. eapply path_bind with (M := λ _ r, r = r0); [apply path_check; intros r H; by destruct (String.eqb _ _)|intros _].
  eapply path_bind with (M := λ _ r, r = r0); [apply path_check; intros r H; by destruct (State_Valid _)|intros _].
  eapply path_bind; [apply claimIn_path|]. intros id. destruct (negb _).
  { intros r (_ & Hn & _). unfold refused. pose proof (born_any r0 id _ _ _ (RemoveAll_path (cc_remove c) id) r (conj Hn Logic.I)) as H.
    destruct (RemoveAll (cc_remove c) id r) as [[t r1] x]. destruct H. by split. }
  destruct (set_ID_other id sb) as (En & Es & _ & _ & _ & Ei).
  assert (Hs' : SState (set_ID id sb) = StatePending ∨ SState (set_ID id sb) = StateCreated) by (by rewrite Es).
  eapply path_bind with (M := λ _ r, Some id ∈ new_ids (cc_claim c) ∧ record r0 id = None ∧ record r id = Some (json_sandbox (set_ID id sb))).
  - intros r (Hin & Hn & Hr). pose proof (write_path (cc_write c) (set_ID id sb) Hs') as H.
    rewrite Ei in H. apply (give_back_path c id _ _ (λ _ r, record r id = Some (json_sandbox (set_ID id sb)))) in H. apply (born_any r0) in H. specialize (H r (conj Hn Hr)).
    destruct (give_back c id (write (cc_write c) (set_ID id sb)) r) as [[t r1] [[]|e]]; naive_solver.
  - intros _. eapply path_bind with (M := λ _ r, Some id ∈ new_ids (cc_claim c) ∧ record r0 id = None ∧ record r id = Some (json_sandbox (set_ID id sb))).
    + intros r (Hin & Hn & Hr).
      assert (H : path (repo_moves id) (λ r, record r id = Some (json_sandbox (set_ID id sb)))
        (give_back c id (claim (cc_link c) (Name (set_ID id sb)) id))
        (λ a r, match a with Ok _ => record r id = Some (json_sandbox (set_ID id sb)) | Err _ => True end)).
      { apply give_back_path. eapply path_post; [apply claim_path|by intros []].
        intros r1 r2 E. unfold record. by rewrite E. }
      apply (born_any r0) in H. specialize (H r (conj Hn Hr)).
      destruct (give_back c id _ r) as [[t r1] [[]|e]]; naive_solver.
    + intros _. apply path_ret. intros r (? & ? & ?). rewrite Ei. by split_and!.
Qed.

(** ** The service *)

Section Birth.
Context `{Hst : Host} {Hld : Holdings}.

(** What the repository makes where the host holds nothing. *)
Lemma on_repo_born {X} (m : op repo repo_error X) s Q :
  no_orphans s → path (born_moves (repo_of s)) (λ r, r = repo_of s) m Q →
  let '(t, s', a) := on_repo m s in
  chain any_moves s t s' ∧ host s' = host s ∧ ∃ b, a = map_err ERepo b ∧ Q b (repo_of s').
Proof.
  intros Hn Hm. specialize (Hm (repo_of s) eq_refl). unfold on_repo. destruct (m (repo_of s)) as [[t r'] a]. destruct Hm as [Ht HQ].
  split; [|split; [done|eauto]].
  assert (Hgen : ∀ t r0, chain (born_moves (repo_of s)) r0 t r' →
    chain any_moves (set_repo r0 s) ((λ r, set_repo r s) <$> t) (set_repo r' s)).
  { clear t Ht. intros t. induction t as [|x t IH]; intros r0; [by intros ->|]. intros [(id & Hx & Hid) Ht]. rewrite fmap_cons.
    split; [|by apply IH]. exists id. split; [exact Hx|]. intros Hn0 i Hv Hi. cbn [repo_of set_repo host] in *.
    rewrite (rm_others _ _ _ Hx); [by apply Hn0|done|]. intros ->. destruct (Hn id Hv Hi). congruence. }
  specialize (Hgen t (repo_of s) Ht). destruct s. exact Hgen.
Qed.

(** A new record: its id was free, and the host holds nothing for it. *)
Definition newborn (state : State) (id : string) (s : service) : Prop :=
  good s ∧ ValidID id = Ok tt ∧ at_ id [state] s ∧ unheld id s.

Lemma create_born c sb s :
  SState sb = StatePending ∨ SState sb = StateCreated → good s → ids_ok (cc_claim c) →
  let '(t, s', a) := on_repo (Create c sb) s in
  chain any_moves s t s' ∧ match a with Ok sb' => newborn (SState sb) (ID sb') s' | Err _ => True end.
Proof.
  intros Hs Hg Hids. pose proof (on_repo_born _ s _ (proj2 Hg) (Create_path c sb (repo_of s) Hs)) as H.
  destruct (on_repo (Create c sb) s) as [[t s'] a]. destruct H as (Hc & Hh & b & -> & Hb). split; [done|].
  destruct b as [sb'|e]; [|done]. simpl. destruct Hb as (Hin & Hn & Hr & Es).
  pose proof (generated_ValidID _ (Hids _ Hin)) as Hv. split_and!; [|done|..].
  - by apply (chain_keeps any_moves good s t s' any_moves_good Hc).
  - exists (json_sandbox sb'). split; [done|]. cbn [SState json_sandbox]. rewrite Es, json_state_valid; [by apply list_elem_of_singleton|].
    by destruct Hs as [-> | ->].
  - unfold unheld. rewrite Hh. intros Hi. destruct (proj2 Hg _ Hv Hi). congruence.
Qed.

(** ** Prepare *)

Lemma grantSecrets_serves env names : serves (grantSecrets_go env names).
Proof.
  revert env. induction names as [|name names IH]; intros env; cbn [grantSecrets_go]; [ssteps|]. sstep.
  destruct x as [?|[]]; [apply IH|ssteps..].
Qed.

Lemma claimPorts_serves ports : serves (claimPorts ports).
Proof. induction ports as [|p ports IH]; cbn [claimPorts]; unfold portUnclaimed; [ssteps|]. do 2 sstep. sstep; [apply IH|ssteps]. Qed.

Lemma readSeed_serves id req : serves (readSeed id req).
Proof. unfold readSeed. ssteps. Qed.

Lemma seed_serves ref req : serves (seed ref req).
Proof. unfold seed. sstep. apply serves_locked, readSeed_serves. Qed.

Lemma create_admitted_serves sb : SState sb = StatePending → serves (create_admitted sb).
Proof.
  intros Hs s Hg. unfold create_admitted.
  pose proof (serves_call (RCreate (SResources sb)) eq_refl s Hg) as Hcall. unfold bind at 1. unfold do_call in *.
  pose proof (created_ids (SResources sb) (host s)) as Hids.
  pose proof (any_moves_good s) as Hgood.
  destruct (perform (RCreate (SResources sb)) (host s)) as [w c]. cbn [snd] in Hids. destruct Hcall as [[Hm _] _].
  set (s1 := set_host w s) in *. assert (Hg1 : good s1) by eauto. clear Hgood.
  set (c' := MkCreateCalls _ _ _ _ _). unfold bind at 1, ask. cbn [app].
  set (reserved := match (claimIn (cc_claim c') (repo_of s1)).2 with Ok id => _ | Err _ => _ end). clearbody reserved.
  unfold bind at 1, attempt.
  pose proof (create_born c' sb s1 (or_introl Hs) Hg1 Hids) as Hb.
  destruct (on_repo (Create c' sb) s1) as [[t s2] a]. destruct Hb as [Hc _].
  assert (Hg2 : good s2) by (by apply (chain_keeps any_moves good s1 t s2 any_moves_good Hc)).
  set (k := match a, reserved with Ok sb, _ => ret sb | Err e, Some id => _ | Err e, None => fail e end : sop Sandbox).
  assert (Hk : serves k) by (unfold k; destruct a, reserved; ssteps).
  specialize (Hk s2 Hg2). destruct (k s2) as [[t2 s3] b]. destruct Hk as [Hc2 _]. split; [|done]. cbn [app].
  split; [done|]. by eapply chain_app.
Qed.

Lemma prepare_seeded_serves req snapshot : serves (prepare_seeded req snapshot).
Proof.
  unfold prepare_seeded. cbn zeta. apply serves_bind; [ssteps|intros _]. do 5 sstep.
  apply serves_bind; [apply grantSecrets_serves|intros _].
  apply serves_bind; [destruct (negb _); [apply serves_bind; [apply getPolicy_serves|intros; ssteps]|ssteps]|intros _].
  apply serves_bind; [destruct (fronted req); [apply serves_bind; [apply proxyCA_serves|intros; ssteps]|ssteps]|intros _].
  apply serves_bind; [destruct (negb _); [sstep; apply claimPorts_serves|ssteps]|intros _]. sstep. by apply create_admitted_serves.
Qed.

Lemma Prepare_serves req : serves (Prepare req).
Proof.
  unfold Prepare. sstep. destruct (negb _); [|apply prepare_seeded_serves].
  apply serves_bind; [apply seed_serves|intros]. apply prepare_seeded_serves.
Qed.

(** ** Complete *)

Lemma grantSecrets_same id A env names : keeps id A (grantSecrets_go env names) A.
Proof.
  revert env. induction names as [|name names IH]; intros env; cbn [grantSecrets_go]; [ksteps|]. kstep.
  destruct x as [?|[]]; [apply IH|ksteps..].
Qed.

Lemma proxyCA_same id A : keeps id A proxyCA A.
Proof. unfold proxyCA. ksteps. Qed.

Lemma pull_same id req A : keeps id A (pull id req) A.
Proof. unfold pull. do 2 kstep. destruct x0, x; ksteps. Qed.

Lemma seed_same id ref req A : keeps id A (seed ref req) A.
Proof. unfold seed, locked, readSeed. ksteps. Qed.

Lemma AllocateNetwork_same id A : keeps id A (AllocateNetwork id) A.
Proof. unfold AllocateNetwork. ksteps. Qed.

Lemma recordCreated_same id net digest A : keeps id A (recordCreated id net digest) A.
Proof. unfold recordCreated. ksteps. Qed.

Lemma build_same id req env ca img files dir A : keeps id A (build id req env ca img files dir) A.
Proof.
  assert (Hr : keeps id A (try (PRemove id)) A) by ksteps. assert (Hn : keeps id A (try (NRelease id)) A) by ksteps.
  assert (Hclaims : Forall (λ step, keeps id A step A) [try (PRemove id); try (NRelease id)])
    by (apply Forall_cons; split; [done|by apply Forall_singleton]).
  unfold build. eapply (keeps_bind _ A _ _ A); [apply keeps_attempt, AllocateNetwork_same|done|].
  intros [net|e]; [|by apply keeps_unwinding, Forall_singleton]. cbn zeta. kstep. destruct x as [x|e]; [|by apply keeps_unwinding].
  eapply (keeps_bind _ A _ _ A); [apply keeps_attempt|done|].
  { eapply (keeps_bind _ A _ _ A); [apply recordCreated_same|done|intros _]. ksteps. }
  intros [?|?]; [|by apply keeps_unwinding]. kstep. kstep; [ksteps|]. kstep. kstep; [ksteps|]. by apply keeps_unwinding.
Qed.

Lemma to_build_same id req sb A : keeps id A (to_build id req sb) A.
Proof.
  unfold to_build. eapply (keeps_bind _ A _ _ A); [kstep; [|ksteps]|done|].
  { eapply (keeps_bind _ A _ _ A); [apply seed_same|done|intros; ksteps]. }
  intros s. cbn zeta. eapply (keeps_bind _ A _ _ A); [apply grantSecrets_same|done|intros env].
  eapply (keeps_bind _ A _ _ A); [kstep; [|ksteps]|done|].
  { eapply (keeps_bind _ A _ _ A); [apply proxyCA_same|done|intros; ksteps]. }
  intros ca. eapply (keeps_bind _ A _ _ A); [destruct s; [ksteps|apply pull_same]|done|intros img].
  eapply (keeps_bind _ A _ _ A); [apply keeps_ask|done|intros dir]. apply build_same.
Qed.

Lemma Complete_locked_serves id req : serves (Complete_locked id req).
Proof.
  unfold Complete_locked. apply serves_get_attempt; [intros e; ssteps|]. intros sb _ _. case_bool_decide as E; [|by apply path_ret].
  cbn [negb]. rewrite E. assert (H : works id [StatePending] (built <~ attempt (to_build id req sb) ;;
    match built with Ok _ => commit id | Err e => ended <~ read_host ctx_ended ;; if ended : bool then fail e else fail_ id e end)).
  { eapply keeps_works with (B := [StatePending; StateRunning; StateFailed]).
    eapply (keeps_bind _ _ _ _ [StatePending]); [apply keeps_attempt, to_build_same|sub|]. intros [x|e].
    - unfold commit. kstep. eapply (keeps_mutate_bind _ _ _ [StateRunning]); [apply lands_to; [by_fields|apply can_singleton; by right]|sub|].
      eapply keeps_mono; [apply openPorts_same|done|sub].
    - kstep. kstep; [ksteps|]. eapply keeps_mono; [apply (fail_to id [StatePending])|done|sub]. apply can_singleton. by right. }
  intros s [Hg Hat]. specialize (H s Hat). destruct (bind _ _ s) as [[t s'] a]. destruct H as [H _]. split; [by eapply chain_any|done].
Qed.

(** ** Fork *)

Lemma path_unwinding {X} (R : service → service → Prop) P e steps :
  path R P (Unwind steps) (λ _ _, True) → path R P (unwinding e steps : sop X) (λ _ _, True).
Proof. intros H s Hs. specialize (H s Hs). unfold unwinding. destruct (Unwind steps s) as [[t s'] a]. exact H. Qed.

Lemma forget_copy_path id : path (moves id) (unheld id) (forget_copy id) (λ _ _, True).
Proof.
  unfold forget_copy. eapply path_bind with (M := λ _ _, True); [eapply path_post; [apply path_attempt, deleteRecord_path|by intros []]|].
  intros [[]|e]; [by apply path_ret|]. destruct (is_not_found e); [by apply path_ret|by apply path_fail].
Qed.

(** The three stacks of claims a fork may unwind, each from where it may be unwound. *)
Lemma unwind_record {X} id e : path (moves id) (unheld id) (unwinding e [forget_copy id] : sop X) (λ _ _, True).
Proof.
  apply path_unwinding. cbn [Unwind]. eapply path_bind with (M := λ _ _, True); [|intros _; by apply path_ret].
  eapply path_post; [apply forget_copy_path|by intros []].
Qed.

Lemma unwind_released id : path (moves id) (λ s, id ∉ substrate (host s)) (Unwind [try (NRelease id); forget_copy id]) (λ _ _, True).
Proof.
  cbn [Unwind]. eapply path_bind with (M := λ _, unheld id).
  - eapply path_post; [apply (NRelease_path id (λ s, id ∉ substrate (host s)))|].
    + intros w s Hw. cbn [host set_host]. set_solver.
    + intros [[]|e] s [H1 H2]; [|done]. specialize (H2 eq_refl). unfold unheld. set_solver.
  - intros _. eapply path_bind with (M := λ _ _, True); [|intros _; by apply path_ret].
    eapply path_post; [apply forget_copy_path|by intros []].
Qed.

Lemma unwind_removed {X} id A e :
  path (moves id) (at_ id A) (unwinding e [try (PRemove id); try (NRelease id); forget_copy id] : sop X) (λ _ _, True).
Proof.
  apply path_unwinding. change (Unwind (try (PRemove id) :: ?r)) with (try (PRemove id) ;;; Unwind r).
  eapply path_bind with (M := λ _ s, id ∉ substrate (host s)); [|intros _; apply unwind_released].
  eapply path_post; [apply (PRemove_path id A)|]. intros [[]|e'] s [H1 H2]; [by apply H2|done].
Qed.

(** A copy the substrate has not been asked for. *)
Definition bare (id : string) (A : list State) (s : service) : Prop := at_ id A s ∧ id ∉ substrate (host s).

Lemma bare_call {X} id A (c : call X) :
  own_claim id c → (∀ a l, substrate_after c a l ⊆ l) → path (moves id) (bare id A) (do_call c) (λ _, bare id A).
Proof.
  intros Hc Hs s [Hat Hn]. pose proof (keeps_call id A c Hc s Hat) as H. unfold do_call in *.
  pose proof (substrate_law X c (host s)) as Hl. destruct (perform c (host s)) as [w a]. simpl in *. destruct H as [H1 H2].
  split; [done|]. split; [done|]. cbn [host set_host]. specialize (Hs a (substrate (host s))). set_solver.
Qed.

Lemma bare_mutate id A f : (∀ sb, SState (f sb) = SState sb) → path (moves id) (bare id A) (mutate id f) (λ _, bare id A).
Proof.
  intros Hf s [Hat Hn]. pose proof (keeps_mutate_same id f A Hf s Hat) as H.
  assert (Hh : substrate (host (mutate id f s).1.2) ⊆ substrate (host s)).
  { unfold mutate, update, bind, do_call. pose proof (substrate_law _ RWrite (host s)) as Hl.
    destruct (perform RWrite (host s)) as [w a]. unfold on_repo. cbn [repo_of set_host].
    destruct (Update a id _ (repo_of s)) as [[t r] b]. exact Hl. }
  destruct (mutate id f s) as [[t s'] a]. simpl in Hh. destruct H as [H1 H2]. split; [done|]. split; [done|]. set_solver.
Qed.

Lemma copy_network_path id policy front A :
  path (moves id) (bare id A) (copy_network id policy front) (λ _, bare id A).
Proof.
  unfold copy_network, AllocateNetwork. eapply path_bind with (M := λ _, bare id A).
  - eapply path_bind with (M := λ _, bare id A).
    + eapply path_post; [apply (bare_call id A (NAllocate id)); [own|done]|by intros []].
    + intros [net|[]]; first [apply path_ret; auto|apply path_fail; auto].
  - intros net. cbn zeta. eapply path_bind with (M := λ _, bare id A); [eapply path_post; [apply bare_mutate; by_fields|by intros []]|intros _].
    eapply path_bind with (M := λ _, bare id A); [|intros _; apply path_ret; auto]. destruct front; [|apply path_ret; auto].
    unfold try. eapply path_bind with (M := λ _, bare id A); [eapply path_post; [apply (bare_call id A (NReapply id)); [own|done]|by intros []]|].
    intros [[]|e]; [apply path_ret; auto|apply path_fail; auto].
Qed.

Lemma bring_up_path source id src name dir net :
  path (moves id) (at_ id [StateCreated])
    (bring_up source id src name dir net [try (NRelease id); forget_copy id]) (λ _ _, True).
Proof.
  unfold bring_up. cbn zeta. eapply path_bind with (M := λ _, at_ id [StateCreated]).
  { eapply path_post; [apply keeps_call|by intros []]. own. }
  intros [x|e].
  - eapply keeps_works with (B := all_states). kstep. kstep.
    + kuse [StateCreated; StateRunning] RecordRunning_to; [apply can_singleton; by right|]. eapply keeps_mono; [apply getRecord_same|done|sub].
    + apply keeps_joined. eapply keeps_mono; [apply (Reconcile_to id true [StateCreated])|done|sub]. apply can_singleton. by right.
  - eapply path_bind with (M := λ _, at_ id [StateCreated]); [by apply path_ask|]. intros [].
    + eapply path_bind with (M := λ _, at_ id [StateCreated]); [eapply path_post; [apply keeps_attempt, status_same|by intros []]|].
      intros [st|e2]; [|by apply path_fail]. destruct (Alive st); [by apply path_fail|apply unwind_removed].
    + apply unwind_removed.
Qed.

(** The part of a fork that follows the copy's record. *)
Definition claimed (source name : string) (src : Sandbox) (id : string) : sop Sandbox :=
  got <~ do_call (LLock id) ;;
  if negb got then unwinding EBusy [forget_copy id]
  else
    there <~ attempt (getRecord id) ;;
    match there with
    | Err e => unwinding e [forget_copy id]
    | Ok _ =>
        d <~ attempt (Dir id) ;;
        match d with
        | Err e => unwinding e [forget_copy id]
        | Ok dir =>
            net <~ attempt (copy_network id (SPolicyName src) (fronted_record src)) ;;
            match net with
            | Err e => unwinding e [try (NRelease id); forget_copy id]
            | Ok net => bring_up source id src name dir net [try (NRelease id); forget_copy id]
            end
        end
    end.

Lemma claimed_path source name src id :
  path (moves id) (λ s, at_ id [StateCreated] s ∧ unheld id s) (claimed source name src id) (λ _ _, True).
Proof.
  unfold claimed. set (P := λ s, at_ id [StateCreated] s ∧ unheld id s).
  eapply path_bind with (M := λ _, P).
  { intros s [Hat Hu]. pose proof (keeps_call id [StateCreated] (LLock id) ltac:(own) s Hat) as H1.
    pose proof (do_call_unheld id (LLock id) eq_refl s Hu) as H2. destruct (do_call (LLock id) s) as [[t s'] [a|e]]; by destruct H1, H2. }
  assert (Hu : ∀ e, path (moves id) P (unwinding e [forget_copy id] : sop Sandbox) (λ _ _, True)).
  { intros e. eapply path_pre; [apply unwind_record|]. by intros s [_ ?]. }
  intros []; cbn [negb]; [|apply Hu].
  eapply path_bind with (M := λ _, P); [by apply (path_ask _ P)|]. intros [sb|e]; [|apply Hu].
  eapply path_bind with (M := λ _, P); [by apply (path_ask _ P)|]. intros [dir|e]; [|apply Hu].
  eapply path_bind with (M := λ _, bare id [StateCreated]).
  { eapply path_weaken; [apply path_attempt, copy_network_path|intros s [? H]; split; [done|unfold unheld in H; set_solver]|].
    intros a s (x & -> & H). exact H. }
  intros [net|e]; [eapply path_pre; [apply bring_up_path|by intros s [? _]]|].
  apply path_unwinding. eapply path_pre; [apply unwind_released|]. by intros s [_ ?].
Qed.

Lemma create_record_path sb :
  SState sb = StateCreated → path any_moves good (create_record sb) (λ a s, match a with Ok sb' => newborn StateCreated (ID sb') s | Err _ => True end).
Proof.
  intros Hs s Hg. unfold create_record. pose proof (serves_call (RCreate (SResources sb)) eq_refl s Hg) as Hcall.
  unfold bind, do_call in *. pose proof (created_ids (SResources sb) (host s)) as Hids. pose proof (any_moves_good s) as Hgood.
  destruct (perform (RCreate (SResources sb)) (host s)) as [w c]. cbn [snd] in Hids. destruct Hcall as [[Hm _] _].
  set (s1 := set_host w s) in *. assert (Hg1 : good s1) by eauto.
  set (c' := MkCreateCalls _ _ _ _ _). pose proof (create_born c' sb s1 (or_intror Hs) Hg1 Hids) as Hb. rewrite Hs in Hb.
  destruct (on_repo (Create c' sb) s1) as [[t s2] a]. destruct Hb as [Hc Ha]. split; [|by destruct a]. cbn [app]. by split.
Qed.

Lemma Fork_locked_serves source name : serves (Fork_locked source name).
Proof.
  assert (H : serves (src <~ readSource source ;;
   check (wrongState src CodeSandboxNotRunning) (bool_decide (SState src = StateRunning)) ;;;
   check EForkRefused (fork_check src) ;;;
   now <~ read_host clock ;;
   copy <~ create_record (copied name now source src) ;;
   claimed source name src (ID copy))); [|exact H].
  unfold readSource. apply serves_bind; [ssteps|intros src]. do 3 sstep.
  eapply path_bind; [eapply path_post; [by apply create_record_path|]|].
  { intros [copy|e] s H; [exact H|done]. }
  intros copy s (Hg & Hv & Hat & Hu). pose proof (claimed_path source name src (ID copy) s (conj Hat Hu)) as H.
  destruct (claimed source name src (ID copy) s) as [[t s'] a]. destruct H as [H _]. split; [by eapply chain_any|done].
Qed.

End Birth.
