(* ===== verification/PortClaims.v ===== *)
(** * One host port, one sandbox

    [services/sandbox/ports.go] and the ports of a create: the verbs that write forwards on a record, each under the lock
    that makes its check one step with its write, never leave two sandboxes with one host port, at any state on the way. *)

From S2P Require Import Prelude Ops Paths GoStrings Netip Models SandboxFields Restart Store Secret SandboxID Repository ExecTable Host Moves.
From S2P Require Import Lab Lifecycle Reconcile Processes Checkpoint Ports Creation Removal Birth.
Local Open Scope Z_scope.
Local Open Scope op_scope.

(** ** The list of one record *)

Lemma byHostPort_elem p l : p ∈ byHostPort l ↔ p ∈ l.
Proof. unfold byHostPort. by rewrite merge_sort_Permutation. Qed.

Lemma upsertPort_elem p l spec : p ∈ upsertPort l spec ↔ p = spec ∨ p ∈ l ∧ HostPort p ≠ HostPort spec.
Proof. unfold upsertPort, without_port. rewrite byHostPort_elem, elem_of_app, list_elem_of_filter, list_elem_of_singleton. tauto. Qed.

(** ** All the records *)

Definition apart (r : repo) : Prop :=
  well_formed r ∧
  ∀ i j a b port, ValidID i = Ok tt → ValidID j = Ok tt → record r i = Some a → record r j = Some b →
    forwards port a = true → forwards port b = true → i = j.

(** No record but that of [id] forwards one of the ports. *)
Definition free_for (id : string) (ports : list PortForward) (r : repo) : Prop :=
  ∀ i sb p, ValidID i = Ok tt → i ≠ id → record r i = Some sb → p ∈ ports → forwards (HostPort p) sb = false.

Lemma forwards_true port sb : forwards port sb = true ↔ ∃ p, p ∈ Ports sb ∧ HostPort p = port.
Proof. unfold forwards. rewrite existsb_exists. setoid_rewrite list_elem_of_In. setoid_rewrite Z.eqb_eq. done. Qed.

Lemma apart_free r id sb : apart r → ValidID id = Ok tt → record r id = Some sb → free_for id (Ports sb) r.
Proof.
  intros [_ Ha] Hv Hr i sb' p Hi Hne Hr' Hp. apply not_true_is_false. intros Hf. apply Hne.
  apply (Ha i id sb' sb (HostPort p)); try done. apply forwards_true. eauto.
Qed.

Lemma listed r i sb : ValidID i = Ok tt → record r i = Some sb → sb ∈ ListReadable r.
Proof.
  intros Hv Hr. unfold ListReadable, Repository.List. cbn [fst]. rewrite merge_sort_Permutation, readable_visible.
  apply list_elem_of_omap. exists i. split; [|unfold visible; by rewrite Hv]. unfold sorted_names. rewrite merge_sort_Permutation.
  apply elem_of_elements, elem_of_dom. unfold record in Hr. destruct (dirs r !! i); [eauto|done].
Qed.

Lemma unclaimed_free r id spec :
  well_formed r → port_unclaimed (ListReadable r) id (HostPort spec) = Ok tt → free_for id [spec] r.
Proof.
  intros Hw Hu i sb p Hi Hne Hr ->%list_elem_of_singleton. unfold port_unclaimed in Hu.
  destruct (first_match _ _) eqn:E; [done|]. apply first_match_None in E. rewrite Forall_forall in E.
  specialize (E sb (listed r i sb Hi Hr)). destruct (Hw i sb Hi Hr) as [Hid _]. apply String.eqb_neq in Hne. by rewrite Hid, Hne in E.
Qed.

Lemma free_app id l l' r : free_for id l r → free_for id l' r → free_for id (l ++ l') r.
Proof. intros H H' i sb p ? ? ? [|]%elem_of_app; eauto. Qed.

Lemma free_sub id l l' r : l' ⊆ l → free_for id l r → free_for id l' r.
Proof. intros Hl H i sb p ? ? ? Hp. eapply H; eauto. Qed.

(** ** A write of free ports keeps the records apart *)

Lemma free_other id l r r' : others_same id r r' → free_for id l r → free_for id l r'.
Proof. intros Ho H i sb p Hi Hne Hr. rewrite Ho in Hr by done. by eapply H. Qed.

Lemma apart_one id r r' :
  apart r → well_formed r' → others_same id r r' → (∀ sb, record r' id = Some sb → free_for id (Ports sb) r) → apart r'.
Proof.
  intros [Hw Ha] Hw' Ho Hf. split; [done|]. intros i j a b port Hi Hj Hri Hrj Hfi Hfj.
  destruct (decide (i = id)) as [->|Hni], (decide (j = id)) as [->|Hnj]; [done|..].
  - apply forwards_true in Hfi as (p & Hp & <-). rewrite Ho in Hrj by done. by rewrite (Hf a Hri j b p Hj Hnj Hrj Hp) in Hfj.
  - apply forwards_true in Hfj as (p & Hp & <-). rewrite Ho in Hri by done. by rewrite (Hf b Hrj i a p Hi Hni Hri Hp) in Hfi.
  - rewrite Ho in Hri, Hrj by done. by eapply Ha.
Qed.

(** ** A create *)

Lemma apart_same r r' : (∀ i, record r' i = record r i) → apart r → apart r'.
Proof.
  intros H [Hw Ha]. split.
  - intros i sb Hv Hr. rewrite H in Hr. by apply Hw.
  - intros i j a b port ? ? Hi Hj. rewrite H in Hi, Hj. by apply Ha.
Qed.

Lemma apart_gone id r r' : others_same id r r' → record r' id = None → apart r → apart r'.
Proof. intros Ho Hn Ha. apply (apart_one id r); [done|apply (gone_moves id r r' Ho Hn), Ha|done|]. intros sb Hr. congruence. Qed.

Lemma RemoveAll_apart f id P : triple apart P (RemoveAll f id) (λ _ _, True).
Proof.
  destruct f as [|[]]; cbn [RemoveAll]; [|by apply triple_fail|].
  - apply triple_touch. intros r Ha _. split; [|done]. apply (apart_gone id r); [|rewrite record_delete; by rewrite decide_True|done].
    intros i _ Hne. rewrite record_delete. by rewrite decide_False by congruence.
  - eapply triple_bind with (M := λ _ _, True); [|intros _; by apply triple_fail]. apply triple_touch. intros r Ha _. split; [|done].
    apply (apart_gone id r); [| |done].
    + intros i _ Hne. unfold record, set_dirs. cbn [dirs]. by rewrite lookup_alter_ne by congruence.
    + unfold record, set_dirs. cbn [dirs]. rewrite lookup_alter_eq. by destruct (dirs r !! id).
Qed.

Lemma give_back_apart {X} c id (m : op repo repo_error X) P : triple apart P m (λ _ _, True) → triple apart P (give_back c id m) (λ _ _, True).
Proof.
  intros Hm r Ha Hp. specialize (Hm r Ha Hp). unfold give_back. destruct (m r) as [[t r1] [x|e]]; [done|]. destruct Hm as (Ht & Ha1 & _).
  pose proof (RemoveAll_apart (cc_remove c) id (λ _, True) r1 Ha1 Logic.I) as H. destruct (RemoveAll _ _ r1) as [[t2 r2] y].
  destruct H as (Ht2 & Ha2 & _). split; [|by split]. rewrite !Forall_app. split; [done|]. split; [done|]. by apply Forall_singleton.
Qed.

Lemma write_apart w sb :
  SState sb = StatePending ∨ SState sb = StateCreated →
  triple apart (λ r, free_for (ID sb) (Ports sb) r ∧ record r (ID sb) = None) (write w sb) (λ _ _, True).
Proof.
  intros Hs. unfold write. eapply triple_deferred with (Q' := λ _ _, True); [|done].
  eapply triple_bind with (M := λ _ r, free_for (ID sb) (Ports sb) r ∧ record r (ID sb) = None); [by apply triple_ask|].
  intros has. destruct (has && wrote w); [|by apply triple_fail].
  eapply triple_bind with (M := λ _ _, True); [|intros _; apply triple_check; intros; by destruct (write_ok w)].
  apply triple_touch. intros r Ha [Hf Hn]. split; [|done]. change (apart (landed sb r)). pose proof (born_landed sb r Hn Hs) as Hm.
  apply (apart_one (ID sb) r); [done|apply Hm, Ha|apply Hm|]. intros x. rewrite record_landed, decide_True by done. intros [= <-].
  exact Hf.
Qed.

Lemma claim_apart f name id P : triple apart P (claim f name id) (λ _ _, True).
Proof.
  unfold claim. destruct (String.eqb name ""); [by apply triple_ret|].
  do 2 (eapply triple_bind with (M := λ _ _, True); [apply triple_ask; intros; first [done|by case_match]|intros ?]).
  case_match; [by apply triple_fail|]. destruct f; [|by apply triple_fail|].
  - by apply triple_touch.
  - eapply triple_bind with (M := λ _ _, True); [by apply triple_touch|intros _]. by apply triple_fail.
Qed.

Lemma claimIn_apart c (P : repo → Prop) :
  (∀ r r', (∀ i, record r' i = record r i) → P r → P r') →
  triple apart P (claimIn c) (λ a r, match a with Ok id => P r ∧ record r id = None | Err _ => True end).
Proof.
  intros HP. unfold claimIn. generalize idAttempts (new_ids c). intros n ids. revert n.
  induction ids as [|[id|] ids IH]; intros [|n]; cbn [claim_go]; try by apply triple_fail.
  eapply triple_bind with (M := λ b r, P r ∧ (b = false → dirs r !! id = None)).
  { apply triple_ask. intros r _ Hr. split; [done|]. intros Hb%bool_decide_eq_false. by apply eq_None_not_Some. }
  intros []; [eapply triple_weaken; [apply IH|tauto|done]|].
  eapply triple_bind with (M := λ _ r, P r ∧ dirs r !! id = None);
    [apply triple_check; intros r _ [? ?]; destruct (mkdir_ok c); auto|intros _].
  eapply triple_bind with (M := λ _ r, P r ∧ record r id = None).
  { apply triple_touch. intros r Ha [Hr Hd]. assert (Hn : record r id = None) by (unfold record; by rewrite Hd).
    assert (Hsame : ∀ i, record (set_dirs <[id := EntryDir None]> r) i = record r i).
    { intros i. rewrite record_insert. case_decide; [by subst|done]. }
    split; [by eapply apart_same|]. split; [by eapply HP|]. by rewrite Hsame. }
  intros _. eapply triple_bind with (M := λ _ r, P r ∧ record r id = None);
    [apply triple_check; intros r _ H; by destruct (parent_sync c)|intros _]. by apply triple_ret.
Qed.

Lemma Create_apart c sb :
  SState sb = StatePending → triple apart (free_for "" (Ports sb)) (Create c sb) (λ _ _, True).
Proof.
  intros Hs. unfold Create. eapply triple_bind with (M := λ _, free_for "" (Ports sb)); [apply triple_check; intros; by case_match|intros _].
  eapply triple_bind with (M := λ _, free_for "" (Ports sb)); [apply triple_check; intros; by case_match|intros _].
  eapply triple_bind; [apply (claimIn_apart _ (free_for "" (Ports sb)))|].
  { intros r r' H Hf i x p Hi Hne Hr. rewrite H in Hr. by eapply Hf. }
  intros id. destruct (negb _).
  { intros r Ha _. unfold refused. pose proof (RemoveAll_apart (cc_remove c) id (λ _, True) r Ha Logic.I) as H.
    destruct (RemoveAll _ _ r) as [[t r1] y]. naive_solver. }
  destruct (set_ID_other id sb) as (_ & Es & _ & _ & _ & Ei). assert (Ep : Ports (set_ID id sb) = Ports sb) by (by destruct sb).
  eapply triple_bind with (M := λ _ _, True).
  { eapply triple_weaken; [apply (give_back_apart c id), (write_apart (cc_write c) (set_ID id sb)); left; congruence|..|by intros []].
    rewrite Ei, Ep. intros r _ [Hf Hn]. split; [|done]. intros i x p Hi Hne. apply Hf; [done|]. by intros ->. }
  intros _. eapply triple_bind with (M := λ _ _, True); [|intros _; by apply triple_ret].
  eapply triple_weaken; [apply (give_back_apart c id), claim_apart|done|by intros []].
Qed.

Section Service.
Context `{Hst : Host}.

Definition apart_s (s : service) : Prop := apart (repo_of s).
Definition about (P : repo → Prop) (s : service) : Prop := P (repo_of s).

Lemma call_apart {X} (c : call X) (P : repo → Prop) : triple apart_s (about P) (do_call c) (λ _, about P).
Proof. intros s Ha Hp. unfold do_call. destruct (perform c (host s)) as [w x]. split_and!; [by apply Forall_singleton|done..]. Qed.

Lemma writePorts_apart id ports (P : repo → Prop) :
  (∀ r r', others_same id r r' → P r → P r') →
  triple apart_s (about (λ r, free_for id ports r ∧ P r)) (writePorts id ports) (λ _, about (λ r, free_for id ports r ∧ P r)).
Proof.
  intros HP. unfold writePorts, mutate, update. eapply triple_bind with (M := λ _, about (λ r, free_for id ports r ∧ P r)).
  { eapply triple_weaken; [apply call_apart|done|]. by intros []. }
  intros w s Ha Hp. unfold on_repo.
  destruct (Update_run w id (λ sb, Some (set_Ports ports sb)) (repo_of s)) as [[e ->]|(sb & sb' & Hv & Hr & [= <-] & Hid & Hs & Hrun)];
    [split; [constructor|split; [exact Ha|exact Hp]]|].
  destruct Hrun as [[e ->]| ->]; [split; [by apply Forall_singleton|split; [exact Ha|split; [exact (proj1 Hp)|by eapply HP; [|exact (proj2 Hp)]]]]|].
  assert (Hm : repo_moves id (repo_of s) (landed (set_Ports ports sb) (repo_of s))).
  { apply (landed_moves id sb); [done|done|done|done|]. left. by destruct sb. }
  assert (Hland : apart (landed (set_Ports ports sb) (repo_of s))).
  { apply (apart_one id (repo_of s)); [done|apply Hm, Ha|apply Hm|]. intros x. rewrite record_landed, decide_True by done.
    intros [= <-]. destruct sb. exact (proj1 Hp). }
  split; [apply Forall_cons; split; [|apply Forall_singleton]; exact Hland|]. split; [exact Hland|].
  destruct Hp as [Hf Hp]. split; [exact (free_other _ _ _ _ (rm_others _ _ _ Hm) Hf)|eapply HP; [exact (rm_others _ _ _ Hm)|exact Hp]].
Qed.

(** ** port add and port rm *)

Definition record_is (id : string) (sb : Sandbox) (r : repo) : Prop := ValidID id = Ok tt ∧ record r id = Some sb.

Lemma heldForPorts_apart id :
  triple apart_s (λ _, True) (heldForPorts id) (λ a s, match a with Ok sb => about (record_is id sb) s | Err _ => True end).
Proof.
  intros s Ha _. unfold heldForPorts, bind, getRecord, ask, FailedGuard. destruct (Get (repo_of s) id) as [sb|e] eqn:E; cbn [map_err].
  - apply Get_record in E. case_bool_decide; (split; [constructor|split; [exact Ha|done]]).
  - split; [constructor|split; [exact Ha|done]].
Qed.

Lemma refusedPort_apart {X} id was port e :
  triple apart_s (about (free_for id was)) (refusedPort id was port e : sop X) (λ _ _, True).
Proof.
  unfold refusedPort. eapply triple_bind with (M := λ _, about (free_for id was)).
  { eapply triple_weaken; [apply call_apart|done|]. by intros []. }
  intros closed. eapply triple_bind with (M := λ _, about (free_for id was)).
  { destruct (first_match _ _); [|by apply triple_ret]. eapply triple_weaken; [apply call_apart|done|]. by intros []. }
  intros restore. eapply triple_bind with (M := λ _ _, True).
  { intros s Ha Hp. pose proof (writePorts_apart id was (λ _, True) ltac:(done) s Ha (conj Hp Logic.I)) as H. unfold attempt.
    destruct (writePorts id was s) as [[t s'] a]. naive_solver. }
  intros written. destruct written, restore; by apply triple_fail.
Qed.

Lemma AddPort_apart id spec : triple apart_s (λ _, True) (AddPort_locked id spec) (λ _ _, True).
Proof.
  unfold AddPort_locked. eapply triple_bind; [apply heldForPorts_apart|]. intros sb.
  eapply triple_bind with (M := λ _, about (free_for id (Ports sb ++ [spec]))).
  { intros s Ha [Hv Hr]. cbn. split; [constructor|split; [exact Ha|]]. destruct (port_unclaimed _ _ _) as [[]|] eqn:E; [|done].
    apply free_app; [by eapply apart_free|]. apply unclaimed_free; [apply Ha|done]. }
  intros _. eapply triple_bind with (M := λ _, about (free_for id (Ports sb))).
  { eapply triple_weaken; [apply (writePorts_apart id _ (free_for id (Ports sb)))|..].
    - intros r r' Ho. by apply free_other.
    - intros s _ Hf. split; (eapply free_sub; [|exact Hf]).
      + intros p. rewrite upsertPort_elem. set_solver.
      + set_solver.
    - intros [[]|] s _ H; [apply H|done]. }
  intros _. eapply triple_bind with (M := λ _ _, True); [|intros _; by apply triple_ask].
  destruct (bool_decide _); [|by apply triple_ret].
  eapply triple_bind with (M := λ _, about (free_for id (Ports sb))); [eapply triple_weaken; [apply call_apart|done|by intros []]|].
  intros [x|e]; [by apply triple_ret|]. eapply triple_weaken; [apply refusedPort_apart|done|by intros []].
Qed.

Lemma RemovePort_apart id port : triple apart_s (λ _, True) (RemovePort_locked id port) (λ _ _, True).
Proof.
  unfold RemovePort_locked. eapply triple_bind; [apply heldForPorts_apart|]. intros sb. cbn zeta.
  destruct (_ =? _)%nat; [by apply triple_fail|]. eapply triple_bind with (M := λ _, about (λ _, True)).
  { eapply triple_weaken; [apply (writePorts_apart id _ (λ _, True)); done|..].
    - intros s Ha [Hv Hr]. split; [|done]. eapply free_sub; [|by eapply apart_free]. intros p. unfold without_port.
      rewrite list_elem_of_filter. tauto.
    - by intros []. }
  intros _. unfold try. eapply triple_bind with (M := λ _, about (λ _, True)); [eapply triple_weaken; [apply call_apart|done|by intros []]|].
  intros [|]; [by apply triple_ret|by apply triple_fail].
Qed.

(** ** Prepare *)

(** A step that leaves the records alone. *)
Definition aside {X} (m : sop X) : Prop := ∀ P, triple apart_s (about P) m (λ _, about P).

Lemma aside_bind {X Y} (m : sop X) (k : X → sop Y) : aside m → (∀ x, aside (k x)) → aside (bind m k).
Proof.
  intros Hm Hk P. eapply triple_bind with (M := λ _, about P); [eapply triple_weaken; [apply Hm|done|by intros []]|]. intros x. apply Hk.
Qed.
Lemma aside_call {X} (c : call X) : aside (do_call c). Proof. intros P. apply call_apart. Qed.
Lemma aside_ret {X} (x : X) : aside (ret x). Proof. intros P. by apply triple_ret. Qed.
Lemma aside_fail {X} e : aside (fail e : sop X). Proof. intros P. by apply triple_fail. Qed.
Lemma aside_ask {X} (f : service → result service_error X) : aside (ask f). Proof. intros P. by apply triple_ask. Qed.

Ltac astep :=
  lazymatch goal with
  | |- aside (bind _ _) => apply aside_bind; [|intros ?]
  | |- aside (do_call _) => apply aside_call
  | |- aside (ret _) => apply aside_ret
  | |- aside (fail _) => apply aside_fail
  | |- aside (ask _) => apply aside_ask
  | |- aside (check _ ?b) => destruct b; cbn [check]
  | |- aside (of_result ?r) => destruct r; cbn [of_result]
  | |- aside (match ?x with _ => _ end) => destruct x eqn:?
  | |- aside _ => progress unfold try, locked, seed, readSeed, proxyCA, requireVerb, getPolicy, grantSecrets, read_host
  end.

Lemma grantSecrets_aside env names : aside (grantSecrets_go env names).
Proof. revert env. induction names as [|n names IH]; intros env; cbn [grantSecrets_go]; repeat astep. apply IH. Qed.

Lemma aside_then {X Y} (m : sop X) (k : X → sop Y) (P : repo → Prop) :
  aside m → (∀ x, triple apart_s (about P) (k x) (λ _ _, True)) → triple apart_s (about P) (bind m k) (λ _ _, True).
Proof. intros Hm Hk. eapply triple_bind with (M := λ _, about P); [eapply triple_weaken; [apply Hm|done|by intros []]|exact Hk]. Qed.

(** Every port of the request is free once [claimPorts] has passed them all. *)
Lemma claimPorts_free ports done_ :
  triple apart_s (about (free_for "" done_)) (claimPorts ports)
    (λ a s, match a with Ok _ => about (free_for "" (done_ ++ ports)) s | Err _ => True end).
Proof.
  revert done_. induction ports as [|spec ports IH]; intros done_; cbn [claimPorts]; [rewrite (right_id_L [] (++)); by apply triple_ret|].
  eapply triple_bind with (M := λ _, about (free_for "" (done_ ++ [spec]))).
  { intros s Ha Hd. cbn. split; [constructor|split; [exact Ha|]]. destruct (port_unclaimed _ _ _) as [[]|] eqn:E; [|done].
    apply free_app; [done|]. apply unclaimed_free; [apply Ha|done]. }
  intros _. eapply triple_bind with (M := λ _, about (free_for "" (done_ ++ [spec]))); [eapply triple_weaken; [apply call_apart|done|by intros []]|].
  intros [x|e]; [|by apply triple_fail]. replace (done_ ++ spec :: ports) with ((done_ ++ [spec]) ++ ports) by (by rewrite <- (assoc_L (++))).
  apply IH.
Qed.

Lemma create_admitted_apart sb :
  SState sb = StatePending → triple apart_s (about (free_for "" (Ports sb))) (create_admitted sb) (λ _ _, True).
Proof.
  intros Hs. unfold create_admitted. apply aside_then; [apply aside_call|intros c]. cbn zeta. apply aside_then; [apply aside_ask|intros reserved].
  eapply triple_bind with (M := λ _, about (λ _, True)).
  { intros s Ha Hf. unfold attempt, on_repo. match goal with |- context [Create ?c sb] => pose proof (Create_apart c sb Hs (repo_of s) Ha Hf) as H end.
    destruct (Create _ sb (repo_of s)) as [[t r] a]. destruct H as (Ht & Hr & _). split; [|by split]. apply Forall_fmap. exact Ht. }
  intros [x|e]; [by apply triple_ret|]. destruct reserved; [|by apply triple_fail].
  apply aside_then; [apply aside_call|intros _]. by apply triple_fail.
Qed.

Lemma Prepare_apart req : triple apart_s (λ _, True) (Prepare req) (λ _ _, True).
Proof.
  assert (H : ∀ req snapshot, triple apart_s (about (λ _, True)) (prepare_seeded req snapshot) (λ _ _, True)).
  { clear req. intros req snapshot. unfold prepare_seeded. cbn zeta. do 6 (apply aside_then; [repeat astep|intros ?]).
    apply aside_then; [apply grantSecrets_aside|intros _]. do 2 (apply aside_then; [repeat astep|intros _]).
    eapply triple_bind with (M := λ _, about (free_for "" (CrPorts req))).
    { case_bool_decide as E; cbn [negb]; [rewrite E; apply triple_ret; intros s _ _ i sb p _ _ _ Hp; by inversion Hp|].
      eapply triple_bind with (M := λ _, about (free_for "" [])); [|intros _; apply (claimPorts_free (CrPorts req) [])].
      unfold requireVerb. apply triple_check. intros s _ _. case_match; [|done]. intros i sb p _ _ _ Hp. by inversion Hp. }
    intros _. apply aside_then; [apply aside_ask|intros now]. eapply triple_weaken; [by apply create_admitted_apart|..]; [|done].
    intros s _ Hf i sb p Hi Hne Hr Hp. eapply Hf; [done..|]. cbn [Ports pending_record] in Hp. by rewrite byHostPort_elem in Hp. }
  eapply triple_weaken with (P' := about (λ _, True)); [|done|done]. unfold Prepare. apply aside_then; [apply aside_ask|intros _].
  destruct (negb _); [|apply H]. apply aside_then; [repeat astep|]. intros x. apply H.
Qed.

(** C26: One host port belongs to one sandbox. When no two records forward the same host port, no port add, port rm or
    create brings that about: at no state on their way, whichever call fails, is there a host port that two sandboxes
    forward, whatever states the sandboxes are in. *)
Theorem ports_stay_apart id spec port req s :
  apart (repo_of s) →
  Forall apart_s (states (AddPort_locked id spec) s) ∧ Forall apart_s (states (RemovePort_locked id port) s) ∧
  Forall apart_s (states (Prepare req) s).
Proof.
  intros Ha. split_and!.
  - exact (proj1 (triple_states _ _ _ _ s (AddPort_apart id spec) Ha Logic.I)).
  - exact (proj1 (triple_states _ _ _ _ s (RemovePort_apart id port) Ha Logic.I)).
  - exact (proj1 (triple_states _ _ _ _ s (Prepare_apart req) Ha Logic.I)).
Qed.

End Service.

(** ** On the bench *)

Definition port_web : Sandbox := set_Ports [MkPortForward 8080 80 false] (set_ID "amber-badger-ff0a" (set_SState StateStopped web)).
Definition port_bench : service := MkService (landed port_web new_repo) empty_bench new_table.

Lemma port_bench_apart : apart (repo_of port_bench).
Proof.
  assert (H : ∀ i sb, record (repo_of port_bench) i = Some sb → i = "amber-badger-ff0a" ∧ sb = json_sandbox port_web).
  { intros i sb. unfold port_bench. cbn [repo_of]. rewrite record_landed. case_decide as E; [|done]. intros [= <-]. split; [by rewrite <- E|done]. }
  split.
  - intros i sb Hv Hr. destruct (H i sb Hr) as [-> ->]. by vm_compute.
  - intros i j a b port _ _ Hi Hj _ _. destruct (H i a Hi), (H j b Hj). congruence.
Qed.

(** The port another sandbox asks for is refused. *)
Lemma ports_stay_apart_witness :
  (Forall apart_s (states (AddPort_locked "amber-badger-ff0a" (MkPortForward 9090 90 false)) port_bench) ∧
  Forall apart_s (states (RemovePort_locked "amber-badger-ff0a" 8080) port_bench) ∧
  Forall apart_s (states (Prepare (MkCreateRequest "alpine" "" "web" [] "" "" [] "" (MkResourceRequest None 1 0 None) [MkPortForward 8080 80 false])) port_bench)).
Proof.
  exact (ports_stay_apart "amber-badger-ff0a" (MkPortForward 9090 90 false) 8080
    (MkCreateRequest "alpine" "" "web" [] "" "" [] "" (MkResourceRequest None 1 0 None) [MkPortForward 8080 80 false]) port_bench port_bench_apart).
Defined.

Lemma port_refused :
  (Prepare (MkCreateRequest "alpine" "" "web2" [] "" "" [] "" (MkResourceRequest None 1 0 None) [MkPortForward 8080 80 false]) port_bench).2
  = Err (EHeld (nameOf "amber-badger-ff0a" port_web)).
Proof. vm_compute. reflexivity. Qed.
