(* ===== verification/Typed.v ===== *)
(** * What a create accepts

    [validate] and [Prepare] of [services/sandbox/service.go]: the record a create begins with is well typed, whatever the
    request asked for. *)

From S2P Require Import Prelude Ops Paths GoStrings Netip Models SandboxFields Restart Store Secret SandboxID Repository ExecTable Host Moves.
From S2P Require Import Lab Lifecycle Reconcile Processes Checkpoint Ports Creation PortClaims.
Local Open Scope Z_scope.
Local Open Scope op_scope.

(** The disk comes from the snapshot the sandbox begins from: the request names a snapshot and no disk of its own, and
    the host answered a snapshot of that disk under the id the record keeps. *)
Definition inherited `{Host} (req : CreateRequest) (snapshot : string) (mib : Z) : Prop :=
  CrSnapshot req ≠ "" ∧ RqDiskMiB (CrResources req) = 0 ∧
  ∃ w snap, (perform (SnapGet snapshot) w).2 = Ok snap ∧ SnDiskMiB snap = mib.

Record well_typed `{Host} (req : CreateRequest) (sb : Sandbox) : Prop := {
  wt_state : SState sb = StatePending;
  wt_ports : StronglySorted (λ a b, HostPort a < HostPort b) (Ports sb);
  wt_ports_set : Forall (λ p, HostPort p ≠ 0 ∧ GuestPort p ≠ 0) (Ports sb);
  wt_secrets : NoDup (Secrets sb);
  wt_secrets_named : Forall (λ n, is_ok (Secret.ValidName n) = true ∧ n ∉ TrustEnv) (Secrets sb);
  wt_disk : 0 < DiskMiB (SResources sb);
  wt_disk_formats : DiskMiB (SResources sb) * 2 ^ 20 ≤ MaxDiskSize ∨ inherited req (Snapshot sb) (DiskMiB (SResources sb));
  wt_swap : 0 ≤ SwapMiB (SResources sb) < DiskMiB (SResources sb);
  wt_cpus : 0 ≤ VCPUs (SResources sb) ∧ (0 < host_cpus → VCPUs (SResources sb) ≤ host_cpus);
  wt_memory : 0 < host_memory_mib → MemoryMiB (SResources sb) ≤ host_memory_mib
}.

(** ** Ports *)

Lemma valid_ports_go_ok seen ports :
  valid_ports_go seen ports = Ok tt →
  NoDup (HostPort <$> ports) ∧ Forall (λ p, HostPort p ∉ seen ∧ HostPort p ≠ 0 ∧ GuestPort p ≠ 0) ports.
Proof.
  revert seen. induction ports as [|p ports IH]; intros seen; cbn [valid_ports_go]; [by repeat constructor|].
  unfold validPort. destruct (Z.eqb_spec (HostPort p) 0) as [|Hh]; [done|]. destruct (Z.eqb_spec (GuestPort p) 0) as [|Hg]; [done|].
  case_bool_decide as Hin; [done|]. intros [Hnd Hf]%IH. rewrite fmap_cons. split.
  - constructor; [|done]. intros (q & Hq & Hin2)%list_elem_of_fmap. rewrite Forall_forall in Hf. destruct (Hf q Hin2) as [Hs _]. rewrite <- Hq in Hs. set_solver.
  - constructor; [done|]. eapply Forall_impl; [exact Hf|]. intros q (Hs & ? & ?). split_and!; [set_solver|done|done].
Qed.

Lemma strictly l : NoDup (HostPort <$> l) → StronglySorted port_le l → StronglySorted (λ a b, HostPort a < HostPort b) l.
Proof.
  intros Hnd Hs. induction Hs as [|x l Hs IH Hx]; [constructor|]. rewrite fmap_cons in Hnd. apply NoDup_cons in Hnd as [Hni Hnd].
  constructor; [by apply IH|]. rewrite Forall_forall in Hx |- *. intros y Hy. specialize (Hx y Hy). unfold port_le in Hx.
  assert (HostPort x ≠ HostPort y); [|lia]. intros E. apply Hni. rewrite E. by apply list_elem_of_fmap_2.
Qed.

Lemma byHostPort_typed ports :
  validPorts ports = Ok tt →
  StronglySorted (λ a b, HostPort a < HostPort b) (byHostPort ports) ∧ Forall (λ p, HostPort p ≠ 0 ∧ GuestPort p ≠ 0) (byHostPort ports).
Proof.
  intros [Hnd Hf]%valid_ports_go_ok. unfold byHostPort. split.
  - apply strictly; [by rewrite merge_sort_Permutation|]. apply StronglySorted_merge_sort; apply _.
  - rewrite merge_sort_Permutation. eapply Forall_impl; [exact Hf|]. intros p (_ & ? & ?). done.
Qed.

(** ** Secrets *)

Lemma valid_secrets_ok before names :
  valid_secrets before names = Ok tt →
  NoDup names ∧ Forall (λ n, n ∉ before ∧ is_ok (Secret.ValidName n) = true ∧ n ∉ TrustEnv) names.
Proof.
  revert before. induction names as [|n names IH]; intros before; cbn [valid_secrets]; [by repeat constructor|].
  destruct (is_ok (Secret.ValidName n)) eqn:Ev; cbn [negb]; [|done]. destruct (contains before n) eqn:Eb; [done|].
  destruct (contains TrustEnv n) eqn:Et; [done|]. intros [Hnd Hf]%IH.
  assert (Hn : ∀ l : list string, contains l n = false → n ∉ l) by (intros l E Hl; apply contains_elem_of in Hl; congruence).
  split.
  - constructor; [|done]. intros Hin. rewrite Forall_forall in Hf. destruct (Hf n Hin) as [H _]. set_solver.
  - constructor; [by split_and!; [apply Hn|done|apply Hn]|]. eapply Forall_impl; [exact Hf|]. intros m (? & ? & ?). split_and!; [set_solver|done|done].
Qed.

(** ** The request *)

(** What a request, as asked or as a snapshot filled it in, is known to hold; [from] is the disk a snapshot gives. *)
Record accepted (from : Z → Prop) (req : CreateRequest) : Prop := {
  ac_cpus : 0 ≤ RqVCPUs (CrResources req);
  ac_disk : 0 ≤ RqDiskMiB (CrResources req) ≤ MaxDiskMiB ∨ from (RqDiskMiB (CrResources req));
  ac_swap : 0 ≤ SwapMiB (bounds (CrResources req)) ≤ MaxDiskMiB;
  ac_ports : validPorts (CrPorts req) = Ok tt;
  ac_secrets : valid_secrets [] (CrSecrets req) = Ok tt
}.

Lemma guard_ok b e k : guard b e k = Ok tt → b = false ∧ k = Ok tt.
Proof. by destruct b. Qed.

Lemma validate_ok req : validate req = Ok tt → accepted (λ _, False) req.
Proof.
  unfold validate. cbn zeta. intros [_ [_ H]%guard_ok]%guard_ok. destruct (if String.eqb (CrName req) "" then _ else _) as [u|e]; [|done].
  apply guard_ok in H as [H1 [H2 [H3 [H4 [H5 [H6 [H7 H]%guard_ok]%guard_ok]%guard_ok]%guard_ok]%guard_ok]%guard_ok].
  destruct (validPorts (CrPorts req)) as [[]|] eqn:Ep; [|done]. apply guard_ok in H as [_ [_ H]%guard_ok].
  destruct (first_err _ _) as [u2|e]; [|done]. split; [lia|left; lia|lia|done|done].
Qed.

Section Typed.
Context `{Hst : Host}.

Lemma resources_bounded from req r :
  accepted from req → host_bounds (resources (CrResources req)) = Ok r →
  (0 < DiskMiB r ∧ (DiskMiB r * 2 ^ 20 ≤ MaxDiskSize ∨ from (DiskMiB r))) ∧ 0 ≤ SwapMiB r < DiskMiB r ∧
  (0 ≤ VCPUs r ∧ (0 < host_cpus → VCPUs r ≤ host_cpus)) ∧ (0 < host_memory_mib → MemoryMiB r ≤ host_memory_mib).
Proof.
  intros [Hc Hd Hs _ _]. unfold host_bounds. set (res := resources (CrResources req)).
  assert (Ed : DiskMiB res = RqDiskMiB (CrResources req)) by done. assert (Ec : VCPUs res = RqVCPUs (CrResources req)) by done.
  assert (Hsw : 0 ≤ SwapMiB res).
  { unfold res, resources, bounds in *. cbn [SwapMiB] in *. destruct (RqSwapMiB (CrResources req)); cbn in *; [lia|]. destruct (CSwap capabilities); [done|lia]. }
  clearbody res. destruct ((0 <? host_memory_mib) && (host_memory_mib <? MemoryMiB res)) eqn:Em; [done|].
  destruct ((0 <? host_cpus) && (host_cpus <? VCPUs res)) eqn:Eh; [done|]. cbn [DiskMiB SwapMiB].
  destruct (DiskBound res <=? SwapMiB res) eqn:Ew; [done|]. intros [= <-]. cbn [DiskMiB SwapMiB VCPUs MemoryMiB].
  assert (Hm : MaxDiskMiB * 2 ^ 20 ≤ MaxDiskSize) by (vm_compute; discriminate).
  assert (Hb : 0 < DiskBound res ∧ (DiskBound res ≤ MaxDiskMiB ∨ from (DiskBound res))).
  { unfold DiskBound. destruct (DiskMiB res <=? 0) eqn:E; [split; [done|left; by vm_compute]|]. rewrite <- Ed in Hd. split; [lia|]. destruct Hd; [left; lia|by right]. }
  destruct Hb as [Hb0 Hb]. split_and!; try lia. destruct Hb; [left; lia|by right].
Qed.

Lemma Create_answers_it c sb P : ends P (Create c sb) (on_ok (λ sb' _, ∃ id, sb' = set_ID id sb)).
Proof.
  do 3 (apply ends_after; intros ?). destruct (negb _).
  - intros r _ x. unfold refused. destruct (RemoveAll _ _ r) as [[t r1] y]. by intros [=].
  - do 2 (apply ends_after; intros ?). apply ends_ret. eauto.
Qed.

Lemma create_admitted_answers sb P : ends P (create_admitted sb) (on_ok (λ sb' _, ∃ id, sb' = set_ID id sb)).
Proof.
  apply ends_after. intros calls. apply ends_after. intros reserved. eapply ends_bind with (M := λ a _, ∀ x, a = Ok x → ∃ id, x = set_ID id sb); [|done|].
  { intros s _ a E x ->. unfold attempt, on_repo in E. match type of E with context [Create ?c sb] => pose proof (Create_answers_it c sb (λ _, True) (repo_of s) Logic.I x) as H end.
    destruct (Create _ sb (repo_of s)) as [[t r] b]. cbn in *. destruct b; [|discriminate E]. injection E as ->. by apply H. }
  intros [x|e]; [intros s H y [= <-]; by apply H|]. destruct reserved; [|apply ends_fail].
  eapply ends_weaken with (P' := λ _, True); [|done|done]. apply ends_after. intros _. apply ends_fail.
Qed.

(** Answers that are settled before the operation runs. *)
Lemma ends_ask {X Y} (f : service → result service_error X) (k : X → sop Y) F :
  (∀ x s, f s = Ok x → ends (λ _, True) (k x) (on_ok F)) → ends (λ _, True) (bind (ask f) k) (on_ok F).
Proof.
  intros H s _ y. unfold bind, ask. destruct (f s) as [x|e] eqn:E; [|by intros [=]]. specialize (H x s E s Logic.I y).
  by destruct (k x s) as [[t s'] b].
Qed.

Lemma typed_pending asked req ref snapshot r now id :
  accepted (inherited asked snapshot) req → host_bounds (resources (CrResources req)) = Ok r →
  well_typed asked (set_ID id (pending_record req ref snapshot r now)).
Proof.
  intros Ha Hr. destruct (resources_bounded _ req r Ha Hr) as ([Hd Hf'] & Hs & Hc & Hm). destruct Ha as [_ _ _ Hp Hsec].
  apply byHostPort_typed in Hp as [Hp1 Hp2]. apply valid_secrets_ok in Hsec as [Hn Hf].
  split; cbn; try done. eapply Forall_impl; [exact Hf|]. intros n (_ & ? & ?). done.
Qed.

Lemma prepare_seeded_typed asked req snapshot :
  accepted (inherited asked snapshot) req → ends (λ _, True) (prepare_seeded req snapshot) (on_ok (λ sb _, well_typed asked sb)).
Proof.
  intros Ha. unfold prepare_seeded. cbn zeta. do 3 (apply ends_after; intros ?). apply ends_ask. intros r s Hr.
  do 6 (apply ends_after; intros ?). apply ends_after. intros now.
  eapply ends_weaken; [apply (create_admitted_answers _ (λ _, True))|done|]. intros x s' H sb E. destruct (H sb E) as [id ->]. by apply typed_pending.
Qed.

Lemma accepted_weaken (P Q : Z → Prop) req : (∀ d, P d → Q d) → accepted P req → accepted Q req.
Proof. intros H [? Hd ? ? ?]. split; try done. destruct Hd; [by left|right; by apply H]. Qed.

Lemma seed_accepted ref req :
  CrSnapshot req ≠ "" → accepted (λ _, False) req →
  ends (λ _, True) (seed ref req) (on_ok (λ x _, accepted (inherited req (seed_id x)) (seed_req x))).
Proof.
  intros Hsn Ha. unfold seed, locked. do 2 (apply ends_after; intros ?). destruct a0; [|apply ends_fail]. unfold readSeed.
  eapply ends_bind with (M := λ snap _, ∃ w, (perform (SnapGet a) w).2 = Ok snap); [|done|].
  { intros s _ snap E. exists (host s). unfold try, bind, do_call in E. destruct (perform (SnapGet a) (host s)) as [w [x|e]]; [|done].
    by injection E as ->. }
  intros snap. intros s Hs. revert s Hs. enough (H : (∃ w, (perform (SnapGet a) w).2 = Ok snap) → ends (λ _, True)
    (check (ERequest FSnapshotProvider) (String.eqb (SnProvider snap) provider_name) ;;;
     found <~ try (ILookup (SnImage snap)) ;;
     match found with
     | None => fail (ERequest FSnapshotImageGone)
     | Some img =>
         check (ERequest FSnapshotImageMoved) (String.eqb (IDigest img) (SnDigest snap)) ;;;
         res <~ ask (λ _, seeded_resources snap (CrResources req)) ;;
         files <~ try (SnapFiles a) ;;
         ret (MkSeeded (with_source (SnImage snap) res req) a img files)
     end) (on_ok (λ x _, accepted (inherited req (seed_id x)) (seed_req x)))) by (intros s Hs; by apply H).
  intros [w Hw]. do 2 (apply ends_after; intros ?). destruct a1; [|apply ends_fail]. apply ends_after. intros _. apply ends_ask. intros res s Hr.
  apply ends_after. intros files. apply ends_ret. intros _ _. destruct Ha as [Hc Hd Hsw Hp Hse].
  unfold seeded_resources in Hr. destruct (admits_disk && _); [done|]. destruct (negb admits_disk && _ && _); [done|]. injection Hr as <-.
  split; cbn in *; try done. destruct (Z.eqb_spec (RqDiskMiB (CrResources req)) 0); [right; split_and!; eauto|left; lia].
Qed.

(** C36: The record a create begins with is well typed, whatever was asked for and whatever the host holds. When
    [Prepare] answers a sandbox it is pending; its forwards are in strict order of host port, none of them port zero;
    its secrets are named once each and name no variable the proxy's trust uses; its disk is positive, and its bytes fit
    the largest filesystem shard formats or it is the disk of the snapshot the create named, in a request that asks for
    none of its own; its swap leaves room on that disk; and neither its processors nor its memory pass the host's. *)
Theorem Prepare_typed req s :
  let '(_, _, a) := Prepare req s in ∀ sb, a = Ok sb → well_typed req sb.
Proof.
  assert (H : ends (λ _, True) (Prepare req) (on_ok (λ sb _, well_typed req sb))).
  { unfold Prepare. apply ends_ask. intros [] s0 Hv%validate_ok. destruct (String.eqb_spec (CrSnapshot req) "") as [|Hsn]; cbn [negb].
    - apply prepare_seeded_typed. by apply (accepted_weaken (λ _, False)).
    - eapply ends_bind; [by apply seed_accepted|done|]. intros x s1 Hx. by apply prepare_seeded_typed. }
  specialize (H s Logic.I). destruct (Prepare req s) as [[t s'] a]. exact H.
Qed.

End Typed.

Lemma Prepare_typed_witness :
  let req := MkCreateRequest "alpine" "" "web" ["A=1"] "" "" ["TOKEN"] "p" (MkResourceRequest None 1 0 None) [MkPortForward 8080 80 false] in
  is_ok (Prepare req (MkService (H := lab) new_repo empty_bench new_table)).2 = true ∧
  let '(_, _, a) := Prepare req (MkService (H := lab) new_repo empty_bench new_table) in ∀ sb, a = Ok sb → well_typed req sb.
Proof. split; [vm_compute; reflexivity|]. apply Prepare_typed. Defined.
