(* ===== verification/Outcomes.v ===== *)
(** * What a verb that answers has done

    The outcomes of the lifecycle verbs: the state each leaves its sandbox in when it succeeds, what a removal has
    freed, and what a refused create gives back. *)

From S2P Require Import Prelude Ops Paths GoStrings Netip Models SandboxFields Restart Store Secret SandboxID Repository ExecTable Host Moves.
From S2P Require Import Lab Lifecycle Reconcile Processes Checkpoint Ports Creation Grants Verbs Removal Service Birth.
Local Open Scope Z_scope.
Local Open Scope op_scope.

Section Outcomes.
Context `{Hst : Host} {Hld : Holdings}.

(** The answer is the record, in the state the verb brings about. *)
Definition now_in (id : string) (t : State) (sb : Sandbox) (s : service) : Prop :=
  SState sb = t ∧ record (repo_of s) id = Some sb.

Lemma mutate_lands id f t P : (∀ sb, SState (f sb) = t) → ends P (mutate id f) (on_ok (λ _, at_ id [t])).
Proof.
  intros Hf s _ []. unfold mutate, update, bind, do_call. destruct (perform RWrite (host s)) as [w o]. cbn [on_repo repo_of set_host].
  unfold on_repo. cbn [repo_of set_host].
  destruct (Update_run o id (λ sb, Some (f sb)) (repo_of s)) as [[e ->]|(sb & sb' & Hv & Hr & [= <-] & Hid & Hs & [[e ->]| ->])];
    [by intros [=]..|]. cbn. intros _. exists (json_sandbox (f sb)). cbn [repo_of set_repo].
  change (record (bump (landed (f sb) (repo_of s))) id) with (record (landed (f sb) (repo_of s)) id).
  rewrite record_landed, decide_True by done. split; [done|]. cbn [SState json_sandbox].
  rewrite json_state_valid, Hf by done. set_solver.
Qed.

Lemma ends_keep {X Y} id A (m : sop X) (k : X → sop Y) F :
  keeps id A m A → (∀ x, ends (at_ id A) (k x) (on_ok F)) → ends (at_ id A) (bind m k) (on_ok F).
Proof.
  intros Hm Hk. eapply ends_bind with (M := λ _, at_ id A); [|done|exact Hk].
  apply path_ends in Hm. eapply ends_weaken; [exact Hm|done|]. intros a s H x _. exact H.
Qed.

Lemma record_now id t : ends (at_ id [t]) (record_ id) (on_ok (now_in id t)).
Proof.
  intros s (sb & Hr & Hs%list_elem_of_singleton) x. unfold record_, getRecord, ask. cbn.
  destruct (Get (repo_of s) id) as [y|e] eqn:E; [|by intros [=]]. intros [= <-]. apply Get_record in E as [_ E].
  rewrite Hr in E. by injection E as <-.
Qed.

Lemma at_now id t sb s : record (repo_of s) id = Some sb → SState sb = t → at_ id [t] s.
Proof. intros H <-. exists sb. split; [done|set_solver]. Qed.

(** ** Steps that keep the state, after the one that brings it about *)

Lemma unstarted_same id before p e A : keeps id A (unstarted id before p e) A.
Proof. unfold unstarted, after_refusal. destruct e; kstep; destruct x; ksteps. Qed.

Lemma startProcess_same id before procs p A : keeps id A (startProcess id before procs p) A.
Proof. unfold startProcess. do 4 kstep. kstep; [ksteps|apply unstarted_same]. Qed.

Lemma launch_same id by_ skip A : keeps id A (launch id by_ skip) A.
Proof.
  unfold launch. kstep. generalize (Processes x), (@nil service_error). intros procs. induction procs as [|p procs IH]; intros failures;
    cbn [launch_go]; [ksteps|]. destruct (_ || _); [apply IH|]. kstep. destruct x0 as [rec|e]; [|ksteps].
  eapply (keeps_bind _ A _ _ A); [apply keeps_attempt, startProcess_same|sub|intros a]. apply IH.
Qed.

Lemma always_err {X} (m : sop X) F : (∀ s, ∃ e, (m s).2 = Err e) → ends (λ _, True) m (on_ok F).
Proof. intros H s _ x E. destruct (H s) as [e He]. congruence. Qed.

Lemma joined_err {X} e (m : sop unit) F : ends (λ _, True) (joined e m : sop X) (on_ok F).
Proof. apply always_err. intros s. unfold joined. destruct (m s) as [[t s'] a]. simpl. eauto. Qed.

Lemma unwinding_err {X} e steps F : ends (λ _, True) (unwinding e steps : sop X) (on_ok F).
Proof. apply always_err. intros s. unfold unwinding. destruct (Unwind steps s) as [[t s'] a]. simpl. eauto. Qed.

(** ** The verbs *)

Lemma RecordRunning_lands id resumed : ends (λ _, True) (RecordRunning id resumed) (on_ok (λ _, at_ id [StateRunning])).
Proof.
  do 2 (apply ends_after; intros). apply mutate_lands. intros sb. unfold ranAgain. by destruct sb, resumed; simpl; repeat case_match.
Qed.

Lemma start_lands id : ends (λ _, True) (start id) (on_ok (λ _, at_ id [StateRunning])).
Proof.
  assert (Hw : ends (λ _, True) (startWithin id) (on_ok (λ _, at_ id [StateRunning]))).
  { apply ends_after. intros net. apply ends_after. intros [|e]; [apply RecordRunning_lands|]. apply ends_after. intros [|]; [|apply ends_fail].
    apply joined_err. }
  intros s _ []. unfold start, bind, attempt, read_host, ask. specialize (Hw s Logic.I). destruct (startWithin id s) as [[t s'] [[]|e]];
    destruct (budget_spent (host s') && negb (ctx_ended (host s'))); cbn; intros [=]. by apply (Hw tt).
Qed.

Lemma Start_locked_lands id : ends (λ _, True) (Start_locked id) (on_ok (now_in id StateRunning)).
Proof.
  apply ends_after. intros sb. do 2 (apply ends_after; intros _). eapply ends_bind with (M := λ a s, ∀ x, a = Ok x → at_ id [StateRunning] s); [|done|].
  { intros s _ a E x ->. pose proof (start_lands id s Logic.I x) as H. unfold attempt in *. destruct (start id s) as [[? ?] ?].
    injection E as E. exact (H E). }
  intros [[]|e]; [|intros s _ x; by cbn]. cbn [of_result]. eapply ends_weaken with (P' := at_ id [StateRunning]); [|intros s H; exact (H _ eq_refl)|done].
  apply ends_keep; [ksteps|intros _]. apply ends_keep; [ksteps|intros _]. apply ends_keep; [ksteps|intros _].
  apply ends_keep; [apply keeps_attempt, launch_same|intros _]. apply record_now.
Qed.

(** A record just read is in the state it says. *)
Lemma ends_get {Y} id (k : Sandbox → sop Y) F :
  (∀ sb, ends (at_ id [SState sb]) (k sb) (on_ok F)) → ends (λ _, True) (bind (getRecord id) k) (on_ok F).
Proof.
  intros Hk. eapply ends_bind with (M := λ sb, at_ id [SState sb]); [|done|exact Hk]. intros s _ sb E. unfold getRecord, ask in E.
  cbn in E. destruct (Get (repo_of s) id) as [sb'|] eqn:Eg; [|discriminate E]. injection E as <-. apply Get_record in Eg as [_ Eg].
  by eapply at_now.
Qed.

Lemma open_stop_says id sb s o : (open_stop id sb s).2 = Ok o → o = GoOn ∨ SState sb = StateStopped.
Proof.
  unfold open_stop, bind, attempt. destruct (status id "stop" s) as [[t s'] [st|e]].
  - case_bool_decide; [by right|]. cbn. intros [= <-]. by left.
  - destruct (is_timeout e && _); cbn; intros [=]. by left.
Qed.

Lemma stop_lands id force : ends (λ _, True) (stop id force) (on_ok (λ _, at_ id [StateStopped])).
Proof.
  apply ends_get. intros sb. apply ends_keep; [ksteps|intros _].
  eapply ends_bind with (M := λ o s, at_ id [SState sb] s ∧ (o = GoOn ∨ SState sb = StateStopped)); [|done|].
  { intros s Hs o E. split; [|destruct force; [left; by injection E|by apply (open_stop_says id sb s)]].
    refine (path_ends (moves id) _ _ (λ _, at_ id [SState sb]) _ s Hs). destruct force; [apply keeps_ret|apply open_stop_same]. }
  assert (Hdrop : ∀ m : sop unit, ends (λ _, True) m (on_ok (λ _, at_ id [StateStopped])) →
    ends (λ _, True) (m ;;; dropCheckpoint id) (on_ok (λ _, at_ id [StateStopped]))).
  { intros m Hm. eapply ends_bind; [exact Hm|done|]. intros []. eapply ends_weaken; [exact (path_ends _ _ _ _ (dropCheckpoint_same id [StateStopped]))|done|].
    by intros a s H x _. }
  assert (Hmark : ∀ f, (∀ sb, SState (f sb) = SState sb) → SState sb = StateStopped →
    ends (at_ id [SState sb]) (mutate id f ;;; dropCheckpoint id) (on_ok (λ _, at_ id [StateStopped]))).
  { intros f Hf ->. apply ends_keep; [by apply keeps_mutate_same|intros _].
    eapply ends_weaken; [exact (path_ends _ _ _ _ (dropCheckpoint_same id [StateStopped]))|done|]. by intros a s H x _. }
  intros [| |].
  - eapply ends_weaken with (P' := λ _, True); [|done|done]. do 4 (apply ends_after; intros ?). apply Hdrop, mutate_lands.
    intros sb'. unfold stoppedBy. by destruct sb'; simpl; repeat case_match.
  - intros s [Hs [|E]]; [done|]. apply Hmark; [by_fields|done|done].
  - intros s [Hs [|E]]; [done|]. apply Hmark; [by_fields|done|done].
Qed.

Lemma Stop_locked_lands id : ends (λ _, True) (Stop_locked id) (on_ok (now_in id StateStopped)).
Proof.
  do 3 (apply ends_after; intros ?). eapply ends_bind; [apply stop_lands|done|]. intros []. apply record_now.
Qed.

Lemma Pause_locked_lands id : ends (λ _, True) (Pause_locked id) (on_ok (now_in id StatePaused)).
Proof.
  do 3 (apply ends_after; intros ?). do 4 (apply ends_after; intros ?). apply ends_after. intros [|e].
  - eapply ends_bind; [apply (mutate_lands id _ StatePaused); by_fields|done|]. intros []. apply record_now.
  - assert (H : ends (λ _, True) (g <~ attempt (reconcileGone id a3) ;; match g with
      Err e2 => fail (EJoin (ECall e) e2) | Ok _ => fail (diskRefused (ECall e)) end) (on_ok (now_in id StatePaused))).
    { apply ends_after. intros [|]; apply ends_fail. }
    destruct e; try exact H; [|apply joined_err]. apply ends_after. intros _. apply ends_fail.
Qed.

Lemma Resume_locked_lands id : ends (λ _, True) (Resume_locked id) (on_ok (now_in id StateRunning)).
Proof.
  do 5 (apply ends_after; intros ?). apply ends_after. intros [|e]; [|apply ends_after; intros ?; apply ends_fail].
  apply ends_after. intros [|e]; [|apply joined_err]. eapply ends_bind; [apply RecordRunning_lands|done|]. intros [].
  apply ends_keep; [ksteps|intros _]. apply record_now.
Qed.

Lemma Fork_locked_lands source name :
  ends (λ _, True) (Fork_locked source name) (on_ok (λ sb s, ∃ id, now_in id StateRunning sb s)).
Proof.
  do 4 (apply ends_after; intros ?). apply ends_after. intros copy. cbn zeta. apply ends_after. intros [|]; cbn [negb]; [|apply unwinding_err].
  apply ends_after. intros [|e]; [|apply unwinding_err]. apply ends_after. intros [dir|e]; [|apply unwinding_err].
  apply ends_after. intros [net|e]; [|apply unwinding_err]. unfold bring_up. apply ends_after. intros [|e].
  - apply ends_after. intros [|e]; [|apply joined_err]. eapply ends_bind; [apply RecordRunning_lands|done|]. intros [].
    eapply ends_weaken; [apply record_now|done|]. intros x s H sb E. exists (ID copy). by apply H.
  - apply ends_after. intros [|]; [|apply unwinding_err]. apply ends_after. intros [st|e2]; [|apply ends_fail].
    destruct (Alive st); [apply ends_fail|apply unwinding_err].
Qed.

(** C25: A verb that succeeds has done what it is named for. Whatever else failed or was retried on the way, the record a
    start, a resume or a fork answers says running, that of a stop says stopped, that of a pause says paused; and it is
    the record on the disk. *)
Theorem verbs_land id name s :
  let '(_, s1, a1) := Start_locked id s in
  let '(_, s2, a2) := Stop_locked id s in
  let '(_, s3, a3) := Pause_locked id s in
  let '(_, s4, a4) := Resume_locked id s in
  let '(_, s5, a5) := Fork_locked id name s in
  on_ok (now_in id StateRunning) a1 s1 ∧ on_ok (now_in id StateStopped) a2 s2 ∧ on_ok (now_in id StatePaused) a3 s3 ∧
  on_ok (now_in id StateRunning) a4 s4 ∧ on_ok (λ sb s, ∃ copy, now_in copy StateRunning sb s) a5 s5.
Proof.
  pose proof (Start_locked_lands id s Logic.I) as H1. pose proof (Stop_locked_lands id s Logic.I) as H2.
  pose proof (Pause_locked_lands id s Logic.I) as H3. pose proof (Resume_locked_lands id s Logic.I) as H4.
  pose proof (Fork_locked_lands id name s Logic.I) as H5.
  destruct (Start_locked id s) as [[? ?] ?], (Stop_locked id s) as [[? ?] ?], (Pause_locked id s) as [[? ?] ?],
    (Resume_locked id s) as [[? ?] ?], (Fork_locked id name s) as [[? ?] ?]. by split_and!.
Qed.

(** ** What a removal frees *)

(** Holdings given back one after the other, each of which answered that it is. *)
Inductive released : list (string * sop unit) → service → service → Prop :=
| released_none s : released [] s s
| released_next what m rest s t s1 s2 : m s = (t, s1, Ok tt) → released rest s1 s2 → released ((what, m) :: rest) s s2.

(** A refusal that names [held]: the holdings before the first it names were given back, that one's give-back is the
    one that failed, with the cause, and none of those after it was tried. *)
Definition stopped_at (all : list (string * sop unit)) (s : service) (held : list string) (cause : service_error) (s' : service) : Prop :=
  ∃ before what m rest t s1,
    all = before ++ (what, m) :: rest ∧ held = what :: rest.*1 ∧ released before s s1 ∧ m s1 = (t, s', Err cause).

(** What a refusal does not name is free. *)
Definition rest_free (id : string) (held : list string) (s : service) : Prop :=
  ("runtime state and rootfs mount" ∉ held → id ∉ substrate (host s)) ∧
  ("netns, veth and address lease" ∉ held → id ∉ leased (host s)) ∧
  ("record and state directory" ∉ held → record (repo_of s) id = None).

Definition freed_or_named (id : string) (a : result service_error unit) (s : service) : Prop :=
  match a with
  | Ok _ => freed id s
  | Err (ELeft held _) => rest_free id held s
  | Err _ => False
  end.

Definition freed_or_left (id : string) (s : service) (a : result service_error unit) (s' : service) : Prop :=
  match a with
  | Ok _ => released (holdings id) s s' ∧ freed id s'
  | Err (ELeft held cause) => stopped_at (holdings id) s held cause s' ∧ rest_free id held s'
  | Err _ => False
  end.

Lemma free_go_exact all s :
  let '(_, s', a) := free_go all s in
  match a with
  | Ok _ => released all s s'
  | Err (ELeft held cause) => stopped_at all s held cause s'
  | Err _ => False
  end.
Proof.
  revert s. induction all as [|[what m] rest IH]; intros s; [constructor|]. cbn [free_go]. unfold bind, attempt.
  destruct (m s) as [[t s1] [[]|e]] eqn:Em; cbn.
  - specialize (IH s1). destruct (free_go rest s1) as [[t2 s2] [[]|e]]; [by econstructor|]. destruct e; try done.
    destruct IH as (before & w & m' & after & t' & s3 & -> & -> & Hr & Hm). exists ((what, m) :: before), w, m', after, t', s3.
    split_and!; [done|done|by econstructor|done].
  - exists [], what, m, rest, t, s. split_and!; [done|done|constructor|done].
Qed.

Lemma free_step id what (m : sop unit) rest (P M : service → Prop) :
  ends P m (λ a s, match a with Ok _ => M s | Err _ => rest_free id (what :: rest.*1) s end) →
  ends M (free_go rest) (freed_or_named id) → ends P (free_go ((what, m) :: rest)) (freed_or_named id).
Proof.
  intros Hm Hr s Hp. specialize (Hm s Hp). cbn [free_go]. unfold bind, attempt. destruct (m s) as [[t s1] [x|e]]; cbn in Hm |- *.
  - specialize (Hr s1 Hm). destruct (free_go rest s1) as [[t2 s2] b]. exact Hr.
  - exact Hm.
Qed.

(** A call of the network or the substrate: what it gave back, and what was free before and stays free. *)
Lemma ends_try_call (c : call (answer unit)) (P M : service → Prop) (L : service → Prop) :
  (∀ s, P s → let '(w, a) := perform c (host s) in match a with Ok _ => M (set_host w s) | Err _ => L (set_host w s) end) →
  ends P (try c) (λ a s, match a with Ok _ => M s | Err _ => L s end).
Proof.
  intros H s Hp. specialize (H s Hp). unfold try, bind, do_call. destruct (perform c (host s)) as [w [[]|e]]; exact H.
Qed.

Lemma free_ends id : ends (λ _, True) (free id) (freed_or_named id).
Proof.
  unfold free, holdings. eapply (free_step id _ _ _ _ (λ _, True)).
  { apply ends_try_call. intros s _. destruct (perform _ _) as [w []]; [done|]. split_and!; set_solver. }
  eapply (free_step id _ _ _ _ (λ s, id ∉ substrate (host s))).
  { apply ends_try_call. intros s _. pose proof (substrate_law _ (PRemove id) (host s)) as Hl.
    destruct (perform _ _) as [w []]; cbn in *; [set_solver|]. split_and!; set_solver. }
  eapply (free_step id _ _ _ _ (unheld id)).
  { apply ends_try_call. intros s Hs. pose proof (leased_law _ (NRelease id) (host s)) as Hl.
    pose proof (substrate_law _ (NRelease id) (host s)) as Hsub. unfold unheld.
    destruct (perform _ _) as [w []]; cbn in *; [set_solver|]. split_and!; set_solver. }
  eapply (free_step id _ _ _ _ (freed id)).
  { intros s Hs. destruct (path_ends _ _ _ _ (deleteRecord_path id) s Hs) as [Hu Hr].
    destruct (deleteRecord id s) as [[t s'] [[]|e]]; cbn in *; [split; [done|by apply Hr]|].
    unfold unheld in Hu. split_and!; set_solver. }
  eapply (free_step id _ _ _ _ (freed id)); [|intros s Hs; exact Hs].
  apply ends_try_call. intros s [Hu Hr]. pose proof (leased_law _ NReapplyAll (host s)) as Hl.
  pose proof (substrate_law _ NReapplyAll (host s)) as Hsub. unfold freed, unheld in *.
  destruct (perform _ _) as [w []]; cbn in *; [split; [set_solver|done]|]. split_and!; set_solver.
Qed.

(** C4: A removal frees all or says exactly what is left. Whatever state the sandbox was in and however a forced removal
    ended it: when rm answers, the sandbox has no address lease, nothing in the substrate and no record. The five
    holdings (forwarded ports, substrate, network, record, host rules) are given back in that order. All of them were
    when [free] answers; and when it refuses, the error names the one whose give-back failed, with its cause, and those
    after it, which were not tried, while every one it does not name was given back: its call answered, and what
    it held in the substrate, in the network or on the disk is gone. *)
Theorem Remove_frees id force s :
  (let '(_, s', a) := Remove_locked id force s in a = Ok tt → freed id s') ∧
  (let '(_, s', a) := free id s in freed_or_left id s a s').
Proof.
  assert (H : ends (λ _, True) (Remove_locked id force) (on_ok (λ _, freed id))).
  { do 3 (apply ends_after; intros ?). eapply ends_bind with (M := λ _, freed id); [|done|].
    - intros s1 _ [] E. pose proof (free_ends id s1 Logic.I) as Hf. by rewrite E in Hf.
    - intros _. eapply ends_bind with (M := λ _, freed id); [by intros s1 Hs x _|done|]. intros [[|? ?] [|? ?]]; try (apply ends_ret; auto).
      intros s1 [Hu Hr] []. unfold try, bind. pose proof (do_call_unheld id ReleaseRoot eq_refl s1 Hu) as Hc. unfold do_call in *.
      destruct (perform ReleaseRoot (host s1)) as [w [[]|e]]; destruct Hc as [_ Hc]; cbn; [|by intros [=]]. intros _. by split. }
  specialize (H s Logic.I). pose proof (free_ends id s Logic.I) as Hf. pose proof (free_go_exact (holdings id) s) as He.
  change (free_go (holdings id) s) with (free id s) in He.
  destruct (Remove_locked id force s) as [[t s'] a], (free id s) as [[t2 s2] a2]. split; [intros ->; by apply (H tt)|].
  destruct a2 as [[]|[]]; by try split.
Qed.

(** ** What a refused create gives back *)

(** A step that claims nothing for a sandbox the host holds nothing of. *)
Definition quiet {X} (id : string) (m : sop X) : Prop := ends (unheld id) m (λ _, unheld id).

Lemma quiet_bind {X Y} id (m : sop X) (k : X → sop Y) : quiet id m → (∀ x, quiet id (k x)) → quiet id (bind m k).
Proof.
  intros Hm Hk s Hs. specialize (Hm s Hs). unfold bind. destruct (m s) as [[t s1] [x|e]]; [|exact Hm].
  specialize (Hk x s1 Hm). destruct (k x s1) as [[t2 s2] b]. exact Hk.
Qed.

Lemma quiet_call {X} id (c : call X) : claims c = None → quiet id (do_call c).
Proof. intros Hc. by eapply path_ends, do_call_unheld. Qed.
Lemma quiet_ret {X} id (x : X) : quiet id (ret x). Proof. by intros s Hs. Qed.
Lemma quiet_fail {X} id e : quiet id (fail e : sop X). Proof. by intros s Hs. Qed.
Lemma quiet_ask {X} id (f : service → result service_error X) : quiet id (ask f). Proof. by intros s Hs. Qed.

Ltac qstep :=
  lazymatch goal with
  | |- quiet _ (bind _ _) => apply quiet_bind; [|intros ?]
  | |- quiet _ (do_call _) => by apply quiet_call
  | |- quiet _ (ret _) => apply quiet_ret
  | |- quiet _ (fail _) => apply quiet_fail
  | |- quiet _ (ask _) => apply quiet_ask
  | |- quiet _ (check _ ?b) => destruct b; cbn [check]
  | |- quiet _ (match ?x with _ => _ end) => destruct x eqn:?
  | |- quiet _ _ => progress unfold try, locked, seed, readSeed, proxyCA, pull, Dir
  end.

Lemma quiet_grantSecrets id env names : quiet id (grantSecrets_go env names).
Proof. revert env. induction names as [|n names IH]; intros env; cbn [grantSecrets_go]; repeat qstep. apply IH. Qed.

(** Given back, or the caller has gone, or giving back failed too and the error says so. *)
Definition given_back {X} (id : string) (a : result service_error X) (s : service) : Prop :=
  match a with
  | Ok _ => True
  | Err e => unheld id s ∨ ctx_ended (host s) = true ∨ ∃ cause undo, e = EJoin cause undo
  end.

Lemma unwound {X} id e steps P :
  ends P (Unwind steps) (on_ok (λ _, unheld id)) → ends P (unwinding e steps : sop X) (given_back id).
Proof.
  intros H s Hp. specialize (H s Hp). unfold unwinding. destruct (Unwind steps s) as [[t s'] [[]|e2]]; cbn in *; [left; by apply (H tt)|].
  right. right. eauto.
Qed.

Lemma ends_gives (c : call (answer unit)) (P M : service → Prop) :
  (∀ s, P s → let '(w, a) := perform c (host s) in match a with Ok _ => M (set_host w s) | Err _ => True end) →
  ends P (try c) (on_ok (λ _, M)).
Proof. intros H. eapply ends_weaken; [exact (ends_try_call c P M (λ _, True) H)|done|]. by intros a s Ha x ->. Qed.

Lemma gives_substrate id : ends (λ _, True) (try (PRemove id)) (on_ok (λ _ s, id ∉ substrate (host s))).
Proof.
  apply (ends_gives (PRemove id)). intros s _. pose proof (substrate_law _ (PRemove id) (host s)). destruct (perform _ _) as [w []]; cbn in *; [set_solver|done].
Qed.

Lemma gives_lease id : ends (λ s, id ∉ substrate (host s)) (try (NRelease id)) (on_ok (λ _, unheld id)).
Proof.
  apply (ends_gives (NRelease id)). intros s Hs. pose proof (leased_law _ (NRelease id) (host s)). pose proof (substrate_law _ (NRelease id) (host s)).
  unfold unheld. destruct (perform _ _) as [w []]; cbn in *; [set_solver|done].
Qed.

Lemma Unwind_lease id : ends (λ s, id ∉ substrate (host s)) (Unwind [try (NRelease id)]) (on_ok (λ _, unheld id)).
Proof. cbn [Unwind]. eapply ends_bind; [apply gives_lease|done|]. intros x. by apply ends_ret. Qed.

Lemma Unwind_all id : ends (λ _, True) (Unwind [try (PRemove id); try (NRelease id)]) (on_ok (λ _, unheld id)).
Proof. cbn [Unwind]. eapply ends_bind; [apply gives_substrate|done|]. intros x. apply Unwind_lease. Qed.

Lemma AllocateNetwork_bare id : ends (unheld id) (attempt (AllocateNetwork id)) (on_ok (λ _ s, id ∉ substrate (host s))).
Proof.
  intros s Hs x _. unfold attempt, AllocateNetwork, bind, do_call. pose proof (substrate_law _ (NAllocate id) (host s)) as H.
  unfold unheld in Hs. destruct (perform _ _) as [w [net|e]]; cbn in *; [set_solver|]. destruct e; cbn; set_solver.
Qed.

Lemma given_after {X Y} id (m : sop X) (k : X → sop Y) P M :
  ends P m (λ a s, match a with Ok x => M x s | Err e => given_back id (@Err _ Y e) s end) → (∀ x, ends (M x) (k x) (given_back id)) →
  ends P (bind m k) (given_back id).
Proof.
  intros Hm Hk s Hp. specialize (Hm s Hp). unfold bind. destruct (m s) as [[t s1] [x|e]]; [|exact Hm].
  specialize (Hk x s1 Hm). destruct (k x s1) as [[t2 s2] b]. exact Hk.
Qed.

Lemma given_attempt {X Y} id (m : sop X) (k : result service_error X → sop Y) P M :
  ends P (attempt m) (on_ok M) → (∀ x, ends (M x) (k x) (given_back id)) → ends P (bind (attempt m) k) (given_back id).
Proof.
  intros Hm Hk. eapply given_after; [|exact Hk]. intros s Hp. specialize (Hm s Hp). unfold attempt in *.
  destruct (m s) as [[t s1] a]. by apply Hm.
Qed.

Lemma given_call {X Y} id (c : call X) (k : X → sop Y) : (∀ x, ends (λ _, True) (k x) (given_back id)) → ends (λ _, True) (bind (do_call c) k) (given_back id).
Proof.
  intros Hk. eapply given_after; [|exact Hk]. intros s _. unfold do_call. by destruct (perform c (host s)) as [w a].
Qed.

Lemma build_gives_back id req env ca img files dir : ends (unheld id) (build id req env ca img files dir) (given_back id).
Proof.
  eapply given_attempt; [apply AllocateNetwork_bare|]. intros [net|e]; [|apply unwound, Unwind_lease].
  eapply ends_weaken with (P' := λ _, True); [|done|done]. apply given_call. intros [x|e]; [|apply unwound, Unwind_all].
  eapply given_attempt with (M := λ _ _, True); [done|]. intros [y|e]; [|apply unwound, Unwind_all].
  apply given_call. intros [z|e]; [by intros s _|]. intros s _. unfold bind, read_host, ask. destruct (ctx_ended (host s)) eqn:E.
  - right. by left.
  - pose proof (unwound (X := unit) id (imageGone "create" (ECall e)) _ _ (Unwind_all id) s Logic.I) as H. unfold unwinding in *.
    destruct (Unwind _ s) as [[t s'] a]. exact H.
Qed.

Lemma quiet_then {X Y} id (m : sop X) (k : X → sop Y) :
  quiet id m → (∀ x, ends (unheld id) (k x) (given_back id)) → ends (unheld id) (bind m k) (given_back id).
Proof.
  intros Hm Hk. eapply given_after with (M := λ _, unheld id); [|exact Hk]. intros s Hs. specialize (Hm s Hs).
  destruct (m s) as [[t s1] [x|e]]; cbn in *; [done|by left].
Qed.

(** C24: A create that is refused leaves nothing on the host. Up to its commit point, whichever step fails, the network and
    the substrate hold nothing for the sandbox when [Complete] comes to write why; unless the daemon itself is going
    down, or giving back failed as well, which the error then says. *)
Theorem create_gives_back id req sb s :
  unheld id s → let '(_, s', built) := to_build id req sb s in given_back id built s'.
Proof.
  intros Hs. assert (H : ends (unheld id) (to_build id req sb) (given_back id)).
  { unfold to_build, grantSecrets. apply quiet_then; [repeat qstep|]. intros x. apply quiet_then; [apply quiet_grantSecrets|]. intros env.
    apply quiet_then; [repeat qstep|]. intros ca. apply quiet_then; [repeat qstep|]. intros img. apply quiet_then; [repeat qstep|]. intros dir.
    apply build_gives_back. }
  specialize (H s Hs). destruct (to_build id req sb s) as [[t s'] a]. exact H.
Qed.

End Outcomes.

(** ** On the bench *)

Definition bench_service : service := MkService new_repo empty_bench new_table.

Definition bench_request : CreateRequest :=
  MkCreateRequest "alpine" "" "web" ["A=1"] "" "" ["TOKEN"] "p" (MkResourceRequest None 1 0 None) [MkPortForward 8080 80 false].

Definition bench_id : string := "amber-badger-ff0a".

Definition bench_pending : service := (Prepare bench_request bench_service).1.2.

(** The same create on a substrate that refuses it once it holds something: both claims are given back. *)
Definition refused_pending : @service refusing_lab :=
  (@Prepare refusing_lab bench_request (@MkService refusing_lab new_repo empty_bench new_table)).1.2.

Definition holds_both (s : @service refusing_lab) : bool :=
  bool_decide (bench_id ∈ b_leased (@host refusing_lab s) ∧ bench_id ∈ b_held (@host refusing_lab s)).

Lemma create_gives_back_witness :
  let '(t, s', built) := @to_build refusing_lab bench_id bench_request web refused_pending in
  built = Err (ECall CFails) ∧ existsb holds_both t = true ∧
  @given_back refusing_lab refusing_holdings unit bench_id built s' ∧ @unheld refusing_lab refusing_holdings bench_id s'.
Proof.
  pose proof (@create_gives_back refusing_lab refusing_holdings bench_id bench_request web refused_pending) as H.
  assert (Hs : @unheld refusing_lab refusing_holdings bench_id refused_pending)
    by (unfold unheld; apply (bool_decide_unpack _); vm_compute; reflexivity).
  specialize (H Hs).
  assert (Hrun : let '(t, s', built) := @to_build refusing_lab bench_id bench_request web refused_pending in
    built = Err (ECall CFails) ∧ existsb holds_both t = true)
    by (vm_compute; split; reflexivity).
  destruct (@to_build refusing_lab bench_id bench_request web refused_pending) as [[t s'] built]. destruct Hrun as [-> Ht].
  split; [reflexivity|]. split; [exact Ht|]. split; [exact H|].
  destruct H as [H|[H|(c & u & H)]]; [exact H|discriminate H|discriminate H].
Defined.
