(* ===== verification/Liveness.v ===== *)
(** * A sandbox the host ended comes back

    [services/sandbox/oom.go] and [liveness.go]: a sandbox that ran out of memory is due to start again after a wait that
    grows; the first tick past it starts the sandbox, on a host that lets it. *)

From S2P Require Import Prelude Ops Paths GoStrings Netip Models SandboxFields Restart Store Secret SandboxID Repository ExecTable Host Moves.
From S2P Require Import Lab Lifecycle Reconcile Processes Checkpoint Ports Creation Verbs Removal Service Birth Outcomes.
Local Open Scope Z_scope.
Local Open Scope op_scope.

(** What a start of [id] asks of the host and gets. *)
Class Healthy `{Host} (id : string) : Prop := {
  gets_lock : ∀ w, (perform (LTryLock id) w).2 = true;
  gets_network : ∀ w, ∃ net, (perform (NAllocate id) w).2 = Ok net;
  gets_started : ∀ w, ∃ x, (perform (PStart id) w).2 = Ok x;
  gets_probed : ∀ w, ∃ st, (perform (PStatus id) w).2 = Ok st;
  gets_written : ∀ w, (perform RWrite w).2 = Landed;
  within_budget : ∀ w, budget_spent w = false
}.

Section Liveness.
Context `{Hst : Host} {Hld : Holdings}.

(** From a state of [P], [m] answers, and what it answers is of [F]. *)
Definition answers {X} (P : service → Prop) (m : sop X) (F : X → service → Prop) : Prop :=
  ∀ s, P s → ∃ x, (m s).2 = Ok x ∧ F x (m s).1.2.

Lemma answers_bind {X Y} P (m : sop X) (k : X → sop Y) M F :
  answers P m M → (∀ x, answers (M x) (k x) F) → answers P (bind m k) F.
Proof.
  intros Hm Hk s Hp. destruct (Hm s Hp) as (x & E & HM). unfold bind. destruct (m s) as [[t s1] a]. cbn in *. subst a.
  destruct (Hk x s1 HM) as (y & E & HF). destruct (k x s1) as [[t2 s2] b]. cbn in *. eauto.
Qed.

(** A call that succeeds, as far as the records go. *)
Definition of_repo (P : repo → Prop) (s : service) : Prop := P (repo_of s).

Lemma answers_call {X} (c : call X) (P : repo → Prop) (F : X → Prop) :
  (∀ w, F (perform c w).2) → answers (of_repo P) (do_call c) (λ x s, F x ∧ of_repo P s).
Proof. intros H s Hp. unfold do_call. specialize (H (host s)). destruct (perform c (host s)) as [w x]. cbn in *. eauto. Qed.

Lemma answers_try {X} (c : call (answer X)) (P : repo → Prop) :
  (∀ w, ∃ x, (perform c w).2 = Ok x) → answers (of_repo P) (try c) (λ _, of_repo P).
Proof.
  intros H. eapply answers_bind; [by apply (answers_call c P (λ a, ∃ x, a = Ok x))|]. intros a s [[x ->] Hs]. by exists x.
Qed.

(** The record of [id], well formed, in state [t]. *)
Definition has (id : string) (t : State) (r : repo) : Prop :=
  ∃ sb, ValidID id = Ok tt ∧ record r id = Some sb ∧ ID sb = id ∧ SState sb = t.

Lemma answers_mutate id f t t' :
  (∀ w, (perform RWrite w).2 = Landed) → (∀ sb, ID (f sb) = ID sb ∧ Name (f sb) = Name sb ∧ SState (f sb) = t') → State_Valid t' = true →
  answers (of_repo (has id t)) (mutate id f) (λ _, of_repo (has id t')).
Proof.
  intros Hw Hf Hv s (sb & Hid & Hr & Hi & Ht). destruct (Hf sb) as (Hfi & Hfn & Hfs).
  unfold mutate, update, bind, do_call. specialize (Hw (host s)). destruct (perform RWrite (host s)) as [w o]. cbn in Hw. subst o.
  unfold on_repo. cbn [repo_of set_host].
  rewrite (Update_eq Landed id _ (repo_of s) sb (f sb)); [|by apply Get_record|done|congruence|done|congruence].
  rewrite write_followed; [|unfold record in Hr; rewrite Hfi, Hi; destruct (dirs (repo_of s) !! id) as [[]|]; naive_solver].
  cbn. exists tt. split; [done|]. exists (json_sandbox (f sb)). split; [done|]. split; [|cbn [ID SState json_sandbox]; split].
  - change (record (landed (f sb) (repo_of s)) id = Some (json_sandbox (f sb))). by rewrite record_landed, decide_True by congruence.
  - rewrite Hfi, Hi. by apply ValidID_json.
  - rewrite json_state_valid by congruence. congruence.
Qed.

Lemma answers_read {X} (P : repo → Prop) (f : W → X) : answers (of_repo P) (read_host f) (λ _, of_repo P).
Proof. intros s Hs. by eexists. Qed.

Lemma ranAgain_fields st now resumed sb :
  ID (ranAgain st now resumed sb) = ID sb ∧ Name (ranAgain st now resumed sb) = Name sb ∧ SState (ranAgain st now resumed sb) = StateRunning.
Proof. unfold ranAgain. by destruct sb, resumed; simpl; repeat case_match. Qed.

Lemma RecordRunning_answers (id : string) `{!Healthy id} t resumed :
  answers (of_repo (has id t)) (RecordRunning id resumed) (λ _, of_repo (has id StateRunning)).
Proof.
  unfold RecordRunning, probe. eapply answers_bind with (M := λ _, of_repo (has id t)).
  { eapply answers_bind; [apply (answers_call (PStatus id) (has id t) (λ a, ∃ st, a = Ok st)), gets_probed|].
    intros a s [[st ->] Hs]. by exists st. }
  intros st. eapply answers_bind; [apply answers_read|]. intros now. apply answers_mutate; [apply gets_written| |done].
  intros sb. apply ranAgain_fields.
Qed.

Lemma start_answers (id : string) `{!Healthy id} t : answers (of_repo (has id t)) (start id) (λ _, of_repo (has id StateRunning)).
Proof.
  assert (H : answers (of_repo (has id t)) (startWithin id) (λ _, of_repo (has id StateRunning))).
  { unfold startWithin. eapply answers_bind; [apply (answers_try (NAllocate id)), gets_network|]. intros net.
    eapply answers_bind; [apply (answers_call (PStart id) (has id t) (λ a, ∃ x, a = Ok x)), gets_started|].
    intros a s [[x ->] Hs]. exact (RecordRunning_answers id t false s Hs). }
  intros s Hs. destruct (H s Hs) as (x & E & HF). unfold start, bind, attempt, read_host, ask.
  destruct (startWithin id s) as [[l s'] a]. cbn in *. subst a. rewrite within_budget. cbn. eauto.
Qed.

(** C35: A sandbox the host ended for its memory comes back. On a host that takes the calls of a start, the first liveness
    tick past the restart the record is due finds the record stopped and leaves it running; nothing asks an operator. *)
Theorem oom_restart_lands (seen : Sandbox) `{!Healthy (ID seen)} now s :
  has (ID seen) StateStopped (repo_of s) → record (repo_of s) (ID seen) = Some seen →
  RestartDue (SOOM seen) = true → (∀ o, SOOM seen = Some o → RestartAt o ≤ now) →
  let '(_, s', a) := liveness_one seen now s in a = Ok tt ∧ at_ (ID seen) [StateRunning] s'.
Proof.
  intros (sb & Hv & Hr & _ & Hstop) Hseen Hdue Hat. rewrite Hseen in Hr. injection Hr as <-.
  unfold liveness_one. rewrite Hstop, Hdue, bool_decide_true by done. change (Live StateStopped) with false. cbn [andb].
  unfold startAgainWhenDue, tryLocked. destruct (SOOM seen) as [o|] eqn:Eo; [|done]. specialize (Hat o eq_refl).
  replace (now <? RestartAt o) with false by lia.
  assert (H : answers (of_repo (λ r, has (ID seen) StateStopped r ∧ record r (ID seen) = Some seen))
                (got <~ do_call (LTryLock (ID seen)) ;; if got then start_again_locked seen now else ret tt)
                (λ _, at_ (ID seen) [StateRunning])).
  { eapply answers_bind; [apply (answers_call (LTryLock (ID seen)) _ (λ b, b = true)), gets_lock|]. intros b s1 [-> [Hh Hrec]].
    enough (let '(_, s', a) := start_again_locked seen now s1 in a = Ok tt ∧ at_ (ID seen) [StateRunning] s') as Hend.
    { destruct (start_again_locked seen now s1) as [[l s'] a]. destruct Hend as [-> ?]. by exists tt. }
    unfold start_again_locked, bind, attempt, getRecord, ask.
    rewrite (proj2 (Get_record (repo_of s1) (ID seen) seen) (conj Hv Hrec)). cbn [map_err]. rewrite Hstop, Eo, bool_decide_true by done.
    rewrite Hdue, Z.eqb_refl. cbn [negb orb]. destruct (start_answers (ID seen) StateStopped s1 Hh) as (x & E & HF).
    destruct (start (ID seen) s1) as [[l s2] a]. cbn in E, HF. subst a. destruct HF as (sb2 & _ & Hr2 & _ & Hs2).
    pose proof (path_ends _ _ _ _ (launch_same (ID seen) daemonStart (λ _, false) [StateRunning]) s2 (at_now _ _ _ _ Hr2 Hs2)) as Hl.
    destruct (launch _ _ _ s2) as [[l3 s3] a3]. cbn in *. done. }
  destruct (H s) as (x & E & HF); [by split; [exists seen|]|]. destruct (bind _ _ s) as [[l s'] a]. cbn in *. destruct x. by subst a.
Qed.

End Liveness.

#[export] Instance lab_healthy id : Healthy id.
Proof. split; intros; by try eexists. Qed.

(** A sandbox of the bench that ran out of memory once. *)
Definition ended_web : Sandbox := outOfMemory (MkOOM 1 1 100 100) (set_ID "amber-badger-ff0a" (set_SState StateRunning web)).

Definition oom_bench : service := MkService (landed ended_web new_repo) empty_bench new_table.

Lemma oom_restart_lands_witness :
  (let '(_, s', a) := liveness_one ended_web 200 oom_bench in a = Ok tt ∧ at_ (ID ended_web) [StateRunning] s').
Proof.
  apply (oom_restart_lands ended_web 200 oom_bench).
  - exists ended_web. split_and!; vm_compute; reflexivity.
  - vm_compute. reflexivity.
  - reflexivity.
  - intros o [= <-]. vm_compute. discriminate.
Defined.
