(* ===== verification/Machine.v ===== *)
(** * The service implements the lifecycle machine

    Everything the service does to sandboxes, as requests one after the other, each cut anywhere; the host changes on
    its own in between, and a new daemon begins with a table of execs of its own and corrects the records before it
    serves. *)

From S2P Require Import Prelude Ops Paths GoStrings Netip Models SandboxFields Restart Store Secret SandboxID Repository ExecTable Host Moves.
From S2P Require Import Lab Lifecycle Reconcile Processes Checkpoint Ports Creation Grants Verbs Removal Service Birth Outcomes.
Local Open Scope Z_scope.
Local Open Scope op_scope.

Inductive verb : Type :=
| VPrepare (req : CreateRequest)
| VComplete (id : string) (req : CreateRequest)
| VStart (ref : string)
| VStop (ref : string)
| VRemove (ref : string) (force : bool)
| VPause (ref : string)
| VResume (ref : string)
| VFork (ref name : string)
| VRun (ref : string) (req : RunRequest)
| VKill (ref name : string) (force : bool)
| VAddPort (ref : string) (hostPort guestPort : Z) (public : bool)
| VRemovePort (ref : string) (port : Z)
| VSyncPort (id : string)
| VAttachPolicy (ref name : string)
| VDetachPolicy (ref : string)
| VGrantSecret (ref name : string)
| VUngrantSecret (ref name : string)
| VLiveness (seen : Sandbox) (now : Z)
| VAutostart (id : string)
| VRecordProcesses (id : string)
| VRecordProcessesNow (id : string)
| VReady (ref : string)          (* how an exec, a file verb and an attach begin *)
| VDaemonStart (c : boot_answers).

Section Machine.
Context `{Hst : Host}.

Definition run_verb (v : verb) : sop unit :=
  match v with
  | VPrepare req => _ <~ Prepare req ;; ret tt
  | VComplete id req => Complete id req
  | VStart ref => _ <~ Start ref ;; ret tt
  | VStop ref => _ <~ Stop ref ;; ret tt
  | VRemove ref force => Remove ref force
  | VPause ref => _ <~ Pause ref ;; ret tt
  | VResume ref => _ <~ Resume ref ;; ret tt
  | VFork ref name => _ <~ Fork ref name ;; ret tt
  | VRun ref req => _ <~ Run ref req ;; ret tt
  | VKill ref name force => _ <~ Kill ref name force ;; ret tt
  | VAddPort ref h g p => _ <~ AddPort ref h g p ;; ret tt
  | VRemovePort ref port => RemovePort ref port
  | VSyncPort id => syncPorts id
  | VAttachPolicy ref name => _ <~ AttachPolicy ref name ;; ret tt
  | VDetachPolicy ref => _ <~ DetachPolicy ref ;; ret tt
  | VGrantSecret ref name => _ <~ GrantSecret ref name ;; ret tt
  | VUngrantSecret ref name => _ <~ UngrantSecret ref name ;; ret tt
  | VLiveness seen now => liveness_one seen now
  | VAutostart id => _ <~ autostart id ;; ret tt
  | VRecordProcesses id => recordProcesses id
  | VRecordProcessesNow id => recordProcessesNow id
  | VReady ref => _ <~ readyForExec ref ;; ret tt
  | VDaemonStart c => reconciler_Reconcile c
  end.

(** The moves a verb may make that [legalTransitions] does not list: a removal by force stops a sandbox that is up under a
    record that says failed or pending, and a daemon that comes up believes the substrate over the record. *)
Definition unlisted (v : verb) : list (State * State) :=
  match v with
  | VRemove _ true => forced_moves
  | VDaemonStart _ => restart_moves
  | _ => []
  end.

Lemma run_verb_path `{Hld : !Holdings} v : serves_off (unlisted v) (run_verb v).
Proof.
  assert (Hdrop : ∀ X (m : sop X), serves m → serves (_ <~ m ;; ret tt)) by (intros; apply serves_bind; [done|intros; ssteps]).
  assert (Hres : ∀ X ref (k : string → sop X), (∀ id, serves (k id)) → serves (id <~ resolve ref ;; locked id (k id)))
    by (intros; sstep; by apply serves_locked).
  destruct v as [req|id req|ref|ref|ref [|]|ref|ref|ref name|ref req|ref name force|ref h g p|ref port|id|ref name|ref|ref name|ref name|seen now|id|id|id|ref|c];
    cbn [run_verb unlisted]; lazymatch goal with |- serves_off [] _ => apply serves_serves_off | _ => idtac end.
  - apply Hdrop, Prepare_serves.
  - apply serves_locked, Complete_locked_serves.
  - apply Hdrop, Hres, Start_locked_serves.
  - apply Hdrop, Hres, Stop_locked_serves.
  - apply serves_off_bind; [apply serves_serves_off, serves_resolve|intros id].
    apply serves_off_bind; [by apply serves_serves_off, serves_call|]. intros []; [apply Remove_locked_forced|apply serves_serves_off, serves_fail].
  - apply Hres, Remove_locked_serves.
  - apply Hdrop. unfold Pause. sstep. apply Hres, Pause_locked_serves.
  - apply Hdrop. unfold Resume. sstep. apply Hres, Resume_locked_serves.
  - apply Hdrop. unfold Fork, valid_copy_name. do 2 sstep. apply Hres. intros. apply Fork_locked_serves.
  - apply Hdrop. unfold Run. sstep. apply Hres. intros. apply Run_locked_serves.
  - apply Hdrop, Hres. intros. apply Kill_locked_serves.
  - apply Hdrop. unfold AddPort. do 2 sstep. apply Hres. intros. apply AddPort_locked_serves.
  - apply Hres. intros. apply RemovePort_locked_serves.
  - apply syncPorts_serves.
  - apply Hdrop. unfold AttachPolicy. sstep. apply Hres. intros. apply AttachPolicy_locked_serves.
  - apply Hdrop, Hres, DetachPolicy_locked_serves.
  - apply Hdrop. unfold GrantSecret, valid_secret. sstep. apply Hres. intros. apply GrantSecret_locked_serves.
  - apply Hdrop. unfold UngrantSecret, valid_secret. sstep. apply Hres. intros. apply UngrantSecret_locked_serves.
  - apply liveness_one_serves.
  - apply Hdrop. apply serves_locked, autostart_locked_serves.
  - apply recordProcesses_serves.
  - apply recordProcessesNow_serves.
  - apply Hdrop, readyForExec_serves.
  - apply reconciler_Reconcile_serves.
Qed.

(** ** The abstract machine *)

Definition life (id : string) (s : service) : option State := state_of (repo_of s) id.

Lemma any_shifts_life `{Hld : !Holdings} X id s s' :
  ValidID id = Ok tt → any_shifts X s s' → off_moves X (life id s) (life id s').
Proof.
  intros Hv [i [Ho Hl _ _]]. destruct (decide (id = i)) as [->|Hne]; [done|]. unfold life, state_of.
  rewrite (Ho id Hv Hne). left. constructor.
Qed.

(** For a statement that says nothing of the host, nothing need be held. *)
Definition nothing_held (Hids : ∀ res w, ids_ok (cc_claim (perform (RCreate res) w).2)) : Holdings.
Proof. refine {| leased := λ _, ∅; substrate := λ _, ∅; created_ids := Hids |}; intros; apply empty_subseteq. Defined.

(** C1: The service implements the lifecycle machine, up to the moves [unlisted] names. Whatever the substrate, the
    network and the disk answer, and wherever it is cut, each change a verb, a loop or the start of a daemon makes to the
    record of a sandbox is a move of the machine: a record is born pending or created, moves along [legalTransitions],
    and is freed; nothing else is ever visible, of any sandbox. Two of them make moves [legalTransitions] does not
    list, and only these: a removal by force writes stopped over a failed or a pending record, and the start of a daemon
    makes the ten moves of [restart_moves], since it believes the substrate over the record. *)
Theorem verbs_refine_machine v s id :
  (∀ res w, ids_ok (cc_claim (perform (RCreate res) w).2)) →
  well_formed (repo_of s) → ValidID id = Ok tt →
  let '(t, s', _) := run_verb v s in
  chain (off_moves (unlisted v)) (life id s) (life id <$> t) (life id s').
Proof.
  intros Hids Hw Hv. pose (Hld := nothing_held Hids).
  assert (Hg : good s) by (split; [done|]; intros i _ Hi; unfold Hld, nothing_held in Hi; simpl in Hi; set_solver).
  pose proof (run_verb_path v s Hg) as H. destruct (run_verb v s) as [[t s'] a]. destruct H as [H _].
  apply chain_map. eapply chain_mono; [|exact H]. intros x y ?. by apply any_shifts_life.
Qed.

(** ** Histories *)

Inductive served `{Hld : !Holdings} : service → service → Prop :=
| served_verb v s s' : s' ∈ states (run_verb v) s → served s s'
| served_restart s t : served s (set_table t s)
| served_host s w : leased w ⊆ leased (host s) → substrate w ⊆ substrate (host s) → served s (set_host w s).

Lemma served_good `{Hld : !Holdings} s s' : served s s' → good s → good s'.
Proof.
  intros [v s0 s1 Hin|s0 t|s0 w Hl Hs] Hg.
  - destruct (path_states _ good _ _ _ s0 (run_verb_path v) (any_shifts_good _) Hg Hg) as (Hf & _).
    by apply (proj1 (Forall_forall _ _) Hf).
  - done.
  - split; [apply Hg|]. intros i Hv Hi. cbn [repo_of set_host host] in *. apply (proj2 Hg i Hv). set_solver.
Qed.

(** C2: Nothing is orphaned. From an empty host, however requests, removals by force and starts of a daemon follow each
    other, fail, and are cut by a crash, and whatever the substrate loses on its own: every address lease and every
    sandbox the substrate holds has a record on the disk that a removal can find it by. *)
Theorem nothing_orphaned `{Hld : !Holdings} s0 s id :
  repo_of s0 = new_repo → leased (host s0) = ∅ → substrate (host s0) = ∅ → rtc served s0 s → ValidID id = Ok tt →
  id ∈ leased (host s) ∪ substrate (host s) → ∃ sb, Get (repo_of s) id = Ok sb ∧ ID sb = id.
Proof.
  intros Hr Hl Hs Hrtc Hv Hi. assert (Hg0 : good s0).
  { split; [intros i sb _; by rewrite Hr|]. intros i _. rewrite Hl, Hs. set_solver. }
  destruct (rtc_preserved good _ _ served_good Hrtc Hg0) as [Hw Hn]. destruct (Hn id Hv Hi) as [sb Hsb].
  exists sb. split; [by apply Get_record|]. by apply (Hw id sb Hv Hsb).
Qed.

End Machine.

(** ** On the bench *)

(** The state after some requests, one after the other. *)
Definition after_verbs (vs : list verb) (s : service) : service := foldl (λ s v, (run_verb v s).1.2) s vs.

Lemma after_served vs s : good s → rtc served s (after_verbs vs s).
Proof.
  revert s. induction vs as [|v vs IH]; intros s Hg; [done|].
  assert (Hs : served s (run_verb v s).1.2).
  { apply served_verb with v. pose proof (run_verb_path v s Hg) as H. unfold states.
    destruct (run_verb v s) as [[t s'] a]. by apply (chain_last (any_shifts (unlisted v)) s t s'), H. }
  eapply rtc_l; [exact Hs|]. apply IH. by eapply served_good.
Qed.

Definition bench_up : service := after_verbs [VPrepare bench_request; VComplete bench_id bench_request] bench_service.

Lemma bench_empty_good : good bench_service.
Proof. split; [intros i sb _; done|]. intros i _ Hi. exfalso. revert Hi. cbn [bench_service host leased substrate lab_holdings b_leased b_held empty_bench]. set_solver. Qed.

Lemma bench_up_served : rtc served bench_service bench_up.
Proof. apply after_served, bench_empty_good. Qed.

Lemma bench_up_good : good bench_up.
Proof. exact (rtc_preserved good _ _ served_good bench_up_served bench_empty_good). Qed.

(** The same sandbox up under a record that says failed, which a removal by force moves to stopped and then frees. *)
Definition bench_failed : service :=
  set_repo (landed (set_SState StateFailed (default web (record (repo_of bench_up) bench_id))) (repo_of bench_up)) bench_up.

Lemma bench_failed_formed : well_formed (repo_of bench_failed).
Proof. apply landed_formed; [vm_compute; reflexivity..|]. apply bench_up_good. Qed.

Lemma verbs_refine_machine_witness :
  life bench_id bench_failed = Some StateFailed ∧
  let '(t, s', _) := run_verb (VRemove bench_id true) bench_failed in
  Some StateStopped ∈ life bench_id <$> t ∧ life bench_id s' = None ∧
  chain (off_moves forced_moves) (life bench_id bench_failed) (life bench_id <$> t) (life bench_id s').
Proof.
  split; [vm_compute; reflexivity|].
  pose proof (verbs_refine_machine (VRemove bench_id true) bench_failed bench_id lab_ids bench_failed_formed
    ltac:(vm_compute; reflexivity)) as H.
  assert (Hrun : let '(t, s', _) := run_verb (VRemove bench_id true) bench_failed in
    bool_decide (Some StateStopped ∈ life bench_id <$> t) && bool_decide (life bench_id s' = None) = true) by (vm_compute; reflexivity).
  destruct (run_verb (VRemove bench_id true) bench_failed) as [[t s'] a]. apply andb_true_iff in Hrun as [H1 H2].
  split; [exact (bool_decide_eq_true_1 _ H1)|]. split; [exact (bool_decide_eq_true_1 _ H2)|]. exact H.
Defined.

(** A daemon that comes up beside the sandbox. *)
Definition quiet_boot : boot_answers := MkBootAnswers true (λ _, true) true true true (λ _ _, false).
Definition bench_restarted : service := after_verbs [VDaemonStart quiet_boot] bench_up.

Lemma nothing_orphaned_witness :
  bench_id ∈ leased (host bench_restarted) ∪ substrate (host bench_restarted) ∧
  ∃ sb, Get (repo_of bench_restarted) bench_id = Ok sb ∧ ID sb = bench_id.
Proof.
  assert (Hi : bench_id ∈ leased (host bench_restarted) ∪ substrate (host bench_restarted))
    by (apply (bool_decide_unpack _); vm_compute; reflexivity).
  split; [exact Hi|].
  exact (nothing_orphaned bench_service bench_restarted bench_id eq_refl eq_refl eq_refl
    (transitivity bench_up_served (after_served _ bench_up bench_up_good)) ltac:(vm_compute; reflexivity) Hi).
Defined.
